(* ===== verification/_CoqProject ===== *)
-Q . S2P
Prelude.v
Protocol.v
Wire.v
Mailbox.v
Lifecycle.v
LifecycleConc.v
ReadyQueue.v
TimerWheel.v
TimerService.v
ProcessTable.v
Arena.v
TableSteps.v
TableInv.v
TableMail.v
TableSup.v
Driver.v
Graph.v
Telemetry.v
Types.v
Registry.v
Unify.v
Usefulness.v
Coverage.v
Syntax.v
DefiniteAssignment.v
Chars.v
Doc.v
IRValue.v
EvalOps.v
BinaryOps.v
BinaryBits.v
BinaryLower.v
IntrinsicId.v
IRFunction.v
Dominators.v
Seal.v
Interpreter.v
EvalRefine.v
EvalFacts.v
SealSound.v
YieldChecks.v
YieldSound.v
TailCalls.v
TailCallsSound.v
Lexer.v
LexerSound.v
Literals.v
LiteralsSound.v
HeredocSound.v
Cycle.v
BuiltOrder.v
TypeParser.v
TypeTotal.v
TypeKinds.v
TypeRoundtrip.v
Mangling.v
MangleSound.v
