(* ===== verification/Prelude.v ===== *)
(** * Koja: a verification library

    Koja is a compiled, process-oriented language. The repository holds its
    compiler, an IR interpreter, an LLVM backend, a formatter, editor tooling and
    the runtime that schedules its lightweight processes. This library models the
    parts that carry the program's own logic as Rocq functions and proves what
    each of them promises. Source paths are under [src/crates/].

    ** The parts and how they interact

    The runtime ([koja-runtime-core]) keeps every process in one table. A process
    is a slot with a packed lifecycle word (generation, state, cpu claim), a
    mailbox and an execution cell. The driver loop takes signals, fires due
    timers, pops the next process off the ready queue, claims it in the table and
    resumes it; sending, receiving, parking, killing and monitoring are methods of
    the table that hand wakes back to the driver. Timers sit in a timing wheel
    behind a timer service. The compiler's front end ([koja-typecheck]) keeps all
    declarations in a registry; inference unifies resolved types over it and the
    match checker deconstructs patterns against it. The graph crate orders
    packages and finds dependency cycles.

    ** Files

    Runtime:
    - [Prelude]: machine words ([wrap], [swrap]), tactics, hint databases, the
      state monad of the table, lemmas on lists, maps and options.
    - [Protocol]: [context.rs], [protocol.rs], [timing.rs] and the plain types of
      [process_table.rs].
    - [Wire]: [wire.rs], [memory.rs]: envelopes and the counting allocator.
    - [Mailbox]: [mailbox.rs].
    - [Lifecycle]: [lifecycle.rs], the packed 64-bit word and its
      compare-and-swap edges; [LifecycleConc]: the same edges under arbitrary
      interleavings of threads.
    - [ReadyQueue]: [ready_queue.rs]. [TimerWheel]: [timer_wheel.rs].
      [TimerService]: [timer_service.rs], over the interface [TimerQueue] that
      the wheel implements.
    - [ProcessTable]: every method of [process_table.rs] as a state-passing
      function; [Arena]: its chunked slot storage and PID packing. [TableSteps]
      is the abstract transition system that the methods implement; [TableInv],
      [TableMail] and [TableSup] prove the invariants on it.
    - [Driver]: [driver.rs], the run loop over an abstract [Host] (clock, signals,
      reactor, executor).
    - [Telemetry]: [export_queue.rs], [span_ids.rs].

    Compiler:
    - [Graph]: [koja-graph/src].
    - [Types]: [koja-ast/src/identifier.rs], [span.rs] and the declarations of
      [koja-typecheck/src/registry/definitions.rs].
    - [Registry]: [koja-typecheck/src/registry/mod.rs].
    - [Unify]: [koja-typecheck/src/pipeline/unify.rs] and the type predicates of
      [pipeline/resolve/types.rs].
    - [Usefulness]: [pipeline/resolve/patterns/usefulness.rs] and the coverage
      loop of [pipeline/resolve/match_expr.rs]; [Coverage]: the meaning of
      patterns and the correctness of the check.
    - [Syntax]: the function bodies of [koja-ast/src/ast.rs] after resolution, with
      one induction over the whole family; [DefiniteAssignment]:
      [pipeline/definite_assignment.rs] and the runs of a body.
    - [Dominators]: [koja-ir/src/dominators.rs].
    - [Chars]: characters and strings; [Doc]: [koja-fmt/src/doc.rs], the document
      renderer of the formatter.
    - [IRValue]: the vocabulary of the evaluator, [koja-ir/src/types.rs],
      [koja-ir-eval/src/value.rs] and [error.rs]; [EvalOps]:
      [koja-ir-eval/src/ops.rs], [intrinsics/bitwise.rs] and the integer part of
      [intrinsics/numeric.rs].
    - [BinaryOps]: [koja-ir/src/binary_packing.rs] and
      [koja-ir-eval/src/binary_ops.rs], with packing and extraction on bits;
      [BinaryBits]: concatenation, construction and matching.
    - [BinaryLower]: the two passes that size the segments of a binary form, in
      the type checker ([pipeline/resolve/literals/binary.rs],
      [patterns/binary.rs]) and in the lowering ([koja-ir/src/lower/binary_literal.rs],
      [binary_match.rs]).
    - [IntrinsicId]: [koja-ir/src/intrinsic_id.rs]. [IRFunction]: functions, blocks,
      instructions and programs of the IR, [koja-ir/src/function.rs], [package.rs],
      [program.rs] and the declarations they hold.
    - [Interpreter]: [koja-ir-eval/src/interpreter.rs], every instruction, receive,
      calls and entry points, over a class [Host] of the effects outside it
      (intrinsics, foreign calls, mailbox, clock); [EvalRefine]: when one program's
      runs are contained in another's, and that fuel is monotone; [EvalFacts]:
      equations of the walk over blocks.
    - [TailCalls]: [koja-ir/src/tail_calls.rs]; [TailCallsSound]: that the pass
      preserves the runs of a program.
    - [Seal]: [koja-ir/src/seal/function.rs] and [calls.rs], the checks before a
      backend; [SealSound]: what they mean for a run.
    - [Cycle]: [koja-ir/src/cycle.rs], the pass that breaks recursive types.
    - [BuiltOrder]: [koja-ir/src/built_order.rs], [declarations.rs] and
      [seal/constants.rs], the order in which constants are built at startup.
    - [Mangling]: [koja-ir/src/mangling.rs], the symbols of instantiated declarations;
      [MangleSound]: that they are unique.
    - [YieldChecks]: [koja-ir/src/yield_checks.rs], with the runs of a body block by
      block; [YieldSound]: that the checks are transparent.
    - [Lexer]: [koja-lexer/src/cursor.rs] and [lexer.rs], the tokens of
      [koja-ast/src/token.rs]; [LexerSound]: the cut of a source into pieces and the
      grammar of strings. [Literals]: how strings are printed
      ([koja-fmt/src/printer/util.rs], [expr.rs], [lib.rs]) and dedented
      ([koja-parser/src/construct/string.rs]); [LiteralsSound], [HeredocSound]: that
      printing and reading are inverse.
    - [TypeParser]: the token navigation of [koja-parser/src/parser.rs], the grammar of
      types of [types.rs] and the printer of types of [koja-fmt/src/printer/util.rs];
      [TypeTotal]: the parser on any tokens; [TypeKinds], [TypeRoundtrip]: the parser and
      the lexer on what the printer writes.

    ** How code becomes definitions

    A struct is a [Record], an enum an [Inductive], a method a function from the
    state to its result and the new state. A panic, a failed [expect] or an index
    out of range is [None]. Machine integers are [Z] with the wrap written out
    where it can happen. Hash and tree maps are [gmap]s, sets [gset]s, read in key
    order where the code iterates a tree. Code outside the repository (libc, the
    platform's clock, signals and reactor, compiled process bodies) is a parameter
    with named laws.

    ** What the theorems show

    - Scheduling: a runnable process is always queued and the driver polls the reactor
      only when nothing can run; aging bounds every wait; the grace deadline ends the
      loop; an idle sleep never outlasts a timer.
    - Messages: every message is in one mailbox until it is handed back; a process
      sleeps on mail it already has only after a park that did not look, of which the
      evaluator has one ([TableMail.dropped_then_asleep]).
    - Processes: gauges are exact, PIDs are never resurrected, state changes are
      legal edges, monitors notify once, orphans are killed, a slot's execution
      cell has one owner and a dead slot is reclaimed once, under any
      interleaving.
    - Data structures as refinements: mailbox to arrival log, wheel to bag, timer
      service to agenda, arena to vector, compare-and-swap loops to atomic steps.
    - Round trips: lifecycle words, PIDs, envelopes; unification of an instance learns
      the parameters outside unions.
    - Compiler: registry uniqueness and its error behaviour, inference, match
      coverage, topological order, cycle search, reachability.
    - Analyses: a body accepted by the definite-assignment walk reads no unassigned
      local, when what the walk takes for always evaluated is
      [DefiniteAssignment.steady], which it does not check; the iterative dominator
      algorithm computes dominance by paths. Formatter: rendering keeps the text, and a
      group is flat exactly when it fits.
    - Evaluator: operators keep every value in the representation of its type, and
      integer arithmetic meets its documented contract but in two named cases; binaries
      pack, concatenate, build and match bit for bit. Every literal or pattern of a
      binary the checker accepts lowers, and the theorems say exactly when the result
      runs: not for values of another kind than the annotation, nor, with overflow
      checks, for integers wider than 64 bits. Where the code lets something through
      that goes wrong, an [Example] shows it.
    - Passes: the tail-call pass keeps what every run of a lowered program does and
      returns, is complete and idempotent. [TailCallsSound.lowered_ok] is the
      decidable shape of lowered code it asks for. Intrinsic names and ids are
      inverse to each other.
    - Sealed programs never read an undefined register. After the yield-check pass a
      process passes a check at least once in as many blocks as its body has, and
      nothing else about its runs changes. [SealSound.body_ready] and
      [YieldChecks.reducible] decide the shapes of lowered code these ask for.
    - After the cycle-breaking pass no declaration holds itself inline, and only slots
      on a cycle have changed. [Cycle.packages_ok] is what it asks of the declarations.
    - Constants are built at startup after everything their inits may load; when that
      is impossible each constant concerned gets a diagnostic that names why.
    - Sources: lexing is total and loses nothing, an error-free token stream has its
      strings and interpolations closed, and a string printed by the formatter in
      quoted form is read back as the same value; in heredoc form, as the value
      without the trailing blanks the last pass of the formatter trims.
    - Types: the parser of types returns on every token stream, and a type printed at any
      width is read back as the same type through renderer, lexer and parser.
      [TypeKinds.printable] decides which; the one kind of type it should not leave out,
      a union whose first member is a function, is shown to change.
    - Symbols: types, methods, functions and type glue share a symbol only when they are
      the same, for declarations whose names are words and whose nested types are called
      neither like a package nor like a builtin; names outside of this are shown to
      collide.

    ** Fuel

    Loops and recursion that are not structural take fuel. Where a theorem says
    that a result exists it gives the amount that is enough or shows that some
    amount is: [Graph]'s walks need the node count, the wheel's drain the span of
    the ring, a driver run the number of iterations asked for; the usefulness
    recursion has some sufficient fuel for every input, by a measure on pattern
    weights ([Coverage]), and more fuel never changes an answer.
    [types_equivalent] follows aliases, which can be cyclic, so its callers
    carry its fuel.
    [Dominators] runs on the number of blocks plus two: the passes of the
    iteration are bounded by the longest simple path, the climbs by the postorder
    numbers. [Doc] runs on the weight of the document.
    [BinaryOps.append_loop] runs on the number of bits to append, at least one per
    turn.
    The evaluator runs programs that need not end: its fuel bounds calls, blocks and
    receives, [OutOfFuel] is no result, and more fuel never changes a result
    ([EvalRefine.fuel_mono_all]). The collapse of forwarders runs on the number of
    blocks with one parameter, which every turn lowers
    ([TailCalls.collapse_terminates]).
    [Seal.walk_dominator_subtree] runs on the number of blocks, which bounds the
    depth of the dominator tree.
    Every loop of the lexer runs on the length of the source and consumes a
    character per turn; [LexerSound.lex_lossless] shows it is enough.
    The loops of the type parser run on twice the number of tokens;
    [TypeTotal.type_parser_total] shows it is enough on any tokens.

    ** Not modelled

    The parser's grammar, the formatter's printers, lowering and the LLVM backend, the language
    server, project files, documentation, the command line and the shell are
    printing, I/O or glue over libraries. The POSIX runtime is context switching,
    threads and system calls. Of the type checker, name collection, call and
    expression resolution and lifting are not reached. In the modelled parts: lock acquisition
    and the interleaving of two table calls (the lifecycle word they race on is
    interleaved), atomics' memory orders, diagnostics' texts and spans, and
    allocation capacities; reference counts of the evaluator (which registers share
    storage is asked of the host), the intrinsics themselves, and that a program that
    never ends still does not after the tail-call pass. *)

From Stdlib Require Export ZArith Lia List Bool.
From stdpp Require Export base tactics decidable option list numbers sorting.
From stdpp Require Export gmap sets.

#[export] Set Default Goal Selector "!".

(** ** Notations

    Arithmetic on unsigned machine words, in a scope of its own: [x +u64 y] is
    what an atomic [fetch_add] on a [u64] or [usize] computes. *)

Declare Scope koja_scope.
Delimit Scope koja_scope with koja.

(** The value of [z] as an unsigned integer of [w] bits (an [as] cast). *)
Definition wrap (w z : Z) : Z := (z mod 2 ^ w)%Z.

(** The value of [z] as a two's complement integer of [w] bits. *)
Definition swrap (w z : Z) : Z :=
  (let m := wrap w z in if m <? 2 ^ (w - 1) then m else m - 2 ^ w)%Z.

Notation "x +u64 y" := (wrap 64 (x + y)%Z)
  (at level 50, left associativity) : koja_scope.
Notation "x -u64 y" := (wrap 64 (x - y)%Z)
  (at level 50, left associativity) : koja_scope.

Open Scope koja_scope.
Open Scope Z_scope.

(** ** Tactics *)

(** Case analysis on the scrutinee of some [match] or [if] of the goal or of a
    hypothesis, keeping the equation. *)
Ltac break_match :=
  match goal with
  | |- context [match ?x with _ => _ end] => destruct x eqn:?
  end.
Ltac break_match_in H :=
  match type of H with
  | context [match ?x with _ => _ end] => destruct x eqn:?
  end.

(** Turn the boolean comparisons among the hypotheses into propositions. *)
Ltac bool_to_prop :=
  repeat match goal with
  | H : (_ && _)%bool = true |- _ => apply andb_true_iff in H as [? ?]
  | H : (_ || _)%bool = false |- _ => apply orb_false_iff in H as [? ?]
  | H : negb _ = true |- _ => apply negb_true_iff in H
  | H : negb _ = false |- _ => apply negb_false_iff in H
  | H : (_ =? _) = true |- _ => apply Z.eqb_eq in H
  | H : (_ =? _) = false |- _ => apply Z.eqb_neq in H
  | H : (_ <=? _) = true |- _ => apply Z.leb_le in H
  | H : (_ <=? _) = false |- _ => apply Z.leb_gt in H
  | H : (_ <? _) = true |- _ => apply Z.ltb_lt in H
  | H : (_ <? _) = false |- _ => apply Z.ltb_ge in H
  | H : bool_decide _ = true |- _ => apply bool_decide_eq_true in H
  | H : bool_decide _ = false |- _ => apply bool_decide_eq_false in H
  end.

(** Normalise the equations of a proof state produced by [break_match]. *)
Ltac clean := repeat (simplify_eq/=; bool_to_prop).

Create HintDb koja discriminated.

(** ** Machine words *)

Lemma wrap_range w z : 0 <= w -> 0 <= wrap w z < 2 ^ w.
Proof. intros. apply Z.mod_pos_bound, Z.pow_pos_nonneg; lia. Qed.

Lemma wrap_small w z : 0 <= z < 2 ^ w -> wrap w z = z.
Proof. apply Z.mod_small. Qed.

Lemma wrap_idemp w z : 0 <= w -> wrap w (wrap w z) = wrap w z.
Proof. intros. apply wrap_small, wrap_range; lia. Qed.

Lemma swrap_range w z : 0 < w -> - 2 ^ (w - 1) <= swrap w z < 2 ^ (w - 1).
Proof.
  intros Hw. pose proof (wrap_range w z ltac:(lia)).
  assert (2 ^ w = 2 * 2 ^ (w - 1))
    by (rewrite <- Z.pow_succ_r; [f_equal; lia|lia]).
  unfold swrap. destruct (Z.ltb_spec (wrap w z) (2 ^ (w - 1))); lia.
Qed.

Lemma swrap_small w z : 0 < w -> - 2 ^ (w - 1) <= z < 2 ^ (w - 1) -> swrap w z = z.
Proof.
  intros Hw Hz.
  assert (2 ^ w = 2 * 2 ^ (w - 1))
    by (rewrite <- Z.pow_succ_r; [f_equal; lia|lia]).
  unfold swrap, wrap. destruct (Z.ltb_spec z 0) as [Hn|Hn].
  - replace (z mod 2 ^ w) with (z + 2 ^ w).
    + destruct (Z.ltb_spec (z + 2 ^ w) (2 ^ (w - 1))); lia.
    + apply (Z.mod_unique _ _ (-1)); lia.
  - rewrite Z.mod_small by lia. destruct (Z.ltb_spec z (2 ^ (w - 1))); lia.
Qed.

(** Truncating a sign-reinterpreted word forgets the reinterpretation. *)
Lemma wrap_swrap w z : 0 < w -> wrap w (swrap w z) = wrap w z.
Proof.
  intros Hw. unfold swrap. destruct (_ <? _).
  - apply wrap_idemp. lia.
  - unfold wrap. rewrite <- (Z.mul_1_l (2 ^ w)) at 2.
    replace (z mod 2 ^ w - 1 * 2 ^ w) with (z mod 2 ^ w + (-1) * 2 ^ w) by lia.
    rewrite Z.mod_add by (apply Z.pow_nonzero; lia).
    apply Z.mod_mod, Z.pow_nonzero; lia.
Qed.

#[export] Hint Rewrite Z.land_spec Z.lor_spec Z.lxor_spec : bits.
#[export] Hint Rewrite Z.testbit_0_l Z.bits_0 : bits.

(** A field or-ed in below a shifted one is their sum. *)
Lemma lor_disjoint_add a b k :
  0 <= k -> 0 <= b < 2 ^ k -> Z.lor (Z.shiftl a k) b = a * 2 ^ k + b.
Proof.
  intros Hk Hb.
  assert (Z.land (Z.shiftl a k) b = 0) as Hland.
  { apply Z.bits_inj'. intros n Hn. rewrite Z.land_spec, Z.bits_0.
    destruct (Z.ltb_spec n k).
    - by rewrite Z.shiftl_spec_low.
    - rewrite <- (Z.mod_small b (2 ^ k)) by lia.
      rewrite Z.mod_pow2_bits_high by lia. apply andb_false_r. }
  rewrite <- Z.shiftl_mul_pow2 by lia.
  by rewrite Z.add_nocarry_lxor, Z.lxor_lor by done.
Qed.

(** ** Lists *)

(** The number of elements that satisfy a boolean test. *)
Definition countb {A} (f : A -> bool) (l : list A) : Z :=
  Z.of_nat (length (List.filter f l)).

Definition b2z (b : bool) : Z := if b then 1 else 0.

Section Count.
Context {A : Type} (f : A -> bool).

Lemma countb_nil : countb f [] = 0.
Proof. reflexivity. Qed.

Lemma countb_cons x l : countb f (x :: l) = b2z (f x) + countb f l.
Proof. unfold countb, b2z. simpl. destruct (f x); simpl; lia. Qed.

Lemma countb_app l1 l2 : countb f (l1 ++ l2) = countb f l1 + countb f l2.
Proof. induction l1; simpl; rewrite ?countb_cons, ?countb_nil; lia. Qed.

Lemma countb_nonneg l : 0 <= countb f l.
Proof. unfold countb. lia. Qed.

Lemma countb_le_length l : countb f l <= Z.of_nat (length l).
Proof.
  induction l; [reflexivity|]. rewrite countb_cons. unfold b2z. simpl length.
  destruct (f a); lia.
Qed.

(** Replacing one element changes the count by the difference of its test. *)
Lemma countb_insert l i x y :
  l !! i = Some x -> countb f (<[i:=y]> l) = countb f l - b2z (f x) + b2z (f y).
Proof.
  revert i. induction l as [|z l IH]; intros [|i] Hi; simplify_eq/=.
  - rewrite !countb_cons. lia.
  - rewrite !countb_cons, (IH i) by done. lia.
Qed.

Lemma countb_pos l i x : l !! i = Some x -> f x = true -> 0 < countb f l.
Proof.
  intros Hi Hf. apply take_drop_middle in Hi. rewrite <- Hi, countb_app, countb_cons, Hf.
  pose proof (countb_nonneg (take i l)). pose proof (countb_nonneg (drop (S i) l)).
  simpl. lia.
Qed.

Lemma countb_zero l : countb f l = 0 <-> forall x, x ∈ l -> f x = false.
Proof.
  induction l as [|y l IH].
  - split; [intros _ x Hx; inversion Hx|done].
  - rewrite countb_cons. pose proof (countb_nonneg l). split.
    + intros Hc x Hx. apply elem_of_cons in Hx as [->|Hx].
      * destruct (f y); simpl in Hc; [lia|done].
      * apply IH; [destruct (f y); simpl in Hc; lia|done].
    + intros Hall. rewrite (Hall y) by (left). simpl.
      apply IH. intros x Hx. apply Hall. by right.
Qed.
End Count.

(** ** Vectors of vectors *)

Lemma alter_as_insert {A} (f : A -> A) (l : list A) (i : nat) x : l !! i = Some x -> alter f i l = <[i:=f x]> l.
Proof.
  intros Hi. apply list_eq. intros j. destruct (decide (i = j)) as [->|].
  - rewrite list_lookup_alter_eq, Hi, list_lookup_insert_eq; [done|by eapply lookup_lt_Some].
  - by rewrite list_lookup_alter_ne, list_lookup_insert_ne.
Qed.

Lemma alter_past_end {A} (f : A -> A) (l : list A) (i : nat) :
  (length l <= i)%nat -> alter f i l = l.
Proof.
  intros Hi. apply list_eq. intros j. destruct (decide (i = j)) as [->|].
  - by rewrite list_lookup_alter_eq, lookup_ge_None_2.
  - by rewrite list_lookup_alter_ne.
Qed.

Lemma concat_nil_part {A} (parts : list (list A)) part : concat parts = [] -> part ∈ parts -> part = [].
Proof.
  induction parts as [|p parts IH]; simpl; intros H Hp; [by apply not_elem_of_nil in Hp|].
  apply app_eq_nil in H as [-> H]. apply elem_of_cons in Hp as [->|Hp]; auto.
Qed.

(** Replacing one inner vector exchanges its elements in the concatenation. *)
Lemma concat_insert_perm {A} (ls : list (list A)) i l l' :
  ls !! i = Some l -> Permutation (l' ++ concat ls) (l ++ concat (<[i:=l']> ls)).
Proof.
  revert i. induction ls as [|k ls IH]; intros [|i] Hi; simplify_eq/=.
  - rewrite !(app_assoc _ _ (concat ls)). f_equiv. apply Permutation_app_comm.
  - rewrite (app_assoc l' k), (Permutation_app_comm l' k), <- app_assoc, (IH i) by done.
    rewrite !app_assoc. f_equiv. apply Permutation_app_comm.
Qed.

(** ** Vec operations of the Rust standard library *)

(** [Vec::pop]: the last element and the vector without it. *)
Definition vec_pop {A} (l : list A) : option (A * list A) :=
  match rev l with
  | [] => None
  | x :: r => Some (x, rev r)
  end.

Lemma concat_lookup_ext {A} (l l' : list (list A)) :
  (forall j, default [] (l !! j) = default [] (l' !! j)) -> concat l = concat l'.
Proof.
  revert l'. induction l as [|x l IH]; intros l' Hl.
  - induction l' as [|y l' IH']; [done|]. simpl.
    pose proof (Hl 0%nat) as H0. simpl in H0. rewrite <- H0. apply IH'. intros j. exact (Hl (S j)).
  - destruct l' as [|y l']; simpl.
    + pose proof (Hl 0%nat) as H0. simpl in H0. subst x. rewrite (IH []); [done|].
      intros j. exact (Hl (S j)).
    + pose proof (Hl 0%nat) as H0. simpl in H0. subst y. f_equal. apply IH. intros j. exact (Hl (S j)).
Qed.

Lemma vec_pop_Some {A} (l : list A) x r : vec_pop l = Some (x, r) <-> l = r ++ [x].
Proof.
  unfold vec_pop. destruct (rev l) as [|y r'] eqn:E.
  - split; [done|]. intros ->. rewrite rev_app_distr in E. discriminate.
  - assert (l = rev r' ++ [y]) as -> by (rewrite <- (rev_involutive l), E; done).
    split; [naive_solver|]. intros H. apply app_inj_tail in H as [-> ->]. done.
Qed.

Lemma vec_pop_None {A} (l : list A) : vec_pop l = None <-> l = [].
Proof.
  unfold vec_pop. destruct (rev l) as [|y r'] eqn:E.
  - split; [|done]. intros _. by rewrite <- (rev_involutive l), E.
  - split; [done|]. intros ->. discriminate.
Qed.

(** [Vec::swap_remove i]: the last element takes the place of the removed one. *)
Definition swap_remove {A} (i : nat) (l : list A) : list A :=
  match vec_pop l with
  | None => l
  | Some (x, r) => <[i:=x]> r
  end.

Lemma insert_middle_perm {A} (l : list A) i x y :
  l !! i = Some x -> Permutation (x :: <[i:=y]> l) (y :: l).
Proof.
  revert i. induction l as [|z l IH]; intros [|i] Hi; simplify_eq/=.
  - apply perm_swap.
  - rewrite perm_swap. rewrite (IH i) by done. apply perm_swap.
Qed.

Lemma swap_remove_perm {A} (l : list A) i x :
  l !! i = Some x -> Permutation l (x :: swap_remove i l).
Proof.
  intros Hi. unfold swap_remove. destruct (vec_pop l) as [[y r]|] eqn:E.
  - apply vec_pop_Some in E as ->.
    destruct (decide (i < length r)%nat) as [Hlt|Hge].
    + rewrite lookup_app_l in Hi by done.
      rewrite (insert_middle_perm r i x y Hi).
      rewrite Permutation_app_comm. done.
    + pose proof (lookup_lt_Some _ _ _ Hi) as Hl. rewrite length_app in Hl. simpl in Hl.
      assert (i = length r) as -> by lia.
      rewrite list_insert_ge by lia. rewrite lookup_app_r in Hi by lia.
      rewrite Nat.sub_diag in Hi. simplify_eq/=.
      by rewrite Permutation_app_comm.
  - apply vec_pop_None in E as ->. done.
Qed.

Lemma swap_remove_length {A} (l : list A) i x :
  l !! i = Some x -> length l = S (length (swap_remove i l)).
Proof. intros H. by rewrite (swap_remove_perm l i x H) at 1. Qed.

Lemma swap_remove_lookup_lt {A} (l : list A) i j x :
  l !! i = Some x -> (j < i)%nat -> swap_remove i l !! j = l !! j.
Proof.
  intros Hi Hj. unfold swap_remove. destruct (vec_pop l) as [[y r]|] eqn:E; [|done].
  apply vec_pop_Some in E as ->. apply lookup_lt_Some in Hi. rewrite length_app in Hi. simpl in Hi.
  rewrite list_lookup_insert_ne by lia. by rewrite lookup_app_l by lia.
Qed.

Lemma filterb_elem {A} (f : A -> bool) l x : x ∈ List.filter f l <-> x ∈ l /\ f x = true.
Proof. rewrite !list_elem_of_In. apply filter_In. Qed.

Lemma filterb_all {A} (f : A -> bool) l : (forall x, x ∈ l -> f x = true) -> List.filter f l = l.
Proof.
  induction l as [|a l IH]; intros H; simpl; [done|].
  rewrite H by left. rewrite IH; [done|]. intros x Hx. apply H. by right.
Qed.

Lemma filterb_none {A} (f : A -> bool) l : (forall x, x ∈ l -> f x = false) -> List.filter f l = [].
Proof.
  induction l as [|a l IH]; intros H; simpl; [done|].
  rewrite H by left. apply IH. intros x Hx. apply H. by right.
Qed.

#[export] Instance filterb_proper {A} (f : A -> bool) :
  Proper (Permutation ==> Permutation) (List.filter f).
Proof.
  intros l l' H. induction H as [|x l l' _ IH|x y l|l1 l2 l3 _ IH1 _ IH2]; simpl.
  - done.
  - destruct (f x); [by f_equiv|done].
  - destruct (f x), (f y); try done. apply perm_swap.
  - by rewrite IH1.
Qed.

(** A split of a bag by a test is the split of [filter]. *)
Lemma partition_unique {A} (f : A -> bool) l a b :
  Permutation l (a ++ b) -> (forall x, x ∈ a -> f x = true) -> (forall x, x ∈ b -> f x = false) ->
  Permutation a (List.filter f l) /\ Permutation b (List.filter (fun x => negb (f x)) l).
Proof.
  intros Hp Ha Hb. rewrite Hp, !List.filter_app. split.
  - by rewrite (filterb_all _ a), (filterb_none _ b), app_nil_r.
  - rewrite (filterb_none _ a), (filterb_all _ b); [done| |]; intros x Hx.
    + by rewrite Hb.
    + by rewrite Ha.
Qed.

(** [retain] together with the elements it drops is a permutation. *)
Lemma filter_partition {A} (f : A -> bool) l :
  Permutation l (List.filter f l ++ List.filter (fun x => negb (f x)) l).
Proof.
  induction l as [|a l IH]; simpl; [done|].
  destruct (f a); simpl.
  - by f_equiv.
  - rewrite <- Permutation_middle. by f_equiv.
Qed.

#[export] Hint Resolve wrap_range swrap_range countb_nonneg : koja.
