(* ===== verification/Protocol.v ===== *)
(** * The shared vocabulary of the runtime

    Models [koja-runtime-core/src/context.rs], [protocol.rs], [timing.rs] and
    the plain data types of [process_table.rs]: the request context, routing
    tags and the [Message] trait, lifecycle events, readiness and wakers,
    process states with their legal edges, priorities and exit reasons.

    A [u64] word is a [Z] in [0, 2^64), an [i64] a [Z] in [-2^63, 2^63), and an
    [Instant] a [Z] counting nanoseconds of the monotonic clock. *)

From S2P Require Import Prelude.
From stdpp Require Import strings.
Local Open Scope Z_scope.

(** ** The request context ([context.rs]) *)

Definition FLAG_SAMPLED : Z := 1.
Definition CONTEXT_SIZE : Z := 32.

Record Context := mkContext {
  flags : Z;
  span : Z;
  trace_hi : Z;
  trace_lo : Z;
}.

Definition ZERO : Context := mkContext 0 0 0 0.

Definition sampled (c : Context) : bool :=
  negb (Z.land (flags c) FLAG_SAMPLED =? 0).

(** The four slot words, in field order. *)
Definition to_words (c : Context) : list Z :=
  [flags c; span c; trace_hi c; trace_lo c].

(** [from_words] indexes a [[u64; 4]]; other lengths are not values of that type. *)
Definition from_words (words : list Z) : Context :=
  mkContext (nth 0 words 0) (nth 1 words 0) (nth 2 words 0) (nth 3 words 0).

#[export] Instance context_eq_dec : EqDecision Context.
Proof. solve_decision. Defined.

(** ** Protocol types ([protocol.rs]) *)

(** A process handle, an [i64]. *)
Notation Pid := Z (only parsing).
(** A monotonic instant, in nanoseconds. *)
Notation Instant := Z (only parsing).
(** A length of time, in nanoseconds. *)
Notation Duration := Z (only parsing).

Inductive Tag := Business | ExitSignal | IOReady | TagLifecycle | Reply.

#[export] Instance tag_eq_dec : EqDecision Tag.
Proof. solve_decision. Defined.

(** The [Message] trait. [reply_token] has the default [0] in the source; an
    instance that carries no token gives that value. *)
Class Message (M : Type) := {
  msg_tag : M -> Tag;
  msg_context : M -> Context;
  reply_token : M -> Z;
}.

Inductive Lifecycle := Shutdown | Interrupt | Reload.

#[export] Instance lifecycle_eq_dec : EqDecision Lifecycle.
Proof. solve_decision. Defined.

(** The discriminants [Shutdown = 0], [Interrupt = 1], [Reload = 2]. *)
Definition lifecycle_index (e : Lifecycle) : Z :=
  match e with Shutdown => 0 | Interrupt => 1 | Reload => 2 end.

Definition lifecycle_from_index (index : Z) : option Lifecycle :=
  if index =? 0 then Some Shutdown
  else if index =? 1 then Some Interrupt
  else if index =? 2 then Some Reload
  else None.

Definition lifecycle_variant_name (e : Lifecycle) : string :=
  match e with
  | Shutdown => "Shutdown"
  | Interrupt => "Interrupt"
  | Reload => "Reload"
  end.

Inductive Interest := InterestReadable | InterestWritable.

Inductive Readiness := ReadyError | ReadyReadable | ReadyWritable.

Inductive Waker :=
  | WakerDeliver (fd : Z) (pid : Pid) (readiness : Readiness)
  | WakerResume (pid : Pid).

(** [MessageSource]: what the cooperative driver asks its executor to mint. *)
Class MessageSource (M : Type) := {
  lifecycle_message : Lifecycle -> M;
  io_ready_message : Readiness -> Z -> M;
}.

(** ** Process states ([process_table.rs]) *)

Inductive ProcessState := Created | Runnable | Running | Blocked | WaitingIO | Dead.

#[export] Instance process_state_eq_dec : EqDecision ProcessState.
Proof. solve_decision. Defined.

Definition wire_index (s : ProcessState) : option Z :=
  match s with
  | Blocked => Some 0
  | Created => Some 1
  | Runnable => Some 2
  | Running => Some 3
  | WaitingIO => Some 4
  | Dead => None
  end.

Definition from_wire_index (index : Z) : option ProcessState :=
  if index =? 0 then Some Blocked
  else if index =? 1 then Some Created
  else if index =? 2 then Some Runnable
  else if index =? 3 then Some Running
  else if index =? 4 then Some WaitingIO
  else None.

(** Whether [from -> to] is a legal process lifecycle edge. *)
Definition is_legal_transition (from to : ProcessState) : bool :=
  match from, to with
  | (Created | Runnable), Running => true
  | Running, (Blocked | WaitingIO | Dead) => true
  | (Running | Blocked | WaitingIO), Runnable => true
  | (Created | Runnable | Blocked | WaitingIO), Dead => true
  | _, _ => false
  end.

Inductive Priority := Low | Normal | High.

#[export] Instance priority_eq_dec : EqDecision Priority.
Proof. solve_decision. Defined.

(** [Priority as u8] / [as usize]: the declaration order. *)
Definition priority_index (p : Priority) : Z :=
  match p with Low => 0 | Normal => 1 | High => 2 end.

Definition priority_default : Priority := Normal.

Definition priority_from_index (index : Z) : Priority :=
  if index =? 0 then Low else if index =? 2 then High else Normal.

Definition budget (p : Priority) : Z :=
  match p with Low => 1000 | Normal => 2000 | High => 4000 end.

Inductive ExitReason := ExitNormal | ExitShutdown | ExitKilled | ExitCrashed.

#[export] Instance exit_reason_eq_dec : EqDecision ExitReason.
Proof. solve_decision. Defined.

(** The discriminants of [ExitReason]. *)
Definition exit_reason_index (r : ExitReason) : Z :=
  match r with ExitNormal => 0 | ExitShutdown => 1 | ExitKilled => 2 | ExitCrashed => 3 end.

Definition exit_reason_from_index (index : Z) : ExitReason :=
  if index =? 1 then ExitShutdown
  else if index =? 2 then ExitKilled
  else if index =? 3 then ExitCrashed
  else ExitNormal.

Definition exit_reason_variant_name (r : ExitReason) : string :=
  match r with
  | ExitNormal => "Normal"
  | ExitShutdown => "Shutdown"
  | ExitKilled => "Killed"
  | ExitCrashed => "Crashed"
  end.

Record CrashInfo := mkCrashInfo { crash_message : string; crash_backtrace : string }.

#[export] Instance crash_info_eq_dec : EqDecision CrashInfo.
Proof. solve_decision. Defined.

(** A newly runnable process for the caller to enqueue. *)
Record Wake := mkWake { wake_pid : Pid; wake_priority : Priority }.

#[export] Instance wake_eq_dec : EqDecision Wake.
Proof. solve_decision. Defined.

(** ** Durations given by the user ([timing.rs]) *)

Definition NANOS_PER_MILLI : Z := 1000000.

(** [Duration::from_millis(milliseconds.max(0) as u64)]. *)
Definition duration_from_user_millis (milliseconds : Z) : Duration :=
  Z.max milliseconds 0 * NANOS_PER_MILLI.

(** [Instant::now()] is the argument [now]. *)
Definition deadline_from_user_millis (now : Instant) (timeout_ms : Z) : option Instant :=
  if timeout_ms <? 0 then None else Some (now + duration_from_user_millis timeout_ms).

(** ** Facts *)

Lemma from_wire_index_wire s i : from_wire_index i = Some s <-> wire_index s = Some i.
Proof.
  unfold from_wire_index. split.
  - intros H. repeat (break_match_in H; clean); done.
  - destruct s; simpl; intros [= <-]; done.
Qed.

Lemma legal_from_dead s : is_legal_transition Dead s = false.
Proof. by destruct s. Qed.

Lemma legal_to_created s : is_legal_transition s Created = false.
Proof. by destruct s. Qed.

Lemma legal_irrefl s : is_legal_transition s s = false.
Proof. by destruct s. Qed.

Lemma legal_kill s : s <> Dead -> is_legal_transition s Dead = true.
Proof. by destruct s. Qed.

Lemma budget_pos p : 0 < budget p.
Proof. destruct p; simpl; lia. Qed.

Lemma priority_from_index_index p : priority_from_index (priority_index p) = p.
Proof. by destruct p. Qed.

Lemma exit_reason_from_index_index r : exit_reason_from_index (exit_reason_index r) = r.
Proof. by destruct r. Qed.

Lemma lifecycle_from_index_index e : lifecycle_from_index (lifecycle_index e) = Some e.
Proof. by destruct e. Qed.

Lemma from_to_words c : from_words (to_words c) = c.
Proof. by destruct c. Qed.

#[export] Hint Resolve legal_kill budget_pos : koja.
