(* ===== verification/Wire.v ===== *)
(** * Envelopes and the allocator funnel

    Models [koja-runtime-core/src/wire.rs] and [memory.rs]. An [Envelope] owns its
    transport buffer: the model carries the buffer's bytes with the pointer, and
    the allocator funnel is a ledger of live blocks. The libc allocator behind the
    funnel is a parameter, with what its documentation promises as hypotheses.
    Bytes are [Z] in [0, 256). *)

From S2P Require Import Prelude Protocol.
Local Open Scope Z_scope.

Definition TAG_BUSINESS : Z := 0.
Definition TAG_LIFECYCLE : Z := 1.
Definition TAG_IO_READY : Z := 2.
Definition TAG_REPLY : Z := 3.
Definition TAG_EXIT_SIGNAL : Z := 4.
Definition TAG_HEADER_SIZE : Z := 8.

(** ** The allocator funnel ([memory.rs]) *)

(** The live blocks libc has handed out, and the funnel's counter. *)
Record Heap := mkHeap { blocks : gset Z; LIVE_BLOCKS : Z }.

Definition heap_new : Heap := mkHeap ∅ 0.

(** libc: [malloc] given the live blocks and a size, [realloc] given a block too.
    Null is [0]. *)
Record Libc := mkLibc {
  malloc : gset Z -> Z -> Z;
  realloc_to : gset Z -> Z -> Z -> Z;
}.

(** What the C standard promises: a result is null or a fresh block, and resizing
    to a non-zero size gives the same block or a fresh one. [realloc] to size zero
    is taken in its freeing form, the one the funnel counts on. *)
Record libc_ok (l : Libc) : Prop := {
  malloc_fresh : forall live size, malloc l live size ∉ live;
  realloc_null : forall live size, realloc_to l live 0 size = malloc l live size;
  realloc_live : forall live p size, p ∈ live -> p <> 0 -> size <> 0 ->
    realloc_to l live p size ∉ live ∖ {[p]};
  realloc_zero : forall live p, p ∈ live -> p <> 0 -> realloc_to l live p 0 = 0;
}.

Section Memory.
Context (libc : Libc).

(** [None] is the abort on an allocation failure. *)
Definition alloc (size : Z) (h : Heap) : option (Z * Heap) :=
  let p := malloc libc (blocks h) size in
  if (p =? 0) && negb (size =? 0) then None
  else if p =? 0 then Some (p, h)
  else Some (p, mkHeap ({[p]} ∪ blocks h) (swrap 64 (LIVE_BLOCKS h + 1))).

Definition free (p : Z) (h : Heap) : Heap :=
  if p =? 0 then h else mkHeap (blocks h ∖ {[p]}) (swrap 64 (LIVE_BLOCKS h - 1)).

Definition realloc (p size : Z) (h : Heap) : option (Z * Heap) :=
  let q := realloc_to libc (blocks h) p size in
  if (q =? 0) && negb (size =? 0) then None
  else
    let blocks' := (if q =? 0 then ∅ else {[q]}) ∪ (blocks h ∖ {[p]}) in
    let live :=
      if p =? 0 then (if q =? 0 then LIVE_BLOCKS h else swrap 64 (LIVE_BLOCKS h + 1))
      else if size =? 0 then swrap 64 (LIVE_BLOCKS h - 1)
      else LIVE_BLOCKS h in
    Some (q, mkHeap blocks' live).

Definition live_blocks (h : Heap) : Z := LIVE_BLOCKS h.

(** ** Envelopes ([wire.rs]) *)

Record Envelope := mkEnvelope {
  buffer : Z;
  bytes : list Z;
  env_context : Context;
  drop_glue : option nat;
  env_length : Z;
  env_reply_token : Z;
}.

Definition envelope_new (buf : Z) (contents : list Z) (len : Z) : Envelope :=
  mkEnvelope buf contents ZERO None len 0.

(** [from_payload]: the header is zeroed, the tag stamped at offset 0 and the
    payload copied after the header. *)
Definition from_payload (tag : Z) (payload : list Z) (glue : option nat) (c : Context) (h : Heap)
    : option (Envelope * Heap) :=
  let len := TAG_HEADER_SIZE + Z.of_nat (length payload) in
  match alloc len h with
  | None => None
  | Some (buf, h') =>
      let header := <[0%nat := tag]> (replicate (Z.to_nat TAG_HEADER_SIZE) 0) in
      Some (mkEnvelope buf (header ++ payload) c glue len 0, h')
  end.

Definition tag_byte (e : Envelope) : Z := default 0 (bytes e !! 0%nat).

Definition free_transport (e : Envelope) : Envelope :=
  mkEnvelope (buffer e) (bytes e) (env_context e) None (env_length e) (env_reply_token e).

(** [Drop for Envelope]: the glue calls it makes, with the address each runs
    over, and the heap afterwards. *)
Definition drop_envelope (e : Envelope) (h : Heap) : list (nat * Z) * Heap :=
  (match drop_glue e with Some g => [(g, buffer e + TAG_HEADER_SIZE)] | None => [] end,
   free (buffer e) h).

Record OwnedPayload := mkPayload { payload_buf : Z; payload_glue : option nat }.

Definition payload_default : OwnedPayload := mkPayload 0 None.

Definition payload_free_transport (p : OwnedPayload) : OwnedPayload := mkPayload (payload_buf p) None.

Definition drop_payload (p : OwnedPayload) (h : Heap) : list (nat * Z) * Heap :=
  if payload_buf p =? 0 then ([], h)
  else (match payload_glue p with Some g => [(g, payload_buf p)] | None => [] end,
        free (payload_buf p) h).

Definition envelope_tag (e : Envelope) : Tag :=
  let b := tag_byte e in
  if b =? TAG_LIFECYCLE then TagLifecycle
  else if b =? TAG_IO_READY then IOReady
  else if b =? TAG_REPLY then Reply
  else if b =? TAG_EXIT_SIGNAL then ExitSignal
  else Business.

#[global] Instance envelope_message : Message Envelope := {
  msg_tag := envelope_tag;
  msg_context := env_context;
  reply_token := env_reply_token;
}.

(** The byte a sender stamps for each routing class. *)
Definition wire_byte (t : Tag) : Z :=
  match t with
  | Business => TAG_BUSINESS
  | TagLifecycle => TAG_LIFECYCLE
  | IOReady => TAG_IO_READY
  | Reply => TAG_REPLY
  | ExitSignal => TAG_EXIT_SIGNAL
  end.

(** ** The ledger *)

Inductive MemOp := MAlloc (size : Z) | MRealloc (p size : Z) | MFree (p : Z).

(** Clients only free or resize null or live blocks (the safety contract). *)
Definition mem_step (op : MemOp) (h : Heap) : option Heap :=
  match op with
  | MAlloc size => option_map snd (alloc size h)
  | MRealloc p size =>
      if bool_decide (p = 0 \/ p ∈ blocks h) then option_map snd (realloc p size h) else None
  | MFree p => if bool_decide (p = 0 \/ p ∈ blocks h) then Some (free p h) else None
  end.

Fixpoint mem_run (ops : list MemOp) (h : Heap) : option Heap :=
  match ops with
  | [] => Some h
  | op :: rest => match mem_step op h with Some h' => mem_run rest h' | None => None end
  end.

(** The counter is the number of live blocks, and null is never one. *)
Definition ledger (h : Heap) : Prop :=
  LIVE_BLOCKS h = Z.of_nat (size (blocks h)) /\ 0 ∉ blocks h.

Lemma ledger_add h p :
  ledger h -> Z.of_nat (size (blocks h)) < 2 ^ 62 -> p <> 0 -> p ∉ blocks h ->
  ledger (mkHeap ({[p]} ∪ blocks h) (swrap 64 (LIVE_BLOCKS h + 1))).
Proof.
  intros [Hl H0] Hb Hp Hn. split; simpl; [|set_solver].
  rewrite size_union, size_singleton by set_solver. rewrite Hl, swrap_small; lia.
Qed.

Lemma ledger_remove h p :
  ledger h -> Z.of_nat (size (blocks h)) < 2 ^ 62 -> p ∈ blocks h ->
  ledger (mkHeap (blocks h ∖ {[p]}) (swrap 64 (LIVE_BLOCKS h - 1))).
Proof.
  intros [Hl H0] Hb Hp. split; simpl; [|set_solver].
  assert ({[p]} ⊆ blocks h) as Hs by set_solver.
  rewrite size_difference, size_singleton by done.
  pose proof (subseteq_size _ _ Hs) as Hsz. rewrite size_singleton in Hsz.
  rewrite Hl, swrap_small; lia.
Qed.

Lemma mem_step_ledger op h h' :
  libc_ok libc -> ledger h -> Z.of_nat (size (blocks h)) < 2 ^ 62 -> mem_step op h = Some h' ->
  ledger h' /\ (size (blocks h') <= size (blocks h) + 1)%nat.
Proof.
  intros Hlibc Hled Hb Hst. pose proof Hled as [Hl H0]. destruct op as [sz|p sz|p]; simpl in Hst.
  - unfold alloc in Hst. destruct (_ && _); [done|].
    destruct (Z.eqb_spec (malloc libc (blocks h) sz) 0) as [|Hne]; simplify_eq/=; [split; [done|lia]|].
    pose proof (malloc_fresh _ Hlibc (blocks h) sz) as Hf. split; [by apply ledger_add|].
    rewrite size_union, size_singleton by set_solver. lia.
  - destruct (bool_decide _) eqn:Ep; [|done]. apply bool_decide_eq_true in Ep.
    unfold realloc in Hst. destruct (_ && _) eqn:Eab; [done|]. simplify_eq/=.
    destruct (Z.eqb_spec p 0) as [->|Hp].
    + rewrite (realloc_null _ Hlibc) in *.
      pose proof (malloc_fresh _ Hlibc (blocks h) sz) as Hf.
      assert (blocks h ∖ {[0]} = blocks h) as -> by set_solver.
      destruct (Z.eqb_spec (malloc libc (blocks h) sz) 0).
      * rewrite (left_id_L ∅ (∪)). split; [done|simpl; lia].
      * split; [by apply ledger_add|]. simpl. rewrite size_union, size_singleton by set_solver. lia.
    + destruct Ep as [?|Hin]; [done|]. destruct (Z.eqb_spec sz 0) as [->|Hsz].
      * rewrite (realloc_zero _ Hlibc _ _ Hin Hp). simpl. rewrite (left_id_L ∅ (∪)).
        split; [by apply ledger_remove|]. simpl.
        assert (blocks h ∖ {[p]} ⊆ blocks h) as Hs by set_solver.
        pose proof (subseteq_size _ _ Hs). lia.
      * pose proof (realloc_live _ Hlibc _ _ _ Hin Hp Hsz) as Hf.
        destruct (Z.eqb_spec (realloc_to libc (blocks h) p sz) 0); [done|].
        assert ({[p]} ⊆ blocks h) as Hs by set_solver.
        pose proof (subseteq_size _ _ Hs) as Hsz1. rewrite size_singleton in Hsz1.
        assert (size ({[realloc_to libc (blocks h) p sz]} ∪ (blocks h ∖ {[p]})) = size (blocks h)) as Hsize.
        { rewrite size_union, size_singleton by set_solver.
          rewrite size_difference, size_singleton by done. lia. }
        split; [|simpl; lia]. split; simpl; [by rewrite Hsize|set_solver].
  - destruct (bool_decide _) eqn:Ep; [|done]. apply bool_decide_eq_true in Ep. simplify_eq/=.
    unfold free. destruct (Z.eqb_spec p 0); [split; [done|lia]|]. destruct Ep as [?|Hin]; [done|].
    split; [by apply ledger_remove|]. simpl.
    assert (blocks h ∖ {[p]} ⊆ blocks h) as Hs by set_solver. pose proof (subseteq_size _ _ Hs). lia.
Qed.

Lemma mem_run_ledger ops h h' :
  libc_ok libc -> ledger h ->
  Z.of_nat (size (blocks h)) + Z.of_nat (length ops) < 2 ^ 62 ->
  mem_run ops h = Some h' -> ledger h'.
Proof.
  intros Hlibc. revert h. induction ops as [|op ops IH]; intros h Hled Hb Hr; simpl in *.
  - by simplify_eq.
  - destruct (mem_step op h) as [h1|] eqn:E; [|done].
    destruct (mem_step_ledger op h h1 Hlibc Hled ltac:(lia) E) as [Hled1 Hsz].
    apply (IH h1); [done|lia|done].
Qed.
End Memory.

(** The leak counter is exact. Over any sequence of allocations, resizes and
    frees that respects the funnel's contract, [live_blocks] is the number of
    blocks currently live, so a balanced workload returns it to its start. *)
Theorem live_blocks_exact (libc : Libc) (ops : list MemOp) (h : Heap)
    (Hlibc : libc_ok libc) (Hlen : Z.of_nat (length ops) < 2 ^ 62)
    (Hrun : mem_run libc ops heap_new = Some h) :
  live_blocks h = Z.of_nat (size (blocks h)).
Proof.
  apply (mem_run_ledger libc ops heap_new h Hlibc); [split; [done|set_solver]| |done].
  change (blocks heap_new) with (∅ : gset Z). rewrite size_empty. lia.
Qed.

(** A libc whose next block is one past the highest live one. *)
Definition bump_libc : Libc :=
  mkLibc (fun live _ => 1 + set_fold Z.max 0 live)
         (fun live p size => if p =? 0 then 1 + set_fold Z.max 0 live
                             else if size =? 0 then 0 else p).

Lemma max_fold_bound (l : list Z) x a : x ∈ l -> x <= foldr Z.max a l.
Proof.
  induction l as [|y l IH]; intros Hx; [inversion Hx|].
  apply elem_of_cons in Hx as [->|Hx]; simpl; [lia|]. specialize (IH Hx). lia.
Qed.

Lemma bump_libc_ok : libc_ok bump_libc.
Proof.
  assert (forall live : gset Z, 1 + set_fold Z.max 0 live ∉ live) as Hfresh.
  { intros live Hin. apply elem_of_elements, (max_fold_bound _ _ 0) in Hin.
    unfold set_fold in Hin. simpl in Hin. lia. }
  constructor; simpl.
  - intros live _. apply Hfresh.
  - intros live _. done.
  - intros live p sz Hp Hne Hsz. destruct (Z.eqb_spec p 0); [done|].
    destruct (Z.eqb_spec sz 0); [done|]. set_solver.
  - intros live p Hp Hne. destruct (Z.eqb_spec p 0); done.
Qed.

Lemma live_blocks_exact_witness :
  live_blocks (mkHeap {[1; 3]} 2) = Z.of_nat (size (blocks (mkHeap {[1; 3]} 2))).
Proof.
  apply (live_blocks_exact bump_libc
    [MAlloc 8; MAlloc 16; MAlloc 24; MRealloc 1 64; MFree 2; MFree 0]).
  - exact bump_libc_ok.
  - vm_compute. reflexivity.
  - vm_compute. reflexivity.
Defined.

(** The envelope round trip. A payload sent under any routing class comes back
    with that class, its context, its bytes right after the header and the length
    the receiver copies, and dropping the envelope undelivered runs the payload's
    drop glue once and frees its block, while a delivered one frees only the
    block. *)
Theorem envelope_roundtrip (libc : Libc) (t : Tag) (payload : list Z) (glue : option nat)
    (c : Context) (h h' : Heap) (e : Envelope)
    (Hsend : from_payload libc (wire_byte t) payload glue c h = Some (e, h')) :
  msg_tag e = t /\ msg_context e = c /\
  drop (Z.to_nat TAG_HEADER_SIZE) (bytes e) = payload /\
  env_length e = Z.of_nat (length (bytes e)) /\
  fst (drop_envelope e h') =
    match glue with Some g => [(g, buffer e + TAG_HEADER_SIZE)] | None => [] end /\
  fst (drop_envelope (free_transport e) h') = [] /\
  snd (drop_envelope (free_transport e) h') = snd (drop_envelope e h') /\
  buffer e <> 0 /\ buffer e ∉ blocks (snd (drop_envelope e h')).
Proof.
  unfold from_payload in Hsend. destruct (alloc libc _ h) as [[buf h1]|] eqn:Ea; [|done].
  injection Hsend as <- <-.
  assert (buf <> 0) as Hne.
  { unfold alloc in Ea. destruct (Z.eqb_spec (TAG_HEADER_SIZE + Z.of_nat (length payload)) 0) as [Hz|_];
      [unfold TAG_HEADER_SIZE in Hz; lia|].
    destruct (Z.eqb_spec (malloc libc (blocks h) (TAG_HEADER_SIZE + Z.of_nat (length payload))) 0);
      simplify_eq/=; done. }
  split; [by destruct t|]. split; [done|]. split; [done|].
  split; [unfold TAG_HEADER_SIZE; simpl; lia|]. do 4 (split; [done|]). simpl.
  unfold free. destruct (Z.eqb_spec buf 0); [done|]. simpl. set_solver.
Qed.

Lemma envelope_roundtrip_witness :
  exists e h', from_payload bump_libc (wire_byte Reply) [5; 6] (Some 3%nat) ZERO heap_new = Some (e, h') /\
    msg_tag e = Reply /\ fst (drop_envelope e h') = [(3%nat, 9)].
Proof.
  eexists. eexists. split; [vm_compute; reflexivity|].
  destruct (envelope_roundtrip bump_libc Reply [5; 6] (Some 3%nat) ZERO heap_new _ _ ltac:(vm_compute; reflexivity))
    as (Ht & _ & _ & _ & Hd & _).
  split; [exact Ht|exact Hd].
Defined.
