(* ===== verification/Mailbox.v ===== *)
(** * The per-process mailbox

    Models [koja-runtime-core/src/mailbox.rs]: two receive queues and a one-shot
    reply slot, generic over the message representation. A [VecDeque] is a list
    whose head is the front.

    The specification is a single arrival log: [spec_pop] takes the oldest
    lifecycle message of the log, or the oldest message when there is none. The
    two queues of the implementation refine it over any sequence of pushes and
    pops. *)

From S2P Require Import Prelude Protocol.
Local Open Scope Z_scope.

Inductive WaitTarget := WaitReceive | WaitReply.

#[export] Instance wait_target_eq_dec : EqDecision WaitTarget.
Proof. solve_decision. Defined.

Record Mailbox (M : Type) := mkMailbox {
  business : list M;
  reply : option M;
  system : list M;
}.
Arguments mkMailbox {M}.
Arguments business {M}.
Arguments reply {M}.
Arguments system {M}.

Definition mailbox_default {M} : Mailbox M := mkMailbox [] None [].

Section Ops.
  Context {M : Type} `{Message M}.
  Implicit Types (mb : Mailbox M) (m : M).

Definition target_of (m : M) : WaitTarget :=
  if bool_decide (msg_tag m = Reply) then WaitReply else WaitReceive.

(** [push]: the displaced stale reply, if any, and the new mailbox. *)
Definition push (mb : Mailbox M) (message : M) : option M * Mailbox M :=
  match msg_tag message with
  | TagLifecycle => (None, mkMailbox (business mb) (reply mb) (system mb ++ [message]))
  | Reply => (reply mb, mkMailbox (business mb) (Some message) (system mb))
  | Business | ExitSignal | IOReady =>
      (None, mkMailbox (business mb ++ [message]) (reply mb) (system mb))
  end.

Definition pop_received (mb : Mailbox M) : option M * Mailbox M :=
  match system mb with
  | m :: rest => (Some m, mkMailbox (business mb) (reply mb) rest)
  | [] =>
      match business mb with
      | m :: rest => (Some m, mkMailbox rest (reply mb) [])
      | [] => (None, mb)
      end
  end.

Definition has_system (mb : Mailbox M) : bool :=
  match system mb with [] => false | _ => true end.

Definition depth (mb : Mailbox M) : Z :=
  Z.of_nat (length (business mb)) + Z.of_nat (length (system mb)).

Definition take_reply (mb : Mailbox M) : option M * Mailbox M :=
  (reply mb, mkMailbox (business mb) None (system mb)).

(** Every message the mailbox holds. *)
Definition contents (mb : Mailbox M) : list M :=
  system mb ++ business mb ++ option_list (reply mb).

(** Each queue holds only what [push] routes there. *)
Definition routed (mb : Mailbox M) : Prop :=
  Forall (fun m => msg_tag m = TagLifecycle) (system mb) /\
  Forall (fun m => msg_tag m <> TagLifecycle /\ msg_tag m <> Reply) (business mb) /\
  (forall m, reply mb = Some m -> msg_tag m = Reply).

(** ** The specification: one arrival log *)

Definition is_lifecycle (m : M) : bool := bool_decide (msg_tag m = TagLifecycle).
Definition is_reply (m : M) : bool := bool_decide (msg_tag m = Reply).

Record SpecBox := mkSpecBox { log : list M; slot : option M }.

Definition spec_push (s : SpecBox) (m : M) : option M * SpecBox :=
  if is_reply m then (slot s, mkSpecBox (log s) (Some m))
  else (None, mkSpecBox (log s ++ [m]) (slot s)).

(** Split a list at the first element that passes the test. *)
Fixpoint take_first (f : M -> bool) (l : list M) : option (M * list M) :=
  match l with
  | [] => None
  | m :: rest =>
      if f m then Some (m, rest)
      else match take_first f rest with
           | Some (x, rest') => Some (x, m :: rest')
           | None => None
           end
  end.

Definition spec_pop (s : SpecBox) : option M * SpecBox :=
  match take_first is_lifecycle (log s) with
  | Some (m, rest) => (Some m, mkSpecBox rest (slot s))
  | None =>
      match log s with
      | m :: rest => (Some m, mkSpecBox rest (slot s))
      | [] => (None, s)
      end
  end.

Definition spec_take_reply (s : SpecBox) : option M * SpecBox :=
  (slot s, mkSpecBox (log s) None).

(** The implementation's queues are the two subsequences of the log. *)
Definition refines (mb : Mailbox M) (s : SpecBox) : Prop :=
  system mb = List.filter is_lifecycle (log s) /\
  business mb = List.filter (fun m => negb (is_lifecycle m)) (log s) /\
  reply mb = slot s.

(** One client operation, run on the implementation and on the specification. *)
Inductive BoxOp := OpPush (m : M) | OpPop | OpTakeReply.

Definition run_op (mb : Mailbox M) (op : BoxOp) : option M * Mailbox M :=
  match op with
  | OpPush m => push mb m
  | OpPop => pop_received mb
  | OpTakeReply => take_reply mb
  end.

Definition spec_run_op (s : SpecBox) (op : BoxOp) : option M * SpecBox :=
  match op with
  | OpPush m => spec_push s m
  | OpPop => spec_pop s
  | OpTakeReply => spec_take_reply s
  end.

(** The observations (returned values) of a sequence of operations. *)
Fixpoint run_ops (mb : Mailbox M) (ops : list BoxOp) : list (option M) * Mailbox M :=
  match ops with
  | [] => ([], mb)
  | op :: rest =>
      let (o, mb') := run_op mb op in
      let (os, mb'') := run_ops mb' rest in (o :: os, mb'')
  end.

Fixpoint spec_run_ops (s : SpecBox) (ops : list BoxOp) : list (option M) * SpecBox :=
  match ops with
  | [] => ([], s)
  | op :: rest =>
      let (o, s') := spec_run_op s op in
      let (os, s'') := spec_run_ops s' rest in (o :: os, s'')
  end.

(** ** Lemmas *)

Lemma take_first_Some f l x rest :
  take_first f l = Some (x, rest) ->
  f x = true /\
  List.filter f l = x :: List.filter f rest /\
  List.filter (fun m => negb (f m)) l = List.filter (fun m => negb (f m)) rest.
Proof.
  revert x rest. induction l as [|m l IH]; intros x rest Hx; simpl in Hx; [done|].
  destruct (f m) eqn:Hf; simplify_eq/=.
  - by rewrite Hf.
  - destruct (take_first f l) as [[y r]|] eqn:E; simplify_eq/=.
    destruct (IH _ _ eq_refl) as (? & -> & ->). rewrite Hf. simpl. done.
Qed.

Lemma take_first_None f l :
  take_first f l = None ->
  List.filter f l = [] /\ List.filter (fun m => negb (f m)) l = l.
Proof.
  induction l as [|m l IH]; intros Hx; simpl in Hx |- *; [done|].
  destruct (f m) eqn:Hf; simplify_eq/=.
  destruct (take_first f l) as [[y r]|]; simplify_eq/=.
  by destruct IH as [-> ->].
Qed.

Lemma push_refines mb s m :
  refines mb s ->
  fst (push mb m) = fst (spec_push s m) /\ refines (snd (push mb m)) (snd (spec_push s m)).
Proof.
  intros (Hs & Hb & Hr). unfold push, spec_push, is_reply, refines.
  assert (is_lifecycle m = bool_decide (msg_tag m = TagLifecycle)) as Hl by done.
  destruct (msg_tag m) eqn:Ht; simpl in *.
  all: rewrite ?List.filter_app; simpl; rewrite ?Hl; simpl.
  all: by rewrite ?app_nil_r, ?Hs, ?Hb.
Qed.

Lemma pop_refines mb s :
  refines mb s ->
  fst (pop_received mb) = fst (spec_pop s) /\
  refines (snd (pop_received mb)) (snd (spec_pop s)).
Proof.
  intros (Hs & Hb & Hr). unfold pop_received, spec_pop.
  destruct (take_first is_lifecycle (log s)) as [[x rest]|] eqn:E.
  - apply take_first_Some in E as (? & E1 & E2).
    rewrite Hs, E1. unfold refines. simpl. by rewrite Hb, E2.
  - pose proof E as E0. apply take_first_None in E as [E1 E2].
    rewrite Hs, E1, Hb, E2. destruct (log s) as [|m rest] eqn:El; simpl.
    + unfold refines. rewrite El. simpl in *. by rewrite Hs, Hb.
    + unfold refines. simpl in *. destruct (is_lifecycle m); simplify_eq/=.
      by rewrite E1, E2.
Qed.

Lemma run_op_refines mb s op :
  refines mb s ->
  fst (run_op mb op) = fst (spec_run_op s op) /\
  refines (snd (run_op mb op)) (snd (spec_run_op s op)).
Proof.
  intros Href. destruct op; simpl; auto using push_refines, pop_refines.
  destruct Href as (? & ? & ?). by repeat split.
Qed.

Lemma push_contents mb m :
  Permutation (option_list (fst (push mb m)) ++ contents (snd (push mb m)))
              (m :: contents mb).
Proof.
  unfold push, contents. destruct (msg_tag m); simpl.
  5: destruct (reply mb); simpl.
  all: solve_Permutation.
Qed.

Lemma pop_contents mb :
  Permutation (option_list (fst (pop_received mb)) ++ contents (snd (pop_received mb)))
              (contents mb).
Proof.
  unfold pop_received, contents.
  destruct (system mb) as [|x r] eqn:Es; simpl; [|done].
  destruct (business mb) as [|x r] eqn:Eb; simpl; [|done].
  by rewrite Es, Eb.
Qed.

Lemma take_reply_contents mb :
  Permutation (option_list (fst (take_reply mb)) ++ contents (snd (take_reply mb)))
              (contents mb).
Proof. unfold take_reply, contents. simpl. destruct (reply mb); simpl; solve_Permutation. Qed.

Lemma has_system_false mb : has_system mb = false <-> system mb = [].
Proof. unfold has_system. by destruct (system mb). Qed.

Lemma pop_none_empty mb :
  fst (pop_received mb) = None ->
  system mb = [] /\ business mb = [] /\ snd (pop_received mb) = mb.
Proof.
  unfold pop_received. destruct (system mb); simpl; [|done].
  by destruct (business mb).
Qed.

Lemma depth_zero mb : depth mb = 0 <-> system mb = [] /\ business mb = [].
Proof.
  unfold depth. split.
  - intros. split; apply nil_length_inv; lia.
  - by intros [-> ->].
Qed.

Lemma push_routed mb m : routed mb -> routed (snd (push mb m)).
Proof.
  intros (Hs & Hb & Hr). unfold push. destruct (msg_tag m) eqn:E; simpl.
  all: repeat split; simpl; rewrite ?Forall_app; try done.
  all: try (split; [done|]; constructor; [|constructor]; rewrite ?E; done).
  intros m' [= <-]. done.
Qed.

(** ** Properties *)

(** C29: over any sequence of pushes, receives and reply takes, the two queues
    return exactly what a single arrival log returns when a receive takes the
    oldest lifecycle message, or the oldest message when there is none: a
    shutdown request is never behind business traffic, each class keeps arrival
    order, and replies never surface in a receive. *)
Theorem mailbox_refines_log (ops : list BoxOp) :
  fst (run_ops mailbox_default ops) = fst (spec_run_ops (mkSpecBox [] None) ops).
Proof.
  assert (forall ops mb s, refines mb s ->
    fst (run_ops mb ops) = fst (spec_run_ops s ops)) as Hgen.
  { clear ops. intros ops. induction ops as [|op ops IH]; intros mb s Href; [done|].
    simpl. pose proof (run_op_refines mb s op Href) as [Ho Hr].
    destruct (run_op mb op) as [o mb'], (spec_run_op s op) as [o' s']. simpl in *.
    pose proof (IH _ _ Hr) as Hrest.
    destruct (run_ops mb' ops), (spec_run_ops s' ops). simpl in *. by subst. }
  by apply Hgen.
Qed.

End Ops.

Arguments BoxOp : clear implicits.
Arguments SpecBox : clear implicits.

#[export] Hint Resolve push_routed : koja.
