(* ===== verification/Lifecycle.v ===== *)
(** * The packed lifecycle word

    Models [koja-runtime-core/src/lifecycle.rs]: generation, process state and
    the [on_cpu] claim flag in one 64-bit word, and the compare-and-swap edges
    over it. A word is a [Z]; an operation maps a word to its result and the new
    word. The retry loops are [cas_loop]: with no interference a loop ends at its
    first swap (see [cas_loop_wf]); [LifecycleConc.v] runs the same loops under
    arbitrary interleavings. *)

From S2P Require Import Prelude Protocol.
Local Open Scope Z_scope.

Definition ON_CPU_BIT : Z := 8.
Definition STATE_MASK : Z := 7.
Definition GENERATION_SHIFT : Z := 32.
Definition VACANT : Z := 0.

Definition state_code (s : ProcessState) : Z :=
  match s with
  | Created => 1
  | Runnable => 2
  | Running => 3
  | Blocked => 4
  | WaitingIO => 5
  | Dead => 6
  end.

Definition state_of (code : Z) : option ProcessState :=
  if code =? 1 then Some Created
  else if code =? 2 then Some Runnable
  else if code =? 3 then Some Running
  else if code =? 4 then Some Blocked
  else if code =? 5 then Some WaitingIO
  else if code =? 6 then Some Dead
  else None.

Definition pack (generation state : Z) (on_cpu : bool) : Z :=
  Z.lor (Z.lor (Z.shiftl generation GENERATION_SHIFT) (if on_cpu then ON_CPU_BIT else 0)) state.

Record WordState := mkWordState {
  generation : Z;
  on_cpu : bool;
  state : option ProcessState;
}.

#[export] Instance word_state_eq_dec : EqDecision WordState.
Proof. solve_decision. Defined.

(** [WordState::decode]. *)
Definition decode_word (word : Z) : WordState :=
  mkWordState (wrap 32 (Z.shiftr word GENERATION_SHIFT))
              (negb (Z.land word ON_CPU_BIT =? 0))
              (state_of (Z.land word STATE_MASK)).

(** The closure [encode] of [try_swap]. *)
Definition encode_word (lifecycle : WordState) : Z :=
  pack (generation lifecycle)
       (match state lifecycle with None => VACANT | Some s => state_code s end)
       (on_cpu lifecycle).

(** [WordState::is_alive]. *)
Definition word_alive (w : WordState) (gen : Z) : bool :=
  (generation w =? gen) &&
  match state w with Some s => negb (bool_decide (s = Dead)) | None => false end.

(** [LifecycleWord::new] and [load]. *)
Definition word_new : Z := pack 0 VACANT false.
Definition load (word : Z) : WordState := decode_word word.

(** One compare-and-swap attempt: the new word, or the fresh observation. *)
Definition try_swap (word : Z) (current next : WordState) : Z + WordState :=
  if word =? encode_word current then inl (encode_word next) else inr (decode_word word).

(** A retry loop whose body computes the successor of an observation, [None] for
    an early return. Yields the observation the swap succeeded on. *)
Fixpoint cas_loop (fuel : nat) (next : WordState -> option WordState)
    (observed : WordState) (word : Z) : option WordState * Z :=
  match next observed with
  | None => (None, word)
  | Some n =>
      match try_swap word observed n with
      | inl word' => (Some observed, word')
      | inr fresh =>
          match fuel with
          | O => (None, word)
          | S fuel' => cas_loop fuel' next fresh word
          end
      end
  end.

(** The loop bodies: the guard on the observation and the swapped-in word. *)
Definition claim_next (gen : Z) (observed : WordState) : option WordState :=
  if (generation observed =? gen) && negb (on_cpu observed) &&
     match state observed with Some (Created | Runnable) => true | _ => false end
  then Some (mkWordState (generation observed) true (Some Running))
  else None.

Definition edge_next (gen : Z) (from to : ProcessState) (observed : WordState)
    : option WordState :=
  if negb (generation observed =? gen) || negb (bool_decide (state observed = Some from))
  then None
  else Some (mkWordState (generation observed) (on_cpu observed) (Some to)).

Definition kill_next (gen : Z) (observed : WordState) : option WordState :=
  if negb (word_alive observed gen) then None
  else Some (mkWordState (generation observed) (on_cpu observed) (Some Dead)).

Definition release_next (gen : Z) (observed : WordState) : option WordState :=
  if negb (generation observed =? gen) || negb (on_cpu observed) then None
  else Some (mkWordState (generation observed) false (state observed)).

Definition is_some {A} (o : option A) : bool := match o with Some _ => true | None => false end.

Definition try_claim (gen : Z) (word : Z) : bool * Z :=
  let (r, word') := cas_loop 1 (claim_next gen) (load word) word in (is_some r, word').

Definition try_edge (gen : Z) (from to : ProcessState) (word : Z) : bool * Z :=
  let (r, word') := cas_loop 1 (edge_next gen from to) (load word) word in
  (is_some r, word').

Definition try_kill (gen : Z) (word : Z) : option WordState * Z :=
  cas_loop 1 (kill_next gen) (load word) word.

Definition release (gen : Z) (word : Z) : option ProcessState * Z :=
  let (r, word') := cas_loop 1 (release_next gen) (load word) word in
  (match r with Some observed => state observed | None => None end, word').

Definition occupy (gen : Z) (word : Z) : Z := pack gen (state_code Created) false.

Definition vacate (word : Z) : Z * Z :=
  let next_generation := wrap 32 (generation (load word) + 1) in
  (next_generation, pack next_generation VACANT false).


(** ** The layout round trip *)

(** A word is well formed when it is the encoding of an observation. *)
Definition word_wf (w : Z) : Prop := encode_word (decode_word w) = w.

Definition low_bits (st : option ProcessState) (c : bool) : Z :=
  (if c then 8 else 0) + match st with None => 0 | Some s => state_code s end.

Lemma low_bits_range st c : 0 <= low_bits st c < 16.
Proof. destruct st as [[]|], c; vm_compute; split; congruence. Qed.

Lemma encode_word_sum ws : 
  encode_word ws = generation ws * 2 ^ 32 + low_bits (state ws) (on_cpu ws).
Proof.
  unfold encode_word, pack, GENERATION_SHIFT. rewrite <- Z.lor_assoc.
  rewrite <- lor_disjoint_add; [|lia|pose proof (low_bits_range (state ws) (on_cpu ws)); lia].
  f_equal. by destruct (state ws) as [[]|], (on_cpu ws).
Qed.

Lemma land_low g low m :
  0 <= low < 16 -> 0 <= m < 16 -> Z.land (g * 2 ^ 32 + low) m = Z.land low m.
Proof.
  intros Hl Hm.
  assert (Z.land 15 m = m) as Hm15.
  { change 15 with (Z.ones 4). rewrite Z.land_comm, Z.land_ones by lia. by apply Z.mod_small. }
  rewrite <- Hm15 at 1. rewrite Z.land_assoc. f_equal.
  change 15 with (Z.ones 4). rewrite Z.land_ones by lia.
  replace (g * 2 ^ 32 + low) with (low + (g * 2 ^ 28) * 2 ^ 4) by lia.
  rewrite Z.mod_add by lia. by apply Z.mod_small.
Qed.

Lemma decode_encode_word ws : 0 <= generation ws < 2 ^ 32 -> decode_word (encode_word ws) = ws.
Proof.
  intros Hg. pose proof (low_bits_range (state ws) (on_cpu ws)) as Hl.
  rewrite encode_word_sum. unfold decode_word, GENERATION_SHIFT, ON_CPU_BIT, STATE_MASK.
  rewrite Z.shiftr_div_pow2, Z.div_add_l, Z.div_small, Z.add_0_r by lia.
  rewrite wrap_small by done. rewrite !land_low by lia.
  destruct ws as [g c st]. simpl. f_equal.
  - by destruct st as [[]|], c.
  - by destruct st as [[]|], c.
Qed.

Lemma decode_generation_range w : 0 <= generation (decode_word w) < 2 ^ 32.
Proof. apply wrap_range. lia. Qed.

Lemma load_decode w : load w = decode_word w.
Proof. done. Qed.

Lemma load_generation_range w : 0 <= generation (load w) < 2 ^ 32.
Proof. apply decode_generation_range. Qed.

Lemma encode_word_wf ws : 0 <= generation ws < 2 ^ 32 -> word_wf (encode_word ws).
Proof. intros. unfold word_wf. by rewrite decode_encode_word. Qed.

Lemma encode_word_range ws : 0 <= generation ws < 2 ^ 32 -> 0 <= encode_word ws < 2 ^ 64.
Proof.
  intros. rewrite encode_word_sum. pose proof (low_bits_range (state ws) (on_cpu ws)). lia.
Qed.

Lemma word_new_eq : word_new = encode_word (mkWordState 0 false None).
Proof. done. Qed.

Lemma occupy_eq g w : occupy g w = encode_word (mkWordState g false (Some Created)).
Proof. done. Qed.

Lemma vacate_eq w :
  vacate w = (wrap 32 (generation (load w) + 1),
              encode_word (mkWordState (wrap 32 (generation (load w) + 1)) false None)).
Proof. done. Qed.

(** ** The loops without interference *)

(** The observation a loop body keeps the generation of. *)
Definition keeps_generation (next : WordState -> option WordState) : Prop :=
  forall o n, next o = Some n -> generation n = generation o.

Lemma cas_loop_wf fuel next w :
  word_wf w ->
  cas_loop fuel next (load w) w =
    match next (load w) with
    | None => (None, w)
    | Some n => (Some (load w), encode_word n)
    end.
Proof.
  intros Hw. destruct fuel; simpl.
  all: destruct (next (load w)) as [n|]; [|done].
  all: unfold try_swap, load; rewrite Hw, Z.eqb_refl; done.
Qed.

Lemma claim_next_Some g o n :
  claim_next g o = Some n <->
  generation o = g /\ on_cpu o = false /\ (state o = Some Created \/ state o = Some Runnable) /\
  n = mkWordState g true (Some Running).
Proof.
  unfold claim_next. split.
  - intros H. break_match_in H; clean. repeat split; try done.
    destruct (state o) as [[]|]; auto; done.
  - intros (<- & -> & [-> | ->] & ->); by rewrite Z.eqb_refl.
Qed.

Lemma edge_next_Some g from to o n :
  edge_next g from to o = Some n <->
  generation o = g /\ state o = Some from /\ n = mkWordState g (on_cpu o) (Some to).
Proof.
  unfold edge_next. split.
  - intros H. break_match_in H; clean. done.
  - intros (<- & -> & ->). rewrite Z.eqb_refl, bool_decide_true by done. done.
Qed.

Lemma word_alive_true w g :
  word_alive w g = true <-> generation w = g /\ exists s, state w = Some s /\ s <> Dead.
Proof.
  unfold word_alive. split.
  - intros H. clean. split; [done|]. destruct (state w) as [s|]; clean; eauto.
  - intros (<- & s & -> & Hs). rewrite Z.eqb_refl, bool_decide_false by done. done.
Qed.

Lemma kill_next_Some g o n :
  kill_next g o = Some n <->
  word_alive o g = true /\ n = mkWordState g (on_cpu o) (Some Dead).
Proof.
  unfold kill_next. destruct (word_alive o g) eqn:E; simpl.
  - apply word_alive_true in E as [<- ?]. naive_solver.
  - naive_solver.
Qed.

Lemma release_next_Some g o n :
  release_next g o = Some n <->
  generation o = g /\ on_cpu o = true /\ n = mkWordState g false (state o).
Proof.
  unfold release_next. split.
  - intros H. break_match_in H; clean. done.
  - intros (<- & -> & ->). by rewrite Z.eqb_refl.
Qed.

Lemma claim_keeps g : keeps_generation (claim_next g).
Proof. intros o n H. apply claim_next_Some in H as (<- & _ & _ & ->). done. Qed.
Lemma edge_keeps g from to : keeps_generation (edge_next g from to).
Proof. intros o n H. apply edge_next_Some in H as (<- & _ & ->). done. Qed.
Lemma kill_keeps g : keeps_generation (kill_next g).
Proof.
  intros o n H. apply kill_next_Some in H as (Ha & ->).
  apply word_alive_true in Ha as [<- _]. done.
Qed.
Lemma release_keeps g : keeps_generation (release_next g).
Proof. intros o n H. apply release_next_Some in H as (<- & _ & ->). done. Qed.

#[export] Hint Resolve claim_keeps edge_keeps kill_keeps release_keeps : koja.

Lemma cas_loop_word_wf fuel next w :
  word_wf w -> keeps_generation next -> word_wf (snd (cas_loop fuel next (load w) w)).
Proof.
  intros Hw Hk. rewrite cas_loop_wf by done.
  destruct (next (load w)) as [n|] eqn:E; simpl; [|done].
  apply encode_word_wf. rewrite (Hk _ _ E). apply decode_generation_range.
Qed.

(** What each edge does to a decoded word: the specification used by clients. *)
Lemma try_claim_spec g w :
  word_wf w ->
  match claim_next g (load w) with
  | None => try_claim g w = (false, w)
  | Some n => fst (try_claim g w) = true /\ word_wf (snd (try_claim g w)) /\
              load (snd (try_claim g w)) = n
  end.
Proof.
  intros Hw. unfold try_claim. rewrite cas_loop_wf by done.
  destruct (claim_next g (load w)) as [n|] eqn:E; [|done].
  assert (0 <= generation n < 2 ^ 32)
    by (rewrite (claim_keeps _ _ _ E); apply decode_generation_range).
  simpl. repeat split; [by apply encode_word_wf|by apply decode_encode_word].
Qed.

Lemma try_edge_spec g from to w :
  word_wf w ->
  match edge_next g from to (load w) with
  | None => try_edge g from to w = (false, w)
  | Some n => fst (try_edge g from to w) = true /\ word_wf (snd (try_edge g from to w)) /\
              load (snd (try_edge g from to w)) = n
  end.
Proof.
  intros Hw. unfold try_edge. rewrite cas_loop_wf by done.
  destruct (edge_next g from to (load w)) as [n|] eqn:E; [|done].
  assert (0 <= generation n < 2 ^ 32)
    by (rewrite (edge_keeps _ _ _ _ _ E); apply decode_generation_range).
  simpl. repeat split; [by apply encode_word_wf|by apply decode_encode_word].
Qed.

Lemma try_kill_spec g w :
  word_wf w ->
  match kill_next g (load w) with
  | None => try_kill g w = (None, w)
  | Some n => fst (try_kill g w) = Some (load w) /\ word_wf (snd (try_kill g w)) /\
              load (snd (try_kill g w)) = n
  end.
Proof.
  intros Hw. unfold try_kill. rewrite cas_loop_wf by done.
  destruct (kill_next g (load w)) as [n|] eqn:E; [|done].
  assert (0 <= generation n < 2 ^ 32)
    by (rewrite (kill_keeps _ _ _ E); apply decode_generation_range).
  simpl. repeat split; [by apply encode_word_wf|by apply decode_encode_word].
Qed.

Lemma release_spec g w :
  word_wf w ->
  match release_next g (load w) with
  | None => release g w = (None, w)
  | Some n => fst (release g w) = state (load w) /\ word_wf (snd (release g w)) /\
              load (snd (release g w)) = n
  end.
Proof.
  intros Hw. unfold release. rewrite cas_loop_wf by done.
  destruct (release_next g (load w)) as [n|] eqn:E; [|done].
  assert (0 <= generation n < 2 ^ 32)
    by (rewrite (release_keeps _ _ _ E); apply decode_generation_range).
  simpl. repeat split; [by apply encode_word_wf|by apply decode_encode_word].
Qed.

Lemma vacate_spec w :
  word_wf (snd (vacate w)) /\
  load (snd (vacate w)) = mkWordState (wrap 32 (generation (load w) + 1)) false None.
Proof.
  rewrite vacate_eq. simpl. split; [apply encode_word_wf|apply decode_encode_word].
  all: simpl; apply wrap_range; lia.
Qed.

Lemma occupy_spec g w :
  0 <= g < 2 ^ 32 ->
  word_wf (occupy g w) /\ load (occupy g w) = mkWordState g false (Some Created).
Proof. intros. rewrite occupy_eq. split; [by apply encode_word_wf|by apply decode_encode_word]. Qed.

Lemma word_new_spec : word_wf word_new /\ load word_new = mkWordState 0 false None.
Proof. done. Qed.

(** ** Properties *)

(** The packed word loses nothing. Decoding the encoding of any generation
    of 32 bits, any state (or vacancy) and any claim flag gives it back, and the
    encoding is a 64-bit value. *)
Theorem lifecycle_word_roundtrip (g : Z) (c : bool) (st : option ProcessState)
    (Hg : 0 <= g < 2 ^ 32) :
  decode_word (encode_word (mkWordState g c st)) = mkWordState g c st /\
  0 <= encode_word (mkWordState g c st) < 2 ^ 64.
Proof. split; [by apply decode_encode_word|by apply encode_word_range]. Qed.

Lemma lifecycle_word_roundtrip_witness :
  decode_word (encode_word (mkWordState (2 ^ 32 - 1) true (Some Blocked))) =
    mkWordState (2 ^ 32 - 1) true (Some Blocked).
Proof. apply (lifecycle_word_roundtrip (2 ^ 32 - 1) true (Some Blocked)). lia. Defined.

(** Clients reason with the specification lemmas above: a word, its observation
    and its edges are not unfolded by simplification. *)
#[global] Opaque load encode_word occupy vacate try_claim try_edge try_kill release.
