(* ===== verification/LifecycleConc.v ===== *)
(** * Lifecycle edges under concurrency

    Two transition systems over one slot's lifecycle word.

    - [Module Cas]: any number of threads run the retry loops of [lifecycle.rs]
      one shared-memory access at a time (a load or a compare-and-swap). Every
      interleaving refines the system in which each operation is one atomic step.
    - [Module Ownership]: the claim, kill, release, vacate and occupy protocol of
      [process_table.rs], with the threads that hold the [on_cpu] claim and the
      threads that have to reclaim the slot made explicit. *)

From S2P Require Import Prelude Protocol Lifecycle.
From stdpp Require Import relations.
Local Open Scope Z_scope.

Module Cas.

(** The four retry loops, with their arguments. *)
Inductive EdgeOp :=
  | OpClaim (gen : Z)
  | OpEdge (gen : Z) (from to : ProcessState)
  | OpKill (gen : Z)
  | OpRelease (gen : Z).

Definition op_next (op : EdgeOp) : WordState -> option WordState :=
  match op with
  | OpClaim g => claim_next g
  | OpEdge g from to => edge_next g from to
  | OpKill g => kill_next g
  | OpRelease g => release_next g
  end.

(** A thread before its first load, about to swap after observing a word whose
    guard holds, or finished with the observation it acted on. *)
Inductive Thread :=
  | TStart (op : EdgeOp)
  | TPending (op : EdgeOp) (observed : WordState)
  | TDone (op : EdgeOp) (result : option WordState).

Record Cfg := mkCfg { word : Z; threads : list Thread }.

(** The guard on a fresh observation is local computation, so it belongs to the
    access that produced the observation. *)
Definition observe (op : EdgeOp) (w : Z) : Thread :=
  match op_next op (decode_word w) with
  | None => TDone op None
  | Some _ => TPending op (decode_word w)
  end.

Inductive cstep : Cfg -> Cfg -> Prop :=
  | cs_load w ths t op :
      ths !! t = Some (TStart op) ->
      cstep (mkCfg w ths) (mkCfg w (<[t := observe op w]> ths))
  | cs_swap w ths t op observed n w' :
      ths !! t = Some (TPending op observed) ->
      op_next op observed = Some n ->
      try_swap w observed n = inl w' ->
      cstep (mkCfg w ths) (mkCfg w' (<[t := TDone op (Some observed)]> ths))
  | cs_retry w ths t op observed n fresh :
      ths !! t = Some (TPending op observed) ->
      op_next op observed = Some n ->
      try_swap w observed n = inr fresh ->
      cstep (mkCfg w ths) (mkCfg w (<[t := observe op w]> ths)).

(** ** The atomic specification *)

Inductive AThread := ATodo (op : EdgeOp) | ADone (op : EdgeOp) (result : option WordState).

Record ACfg := mkACfg { aword : Z; athreads : list AThread }.

Inductive astep : ACfg -> ACfg -> Prop :=
  | as_run w ths t op r w' :
      ths !! t = Some (ATodo op) ->
      cas_loop 1 (op_next op) (load w) w = (r, w') ->
      astep (mkACfg w ths) (mkACfg w' (<[t := ADone op r]> ths)).

Definition abs_thread (th : Thread) : AThread :=
  match th with
  | TStart op | TPending op _ => ATodo op
  | TDone op r => ADone op r
  end.

Definition abs (c : Cfg) : ACfg := mkACfg (word c) (abs_thread <$> threads c).

(** What holds of every reachable configuration. *)
Definition pending_ok (th : Thread) : Prop :=
  match th with
  | TPending op observed =>
      0 <= generation observed < 2 ^ 32 /\ is_Some (op_next op observed)
  | _ => True
  end.

Definition cfg_ok (c : Cfg) : Prop := word_wf (word c) /\ Forall pending_ok (threads c).

Lemma op_keeps op : keeps_generation (op_next op).
Proof. destruct op; simpl; auto with koja. Qed.

Lemma observe_ok op w : pending_ok (observe op w).
Proof.
  unfold observe. destruct (op_next op (decode_word w)) as [n|] eqn:E; simpl; [|done].
  split; [apply decode_generation_range|by rewrite E].
Qed.

(** A fresh observation either leaves the operation to do or ends it with the
    result the atomic operation has on that same word. *)
Lemma observe_abs w ths t op :
  word_wf w -> ths !! t = Some (ATodo op) ->
  mkACfg w (<[t := abs_thread (observe op w)]> ths) = mkACfg w ths \/
  astep (mkACfg w ths) (mkACfg w (<[t := abs_thread (observe op w)]> ths)).
Proof.
  intros Hw Ht. unfold observe. destruct (op_next op (decode_word w)) as [n|] eqn:E; simpl.
  - left. by rewrite list_insert_id.
  - right. eapply as_run; [done|]. rewrite cas_loop_wf by done. by rewrite load_decode, E.
Qed.

Lemma swap_abs w observed n w' op :
  word_wf w -> 0 <= generation observed < 2 ^ 32 ->
  op_next op observed = Some n -> try_swap w observed n = inl w' ->
  cas_loop 1 (op_next op) (load w) w = (Some observed, w').
Proof.
  intros Hw Hg Hn Hs. unfold try_swap in Hs.
  destruct (Z.eqb_spec w (encode_word observed)) as [->|]; [|discriminate].
  injection Hs as <-. rewrite cas_loop_wf by done. rewrite load_decode.
  by rewrite decode_encode_word, Hn.
Qed.

Lemma cstep_ok c c' : cstep c c' -> cfg_ok c -> cfg_ok c'.
Proof.
  intros Hs [Hw Hp]. destruct Hs as [w ths t op Ht|w ths t op o n w' Ht Hn Hsw|w ths t op o n f Ht Hn Hsw];
    split; simpl in *; try (apply Forall_insert; auto using observe_ok; done).
  - done.
  - pose proof (proj1 (Forall_lookup _ _) Hp _ _ Ht) as [Hg _].
    unfold try_swap in Hsw. break_match_in Hsw; clean.
    apply encode_word_wf. by rewrite (op_keeps _ _ _ Hn).
  - done.
Qed.

Lemma cstep_refines c c' :
  cfg_ok c -> cstep c c' -> abs c' = abs c \/ astep (abs c) (abs c').
Proof.
  intros [Hw Hp] Hs.
  destruct Hs as [w ths t op Ht|w ths t op o n w' Ht Hn Hsw|w ths t op o n f Ht Hn Hsw];
    unfold abs; simpl in *; rewrite list_fmap_insert.
  - apply observe_abs; [done|]. by rewrite list_lookup_fmap, Ht.
  - right. apply (as_run _ _ t op); [by rewrite list_lookup_fmap, Ht|].
    pose proof (proj1 (Forall_lookup _ _) Hp _ _ Ht) as [Hg _].
    by apply (swap_abs _ _ n).
  - apply observe_abs; [done|]. by rewrite list_lookup_fmap, Ht.
Qed.

(** C23: linearizability of the lifecycle edges. However the loads and swaps of
    any number of concurrent claim, edge, kill and release loops interleave on
    one word, the words and results reached are those of some order of atomic
    operations, and no loop ever acts on a stale observation. *)
Theorem edges_linearizable (w : Z) (ops : list EdgeOp) (c : Cfg)
    (Hw : word_wf w) (Hrun : rtc cstep (mkCfg w (TStart <$> ops)) c) :
  rtc astep (mkACfg w (ATodo <$> ops)) (abs c) /\ word_wf (word c).
Proof.
  assert (forall c0, rtc cstep c0 c -> cfg_ok c0 -> rtc astep (abs c0) (abs c) /\ cfg_ok c)
    as Hgen.
  { clear Hrun. intros c0 Hr. induction Hr as [c0|c0 c1 c2 Hs Hr IH]; intros Hok; [done|].
    destruct (IH (cstep_ok _ _ Hs Hok)) as [Ha Hok2]. split; [|done].
    destruct (cstep_refines _ _ Hok Hs) as [<-|Hstep]; [done|]. by eapply rtc_l. }
  destruct (Hgen _ Hrun) as [Ha [Hok _]].
  { split; [done|]. apply Forall_fmap, Forall_true. done. }
  split; [|done]. unfold abs in Ha at 1. simpl in Ha.
  rewrite <- list_fmap_compose in Ha. done.
Qed.

(** Two workers race for one runnable process: the second one loses. *)
Lemma edges_linearizable_witness :
  rtc astep (mkACfg (encode_word (mkWordState 3 false (Some Runnable)))
                    (ATodo <$> [OpClaim 3; OpClaim 3]))
            (abs (mkCfg (encode_word (mkWordState 3 true (Some Running)))
                        [TDone (OpClaim 3) (Some (mkWordState 3 false (Some Runnable)));
                         TDone (OpClaim 3) None])).
Proof.
  apply (edges_linearizable (encode_word (mkWordState 3 false (Some Runnable)))
           [OpClaim 3; OpClaim 3]); [reflexivity|].
  eapply rtc_l; [apply (cs_load _ _ 0%nat (OpClaim 3)); reflexivity|].
  eapply rtc_l; [apply (cs_load _ _ 1%nat (OpClaim 3)); reflexivity|].
  eapply rtc_l; [eapply (cs_swap _ _ 0%nat (OpClaim 3)); reflexivity|].
  eapply rtc_l; [eapply (cs_retry _ _ 1%nat (OpClaim 3)); reflexivity|].
  reflexivity.
Defined.

End Cas.

Module Ownership.

(** One slot: its word, the threads holding the [on_cpu] claim with the
    generation they claimed at, and the threads that owe a reclaim. *)
Record Slot := mkSlot {
  word : Z;
  holders : list (nat * Z);
  reclaimers : list nat;
}.

(** The edges [try_edge] is called with: claims and deaths have their own loops. *)
Definition plain_edge (from to : ProcessState) : bool :=
  is_legal_transition from to && negb (bool_decide (to = Dead)) &&
  negb (bool_decide (to = Running)).

Inductive ostep : Slot -> Slot -> Prop :=
  (** [ProcessTable::try_claim] *)
  | o_claim w hs rs t g w' :
      try_claim g w = (true, w') ->
      ostep (mkSlot w hs rs) (mkSlot w' ((t, g) :: hs) rs)
  (** [park_edge], [wake_edge], [yield_running] *)
  | o_edge w hs rs g from to b w' :
      plain_edge from to = true -> try_edge g from to w = (b, w') ->
      ostep (mkSlot w hs rs) (mkSlot w' hs rs)
  (** [death_edge]: the killer reclaims when it saw the target off-cpu *)
  | o_kill w hs rs t g prior w' :
      try_kill g w = (Some prior, w') ->
      ostep (mkSlot w hs rs)
            (mkSlot w' hs (if on_cpu prior then rs else t :: rs))
  (** [after_switch]: a claim holder releases, and reclaims when it sees [Dead] *)
  | o_release w hs1 hs2 rs t g st w' :
      release g w = (st, w') ->
      ostep (mkSlot w (hs1 ++ (t, g) :: hs2) rs)
            (mkSlot w' (hs1 ++ hs2) (if bool_decide (st = Some Dead) then t :: rs else rs))
  (** [reclaim_locked] *)
  | o_vacate w hs rs1 rs2 t :
      ostep (mkSlot w hs (rs1 ++ t :: rs2)) (mkSlot (snd (vacate w)) hs (rs1 ++ rs2))
  (** [spawn] on a vacant slot off the freelist *)
  | o_occupy w hs rs :
      state (load w) = None ->
      ostep (mkSlot w hs rs) (mkSlot (occupy (Z.max 1 (generation (load w))) w) hs rs).

Definition slot_new : Slot := mkSlot word_new [] [].

(** Exactly one holder while [on_cpu] is set, at the word's generation; exactly
    one pending reclaim while the word is dead and off-cpu. *)
Record ok (s : Slot) : Prop := {
  ok_wf : word_wf (word s);
  ok_vacant : state (load (word s)) = None -> on_cpu (load (word s)) = false;
  ok_holders :
    if on_cpu (load (word s)) then exists t, holders s = [(t, generation (load (word s)))]
    else holders s = [];
  ok_reclaimers :
    if bool_decide (state (load (word s)) = Some Dead) && negb (on_cpu (load (word s)))
    then exists t, reclaimers s = [t] else reclaimers s = [];
}.

Lemma ok_new : ok slot_new.
Proof. by constructor. Qed.

Lemma singleton_middle {A} (l1 l2 : list A) x y :
  l1 ++ x :: l2 = [y] -> l1 = [] /\ l2 = [] /\ x = y.
Proof. destruct l1 as [|? [|]]; simpl; naive_solver. Qed.

Lemma ok_claim w hs rs t g w' :
  ok (mkSlot w hs rs) -> try_claim g w = (true, w') -> ok (mkSlot w' ((t, g) :: hs) rs).
Proof.
  intros [Hwf Hv Hh Hr] Hc. simpl in *. pose proof (try_claim_spec g w Hwf) as Hs.
  destruct (claim_next g (load w)) as [n|] eqn:E; [|rewrite Hs in Hc; done].
  rewrite Hc in Hs. simpl in Hs. destruct Hs as (_ & Hwf' & Hl).
  apply claim_next_Some in E as (<- & Ho & Hst & ->). rewrite Ho in Hh, Hr. simpl in Hh, Hr.
  constructor; simpl; rewrite ?Hl; simpl; try done.
  - rewrite Hh. eauto.
  - destruct Hst as [Hst|Hst]; rewrite Hst in Hr; done.
Qed.

Lemma ok_edge w hs rs g from to b w' :
  ok (mkSlot w hs rs) -> plain_edge from to = true -> try_edge g from to w = (b, w') ->
  ok (mkSlot w' hs rs).
Proof.
  intros [Hwf Hv Hh Hr] Hp He. simpl in *. pose proof (try_edge_spec g from to w Hwf) as Hs.
  destruct (edge_next g from to (load w)) as [n|] eqn:E; rewrite He in Hs; [|by clean].
  simpl in Hs. destruct Hs as (_ & Hwf' & Hl).
  apply edge_next_Some in E as (<- & Hst & ->).
  unfold plain_edge in Hp. clean.
  assert (from <> Dead) by (intros ->; by destruct to).
  rewrite Hst, bool_decide_false in Hr by naive_solver. simpl in Hr.
  constructor; simpl; rewrite ?Hl; simpl; try done.
  rewrite bool_decide_false by naive_solver. done.
Qed.

Lemma ok_kill w hs rs t g prior w' :
  ok (mkSlot w hs rs) -> try_kill g w = (Some prior, w') ->
  ok (mkSlot w' hs (if on_cpu prior then rs else t :: rs)).
Proof.
  intros [Hwf Hv Hh Hr] Hk. simpl in *. pose proof (try_kill_spec g w Hwf) as Hs.
  destruct (kill_next g (load w)) as [n|] eqn:E; rewrite Hk in Hs; [|by clean].
  simpl in Hs. destruct Hs as (Hp & Hwf' & Hl). injection Hp as ->.
  apply kill_next_Some in E as (Ha & ->). apply word_alive_true in Ha as (<- & s & Hst & Hnd).
  rewrite Hst, bool_decide_false in Hr by naive_solver. simpl in Hr. subst rs.
  constructor; simpl; rewrite ?Hl; simpl; try done.
  destruct (on_cpu (load w)); simpl; eauto.
Qed.

Lemma ok_release w hs1 hs2 rs t g st w' :
  ok (mkSlot w (hs1 ++ (t, g) :: hs2) rs) -> release g w = (st, w') ->
  ok (mkSlot w' (hs1 ++ hs2) (if bool_decide (st = Some Dead) then t :: rs else rs)).
Proof.
  intros [Hwf Hv Hh Hr] Hc. simpl in *.
  destruct (on_cpu (load w)) eqn:Ho; [|by destruct hs1].
  destruct Hh as [t' (-> & -> & [= -> ->])%singleton_middle].
  rewrite andb_false_r in Hr. subst rs.
  pose proof (release_spec (generation (load w)) w Hwf) as Hs.
  destruct (release_next _ (load w)) as [n|] eqn:E.
  - rewrite Hc in Hs. simpl in Hs. destruct Hs as (-> & Hwf' & Hl).
    apply release_next_Some in E as (_ & _ & ->).
    constructor; simpl; rewrite ?Hl; simpl; try done.
    rewrite andb_true_r. destruct (bool_decide _); eauto.
  - unfold release_next in E. by rewrite Z.eqb_refl, Ho in E.
Qed.

Lemma ok_vacate w hs rs1 rs2 t :
  ok (mkSlot w hs (rs1 ++ t :: rs2)) -> ok (mkSlot (snd (vacate w)) hs (rs1 ++ rs2)).
Proof.
  intros [Hwf Hv Hh Hr]. simpl in *.
  destruct (bool_decide (state (load w) = Some Dead) && negb (on_cpu (load w))) eqn:E;
    [|by destruct rs1].
  destruct Hr as [t' (-> & -> & _)%singleton_middle]. clean. rewrite H0 in Hh.
  destruct (vacate_spec w) as [Hwf' Hl].
  constructor; simpl; rewrite ?Hl; simpl; done.
Qed.

Lemma ok_occupy w hs rs :
  ok (mkSlot w hs rs) -> state (load w) = None ->
  ok (mkSlot (occupy (Z.max 1 (generation (load w))) w) hs rs).
Proof.
  intros [Hwf Hv Hh Hr] Hst. simpl in *. rewrite (Hv Hst) in Hh, Hr. rewrite Hst in Hr.
  simpl in Hh, Hr.
  destruct (occupy_spec (Z.max 1 (generation (load w))) w) as [Hwf' Hl].
  { pose proof (load_generation_range w). lia. }
  constructor; simpl; rewrite ?Hl; simpl; done.
Qed.

Lemma ostep_ok s s' : ostep s s' -> ok s -> ok s'.
Proof.
  intros Hs Hok. destruct Hs.
  - by eapply ok_claim.
  - by eapply ok_edge.
  - by eapply ok_kill.
  - by eapply ok_release.
  - by eapply ok_vacate.
  - by apply ok_occupy.
Qed.

Lemma reachable_ok s : rtc ostep slot_new s -> ok s.
Proof.
  intros Hr. assert (forall s0, rtc ostep s0 s -> ok s0 -> ok s) as Hgen.
  { clear Hr. intros s0 H. induction H; eauto using ostep_ok. }
  eauto using ok_new.
Qed.

(** C24: mutual exclusion on a slot's execution cell. In every reachable state at
    most one thread holds the [on_cpu] claim, at most one thread owes the
    reclaim, and never both: the owner that may touch the execution state is
    unique, which is what licenses the [Sync] impl of [ExecutionCell]. *)
Theorem execution_cell_exclusive (s : Slot) (Hr : rtc ostep slot_new s) :
  (length (holders s) + length (reclaimers s) <= 1)%nat.
Proof.
  destruct (reachable_ok s Hr) as [_ _ Hh Hrec].
  destruct (on_cpu (load (word s))).
  - destruct Hh as [t ->]. rewrite andb_false_r in Hrec. by rewrite Hrec.
  - rewrite Hh. destruct (_ && _); [destruct Hrec as [t ->]|rewrite Hrec]; simpl; lia.
Qed.

(** Spawn, claim, and a kill that lands while the process runs. *)
Definition killed_running : Slot :=
  mkSlot (encode_word (mkWordState 1 true (Some Dead))) [(7%nat, 1)] [].

Lemma killed_running_reachable : rtc ostep slot_new killed_running.
Proof.
  eapply rtc_l; [by apply o_occupy|].
  eapply rtc_l; [apply (o_claim _ _ _ 7%nat 1 (encode_word (mkWordState 1 true (Some Running))));
                 vm_compute; reflexivity|].
  eapply rtc_l; [apply (o_kill _ _ _ 9%nat 1 (mkWordState 1 true (Some Running))
                          (encode_word (mkWordState 1 true (Some Dead))));
                 vm_compute; reflexivity|].
  reflexivity.
Defined.

Lemma execution_cell_exclusive_witness :
  (length (holders killed_running) + length (reclaimers killed_running) <= 1)%nat.
Proof. apply execution_cell_exclusive. exact killed_running_reachable. Defined.

(** C25: a dead slot is reclaimed exactly once. In every reachable state a slot
    that is dead and off-cpu has exactly one thread that owes the reclaim (the
    killer that saw it off-cpu, or the owner that saw [Dead] at its release), a
    dead slot still on a cpu has exactly one owner left to do it, and the release
    of a claim holder never fails. *)
Theorem dead_slot_reclaimed_once (s : Slot) (Hr : rtc ostep slot_new s) :
  (state (load (word s)) = Some Dead ->
     if on_cpu (load (word s)) then length (holders s) = 1%nat /\ reclaimers s = []
     else holders s = [] /\ length (reclaimers s) = 1%nat) /\
  (forall t g, (t, g) ∈ holders s ->
     g = generation (load (word s)) /\ on_cpu (load (word s)) = true /\
     fst (release g (word s)) = state (load (word s))).
Proof.
  destruct (reachable_ok s Hr) as [Hwf _ Hh Hrec]. split.
  - intros Hd. rewrite Hd, bool_decide_true in Hrec by done.
    destruct (on_cpu (load (word s))); simpl in Hrec.
    + destruct Hh as [t ->]. done.
    + destruct Hrec as [t ->]. done.
  - intros t g Hin. destruct (on_cpu (load (word s))) eqn:Ho.
    + destruct Hh as [t' Hh]. rewrite Hh in Hin. apply list_elem_of_singleton in Hin as [= -> ->].
      repeat split. pose proof (release_spec (generation (load (word s))) _ Hwf) as Hs.
      destruct (release_next _ _) eqn:E; [tauto|].
      unfold release_next in E. by rewrite Z.eqb_refl, Ho in E.
    + rewrite Hh in Hin. inversion Hin.
Qed.

Lemma dead_slot_reclaimed_once_witness :
  length (holders killed_running) = 1%nat /\ reclaimers killed_running = [].
Proof. exact (proj1 (dead_slot_reclaimed_once _ killed_running_reachable) eq_refl). Defined.

End Ownership.
