(* ===== verification/ReadyQueue.v ===== *)
(** * The cooperative ready queue

    Models [koja-runtime-core/src/ready_queue.rs]: one FIFO level per priority,
    with per-level aging. The arrays [ages] and [levels] are lists of length
    three ([queue_ok] says so); the additions on the [u32] ages are exact because
    an age never passes nine.

    The main theorem bounds the wait of every queued process against any
    sequence of pushes and pops. *)

From S2P Require Import Prelude Protocol.
Local Open Scope Z_scope.

Definition LEVELS : nat := 3.
Definition STARVATION_THRESHOLD : Z := 8.

Record ReadyQueue := mkReadyQueue {
  ages : list Z;
  levels : list (list Pid);
}.

(** [ReadyQueue::new]: the derived [Default]. *)
Definition queue_new : ReadyQueue := mkReadyQueue [0; 0; 0] [[]; []; []].

Definition level_of (p : Priority) : nat := Z.to_nat (priority_index p).

Definition push (q : ReadyQueue) (w : Wake) : ReadyQueue :=
  mkReadyQueue (ages q) (alter (fun l => l ++ [wake_pid w]) (level_of (wake_priority w)) (levels q)).

Definition level_empty (q : ReadyQueue) (level : nat) : bool :=
  match levels q !! level with Some (_ :: _) => false | _ => true end.

Definition age_at (q : ReadyQueue) (level : nat) : Z := default 0 (ages q !! level).

(** [Iterator::max_by_key] with the key [(age, level)]: the last maximum. *)
Definition key_le (q : ReadyQueue) (a b : nat) : bool :=
  (age_at q a <? age_at q b) || ((age_at q a =? age_at q b) && (a <=? b)%nat).

Definition max_by_key (q : ReadyQueue) (candidates : list nat) : option nat :=
  fold_left (fun acc level =>
    match acc with
    | None => Some level
    | Some best => if key_le q best level then Some level else Some best
    end) candidates None.

Definition next_level (q : ReadyQueue) : option (nat * ReadyQueue) :=
  match List.find (fun level => negb (level_empty q level)) (rev (seq 0 LEVELS)) with
  | None => None
  | Some highest =>
      let chosen :=
        default highest
          (max_by_key q
             (List.filter
                (fun level => negb (level_empty q level) &&
                              (STARVATION_THRESHOLD <=? age_at q level))
                (seq 0 LEVELS))) in
      let ages' :=
        map (fun level =>
               if (level =? chosen)%nat || level_empty q level then 0
               else wrap 32 (age_at q level + 1))
            (seq 0 LEVELS) in
      Some (chosen, mkReadyQueue ages' (levels q))
  end.

Definition pop (q : ReadyQueue) : option Pid * ReadyQueue :=
  match next_level q with
  | None => (None, q)
  | Some (level, q') =>
      match levels q' !! level with
      | Some (p :: rest) => (Some p, mkReadyQueue (ages q') (<[level := rest]> (levels q')))
      | _ => (None, q')
      end
  end.

(** A client of the queue: the results of its pops, and the queue it leaves. *)
Inductive QueueOp := QPush (w : Wake) | QPop.

Fixpoint run (q : ReadyQueue) (ops : list QueueOp) : list (option Pid) * ReadyQueue :=
  match ops with
  | [] => ([], q)
  | QPush w :: rest => run (push q w) rest
  | QPop :: rest =>
      let (o, q') := pop q in
      let (os, q'') := run q' rest in (o :: os, q'')
  end.

Definition is_pop (op : QueueOp) : bool := match op with QPop => true | QPush _ => false end.

(** Ages stay at most nine, some level has just been served, and when one level
    has reached nine no other is aged enough to compete. *)
Definition ages_ok (a b c : Z) : Prop :=
  (0 <= a <= 9 /\ 0 <= b <= 9 /\ 0 <= c <= 9) /\
  (a = 0 \/ b = 0 \/ c = 0) /\
  (a = 9 -> b < 8 /\ c < 8) /\ (b = 9 -> a < 8 /\ c < 8) /\ (c = 9 -> a < 8 /\ b < 8).

Definition queue_ok (q : ReadyQueue) : Prop :=
  exists a b c x y z, ages q = [a; b; c] /\ levels q = [x; y; z] /\ ages_ok a b c.

Lemma queue_new_ok : queue_ok queue_new.
Proof. repeat eexists; lia. Qed.

Lemma push_ok q w : queue_ok q -> queue_ok (push q w).
Proof.
  intros (a & b & c & x & y & z & Ha & Hl & Hok). unfold push, queue_ok.
  rewrite Ha, Hl. simpl. destruct (wake_priority w); simpl; by do 6 eexists.
Qed.

(** What one [pop] of a well-formed queue does: nothing when every level is
    empty; otherwise the chosen level gives its head and every other non-empty
    level ages by one. *)
Lemma pop_step q :
  queue_ok q ->
  (pop q = (None, q) /\ forall i, level_empty q i = true) \/
  exists chosen p rest,
    levels q !! chosen = Some (p :: rest) /\
    fst (pop q) = Some p /\
    levels (snd (pop q)) = <[chosen := rest]> (levels q) /\
    queue_ok (snd (pop q)) /\
    age_at (snd (pop q)) chosen = 0 /\
    (forall i, i <> chosen -> level_empty q i = false ->
       age_at (snd (pop q)) i = age_at q i + 1).
Proof.
  intros (a & b & c & x & y & z & Ha & Hl & Hok). destruct q as [ags lvls]. simpl in *. subst.
  unfold pop, next_level, max_by_key, key_le, level_empty, age_at, STARVATION_THRESHOLD, LEVELS.
  simpl. destruct Hok as (Hb & Hz & H1 & H2 & H3).
  destruct z as [|p2 z], y as [|p1 y], x as [|p0 x]; simpl.
  1: { left. split; [done|]. intros [|[|[|i]]]; done. }
  all: right.
  all: destruct (Z.leb_spec 8 a), (Z.leb_spec 8 b), (Z.leb_spec 8 c); simpl; try lia.
  all: try (destruct (Z.ltb_spec a b); simpl; try lia).
  all: try (destruct (Z.ltb_spec b c); simpl; try lia).
  all: try (destruct (Z.ltb_spec a c); simpl; try lia).
  all: try (destruct (Z.eqb_spec a b); simpl; try lia).
  all: try (destruct (Z.eqb_spec b c); simpl; try lia).
  all: try (destruct (Z.eqb_spec a c); simpl; try lia).
  all: match goal with
       | |- context [Some ?p = _] =>
           first [ exists 0%nat, p; eexists; split; [reflexivity|]
                 | exists 1%nat, p; eexists; split; [reflexivity|]
                 | exists 2%nat, p; eexists; split; [reflexivity|] ]
       end.
  all: unfold queue_ok, age_at; simpl.
  all: rewrite ?(wrap_small 32) by lia.
  all: split; [reflexivity|]; split; [reflexivity|].
  all: split; [do 6 eexists; split; [reflexivity|]; split; [reflexivity|]; unfold ages_ok; lia|].
  all: split; [reflexivity|].
  all: intros [|[|[|i]]]; simpl; intros; try done; try lia.
Qed.

Lemma push_keeps_pos q w i l k p :
  levels q !! i = Some l -> l !! k = Some p ->
  exists l', levels (push q w) !! i = Some l' /\ l' !! k = Some p.
Proof.
  intros Hi Hk. unfold push. simpl. rewrite list_lookup_alter.
  destruct (decide (level_of (wake_priority w) = i)) as [->|].
  - rewrite Hi. simpl. eexists. split; [done|]. by apply lookup_app_l_Some.
  - rewrite Hi. eauto.
Qed.

Lemma age_range q i : queue_ok q -> 0 <= age_at q i <= 9.
Proof.
  intros (a & b & c & x & y & z & Ha & _ & (Hb & _)). unfold age_at. rewrite Ha.
  destruct i as [|[|[|i]]]; simpl; lia.
Qed.

(** The pops still needed before the process at depth [k] of level [i] is out. *)
Definition wait_bound (q : ReadyQueue) (i k : nat) : Z := 10 * Z.of_nat k + 10 - age_at q i.

Lemma served_within q ops i l k p :
  queue_ok q -> levels q !! i = Some l -> l !! k = Some p ->
  wait_bound q i k <= countb is_pop ops ->
  Some p ∈ fst (run q ops).
Proof.
  revert q l k. induction ops as [|[w|] ops IH]; intros q l k Hok Hi Hk Hb; simpl.
  - pose proof (age_range q i Hok). unfold wait_bound in Hb. rewrite countb_nil in Hb. lia.
  - destruct (push_keeps_pos q w i l k p Hi Hk) as (l' & Hi' & Hk').
    eapply (IH _ l' k); eauto using push_ok.
  - rewrite countb_cons in Hb. simpl in Hb. pose proof (age_range q i Hok) as Hr.
    destruct (pop_step q Hok) as [[_ He]|(ch & x & rest & Hc & Ho & Hl & Hok' & Ha & Hothers)].
    { specialize (He i). unfold level_empty in He. rewrite Hi in He. by destruct l. }
    destruct (pop q) as [o q'] eqn:Ep. simpl in Ho, Hl, Hok', Ha, Hothers. subst o.
    destruct (run q' ops) as [os q''] eqn:Er. simpl.
    destruct (decide (ch = i)) as [->|Hne].
    + rewrite Hi in Hc. simplify_eq. destruct k as [|k]; simplify_eq/=; [by left|].
      right. assert (levels q' !! i = Some rest) as Hi'.
      { rewrite Hl. apply list_lookup_insert_eq. by eapply lookup_lt_Some. }
      pose proof (IH q' rest k Hok' Hi' Hk) as Hin. rewrite Er in Hin. apply Hin.
      unfold wait_bound in *. lia.
    + right. assert (levels q' !! i = Some l) as Hi' by (rewrite Hl, list_lookup_insert_ne; done).
      pose proof (IH q' l k Hok' Hi' Hk) as Hin. rewrite Er in Hin. apply Hin.
      assert (level_empty q i = false).
      { unfold level_empty. rewrite Hi. by destruct l. }
      unfold wait_bound in *. rewrite Hothers by done. lia.
Qed.

Lemma run_ok q ops : queue_ok q -> queue_ok (snd (run q ops)).
Proof.
  revert q. induction ops as [|[w|] ops IH]; intros q Hok; simpl; [done| |].
  - apply IH. by apply push_ok.
  - destruct (pop_step q Hok) as [[Hp _]|(ch & x & rest & _ & _ & _ & Hok' & _)].
    + rewrite Hp. specialize (IH q Hok). by destruct (run q ops).
    + destruct (pop q) as [o q']. simpl in *. specialize (IH q' Hok'). by destruct (run q' ops).
Qed.

Lemma ready_push_contents q w :
  queue_ok q -> Permutation (concat (levels (push q w))) (wake_pid w :: concat (levels q)).
Proof.
  intros (a & b & c & x & y & z & Ha & Hl & Hok). unfold push. simpl. rewrite Hl.
  destruct (wake_priority w); simpl; rewrite ?app_nil_r; solve_Permutation.
Qed.

Lemma ready_pop_contents q :
  queue_ok q ->
  Permutation (concat (levels q)) (option_list (fst (pop q)) ++ concat (levels (snd (pop q)))).
Proof.
  intros Hok. destruct (pop_step q Hok) as [[-> _]|(ch & x & rest & Hc & -> & -> & _)].
  - done.
  - simpl. apply (Permutation_app_inv_l rest).
    rewrite (concat_insert_perm _ _ _ rest Hc). simpl. by rewrite <- Permutation_middle.
Qed.

Definition pushed (op : QueueOp) : list Pid := match op with QPush w => [wake_pid w] | QPop => [] end.

Lemma run_contents q ops :
  queue_ok q ->
  Permutation (concat (levels q) ++ concat (map pushed ops))
              (concat (map option_list (fst (run q ops))) ++ concat (levels (snd (run q ops)))).
Proof.
  revert q. induction ops as [|[w|] ops IH]; intros q Hok; simpl.
  - by rewrite app_nil_r.
  - rewrite <- IH by (by apply push_ok). rewrite ready_push_contents by done. solve_Permutation.
  - pose proof (ready_pop_contents q Hok) as Hp.
    assert (queue_ok (snd (pop q))) as Hok'.
    { destruct (pop_step q Hok) as [[-> _]|(? & ? & ? & _ & _ & _ & ? & _)]; done. }
    destruct (pop q) as [o q']. simpl in *. specialize (IH q' Hok').
    destruct (run q' ops) as [os q'']. simpl in *. rewrite Hp, <- app_assoc, IH.
    by rewrite app_assoc.
Qed.

(** C26: no priority level is starved. From any queue the operations can reach,
    the process at depth [k] of its level is popped within [10 * (k + 1)] pops,
    whatever is pushed meanwhile and at whatever priority. In particular the head
    of every level, low priority included, is served within ten pops. *)
Theorem ready_queue_no_starvation (pre ops : list QueueOp) (level k : nat) (l : list Pid) (p : Pid)
    (Hlevel : levels (snd (run queue_new pre)) !! level = Some l)
    (Hpos : l !! k = Some p)
    (Hpops : 10 * (Z.of_nat k + 1) <= countb is_pop ops) :
  Some p ∈ fst (run (snd (run queue_new pre)) ops).
Proof.
  pose proof (run_ok queue_new pre queue_new_ok) as Hok.
  eapply served_within; eauto. unfold wait_bound.
  pose proof (age_range _ level Hok). lia.
Qed.

(** A low-priority process against a high-priority one that is always requeued. *)
Lemma ready_queue_no_starvation_witness :
  Some 1 ∈ fst (run (snd (run queue_new [QPush (mkWake 1 Low); QPush (mkWake 2 High)]))
                    (concat (replicate 10 [QPop; QPush (mkWake 2 High)]))).
Proof.
  apply (ready_queue_no_starvation _ _ 0 0 [1]); [reflexivity|reflexivity|].
  vm_compute. congruence.
Defined.

(** The ready queue neither loses nor invents work. Over any sequence of
    operations from a fresh queue, the processes pushed are, as a multiset, the
    processes popped together with those still queued. *)
Theorem ready_queue_conserves (ops : list QueueOp) :
  Permutation (concat (map pushed ops))
    (concat (map option_list (fst (run queue_new ops))) ++
     concat (levels (snd (run queue_new ops)))).
Proof. exact (run_contents queue_new ops queue_new_ok). Qed.
