(* ===== verification/TimerWheel.v ===== *)
(** * The hashed timing wheel

    Models [koja-runtime-core/src/timer_wheel.rs]: the wheel of [WHEEL_SLOTS]
    buckets with its occupancy bitmap, the overflow map, insertion, cancellation
    by token, the drain and the two soonest-instant queries. Bucket capacities
    ([BUCKET_RETAIN], [shrink_to]) are not part of the state: they do not change
    what a bucket holds.

    The overflow [BTreeMap] is its list of bindings in key order. The main
    theorem is that the wheel behaves as the bag of its pending entries. *)

From S2P Require Import Prelude Protocol.
Local Open Scope Z_scope.

Definition WHEEL_TICK_NANOS : Z := 1 * NANOS_PER_MILLI.
Definition WHEEL_SLOTS : Z := 4096.
Definition BITMAP_WORDS : Z := WHEEL_SLOTS / 64.

Inductive WheelKind (M : Type) := Deliver (envelope : M) | Promote.
Arguments Deliver {M} envelope.
Arguments Promote {M}.

Record WheelEntry (M : Type) := mkEntry {
  entry_fire_at : Instant;
  entry_kind : WheelKind M;
  entry_pid : Pid;
  entry_seq : Z;
}.
Arguments mkEntry {M}.
Arguments entry_fire_at {M}.
Arguments entry_kind {M}.
Arguments entry_pid {M}.
Arguments entry_seq {M}.

Record TimerToken := mkToken {
  token_fire_at : Instant;
  token_seq : Z;
  token_slot : option Z;
}.

#[export] Instance timer_token_eq_dec : EqDecision TimerToken.
Proof. solve_decision. Defined.

Inductive Due (M : Type) :=
  | DueDeliver (envelope : M) (target_pid : Pid)
  | DuePromote (pid : Pid) (fire_at : Instant).
Arguments DueDeliver {M}.
Arguments DuePromote {M}.

(** One binding of the overflow map: the key [(fire_at, seq)] and the
    [OverflowEntry] together are a wheel entry. *)
Record OverflowEntry (M : Type) := mkOverflow {
  overflow_kind : WheelKind M;
  overflow_pid : Pid;
}.
Arguments mkOverflow {M}.
Arguments overflow_kind {M}.
Arguments overflow_pid {M}.

Record TimerWheel (M : Type) := mkWheel {
  base : option Instant;
  cursor_tick : Z;
  occupied : list Z;
  overflow : list ((Instant * Z) * OverflowEntry M);
  pending : Z;
  wheel_seq : Z;
  slots : list (list (WheelEntry M));
  soonest : option Instant;
}.
Arguments mkWheel {M}.
Arguments base {M}.
Arguments cursor_tick {M}.
Arguments occupied {M}.
Arguments overflow {M}.
Arguments pending {M}.
Arguments wheel_seq {M}.
Arguments slots {M}.
Arguments soonest {M}.

(** [t.saturating_duration_since(base).as_nanos() as u64 / WHEEL_TICK_NANOS]. *)
Definition tick_of (base t : Instant) : Z :=
  wrap 64 (Z.max 0 (t - base)) / WHEEL_TICK_NANOS.

(** ** The ordered map *)

(** The derived order of the key tuple [(Instant, u64)]. *)
Definition key_cmp (a b : Instant * Z) : comparison :=
  match fst a ?= fst b with Eq => snd a ?= snd b | c => c end.

Section BTree.
Context {V : Type}.

Fixpoint bt_insert (k : Instant * Z) (v : V) (m : list ((Instant * Z) * V)) :
    list ((Instant * Z) * V) :=
  match m with
  | [] => [(k, v)]
  | (k', v') :: rest =>
      match key_cmp k k' with
      | Lt => (k, v) :: m
      | Eq => (k, v) :: rest
      | Gt => (k', v') :: bt_insert k v rest
      end
  end.

(** [BTreeMap::remove]: whether the key was bound, and the map without it. *)
Fixpoint bt_remove (k : Instant * Z) (m : list ((Instant * Z) * V)) :
    bool * list ((Instant * Z) * V) :=
  match m with
  | [] => (false, [])
  | (k', v') :: rest =>
      match key_cmp k k' with
      | Lt => (false, m)
      | Eq => (true, rest)
      | Gt => let (b, rest') := bt_remove k rest in (b, (k', v') :: rest')
      end
  end.
End BTree.

(** ** Words of the occupancy bitmap *)

Fixpoint trailing_zeros_pos (p : positive) : Z :=
  match p with xO p' => 1 + trailing_zeros_pos p' | _ => 0 end.

(** [u64::trailing_zeros]. *)
Definition trailing_zeros (bits : Z) : Z :=
  match bits with Zpos p => trailing_zeros_pos p | _ => 64 end.

(** The [while bits != 0] loop of [nearest]: the bits it visits, in order. At
    most 64 bits of a word are set, so 64 steps of fuel finish the loop. *)
Fixpoint bit_loop (fuel : nat) (bits : Z) : list Z :=
  match fuel with
  | O => []
  | S fuel' =>
      if bits =? 0 then []
      else trailing_zeros bits :: bit_loop fuel' (Z.land bits (bits - 1))
  end.

Definition set_bit (idx : Z) (occ : list Z) : list Z :=
  alter (fun w => Z.lor w (Z.shiftl 1 (idx mod 64))) (Z.to_nat (idx / 64)) occ.

(** [word &= !(1u64 << bit)], the complement taken on 64 bits. *)
Definition clear_bit (idx : Z) (occ : list Z) : list Z :=
  alter (fun w => Z.land w (2 ^ 64 - 1 - Z.shiftl 1 (idx mod 64))) (Z.to_nat (idx / 64)) occ.

Section Wheel.
Context {M : Type}.
Implicit Types w : TimerWheel M.

Definition wheel_new : TimerWheel M :=
  mkWheel None 0 (replicate (Z.to_nat BITMAP_WORDS) 0) [] 0 0 [] None.

Definition is_empty w : bool := pending w =? 0.

Definition set_occupied (idx : Z) w : TimerWheel M :=
  mkWheel (base w) (cursor_tick w) (set_bit idx (occupied w)) (overflow w) (pending w)
    (wheel_seq w) (slots w) (soonest w).

Definition clear_occupied (idx : Z) w : TimerWheel M :=
  mkWheel (base w) (cursor_tick w) (clear_bit idx (occupied w)) (overflow w) (pending w)
    (wheel_seq w) (slots w) (soonest w).

Definition set_slots (s : list (list (WheelEntry M))) w : TimerWheel M :=
  mkWheel (base w) (cursor_tick w) (occupied w) (overflow w) (pending w)
    (wheel_seq w) s (soonest w).

(** [self.slots[idx]]. *)
Definition slot_at (s : list (list (WheelEntry M))) (idx : Z) : list (WheelEntry M) :=
  default [] (s !! Z.to_nat idx).

Definition bucket w (idx : Z) : list (WheelEntry M) := slot_at (slots w) idx.

Definition release_bucket_if_empty (idx : Z) w : TimerWheel M :=
  match bucket w idx with
  | [] => clear_occupied idx w
  | _ => w
  end.

Definition ensure_base (t : Instant) w : Instant * TimerWheel M :=
  match base w with
  | Some b => (b, w)
  | None =>
      (t, mkWheel (Some t) (cursor_tick w) (occupied w) (overflow w) (pending w)
            (wheel_seq w) (replicate (Z.to_nat WHEEL_SLOTS) []) (soonest w))
  end.

Definition insert (fire_at : Instant) (p : Pid) (k : WheelKind M) w :
    TimerToken * TimerWheel M :=
  let (b, w) := ensure_base fire_at w in
  let seq := wheel_seq w +u64 1 in
  let target_tick := Z.max (tick_of b fire_at) (cursor_tick w) in
  let entry := mkEntry fire_at k p seq in
  let w := mkWheel (base w) (cursor_tick w) (occupied w) (overflow w) (pending w +u64 1) seq
             (slots w)
             (Some (match soonest w with None => fire_at | Some s => Z.min s fire_at end)) in
  if target_tick <? (cursor_tick w +u64 WHEEL_SLOTS) then
    let idx := target_tick mod WHEEL_SLOTS in
    let w := set_occupied idx w in
    let w := set_slots (alter (fun bkt => bkt ++ [entry]) (Z.to_nat idx) (slots w)) w in
    (mkToken fire_at seq (Some idx), w)
  else
    (mkToken fire_at seq None,
     mkWheel (base w) (cursor_tick w) (occupied w)
       (bt_insert (fire_at, seq) (mkOverflow k p) (overflow w))
       (pending w) (wheel_seq w) (slots w) (soonest w)).

Definition insert_deliver (fire_at : Instant) (target_pid : Pid) (envelope : M) w :
    TimerWheel M :=
  snd (insert fire_at target_pid (Deliver envelope) w).

Definition insert_deadline (fire_at : Instant) (p : Pid) w : TimerToken * TimerWheel M :=
  insert fire_at p Promote w.

(** [iter().position(|entry| entry.seq == seq)]. *)
Fixpoint position (seq : Z) (bkt : list (WheelEntry M)) : option nat :=
  match bkt with
  | [] => None
  | e :: rest => if entry_seq e =? seq then Some O else option_map S (position seq rest)
  end.

Definition set_pending (n : Z) w : TimerWheel M :=
  mkWheel (base w) (cursor_tick w) (occupied w) (overflow w) n (wheel_seq w) (slots w)
    (soonest w).

Definition cancel (token : TimerToken) w : TimerWheel M :=
  let (removed, w) :=
    match token_slot token with
    | Some idx =>
        match position (token_seq token) (bucket w idx) with
        | Some i =>
            let w := set_slots (alter (swap_remove i) (Z.to_nat idx) (slots w)) w in
            (true, release_bucket_if_empty idx w)
        | None => (false, w)
        end
    | None =>
        let (found, m) := bt_remove (token_fire_at token, token_seq token) (overflow w) in
        (found, mkWheel (base w) (cursor_tick w) (occupied w) m (pending w) (wheel_seq w)
                  (slots w) (soonest w))
    end in
  if removed then set_pending (pending w -u64 1) w else w.

(** The [while let] over the overflow map: the bindings it pops, in order. *)
Fixpoint drain_overflow (now : Instant) (m : list ((Instant * Z) * OverflowEntry M)) :
    list (WheelEntry M) * list ((Instant * Z) * OverflowEntry M) :=
  match m with
  | [] => ([], [])
  | ((fire_at, seq), o) :: rest =>
      if now <? fire_at then ([], m)
      else
        let (due, m') := drain_overflow now rest in
        (mkEntry fire_at (overflow_kind o) (overflow_pid o) seq :: due, m')
  end.

(** The [while i < len] loop over one bucket. Each round removes an entry or
    moves past one, so [length bkt - i] rounds finish it. *)
Fixpoint scan_bucket (fuel : nat) (now : Instant) (i : nat)
    (bkt due : list (WheelEntry M)) : list (WheelEntry M) * list (WheelEntry M) :=
  match fuel with
  | O => (bkt, due)
  | S fuel' =>
      match bkt !! i with
      | None => (bkt, due)
      | Some e =>
          if entry_fire_at e <=? now
          then scan_bucket fuel' now i (swap_remove i bkt) (due ++ [e])
          else scan_bucket fuel' now (S i) bkt due
      end
  end.

(** One iteration of the [for step] loop. *)
Definition drain_bucket (now : Instant) (tick : Z) (st : TimerWheel M * list (WheelEntry M)) :
    TimerWheel M * list (WheelEntry M) :=
  let (w, due) := st in
  let idx := tick mod WHEEL_SLOTS in
  let bkt := bucket w idx in
  let (bkt', due') := scan_bucket (length bkt) now 0 bkt due in
  (release_bucket_if_empty idx (set_slots (<[Z.to_nat idx := bkt']> (slots w)) w), due').

Definition min_fire (best : option Instant) (fire_at : Instant) : option Instant :=
  Some (match best with None => fire_at | Some cur => Z.min cur fire_at end).

Definition nearest w : option Instant :=
  let best := match overflow w with [] => None | ((fire_at, _), _) :: _ => Some fire_at end in
  fold_left (fun best word =>
      fold_left (fun best bit =>
          fold_left (fun best e => min_fire best (entry_fire_at e))
            (bucket w (word * 64 + bit)) best)
        (bit_loop 64 (default 0 (occupied w !! Z.to_nat word))) best)
    (seqZ 0 BITMAP_WORDS) best.

Definition soonest_bound w : option Instant :=
  if pending w =? 0 then None else soonest w.

(** The sort key [(entry.fire_at, entry.seq)]. *)
Definition entry_le (a b : WheelEntry M) : Prop :=
  entry_fire_at a < entry_fire_at b \/
  (entry_fire_at a = entry_fire_at b /\ entry_seq a <= entry_seq b).

#[global] Instance entry_le_dec : RelDecision entry_le.
Proof. intros a b. unfold entry_le. apply _. Defined.

Definition to_due (e : WheelEntry M) : Due M :=
  match entry_kind e with
  | Deliver envelope => DueDeliver envelope (entry_pid e)
  | Promote => DuePromote (entry_pid e) (entry_fire_at e)
  end.

(** The ticks [cursor ..= target], at most one rotation of them. *)
Definition drain_span w (target : Z) : list Z :=
  seqZ (cursor_tick w) (Z.min (Z.max 0 (target - cursor_tick w)) WHEEL_SLOTS + 1).

Definition drain_due (now : Instant) w : list (Due M) * TimerWheel M :=
  if (pending w =? 0) || match soonest w with Some s => now <? s | None => false end
  then ([], w)
  else
    match base w with
    | None => ([], w)
    | Some b =>
        let target := tick_of b now in
        let (due, m) := drain_overflow now (overflow w) in
        let w := mkWheel (base w) (cursor_tick w) (occupied w) m (pending w) (wheel_seq w)
                   (slots w) (soonest w) in
        let (w, due) :=
          match slots w with
          | [] => (w, due)
          | _ => fold_left (fun st tick => drain_bucket now tick st) (drain_span w target) (w, due)
          end in
        let w := mkWheel (base w) target (occupied w) (overflow w)
                   (pending w -u64 Z.of_nat (length due)) (wheel_seq w) (slots w) (soonest w) in
        let w := mkWheel (base w) (cursor_tick w) (occupied w) (overflow w) (pending w)
                   (wheel_seq w) (slots w) (nearest w) in
        (map to_due (merge_sort entry_le due), w)
    end.
End Wheel.

(** ** Ticks *)

Lemma tick_nonneg b t : 0 <= tick_of b t.
Proof.
  unfold tick_of. apply Z.div_pos; [|by vm_compute].
  apply wrap_range; lia.
Qed.

Lemma tick_bound b t : tick_of b t < 2 ^ 45.
Proof.
  unfold tick_of. apply Z.div_lt_upper_bound; [by vm_compute|].
  pose proof (wrap_range 64 (Z.max 0 (t - b)) ltac:(lia)).
  eapply Z.lt_trans; [apply H|]. by vm_compute.
Qed.

(** Instants whose distance from the base fits in 64 bits of nanoseconds (584
    years) have monotone ticks. *)
Lemma tick_mono b x y : x <= y -> y - b < 2 ^ 64 -> tick_of b x <= tick_of b y.
Proof.
  intros. unfold tick_of. rewrite !wrap_small by lia.
  apply Z.div_le_mono; [by vm_compute|lia].
Qed.

(** ** Bits of a word *)

Lemma trailing_zeros_spec p :
  0 <= trailing_zeros (Zpos p) /\ Z.testbit (Zpos p) (trailing_zeros (Zpos p)) = true /\
  forall i, Z.testbit (Z.land (Zpos p) (Zpos p - 1)) i =
            Z.testbit (Zpos p) i && negb (i =? trailing_zeros (Zpos p)).
Proof.
  simpl. induction p as [p IH|p (Hn & Ht & IH)|]; simpl trailing_zeros_pos.
  - split; [lia|]. split; [done|]. intros i. rewrite Z.land_spec.
    destruct (Z.ltb_spec i 0); [by rewrite !Z.testbit_neg_r by lia|].
    replace (Zpos p~1 - 1) with (2 * Zpos p) by lia. rewrite (Pos2Z.inj_xI p).
    destruct (Z.eqb_spec i 0) as [->|]; [by rewrite Z.testbit_odd_0, Z.testbit_even_0|].
    replace i with (Z.succ (i - 1)) by lia.
    rewrite Z.testbit_odd_succ, Z.testbit_even_succ by lia. by rewrite andb_diag, andb_true_r.
  - split; [lia|]. rewrite (Pos2Z.inj_xO p). split.
    { by rewrite Z.add_1_l, Z.testbit_even_succ. }
    intros i. rewrite Z.land_spec.
    destruct (Z.ltb_spec i 0); [by rewrite !Z.testbit_neg_r by lia|].
    replace (2 * Zpos p - 1) with (2 * (Zpos p - 1) + 1) by lia.
    destruct (Z.eqb_spec i 0) as [->|]; [by rewrite Z.testbit_even_0|].
    replace i with (Z.succ (i - 1)) by lia.
    rewrite Z.testbit_odd_succ, Z.testbit_even_succ by lia.
    rewrite <- Z.land_spec, IH. f_equal. f_equal.
    destruct (Z.eqb_spec (i - 1) (trailing_zeros_pos p)), (Z.eqb_spec (Z.succ (i - 1)) (1 + trailing_zeros_pos p)); lia.
  - split; [lia|]. split; [done|]. intros i. rewrite Z.land_0_r, Z.bits_0.
    destruct (Z.eqb_spec i 0) as [->|]; [done|].
    destruct (Z.ltb_spec i 0); [by rewrite Z.testbit_neg_r by lia|].
    change 1 with (2 * 0 + 1). replace i with (Z.succ (i - 1)) by lia.
    by rewrite Z.testbit_odd_succ, Z.bits_0 by lia.
Qed.

(** The number of set bits among the first [n]. *)
Definition bit_count (n : Z) (bits : Z) : Z := countb (Z.testbit bits) (seqZ 0 n).

Lemma countb_drop_one (f g : Z -> bool) l k :
  NoDup l -> k ∈ l -> f k = true -> (forall i, g i = f i && negb (i =? k)) ->
  countb g l = countb f l - 1.
Proof.
  intros Hnd Hk Hf Hg. induction Hnd as [|x l Hx Hnd IH]; [inversion Hk|].
  rewrite !countb_cons, Hg. apply elem_of_cons in Hk as [->|Hk].
  - rewrite Hf, Z.eqb_refl. simpl.
    assert (countb g l = countb f l) as ->; [|lia].
    clear -Hx Hg. induction l as [|y l IH]; [done|]. rewrite !countb_cons, Hg.
    apply not_elem_of_cons in Hx as [Hne Hx]. rewrite IH by done.
    destruct (Z.eqb_spec y x); [by subst|]. by destruct (f y).
  - rewrite IH by done. destruct (Z.eqb_spec x k) as [->|]; [done|].
    destruct (f x); simpl; lia.
Qed.

Lemma testbit_word_range bits i : 0 <= bits < 2 ^ 64 -> Z.testbit bits i = true -> 0 <= i < 64.
Proof.
  intros Hb Ht. destruct (Z.ltb_spec i 0); [by rewrite Z.testbit_neg_r in Ht by lia|].
  destruct (Z.ltb_spec i 64); [lia|].
  rewrite <- (Z.mod_small bits (2 ^ 64)), Z.mod_pow2_bits_high in Ht by lia. done.
Qed.

Lemma word_of_bits x :
  0 <= x -> (forall i, 64 <= i -> Z.testbit x i = false) -> 0 <= x < 2 ^ 64.
Proof. intros Hx Hb. split; [done|]. by apply (Z.bounded_iff_bits_nonneg 64 x). Qed.

Lemma bit_count_pos bits i :
  0 <= bits < 2 ^ 64 -> Z.testbit bits i = true -> 0 < bit_count 64 bits.
Proof.
  intros Hb Ht. pose proof (testbit_word_range bits i Hb Ht).
  apply (countb_pos _ _ (Z.to_nat i) i); [|done].
  rewrite lookup_seqZ. lia.
Qed.

(** [bits & (bits - 1)] is a word with one bit fewer. *)
Lemma clear_lowest p (Hb : 0 <= Zpos p < 2 ^ 64) :
  0 <= Z.land (Zpos p) (Zpos p - 1) < 2 ^ 64 /\
  bit_count 64 (Z.land (Zpos p) (Zpos p - 1)) = bit_count 64 (Zpos p) - 1.
Proof.
  destruct (trailing_zeros_spec p) as (Hn & Ht & Hl).
  pose proof (testbit_word_range _ _ Hb Ht) as Hr. split.
  - apply word_of_bits; [apply Z.land_nonneg; lia|]. intros j Hj. rewrite Hl.
    destruct (Z.testbit (Zpos p) j) eqn:E; [|done].
    pose proof (testbit_word_range _ _ Hb E). lia.
  - apply (countb_drop_one _ _ _ (trailing_zeros (Zpos p))).
    + apply NoDup_seqZ.
    + apply elem_of_seqZ. lia.
    + done.
    + exact Hl.
Qed.

(** The loop visits exactly the set bits of a 64-bit word. *)
Lemma bit_loop_spec_gen fuel bits i :
  0 <= bits < 2 ^ 64 -> bit_count 64 bits <= Z.of_nat fuel ->
  (i ∈ bit_loop fuel bits <-> Z.testbit bits i = true).
Proof.
  revert bits. induction fuel as [|fuel IH]; intros bits Hb Hc.
  - split; [intros H; inversion H|]. intros Ht. pose proof (bit_count_pos bits i Hb Ht). lia.
  - cbn [bit_loop]. destruct (Z.eqb_spec bits 0) as [->|Hz].
    { rewrite Z.bits_0. split; [intros H; inversion H|done]. }
    destruct bits as [|p|p]; [done| |lia].
    destruct (trailing_zeros_spec p) as (_ & Ht & Hl).
    destruct (clear_lowest p Hb) as [Hb' Hc'].
    rewrite elem_of_cons, IH; [|done|lia]. rewrite Hl.
    destruct (Z.eqb_spec i (trailing_zeros (Zpos p))) as [->|Hne].
    + split; [done|]. by left.
    + rewrite andb_true_r. split; [by intros [?|?]|by right].
Qed.

Lemma bit_loop_spec bits i :
  0 <= bits < 2 ^ 64 -> (i ∈ bit_loop 64 bits <-> Z.testbit bits i = true).
Proof.
  intros. apply bit_loop_spec_gen; [done|]. unfold bit_count.
  etransitivity; [apply countb_le_length|]. by rewrite length_seqZ.
Qed.

(** ** The occupancy bitmap *)

Definition bit_at (occ : list Z) (idx : Z) : bool :=
  Z.testbit (default 0 (occ !! Z.to_nat (idx / 64))) (idx mod 64).

Definition bitmap_ok (occ : list Z) : Prop :=
  length occ = 64%nat /\ Forall (fun w => 0 <= w < 2 ^ 64) occ.

Definition is_slot (idx : Z) : Prop := 0 <= idx < WHEEL_SLOTS.

Lemma is_slot_mod t : is_slot (t mod WHEEL_SLOTS).
Proof. apply Z.mod_pos_bound. by vm_compute. Qed.

Lemma slot_split idx : is_slot idx -> 0 <= idx / 64 < 64 /\ 0 <= idx mod 64 < 64.
Proof.
  unfold is_slot, WHEEL_SLOTS. intros. split; [|apply Z.mod_pos_bound; lia].
  split; [apply Z.div_pos; lia|]. apply Z.div_lt_upper_bound; lia.
Qed.

Lemma bitmap_word occ idx :
  bitmap_ok occ -> is_slot idx ->
  exists w, occ !! Z.to_nat (idx / 64) = Some w /\ 0 <= w < 2 ^ 64.
Proof.
  intros [Hl Hf] Hi. apply slot_split in Hi as [Hi _].
  destruct (lookup_lt_is_Some_2 occ (Z.to_nat (idx / 64))) as [w Hw]; [lia|].
  exists w. split; [done|]. rewrite Forall_lookup in Hf. eauto.
Qed.

Lemma testbit_one_shift k m : 0 <= k -> Z.testbit (Z.shiftl 1 k) m = (m =? k).
Proof.
  intros. rewrite Z.shiftl_1_l. destruct (Z.eqb_spec m k) as [->|].
  - by apply Z.pow2_bits_true.
  - by apply Z.pow2_bits_false.
Qed.

(** What an update of one word by a bit function does to every bit. *)
Lemma alter_word_bit (f : Z -> Z) (g : Z -> bool -> bool) occ idx j :
  bitmap_ok occ -> is_slot idx -> is_slot j ->
  (forall w m, 0 <= w < 2 ^ 64 -> 0 <= m < 64 -> Z.testbit (f w) m = g m (Z.testbit w m)) ->
  (forall m b, m <> idx mod 64 -> g m b = b) ->
  bit_at (alter f (Z.to_nat (idx / 64)) occ) j =
    if j =? idx then g (idx mod 64) (bit_at occ j) else bit_at occ j.
Proof.
  intros Hok Hi Hj Hf Hg. destruct (bitmap_word occ j Hok Hj) as (w & Hw & Hwr).
  pose proof (slot_split idx Hi) as [Hi1 Hi2]. pose proof (slot_split j Hj) as [Hj1 Hj2].
  unfold bit_at. pose proof (Z.div_mod idx 64 ltac:(lia)). pose proof (Z.div_mod j 64 ltac:(lia)).
  destruct (decide (idx / 64 = j / 64)) as [E|E].
  - rewrite E, list_lookup_alter_eq, Hw. simpl. rewrite Hf by done.
    destruct (Z.eqb_spec j idx) as [->|Hne]; [done|]. apply Hg. lia.
  - rewrite list_lookup_alter_ne by lia. destruct (Z.eqb_spec j idx) as [->|]; done.
Qed.

Lemma alter_word_ok (f : Z -> Z) occ n :
  bitmap_ok occ -> (forall w, 0 <= w < 2 ^ 64 -> 0 <= f w < 2 ^ 64) -> bitmap_ok (alter f n occ).
Proof.
  intros [Hl Hf] Hw. split; [by rewrite length_alter|].
  apply Forall_alter; [done|]. intros x _ Hx. by apply Hw.
Qed.

Lemma set_bit_at occ idx j :
  bitmap_ok occ -> is_slot idx -> is_slot j ->
  bit_at (set_bit idx occ) j = (j =? idx) || bit_at occ j.
Proof.
  intros Hok Hi Hj. pose proof (slot_split idx Hi) as [_ Hm].
  unfold set_bit. rewrite (alter_word_bit _ (fun m b => b || (m =? idx mod 64))); try done.
  - destruct (Z.eqb_spec j idx); [by rewrite Z.eqb_refl, orb_true_r|done].
  - intros w m _ _. by rewrite Z.lor_spec, testbit_one_shift by lia.
  - intros m b Hne. destruct (Z.eqb_spec m (idx mod 64)); [done|]. by rewrite orb_false_r.
Qed.

Lemma set_bit_ok occ idx : bitmap_ok occ -> bitmap_ok (set_bit idx occ).
Proof.
  intros Hok. apply alter_word_ok; [done|]. intros w Hw.
  pose proof (Z.mod_pos_bound idx 64 ltac:(lia)).
  apply word_of_bits; [apply Z.lor_nonneg; split; [lia|apply Z.shiftl_nonneg; lia]|].
  intros i Hi. rewrite Z.lor_spec, testbit_one_shift by lia.
  destruct (Z.testbit w i) eqn:E; [pose proof (testbit_word_range w i Hw E); lia|].
  destruct (Z.eqb_spec i (idx mod 64)); [lia|done].
Qed.

Lemma testbit_mask k m :
  0 <= k < 64 -> 0 <= m < 64 -> Z.testbit (2 ^ 64 - 1 - Z.shiftl 1 k) m = negb (m =? k).
Proof.
  intros Hk Hm. replace (2 ^ 64 - 1 - Z.shiftl 1 k) with (Z.ldiff (Z.ones 64) (Z.shiftl 1 k)).
  - rewrite Z.ldiff_spec, testbit_one_shift, Z.ones_spec_low by lia. done.
  - rewrite <- Z.sub_nocarry_ldiff.
    + rewrite Z.ones_equiv. lia.
    + apply Z.bits_inj'. intros n Hn. rewrite Z.ldiff_spec, testbit_one_shift, Z.bits_0 by lia.
      destruct (Z.eqb_spec n k); [|done]. by rewrite Z.ones_spec_low by lia.
Qed.

Lemma clear_bit_at occ idx j :
  bitmap_ok occ -> is_slot idx -> is_slot j ->
  bit_at (clear_bit idx occ) j = negb (j =? idx) && bit_at occ j.
Proof.
  intros Hok Hi Hj. pose proof (slot_split idx Hi) as [_ Hm].
  unfold clear_bit. rewrite (alter_word_bit _ (fun m b => b && negb (m =? idx mod 64))); try done.
  - destruct (Z.eqb_spec j idx); [by rewrite Z.eqb_refl, andb_false_r|done].
  - intros w m _ Hmm. by rewrite Z.land_spec, testbit_mask by lia.
  - intros m b Hne. destruct (Z.eqb_spec m (idx mod 64)); [done|]. by rewrite andb_true_r.
Qed.

Lemma clear_bit_ok occ idx : bitmap_ok occ -> bitmap_ok (clear_bit idx occ).
Proof.
  intros Hok. apply alter_word_ok; [done|]. intros w Hw.
  apply word_of_bits; [apply Z.land_nonneg; lia|].
  intros i Hi. rewrite Z.land_spec.
  destruct (Z.testbit w i) eqn:E; [pose proof (testbit_word_range w i Hw E); lia|done].
Qed.

(** ** The ordered map *)

Definition key_lt (a b : Instant * Z) : Prop := key_cmp a b = Lt.

Lemma key_cmp_spec a b :
  match key_cmp a b with
  | Lt => fst a < fst b \/ (fst a = fst b /\ snd a < snd b)
  | Eq => a = b
  | Gt => fst b < fst a \/ (fst b = fst a /\ snd b < snd a)
  end.
Proof.
  destruct a as [a1 a2], b as [b1 b2]. unfold key_cmp. simpl.
  destruct (Z.compare_spec a1 b1); [subst|lia|lia].
  destruct (Z.compare_spec a2 b2); [by subst|lia|lia].
Qed.

Lemma key_lt_iff a b : key_lt a b <-> fst a < fst b \/ (fst a = fst b /\ snd a < snd b).
Proof.
  unfold key_lt. pose proof (key_cmp_spec a b) as H. destruct (key_cmp a b); subst; split; try done; lia.
Qed.

Section BTreeFacts.
Context {V : Type}.
Implicit Types m : list ((Instant * Z) * V).

Definition bt_sorted m : Prop := StronglySorted (fun x y => key_lt (fst x) (fst y)) m.

Lemma bt_insert_perm k v m :
  k ∉ map fst m -> Permutation (bt_insert k v m) ((k, v) :: m).
Proof.
  induction m as [|[k' v'] m IH]; simpl; intros Hk; [done|].
  apply not_elem_of_cons in Hk as [Hne Hk].
  pose proof (key_cmp_spec k k') as H. destruct (key_cmp k k'); [done|done|].
  rewrite IH by done. apply perm_swap.
Qed.

Lemma bt_insert_sorted k v m : bt_sorted m -> bt_sorted (bt_insert k v m).
Proof.
  unfold bt_sorted. induction 1 as [|[k' v'] m Hs IH Hall]; simpl; [by repeat constructor|].
  pose proof (key_cmp_spec k k') as Hc. destruct (key_cmp k k') eqn:E.
  - subst. by constructor.
  - constructor; [by constructor|]. constructor; [done|].
    eapply Forall_impl; [exact Hall|]. intros [k'' v'']. simpl. rewrite !key_lt_iff. lia.
  - constructor; [done|]. apply Forall_forall. intros [k'' v''] Hin. simpl.
    assert (k'' = k \/ (k'', v'') ∈ m) as [->|Hm].
    { clear -Hin. induction m as [|[k3 v3] m IH]; simpl in Hin.
      - apply list_elem_of_singleton in Hin as [= -> ->]. by left.
      - pose proof (key_cmp_spec k k3) as Hc. destruct (key_cmp k k3).
        + subst. apply elem_of_cons in Hin as [[= -> ->]|]; [by left|right; by right].
        + apply elem_of_cons in Hin as [[= -> ->]|]; [by left|by right].
        + apply elem_of_cons in Hin as [[= -> ->]|Hin]; [right; by left|].
          destruct (IH Hin) as [->|]; [by left|right; by right]. }
    + rewrite key_lt_iff. lia.
    + rewrite Forall_forall in Hall. by apply (Hall (k'', v'')).
Qed.

(** On an ordered map, removal finds the key exactly when it is bound. *)
Lemma bt_remove_spec k m :
  bt_sorted m ->
  match bt_remove k m with
  | (true, m') => bt_sorted m' /\ exists v, Permutation m ((k, v) :: m')
  | (false, m') => m' = m /\ k ∉ map fst m
  end.
Proof.
  unfold bt_sorted. induction 1 as [|[k' v'] m Hs IH Hall]; simpl; [split; [done|inversion 1]|].
  pose proof (key_cmp_spec k k') as Hc. destruct (key_cmp k k') eqn:E.
  - subst. split; [done|]. by exists v'.
  - split; [done|]. rewrite Forall_forall in Hall. intros Hin.
    apply elem_of_cons in Hin as [->|Hin]; [lia|].
    apply list_elem_of_fmap in Hin as ([k'' v''] & -> & Hin).
    specialize (Hall _ Hin). rewrite key_lt_iff in Hall. simpl in *. lia.
  - destruct (bt_remove k m) as [[] m'].
    + destruct IH as (Hs' & v & Hp). split.
      * constructor; [done|]. rewrite Hp in Hall. by inversion Hall.
      * exists v. rewrite Hp. apply perm_swap.
    + destruct IH as [-> Hk]. split; [done|]. apply not_elem_of_cons. split; [|done].
      intros ->. lia.
Qed.
End BTreeFacts.

(** ** The wheel invariant *)

#[local] Arguments Z.to_nat : simpl never.
#[local] Arguments replicate : simpl never.
#[local] Arguments bit_loop : simpl never.

Section Invariant.
Context {M : Type}.
Implicit Types w : TimerWheel M.
Implicit Types e : WheelEntry M.
Implicit Types sl : list (list (WheelEntry M)).

Definition overflow_entry (x : (Instant * Z) * OverflowEntry M) : WheelEntry M :=
  mkEntry (fst (fst x)) (overflow_kind (snd x)) (overflow_pid (snd x)) (snd (fst x)).

(** The bag of pending entries: what the wheel stands for. *)
Definition entries w : list (WheelEntry M) :=
  concat (slots w) ++ map overflow_entry (overflow w).

Definition is_due (now : Instant) e : bool := entry_fire_at e <=? now.

(** The bucket an entry belongs to, given the cursor. Instants more than 2^64
    nanoseconds past the base have truncated ticks and no promised bucket. *)
Definition home (b : Instant) (cursor : Z) e (idx : Z) : Prop :=
  entry_fire_at e - b < 2 ^ 64 ->
  idx = Z.max (tick_of b (entry_fire_at e)) cursor mod WHEEL_SLOTS.

(** The buckets, their bitmap and the placement of entries. *)
Definition grid_ok (b : option Instant) (cursor : Z) (occ : list Z) sl : Prop :=
  bitmap_ok occ /\
  (forall idx, is_slot idx -> bit_at occ idx = true <-> slot_at sl idx <> []) /\
  match b with
  | None => sl = [] /\ cursor = 0
  | Some b =>
      length sl = Z.to_nat WHEEL_SLOTS /\
      forall idx e, is_slot idx -> e ∈ slot_at sl idx -> home b cursor e idx
  end.

(** Sequence numbers are unique and issued, the count is exact, and [soonest]
    bounds every fire instant from below. *)
Definition bag_ok (ents : list (WheelEntry M)) (count seq : Z) (soon : option Instant) : Prop :=
  NoDup (map entry_seq ents) /\
  (forall e, e ∈ ents -> entry_seq e <= seq) /\
  count = Z.of_nat (length ents) /\
  count <= seq < 2 ^ 64 /\
  (forall e, e ∈ ents -> exists s, soon = Some s /\ s <= entry_fire_at e).

(** [last] is an instant no earlier than every drain so far. *)
Record wheel_ok (last : Instant) w : Prop := {
  ok_grid : grid_ok (base w) (cursor_tick w) (occupied w) (slots w);
  ok_cursor : forall b, base w = Some b -> 0 <= cursor_tick w <= tick_of b last;
  ok_overflow : bt_sorted (overflow w);
  ok_based : base w = None -> overflow w = [];
  ok_bag : bag_ok (entries w) (pending w) (wheel_seq w) (soonest w);
}.

Lemma bag_ok_perm ents ents' n s o :
  Permutation ents ents' -> bag_ok ents n s o -> bag_ok ents' n s o.
Proof.
  intros Hp (Hn & Hs & Hc & Hl & Ho). split; [by rewrite <- Hp|].
  split; [|split; [by rewrite <- Hp|split; [done|]]]; intros e; rewrite <- Hp; auto.
Qed.

Lemma slot_at_lookup sl idx :
  length sl = Z.to_nat WHEEL_SLOTS -> is_slot idx -> sl !! Z.to_nat idx = Some (slot_at sl idx).
Proof.
  intros Hl Hi. unfold slot_at.
  destruct (lookup_lt_is_Some_2 sl (Z.to_nat idx)) as [x Hx]; [unfold is_slot in Hi; lia|].
  by rewrite Hx.
Qed.

Lemma slot_at_insert sl idx j l :
  length sl = Z.to_nat WHEEL_SLOTS -> is_slot idx -> is_slot j ->
  slot_at (<[Z.to_nat idx := l]> sl) j = if j =? idx then l else slot_at sl j.
Proof.
  intros Hl Hi Hj. unfold slot_at, is_slot in *. destruct (Z.eqb_spec j idx) as [->|].
  - by rewrite list_lookup_insert_eq by lia.
  - by rewrite list_lookup_insert_ne by lia.
Qed.

Definition nonempty {A} (l : list A) : bool := match l with [] => false | _ => true end.

Lemma nonempty_iff {A} (l : list A) : nonempty l = true <-> l <> [].
Proof. by destruct l. Qed.

(** Replacing one bucket, with its bit brought up to date. *)
Lemma grid_replace b c occ occ' sl idx l :
  grid_ok (Some b) c occ sl -> is_slot idx -> bitmap_ok occ' ->
  (forall j, is_slot j -> bit_at occ' j = if j =? idx then nonempty l else bit_at occ j) ->
  (forall e, e ∈ l -> home b c e idx) ->
  grid_ok (Some b) c occ' (<[Z.to_nat idx := l]> sl).
Proof.
  intros (Hb & Hocc & Hlen & Hpl) Hi Hb' Hbit Hl. split; [done|]. split; [|split].
  - intros j Hj. rewrite Hbit, slot_at_insert by done.
    destruct (j =? idx); [by apply nonempty_iff|by apply Hocc].
  - by rewrite length_insert.
  - intros j e Hj. rewrite slot_at_insert by done. destruct (Z.eqb_spec j idx) as [->|]; auto.
Qed.

(** ** Tokens *)

Definition located w e (o : option Z) : Prop :=
  match o with
  | Some idx => e ∈ bucket w idx
  | None => e ∈ map overflow_entry (overflow w)
  end.

(** A token the wheel handed out: if its entry is still pending, it is where
    the token says. *)
Definition token_ok w (t : TimerToken) : Prop :=
  token_seq t <= wheel_seq w /\
  match token_slot t with Some idx => is_slot idx /\ base w <> None | None => True end /\
  forall e, e ∈ entries w -> entry_seq e = token_seq t ->
    entry_fire_at e = token_fire_at t /\ located w e (token_slot t).

Lemma token_step w w' t :
  wheel_seq w <= wheel_seq w' -> (base w <> None -> base w' <> None) ->
  (forall e, e ∈ entries w' -> entry_seq e <= wheel_seq w ->
     e ∈ entries w /\ forall o, located w e o -> located w' e o) ->
  token_ok w t -> token_ok w' t.
Proof.
  intros Hs Hb He (Ht & Hr & Hl). split; [lia|]. split.
  - destruct (token_slot t); [|done]. destruct Hr. auto.
  - intros e Hin Heq. destruct (He e Hin ltac:(lia)) as [Hin' Hloc].
    destruct (Hl e Hin' Heq). auto.
Qed.

Lemma new_ok last : wheel_ok last (wheel_new : TimerWheel M).
Proof.
  constructor; simpl; try done.
  - split; [split; [done|]|split; [|done]].
    + apply Forall_replicate. lia.
    + intros idx Hi. split; [|done]. unfold bit_at. rewrite lookup_replicate_2.
      * simpl. by rewrite Z.bits_0.
      * pose proof (slot_split idx Hi). change BITMAP_WORDS with 64. lia.
  - constructor.
  - repeat split; simpl; try lia; try constructor; intros e He; inversion He.
Qed.

Lemma concat_replicate_nil {A} n : concat (replicate n []) = ([] : list A).
Proof. by induction n. Qed.

Lemma slot_at_replicate n idx : slot_at (replicate n ([] : list (WheelEntry M))) idx = [].
Proof.
  unfold slot_at. destruct (replicate n _ !! _) eqn:E; [|done].
  by apply lookup_replicate in E as [-> _].
Qed.

(** After [ensure_base] the base is fixed and nothing else has changed. *)
Lemma ensure_base_ok last w t :
  wheel_ok last w ->
  exists b w', ensure_base t w = (b, w') /\ wheel_ok last w' /\ base w' = Some b /\
    b = default t (base w) /\ entries w' = entries w /\ wheel_seq w' = wheel_seq w /\
    pending w' = pending w /\ soonest w' = soonest w /\
    (forall e o, located w e o -> located w' e o).
Proof.
  intros Hok. unfold ensure_base. destruct (base w) as [b|] eqn:Eb.
  { exists b, w. naive_solver. }
  destruct Hok as [(Hbm & Hocc & Hg) Hc Ho Hov Hbag]. rewrite Eb in Hg.
  destruct Hg as [Hsl Hcur]. specialize (Hov Eb).
  exists t. eexists. split; [reflexivity|].
  match goal with |- wheel_ok _ ?w' /\ _ => assert (entries w' = entries w) as He end.
  { unfold entries. cbn [slots overflow]. by rewrite concat_replicate_nil, Hsl. }
  split; [|simpl; split; [done|split; [done|]]].
  - constructor; simpl.
    + split; [done|]. split.
      * intros idx Hi. rewrite slot_at_replicate. rewrite Hocc by done.
        unfold slot_at. by rewrite Hsl.
      * split; [by rewrite length_replicate|]. intros idx e _. rewrite slot_at_replicate.
        intros H. inversion H.
    + intros b [= <-]. rewrite Hcur. split; [lia|]. apply tick_nonneg.
    + done.
    + done.
    + rewrite He. apply Hbag.
  - split; [exact He|]. repeat (split; [done|]).
    intros e [idx|]; simpl; [|done]. unfold bucket, slot_at. rewrite Hsl. simpl.
    intros H. inversion H.
Qed.

(** ** Insertion *)

Lemma bag_insert ents n s o e fire :
  bag_ok ents n s o -> s + 1 < 2 ^ 64 -> entry_seq e = s + 1 -> entry_fire_at e = fire ->
  bag_ok (e :: ents) (n +u64 1) (s +u64 1)
    (Some (match o with None => fire | Some x => Z.min x fire end)).
Proof.
  intros (Hn & Hs & Hc & Hl & Ho) Hlt He Hf. rewrite !wrap_small by lia.
  split; [|split; [|split; [|split; [lia|]]]].
  - simpl. constructor; [|done]. rewrite He. intros Hin.
    apply list_elem_of_fmap in Hin as (y & Hy & Hin). specialize (Hs y Hin). lia.
  - intros y [->|Hin]%elem_of_cons; [lia|]. specialize (Hs y Hin). lia.
  - simpl. lia.
  - intros y [->|Hin]%elem_of_cons; eexists; (split; [done|]).
    + rewrite Hf. destruct o; lia.
    + destruct (Ho y Hin) as (x & -> & Hx). lia.
Qed.

Lemma concat_insert_app sl idx l :
  length sl = Z.to_nat WHEEL_SLOTS -> is_slot idx ->
  Permutation (concat (<[Z.to_nat idx := slot_at sl idx ++ l]> sl)) (l ++ concat sl).
Proof.
  intros Hl Hi. apply (Permutation_app_inv_l (slot_at sl idx)).
  rewrite <- (concat_insert_perm _ _ _ (slot_at sl idx ++ l) (slot_at_lookup sl idx Hl Hi)).
  by rewrite app_assoc.
Qed.

(** A fresh overflow key, since its sequence number is fresh. *)
Lemma overflow_fresh w k :
  (forall e, e ∈ entries w -> entry_seq e < snd k) -> k ∉ map fst (overflow w).
Proof.
  intros H Hin. apply list_elem_of_fmap in Hin as ([k' v] & -> & Hin).
  pose proof (H (overflow_entry (k', v))) as Hlt. simpl in Hlt.
  apply (Z.lt_irrefl (snd k')), Hlt, elem_of_app. right. by apply list_elem_of_fmap_2.
Qed.

Lemma located_entries w e o :
  located w e o -> match o with Some idx => is_slot idx | None => True end ->
  e ∈ entries w.
Proof.
  intros Hl Hi. unfold entries. apply elem_of_app. destruct o as [idx|]; simpl in Hl; [left|by right].
  unfold bucket, slot_at in Hl. destruct (slots w !! Z.to_nat idx) as [l|] eqn:E; [|inversion Hl].
  simpl in Hl. apply list_elem_of_In, in_concat. exists l. rewrite <- !list_elem_of_In.
  split; [by eapply list_elem_of_lookup_2|done].
Qed.

(** A token issued for the entry just added. *)
Lemma token_issue w w' e t :
  Permutation (entries w') (e :: entries w) -> base w' <> None ->
  (forall x, x ∈ entries w -> entry_seq x < token_seq t) ->
  entry_seq e = token_seq t -> wheel_seq w' = token_seq t -> entry_fire_at e = token_fire_at t ->
  match token_slot t with Some idx => is_slot idx | None => True end ->
  located w' e (token_slot t) -> token_ok w' t.
Proof.
  intros Hp Hb Hlt Hse Hs Hf Hr Hl. split; [lia|]. split; [by destruct (token_slot t)|].
  intros x Hin Hx. rewrite Hp in Hin. apply elem_of_cons in Hin as [->|Hin]; [done|].
  specialize (Hlt x Hin). lia.
Qed.

Lemma tokens_after_insert w w' e t :
  Permutation (entries w') (e :: entries w) -> entry_seq e = wheel_seq w + 1 ->
  wheel_seq w' = wheel_seq w + 1 -> base w' <> None ->
  (forall x o, located w x o -> located w' x o) -> token_ok w t -> token_ok w' t.
Proof.
  intros Hp He Hs Hb Hl. apply token_step; [lia|done|].
  intros x Hin Hx. rewrite Hp in Hin. apply elem_of_cons in Hin as [->|Hin]; [lia|auto].
Qed.

Lemma set_occupied_grid b c occ sl idx e :
  grid_ok (Some b) c occ sl -> is_slot idx -> home b c e idx ->
  grid_ok (Some b) c (set_bit idx occ) (<[Z.to_nat idx := slot_at sl idx ++ [e]]> sl).
Proof.
  intros Hg Hi He. pose proof Hg as (Hbm & _ & _ & Hpl).
  apply (grid_replace b c occ); try done.
  - by apply set_bit_ok.
  - intros j Hj. rewrite set_bit_at by done.
    destruct (Z.eqb_spec j idx); [by destruct (slot_at sl idx)|done].
  - intros x Hx. apply elem_of_app in Hx as [Hx|Hx]; [by apply Hpl|].
    apply list_elem_of_singleton in Hx as ->. done.
Qed.

Lemma alter_bucket w idx (f : list (WheelEntry M) -> list (WheelEntry M)) :
  length (slots w) = Z.to_nat WHEEL_SLOTS -> is_slot idx ->
  alter f (Z.to_nat idx) (slots w) = <[Z.to_nat idx := f (bucket w idx)]> (slots w).
Proof. intros. by apply alter_as_insert, slot_at_lookup. Qed.

Lemma slot_at_insert_mono sl idx j l x :
  x ∈ slot_at sl j -> (x ∈ slot_at sl idx -> x ∈ l) -> x ∈ slot_at (<[Z.to_nat idx := l]> sl) j.
Proof.
  intros Hx Hl. unfold slot_at in *. destruct (decide (Z.to_nat idx = Z.to_nat j)) as [E|E].
  - rewrite E in *. destruct (sl !! Z.to_nat j) eqn:Ej; [|inversion Hx].
    rewrite list_lookup_insert_eq by (by eapply lookup_lt_Some). auto.
  - by rewrite list_lookup_insert_ne.
Qed.

Lemma slot_at_insert_here sl idx l x :
  length sl = Z.to_nat WHEEL_SLOTS -> is_slot idx -> x ∈ l ->
  x ∈ slot_at (<[Z.to_nat idx := l]> sl) idx.
Proof. intros. by rewrite slot_at_insert, Z.eqb_refl. Qed.

(** What both branches of [insert] have to establish. *)
Lemma insert_finish last w w' b e t :
  bag_ok (e :: entries w) (pending w') (wheel_seq w') (soonest w') ->
  wheel_seq w' = wheel_seq w + 1 -> entry_seq e = wheel_seq w + 1 ->
  (forall x, x ∈ entries w -> entry_seq x < wheel_seq w + 1) ->
  base w' = Some b -> 0 <= cursor_tick w' <= tick_of b last ->
  grid_ok (Some b) (cursor_tick w') (occupied w') (slots w') -> bt_sorted (overflow w') ->
  token_seq t = wheel_seq w + 1 -> entry_fire_at e = token_fire_at t ->
  match token_slot t with Some idx => is_slot idx | None => True end ->
  Permutation (entries w') (e :: entries w) -> located w' e (token_slot t) ->
  (forall x o, located w x o -> located w' x o) ->
  wheel_ok last w' /\ token_ok w' t /\ forall t', token_ok w t' -> token_ok w' t'.
Proof.
  intros Hbag Hs Hse Hlt Hb Hc Hg Hov Hts Hf Hr Hp Hle Hl.
  assert (base w' <> None) by (by rewrite Hb). split; [|split].
  - constructor; rewrite ?Hb; try done.
    + by intros ? [= <-].
    + eapply bag_ok_perm; [by symmetry|done].
  - eapply (token_issue w); try done; try congruence. by rewrite Hts.
  - intros t'. by apply (tokens_after_insert w w' e).
Qed.

Lemma insert_spec last w fire p k :
  wheel_ok last w -> wheel_seq w + 1 < 2 ^ 64 ->
  exists t w', insert fire p k w = (t, w') /\
    Permutation (entries w') (mkEntry fire k p (wheel_seq w + 1) :: entries w) /\
    wheel_seq w' = wheel_seq w + 1 /\ base w' = Some (default fire (base w)) /\
    token_seq t = wheel_seq w + 1 /\
    wheel_ok last w' /\ token_ok w' t /\ forall t', token_ok w t' -> token_ok w' t'.
Proof.
  intros Hok Hseq. unfold insert.
  destruct (ensure_base_ok last w fire Hok) as
    (b & w1 & -> & [Hg Hc Ho Hov Hbag] & Eb & Hb & He & Hs & Hp & Hsoon & Hloc).
  rewrite <- Hb. specialize (Hc b Eb). rewrite He, Hs in Hbag.
  set (e := mkEntry fire k p (wheel_seq w + 1)).
  pose proof (bag_insert _ _ _ _ e fire Hbag Hseq eq_refl eq_refl) as Hbag'.
  assert (forall x, x ∈ entries w -> entry_seq x < wheel_seq w + 1) as Hlt.
  { intros x Hx. destruct Hbag as (_ & H & _). specialize (H x Hx). lia. }
  assert (0 <= wheel_seq w) as Hs0 by (destruct Hbag as (_ & _ & ? & ? & _); lia).
  rewrite Hs, (wrap_small 64 (wheel_seq w + 1)) in * by lia. fold e.
  rewrite Eb in Hg. pose proof Hg as (_ & _ & Hlen & _).
  pose proof (is_slot_mod (Z.max (tick_of b fire) (cursor_tick w1))) as Hslot.
  destruct (_ <? _); cbn [cursor_tick]; eexists; eexists; (split; [reflexivity|]).
  - set (idx := Z.max (tick_of b fire) (cursor_tick w1) mod WHEEL_SLOTS) in *.
    cbn [set_slots set_occupied slots]. rewrite (alter_bucket w1) by done.
    match goal with |- Permutation ?l ?r /\ _ => assert (Permutation l r) as Hperm end.
    { rewrite <- He. unfold entries. cbn [set_slots set_occupied slots overflow].
      by rewrite (concat_insert_app (slots w1) idx [e]). }
    do 4 (split; [done|]).
    apply (insert_finish last w _ b e); try done; cbn.
    + by apply set_occupied_grid.
    + apply slot_at_insert_here; [done..|]. apply elem_of_app. right. by left.
    + intros x o Hx. apply Hloc in Hx. destruct o as [j|]; [|done].
      apply slot_at_insert_mono; [done|]. intros. apply elem_of_app. by left.
  - match goal with |- Permutation ?l ?r /\ _ => assert (Permutation l r) as Hperm end.
    { rewrite <- He. unfold entries. cbn [slots overflow]. rewrite bt_insert_perm.
      - simpl. by rewrite <- Permutation_middle.
      - apply overflow_fresh. rewrite He. apply Hlt. }
    do 4 (split; [done|]).
    assert (forall x, x ∈ (fire, wheel_seq w + 1, mkOverflow k p) :: overflow w1 ->
            overflow_entry x ∈ map overflow_entry (bt_insert (fire, wheel_seq w + 1) (mkOverflow k p) (overflow w1))) as Hmem.
    { intros x Hx. apply list_elem_of_fmap_2. rewrite bt_insert_perm; [done|].
      apply overflow_fresh. rewrite He. apply Hlt. }
    apply (insert_finish last w _ b e); try done; cbn.
    + by apply bt_insert_sorted.
    + apply (Hmem (fire, wheel_seq w + 1, mkOverflow k p)). by left.
    + intros x o Hx. apply Hloc in Hx. destruct o as [j|]; [done|]. cbn in *.
      apply list_elem_of_fmap in Hx as (y & -> & Hy). apply Hmem. by right.
Qed.

(** ** Cancellation *)

Lemma position_spec (s : Z) (l : list (WheelEntry M)) :
  match position s l with
  | Some i => exists e, l !! i = Some e /\ entry_seq e = s
  | None => forall e, e ∈ l -> entry_seq e <> s
  end.
Proof.
  induction l as [|e l IH]; simpl; [intros e He; inversion He|].
  destruct (Z.eqb_spec (entry_seq e) s); [by exists e|].
  destruct (position s l); simpl; [done|].
  intros x [->|Hx]%elem_of_cons; auto.
Qed.

(** Shrinking a bucket and releasing it keeps the grid in order. *)
Lemma release_bucket_spec w b idx l :
  grid_ok (Some b) (cursor_tick w) (occupied w) (slots w) -> is_slot idx ->
  (forall e, e ∈ l -> e ∈ bucket w idx) ->
  exists occ,
    release_bucket_if_empty idx (set_slots (<[Z.to_nat idx := l]> (slots w)) w) =
      mkWheel (base w) (cursor_tick w) occ (overflow w) (pending w) (wheel_seq w)
        (<[Z.to_nat idx := l]> (slots w)) (soonest w) /\
    grid_ok (Some b) (cursor_tick w) occ (<[Z.to_nat idx := l]> (slots w)).
Proof.
  intros Hg Hi Hsub. pose proof Hg as (Hbm & Hocc & Hlen & Hpl).
  unfold release_bucket_if_empty, bucket. cbn [set_slots slots].
  rewrite slot_at_insert, Z.eqb_refl by done. destruct l as [|x l]; eexists; (split; [reflexivity|]).
  - apply (grid_replace b _ (occupied w)); try done.
    + by apply clear_bit_ok.
    + intros j Hj. rewrite clear_bit_at by done. by destruct (j =? idx).
    + intros e He. inversion He.
  - apply (grid_replace b _ (occupied w)); try done; cbn.
    + intros j Hj. destruct (Z.eqb_spec j idx) as [->|]; [|done].
      apply Hocc; [done|]. intros E. specialize (Hsub x ltac:(by left)).
      unfold bucket in Hsub. rewrite E in Hsub. inversion Hsub.
    + intros e He. apply Hpl; [done|]. by apply Hsub.
Qed.

Lemma bag_remove e ents n s o :
  bag_ok (e :: ents) n s o -> bag_ok ents (n -u64 1) s o.
Proof.
  intros (Hn & Hs & Hc & Hl & Ho). simpl in Hn, Hc. rewrite wrap_small by lia.
  inversion Hn; subst. split; [done|]. split; [|split; [|split; [lia|]]].
  - intros x Hx. apply Hs. by right.
  - lia.
  - intros x Hx. apply Ho. by right.
Qed.

(** Without the entry of a sequence number, and with nothing else removed. *)
Definition without (s : Z) (l : list (WheelEntry M)) : list (WheelEntry M) :=
  List.filter (fun e => negb (entry_seq e =? s)) l.

Lemma without_absent s l : (forall e, e ∈ l -> entry_seq e <> s) -> without s l = l.
Proof. intros H. apply filterb_all. intros e He. specialize (H e He). lia. Qed.

Lemma without_one s l e l' :
  Permutation l (e :: l') -> NoDup (map entry_seq l) -> entry_seq e = s ->
  Permutation l' (without s l).
Proof.
  intros Hp Hn He. unfold without. rewrite Hp in Hn |- *. simpl in *. inversion Hn; subst.
  rewrite Z.eqb_refl. simpl. fold (without (entry_seq e) l'). rewrite without_absent; [done|].
  intros x Hx E. apply H1. rewrite <- E. by apply list_elem_of_fmap_2.
Qed.

(** The common part of both ways to remove an entry. *)
Lemma cancel_finish last w w' e b :
  wheel_ok last w -> base w = Some b -> base w' = Some b -> cursor_tick w' = cursor_tick w ->
  grid_ok (Some b) (cursor_tick w') (occupied w') (slots w') -> bt_sorted (overflow w') ->
  Permutation (entries w) (e :: entries w') ->
  pending w' = pending w -u64 1 -> wheel_seq w' = wheel_seq w -> soonest w' = soonest w ->
  (forall x o, x <> e -> located w x o -> located w' x o) ->
  wheel_ok last w' /\ Permutation (entries w') (without (entry_seq e) (entries w)) /\
  forall t, token_ok w t -> token_ok w' t.
Proof.
  intros [Hg Hc Ho Hov Hbag] Eb Eb' Hcur Hg' Hs Hp Hpe Hse Hso Hl.
  pose proof Hbag as (Hnd & _). split; [|split].
  - constructor; rewrite ?Eb'; try done.
    + intros b' [= <-]. rewrite Hcur. auto.
    + rewrite Hpe, Hse, Hso. apply (bag_remove e). by eapply bag_ok_perm.
  - by apply (without_one _ _ e).
  - intros t. apply token_step; [lia|by rewrite Eb'|]. intros x Hx _. split.
    + rewrite Hp. by right.
    + intros o. apply Hl. intros ->. rewrite Hp in Hnd. simpl in Hnd. inversion Hnd; subst.
      apply H1. by apply list_elem_of_fmap_2.
Qed.

Lemma cancel_spec last w t :
  wheel_ok last w -> token_ok w t ->
  wheel_ok last (cancel t w) /\
  Permutation (entries (cancel t w)) (without (token_seq t) (entries w)) /\
  (forall t', token_ok w t' -> token_ok (cancel t w) t') /\
  wheel_seq (cancel t w) = wheel_seq w /\ base (cancel t w) = base w.
Proof.
  intros Hok (_ & Hr & Hl). pose proof (ok_overflow _ _ Hok) as Hsorted.
  unfold cancel. destruct (token_slot t) as [idx|].
  - destruct Hr as [Hi Hb]. destruct (base w) as [b|] eqn:Eb; [|done].
    pose proof (ok_grid _ _ Hok) as Hg. rewrite Eb in Hg. pose proof Hg as (_ & _ & Hlen & _).
    pose proof (position_spec (token_seq t) (bucket w idx)) as Hpos.
    destruct (position _ _) as [i|].
    + destruct Hpos as (e & Hie & Hse). pose proof (swap_remove_perm _ _ _ Hie) as Hsw.
      rewrite alter_bucket by done.
      destruct (release_bucket_spec w b idx (swap_remove i (bucket w idx)) Hg Hi) as (occ & -> & Hg').
      { intros x Hx. rewrite Hsw. by right. }
      cbn [set_pending pending base cursor_tick occupied overflow wheel_seq slots soonest].
      match goal with |- wheel_ok _ ?w' /\ _ =>
        destruct (cancel_finish last w w' e b) as (? & ? & ?) end; try done.
      * unfold entries. cbn [slots overflow].
        rewrite (app_comm_cons _ _ e). apply Permutation_app_tail, (Permutation_app_inv_l (swap_remove i (bucket w idx))).
        rewrite (concat_insert_perm _ _ _ (swap_remove i (bucket w idx)) (slot_at_lookup _ _ Hlen Hi)).
        fold (bucket w idx). rewrite Hsw at 1. simpl. by rewrite <- Permutation_middle.
      * intros x [j|] Hne Hx; [|done]. apply slot_at_insert_mono; [done|].
        fold (bucket w idx). rewrite Hsw at 1. by intros [->|?]%elem_of_cons.
      * by rewrite <- Hse.
    + rewrite without_absent; [by rewrite Eb|]. intros e He Hse.
      destruct (Hl e He Hse) as [_ Hloc]. by apply (Hpos e).
  - pose proof (bt_remove_spec (token_fire_at t, token_seq t) (overflow w) Hsorted) as Hrm.
    destruct (bt_remove _ _) as [[] m].
    + destruct Hrm as (Hs & v & Hp). destruct (base w) as [b|] eqn:Eb; [|by rewrite (ok_based _ _ Hok Eb), Permutation_nil_l in Hp].
      cbn [set_pending pending base cursor_tick occupied overflow wheel_seq slots soonest].
      pose proof (ok_grid _ _ Hok) as Hg. rewrite Eb in Hg.
      match goal with |- wheel_ok _ ?w' /\ _ =>
        destruct (cancel_finish last w w' (overflow_entry (token_fire_at t, token_seq t, v)) b)
          as (? & ? & ?) end; try done.
      * unfold entries. cbn [slots overflow]. rewrite Hp. simpl. by rewrite <- Permutation_middle.
      * intros x [j|] Hne; [done|]. cbn. rewrite Hp. simpl. by intros [->|?]%elem_of_cons.
    + destruct Hrm as [-> Hk]. rewrite without_absent; [by destruct w|].
      intros e He Hse. destruct (Hl e He Hse) as [Hf Hloc]. apply Hk.
      cbn in Hloc. apply list_elem_of_fmap in Hloc as ([[f s] v] & -> & Hin). cbn in *. subst.
      by apply (list_elem_of_fmap_2 fst) in Hin.
Qed.

(** ** The soonest pending instant *)

(** [o] is the least fire instant of [l], [None] when there is none. *)
Definition min_of (o : option Instant) (l : list (WheelEntry M)) : Prop :=
  match o with
  | None => l = []
  | Some m => (exists e, e ∈ l /\ entry_fire_at e = m) /\ forall e, e ∈ l -> m <= entry_fire_at e
  end.

Lemma min_of_ext o l l' : (forall e, e ∈ l <-> e ∈ l') -> min_of o l -> min_of o l'.
Proof.
  intros Heq. destruct o as [m|]; simpl.
  - intros [(e & He & Hm) Hall]. split; [exists e; by rewrite <- Heq|].
    intros x Hx. apply Hall. by rewrite Heq.
  - intros ->. destruct l' as [|x l']; [done|].
    specialize (Heq x) as [_ Hx]. specialize (Hx ltac:(by left)). inversion Hx.
Qed.

Definition min_step (best : option Instant) e : option Instant := min_fire best (entry_fire_at e).

Lemma fold_min_spec l best l0 :
  min_of best l0 -> min_of (fold_left min_step l best) (l0 ++ l).
Proof.
  revert best l0. induction l as [|e l IH]; intros best l0 H; simpl; [by rewrite app_nil_r|].
  replace (l0 ++ e :: l) with ((l0 ++ [e]) ++ l) by (by rewrite <- app_assoc). apply IH.
  unfold min_step, min_fire. destruct best as [m|]; simpl in H |- *.
  - destruct H as [(x & Hx & Hm) Hall]. split.
    + destruct (Z.min_spec m (entry_fire_at e)) as [[_ ->]|[_ ->]].
      * exists x. by rewrite elem_of_app; auto.
      * exists e. rewrite elem_of_app, list_elem_of_singleton. auto.
    + intros y [Hy|Hy]%elem_of_app; [specialize (Hall y Hy); lia|].
      apply list_elem_of_singleton in Hy as ->. lia.
  - subst. simpl. split; [exists e; split; [by left|done]|].
    intros y Hy. apply list_elem_of_singleton in Hy as ->. lia.
Qed.

Lemma fold_left_concat {A B C} (g : C -> B -> C) (F : A -> list B) (l : list A) (c : C) :
  fold_left (fun c x => fold_left g (F x) c) l c = fold_left g (concat (map F l)) c.
Proof. revert c. induction l as [|x l IH]; intros c; simpl; [done|]. by rewrite fold_left_app, IH. Qed.

Lemma fold_left_ext {A C} (f g : C -> A -> C) l c :
  (forall c x, f c x = g c x) -> fold_left f l c = fold_left g l c.
Proof. intros H. revert c. induction l as [|x l IH]; intros c; simpl; [done|]. by rewrite H, IH. Qed.

(** The entries [nearest] looks at: those of the occupied buckets. *)
Definition visited w : list (WheelEntry M) :=
  concat (map (fun word =>
      concat (map (fun bit => bucket w (word * 64 + bit))
                (bit_loop 64 (default 0 (occupied w !! Z.to_nat word)))))
    (seqZ 0 BITMAP_WORDS)).

Lemma elem_of_concat {A} (x : A) ls : x ∈ concat ls <-> exists l, l ∈ ls /\ x ∈ l.
Proof. rewrite list_elem_of_In, in_concat. setoid_rewrite list_elem_of_In. done. Qed.

Lemma elem_of_concat_map {A B} (F : A -> list B) l y :
  y ∈ concat (map F l) <-> exists x, x ∈ l /\ y ∈ F x.
Proof.
  rewrite elem_of_concat. setoid_rewrite list_elem_of_fmap. split.
  - intros (? & (x & -> & Hx) & Hy). eauto.
  - intros (x & Hx & Hy). eauto.
Qed.

Lemma elem_of_slots sl e :
  length sl = Z.to_nat WHEEL_SLOTS ->
  (e ∈ concat sl <-> exists idx, is_slot idx /\ e ∈ slot_at sl idx).
Proof.
  intros Hlen. rewrite elem_of_concat. split.
  - intros (l & Hl & He). apply list_elem_of_lookup in Hl as [i Hi]. exists (Z.of_nat i).
    pose proof (lookup_lt_Some _ _ _ Hi). split; [unfold is_slot; lia|].
    unfold slot_at. by rewrite Nat2Z.id, Hi.
  - intros (idx & Hi & He). exists (slot_at sl idx). split; [|done].
    eapply list_elem_of_lookup_2. by apply slot_at_lookup.
Qed.

Lemma visited_spec w b e :
  grid_ok (Some b) (cursor_tick w) (occupied w) (slots w) ->
  (e ∈ visited w <-> e ∈ concat (slots w)).
Proof.
  intros (Hbm & Hocc & Hlen & _). rewrite (elem_of_slots _ _ Hlen). unfold visited.
  rewrite elem_of_concat_map. setoid_rewrite elem_of_concat_map.
  setoid_rewrite elem_of_seqZ. change BITMAP_WORDS with 64. split.
  - intros (word & Hw & bit & Hbit & He). exists (word * 64 + bit). split; [|done].
    destruct (bitmap_word (occupied w) (word * 64) Hbm) as (x & Hx & Hxr).
    { unfold is_slot, WHEEL_SLOTS. lia. }
    rewrite Z.div_mul in Hx by lia. rewrite Hx in Hbit. simpl in Hbit.
    apply bit_loop_spec in Hbit; [|done]. apply testbit_word_range in Hbit; [|done].
    unfold is_slot, WHEEL_SLOTS. lia.
  - intros (idx & Hi & He). pose proof (slot_split idx Hi) as [H1 H2].
    exists (idx / 64). split; [lia|]. exists (idx mod 64). split.
    + destruct (bitmap_word (occupied w) idx Hbm Hi) as (x & Hx & Hxr). rewrite Hx. simpl.
      apply bit_loop_spec; [done|]. specialize (Hocc idx Hi). unfold bit_at in Hocc.
      rewrite Hx in Hocc. simpl in Hocc. apply Hocc. intros E. rewrite E in He. inversion He.
    + unfold bucket. replace (idx / 64 * 64 + idx mod 64) with idx; [done|].
      rewrite (Z.div_mod idx 64) at 1 by lia. lia.
Qed.

(** [nearest] is exact. *)
Lemma nearest_spec w b :
  grid_ok (Some b) (cursor_tick w) (occupied w) (slots w) -> bt_sorted (overflow w) ->
  min_of (nearest w) (entries w).
Proof.
  intros Hg Hs.
  assert (nearest w = fold_left min_step (visited w)
            match overflow w with [] => None | ((fire_at, _), _) :: _ => Some fire_at end) as ->.
  { unfold nearest, visited. rewrite <- fold_left_concat. apply fold_left_ext. intros c word.
    by rewrite <- (fold_left_concat min_step). }
  apply (min_of_ext _ (map overflow_entry (overflow w) ++ visited w)).
  { intros e. unfold entries. rewrite !elem_of_app, (visited_spec w b e Hg). tauto. }
  apply fold_min_spec. destruct (overflow w) as [|[[f q] o] m]; simpl; [done|].
  inversion Hs as [|? ? _ Hall]; subst. rewrite Forall_forall in Hall. split.
  - eexists. split; [by left|done].
  - intros e [->|He]%elem_of_cons; [done|]. apply list_elem_of_fmap in He as ([[f' q'] o'] & -> & Hx).
    specialize (Hall _ Hx). rewrite key_lt_iff in Hall. simpl in *. lia.
Qed.

(** ** Draining *)

(** The bucket loop removes exactly the due entries. *)
Lemma scan_bucket_spec fuel now i bkt due :
  (length bkt <= fuel + i)%nat ->
  (forall j e, (j < i)%nat -> bkt !! j = Some e -> is_due now e = false) ->
  exists bkt' removed,
    scan_bucket fuel now i bkt due = (bkt', due ++ removed) /\
    Permutation bkt (removed ++ bkt') /\
    (forall e, e ∈ removed -> is_due now e = true) /\
    (forall e, e ∈ bkt' -> is_due now e = false).
Proof.
  revert i bkt due. induction fuel as [|fuel IH]; intros i bkt due Hf Hpre; simpl.
  - exists bkt, []. rewrite app_nil_r. do 2 (split; [done|]). split; [intros e He; inversion He|].
    intros e He. apply list_elem_of_lookup in He as [j Hj]. apply (Hpre j); [|done].
    apply lookup_lt_Some in Hj. lia.
  - destruct (bkt !! i) as [e|] eqn:Ei.
    + pose proof (lookup_lt_Some _ _ _ Ei) as Hlt.
      destruct (entry_fire_at e <=? now) eqn:Ed.
      * pose proof (swap_remove_perm _ _ _ Ei) as Hsw. pose proof (swap_remove_length _ _ _ Ei).
        destruct (IH i (swap_remove i bkt) (due ++ [e])) as (bkt' & removed & -> & Hp & Hr & Hb).
        -- lia.
        -- intros j x Hj. rewrite (swap_remove_lookup_lt _ i j e) by done. by apply Hpre.
        -- exists bkt', (e :: removed). rewrite <- app_assoc. split; [done|].
           split; [rewrite Hsw, Hp; done|]. split; [|done].
           intros x [->|Hx]%elem_of_cons; [done|auto].
      * apply IH; [lia|]. intros j x Hj Hx. destruct (decide (j = i)) as [->|].
        -- rewrite Ei in Hx. injection Hx as <-. exact Ed.
        -- apply (Hpre j); [lia|done].
    + exists bkt, []. rewrite app_nil_r. do 2 (split; [done|]). split; [intros e He; inversion He|].
      intros e He. apply list_elem_of_lookup in He as [j Hj]. apply (Hpre j); [|done].
      pose proof (lookup_lt_Some _ _ _ Hj). apply lookup_ge_None in Ei. lia.
Qed.

Lemma drain_overflow_spec now m :
  bt_sorted m ->
  let (due, m') := drain_overflow now m in
  bt_sorted m' /\ map overflow_entry m = due ++ map overflow_entry m' /\
  (forall e, e ∈ due -> is_due now e = true) /\
  (forall e, e ∈ map overflow_entry m' -> is_due now e = false).
Proof.
  induction 1 as [|[[f q] o] m Hs IH Hall]; simpl.
  - split; [constructor|]. split; [done|]. split; intros e He; inversion He.
  - destruct (Z.ltb_spec now f) as [Hlt|Hge].
    + split; [by constructor|]. split; [done|]. split; [intros e He; inversion He|].
      intros e [->|He]%elem_of_cons; [by apply Z.leb_gt|].
      apply list_elem_of_fmap in He as ([[f' q'] o'] & -> & Hx). rewrite Forall_forall in Hall.
      specialize (Hall _ Hx). rewrite key_lt_iff in Hall. simpl in *. apply Z.leb_gt. simpl. lia.
    + destruct (drain_overflow now m) as [due m']. destruct IH as (Hs' & Hm & Hd & Hn).
      split; [done|]. split; [simpl; by rewrite Hm|]. split; [|done].
      intros e [->|He]%elem_of_cons; [by apply Z.leb_le|by apply Hd].
Qed.

(** What the [for step] loop keeps, as a relation to the wheel it started from:
    only buckets and bits change, entries move from buckets to [due], and the
    buckets of the ticks already scanned hold nothing due. *)
Definition drained_from (now b : Instant) w0 (due0 : list (WheelEntry M)) (done : list Z)
    (st : TimerWheel M * list (WheelEntry M)) : Prop :=
  let (w, due) := st in
  (exists occ sl, w = mkWheel (base w0) (cursor_tick w0) occ (overflow w0) (pending w0)
                    (wheel_seq w0) sl (soonest w0)) /\
  grid_ok (Some b) (cursor_tick w0) (occupied w) (slots w) /\
  Permutation (due ++ concat (slots w)) (due0 ++ concat (slots w0)) /\
  (forall idx e, is_slot idx -> e ∈ bucket w idx -> e ∈ bucket w0 idx) /\
  (forall idx e, is_due now e = false -> e ∈ bucket w0 idx -> e ∈ bucket w idx) /\
  (forall e, e ∈ due -> e ∈ due0 \/ is_due now e = true) /\
  (forall tick e, tick ∈ done -> e ∈ bucket w (tick mod WHEEL_SLOTS) -> is_due now e = false).

Lemma drain_bucket_step now b w0 due0 done st tick :
  drained_from now b w0 due0 done st ->
  drained_from now b w0 due0 (done ++ [tick]) (drain_bucket now tick st).
Proof.
  destruct st as [w due]. intros ((occ & sl & Hw) & Hg & Hp & Hsub & Hkeep & Hd & Hn).
  unfold drain_bucket. pose proof (is_slot_mod tick) as Hi. set (idx := tick mod WHEEL_SLOTS) in *.
  destruct (scan_bucket_spec (length (bucket w idx)) now 0 (bucket w idx) due
                ltac:(lia) ltac:(intros; lia)) as (bkt' & removed & -> & Hp' & Hr & Hb).
  assert (cursor_tick w = cursor_tick w0) as Hcur by (by rewrite Hw).
  rewrite <- Hcur in Hg. pose proof Hg as (_ & _ & Hlen & _).
  assert (forall e, e ∈ bkt' -> e ∈ bucket w idx) as Hin.
  { intros e He. rewrite Hp', elem_of_app. by right. }
  destruct (release_bucket_spec w b idx bkt' Hg Hi Hin) as (occ' & -> & Hg').
  cbn [drained_from]. split; [subst w; eauto|]. rewrite <- Hcur. split; [done|].
  cbn [slots]. split; [|split; [|split; [|split]]].
  - rewrite <- Hp, <- app_assoc. apply Permutation_app_head, (Permutation_app_inv_l bkt').
    rewrite (concat_insert_perm _ _ _ bkt' (slot_at_lookup _ _ Hlen Hi)).
    fold (bucket w idx). by rewrite Hp', (Permutation_app_comm removed bkt'), <- app_assoc.
  - intros j e Hj. unfold bucket at 1. cbn [slots]. rewrite slot_at_insert by done.
    destruct (Z.eqb_spec j idx) as [->|]; auto.
  - intros j e Hne He. apply slot_at_insert_mono; [by apply Hkeep|].
    fold (bucket w idx). rewrite Hp', elem_of_app. intros [Hx|Hx]; [|done].
    by rewrite Hr in Hne.
  - intros e [He|He]%elem_of_app; auto.
  - intros t e Ht. pose proof (is_slot_mod t). unfold bucket. cbn [slots]. rewrite slot_at_insert by done.
    destruct (Z.eqb_spec (t mod WHEEL_SLOTS) idx); [by apply Hb|].
    apply elem_of_app in Ht as [Ht|Ht]; [by apply Hn|]. by apply list_elem_of_singleton in Ht as ->.
Qed.

Lemma drain_loop_spec now b w0 due0 ticks :
  grid_ok (Some b) (cursor_tick w0) (occupied w0) (slots w0) ->
  drained_from now b w0 due0 ticks
    (fold_left (fun st tick => drain_bucket now tick st) ticks (w0, due0)).
Proof.
  intros Hg. rewrite <- fold_left_rev_right.
  rewrite <- (rev_involutive ticks) at 1. induction (rev ticks) as [|t ts IH]; simpl.
  - split; [destruct w0; cbn; eauto|]. do 4 (split; [done|]).
    split; [auto|]. intros t e Ht. inversion Ht.
  - by apply drain_bucket_step.
Qed.

(** The scanned ticks cover the bucket of every due entry. *)
Lemma span_covers w b now e idx :
  0 <= cursor_tick w <= tick_of b now -> now - b < 2 ^ 64 ->
  is_due now e = true -> home b (cursor_tick w) e idx ->
  exists tick, tick ∈ drain_span w (tick_of b now) /\ tick mod WHEEL_SLOTS = idx.
Proof.
  intros Hc Hnow Hd Hh. unfold is_due in Hd. apply Z.leb_le in Hd.
  pose proof (tick_mono b (entry_fire_at e) now Hd Hnow) as Hm.
  unfold home in Hh. rewrite Hh by lia. clear Hh.
  set (c := cursor_tick w) in *. set (T := Z.max (tick_of b (entry_fire_at e)) c).
  assert (c <= T <= tick_of b now) as HT by lia.
  unfold drain_span. fold c. setoid_rewrite elem_of_seqZ.
  pose proof (Z.mod_pos_bound (T - c) WHEEL_SLOTS ltac:(by vm_compute)) as Hr.
  destruct (Z.le_gt_cases (tick_of b now - c) WHEEL_SLOTS) as [Hs|Hs].
  - exists T. split; [lia|done].
  - exists (c + (T - c) mod WHEEL_SLOTS). split; [lia|].
    rewrite Z.add_mod_idemp_r by (by vm_compute). f_equal. lia.
Qed.

Lemma wheel_ok_later last now w :
  wheel_ok last w -> last <= now -> (forall b, base w = Some b -> now - b < 2 ^ 64) ->
  wheel_ok now w.
Proof.
  intros [Hg Hc Ho Hov Hbag] Hle Hb. constructor; try done.
  intros b Eb. specialize (Hc b Eb). pose proof (tick_mono b last now Hle (Hb b Eb)). lia.
Qed.

Lemma entry_seq_inj l e1 e2 :
  NoDup (map entry_seq l) -> e1 ∈ l -> e2 ∈ l -> entry_seq e1 = entry_seq e2 -> e1 = e2.
Proof.
  induction l as [|x l IH]; intros Hn H1 H2 Heq; [inversion H1|].
  simpl in Hn. apply NoDup_cons in Hn as [Hx Hn].
  apply elem_of_cons in H1 as [->|H1]; apply elem_of_cons in H2 as [->|H2]; try done.
  - destruct Hx. rewrite Heq. by apply list_elem_of_fmap_2.
  - destruct Hx. rewrite <- Heq. by apply list_elem_of_fmap_2.
  - by apply IH.
Qed.

#[local] Instance entry_le_trans : Transitive (@entry_le M).
Proof. intros a b c. unfold entry_le. lia. Qed.

#[local] Instance entry_le_total : Total (@entry_le M).
Proof. intros a b. unfold entry_le. lia. Qed.

(** Sorting a bag by the unique key [(fire_at, seq)] forgets its order. *)
Lemma sort_unique (l l' : list (WheelEntry M)) :
  Permutation l l' -> NoDup (map entry_seq l) -> merge_sort entry_le l = merge_sort entry_le l'.
Proof.
  intros Hp Hn. apply (StronglySorted_unique_strong entry_le).
  - intros x y Hx Hy Hxy Hyx. rewrite merge_sort_Permutation in Hx, Hy. rewrite <- Hp in Hy.
    apply (entry_seq_inj l); try done. unfold entry_le in *. lia.
  - apply (StronglySorted_merge_sort entry_le).
  - apply (StronglySorted_merge_sort entry_le).
  - by rewrite !merge_sort_Permutation.
Qed.

Lemma bag_split ents due rest n s o o' :
  bag_ok ents n s o -> Permutation ents (due ++ rest) -> min_of o' rest ->
  bag_ok rest (n -u64 Z.of_nat (length due)) s o'.
Proof.
  intros (Hn & Hs & Hc & Hl & Ho) Hp Hm. rewrite Hp, fmap_app in Hn.
  apply NoDup_app in Hn as (_ & _ & Hn).
  assert (length ents = length due + length rest)%nat as Hlen by (by rewrite Hp, length_app).
  rewrite wrap_small by lia. split; [done|]. split; [|split; [lia|split; [lia|]]].
  - intros e He. apply Hs. rewrite Hp, elem_of_app. by right.
  - intros e He. destruct o' as [m|]; simpl in Hm; [|subst; inversion He].
    exists m. split; [done|]. by apply Hm.
Qed.

(** The promise of one drain. *)
Definition drain_result (now : Instant) w (r : list (Due M) * TimerWheel M) : Prop :=
  fst r = map to_due (merge_sort entry_le (List.filter (is_due now) (entries w))) /\
  Permutation (entries (snd r)) (List.filter (fun e => negb (is_due now e)) (entries w)) /\
  wheel_ok now (snd r) /\
  wheel_seq (snd r) = wheel_seq w /\ base (snd r) = base w /\
  forall t, token_ok w t -> token_ok (snd r) t.

Lemma drain_nothing now w :
  wheel_ok now w -> (forall e, e ∈ entries w -> is_due now e = false) ->
  drain_result now w ([], w).
Proof.
  intros Hok Hn. split; [by rewrite filterb_none|]. split; [|done]. simpl.
  rewrite filterb_all; [done|]. intros e He. by rewrite Hn.
Qed.

(** Moving the cursor to [tick now] keeps entries that are not due at home. *)
Lemma home_advance b c now e idx :
  c <= tick_of b now -> is_due now e = false -> home b c e idx -> home b (tick_of b now) e idx.
Proof.
  unfold home, is_due. intros Hc Hd Hh Hr. apply Z.leb_gt in Hd.
  pose proof (tick_mono b now (entry_fire_at e) ltac:(lia) Hr). rewrite Hh by done. f_equal. lia.
Qed.

Lemma drain_slow now w b :
  wheel_ok now w -> base w = Some b -> now - b < 2 ^ 64 ->
  forall due0 m, drain_overflow now (overflow w) = (due0, m) ->
  let w0 := mkWheel (base w) (cursor_tick w) (occupied w) m (pending w) (wheel_seq w)
              (slots w) (soonest w) in
  forall w1 due,
  fold_left (fun st tick => drain_bucket now tick st) (drain_span w0 (tick_of b now)) (w0, due0)
    = (w1, due) ->
  let w2 := mkWheel (base w1) (tick_of b now) (occupied w1) (overflow w1)
              (pending w1 -u64 Z.of_nat (length due)) (wheel_seq w1) (slots w1) (soonest w1) in
  let w3 := mkWheel (base w2) (cursor_tick w2) (occupied w2) (overflow w2) (pending w2)
              (wheel_seq w2) (slots w2) (nearest w2) in
  drain_result now w (map to_due (merge_sort entry_le due), w3).
Proof.
  intros [Hg Hc Ho Hov Hbag] Eb Hnow due0 m Hm w0 w1 due Hfold w2 w3. specialize (Hc b Eb).
  pose proof (drain_overflow_spec now (overflow w) Ho) as Hdo. rewrite Hm in Hdo.
  destruct Hdo as (Hms & Hme & Hd0 & Hm0). rewrite Eb in Hg.
  pose proof (drain_loop_spec now b w0 due0 (drain_span w0 (tick_of b now)) Hg) as Hloop.
  rewrite Hfold in Hloop. destruct Hloop as ((occ & sl & Hw1) & Hg1 & Hp1 & Hsub & Hkeep & Hd1 & Hn1).
  assert (forall idx e, is_slot idx -> e ∈ bucket w1 idx -> is_due now e = false) as Hrest.
  { intros idx e Hi He. destruct (is_due now e) eqn:Ed; [|done].
    destruct (span_covers w0 b now e idx) as (t & Ht & <-); try done.
    - destruct Hg as (_ & _ & _ & Hpl). apply Hpl; [done|]. by apply Hsub.
    - rewrite <- Ed. by apply (Hn1 t). }
  destruct Hg1 as (Hbm1 & Hocc1 & Hlen1 & Hpl1).
  assert (grid_ok (Some b) (tick_of b now) (occupied w1) (slots w1)) as Hg2.
  { split; [done|]. split; [done|]. split; [done|]. intros idx e Hi He.
    apply (home_advance b (cursor_tick w)); [lia|by apply (Hrest idx)|by apply Hpl1]. }
  assert (entries w3 = concat (slots w1) ++ map overflow_entry m) as He3
    by (unfold entries; cbn; by rewrite Hw1).
  assert (Permutation (entries w) (due ++ entries w3)) as Hsplit.
  { rewrite He3, app_assoc, Hp1. unfold entries. rewrite Hme. cbn [slots w0].
    by rewrite !app_assoc, (Permutation_app_comm (concat (slots w)) due0). }
  assert (forall e, e ∈ due -> is_due now e = true) as Hdue.
  { intros e He. destruct (Hd1 e He); auto. }
  assert (forall e, e ∈ entries w3 -> is_due now e = false) as Hnot.
  { intros e. rewrite He3, elem_of_app, (elem_of_slots _ _ Hlen1).
    intros [(idx & Hi & He)|He]; [by apply (Hrest idx)|by apply Hm0]. }
  destruct (partition_unique (is_due now) _ _ _ Hsplit Hdue Hnot) as [Hpd Hpr].
  assert (min_of (nearest w2) (entries w3)) as Hmin.
  { apply (nearest_spec w2 b Hg2). unfold w2. cbn. by rewrite Hw1. }
  pose proof (bag_split _ _ _ _ _ _ _ Hbag Hsplit Hmin) as Hbag3.
  pose proof Hbag as (Hnd & _). rewrite Hsplit, fmap_app in Hnd.
  apply NoDup_app in Hnd as (Hnd & _ & _).
  assert (base w1 = Some b) as Eb1 by (by rewrite Hw1).
  split; [|split; [done|split; [|split; [|split]]]].
  - cbn [fst]. by rewrite (sort_unique _ _ Hpd Hnd).
  - cbn [snd]. constructor.
    + unfold w3, w2. cbn. by rewrite Eb1.
    + unfold w3, w2. cbn. rewrite Eb1. intros ? [= <-]. pose proof (tick_nonneg b now). lia.
    + unfold w3, w2. cbn. by rewrite Hw1.
    + unfold w3, w2. cbn. by rewrite Eb1.
    + change (pending w3) with (pending w1 -u64 Z.of_nat (length due)).
      change (wheel_seq w3) with (wheel_seq w1). change (soonest w3) with (nearest w2).
      replace (pending w1) with (pending w) by (by rewrite Hw1).
      replace (wheel_seq w1) with (wheel_seq w) by (by rewrite Hw1). exact Hbag3.
  - unfold w3, w2. cbn. by rewrite Hw1.
  - unfold w3, w2. cbn. by rewrite Eb1, Eb.
  - cbn [snd]. intros t. apply token_step.
    { unfold w3, w2. cbn. by rewrite Hw1. }
    { unfold w3, w2. cbn. by rewrite Eb1. }
    intros e He _. split; [rewrite Hsplit, elem_of_app; by right|].
    intros [idx|] Hl; [by apply Hkeep; [apply Hnot|]|]. cbn in Hl |- *. rewrite Hw1. cbn.
    rewrite Hme, elem_of_app in Hl. destruct Hl as [Hl|]; [|done].
    specialize (Hnot e He). by rewrite Hd0 in Hnot.
Qed.

Lemma drain_spec last w now :
  wheel_ok last w -> last <= now -> (forall b, base w = Some b -> now - b < 2 ^ 64) ->
  drain_result now w (drain_due now w).
Proof.
  intros Hok Hle Hb. apply (wheel_ok_later _ now) in Hok; [|done..].
  pose proof (ok_bag _ _ Hok) as (_ & _ & Hcount & _ & Hsoon).
  unfold drain_due. destruct (_ || _) eqn:Efast.
  { apply drain_nothing; [done|]. intros e He. apply orb_true_iff in Efast as [Hz|Hs].
    - apply Z.eqb_eq in Hz. destruct (entries w); [inversion He|simpl in Hcount; lia].
    - destruct (Hsoon e He) as (s & Es & Hse). rewrite Es in Hs. apply Z.ltb_lt in Hs.
      unfold is_due. apply Z.leb_gt. lia. }
  destruct (base w) as [b|] eqn:Eb.
  - destruct (drain_overflow now (overflow w)) as [due0 m] eqn:Em. cbn [slots].
    pose proof (ok_grid _ _ Hok) as Hg. rewrite Eb in Hg. destruct Hg as (_ & _ & Hlen & _).
    destruct (slots w) as [|bkt sl] eqn:Esl; [by vm_compute in Hlen|]. rewrite <- Esl, <- Eb.
    destruct (fold_left _ _ _) as [w1 due] eqn:Ef.
    by apply (drain_slow now w b Hok Eb (Hb b eq_refl) due0 m Em w1 due).
  - apply drain_nothing; [done|]. intros e He. pose proof (ok_grid _ _ Hok) as Hg.
    rewrite Eb in Hg. destruct Hg as (_ & _ & Hsl & _).
    unfold entries in He. rewrite Hsl, (ok_based _ _ Hok Eb) in He. inversion He.
Qed.

(** The gate never opens late. *)
Lemma soonest_bound_spec last w e :
  wheel_ok last w -> e ∈ entries w ->
  exists s, soonest_bound w = Some s /\ s <= entry_fire_at e.
Proof.
  intros Hok He. pose proof (ok_bag _ _ Hok) as (_ & _ & Hc & _ & Hs).
  unfold soonest_bound. destruct (Z.eqb_spec (pending w) 0); [|auto].
  destruct (entries w); [inversion He|simpl in Hc; lia].
Qed.
End Invariant.

(** ** The wheel as a bag of entries

    A client script of the wheel, with cancellation by the position of an issued
    token, against the abstract machine whose state is just the bag of pending
    entries, the sequence counter and the issued numbers. *)

Section Refinement.
Context {M : Type}.

Inductive WheelOp :=
  | OpDeliver (fire_at : Instant) (target : Pid) (envelope : M)
  | OpDeadline (fire_at : Instant) (p : Pid)
  | OpCancel (issued : nat)
  | OpDrain (now : Instant).

Definition wheel_step (st : TimerWheel M * list TimerToken) (op : WheelOp) :
    (TimerWheel M * list TimerToken) * list (Due M) :=
  let (w, tokens) := st in
  match op with
  | OpDeliver f p m => ((insert_deliver f p m w, tokens), [])
  | OpDeadline f p => let (t, w') := insert_deadline f p w in ((w', tokens ++ [t]), [])
  | OpCancel n =>
      match tokens !! n with Some t => ((cancel t w, tokens), []) | None => (st, []) end
  | OpDrain now => let (due, w') := drain_due now w in ((w', tokens), due)
  end.

Record Bag := mkBag { bag_pending : list (WheelEntry M); bag_seq : Z; bag_tokens : list Z }.

Definition bag_step (bg : Bag) (op : WheelOp) : Bag * list (Due M) :=
  let s := bag_seq bg + 1 in
  match op with
  | OpDeliver f p m =>
      (mkBag (mkEntry f (Deliver m) p s :: bag_pending bg) s (bag_tokens bg), [])
  | OpDeadline f p =>
      (mkBag (mkEntry f Promote p s :: bag_pending bg) s (bag_tokens bg ++ [s]), [])
  | OpCancel n =>
      match bag_tokens bg !! n with
      | Some t => (mkBag (without t (bag_pending bg)) (bag_seq bg) (bag_tokens bg), [])
      | None => (bg, [])
      end
  | OpDrain now =>
      (mkBag (List.filter (fun e => negb (is_due now e)) (bag_pending bg)) (bag_seq bg)
         (bag_tokens bg),
       map to_due (merge_sort entry_le (List.filter (is_due now) (bag_pending bg))))
  end.

Fixpoint wheel_run (st : TimerWheel M * list TimerToken) (ops : list WheelOp) :
    list (list (Due M)) :=
  match ops with
  | [] => []
  | op :: rest => let (st', out) := wheel_step st op in out :: wheel_run st' rest
  end.

Fixpoint bag_run (bg : Bag) (ops : list WheelOp) : list (list (Due M)) :=
  match ops with
  | [] => []
  | op :: rest => let (bg', out) := bag_step bg op in out :: bag_run bg' rest
  end.

(** Instants are nanoseconds of a monotonic clock: drains never go back, and
    drained instants stay below 2^64 (584 years). Fire instants may be later. *)
Definition next_clock (last : Instant) (op : WheelOp) : Instant :=
  match op with OpDrain now => now | _ => last end.

Definition op_clock_ok (last : Instant) (op : WheelOp) : bool :=
  match op with
  | OpDrain now => (last <=? now) && (now <? 2 ^ 64)
  | OpDeliver f _ _ | OpDeadline f _ => 0 <=? f
  | OpCancel _ => true
  end.

Fixpoint clock_ok (last : Instant) (ops : list WheelOp) : bool :=
  match ops with
  | [] => true
  | op :: rest => op_clock_ok last op && clock_ok (next_clock last op) rest
  end.

Definition refines (last : Instant) (st : TimerWheel M * list TimerToken) (bg : Bag) : Prop :=
  let (w, tokens) := st in
  wheel_ok last w /\ (forall b, base w = Some b -> 0 <= b) /\
  Permutation (entries w) (bag_pending bg) /\ wheel_seq w = bag_seq bg /\
  Forall (token_ok w) tokens /\ bag_tokens bg = map token_seq tokens.

Lemma refines_step last st bg op :
  refines last st bg -> op_clock_ok last op = true -> bag_seq bg + 1 < 2 ^ 64 ->
  refines (next_clock last op) (fst (wheel_step st op)) (fst (bag_step bg op)) /\
  snd (wheel_step st op) = snd (bag_step bg op) /\
  bag_seq (fst (bag_step bg op)) <= bag_seq bg + 1.
Proof.
  destruct st as [w tokens]. intros (Hok & Hb & Hp & Hs & Ht & Hbt) Hc Hlt.
  assert (forall b f k, 0 <= f -> base (snd (insert f b k w)) = Some (default f (base w)) ->
          forall b', base (snd (insert f b k w)) = Some b' -> 0 <= b') as Hbase.
  { intros b f k Hf -> b' [= <-]. destruct (base w); simpl; auto. }
  destruct op as [f p m|f p|n|now]; simpl in *; bool_to_prop.
  - unfold insert_deliver.
    destruct (insert_spec last w f p (Deliver m) Hok ltac:(lia))
      as (t & w' & E & Hp' & Hs' & Hb' & _ & Hok' & _ & Htk).
    specialize (Hbase p f (Deliver m) Hc). rewrite E in *. simpl in *.
    split; [|split; [done|lia]]. split; [done|]. split; [auto|]. split; [by rewrite Hp', Hp, Hs|].
    split; [lia|]. split; [|done]. by eapply Forall_impl.
  - unfold insert_deadline.
    destruct (insert_spec last w f p Promote Hok ltac:(lia))
      as (t & w' & E & Hp' & Hs' & Hb' & Hts & Hok' & Htn & Htk).
    specialize (Hbase p f Promote Hc). rewrite E in *. simpl in *.
    split; [|split; [done|lia]]. split; [done|]. split; [auto|]. split; [by rewrite Hp', Hp, Hs|].
    split; [lia|]. rewrite fmap_app, Hbt. simpl. split; [|by rewrite Hts, Hs].
    apply Forall_app. split; [by eapply Forall_impl|by constructor].
  - rewrite Hbt, list_lookup_fmap. destruct (tokens !! n) as [t|] eqn:En; simpl.
    + pose proof (Forall_lookup_1 _ _ _ _ Ht En) as Htok.
      destruct (cancel_spec last w t Hok Htok) as (Hok' & Hp' & Htk & Hs' & Hb').
      split; [|split; [done|lia]]. split; [done|]. rewrite Hb', Hs'. split; [done|].
      split; [rewrite Hp'; unfold without; by rewrite Hp|]. split; [done|].
      split; [by eapply Forall_impl|done].
    + split; [|split; [done|lia]]. done.
  - destruct (drain_spec last w now Hok H) as (Hd & Hp' & Hok' & Hs' & Hb' & Htk).
    { intros b Eb. specialize (Hb b Eb). lia. }
    destruct (drain_due now w) as [due w']. simpl in *. split; [|split; [|lia]].
    + split; [done|]. rewrite Hb', Hs'. split; [done|]. split; [by rewrite Hp', Hp|].
      split; [done|]. split; [by eapply Forall_impl|done].
    + rewrite Hd. f_equal. apply sort_unique; [by rewrite Hp|].
      destruct (ok_bag _ _ Hok) as (Hn & _).
      rewrite (filter_partition (is_due now) (entries w)), fmap_app in Hn.
      by apply NoDup_app in Hn as [Hn _].
Qed.

Lemma refines_run ops last st bg :
  refines last st bg -> clock_ok last ops = true ->
  bag_seq bg + Z.of_nat (length ops) < 2 ^ 64 ->
  wheel_run st ops = bag_run bg ops.
Proof.
  revert last st bg. induction ops as [|op ops IH]; intros last st bg HR Hc Hlen; [done|].
  cbn [clock_ok] in Hc. apply andb_true_iff in Hc as [Hop Hc]. simpl length in Hlen.
  destruct (refines_step last st bg op HR Hop ltac:(lia)) as (HR' & Hout & Hseq).
  cbn [wheel_run bag_run]. destruct (wheel_step st op) as [st' out], (bag_step bg op) as [bg' out'].
  simpl in *. subst out'. f_equal. apply (IH (next_clock last op)); [done|done|lia].
Qed.

End Refinement.
Arguments WheelOp : clear implicits.
Arguments Bag : clear implicits.

(** A script with ties, a cancellation, an overflow entry and three drains. *)
Definition sample_script : list (WheelOp Z) :=
  [ OpDeadline 5000000 1; OpDeliver 3000000 2 77; OpDeadline 5000000 3; OpCancel 0;
    OpDeliver 5000000000 4 88; OpDrain 4000000; OpDeadline 1000000 5; OpDrain 6000000;
    OpDrain 5000000000 ].

