(* ===== verification/TimerService.v ===== *)
(** * The timer service

    Models [koja-runtime-core/src/timer_service.rs]: per-process wake deadlines,
    delayed deliveries and the drain-grace backstop on top of a timer queue.

    What the service needs of the wheel is the interface [TimerQueue] with the
    laws [TimerQueueLaws]; the service and its theorems are stated against it,
    and the timing wheel of [TimerWheel.v] is the instance the runtime uses. The
    [HashMap] of armed tokens is a [gmap]. *)

From S2P Require Import Prelude Protocol TimerWheel.
Local Open Scope Z_scope.

(** ** The interface *)

Class TimerQueue (M W : Type) := {
  tq_new : W;
  tq_deliver : Instant -> Pid -> M -> W -> W;
  tq_deadline : Instant -> Pid -> W -> TimerToken * W;
  tq_cancel : TimerToken -> W -> W;
  tq_drain : Instant -> W -> list (Due M) * W;
  tq_soonest : W -> option Instant;
}.

(** The laws: the queue is the bag [tq_pending] of entries with distinct, issued
    sequence numbers. [tq_ok last w] holds of a queue never drained past [last]. *)
Class TimerQueueLaws (M W : Type) `{TimerQueue M W} := {
  tq_ok : Instant -> W -> Prop;
  tq_pending : W -> list (WheelEntry M);
  tq_issued : W -> Z;
  tq_token : W -> TimerToken -> Prop;

  tq_new_ok : tq_ok 0 tq_new /\ tq_pending tq_new = [] /\ tq_issued tq_new = 0;
  tq_seq_unique last w : tq_ok last w -> NoDup (map entry_seq (tq_pending w));
  tq_token_issued last w t : tq_ok last w -> tq_token w t -> token_seq t <= tq_issued w;
  tq_deliver_ok last w f p m :
    tq_ok last w -> 0 <= f -> tq_issued w + 1 < 2 ^ 64 ->
    tq_ok last (tq_deliver f p m w) /\
    Permutation (tq_pending (tq_deliver f p m w))
                (mkEntry f (Deliver m) p (tq_issued w + 1) :: tq_pending w) /\
    tq_issued (tq_deliver f p m w) = tq_issued w + 1 /\
    forall t, tq_token w t -> tq_token (tq_deliver f p m w) t;
  tq_deadline_ok last w f p :
    tq_ok last w -> 0 <= f -> tq_issued w + 1 < 2 ^ 64 ->
    exists t w', tq_deadline f p w = (t, w') /\
      tq_ok last w' /\
      Permutation (tq_pending w') (mkEntry f Promote p (tq_issued w + 1) :: tq_pending w) /\
      tq_issued w' = tq_issued w + 1 /\ token_seq t = tq_issued w + 1 /\ tq_token w' t /\
      forall t', tq_token w t' -> tq_token w' t';
  tq_cancel_ok last w t :
    tq_ok last w -> tq_token w t ->
    tq_ok last (tq_cancel t w) /\
    Permutation (tq_pending (tq_cancel t w)) (without (token_seq t) (tq_pending w)) /\
    tq_issued (tq_cancel t w) = tq_issued w /\
    forall t', tq_token w t' -> tq_token (tq_cancel t w) t';
  tq_drain_ok last w now :
    tq_ok last w -> last <= now -> now < 2 ^ 64 ->
    exists w', tq_drain now w =
      (map to_due (merge_sort entry_le (List.filter (is_due now) (tq_pending w))), w') /\
      tq_ok now w' /\
      Permutation (tq_pending w') (List.filter (fun e => negb (is_due now e)) (tq_pending w)) /\
      tq_issued w' = tq_issued w /\ forall t, tq_token w t -> tq_token w' t;
  tq_soonest_ok last w e :
    tq_ok last w -> e ∈ tq_pending w ->
    exists s, tq_soonest w = Some s /\ s <= entry_fire_at e;
}.

(** ** The instance *)

#[export] Instance wheel_queue (M : Type) : TimerQueue M (TimerWheel M) := {
  tq_new := wheel_new;
  tq_deliver := insert_deliver;
  tq_deadline := insert_deadline;
  tq_cancel := cancel;
  tq_drain := drain_due;
  tq_soonest := soonest_bound;
}.

Definition wheel_based {M} (last : Instant) (w : TimerWheel M) : Prop :=
  wheel_ok last w /\ forall b, base w = Some b -> 0 <= b.

#[export] Instance wheel_queue_laws (M : Type) : TimerQueueLaws M (TimerWheel M).
Proof.
  refine {| tq_ok := wheel_based; tq_pending := entries; tq_issued := wheel_seq;
            tq_token := token_ok |}.
  - split; [|done]. split; [apply new_ok|done].
  - intros last w [Hok _]. by destruct (ok_bag _ _ Hok).
  - by intros last w t _ [? _].
  - intros last w f p m [Hok Hb] Hf Hs. simpl. unfold insert_deliver.
    destruct (insert_spec last w f p (Deliver m) Hok Hs)
      as (t & w' & -> & Hp & Hs' & Hb' & _ & Hok' & _ & Htk). simpl.
    split; [|done]. split; [done|]. rewrite Hb'. intros b [= <-]. destruct (base w); simpl; auto.
  - intros last w f p [Hok Hb] Hf Hs. simpl. unfold insert_deadline.
    destruct (insert_spec last w f p Promote Hok Hs)
      as (t & w' & -> & Hp & Hs' & Hb' & Ht & Hok' & Htn & Htk).
    exists t, w'. split; [done|]. split; [|done]. split; [done|].
    rewrite Hb'. intros b [= <-]. destruct (base w); simpl; auto.
  - intros last w t [Hok Hb] Ht. simpl.
    destruct (cancel_spec last w t Hok Ht) as (Hok' & Hp & Htk & Hs & Hb').
    split; [|done]. split; [done|]. by rewrite Hb'.
  - intros last w now [Hok Hb] Hle Hnow. simpl.
    destruct (drain_spec last w now Hok Hle) as (Hd & Hp & Hok' & Hs & Hb' & Htk).
    { intros b Eb. specialize (Hb b Eb). lia. }
    destruct (drain_due now w) as [due w']. simpl in *. subst. exists w'. split; [done|].
    split; [|done]. split; [done|]. by rewrite Hb'.
  - intros last w e [Hok _] He. by apply (soonest_bound_spec last).
Defined.

(** ** The service *)

Section Service.
Context {M W : Type} `{TQ : TimerQueue M W}.

Record TimerService := mkService {
  armed : gmap Pid TimerToken;
  grace_deadline : option Instant;
  last_advance : option Instant;
  wheel : W;
}.

Definition service_new : TimerService := mkService ∅ None None tq_new.

Definition arm_deadline (p : Pid) (fire_at : Instant) (s : TimerService) : TimerService :=
  let (token, w) := tq_deadline fire_at p (wheel s) in
  let previous := armed s !! p in
  let w := match previous with Some t => tq_cancel t w | None => w end in
  mkService (<[p := token]> (armed s)) (grace_deadline s) (last_advance s) w.

Definition cancel_deadline (p : Pid) (s : TimerService) : TimerService :=
  match armed s !! p with
  | Some token =>
      mkService (delete p (armed s)) (grace_deadline s) (last_advance s)
        (tq_cancel token (wheel s))
  | None => s
  end.

Definition schedule_deliver (fire_at : Instant) (target_pid : Pid) (envelope : M)
    (s : TimerService) : TimerService :=
  mkService (armed s) (grace_deadline s) (last_advance s)
    (tq_deliver fire_at target_pid envelope (wheel s)).

(** The loop of [advance] over the fired entries. *)
Definition disarm_fired (due : list (Due M)) (a : gmap Pid TimerToken) : gmap Pid TimerToken :=
  fold_left (fun a d => match d with DuePromote p _ => delete p a | DueDeliver _ _ => a end)
    due a.

Definition advance (now : Instant) (s : TimerService) : list (Due M) * TimerService :=
  if match last_advance s with Some last => now <=? last | None => false end then ([], s)
  else
    let (due, w) := tq_drain now (wheel s) in
    (due, mkService (disarm_fired due (armed s)) (grace_deadline s) (Some now) w).

Definition next_fire (s : TimerService) : option Instant :=
  match tq_soonest (wheel s), grace_deadline s with
  | Some timer, Some grace => Some (Z.min timer grace)
  | Some timer, None => Some timer
  | None, grace => grace
  end.

Definition arm_grace (deadline : Instant) (s : TimerService) : TimerService :=
  match grace_deadline s with
  | None => mkService (armed s) (Some deadline) (last_advance s) (wheel s)
  | Some _ => s
  end.

Definition grace_expired (now : Instant) (s : TimerService) : bool :=
  match grace_deadline s with Some deadline => deadline <=? now | None => false end.
End Service.
Arguments TimerService : clear implicits.

(** ** The agenda: what the service promises

    The pending entries in arming order. Arming a deadline for a process
    replaces the one it had. *)

Section Agenda.
Context {M : Type}.

Record Agenda := mkAgenda {
  agenda : list (WheelEntry M);
  agenda_seq : Z;
  agenda_grace : option Instant;
  agenda_last : option Instant;
}.

Inductive ServiceOp :=
  | ArmDeadline (p : Pid) (fire_at : Instant)
  | CancelDeadline (p : Pid)
  | ScheduleDeliver (fire_at : Instant) (target : Pid) (envelope : M)
  | Advance (now : Instant)
  | ArmGrace (deadline : Instant).

Definition is_promote (e : WheelEntry M) : bool :=
  match entry_kind e with Promote => true | Deliver _ => false end.

(** The deadline entries of [p]. *)
Definition deadline_of (p : Pid) (e : WheelEntry M) : bool := is_promote e && (entry_pid e =? p).

Definition free_of (p : Pid) (l : list (WheelEntry M)) : list (WheelEntry M) :=
  List.filter (fun e => negb (deadline_of p e)) l.

Definition agenda_step (a : Agenda) (op : ServiceOp) : Agenda * list (Due M) :=
  let s := agenda_seq a + 1 in
  match op with
  | ArmDeadline p f =>
      (mkAgenda (mkEntry f Promote p s :: free_of p (agenda a)) s (agenda_grace a)
         (agenda_last a), [])
  | CancelDeadline p =>
      (mkAgenda (free_of p (agenda a)) (agenda_seq a) (agenda_grace a) (agenda_last a), [])
  | ScheduleDeliver f p m =>
      (mkAgenda (mkEntry f (Deliver m) p s :: agenda a) s (agenda_grace a) (agenda_last a), [])
  | Advance now =>
      if match agenda_last a with Some last => now <=? last | None => false end then (a, [])
      else
        (mkAgenda (List.filter (fun e => negb (is_due now e)) (agenda a)) (agenda_seq a)
           (agenda_grace a) (Some now),
         map to_due (merge_sort entry_le (List.filter (is_due now) (agenda a))))
  | ArmGrace d =>
      (mkAgenda (agenda a) (agenda_seq a)
         (match agenda_grace a with None => Some d | g => g end) (agenda_last a), [])
  end.

Fixpoint agenda_run (a : Agenda) (ops : list ServiceOp) : list (list (Due M)) * Agenda :=
  match ops with
  | [] => ([], a)
  | op :: rest =>
      let (a', out) := agenda_step a op in
      let (outs, a'') := agenda_run a' rest in (out :: outs, a'')
  end.

Definition agenda_new : Agenda := mkAgenda [] 0 None None.
End Agenda.
Arguments Agenda : clear implicits.
Arguments ServiceOp : clear implicits.

Section ServiceRun.
Context {M W : Type} `{TQ : TimerQueue M W}.

Definition service_step (s : TimerService W) (op : ServiceOp M) :
    TimerService W * list (Due M) :=
  match op with
  | ArmDeadline p f => (arm_deadline p f s, [])
  | CancelDeadline p => (cancel_deadline p s, [])
  | ScheduleDeliver f p m => (schedule_deliver f p m s, [])
  | Advance now => let (due, s') := advance now s in (s', due)
  | ArmGrace d => (arm_grace d s, [])
  end.

Fixpoint service_run (s : TimerService W) (ops : list (ServiceOp M)) :
    list (list (Due M)) * TimerService W :=
  match ops with
  | [] => ([], s)
  | op :: rest =>
      let (s', out) := service_step s op in
      let (outs, s'') := service_run s' rest in (out :: outs, s'')
  end.

Context `{!TimerQueueLaws M W}.

(** The armed map is exactly the index of the pending deadlines. *)
Definition indexed (a : gmap Pid TimerToken) (l : list (WheelEntry M))
    (tok : TimerToken -> Prop) : Prop :=
  (forall e, e ∈ l -> is_promote e = true ->
     exists t, a !! entry_pid e = Some t /\ token_seq t = entry_seq e) /\
  (forall p t, a !! p = Some t ->
     tok t /\ exists e, e ∈ l /\ deadline_of p e = true /\ entry_seq e = token_seq t).

Definition service_refines (s : TimerService W) (a : Agenda M) : Prop :=
  tq_ok (default 0 (last_advance s)) (wheel s) /\
  Permutation (tq_pending (wheel s)) (agenda a) /\
  tq_issued (wheel s) = agenda_seq a /\
  grace_deadline s = agenda_grace a /\ last_advance s = agenda_last a /\
  indexed (armed s) (tq_pending (wheel s)) (tq_token (wheel s)).

Definition op_in_range (op : ServiceOp M) : bool :=
  match op with
  | ArmDeadline _ f | ScheduleDeliver f _ _ => 0 <=? f
  | Advance now => (0 <=? now) && (now <? 2 ^ 64)
  | CancelDeadline _ | ArmGrace _ => true
  end.

Lemma deadline_of_spec p (e : WheelEntry M) :
  deadline_of p e = true <-> is_promote e = true /\ entry_pid e = p.
Proof. unfold deadline_of. rewrite andb_true_iff, Z.eqb_eq. done. Qed.

(** Removing the armed token's entry removes exactly the process's deadline. *)
Lemma without_armed l a tok p t :
  NoDup (map entry_seq l) -> indexed a l tok -> a !! p = Some t ->
  without (token_seq t) l = free_of p l.
Proof.
  intros Hnd [HA HB] Ht. destruct (HB p t Ht) as (_ & e & He & Hd & Hs).
  apply deadline_of_spec in Hd as [Hpr Hpid].
  apply filter_ext_in. intros x Hx. apply list_elem_of_In in Hx. f_equal.
  apply eq_true_iff_eq. rewrite Z.eqb_eq, deadline_of_spec. split.
  - intros Heq. assert (x = e) as ->; [|done].
    apply (entry_seq_inj l); [done|done|done|congruence].
  - intros [Hxp Hxpid]. destruct (HA x Hx Hxp) as (t' & Ht' & Hs'). congruence.
Qed.

Lemma free_unarmed l a tok p : indexed a l tok -> a !! p = None -> free_of p l = l.
Proof.
  intros [HA _] Hn. apply filterb_all. intros x Hx.
  destruct (deadline_of p x) eqn:E; [|done]. apply deadline_of_spec in E as [Hpr <-].
  destruct (HA x Hx Hpr) as (t & Ht & _). congruence.
Qed.

Lemma indexed_deliver a l l' (tok tok' : TimerToken -> Prop) e :
  indexed a l tok -> is_promote e = false -> Permutation l' (e :: l) ->
  (forall t, tok t -> tok' t) -> indexed a l' tok'.
Proof.
  intros [HA HB] He Hp Htk. split.
  - intros x Hx. rewrite Hp in Hx. apply elem_of_cons in Hx as [->|Hx]; [congruence|auto].
  - intros p t Ht. destruct (HB p t Ht) as (Htok & x & Hx & Hd & Hs). split; [auto|].
    exists x. rewrite Hp. split; [by right|done].
Qed.

(** Dropping the deadline of [p] from queue and index. *)
Lemma indexed_cancel a l l' (tok tok' : TimerToken -> Prop) p :
  indexed a l tok -> Permutation l' (free_of p l) ->
  (forall t, tok t -> tok' t) -> indexed (delete p a) l' tok'.
Proof.
  intros [HA HB] Hp Htk. split.
  - intros x Hx Hpr. rewrite Hp in Hx. apply filterb_elem in Hx as [Hx Hd].
    destruct (HA x Hx Hpr) as (t & Ht & Hs). exists t. split; [|done].
    rewrite lookup_delete_ne; [done|]. intros ->.
    assert (deadline_of (entry_pid x) x = true) as E by (by apply deadline_of_spec).
    by rewrite E in Hd.
  - intros q t Ht. apply lookup_delete_Some in Ht as [Hne Ht].
    destruct (HB q t Ht) as (Htok & x & Hx & Hd & Hs). split; [auto|].
    exists x. split; [|done]. rewrite Hp. apply filterb_elem. split; [done|].
    destruct (deadline_of p x) eqn:E; [|done].
    apply deadline_of_spec in E as [_ E], Hd as [_ Hd]. congruence.
Qed.

(** Adding a fresh deadline for an unarmed process. *)
Lemma indexed_arm a l l' (tok tok' : TimerToken -> Prop) p e t :
  indexed a l tok -> a !! p = None -> deadline_of p e = true -> entry_seq e = token_seq t ->
  Permutation l' (e :: l) -> tok' t -> (forall t', tok t' -> tok' t') ->
  indexed (<[p := t]> a) l' tok'.
Proof.
  intros [HA HB] Hn Hd Hs Hp Ht Htk. pose proof Hd as Hd'. apply deadline_of_spec in Hd' as [Hpr Hpid].
  split.
  - intros x Hx Hxp. rewrite Hp in Hx. apply elem_of_cons in Hx as [->|Hx].
    + exists t. rewrite Hpid, lookup_insert_eq. done.
    + destruct (HA x Hx Hxp) as (t' & Ht' & Hs'). exists t'. split; [|done].
      rewrite lookup_insert_ne; [done|]. intros ->. congruence.
  - intros q t' Hq. apply lookup_insert_Some in Hq as [[-> ->]|[Hne Hq]].
    + split; [done|]. exists e. rewrite Hp. split; [by left|done].
    + destruct (HB q t' Hq) as (Htok & x & Hx & Hxd & Hxs). split; [auto|].
      exists x. rewrite Hp. split; [by right|done].
Qed.

(** Firing removes from the index the processes of the fired deadlines. *)
Lemma disarm_fired_lookup (due : list (Due M)) a p t :
  disarm_fired due a !! p = Some t <->
  a !! p = Some t /\ forall f, DuePromote p f ∉ due.
Proof.
  unfold disarm_fired. revert a. induction due as [|d due IH]; intros a; simpl.
  - split; [intros; split; [done|]|by intros [? _]]. intros f Hf. inversion Hf.
  - rewrite IH. setoid_rewrite not_elem_of_cons. destruct d as [m q|q f].
    + split; intros [H1 H2]; (split; [done|]); intros f; [split; [done|auto]|by apply H2].
    + rewrite lookup_delete_Some. split.
      * intros [[Hne H1] H2]. split; [done|]. intros f'. split; [congruence|auto].
      * intros [H1 H2]. split; [|intros f'; by apply H2]. split; [|done].
        intros ->. destruct (H2 f) as [Hf _]. done.
Qed.

Lemma indexed_fire a l l' (due : list (Due M)) (tok tok' : TimerToken -> Prop) now :
  NoDup (map entry_seq l) -> indexed a l tok ->
  (forall p f, DuePromote p f ∈ due <->
     exists e, e ∈ l /\ is_due now e = true /\ deadline_of p e = true /\ entry_fire_at e = f) ->
  Permutation l' (List.filter (fun e => negb (is_due now e)) l) ->
  (forall t, tok t -> tok' t) -> indexed (disarm_fired due a) l' tok'.
Proof.
  intros Hnd [HA HB] Hdue Hp Htk. split.
  - intros x Hx Hpr. rewrite Hp in Hx. apply filterb_elem in Hx as [Hx Hd].
    destruct (HA x Hx Hpr) as (t & Ht & Hs). exists t. split; [|done].
    apply disarm_fired_lookup. split; [done|]. intros f Hf.
    apply Hdue in Hf as (e & He & Hed & Hep & _). apply deadline_of_spec in Hep as [Hep Hpid].
    destruct (HA e He Hep) as (t' & Ht' & Hs').
    assert (e = x) as -> by (apply (entry_seq_inj l); try done; congruence).
    by rewrite Hed in Hd.
  - intros p t Ht. apply disarm_fired_lookup in Ht as [Ht Hno].
    destruct (HB p t Ht) as (Htok & e & He & Hd & Hs). split; [auto|]. exists e. split; [|done].
    rewrite Hp. apply filterb_elem. split; [done|].
    destruct (is_due now e) eqn:Ed; [|done]. exfalso. apply (Hno (entry_fire_at e)), Hdue. eauto.
Qed.

Lemma due_promote_iff now (l : list (WheelEntry M)) p f :
  DuePromote p f ∈ map to_due (merge_sort entry_le (List.filter (is_due now) l)) <->
  exists e, e ∈ l /\ is_due now e = true /\ deadline_of p e = true /\ entry_fire_at e = f.
Proof.
  rewrite list_elem_of_fmap. setoid_rewrite deadline_of_spec. split.
  - intros (e & Heq & He). rewrite merge_sort_Permutation, filterb_elem in He. exists e.
    unfold to_due, is_promote in *. destruct (entry_kind e); simplify_eq. tauto.
  - intros (e & He & Hd & [Hpr <-] & <-). exists e. rewrite merge_sort_Permutation, filterb_elem.
    unfold to_due, is_promote in *. by destruct (entry_kind e).
Qed.

Lemma arm_refines s a p f :
  service_refines s a -> 0 <= f -> agenda_seq a + 1 < 2 ^ 64 ->
  service_refines (arm_deadline p f s) (fst (agenda_step a (ArmDeadline p f))).
Proof.
  intros (Hok & Hp & Hs & Hg & Hl & Hi) Hf Hlt. unfold arm_deadline.
  destruct (tq_deadline_ok _ (wheel s) f p Hok Hf ltac:(lia))
    as (t & w & -> & Hok1 & Hp1 & Hs1 & Hts & Ht1 & Htk1).
  pose proof (tq_seq_unique _ _ Hok) as Hnd. destruct (armed s !! p) as [prev|] eqn:Ep.
  - destruct Hi as [HA HB]. destruct (HB p prev Ep) as (Hprev & _).
    pose proof (tq_token_issued _ _ _ Hok Hprev) as Hle.
    destruct (tq_cancel_ok _ w prev Hok1 (Htk1 _ Hprev)) as (Hok2 & Hp2 & Hs2 & Htk2).
    assert (Permutation (tq_pending (tq_cancel prev w))
              (mkEntry f Promote p (tq_issued (wheel s) + 1) :: free_of p (tq_pending (wheel s)))) as Hp3.
    { rewrite Hp2. unfold without. rewrite Hp1. simpl.
      destruct (Z.eqb_spec (tq_issued (wheel s) + 1) (token_seq prev)); [lia|]. simpl.
      f_equiv. by rewrite <- (without_armed _ _ _ _ _ Hnd (conj HA HB) Ep). }
    split; [done|]. cbn. split; [by rewrite Hp3, Hs; unfold free_of; rewrite Hp|].
    split; [lia|]. split; [done|]. split; [done|].
    rewrite <- insert_delete_eq.
    eapply (indexed_arm (delete p (armed s)) (free_of p (tq_pending (wheel s)))
              _ (tq_token (tq_cancel prev w))); try done.
    + eapply indexed_cancel; [exact (conj HA HB)|done|auto].
    + apply lookup_delete_eq.
    + unfold deadline_of. simpl. apply Z.eqb_refl.
    + auto.
    + auto.
  - split; [done|]. cbn. rewrite <- Hs. split.
    { unfold free_of. rewrite <- Hp, Hp1. fold (free_of p (tq_pending (wheel s))).
      by rewrite (free_unarmed _ _ _ _ Hi Ep). }
    split; [lia|]. split; [done|]. split; [done|].
    eapply indexed_arm; try done; [|auto]. unfold deadline_of. simpl. apply Z.eqb_refl.
Qed.

Lemma cancel_refines s a p :
  service_refines s a ->
  service_refines (cancel_deadline p s) (fst (agenda_step a (CancelDeadline p))).
Proof.
  intros (Hok & Hp & Hs & Hg & Hl & Hi). unfold cancel_deadline. cbn.
  pose proof (tq_seq_unique _ _ Hok) as Hnd. destruct (armed s !! p) as [t|] eqn:Ep.
  - pose proof Hi as [_ HB]. destruct (HB p t Ep) as (Ht & _).
    destruct (tq_cancel_ok _ (wheel s) t Hok Ht) as (Hok2 & Hp2 & Hs2 & Htk2).
    rewrite (without_armed _ _ _ _ _ Hnd Hi Ep) in Hp2.
    split; [done|]. cbn. split; [rewrite Hp2; unfold free_of; by rewrite Hp|].
    split; [lia|]. split; [done|]. split; [done|]. by eapply indexed_cancel.
  - split; [done|]. cbn. split; [|done]. unfold free_of. rewrite <- Hp.
    by rewrite <- (free_unarmed _ _ _ _ Hi Ep) at 1.
Qed.

Lemma advance_refines s a now :
  service_refines s a -> 0 <= now < 2 ^ 64 ->
  service_refines (snd (advance now s)) (fst (agenda_step a (Advance now))) /\
  fst (advance now s) = snd (agenda_step a (Advance now)).
Proof.
  intros (Hok & Hp & Hs & Hg & Hl & Hi) Hnow. unfold advance. cbn. rewrite <- Hl.
  destruct (match last_advance s with Some last => now <=? last | None => false end) eqn:Eg; [done|].
  destruct (tq_drain_ok _ (wheel s) now Hok) as (w & -> & Hok' & Hp' & Hs' & Htk).
  { destruct (last_advance s); simpl; [apply Z.leb_gt in Eg|]; lia. }
  { lia. }
  pose proof (tq_seq_unique _ _ Hok) as Hnd. cbn. split.
  - split; [done|]. cbn. split; [by rewrite Hp', Hp|]. split; [lia|]. split; [done|]. split; [done|].
    eapply indexed_fire; try done. intros p f. apply due_promote_iff.
  - f_equal. apply sort_unique; [by rewrite Hp|].
    rewrite (filter_partition (is_due now)), fmap_app in Hnd. by apply NoDup_app in Hnd as [? _].
Qed.

Lemma service_step_refines s a op :
  service_refines s a -> op_in_range op = true -> agenda_seq a + 1 < 2 ^ 64 ->
  service_refines (fst (service_step s op)) (fst (agenda_step a op)) /\
  snd (service_step s op) = snd (agenda_step a op) /\
  agenda_seq (fst (agenda_step a op)) <= agenda_seq a + 1.
Proof.
  intros HR Hop Hlt. destruct op as [p f|p|f p m|now|d]; simpl in Hop; bool_to_prop.
  - split; [by apply arm_refines|]. cbn. split; [done|lia].
  - split; [by apply cancel_refines|]. cbn. split; [done|lia].
  - destruct HR as (Hok & Hp & Hs & Hg & Hl & Hi). cbn. split; [|split; [done|lia]].
    destruct (tq_deliver_ok _ (wheel s) f p m Hok Hop ltac:(lia)) as (Hok' & Hp' & Hs' & Htk).
    split; [done|]. cbn. split; [by rewrite Hp', Hp, Hs|]. split; [lia|]. split; [done|].
    split; [done|]. eapply indexed_deliver; [exact Hi| |exact Hp'|exact Htk]. done.
  - destruct (advance_refines s a now HR ltac:(lia)) as [HR' Hout].
    cbn [service_step]. destruct (advance now s) as [due s']. split; [done|]. split; [done|].
    cbn. destruct (match agenda_last a with Some _ => _ | None => _ end); cbn; lia.
  - destruct HR as (Hok & Hp & Hs & Hg & Hl & Hi). cbn. split; [|split; [done|lia]].
    unfold arm_grace. rewrite Hg. destruct (agenda_grace a) eqn:E; (split; [done|]); cbn; by rewrite ?Hg, ?E.
Qed.

Lemma service_run_refines ops s a :
  service_refines s a -> forallb op_in_range ops = true ->
  agenda_seq a + Z.of_nat (length ops) < 2 ^ 64 ->
  fst (service_run s ops) = fst (agenda_run a ops) /\
  service_refines (snd (service_run s ops)) (snd (agenda_run a ops)).
Proof.
  revert s a. induction ops as [|op ops IH]; intros s a HR Hr Hlen; [done|].
  cbn [forallb] in Hr. apply andb_true_iff in Hr as [Hop Hr]. simpl length in Hlen.
  destruct (service_step_refines s a op HR Hop ltac:(lia)) as (HR' & Hout & Hseq).
  cbn [service_run agenda_run].
  destruct (service_step s op) as [s' out], (agenda_step a op) as [a' out']. simpl in *. subst out'.
  destruct (IH s' a' HR' Hr ltac:(lia)) as [Ho HRf].
  destruct (service_run s' ops), (agenda_run a' ops). simpl in *. by rewrite Ho.
Qed.

Lemma service_new_refines : service_refines service_new agenda_new.
Proof.
  destruct tq_new_ok as (Hok & Hp & Hs). split; [done|]. cbn. rewrite Hp, Hs.
  do 4 (split; [done|]). split; [intros e He; inversion He|].
  intros p t. by rewrite lookup_empty.
Qed.

(** Every obligation is announced no later than it is due. *)
Lemma next_fire_bound s a :
  service_refines s a ->
  (forall e, e ∈ agenda a -> exists t, next_fire s = Some t /\ t <= entry_fire_at e) /\
  (forall g, agenda_grace a = Some g -> exists t, next_fire s = Some t /\ t <= g).
Proof.
  intros (Hok & Hp & _ & Hg & _ & _). unfold next_fire. rewrite Hg. split.
  - intros e He. rewrite <- Hp in He. destruct (tq_soonest_ok _ _ _ Hok He) as (t & -> & Ht).
    destruct (agenda_grace a); eexists; (split; [done|]); lia.
  - intros g ->. destruct (tq_soonest (wheel s)); eexists; (split; [done|]); lia.
Qed.

(** The index has an entry for [p] exactly when one deadline of [p] is pending. *)
Lemma armed_count s a p :
  service_refines s a ->
  countb (deadline_of p) (tq_pending (wheel s)) = b2z (bool_decide (is_Some (armed s !! p))).
Proof.
  intros (Hok & _ & _ & _ & _ & [HA HB]). pose proof (tq_seq_unique _ _ Hok) as Hnd.
  destruct (armed s !! p) as [t|] eqn:Ep.
  - rewrite bool_decide_true by eauto. destruct (HB p t Ep) as (_ & e & He & Hd & Hs).
    apply list_elem_of_split in He as (l1 & l2 & He). rewrite He in *.
    assert (forall x, x ∈ l1 ++ l2 -> deadline_of p x = false) as Hno.
    { intros x Hx. destruct (deadline_of p x) eqn:E; [|done]. exfalso.
      apply deadline_of_spec in E as [Hxp <-].
      assert (x ∈ l1 ++ e :: l2) as Hx'.
      { apply elem_of_app in Hx as [?|?]; apply elem_of_app; [by left|right; by right]. }
      destruct (HA x Hx' Hxp) as (t' & Ht' & Hs').
      rewrite <- Permutation_middle in Hnd. simpl in Hnd. apply NoDup_cons in Hnd as [Hin _].
      apply Hin. replace (entry_seq e) with (entry_seq x) by congruence.
      by apply list_elem_of_fmap_2. }
    rewrite countb_app, countb_cons, Hd. apply countb_zero in Hno.
    rewrite countb_app in Hno. simpl. lia.
  - rewrite bool_decide_false; [|intros [t Ht]; congruence]. apply countb_zero.
    intros x Hx. destruct (deadline_of p x) eqn:E; [|done].
    apply deadline_of_spec in E as [Hxp <-]. destruct (HA x Hx Hxp) as (t' & Ht' & _). congruence.
Qed.
End ServiceRun.

(** C20: the timer service over the timing wheel is an agenda with one deadline per
    process. For every script of arming, disarming, delayed sends and advances,
    with instants in any order, [advance] hands back exactly the entries of the
    abstract agenda due at [now] in firing order: re-arming replaces, a cancelled
    deadline never fires, nothing fires twice, and a clock that does not move
    forward fires nothing. *)
Theorem timer_service_refines_agenda (M : Type) (ops : list (ServiceOp M))
    (Hrange : forallb op_in_range ops = true) (Hlen : Z.of_nat (length ops) < 2 ^ 64) :
  fst (service_run (service_new (W := TimerWheel M)) ops) = fst (agenda_run agenda_new ops).
Proof.
  apply (service_run_refines ops _ _ service_new_refines Hrange). simpl. lia.
Qed.

Definition sample_service : list (ServiceOp Z) :=
  [ ArmDeadline 1 5000000; ArmDeadline 2 6000000; ArmDeadline 1 9000000;
    ScheduleDeliver 4000000 3 77; Advance 7000000; CancelDeadline 1; ArmGrace 1;
    Advance 5000000; ArmDeadline 4 2000000; Advance 20000000 ].

Lemma timer_service_refines_agenda_witness :
  fst (service_run (service_new (W := TimerWheel Z)) sample_service) =
    fst (agenda_run agenda_new sample_service) /\
  fst (agenda_run agenda_new sample_service) =
    [ []; []; []; []; [DueDeliver 77 3; DuePromote 2 6000000]; []; []; []; [];
      [DuePromote 4 2000000] ].
Proof.
  split; [|vm_compute; reflexivity].
  apply (timer_service_refines_agenda Z sample_service); vm_compute; reflexivity.
Defined.

(** No gate or idle park built on [next_fire] oversleeps. After any script,
    whenever a deadline, a delayed send or the drain grace is pending, [next_fire]
    is an instant no later than it. *)
Theorem next_fire_never_late (M : Type) (ops : list (ServiceOp M))
    (Hrange : forallb op_in_range ops = true) (Hlen : Z.of_nat (length ops) < 2 ^ 64) :
  let s := snd (service_run (service_new (W := TimerWheel M)) ops) in
  (forall e, e ∈ entries (wheel s) -> exists t, next_fire s = Some t /\ t <= entry_fire_at e) /\
  (forall g, grace_deadline s = Some g -> exists t, next_fire s = Some t /\ t <= g).
Proof.
  destruct (service_run_refines ops _ _ service_new_refines Hrange ltac:(simpl; lia)) as [_ HR].
  cbv zeta. destruct (next_fire_bound _ _ HR) as [He Hg].
  destruct HR as (_ & Hp & _ & Hgr & _). split.
  - intros e Hin. apply He. by rewrite <- Hp.
  - intros g Hg'. apply Hg. by rewrite <- Hgr.
Qed.

Lemma next_fire_never_late_witness :
  exists t, next_fire (snd (service_run (service_new (W := TimerWheel Z)) sample_service)) = Some t /\ t <= 1.
Proof.
  apply (proj2 (next_fire_never_late Z sample_service eq_refl eq_refl) 1). vm_compute. reflexivity.
Defined.

(** A process has at most one pending deadline in the wheel, and the armed
    index knows it: after any script, the number of pending promotions of [p] is
    one when [p] is in the index and zero otherwise, so repeated parks never
    accumulate stale entries. *)
Theorem one_deadline_per_process (M : Type) (ops : list (ServiceOp M)) (p : Pid)
    (Hrange : forallb op_in_range ops = true) (Hlen : Z.of_nat (length ops) < 2 ^ 64) :
  let s := snd (service_run (service_new (W := TimerWheel M)) ops) in
  countb (deadline_of p) (entries (wheel s)) = b2z (bool_decide (is_Some (armed s !! p))).
Proof.
  destruct (service_run_refines ops _ _ service_new_refines Hrange ltac:(simpl; lia)) as [_ HR].
  exact (armed_count _ _ p HR).
Qed.

Lemma one_deadline_per_process_witness :
  countb (deadline_of 1) (entries (wheel
    (snd (service_run (service_new (W := TimerWheel Z)) [ArmDeadline 1 5; ArmDeadline 1 9])))) = 1.
Proof.
  apply (one_deadline_per_process Z [ArmDeadline 1 5; ArmDeadline 1 9]); vm_compute; reflexivity.
Defined.
