(* ===== verification/ProcessTable.v ===== *)
(** * The process table

    Models [koja-runtime-core/src/process_table.rs]: packed PIDs, slots, the
    registry, and every method of [ProcessTable] as a state-passing function in a
    small state monad. The arena is the vector of published slots (its chunked
    layout is [Arena.v]); the packed lifecycle word of each slot is the one of
    [Lifecycle.v], so every state change goes through its compare-and-swap edges.

    One call is one step of the model, as under the cooperative driver: lock
    acquisition, and the interleaving of the sections of two calls in the native
    runtime, are not part of it (the word itself is interleaved in
    [LifecycleConc.v]). [debug_assert!] is the release-build no-op. The scheduler
    trace is the log of [record] calls. A [BTreeMap]/[BTreeSet] index is a [gmap]
    of [gset]s, read in ascending order where the code iterates it. *)

From S2P Require Import Prelude Protocol Mailbox Lifecycle.
Local Open Scope Z_scope.

(** ** Packed PIDs *)

(** [((pid & 0xFFFF_FFFF) as u32, (pid >> 32) as u32)]. *)
Definition decode (pid : Pid) : Z * Z :=
  (Z.land pid (2 ^ 32 - 1), wrap 32 (Z.shiftr pid 32)).

(** [((generation as i64) << 32) | (index as i64)]: the shift drops no bit and
    may set the sign. *)
Definition encode (index gen : Z) : Pid :=
  Z.lor (swrap 64 (Z.shiftl gen 32)) index.

Definition slot_index (pid : Pid) : Z := Z.land pid (2 ^ 32 - 1).

(** ** Data *)

Definition DEFAULT_LOG_LEVEL : Z := 2.

Inductive TraceEvent :=
  | Delivered
  | Freed
  | KillDeferred
  | ParkRefused
  | Transition (from to : ProcessState)
  | Undeliverable.

Record HotState (M : Type) := mkHot {
  awaiting_reply : option Z;
  hot_crash_info : option CrashInfo;
  deadline : option Instant;
  exit_reason : ExitReason;
  mailbox : Mailbox M;
  waiting : WaitTarget;
}.
Arguments mkHot {M}.
Arguments awaiting_reply {M}.
Arguments hot_crash_info {M}.
Arguments deadline {M}.
Arguments exit_reason {M}.
Arguments mailbox {M}.
Arguments waiting {M}.

Definition hot_default {M} : HotState M :=
  mkHot None None None ExitNormal mailbox_default WaitReceive.

Record Slot (X M : Type) := mkSlot {
  slot_context : list Z;
  execution : option X;
  hot : HotState M;
  lifecycle : Z;
  log_busy : Z;
  slot_log_level : Z;
  slot_parent : Pid;
  slot_priority : Z;
  reductions : Z;
}.
Arguments mkSlot {X M}.
Arguments slot_context {X M}.
Arguments execution {X M}.
Arguments hot {X M}.
Arguments lifecycle {X M}.
Arguments log_busy {X M}.
Arguments slot_log_level {X M}.
Arguments slot_parent {X M}.
Arguments slot_priority {X M}.
Arguments reductions {X M}.

(** [Slot::new]. *)
Definition slot_new {X M} : Slot X M :=
  mkSlot [0; 0; 0; 0] None hot_default word_new 0 DEFAULT_LOG_LEVEL 0
    (priority_index priority_default) 0.

(** [Slot::priority]. *)
Definition get_priority {X M} (s : Slot X M) : Priority := priority_from_index (slot_priority s).

Record ExitNotice := mkExitNotice {
  notice_crash_info : option CrashInfo;
  notice_reason : ExitReason;
  notice_target : Pid;
  notice_watcher : Pid;
}.

Record MonitorEntry := mkMonitor {
  monitor_target : Pid;
  monitor_token : Z;
  monitor_watcher : Pid;
}.

Record CallWaiter := mkWaiter { callee : Pid; caller : Pid; waiter_token : Z }.

Record ScheduleCounters := mkCounters {
  kills_deferred : Z;
  parks_refused : Z;
  stale_claims_skipped : Z;
  stale_deadlines_skipped : Z;
  undeliverable_envelopes : Z;
  violations : Z;
}.

(** [AtomicCounters::new]. *)
Definition counters_new : ScheduleCounters := mkCounters 0 0 0 0 0 0.

Inductive CounterField :=
  | KillsDeferred | ParksRefused | StaleClaims | StaleDeadlines | UndeliverableEnvelopes
  | Violations.

(** The [count!] macro on the counter record. *)
Definition bump (f : CounterField) (c : ScheduleCounters) : ScheduleCounters :=
  match c with
  | mkCounters kd pr sc sd ue vi =>
      match f with
      | KillsDeferred => mkCounters (kd +u64 1) pr sc sd ue vi
      | ParksRefused => mkCounters kd (pr +u64 1) sc sd ue vi
      | StaleClaims => mkCounters kd pr (sc +u64 1) sd ue vi
      | StaleDeadlines => mkCounters kd pr sc (sd +u64 1) ue vi
      | UndeliverableEnvelopes => mkCounters kd pr sc sd (ue +u64 1) vi
      | Violations => mkCounters kd pr sc sd ue (vi +u64 1)
      end
  end.

Inductive Mode := ModeRunning | ModeDraining.

Record Registry := mkRegistry {
  call_waiters : list CallWaiter;
  children : gmap Pid (gset Pid);
  free : list Z;
  mode : Mode;
  monitors : list MonitorEntry;
  next_monitor_token : Z;
  pending_call_downs : list CallWaiter;
  pending_exit_notices : list ExitNotice;
  pending_kills : list Pid;
}.

Definition registry_new : Registry := mkRegistry [] ∅ [] ModeRunning [] 1 [] [] [].

Record Delivery (M : Type) := mkDelivery { leftover : option M; wake : option Wake }.
Arguments mkDelivery {M}.
Arguments leftover {M}.
Arguments wake {M}.

Record ReplyDelivery (M : Type) := mkReplyDelivery {
  delivered : bool;
  reply_leftover : option M;
  reply_wake : option Wake;
}.
Arguments mkReplyDelivery {M}.
Arguments delivered {M}.
Arguments reply_leftover {M}.
Arguments reply_wake {M}.

Inductive MailPark (M : Type) :=
  | MailReady (message : M)
  | CalleeDown
  | MailParked
  | MailRefused
  | MailStale (message : M).
Arguments MailReady {M}.
Arguments CalleeDown {M}.
Arguments MailParked {M}.
Arguments MailRefused {M}.
Arguments MailStale {M}.

Inductive IoPark := IoParked | IoRefused | IoSystemMail.

Record Reclaim (X M : Type) := mkReclaim {
  reclaim_execution : option X;
  reclaim_mailbox : Mailbox M;
}.
Arguments mkReclaim {X M}.
Arguments reclaim_execution {X M}.
Arguments reclaim_mailbox {X M}.

Inductive SwitchOutcome (X M : Type) :=
  | SwitchParked
  | SwitchReclaimed (r : Reclaim X M)
  | SwitchRequeue (w : Wake).
Arguments SwitchParked {X M}.
Arguments SwitchReclaimed {X M}.
Arguments SwitchRequeue {X M}.

Record Table (X M : Type) := mkTable {
  active : Z;
  alive : Z;
  arena : list (Slot X M);
  counters : ScheduleCounters;
  main_pid : Pid;
  registry : Registry;
  trace : list (Pid * TraceEvent);
}.
Arguments mkTable {X M}.
Arguments active {X M}.
Arguments alive {X M}.
Arguments arena {X M}.
Arguments counters {X M}.
Arguments main_pid {X M}.
Arguments registry {X M}.
Arguments trace {X M}.

Definition table_new {X M} : Table X M := mkTable 0 0 [] counters_new 0 registry_new [].

(** ** The state monad of the table's methods *)

Definition ST (X M A : Type) : Type := Table X M -> A * Table X M.

Definition st_ret {X M A} (a : A) : ST X M A := fun t => (a, t).
Definition st_bind {X M A B} (m : ST X M A) (k : A -> ST X M B) : ST X M B :=
  fun t => let (a, t') := m t in k a t'.

Notation "'let*' x ':=' m 'in' k" := (st_bind m (fun x => k))
  (at level 200, x name, m at level 100, k at level 200) : koja_scope.
Notation "m ';;*' k" := (st_bind m (fun _ => k))
  (at level 100, right associativity) : koja_scope.

Section Primitives.
Context {X M : Type}.
Implicit Types t : Table X M.

Definition set_active (v : Z) : ST X M unit := fun t =>
  (tt, mkTable v (alive t) (arena t) (counters t) (main_pid t) (registry t) (trace t)).
Definition set_alive (v : Z) : ST X M unit := fun t =>
  (tt, mkTable (active t) v (arena t) (counters t) (main_pid t) (registry t) (trace t)).
Definition set_main (v : Pid) : ST X M unit := fun t =>
  (tt, mkTable (active t) (alive t) (arena t) (counters t) v (registry t) (trace t)).

(** [self.active.fetch_add(1)] and the like. *)
Definition active_inc : ST X M unit := fun t => set_active (active t +u64 1) t.
Definition active_dec : ST X M unit := fun t => set_active (active t -u64 1) t.
Definition alive_inc : ST X M unit := fun t => set_alive (alive t +u64 1) t.
Definition alive_dec : ST X M unit := fun t => set_alive (alive t -u64 1) t.

Definition count (f : CounterField) : ST X M unit := fun t =>
  (tt, mkTable (active t) (alive t) (arena t) (bump f (counters t)) (main_pid t) (registry t)
         (trace t)).

Definition record (pid : Pid) (e : TraceEvent) : ST X M unit := fun t =>
  (tt, mkTable (active t) (alive t) (arena t) (counters t) (main_pid t) (registry t)
         (trace t ++ [(pid, e)])).

(** [with_registry]: the closure reads and rewrites the registry. *)
Definition with_registry {A} (f : Registry -> A * Registry) : ST X M A := fun t =>
  let (a, r) := f (registry t) in
  (a, mkTable (active t) (alive t) (arena t) (counters t) (main_pid t) r (trace t)).

Definition set_arena (a : list (Slot X M)) : ST X M unit := fun t =>
  (tt, mkTable (active t) (alive t) a (counters t) (main_pid t) (registry t) (trace t)).

(** A store to fields of slot [i], or to its hot state. *)
Definition upd_slot (i : nat) (f : Slot X M -> Slot X M) : ST X M unit := fun t =>
  set_arena (alter f i (arena t)) t.

Definition with_hot_of (f : HotState M -> HotState M) (s : Slot X M) : Slot X M :=
  mkSlot (slot_context s) (execution s) (f (hot s)) (lifecycle s) (log_busy s)
    (slot_log_level s) (slot_parent s) (slot_priority s) (reductions s).
Definition with_word (w : Z) (s : Slot X M) : Slot X M :=
  mkSlot (slot_context s) (execution s) (hot s) w (log_busy s)
    (slot_log_level s) (slot_parent s) (slot_priority s) (reductions s).
Definition with_exec (x : option X) (s : Slot X M) : Slot X M :=
  mkSlot (slot_context s) x (hot s) (lifecycle s) (log_busy s)
    (slot_log_level s) (slot_parent s) (slot_priority s) (reductions s).
Definition with_priority (p : Z) (s : Slot X M) : Slot X M :=
  mkSlot (slot_context s) (execution s) (hot s) (lifecycle s) (log_busy s)
    (slot_log_level s) (slot_parent s) p (reductions s).
Definition with_reductions (r : Z) (s : Slot X M) : Slot X M :=
  mkSlot (slot_context s) (execution s) (hot s) (lifecycle s) (log_busy s)
    (slot_log_level s) (slot_parent s) (slot_priority s) r.
Definition with_log_level (l : Z) (s : Slot X M) : Slot X M :=
  mkSlot (slot_context s) (execution s) (hot s) (lifecycle s) (log_busy s)
    l (slot_parent s) (slot_priority s) (reductions s).
Definition with_log_busy (b : Z) (s : Slot X M) : Slot X M :=
  mkSlot (slot_context s) (execution s) (hot s) (lifecycle s) b
    (slot_log_level s) (slot_parent s) (slot_priority s) (reductions s).
(** [Slot::set_context]: the four words are stored one by one. *)
Definition with_context (c : Context) (s : Slot X M) : Slot X M :=
  mkSlot (to_words c) (execution s) (hot s) (lifecycle s) (log_busy s)
    (slot_log_level s) (slot_parent s) (slot_priority s) (reductions s).
Definition with_parent (p : Pid) (s : Slot X M) : Slot X M :=
  mkSlot (slot_context s) (execution s) (hot s) (lifecycle s) (log_busy s)
    (slot_log_level s) p (slot_priority s) (reductions s).

Definition upd_hot (i : nat) (f : HotState M -> HotState M) : ST X M unit :=
  upd_slot i (with_hot_of f).

Definition set_deadline (d : option Instant) (h : HotState M) : HotState M :=
  mkHot (awaiting_reply h) (hot_crash_info h) d (exit_reason h) (mailbox h) (waiting h).
Definition set_waiting (w : WaitTarget) (h : HotState M) : HotState M :=
  mkHot (awaiting_reply h) (hot_crash_info h) (deadline h) (exit_reason h) (mailbox h) w.
Definition set_mailbox (mb : Mailbox M) (h : HotState M) : HotState M :=
  mkHot (awaiting_reply h) (hot_crash_info h) (deadline h) (exit_reason h) mb (waiting h).
Definition set_awaiting (a : option Z) (h : HotState M) : HotState M :=
  mkHot a (hot_crash_info h) (deadline h) (exit_reason h) (mailbox h) (waiting h).
Definition set_reason (r : ExitReason) (h : HotState M) : HotState M :=
  mkHot (awaiting_reply h) (hot_crash_info h) (deadline h) r (mailbox h) (waiting h).
Definition set_crash (c : option CrashInfo) (h : HotState M) : HotState M :=
  mkHot (awaiting_reply h) c (deadline h) (exit_reason h) (mailbox h) (waiting h).

(** [SlotArena::get] and [ProcessTable::slot]. *)
Definition arena_get (index : Z) t : option (Slot X M) := arena t !! Z.to_nat index.

Definition slot_of (pid : Pid) t : option (nat * Slot X M * Z) :=
  let (index, gen) := decode pid in
  match arena_get index t with
  | None => None
  | Some s => Some (Z.to_nat index, s, gen)
  end.

(** A compare-and-swap edge on slot [i]'s word. *)
Definition word_op {A} (dflt : A) (i : nat) (op : Z -> A * Z) : ST X M A := fun t =>
  match arena t !! i with
  | None => (dflt, t)
  | Some s => let (a, w) := op (lifecycle s) in (a, snd (upd_slot i (with_word w) t))
  end.

(** [with_hot]: runs [f] on the slot when its generation is the PID's. *)
Definition with_hot {A} (pid : Pid) (f : nat -> Slot X M -> ST X M A) : ST X M (option A) :=
  fun t =>
  match slot_of pid t with
  | None => (None, t)
  | Some (i, s, gen) =>
      if negb (generation (load (lifecycle s)) =? gen) then (None, t)
      else let (a, t') := f i s t in (Some a, t')
  end.

(** [SlotArena::grow]. *)
Definition grow : ST X M Z := fun t =>
  (wrap 32 (Z.of_nat (length (arena t))), snd (set_arena (arena t ++ [slot_new]) t)).
End Primitives.

(** ** The methods *)

Section Methods.
Context {X M : Type} `{Message M}.
Implicit Types t : Table X M.

Definition is_alive (pid : Pid) t : bool :=
  match slot_of pid t with
  | None => false
  | Some (_, s, gen) => word_alive (load (lifecycle s)) gen
  end.

Definition has_system_mail (pid : Pid) : ST X M bool :=
  let* r := with_hot pid (fun _ s => st_ret (has_system (mailbox (hot s)))) in
  st_ret (default false r).

Definition process_count t : Z := alive t.

Definition slot_state (s : Slot X M) : option ProcessState := state (load (lifecycle s)).

Definition process_count_in (st : ProcessState) t : Z :=
  countb (fun s => bool_decide (slot_state s = Some st)) (arena t).

Definition process_state (pid : Pid) t : option ProcessState :=
  match slot_of pid t with
  | None => None
  | Some (_, s, gen) =>
      if word_alive (load (lifecycle s)) gen then slot_state s else None
  end.

Definition mailbox_depth (pid : Pid) : ST X M (option Z) :=
  let* r := with_hot pid (fun _ s =>
    st_ret (if word_alive (load (lifecycle s)) (snd (decode pid))
            then Some (depth (mailbox (hot s))) else None)) in
  st_ret (default None r).

Definition set_priority (pid : Pid) (p : Priority) : ST X M unit := fun t =>
  match slot_of pid t with
  | Some (i, s, gen) =>
      if generation (load (lifecycle s)) =? gen
      then upd_slot i (with_priority (priority_index p)) t else (tt, t)
  | None => (tt, t)
  end.

(** [with_execution]: the [unsafe] access of the claim holder. *)
Definition with_execution {A} (pid : Pid) (f : X -> A * X) : ST X M (option A) := fun t =>
  match slot_of pid t with
  | None => (None, t)
  | Some (i, s, gen) =>
      if negb (generation (load (lifecycle s)) =? gen) then (None, t)
      else
        match execution s with
        | None => (None, t)
        | Some x => let (a, x') := f x in (Some a, snd (upd_slot i (with_exec (Some x')) t))
        end
  end.

Definition insert_child (parent pid : Pid) (c : gmap Pid (gset Pid)) : gmap Pid (gset Pid) :=
  <[parent := {[pid]} ∪ default ∅ (c !! parent)]> c.

Definition set_children (c : gmap Pid (gset Pid)) (r : Registry) : Registry :=
  mkRegistry (call_waiters r) c (free r) (mode r) (monitors r) (next_monitor_token r)
    (pending_call_downs r) (pending_exit_notices r) (pending_kills r).
Definition set_free (l : list Z) (r : Registry) : Registry :=
  mkRegistry (call_waiters r) (children r) l (mode r) (monitors r) (next_monitor_token r)
    (pending_call_downs r) (pending_exit_notices r) (pending_kills r).

(** [registry.free.pop().unwrap_or_else(|| self.arena.grow())]. *)
Definition take_index : ST X M Z :=
  let* popped := with_registry (fun r =>
    match vec_pop (free r) with
    | Some (i, rest) => (Some i, set_free rest r)
    | None => (None, r)
    end) in
  match popped with Some i => st_ret i | None => grow end.

(** The stores that dress slot [i] for [pid], up to [occupy]. *)
Definition dress_slot (i : nat) (gen : Z) (parent : option Pid) (inherited : Context)
    (level : Z) (x : X) : ST X M unit :=
  upd_slot i (fun s =>
    let s := with_parent (default 0 parent) s in
    let s := with_context inherited s in
    let s := with_log_level level s in
    let s := with_log_busy 0 s in
    let s := with_priority (priority_index priority_default) s in
    let s := with_exec (Some x) s in
    with_word (occupy gen (lifecycle s)) s).

Definition spawn (x : X) (parent : option Pid) : ST X M (Pid + X) := fun t =>
  if match parent with Some p => negb (is_alive p t) | None => false end then (inr x, t)
  else
    (let* index := take_index in
     fun t =>
       let i := Z.to_nat index in
       let word := match arena t !! i with Some s => lifecycle s | None => word_new end in
       let gen := Z.max (generation (load word)) 1 in
       let pid := encode index gen in
       let parent_slot := match parent with Some p => slot_of p t | None => None end in
       let inherited :=
         match parent_slot with Some (_, s, _) => from_words (slot_context s) | None => ZERO end in
       let level :=
         match parent_slot with Some (_, s, _) => slot_log_level s | None => DEFAULT_LOG_LEVEL end in
       (match parent with
        | Some p => with_registry (fun r => (tt, set_children (insert_child p pid (children r)) r))
        | None => st_ret tt
        end ;;*
        dress_slot i gen parent inherited level x ;;*
        alive_inc ;;*
        (fun t => if main_pid t =? 0 then set_main pid t else (tt, t)) ;;*
        st_ret (inl pid)) t) t.

Definition try_claim (pid : Pid) : ST X M bool := fun t =>
  match slot_of pid t with
  | None => (count StaleClaims ;;* st_ret false) t
  | Some (i, s, gen) =>
      let from := slot_state s in
      (let* ok := word_op false i (Lifecycle.try_claim gen) in
       if negb ok then count StaleClaims ;;* st_ret false
       else
         upd_slot i (fun s => with_reductions (budget (get_priority s)) s) ;;*
         active_inc ;;*
         record pid (Transition (default Runnable from) Running) ;;*
         st_ret true) t
  end.

Definition reductions_left (pid : Pid) t : Z :=
  match slot_of pid t with
  | Some (_, s, gen) => if generation (load (lifecycle s)) =? gen then reductions s else 0
  | None => 0
  end.

Definition note_refused_park (pid : Pid) : ST X M unit :=
  count ParksRefused ;;* record pid ParkRefused.

Definition park_edge (pid : Pid) (i : nat) (to : ProcessState) : ST X M bool := fun t =>
  let gen := snd (decode pid) in
  match arena t !! i with
  | None => (false, t)
  | Some s =>
      if negb (word_alive (load (lifecycle s)) gen)
      then (note_refused_park pid ;;* st_ret false) t
      else
        (let* ok := word_op false i (try_edge gen Running to) in
         if negb ok then count Violations ;;* st_ret false
         else record pid (Transition Running to) ;;* st_ret true) t
  end.

(** The [unwrap_or_else] of the park methods: a stale PID is a refused park. *)
Definition or_refused {A} (pid : Pid) (refused : A) (r : option A) : ST X M A :=
  match r with
  | Some a => st_ret a
  | None => note_refused_park pid ;;* st_ret refused
  end.

Definition try_park (pid : Pid) (target : WaitTarget) (dl : option Instant) : ST X M bool :=
  let* r := with_hot pid (fun i _ =>
    let* ok := park_edge pid i Blocked in
    if negb ok then st_ret false
    else
      upd_hot i (fun h => set_waiting target (set_deadline dl h)) ;;*
      active_dec ;;*
      st_ret true) in
  or_refused pid false r.

Definition try_park_io (pid : Pid) (dl : option Instant) : ST X M IoPark :=
  let* r := with_hot pid (fun i s =>
    if has_system (mailbox (hot s)) then st_ret IoSystemMail
    else
      let* ok := park_edge pid i WaitingIO in
      if ok then upd_hot i (set_deadline dl) ;;* st_ret IoParked
      else st_ret IoRefused) in
  or_refused pid IoRefused r.

Definition pop_received (pid : Pid) : ST X M (option M) :=
  let* r := with_hot pid (fun i s =>
    let (m, mb) := Mailbox.pop_received (mailbox (hot s)) in
    upd_hot i (set_mailbox mb) ;;* st_ret m) in
  st_ret (default None r).

Definition take_reply (pid : Pid) : ST X M (option M) :=
  let* r := with_hot pid (fun i s =>
    let (m, mb) := Mailbox.take_reply (mailbox (hot s)) in
    upd_hot i (set_mailbox mb) ;;* st_ret m) in
  st_ret (default None r).

Definition receive_or_park (pid : Pid) (dl : option Instant) : ST X M (MailPark M) :=
  let* r := with_hot pid (fun i s =>
    let (m, mb) := Mailbox.pop_received (mailbox (hot s)) in
    upd_hot i (set_mailbox mb) ;;*
    match m with
    | Some message => st_ret (MailReady message)
    | None =>
        let* ok := park_edge pid i Blocked in
        if negb ok then st_ret MailRefused
        else
          upd_hot i (fun h => set_waiting WaitReceive (set_deadline dl h)) ;;*
          active_dec ;;*
          st_ret MailParked
    end) in
  or_refused pid MailRefused r.

Definition set_call_waiters (l : list CallWaiter) (r : Registry) : Registry :=
  mkRegistry l (children r) (free r) (mode r) (monitors r) (next_monitor_token r)
    (pending_call_downs r) (pending_exit_notices r) (pending_kills r).

Definition ensure_call_waiter (cr ce : Pid) (token : Z) : ST X M unit := fun t =>
  with_registry (fun r =>
    let registered :=
      existsb (fun w => (caller w =? cr) && (waiter_token w =? token)) (call_waiters r) in
    (tt,
     if negb registered && is_alive ce t && is_alive cr t
     then set_call_waiters (call_waiters r ++ [mkWaiter ce cr token]) r else r)) t.

Definition evict_call_waiter (cr : Pid) : ST X M unit :=
  with_registry (fun r =>
    (tt, set_call_waiters (List.filter (fun w => negb (caller w =? cr)) (call_waiters r)) r)).

Definition take_reply_or_park (pid : Pid) (token : Z) (dl : option Instant) (ce : Pid)
    : ST X M (MailPark M) :=
  ensure_call_waiter pid ce token ;;*
  let* r := with_hot pid (fun i s =>
    let (m, mb) := Mailbox.take_reply (mailbox (hot s)) in
    upd_hot i (set_mailbox mb) ;;*
    match m with
    | Some r =>
        if reply_token r =? token
        then upd_hot i (fun h => set_deadline None (set_awaiting None h)) ;;* st_ret (MailReady r)
        else st_ret (MailStale r)
    | None => fun t =>
        (if negb (is_alive ce t)
         then upd_hot i (fun h => set_deadline None (set_awaiting None h)) ;;* st_ret CalleeDown
         else
           let* ok := park_edge pid i Blocked in
           if negb ok then st_ret MailRefused
           else
             upd_hot i (fun h => set_waiting WaitReply (set_deadline dl h)) ;;*
             active_dec ;;*
             st_ret MailParked) t
    end) in
  let* park := or_refused pid MailRefused r in
  match park with
  | MailReady _ | CalleeDown => evict_call_waiter pid
  | _ => st_ret tt
  end ;;*
  st_ret park.

Definition upd_hot_of (pid : Pid) (f : HotState M -> HotState M) : ST X M unit :=
  with_hot pid (fun i _ => upd_hot i f) ;;* st_ret tt.

Definition clear_deadline (pid : Pid) : ST X M unit := upd_hot_of pid (set_deadline None).

Definition set_awaiting_reply (pid : Pid) (token : Z) : ST X M unit :=
  upd_hot_of pid (set_awaiting (Some token)).

Definition clear_awaiting_reply (pid : Pid) : ST X M unit :=
  upd_hot_of pid (set_awaiting None) ;;* evict_call_waiter pid.

Definition is_awaiting_reply (pid : Pid) (token : Z) : ST X M bool :=
  let* r := with_hot pid (fun _ s =>
    st_ret (word_alive (load (lifecycle s)) (snd (decode pid)) &&
            bool_decide (awaiting_reply (hot s) = Some token))) in
  st_ret (default false r).

Definition set_exit_reason (pid : Pid) (reason : ExitReason) : ST X M unit :=
  upd_hot_of pid (set_reason reason).

Definition set_crash_info (pid : Pid) (c : CrashInfo) : ST X M unit :=
  upd_hot_of pid (set_crash (Some c)).

Definition crash_info (pid : Pid) : ST X M (option CrashInfo) :=
  let* r := with_hot pid (fun _ s => st_ret (hot_crash_info (hot s))) in
  st_ret (default None r).

(** The slot of [pid] when its generation still matches. *)
Definition live_slot (pid : Pid) t : option (nat * Slot X M) :=
  match slot_of pid t with
  | Some (i, s, gen) => if generation (load (lifecycle s)) =? gen then Some (i, s) else None
  | None => None
  end.

Definition context (pid : Pid) t : Context :=
  match live_slot pid t with Some (_, s) => from_words (slot_context s) | None => ZERO end.

Definition set_context (pid : Pid) (c : Context) : ST X M unit := fun t =>
  match live_slot pid t with Some (i, _) => upd_slot i (with_context c) t | None => (tt, t) end.

Definition log_level (pid : Pid) t : Z :=
  match live_slot pid t with Some (_, s) => slot_log_level s | None => DEFAULT_LOG_LEVEL end.

Definition set_log_level (pid : Pid) (level : Z) : ST X M unit := fun t =>
  match live_slot pid t with Some (i, _) => upd_slot i (with_log_level level) t | None => (tt, t) end.

Definition log_enter (pid : Pid) : ST X M bool := fun t =>
  match live_slot pid t with
  | Some (i, s) => (log_busy s =? 0, snd (upd_slot i (with_log_busy 1) t))
  | None => (false, t)
  end.

Definition log_leave (pid : Pid) : ST X M unit := fun t =>
  match live_slot pid t with Some (i, _) => upd_slot i (with_log_busy 0) t | None => (tt, t) end.

Definition parent (pid : Pid) t : option Pid :=
  match live_slot pid t with
  | Some (_, s) => if slot_parent s =? 0 then None else Some (slot_parent s)
  | None => None
  end.

Definition wake_edge (pid : Pid) (i : nat) (from : ProcessState) : ST X M (option Wake) :=
  let gen := snd (decode pid) in
  let* ok := word_op false i (try_edge gen from Runnable) in
  if negb ok then st_ret None
  else
    (if bool_decide (from = WaitingIO) then active_dec else st_ret tt) ;;*
    record pid (Transition from Runnable) ;;*
    (fun t =>
       (Some (mkWake pid (match arena t !! i with
                          | Some s => get_priority s
                          | None => priority_default
                          end)), t)).

(** The part of [deliver] and [deliver_reply] under the slot hold. *)
Definition deliver_locked (pid : Pid) (i : nat) (s : Slot X M) (message : M)
    : ST X M (Delivery M) :=
  let target := target_of message in
  let is_system := bool_decide (msg_tag message = TagLifecycle) in
  let wake_from :=
    match slot_state s with
    | Some Blocked => if bool_decide (waiting (hot s) = target) then Some Blocked else None
    | Some WaitingIO => if is_system then Some WaitingIO else None
    | _ => None
    end in
  let (displaced, mb) := Mailbox.push (mailbox (hot s)) message in
  upd_hot i (set_mailbox mb) ;;*
  record pid Delivered ;;*
  let* w := match wake_from with Some from => wake_edge pid i from | None => st_ret None end in
  st_ret (mkDelivery displaced w).

Definition deliver (pid : Pid) (message : M) : ST X M (Delivery M) := fun t =>
  let bounce :=
    (count UndeliverableEnvelopes ;;*
     record pid Undeliverable ;;*
     st_ret (mkDelivery (Some message) None)) t in
  match slot_of pid t with
  | Some (i, s, gen) =>
      if word_alive (load (lifecycle s)) gen then deliver_locked pid i s message t else bounce
  | None => bounce
  end.

Definition deliver_reply (pid : Pid) (token : Z) (message : M) : ST X M (ReplyDelivery M) :=
  fun t =>
  let expired := (mkReplyDelivery false (Some message) None, t) in
  match slot_of pid t with
  | Some (i, s, gen) =>
      if word_alive (load (lifecycle s)) gen &&
         bool_decide (awaiting_reply (hot s) = Some token)
      then
        let (d, t') := deliver_locked pid i s message t in
        (mkReplyDelivery true (leftover d) (wake d), t')
      else expired
  | None => expired
  end.

Definition promote_expired (pid : Pid) (fire_at : Instant) : ST X M (option Wake) :=
  let* r := with_hot pid (fun i s =>
    let word := load (lifecycle s) in
    match state word with
    | Some ((Blocked | WaitingIO) as parked) =>
        if negb ((generation word =? snd (decode pid)) &&
                 bool_decide (deadline (hot s) = Some fire_at))
        then st_ret None
        else upd_hot i (set_deadline None) ;;* wake_edge pid i parked
    | _ => st_ret None
    end) in
  match default None r with
  | None => count StaleDeadlines ;;* st_ret None
  | Some w => st_ret (Some w)
  end.

Definition promote_io_waiter (pid : Pid) : ST X M (option Wake) :=
  let* r := with_hot pid (fun i s =>
    let word := load (lifecycle s) in
    if negb (generation word =? snd (decode pid)) ||
       negb (bool_decide (state word = Some WaitingIO))
    then st_ret None
    else upd_hot i (set_deadline None) ;;* wake_edge pid i WaitingIO) in
  st_ret (default None r).

Definition yield_running (pid : Pid) : ST X M unit := fun t =>
  match slot_of pid t with
  | None => (tt, t)
  | Some (i, _, gen) =>
      (let* ok := word_op false i (try_edge gen Running Runnable) in
       if ok then active_dec ;;* record pid (Transition Running Runnable)
       else st_ret tt) t
  end.

Definition push_free (index : Z) : ST X M unit :=
  with_registry (fun r => (tt, set_free (free r ++ [index]) r)).

Definition reclaim_locked (pid : Pid) (i : nat) : ST X M (Reclaim X M) := fun t =>
  match arena t !! i with
  | None => (mkReclaim None mailbox_default, t)
  | Some s =>
      (upd_slot i (fun s =>
         let s := with_exec None s in
         let s := with_hot_of (fun _ => hot_default) s in
         with_word (snd (vacate (lifecycle s))) s) ;;*
       record pid Freed ;;*
       st_ret (mkReclaim (execution s) (mailbox (hot s)))) t
  end.

Definition reclaim (pid : Pid) (i : nat) : ST X M (Reclaim X M) :=
  let* r := reclaim_locked pid i in
  push_free (fst (decode pid)) ;;*
  st_ret r.

Definition after_switch (pid : Pid) : ST X M (SwitchOutcome X M) := fun t =>
  match slot_of pid t with
  | None => (SwitchParked, t)
  | Some (i, s, gen) =>
      (let* st := word_op None i (release gen) in
       match st with
       | Some (Created | Runnable) => st_ret (SwitchRequeue (mkWake pid (get_priority s)))
       | Some Dead => let* r := reclaim pid i in st_ret (SwitchReclaimed r)
       | _ => st_ret SwitchParked
       end) t
  end.

(** [registry.children.remove(&pid)] then the pruning of the parent's entry. *)
Definition remove_child (parent pid : Pid) (c : gmap Pid (gset Pid)) : gmap Pid (gset Pid) :=
  match c !! parent with
  | None => c
  | Some siblings =>
      let siblings := siblings ∖ {[pid]} in
      if bool_decide (siblings = ∅) then delete parent c else <[parent := siblings]> c
  end.

(** Ascending order, as a [BTreeSet] iterates. *)
Definition ascending (s : gset Pid) : list Pid := merge_sort Z.le (elements s).

Definition notify_exit (pid parent : Pid) (reason : ExitReason) (ci : option CrashInfo)
    (r : Registry) : Registry :=
  let watchers :=
    map monitor_watcher (List.filter (fun e => monitor_target e =? pid) (monitors r)) in
  let monitors' :=
    List.filter (fun e => negb (monitor_target e =? pid) && negb (monitor_watcher e =? pid))
      (monitors r) in
  let notices := map (fun watcher => mkExitNotice ci reason pid watcher) watchers in
  let call_downs :=
    List.filter (fun w => (callee w =? pid) && negb (caller w =? pid)) (call_waiters r) in
  let call_waiters' :=
    List.filter (fun w => negb (callee w =? pid) && negb (caller w =? pid)) (call_waiters r) in
  let staged := match children r !! pid with Some c => ascending c | None => [] end in
  mkRegistry call_waiters' (remove_child parent pid (delete pid (children r))) (free r) (mode r)
    monitors' (next_monitor_token r) (pending_call_downs r ++ call_downs)
    (pending_exit_notices r ++ notices) (pending_kills r ++ staged).

Definition death_edge (pid : Pid) (forced : option ExitReason)
    : ST X M (option (option (Reclaim X M))) :=
  let gen := snd (decode pid) in
  let* staged := with_hot pid (fun i s =>
    let* prior := word_op None i (try_kill gen) in
    match prior with
    | None => st_ret None
    | Some prior =>
        match forced with Some r => upd_hot i (set_reason r) | None => st_ret tt end ;;*
        alive_dec ;;*
        match state prior with
        | Some (Running | WaitingIO) => active_dec
        | _ => st_ret tt
        end ;;*
        record pid (Transition (default Runnable (state prior)) Dead) ;;*
        let reason := default (exit_reason (hot s)) forced in
        let ci := hot_crash_info (hot s) in
        let par := slot_parent s in
        let* rc :=
          if on_cpu prior
          then count KillsDeferred ;;* record pid KillDeferred ;;* st_ret None
          else let* r := reclaim_locked pid i in st_ret (Some r) in
        st_ret (Some (reason, ci, par, rc))
    end) in
  match default None staged with
  | None => st_ret None
  | Some (reason, ci, par, rc) =>
      with_registry (fun r => (tt, notify_exit pid par reason ci r)) ;;*
      match rc with Some _ => push_free (fst (decode pid)) | None => st_ret tt end ;;*
      st_ret (Some rc)
  end.

Definition kill (pid : Pid) : ST X M (option (Reclaim X M)) :=
  let* r := death_edge pid (Some ExitKilled) in st_ret (default None r).

Definition mark_dead_if_alive (pid : Pid) : ST X M bool :=
  let* r := death_edge pid None in st_ret (is_some r).

Definition take_call_downs : ST X M (list CallWaiter) :=
  with_registry (fun r =>
    (pending_call_downs r,
     mkRegistry (call_waiters r) (children r) (free r) (mode r) (monitors r)
       (next_monitor_token r) [] (pending_exit_notices r) (pending_kills r))).

Definition promote_call_waiter (cr : Pid) (token : Z) : ST X M (option Wake) :=
  let* r := with_hot cr (fun i s =>
    let word := load (lifecycle s) in
    let still_waiting :=
      (generation word =? snd (decode cr)) && bool_decide (state word = Some Blocked) &&
      bool_decide (waiting (hot s) = WaitReply) &&
      bool_decide (awaiting_reply (hot s) = Some token) in
    if negb still_waiting then st_ret None
    else upd_hot i (set_deadline None) ;;* wake_edge cr i Blocked) in
  st_ret (default None r).

Definition push_notice (n : ExitNotice) : ST X M unit :=
  with_registry (fun r =>
    (tt, mkRegistry (call_waiters r) (children r) (free r) (mode r) (monitors r)
           (next_monitor_token r) (pending_call_downs r) (pending_exit_notices r ++ [n])
           (pending_kills r))).

Definition monitor (watcher target : Pid) : ST X M Z := fun t =>
  let target_alive := is_alive target t in
  (let* token := with_registry (fun r =>
     let token := next_monitor_token r in
     (token,
      mkRegistry (call_waiters r) (children r) (free r) (mode r)
        (monitors r ++ if target_alive then [mkMonitor target token watcher] else [])
        (swrap 64 (token + 1)) (pending_call_downs r) (pending_exit_notices r)
        (pending_kills r))) in
   if target_alive then st_ret token
   else
     let* snapshot := with_hot target (fun _ s =>
       let word := load (lifecycle s) in
       st_ret (if (generation word =? snd (decode target)) &&
                  bool_decide (state word = Some Dead)
               then Some (exit_reason (hot s), hot_crash_info (hot s)) else None)) in
     let rc := default (ExitNormal, None) (default None snapshot) in
     push_notice (mkExitNotice (snd rc) (fst rc) target watcher) ;;*
     st_ret token) t.

Definition demonitor (token : Z) : ST X M unit :=
  with_registry (fun r =>
    (tt, mkRegistry (call_waiters r) (children r) (free r) (mode r)
           (List.filter (fun e => negb (monitor_token e =? token)) (monitors r))
           (next_monitor_token r) (pending_call_downs r) (pending_exit_notices r)
           (pending_kills r))).

Definition take_exit_notices : ST X M (list ExitNotice) :=
  with_registry (fun r =>
    (pending_exit_notices r,
     mkRegistry (call_waiters r) (children r) (free r) (mode r) (monitors r)
       (next_monitor_token r) (pending_call_downs r) [] (pending_kills r))).

Definition take_pending_kills : ST X M (list Pid) :=
  with_registry (fun r =>
    (pending_kills r,
     mkRegistry (call_waiters r) (children r) (free r) (mode r) (monitors r)
       (next_monitor_token r) (pending_call_downs r) (pending_exit_notices r) [])).

Definition any_active t : bool := negb (active t =? 0).

Definition should_shutdown t : bool :=
  if alive t =? 0 then true
  else negb (main_pid t =? 0) && negb (is_alive (main_pid t) t).

Definition enter_draining : ST X M bool :=
  with_registry (fun r =>
    match mode r with
    | ModeDraining => (false, r)
    | ModeRunning =>
        (true, mkRegistry (call_waiters r) (children r) (free r) ModeDraining (monitors r)
                 (next_monitor_token r) (pending_call_downs r) (pending_exit_notices r)
                 (pending_kills r))
    end).

Definition is_draining t : bool :=
  match mode (registry t) with ModeDraining => true | ModeRunning => false end.

(** [live_pids]: the packed PID of every slot whose state is not [Dead]. *)
Definition live_pid (i : nat) (s : Slot X M) : option Pid :=
  match slot_state s with
  | Some st => if bool_decide (st = Dead) then None
               else Some (encode (Z.of_nat i) (generation (load (lifecycle s))))
  | None => None
  end.

Definition live_pids t : list Pid := concat (map option_list (imap live_pid (arena t))).

Fixpoint kill_each (pids : list Pid) : ST X M (list (Reclaim X M)) :=
  match pids with
  | [] => st_ret []
  | pid :: rest =>
      let* r := kill pid in
      let* rs := kill_each rest in
      st_ret (option_list r ++ rs)
  end.

Definition kill_all : ST X M (list (Reclaim X M)) := fun t => kill_each (live_pids t) t.
End Methods.
