(* ===== verification/Arena.v ===== *)
(** * Packed PIDs and the chunked slot arena

    The packing of [process_table.rs] ([encode], [decode], [slot_index]) is a
    bijection between 64-bit handles and (index, generation) pairs. The arena
    ([SlotArena], [chunk_position], [chunk_len]) stores slots in chunks of doubling
    size that never move; [arena_refines_vector] shows it behaves as the flat
    vector the table's model uses. Chunk pointers are [option]s of chunk contents;
    the atomics' publication order is not modelled. *)

From S2P Require Import Prelude Protocol ProcessTable.
Local Open Scope Z_scope.

(** ** Packed PIDs *)

Lemma encode_sum index gen :
  0 <= index < 2 ^ 32 -> 0 <= gen < 2 ^ 32 -> encode index gen = swrap 32 gen * 2 ^ 32 + index.
Proof.
  intros Hi Hg. unfold encode.
  assert (swrap 64 (Z.shiftl gen 32) = Z.shiftl (swrap 32 gen) 32) as ->.
  { rewrite !Z.shiftl_mul_pow2 by lia. unfold swrap. rewrite !wrap_small by lia.
    destruct (Z.ltb_spec (gen * 2 ^ 32) (2 ^ (64 - 1))), (Z.ltb_spec gen (2 ^ (32 - 1))); lia. }
  by apply lor_disjoint_add.
Qed.

Lemma decode_encode index gen :
  0 <= index < 2 ^ 32 -> 0 <= gen < 2 ^ 32 -> decode (encode index gen) = (index, gen).
Proof.
  intros Hi Hg. rewrite encode_sum by done. unfold decode.
  change (2 ^ 32 - 1) with (Z.ones 32). rewrite Z.land_ones, Z.shiftr_div_pow2 by lia.
  rewrite Z.add_comm, Z.mod_add, Z.mod_small, Z.div_add, Z.div_small by lia.
  f_equal. rewrite Z.add_0_l, wrap_swrap by lia. by apply wrap_small.
Qed.

Lemma decode_range pid : 0 <= fst (decode pid) < 2 ^ 32 /\ 0 <= snd (decode pid) < 2 ^ 32.
Proof.
  unfold decode. cbn [fst snd]. split; [|apply wrap_range; lia].
  change (2 ^ 32 - 1) with (Z.ones 32). rewrite Z.land_ones by lia. apply Z.mod_pos_bound. lia.
Qed.

Lemma encode_decode pid :
  - 2 ^ 63 <= pid < 2 ^ 63 -> encode (fst (decode pid)) (snd (decode pid)) = pid.
Proof.
  intros Hp. destruct (decode_range pid) as [Hi Hg]. rewrite encode_sum by done.
  unfold decode in *. cbn [fst snd] in *.
  change (2 ^ 32 - 1) with (Z.ones 32) in *. rewrite Z.land_ones, Z.shiftr_div_pow2 in * by lia.
  assert (swrap 32 (wrap 32 (pid / 2 ^ 32)) = pid / 2 ^ 32) as ->.
  { unfold swrap. rewrite wrap_idemp by lia.
    assert (- 2 ^ 31 <= pid / 2 ^ 32 < 2 ^ 31) as Hd.
    { split; [apply Z.div_le_lower_bound; lia|apply Z.div_lt_upper_bound; lia]. }
    pose proof (swrap_small 32 (pid / 2 ^ 32) ltac:(lia) ltac:(lia)) as Hs. exact Hs. }
  rewrite (Z.div_mod pid (2 ^ 32)) at 3 by lia. lia.
Qed.

Lemma encode_range index gen :
  0 <= index < 2 ^ 32 -> 0 <= gen < 2 ^ 32 -> - 2 ^ 63 <= encode index gen < 2 ^ 63.
Proof.
  intros Hi Hg. rewrite encode_sum by done. pose proof (swrap_range 32 gen ltac:(lia)). lia.
Qed.

(** A packed PID names one (slot index, generation) pair. Packing any index
    and generation of 32 bits gives a 64-bit signed handle that unpacks to them,
    and every 64-bit handle is the packing of what it unpacks to. *)
Theorem pid_packing_bijective :
  (forall index gen, 0 <= index < 2 ^ 32 -> 0 <= gen < 2 ^ 32 ->
     decode (encode index gen) = (index, gen) /\ - 2 ^ 63 <= encode index gen < 2 ^ 63 /\
     slot_index (encode index gen) = index) /\
  (forall pid, - 2 ^ 63 <= pid < 2 ^ 63 -> encode (fst (decode pid)) (snd (decode pid)) = pid).
Proof.
  split; [|exact encode_decode]. intros index gen Hi Hg.
  pose proof (decode_encode index gen Hi Hg) as Hd. split; [done|]. split.
  - by apply encode_range.
  - change (slot_index (encode index gen)) with (fst (decode (encode index gen))). by rewrite Hd.
Qed.

(** Live handles are not always at least [2^32]: from generation [2^31] on the
    packed PID is negative, contrary to the comment on [encode]. *)
Theorem encode_negative (index gen : Z) (Hi : 0 <= index < 2 ^ 32) (Hg : 2 ^ 31 <= gen < 2 ^ 32) :
  encode index gen < 0.
Proof.
  rewrite encode_sum by lia. unfold swrap. rewrite wrap_small by lia.
  destruct (Z.ltb_spec gen (2 ^ (32 - 1))); lia.
Qed.

Lemma encode_negative_witness : encode 7 (2 ^ 31) < 0.
Proof. apply (encode_negative 7 (2 ^ 31)); lia. Defined.

(** ** The chunked arena *)

Definition BASE_CHUNK : Z := 64.
Definition MAX_CHUNKS : Z := 32.

(** [(usize::BITS - 1 - granule.leading_zeros(), ..)]: the position of the
    highest set bit, and the offset into that chunk. *)
Definition chunk_position (index : Z) : Z * Z :=
  let granule := index / BASE_CHUNK + 1 in
  let chunk := Z.log2 granule in
  let offset := index - BASE_CHUNK * (Z.shiftl 1 chunk - 1) in
  (chunk, offset).

Definition chunk_len (chunk : Z) : Z := Z.shiftl BASE_CHUNK chunk.

Record SlotArena (S : Type) := mkArena { chunks : list (option (list S)); published : Z }.
Arguments mkArena {S}.
Arguments chunks {S}.
Arguments published {S}.

Section ArenaOps.
Context {S : Type} (fresh : S).
Implicit Types a : SlotArena S.

Definition arena_new : SlotArena S := mkArena (replicate (Z.to_nat MAX_CHUNKS) None) 0.

Definition arena_len a : Z := published a.

(** [None] past the published length, and where the source would dereference a
    null chunk or run past its end. *)
Definition get a (index : Z) : option S :=
  if arena_len a <=? index then None
  else
    let (chunk, offset) := chunk_position index in
    match chunks a !! Z.to_nat chunk with
    | Some (Some base) => base !! Z.to_nat offset
    | _ => None
    end.

(** A write through the shared slot reference [get] hands out. *)
Definition update a (index : Z) (f : S -> S) : SlotArena S :=
  if arena_len a <=? index then a
  else
    let (chunk, offset) := chunk_position index in
    mkArena (alter (option_map (alter f (Z.to_nat offset))) (Z.to_nat chunk) (chunks a))
            (published a).

Definition arena_grow a : Z * SlotArena S :=
  let index := published a in
  let (chunk, _) := chunk_position index in
  let chunks' :=
    match chunks a !! Z.to_nat chunk with
    | Some None =>
        <[Z.to_nat chunk := Some (replicate (Z.to_nat (chunk_len chunk)) fresh)]> (chunks a)
    | _ => chunks a
    end in
  (wrap 32 index, mkArena chunks' (index + 1)).

(** The client's view: a flat vector. *)
Inductive ArenaOp := AGet (index : Z) | AUpdate (index : Z) (f : S -> S) | AGrow.

Definition arena_step a (op : ArenaOp) : SlotArena S * option S :=
  match op with
  | AGet index => (a, get a index)
  | AUpdate index f => (update a index f, None)
  | AGrow => (snd (arena_grow a), None)
  end.

Definition vector_step (l : list S) (op : ArenaOp) : list S * option S :=
  match op with
  | AGet index => (l, l !! Z.to_nat index)
  | AUpdate index f => (alter f (Z.to_nat index) l, None)
  | AGrow => (l ++ [fresh], None)
  end.

Fixpoint arena_run a (ops : list ArenaOp) : list (option S) :=
  match ops with
  | [] => []
  | op :: rest => let (a', o) := arena_step a op in o :: arena_run a' rest
  end.

Fixpoint vector_run (l : list S) (ops : list ArenaOp) : list (option S) :=
  match ops with
  | [] => []
  | op :: rest => let (l', o) := vector_step l op in o :: vector_run l' rest
  end.
End ArenaOps.
Arguments ArenaOp : clear implicits.

(** The first index of chunk [c]. *)
Definition chunk_start (c : Z) : Z := BASE_CHUNK * (2 ^ c - 1).

Lemma chunk_position_spec index :
  0 <= index ->
  let (c, o) := chunk_position index in
  0 <= c /\ 0 <= o < chunk_len c /\ index = chunk_start c + o.
Proof.
  intros Hi. unfold chunk_position, chunk_len, chunk_start, BASE_CHUNK.
  pose proof (Z.div_pos index 64 Hi ltac:(lia)) as Hd. set (g := index / 64 + 1).
  pose proof (Z.log2_spec g ltac:(lia)) as Hl. pose proof (Z.log2_nonneg g) as Hn.
  rewrite Z.shiftl_1_l, Z.shiftl_mul_pow2 by done. rewrite Z.pow_succ_r in Hl by done.
  pose proof (Z.div_mod index 64 ltac:(lia)). pose proof (Z.mod_pos_bound index 64 ltac:(lia)).
  split; [done|]. split; [|lia]. subst g. lia.
Qed.

Lemma chunk_start_next c : 0 <= c -> chunk_start (c + 1) = chunk_start c + chunk_len c.
Proof.
  intros. unfold chunk_start, chunk_len, BASE_CHUNK.
  rewrite Z.shiftl_mul_pow2 by done. rewrite Z.pow_add_r by lia. lia.
Qed.

Lemma chunk_start_mono c d : 0 <= c <= d -> chunk_start c <= chunk_start d.
Proof.
  intros. unfold chunk_start, BASE_CHUNK. pose proof (Z.pow_le_mono_r 2 c d ltac:(lia) ltac:(lia)). lia.
Qed.

(** Chunks partition the indices. *)
Lemma chunk_unique c d o p :
  0 <= c -> 0 <= d -> 0 <= o < chunk_len c -> 0 <= p < chunk_len d ->
  chunk_start c + o = chunk_start d + p -> c = d /\ o = p.
Proof.
  intros Hc Hd Ho Hp Heq. destruct (Z.lt_trichotomy c d) as [H|[->|H]]; [|lia|].
  - pose proof (chunk_start_next c Hc). pose proof (chunk_start_mono (c + 1) d ltac:(lia)). lia.
  - pose proof (chunk_start_next d Hd). pose proof (chunk_start_mono (d + 1) c ltac:(lia)). lia.
Qed.

Lemma chunk_bound index c o :
  0 <= index < 2 ^ 32 -> chunk_position index = (c, o) -> 0 <= c < MAX_CHUNKS.
Proof.
  intros Hi E. pose proof (chunk_position_spec index ltac:(lia)) as Hs. rewrite E in Hs.
  destruct Hs as (Hc & Ho & Heq). split; [done|]. unfold MAX_CHUNKS.
  destruct (Z.lt_ge_cases c 32) as [|Hge]; [done|].
  pose proof (chunk_start_mono 32 c ltac:(lia)) as Hm.
  assert (chunk_start 32 = 274877906880) by reflexivity. lia.
Qed.

Section ArenaRefinement.
Context {S : Type} (fresh : S).
Implicit Types a : SlotArena S.

(** Every chunk is allocated exactly when its first index is published, has its
    full length, and holds the vector's slots followed by fresh ones. *)
Record stores a (l : list S) : Prop := {
  st_len : published a = Z.of_nat (length l);
  st_chunks : length (chunks a) = Z.to_nat MAX_CHUNKS;
  st_chunk : forall c, 0 <= c < MAX_CHUNKS ->
    match chunks a !! Z.to_nat c with
    | Some (Some b) =>
        chunk_start c < published a /\ Z.of_nat (length b) = chunk_len c /\
        forall o, 0 <= o < chunk_len c ->
          b !! Z.to_nat o = Some (default fresh (l !! Z.to_nat (chunk_start c + o)))
    | Some None => published a <= chunk_start c
    | None => False
    end;
}.

Lemma stores_new : stores arena_new [].
Proof.
  constructor; [done|done|]. intros c Hc. unfold arena_new. cbn [chunks published].
  rewrite lookup_replicate_2 by (unfold MAX_CHUNKS in *; lia).
  unfold chunk_start, BASE_CHUNK. pose proof (Z.pow_pos_nonneg 2 c ltac:(lia) ltac:(lia)). lia.
Qed.

Lemma stores_get a l index :
  stores a l -> 0 <= index < 2 ^ 32 -> get a index = l !! Z.to_nat index.
Proof.
  intros [Hl Hn Hc] Hi. unfold get, arena_len. rewrite Hl.
  destruct (Z.leb_spec (Z.of_nat (length l)) index) as [Hge|Hlt].
  { symmetry. apply lookup_ge_None. lia. }
  destruct (chunk_position index) as [c o] eqn:E. pose proof (chunk_bound index c o Hi E) as Hcb.
  pose proof (chunk_position_spec index ltac:(lia)) as Hs. rewrite E in Hs.
  destruct Hs as (_ & Ho & Heq). specialize (Hc c Hcb).
  destruct (chunks a !! Z.to_nat c) as [[b|]|]; [|lia|done].
  destruct Hc as (_ & _ & Hb). rewrite (Hb o Ho), <- Heq.
  destruct (lookup_lt_is_Some_2 l (Z.to_nat index)) as [x Hx]; [lia|]. by rewrite Hx.
Qed.

Lemma stores_update a l index f :
  stores a l -> 0 <= index < 2 ^ 32 -> stores (update a index f) (alter f (Z.to_nat index) l).
Proof.
  intros [Hl Hn Hc] Hi. unfold update, arena_len.
  destruct (Z.leb_spec (published a) index) as [Hge|Hlt].
  { assert (alter f (Z.to_nat index) l = l) as ->; [|done].
    apply alter_past_end. lia. }
  destruct (chunk_position index) as [c o] eqn:E. pose proof (chunk_bound index c o Hi E) as Hcb.
  pose proof (chunk_position_spec index ltac:(lia)) as Hs. rewrite E in Hs.
  destruct Hs as (_ & Ho & Heq).
  constructor; cbn [chunks published]; [by rewrite length_alter|by rewrite length_alter|].
  intros d Hd. specialize (Hc d Hd). destruct (decide (d = c)) as [->|Hne].
  - rewrite list_lookup_alter_eq. destruct (chunks a !! Z.to_nat c) as [[b|]|]; simpl; [|lia|done].
    destruct Hc as (Hst & Hlen & Hb). split; [done|]. split; [by rewrite length_alter|].
    intros p Hp. destruct (decide (p = o)) as [->|Hpo].
    + rewrite list_lookup_alter_eq, (Hb o Ho), <- Heq, list_lookup_alter_eq.
      destruct (lookup_lt_is_Some_2 l (Z.to_nat index)) as [x Hx]; [lia|]. by rewrite Hx.
    + rewrite list_lookup_alter_ne, (Hb p Hp) by lia.
      rewrite list_lookup_alter_ne; [done|].
      pose proof (chunk_start_mono 0 c ltac:(lia)). change (chunk_start 0) with 0 in *. lia.
  - rewrite list_lookup_alter_ne by lia.
    destruct (chunks a !! Z.to_nat d) as [[b|]|]; [|done|done].
    destruct Hc as (Hst & Hlen & Hb). split; [done|]. split; [done|]. intros p Hp.
    rewrite (Hb p Hp), list_lookup_alter_ne; [done|].
    pose proof (chunk_start_mono 0 d ltac:(lia)). change (chunk_start 0) with 0 in *.
    intros Hidx. assert (chunk_start c + o = chunk_start d + p) as Heq2 by lia.
    destruct (chunk_unique c d o p ltac:(lia) ltac:(lia) Ho Hp Heq2). congruence.
Qed.

Lemma default_app_fresh (l : list S) i :
  default fresh ((l ++ [fresh]) !! i) = default fresh (l !! i).
Proof.
  destruct (decide (i < length l)%nat); [by rewrite lookup_app_l|].
  rewrite lookup_app_r, (lookup_ge_None_2 l) by lia. by destruct (i - length l)%nat as [|[]].
Qed.

Lemma stores_grow a l :
  stores a l -> Z.of_nat (length l) < 2 ^ 32 -> stores (snd (arena_grow fresh a)) (l ++ [fresh]).
Proof.
  intros [Hl Hn Hc] Hlen. unfold arena_grow.
  destruct (chunk_position (published a)) as [c o] eqn:E.
  pose proof (chunk_bound (published a) c o ltac:(lia) E) as Hcb.
  pose proof (chunk_position_spec (published a) ltac:(lia)) as Hs. rewrite E in Hs.
  destruct Hs as (_ & Ho & Heq).
  constructor; cbn [snd chunks published]; [rewrite length_app; simpl; lia| |].
  { destruct (chunks a !! Z.to_nat c) as [[b|]|]; rewrite ?length_insert; done. }
  intros d Hd. destruct (decide (d = c)) as [->|Hne].
  - pose proof (Hc c Hcb) as Hcc. destruct (chunks a !! Z.to_nat c) as [[b|]|] eqn:Ec; [| |done].
    + rewrite Ec. destruct Hcc as (Hst & Hbl & Hb). split; [lia|]. split; [done|].
      intros p Hp. by rewrite (Hb p Hp), default_app_fresh.
    + rewrite list_lookup_insert_eq by (rewrite Hn; unfold MAX_CHUNKS in *; lia).
      assert (0 <= chunk_len c) by (unfold chunk_len; apply Z.shiftl_nonneg; done).
      split; [lia|]. split; [rewrite length_replicate; lia|].
      intros p Hp. rewrite lookup_replicate_2 by lia. f_equal. rewrite default_app_fresh.
      rewrite (lookup_ge_None_2 l); [done|]. lia.
  - assert (match chunks a !! Z.to_nat c with
            | Some None => <[Z.to_nat c := Some (replicate (Z.to_nat (chunk_len c)) fresh)]> (chunks a)
            | _ => chunks a end !! Z.to_nat d = chunks a !! Z.to_nat d) as ->.
    { destruct (chunks a !! Z.to_nat c) as [[b|]|]; [done| |done].
      by rewrite list_lookup_insert_ne by lia. }
    pose proof (Hc d Hd) as Hcd. destruct (chunks a !! Z.to_nat d) as [[b|]|]; [| |done].
    + destruct Hcd as (Hst & Hbl & Hb). split; [lia|]. split; [done|].
      intros p Hp. by rewrite (Hb p Hp), default_app_fresh.
    + destruct (Z.eq_dec (published a) (chunk_start d)) as [Heq2|]; [|lia].
      assert (chunk_start c + o = chunk_start d + 0) as Heq3 by lia.
      assert (0 < chunk_len d)
        by (unfold chunk_len, BASE_CHUNK; rewrite Z.shiftl_mul_pow2 by lia;
            pose proof (Z.pow_pos_nonneg 2 d ltac:(lia) ltac:(lia)); lia).
      destruct (chunk_unique c d o 0 ltac:(lia) ltac:(lia) Ho ltac:(lia) Heq3). congruence.
Qed.

Definition arena_op_ok (op : ArenaOp S) : bool :=
  match op with AGet i | AUpdate i _ => (0 <=? i) && (i <? 2 ^ 32) | AGrow => true end.

Lemma arena_run_refines ops a l :
  stores a l -> forallb arena_op_ok ops = true ->
  Z.of_nat (length l) + Z.of_nat (length ops) <= 2 ^ 32 ->
  arena_run fresh a ops = vector_run fresh l ops.
Proof.
  revert a l. induction ops as [|op ops IH]; intros a l Hs Hok Hlen; [done|].
  cbn [forallb] in Hok. apply andb_true_iff in Hok as [Hop Hok]. simpl length in Hlen.
  destruct op as [i|i f|]; cbn [arena_run vector_run arena_step vector_step]; simpl in Hop; bool_to_prop.
  - f_equal; [by apply stores_get|]. apply IH; [done|done|lia].
  - f_equal. apply IH; [by apply stores_update|done|rewrite length_alter; lia].
  - f_equal. apply IH; [apply stores_grow; [done|lia]|done|rewrite length_app; simpl; lia].
Qed.
End ArenaRefinement.

(** The chunked arena behaves as a flat vector. For every sequence of growths,
    lookups and in-place updates, each lookup returns what the vector of published
    slots returns: slots keep their index and contents while chunks are added, and
    nothing is read past the published length. *)
Theorem arena_refines_vector {S : Type} (fresh : S) (ops : list (ArenaOp S))
    (Hok : forallb arena_op_ok ops = true) (Hlen : Z.of_nat (length ops) <= 2 ^ 32) :
  arena_run fresh arena_new ops = vector_run fresh [] ops.
Proof. apply arena_run_refines; [apply stores_new|done|simpl; lia]. Qed.

Definition sample_arena : list (ArenaOp Z) :=
  replicate 65 AGrow ++
  [AUpdate 63 (fun _ => 7); AUpdate 64 (fun _ => 8); AGet 63; AGet 64; AGet 0; AGet 65].

Lemma arena_refines_vector_witness :
  arena_run 0 arena_new sample_arena = vector_run 0 [] sample_arena /\
  drop 67 (vector_run 0 [] sample_arena) = [Some 7; Some 8; Some 0; None].
Proof.
  split; [|vm_compute; reflexivity].
  apply (arena_refines_vector 0 sample_arena); vm_compute; [reflexivity|congruence].
Defined.
