(* ===== verification/TableSteps.v ===== *)
(** * The abstract steps of the process table

    The table as a transition system over slots: an edit that leaves the
    lifecycle alone, a legal live edge, the release of a claim, a death on a cpu,
    a reclaim, a spawn. [table_step] is the specification of every method of
    [ProcessTable.v]; the lemmas of this file show that each method implements
    it. The invariants of [TableInv.v] are proved once, on the steps. *)

From S2P Require Import Prelude Protocol Mailbox Lifecycle ProcessTable.
Local Open Scope Z_scope.

Section Steps.
Context {X M : Type} `{Message M}.
Implicit Types (t : Table X M) (s : Slot X M).

Definition view s : WordState := load (lifecycle s).

Definition live_state (st : option ProcessState) : bool :=
  match st with None | Some Dead => false | _ => true end.
Definition active_state (st : option ProcessState) : bool :=
  match st with Some (Running | WaitingIO) => true | _ => false end.

Definition slot_live s : bool := live_state (state (view s)).
Definition slot_active s : bool := active_state (state (view s)).

(** What one method may do to one slot, and whether it frees its index. *)
Inductive slot_change : Slot X M -> Slot X M -> bool -> Prop :=
  | sc_edit s s' :
      lifecycle s' = lifecycle s -> (execution s' = None <-> execution s = None) ->
      (state (view s) = None -> mailbox (hot s') = mailbox (hot s)) ->
      slot_change s s' false
  | sc_edge s s' from to :
      state (view s) = Some from -> is_legal_transition from to = true -> to <> Dead ->
      word_wf (lifecycle s') ->
      view s' = mkWordState (generation (view s)) (on_cpu (view s) || bool_decide (to = Running))
                  (Some to) ->
      (to = Running -> on_cpu (view s) = false) ->
      execution s' = execution s ->
      slot_change s s' false
  | sc_release s s' :
      on_cpu (view s) = true -> state (view s) <> Some Dead ->
      word_wf (lifecycle s') ->
      view s' = mkWordState (generation (view s)) false (state (view s)) ->
      execution s' = execution s -> hot s' = hot s ->
      slot_change s s' false
  | sc_die s s' :
      slot_live s = true -> on_cpu (view s) = true ->
      word_wf (lifecycle s') ->
      view s' = mkWordState (generation (view s)) true (Some Dead) ->
      execution s' = execution s -> mailbox (hot s') = mailbox (hot s) ->
      slot_change s s' false
  | sc_free s s' :
      (slot_live s = true /\ on_cpu (view s) = false) \/
      (state (view s) = Some Dead /\ on_cpu (view s) = true) ->
      word_wf (lifecycle s') ->
      view s' = mkWordState (wrap 32 (generation (view s) + 1)) false None ->
      execution s' = None -> hot s' = hot_default ->
      slot_change s s' true.

(** A gauge that counts the slots with some property. *)
Definition adjust (v : Z) (before after : bool) : Z :=
  match before, after with
  | true, false => v -u64 1
  | false, true => v +u64 1
  | _, _ => v
  end.

(** A local step: nothing a slot depends on, or one slot. *)
Inductive local_step : Table X M -> Table X M -> Prop :=
  | ts_same t t' :
      arena t' = arena t -> active t' = active t -> alive t' = alive t ->
      free (registry t') = free (registry t) ->
      local_step t t'
  | ts_slot t t' i s s' freed :
      arena t !! i = Some s -> slot_change s s' freed ->
      arena t' = <[i := s']> (arena t) ->
      active t' = adjust (active t) (slot_active s) (slot_active s') ->
      alive t' = adjust (alive t) (slot_live s) (slot_live s') ->
      free (registry t') = free (registry t) ++ (if freed then [Z.of_nat i] else []) ->
      local_step t t'.

(** A step of the table: a local one, or a spawn into a free or a freshly grown
    slot. *)
Inductive table_step : Table X M -> Table X M -> Prop :=
  | ts_local t t' : local_step t t' -> table_step t t'
  | ts_spawn t t' i s s' ar rest :
      (ar = arena t /\ free (registry t) = rest ++ [Z.of_nat i]) \/
      (ar = arena t ++ [slot_new] /\ free (registry t) = [] /\ rest = [] /\ i = length (arena t)) ->
      ar !! i = Some s ->
      word_wf (lifecycle s') ->
      view s' = mkWordState (Z.max (generation (view s)) 1) false (Some Created) ->
      is_Some (execution s') -> hot s' = hot s ->
      arena t' = <[i := s']> ar ->
      active t' = active t -> alive t' = alive t +u64 1 ->
      free (registry t') = rest ->
      table_step t t'.

(** ** Evaluation of the primitives *)

(** The table with slot [i] replaced. *)
Definition put (i : nat) s t : Table X M :=
  mkTable (active t) (alive t) (<[i := s]> (arena t)) (counters t) (main_pid t) (registry t)
    (trace t).

Lemma lookup_put i s s' t : arena t !! i = Some s -> arena (put i s' t) !! i = Some s'.
Proof. intros Hi. simpl. apply list_lookup_insert_eq. by eapply lookup_lt_Some. Qed.

Lemma put_put i s s' t : put i s' (put i s t) = put i s' t.
Proof. unfold put. simpl. by rewrite list_insert_insert_eq. Qed.

Lemma upd_slot_put i f s t : arena t !! i = Some s -> upd_slot i f t = (tt, put i (f s) t).
Proof. intros Hi. unfold upd_slot, set_arena, put. by rewrite (alter_as_insert _ _ _ _ Hi). Qed.

Lemma word_op_put {A} (d : A) i op s t :
  arena t !! i = Some s ->
  word_op d i op t = (fst (op (lifecycle s)), put i (with_word (snd (op (lifecycle s))) s) t).
Proof.
  intros Hi. unfold word_op. rewrite Hi. destruct (op (lifecycle s)) as [a w].
  by rewrite (upd_slot_put _ _ _ _ Hi).
Qed.

Lemma st_bind_eval {A B} (m : ST X M A) (k : A -> ST X M B) t a t' :
  m t = (a, t') -> st_bind m k t = k a t'.
Proof. intros E. unfold st_bind. by rewrite E. Qed.

Lemma slot_of_Some pid t i s gen :
  slot_of pid t = Some (i, s, gen) ->
  arena t !! i = Some s /\ i = Z.to_nat (fst (decode pid)) /\ gen = snd (decode pid).
Proof.
  unfold slot_of, arena_get. destruct (decode pid) as [index g].
  destruct (arena t !! Z.to_nat index) eqn:E; [|done]. naive_solver.
Qed.

(** The parts of the table the steps talk about. *)
Definition core_eq t t' : Prop :=
  arena t' = arena t /\ active t' = active t /\ alive t' = alive t /\
  free (registry t') = free (registry t).

#[local] Instance core_eq_equiv : Equivalence core_eq.
Proof.
  split.
  - by intros t.
  - intros t t' (? & ? & ? & ?). by repeat split.
  - intros t1 t2 t3 (? & ? & ? & ?) (? & ? & ? & ?). unfold core_eq. by repeat split; etransitivity.
Qed.

Lemma step_same t t' : core_eq t t' -> local_step t t'.
Proof. intros (? & ? & ? & ?). by apply ts_same. Qed.

Lemma step_frame t t' t'' : local_step t t' -> core_eq t' t'' -> local_step t t''.
Proof.
  intros Hs (Ha & Hac & Hal & Hf). inversion Hs; subst.
  - apply ts_same; congruence.
  - eapply ts_slot; [done|done|congruence..].
Qed.

(** Methods that only touch counters, trace or the other registry fields. *)
Definition quiet {A} (m : ST X M A) : Prop := forall t, core_eq t (snd (m t)).

Lemma quiet_ret {A} (a : A) : quiet (st_ret a).
Proof. by intros t. Qed.

Lemma quiet_bind {A B} (m : ST X M A) (k : A -> ST X M B) :
  quiet m -> (forall a, quiet (k a)) -> quiet (st_bind m k).
Proof.
  intros Hm Hk t. unfold st_bind. specialize (Hm t). destruct (m t) as [a t']. simpl in Hm.
  etransitivity; [exact Hm|]. apply Hk.
Qed.

Lemma quiet_count f : quiet (count f).
Proof. by intros t. Qed.
Lemma quiet_record pid e : quiet (record pid e).
Proof. by intros t. Qed.
Lemma quiet_registry {A} (f : Registry -> A * Registry) :
  (forall r, free (snd (f r)) = free r) -> quiet (with_registry f).
Proof.
  intros Hf t. unfold with_registry. specialize (Hf (registry t)).
  destruct (f (registry t)) as [a r]. simpl in *. done.
Qed.

Lemma step_bind {A B} (m : ST X M A) (k : A -> ST X M B) t :
  local_step t (snd (m t)) -> (forall a, quiet (k a)) -> local_step t (snd (st_bind m k t)).
Proof.
  intros Hm Hk. unfold st_bind. destruct (m t) as [a t']. simpl in Hm.
  eapply step_frame; [exact Hm|]. apply Hk.
Qed.

Lemma quiet_step {A} (m : ST X M A) t : quiet m -> local_step t (snd (m t)).
Proof. intros Hq. apply step_same, Hq. Qed.

Lemma with_hot_step {A} pid (f : nat -> Slot X M -> ST X M A) t :
  (forall i s, arena t !! i = Some s -> generation (view s) = snd (decode pid) ->
     i = Z.to_nat (fst (decode pid)) -> local_step t (snd (f i s t))) ->
  local_step t (snd (with_hot pid f t)).
Proof.
  intros Hf. unfold with_hot. destruct (slot_of pid t) as [[[i s] gen]|] eqn:E; [|by apply step_same].
  apply slot_of_Some in E as (Hi & Hidx & ->).
  destruct (Z.eqb_spec (generation (load (lifecycle s))) (snd (decode pid))) as [Hg|Hg]; simpl.
  - specialize (Hf i s Hi Hg Hidx). by destruct (f i s t).
  - by apply step_same.
Qed.

(** Per-slot well-formedness: a well-formed word, and a vacant slot is clean. A
    dead slot between two methods is still on a cpu: its owner will reclaim it. *)
Record slot_ok s : Prop := {
  slot_word : word_wf (lifecycle s);
  slot_vacant : state (view s) = None ->
    on_cpu (view s) = false /\ execution s = None /\ mailbox (hot s) = mailbox_default;
  slot_occupied : state (view s) <> None -> is_Some (execution s);
  slot_created : state (view s) = Some Created -> on_cpu (view s) = false;
  slot_dead : state (view s) = Some Dead -> on_cpu (view s) = true;
}.

Definition slots_ok t : Prop := forall i s, arena t !! i = Some s -> slot_ok s.

Lemma adjust_same v b : adjust v b b = v.
Proof. by destruct b. Qed.

Lemma app_nil_right {A} (l : list A) : l ++ [] = l.
Proof. apply app_nil_r. Qed.

(** ** Slot edits *)

Lemma put_edit i s s' t :
  arena t !! i = Some s -> lifecycle s' = lifecycle s ->
  (execution s' = None <-> execution s = None) ->
  (state (view s) = None -> mailbox (hot s') = mailbox (hot s)) ->
  local_step t (put i s' t).
Proof.
  intros Hi Hw He Hm. eapply (ts_slot t _ i s s' false); try done.
  - by apply sc_edit.
  - unfold slot_active, view. by rewrite Hw, adjust_same.
  - unfold slot_live, view. by rewrite Hw, adjust_same.
  - by rewrite app_nil_right.
Qed.

Lemma upd_slot_edit i f s t :
  arena t !! i = Some s -> lifecycle (f s) = lifecycle s ->
  (execution (f s) = None <-> execution s = None) ->
  (state (view s) = None -> mailbox (hot (f s)) = mailbox (hot s)) ->
  local_step t (snd (upd_slot i f t)).
Proof. intros Hi Hw He Hm. rewrite (upd_slot_put _ _ _ _ Hi). by apply put_edit with s. Qed.

(** ** Lifecycle edges *)

(** A successful [try_edge], with any change to the hot state, and the [active]
    gauge moved accordingly. *)
Lemma put_edge i s from to f t t' :
  arena t !! i = Some s -> word_wf (lifecycle s) ->
  state (view s) = Some from -> is_legal_transition from to = true -> to <> Dead -> to <> Running ->
  arena t' = arena (put i (with_hot_of f
               (with_word (snd (try_edge (generation (view s)) from to (lifecycle s))) s)) t) ->
  alive t' = alive t -> free (registry t') = free (registry t) ->
  active t' = adjust (active t) (active_state (Some from)) (active_state (Some to)) ->
  local_step t t'.
Proof.
  intros Hi Hwf Hst Hleg Hnd Hnr Har Hal Hfr Hac.
  pose proof (try_edge_spec (generation (view s)) from to (lifecycle s) Hwf) as Hs.
  assert (edge_next (generation (view s)) from to (view s) =
          Some (mkWordState (generation (view s)) (on_cpu (view s)) (Some to))) as Hn
    by (by apply edge_next_Some).
  unfold view in Hn at 2. rewrite Hn in Hs. destruct Hs as (_ & Hwf' & Hl).
  set (s' := with_hot_of f (with_word (snd (try_edge (generation (view s)) from to (lifecycle s))) s)) in *.
  assert (view s' = mkWordState (generation (view s)) (on_cpu (view s)) (Some to)) as Hv by exact Hl.
  eapply (ts_slot t t' i s s' false Hi); [|exact Har|..].
  - eapply (sc_edge s _ from to); try done. by rewrite bool_decide_false, orb_false_r.
  - unfold slot_active. by rewrite Hv, Hst.
  - unfold slot_live. rewrite Hv, Hst. by destruct from, to.
  - by rewrite app_nil_right.
Qed.

Lemma with_word_same s : with_word (lifecycle s) s = s.
Proof. by destruct s. Qed.

Lemma put_same i s t : arena t !! i = Some s -> put i s t = t.
Proof. intros Hi. unfold put. rewrite list_insert_id by done. by destruct t. Qed.

Lemma try_edge_ok s from to :
  word_wf (lifecycle s) -> state (view s) = Some from ->
  fst (try_edge (generation (view s)) from to (lifecycle s)) = true.
Proof.
  intros Hwf Hst. pose proof (try_edge_spec (generation (view s)) from to (lifecycle s) Hwf) as Hs.
  assert (edge_next (generation (view s)) from to (load (lifecycle s)) =
          Some (mkWordState (generation (view s)) (on_cpu (view s)) (Some to))) as Hn
    by (by apply edge_next_Some).
  rewrite Hn in Hs. by destruct Hs.
Qed.

Lemma try_edge_no s gen from to :
  word_wf (lifecycle s) -> state (view s) <> Some from ->
  try_edge gen from to (lifecycle s) = (false, lifecycle s).
Proof.
  intros Hwf Hst. pose proof (try_edge_spec gen from to (lifecycle s) Hwf) as Hs.
  destruct (edge_next _ _ _ _) eqn:E; [|done].
  apply edge_next_Some in E as (_ & E & _). done.
Qed.

(** The park edge succeeds exactly on a running process. *)
Lemma park_edge_spec pid i s to t :
  arena t !! i = Some s -> word_wf (lifecycle s) -> generation (view s) = snd (decode pid) ->
  if bool_decide (state (view s) = Some Running)
  then exists t', park_edge pid i to t = (true, t') /\
         core_eq (put i (with_word (snd (try_edge (generation (view s)) Running to (lifecycle s))) s) t) t'
  else exists t', park_edge pid i to t = (false, t') /\ core_eq t t'.
Proof.
  intros Hi Hwf Hg. unfold park_edge. rewrite Hi. rewrite <- Hg.
  destruct (bool_decide (state (view s) = Some Running)) eqn:E; bool_to_prop.
  - assert (word_alive (load (lifecycle s)) (generation (view s)) = true) as ->.
    { apply word_alive_true. split; [done|]. by exists Running. }
    simpl. rewrite (st_bind_eval _ _ _ _ _ (word_op_put false i _ s t Hi)).
    rewrite (try_edge_ok s Running to Hwf E). simpl. eexists. split; [reflexivity|].
    by repeat split.
  - destruct (word_alive _ _); simpl.
    + rewrite (st_bind_eval _ _ _ _ _ (word_op_put false i _ s t Hi)).
      rewrite (try_edge_no s _ Running to Hwf E). simpl.
      rewrite with_word_same, (put_same i s t Hi). eexists. split; [reflexivity|]. by repeat split.
    + eexists. split; [reflexivity|]. by repeat split.
Qed.

(** The wake edge from the state the hold pins. *)
Lemma wake_edge_spec pid i s from t :
  arena t !! i = Some s -> word_wf (lifecycle s) -> generation (view s) = snd (decode pid) ->
  state (view s) = Some from ->
  exists t', wake_edge pid i from t = (Some (mkWake pid (get_priority s)), t') /\
    arena t' = arena (put i (with_word (snd (try_edge (generation (view s)) from Runnable (lifecycle s))) s) t) /\
    alive t' = alive t /\ free (registry t') = free (registry t) /\
    active t' = if bool_decide (from = WaitingIO) then active t -u64 1 else active t.
Proof.
  intros Hi Hwf Hg Hst. unfold wake_edge. rewrite <- Hg.
  rewrite (st_bind_eval _ _ _ _ _ (word_op_put false i _ s t Hi)).
  rewrite (try_edge_ok s from Runnable Hwf Hst). cbn [negb].
  destruct (bool_decide (from = WaitingIO)); eexists;
    (split; [unfold st_bind; simpl; rewrite list_lookup_insert_eq by (by eapply lookup_lt_Some);
             reflexivity|by repeat split]).
Qed.

(** The common tail of the blocking parks. *)
Definition park_blocked {A} (pid : Pid) (i : nat) (f : HotState M -> HotState M) (no yes : A)
    : ST X M A :=
  let* ok := park_edge pid i Blocked in
  if negb ok then st_ret no else upd_hot i f ;;* active_dec ;;* st_ret yes.

Lemma park_blocked_spec {A} pid i s f (no yes : A) t :
  arena t !! i = Some s -> word_wf (lifecycle s) -> generation (view s) = snd (decode pid) ->
  if bool_decide (state (view s) = Some Running)
  then exists t', park_blocked pid i f no yes t = (yes, t') /\
         arena t' = <[i := with_hot_of f (with_word
           (snd (try_edge (generation (view s)) Running Blocked (lifecycle s))) s)]> (arena t) /\
         alive t' = alive t /\ free (registry t') = free (registry t) /\
         active t' = active t -u64 1
  else exists t', park_blocked pid i f no yes t = (no, t') /\ core_eq t t'.
Proof.
  intros Hi Hwf Hg. pose proof (park_edge_spec pid i s Blocked t Hi Hwf Hg) as Hp.
  unfold park_blocked. destruct (bool_decide _).
  - destruct Hp as (t' & E & (Ha & Hac & Hal & Hf)). rewrite (st_bind_eval _ _ _ _ _ E). cbn [negb].
    assert (arena t' !! i = Some (with_word
      (snd (try_edge (generation (view s)) Running Blocked (lifecycle s))) s)) as Hi'
      by (rewrite Ha; by eapply lookup_put).
    unfold upd_hot. rewrite (st_bind_eval _ _ _ _ _ (upd_slot_put _ _ _ _ Hi')).
    eexists. split; [reflexivity|]. simpl in *. rewrite Ha, Hac, Hal, Hf. simpl.
    by rewrite list_insert_insert_eq.
  - destruct Hp as (t' & E & Hc). rewrite (st_bind_eval _ _ _ _ _ E). by exists t'.
Qed.

Lemma park_blocked_step {A} pid i s f (no yes : A) t :
  arena t !! i = Some s -> word_wf (lifecycle s) -> generation (view s) = snd (decode pid) ->
  local_step t (snd (park_blocked pid i f no yes t)).
Proof.
  intros Hi Hwf Hg. pose proof (park_blocked_spec pid i s f no yes t Hi Hwf Hg) as Hp.
  destruct (bool_decide _) eqn:E; bool_to_prop.
  - destruct Hp as (t' & -> & Ha & Hal & Hf & Hac). simpl.
    by apply (put_edge i s Running Blocked f t t').
  - destruct Hp as (t' & -> & Hc). by apply step_same.
Qed.

Lemma quiet_refused {A} pid (a : A) r : quiet (or_refused pid a r).
Proof. unfold or_refused. destruct r; by intros t. Qed.

Lemma try_park_step pid target dl t : slots_ok t -> local_step t (snd (try_park pid target dl t)).
Proof.
  intros Hw. apply step_bind; [|intros; apply quiet_refused].
  apply with_hot_step. intros i s Hi Hg _.
  apply (park_blocked_step pid i s); [done|apply (Hw _ _ Hi)|done].
Qed.

Lemma try_park_io_step pid dl t : slots_ok t -> local_step t (snd (try_park_io pid dl t)).
Proof.
  intros Hw. apply step_bind; [|intros; apply quiet_refused].
  apply with_hot_step. intros i s Hi Hg _. destruct (has_system _); [by apply step_same|].
  pose proof (park_edge_spec pid i s WaitingIO t Hi (slot_word _ (Hw _ _ Hi)) Hg) as Hp.
  destruct (bool_decide _) eqn:E; bool_to_prop.
  - destruct Hp as (t' & E' & (Ha & Hac & Hal & Hf)). rewrite (st_bind_eval _ _ _ _ _ E').
    assert (arena t' !! i = Some (with_word
      (snd (try_edge (generation (view s)) Running WaitingIO (lifecycle s))) s)) as Hi'
      by (rewrite Ha; by eapply lookup_put).
    unfold upd_hot. rewrite (st_bind_eval _ _ _ _ _ (upd_slot_put _ _ _ _ Hi')). simpl.
    eapply (put_edge i s Running WaitingIO (set_deadline dl)); try done; [apply (Hw _ _ Hi)|].
    simpl. rewrite Ha. simpl. by rewrite list_insert_insert_eq.
  - destruct Hp as (t' & E' & Hc). rewrite (st_bind_eval _ _ _ _ _ E'). by apply step_same.
Qed.

Lemma with_hot_of_id s f : f (hot s) = hot s -> with_hot_of f s = s.
Proof. intros E. unfold with_hot_of. rewrite E. by destruct s. Qed.

Lemma set_mailbox_same (h : HotState M) : set_mailbox (mailbox h) h = h.
Proof. by destruct h. Qed.


(** Taking a message out is an edit; a vacant slot has none to take. *)
Lemma mailbox_edit i s mb t :
  arena t !! i = Some s -> (mailbox (hot s) = mailbox_default -> mb = mailbox_default) ->
  slot_ok s -> local_step t (snd (upd_hot i (set_mailbox mb) t)).
Proof.
  intros Hi Hmb Hok. apply (upd_slot_edit _ _ s); [done|done|done|].
  intros Hv. apply (slot_vacant _ Hok) in Hv as (_ & _ & Hd). simpl. by rewrite Hd, Hmb.
Qed.

Lemma pop_default (mb mb' : Mailbox M) m :
  Mailbox.pop_received mb = (m, mb') -> mb = mailbox_default -> mb' = mailbox_default.
Proof. intros E ->. by injection E as <- <-. Qed.

Lemma take_default (mb mb' : Mailbox M) m :
  Mailbox.take_reply mb = (m, mb') -> mb = mailbox_default -> mb' = mailbox_default.
Proof. intros E ->. by injection E as <- <-. Qed.

Lemma pop_received_step pid t : slots_ok t -> local_step t (snd (pop_received pid t)).
Proof.
  intros Hw. apply step_bind; [|intros; apply quiet_ret].
  apply with_hot_step. intros i s Hi Hg _.
  destruct (Mailbox.pop_received (mailbox (hot s))) as [m mb] eqn:Ep.
  apply step_bind; [|intros; apply quiet_ret].
  eapply mailbox_edit; eauto using pop_default.
Qed.

Lemma take_reply_step pid t : slots_ok t -> local_step t (snd (take_reply pid t)).
Proof.
  intros Hw. apply step_bind; [|intros; apply quiet_ret].
  apply with_hot_step. intros i s Hi Hg _.
  destruct (Mailbox.take_reply (mailbox (hot s))) as [m mb] eqn:Ep.
  apply step_bind; [|intros; apply quiet_ret].
  eapply mailbox_edit; eauto using take_default.
Qed.

(** An empty take leaves the slot, so the park that follows starts from it. *)
Lemma upd_mailbox_same i s t :
  arena t !! i = Some s -> upd_hot i (set_mailbox (mailbox (hot s))) t = (tt, t).
Proof.
  intros Hi. unfold upd_hot. rewrite (upd_slot_put _ _ _ _ Hi).
  rewrite with_hot_of_id by apply set_mailbox_same. by rewrite (put_same i s t Hi).
Qed.

Lemma receive_or_park_step pid dl t :
  slots_ok t -> local_step t (snd (receive_or_park pid dl t)).
Proof.
  intros Hw. apply step_bind; [|intros; apply quiet_refused].
  apply with_hot_step. intros i s Hi Hg _. pose proof (Hw _ _ Hi) as Hok.
  destruct (Mailbox.pop_received (mailbox (hot s))) as [[m|] mb] eqn:Ep.
  - apply step_bind; [|intros; apply quiet_ret]. eapply mailbox_edit; eauto using pop_default.
  - pose proof (pop_none_empty (mailbox (hot s))) as Hn. rewrite Ep in Hn.
    destruct (Hn eq_refl) as (_ & _ & Hmb). simpl in Hmb. subst mb.
    rewrite (st_bind_eval _ _ _ _ _ (upd_mailbox_same i s t Hi)).
    apply (park_blocked_step pid i s); [done|apply Hok|done].
Qed.

Lemma quiet_ensure cr ce token : quiet (ensure_call_waiter cr ce token).
Proof. intros t. unfold ensure_call_waiter, with_registry. simpl. by destruct (_ && _). Qed.

Lemma quiet_evict cr : quiet (evict_call_waiter cr).
Proof. by apply quiet_registry. Qed.

(** Quiet prefixes can be skipped. *)
Lemma step_quiet_first {A B} (m : ST X M A) (k : A -> ST X M B) t :
  quiet m -> (forall a t', core_eq t t' -> local_step t' (snd (k a t'))) ->
  local_step t (snd (st_bind m k t)).
Proof.
  intros Hm Hk. unfold st_bind. specialize (Hm t). destruct (m t) as [a t'] eqn:E. simpl in Hm.
  specialize (Hk a t' Hm). destruct Hm as (Ha & Hac & Hal & Hf). inversion Hk; subst.
  - apply ts_same; congruence.
  - eapply ts_slot; [rewrite <- Ha; eassumption|eassumption|congruence..].
Qed.

Lemma slots_ok_core t t' : core_eq t t' -> slots_ok t -> slots_ok t'.
Proof. intros (Ha & _) Hw i s. rewrite Ha. apply Hw. Qed.

(** Edits of the hot state that keep the mailbox. *)
Lemma hot_edit i s f t :
  arena t !! i = Some s -> (forall h, mailbox (f h) = mailbox h) ->
  local_step t (snd (upd_hot i f t)).
Proof. intros Hi Hf. apply (upd_slot_edit _ _ s); [done|done|done|]. intros _. apply Hf. Qed.

Lemma upd_hot_of_step pid f t :
  (forall h, mailbox (f h) = mailbox h) -> local_step t (snd (upd_hot_of pid f t)).
Proof.
  intros Hf. apply step_bind; [|intros; apply quiet_ret].
  apply with_hot_step. intros i s Hi _ _. by apply (hot_edit i s).
Qed.

(** The reply taken, and then the call's bookkeeping cleared, in one edit. *)
Lemma take_then_clear i s mb f t :
  arena t !! i = Some s -> slot_ok s -> (mailbox (hot s) = mailbox_default -> mb = mailbox_default) ->
  (forall h, mailbox (f h) = mailbox h) ->
  forall A (a : A), local_step t (snd ((upd_hot i (set_mailbox mb) ;;* upd_hot i f ;;* st_ret a) t)).
Proof.
  intros Hi Hok Hmb Hf A a. unfold upd_hot at 1.
  rewrite (st_bind_eval _ _ _ _ _ (upd_slot_put _ _ _ _ Hi)).
  unfold upd_hot. rewrite (st_bind_eval _ _ _ _ _ (upd_slot_put _ _ _ _ (lookup_put _ _ _ _ Hi))).
  simpl. rewrite put_put. apply (put_edit i s); [done|done|done|].
  intros Hv. apply (slot_vacant _ Hok) in Hv as (_ & _ & Hd). simpl. rewrite Hf. simpl.
  by rewrite Hd, Hmb.
Qed.

Lemma st_bind_assoc {A B C} (m : ST X M A) (k : A -> ST X M B) (j : B -> ST X M C) t :
  st_bind (st_bind m k) j t = st_bind m (fun a => st_bind (k a) j) t.
Proof. unfold st_bind. by destruct (m t). Qed.

Lemma take_reply_or_park_step pid token dl ce t :
  slots_ok t -> local_step t (snd (take_reply_or_park pid token dl ce t)).
Proof.
  intros Hw. apply step_quiet_first; [apply quiet_ensure|]. intros _ t1 Hc.
  apply (slots_ok_core _ _ Hc) in Hw. clear Hc t.
  apply step_bind; cycle 1.
  { intros r. apply quiet_bind; [apply quiet_refused|]. intros p. apply quiet_bind.
    - destruct p; auto using quiet_ret, quiet_evict.
    - intros. apply quiet_ret. }
  apply with_hot_step. intros i s Hi Hg _. pose proof (Hw _ _ Hi) as Hok.
  destruct (Mailbox.take_reply (mailbox (hot s))) as [[r|] mb] eqn:Ep.
  - destruct (reply_token r =? token).
    + apply (take_then_clear i s); eauto using take_default.
    + apply step_bind; [|intros; apply quiet_ret]. eapply mailbox_edit; eauto using take_default.
  - assert (mb = mailbox (hot s)) as ->.
    { unfold Mailbox.take_reply in Ep. injection Ep as Hr <-.
      destruct (mailbox (hot s)); simpl in *. by rewrite Hr. }
    rewrite (st_bind_eval _ _ _ _ _ (upd_mailbox_same i s t1 Hi)).
    destruct (negb (is_alive ce t1)).
    + apply step_bind; [|intros; apply quiet_ret]. by apply (hot_edit i s).
    + apply (park_blocked_step pid i s); [done|apply Hok|done].
Qed.

Lemma slot_of_live pid t i s : live_slot pid t = Some (i, s) -> arena t !! i = Some s.
Proof.
  unfold live_slot. destruct (slot_of pid t) as [[[j s'] gen]|] eqn:E; [|done].
  apply slot_of_Some in E as (Hi & _). destruct (_ =? _); [|done]. by intros [= <- <-].
Qed.

(** Plain stores to a live slot. *)
Lemma live_edit pid t i s f :
  live_slot pid t = Some (i, s) -> lifecycle (f s) = lifecycle s -> execution (f s) = execution s ->
  hot (f s) = hot s -> local_step t (snd (upd_slot i f t)).
Proof.
  intros Hl Hw He Hh. apply slot_of_live in Hl.
  apply (upd_slot_edit _ _ s); [done|done|by rewrite He|by rewrite Hh].
Qed.

Lemma set_context_step pid c t : local_step t (snd (set_context pid c t)).
Proof.
  unfold set_context. destruct (live_slot pid t) as [[i s]|] eqn:E; [|by apply step_same].
  by eapply live_edit.
Qed.
Lemma set_log_level_step pid l t : local_step t (snd (set_log_level pid l t)).
Proof.
  unfold set_log_level. destruct (live_slot pid t) as [[i s]|] eqn:E; [|by apply step_same].
  by eapply live_edit.
Qed.
Lemma log_enter_step pid t : local_step t (snd (log_enter pid t)).
Proof.
  unfold log_enter. destruct (live_slot pid t) as [[i s]|] eqn:E; [|by apply step_same].
  by eapply (live_edit pid t i s (with_log_busy 1)).
Qed.
Lemma log_leave_step pid t : local_step t (snd (log_leave pid t)).
Proof.
  unfold log_leave. destruct (live_slot pid t) as [[i s]|] eqn:E; [|by apply step_same].
  by eapply live_edit.
Qed.
Lemma set_priority_step pid p t : local_step t (snd (set_priority pid p t)).
Proof.
  unfold set_priority. destruct (slot_of pid t) as [[[i s] gen]|] eqn:E; [|by apply step_same].
  apply slot_of_Some in E as (Hi & _). destruct (_ =? _); [|by apply step_same].
  by apply (upd_slot_edit _ _ s).
Qed.
Lemma with_execution_step {A} pid (f : X -> A * X) t :
  local_step t (snd (with_execution pid f t)).
Proof.
  unfold with_execution. destruct (slot_of pid t) as [[[i s] gen]|] eqn:E; [|by apply step_same].
  apply slot_of_Some in E as (Hi & _). destruct (negb _); [by apply step_same|].
  destruct (execution s) as [x|] eqn:Ex; [|by apply step_same]. destruct (f x) as [a x'].
  apply (upd_slot_edit _ _ s); [done|done| |done]. simpl. by rewrite Ex.
Qed.

(** ** Wakes *)

(** A wake after an edit of the hot state of the same slot. *)
Lemma wake_after_edit pid i s from f t :
  arena t !! i = Some s -> word_wf (lifecycle s) -> generation (view s) = snd (decode pid) ->
  state (view s) = Some from -> from = Blocked \/ from = WaitingIO ->
  forall t1, core_eq (put i (with_hot_of f s) t) t1 ->
  local_step t (snd (wake_edge pid i from t1)) /\
  fst (wake_edge pid i from t1) = Some (mkWake pid (get_priority s)).
Proof.
  intros Hi Hwf Hg Hst Hfrom t1 (Ha & Hac & Hal & Hf).
  assert (arena t1 !! i = Some (with_hot_of f s)) as Hi1 by (rewrite Ha; by eapply lookup_put).
  destruct (wake_edge_spec pid i _ from t1 Hi1 Hwf Hg Hst) as (t' & -> & Ha' & Hal' & Hf' & Hac').
  simpl in *. split; [|done]. apply (put_edge i s from Runnable f); try done.
  - by destruct Hfrom as [-> | ->].
  - rewrite Ha', Ha. simpl. by rewrite list_insert_insert_eq.
  - congruence.
  - congruence.
  - rewrite Hac', Hac. by destruct Hfrom as [-> | ->].
Qed.

Lemma deliver_locked_step pid i s m t :
  arena t !! i = Some s -> slot_ok s -> word_alive (view s) (snd (decode pid)) = true ->
  local_step t (snd (deliver_locked pid i s m t)).
Proof.
  intros Hi Hok Ha. apply word_alive_true in Ha as (Hg & st & Hst & Hnd).
  unfold deliver_locked. destruct (Mailbox.push (mailbox (hot s)) m) as [displaced mb] eqn:Ep.
  unfold upd_hot. rewrite (st_bind_eval _ _ _ _ _ (upd_slot_put _ _ _ _ Hi)).
  rewrite (st_bind_eval _ _ _ _ _ (eq_refl : record pid Delivered _ = (tt, _))).
  unfold slot_state. fold (view s). rewrite Hst.
  assert (forall from, st = from -> from = Blocked \/ from = WaitingIO ->
    local_step t (snd ((let* w := wake_edge pid i from in st_ret (mkDelivery displaced w))
      (snd (record pid Delivered (put i (with_hot_of (set_mailbox mb) s) t)))))) as Hwake.
  { intros from -> Hfrom.
    destruct (wake_after_edit pid i s from (set_mailbox mb) t Hi (slot_word _ Hok) Hg Hst Hfrom
                (snd (record pid Delivered (put i (with_hot_of (set_mailbox mb) s) t))))
      as [Hs _]; [by repeat split|].
    apply (step_frame _ _ _ Hs). unfold st_bind. by destruct (wake_edge _ _ _ _). }
  assert (local_step t (snd ((let* w := st_ret None in st_ret (mkDelivery displaced w))
      (snd (record pid Delivered (put i (with_hot_of (set_mailbox mb) s) t)))))) as Hno.
  { apply (step_frame _ (put i (with_hot_of (set_mailbox mb) s) t)); [|by repeat split].
    apply (put_edit i s); [done|done|done|]. by rewrite Hst. }
  destruct st; try exact Hno.
  - destruct (bool_decide _); [|exact Hno]. by apply Hwake; [|left].
  - destruct (bool_decide _); [|exact Hno]. by apply Hwake; [|right].
Qed.

Lemma deliver_step pid m t : slots_ok t -> local_step t (snd (deliver pid m t)).
Proof.
  intros Hw. unfold deliver. destruct (slot_of pid t) as [[[i s] gen]|] eqn:E; [|by apply step_same].
  apply slot_of_Some in E as (Hi & _ & ->).
  destruct (word_alive _ _) eqn:Ea; [|by apply step_same].
  apply deliver_locked_step; eauto.
Qed.

Lemma deliver_reply_step pid token m t :
  slots_ok t -> local_step t (snd (deliver_reply pid token m t)).
Proof.
  intros Hw. unfold deliver_reply.
  destruct (slot_of pid t) as [[[i s] gen]|] eqn:E; [|by apply step_same].
  apply slot_of_Some in E as (Hi & _ & ->).
  destruct (word_alive _ _ && _) eqn:Ea; [|by apply step_same].
  apply andb_true_iff in Ea as [Ea _].
  pose proof (deliver_locked_step pid i s m t Hi (Hw _ _ Hi) Ea) as Hs.
  by destruct (deliver_locked pid i s m t).
Qed.

(** The body of the three promotions: clear the deadline, take the wake edge. *)
Lemma promote_body pid i s from t :
  arena t !! i = Some s -> word_wf (lifecycle s) -> generation (view s) = snd (decode pid) ->
  state (view s) = Some from -> from = Blocked \/ from = WaitingIO ->
  local_step t (snd ((upd_hot i (set_deadline None) ;;* wake_edge pid i from) t)) /\
  fst ((upd_hot i (set_deadline None) ;;* wake_edge pid i from) t) =
    Some (mkWake pid (get_priority s)).
Proof.
  intros Hi Hwf Hg Hst Hfrom. unfold upd_hot.
  rewrite (st_bind_eval _ _ _ _ _ (upd_slot_put _ _ _ _ Hi)).
  apply (wake_after_edit pid i s from (set_deadline None) t Hi Hwf Hg Hst Hfrom). reflexivity.
Qed.

Lemma promote_expired_step pid fire t : slots_ok t -> local_step t (snd (promote_expired pid fire t)).
Proof.
  intros Hw. apply step_bind.
  - apply with_hot_step. intros i s Hi Hg _. pose proof (slot_word _ (Hw _ _ Hi)) as Hwf.
    cbv zeta. fold (view s). destruct (state (view s)) as [[]|] eqn:Est; try by apply step_same.
    all: destruct (negb _); [by apply step_same|].
    all: by eapply promote_body; eauto.
  - intros r. destruct (default None r); [apply quiet_ret|].
    apply quiet_bind; [apply quiet_count|]. intros. apply quiet_ret.
Qed.

Lemma promote_io_waiter_step pid t : slots_ok t -> local_step t (snd (promote_io_waiter pid t)).
Proof.
  intros Hw. apply step_bind; [|intros; apply quiet_ret].
  apply with_hot_step. intros i s Hi Hg _. pose proof (slot_word _ (Hw _ _ Hi)) as Hwf.
  cbv zeta. fold (view s). destruct (_ || _) eqn:E; [by apply step_same|]. clean.
  by eapply promote_body; eauto.
Qed.

Lemma promote_call_waiter_step cr token t :
  slots_ok t -> local_step t (snd (promote_call_waiter cr token t)).
Proof.
  intros Hw. apply step_bind; [|intros; apply quiet_ret].
  apply with_hot_step. intros i s Hi Hg _. pose proof (slot_word _ (Hw _ _ Hi)) as Hwf.
  cbv zeta. fold (view s). destruct (negb _) eqn:E; [by apply step_same|]. clean.
  by eapply promote_body; eauto.
Qed.

Lemma yield_running_step pid t : slots_ok t -> local_step t (snd (yield_running pid t)).
Proof.
  intros Hw. unfold yield_running.
  destruct (slot_of pid t) as [[[i s] gen]|] eqn:E; [|by apply step_same].
  apply slot_of_Some in E as (Hi & _ & ->). pose proof (slot_word _ (Hw _ _ Hi)) as Hwf.
  rewrite (st_bind_eval _ _ _ _ _ (word_op_put false i _ s t Hi)).
  pose proof (try_edge_spec (snd (decode pid)) Running Runnable (lifecycle s) Hwf) as Hs.
  destruct (edge_next _ _ _ _) as [n|] eqn:En.
  - destruct Hs as (-> & _ & _). apply edge_next_Some in En as (Hg & Hst & _).
    eapply (put_edge i s Running Runnable (fun h => h)); try done.
    simpl. fold (view s) in Hg. rewrite Hg. f_equal.
  - rewrite Hs. cbn [fst snd negb]. rewrite with_word_same, put_same by done. by apply step_same.
Qed.

Lemma try_claim_step pid t : slots_ok t -> local_step t (snd (try_claim pid t)).
Proof.
  intros Hw. unfold try_claim.
  destruct (slot_of pid t) as [[[i s] gen]|] eqn:E; [|by apply step_same].
  apply slot_of_Some in E as (Hi & _ & ->). pose proof (slot_word _ (Hw _ _ Hi)) as Hwf.
  rewrite (st_bind_eval _ _ _ _ _ (word_op_put false i _ s t Hi)).
  pose proof (try_claim_spec (snd (decode pid)) (lifecycle s) Hwf) as Hs.
  destruct (claim_next _ _) as [n|] eqn:En.
  - destruct Hs as (-> & Hwf' & Hl). apply claim_next_Some in En as (Hg & Hc & Hst & ->).
    cbn [negb]. rewrite (st_bind_eval _ _ _ _ _ (upd_slot_put _ _ _ _ (lookup_put _ _ _ _ Hi))).
    rewrite put_put. fold (view s) in *.
    set (s' := with_reductions _ _). assert (view s' = mkWordState (snd (decode pid)) true (Some Running)) as Hv by exact Hl.
    eapply (ts_slot t _ i s s' false Hi); simpl.
    + destruct Hst as [Hst|Hst].
      * by eapply (sc_edge s s' Created Running); rewrite ?Hv, ?Hg, ?Hc.
      * by eapply (sc_edge s s' Runnable Running); rewrite ?Hv, ?Hg, ?Hc.
    + done.
    + unfold slot_active. rewrite Hv. by destruct Hst as [-> | ->].
    + unfold slot_live. rewrite Hv. by destruct Hst as [-> | ->].
    + by rewrite app_nil_right.
  - rewrite Hs. cbn [fst snd negb]. rewrite with_word_same, put_same by done. by apply step_same.
Qed.

(** ** Release, death and reclaim *)

Lemma decode_index_range pid : 0 <= fst (decode pid) < 2 ^ 32.
Proof.
  unfold decode. cbn [fst]. change (2 ^ 32 - 1) with (Z.ones 32). rewrite Z.land_ones by lia.
  apply Z.mod_pos_bound. lia.
Qed.

(** What [reclaim_locked] leaves in the slot. *)
Definition freed_slot s : Slot X M :=
  let s1 := with_hot_of (fun _ => hot_default) (with_exec None s) in
  with_word (snd (vacate (lifecycle s1))) s1.

Lemma freed_slot_view s :
  word_wf (lifecycle (freed_slot s)) /\
  view (freed_slot s) = mkWordState (wrap 32 (generation (view s) + 1)) false None /\
  execution (freed_slot s) = None /\ hot (freed_slot s) = hot_default.
Proof.
  destruct (vacate_spec (lifecycle s)) as [Hwf Hl]. split; [exact Hwf|]. split; [exact Hl|done].
Qed.

Lemma reclaim_locked_eval pid i s t :
  arena t !! i = Some s ->
  reclaim_locked pid i t =
    (mkReclaim (execution s) (mailbox (hot s)), snd (record pid Freed (put i (freed_slot s) t))).
Proof.
  intros Hi. unfold reclaim_locked. rewrite Hi.
  by rewrite (st_bind_eval _ _ _ _ _ (upd_slot_put _ _ _ _ Hi)).
Qed.

Lemma after_switch_step pid t : slots_ok t -> local_step t (snd (after_switch pid t)).
Proof.
  intros Hw. unfold after_switch.
  destruct (slot_of pid t) as [[[i s] gen]|] eqn:E; [|by apply step_same].
  apply slot_of_Some in E as (Hi & Hidx & ->). pose proof (Hw _ _ Hi) as Hok.
  rewrite (st_bind_eval _ _ _ _ _ (word_op_put None i _ s t Hi)).
  pose proof (release_spec (snd (decode pid)) (lifecycle s) (slot_word _ Hok)) as Hs.
  destruct (release_next _ _) as [n|] eqn:En.
  - destruct Hs as (Hst & Hwf' & Hl). apply release_next_Some in En as (Hg & Hc & ->).
    rewrite Hst. fold (view s) in *. set (s1 := with_word _ s) in *.
    assert (view s1 = mkWordState (generation (view s)) false (state (view s))) as Hv
      by (rewrite Hg; exact Hl).
    assert (state (view s) <> Some Dead -> local_step t (put i s1 t)) as Hrel.
    { intros Hnd. eapply (ts_slot t _ i s s1 false Hi); [by apply sc_release| | | |].
      - done.
      - unfold slot_active. by rewrite Hv, adjust_same.
      - unfold slot_live. by rewrite Hv, adjust_same.
      - by rewrite app_nil_right. }
    destruct (state (view s)) as [[]|] eqn:Est; try by apply Hrel.
    unfold reclaim. rewrite st_bind_assoc.
    rewrite (st_bind_eval _ _ _ _ _ (reclaim_locked_eval pid i s1 _ (lookup_put _ _ _ _ Hi))).
    rewrite put_put. destruct (freed_slot_view s1) as (Hfw & Hfv & Hfe & Hfh).
    eapply (ts_slot t _ i s (freed_slot s1) true Hi).
    + apply sc_free; try done; [by right|]. by rewrite Hfv, Hv.
    + done.
    + unfold slot_active. rewrite Hfv, Est. done.
    + unfold slot_live. rewrite Hfv, Est. done.
    + simpl. rewrite Hidx. f_equal. f_equal.
      pose proof (decode_index_range pid). rewrite Z2Nat.id; [done|lia].
  - rewrite Hs. cbn [fst snd]. rewrite with_word_same, put_same by done. by apply step_same.
Qed.

(** The slot of a process marked [Dead]. *)
Definition dead_slot (forced : option ExitReason) s : Slot X M :=
  let s1 := with_word (snd (try_kill (generation (view s)) (lifecycle s))) s in
  match forced with Some r => with_hot_of (set_reason r) s1 | None => s1 end.

Lemma dead_slot_view forced s :
  word_wf (lifecycle s) -> slot_live s = true ->
  fst (try_kill (generation (view s)) (lifecycle s)) = Some (view s) /\
  word_wf (lifecycle (dead_slot forced s)) /\
  view (dead_slot forced s) = mkWordState (generation (view s)) (on_cpu (view s)) (Some Dead) /\
  execution (dead_slot forced s) = execution s /\
  mailbox (hot (dead_slot forced s)) = mailbox (hot s).
Proof.
  intros Hwf Hl. pose proof (try_kill_spec (generation (view s)) (lifecycle s) Hwf) as Hs.
  destruct (kill_next _ _) as [n|] eqn:En.
  - destruct Hs as (Hf & Hwf' & Hv). apply kill_next_Some in En as (_ & ->).
    split; [exact Hf|]. destruct forced; (split; [exact Hwf'|]); (split; [exact Hv|done]).
  - unfold kill_next in En. destruct (word_alive _ _) eqn:Ea; [done|].
    assert (word_alive (view s) (generation (view s)) = true) as Ha;
      [|fold (view s) in Ea; congruence].
    unfold slot_live in Hl. apply word_alive_true. split; [done|].
    destruct (state (view s)) as [[]|]; eauto; done.
Qed.

Definition death_reason (forced : option ExitReason) s : ExitReason :=
  default (exit_reason (hot s)) forced.

(** The whole effect of the death edge on a live process. *)
Lemma death_edge_spec pid forced t i s :
  arena t !! i = Some s -> slot_ok s -> i = Z.to_nat (fst (decode pid)) ->
  word_alive (view s) (snd (decode pid)) = true ->
  exists t',
    death_edge pid forced t =
      (Some (if on_cpu (view s) then None
             else Some (mkReclaim (execution s) (mailbox (hot s)))), t') /\
    arena t' = <[i := if on_cpu (view s) then dead_slot forced s
                      else freed_slot (dead_slot forced s)]> (arena t) /\
    alive t' = alive t -u64 1 /\
    active t' = (if active_state (state (view s)) then active t -u64 1 else active t) /\
    main_pid t' = main_pid t /\
    registry t' =
      (let r := notify_exit pid (slot_parent s) (death_reason forced s) (hot_crash_info (hot s))
                  (registry t) in
       if on_cpu (view s) then r else set_free (free r ++ [Z.of_nat i]) r).
Proof.
  intros Hi Hok Hidx Ha. apply word_alive_true in Ha as (Hg & st & Hst & Hnd).
  assert (slot_live s = true) as Hl by (unfold slot_live; rewrite Hst; by destruct st).
  destruct (dead_slot_view forced s (slot_word _ Hok) Hl) as (Hk & _).
  assert (slot_of pid t = Some (i, s, snd (decode pid))) as Hso.
  { unfold slot_of, arena_get. destruct (decode pid) as [ix g]. simpl in *. subst i. by rewrite Hi. }
  assert (Z.of_nat i = fst (decode pid)) as Hfi.
  { pose proof (decode_index_range pid). subst i. rewrite Z2Nat.id; [done|lia]. }
  unfold death_edge, with_hot. unfold st_bind at 1. rewrite Hso. fold (view s).
  rewrite Hg, Z.eqb_refl. cbn [negb].
  rewrite (st_bind_eval _ _ _ _ _ (word_op_put None i _ s t Hi)). rewrite <- Hg, Hk.
  cbv beta iota zeta.
  set (s1 := with_word _ s).
  assert (match forced with Some r => upd_hot i (set_reason r) | None => st_ret tt end (put i s1 t)
          = (tt, put i (dead_slot forced s) t)) as Hforced.
  { destruct forced; [|done]. unfold upd_hot.
    by rewrite (upd_slot_put _ _ _ _ (lookup_put _ _ _ _ Hi)), put_put. }
  rewrite (st_bind_eval _ _ _ _ _ Hforced).
  set (t1 := snd (alive_dec (put i (dead_slot forced s) t))).
  rewrite (st_bind_eval alive_dec _ _ tt t1 eq_refl).
  set (t2 := if active_state (state (view s)) then snd (active_dec t1) else t1).
  assert (match state (view s) with
          | Some (Running | WaitingIO) => active_dec | _ => st_ret tt end t1 = (tt, t2)) as Hact
    by (unfold t2; rewrite Hst; by destruct st).
  rewrite (st_bind_eval _ _ _ _ _ Hact).
  set (t3 := snd (record pid (Transition (default Runnable (state (view s))) Dead) t2)).
  rewrite (st_bind_eval (record _ _) _ _ tt t3 eq_refl).
  assert (arena t3 = <[i := dead_slot forced s]> (arena t) /\ alive t3 = alive t -u64 1 /\
          active t3 = (if active_state (state (view s)) then active t -u64 1 else active t) /\
          main_pid t3 = main_pid t /\ registry t3 = registry t) as (Ha3 & Hal3 & Hac3 & Hm3 & Hr3)
    by (unfold t3, t2; by destruct (active_state _)).
  clearbody t3. destruct (on_cpu (view s)).
  - eexists. split; [reflexivity|]. simpl. by rewrite Hr3.
  - assert (arena t3 !! i = Some (dead_slot forced s)) as Hi3
      by (rewrite Ha3; apply list_lookup_insert_eq; by eapply lookup_lt_Some).
    rewrite !st_bind_assoc, (st_bind_eval _ _ _ _ _ (reclaim_locked_eval pid i _ t3 Hi3)).
    eexists. split.
    + destruct (dead_slot_view forced s (slot_word _ Hok) Hl) as (_ & _ & _ & -> & ->). reflexivity.
    + simpl. rewrite Ha3, Hr3, Hfi, list_insert_insert_eq. done.
Qed.

Lemma is_alive_slot pid t i s :
  arena t !! i = Some s -> i = Z.to_nat (fst (decode pid)) ->
  is_alive pid t = word_alive (view s) (snd (decode pid)).
Proof.
  intros Hi ->. unfold is_alive, slot_of, arena_get. destruct (decode pid) as [ix g]. simpl in *.
  by rewrite Hi.
Qed.

Lemma is_alive_true pid t :
  is_alive pid t = true ->
  exists i s, arena t !! i = Some s /\ i = Z.to_nat (fst (decode pid)) /\
    word_alive (view s) (snd (decode pid)) = true.
Proof.
  unfold is_alive. destruct (slot_of pid t) as [[[i s] gen]|] eqn:E; [|done].
  apply slot_of_Some in E as (Hi & Hidx & ->). eauto.
Qed.

(** A dead or stale target: nothing happens. *)
Lemma death_edge_none pid forced t :
  slots_ok t -> is_alive pid t = false -> death_edge pid forced t = (None, t).
Proof.
  intros Hw Hd. unfold death_edge, with_hot. unfold st_bind at 1.
  destruct (slot_of pid t) as [[[i s] gen]|] eqn:E; [|done].
  apply slot_of_Some in E as (Hi & Hidx & ->).
  rewrite (is_alive_slot pid t i s Hi Hidx) in Hd.
  destruct (negb _); [done|].
  rewrite (st_bind_eval _ _ _ _ _ (word_op_put None i _ s t Hi)).
  pose proof (try_kill_spec (snd (decode pid)) (lifecycle s) (slot_word _ (Hw _ _ Hi))) as Hs.
  unfold kill_next in Hs. fold (view s) in Hs. rewrite Hd in Hs. cbn [negb] in Hs.
  rewrite Hs. cbn [fst snd]. by rewrite with_word_same, put_same.
Qed.

Lemma death_edge_step pid forced t : slots_ok t -> local_step t (snd (death_edge pid forced t)).
Proof.
  intros Hw. destruct (is_alive pid t) eqn:Ea.
  - apply is_alive_true in Ea as (i & s & Hi & Hidx & Ha). pose proof (Hw _ _ Hi) as Hok.
    destruct (death_edge_spec pid forced t i s Hi Hok Hidx Ha)
      as (t' & -> & Har & Hal & Hac & _ & Hr). cbn [snd].
    apply word_alive_true in Ha as (_ & st & Hst & Hnd).
    assert (slot_live s = true) as Hl by (unfold slot_live; rewrite Hst; by destruct st).
    destruct (dead_slot_view forced s (slot_word _ Hok) Hl) as (_ & Hdw & Hdv & Hde & Hdm).
    destruct (freed_slot_view (dead_slot forced s)) as (Hfw & Hfv & Hfe & Hfh).
    destruct (on_cpu (view s)) eqn:Ec.
    + eapply (ts_slot t t' i s (dead_slot forced s) false Hi); try done.
      * by apply sc_die.
      * rewrite Hac. unfold slot_active. rewrite Hdv. by destruct (active_state _).
      * rewrite Hal. unfold slot_live. by rewrite Hdv, Hst; destruct st.
      * by rewrite Hr, app_nil_right.
    + eapply (ts_slot t t' i s _ true Hi); [|exact Har| | |].
      * apply sc_free; try done; [by left|]. by rewrite Hfv, Hdv.
      * rewrite Hac. unfold slot_active. rewrite Hfv. by destruct (active_state _).
      * rewrite Hal. unfold slot_live. by rewrite Hfv, Hst; destruct st.
      * by rewrite Hr.
  - rewrite (death_edge_none pid forced t Hw Ea). by apply step_same.
Qed.

Lemma kill_step pid t : slots_ok t -> local_step t (snd (kill pid t)).
Proof. intros Hw. apply step_bind; [by apply death_edge_step|]. intros. apply quiet_ret. Qed.

Lemma mark_dead_step pid t : slots_ok t -> local_step t (snd (mark_dead_if_alive pid t)).
Proof. intros Hw. apply step_bind; [by apply death_edge_step|]. intros. apply quiet_ret. Qed.

(** ** Spawn *)

(** The index a spawn takes and the table it takes it from. *)
Definition take_result t : nat * Table X M :=
  match vec_pop (free (registry t)) with
  | Some (i, rest) =>
      (Z.to_nat i, mkTable (active t) (alive t) (arena t) (counters t) (main_pid t)
                     (set_free rest (registry t)) (trace t))
  | None => (length (arena t), snd (set_arena (arena t ++ [slot_new]) t))
  end.

Lemma take_index_eval t :
  Z.of_nat (length (arena t)) < 2 ^ 32 -> Forall (fun i => 0 <= i) (free (registry t)) ->
  take_index t = (Z.of_nat (fst (take_result t)), snd (take_result t)).
Proof.
  intros Hlen Hpos. unfold take_index, take_result, with_registry. unfold st_bind at 1.
  destruct (vec_pop (free (registry t))) as [[i rest]|] eqn:E.
  - apply vec_pop_Some in E. rewrite E in Hpos. apply Forall_app in Hpos as [_ Hpos].
    inversion Hpos; subst. simpl. by rewrite Z2Nat.id.
  - unfold grow. cbn [fst snd arena]. rewrite wrap_small; [by destruct t|]. split; [lia|exact Hlen].
Qed.

Definition dressed (gen : Z) (parent : option Pid) (inherited : Context) (level : Z) (x : X) s
    : Slot X M :=
  mkSlot (to_words inherited) (Some x) (hot s) (occupy gen (lifecycle s)) 0 level
    (default 0 parent) (priority_index priority_default) (reductions s).

Definition inherited_context (parent : option Pid) t : Context :=
  match parent with
  | Some p => match slot_of p t with Some (_, s, _) => from_words (slot_context s) | None => ZERO end
  | None => ZERO
  end.
Definition inherited_level (parent : option Pid) t : Z :=
  match parent with
  | Some p => match slot_of p t with Some (_, s, _) => slot_log_level s | None => DEFAULT_LOG_LEVEL end
  | None => DEFAULT_LOG_LEVEL
  end.

(** The whole effect of an accepted spawn. *)
Lemma spawn_spec x par t i t1 s :
  Z.of_nat (length (arena t)) < 2 ^ 32 -> Forall (fun i => 0 <= i) (free (registry t)) ->
  match par with Some p => is_alive p t = true | None => True end ->
  take_result t = (i, t1) -> arena t1 !! i = Some s ->
  let gen := Z.max (generation (view s)) 1 in
  let pid := encode (Z.of_nat i) gen in
  exists t', spawn x par t = (inl pid, t') /\
    arena t' = <[i := dressed gen par (inherited_context par t1) (inherited_level par t1) x s]> (arena t1) /\
    active t' = active t /\ alive t' = alive t +u64 1 /\
    main_pid t' = (if main_pid t =? 0 then pid else main_pid t) /\
    registry t' = match par with
                  | Some p => set_children (insert_child p pid (children (registry t1))) (registry t1)
                  | None => registry t1
                  end.
Proof.
  intros Hlen Hpos Hpar Htr Hi gen pid. unfold spawn.
  assert (match par with Some p => negb (is_alive p t) | None => false end = false) as ->
    by (destruct par; [by rewrite Hpar|done]).
  pose proof (take_index_eval t Hlen Hpos) as Hti. rewrite Htr in Hti. cbn [fst snd] in Hti.
  rewrite (st_bind_eval _ _ _ _ _ Hti). cbv zeta. rewrite Nat2Z.id, Hi. fold (view s). fold gen. fold pid.
  assert (active t1 = active t /\ alive t1 = alive t /\ main_pid t1 = main_pid t) as (Hac & Hal & Hm).
  { unfold take_result in Htr. destruct (vec_pop _) as [[??]|]; by simplify_eq/=. }
  rewrite <- Hac, <- Hal, <- Hm.
  unfold inherited_context, inherited_level.
  destruct par as [p|]; [destruct (slot_of p t1) as [[[j sp] g]|]|].
  all: unfold st_bind at 1; cbn [with_registry st_ret].
  all: unfold dress_slot, upd_slot, set_arena, st_bind; cbn [arena].
  all: rewrite (alter_as_insert _ _ _ _ Hi).
  all: simpl; destruct (main_pid t1 =? 0); simpl; eexists; (split; [reflexivity|]); done.
Qed.

(** The freelist names published slots. *)
Definition free_in_range t : Prop :=
  Forall (fun z => 0 <= z /\ is_Some (arena t !! Z.to_nat z)) (free (registry t)).

Lemma take_result_slot t :
  free_in_range t -> exists s, arena (snd (take_result t)) !! fst (take_result t) = Some s.
Proof.
  intros Hf. unfold take_result. destruct (vec_pop (free (registry t))) as [[z rest]|] eqn:E.
  - apply vec_pop_Some in E. unfold free_in_range in Hf. rewrite E in Hf.
    apply Forall_app in Hf as [_ Hf]. inversion Hf as [|? ? [_ [s Hs]] _]; subst. by exists s.
  - exists slot_new. simpl. by rewrite lookup_app_r, Nat.sub_diag.
Qed.

Lemma take_result_step t :
  free_in_range t ->
  exists rest, free (registry (snd (take_result t))) = rest /\
    ((arena (snd (take_result t)) = arena t /\
      free (registry t) = rest ++ [Z.of_nat (fst (take_result t))]) \/
     (arena (snd (take_result t)) = arena t ++ [slot_new] /\ free (registry t) = [] /\
      rest = [] /\ fst (take_result t) = length (arena t))).
Proof.
  intros Hf. unfold take_result. destruct (vec_pop (free (registry t))) as [[z rest]|] eqn:E.
  - apply vec_pop_Some in E. exists rest. split; [done|]. left. simpl. split; [done|].
    unfold free_in_range in Hf. rewrite E in Hf |- *.
    apply Forall_app in Hf as [_ Hf]. inversion Hf as [|? ? [Hz _] _]; subst. by rewrite Z2Nat.id.
  - apply vec_pop_None in E. exists []. split; [done|]. by right.
Qed.

Lemma free_in_range_nonneg t : free_in_range t -> Forall (fun i => 0 <= i) (free (registry t)).
Proof. intros Hf. eapply Forall_impl; [exact Hf|]. by intros z [? _]. Qed.

Lemma spawn_refused x p t : is_alive p t = false -> spawn x (Some p) t = (inr x, t).
Proof. intros Hd. unfold spawn. by rewrite Hd. Qed.

Lemma spawn_step x par t :
  free_in_range t -> Z.of_nat (length (arena t)) < 2 ^ 32 ->
  table_step t (snd (spawn x par t)).
Proof.
  intros Hf Hlen.
  destruct (match par with Some p => negb (is_alive p t) | None => false end) eqn:Ep.
  { destruct par as [p|]; [|done]. apply negb_true_iff in Ep. rewrite spawn_refused by done.
    by apply ts_local, step_same. }
  destruct (take_result_slot t Hf) as [s Hs].
  destruct (take_result_step t Hf) as (rest & Hrest & Hcase).
  destruct (take_result t) as [i t1] eqn:Et. cbn [fst snd] in *.
  destruct (spawn_spec x par t i t1 s Hlen (free_in_range_nonneg t Hf)) as
    (t' & -> & Ha & Hac & Hal & _ & Hr); [|done|done|].
  { destruct par; [by apply negb_false_iff|done]. }
  pose proof (load_generation_range (lifecycle s)) as Hgr. fold (view s) in Hgr.
  destruct (occupy_spec (Z.max (generation (view s)) 1) (lifecycle s)) as [Hwf Hl]; [lia|].
  cbn [snd]. apply (ts_spawn t t' i s
    (dressed (Z.max (generation (view s)) 1) par (inherited_context par t1) (inherited_level par t1) x s)
    (arena t1) rest Hcase Hs);
    [exact Hwf|exact Hl|by eexists|done|exact Ha|done|done|].
  rewrite Hr. by destruct par.
Qed.

(** ** The registry methods *)

Lemma quiet_with_hot {A} pid (f : nat -> Slot X M -> ST X M A) :
  (forall i s, quiet (f i s)) -> quiet (with_hot pid f).
Proof.
  intros Hf t. unfold with_hot. destruct (slot_of pid t) as [[[i s] gen]|]; [|done].
  destruct (negb _); [done|]. specialize (Hf i s t). by destruct (f i s t).
Qed.

Lemma quiet_monitor watcher target : quiet (monitor watcher target).
Proof.
  intros t. unfold monitor. destruct (is_alive target t); [done|].
  match goal with |- core_eq _ (snd (?m t)) => assert (quiet m) as Hq end; [|apply Hq].
  apply quiet_bind; [by apply quiet_registry|]. intros token. apply quiet_bind.
  - apply quiet_with_hot. intros. apply quiet_ret.
  - intros snap. apply quiet_bind; [by apply quiet_registry|]. intros. apply quiet_ret.
Qed.

Lemma quiet_demonitor token : quiet (demonitor token).
Proof. by apply quiet_registry. Qed.
Lemma quiet_take_call_downs : quiet take_call_downs.
Proof. by apply quiet_registry. Qed.
Lemma quiet_take_exit_notices : quiet take_exit_notices.
Proof. by apply quiet_registry. Qed.
Lemma quiet_take_pending_kills : quiet take_pending_kills.
Proof. by apply quiet_registry. Qed.
Lemma quiet_enter_draining : quiet enter_draining.
Proof. apply quiet_registry. intros r. by destruct (mode r). Qed.
End Steps.
