(* ===== verification/TableInv.v ===== *)
(** * Invariants of the process table

    The operations of the table as one type [TableOp], the invariant that ties
    the gauges, the freelist and the slots together, and its preservation by any
    sequence of operations. Also what the invariant gives the runtime: exact
    process counts, no resurrection, and the shutdown of a drained runtime. *)

From S2P Require Import Prelude Protocol Wire Mailbox Lifecycle ProcessTable Arena TableSteps.
Local Open Scope Z_scope.

Section Ops.
Context {X M : Type} `{Message M}.

(** Every method of the table that can change it. *)
Inductive TableOp :=
  | OSpawn (x : X) (parent : option Pid)
  | OClaim (pid : Pid)
  | OPark (pid : Pid) (target : WaitTarget) (dl : option Instant)
  | OParkIo (pid : Pid) (dl : option Instant)
  | OPop (pid : Pid)
  | OTakeReply (pid : Pid)
  | OReceive (pid : Pid) (dl : option Instant)
  | OReplyOrPark (pid : Pid) (token : Z) (dl : option Instant) (ce : Pid)
  | OClearDeadline (pid : Pid)
  | OSetAwaiting (pid : Pid) (token : Z)
  | OClearAwaiting (pid : Pid)
  | OSetExitReason (pid : Pid) (r : ExitReason)
  | OSetCrashInfo (pid : Pid) (c : CrashInfo)
  | OSetContext (pid : Pid) (c : Context)
  | OSetLogLevel (pid : Pid) (level : Z)
  | OLogEnter (pid : Pid)
  | OLogLeave (pid : Pid)
  | OSetPriority (pid : Pid) (p : Priority)
  | OWithExecution (pid : Pid) (f : X -> X)
  | ODeliver (pid : Pid) (m : M)
  | ODeliverReply (pid : Pid) (token : Z) (m : M)
  | OPromoteExpired (pid : Pid) (fire_at : Instant)
  | OPromoteIo (pid : Pid)
  | OPromoteCall (cr : Pid) (token : Z)
  | OYield (pid : Pid)
  | OAfterSwitch (pid : Pid)
  | OKill (pid : Pid)
  | OMarkDead (pid : Pid)
  | OMonitor (watcher target : Pid)
  | ODemonitor (token : Z)
  | OTakeCallDowns
  | OTakeExitNotices
  | OTakePendingKills
  | OEnterDraining
  | OKillAll.

Definition apply_op (op : TableOp) (t : Table X M) : Table X M :=
  match op with
  | OSpawn x par => snd (spawn x par t)
  | OClaim pid => snd (try_claim pid t)
  | OPark pid target dl => snd (try_park pid target dl t)
  | OParkIo pid dl => snd (try_park_io pid dl t)
  | OPop pid => snd (pop_received pid t)
  | OTakeReply pid => snd (take_reply pid t)
  | OReceive pid dl => snd (receive_or_park pid dl t)
  | OReplyOrPark pid token dl ce => snd (take_reply_or_park pid token dl ce t)
  | OClearDeadline pid => snd (clear_deadline pid t)
  | OSetAwaiting pid token => snd (set_awaiting_reply pid token t)
  | OClearAwaiting pid => snd (clear_awaiting_reply pid t)
  | OSetExitReason pid r => snd (set_exit_reason pid r t)
  | OSetCrashInfo pid c => snd (set_crash_info pid c t)
  | OSetContext pid c => snd (set_context pid c t)
  | OSetLogLevel pid l => snd (set_log_level pid l t)
  | OLogEnter pid => snd (log_enter pid t)
  | OLogLeave pid => snd (log_leave pid t)
  | OSetPriority pid p => snd (set_priority pid p t)
  | OWithExecution pid f => snd (with_execution pid (fun x => (tt, f x)) t)
  | ODeliver pid m => snd (deliver pid m t)
  | ODeliverReply pid token m => snd (deliver_reply pid token m t)
  | OPromoteExpired pid f => snd (promote_expired pid f t)
  | OPromoteIo pid => snd (promote_io_waiter pid t)
  | OPromoteCall cr token => snd (promote_call_waiter cr token t)
  | OYield pid => snd (yield_running pid t)
  | OAfterSwitch pid => snd (after_switch pid t)
  | OKill pid => snd (kill pid t)
  | OMarkDead pid => snd (mark_dead_if_alive pid t)
  | OMonitor w tg => snd (monitor w tg t)
  | ODemonitor token => snd (demonitor token t)
  | OTakeCallDowns => snd (take_call_downs t)
  | OTakeExitNotices => snd (take_exit_notices t)
  | OTakePendingKills => snd (take_pending_kills t)
  | OEnterDraining => snd (enter_draining t)
  | OKillAll => snd (kill_all t)
  end.

Definition run_table (ops : list TableOp) (t : Table X M) : Table X M :=
  fold_left (fun t op => apply_op op t) ops t.
End Ops.
Arguments TableOp : clear implicits.

Section Invariant.
Context {X M : Type} `{Message M}.
Implicit Types (t : Table X M) (s : Slot X M).

Record table_inv t : Prop := {
  inv_slots : slots_ok t;
  inv_alive : alive t = countb slot_live (arena t);
  inv_active : active t = countb slot_active (arena t);
  inv_free_nodup : NoDup (free (registry t));
  inv_free_range : free_in_range t;
  inv_free_vacant : forall i s, arena t !! i = Some s ->
    (state (view s) = None <-> Z.of_nat i ∈ free (registry t));
  inv_length : Z.of_nat (length (arena t)) <= 2 ^ 32;
}.

Lemma slot_change_ok s s' b : slot_change s s' b -> slot_ok s -> slot_ok s'.
Proof.
  intros Hc [Hw Hv Ho Hcr Hd]. destruct Hc as
    [s s' Hl He Hm|s s' from to Hst Hleg Hnd Hwf Hview Hrun He|s s' Hon Hst Hwf Hview He Hh
    |s s' Hlive Hon Hwf Hview He Hm|s s' Hcase Hwf Hview He Hh].
  - assert (view s' = view s) as Hvw by (unfold view; by rewrite Hl).
    constructor; rewrite ?Hvw; [by rewrite Hl| | |done|done].
    + intros Hn. destruct (Hv Hn) as (? & Hx & Hmb). rewrite Hm by done. split; [done|].
      split; [by apply He|done].
    + intros Hn. destruct (execution s') eqn:E; [done|]. destruct (Ho Hn) as [x Hx].
      destruct He as [He _]. rewrite He in Hx by done. done.
  - constructor; rewrite ?Hview; simpl; try done.
    + intros _. rewrite He. apply Ho. by rewrite Hst.
    + intros [= ->]. by rewrite legal_to_created in Hleg.
    + naive_solver.
  - constructor; rewrite ?Hview; simpl; try done.
    + intros Hn. destruct (Hv Hn) as (Hoff & _). congruence.
    + intros Hn. rewrite He. by apply Ho.
  - constructor; rewrite ?Hview; simpl; try done.
    intros _. rewrite He. apply Ho. unfold slot_live in Hlive. by destruct (state (view s)).
  - constructor; rewrite ?Hview; simpl; try done. intros _. by rewrite Hh.
Qed.

(** Only a reclaim makes a slot vacant, and no change but a spawn occupies one. *)
Lemma slot_change_vacant s s' b :
  slot_change s s' b -> slot_ok s ->
  state (view s') = None <-> (state (view s) = None \/ b = true).
Proof.
  intros Hc Hok. destruct Hc as
    [s s' Hl He Hm|s s' from to Hst Hleg Hnd Hwf Hview Hrun He|s s' Hon Hst Hwf Hview He Hh
    |s s' Hlive Hon Hwf Hview He Hm|s s' Hcase Hwf Hview He Hh].
  - unfold view. rewrite Hl. naive_solver.
  - rewrite Hview, Hst. simpl. naive_solver.
  - rewrite Hview. simpl. naive_solver.
  - unfold slot_live in Hlive. rewrite Hview. simpl. destruct (state (view s)); naive_solver.
  - rewrite Hview. simpl. naive_solver.
Qed.

Lemma adjust_exact v (b b' : bool) :
  0 <= v <= 2 ^ 32 -> (b = true -> 0 < v) -> adjust v b b' = v - b2z b + b2z b'.
Proof.
  intros Hv Hb. unfold adjust. destruct b, b'; simpl; try lia.
  - rewrite wrap_small; [lia|]. specialize (Hb eq_refl). lia.
  - rewrite wrap_small; lia.
Qed.

Lemma gauge_insert (f : Slot X M -> bool) v (l : list (Slot X M)) i s s' :
  v = countb f l -> Z.of_nat (length l) <= 2 ^ 32 -> l !! i = Some s ->
  adjust v (f s) (f s') = countb f (<[i := s']> l).
Proof.
  intros Hv Hlen Hi. rewrite (countb_insert _ _ _ _ _ Hi).
  pose proof (countb_le_length f l). pose proof (countb_nonneg f l).
  rewrite adjust_exact; [by rewrite Hv|lia|].
  intros Hf. rewrite Hv. by eapply countb_pos.
Qed.

Lemma slots_ok_insert t i s' ar :
  slots_ok t -> arena t = ar -> slot_ok s' ->
  forall j s, <[i := s']> ar !! j = Some s -> slot_ok s.
Proof.
  intros Hs <- Hok j s Hj. apply list_lookup_insert_Some in Hj as [(_ & <- & _)|[_ Hj]]; [done|].
  by apply (Hs j).
Qed.

Lemma slot_step_inv t t' i s s' freed :
  table_inv t -> arena t !! i = Some s -> slot_change s s' freed ->
  arena t' = <[i := s']> (arena t) ->
  active t' = adjust (active t) (slot_active s) (slot_active s') ->
  alive t' = adjust (alive t) (slot_live s) (slot_live s') ->
  free (registry t') = free (registry t) ++ (if freed then [Z.of_nat i] else []) ->
  table_inv t'.
Proof.
  intros [Hs Hal Hac Hnd Hfr Hfv Hlen] Hi Hc Har Hac' Hal' Hf'.
  pose proof (slot_change_ok _ _ _ Hc (Hs _ _ Hi)) as Hok'.
  pose proof (slot_change_vacant _ _ _ Hc (Hs _ _ Hi)) as Hvac.
  assert (freed = true -> Z.of_nat i ∉ free (registry t)) as Hfresh.
  { intros ->. rewrite <- (Hfv i s Hi). inversion Hc as [| | | |? ? Hcase]; subst.
    unfold slot_live in Hcase. destruct Hcase as [[Hl _]|[-> _]]; [|done].
    by destruct (state (view s)). }
  constructor.
  - intros j sj. rewrite Har. by apply (slots_ok_insert t i s' (arena t)).
  - rewrite Hal', Har. by apply gauge_insert.
  - rewrite Hac', Har. by apply gauge_insert.
  - rewrite Hf'. destruct freed; [|by rewrite app_nil_r].
    apply NoDup_app. split; [done|]. split; [|apply NoDup_singleton].
    intros z Hz Hz'. apply list_elem_of_singleton in Hz' as ->. by apply Hfresh.
  - unfold free_in_range in *. rewrite Hf', Har. apply Forall_app. split.
    + eapply Forall_impl; [exact Hfr|]. intros z [Hz Hsome]. split; [done|].
      apply lookup_lt_is_Some. rewrite length_insert. by apply lookup_lt_is_Some.
    + destruct freed; [|constructor]. constructor; [|constructor]. split; [lia|].
      rewrite Nat2Z.id. apply lookup_lt_is_Some. rewrite length_insert. by eapply lookup_lt_Some.
  - intros j sj. rewrite Har, Hf'. intros Hj. rewrite elem_of_app.
    apply list_lookup_insert_Some in Hj as [(<- & <- & _)|[Hne Hj]].
    + rewrite Hvac, (Hfv i s Hi). destruct freed.
      * rewrite list_elem_of_singleton. naive_solver.
      * split; [intros [?|?]; [by left|done]|]. intros [?|Hin]; [by left|inversion Hin].
    + rewrite (Hfv j sj Hj). split; [by left|]. intros [?|Hin]; [done|].
      destruct freed; [|inversion Hin]. apply list_elem_of_singleton in Hin. lia.
  - by rewrite Har, length_insert.
Qed.

Lemma fresh_slot_ok : slot_ok (slot_new : Slot X M).
Proof.
  destruct word_new_spec as [Hwf Hl]. constructor; unfold view; simpl; rewrite ?Hl; done.
Qed.

Lemma spawn_step_inv t t' i s s' ar rest :
  table_inv t ->
  (ar = arena t /\ free (registry t) = rest ++ [Z.of_nat i]) \/
  (ar = arena t ++ [slot_new] /\ free (registry t) = [] /\ rest = [] /\ i = length (arena t)) ->
  ar !! i = Some s -> word_wf (lifecycle s') ->
  view s' = mkWordState (Z.max (generation (view s)) 1) false (Some Created) ->
  is_Some (execution s') -> arena t' = <[i := s']> ar ->
  active t' = active t -> alive t' = alive t +u64 1 -> free (registry t') = rest ->
  Z.of_nat (length ar) <= 2 ^ 32 -> table_inv t'.
Proof.
  intros [Hs Hal Hac Hnd Hfr Hfv Hlen] Hcase Hi Hwf Hv Hx Har Hac' Hal' Hf' Hlen'.
  assert (slot_ok s') as Hok' by (constructor; rewrite ?Hv; done).
  assert (forall j sj, ar !! j = Some sj -> slot_ok sj) as Hsar.
  { destruct Hcase as [[-> _]|(-> & _)]; [done|]. intros j sj Hj.
    apply lookup_app_Some in Hj as [Hj|[_ Hj]]; [by apply (Hs j)|].
    apply list_lookup_singleton_Some in Hj as [_ <-]. apply fresh_slot_ok. }
  assert (state (view s) = None) as Hvac.
  { destruct Hcase as [[-> Hfree]|(-> & _ & _ & ->)].
    - apply (Hfv i s Hi). rewrite Hfree. apply elem_of_app. right. by left.
    - rewrite lookup_app_r, Nat.sub_diag in Hi by lia. injection Hi as <-.
      unfold view. simpl. by rewrite (proj2 word_new_spec). }
  assert (forall f : Slot X M -> bool, f slot_new = false -> countb f ar = countb f (arena t)) as Hcount.
  { intros f Hf. destruct Hcase as [[-> _]|(-> & _)]; [done|].
    rewrite countb_app, countb_cons, Hf, countb_nil. simpl. lia. }
  assert (forall j sj, ar !! j = Some sj -> j <> i -> (state (view sj) = None <-> Z.of_nat j ∈ rest)) as Hothers.
  { intros j sj Hj Hne. destruct Hcase as [[-> Hfree]|(-> & Hfree & -> & ->)].
    - rewrite (Hfv j sj Hj), Hfree, elem_of_app, list_elem_of_singleton. split; [|by left].
      intros [?|?]; [done|lia].
    - apply lookup_app_Some in Hj as [Hj|[Hge Hj]].
      + rewrite (Hfv j sj Hj), Hfree. done.
      + apply list_lookup_singleton_Some in Hj as [? _]. lia. }
  assert (NoDup rest /\ Z.of_nat i ∉ rest) as [Hndr Hir].
  { destruct Hcase as [[_ Hfree]|(_ & _ & -> & _)]; [|split; [constructor|intros Hin; inversion Hin]].
    rewrite Hfree in Hnd. apply NoDup_app in Hnd as (? & Hd & _). split; [done|].
    intros Hin. apply (Hd _ Hin). by left. }
  assert (slot_live s = false /\ slot_active s = false) as [Hls Has]
    by (unfold slot_live, slot_active; by rewrite Hvac).
  pose proof (countb_insert slot_live ar i s s' Hi) as Hcl.
  pose proof (countb_insert slot_active ar i s s' Hi) as Hca.
  unfold slot_live in Hcl at 4. unfold slot_active in Hca at 4. rewrite Hv, Hls in Hcl. rewrite Hv, Has in Hca.
  rewrite Hcount in Hcl by (unfold slot_live, view; simpl; by rewrite (proj2 word_new_spec)).
  rewrite Hcount in Hca by (unfold slot_active, view; simpl; by rewrite (proj2 word_new_spec)).
  simpl in Hcl, Hca. pose proof (countb_le_length slot_live (arena t)). pose proof (countb_nonneg slot_live (arena t)).
  constructor.
  - intros j sj. rewrite Har. intros Hj.
    apply list_lookup_insert_Some in Hj as [(_ & <- & _)|[_ Hj]]; [done|by apply (Hsar j)].
  - rewrite Hal', Har, wrap_small; lia.
  - rewrite Hac', Har. lia.
  - by rewrite Hf'.
  - unfold free_in_range in *. rewrite Hf', Har. destruct Hcase as [[-> Hfree]|(_ & _ & -> & _)]; [|constructor].
    rewrite Hfree in Hfr. apply Forall_app in Hfr as [Hfr _].
    eapply Forall_impl; [exact Hfr|]. intros z [Hz Hsome]. split; [done|].
    apply lookup_lt_is_Some. rewrite length_insert. by apply lookup_lt_is_Some.
  - intros j sj. rewrite Har, Hf'. intros Hj.
    apply list_lookup_insert_Some in Hj as [(<- & <- & _)|[Hne Hj]].
    + rewrite Hv. done.
    + by apply (Hothers j).
  - by rewrite Har, length_insert.
Qed.

Lemma core_inv t t' : core_eq t t' -> table_inv t -> table_inv t'.
Proof.
  intros (Ha & Hac & Hal & Hf) [Hs Hal0 Hac0 Hnd Hfr Hfv Hl].
  constructor; unfold slots_ok, free_in_range; by rewrite ?Ha, ?Hac, ?Hal, ?Hf.
Qed.

Lemma local_step_inv t t' : local_step t t' -> table_inv t -> table_inv t'.
Proof.
  intros Hst Hinv. inversion Hst; subst; [by apply (core_inv t)|by eapply slot_step_inv].
Qed.

Lemma step_inv t t' :
  table_step t t' -> table_inv t -> Z.of_nat (length (arena t)) < 2 ^ 32 -> table_inv t'.
Proof.
  intros Hst Hinv Hlen. inversion Hst; subst; [by eapply local_step_inv|].
  eapply spawn_step_inv; try done.
  destruct H0 as [[-> _]|(-> & _)]; [lia|]. rewrite length_app. simpl. lia.
Qed.

Lemma local_step_length t t' : local_step t t' -> length (arena t') = length (arena t).
Proof. intros Hs. inversion Hs as [? ? Ha|? ? ? ? ? ? _ _ Ha]; subst; rewrite Ha, ?length_insert; done. Qed.

Lemma step_length t t' : table_step t t' -> (length (arena t') <= length (arena t) + 1)%nat.
Proof.
  intros Hs. inversion Hs as [? ? Hl|? ? ? ? ? ar ? Hc _ _ _ _ _ Ha]; subst.
  - apply local_step_length in Hl. lia.
  - rewrite Ha, length_insert. destruct Hc as [[-> _]|(-> & _)]; rewrite ?length_app; simpl; lia.
Qed.

Lemma kill_each_snd pids : forall t,
  snd (kill_each pids t) = fold_left (fun t pid => snd (kill pid t)) pids t.
Proof.
  induction pids as [|p pids IH]; intros t; simpl; [done|]. unfold st_bind.
  rewrite <- IH. destruct (kill p t) as [r t1]. simpl. by destruct (kill_each pids t1).
Qed.

Lemma kill_each_inv pids t :
  table_inv t ->
  table_inv (snd (kill_each pids t)) /\
  length (arena (snd (kill_each pids t))) = length (arena t).
Proof.
  rewrite kill_each_snd. revert t. induction pids as [|p pids IH]; intros t Hinv; simpl; [done|].
  pose proof (kill_step p t (inv_slots _ Hinv)) as Hk.
  destruct (IH _ (local_step_inv _ _ Hk Hinv)) as [Hi Hl]. split; [done|].
  rewrite Hl. by apply local_step_length.
Qed.

#[local] Hint Resolve try_claim_step try_park_step try_park_io_step pop_received_step
  take_reply_step receive_or_park_step take_reply_or_park_step upd_hot_of_step set_context_step
  set_log_level_step log_enter_step log_leave_step set_priority_step with_execution_step
  deliver_step deliver_reply_step promote_expired_step promote_io_waiter_step
  promote_call_waiter_step yield_running_step after_switch_step kill_step mark_dead_step
  quiet_step quiet_monitor quiet_demonitor quiet_take_call_downs quiet_take_exit_notices
  quiet_take_pending_kills quiet_enter_draining spawn_step : table.

Definition is_spawn (op : TableOp X M) : bool := match op with OSpawn _ _ => true | _ => false end.
Definition is_kill_all (op : TableOp X M) : bool := match op with OKillAll => true | _ => false end.

(** Every method but [spawn] and [kill_all] is one local step. *)
Lemma op_local_step (op : TableOp X M) t :
  is_spawn op = false -> is_kill_all op = false -> slots_ok t -> local_step t (apply_op op t).
Proof.
  intros Hs Hk Hw. destruct op; cbn [apply_op]; try done; auto with table.
  all: try (apply upd_hot_of_step; done).
  apply step_bind; [by apply upd_hot_of_step|intros a; apply quiet_evict].
Qed.

Lemma op_inv (op : TableOp X M) t :
  table_inv t -> Z.of_nat (length (arena t)) < 2 ^ 32 ->
  table_inv (apply_op op t) /\ (length (arena (apply_op op t)) <= length (arena t) + 1)%nat.
Proof.
  intros Hinv Hl. destruct (is_kill_all op) eqn:Ek; [|destruct (is_spawn op) eqn:Es].
  - destruct op; try done. cbn [apply_op]. unfold kill_all.
    destruct (kill_each_inv (live_pids t) t Hinv) as [Hi Hlen]. split; [done|]. lia.
  - destruct op; try done. cbn [apply_op].
    pose proof (spawn_step x parent t (inv_free_range _ Hinv) Hl) as Hs.
    split; [by eapply step_inv|]. by apply step_length in Hs.
  - pose proof (op_local_step op t Es Ek (inv_slots _ Hinv)) as Hs.
    split; [by eapply local_step_inv|]. apply local_step_length in Hs. lia.
Qed.

Lemma table_new_inv : table_inv (table_new : Table X M).
Proof.
  constructor; simpl; try done; constructor.
Qed.

Lemma run_inv (ops : list (TableOp X M)) t :
  table_inv t -> Z.of_nat (length (arena t)) + Z.of_nat (length ops) <= 2 ^ 32 ->
  table_inv (run_table ops t).
Proof.
  revert t. induction ops as [|op ops IH]; intros t Hinv Hl; simpl; [done|]. simpl in Hl.
  destruct (op_inv op t Hinv ltac:(lia)) as [Hi Hlen]. apply IH; [done|]. lia.
Qed.

(** ** Liveness of a (slot, generation) pair *)

Definition word_at (i : nat) t : WordState :=
  match arena t !! i with Some s => view s | None => mkWordState 0 false None end.

Definition pid_slot (pid : Pid) : nat := Z.to_nat (fst (decode pid)).
Definition pid_gen (pid : Pid) : Z := snd (decode pid).

Lemma is_alive_word pid t : is_alive pid t = word_alive (word_at (pid_slot pid) t) (pid_gen pid).
Proof.
  unfold is_alive, slot_of, arena_get, word_at, pid_slot, pid_gen. destruct (decode pid) as [ix g].
  simpl. destruct (arena t !! Z.to_nat ix); [done|]. unfold word_alive. simpl. by rewrite andb_false_r.
Qed.

Lemma process_state_word pid t :
  process_state pid t =
    if is_alive pid t then state (word_at (pid_slot pid) t) else None.
Proof.
  rewrite is_alive_word. unfold process_state, slot_of, arena_get, word_at, pid_slot, pid_gen.
  destruct (decode pid) as [ix g]. simpl. destruct (arena t !! Z.to_nat ix); [done|].
  unfold word_alive. simpl. by rewrite andb_false_r.
Qed.

(** A slot change never revives a generation, and moves a generation that stays
    alive along a legal edge or not at all. *)
Lemma slot_change_alive s s' b g :
  slot_change s s' b -> word_alive (view s') g = true ->
  word_alive (view s) g = true /\
  (state (view s') = state (view s) \/
   exists from to, state (view s) = Some from /\ state (view s') = Some to /\
     is_legal_transition from to = true).
Proof.
  intros Hc Ha. apply word_alive_true in Ha as (Hg & st & Hst & Hnd). rewrite word_alive_true.
  destruct Hc as
    [s s' Hl He Hm|s s' from to Hfrom Hleg Hto Hwf Hview Hrun He|s s' Hon Hns Hwf Hview He Hh
    |s s' Hlive Hon Hwf Hview He Hm|s s' Hcase Hwf Hview He Hh].
  - unfold view in *. rewrite Hl in *. split; [eauto|by left].
  - rewrite Hview in *. simpl in *. split; [|right; eauto]. split; [done|]. exists from.
    split; [done|]. intros ->. by rewrite legal_from_dead in Hleg.
  - rewrite Hview in *. simpl in *. split; [eauto|by left].
  - rewrite Hview in Hst. simpl in Hst. congruence.
  - rewrite Hview in Hst. done.
Qed.

Lemma local_step_alive t t' i g :
  local_step t t' -> word_alive (word_at i t') g = true ->
  word_alive (word_at i t) g = true /\
  (state (word_at i t') = state (word_at i t) \/
   exists from to, state (word_at i t) = Some from /\ state (word_at i t') = Some to /\
     is_legal_transition from to = true).
Proof.
  intros Hs Ha. inversion Hs as [? ? Har|? ? j s s' b Hj Hc Har]; subst; unfold word_at in *;
    rewrite Har in *; [auto|].
  destruct (decide (j = i)) as [->|Hne].
  - rewrite list_lookup_insert_eq in * by (by eapply lookup_lt_Some). rewrite Hj.
    by eapply slot_change_alive.
  - rewrite list_lookup_insert_ne in * by done. auto.
Qed.

(** Killing ends the target and no one is revived. *)
Lemma kill_alive pid t q :
  slots_ok t -> is_alive q (snd (kill pid t)) = true ->
  is_alive q t = true /\ (pid_slot q = pid_slot pid -> pid_gen q = pid_gen pid -> False).
Proof.
  intros Hw Ha. rewrite !is_alive_word in *.
  destruct (local_step_alive t _ _ _ (kill_step pid t Hw) Ha) as [Hal _]. split; [done|].
  intros Hsl Hgen. assert (is_alive pid t = true) as Hp by (by rewrite is_alive_word, <- Hsl, <- Hgen).
  pose proof Hp as Hp'. apply is_alive_true in Hp' as (i & s & Hi & Hidx & Hws).
  assert (pid_slot pid = i) as Hpi by done.
  unfold kill, st_bind in Ha.
  destruct (death_edge_spec pid (Some ExitKilled) t i s Hi (Hw _ _ Hi) Hidx Hws) as (t' & E & Har & _).
  rewrite E in Ha. simpl in Ha. rewrite Hsl, Hpi in Ha. unfold word_at in Ha. rewrite Har in Ha.
  rewrite list_lookup_insert_eq in Ha by (by eapply lookup_lt_Some).
  apply word_alive_true in Ha as (_ & st & Hst & Hnd). apply word_alive_true in Hws as (_ & st0 & Hst0 & Hnd0).
  assert (slot_live s = true) as Hl by (unfold slot_live; rewrite Hst0; by destruct st0).
  destruct (dead_slot_view (Some ExitKilled) s (slot_word _ (Hw _ _ Hi)) Hl) as (_ & _ & Hdv & _).
  destruct (on_cpu (view s)).
  - rewrite Hdv in Hst. simpl in Hst. congruence.
  - rewrite (proj1 (proj2 (freed_slot_view _))) in Hst. done.
Qed.

Lemma kill_each_alive pids t q :
  table_inv t -> is_alive q (snd (kill_each pids t)) = true ->
  is_alive q t = true /\ forall p, p ∈ pids -> pid_slot q = pid_slot p -> pid_gen q = pid_gen p -> False.
Proof.
  rewrite kill_each_snd. revert t. induction pids as [|p pids IH]; intros t Hinv Ha; simpl in Ha.
  - split; [done|]. intros p Hp. inversion Hp.
  - pose proof (kill_step p t (inv_slots _ Hinv)) as Hk.
    destruct (IH _ (local_step_inv _ _ Hk Hinv) Ha) as [Ha' Hnot].
    destruct (kill_alive p t q (inv_slots _ Hinv) Ha') as [Hal Hp].
    split; [done|]. intros r [->|Hr]%elem_of_cons; eauto.
Qed.

Lemma live_pids_elem t pid :
  pid ∈ live_pids t <->
  exists i s, arena t !! i = Some s /\ slot_live s = true /\
    pid = encode (Z.of_nat i) (generation (view s)).
Proof.
  unfold live_pids. rewrite list_elem_of_In, in_concat. split.
  - intros (l & Hl & Hp). apply in_map_iff in Hl as (o & <- & Ho).
    apply list_elem_of_In, elem_of_lookup_imap in Ho as (i & s & -> & Hi).
    exists i, s. split; [done|]. unfold live_pid, slot_state in Hp. fold (view s) in Hp.
    unfold slot_live. destruct (state (view s)) as [[]|]; simpl in Hp; naive_solver.
  - intros (i & s & Hi & Hl & ->). exists [encode (Z.of_nat i) (generation (view s))].
    split; [|by left]. apply in_map_iff. exists (Some (encode (Z.of_nat i) (generation (view s)))).
    split; [done|]. apply list_elem_of_In, elem_of_lookup_imap. exists i, s. split; [|done].
    unfold live_pid, slot_state. fold (view s). unfold slot_live in Hl.
    by destruct (state (view s)) as [[]|].
Qed.

Lemma encode_slot_gen i s t :
  table_inv t -> arena t !! i = Some s ->
  pid_slot (encode (Z.of_nat i) (generation (view s))) = i /\
  pid_gen (encode (Z.of_nat i) (generation (view s))) = generation (view s).
Proof.
  intros Hinv Hi. pose proof (lookup_lt_Some _ _ _ Hi) as Hlt. pose proof (inv_length _ Hinv) as Hl.
  pose proof (load_generation_range (lifecycle s)) as Hg. fold (view s) in Hg.
  unfold pid_slot, pid_gen. rewrite decode_encode by lia. simpl. by rewrite Nat2Z.id.
Qed.

Lemma slot_live_alive i s t :
  table_inv t -> arena t !! i = Some s -> slot_live s = true ->
  is_alive (encode (Z.of_nat i) (generation (view s))) t = true.
Proof.
  intros Hinv Hi Hl. rewrite is_alive_word. destruct (encode_slot_gen i s t Hinv Hi) as [-> ->].
  unfold word_at. rewrite Hi. apply word_alive_true. split; [done|].
  unfold slot_live in Hl. destruct (state (view s)) as [[]|]; eauto; done.
Qed.

Lemma kill_all_none t : table_inv t -> countb slot_live (arena (snd (kill_all t))) = 0.
Proof.
  intros Hinv. unfold kill_all. set (t' := snd (kill_each (live_pids t) t)).
  destruct (kill_each_inv (live_pids t) t Hinv) as [Hinv' _]. fold t' in Hinv'.
  apply countb_zero. intros s Hs. destruct (slot_live s) eqn:El; [|done]. exfalso.
  apply list_elem_of_lookup in Hs as [i Hi].
  pose proof (slot_live_alive i s t' Hinv' Hi El) as Ha.
  destruct (kill_each_alive (live_pids t) t _ Hinv Ha) as [Ha0 Hnot].
  destruct (encode_slot_gen i s t' Hinv' Hi) as [Hps Hpg].
  rewrite is_alive_word, Hps, Hpg in Ha0. unfold word_at in Ha0.
  destruct (arena t !! i) as [s0|] eqn:Hi0; [|by rewrite word_alive_true in Ha0; naive_solver].
  apply word_alive_true in Ha0 as (Hg & st & Hst & Hnd).
  apply (Hnot (encode (Z.of_nat i) (generation (view s)))); [|done|done].
  apply live_pids_elem. exists i, s0. split; [done|]. rewrite Hg. split; [|done].
  unfold slot_live. rewrite Hst. by destruct st.
Qed.

(** The slot a spawn dresses was vacant, so its mailbox is empty; every other slot
    is as it was. *)
Lemma pid_slot_encode (i : nat) gen :
  Z.of_nat i < 2 ^ 32 -> 0 <= gen < 2 ^ 32 ->
  pid_slot (encode (Z.of_nat i) gen) = i /\ pid_gen (encode (Z.of_nat i) gen) = gen.
Proof.
  intros Hi Hg. unfold pid_slot, pid_gen. rewrite decode_encode by lia. simpl. by rewrite Nat2Z.id.
Qed.

Lemma spawn_slot x par t pid t' :
  table_inv t -> Z.of_nat (length (arena t)) < 2 ^ 32 -> spawn x par t = (inl pid, t') ->
  exists s', - 2 ^ 63 <= pid < 2 ^ 63 /\
    arena t' !! pid_slot pid = Some s' /\
    view s' = mkWordState (pid_gen pid) false (Some Created) /\
    mailbox (hot s') = mailbox_default /\ state (word_at (pid_slot pid) t) = None /\
    forall j, j <> pid_slot pid -> arena t' !! j = arena t !! j.
Proof.
  intros Hinv Hlen Hsp. pose proof (inv_free_range _ Hinv) as Hf.
  destruct (match par with Some p => negb (is_alive p t) | None => false end) eqn:Ep.
  { destruct par as [p|]; [|done]. apply negb_true_iff in Ep. by rewrite spawn_refused in Hsp. }
  destruct (take_result_slot t Hf) as [s Hs]. destruct (take_result_step t Hf) as (rest & Hrest & Hcase).
  destruct (take_result t) as [i t1] eqn:Et. cbn [fst snd] in *.
  destruct (spawn_spec x par t i t1 s Hlen (free_in_range_nonneg t Hf)) as (t2 & E & Ha & _);
    [by destruct par; [apply negb_false_iff|]|done|done|].
  rewrite Hsp in E. injection E as -> ->.
  pose proof (load_generation_range (lifecycle s)) as Hg. fold (view s) in Hg.
  set (gen := Z.max (generation (view s)) 1) in *.
  assert (Z.of_nat i < 2 ^ 32) as Hi32.
  { apply lookup_lt_Some in Hs. destruct Hcase as [[Hc _]|(Hc & _)]; rewrite Hc in Hs;
      rewrite ?length_app in Hs; simpl in Hs; lia. }
  destruct (pid_slot_encode i gen) as [Hps Hpg]; [lia|lia|].
  rewrite Hps, Hpg. destruct (occupy_spec gen (lifecycle s)) as [_ Hl]; [lia|].
  eexists. split; [apply encode_range; lia|].
  split; [rewrite Ha; apply list_lookup_insert_eq; by eapply lookup_lt_Some|].
  split; [exact Hl|]. cbn [dressed hot].
  destruct Hcase as [[Hc Hfree]|(Hc & _ & _ & Hilen)].
  - rewrite Hc in Hs, Ha.
    assert (state (view s) = None) as Hvac.
    { apply (inv_free_vacant _ Hinv i s Hs). rewrite Hfree. apply elem_of_app. right. by left. }
    split; [by apply (slot_vacant _ (inv_slots _ Hinv _ _ Hs))|].
    split; [unfold word_at; by rewrite Hs|]. intros j Hj. by rewrite Ha, list_lookup_insert_ne.
  - rewrite Hc in Hs, Ha. subst i. rewrite lookup_app_r, Nat.sub_diag in Hs by lia. injection Hs as <-.
    split; [done|]. split; [unfold word_at; by rewrite lookup_ge_None_2|].
    intros j Hj. rewrite Ha, list_lookup_insert_ne by done.
    destruct (decide (j < length (arena t))%nat); [by rewrite lookup_app_l|].
    rewrite (lookup_ge_None_2 (arena t)) by lia. apply lookup_ge_None_2. rewrite length_app. simpl. lia.
Qed.

Lemma word_alive_vacant w g : state w = None -> word_alive w g = false.
Proof. intros Hn. unfold word_alive. rewrite Hn. apply andb_false_r. Qed.

(** A spawn brings exactly its own PID to life. *)
Lemma spawn_effect x par t pid t' :
  table_inv t -> Z.of_nat (length (arena t)) < 2 ^ 32 -> spawn x par t = (inl pid, t') ->
  - 2 ^ 63 <= pid < 2 ^ 63 /\
  is_alive pid t = false /\ process_state pid t' = Some Created /\
  (forall q, is_alive q t' = true ->
     is_alive q t = true \/ (pid_slot q = pid_slot pid /\ pid_gen q = pid_gen pid)) /\
  (forall q, is_alive q t = true -> is_alive q t' = true /\ process_state q t' = process_state q t).
Proof.
  intros Hinv Hlen Hsp.
  destruct (spawn_slot x par t pid t' Hinv Hlen Hsp) as (s' & Hr & Hs' & Hv & _ & Hvac & Hother).
  assert (word_at (pid_slot pid) t' = mkWordState (pid_gen pid) false (Some Created)) as Hw2
    by (unfold word_at; by rewrite Hs').
  assert (forall j, j <> pid_slot pid -> word_at j t' = word_at j t) as How
    by (intros j Hj; unfold word_at; by rewrite Hother).
  assert (is_alive pid t' = true) as Hal.
  { rewrite is_alive_word, Hw2. apply word_alive_true. eauto. }
  split; [done|]. split; [|split; [|split]].
  - rewrite is_alive_word. by apply word_alive_vacant.
  - by rewrite process_state_word, Hal, Hw2.
  - intros q Hq. rewrite !is_alive_word in *. destruct (decide (pid_slot q = pid_slot pid)) as [Hqi|Hqi].
    + right. split; [done|]. rewrite Hqi, Hw2 in Hq. by apply word_alive_true in Hq as [? _].
    + left. by rewrite <- How.
  - intros q Hq. rewrite !process_state_word, !is_alive_word in *.
    destruct (decide (pid_slot q = pid_slot pid)) as [Hqi|Hqi].
    + rewrite Hqi, (word_alive_vacant _ _ Hvac) in Hq. done.
    + by rewrite How.
Qed.

Lemma spawn_inr x par t y t' :
  table_inv t -> Z.of_nat (length (arena t)) < 2 ^ 32 -> spawn x par t = (inr y, t') ->
  y = x /\ t' = t /\ exists p, par = Some p /\ is_alive p t = false.
Proof.
  intros Hinv Hlen Hsp. pose proof (inv_free_range _ Hinv) as Hf.
  destruct (match par with Some p => negb (is_alive p t) | None => false end) eqn:Ep.
  { destruct par as [p|]; [|done]. apply negb_true_iff in Ep. rewrite spawn_refused in Hsp by done.
    injection Hsp as <- <-. eauto. }
  destruct (take_result_slot t Hf) as [s Hs]. destruct (take_result t) as [i t1] eqn:Et.
  destruct (spawn_spec x par t i t1 s Hlen (free_in_range_nonneg t Hf)) as (t2 & E & _);
    [by destruct par; [apply negb_false_iff|]|done|done|]. congruence.
Qed.

Lemma pid_eq p q :
  - 2 ^ 63 <= p < 2 ^ 63 -> - 2 ^ 63 <= q < 2 ^ 63 -> pid_slot p = pid_slot q -> pid_gen p = pid_gen q ->
  p = q.
Proof.
  intros Hp Hq Hs Hg. rewrite <- (encode_decode p Hp), <- (encode_decode q Hq).
  destruct (decode_range p), (decode_range q). unfold pid_slot, pid_gen in *. f_equal; lia.
Qed.

Lemma run_length_gen (ops : list (TableOp X M)) t :
  table_inv t -> Z.of_nat (length (arena t)) + Z.of_nat (length ops) <= 2 ^ 32 ->
  Z.of_nat (length (arena (run_table ops t))) <= Z.of_nat (length (arena t)) + Z.of_nat (length ops).
Proof.
  revert t. induction ops as [|op ops IH]; intros t Hinv Hl; simpl; [lia|]. simpl in Hl.
  destruct (op_inv op t Hinv ltac:(lia)) as [Hi Hlen]. specialize (IH _ Hi ltac:(lia)).
  unfold run_table in *. lia.
Qed.

(** A reachable table: the invariant, and room for one more slot. *)
Lemma reachable (ops : list (TableOp X M)) :
  Z.of_nat (length ops) < 2 ^ 32 ->
  table_inv (run_table ops table_new) /\
  Z.of_nat (length (arena (run_table ops table_new))) < 2 ^ 32.
Proof.
  intros Hlen. split; [apply run_inv; [apply table_new_inv|simpl; lia]|].
  pose proof (run_length_gen ops table_new table_new_inv ltac:(simpl; lia)). simpl in *. lia.
Qed.

(** ** Properties *)

(** C16: the gauges and the freelist are exact in every reachable table. The live
    count is the number of slots neither vacant nor dead, the active count the
    number running or waiting on I/O, and the freelist lists each vacant slot
    exactly once, so no slot is leaked or handed out twice. *)
Theorem table_gauges_exact (ops : list (TableOp X M)) (Hlen : Z.of_nat (length ops) <= 2 ^ 32) :
  let t := run_table ops table_new in
  process_count t = countb slot_live (arena t) /\
  active t = countb slot_active (arena t) /\
  NoDup (free (registry t)) /\
  (forall i s, arena t !! i = Some s ->
     (slot_state s = None <-> Z.of_nat i ∈ free (registry t))) /\
  (forall s, s ∈ arena t -> (execution s = None <-> slot_state s = None)).
Proof.
  cbv zeta. pose proof (run_inv ops table_new table_new_inv ltac:(simpl; lia)) as [Hs Hal Hac Hnd Hfr Hfv Hl].
  split; [done|]. split; [done|]. split; [done|]. split; [done|].
  intros s Hin. apply list_elem_of_lookup in Hin as [i Hi]. destruct (Hs _ _ Hi) as [_ Hv Ho _ _].
  split.
  - intros He. destruct (slot_state s) eqn:E; [|done]. destruct Ho as [x Hx]; [|congruence].
    unfold view, slot_state in *. by rewrite E.
  - intros Hn. by destruct (Hv Hn) as (_ & ? & _).
Qed.

(** C17: the dead stay dead. From any reachable table, if a PID that is not alive
    is alive after an operation, that operation is the spawn that returned it:
    no park, wake, claim, delivery, release or late kill resurrects a process or
    aliases a recycled slot. *)
Theorem only_spawn_makes_alive (ops : list (TableOp X M)) (op : TableOp X M) (pid : Pid)
    (Hlen : Z.of_nat (length ops) < 2 ^ 32) (Hpid : - 2 ^ 63 <= pid < 2 ^ 63)
    (Hdead : is_alive pid (run_table ops table_new) = false)
    (Halive : is_alive pid (apply_op op (run_table ops table_new)) = true) :
  exists x par, op = OSpawn x par /\ fst (spawn x par (run_table ops table_new)) = inl pid.
Proof.
  set (t := run_table ops table_new) in *.
  destruct (reachable ops Hlen) as [Hinv Hl]. fold t in Hinv, Hl.
  destruct (is_kill_all op) eqn:Ek; [|destruct (is_spawn op) eqn:Es].
  - destruct op; try done. cbn [apply_op] in Halive. unfold kill_all in Halive.
    destruct (kill_each_alive _ _ _ Hinv Halive). congruence.
  - destruct op as [x par| | | | | | | | | | | | | | | | | | | | | | | | | | | | | | | | | |]; try done.
    exists x, par. split; [done|]. cbn [apply_op] in Halive.
    destruct (spawn x par t) as [[p|y] t'] eqn:E; simpl in *.
    + destruct (spawn_effect x par t p t' Hinv Hl E) as (Hr & _ & _ & Honly & _).
      destruct (Honly pid Halive) as [?|[Hps Hpg]]; [congruence|]. f_equal. by apply pid_eq.
    + destruct (spawn_inr x par t y t' Hinv Hl E) as (_ & -> & _). congruence.
  - rewrite is_alive_word in Halive, Hdead.
    destruct (local_step_alive _ _ _ _ (op_local_step op t Es Ek (inv_slots _ Hinv)) Halive). congruence.
Qed.

(** C18: every state change is a legal edge. From any reachable table, a process
    alive before and after an operation is either in the same state or has moved
    along one edge of [is_legal_transition]. *)
Theorem state_edges_legal (ops : list (TableOp X M)) (op : TableOp X M) (pid : Pid)
    (from to : ProcessState) (Hlen : Z.of_nat (length ops) < 2 ^ 32)
    (Hfrom : process_state pid (run_table ops table_new) = Some from)
    (Hto : process_state pid (apply_op op (run_table ops table_new)) = Some to) :
  from = to \/ is_legal_transition from to = true.
Proof.
  set (t := run_table ops table_new) in *. destruct (reachable ops Hlen) as [Hinv Hl]. fold t in Hinv, Hl.
  rewrite process_state_word in Hfrom, Hto.
  destruct (is_alive pid t) eqn:Ea; [|done]. destruct (is_alive pid (apply_op op t)) eqn:Ea'; [|done].
  destruct (is_kill_all op) eqn:Ek; [|destruct (is_spawn op) eqn:Es].
  - destruct op; try done. exfalso. cbn [apply_op] in Ea'.
    pose proof (kill_all_none t Hinv) as Hz. rewrite countb_zero in Hz.
    rewrite is_alive_word in Ea'. unfold word_at in Ea'.
    destruct (arena (snd (kill_all t)) !! pid_slot pid) as [s|] eqn:Hs.
    + specialize (Hz s (list_elem_of_lookup_2 _ _ _ Hs)). apply word_alive_true in Ea' as (_ & st & Hst & Hnd).
      unfold slot_live in Hz. rewrite Hst in Hz. by destruct st.
    + apply word_alive_true in Ea' as (_ & st & Hst & _). done.
  - destruct op as [x par| | | | | | | | | | | | | | | | | | | | | | | | | | | | | | | | | |]; try done.
    left. cbn [apply_op] in *. destruct (spawn x par t) as [[p|y] t'] eqn:E; simpl in *.
    + destruct (spawn_effect x par t p t' Hinv Hl E) as (_ & _ & _ & _ & Hkeep).
      destruct (Hkeep pid Ea) as [_ Hk]. rewrite !process_state_word, Ea, Ea' in Hk. congruence.
    + destruct (spawn_inr x par t y t' Hinv Hl E) as (_ & -> & _). congruence.
  - rewrite is_alive_word in Ea'.
    destruct (local_step_alive _ _ _ _ (op_local_step op t Es Ek (inv_slots _ Hinv)) Ea')
      as [_ [Heq|(f & g & Hf & Hg & Hleg)]]; [left; congruence|right].
    rewrite Hf in Hfrom. rewrite Hg in Hto. by injection Hfrom as ->; injection Hto as ->.
Qed.

(** The rest of a spawn: what the new slot holds, and the registry. *)
Lemma spawn_frame x par t pid t' :
  table_inv t -> Z.of_nat (length (arena t)) < 2 ^ 32 -> spawn x par t = (inl pid, t') ->
  (exists s', arena t' !! pid_slot pid = Some s' /\ execution s' = Some x /\ slot_parent s' = default 0 par /\
     get_priority s' = Normal /\ slot_context s' = to_words (inherited_context par t) /\
     slot_log_level s' = inherited_level par t) /\
  active t' = active t /\ alive t' = alive t +u64 1 /\
  main_pid t' = (if main_pid t =? 0 then pid else main_pid t) /\
  exists fr, registry t' = set_free fr (set_children
    (match par with Some p => insert_child p pid (children (registry t)) | None => children (registry t) end) (registry t)).
Proof.
  intros Hinv Hlen Hsp. pose proof (inv_free_range _ Hinv) as Hf.
  destruct (match par with Some p => negb (is_alive p t) | None => false end) eqn:Ep.
  { destruct par as [p|]; [|done]. apply negb_true_iff in Ep. by rewrite spawn_refused in Hsp. }
  destruct (take_result_slot t Hf) as [s Hs].
  assert (exists fr, registry (snd (take_result t)) = set_free fr (registry t)) as [fr Hfr].
  { unfold take_result. destruct (vec_pop _) as [[z rest]|]; [by eexists|]. exists (free (registry t)). by destruct t as [???? ? []]. }
  assert (forall p, is_alive p t = true -> slot_of p (snd (take_result t)) = slot_of p t) as Hso.
  { intros p (k & sp & Hk & Hpk & _)%is_alive_true. unfold slot_of, arena_get, pid_slot in *.
    destruct (decode p) as [ix g]. simpl in *. subst k. rewrite Hk.
    destruct (take_result_step t Hf) as (rest & _ & [[-> _]|(-> & _)]); [by rewrite Hk|].
    by rewrite lookup_app_l, Hk by (by eapply lookup_lt_Some). }
  destruct (take_result_step t Hf) as (rest & Hrest & Hcase).
  destruct (take_result t) as [i t1] eqn:Et. cbn [fst snd] in *.
  destruct (spawn_spec x par t i t1 s Hlen (free_in_range_nonneg t Hf)) as (t2 & E & Ha & Hac & Hal & Hm & Hreg);
    [by destruct par; [apply negb_false_iff|]|done|done|].
  rewrite Hsp in E. injection E as -> ->.
  assert (inherited_context par t1 = inherited_context par t /\ inherited_level par t1 = inherited_level par t) as [Hic Hil].
  { unfold inherited_context, inherited_level. destruct par as [p|]; [|done]. apply negb_false_iff in Ep. by rewrite Hso. }
  rewrite Hic, Hil in Ha. split.
  - exists (dressed (Z.max (generation (view s)) 1) par (inherited_context par t) (inherited_level par t) x s).
    split; [|done]. destruct (spawn_slot x par t _ t2 Hinv Hlen Hsp) as (s' & _ & Hs' & _).
    rewrite Hs'. destruct (decide (pid_slot (encode (Z.of_nat i) (Z.max (generation (view s)) 1)) = i)) as [Hi|Hi].
    + rewrite Hi, Ha, list_lookup_insert_eq in Hs' by (by eapply lookup_lt_Some). by symmetry.
    + destruct Hi. pose proof (load_generation_range (lifecycle s)) as Hg. fold (view s) in Hg. apply pid_slot_encode; [|lia].
      apply lookup_lt_Some in Hs. destruct Hcase as [[Hc _]|(Hc & _)]; rewrite Hc in Hs;
        rewrite ?length_app in Hs; simpl in Hs; lia.
  - split; [done|]. split; [done|]. split; [done|]. exists fr. rewrite Hreg, Hfr. destruct par; [done|]. by destruct (registry t).
Qed.


(** The grace backstop empties the runtime. After [kill_all] on any reachable
    table no process is alive, the live count is zero and the runtime shuts
    down; a process that was on a cpu is dead and waits for its owner. *)
Theorem kill_all_shuts_down (ops : list (TableOp X M)) (Hlen : Z.of_nat (length ops) < 2 ^ 32) :
  let t := snd (kill_all (run_table ops table_new)) in
  alive t = 0 /\ should_shutdown t = true /\ (forall pid, is_alive pid t = false) /\
  (forall s, s ∈ arena t -> slot_state s = None \/ (slot_state s = Some Dead /\ on_cpu (view s) = true)).
Proof.
  cbv zeta. destruct (reachable ops Hlen) as [Hinv Hl]. set (t0 := run_table ops table_new) in *.
  pose proof (kill_all_none t0 Hinv) as Hz.
  destruct (kill_each_inv (live_pids t0) t0 Hinv) as [Hinv' _].
  change (snd (kill_each (live_pids t0) t0)) with (snd (kill_all t0)) in Hinv'.
  set (t := snd (kill_all t0)) in *.
  assert (alive t = 0) as Ha by (by rewrite (inv_alive _ Hinv')).
  rewrite countb_zero in Hz. split; [done|]. split; [unfold should_shutdown; by rewrite Ha|]. split.
  - intros pid. rewrite is_alive_word. unfold word_at. destruct (arena t !! pid_slot pid) as [s|] eqn:Hs.
    + specialize (Hz s (list_elem_of_lookup_2 _ _ _ Hs)). unfold slot_live in Hz.
      unfold word_alive. destruct (state (view s)) as [[]|]; try done; apply andb_false_r.
    + by apply word_alive_vacant.
  - intros s Hs. specialize (Hz s Hs). apply list_elem_of_lookup in Hs as [i Hi].
    pose proof (inv_slots _ Hinv' _ _ Hi) as Hok. unfold slot_live in Hz.
    unfold slot_state. fold (view s). destruct (state (view s)) as [[]|] eqn:E; try done; [|by left].
    right. split; [done|]. by apply (slot_dead _ Hok).
Qed.
End Invariant.

(** ** A concrete run

    A root spawns two children; the first parks on its mailbox and is woken by a
    cast; the second is killed while it runs. *)
Section SampleRun.
Definition pid_root : Pid := encode 0 1.
Definition pid_a : Pid := encode 1 1.
Definition pid_b : Pid := encode 2 1.

Definition sample_cast : Envelope := mkEnvelope 1 (replicate (Z.to_nat TAG_HEADER_SIZE) 0 ++ [7]) ZERO None (TAG_HEADER_SIZE + 1) 0.

Definition sample_run : list (TableOp Z Envelope) :=
  [OSpawn 10 None; OClaim pid_root; OSpawn 11 (Some pid_root); OSpawn 12 (Some pid_root);
   OClaim pid_a; OReceive pid_a None; OAfterSwitch pid_a; ODeliver pid_a sample_cast;
   OClaim pid_b; OKill pid_b].

Lemma table_gauges_exact_witness :
  process_count (run_table sample_run table_new) = 2 /\
  process_count (run_table sample_run table_new) =
    countb slot_live (arena (run_table sample_run table_new)).
Proof.
  split; [vm_compute; reflexivity|].
  exact (proj1 (table_gauges_exact sample_run ltac:(vm_compute; congruence))).
Defined.

Lemma only_spawn_makes_alive_witness :
  exists x par, OSpawn 13 (Some pid_root) = (OSpawn x par : TableOp Z Envelope) /\
    fst (spawn x par (run_table sample_run table_new)) = inl (encode 3 1).
Proof.
  apply (only_spawn_makes_alive sample_run (OSpawn 13 (Some pid_root)) (encode 3 1)).
  - vm_compute. reflexivity.
  - vm_compute. split; [congruence|reflexivity].
  - vm_compute. reflexivity.
  - vm_compute. reflexivity.
Defined.

Lemma state_edges_legal_witness :
  Runnable = Running \/ is_legal_transition Runnable Running = true.
Proof.
  apply (state_edges_legal sample_run (OClaim pid_a) pid_a Runnable Running); vm_compute; reflexivity.
Defined.


Lemma kill_all_shuts_down_witness :
  alive (run_table sample_run table_new) = 2 /\
  should_shutdown (snd (kill_all (run_table sample_run table_new))) = true.
Proof.
  split; [vm_compute; reflexivity|].
  exact (proj1 (proj2 (kill_all_shuts_down sample_run ltac:(vm_compute; reflexivity)))).
Defined.
End SampleRun.
