(* ===== verification/TableMail.v ===== *)
(** * Messages through the process table

    What happens to the messages: every envelope handed to the table is in one
    mailbox until a method hands it back ([table_conserves_messages]), and no
    process sleeps on a mailbox that already holds what it waits for
    ([no_lost_wakeup]). Both are proved from one relation, [mail_change], that
    every method satisfies. *)

From S2P Require Import Prelude Protocol Wire Mailbox Lifecycle ProcessTable Arena TableSteps TableInv.
Local Open Scope Z_scope.

Section Mail.
Context {X M : Type} `{Message M}.
Implicit Types (t : Table X M) (s : Slot X M).

Definition slot_mail s : list M := contents (mailbox (hot s)).

(** A parked process has nothing to wake up for. *)
Definition asleep_ok s : Prop :=
  match state (view s) with
  | Some Blocked =>
      match waiting (hot s) with
      | WaitReceive => system (mailbox (hot s)) = [] /\ business (mailbox (hot s)) = []
      | WaitReply => reply (mailbox (hot s)) = None
      end
  | Some WaitingIO => system (mailbox (hot s)) = []
  | _ => True
  end.

(** One call that takes in the messages [ins] and hands out [outs]. *)
Inductive mail_change t t' (ins outs : list M) : Prop :=
  | mc_same : arena t' = arena t -> Permutation outs ins -> mail_change t t' ins outs
  | mc_slot i s s' :
      arena t !! i = Some s -> arena t' = <[i := s']> (arena t) ->
      Permutation (slot_mail s' ++ outs) (slot_mail s ++ ins) ->
      (asleep_ok s -> asleep_ok s') ->
      mail_change t t' ins outs.

Lemma mc_frame t t' t'' ins outs :
  mail_change t t' ins outs -> arena t'' = arena t' -> mail_change t t'' ins outs.
Proof. intros [Ha Hp|i s s' Hi Ha Hp Hs] E; [apply mc_same|eapply mc_slot]; eauto; congruence. Qed.

Lemma mc_first t t1 t' ins outs :
  arena t1 = arena t -> mail_change t1 t' ins outs -> mail_change t t' ins outs.
Proof.
  intros E [Ha Hp|i s s' Hi Ha Hp Hs]; [apply mc_same|apply (mc_slot _ _ _ _ i s s')]; auto; congruence.
Qed.

(** The flow of a method whose result [a] carries the messages [outs a]. *)
Definition flows {A} (m : ST X M A) (ins : list M) (outs : A -> list M) t : Prop :=
  mail_change t (snd (m t)) ins (outs (fst (m t))).

Lemma flows_quiet {A} (m : ST X M A) t : quiet m -> flows m [] (fun _ => []) t.
Proof. intros Hq. apply mc_same; [apply Hq|done]. Qed.

Lemma flows_bind {A B} (m : ST X M A) (k : A -> ST X M B) ins outs outs' t :
  flows m ins outs t -> (forall a, quiet (k a)) ->
  (forall a t', outs' (fst (k a t')) = outs a) -> flows (st_bind m k) ins outs' t.
Proof.
  intros Hm Hq Ho. unfold flows, st_bind in *. destruct (m t) as [a t'] eqn:E. simpl in Hm.
  rewrite Ho. eapply mc_frame; [exact Hm|]. apply Hq.
Qed.

Lemma flows_quiet_first {A B} (m : ST X M A) (k : A -> ST X M B) ins outs t :
  quiet m -> (forall a t', core_eq t t' -> flows (k a) ins outs t') -> flows (st_bind m k) ins outs t.
Proof.
  intros Hm Hk. unfold flows, st_bind. specialize (Hm t). destruct (m t) as [a t'] eqn:E. simpl in Hm.
  apply (mc_first t t'); [apply Hm|]. by apply Hk.
Qed.

(** Messages a method with an optional result hands out. *)
Definition out_opt {A} (outs : A -> list M) (r : option A) : list M :=
  match r with Some a => outs a | None => [] end.

Lemma flows_with_hot {A} pid (f : nat -> Slot X M -> ST X M A) outs t :
  (forall i s, arena t !! i = Some s -> generation (view s) = snd (decode pid) ->
     flows (f i s) [] outs t) ->
  flows (with_hot pid f) [] (out_opt outs) t.
Proof.
  intros Hf. unfold flows, with_hot.
  destruct (slot_of pid t) as [[[i s] gen]|] eqn:E; [|by apply mc_same].
  apply slot_of_Some in E as (Hi & Hidx & ->).
  destruct (Z.eqb_spec (generation (load (lifecycle s))) (snd (decode pid))) as [Hg|Hg]; simpl.
  - specialize (Hf i s Hi Hg). unfold flows in Hf. by destruct (f i s t).
  - by apply mc_same.
Qed.

(** An edit of one slot. *)
Lemma mc_put i s s' t ins outs :
  arena t !! i = Some s -> Permutation (slot_mail s' ++ outs) (slot_mail s ++ ins) ->
  (asleep_ok s -> asleep_ok s') -> mail_change t (put i s' t) ins outs.
Proof. intros Hi Hp Hs. by apply (mc_slot _ _ _ _ i s s'). Qed.

Lemma asleep_ok_awake s : state (view s) <> Some Blocked -> state (view s) <> Some WaitingIO -> asleep_ok s.
Proof. unfold asleep_ok. by destruct (state (view s)) as [[]|]. Qed.

Lemma asleep_ok_same s s' :
  view s' = view s -> mailbox (hot s') = mailbox (hot s) -> waiting (hot s') = waiting (hot s) ->
  asleep_ok s -> asleep_ok s'.
Proof. unfold asleep_ok. by intros -> -> ->. Qed.

(** Edits that keep the mailbox, the word and the wait target. *)
Lemma mc_edit i s f t :
  arena t !! i = Some s -> lifecycle (f s) = lifecycle s ->
  mailbox (hot (f s)) = mailbox (hot s) -> waiting (hot (f s)) = waiting (hot s) ->
  mail_change t (snd (upd_slot i f t)) [] [].
Proof.
  intros Hi Hl Hm Hw. rewrite (upd_slot_put _ _ _ _ Hi). apply (mc_put i s); [done| |].
  - unfold slot_mail. by rewrite Hm.
  - apply asleep_ok_same; [unfold view; by rewrite Hl|done|done].
Qed.

Lemma upd_hot_of_flows pid f t :
  (forall h, mailbox (f h) = mailbox h) -> (forall h, waiting (f h) = waiting h) ->
  flows (upd_hot_of pid f) [] (fun _ => []) t.
Proof.
  intros Hm Hw. eapply (flows_bind _ _ _ (out_opt (fun _ => []))); [|intros; apply quiet_ret|by intros []].
  apply flows_with_hot. intros i s Hi _. apply (mc_edit i s); [done|done|apply Hm|apply Hw].
Qed.

(** ** Parks *)

Lemma edge_view i s from to f t :
  word_wf (lifecycle s) -> state (view s) = Some from -> arena t !! i = Some s ->
  view (with_hot_of f (with_word (snd (try_edge (generation (view s)) from to (lifecycle s))) s)) =
    mkWordState (generation (view s)) (on_cpu (view s)) (Some to).
Proof.
  intros Hwf Hst _. pose proof (try_edge_spec (generation (view s)) from to (lifecycle s) Hwf) as Hs.
  assert (edge_next (generation (view s)) from to (view s) =
          Some (mkWordState (generation (view s)) (on_cpu (view s)) (Some to))) as Hn
    by (by apply edge_next_Some).
  unfold view in Hn at 2. rewrite Hn in Hs. by destruct Hs as (_ & _ & Hl).
Qed.

Definition empty_for (target : WaitTarget) (mb : Mailbox M) : Prop :=
  match target with
  | WaitReceive => system mb = [] /\ business mb = []
  | WaitReply => reply mb = None
  end.

Lemma park_blocked_flows {A} pid i s f (no yes : A) t :
  arena t !! i = Some s -> word_wf (lifecycle s) -> generation (view s) = snd (decode pid) ->
  mailbox (f (hot s)) = mailbox (hot s) ->
  (state (view s) = Some Running -> empty_for (waiting (f (hot s))) (mailbox (hot s))) ->
  flows (park_blocked pid i f no yes) [] (fun _ => []) t.
Proof.
  intros Hi Hwf Hg Hm He. unfold flows.
  pose proof (park_blocked_spec pid i s f no yes t Hi Hwf Hg) as Hp.
  destruct (bool_decide _) eqn:E; bool_to_prop.
  - destruct Hp as (t' & -> & Ha & _). simpl. eapply (mc_slot _ _ _ _ i s _ Hi Ha).
    + unfold slot_mail. simpl. by rewrite Hm.
    + intros _. unfold asleep_ok. rewrite (edge_view i s Running Blocked f t Hwf E Hi). simpl.
      rewrite Hm. by apply He.
  - destruct Hp as (t' & -> & Hc). by apply mc_same; [apply Hc|].
Qed.

Lemma or_refused_out {A} pid (no : A) outs r t :
  outs no = [] -> outs (fst (or_refused (X := X) (M := M) pid no r t)) = out_opt outs r.
Proof. intros Hno. by destruct r. Qed.

(** What the park methods hand to their caller. *)
Definition out_park (p : MailPark M) : list M :=
  match p with MailReady m | MailStale m => [m] | _ => [] end.

(** A bare park changes nothing, or puts the running process to sleep on [target]. *)
Lemma try_park_arena pid target dl t :
  slots_ok t ->
  let t' := snd (try_park pid target dl t) in
  arena t' = arena t \/
  exists s s', arena t !! pid_slot pid = Some s /\ arena t' = <[pid_slot pid := s']> (arena t) /\
    view s = mkWordState (pid_gen pid) (on_cpu (view s)) (Some Running) /\
    view s' = mkWordState (pid_gen pid) (on_cpu (view s)) (Some Blocked) /\
    mailbox (hot s') = mailbox (hot s) /\ waiting (hot s') = target.
Proof.
  intros Hw t'. unfold t', try_park. set (f := fun h => set_waiting target (set_deadline dl h)).
  assert (forall m, arena (snd (st_bind m (or_refused (X := X) (M := M) pid false) t)) = arena (snd (m t))) as ->.
  { intros m. unfold st_bind. destruct (m t) as [r t1]. apply quiet_refused. }
  unfold with_hot. destruct (slot_of pid t) as [[[i s] gen]|] eqn:E; [|by left].
  apply slot_of_Some in E as (Hi & -> & ->). fold (view s). fold (pid_gen pid). fold (pid_slot pid) in *.
  destruct (Z.eqb_spec (generation (view s)) (pid_gen pid)) as [Hg|Hg]; [|by left]. cbn [negb].
  pose proof (slot_word _ (Hw _ _ Hi)) as Hwf.
  pose proof (park_blocked_spec pid _ s f false true t Hi Hwf Hg) as Hs. unfold park_blocked in Hs.
  destruct (bool_decide _) eqn:Er; bool_to_prop.
  - destruct Hs as (t1 & -> & Ha & _). right. eexists s, _. split; [done|]. split; [exact Ha|].
    rewrite (edge_view (pid_slot pid) s Running Blocked f t Hwf Er Hi), Hg.
    split; [|done]. destruct (view s); simpl in *; congruence.
  - destruct Hs as (t1 & -> & Hc). left. apply Hc.
Qed.

Lemma try_park_io_flows pid dl t : slots_ok t -> flows (try_park_io pid dl) [] (fun _ => []) t.
Proof.
  intros Hw. eapply (flows_bind _ _ _ (out_opt (fun _ => []))); [|intros; apply quiet_refused|by intros []].
  apply flows_with_hot. intros i s Hi Hg. destruct (has_system _) eqn:Hsys; [by apply mc_same|].
  apply has_system_false in Hsys. pose proof (slot_word _ (Hw _ _ Hi)) as Hwf.
  pose proof (park_edge_spec pid i s WaitingIO t Hi Hwf Hg) as Hp. unfold flows.
  destruct (bool_decide _) eqn:E; bool_to_prop.
  - destruct Hp as (t' & E' & (Ha & _)). rewrite (st_bind_eval _ _ _ _ _ E').
    set (s1 := with_word _ s) in *.
    assert (arena t' !! i = Some s1) as Hi' by (rewrite Ha; by eapply lookup_put).
    unfold upd_hot. rewrite (st_bind_eval _ _ _ _ _ (upd_slot_put _ _ _ _ Hi')). simpl.
    eapply (mc_slot _ _ _ _ i s (with_hot_of (set_deadline dl) s1) Hi).
    + simpl. rewrite Ha. simpl. by rewrite list_insert_insert_eq.
    + done.
    + intros _. unfold asleep_ok, s1. by rewrite (edge_view i s Running WaitingIO _ t Hwf E Hi).
  - destruct Hp as (t' & E' & Hc). rewrite (st_bind_eval _ _ _ _ _ E'). by apply mc_same; [apply Hc|].
Qed.

(** ** Takes *)

Lemma pop_asleep s m mb :
  Mailbox.pop_received (mailbox (hot s)) = (m, mb) -> asleep_ok s -> asleep_ok (with_hot_of (set_mailbox mb) s).
Proof.
  unfold asleep_ok. change (view (with_hot_of (set_mailbox mb) s)) with (view s). simpl.
  unfold Mailbox.pop_received. intros E.
  destruct (state (view s)) as [[]|], (waiting (hot s)); try done; intros Hs;
    repeat break_match_in E; destruct_and?; by simplify_eq/=.
Qed.

Lemma take_asleep s m mb :
  Mailbox.take_reply (mailbox (hot s)) = (m, mb) -> asleep_ok s -> asleep_ok (with_hot_of (set_mailbox mb) s).
Proof.
  intros [= <- <-]. unfold asleep_ok. change (view (with_hot_of _ s)) with (view s). simpl.
  by destruct (state (view s)) as [[]|], (waiting (hot s)).
Qed.

Lemma pop_mail s m mb :
  Mailbox.pop_received (mailbox (hot s)) = (m, mb) ->
  Permutation (slot_mail (with_hot_of (set_mailbox mb) s) ++ option_list m) (slot_mail s).
Proof.
  intros E. pose proof (pop_contents (mailbox (hot s))) as Hp. rewrite E in Hp. simpl in Hp.
  unfold slot_mail. simpl. by rewrite Permutation_app_comm.
Qed.

Lemma take_mail s m mb :
  Mailbox.take_reply (mailbox (hot s)) = (m, mb) ->
  Permutation (slot_mail (with_hot_of (set_mailbox mb) s) ++ option_list m) (slot_mail s).
Proof.
  intros E. pose proof (take_reply_contents (mailbox (hot s))) as Hp. rewrite E in Hp. simpl in Hp.
  unfold slot_mail. simpl. by rewrite Permutation_app_comm.
Qed.

(** A take stored back, with edits that keep the mailbox. *)
Lemma taken_flow i s s' mb m t :
  arena t !! i = Some s ->
  Permutation (slot_mail (with_hot_of (set_mailbox mb) s) ++ option_list m) (slot_mail s) ->
  (asleep_ok s -> asleep_ok (with_hot_of (set_mailbox mb) s)) ->
  view s' = view s -> mailbox (hot s') = mb -> waiting (hot s') = waiting (hot s) ->
  mail_change t (put i s' t) [] (option_list m).
Proof.
  intros Hi Hp Ha Hv Hm Hw. apply (mc_put i s); [done| |].
  - rewrite app_nil_right. unfold slot_mail in *. by rewrite Hm.
  - intros Hs. eapply asleep_ok_same; [..|exact (Ha Hs)]; done.
Qed.

Lemma pop_received_flows pid t : slots_ok t -> flows (pop_received pid) [] option_list t.
Proof.
  intros Hw. eapply (flows_bind _ _ _ (out_opt option_list)); [|intros; apply quiet_ret|by intros []].
  apply flows_with_hot. intros i s Hi _. unfold flows.
  destruct (Mailbox.pop_received (mailbox (hot s))) as [m mb] eqn:Ep. unfold upd_hot.
  rewrite (st_bind_eval _ _ _ _ _ (upd_slot_put _ _ _ _ Hi)).
  eapply (taken_flow i s); eauto using pop_mail, pop_asleep.
Qed.

Lemma take_reply_flows pid t : slots_ok t -> flows (take_reply pid) [] option_list t.
Proof.
  intros Hw. eapply (flows_bind _ _ _ (out_opt option_list)); [|intros; apply quiet_ret|by intros []].
  apply flows_with_hot. intros i s Hi _. unfold flows.
  destruct (Mailbox.take_reply (mailbox (hot s))) as [m mb] eqn:Ep. unfold upd_hot.
  rewrite (st_bind_eval _ _ _ _ _ (upd_slot_put _ _ _ _ Hi)).
  eapply (taken_flow i s); eauto using take_mail, take_asleep.
Qed.

(** A blocking park, as messages: none either way. *)
Lemma park_mail_flows pid i s f t :
  arena t !! i = Some s -> word_wf (lifecycle s) -> generation (view s) = snd (decode pid) ->
  mailbox (f (hot s)) = mailbox (hot s) -> empty_for (waiting (f (hot s))) (mailbox (hot s)) ->
  flows (park_blocked pid i f MailRefused MailParked) [] out_park t.
Proof.
  intros Hi Hwf Hg Hm He.
  pose proof (park_blocked_flows pid i s f MailRefused (MailParked : MailPark M) t Hi Hwf Hg Hm (fun _ => He)) as Hf.
  pose proof (park_blocked_spec pid i s f MailRefused (MailParked : MailPark M) t Hi Hwf Hg) as Hv.
  unfold flows in *. destruct (park_blocked _ _ _ _ _ t) as [p t'].
  destruct (bool_decide _); destruct Hv as (? & [= -> ->] & _); exact Hf.
Qed.

Lemma receive_or_park_flows pid dl t : slots_ok t -> flows (receive_or_park pid dl) [] out_park t.
Proof.
  intros Hw. eapply (flows_bind _ _ _ (out_opt out_park));
    [|intros; apply quiet_refused|intros; by apply or_refused_out].
  apply flows_with_hot. intros i s Hi Hg. pose proof (Hw _ _ Hi) as Hok. unfold flows.
  destruct (Mailbox.pop_received (mailbox (hot s))) as [[m|] mb] eqn:Ep.
  - unfold upd_hot. rewrite (st_bind_eval _ _ _ _ _ (upd_slot_put _ _ _ _ Hi)).
    eapply (taken_flow i s _ mb (Some m)); eauto using pop_mail, pop_asleep.
  - pose proof (pop_none_empty (mailbox (hot s))) as Hn. rewrite Ep in Hn.
    destruct (Hn eq_refl) as (Hsys & Hbus & Hmb). simpl in Hmb. subst mb.
    rewrite (st_bind_eval _ _ _ _ _ (upd_mailbox_same i s t Hi)).
    by apply (park_mail_flows pid i s _ t Hi (slot_word _ Hok) Hg).
Qed.

Lemma take_reply_or_park_flows pid token dl ce t :
  slots_ok t -> flows (take_reply_or_park pid token dl ce) [] out_park t.
Proof.
  intros Hw. apply flows_quiet_first; [apply quiet_ensure|]. intros _ t1 Hc.
  apply (slots_ok_core _ _ Hc) in Hw. clear t Hc.
  eapply (flows_bind _ _ _ (out_opt out_park)).
  - apply flows_with_hot. intros i s Hi Hg. pose proof (Hw _ _ Hi) as Hok. unfold flows.
    destruct (Mailbox.take_reply (mailbox (hot s))) as [[r|] mb] eqn:Ep.
    + unfold upd_hot. rewrite (st_bind_eval _ _ _ _ _ (upd_slot_put _ _ _ _ Hi)).
      destruct (reply_token r =? token).
      * rewrite (st_bind_eval _ _ _ _ _ (upd_slot_put _ _ _ _ (lookup_put _ _ _ _ Hi))), put_put.
        eapply (taken_flow i s _ mb (Some r)); eauto using take_mail, take_asleep.
      * eapply (taken_flow i s _ mb (Some r)); eauto using take_mail, take_asleep.
    + assert (mb = mailbox (hot s) /\ reply (mailbox (hot s)) = None) as [-> Hr].
      { unfold Mailbox.take_reply in Ep. injection Ep as Hr <-.
        destruct (mailbox (hot s)); simpl in *. by rewrite Hr. }
      rewrite (st_bind_eval _ _ _ _ _ (upd_mailbox_same i s t1 Hi)).
      destruct (negb (is_alive ce t1)).
      * by apply (mc_edit i s).
      * by apply (park_mail_flows pid i s _ t1 Hi (slot_word _ Hok) Hg).
  - intros r. apply quiet_bind; [apply quiet_refused|]. intros p. apply quiet_bind.
    + destruct p; auto using quiet_ret, quiet_evict.
    + intros. apply quiet_ret.
  - intros r t'. unfold st_bind. destruct (or_refused pid MailRefused r t') as [p t2] eqn:E2.
    pose proof (or_refused_out pid MailRefused out_park r t' eq_refl) as Ho. rewrite E2 in Ho.
    simpl in Ho. rewrite <- Ho. by destruct p.
Qed.

(** ** Deliveries and wakes *)

(** A wake after an edit of the hot state: awake, so nothing to check. *)
Lemma wake_flow pid i s from f t t1 ins outs :
  arena t !! i = Some s -> word_wf (lifecycle s) -> generation (view s) = snd (decode pid) ->
  state (view s) = Some from -> arena t1 = <[i := with_hot_of f s]> (arena t) ->
  Permutation (contents (mailbox (f (hot s))) ++ outs) (slot_mail s ++ ins) ->
  mail_change t (snd (wake_edge pid i from t1)) ins outs.
Proof.
  intros Hi Hwf Hg Hst Ha Hp.
  assert (arena t1 !! i = Some (with_hot_of f s)) as Hi1
    by (rewrite Ha; apply list_lookup_insert_eq; by eapply lookup_lt_Some).
  destruct (wake_edge_spec pid i _ from t1 Hi1 Hwf Hg Hst) as (t' & -> & Ha' & _). cbn [snd].
  unfold put in Ha'. cbn [arena] in Ha'. rewrite Ha, list_insert_insert_eq in Ha'.
  pose proof (edge_view i (with_hot_of f s) from Runnable (fun h => h) t1 Hwf Hst Hi1) as Hv.
  eapply (mc_slot _ _ _ _ i s _ Hi Ha'); [exact Hp|]. intros _.
  apply asleep_ok_awake; intros E; apply (f_equal state) in Hv; simpl in Hv;
    unfold view in *; simpl in *; congruence.
Qed.

(** A push that the wait target ignores leaves a sleeper asleep. *)
Lemma push_asleep s m d mb :
  Mailbox.push (mailbox (hot s)) m = (d, mb) ->
  (state (view s) = Some Blocked -> waiting (hot s) <> target_of m) ->
  (state (view s) = Some WaitingIO -> msg_tag m <> TagLifecycle) ->
  asleep_ok s -> asleep_ok (with_hot_of (set_mailbox mb) s).
Proof.
  unfold asleep_ok. change (view (with_hot_of (set_mailbox mb) s)) with (view s). simpl.
  unfold Mailbox.push, target_of. intros E Hb Hw.
  destruct (state (view s)) as [[]|], (waiting (hot s)), (msg_tag m) eqn:Et;
    simplify_eq/=; try done; intros _; exfalso; by first [apply (Hb eq_refl)|apply (Hw eq_refl)].
Qed.

Lemma deliver_locked_flows pid i s m t :
  arena t !! i = Some s -> slot_ok s -> generation (view s) = snd (decode pid) ->
  flows (deliver_locked pid i s m) [m] (fun d => option_list (leftover d)) t.
Proof.
  intros Hi Hok Hg. unfold flows, deliver_locked.
  destruct (Mailbox.push (mailbox (hot s)) m) as [displaced mb] eqn:Ep.
  assert (Permutation (contents mb ++ option_list displaced) (slot_mail s ++ [m])) as Hp.
  { pose proof (push_contents (mailbox (hot s)) m) as Hp. rewrite Ep in Hp. simpl in Hp.
    unfold slot_mail. rewrite (Permutation_app_comm (contents mb)), Hp. apply Permutation_cons_append. }
  unfold upd_hot. rewrite !(st_bind_eval _ _ _ _ _ (upd_slot_put _ _ _ _ Hi)).
  rewrite !(st_bind_eval _ _ _ _ _ (eq_refl : record pid Delivered _ = (tt, _))).
  unfold slot_state. fold (view s).
  set (wf := match state (view s) with Some Blocked => _ | Some WaitingIO => _ | _ => _ end).
  assert (forall from, wf = Some from -> state (view s) = Some from) as Hfrom.
  { unfold wf. intros from. destruct (state (view s)) as [[]|]; try done; case_bool_decide; naive_solver. }
  assert (wf = None -> asleep_ok s -> asleep_ok (with_hot_of (set_mailbox mb) s)) as Hno.
  { unfold wf. intros E. apply (push_asleep s m displaced mb Ep); intros Est; rewrite Est in E;
      by case_bool_decide. }
  clearbody wf. destruct wf as [from|].
  - pose proof (wake_flow pid i s from (set_mailbox mb) t
      (snd (record pid Delivered (put i (with_hot_of (set_mailbox mb) s) t))) [m] (option_list displaced)
      Hi (slot_word _ Hok) Hg (Hfrom _ eq_refl) eq_refl Hp) as Hf.
    unfold st_bind. by destruct (wake_edge pid i from _).
  - eapply (mc_slot _ _ _ _ i s (with_hot_of (set_mailbox mb) s) Hi); [done|exact Hp|by apply Hno].
Qed.

Lemma deliver_flows pid m t : slots_ok t -> flows (deliver pid m) [m] (fun d => option_list (leftover d)) t.
Proof.
  intros Hw. unfold flows, deliver.
  destruct (slot_of pid t) as [[[i s] gen]|] eqn:E; [|by apply mc_same].
  apply slot_of_Some in E as (Hi & _ & ->). fold (view s).
  destruct (word_alive (view s) _) eqn:Ea; [|by apply mc_same].
  apply word_alive_true in Ea as [Hg _]. apply deliver_locked_flows; eauto.
Qed.

Lemma deliver_reply_flows pid token m t :
  slots_ok t -> flows (deliver_reply pid token m) [m] (fun d => option_list (reply_leftover d)) t.
Proof.
  intros Hw. unfold flows, deliver_reply.
  destruct (slot_of pid t) as [[[i s] gen]|] eqn:E; [|by apply mc_same].
  apply slot_of_Some in E as (Hi & _ & ->). fold (view s).
  destruct (word_alive (view s) _ && _) eqn:Ea; [|by apply mc_same].
  apply andb_true_iff in Ea as [Ea _]. apply word_alive_true in Ea as [Hg _].
  pose proof (deliver_locked_flows pid i s m t Hi (Hw _ _ Hi) Hg) as Hf.
  unfold flows in Hf. by destruct (deliver_locked pid i s m t).
Qed.

(** The three promotions. *)
Lemma promote_flows pid i s from t :
  arena t !! i = Some s -> word_wf (lifecycle s) -> generation (view s) = snd (decode pid) ->
  state (view s) = Some from ->
  flows (upd_hot i (set_deadline None) ;;* wake_edge pid i from) [] (fun _ => []) t.
Proof.
  intros Hi Hwf Hg Hst. unfold flows, upd_hot.
  rewrite (st_bind_eval _ _ _ _ _ (upd_slot_put _ _ _ _ Hi)).
  by apply (wake_flow pid i s from (set_deadline None) t).
Qed.

Lemma promote_expired_flows pid fire t : slots_ok t -> flows (promote_expired pid fire) [] (fun _ => []) t.
Proof.
  intros Hw. eapply (flows_bind _ _ _ (out_opt (fun _ => []))).
  - apply flows_with_hot. intros i s Hi Hg. pose proof (slot_word _ (Hw _ _ Hi)) as Hwf.
    cbv zeta. fold (view s). destruct (state (view s)) as [[]|] eqn:Est; try by apply mc_same.
    all: destruct (negb _); [by apply mc_same|]; by eapply promote_flows.
  - intros r. destruct (default None r); [apply quiet_ret|].
    apply quiet_bind; [apply quiet_count|]. intros. apply quiet_ret.
  - by intros [].
Qed.

Lemma promote_io_flows pid t : slots_ok t -> flows (promote_io_waiter pid) [] (fun _ => []) t.
Proof.
  intros Hw. eapply (flows_bind _ _ _ (out_opt (fun _ => []))); [|intros; apply quiet_ret|by intros []].
  apply flows_with_hot. intros i s Hi Hg. cbv zeta. fold (view s).
  destruct (_ || _) eqn:E; [by apply mc_same|]. clean. eapply promote_flows; eauto using slot_word.
Qed.

Lemma promote_call_flows cr token t : slots_ok t -> flows (promote_call_waiter cr token) [] (fun _ => []) t.
Proof.
  intros Hw. eapply (flows_bind _ _ _ (out_opt (fun _ => []))); [|intros; apply quiet_ret|by intros []].
  apply flows_with_hot. intros i s Hi Hg. cbv zeta. fold (view s).
  destruct (negb _) eqn:E; [by apply mc_same|]. clean. eapply promote_flows; eauto using slot_word.
Qed.

(** ** The owner's side: claim, yield, release, death *)

(** A word change to a state that is not asleep. *)
Lemma mc_awake i s s' t t' :
  arena t !! i = Some s -> arena t' = <[i := s']> (arena t) -> mailbox (hot s') = mailbox (hot s) ->
  state (view s') <> Some Blocked -> state (view s') <> Some WaitingIO -> mail_change t t' [] [].
Proof.
  intros Hi Ha Hm Hb Hio. eapply (mc_slot _ _ _ _ i s s' Hi Ha).
  - unfold slot_mail. by rewrite Hm.
  - intros _. by apply asleep_ok_awake.
Qed.

Lemma yield_flows pid t : slots_ok t -> flows (yield_running pid) [] (fun _ => []) t.
Proof.
  intros Hw. unfold flows, yield_running.
  destruct (slot_of pid t) as [[[i s] gen]|] eqn:E; [|by apply mc_same].
  apply slot_of_Some in E as (Hi & _ & ->). pose proof (slot_word _ (Hw _ _ Hi)) as Hwf.
  rewrite (st_bind_eval _ _ _ _ _ (word_op_put false i _ s t Hi)).
  pose proof (try_edge_spec (snd (decode pid)) Running Runnable (lifecycle s) Hwf) as Hs.
  destruct (edge_next _ _ _ _) as [n|] eqn:En.
  - destruct Hs as (-> & _ & Hv). apply edge_next_Some in En as (_ & _ & ->).
    eapply (mc_awake i s (with_word _ s) _ _ Hi); [reflexivity|done|..];
      unfold view; cbn [lifecycle with_word]; by rewrite Hv.
  - rewrite Hs. cbn [fst snd negb]. rewrite with_word_same, put_same by done. by apply mc_same.
Qed.

Lemma try_claim_flows pid t : slots_ok t -> flows (try_claim pid) [] (fun _ => []) t.
Proof.
  intros Hw. unfold flows, try_claim.
  destruct (slot_of pid t) as [[[i s] gen]|] eqn:E; [|by apply mc_same].
  apply slot_of_Some in E as (Hi & _ & ->). pose proof (slot_word _ (Hw _ _ Hi)) as Hwf.
  rewrite (st_bind_eval _ _ _ _ _ (word_op_put false i _ s t Hi)).
  pose proof (try_claim_spec (snd (decode pid)) (lifecycle s) Hwf) as Hs.
  destruct (claim_next _ _) as [n|] eqn:En.
  - destruct Hs as (-> & _ & Hv). apply claim_next_Some in En as (_ & _ & _ & ->). cbn [negb].
    rewrite (st_bind_eval _ _ _ _ _ (upd_slot_put _ _ _ _ (lookup_put _ _ _ _ Hi))), put_put.
    eapply (mc_awake i s (with_reductions _ (with_word _ s)) _ _ Hi); [reflexivity|done|..];
      unfold view; cbn [lifecycle with_word with_reductions]; by rewrite Hv.
  - rewrite Hs. cbn [fst snd negb]. rewrite with_word_same, put_same by done. by apply mc_same.
Qed.

Definition out_switch (o : SwitchOutcome X M) : list M :=
  match o with SwitchReclaimed r => contents (reclaim_mailbox r) | _ => [] end.

(** A slot given back: its mailbox goes out with the reclaim. *)
Lemma mc_freed i s s' t t' :
  arena t !! i = Some s -> arena t' = <[i := freed_slot s']> (arena t) ->
  mail_change t t' [] (contents (mailbox (hot s))).
Proof.
  intros Hi Ha. destruct (freed_slot_view s') as (_ & Hv & _ & Hh).
  eapply (mc_slot _ _ _ _ i s _ Hi Ha).
  - unfold slot_mail. rewrite Hh, app_nil_right. done.
  - intros _. apply asleep_ok_awake; by rewrite Hv.
Qed.

Lemma after_switch_flows pid t : slots_ok t -> flows (after_switch pid) [] out_switch t.
Proof.
  intros Hw. unfold flows, after_switch.
  destruct (slot_of pid t) as [[[i s] gen]|] eqn:E; [|by apply mc_same].
  apply slot_of_Some in E as (Hi & _ & ->). pose proof (Hw _ _ Hi) as Hok.
  rewrite (st_bind_eval _ _ _ _ _ (word_op_put None i _ s t Hi)).
  pose proof (release_spec (snd (decode pid)) (lifecycle s) (slot_word _ Hok)) as Hs.
  destruct (release_next _ _) as [n|] eqn:En.
  - destruct Hs as (Hst & _ & Hl). apply release_next_Some in En as (_ & _ & ->).
    rewrite Hst. fold (view s) in *. set (s1 := with_word _ s) in *.
    assert (mail_change t (put i s1 t) [] []) as Hrel.
    { apply (mc_put i s); [done|done|]. unfold asleep_ok. unfold view at 2. cbn [lifecycle s1 with_word].
      by rewrite Hl. }
    destruct (state (view s)) as [[]|] eqn:Est; try exact Hrel.
    unfold reclaim. rewrite st_bind_assoc.
    rewrite (st_bind_eval _ _ _ _ _ (reclaim_locked_eval pid i s1 _ (lookup_put _ _ _ _ Hi))).
    rewrite put_put. by apply (mc_freed i s s1).
  - rewrite Hs. cbn [fst snd]. rewrite with_word_same, put_same by done. by apply mc_same.
Qed.

Definition out_reclaim (r : option (Reclaim X M)) : list M :=
  match r with Some rc => contents (reclaim_mailbox rc) | None => [] end.

Lemma death_edge_flows pid forced t :
  slots_ok t -> flows (death_edge pid forced) [] (out_opt out_reclaim) t.
Proof.
  intros Hw. unfold flows. destruct (is_alive pid t) eqn:Ea.
  - apply is_alive_true in Ea as (i & s & Hi & Hidx & Ha). pose proof (Hw _ _ Hi) as Hok.
    destruct (death_edge_spec pid forced t i s Hi Hok Hidx Ha) as (t' & -> & Har & _). cbn [fst snd].
    apply word_alive_true in Ha as (_ & st & Hst & Hnd).
    assert (slot_live s = true) as Hl by (unfold slot_live; rewrite Hst; by destruct st).
    destruct (dead_slot_view forced s (slot_word _ Hok) Hl) as (_ & _ & Hdv & _ & Hdm).
    destruct (on_cpu (view s)).
    + apply (mc_awake i s (dead_slot forced s)); [done|done|done|by rewrite Hdv..].
    + by apply (mc_freed i s (dead_slot forced s)).
  - rewrite (death_edge_none pid forced t Hw Ea). by apply mc_same.
Qed.

Lemma kill_flows pid t : slots_ok t -> flows (kill pid) [] out_reclaim t.
Proof.
  intros Hw. eapply (flows_bind _ _ _ (out_opt out_reclaim)); [by apply death_edge_flows| |by intros []].
  intros. apply quiet_ret.
Qed.

(** ** The whole table *)

Definition table_mail t : list M := concat (map slot_mail (arena t)).

Lemma table_mail_insert t t' i s s' ins outs :
  arena t !! i = Some s -> arena t' = <[i := s']> (arena t) ->
  Permutation (slot_mail s' ++ outs) (slot_mail s ++ ins) ->
  Permutation (table_mail t' ++ outs) (table_mail t ++ ins).
Proof.
  intros Hi Ha Hp. unfold table_mail. rewrite Ha, list_fmap_insert.
  assert (map slot_mail (arena t) !! i = Some (slot_mail s)) as Hm by (by rewrite list_lookup_fmap, Hi).
  pose proof (concat_insert_perm (map slot_mail (arena t)) i (slot_mail s) (slot_mail s') Hm) as Hc.
  apply (Permutation_app_inv_l (slot_mail s)). rewrite app_assoc.
  etransitivity; [apply Permutation_app_tail; symmetry; exact Hc|].
  etransitivity; [|apply Permutation_app_comm with (l' := slot_mail s)]. rewrite <- (app_assoc (table_mail t)).
  rewrite (Permutation_app_comm ins), <- Hp. unfold table_mail. solve_Permutation.
Qed.

(** A call's effect on the whole table. *)
Definition balanced t t' (ins outs : list M) : Prop :=
  Permutation (table_mail t' ++ outs) (table_mail t ++ ins).

Lemma mail_change_balanced t t' ins outs : mail_change t t' ins outs -> balanced t t' ins outs.
Proof.
  intros [Ha Hp|i s s' Hi Ha Hp _]; unfold balanced.
  - unfold table_mail. by rewrite Ha, Hp.
  - by eapply table_mail_insert.
Qed.

Lemma mail_change_slot t t' ins outs j s' :
  mail_change t t' ins outs -> arena t' !! j = Some s' ->
  exists s, arena t !! j = Some s /\ (asleep_ok s -> asleep_ok s').
Proof.
  intros [Ha _|i s s1 Hi Ha _ Hs]; rewrite Ha; [eauto|].
  intros Hj. destruct (decide (i = j)) as [<-|Hne].
  - rewrite list_lookup_insert_eq in Hj by (by eapply lookup_lt_Some). injection Hj as <-. eauto.
  - rewrite list_lookup_insert_ne in Hj by done. eauto.
Qed.

(** A spawn brings an empty mailbox, in a reused slot or a fresh one. *)
Lemma spawn_mail x par t :
  table_inv t -> Z.of_nat (length (arena t)) < 2 ^ 32 ->
  balanced t (snd (spawn x par t)) [] [].
Proof.
  intros Hinv Hl. destruct (spawn x par t) as [[p|y] t'] eqn:E; cycle 1.
  { destruct (spawn_inr x par t y t' Hinv Hl E) as (_ & -> & _). apply Permutation_refl. }
  destruct (spawn_slot x par t p t' Hinv Hl E) as (s' & _ & Hs' & Hv & Hm & Hvac & Hoth). cbn [snd].
  unfold balanced. rewrite !app_nil_right. unfold table_mail.
  rewrite (concat_lookup_ext (map slot_mail (arena t')) (map slot_mail (arena t))); [done|].
  intros j. rewrite !list_lookup_fmap. destruct (decide (j = pid_slot p)) as [->|Hne]; [|by rewrite Hoth].
  rewrite Hs'. simpl. unfold slot_mail at 1. rewrite Hm. unfold word_at in Hvac.
  destruct (arena t !! pid_slot p) as [s|] eqn:Hs; [|done]. simpl. unfold slot_mail.
  by destruct (slot_vacant _ (inv_slots _ Hinv _ _ Hs) Hvac) as (_ & _ & ->).
Qed.

Lemma kill_each_mail pids t :
  table_inv t ->
  balanced t (snd (kill_each pids t)) []
    (concat (map (fun r => contents (reclaim_mailbox r)) (fst (kill_each pids t)))).
Proof.
  revert t. induction pids as [|pid pids IH]; intros t Hinv; simpl; [apply Permutation_refl|].
  pose proof (kill_flows pid t (inv_slots _ Hinv)) as Hf.
  pose proof (local_step_inv _ _ (kill_step pid t (inv_slots _ Hinv)) Hinv) as Hinv'.
  unfold st_bind. unfold flows in Hf. destruct (kill pid t) as [r t1]. cbn [fst snd] in *.
  pose proof (IH t1 Hinv') as Hb. destruct (kill_each pids t1) as [rs t2]. cbn [fst snd st_ret] in *.
  apply mail_change_balanced in Hf. unfold balanced in *. rewrite map_app, concat_app.
  rewrite (Permutation_app_comm (concat _)), app_assoc, Hb, app_nil_right, <- Hf.
  destruct r; simpl; by rewrite ?app_nil_right.
Qed.

(** ** What each operation takes in and hands out *)

Definition op_in (op : TableOp X M) : list M :=
  match op with ODeliver _ m | ODeliverReply _ _ m => [m] | _ => [] end.

Definition op_out (op : TableOp X M) t : list M :=
  match op with
  | OPop pid => option_list (fst (pop_received pid t))
  | OTakeReply pid => option_list (fst (take_reply pid t))
  | OReceive pid dl => out_park (fst (receive_or_park pid dl t))
  | OReplyOrPark pid token dl ce => out_park (fst (take_reply_or_park pid token dl ce t))
  | ODeliver pid m => option_list (leftover (fst (deliver pid m t)))
  | ODeliverReply pid token m => option_list (reply_leftover (fst (deliver_reply pid token m t)))
  | OAfterSwitch pid => out_switch (fst (after_switch pid t))
  | OKill pid => out_reclaim (fst (kill pid t))
  | OMarkDead pid => out_opt out_reclaim (fst (death_edge pid None t))
  | OKillAll => concat (map (fun r => contents (reclaim_mailbox r)) (fst (kill_all t)))
  | _ => []
  end.

Lemma try_park_balanced pid target dl t :
  slots_ok t -> balanced t (snd (try_park pid target dl t)) [] [].
Proof.
  intros Hw. destruct (try_park_arena pid target dl t Hw) as [Ha|(s & s' & Hi & Ha & _ & _ & Hm & _)].
  - unfold balanced, table_mail. by rewrite Ha.
  - apply (table_mail_insert t _ _ s s' [] [] Hi Ha). unfold slot_mail. by rewrite Hm.
Qed.

(** Stores to a slot found by PID. *)
Lemma live_edit_flow pid t i s f :
  live_slot pid t = Some (i, s) -> lifecycle (f s) = lifecycle s -> hot (f s) = hot s ->
  mail_change t (snd (upd_slot i f t)) [] [].
Proof. intros Hl Hw Hh. apply slot_of_live in Hl. by apply (mc_edit i s); rewrite ?Hh. Qed.

Lemma edit_ops_flow (op : TableOp X M) t :
  match op with
  | OSetContext _ _ | OSetLogLevel _ _ | OLogEnter _ | OLogLeave _ | OSetPriority _ _
  | OWithExecution _ _ => mail_change t (apply_op op t) [] []
  | _ => True
  end.
Proof.
  destruct op; try done; cbn [apply_op].
  - unfold set_context. destruct (live_slot pid t) as [[i s]|] eqn:E; [|by apply mc_same].
    by eapply live_edit_flow.
  - unfold set_log_level. destruct (live_slot pid t) as [[i s]|] eqn:E; [|by apply mc_same].
    by eapply live_edit_flow.
  - unfold log_enter. destruct (live_slot pid t) as [[i s]|] eqn:E; [|by apply mc_same].
    by eapply (live_edit_flow pid t i s (with_log_busy 1)).
  - unfold log_leave. destruct (live_slot pid t) as [[i s]|] eqn:E; [|by apply mc_same].
    by eapply live_edit_flow.
  - unfold set_priority. destruct (slot_of pid t) as [[[i s] gen]|] eqn:E; [|by apply mc_same].
    apply slot_of_Some in E as (Hi & _). destruct (_ =? _); [|by apply mc_same]. by apply (mc_edit i s).
  - unfold with_execution. destruct (slot_of pid t) as [[[i s] gen]|] eqn:E; [|by apply mc_same].
    apply slot_of_Some in E as (Hi & _). destruct (negb _); [by apply mc_same|].
    destruct (execution s) as [x|]; [|by apply mc_same]. by apply (mc_edit i s).
Qed.

Lemma clear_awaiting_flows pid t : flows (clear_awaiting_reply pid) [] (fun _ => []) t.
Proof.
  eapply (flows_bind _ _ _ (fun _ => [])); [by apply upd_hot_of_flows|intros; apply quiet_evict|done].
Qed.

Lemma mark_dead_flow pid t :
  slots_ok t ->
  mail_change t (snd (mark_dead_if_alive pid t)) [] (out_opt out_reclaim (fst (death_edge pid None t))).
Proof.
  intros Hw. pose proof (death_edge_flows pid None t Hw) as Hf. unfold flows in Hf.
  unfold mark_dead_if_alive, st_bind. by destruct (death_edge pid None t).
Qed.

(** Every operation but three is one [mail_change]. *)
Definition plain_op (op : TableOp X M) : bool :=
  match op with OSpawn _ _ | OPark _ _ _ | OKillAll => false | _ => true end.

Lemma op_flow (op : TableOp X M) t :
  plain_op op = true -> slots_ok t -> mail_change t (apply_op op t) (op_in op) (op_out op t).
Proof.
  intros Hp Hw. pose proof (edit_ops_flow op t) as He.
  destruct op; try done; cbn [apply_op op_in op_out] in *;
    first
    [ exact He
    | by apply try_claim_flows | by apply try_park_io_flows | by apply pop_received_flows
    | by apply take_reply_flows | by apply receive_or_park_flows | by apply take_reply_or_park_flows
    | by apply upd_hot_of_flows | by apply clear_awaiting_flows | by apply deliver_flows
    | by apply deliver_reply_flows | by apply promote_expired_flows | by apply promote_io_flows
    | by apply promote_call_flows | by apply yield_flows | by apply after_switch_flows
    | by apply kill_flows | by apply mark_dead_flow
    | by apply flows_quiet, quiet_monitor | by apply flows_quiet, quiet_demonitor
    | by apply flows_quiet, quiet_take_call_downs | by apply flows_quiet, quiet_take_exit_notices
    | by apply flows_quiet, quiet_take_pending_kills | by apply flows_quiet, quiet_enter_draining ].
Qed.

(** Every operation balances. *)
Lemma op_mail (op : TableOp X M) t :
  table_inv t -> Z.of_nat (length (arena t)) < 2 ^ 32 ->
  balanced t (apply_op op t) (op_in op) (op_out op t).
Proof.
  intros Hinv Hl. pose proof (inv_slots _ Hinv) as Hw. destruct (plain_op op) eqn:Hp.
  { pose proof (op_flow op t Hp Hw) as Hf. by apply mail_change_balanced. }
  destruct op; try done; cbn [apply_op op_in op_out].
  - by apply spawn_mail.
  - by apply try_park_balanced.
  - by apply kill_each_mail.
Qed.

(** The messages a whole run took in and handed out. *)
Definition run_in (ops : list (TableOp X M)) : list M := concat (map op_in ops).

Fixpoint run_out (ops : list (TableOp X M)) t : list M :=
  match ops with
  | [] => []
  | op :: rest => op_out op t ++ run_out rest (apply_op op t)
  end.

Lemma run_mail (ops : list (TableOp X M)) t :
  table_inv t -> Z.of_nat (length (arena t)) + Z.of_nat (length ops) <= 2 ^ 32 ->
  balanced t (run_table ops t) (run_in ops) (run_out ops t).
Proof.
  revert t. induction ops as [|op ops IH]; intros t Hinv Hl; simpl; [apply Permutation_refl|].
  simpl in Hl. destruct (op_inv op t Hinv ltac:(lia)) as [Hinv' Hlen].
  pose proof (op_mail op t Hinv ltac:(lia)) as Hb. pose proof (IH (apply_op op t) Hinv' ltac:(lia)) as Hb'.
  unfold balanced, run_in in *. simpl.
  change (run_table (op :: ops) t) with (run_table ops (apply_op op t)).
  rewrite (Permutation_app_comm (op_out op t)), app_assoc, Hb', <- app_assoc.
  rewrite (Permutation_app_comm _ (op_out op t)), app_assoc, Hb. by rewrite <- app_assoc.
Qed.

(** C15: no message is lost or duplicated. Over any sequence of operations from the
    empty table, the messages still in mailboxes together with the ones handed
    back (received, displaced, bounced, or returned with a reclaimed process)
    are exactly the messages delivered. *)
Theorem table_conserves_messages (ops : list (TableOp X M))
    (Hlen : Z.of_nat (length ops) <= 2 ^ 32) :
  Permutation (table_mail (run_table ops table_new) ++ run_out ops table_new) (run_in ops).
Proof. apply (run_mail ops table_new table_new_inv). exact Hlen. Qed.

(** ** Wakes *)

(** Whether slot [s] sleeps on a message like [m]. *)
Definition waits_for s (m : M) : bool :=
  match state (view s) with
  | Some Blocked => bool_decide (waiting (hot s) = target_of m)
  | Some WaitingIO => bool_decide (msg_tag m = TagLifecycle)
  | _ => false
  end.

Definition alive_slot (pid : Pid) s t : Prop :=
  arena t !! pid_slot pid = Some s /\ word_alive (view s) (pid_gen pid) = true.

Lemma alive_slot_alive pid s t : alive_slot pid s t -> is_alive pid t = true.
Proof. intros [Hi Ha]. rewrite (is_alive_slot pid t _ s Hi eq_refl). exact Ha. Qed.

Lemma state_of_slot pid t s :
  arena t !! pid_slot pid = Some s -> generation (view s) = pid_gen pid -> state (view s) <> Some Dead ->
  process_state pid t = state (view s).
Proof.
  intros Hi Hg Hnd. rewrite process_state_word, is_alive_word. unfold word_at. rewrite Hi.
  unfold word_alive. rewrite Hg, Z.eqb_refl. by destruct (state (view s)) as [[]|].
Qed.

Lemma wake_edge_state pid s from t :
  arena t !! pid_slot pid = Some s -> word_wf (lifecycle s) -> generation (view s) = pid_gen pid ->
  state (view s) = Some from ->
  exists t', wake_edge pid (pid_slot pid) from t = (Some (mkWake pid (get_priority s)), t') /\
    process_state pid t' = Some Runnable.
Proof.
  intros Hi Hwf Hg Hst. destruct (wake_edge_spec pid _ s from t Hi Hwf Hg Hst) as (t' & E & Ha & _).
  exists t'. split; [exact E|]. pose proof (edge_view _ s from Runnable (fun h => h) t Hwf Hst Hi) as Hv.
  set (s' := with_hot_of _ _) in Hv. assert (arena t' !! pid_slot pid = Some s') as Hs'.
  { rewrite Ha. unfold s', with_hot_of. destruct (with_word _ s) eqn:Es. simpl.
    apply list_lookup_insert_eq. by eapply lookup_lt_Some. }
  rewrite (state_of_slot pid t' s' Hs'); by rewrite Hv.
Qed.

(** The result of a delivery to a live process. *)
Lemma deliver_spec pid m t s :
  slots_ok t -> alive_slot pid s t ->
  wake (fst (deliver pid m t)) = (if waits_for s m then Some (mkWake pid (get_priority s)) else None) /\
  process_state pid (snd (deliver pid m t)) =
    (if waits_for s m then Some Runnable else state (view s)).
Proof.
  intros Hw [Hi Ha]. pose proof (Hw _ _ Hi) as Hok.
  pose proof Ha as (Hg & st & Hst & Hnd)%word_alive_true.
  assert (slot_of pid t = Some (pid_slot pid, s, pid_gen pid)) as Hso.
  { unfold slot_of, arena_get, pid_slot, pid_gen in *. destruct (decode pid). simpl in *. by rewrite Hi. }
  unfold deliver. rewrite Hso. fold (view s). rewrite Ha. unfold deliver_locked.
  destruct (Mailbox.push (mailbox (hot s)) m) as [d mb].
  unfold upd_hot. rewrite !(st_bind_eval _ _ _ _ _ (upd_slot_put _ _ _ _ Hi)).
  set (s1 := with_hot_of (set_mailbox mb) s).
  set (t1 := snd (record pid Delivered (put (pid_slot pid) s1 t))).
  rewrite !(st_bind_eval (record pid Delivered) _ _ tt t1 eq_refl). unfold slot_state. fold (view s).
  assert (arena t1 !! pid_slot pid = Some s1) as Hi1 by (by apply (lookup_put _ s)).
  pose proof (fun from => wake_edge_state pid s1 from t1 Hi1 (slot_word _ Hok) Hg) as Hwake.
  pose proof (state_of_slot pid t1 s1 Hi1 Hg) as Hsame.
  change (view s1) with (view s) in *. unfold waits_for, st_bind. rewrite Hst in *.
  destruct st; try (split; [done|apply Hsame; congruence]).
  all: case_bool_decide; [|split; [done|apply Hsame; congruence]].
  all: destruct (Hwake _ eq_refl) as (t' & -> & Hr); by split.
Qed.

(** ** Sleepers *)

(** A bare park of the running [pid] on mail that is already there. *)
Definition rash_park (op : TableOp X M) (pid : Pid) t : Prop :=
  exists p target dl s, op = OPark p target dl /\ pid_slot p = pid_slot pid /\ pid_gen p = pid_gen pid /\ alive_slot pid s t /\ state (view s) = Some Running /\
    ~ empty_for target (mailbox (hot s)).

Lemma asleep_ok_dec s : asleep_ok s \/ ~ asleep_ok s.
Proof.
  unfold asleep_ok. destruct (state (view s)) as [[]|]; try by left.
  - destruct (waiting (hot s)); [|destruct (reply (mailbox (hot s))); [by right|by left]].
    destruct (system (mailbox (hot s))), (business (mailbox (hot s))); [by left|right..]; by intros [? ?].
  - destruct (system (mailbox (hot s))); [by left|by right].
Qed.

Lemma empty_for_dec target (mb : Mailbox M) : empty_for target mb \/ ~ empty_for target mb.
Proof.
  destruct target; simpl.
  - destruct (system mb), (business mb); [by left|right..]; by intros [? ?].
  - destruct (reply mb); [by right|by left].
Qed.

(** What an operation does to the slot of a process that lives through it. *)
Lemma op_sleeper (op : TableOp X M) t pid s' :
  table_inv t -> Z.of_nat (length (arena t)) < 2 ^ 32 -> alive_slot pid s' (apply_op op t) ->
  asleep_ok s' \/ (rash_park op pid t /\ state (view s') = Some Blocked) \/
  exists s, alive_slot pid s t /\ (asleep_ok s -> asleep_ok s') /\
    (state (view s') = state (view s) \/
     exists from to, state (view s) = Some from /\ state (view s') = Some to /\ is_legal_transition from to = true).
Proof.
  intros Hinv Hl [Hi Ha]. pose proof (inv_slots _ Hinv) as Hw.
  assert (forall t', apply_op op t = t' -> word_alive (word_at (pid_slot pid) t') (pid_gen pid) = true) as Hwa.
  { intros t' <-. unfold word_at. by rewrite Hi. }
  assert (local_step t (apply_op op t) -> forall s, arena t !! pid_slot pid = Some s -> alive_slot pid s t /\
    (state (view s') = state (view s) \/
     exists from to, state (view s) = Some from /\ state (view s') = Some to /\ is_legal_transition from to = true))
    as Hlocal.
  { intros Hs s Hs0. destruct (local_step_alive _ _ _ _ Hs (Hwa _ eq_refl)) as [Ha0 Hst].
    unfold word_at in Ha0, Hst. rewrite Hs0 in Ha0, Hst. rewrite Hi in Hst. done. }
  destruct (plain_op op) eqn:Hp.
  { destruct (mail_change_slot _ _ _ _ _ _ (op_flow op t Hp Hw) Hi) as (s & Hs & Hok).
    destruct (Hlocal (op_local_step op t ltac:(by destruct op) ltac:(by destruct op) Hw) s Hs). eauto 10. }
  destruct op; try done; cbn [apply_op] in *.
  - destruct (spawn x parent t) as [[p|y] t'] eqn:E; cbn [snd] in *; cycle 1.
    { destruct (spawn_inr x parent t y t' Hinv Hl E) as (_ & -> & _). right. right. exists s'. split; [done|]. auto. }
    destruct (spawn_slot x parent t p t' Hinv Hl E) as (s1 & _ & Hs1 & Hv & _ & _ & Hoth).
    destruct (decide (pid_slot pid = pid_slot p)) as [Heq|Hne].
    + left. rewrite Heq, Hs1 in Hi. injection Hi as <-. apply asleep_ok_awake; by rewrite Hv.
    + right. right. exists s'. rewrite Hoth in Hi by done. split; [done|]. auto.
  - pose proof (Hlocal (try_park_step pid0 target dl t Hw)) as Hlo.
    destruct (try_park_arena pid0 target dl t Hw) as [Har|(s & s1 & Hs & Har & Hv & Hv1 & Hm & Hwt)]; rewrite Har in Hi.
    { destruct (Hlo s' Hi). eauto 10. }
    destruct (decide (pid_slot pid0 = pid_slot pid)) as [Heq|Hne].
    + rewrite Heq, list_lookup_insert_eq in Hi by (rewrite <- Heq; by eapply lookup_lt_Some). injection Hi as ->.
      rewrite Heq in Hs. destruct (Hlo s Hs) as [Hal Hst]. pose proof Hal as [_ (Hg & _)%word_alive_true].
      assert (pid_gen pid0 = pid_gen pid) as Hgen by (rewrite Hv in Hg; done).
      destruct (empty_for_dec target (mailbox (hot s))) as [He|He].
      * left. unfold asleep_ok. rewrite Hv1, Hwt, Hm. done.
      * right. left. rewrite Hv1. split; [|done]. exists pid0, target, dl, s. by rewrite Hv.
    + rewrite list_lookup_insert_ne in Hi by done. destruct (Hlo s' Hi). eauto 10.
  - exfalso. pose proof (kill_all_none t Hinv) as Hz. rewrite countb_zero in Hz.
    specialize (Hz s' (list_elem_of_lookup_2 _ _ _ Hi)). apply word_alive_true in Ha as (_ & st & Hst & Hnd).
    unfold slot_live in Hz. rewrite Hst in Hz. by destruct st.
Qed.

(** The sleep of [pid] began with a bare park on mail that was already there, and has
    lasted since. *)
Definition overslept (ops : list (TableOp X M)) (pid : Pid) : Prop :=
  exists ops1 op ops2, ops = ops1 ++ op :: ops2 /\ rash_park op pid (run_table ops1 table_new) /\
    forall k, process_state pid (run_table (ops1 ++ op :: take k ops2) table_new) = Some Blocked.

Lemma run_table_snoc (ops : list (TableOp X M)) op t : run_table (ops ++ [op]) t = apply_op op (run_table ops t).
Proof. unfold run_table. by rewrite fold_left_app. Qed.

Lemma alive_slot_state pid s t : alive_slot pid s t -> process_state pid t = state (view s).
Proof. intros [Hi (Hg & st & Hst & Hnd)%word_alive_true]. apply state_of_slot; [done|done|congruence]. Qed.

Lemma bad_state s : ~ asleep_ok s -> state (view s) = Some Blocked \/ state (view s) = Some WaitingIO.
Proof. unfold asleep_ok. destruct (state (view s)) as [[]|]; auto; by intros []. Qed.

Lemma overslept_step ops op pid :
  overslept ops pid -> process_state pid (run_table (ops ++ [op]) table_new) = Some Blocked ->
  overslept (ops ++ [op]) pid.
Proof.
  intros (ops1 & op1 & ops2 & -> & Hr & Hk) Hst. exists ops1, op1, (ops2 ++ [op]).
  split; [by rewrite <- app_assoc|]. split; [done|]. intros k.
  destruct (decide (k <= length ops2)%nat) as [Hle|Hgt].
  - rewrite take_app_le by lia. apply Hk.
  - rewrite take_ge by (rewrite length_app; simpl; lia). by rewrite <- app_assoc in Hst.
Qed.

Lemma sleepers (ops : list (TableOp X M)) pid s :
  Z.of_nat (length ops) < 2 ^ 32 -> alive_slot pid s (run_table ops table_new) -> asleep_ok s \/ overslept ops pid.
Proof.
  revert s. induction ops as [|op ops IH] using rev_ind; intros s Hlen Ha.
  { destruct Ha as [Hi _]. by destruct (pid_slot pid). }
  rewrite length_app in Hlen. simpl in Hlen. destruct (reachable ops ltac:(lia)) as [Hinv Hl].
  pose proof Ha as Hst%alive_slot_state. rewrite run_table_snoc in Ha.
  destruct (op_sleeper op _ pid s Hinv ltac:(lia) Ha) as [Hok|[[Hr Hb]|(s0 & Ha0 & Hok & Hs)]]; [by left|right|].
  - exists ops, op, []. split; [done|]. split; [done|]. intros k. rewrite take_nil. congruence.
  - destruct (asleep_ok_dec s) as [?|Hbad]; [by left|]. right.
    destruct (IH s0 ltac:(lia) Ha0) as [H0|Ho]; [by destruct Hbad; auto|]. apply overslept_step; [done|].
    assert (state (view s0) = Some Blocked) as Hb0.
    { rewrite <- (alive_slot_state _ _ _ Ha0). destruct Ho as (ops1 & op1 & ops2 & -> & _ & Hk).
      rewrite <- (take_ge ops2 (length ops2)) by lia. apply Hk. }
    rewrite Hst. destruct (bad_state s Hbad) as [?|Hio]; [done|]. exfalso.
    rewrite Hb0, Hio in Hs. destruct Hs as [?|(? & ? & [= <-] & [= <-] & ?)]; done.
Qed.

(** C2: no lost wakeup. In every reachable table, a process that sleeps on mail that is
    already there was put to sleep by one bare park, [try_park], that found it there,
    and has slept since: the parks that look at the mailbox themselves (a receive, a
    reply, IO) and every delivery, wake, take and kill leave no such sleeper behind. And a
    delivery to a live process wakes it, handing its wake to the scheduler, exactly when
    the message is one the process sleeps on. *)
Theorem no_lost_wakeup (ops : list (TableOp X M)) (Hlen : Z.of_nat (length ops) < 2 ^ 32) :
  let t := run_table ops table_new in
  (forall pid s, alive_slot pid s t ->
     asleep_ok s \/
     exists ops1 op ops2, ops = ops1 ++ op :: ops2 /\ rash_park op pid (run_table ops1 table_new) /\
       forall k, process_state pid (run_table (ops1 ++ op :: take k ops2) table_new) = Some Blocked) /\
  (forall pid s m, alive_slot pid s t ->
     wake (fst (deliver pid m t)) = (if waits_for s m then Some (mkWake pid (get_priority s)) else None) /\
     process_state pid (snd (deliver pid m t)) =
       (if waits_for s m then Some Runnable else process_state pid t)).
Proof.
  cbv zeta. split; [intros pid s; by apply sleepers|]. intros pid s m Ha.
  destruct (reachable ops Hlen) as [Hinv _].
  pose proof (deliver_spec pid m _ s (inv_slots _ Hinv) Ha) as [Hwk Hps]. split; [exact Hwk|]. rewrite Hps.
  destruct (waits_for s m); [done|]. by rewrite (alive_slot_state _ _ _ Ha).
Qed.
End Mail.

(** ** Witnesses on the concrete run *)

Lemma table_conserves_messages_witness :
  run_in sample_run = [sample_cast] /\
  Permutation (table_mail (run_table sample_run table_new) ++ run_out sample_run table_new)
    (run_in sample_run).
Proof.
  split; [reflexivity|]. apply (table_conserves_messages sample_run). vm_compute. congruence.
Defined.

(** The run up to the cast: process [a] is parked on its mailbox. *)
Definition sample_parked : list (TableOp Z Envelope) := take 7 sample_run.

Lemma no_lost_wakeup_witness :
  process_state pid_a (run_table sample_parked table_new) = Some Blocked /\
  wake (fst (deliver pid_a sample_cast (run_table sample_parked table_new))) =
    Some (mkWake pid_a Normal).
Proof.
  split; [vm_compute; reflexivity|].
  pose proof (no_lost_wakeup sample_parked ltac:(vm_compute; reflexivity)) as [_ Hw].
  destruct (arena (run_table sample_parked table_new) !! pid_slot pid_a) as [s|] eqn:Es.
  - destruct (Hw pid_a s sample_cast) as [-> _].
    + split; [exact Es|]. vm_compute in Es. injection Es as <-. vm_compute. reflexivity.
    + vm_compute in Es. injection Es as <-. vm_compute. reflexivity.
  - vm_compute in Es. discriminate Es.
Defined.

(** The receive of the evaluator parks bare after it has dropped a message no arm takes.
    With a lifecycle message ahead of a cast and no arm for it, the process sleeps on the
    cast. *)
Definition sample_lifecycle : Envelope := mkEnvelope 1 [TAG_LIFECYCLE] ZERO None 1 0.

Example dropped_then_asleep :
  let t := run_table (take 4 sample_run ++ [OClaim pid_a; ODeliver pid_a sample_lifecycle; ODeliver pid_a sample_cast;
    OPop pid_a; OPark pid_a WaitReceive None]) table_new in
  process_state pid_a t = Some Blocked /\ fst (mailbox_depth pid_a t) = Some 1.
Proof. by vm_compute. Qed.
