(* ===== verification/TableSup.v ===== *)
(** * Supervision: children, monitors and callers

    The registry's side of a death. A process whose parent died is staged for
    killing, every monitor ends in exactly one notice unless it is cancelled, and
    no monitor or call waiter is left registered on a dead process. The methods
    that are none of spawn, monitor, demonitor or death leave this part of the
    table alone; that is proved compositionally ([frames]). *)

From S2P Require Import Prelude Protocol Wire Mailbox Lifecycle ProcessTable Arena TableSteps TableInv.
Local Open Scope Z_scope.

Section Supervision.
Context {X M : Type} `{Message M}.
Implicit Types (t : Table X M) (s : Slot X M).

(** ** Methods that do not touch the supervision state *)

Record frame t t' : Prop := {
  fr_alive : alive t' = alive t;
  fr_parents : forall i, slot_parent <$> arena t' !! i = slot_parent <$> arena t !! i;
  fr_children : children (registry t') = children (registry t);
  fr_kills : pending_kills (registry t') = pending_kills (registry t);
  fr_monitors : monitors (registry t') = monitors (registry t);
  fr_notices : pending_exit_notices (registry t') = pending_exit_notices (registry t);
  fr_waiters : call_waiters (registry t') ⊆ call_waiters (registry t);
}.

#[local] Instance frame_preorder : PreOrder frame.
Proof.
  split; [by constructor|]. intros t1 t2 t3 [] []. constructor; try congruence. set_solver.
Qed.

Definition frames {A} (m : ST X M A) : Prop := forall t, frame t (snd (m t)).

Lemma frames_ret {A} (a : A) : frames (st_ret a).
Proof. by constructor. Qed.

Lemma frames_bind {A B} (m : ST X M A) (k : A -> ST X M B) :
  frames m -> (forall a, frames (k a)) -> frames (st_bind m k).
Proof.
  intros Hm Hk t. unfold st_bind. specialize (Hm t). destruct (m t) as [a t']. simpl in Hm.
  etrans; [exact Hm|apply Hk].
Qed.

Lemma frames_count f : frames (count f).
Proof. by constructor. Qed.
Lemma frames_record pid e : frames (record pid e).
Proof. by constructor. Qed.
Lemma frames_active_inc : frames active_inc.
Proof. by constructor. Qed.
Lemma frames_active_dec : frames active_dec.
Proof. by constructor. Qed.

Lemma frames_upd_slot i f : (forall s, slot_parent (f s) = slot_parent s) -> frames (upd_slot i f).
Proof.
  intros Hf t. constructor; try done. intros j. simpl. rewrite list_lookup_alter.
  destruct (decide _) as [->|]; [|done]. destruct (arena t !! j) as [s|]; [|done]. simpl. by rewrite Hf.
Qed.

Lemma frames_upd_hot i f : frames (upd_hot i f).
Proof. by apply frames_upd_slot. Qed.

Lemma frames_word_op {A} (d : A) i op : frames (word_op d i op).
Proof.
  intros t. unfold word_op. destruct (arena t !! i) as [s|]; [|reflexivity].
  destruct (op (lifecycle s)) as [a w]. by apply (frames_upd_slot i (with_word w)).
Qed.

Lemma frames_registry {A} (f : Registry -> A * Registry) :
  (forall r, children (snd (f r)) = children r /\ pending_kills (snd (f r)) = pending_kills r /\
     monitors (snd (f r)) = monitors r /\ pending_exit_notices (snd (f r)) = pending_exit_notices r /\
     call_waiters (snd (f r)) ⊆ call_waiters r) ->
  frames (with_registry f).
Proof.
  intros Hf t. unfold with_registry. specialize (Hf (registry t)). destruct (f (registry t)) as [a r].
  simpl in *. destruct_and!. by constructor.
Qed.

Lemma frames_with_hot {A} pid (f : nat -> Slot X M -> ST X M A) :
  (forall i s, frames (f i s)) -> frames (with_hot pid f).
Proof.
  intros Hf t. unfold with_hot. destruct (slot_of pid t) as [[[i s] gen]|]; [|reflexivity].
  destruct (negb _); [reflexivity|]. specialize (Hf i s t). by destruct (f i s t).
Qed.

Create HintDb frames.

(** Tactic: a method built from framed primitives is framed. *)
Ltac framed :=
  repeat first
    [ solve [auto 1 with frames] | apply frames_ret | apply frames_count | apply frames_record | apply frames_active_inc
    | apply frames_active_dec | apply frames_upd_hot | apply frames_word_op
    | (apply frames_bind; [|intros ?]) | (apply frames_with_hot; intros ? ?)
    | (apply frames_upd_slot; done)
    | (apply frames_registry; intros ?; simpl; repeat split; set_solver) ].

Lemma frames_park_edge pid i to : frames (park_edge pid i to).
Proof.
  intros t. unfold park_edge. destruct (arena t !! i) as [s|]; [|reflexivity].
  destruct (negb _).
  - assert (frames (note_refused_park pid ;;* st_ret false)) as Hf; [unfold note_refused_park; framed|apply Hf].
  - match goal with |- frame t (snd (?m t)) => assert (frames m) as Hf; [framed|apply Hf] end.
    destruct (negb a); framed.
Qed.
#[local] Hint Resolve frames_park_edge : frames.

Lemma frames_refused {A} pid (a : A) r : frames (or_refused pid a r).
Proof. unfold or_refused, note_refused_park. destruct r; framed. Qed.
#[local] Hint Resolve frames_refused : frames.

Lemma frames_wake_edge pid i from : frames (wake_edge pid i from).
Proof.
  unfold wake_edge. framed. destruct (negb a); [framed|].
  destruct (bool_decide _); framed; intros t; by constructor.
Qed.
#[local] Hint Resolve frames_wake_edge : frames.

Lemma frames_try_park pid target dl : frames (try_park pid target dl).
Proof.
  unfold try_park. framed. destruct (negb a); framed.
Qed.

Lemma frames_try_park_io pid dl : frames (try_park_io pid dl).
Proof.
  unfold try_park_io. framed. destruct (has_system _); framed.
  destruct a; framed.
Qed.

Lemma frames_pop pid : frames (pop_received pid).
Proof. unfold pop_received. framed. destruct (Mailbox.pop_received _). framed. Qed.
Lemma frames_take pid : frames (take_reply pid).
Proof. unfold take_reply. framed. Qed.

Lemma frames_receive pid dl : frames (receive_or_park pid dl).
Proof.
  unfold receive_or_park. framed.
  destruct (Mailbox.pop_received _) as [m mb]. framed. destruct m; framed.
  destruct (negb a0); framed.
Qed.

Lemma frames_evict cr : frames (evict_call_waiter cr).
Proof.
  apply frames_registry. intros r. simpl. repeat split. intros w Hw. by apply filterb_elem in Hw as [? _].
Qed.
#[local] Hint Resolve frames_evict : frames.

Lemma frames_upd_hot_of pid f : frames (upd_hot_of pid f).
Proof. unfold upd_hot_of. framed. Qed.

Lemma frames_deliver_locked pid i s m : frames (deliver_locked pid i s m).
Proof.
  unfold deliver_locked. destruct (Mailbox.push _ _) as [d mb]. framed.
  destruct (match slot_state s with Some Blocked => _ | Some WaitingIO => _ | _ => _ end);
    framed.
Qed.
#[local] Hint Resolve frames_deliver_locked : frames.

Lemma frames_deliver pid m : frames (deliver pid m).
Proof.
  intros t. unfold deliver. destruct (slot_of pid t) as [[[i s] gen]|]; [|by constructor].
  destruct (word_alive _ _); [apply frames_deliver_locked|by constructor].
Qed.

Lemma frames_deliver_reply pid token m : frames (deliver_reply pid token m).
Proof.
  intros t. unfold deliver_reply. destruct (slot_of pid t) as [[[i s] gen]|]; [|by constructor].
  destruct (_ && _); [|by constructor]. pose proof (frames_deliver_locked pid i s m t) as Hf.
  by destruct (deliver_locked pid i s m t).
Qed.

Lemma frames_promote_expired pid fire : frames (promote_expired pid fire).
Proof.
  unfold promote_expired. framed.
  - destruct (state _) as [[]|]; framed; destruct (negb _); framed.
  - destruct (default None a); framed.
Qed.

Lemma frames_promote_io pid : frames (promote_io_waiter pid).
Proof. unfold promote_io_waiter. framed. destruct (_ || _); framed. Qed.

Lemma frames_promote_call cr token : frames (promote_call_waiter cr token).
Proof. unfold promote_call_waiter. framed. destruct (negb _); framed. Qed.

Lemma frames_yield pid : frames (yield_running pid).
Proof.
  intros t. unfold yield_running. destruct (slot_of pid t) as [[[i s] gen]|]; [|by constructor].
  match goal with |- frame t (snd (?m t)) => assert (frames m) as Hf; [|apply Hf] end.
  framed. destruct a; framed.
Qed.

Lemma frames_claim pid : frames (try_claim pid).
Proof.
  intros t. unfold try_claim. destruct (slot_of pid t) as [[[i s] gen]|]; [|by constructor].
  match goal with |- frame t (snd (?m t)) => assert (frames m) as Hf; [|apply Hf] end.
  framed. destruct (negb a); framed.
Qed.

Lemma frames_reclaim_locked pid i : frames (reclaim_locked pid i).
Proof.
  intros t. unfold reclaim_locked. destruct (arena t !! i) as [s|]; [|by constructor].
  match goal with |- frame t (snd (?m t)) => assert (frames m) as Hf; [framed|apply Hf] end.
Qed.

Lemma frames_push_free i : frames (push_free i).
Proof. unfold push_free. framed. Qed.
#[local] Hint Resolve frames_push_free frames_reclaim_locked : frames.

Lemma frames_after_switch pid : frames (after_switch pid).
Proof.
  intros t. unfold after_switch. destruct (slot_of pid t) as [[[i s] gen]|]; [|by constructor].
  match goal with |- frame t (snd (?m t)) => assert (frames m) as Hf; [|apply Hf] end.
  framed. destruct a as [[]|]; framed; unfold reclaim; framed.
Qed.

(** The part of a call park after the registration of the caller. *)
Lemma frames_after_ensure pid token dl ce t :
  frame (snd (ensure_call_waiter pid ce token t)) (snd (take_reply_or_park pid token dl ce t)).
Proof.
  unfold take_reply_or_park. unfold st_bind at 1. destruct (ensure_call_waiter pid ce token t) as [[] t1].
  cbn [snd]. match goal with |- frame t1 (snd (?m t1)) => assert (frames m) as Hf; [|apply Hf] end.
  framed; [|by destruct a0; framed].
  destruct (reply _) as [r|].
  - destruct (_ =? _); framed.
  - intros t2. destruct (negb _).
    + match goal with |- frame t2 (snd (?m t2)) => assert (frames m) as Hf; [framed|apply Hf] end.
    + match goal with |- frame t2 (snd (?m t2)) => assert (frames m) as Hf; [|apply Hf] end.
      framed. destruct (negb a0); framed.
Qed.

Lemma frames_plain_edit pid (f : Slot X M -> Slot X M) t :
  (forall s, slot_parent (f s) = slot_parent s) ->
  frame t (snd (match live_slot pid t with Some (i, _) => upd_slot i f t | None => (tt, t) end)).
Proof. intros Hf. destruct (live_slot pid t) as [[i s]|]; [by apply frames_upd_slot|reflexivity]. Qed.

Lemma frames_set_priority pid p : frames (set_priority pid p).
Proof.
  intros t. unfold set_priority. destruct (slot_of pid t) as [[[i s] gen]|]; [|reflexivity].
  destruct (_ =? _); [|reflexivity]. by apply frames_upd_slot.
Qed.

Lemma frames_with_execution {A} pid (f : X -> A * X) : frames (with_execution pid f).
Proof.
  intros t. unfold with_execution. destruct (slot_of pid t) as [[[i s] gen]|]; [|reflexivity].
  destruct (negb _); [reflexivity|]. destruct (execution s) as [x|]; [|reflexivity].
  destruct (f x) as [a x']. by apply frames_upd_slot.
Qed.

Lemma frames_log_enter pid : frames (log_enter pid).
Proof.
  intros t. unfold log_enter. destruct (live_slot pid t) as [[i s]|]; [|reflexivity].
  by apply (frames_upd_slot i (with_log_busy 1)).
Qed.

(** Operations outside the supervision state. *)
Definition framed_op (op : TableOp X M) : bool :=
  match op with
  | OSpawn _ _ | OKill _ | OMarkDead _ | OKillAll | OMonitor _ _ | ODemonitor _
  | OReplyOrPark _ _ _ _ | OTakeExitNotices | OTakePendingKills => false
  | _ => true
  end.

Lemma op_frame (op : TableOp X M) t : framed_op op = true -> frame t (apply_op op t).
Proof.
  intros Hf. destruct op; try done; cbn [apply_op];
    first [ apply frames_claim | apply frames_try_park | apply frames_try_park_io | apply frames_pop
          | apply frames_take | apply frames_receive | apply frames_upd_hot_of | apply frames_deliver
          | apply frames_deliver_reply | apply frames_promote_expired | apply frames_promote_io
          | apply frames_promote_call | apply frames_yield | apply frames_after_switch
          | apply frames_set_priority | apply frames_with_execution | apply frames_log_enter
          | by apply frames_plain_edit | idtac ].
  - apply frames_bind; [apply frames_upd_hot_of|intros; apply frames_evict].
  - apply frames_registry. intros r. destruct (mode r); simpl; repeat split; set_solver.
Qed.

(** ** Liveness under frames and deaths *)

Lemma slot_change_word_alive s s' b g :
  slot_change s s' b -> slot_live s' = slot_live s -> word_alive (view s') g = word_alive (view s) g.
Proof.
  unfold slot_live. intros Hc Hl. destruct Hc as
    [s s' Hw _ _|s s' from to Hst Hleg Hnd _ Hv _ _|s s' _ _ _ Hv _ _|s s' Hlive _ _ Hv _ _
    |s s' Hcase _ Hv _ _].
  - unfold view. by rewrite Hw.
  - rewrite Hv in *. unfold word_alive. simpl. rewrite Hst. by destruct from, to.
  - rewrite Hv. done.
  - rewrite Hv in Hl. unfold slot_live in Hlive. by rewrite Hlive in Hl.
  - rewrite Hv in *. destruct Hcase as [[Hlive _]|[Hd _]].
    + unfold slot_live in Hlive. by rewrite Hlive in Hl.
    + unfold word_alive. rewrite Hd. simpl. by rewrite !andb_false_r.
Qed.

Lemma word_dead_false (w : WordState) g : live_state (state w) = false -> word_alive w g = false.
Proof. unfold word_alive. destruct (state w) as [[]|]; try done; intros _; apply andb_false_r. Qed.

Lemma adjust_fixed v b b' : 0 <= v < 2 ^ 64 -> adjust v b b' = v -> b' = b.
Proof.
  intros Hv. destruct b, b'; simpl; try done; unfold wrap; intros E; exfalso.
  - destruct (decide (v = 0)) as [->|Hne]; [done|]. rewrite Z.mod_small in E; lia.
  - destruct (decide (v = 2 ^ 64 - 1)) as [->|Hne]; [done|]. rewrite Z.mod_small in E; lia.
Qed.

Lemma alive_range t : table_inv t -> 0 <= alive t < 2 ^ 64.
Proof.
  intros Hinv. rewrite (inv_alive _ Hinv). pose proof (countb_nonneg slot_live (arena t)).
  pose proof (countb_le_length slot_live (arena t)). pose proof (inv_length _ Hinv). lia.
Qed.

(** With the live count unchanged, so is every process's liveness. *)
Lemma alive_unchanged t t' q :
  table_inv t -> local_step t t' -> alive t' = alive t -> is_alive q t' = is_alive q t.
Proof.
  intros Hinv Hs Hal. rewrite !is_alive_word. unfold word_at.
  destruct Hs as [t t' Ha _ _ _|t t' i s s' fr Hi Hc Ha _ Hal' _]; [by rewrite Ha|].
  rewrite Hal' in Hal. apply adjust_fixed in Hal; [|by apply alive_range].
  rewrite Ha. destruct (decide (i = pid_slot q)) as [->|Hne].
  - rewrite list_lookup_insert_eq by (by eapply lookup_lt_Some). rewrite Hi.
    by eapply slot_change_word_alive.
  - by rewrite list_lookup_insert_ne.
Qed.

Definition is_pid (p : Pid) : Prop := - 2 ^ 63 <= p < 2 ^ 63.

(** A death: the registry is notified, the victim and only it stops being alive. *)
Lemma death_effect pid forced t s :
  table_inv t -> is_pid pid -> arena t !! pid_slot pid = Some s ->
  word_alive (view s) (pid_gen pid) = true ->
  let t' := snd (death_edge pid forced t) in
  is_alive pid t' = false /\
  (forall q, is_pid q -> q <> pid -> is_alive q t' = is_alive q t) /\
  (forall i, slot_parent <$> arena t' !! i = slot_parent <$> arena t !! i) /\
  (let r := notify_exit pid (slot_parent s) (death_reason forced s) (hot_crash_info (hot s)) (registry t) in
   children (registry t') = children r /\ pending_kills (registry t') = pending_kills r /\
   monitors (registry t') = monitors r /\ pending_exit_notices (registry t') = pending_exit_notices r /\
   call_waiters (registry t') = call_waiters r).
Proof.
  intros Hinv Hp Hi Ha. cbv zeta. pose proof (inv_slots _ Hinv _ _ Hi) as Hok.
  pose proof Ha as (Hg & st & Hst & Hnd)%word_alive_true.
  assert (slot_live s = true) as Hl by (unfold slot_live; rewrite Hst; by destruct st).
  destruct (dead_slot_view forced s (slot_word _ Hok) Hl) as (_ & _ & Hdv & _).
  destruct (freed_slot_view (dead_slot forced s)) as (_ & Hfv & _).
  destruct (death_edge_spec pid forced t _ s Hi Hok eq_refl Ha) as (t' & -> & Har & _ & _ & _ & Hr). cbn [snd].
  set (s' := if on_cpu (view s) then _ else _) in Har.
  assert (live_state (state (view s')) = false) as Hdead
    by (unfold s'; destruct (on_cpu (view s)); by rewrite ?Hdv, ?Hfv).
  assert (slot_parent s' = slot_parent s) as Hpar
    by (unfold s', dead_slot; destruct (on_cpu (view s)), forced; done).
  pose proof (lookup_lt_Some _ _ _ Hi) as Hlt. split; [|split; [|split]].
  - rewrite is_alive_word. unfold word_at. rewrite Har, list_lookup_insert_eq by done.
    by apply word_dead_false.
  - intros q Hq Hne. rewrite !is_alive_word. unfold word_at. rewrite Har.
    destruct (decide (pid_slot pid = pid_slot q)) as [E|Hns]; [|by rewrite list_lookup_insert_ne].
    rewrite <- E, list_lookup_insert_eq, Hi, word_dead_false by done. symmetry. apply not_true_iff_false.
    intros (Hgq & _)%word_alive_true. destruct Hne. apply pid_eq; [done|done|done|congruence].
  - intros i. rewrite Har. destruct (decide (i = pid_slot pid)) as [->|Hns].
    + rewrite list_lookup_insert_eq, Hi by done. simpl. by rewrite Hpar.
    + by rewrite list_lookup_insert_ne.
  - rewrite Hr. by destruct (on_cpu (view s)).
Qed.

(** ** The supervision invariant *)

Lemma is_alive_at pid t s :
  arena t !! pid_slot pid = Some s -> is_alive pid t = word_alive (view s) (pid_gen pid).
Proof. intros Hs. exact (is_alive_slot pid t _ s Hs eq_refl). Qed.

(** [issued]: the kills already handed to the scheduler. *)
Record sup_inv (issued : list Pid) t : Prop := {
  sup_kids : forall pid s, is_pid pid -> arena t !! pid_slot pid = Some s ->
    word_alive (view s) (pid_gen pid) = true -> slot_parent s <> 0 ->
    (exists c, children (registry t) !! slot_parent s = Some c /\ pid ∈ c) \/
    pid ∈ pending_kills (registry t) ++ issued;
  sup_keys : forall p c, children (registry t) !! p = Some c -> is_pid p /\ is_alive p t = true;
  sup_monitors : forall e, e ∈ monitors (registry t) ->
    is_pid (monitor_target e) /\ is_alive (monitor_target e) t = true;
  sup_waiters : forall w, w ∈ call_waiters (registry t) ->
    (is_pid (callee w) /\ is_alive (callee w) t = true) /\
    (is_pid (caller w) /\ is_alive (caller w) t = true);
}.

Lemma same_alive_slot t t' pid s' :
  (forall q, is_alive q t' = is_alive q t) ->
  (forall i, slot_parent <$> arena t' !! i = slot_parent <$> arena t !! i) ->
  arena t' !! pid_slot pid = Some s' -> word_alive (view s') (pid_gen pid) = true ->
  exists s, arena t !! pid_slot pid = Some s /\ word_alive (view s) (pid_gen pid) = true /\
    slot_parent s = slot_parent s'.
Proof.
  intros Hal Hpar Hs' Ha. specialize (Hpar (pid_slot pid)). rewrite Hs' in Hpar. simpl in Hpar.
  destruct (arena t !! pid_slot pid) as [s|] eqn:Hs; [|done]. injection Hpar as Hpar.
  exists s. split; [done|]. split; [|done].
  by rewrite <- (is_alive_at pid t' s' Hs'), Hal, (is_alive_at pid t s Hs) in Ha.
Qed.

(** Steps that keep every liveness, parent and children entry. *)
Lemma sup_keep issued issued' t t' :
  table_inv t -> local_step t t' -> alive t' = alive t ->
  (forall i, slot_parent <$> arena t' !! i = slot_parent <$> arena t !! i) ->
  children (registry t') = children (registry t) ->
  (forall p, p ∈ pending_kills (registry t) ++ issued -> p ∈ pending_kills (registry t') ++ issued') ->
  (forall e, e ∈ monitors (registry t') -> e ∈ monitors (registry t) \/
     (is_pid (monitor_target e) /\ is_alive (monitor_target e) t = true)) ->
  (forall w, w ∈ call_waiters (registry t') -> w ∈ call_waiters (registry t) \/
     ((is_pid (callee w) /\ is_alive (callee w) t = true) /\
      (is_pid (caller w) /\ is_alive (caller w) t = true))) ->
  sup_inv issued t -> sup_inv issued' t'.
Proof.
  intros Hinv Hs Hal Hpar Hch Hk Hm Hw [Ikids Ikeys Imon Iwait].
  assert (forall q, is_alive q t' = is_alive q t) as Hq by (intros q; by apply alive_unchanged).
  constructor.
  - intros pid s' Hp Hs' Ha Hne. rewrite Hch.
    destruct (same_alive_slot t t' pid s' Hq Hpar Hs' Ha) as (s & Hsl & Hal' & E).
    rewrite <- E in Hne |- *.
    destruct (Ikids pid s Hp Hsl Hal' Hne) as [?|?]; auto.
  - intros p c. rewrite Hch, Hq. apply Ikeys.
  - intros e He. rewrite Hq. destruct (Hm e He); auto.
  - intros w Hw'. rewrite !Hq. destruct (Hw w Hw'); auto.
Qed.

Lemma sup_frame issued t t' :
  table_inv t -> local_step t t' -> frame t t' -> sup_inv issued t -> sup_inv issued t'.
Proof.
  intros Hinv Hs [Hal Hpar Hch Hk Hm Hn Hw]. apply sup_keep; try done.
  - by rewrite Hk.
  - rewrite Hm. auto.
  - auto.
Qed.

Lemma remove_child_lookup (c : gmap Pid (gset Pid)) parent pid p l :
  remove_child parent pid c !! p = Some l ->
  exists l', c !! p = Some l' /\ l ⊆ l'.
Proof.
  unfold remove_child. destruct (c !! parent) as [sib|] eqn:E; [|eauto]. case_bool_decide.
  - rewrite lookup_delete_Some. intros [_ ?]. eauto.
  - rewrite lookup_insert_Some. intros [[<- <-]|[_ ?]]; [|eauto]. exists sib. split; [done|set_solver].
Qed.

Lemma remove_child_other (c : gmap Pid (gset Pid)) parent pid p l q :
  c !! p = Some l -> q ∈ l -> q <> pid ->
  exists l', remove_child parent pid c !! p = Some l' /\ q ∈ l'.
Proof.
  intros Hc Hq Hne. unfold remove_child. destruct (c !! parent) as [sib|] eqn:E; [|eauto].
  destruct (decide (p = parent)) as [->|Hpp].
  - rewrite Hc in E. injection E as <-. rewrite bool_decide_false by set_solver.
    exists (l ∖ {[pid]}). rewrite lookup_insert_eq. split; [done|set_solver].
  - case_bool_decide; [rewrite lookup_delete_ne by done|rewrite lookup_insert_ne by done]; eauto.
Qed.

Lemma elem_ascending p (c : gset Pid) : p ∈ ascending c <-> p ∈ c.
Proof. unfold ascending. rewrite merge_sort_Permutation. apply elem_of_elements. Qed.

Lemma sup_death issued pid forced t :
  table_inv t -> is_pid pid -> sup_inv issued t -> sup_inv issued (snd (death_edge pid forced t)).
Proof.
  intros Hinv Hp Hsup. destruct (is_alive pid t) eqn:Ea;
    [|by rewrite (death_edge_none pid forced t (inv_slots _ Hinv) Ea)].
  apply is_alive_true in Ea as (i & s & Hi & -> & Ha).
  destruct (death_effect pid forced t s Hinv Hp Hi Ha) as (Hdead & Hoth & Hpar & Hch & Hk & Hm & _ & Hw).
  set (t' := snd (death_edge pid forced t)) in *. destruct Hsup as [Ikids Ikeys Imon Iwait].
  constructor.
  - intros q s' Hq Hs' Haq Hne.
    assert (q <> pid) as Hqp by (intros ->; rewrite (is_alive_at pid t' s' Hs') in Hdead; congruence).
    specialize (Hpar (pid_slot q)). rewrite Hs' in Hpar. destruct (arena t !! pid_slot q) as [sq|] eqn:Hsq; [|done].
    injection Hpar as Hpar. rewrite Hpar in *.
    assert (word_alive (view sq) (pid_gen q) = true) as Haq'.
    { pose proof (Hoth q Hq Hqp) as E. rewrite (is_alive_at q t' s' Hs'), (is_alive_at q t sq Hsq) in E.
      congruence. }
    destruct (Ikids q sq Hq Hsq Haq' Hne) as [(c & Hc & Hqc)|Hkill].
    + rewrite Hch, Hk. cbn [notify_exit children pending_kills].
      destruct (decide (slot_parent sq = pid)) as [Epar|Hnp].
      * right. rewrite <- Epar, Hc. apply elem_of_app. left. apply elem_of_app. right. by apply elem_ascending.
      * left. apply (remove_child_other _ _ _ _ c); [by rewrite lookup_delete_ne|done|done].
    + right. rewrite Hk. cbn [notify_exit pending_kills].
      apply elem_of_app in Hkill as [?|?]; apply elem_of_app; [left; apply elem_of_app; by left|by right].
  - intros p c. rewrite Hch. cbn [notify_exit children].
    intros (l & Hl & _)%remove_child_lookup. apply lookup_delete_Some in Hl as [Hne Hl].
    destruct (Ikeys p l Hl) as [Hpp Hpa]. split; [done|]. rewrite Hoth; auto.
  - intros e. rewrite Hm. cbn [notify_exit monitors]. intros [He Hf]%filterb_elem. clean.
    destruct (Imon e He) as [Hpe Hae]. split; [done|]. rewrite Hoth; auto.
  - intros w. rewrite Hw. cbn [notify_exit call_waiters]. intros [He Hf]%filterb_elem. clean.
    destruct (Iwait w He) as [[? ?] [? ?]]. rewrite !Hoth; auto.
Qed.

(** What a successful spawn does to this part of the table. *)
Lemma spawn_registry x par t pid t' :
  table_inv t -> Z.of_nat (length (arena t)) < 2 ^ 32 -> spawn x par t = (inl pid, t') ->
  (exists s', arena t' !! pid_slot pid = Some s' /\ slot_parent s' = default 0 par) /\
  match par with Some p => is_alive p t = true | None => True end /\
  children (registry t') = match par with
                           | Some p => insert_child p pid (children (registry t))
                           | None => children (registry t)
                           end /\
  pending_kills (registry t') = pending_kills (registry t) /\
  monitors (registry t') = monitors (registry t) /\
  pending_exit_notices (registry t') = pending_exit_notices (registry t) /\
  call_waiters (registry t') = call_waiters (registry t).
Proof.
  intros Hinv Hlen Hsp. pose proof (inv_free_range _ Hinv) as Hf.
  destruct (match par with Some p => negb (is_alive p t) | None => false end) eqn:Ep.
  { destruct par as [p|]; [|done]. apply negb_true_iff in Ep. by rewrite spawn_refused in Hsp. }
  assert (match par with Some p => is_alive p t = true | None => True end) as Hpar
    by (destruct par; [by apply negb_false_iff|done]).
  destruct (take_result_slot t Hf) as [s Hs].
  assert (registry (snd (take_result t)) = registry t \/
          exists l, registry (snd (take_result t)) = set_free l (registry t)) as Hreg.
  { unfold take_result. destruct (vec_pop _) as [[??]|]; simpl; eauto. }
  destruct (take_result t) as [i t1] eqn:Et. cbn [fst snd] in *.
  destruct (spawn_spec x par t i t1 s Hlen (free_in_range_nonneg t Hf) Hpar Et Hs)
    as (t2 & E & Ha & _ & _ & _ & Hr).
  rewrite Hsp in E. injection E as Epid <-.
  pose proof (load_generation_range (lifecycle s)) as Hg. fold (view s) in Hg.
  assert (pid_slot pid = i) as Ei.
  { rewrite Epid. apply pid_slot_encode; [|lia]. apply lookup_lt_Some in Hs.
    destruct (take_result_step t Hf) as (rest & _ & Hc). rewrite Et in Hc. cbn [fst snd] in Hc.
    destruct Hc as [[Hc _]|(Hc & _)]; rewrite Hc, ?length_app in Hs; simpl in Hs; lia. }
  split; [|split; [done|]].
  - rewrite Ei, Ha, list_lookup_insert_eq by (by eapply lookup_lt_Some). by eexists.
  - rewrite Hr, Epid. destruct par; destruct Hreg as [-> | [l ->]]; by repeat split.
Qed.

Lemma sup_spawn issued x par t :
  table_inv t -> Z.of_nat (length (arena t)) < 2 ^ 32 ->
  match par with Some p => is_pid p | None => True end ->
  sup_inv issued t -> sup_inv issued (snd (spawn x par t)).
Proof.
  intros Hinv Hl Hty Hsup. destruct (spawn x par t) as [[pid|y] t'] eqn:E; cycle 1.
  { destruct (spawn_inr x par t y t' Hinv Hl E) as (_ & -> & _). done. }
  destruct (spawn_effect x par t pid t' Hinv Hl E) as (Hr & _ & _ & Honly & Hkeep).
  destruct (spawn_registry x par t pid t' Hinv Hl E) as ((s' & Hs' & Hpar) & Hpa & Hch & Hk & Hm & _ & Hw).
  destruct (spawn_slot x par t pid t' Hinv Hl E) as (s1 & _ & Hs1 & _ & _ & _ & Hoth).
  rewrite Hs' in Hs1. injection Hs1 as <-. cbn [snd]. destruct Hsup as [Ikids Ikeys Imon Iwait].
  assert (forall p c, children (registry t) !! p = Some c -> exists c', children (registry t') !! p = Some c' /\ c ⊆ c') as Hsup.
  { intros p c Hc. rewrite Hch. destruct par as [p0|]; [|eauto]. unfold insert_child.
    destruct (decide (p = p0)) as [->|Hne].
    - rewrite lookup_insert_eq, Hc. simpl. eexists. split; [done|set_solver].
    - rewrite lookup_insert_ne by done. eauto. }
  constructor.
  - intros q sq Hq Hsq Haq Hne. rewrite Hk. destruct (decide (q = pid)) as [->|Hqp].
    + rewrite Hs' in Hsq. injection Hsq as <-. rewrite Hpar in *. rewrite Hch.
      destruct par as [p0|]; [|done]. simpl. left. unfold insert_child. rewrite lookup_insert_eq.
      eexists. split; [done|set_solver].
    + assert (is_alive q t' = true) as Hq' by (by rewrite (is_alive_at q t' sq Hsq)).
      destruct (Honly q Hq') as [Hqt|[Hps Hpg]]; [|by destruct Hqp; apply pid_eq].
      destruct (decide (pid_slot q = pid_slot pid)) as [Es|Hns].
      * exfalso. apply is_alive_true in Hqt as (j & sj & Hj & -> & Haj).
        destruct (spawn_slot x par t pid t' Hinv Hl E) as (s2 & _ & Hs2 & Hv & _ & Hvac & _).
        unfold word_at in Hvac. rewrite <- Es in Hvac. unfold pid_slot in Hvac at 1. rewrite Hj in Hvac.
        apply word_alive_true in Haj as (_ & st & Hst & _). congruence.
      * rewrite Hoth in Hsq by done.
        destruct (Ikids q sq Hq Hsq Haq Hne) as [(c & Hc & Hqc)|?]; [left|by right].
        destruct (Hsup _ _ Hc) as (c' & Hc' & Hsub). exists c'. split; [done|set_solver].
  - intros p c. rewrite Hch. intros Hc. destruct par as [p0|].
    + unfold insert_child in Hc. apply lookup_insert_Some in Hc as [[<- _]|[_ Hc]].
      * split; [done|]. by apply Hkeep.
      * destruct (Ikeys p c Hc). split; [done|]. by apply Hkeep.
    + destruct (Ikeys p c Hc). split; [done|]. by apply Hkeep.
  - intros e. rewrite Hm. intros He. destruct (Imon e He). split; [done|]. by apply Hkeep.
  - intros w. rewrite Hw. intros He. destruct (Iwait w He) as [[? ?] [? ?]].
    split; (split; [done|]); by apply Hkeep.
Qed.

(** PID arguments are [i64]s. *)
Definition op_typed (op : TableOp X M) : Prop :=
  match op with
  | OSpawn _ (Some p) => is_pid p
  | OKill pid | OMarkDead pid => is_pid pid
  | OMonitor w tg => is_pid w /\ is_pid tg
  | OReplyOrPark pid _ _ ce => is_pid pid /\ is_pid ce
  | _ => True
  end.

Definition op_kills (op : TableOp X M) t : list Pid :=
  match op with OTakePendingKills => fst (take_pending_kills t) | _ => [] end.

Lemma death_like {A B} (m : ST X M A) (k : A -> ST X M B) t :
  (forall a t', snd (k a t') = t') -> snd (st_bind m k t) = snd (m t).
Proof. intros Hk. unfold st_bind. destruct (m t) as [a t']. apply Hk. Qed.

Lemma sup_kill_each issued pids t :
  Forall is_pid pids -> table_inv t -> sup_inv issued t -> sup_inv issued (snd (kill_each pids t)).
Proof.
  intros Hp. revert t. induction Hp as [|pid pids Hpid _ IH]; intros t Hinv Hsup; [done|]. cbn [kill_each].
  pose proof (local_step_inv _ _ (kill_step pid t (inv_slots _ Hinv)) Hinv) as Hinv'.
  assert (sup_inv issued (snd (kill pid t))) as Hs'
    by (unfold kill; rewrite death_like by done; by apply sup_death).
  unfold st_bind. destruct (kill pid t) as [r t1]. cbn [snd] in *.
  specialize (IH t1 Hinv' Hs'). by destruct (kill_each pids t1).
Qed.

Lemma live_pids_typed t : table_inv t -> Forall is_pid (live_pids t).
Proof.
  intros Hinv. apply Forall_forall. unfold live_pids. intros p Hin.
  apply list_elem_of_In, in_concat in Hin as (l & Hl & Hp).
  apply in_map_iff in Hl as (o & <- & Ho). apply list_elem_of_In, elem_of_lookup_imap in Ho as (i & s & -> & Hs).
  unfold live_pid in Hp. destruct (slot_state s) as [st|]; [|done]. case_bool_decide; [done|].
  destruct Hp as [<-|[]]. pose proof (load_generation_range (lifecycle s)).
  pose proof (lookup_lt_Some _ _ _ Hs). pose proof (inv_length _ Hinv). apply encode_range; lia.
Qed.

Lemma ensure_waiters cr ce token t w :
  w ∈ call_waiters (registry (snd (ensure_call_waiter cr ce token t))) ->
  w ∈ call_waiters (registry t) \/
  (w = mkWaiter ce cr token /\ is_alive ce t = true /\ is_alive cr t = true).
Proof.
  unfold ensure_call_waiter, with_registry. simpl. destruct (negb _ && _ && _) eqn:E; [|by left]. simpl.
  intros [?|Hw]%elem_of_app; [by left|right]. clean. apply list_elem_of_singleton in Hw. done.
Qed.

Lemma ensure_others cr ce token t :
  let r := registry (snd (ensure_call_waiter cr ce token t)) in
  children r = children (registry t) /\ pending_kills r = pending_kills (registry t) /\
  monitors r = monitors (registry t) /\ pending_exit_notices r = pending_exit_notices (registry t).
Proof. unfold ensure_call_waiter, with_registry. simpl. by destruct (_ && _). Qed.

Lemma monitor_effect watcher target t :
  let t' := snd (monitor watcher target t) in
  arena t' = arena t /\ alive t' = alive t /\
  children (registry t') = children (registry t) /\
  pending_kills (registry t') = pending_kills (registry t) /\
  call_waiters (registry t') = call_waiters (registry t) /\
  exists token reason ci,
    monitors (registry t') = monitors (registry t) ++
      (if is_alive target t then [mkMonitor target token watcher] else []) /\
    pending_exit_notices (registry t') = pending_exit_notices (registry t) ++
      (if is_alive target t then [] else [mkExitNotice ci reason target watcher]).
Proof.
  cbv zeta. unfold monitor. destruct (is_alive target t) eqn:Ea.
  - simpl. do 5 (split; [done|]). eexists _, ExitNormal, None. split; [done|]. by rewrite app_nil_r.
  - unfold st_bind, with_registry, with_hot. cbn [fst snd].
    destruct (slot_of _ _) as [[[i s] gen]|]; [destruct (negb _)|];
      do 5 (split; [done|]); eexists 0, _, _; (split; [done|reflexivity]).
Qed.

Lemma op_sup issued (op : TableOp X M) t :
  table_inv t -> Z.of_nat (length (arena t)) < 2 ^ 32 -> op_typed op ->
  sup_inv issued t -> sup_inv (op_kills op t ++ issued) (apply_op op t).
Proof.
  intros Hinv Hl Hty Hsup. pose proof (inv_slots _ Hinv) as Hw. destruct (framed_op op) eqn:Hf.
  { replace (op_kills op t) with ([] : list Pid) by (by destruct op). simpl.
    eapply sup_frame; [exact Hinv| |by apply op_frame|done]. apply op_local_step; [by destruct op..|done]. }
  destruct op; try done; cbn [apply_op op_kills op_typed] in *; simpl app.
  - by apply sup_spawn.
  - pose proof (frames_after_ensure pid token dl ce t) as Hfr.
    destruct (ensure_others pid ce token t) as (Ech & Ek & Em & _).
    destruct Hfr as [Hal Hpar Hch Hk Hm _ Hwt]. rewrite Ech in Hch. rewrite Ek in Hk. rewrite Em in Hm.
    eapply sup_keep; [exact Hinv|by apply take_reply_or_park_step|exact Hal|exact Hpar|exact Hch|..|exact Hsup].
    + by rewrite Hk.
    + rewrite Hm. by left.
    + intros w Hin. apply Hwt, ensure_waiters in Hin as [?|(-> & ? & ?)]; [by left|right].
      simpl. destruct Hty. done.
  - unfold kill. rewrite death_like by done. by apply sup_death.
  - unfold mark_dead_if_alive. rewrite death_like by done. by apply sup_death.
  - destruct (monitor_effect watcher target t) as (Ha & Hal & Hch & Hk & Hwt & token & reason & ci & Hm & _).
    eapply sup_keep; [exact Hinv|by apply quiet_step, quiet_monitor|exact Hal| |exact Hch|..|exact Hsup].
    + intros i. by rewrite Ha.
    + by rewrite Hk.
    + intros e. rewrite Hm, elem_of_app. intros [?|He]; [by left|right].
      destruct (is_alive target t) eqn:Ea; [|by apply not_elem_of_nil in He].
      apply list_elem_of_singleton in He. subst e. by destruct Hty.
    + rewrite Hwt. by left.
  - eapply sup_keep; [exact Hinv|by apply quiet_step, quiet_demonitor|try done..|exact Hsup]; [|by left].
    intros e [He _]%filterb_elem. by left.
  - eapply sup_keep; [exact Hinv|by apply quiet_step, quiet_take_exit_notices|try done..|exact Hsup]; by left.
  - eapply sup_keep; [exact Hinv|by apply quiet_step, quiet_take_pending_kills|try done..|exact Hsup];
      [|by left|by left].
    intros p Hp. exact Hp.
  - apply sup_kill_each; [by apply live_pids_typed|done|done].
Qed.

Fixpoint run_kills (ops : list (TableOp X M)) t : list Pid :=
  match ops with
  | [] => []
  | op :: rest => run_kills rest (apply_op op t) ++ op_kills op t
  end.

Lemma run_sup issued (ops : list (TableOp X M)) t :
  table_inv t -> Z.of_nat (length (arena t)) + Z.of_nat (length ops) <= 2 ^ 32 ->
  Forall op_typed ops -> sup_inv issued t ->
  sup_inv (run_kills ops t ++ issued) (run_table ops t).
Proof.
  intros Hinv Hl Hty. revert issued t Hinv Hl.
  induction Hty as [|op ops Hop _ IH]; intros issued t Hinv Hl Hsup; simpl; [done|]. simpl in Hl.
  destruct (op_inv op t Hinv ltac:(lia)) as [Hinv' Hlen].
  change (run_table (op :: ops) t) with (run_table ops (apply_op op t)). rewrite <- app_assoc.
  apply IH; [done|lia|]. apply op_sup; [done|lia|done|done].
Qed.

Lemma table_new_sup : sup_inv [] (table_new : Table X M).
Proof.
  constructor; simpl; [done| | |].
  - intros p c. by rewrite lookup_empty.
  - intros e He. by apply not_elem_of_nil in He.
  - intros w He. by apply not_elem_of_nil in He.
Qed.

(** C22: no orphan outlives its parent unnoticed. In every reachable table, a live
    process whose parent is not alive has been staged for killing: it is in the
    pending kills, or in a batch the scheduler already took. *)
Theorem orphans_are_staged (ops : list (TableOp X M)) (pid p : Pid)
    (Hlen : Z.of_nat (length ops) < 2 ^ 32) (Htyped : Forall op_typed ops) (Hpid : is_pid pid)
    (Halive : is_alive pid (run_table ops table_new) = true)
    (Hparent : parent pid (run_table ops table_new) = Some p)
    (Hdead : is_alive p (run_table ops table_new) = false) :
  pid ∈ pending_kills (registry (run_table ops table_new)) ++ run_kills ops table_new.
Proof.
  pose proof (run_sup [] ops table_new table_new_inv ltac:(simpl; lia) Htyped table_new_sup) as Hs.
  rewrite app_nil_right in Hs. set (t := run_table ops table_new) in *.
  unfold parent, live_slot in Hparent. destruct (slot_of pid t) as [[[i s] gen]|] eqn:E; [|done].
  apply slot_of_Some in E as (Hi & -> & ->). destruct (_ =? _); [|done].
  destruct (Z.eqb_spec (slot_parent s) 0) as [|Hne]; [done|]. injection Hparent as <-.
  rewrite (is_alive_at pid t s Hi) in Halive.
  destruct (sup_kids _ _ Hs pid s Hpid Hi Halive Hne) as [(c & Hc & _)|?]; [|done].
  destruct (sup_keys _ _ Hs _ _ Hc). congruence.
Qed.

(** ** Accounting for monitors *)

Definition mon_pair (e : MonitorEntry) : Pid * Pid := (monitor_watcher e, monitor_target e).
Definition notice_pair (n : ExitNotice) : Pid * Pid := (notice_watcher n, notice_target n).

(** Monitors armed in [t], and notices it has staged. *)
Definition armed t : list (Pid * Pid) := map mon_pair (monitors (registry t)).
Definition reported t : list (Pid * Pid) := map notice_pair (pending_exit_notices (registry t)).

(** The monitors a death of [pid] cancels: those [pid] itself held on others. *)
Definition death_cancels (pid : Pid) t : list (Pid * Pid) :=
  if is_alive pid t
  then map mon_pair (List.filter (fun e => negb (monitor_target e =? pid) && (monitor_watcher e =? pid))
                       (monitors (registry t)))
  else [].

Fixpoint kills_cancel (pids : list Pid) t : list (Pid * Pid) :=
  match pids with
  | [] => []
  | pid :: rest => death_cancels pid t ++ kills_cancel rest (snd (kill pid t))
  end.

Definition op_made (op : TableOp X M) : list (Pid * Pid) :=
  match op with OMonitor w tg => [(w, tg)] | _ => [] end.

Definition op_noticed (op : TableOp X M) t : list (Pid * Pid) :=
  match op with OTakeExitNotices => map notice_pair (fst (take_exit_notices t)) | _ => [] end.

Definition op_cancelled (op : TableOp X M) t : list (Pid * Pid) :=
  match op with
  | ODemonitor token =>
      map mon_pair (List.filter (fun e => monitor_token e =? token) (monitors (registry t)))
  | OKill pid | OMarkDead pid => death_cancels pid t
  | OKillAll => kills_cancel (live_pids t) t
  | _ => []
  end.

Definition accounted t t' (made noticed cancelled : list (Pid * Pid)) : Prop :=
  Permutation (armed t' ++ reported t' ++ noticed ++ cancelled) (armed t ++ reported t ++ made).

Lemma accounted_same t t' :
  monitors (registry t') = monitors (registry t) ->
  pending_exit_notices (registry t') = pending_exit_notices (registry t) -> accounted t t' [] [] [].
Proof. intros Hm Hn. unfold accounted, armed, reported. by rewrite Hm, Hn. Qed.

(** The three fates of a monitor when [pid] dies. *)
Lemma monitors_split (pid : Pid) (l : list MonitorEntry) :
  Permutation l
    (List.filter (fun e => negb (monitor_target e =? pid) && negb (monitor_watcher e =? pid)) l ++
     List.filter (fun e => monitor_target e =? pid) l ++
     List.filter (fun e => negb (monitor_target e =? pid) && (monitor_watcher e =? pid)) l).
Proof.
  induction l as [|e l IH]; [done|]. simpl.
  destruct (monitor_target e =? pid), (monitor_watcher e =? pid); simpl;
    rewrite <- ?Permutation_middle; rewrite ?app_assoc; rewrite <- ?Permutation_middle;
    rewrite <- ?app_assoc; by f_equiv.
Qed.

Lemma death_accounted pid forced t :
  table_inv t -> is_pid pid ->
  accounted t (snd (death_edge pid forced t)) [] [] (death_cancels pid t).
Proof.
  intros Hinv Hp. unfold death_cancels. destruct (is_alive pid t) eqn:Ea;
    [|rewrite (death_edge_none pid forced t (inv_slots _ Hinv) Ea); by apply accounted_same].
  apply is_alive_true in Ea as (i & s & Hi & -> & Ha).
  destruct (death_effect pid forced t s Hinv Hp Hi Ha) as (_ & _ & _ & _ & _ & Hm & Hn & _).
  unfold accounted, armed, reported. rewrite Hm, Hn. cbn [notify_exit monitors pending_exit_notices].
  rewrite !map_app, !map_map, app_nil_right. cbn [notice_pair notice_watcher notice_target].
  rewrite (Permutation_map mon_pair (monitors_split pid (monitors (registry t)))). rewrite !map_app.
  rewrite (map_ext_in (fun e => (monitor_watcher e, pid)) mon_pair); [solve_Permutation|].
  intros e [_ He]%filter_In. apply Z.eqb_eq in He. unfold mon_pair. by rewrite He.
Qed.

Lemma kills_accounted pids t :
  Forall is_pid pids -> table_inv t ->
  accounted t (snd (kill_each pids t)) [] [] (kills_cancel pids t).
Proof.
  intros Hp. revert t. induction Hp as [|pid pids Hpid _ IH]; intros t Hinv; [by apply accounted_same|].
  cbn [kill_each kills_cancel].
  pose proof (local_step_inv _ _ (kill_step pid t (inv_slots _ Hinv)) Hinv) as Hinv'.
  assert (accounted t (snd (kill pid t)) [] [] (death_cancels pid t)) as Hd
    by (unfold kill; rewrite death_like by done; by apply death_accounted).
  unfold st_bind. destruct (kill pid t) as [r t1]. cbn [snd] in *.
  specialize (IH t1 Hinv'). destruct (kill_each pids t1) as [rs t2]. cbn [snd st_ret] in *.
  unfold accounted in *. simpl in *. rewrite app_nil_right in *.
  rewrite <- Hd, (Permutation_app_comm (death_cancels pid t)), !app_assoc.
  apply Permutation_app_tail. rewrite <- !app_assoc. exact IH.
Qed.

Lemma op_accounted (op : TableOp X M) t :
  table_inv t -> Z.of_nat (length (arena t)) < 2 ^ 32 -> op_typed op ->
  accounted t (apply_op op t) (op_made op) (op_noticed op t) (op_cancelled op t).
Proof.
  intros Hinv Hl Hty. destruct (framed_op op) eqn:Hf.
  { destruct (op_frame op t Hf) as [_ _ _ _ Hm Hn _].
    replace (op_made op) with ([] : list (Pid * Pid)) by (by destruct op).
    replace (op_noticed op t) with ([] : list (Pid * Pid)) by (by destruct op).
    replace (op_cancelled op t) with ([] : list (Pid * Pid)) by (by destruct op).
    by apply accounted_same. }
  destruct op as [x par| | | | | | | | | | | | | | | | | | | | | | | | | | | | | | | | | |]; try done;
    cbn [apply_op op_made op_noticed op_cancelled op_typed] in *.
  - destruct (spawn x par t) as [[pid|y] t'] eqn:E.
    + destruct (spawn_registry x par t pid t' Hinv Hl E) as (_ & _ & _ & _ & Hm & Hn & _).
      by apply accounted_same.
    + destruct (spawn_inr x par t y t' Hinv Hl E) as (_ & -> & _). by apply accounted_same.
  - destruct (frames_after_ensure pid token dl ce t) as [_ _ _ _ Hm Hn _].
    destruct (ensure_others pid ce token t) as (_ & _ & Em & En). apply accounted_same; congruence.
  - unfold kill. rewrite death_like by done. by apply death_accounted.
  - unfold mark_dead_if_alive. rewrite death_like by done. by apply death_accounted.
  - destruct (monitor_effect watcher target t) as (_ & _ & _ & _ & _ & token & reason & ci & Hm & Hn).
    unfold accounted, armed, reported. rewrite Hm, Hn, !map_app.
    destruct (is_alive target t); simpl; solve_Permutation.
  - unfold accounted, armed, reported. cbn [demonitor with_registry snd registry monitors pending_exit_notices].
    simpl. rewrite app_nil_right.
    rewrite (Permutation_map mon_pair (filter_partition (fun e => monitor_token e =? token) (monitors (registry t)))).
    rewrite map_app. solve_Permutation.
  - unfold accounted, armed, reported. simpl. by rewrite !app_nil_right.
  - by apply accounted_same.
  - apply kills_accounted; [by apply live_pids_typed|done].
Qed.

Definition run_made (ops : list (TableOp X M)) : list (Pid * Pid) := concat (map op_made ops).

Fixpoint run_log {A} (f : TableOp X M -> Table X M -> list A) (ops : list (TableOp X M)) t : list A :=
  match ops with
  | [] => []
  | op :: rest => f op t ++ run_log f rest (apply_op op t)
  end.

Lemma run_accounted (ops : list (TableOp X M)) t :
  table_inv t -> Z.of_nat (length (arena t)) + Z.of_nat (length ops) <= 2 ^ 32 -> Forall op_typed ops ->
  accounted t (run_table ops t) (run_made ops) (run_log op_noticed ops t) (run_log op_cancelled ops t).
Proof.
  intros Hinv Hl Hty. revert t Hinv Hl. induction Hty as [|op ops Hop _ IH]; intros t Hinv Hl.
  { by apply accounted_same. }
  simpl in Hl. destruct (op_inv op t Hinv ltac:(lia)) as [Hinv' Hlen].
  specialize (IH _ Hinv' ltac:(lia)). pose proof (op_accounted op t Hinv ltac:(lia) Hop) as Ho.
  unfold accounted, run_made in *. cbn [run_log map concat].
  change (run_table (op :: ops) t) with (run_table ops (apply_op op t)).
  set (t1 := apply_op op t) in *. set (t2 := run_table ops t1) in *.
  assert (Permutation ((armed t2 ++ reported t2 ++ run_log op_noticed ops t1 ++ run_log op_cancelled ops t1) ++
    (op_noticed op t ++ op_cancelled op t)) ((armed t1 ++ reported t1 ++ op_noticed op t ++ op_cancelled op t) ++
    concat (map op_made ops))) as E.
  { rewrite IH. solve_Permutation. }
  rewrite Ho in E. etransitivity; [|etransitivity; [exact E|]]; solve_Permutation.
Qed.

(** C21: every monitor is accounted for exactly once. Over any run of operations,
    the monitors set up are, as (watcher, target) pairs, exactly those still armed,
    those whose exit notice is staged or was taken, and those cancelled by
    [demonitor] or by the watcher's own death; and every armed monitor, like every
    registered call waiter, names a live process, so its death will be noticed. *)
Theorem monitors_notify_once (ops : list (TableOp X M))
    (Hlen : Z.of_nat (length ops) < 2 ^ 32) (Htyped : Forall op_typed ops) :
  let t := run_table ops table_new in
  Permutation
    (armed t ++ reported t ++ run_log op_noticed ops table_new ++ run_log op_cancelled ops table_new)
    (run_made ops) /\
  (forall e, e ∈ monitors (registry t) -> is_alive (monitor_target e) t = true) /\
  (forall w, w ∈ call_waiters (registry t) ->
     is_alive (callee w) t = true /\ is_alive (caller w) t = true).
Proof.
  cbv zeta. split; [|split].
  - apply (run_accounted ops table_new table_new_inv); [simpl; lia|done].
  - intros e He. eapply sup_monitors; [|exact He].
    by apply (run_sup [] ops table_new table_new_inv ltac:(simpl; lia) Htyped table_new_sup).
  - intros w Hw. destruct (sup_waiters (run_kills ops table_new ++ []) (run_table ops table_new)) with w
      as [[_ ?] [_ ?]]; [|done|done].
    by apply (run_sup [] ops table_new table_new_inv ltac:(simpl; lia) Htyped table_new_sup).
Qed.
End Supervision.

(** ** Witnesses: the parent of two processes dies

    [a] monitors its parent, which then dies on its cpu. *)
Definition sample_family : list (TableOp Z Envelope) :=
  [OSpawn 10 None; OClaim pid_root; OSpawn 11 (Some pid_root); OSpawn 12 (Some pid_root);
   OMonitor pid_a pid_root; OMonitor pid_b pid_a; OMarkDead pid_root; OAfterSwitch pid_root].

Lemma sample_family_typed : Forall op_typed sample_family.
Proof. repeat constructor; try (vm_compute; congruence); vm_compute; reflexivity. Qed.

Lemma orphans_are_staged_witness :
  pid_a ∈ pending_kills (registry (run_table sample_family table_new)) ++ run_kills sample_family table_new.
Proof.
  apply (orphans_are_staged sample_family pid_a pid_root).
  - vm_compute. reflexivity.
  - exact sample_family_typed.
  - vm_compute. split; [congruence|reflexivity].
  - vm_compute. reflexivity.
  - vm_compute. reflexivity.
  - vm_compute. reflexivity.
Defined.

Lemma monitors_notify_once_witness :
  reported (run_table sample_family table_new) = [(pid_a, pid_root)] /\
  Permutation
    (armed (run_table sample_family table_new) ++ reported (run_table sample_family table_new) ++
     run_log op_noticed sample_family table_new ++ run_log op_cancelled sample_family table_new)
    [(pid_a, pid_root); (pid_b, pid_a)].
Proof.
  split; [vm_compute; reflexivity|].
  exact (proj1 (monitors_notify_once sample_family ltac:(vm_compute; reflexivity) sample_family_typed)).
Defined.
