(* ===== verification/Driver.v ===== *)
(** * The cooperative driver

    Models [koja-runtime-core/src/driver.rs]: the single-threaded run loop over
    the process table, the ready queue and the timer service. The capabilities
    the loop is generic over (clock, signal source, reactor, executor) are the
    fields of [Host], on an abstract world [W]; the executor's [resume] runs
    process code, which reaches the same runtime state.

    Theorems: no runnable process is ever missing from the ready queue, the
    driver idles only when nothing can run, it never oversleeps a timer, and the
    grace deadline ends the loop whatever the processes do. *)

From S2P Require Import Prelude Protocol Wire Mailbox Lifecycle ReadyQueue TimerWheel TimerService.
From S2P Require Import ProcessTable Arena TableSteps TableInv TableMail.
Local Open Scope Z_scope.

Definition IDLE_CAP_ACTIVE : Z := 10 * NANOS_PER_MILLI.
Definition IDLE_CAP_IDLE : Z := 100 * NANOS_PER_MILLI.

Record CooperativeRuntime (X M : Type) := mkRuntime {
  core : Table X M;
  ready : ReadyQueue;
  timers : TimerService (TimerWheel M);
}.
Arguments mkRuntime {X M}.
Arguments core {X M}.
Arguments ready {X M}.
Arguments timers {X M}.

(** The traits [Clock], [SignalSource], [Reactor] and [Executor], on a world. *)
Class Host (X M W : Type) := {
  clock_now : W -> Instant * W;
  signals_install : W -> W;
  signals_drain : W -> list Lifecycle * W;
  reactor_poll : option Z -> W -> list Waker * W;
  executor_resume : Pid -> CooperativeRuntime X M -> W -> CooperativeRuntime X M * W;
}.

Section Driver.
Context {X M W : Type} `{Message M} `{MessageSource M} `{Host X M W}.
(** The drain grace window the adapter supplies. *)
Context (grace : Z).
Implicit Types (rt : CooperativeRuntime X M) (w : W).

Definition runtime_new : CooperativeRuntime X M := mkRuntime table_new queue_new service_new.

Definition set_core rt (t : Table X M) : CooperativeRuntime X M := mkRuntime t (ready rt) (timers rt).
Definition set_timers rt (s : TimerService (TimerWheel M)) : CooperativeRuntime X M :=
  mkRuntime (core rt) (ready rt) s.

(** Enqueue the wake a table method may return. *)
Definition enqueue (o : option Wake) rt : CooperativeRuntime X M :=
  match o with Some wk => mkRuntime (core rt) (push (ready rt) wk) (timers rt) | None => rt end.

Definition route_delivery (pid : Pid) (message : M) rt : CooperativeRuntime X M :=
  let (delivery, t) := deliver pid message (core rt) in
  enqueue (wake delivery) (set_core rt t).

Definition deliver_signals rt w : CooperativeRuntime X M * W :=
  let (fired, w) := signals_drain w in
  match fired with
  | [] => (rt, w)
  | _ =>
      let '(rt, w) :=
        if existsb (fun e => bool_decide (e = Shutdown)) fired
        then
          let (entered, t) := enter_draining (core rt) in
          let rt := set_core rt t in
          if entered : bool
          then let (now, w) := clock_now w in (set_timers rt (arm_grace (now + grace) (timers rt)), w)
          else (rt, w)
        else (rt, w) in
      let main := main_pid (core rt) in
      (fold_left (fun rt event => route_delivery main (lifecycle_message event) rt) fired rt, w)
  end.

Definition enforce_grace (now : Instant) rt : CooperativeRuntime X M :=
  if negb (grace_expired now (timers rt)) then rt
  else if is_draining (core rt) then set_core rt (snd (kill_all (core rt))) else rt.

Definition fire_entry rt (entry : Due M) : CooperativeRuntime X M :=
  match entry with
  | DueDeliver envelope target_pid => route_delivery target_pid envelope rt
  | DuePromote pid fire_at =>
      let (wk, t) := promote_expired pid fire_at (core rt) in enqueue wk (set_core rt t)
  end.

Definition fire_due_timers (now : Instant) rt : CooperativeRuntime X M :=
  let (due, s) := advance now (timers rt) in
  fold_left fire_entry due (set_timers rt s).

(** [nearest.map(..).unwrap_or(cap).min(cap)]. *)
Definition idle_timeout (now : Instant) rt : Z :=
  let cap := if any_active (core rt) then IDLE_CAP_ACTIVE else IDLE_CAP_IDLE in
  Z.min (match next_fire (timers rt) with
         | Some wakeup => Z.max 0 (wakeup - now)
         | None => cap
         end) cap.

Definition wake_one rt (waker : Waker) : CooperativeRuntime X M :=
  match waker with
  | WakerResume pid =>
      let (wk, t) := promote_io_waiter pid (core rt) in enqueue wk (set_core rt t)
  | WakerDeliver fd pid readiness => route_delivery pid (io_ready_message readiness fd) rt
  end.

Definition idle (now : Instant) rt w : CooperativeRuntime X M * W :=
  let (wakers, w) := reactor_poll (Some (idle_timeout now rt)) w in
  (fold_left wake_one wakers rt, w).

(** [claim_next], the loop with fuel: [None] is out of fuel. *)
Fixpoint claim_loop (fuel : nat) rt : option (option Pid * CooperativeRuntime X M) :=
  match fuel with
  | O => None
  | S fuel =>
      match pop (ready rt) with
      | (None, q) => Some (None, mkRuntime (core rt) q (timers rt))
      | (Some pid, q) =>
          let (claimed, t) := try_claim pid (core rt) in
          let rt := mkRuntime t q (timers rt) in
          if claimed then Some (Some pid, rt) else claim_loop fuel rt
      end
  end.

(** Every iteration pops an entry, so the queue's size is enough fuel. *)
Definition queue_size (q : ReadyQueue) : nat := length (concat (levels q)).

Definition claim_next rt : option Pid * CooperativeRuntime X M :=
  default (None, rt) (claim_loop (S (queue_size (ready rt))) rt).

(** The switch out of a resumed process. *)
Definition switch_out (pid : Pid) rt : CooperativeRuntime X M :=
  let (outcome, t) := after_switch pid (core rt) in
  enqueue (match outcome with SwitchRequeue wk => Some wk | _ => None end) (set_core rt t).

(** One iteration of [run]'s loop: whether it breaks, and the state after. *)
Definition tick rt w : bool * CooperativeRuntime X M * W :=
  let (rt, w) := deliver_signals rt w in
  let (now, w) := clock_now w in
  let rt := fire_due_timers now rt in
  let rt := enforce_grace now rt in
  let (claimed, rt) := claim_next rt in
  match claimed with
  | Some pid =>
      let (rt, w) := executor_resume pid rt w in
      let rt := switch_out pid rt in
      (should_shutdown (core rt), rt, w)
  | None =>
      if should_shutdown (core rt) then (true, rt, w)
      else
        let (rt, w) := idle now rt w in
        (should_shutdown (core rt), rt, w)
  end.

(** [run], for at most [fuel] iterations: whether it ended, and the state. *)
Fixpoint drive (fuel : nat) rt w : bool * CooperativeRuntime X M * W :=
  match fuel with
  | O => (false, rt, w)
  | S fuel =>
      let '(stop, rt, w) := tick rt w in
      if stop then (true, rt, w) else drive fuel rt w
  end.

Definition run_driver (fuel : nat) rt w : bool * CooperativeRuntime X M * W :=
  drive fuel rt (signals_install w).
End Driver.

(** The host with another reactor. *)
Definition with_reactor {X M W} (host : Host X M W) (poll : option Z -> W -> list Waker * W) : Host X M W := {|
  clock_now := @clock_now _ _ _ host;
  signals_install := @signals_install _ _ _ host;
  signals_drain := @signals_drain _ _ _ host;
  reactor_poll := poll;
  executor_resume := @executor_resume _ _ _ host;
|}.

(** ** The wake contract of the table's methods *)

Section Wakes.
Context {X M : Type} `{Message M}.
Implicit Types (t : Table X M) (s : Slot X M).

(** A slot a claim would succeed on. *)
Definition claimable s : bool :=
  negb (on_cpu (view s)) && match state (view s) with Some (Created | Runnable) => true | _ => false end.

(** [p] names slot [i] at the generation of [s]. *)
Definition names (p : Pid) (i : nat) s : Prop := pid_slot p = i /\ pid_gen p = generation (view s).

(** Every slot claimable in [t'] was so in [t], or is named by the wake [o]. *)
Definition wakes t t' (o : option Wake) : Prop :=
  forall i s', arena t' !! i = Some s' -> claimable s' = true ->
    (exists s, arena t !! i = Some s /\ claimable s = true /\ generation (view s) = generation (view s')) \/
    (exists wk, o = Some wk /\ names (wake_pid wk) i s').

Lemma claimable_view s s' : view s' = view s -> claimable s' = claimable s.
Proof. unfold claimable. by intros ->. Qed.

Lemma wakes_same t t' o : arena t' = arena t -> wakes t t' o.
Proof. intros Ha i s'. rewrite Ha. eauto 10. Qed.

Lemma wakes_insert t t' i s s' o :
  arena t !! i = Some s -> arena t' = <[i := s']> (arena t) ->
  (claimable s' = true ->
    (claimable s = true /\ generation (view s) = generation (view s')) \/
    (exists wk, o = Some wk /\ names (wake_pid wk) i s')) ->
  wakes t t' o.
Proof.
  intros Hi Ha Hc j sj. rewrite Ha. intros Hj Hcj. destruct (decide (i = j)) as [<-|Hne].
  - rewrite list_lookup_insert_eq in Hj by (by eapply lookup_lt_Some). injection Hj as <-.
    destruct (Hc Hcj) as [[? ?]|?]; eauto 10.
  - rewrite list_lookup_insert_ne in Hj by done. eauto 10.
Qed.

(** Edits that keep the word. *)
Lemma wakes_edit t t' i s s' o :
  arena t !! i = Some s -> arena t' = <[i := s']> (arena t) -> view s' = view s -> wakes t t' o.
Proof.
  intros Hi Ha Hv. eapply wakes_insert; [exact Hi|exact Ha|]. left.
  by rewrite <- (claimable_view s s' Hv), Hv.
Qed.

Lemma wakes_frame t t' t'' o : wakes t t' o -> arena t'' = arena t' -> wakes t t'' o.
Proof. intros Hw Ha i s'. rewrite Ha. apply Hw. Qed.

(** A tail that only reads or counts. *)
Lemma wakes_bind {A} (m : ST X M A) (k : A -> ST X M (option Wake)) (g : A -> option Wake) t :
  wakes t (snd (m t)) (g (fst (m t))) ->
  (forall a t', arena (snd (k a t')) = arena t' /\ fst (k a t') = g a) ->
  wakes t (snd (st_bind m k t)) (fst (st_bind m k t)).
Proof.
  intros Hm Hk. unfold st_bind. destruct (m t) as [a t']. destruct (Hk a t') as [Ha ->].
  by apply (wakes_frame t t').
Qed.

(** A wake edge after an edit of the hot state of [pid]'s slot. *)
Lemma wake_edge_wakes pid s from f t t1 :
  arena t !! pid_slot pid = Some s -> word_wf (lifecycle s) -> generation (view s) = pid_gen pid ->
  state (view s) = Some from -> arena t1 = <[pid_slot pid := with_hot_of f s]> (arena t) ->
  wakes t (snd (wake_edge pid (pid_slot pid) from t1)) (fst (wake_edge pid (pid_slot pid) from t1)).
Proof.
  intros Hi Hwf Hg Hst Ha.
  assert (arena t1 !! pid_slot pid = Some (with_hot_of f s)) as Hi1
    by (rewrite Ha; apply list_lookup_insert_eq; by eapply lookup_lt_Some).
  destruct (wake_edge_spec pid _ _ from t1 Hi1 Hwf Hg Hst) as (t' & -> & Ha' & _). cbn [fst snd].
  unfold put in Ha'. cbn [arena] in Ha'. rewrite Ha, list_insert_insert_eq in Ha'.
  pose proof (edge_view _ (with_hot_of f s) from Runnable (fun h => h) t1 Hwf Hst Hi1) as Hv.
  eapply wakes_insert; [exact Hi|exact Ha'|]. intros _. right. eexists. split; [done|]. split; [done|].
  cbn [wake_pid]. apply (f_equal generation) in Hv. etransitivity; [symmetry; exact Hg|symmetry; exact Hv].
Qed.

Lemma deliver_locked_wakes pid s m t :
  arena t !! pid_slot pid = Some s -> slot_ok s -> generation (view s) = pid_gen pid ->
  wakes t (snd (deliver_locked pid (pid_slot pid) s m t)) (wake (fst (deliver_locked pid (pid_slot pid) s m t))).
Proof.
  intros Hi Hok Hg. unfold deliver_locked.
  destruct (Mailbox.push (mailbox (hot s)) m) as [displaced mb].
  unfold upd_hot. rewrite !(st_bind_eval _ _ _ _ _ (upd_slot_put _ _ _ _ Hi)).
  set (t1 := snd (record pid Delivered (put (pid_slot pid) (with_hot_of (set_mailbox mb) s) t))).
  rewrite !(st_bind_eval (record pid Delivered) _ _ tt t1 eq_refl). unfold slot_state. fold (view s).
  set (wf := match state (view s) with Some Blocked => _ | Some WaitingIO => _ | _ => _ end).
  assert (forall from, wf = Some from -> state (view s) = Some from) as Hfrom.
  { unfold wf. intros from. destruct (state (view s)) as [[]|]; try done; case_bool_decide; naive_solver. }
  clearbody wf. destruct wf as [from|].
  - pose proof (wake_edge_wakes pid s from (set_mailbox mb) t t1 Hi (slot_word _ Hok) Hg (Hfrom _ eq_refl)
      eq_refl) as Hw.
    unfold st_bind. by destruct (wake_edge pid _ from t1).
  - by apply (wakes_edit t _ (pid_slot pid) s (with_hot_of (set_mailbox mb) s) _ Hi).
Qed.

Lemma deliver_wakes pid m t : slots_ok t -> wakes t (snd (deliver pid m t)) (wake (fst (deliver pid m t))).
Proof.
  intros Hw. unfold deliver. destruct (slot_of pid t) as [[[i s] gen]|] eqn:E; [|by apply wakes_same].
  apply slot_of_Some in E as (Hi & -> & ->). fold (view s).
  destruct (word_alive (view s) _) eqn:Ea; [|by apply wakes_same].
  apply word_alive_true in Ea as [Hg _]. apply deliver_locked_wakes; eauto.
Qed.

Lemma with_hot_wakes pid (f : nat -> Slot X M -> ST X M (option Wake)) t :
  (forall s, arena t !! pid_slot pid = Some s -> generation (view s) = pid_gen pid ->
     wakes t (snd (f (pid_slot pid) s t)) (fst (f (pid_slot pid) s t))) ->
  wakes t (snd (with_hot pid f t)) (default None (fst (with_hot pid f t))).
Proof.
  intros Hf. unfold with_hot. destruct (slot_of pid t) as [[[i s] gen]|] eqn:E; [|by apply wakes_same].
  apply slot_of_Some in E as (Hi & -> & ->). fold (view s).
  destruct (Z.eqb_spec (generation (view s)) (snd (decode pid))) as [Hg|Hg]; [|by apply wakes_same].
  cbn [negb]. specialize (Hf s Hi Hg). unfold pid_slot in Hf. by destruct (f _ s t).
Qed.

Lemma promote_wakes pid s from t :
  arena t !! pid_slot pid = Some s -> word_wf (lifecycle s) -> generation (view s) = pid_gen pid ->
  state (view s) = Some from ->
  let m := upd_hot (pid_slot pid) (set_deadline None) ;;* wake_edge pid (pid_slot pid) from in
  wakes t (snd (m t)) (fst (m t)).
Proof.
  intros Hi Hwf Hg Hst. cbv zeta. unfold upd_hot.
  rewrite !(st_bind_eval _ _ _ _ _ (upd_slot_put _ _ _ _ Hi)).
  by apply (wake_edge_wakes pid s from (set_deadline None) t).
Qed.

Lemma promote_expired_wakes pid fire t :
  slots_ok t -> wakes t (snd (promote_expired pid fire t)) (fst (promote_expired pid fire t)).
Proof.
  intros Hw. apply (wakes_bind _ _ (default None)).
  - apply with_hot_wakes. intros s Hi Hg. cbv zeta. fold (view s). destruct (state (view s)) as [[]|] eqn:Est;
      try by apply wakes_same.
    all: destruct (negb _); [by apply wakes_same|]; eapply promote_wakes; eauto using slot_word.
  - intros r t'. destruct (default None r); done.
Qed.

Lemma promote_io_wakes pid t :
  slots_ok t -> wakes t (snd (promote_io_waiter pid t)) (fst (promote_io_waiter pid t)).
Proof.
  intros Hw. apply (wakes_bind _ _ (default None)); [|done].
  apply with_hot_wakes. intros s Hi Hg. cbv zeta. fold (view s).
  destruct (_ || _) eqn:E; [by apply wakes_same|]. clean. eapply promote_wakes; eauto using slot_word.
Qed.

Definition switch_wake (o : SwitchOutcome X M) : option Wake :=
  match o with SwitchRequeue wk => Some wk | _ => None end.

Lemma after_switch_wakes pid t :
  slots_ok t -> wakes t (snd (after_switch pid t)) (switch_wake (fst (after_switch pid t))).
Proof.
  intros Hw. unfold after_switch. destruct (slot_of pid t) as [[[i s] gen]|] eqn:E; [|by apply wakes_same].
  apply slot_of_Some in E as (Hi & -> & ->). pose proof (Hw _ _ Hi) as Hok.
  rewrite !(st_bind_eval _ _ _ _ _ (word_op_put None _ _ s t Hi)).
  pose proof (Lifecycle.release_spec (snd (decode pid)) (lifecycle s) (slot_word _ Hok)) as Hs.
  destruct (release_next _ _) as [n|] eqn:En.
  - destruct Hs as (Hst & _ & Hl). apply release_next_Some in En as (Hg & _ & ->).
    rewrite Hst. fold (view s) in *. set (s1 := with_word _ s) in *.
    assert (view s1 = mkWordState (pid_gen pid) false (state (view s))) as Hv by exact Hl.
    assert (wakes t (put (pid_slot pid) s1 t)
      (match state (view s) with Some (Created | Runnable) => Some (mkWake pid (get_priority s)) | _ => None end))
      as Hrel.
    { eapply (wakes_insert t _ (pid_slot pid) s s1 _ Hi); [reflexivity|]. unfold claimable, names. rewrite Hv.
      cbn [on_cpu state generation negb andb]. destruct (state (view s)) as [[]|]; try done; eauto. }
    destruct (state (view s)) as [[]|] eqn:Est; try exact Hrel.
    unfold reclaim. rewrite !st_bind_assoc.
    rewrite !(st_bind_eval _ _ _ _ _ (reclaim_locked_eval pid _ s1 _ (lookup_put _ _ _ _ Hi))), put_put.
    destruct (freed_slot_view s1) as (_ & Hfv & _).
    eapply (wakes_insert t _ (pid_slot pid) s (freed_slot s1) _ Hi); [reflexivity|].
    unfold claimable. by rewrite Hfv.
  - rewrite Hs. cbn [fst snd]. rewrite with_word_same, put_same by done. by apply wakes_same.
Qed.

(** [pid] is running on a cpu. *)
Definition on_cpu_for (pid : Pid) t : Prop :=
  exists s, arena t !! pid_slot pid = Some s /\ view s = mkWordState (pid_gen pid) true (Some Running).

(** A claim: success puts the process on a cpu, failure means there was none. *)
Lemma try_claim_wakes pid t :
  slots_ok t ->
  if fst (try_claim pid t)
  then wakes t (snd (try_claim pid t)) None /\
       on_cpu_for pid (snd (try_claim pid t))
  else arena (snd (try_claim pid t)) = arena t /\
       (forall s, arena t !! pid_slot pid = Some s -> generation (view s) = pid_gen pid -> claimable s = false).
Proof.
  intros Hw. unfold try_claim. destruct (slot_of pid t) as [[[i s] gen]|] eqn:E; cycle 1.
  { split; [done|]. intros s Hs. unfold slot_of, arena_get, pid_slot in *. destruct (decode pid). simpl in *.
    by rewrite Hs in E. }
  apply slot_of_Some in E as (Hi & -> & ->). pose proof (slot_word _ (Hw _ _ Hi)) as Hwf.
  rewrite !(st_bind_eval _ _ _ _ _ (word_op_put false _ _ s t Hi)).
  pose proof (try_claim_spec (snd (decode pid)) (lifecycle s) Hwf) as Hs.
  destruct (Lifecycle.claim_next _ _) as [n|] eqn:En.
  - destruct Hs as (-> & _ & Hl). apply claim_next_Some in En as (_ & _ & _ & ->). cbn [negb].
    rewrite !(st_bind_eval _ _ _ _ _ (upd_slot_put _ _ _ _ (lookup_put _ _ _ _ Hi))), put_put.
    set (s1 := with_reductions _ _).
    assert (view s1 = mkWordState (pid_gen pid) true (Some Running)) as Hv by exact Hl.
    split.
    + eapply (wakes_insert t _ _ s s1 _ Hi); [reflexivity|]. unfold claimable. by rewrite Hv.
    + exists s1. split; [|done]. change (arena (snd _)) with (<[pid_slot pid := s1]> (arena t)).
      apply list_lookup_insert_eq. by eapply lookup_lt_Some.
  - rewrite Hs. cbn [fst snd negb]. rewrite with_word_same, put_same by done.
    split; [done|]. intros s0 Hs0 Hg. unfold pid_slot in Hs0. rewrite Hi in Hs0. injection Hs0 as <-.
    apply not_true_iff_false. unfold claimable. intros Hc. clean.
    unfold Lifecycle.claim_next in En. fold (view s) in En. unfold pid_gen in Hg.
    rewrite Hg, Z.eqb_refl in En. by destruct (on_cpu (view s)), (state (view s)) as [[]|].
Qed.

Lemma wakes_trans t1 t2 t3 : wakes t1 t2 None -> wakes t2 t3 None -> wakes t1 t3 None.
Proof.
  intros H1 H2 i s3 Hs3 Hc3. destruct (H2 i s3 Hs3 Hc3) as [(s2 & Hs2 & Hc2 & Hg2)|(? & ? & _)]; [|done].
  destruct (H1 i s2 Hs2 Hc2) as [(s1 & Hs1 & Hc1 & Hg1)|(? & ? & _)]; [|done].
  left. exists s1. split; [done|]. split; [done|congruence].
Qed.

Lemma death_wakes pid forced t : slots_ok t -> wakes t (snd (death_edge pid forced t)) None.
Proof.
  intros Hw. destruct (is_alive pid t) eqn:Ea.
  - apply is_alive_true in Ea as (i & s & Hi & Hidx & Ha). pose proof (Hw _ _ Hi) as Hok.
    destruct (death_edge_spec pid forced t i s Hi Hok Hidx Ha) as (t' & -> & Har & _). cbn [snd].
    apply word_alive_true in Ha as (_ & st & Hst & Hnd).
    assert (slot_live s = true) as Hl by (unfold slot_live; rewrite Hst; by destruct st).
    destruct (dead_slot_view forced s (slot_word _ Hok) Hl) as (_ & _ & Hdv & _).
    destruct (freed_slot_view (dead_slot forced s)) as (_ & Hfv & _).
    eapply (wakes_insert t t' i s _ _ Hi Har). unfold claimable.
    destruct (on_cpu (view s)); [by rewrite Hdv|by rewrite Hfv].
  - rewrite (death_edge_none pid _ t Hw Ea). by apply wakes_same.
Qed.

Lemma kill_wakes pid t : slots_ok t -> wakes t (snd (kill pid t)) None.
Proof.
  intros Hw. pose proof (death_wakes pid (Some ExitKilled) t Hw) as Hd. unfold kill, st_bind.
  by destruct (death_edge pid (Some ExitKilled) t).
Qed.

Lemma mark_dead_wakes pid t : slots_ok t -> wakes t (snd (mark_dead_if_alive pid t)) None.
Proof.
  intros Hw. pose proof (death_wakes pid None t Hw) as Hd. unfold mark_dead_if_alive, st_bind.
  by destruct (death_edge pid None t).
Qed.

Lemma kill_each_wakes pids t : table_inv t -> wakes t (snd (kill_each pids t)) None.
Proof.
  revert t. induction pids as [|pid pids IH]; intros t Hinv; [by apply wakes_same|]. cbn [kill_each].
  pose proof (local_step_inv _ _ (kill_step pid t (inv_slots _ Hinv)) Hinv) as Hinv'.
  pose proof (kill_wakes pid t (inv_slots _ Hinv)) as Hw.
  unfold st_bind. destruct (kill pid t) as [r t1]. cbn [snd] in *. specialize (IH t1 Hinv').
  destruct (kill_each pids t1) as [rs t2]. by apply (wakes_trans t t1).
Qed.

(** ** Methods that make nothing runnable *)

Definition words_ok t : Prop := forall i s, arena t !! i = Some s -> word_wf (lifecycle s).

(** [m] wakes nobody: what it leaves claimable was so before. *)
Definition calm {A} (m : ST X M A) : Prop :=
  forall t, words_ok t -> words_ok (snd (m t)) /\ wakes t (snd (m t)) None.

Lemma calm_same {A} (m : ST X M A) : (forall t, arena (snd (m t)) = arena t) -> calm m.
Proof. intros Ha t Hw. split; [|by apply wakes_same]. intros i s. rewrite Ha. apply Hw. Qed.

Lemma calm_quiet {A} (m : ST X M A) : quiet m -> calm m.
Proof. intros Hq. apply calm_same. intros t. apply Hq. Qed.

Lemma calm_bind {A B} (m : ST X M A) (k : A -> ST X M B) :
  calm m -> (forall a, calm (k a)) -> calm (st_bind m k).
Proof.
  intros Hm Hk t Hw. unfold st_bind. destruct (Hm t Hw) as [Hw1 Hm1]. destruct (m t) as [a t1]. cbn [snd] in *.
  destruct (Hk a t1 Hw1) as [Hw2 Hk2]. split; [done|]. by apply (wakes_trans t t1).
Qed.

Lemma words_ok_put i s t : words_ok t -> word_wf (lifecycle s) -> words_ok (put i s t).
Proof.
  intros Hw Hs j sj. cbn [put arena]. intros Hj. apply list_lookup_insert_Some in Hj as [(_ & <- & _)|[_ Hj]]; eauto.
Qed.

Lemma calm_upd_slot i f : (forall s, lifecycle (f s) = lifecycle s) -> calm (upd_slot i f).
Proof.
  intros Hf t Hw. destruct (arena t !! i) as [s|] eqn:Hi.
  - rewrite (upd_slot_put _ _ _ _ Hi). cbn [snd]. split.
    + apply words_ok_put; [done|]. rewrite Hf. eauto.
    + eapply (wakes_edit t _ i s (f s) None Hi); [done|]. unfold view. by rewrite Hf.
  - assert (arena (snd (upd_slot i f t)) = arena t) as Ha.
    { unfold upd_slot, set_arena. simpl. apply alter_past_end. by apply lookup_ge_None_1. }
    split; [intros j sj; rewrite Ha; apply Hw|by apply wakes_same].
Qed.

Lemma calm_upd_hot i f : calm (upd_hot i f).
Proof. by apply calm_upd_slot. Qed.

(** An edge to a state that is not runnable. *)
Lemma calm_edge i gen from to :
  to <> Created -> to <> Runnable -> calm (word_op false i (try_edge gen from to)).
Proof.
  intros Hc Hr t Hw. destruct (arena t !! i) as [s|] eqn:Hi; [|unfold word_op; rewrite Hi; split; [done|by apply wakes_same]].
  rewrite (word_op_put _ _ _ _ _ Hi). cbn [snd].
  pose proof (try_edge_spec gen from to (lifecycle s) (Hw _ _ Hi)) as Hs.
  destruct (edge_next _ _ _ _) as [n|] eqn:En.
  - destruct Hs as (_ & Hwf & Hl). apply edge_next_Some in En as (_ & _ & ->). split.
    + by apply words_ok_put.
    + eapply (wakes_insert t _ i s _ None Hi); [reflexivity|]. unfold claimable, view.
      cbn [lifecycle with_word]. rewrite Hl. cbn [on_cpu state].
      destruct to; try done; rewrite andb_false_r; done.
  - rewrite Hs. cbn [snd]. rewrite with_word_same, put_same by done. split; [done|by apply wakes_same].
Qed.

Lemma calm_with_hot {A} pid (f : nat -> Slot X M -> ST X M A) :
  (forall i s, calm (f i s)) -> calm (with_hot pid f).
Proof.
  intros Hf t Hw. unfold with_hot. destruct (slot_of pid t) as [[[i s] gen]|]; [|by split; [|apply wakes_same]].
  destruct (negb _); [by split; [|apply wakes_same]|]. specialize (Hf i s t Hw). by destruct (f i s t).
Qed.

Lemma calm_park_edge pid i to : to <> Created -> to <> Runnable -> calm (park_edge pid i to).
Proof.
  intros Hc Hr t Hw. unfold park_edge. destruct (arena t !! i) as [s|]; [|by split; [|apply wakes_same]].
  destruct (negb _); [by split; [|apply wakes_same]|].
  match goal with |- words_ok (snd (?m t)) /\ _ => assert (calm m) as Hm; [|by apply Hm] end.
  apply calm_bind; [by apply calm_edge|]. intros ok. by destruct ok; apply calm_same.
Qed.

Lemma calm_refused {A} pid (a : A) r : calm (or_refused pid a r).
Proof. apply calm_quiet, quiet_refused. Qed.

Lemma calm_park_blocked {A} pid i f (no yes : A) : calm (park_blocked pid i f no yes).
Proof.
  apply calm_bind; [by apply calm_park_edge|]. intros ok. destruct ok; [|by apply calm_same].
  apply calm_bind; [apply calm_upd_hot|]. intros. by apply calm_same.
Qed.

Lemma calm_try_park pid target dl : calm (try_park pid target dl).
Proof.
  apply calm_bind; [|intros; apply calm_refused]. apply calm_with_hot. intros i s.
  exact (calm_park_blocked pid i (fun h => set_waiting target (set_deadline dl h)) false true).
Qed.

Lemma calm_try_park_io pid dl : calm (try_park_io pid dl).
Proof.
  apply calm_bind; [|intros; apply calm_refused]. apply calm_with_hot. intros i s.
  destruct (has_system _); [by apply calm_same|]. apply calm_bind; [by apply calm_park_edge|].
  intros ok. destruct ok; [|by apply calm_same]. apply calm_bind; [apply calm_upd_hot|]. intros. by apply calm_same.
Qed.

Lemma calm_pop pid : calm (pop_received pid).
Proof.
  apply calm_bind; [|intros; by apply calm_same]. apply calm_with_hot. intros i s.
  destruct (Mailbox.pop_received _). apply calm_bind; [apply calm_upd_hot|intros; by apply calm_same].
Qed.
Lemma calm_take pid : calm (take_reply pid).
Proof.
  apply calm_bind; [|intros; by apply calm_same]. apply calm_with_hot. intros i s.
  apply calm_bind; [apply calm_upd_hot|intros; by apply calm_same].
Qed.

Lemma calm_receive pid dl : calm (receive_or_park pid dl).
Proof.
  apply calm_bind; [|intros; apply calm_refused]. apply calm_with_hot. intros i s.
  destruct (Mailbox.pop_received _) as [m mb]. apply calm_bind; [apply calm_upd_hot|]. intros _.
  destruct m; [by apply calm_same|].
  exact (calm_park_blocked pid i (fun h => set_waiting WaitReceive (set_deadline dl h)) MailRefused MailParked).
Qed.

Lemma calm_call pid token dl ce : calm (take_reply_or_park pid token dl ce).
Proof.
  apply calm_bind; [apply calm_quiet, quiet_ensure|]. intros _. apply calm_bind.
  - apply calm_with_hot. intros i s. apply calm_bind; [apply calm_upd_hot|]. intros _.
    destruct (reply _) as [r|].
    + destruct (_ =? _); [|by apply calm_same]. apply calm_bind; [apply calm_upd_hot|intros; by apply calm_same].
    + intros t Hw. destruct (negb _).
      * match goal with |- words_ok (snd (?m t)) /\ _ => assert (calm m) as Hm; [|by apply Hm] end.
        apply calm_bind; [apply calm_upd_hot|intros; by apply calm_same].
      * by apply (calm_park_blocked pid i (fun h => set_waiting WaitReply (set_deadline dl h)) MailRefused MailParked).
  - intros r. apply calm_bind; [apply calm_refused|]. intros p.
    destruct p; apply calm_bind; intros; try by apply calm_same.
    all: apply calm_quiet, quiet_evict.
Qed.

Lemma calm_upd_hot_of pid f : calm (upd_hot_of pid f).
Proof.
  apply calm_bind; [|intros; by apply calm_same]. apply calm_with_hot. intros i s. apply calm_upd_hot.
Qed.

Lemma calm_live_edit pid (f : Slot X M -> Slot X M) :
  (forall s, lifecycle (f s) = lifecycle s) ->
  calm (fun t => match live_slot pid t with Some (i, _) => upd_slot i f t | None => (tt, t) end).
Proof.
  intros Hf t Hw. destruct (live_slot pid t) as [[i s]|]; [by apply calm_upd_slot|].
  split; [done|by apply wakes_same].
Qed.

(** The operations that wake nobody. *)
Definition calm_op (op : TableOp X M) : bool :=
  match op with
  | OPark _ _ _ | OParkIo _ _ | OPop _ | OTakeReply _ | OReceive _ _ | OReplyOrPark _ _ _ _
  | OClearDeadline _ | OSetAwaiting _ _ | OClearAwaiting _ | OSetExitReason _ _ | OSetCrashInfo _ _
  | OSetContext _ _ | OSetLogLevel _ _ | OLogEnter _ | OLogLeave _ | OSetPriority _ _
  | OWithExecution _ _ | OKill _ | OMarkDead _ | OMonitor _ _ | ODemonitor _
  | OTakeCallDowns | OTakeExitNotices | OTakePendingKills | OEnterDraining | OKillAll => true
  | _ => false
  end.

Lemma calm_wakes {A} (m : ST X M A) t : calm m -> slots_ok t -> wakes t (snd (m t)) None.
Proof. intros Hm Hw. apply Hm. intros i s Hi. apply (Hw _ _ Hi). Qed.

Lemma calm_op_wakes (op : TableOp X M) t :
  calm_op op = true -> table_inv t -> wakes t (apply_op op t) None.
Proof.
  intros Hc Hinv. pose proof (inv_slots _ Hinv) as Hw. destruct op; try done; cbn [apply_op].
  all: try by apply kill_wakes.
  all: try by apply mark_dead_wakes.
  all: try by apply kill_each_wakes.
  all: apply calm_wakes; [|done].
  all: try first
    [ apply calm_try_park | apply calm_try_park_io | apply calm_pop | apply calm_take
    | apply calm_receive | apply calm_call | apply calm_upd_hot_of
    | by apply calm_live_edit
    | apply calm_quiet; first [ apply quiet_monitor | apply quiet_demonitor | apply quiet_take_call_downs
        | apply quiet_take_exit_notices | apply quiet_take_pending_kills | apply quiet_enter_draining ] ].
  - apply calm_bind; [apply calm_upd_hot_of|intros; apply calm_quiet, quiet_evict].
  - intros t' Hw'. unfold log_enter. destruct (live_slot pid t') as [[i s]|]; [|by split; [|apply wakes_same]].
    by apply (calm_upd_slot i (with_log_busy 1)).
  - intros t' Hw'. unfold set_priority. destruct (slot_of pid t') as [[[i s] g]|]; [|by split; [|apply wakes_same]].
    destruct (_ =? _); [by apply calm_upd_slot|by split; [|apply wakes_same]].
  - intros t' Hw'. unfold with_execution. destruct (slot_of pid t') as [[[i s] g]|]; [|by split; [|apply wakes_same]].
    destruct (negb _); [by split; [|apply wakes_same]|]. destruct (execution s); [|by split; [|apply wakes_same]].
    by apply calm_upd_slot.
Qed.

Lemma deliver_reply_wakes pid token m t :
  slots_ok t -> wakes t (snd (deliver_reply pid token m t)) (reply_wake (fst (deliver_reply pid token m t))).
Proof.
  intros Hw. unfold deliver_reply. destruct (slot_of pid t) as [[[i s] gen]|] eqn:E; [|by apply wakes_same].
  apply slot_of_Some in E as (Hi & -> & ->). fold (view s).
  destruct (word_alive (view s) _ && _) eqn:Ea; [|by apply wakes_same].
  apply andb_true_iff in Ea as [Ea _]. apply word_alive_true in Ea as [Hg _].
  pose proof (deliver_locked_wakes pid s m t Hi (Hw _ _ Hi) Hg) as Hd. unfold pid_slot in Hd.
  by destruct (deliver_locked pid _ s m t).
Qed.

Lemma promote_call_wakes cr token t :
  slots_ok t -> wakes t (snd (promote_call_waiter cr token t)) (fst (promote_call_waiter cr token t)).
Proof.
  intros Hw. apply (wakes_bind _ _ (default None)); [|done].
  apply with_hot_wakes. intros s Hi Hg. cbv zeta. fold (view s).
  destruct (negb _) eqn:E; [by apply wakes_same|]. clean. eapply promote_wakes; eauto using slot_word.
Qed.

(** A yield by the process on the cpu: it is requeued by its switch-out. *)
Lemma yield_wakes pid t :
  slots_ok t -> on_cpu_for pid t -> wakes t (snd (yield_running pid t)) None.
Proof.
  intros Hw (s & Hi & Hv). unfold yield_running.
  destruct (slot_of pid t) as [[[i s0] gen]|] eqn:E; [|by apply wakes_same].
  apply slot_of_Some in E as (Hi0 & -> & ->). unfold pid_slot in Hi. rewrite Hi in Hi0. injection Hi0 as <-.
  rewrite (st_bind_eval _ _ _ _ _ (word_op_put false _ _ s t Hi)).
  pose proof (try_edge_spec (snd (decode pid)) Running Runnable (lifecycle s) (slot_word _ (Hw _ _ Hi))) as Hs.
  destruct (edge_next _ _ _ _) as [n|] eqn:En.
  - destruct Hs as (-> & _ & Hl). apply edge_next_Some in En as (_ & _ & ->). fold (view s) in Hl. rewrite Hv in Hl.
    eapply (wakes_insert t _ _ s (with_word _ s) None Hi); [reflexivity|]. unfold claimable, view.
    cbn [lifecycle with_word]. by rewrite Hl.
  - rewrite Hs. cbn [fst snd negb]. rewrite with_word_same, put_same by done. by apply wakes_same.
Qed.

Lemma spawn_wakes x par t pid t' pr :
  table_inv t -> Z.of_nat (length (arena t)) < 2 ^ 32 -> spawn x par t = (inl pid, t') ->
  wakes t t' (Some (mkWake pid pr)).
Proof.
  intros Hinv Hl E i s Hs Hc. destruct (spawn_slot x par t pid t' Hinv Hl E) as (s' & _ & Hs' & Hv & _ & _ & Hoth).
  destruct (decide (i = pid_slot pid)) as [->|Hne].
  - right. eexists. split; [done|]. split; [done|]. rewrite Hs' in Hs. injection Hs as <-. by rewrite Hv.
  - left. rewrite Hoth in Hs by done. eauto.
Qed.

(** No claim succeeds where nothing is claimable. *)
Lemma try_claim_dead pid t :
  slots_ok t -> (forall s, s ∈ arena t -> claimable s = false) ->
  fst (try_claim pid t) = false /\ arena (snd (try_claim pid t)) = arena t /\
  alive (snd (try_claim pid t)) = alive t.
Proof.
  intros Hw Hno. unfold try_claim. destruct (slot_of pid t) as [[[i s] gen]|] eqn:E; [|done].
  apply slot_of_Some in E as (Hi & -> & ->). pose proof (slot_word _ (Hw _ _ Hi)) as Hwf.
  rewrite !(st_bind_eval _ _ _ _ _ (word_op_put false _ _ s t Hi)).
  pose proof (try_claim_spec (snd (decode pid)) (lifecycle s) Hwf) as Hs.
  destruct (Lifecycle.claim_next _ _) as [n|] eqn:En.
  - exfalso. apply claim_next_Some in En as (_ & Hc & Hst & _). fold (view s) in *.
    specialize (Hno s (list_elem_of_lookup_2 _ _ _ Hi)). unfold claimable in Hno. rewrite Hc in Hno.
    by destruct Hst as [Hst|Hst]; rewrite Hst in Hno.
  - rewrite Hs. cbn [fst snd negb]. by rewrite with_word_same, put_same.
Qed.
End Wakes.

(** ** The loop invariant *)

Section Loop.
Context {X M W : Type} `{HM : Message M} `{HS : MessageSource M} `{HH : Host X M W}.
Context (grace : Z).
Implicit Types (rt : CooperativeRuntime X M) (w : W).

Record rt_ok rt : Prop := {
  rt_table : table_inv (core rt);
  rt_queue : queue_ok (ready rt);
}.

Definition queued rt : list Pid := concat (levels (ready rt)).

(** Every process that can run is in the ready queue. *)
Definition covered rt : Prop :=
  forall i s, arena (core rt) !! i = Some s -> claimable s = true ->
    exists p, p ∈ queued rt /\ names p i s.

(** The effect of a table method followed by the push of its wake. *)
Lemma enqueue_ok rt t o :
  rt_ok rt -> covered rt -> table_inv t -> wakes (core rt) t o ->
  rt_ok (enqueue o (set_core rt t)) /\ covered (enqueue o (set_core rt t)).
Proof.
  intros [Ht Hq] Hc Hi Hw.
  assert (queue_ok (ready (enqueue o (set_core rt t)))) as Hq'
    by (destruct o; simpl; [by apply push_ok|done]).
  split; [by destruct o; constructor|]. intros i s Hs Hcl.
  assert (core (enqueue o (set_core rt t)) = t) as Hcore by (by destruct o). rewrite Hcore in Hs.
  unfold queued. destruct (Hw i s Hs Hcl) as [(s0 & Hs0 & Hc0 & Hg0)|(wk & -> & Hn)].
  - destruct (Hc i s0 Hs0 Hc0) as (p & Hp & [Hps Hpg]). exists p.
    split; [|split; [done|congruence]]. destruct o as [wk|]; [|done].
    cbn [enqueue set_core ready]. rewrite ready_push_contents by done. by right.
  - exists (wake_pid wk). split; [|done]. cbn [enqueue set_core ready].
    rewrite ready_push_contents by done. by left.
Qed.

Lemma route_delivery_ok pid m rt :
  rt_ok rt -> covered rt -> rt_ok (route_delivery pid m rt) /\ covered (route_delivery pid m rt).
Proof.
  intros Hok Hc. unfold route_delivery. pose proof (inv_slots _ (rt_table _ Hok)) as Hw.
  pose proof (deliver_wakes pid m (core rt) Hw) as Hwk.
  pose proof (local_step_inv _ _ (deliver_step pid m (core rt) Hw) (rt_table _ Hok)) as Hi.
  destruct (deliver pid m (core rt)) as [d t]. by apply enqueue_ok.
Qed.

Lemma fold_ok {A} (f : CooperativeRuntime X M -> A -> CooperativeRuntime X M) l rt :
  (forall rt a, rt_ok rt -> covered rt -> rt_ok (f rt a) /\ covered (f rt a)) ->
  rt_ok rt -> covered rt -> rt_ok (fold_left f l rt) /\ covered (fold_left f l rt).
Proof.
  intros Hf. revert rt. induction l as [|a l IH]; intros rt Hok Hc; simpl; [done|].
  destruct (Hf rt a Hok Hc). auto.
Qed.

Lemma set_timers_ok rt s : rt_ok rt -> covered rt -> rt_ok (set_timers rt s) /\ covered (set_timers rt s).
Proof. intros [] Hc. by split; [constructor|]. Qed.

Lemma fire_entry_ok rt e : rt_ok rt -> covered rt -> rt_ok (fire_entry rt e) /\ covered (fire_entry rt e).
Proof.
  intros Hok Hc. pose proof (inv_slots _ (rt_table _ Hok)) as Hw. destruct e as [m p|p f]; simpl.
  - by apply route_delivery_ok.
  - pose proof (promote_expired_wakes p f (core rt) Hw) as Hwk.
    pose proof (local_step_inv _ _ (promote_expired_step p f (core rt) Hw) (rt_table _ Hok)) as Hi.
    destruct (promote_expired p f (core rt)) as [o t]. by apply enqueue_ok.
Qed.

Lemma fire_due_timers_ok now rt :
  rt_ok rt -> covered rt -> rt_ok (fire_due_timers now rt) /\ covered (fire_due_timers now rt).
Proof.
  intros Hok Hc. unfold fire_due_timers. destruct (advance now (timers rt)) as [due s].
  destruct (set_timers_ok rt s Hok Hc). apply fold_ok; auto using fire_entry_ok.
Qed.

Lemma wake_one_ok rt k : rt_ok rt -> covered rt -> rt_ok (wake_one rt k) /\ covered (wake_one rt k).
Proof.
  intros Hok Hc. pose proof (inv_slots _ (rt_table _ Hok)) as Hw. destruct k as [fd p r|p]; simpl.
  - by apply route_delivery_ok.
  - pose proof (promote_io_wakes p (core rt) Hw) as Hwk.
    pose proof (local_step_inv _ _ (promote_io_waiter_step p (core rt) Hw) (rt_table _ Hok)) as Hi.
    destruct (promote_io_waiter p (core rt)) as [o t]. by apply enqueue_ok.
Qed.

Lemma idle_ok now rt w :
  rt_ok rt -> covered rt -> rt_ok (fst (idle now rt w)) /\ covered (fst (idle now rt w)).
Proof.
  intros Hok Hc. unfold idle. destruct (reactor_poll _ w) as [ks w']. apply fold_ok; auto using wake_one_ok.
Qed.

Lemma enforce_grace_ok now rt :
  rt_ok rt -> covered rt -> rt_ok (enforce_grace now rt) /\ covered (enforce_grace now rt).
Proof.
  intros Hok Hc. unfold enforce_grace. destruct (negb _); [done|]. destruct (is_draining _); [|done].
  destruct (kill_each_inv (live_pids (core rt)) (core rt) (rt_table _ Hok)) as [Hi _].
  by apply (enqueue_ok rt _ None); [..|apply kill_each_wakes; apply Hok].
Qed.

Lemma switch_out_ok pid rt :
  rt_ok rt -> covered rt -> rt_ok (switch_out pid rt) /\ covered (switch_out pid rt).
Proof.
  intros Hok Hc. unfold switch_out. pose proof (inv_slots _ (rt_table _ Hok)) as Hw.
  pose proof (after_switch_wakes pid (core rt) Hw) as Hwk.
  pose proof (local_step_inv _ _ (after_switch_step pid (core rt) Hw) (rt_table _ Hok)) as Hi.
  destruct (after_switch pid (core rt)) as [o t]. by apply enqueue_ok.
Qed.

Lemma deliver_signals_ok rt w :
  rt_ok rt -> covered rt ->
  rt_ok (fst (deliver_signals grace rt w)) /\ covered (fst (deliver_signals grace rt w)).
Proof.
  intros Hok Hc. unfold deliver_signals. destruct (signals_drain w) as [fired w1].
  destruct fired as [|e0 rest]; [done|]. set (fired := e0 :: rest). clearbody fired.
  assert (rt_ok (set_core rt (snd (enter_draining (core rt)))) /\
          covered (set_core rt (snd (enter_draining (core rt))))) as [Hok1 Hc1].
  { pose proof (quiet_enter_draining (core rt)) as Hq. apply (enqueue_ok rt _ None); [done|done| |].
    - by apply (local_step_inv (core rt)); [apply step_same|apply Hok].
    - apply wakes_same, Hq. }
  destruct (existsb _ fired); [|apply fold_ok; auto using route_delivery_ok].
  destruct (enter_draining (core rt)) as [[] t]; cbn [snd] in *.
  - destruct (clock_now w1) as [now w2]. destruct (set_timers_ok _ (arm_grace (now + grace) (timers (set_core rt t))) Hok1 Hc1).
    apply fold_ok; auto using route_delivery_ok.
  - apply fold_ok; auto using route_delivery_ok.
Qed.

(** ** Claims *)

Lemma pop_covered rt p q t :
  rt_ok rt -> covered rt -> pop (ready rt) = (Some p, q) ->
  wakes (core rt) t None ->
  (forall i s, arena t !! i = Some s -> names p i s -> claimable s = false) ->
  covered (mkRuntime t q (timers rt)).
Proof.
  intros Hok Hc Hp Hw Hno i s Hs Hcl. cbn [core] in Hs.
  destruct (Hw i s Hs Hcl) as [(s0 & Hs0 & Hc0 & Hg0)|(? & ? & _)]; [|done].
  destruct (Hc i s0 Hs0 Hc0) as (p' & Hp' & [Hps Hpg]).
  pose proof (ready_pop_contents (ready rt) (rt_queue _ Hok)) as Hperm. rewrite Hp in Hperm. simpl in Hperm.
  unfold queued in *. rewrite Hperm in Hp'. cbn [ready].
  assert (names p' i s) as Hn by (split; congruence).
  apply elem_of_cons in Hp' as [->|Hin]; [|eauto]. by rewrite (Hno i s Hs Hn) in Hcl.
Qed.

Lemma pop_size rt p q :
  rt_ok rt -> pop (ready rt) = (Some p, q) -> queue_size (ready rt) = S (queue_size q) /\ queue_ok q.
Proof.
  intros Hok Hp. pose proof (ready_pop_contents (ready rt) (rt_queue _ Hok)) as Hperm. rewrite Hp in Hperm.
  split; [unfold queue_size; by rewrite Hperm|].
  destruct (pop_step (ready rt) (rt_queue _ Hok)) as [[E _]|(? & ? & ? & _ & _ & _ & Hq & _)]; [congruence|].
  by rewrite Hp in Hq.
Qed.

Lemma pop_none rt q :
  rt_ok rt -> covered rt -> pop (ready rt) = (None, q) ->
  q = ready rt /\ forall i s, arena (core rt) !! i = Some s -> claimable s = false.
Proof.
  intros Hok Hc Hp. pose proof (ready_pop_contents (ready rt) (rt_queue _ Hok)) as Hperm.
  destruct (pop_step (ready rt) (rt_queue _ Hok)) as [[E He]|(? & ? & ? & _ & E & _)];
    [|rewrite Hp in E; done].
  rewrite Hp in E. injection E as ->. split; [done|]. intros i s Hs. apply not_true_iff_false. intros Hcl.
  destruct (Hc i s Hs Hcl) as (p & Hin & _). unfold queued in Hin.
  apply list_elem_of_In, in_concat in Hin as (l & Hl & Hpl).
  apply list_elem_of_In, list_elem_of_lookup in Hl as [k Hk]. specialize (He k). unfold level_empty in He.
  rewrite Hk in He. destruct l; [destruct Hpl|done].
Qed.

Lemma claim_loop_spec fuel rt :
  rt_ok rt -> covered rt -> (queue_size (ready rt) < fuel)%nat ->
  exists o rt', claim_loop fuel rt = Some (o, rt') /\ rt_ok rt' /\ covered rt' /\ timers rt' = timers rt /\
    match o with
    | Some pid => on_cpu_for pid (core rt')
    | None => forall i s, arena (core rt') !! i = Some s -> claimable s = false
    end.
Proof.
  revert rt. induction fuel as [|fuel IH]; intros rt Hok Hc Hf; [lia|]. cbn [claim_loop].
  destruct (pop (ready rt)) as [[p|] q] eqn:Hp; cycle 1.
  { destruct (pop_none rt q Hok Hc Hp) as [-> Hn]. exists None, (mkRuntime (core rt) (ready rt) (timers rt)).
    split; [done|]. split; [by destruct Hok|]. done. }
  destruct (pop_size rt p q Hok Hp) as [Hsz Hq]. pose proof (inv_slots _ (rt_table _ Hok)) as Hw.
  pose proof (try_claim_wakes p (core rt) Hw) as Hcl.
  pose proof (local_step_inv _ _ (try_claim_step p (core rt) Hw) (rt_table _ Hok)) as Hi.
  destruct (try_claim p (core rt)) as [[] t]; cbn [fst snd] in *.
  - destruct Hcl as [Hwk Hon]. eexists _, _. split; [done|]. split; [by constructor|]. split; [|done].
    apply (pop_covered rt p q t Hok Hc Hp Hwk). intros i s Hs [<- Hg]. destruct Hon as (s' & Hs' & Hv).
    rewrite Hs in Hs'. injection Hs' as <-. unfold claimable. by rewrite Hv.
  - destruct Hcl as [Ha Hno]. apply (IH (mkRuntime t q (timers rt))); [by constructor| |simpl; lia].
    apply (pop_covered rt p q t Hok Hc Hp (wakes_same _ _ _ Ha)). rewrite Ha. intros i s Hs [<- Hg]. by apply Hno.
Qed.

Lemma claim_next_spec rt :
  rt_ok rt -> covered rt ->
  exists o rt', claim_next rt = (o, rt') /\ rt_ok rt' /\ covered rt' /\ timers rt' = timers rt /\
    match o with
    | Some pid => on_cpu_for pid (core rt')
    | None => forall i s, arena (core rt') !! i = Some s -> claimable s = false
    end.
Proof.
  intros Hok Hc. destruct (claim_loop_spec (S (queue_size (ready rt))) rt Hok Hc ltac:(lia)) as (o & rt' & E & Hr).
  exists o, rt'. unfold claim_next. by rewrite E.
Qed.

(** ** What process code may do

    The adapter of a running process [pid] reaches the runtime through the
    table's methods, and queues the wake each of them returns. It claims and
    releases nothing itself, and yields only the process on the cpu. *)
Inductive adapter_step (pid : Pid) rt : CooperativeRuntime X M -> Prop :=
  | ad_spawn x par child t pr :
      Z.of_nat (length (arena (core rt))) < 2 ^ 32 ->
      spawn x par (core rt) = (inl child, t) ->
      adapter_step pid rt (enqueue (Some (mkWake child pr)) (set_core rt t))
  | ad_deliver target m : adapter_step pid rt (route_delivery target m rt)
  | ad_reply target token m d t :
      deliver_reply target token m (core rt) = (d, t) ->
      adapter_step pid rt (enqueue (reply_wake d) (set_core rt t))
  | ad_call_down cr token o t :
      promote_call_waiter cr token (core rt) = (o, t) ->
      adapter_step pid rt (enqueue o (set_core rt t))
  | ad_yield :
      on_cpu_for pid (core rt) ->
      adapter_step pid rt (set_core rt (snd (yield_running pid (core rt))))
  | ad_op op :
      calm_op op = true -> adapter_step pid rt (set_core rt (apply_op op (core rt)))
  | ad_timers s : adapter_step pid rt (set_timers rt s).

Definition adapter_run (pid : Pid) : relation (CooperativeRuntime X M) := rtc (adapter_step pid).

(** The executor's contract: resuming a process runs its adapter. *)
Definition resume_contract : Prop :=
  forall pid rt w, on_cpu_for pid (core rt) -> adapter_run pid rt (fst (executor_resume pid rt w)).

Lemma op_step_inv (op : TableOp X M) t : calm_op op = true -> table_inv t -> table_inv (apply_op op t).
Proof.
  intros Hc Hinv. destruct (is_kill_all op) eqn:Ek.
  - destruct op; try done. by destruct (kill_each_inv (live_pids t) t Hinv).
  - eapply local_step_inv; [|done]. apply op_local_step; [by destruct op|done|apply Hinv].
Qed.

Lemma adapter_step_ok pid rt rt' :
  adapter_step pid rt rt' -> rt_ok rt -> covered rt -> rt_ok rt' /\ covered rt'.
Proof.
  intros Hs Hok Hc. pose proof (rt_table _ Hok) as Hinv. pose proof (inv_slots _ Hinv) as Hw.
  destruct Hs as [x par child t pr Hl E|target m|target token m d t E|cr token o t E|Hon|op Hop|s].
  - apply enqueue_ok; [done|done| |by eapply spawn_wakes].
    pose proof (spawn_step x par (core rt) (inv_free_range _ Hinv) Hl) as Hs. rewrite E in Hs.
    by eapply step_inv.
  - by apply route_delivery_ok.
  - pose proof (deliver_reply_step target token m (core rt) Hw) as Hs.
    pose proof (deliver_reply_wakes target token m (core rt) Hw) as Hwk. rewrite E in Hs, Hwk.
    apply enqueue_ok; [done|done|by eapply local_step_inv|done].
  - pose proof (promote_call_waiter_step cr token (core rt) Hw) as Hs.
    pose proof (promote_call_wakes cr token (core rt) Hw) as Hwk. rewrite E in Hs, Hwk.
    apply enqueue_ok; [done|done|by eapply local_step_inv|done].
  - apply (enqueue_ok rt _ None); [done|done| |by apply yield_wakes].
    eapply local_step_inv; [by apply yield_running_step|done].
  - apply (enqueue_ok rt _ None); [done|done|by apply op_step_inv|by apply calm_op_wakes].
  - by apply set_timers_ok.
Qed.

Lemma adapter_run_ok pid rt rt' :
  adapter_run pid rt rt' -> rt_ok rt -> covered rt -> rt_ok rt' /\ covered rt'.
Proof.
  induction 1 as [|x y z Hs _ IH]; [done|]. intros Hok Hc. destruct (adapter_step_ok pid x y Hs Hok Hc). auto.
Qed.

Lemma tick_ok rt w :
  resume_contract -> rt_ok rt -> covered rt ->
  rt_ok (snd (fst (tick grace rt w))) /\ covered (snd (fst (tick grace rt w))).
Proof.
  intros Hres Hok Hc. unfold tick. destruct (deliver_signals_ok rt w Hok Hc) as [Hok1 Hc1].
  destruct (deliver_signals grace rt w) as [rt1 w1]. cbn [fst] in *.
  destruct (clock_now w1) as [now w2]. destruct (fire_due_timers_ok now rt1 Hok1 Hc1) as [Hok2 Hc2].
  destruct (enforce_grace_ok now _ Hok2 Hc2) as [Hok3 Hc3].
  destruct (claim_next_spec _ Hok3 Hc3) as (o & rt4 & -> & Hok4 & Hc4 & _ & Ho). destruct o as [pid|].
  - pose proof (Hres pid rt4 w2 Ho) as Hr. destruct (executor_resume pid rt4 w2) as [rt5 w3]. cbn [fst snd] in *.
    destruct (adapter_run_ok pid rt4 rt5 Hr Hok4 Hc4). by apply switch_out_ok.
  - destruct (should_shutdown (core rt4)); [done|].
    destruct (idle_ok now rt4 w2 Hok4 Hc4). by destruct (idle now rt4 w2).
Qed.

(** An iteration that depends on the reactor polls it in a state where nothing can
    run, after the claim loop came back empty. *)
Definition idles_unless_runnable rt w : Prop :=
  (forall poll, @tick X M W _ _ (with_reactor HH poll) grace rt w = tick grace rt w) \/
  (exists now rt1 w1,
     (forall s, s ∈ arena (core rt1) -> claimable s = false) /\ should_shutdown (core rt1) = false /\
     forall poll, @tick X M W _ _ (with_reactor HH poll) grace rt w =
       let (rt2, w2) := @idle X M W _ _ (with_reactor HH poll) now rt1 w1 in (should_shutdown (core rt2), rt2, w2)).

Lemma tick_idles rt w : rt_ok rt -> covered rt -> idles_unless_runnable rt w.
Proof.
  intros Hok Hc. unfold idles_unless_runnable, tick.
  change (@deliver_signals X M W _ _ (with_reactor HH _)) with (@deliver_signals X M W _ _ HH).
  cbn [clock_now with_reactor executor_resume].
  destruct (deliver_signals_ok rt w Hok Hc) as [Hok1 Hc1]. destruct (deliver_signals grace rt w) as [rt1 w1].
  cbn [fst] in *. destruct (clock_now w1) as [now w2]. destruct (fire_due_timers_ok now rt1 Hok1 Hc1) as [Hok2 Hc2].
  destruct (enforce_grace_ok now _ Hok2 Hc2) as [Hok3 Hc3].
  destruct (claim_next_spec _ Hok3 Hc3) as (o & rt4 & -> & _ & _ & _ & Ho). destruct o as [pid|]; [by left|].
  destruct (should_shutdown (core rt4)) eqn:Es; [by left|]. right. exists now, rt4, w2.
  split; [intros s (i & Hs)%list_elem_of_lookup; eauto|]. done.
Qed.

Lemma drive_ok fuel rt w :
  resume_contract -> rt_ok rt -> covered rt ->
  rt_ok (snd (fst (drive grace fuel rt w))) /\ covered (snd (fst (drive grace fuel rt w))).
Proof.
  intros Hres. revert rt w. induction fuel as [|fuel IH]; intros rt w Hok Hc; [done|]. cbn [drive].
  destruct (tick_ok rt w Hres Hok Hc) as [Hok1 Hc1].
  destruct (tick grace rt w) as [[stop rt1] w1]. cbn [fst snd] in *. destruct stop; [done|]. by apply IH.
Qed.

Lemma runtime_new_ok : rt_ok runtime_new /\ covered runtime_new.
Proof.
  split; [|intros i s; cbn; by rewrite lookup_nil].
  constructor; [apply table_new_inv|apply queue_new_ok].
Qed.

(** ** Draining *)

(** Methods that leave the registry alone. *)
Definition still {A} (m : ST X M A) : Prop := forall t, registry (snd (m t)) = registry t.

Lemma still_bind {A B} (m : ST X M A) (k : A -> ST X M B) :
  still m -> (forall a, still (k a)) -> still (st_bind m k).
Proof.
  intros Hm Hk t. unfold st_bind. specialize (Hm t). destruct (m t) as [a t']. rewrite Hk. exact Hm.
Qed.

Lemma still_word_op {A} (d : A) i op : still (word_op d i op).
Proof. intros t. unfold word_op. destruct (arena t !! i) as [s|]; [|done]. by destruct (op _). Qed.

Lemma still_wake_edge pid i from : still (wake_edge pid i from).
Proof.
  apply still_bind; [apply still_word_op|]. intros ok. destruct ok; [|done].
  apply still_bind; [by destruct (bool_decide _)|]. intros _. by apply still_bind.
Qed.

Lemma still_deliver pid m : still (deliver pid m).
Proof.
  intros t. unfold deliver. destruct (slot_of pid t) as [[[i s] gen]|]; [|done].
  destruct (word_alive _ _); [|done]. unfold deliver_locked. destruct (Mailbox.push _ _) as [d mb].
  match goal with |- registry (snd (?k t)) = _ => assert (still k) as Hk; [|apply Hk] end.
  apply still_bind; [done|]. intros _. apply still_bind; [done|]. intros _. apply still_bind; [|done].
  destruct (match slot_state s with Some Blocked => _ | Some WaitingIO => _ | _ => _ end);
    [apply still_wake_edge|done].
Qed.

Lemma still_with_hot {A} pid (f : nat -> Slot X M -> ST X M A) :
  (forall i s, still (f i s)) -> still (with_hot pid f).
Proof.
  intros Hf t. unfold with_hot. destruct (slot_of pid t) as [[[i s] gen]|]; [|done].
  destruct (negb _); [done|]. specialize (Hf i s t). by destruct (f i s t).
Qed.

Lemma still_promote_expired pid fire : still (promote_expired pid fire).
Proof.
  apply still_bind; [|by intros r; destruct (default None r)]. apply still_with_hot. intros i s. cbv zeta.
  destruct (state _) as [[]|]; try done; destruct (negb _); try done;
    (apply still_bind; [done|]); intros _; apply still_wake_edge.
Qed.

(** Draining with the grace armed at [g]. *)
Definition draining_until (g : Instant) rt : Prop :=
  is_draining (core rt) = true /\ grace_deadline (timers rt) = Some g.

Lemma enqueue_draining g o rt t :
  registry t = registry (core rt) -> draining_until g rt -> draining_until g (enqueue o (set_core rt t)).
Proof. unfold draining_until, is_draining. intros Hr [Hd Hg]. by destruct o; simpl; rewrite Hr. Qed.

Lemma route_delivery_draining g pid m rt : draining_until g rt -> draining_until g (route_delivery pid m rt).
Proof.
  intros Hd. unfold route_delivery. pose proof (still_deliver pid m (core rt)) as Hs.
  destruct (deliver pid m (core rt)). by apply enqueue_draining.
Qed.

Lemma fold_draining {A} g (f : CooperativeRuntime X M -> A -> CooperativeRuntime X M) l rt :
  (forall rt a, draining_until g rt -> draining_until g (f rt a)) ->
  draining_until g rt -> draining_until g (fold_left f l rt).
Proof. intros Hf. revert rt. induction l as [|a l IH]; intros rt Hd; simpl; auto. Qed.

Lemma deliver_signals_draining g rt w :
  draining_until g rt -> draining_until g (fst (deliver_signals grace rt w)).
Proof.
  intros Hd. unfold deliver_signals. destruct (signals_drain w) as [fired w1]. destruct fired as [|e0 rest]; [done|].
  assert (enter_draining (core rt) = (false, core rt)) as E.
  { destruct Hd as [Hd _]. unfold is_draining in Hd. unfold enter_draining, with_registry.
    destruct (mode (registry (core rt))); [done|]. by destruct (core rt). }
  rewrite E. destruct (existsb _ _); cbn [fst]; apply fold_draining; auto using route_delivery_draining.
Qed.

Lemma fire_due_draining g now rt : draining_until g rt -> draining_until g (fire_due_timers now rt).
Proof.
  intros [Hd Hg]. unfold fire_due_timers, advance.
  assert (forall s due, grace_deadline s = Some g -> draining_until g (fold_left fire_entry due (set_timers rt s))) as Hf.
  { intros s due Hs. apply fold_draining; [|done]. intros rt' [m p|p f] Hd'; [by apply route_delivery_draining|].
    simpl. pose proof (still_promote_expired p f (core rt')) as Hst. destruct (promote_expired p f (core rt')).
    by apply enqueue_draining. }
  destruct (match last_advance _ with Some _ => _ | None => _ end); [by apply Hf|].
  destruct (tq_drain now (wheel (timers rt))) as [due w]. by apply Hf.
Qed.

Lemma nothing_claimable_covered rt : (forall s, s ∈ arena (core rt) -> claimable s = false) -> covered rt.
Proof. intros Hn i s Hs. rewrite (Hn s); [done|]. by eapply list_elem_of_lookup_2. Qed.

(** Once nothing is alive, the claim loop comes up empty and the loop breaks. *)
Lemma claim_none_dead rt :
  rt_ok rt -> alive (core rt) = 0 -> (forall s, s ∈ arena (core rt) -> claimable s = false) ->
  exists rt', claim_next rt = (None, rt') /\ alive (core rt') = 0.
Proof.
  intros Hok Hal Hno. unfold claim_next.
  enough (forall fuel rt, rt_ok rt -> alive (core rt) = 0 ->
    (forall s, s ∈ arena (core rt) -> claimable s = false) -> (queue_size (ready rt) < fuel)%nat ->
    exists rt', claim_loop fuel rt = Some (None, rt') /\ alive (core rt') = 0) as Hl.
  { destruct (Hl (S (queue_size (ready rt))) rt Hok Hal Hno ltac:(lia)) as (rt' & -> & Ha). eauto. }
  clear rt Hok Hal Hno. induction fuel as [|fuel IH]; intros rt Hok Hal Hno Hf; [lia|]. cbn [claim_loop].
  destruct (pop (ready rt)) as [[p|] q] eqn:Hp; [|eauto].
  destruct (pop_size rt p q Hok Hp) as [Hsz Hq]. pose proof (inv_slots _ (rt_table _ Hok)) as Hw.
  pose proof (try_claim_dead p (core rt) Hw Hno) as (Hfalse & Ha & Hal').
  pose proof (local_step_inv _ _ (try_claim_step p (core rt) Hw) (rt_table _ Hok)) as Hi.
  destruct (try_claim p (core rt)) as [claimed t]. cbn [fst snd] in *. subst claimed.
  apply IH; cbn [core ready]; [by constructor|congruence|by rewrite Ha|lia].
Qed.

(** [kill_all] leaves nothing alive or claimable. *)
Lemma kill_all_dead (t : Table X M) :
  table_inv t ->
  let t' := snd (kill_all t) in
  table_inv t' /\ alive t' = 0 /\ (forall s, s ∈ arena t' -> claimable s = false).
Proof.
  intros Hinv. cbv zeta. destruct (kill_each_inv (live_pids t) t Hinv) as [Hi _].
  change (snd (kill_each (live_pids t) t)) with (snd (kill_all t)) in Hi.
  pose proof (kill_all_none t Hinv) as Hz. split; [exact Hi|]. split; [by rewrite (inv_alive _ Hi)|].
  rewrite countb_zero in Hz. intros s Hs. specialize (Hz s Hs). unfold slot_live, claimable in *.
  by destruct (state (view s)) as [[]|]; rewrite ?andb_false_r.
Qed.

Lemma grace_tick rt w g :
  rt_ok rt -> covered rt -> draining_until g rt ->
  g <= fst (clock_now (snd (deliver_signals grace rt w))) ->
  fst (fst (tick grace rt w)) = true /\ alive (core (snd (fst (tick grace rt w)))) = 0.
Proof.
  intros Hok Hc Hd Hclock. unfold tick.
  destruct (deliver_signals_ok rt w Hok Hc) as [Hok1 Hc1].
  pose proof (deliver_signals_draining g rt w Hd) as Hd1.
  destruct (deliver_signals grace rt w) as [rt1 w1]. cbn [fst] in *.
  cbn [snd] in Hclock. destruct (clock_now w1) as [now w2]. cbn [fst] in Hclock.
  destruct (fire_due_timers_ok now rt1 Hok1 Hc1) as [Hok2 Hc2].
  pose proof (fire_due_draining g now rt1 Hd1) as [Hdr Hg]. set (rt2 := fire_due_timers now rt1) in *.
  unfold enforce_grace, grace_expired. rewrite Hg, Hdr.
  rewrite (proj2 (Z.leb_le g now)) by done. cbn [negb].
  destruct (kill_all_dead (core rt2) (rt_table _ Hok2)) as (Hi & Hal & Hno).
  destruct (claim_none_dead (set_core rt2 (snd (kill_all (core rt2))))) as (rt3 & -> & Hal3); [|done|done|].
  { constructor; [done|apply Hok2]. }
  assert (should_shutdown (core rt3) = true) as -> by (unfold should_shutdown; by rewrite Hal3).
  done.
Qed.
End Loop.

(** ** The theorems *)

Section Theorems.
Context {X M W : Type} `{HM : Message M} `{HS : MessageSource M} `{HH : Host X M W}.
Implicit Types (rt : CooperativeRuntime X M) (w : W).

(** C1: no runnable process is stranded. From a booted runtime, under any executor
    that reaches the table through its methods and queues the wakes they return,
    after any number of iterations every process that could be claimed is in the
    ready queue; and the next iteration either does not use the reactor (it is the same
    whatever the reactor does), or polls it, once and last, in a state where no process
    can be claimed and the loop is not over: the driver idles only when nothing can
    run. *)
Theorem driver_never_strands (grace : Z) (fuel : nat) (boot : Pid) rt0 w0
    (Hresume : resume_contract (X := X) (M := M) (W := W))
    (Hboot : adapter_run boot runtime_new rt0) :
  let '(_, rt, w) := run_driver grace fuel rt0 w0 in
  (forall i s, arena (core rt) !! i = Some s -> claimable s = true ->
     exists p, p ∈ queued rt /\ pid_slot p = i /\ pid_gen p = generation (view s)) /\
  ((forall poll, @tick X M W _ _ (with_reactor HH poll) grace rt w = tick grace rt w) \/
   (exists now rt1 w1,
      (forall s, s ∈ arena (core rt1) -> claimable s = false) /\ should_shutdown (core rt1) = false /\
      forall poll, @tick X M W _ _ (with_reactor HH poll) grace rt w =
        let (rt2, w2) := @idle X M W _ _ (with_reactor HH poll) now rt1 w1 in
        (should_shutdown (core rt2), rt2, w2))).
Proof.
  destruct (runtime_new_ok (X := X) (M := M)) as [Hok Hc].
  destruct (adapter_run_ok boot _ _ Hboot Hok Hc) as [Hok0 Hc0].
  pose proof (drive_ok grace fuel rt0 (signals_install w0) Hresume Hok0 Hc0) as [Hok1 Hc1].
  unfold run_driver. destruct (drive grace fuel rt0 _) as [[stop rt] w]. cbn [fst snd] in *.
  split; [exact Hc1|]. by apply tick_idles.
Qed.

(** C27: the drain grace is a hard bound. Once the runtime is draining and the clock
    has passed the grace deadline, the very next iteration kills every straggler
    and leaves the loop, whatever signals, timers and processes do. *)
Theorem grace_deadline_stops (grace : Z) (fuel : nat) (boot : Pid) rt0 w0 rt w (g : Instant)
    (Hresume : resume_contract (X := X) (M := M) (W := W))
    (Hboot : adapter_run boot runtime_new rt0)
    (Hreach : run_driver grace fuel rt0 w0 = (false, rt, w))
    (Hdraining : is_draining (core rt) = true) (Hgrace : grace_deadline (timers rt) = Some g)
    (Hclock : g <= fst (clock_now (snd (deliver_signals grace rt w)))) :
  fst (fst (tick grace rt w)) = true /\ alive (core (snd (fst (tick grace rt w)))) = 0.
Proof.
  destruct (runtime_new_ok (X := X) (M := M)) as [Hok Hc]. destruct (adapter_run_ok boot _ _ Hboot Hok Hc) as [Hok0 Hc0].
  destruct (drive_ok grace fuel rt0 (signals_install w0) Hresume Hok0 Hc0) as [Hok1 Hc1].
  unfold run_driver in Hreach. rewrite Hreach in Hok1, Hc1. by apply (grace_tick grace rt w g).
Qed.

(** Idling never oversleeps. For a runtime whose timer service was driven by
    any script, the timeout given to the reactor is within the idle cap, and it
    expires no later than the fire instant of any pending deadline or delayed
    send, or the drain grace. *)
Theorem idle_never_oversleeps (t : Table X M) (q : ReadyQueue) (ops : list (ServiceOp M)) (now : Instant)
    (Hrange : forallb op_in_range ops = true) (Hlen : Z.of_nat (length ops) < 2 ^ 64) :
  let s := snd (service_run (service_new (W := TimerWheel M)) ops) in
  let timeout := idle_timeout now (mkRuntime t q s) in
  0 <= timeout <= IDLE_CAP_IDLE /\
  (any_active t = true -> timeout <= IDLE_CAP_ACTIVE) /\
  (forall e, e ∈ entries (wheel s) -> now + timeout <= Z.max now (entry_fire_at e)) /\
  (forall g, grace_deadline s = Some g -> now + timeout <= Z.max now g).
Proof.
  cbv zeta. destruct (service_run_refines ops _ _ service_new_refines Hrange ltac:(simpl; lia)) as [_ HR].
  destruct (next_fire_bound _ _ HR) as [He Hg]. destruct HR as (_ & Hp & _ & Hgr & _).
  unfold idle_timeout, IDLE_CAP_IDLE, IDLE_CAP_ACTIVE, NANOS_PER_MILLI. cbn [core timers].
  set (s := snd (service_run _ ops)) in *.
  split; [destruct (any_active t), (next_fire s); lia|].
  split; [intros ->; destruct (next_fire s); lia|]. split.
  - intros e Hin. rewrite Hp in Hin. destruct (He e Hin) as (f & -> & Hf). destruct (any_active t); lia.
  - intros g Hg'. rewrite Hgr in Hg'. destruct (Hg g Hg') as (f & -> & Hf). destruct (any_active t); lia.
Qed.
End Theorems.

(** ** A concrete host

    The clock advances ten units per reading, the signals fire once, no
    descriptor becomes ready, and every process runs one slice and yields. *)
Section Sample.
#[local] Instance sample_source : MessageSource Envelope := {|
  lifecycle_message _ := mkEnvelope 1 [TAG_LIFECYCLE] ZERO None 1 0;
  io_ready_message _ _ := mkEnvelope 1 [TAG_IO_READY] ZERO None 1 0;
|}.

#[local] Instance sample_host : Host Z Envelope (Z * list Lifecycle) := {|
  clock_now w := (fst w, (fst w + 10, snd w));
  signals_install w := w;
  signals_drain w := (snd w, (fst w, []));
  reactor_poll _ w := ([], w);
  executor_resume pid rt w := (set_core rt (snd (yield_running pid (core rt))), w);
|}.

Lemma sample_contract : resume_contract (X := Z) (M := Envelope) (W := Z * list Lifecycle).
Proof. intros pid rt w Hon. apply rtc_once. by apply ad_yield. Qed.

(** The entry process, spawned and queued. *)
Definition sample_boot : CooperativeRuntime Z Envelope :=
  enqueue (Some (mkWake pid_root Normal)) (set_core runtime_new (snd (spawn 10 None table_new))).

Lemma sample_booted : adapter_run 0 runtime_new sample_boot.
Proof.
  apply rtc_once. apply (ad_spawn 0 runtime_new 10 None pid_root); [vm_compute; reflexivity|].
  vm_compute. reflexivity.
Qed.

Lemma driver_never_strands_witness :
  exists p, p ∈ queued (snd (fst (run_driver 15 1 sample_boot (0, [])))) /\ pid_slot p = 0%nat.
Proof.
  pose proof (driver_never_strands 15 1 0 sample_boot (0, []) sample_contract sample_booted) as Hd.
  destruct (run_driver 15 1 sample_boot (0, [])) as [[stop rt] w] eqn:Er. destruct Hd as [Hd _].
  destruct (arena (core rt) !! 0%nat) as [s|] eqn:E.
  - destruct (Hd 0%nat s E) as (p & Hp & Hs & _).
    + vm_compute in Er. injection Er as <- <- <-. vm_compute in E. injection E as <-. vm_compute. reflexivity.
    + exact (ex_intro _ p (conj Hp Hs)).
  - vm_compute in Er. injection Er as <- <- <-. vm_compute in E. discriminate E.
Defined.

Definition sample_drained := run_driver 15 1 sample_boot (0, [Shutdown]).

Lemma grace_deadline_stops_witness :
  fst (fst (tick 15 (snd (fst sample_drained)) (snd sample_drained))) = true.
Proof.
  apply (grace_deadline_stops 15 1 0 sample_boot (0, [Shutdown]) (snd (fst sample_drained))
    (snd sample_drained) 15 sample_contract sample_booted); vm_compute; congruence.
Defined.

Lemma idle_never_oversleeps_witness :
  0 <= idle_timeout 3 (mkRuntime (table_new : Table Z Z) queue_new
    (snd (service_run (service_new (W := TimerWheel Z)) [ArmDeadline 1 5]))) <= IDLE_CAP_IDLE.
Proof.
  exact (proj1 (idle_never_oversleeps (table_new : Table Z Z) queue_new [ArmDeadline 1 5] 3 eq_refl eq_refl)).
Defined.
End Sample.
