(* ===== verification/Graph.v ===== *)
(** * The graph algorithms of the compiler

    Models [koja-graph/src]: the dependency graph with its edge bookkeeping,
    Kahn's topological sort, breadth-first reachability, the depth-first search
    for a cycle through a node, and the depth-first back edges. A [BTreeMap] is a
    [gmap] whose keys are read in ascending order, a [BTreeSet] a [gset], a
    [VecDeque] a list. Loops and recursive walks take fuel; the theorems give the
    amount that is always enough, so none of them is conditional on fuel. *)

From S2P Require Import Prelude.

Lemma tc_sub {A} (R R' : relation A) a b : (forall x y, R x y -> R' x y) -> tc R a b -> tc R' a b.
Proof. intros HR. induction 1 as [x y H|x y z H _ IH]; [by apply tc_once, HR|eapply tc_l; [by apply HR|done]]. Qed.

Section Graph.
Context {K : Type} `{Countable K} (le : K -> K -> Prop) `{!RelDecision le}.

Record Graph := mkGraph { edges : gmap K (list K) }.

Definition graph_new : Graph := mkGraph ∅.

Definition add_node (node : K) (g : Graph) : Graph :=
  match edges g !! node with
  | Some _ => g
  | None => mkGraph (<[node := []]> (edges g))
  end.

Definition add_edge (from to : K) (g : Graph) : Graph :=
  let g := add_node to g in
  let targets := default [] (edges g !! from) in
  mkGraph (<[from := if bool_decide (to ∈ targets) then targets else targets ++ [to]]> (edges g)).

Definition dependencies (g : Graph) (node : K) : list K := default [] (edges g !! node).

Definition graph_is_empty (g : Graph) : bool := bool_decide (edges g = ∅).

Definition graph_len (g : Graph) : nat := size (edges g).

(** [nodes]: the keys in ascending order. *)
Definition nodes (g : Graph) : list K := merge_sort le (elements (dom (edges g))).

(** ** Topological sort *)

Record Order := mkOrder { order_ready : list K; stuck : list K }.

(** [dependents.entry(dependency).or_default().push(node)]. *)
Definition push_dependent (node : K) (m : gmap K (list K)) (dependency : K) : gmap K (list K) :=
  <[dependency := default [] (m !! dependency) ++ [node]]> m.

Definition dependents (g : Graph) : gmap K (list K) :=
  fold_left (fun m node => fold_left (push_dependent node) (dependencies g node) m) (nodes g) ∅.

(** The inner loop over one node's dependents. [None] is a panic: a dependent
    that is not in [pending], or a count that would pass below zero. *)
Fixpoint release (deps : list K) (pending : gmap K nat) (queue : list K)
    : option (gmap K nat * list K) :=
  match deps with
  | [] => Some (pending, queue)
  | d :: rest =>
      match pending !! d with
      | Some (S count) =>
          release rest (<[d := count]> pending) (if (count =? 0)%nat then queue ++ [d] else queue)
      | _ => None
      end
  end.

Fixpoint kahn (fuel : nat) (dependents : gmap K (list K)) (pending : gmap K nat)
    (queue ready : list K) : option (gmap K nat * list K) :=
  match fuel with
  | O => None
  | S fuel =>
      match queue with
      | [] => Some (pending, ready)
      | node :: queue =>
          match release (default [] (dependents !! node)) pending queue with
          | None => None
          | Some (pending, queue) => kahn fuel dependents pending queue (ready ++ [node])
          end
      end
  end.

Definition initial_pending (g : Graph) : gmap K nat := length <$> edges g.

Definition toposort (g : Graph) : option Order :=
  let pending := initial_pending g in
  let queue := List.filter (fun n => (default 1 (pending !! n) =? 0)%nat) (nodes g) in
  match kahn (S (length (nodes g))) (dependents g) pending queue [] with
  | None => None
  | Some (pending, ready) =>
      Some (mkOrder ready (List.filter (fun n => (0 <? default 0 (pending !! n))%nat) (nodes g)))
  end.

(** ** Reachability *)

(** One pass over a node's dependencies: [seen.insert] and [queue.push_back]. *)
Fixpoint visit (deps : list K) (seen : gset K) (queue : list K) : gset K * list K :=
  match deps with
  | [] => (seen, queue)
  | d :: rest =>
      if bool_decide (d ∈ seen) then visit rest seen queue
      else visit rest ({[d]} ∪ seen) (queue ++ [d])
  end.

Fixpoint bfs (fuel : nat) (g : Graph) (seen : gset K) (queue order : list K) : option (list K) :=
  match fuel with
  | O => None
  | S fuel =>
      match queue with
      | [] => Some order
      | node :: queue =>
          let (seen, queue) := visit (dependencies g node) seen queue in
          bfs fuel g seen queue (order ++ [node])
      end
  end.

(** One iteration per node, one for an unknown start, one to see the queue empty. *)
Definition reachable (g : Graph) (start : K) : option (list K) :=
  bfs (S (S (length (nodes g)))) g {[start]} [start] [].

(** ** A cycle through a node *)

(** [Search::walk], on the path stack and the visited set; [cycle_scan] is its loop
    over the dependencies. [None] is out of fuel. *)
Fixpoint cycle_scan (walk : K -> list K -> gset K -> option (bool * list K * gset K)) (start : K)
    (within : gset K) (deps : list K) (path : list K) (visited : gset K)
    : option (bool * list K * gset K) :=
  match deps with
  | [] => Some (false, path, visited)
  | d :: rest =>
      if bool_decide (d = start) then Some (true, path, visited)
      else if negb (bool_decide (d ∈ within)) || bool_decide (d ∈ visited)
      then cycle_scan walk start within rest path visited
      else
        match walk d (path ++ [d]) ({[d]} ∪ visited) with
        | None => None
        | Some (true, path', visited') => Some (true, path', visited')
        | Some (false, path', visited') => cycle_scan walk start within rest (removelast path') visited'
        end
  end.

Fixpoint cycle_walk (fuel : nat) (g : Graph) (start : K) (within : gset K) (current : K)
    (path : list K) (visited : gset K) : option (bool * list K * gset K) :=
  match fuel with
  | O => None
  | S fuel =>
      cycle_scan (cycle_walk fuel g start within) start within (dependencies g current) path visited
  end.

(** The recursion enters each node of [within] at most once. *)
Definition cycle_path (g : Graph) (start : K) (within : gset K) : option (option (list K)) :=
  match cycle_walk (S (size within)) g start within start [] {[start]} with
  | None => None
  | Some (found, path, _) => Some (if found : bool then Some path else None)
  end.

(** ** Back edges *)

Record BackSearch := mkBack { finished : gset K; found : list (K * K); on_stack : gset K }.

(** The loop of [walk] over [node]'s dependencies. *)
Fixpoint back_scan (walk : K -> BackSearch -> option BackSearch) (node : K) (deps : list K)
    (s : BackSearch) : option BackSearch :=
  match deps with
  | [] => Some s
  | d :: rest =>
      if bool_decide (d ∈ on_stack s)
      then back_scan walk node rest (mkBack (finished s) (found s ++ [(node, d)]) (on_stack s))
      else if bool_decide (d ∈ finished s) then back_scan walk node rest s
      else match walk d s with None => None | Some s => back_scan walk node rest s end
  end.

Fixpoint back_walk (fuel : nat) (g : Graph) (node : K) (s : BackSearch) : option BackSearch :=
  match fuel with
  | O => None
  | S fuel =>
      match back_scan (back_walk fuel g) node (dependencies g node)
              (mkBack (finished s) (found s) ({[node]} ∪ on_stack s)) with
      | None => None
      | Some s => Some (mkBack ({[node]} ∪ finished s) (found s) (on_stack s ∖ {[node]}))
      end
  end.

Fixpoint back_roots (g : Graph) (roots : list K) (s : BackSearch) : option BackSearch :=
  match roots with
  | [] => Some s
  | node :: rest =>
      if bool_decide (node ∈ finished s) then back_roots g rest s
      else match back_walk (S (length (nodes g))) g node s with
           | None => None
           | Some s => back_roots g rest s
           end
  end.

Definition back_edges (g : Graph) : option (list (K * K)) :=
  found <$> back_roots g (nodes g) (mkBack ∅ [] ∅).

(** ** Well-formed graphs *)

Inductive GraphOp := AddNode (node : K) | AddEdge (from to : K).

Definition graph_step (g : Graph) (op : GraphOp) : Graph :=
  match op with AddNode n => add_node n g | AddEdge a b => add_edge a b g end.

Definition build (ops : list GraphOp) : Graph := fold_left graph_step ops graph_new.

Definition edge (g : Graph) (a b : K) : Prop := b ∈ dependencies g a.

Definition graph_wf (g : Graph) : Prop :=
  forall n ds, edges g !! n = Some ds -> NoDup ds /\ forall d, d ∈ ds -> is_Some (edges g !! d).

Lemma add_node_lookup n g k :
  edges (add_node n g) !! k =
    if decide (k = n) then Some (default [] (edges g !! n)) else edges g !! k.
Proof.
  unfold add_node. destruct (edges g !! n) as [l|] eqn:E; case_decide; subst; simpl.
  - done.
  - done.
  - by rewrite lookup_insert_eq.
  - by rewrite lookup_insert_ne.
Qed.

Lemma add_node_nodes n g k : is_Some (edges (add_node n g) !! k) <-> k = n \/ is_Some (edges g !! k).
Proof. rewrite add_node_lookup. case_decide; naive_solver. Qed.

Lemma add_edge_nodes a b g k :
  is_Some (edges (add_edge a b g) !! k) <-> k = a \/ k = b \/ is_Some (edges g !! k).
Proof.
  unfold add_edge. simpl. destruct (decide (a = k)) as [<-|Hne].
  - rewrite lookup_insert_eq. naive_solver.
  - rewrite lookup_insert_ne, add_node_nodes by done. naive_solver.
Qed.

Lemma add_node_wf n g : graph_wf g -> graph_wf (add_node n g).
Proof.
  intros Hg k ds. rewrite add_node_lookup. case_decide as Hk.
  - intros [= <-]. destruct (edges g !! n) as [l|] eqn:E; simpl; [|split; [constructor|set_solver]].
    destruct (Hg n l E) as [? Hd]. split; [done|]. intros d Hin. rewrite add_node_lookup.
    case_decide; [done|]. by apply Hd.
  - intros E. destruct (Hg k ds E) as [? Hd]. split; [done|]. intros d Hin. rewrite add_node_lookup.
    case_decide; [done|]. by apply Hd.
Qed.

Lemma add_edge_wf a b g : graph_wf g -> graph_wf (add_edge a b g).
Proof.
  intros Hg. apply (add_node_wf b) in Hg. unfold add_edge.
  assert (is_Some (edges (add_node b g) !! b)) as Hb by (rewrite add_node_lookup; by case_decide).
  set (g1 := add_node b g) in *. clearbody g1.
  assert (forall d l, is_Some (edges g1 !! d) -> is_Some (<[a:=l]> (edges g1) !! d)) as Hkeep.
  { intros d l Hd. destruct (decide (a = d)) as [->|]; [by rewrite lookup_insert_eq|by rewrite lookup_insert_ne]. }
  intros k ds. simpl. rewrite lookup_insert_Some. intros [[<- <-]|[Hne E]].
  - assert (NoDup (default [] (edges g1 !! a)) /\ forall d, d ∈ default [] (edges g1 !! a) -> is_Some (edges g1 !! d))
      as [Hnd Hin] by (destruct (edges g1 !! a) as [l|] eqn:E; simpl; [by apply (Hg a)|split; [constructor|set_solver]]).
    case_bool_decide as Hbin.
    + split; [done|]. intros d Hd. by apply Hkeep, Hin.
    + split.
      * apply NoDup_app. split; [done|]. split; [|apply NoDup_singleton]. set_solver.
      * intros d [Hd|Hd]%elem_of_app; [by apply Hkeep, Hin|]. apply list_elem_of_singleton in Hd as ->. by apply Hkeep.
  - destruct (Hg k ds E) as [? Hin]. split; [done|]. intros d Hd. by apply Hkeep, Hin.
Qed.

Lemma build_wf ops : graph_wf (build ops).
Proof.
  unfold build. assert (graph_wf graph_new) as Hg by (intros k ds; simpl; by rewrite lookup_empty).
  revert Hg. generalize graph_new. induction ops as [|op ops IH]; intros g Hg; simpl; [done|].
  apply IH. destruct op; [by apply add_node_wf|by apply add_edge_wf].
Qed.

Lemma add_node_edge n g a b : edge (add_node n g) a b <-> edge g a b.
Proof.
  unfold edge, dependencies. rewrite add_node_lookup. case_decide; [subst|done].
  by destruct (edges g !! n).
Qed.

Lemma add_edge_edge x y g a b : edge (add_edge x y g) a b <-> (x = a /\ y = b) \/ edge g a b.
Proof.
  rewrite <- (add_node_edge y g). unfold add_edge. set (g1 := add_node y g). unfold edge, dependencies. simpl.
  destruct (decide (x = a)) as [->|Hne].
  - rewrite lookup_insert_eq. simpl. case_bool_decide; [|rewrite elem_of_app, list_elem_of_singleton]; naive_solver.
  - rewrite lookup_insert_ne by done. naive_solver.
Qed.

(** The edges of a graph are those added. *)
Lemma build_edge ops a b : edge (build ops) a b <-> AddEdge a b ∈ ops.
Proof.
  unfold build. assert (forall g, edge (fold_left graph_step ops g) a b <-> AddEdge a b ∈ ops \/ edge g a b) as Hops.
  { induction ops as [|[n|x y] ops IH]; intros g; simpl.
    - set_solver.
    - rewrite IH, add_node_edge. set_solver.
    - rewrite IH, add_edge_edge. set_solver. }
  rewrite Hops. unfold edge, dependencies. simpl. rewrite lookup_empty. set_solver.
Qed.

Lemma elem_nodes g n : n ∈ nodes g <-> is_Some (edges g !! n).
Proof. unfold nodes. rewrite merge_sort_Permutation, elem_of_elements. apply elem_of_dom. Qed.

Lemma nodes_nodup g : NoDup (nodes g).
Proof. unfold nodes. rewrite merge_sort_Permutation. apply NoDup_elements. Qed.

Lemma deps_nodup g n : graph_wf g -> NoDup (dependencies g n).
Proof.
  intros Hg. unfold dependencies. destruct (edges g !! n) as [l|] eqn:E; simpl; [by apply (Hg n)|constructor].
Qed.

Lemma deps_nodes g n d : graph_wf g -> d ∈ dependencies g n -> n ∈ nodes g /\ d ∈ nodes g.
Proof.
  intros Hg. unfold dependencies. rewrite !elem_nodes. destruct (edges g !! n) as [l|] eqn:E; simpl; [|set_solver].
  intros Hd. split; [done|]. by apply (Hg n l E).
Qed.

(** ** Ordered lists *)

(** Every element's successors come earlier in the list. *)
Definition ordered (R : relation K) (l : list K) : Prop :=
  forall l1 n l2, l = l1 ++ n :: l2 -> forall d, R n d -> d ∈ l1.

Lemma ordered_snoc R l x : ordered R l -> (forall d, R x d -> d ∈ l) -> ordered R (l ++ [x]).
Proof.
  intros Ho Hx l1 n l2 Heq d Hd. destruct (decide (l2 = [])) as [->|Hl2].
  - apply app_inj_tail in Heq as [<- <-]. auto.
  - destruct (exists_last Hl2) as (l2' & y & ->). rewrite app_comm_cons, app_assoc in Heq.
    apply app_inj_tail in Heq as [Heq _]. eauto.
Qed.

Lemma ordered_weaken (R R' : relation K) l : (forall a b, R' a b -> R a b) -> ordered R l -> ordered R' l.
Proof. intros HR Ho l1 n l2 E d Hd. eauto. Qed.

Lemma ordered_acyclic R l n : NoDup l -> ordered R l -> n ∈ l -> ~ tc R n n.
Proof.
  intros Hnd Ho Hn Hc.
  assert (forall a b, tc R a b -> forall l1 l2, l = l1 ++ a :: l2 -> b ∈ l1) as Hlt.
  { intros a b Hab. induction Hab as [a b Hab|a b c Hab _ IH]; intros l1 l2 E; [by apply (Ho l1 a l2)|].
    pose proof (Ho l1 a l2 E b Hab) as Hb. apply list_elem_of_split in Hb as (k1 & k2 & ->).
    apply elem_of_app. left. apply (IH k1 (k2 ++ a :: l2)). rewrite E, <- app_assoc. done. }
  apply list_elem_of_split in Hn as (l1 & l2 & E). specialize (Hlt n n Hc l1 l2 E).
  rewrite E in Hnd. apply NoDup_app in Hnd as (_ & Hd & _). apply (Hd n Hlt). by left.
Qed.

(** ** Kahn's algorithm *)

(** The dependents of [k], in node order. *)
Definition dependents_of (g : Graph) (k : K) : list K :=
  List.filter (fun n => bool_decide (k ∈ dependencies g n)) (nodes g).

Lemma push_dependents_lookup n ds m k :
  NoDup ds ->
  default [] (fold_left (push_dependent n) ds m !! k) =
    default [] (m !! k) ++ (if bool_decide (k ∈ ds) then [n] else []).
Proof.
  intros Hnd. revert m. induction Hnd as [|d ds Hd _ IH]; intros m; cbn [fold_left].
  - rewrite bool_decide_false by set_solver. by rewrite app_nil_r.
  - rewrite IH. unfold push_dependent. destruct (decide (k = d)) as [->|Hne].
    + rewrite lookup_insert_eq. simpl. rewrite (bool_decide_false (d ∈ ds)) by done.
      rewrite bool_decide_true by set_solver. by rewrite app_nil_r.
    + rewrite lookup_insert_ne by done. f_equal.
      by destruct (decide (k ∈ ds)); [rewrite !bool_decide_true by set_solver|rewrite !bool_decide_false by set_solver].
Qed.

Lemma dependents_lookup g k : graph_wf g -> default [] (dependents g !! k) = dependents_of g k.
Proof.
  intros Hg. unfold dependents, dependents_of.
  assert (forall l (m : gmap K (list K)), default [] (fold_left (fun m node => fold_left (push_dependent node) (dependencies g node) m) l m !! k) =
    default [] (m !! k) ++ List.filter (fun n => bool_decide (k ∈ dependencies g n)) l) as Hl.
  { induction l as [|n l IH]; intros m; simpl; [by rewrite app_nil_r|].
    rewrite IH, push_dependents_lookup by (by apply deps_nodup). by destruct (bool_decide _); rewrite <- ?app_assoc, ?app_nil_r. }
  by rewrite Hl, lookup_empty.
Qed.

Lemma filterb_nodup {A} (f : A -> bool) l : NoDup l -> NoDup (List.filter f l).
Proof.
  induction 1 as [|x l Hx _ IH]; simpl; [constructor|]. destruct (f x); [|done].
  constructor; [|done]. rewrite filterb_elem. tauto.
Qed.

(** A pass over distinct dependents with positive counts. *)
Lemma release_ok ds : forall (p : gmap K nat) (q : list K),
  NoDup ds -> (forall d, d ∈ ds -> exists c, p !! d = Some (S c)) ->
  exists p', release ds p q =
      Some (p', q ++ List.filter (fun d => bool_decide (p !! d = Some 1%nat)) ds) /\
    forall k, p' !! k = if bool_decide (k ∈ ds) then pred <$> p !! k else p !! k.
Proof.
  induction ds as [|d ds IH]; intros p q Hnd Hp; cbn [release List.filter].
  - exists p. split; [by rewrite app_nil_r|]. intros k. by rewrite bool_decide_false by set_solver.
  - apply NoDup_cons in Hnd as [Hd Hnd]. destruct (Hp d ltac:(set_solver)) as [c Hc]. rewrite Hc.
    destruct (IH (<[d:=c]> p) (if (c =? 0)%nat then q ++ [d] else q) Hnd) as (p' & E & Hp').
    { intros k Hk. rewrite lookup_insert_ne by set_solver. apply Hp. set_solver. }
    exists p'. rewrite E. split.
    + do 2 f_equal. assert (List.filter (fun k => bool_decide (<[d:=c]> p !! k = Some 1%nat)) ds =
        List.filter (fun k => bool_decide (p !! k = Some 1%nat)) ds) as ->.
      { apply List.filter_ext_in. intros k Hk. rewrite lookup_insert_ne; [done|].
        intros ->. by apply Hd, list_elem_of_In. }
      destruct c as [|c]; simpl; by rewrite <- ?app_assoc.
    + intros k. rewrite Hp'. destruct (decide (k = d)) as [->|Hne].
      * rewrite (bool_decide_false (d ∈ ds)), bool_decide_true, lookup_insert_eq, Hc by set_solver. done.
      * rewrite lookup_insert_ne by done.
        by destruct (decide (k ∈ ds)); [rewrite !bool_decide_true by set_solver|rewrite !bool_decide_false by set_solver].
Qed.

(** Dependencies of [n] not yet ordered. *)
Definition missing (g : Graph) (ready : list K) (n : K) : list K :=
  List.filter (fun d => negb (bool_decide (d ∈ ready))) (dependencies g n).

Record kahn_inv (g : Graph) (p : gmap K nat) (q ready : list K) : Prop := {
  kahn_nodup : NoDup (ready ++ q);
  kahn_nodes : forall n, n ∈ ready ++ q -> n ∈ nodes g;
  kahn_pending : forall n, n ∈ nodes g -> p !! n = Some (length (missing g ready n));
  kahn_zero : forall n, n ∈ nodes g -> (n ∈ ready ++ q <-> missing g ready n = []);
  kahn_order : ordered (edge g) ready;
}.

Lemma missing_nil g ready n : missing g ready n = [] <-> forall d, d ∈ dependencies g n -> d ∈ ready.
Proof.
  unfold missing. split.
  - intros E d Hd. destruct (decide (d ∈ ready)) as [|Hn]; [done|].
    assert (d ∈ ([] : list K)) as Hin by (rewrite <- E; apply filterb_elem; by rewrite bool_decide_false).
    by apply not_elem_of_nil in Hin.
  - intros Hall. apply filterb_none. intros d Hd. by rewrite bool_decide_true by auto.
Qed.

(** Ordering [x] removes it from every list it was missing in. *)
Lemma missing_step g ready x n :
  graph_wf g -> x ∉ ready ->
  length (missing g (ready ++ [x]) n) =
    if bool_decide (x ∈ dependencies g n) then pred (length (missing g ready n)) else length (missing g ready n).
Proof.
  intros Hg Hx. unfold missing. pose proof (deps_nodup g n Hg) as Hnd.
  induction Hnd as [|d ds Hd _ IH]; cbn [List.filter]; [by rewrite bool_decide_false by set_solver|].
  destruct (decide (d = x)) as [->|Hne].
  - rewrite (bool_decide_true (x ∈ ready ++ [x])), (bool_decide_false (x ∈ ready)), (bool_decide_true (x ∈ x :: ds))
      by set_solver. simpl. f_equal. apply List.filter_ext_in. intros k Hk. do 2 f_equal.
    apply list_elem_of_In in Hk. destruct (decide (k ∈ ready)); [rewrite !bool_decide_true by set_solver; done|].
    rewrite !bool_decide_false; [done|done|]. intros [Hr|Hk']%elem_of_app; [done|].
    apply list_elem_of_singleton in Hk'. by subst.
  - replace (bool_decide (d ∈ ready ++ [x])) with (bool_decide (d ∈ ready))
      by (apply bool_decide_ext; set_solver).
    replace (bool_decide (x ∈ d :: ds)) with (bool_decide (x ∈ ds)) by (apply bool_decide_ext; set_solver).
    destruct (bool_decide (d ∈ ready)); simpl; [exact IH|]. rewrite IH.
    case_bool_decide as Hin; [|done].
    destruct (List.filter (fun k => negb (bool_decide (k ∈ ready))) ds) as [|y l] eqn:E; [|simpl; lia]. exfalso.
    assert (x ∈ ([] : list K)) as Hnil by (rewrite <- E; apply filterb_elem; by rewrite bool_decide_false).
    by apply not_elem_of_nil in Hnil.
Qed.

Lemma dependents_of_elem g x n : graph_wf g -> n ∈ dependents_of g x <-> x ∈ dependencies g n.
Proof.
  intros Hg. unfold dependents_of. rewrite filterb_elem, bool_decide_eq_true. split; [tauto|].
  intros Hx. split; [|done]. by apply (deps_nodes g n x Hg).
Qed.

(** The nodes a step of Kahn's loop makes ready. *)
Lemma newly_ready g p q ready x n :
  graph_wf g -> kahn_inv g p (x :: q) ready -> n ∈ nodes g ->
  (n ∈ List.filter (fun d => bool_decide (p !! d = Some 1%nat)) (dependents_of g x) <->
   missing g ready n <> [] /\ missing g (ready ++ [x]) n = []).
Proof.
  intros Hg [Hnd Hin Hp Hz Ho] Hn. rewrite filterb_elem, bool_decide_eq_true, dependents_of_elem by done.
  assert (x ∉ ready) as Hx by (apply NoDup_app in Hnd as (_ & Hnd & _); set_solver).
  pose proof (missing_step g ready x n Hg Hx) as Hs. rewrite (Hp n Hn).
  destruct (missing g ready n) as [|m1 l] eqn:E1.
  - split; [intros [_ [=]]|tauto].
  - destruct (missing g (ready ++ [x]) n) as [|m2 l2] eqn:E2; simpl in Hs.
    + case_bool_decide as Hd; [|done]. destruct l; [|done]. naive_solver.
    + split; [|naive_solver]. intros [Hd [= ->%length_zero_iff_nil]]. by rewrite bool_decide_true in Hs.
Qed.

Lemma kahn_inv_step g p q ready x :
  graph_wf g -> kahn_inv g p (x :: q) ready ->
  exists p' q', release (dependents_of g x) p q = Some (p', q') /\ kahn_inv g p' q' (ready ++ [x]).
Proof.
  intros Hg Hinv. pose proof Hinv as [Hnd Hin Hp Hz Ho].
  assert (x ∉ ready) as Hx by (apply NoDup_app in Hnd as (_ & Hnd & _); set_solver).
  assert (NoDup (dependents_of g x)) as Hdn by (apply filterb_nodup, nodes_nodup).
  destruct (release_ok (dependents_of g x) p q Hdn) as (p' & E & Hp').
  { intros d Hd. assert (d ∈ nodes g) as Hdn' by (by unfold dependents_of in Hd; apply filterb_elem in Hd as [? _]).
    rewrite (Hp d Hdn'). apply dependents_of_elem in Hd; [|done].
    destruct (missing g ready d) as [|m l] eqn:Em; [|simpl; eauto].
    exfalso. apply Hx. by apply (proj1 (missing_nil g ready d) Em). }
  set (nq := List.filter _ (dependents_of g x)) in E.
  exists p', (q ++ nq). split; [exact E|].
  assert (forall n, n ∈ nq -> n ∈ nodes g) as Hnqn.
  { intros n Hn. unfold nq, dependents_of in Hn. by apply filterb_elem in Hn as [[? _]%filterb_elem _]. }
  assert (forall n, n ∈ ready ++ x :: q -> n ∈ nq -> False) as Hdisj.
  { intros n Hn Hq. pose proof (newly_ready g p q ready x n Hg Hinv (Hnqn n Hq)) as Hnr.
    apply Hnr in Hq as [Hq _]. apply Hq. by apply Hz; [apply Hin|]. }
  constructor.
  - rewrite <- app_assoc. change (NoDup (ready ++ (x :: q) ++ nq)). rewrite app_assoc. apply NoDup_app.
    split; [done|]. split; [exact Hdisj|]. by apply filterb_nodup.
  - intros n. rewrite <- app_assoc. intros Hn. destruct (decide (n ∈ nq)) as [|Hno]; [auto|]. apply Hin. set_solver.
  - intros n Hn. rewrite Hp', (Hp n Hn), (missing_step g ready x n Hg Hx).
    destruct (bool_decide (n ∈ dependents_of g x)) eqn:Ed; bool_to_prop.
    + rewrite dependents_of_elem in Ed by done. by rewrite bool_decide_true.
    + rewrite dependents_of_elem in Ed by done. by rewrite bool_decide_false.
  - intros n Hn. pose proof (newly_ready g p q ready x n Hg Hinv Hn) as Hnr. fold nq in Hnr.
    specialize (Hz n Hn).
    assert (missing g ready n = [] -> missing g (ready ++ [x]) n = []) as Hmono
      by (rewrite !missing_nil; intros Hm d Hd; apply elem_of_app; left; auto).
    assert (n ∈ (ready ++ [x]) ++ q ++ nq <-> n ∈ ready ++ x :: q \/ n ∈ nq) as -> by set_solver.
    rewrite Hz, Hnr. split; [intros [?|[_ ?]]; auto|].
    intros Hm. destruct (missing g ready n) eqn:E0; [by left|right; done].
  - apply ordered_snoc; [done|]. apply (proj1 (missing_nil g ready x)), Hz; [apply Hin|]; set_solver.
Qed.

(** Enough fuel: one iteration per node left, and one to see the queue empty. *)
Lemma kahn_total g fuel p q ready :
  graph_wf g -> kahn_inv g p q ready -> (length (nodes g) < fuel + length ready)%nat ->
  exists p' ready', kahn fuel (dependents g) p q ready = Some (p', ready') /\ kahn_inv g p' [] ready'.
Proof.
  intros Hg. revert p q ready. induction fuel as [|fuel IH]; intros p q ready Hinv Hf; cbn [kahn].
  - exfalso. destruct Hinv as [Hnd Hin _ _ _]. apply NoDup_app in Hnd as (Hnd & _ & _).
    assert (length ready <= length (nodes g))%nat; [|lia]. apply submseteq_length, NoDup_submseteq; [done|].
    intros n Hn. apply Hin. set_solver.
  - destruct q as [|x q]; [eauto|]. rewrite dependents_lookup by done.
    destruct (kahn_inv_step g p q ready x Hg Hinv) as (p' & q' & -> & Hinv').
    apply IH; [done|]. rewrite length_app. simpl. lia.
Qed.

Lemma kahn_inv_start g :
  graph_wf g ->
  kahn_inv g (initial_pending g)
    (List.filter (fun n => (default 1 (initial_pending g !! n) =? 0)%nat) (nodes g)) [].
Proof.
  intros Hg. assert (forall n, missing g [] n = dependencies g n) as Hm.
  { intros n. apply filterb_all. intros d _. by rewrite bool_decide_false by set_solver. }
  constructor; simpl.
  - apply filterb_nodup, nodes_nodup.
  - intros n Hn. by apply filterb_elem in Hn as [? _].
  - intros n Hn. rewrite Hm. unfold initial_pending, dependencies. rewrite lookup_fmap.
    apply elem_nodes in Hn as [l ->]. done.
  - intros n Hn. rewrite filterb_elem, Hm. unfold initial_pending, dependencies. rewrite lookup_fmap.
    pose proof Hn as Hn'. apply elem_nodes in Hn' as [l ->]. simpl. rewrite Nat.eqb_eq, length_zero_iff_nil. tauto.
  - intros [] n l2 [=].
Qed.

(** A set every element of which has a successor in the set leads into a cycle. *)
Lemma successors_cycle (R : relation K) (S : gset K) (n : K) :
  (forall a, a ∈ S -> exists b, b ∈ S /\ R a b) -> n ∈ S -> exists m, rtc R n m /\ tc R m m.
Proof.
  intros HS Hn.
  enough (forall k (V : gset K) n, (size (S ∖ V) <= k)%nat -> n ∈ S -> (forall v, v ∈ V -> tc R v n) ->
    exists m, rtc R n m /\ tc R m m) as Hk by (apply (Hk (size S) ∅ n); [|done|set_solver]; apply subseteq_size; set_solver).
  clear n Hn. induction k as [|k IH]; intros V n Hsz Hn HV.
  - assert (n ∈ V) as Hv.
    { destruct (decide (n ∈ V)); [done|]. assert (size (S ∖ V) <> 0%nat); [|lia].
      apply size_non_empty_iff. set_solver. }
    exists n. split; [apply rtc_refl|auto].
  - destruct (decide (n ∈ V)) as [Hv|Hv]; [exists n; split; [apply rtc_refl|auto]|].
    destruct (HS n Hn) as (b & Hb & Hnb).
    destruct (IH ({[n]} ∪ V) b) as (m & Hbm & Hmm).
    + assert (S ∖ ({[n]} ∪ V) ⊂ S ∖ V) as Hsub.
      { split; [set_solver|]. intros Hc. assert (n ∈ S ∖ ({[n]} ∪ V)) as Hin by (apply Hc; set_solver). set_solver. }
      apply subset_size in Hsub. lia.
    + done.
    + intros v [->%elem_of_singleton|Hin]%elem_of_union; [by apply tc_once|]. eapply tc_r; eauto.
    + exists m. split; [by eapply rtc_l|done].
Qed.

Lemma kahn_reach g p ready n m :
  graph_wf g -> kahn_inv g p [] ready -> n ∈ ready -> rtc (edge g) n m -> m ∈ ready.
Proof.
  intros Hg [_ _ _ _ Ho] Hn Hr. induction Hr as [|a b c Hab _ IH]; [done|]. apply IH.
  apply list_elem_of_split in Hn as (l1 & l2 & E). assert (b ∈ l1) as Hb by (by apply (Ho l1 a l2)).
  rewrite E. set_solver.
Qed.

Lemma kahn_stuck g p ready n :
  graph_wf g -> kahn_inv g p [] ready -> n ∈ nodes g ->
  (n ∉ ready <-> exists m, rtc (edge g) n m /\ tc (edge g) m m).
Proof.
  intros Hg Hinv Hn. pose proof Hinv as [Hnd Hin Hp Hz Ho]. rewrite app_nil_r in Hnd. split.
  - intros Hno. apply (successors_cycle (edge g) (list_to_set (nodes g) ∖ list_to_set ready) n); [|set_solver].
    intros a [Ha Har]%elem_of_difference. rewrite elem_of_list_to_set in Ha, Har.
    destruct (missing g ready a) as [|b l] eqn:E.
    + exfalso. apply Har. specialize (Hz a Ha). rewrite app_nil_r in Hz. by apply Hz.
    + assert (b ∈ missing g ready a) as Hb by (rewrite E; by left). apply filterb_elem in Hb as [Hb Hbr].
      apply negb_true_iff, bool_decide_eq_false in Hbr. exists b. split; [|done].
      apply elem_of_difference. rewrite !elem_of_list_to_set. split; [|done]. by apply (deps_nodes g a b Hg).
  - intros (m & Hnm & Hmm) Hr. pose proof (kahn_reach g p ready n m Hg Hinv Hr Hnm) as Hm.
    by apply (ordered_acyclic (edge g) ready m Hnd Ho Hm).
Qed.

(** The topological sort is correct and total. For every graph the builders can
    make it neither panics nor runs out of iterations; the nodes it orders and the
    stuck ones are together the nodes of the graph, each once; every ordered node
    comes after all its dependencies; and the stuck nodes are, in key order, exactly
    those from which a dependency cycle can be reached. *)
Theorem toposort_correct (ops : list GraphOp) :
  let g := build ops in
  exists ready stuck, toposort g = Some (mkOrder ready stuck) /\
    Permutation (ready ++ stuck) (nodes g) /\ NoDup (ready ++ stuck) /\
    (forall l1 n l2, ready = l1 ++ n :: l2 -> forall d, d ∈ dependencies g n -> d ∈ l1) /\
    (forall n, n ∈ stuck <-> n ∈ nodes g /\ exists m, rtc (edge g) n m /\ tc (edge g) m m) /\
    stuck `sublist_of` nodes g.
Proof.
  cbv zeta. set (g := build ops). assert (graph_wf g) as Hg by apply build_wf.
  destruct (kahn_total g (S (length (nodes g))) _ _ _ Hg (kahn_inv_start g Hg) ltac:(simpl; lia))
    as (p & ready & E & Hinv).
  unfold toposort. rewrite E. eexists _, _. split; [done|].
  pose proof Hinv as [Hnd Hin Hp Hz Ho]. rewrite app_nil_r in Hnd, Hin.
  assert (forall n, n ∈ nodes g -> (0 <? default 0 (p !! n))%nat = negb (bool_decide (n ∈ ready))) as Hst.
  { intros n Hn. rewrite (Hp n Hn). simpl. specialize (Hz n Hn). rewrite app_nil_r in Hz.
    destruct (missing g ready n) as [|m l]; simpl.
    - by rewrite bool_decide_true by (by apply Hz).
    - rewrite bool_decide_false; [done|]. intros Hr. apply Hz in Hr. done. }
  set (st := List.filter _ (nodes g)).
  assert (forall n, n ∈ st <-> n ∈ nodes g /\ n ∉ ready) as Hmem.
  { intros n. unfold st. rewrite filterb_elem. split.
    - intros [Hn Hf]. rewrite Hst in Hf by done. split; [done|]. by apply negb_true_iff, bool_decide_eq_false in Hf.
    - intros [Hn Hr]. split; [done|]. rewrite Hst by done. by rewrite bool_decide_false. }
  assert (NoDup (ready ++ st)) as Hall.
  { apply NoDup_app. split; [done|]. split; [|apply filterb_nodup, nodes_nodup]. intros n Hr Hs. by apply Hmem in Hs as [_ ?]. }
  split; [|split; [done|split; [done|split]]].
  - apply NoDup_Permutation; [done|apply nodes_nodup|]. intros n. rewrite elem_of_app, Hmem. split.
    + intros [?|[? _]]; auto.
    + intros Hn. destruct (decide (n ∈ ready)); auto.
  - intros n. rewrite Hmem. split; intros [Hn Hx]; (split; [done|]); by apply (kahn_stuck g p ready n Hg Hinv Hn).
  - unfold st. clear. induction (nodes g) as [|a l IH]; simpl; [constructor|].
    destruct (_ <? _)%nat; by constructor.
Qed.

(** ** Breadth-first reachability *)

Lemma visit_ok ds : forall (seen : gset K) (q : list K),
  exists new, visit ds seen q = (list_to_set new ∪ seen, q ++ new) /\ NoDup new /\
    forall k, k ∈ new <-> k ∈ ds /\ k ∉ seen.
Proof.
  induction ds as [|d ds IH]; intros seen q; simpl.
  - exists []. rewrite app_nil_r. split; [f_equal; set_solver|]. split; [constructor|set_solver].
  - case_bool_decide as Hd.
    + destruct (IH seen q) as (new & -> & Hnd & Hk). exists new. split; [done|]. split; [done|]. set_solver.
    + destruct (IH ({[d]} ∪ seen) (q ++ [d])) as (new & -> & Hnd & Hk). exists (d :: new).
      split; [f_equal; [set_solver|by rewrite <- app_assoc]|]. split; [constructor; [set_solver|done]|].
      intros k. destruct (decide (k = d)) as [->|]; set_solver.
Qed.

Record bfs_inv (g : Graph) (start : K) (seen : gset K) (q order : list K) : Prop := {
  bfs_nodup : NoDup (order ++ q);
  bfs_seen : forall n, n ∈ seen <-> n ∈ order ++ q;
  bfs_sound : forall n, n ∈ order ++ q -> rtc (edge g) start n;
  bfs_closed : forall n d, n ∈ order -> d ∈ dependencies g n -> d ∈ seen;
  bfs_start : head (order ++ q) = Some start;
}.

Lemma bfs_inv_step g start seen x q order :
  bfs_inv g start seen (x :: q) order ->
  exists seen' q', visit (dependencies g x) seen q = (seen', q') /\ bfs_inv g start seen' q' (order ++ [x]).
Proof.
  intros [Hnd Hseen Hs Hc Hst].
  destruct (visit_ok (dependencies g x) seen q) as (new & -> & Hnn & Hnew). eexists _, _. split; [done|].
  assert ((order ++ [x]) ++ q ++ new = (order ++ x :: q) ++ new) as E by (by rewrite <- !app_assoc).
  constructor; rewrite ?E.
  - apply NoDup_app. split; [done|]. split; [|done]. intros n Hn Hin. apply Hnew in Hin as [_ Hin].
    apply Hin. by apply Hseen.
  - intros n. rewrite elem_of_union, elem_of_list_to_set, Hseen. set_solver.
  - intros n [Hn|Hn]%elem_of_app; [by apply Hs|]. apply Hnew in Hn as [Hn _].
    apply (rtc_r start x n); [|done]. apply Hs. set_solver.
  - intros n d [Hn|Hn]%elem_of_app Hd; apply elem_of_union.
    + right. eauto.
    + apply list_elem_of_singleton in Hn as ->. destruct (decide (d ∈ seen)); [by right|left].
      apply elem_of_list_to_set. by apply Hnew.
  - destruct order; simpl in *; done.
Qed.

Lemma bfs_total g start fuel seen q order :
  graph_wf g -> bfs_inv g start seen q order -> (S (length (nodes g)) < fuel + length order)%nat ->
  exists order' seen', bfs fuel g seen q order = Some order' /\ bfs_inv g start seen' [] order'.
Proof.
  intros Hg. revert seen q order. induction fuel as [|fuel IH]; intros seen q order Hinv Hf; cbn [bfs].
  - exfalso. destruct Hinv as [Hnd _ Hs _ _]. apply NoDup_app in Hnd as (Hnd & _ & _).
    assert (length order <= length (start :: nodes g))%nat; [|simpl in *; lia].
    apply submseteq_length, NoDup_submseteq; [done|]. intros n Hn.
    assert (rtc (edge g) start n) as Hr by (apply Hs; set_solver).
    apply rtc_inv_r in Hr as [->|(m & _ & Hmn)]; [by left|right]. by apply (deps_nodes g m n Hg).
  - destruct q as [|x q]; [eauto|].
    destruct (bfs_inv_step g start seen x q order Hinv) as (seen' & q' & -> & Hinv').
    apply IH; [done|]. rewrite length_app. simpl. lia.
Qed.

(** Breadth-first reachability is exact and total. From any start, known to the
    graph or not, the result starts with it and lists each node reachable by
    dependencies exactly once, and nothing else. *)
Theorem reachable_exact (ops : list GraphOp) (start : K) :
  exists order, reachable (build ops) start = Some order /\ NoDup order /\
    head order = Some start /\ forall n, n ∈ order <-> rtc (edge (build ops)) start n.
Proof.
  set (g := build ops). assert (graph_wf g) as Hg by apply build_wf.
  assert (bfs_inv g start {[start]} [start] []) as Hinv.
  { constructor; simpl; [apply NoDup_singleton|set_solver| |set_solver|done].
    intros n Hn. apply list_elem_of_singleton in Hn as ->. apply rtc_refl. }
  destruct (bfs_total g start (S (S (length (nodes g)))) _ _ _ Hg Hinv ltac:(simpl; lia)) as (order & seen & E & Hi).
  exists order. unfold reachable. rewrite E. split; [done|].
  destruct Hi as [Hnd Hseen Hs Hc Hst]. rewrite app_nil_r in *. split; [done|]. split; [done|].
  intros n. split; [apply Hs|]. intros Hr.
  assert (forall a, a ∈ order -> rtc (edge g) a n -> n ∈ order) as Hcl.
  { intros a Ha Har. induction Har as [|a b c Hab _ IH]; [done|]. apply IH; [done|]. apply Hseen. eauto. }
  apply (Hcl start); [|done]. destruct order; [done|]. simpl in Hst. injection Hst as ->. by left.
Qed.

(** ** A cycle through a node *)

(** [l] leads from [a] to [b] along edges. *)
Fixpoint leads (g : Graph) (a : K) (l : list K) (b : K) : Prop :=
  match l with [] => edge g a b | x :: l => edge g a x /\ leads g x l b end.

Section CyclePath.
Context (g : Graph) (start : K) (within : gset K).

(** [n] was searched: no edge back to the start, and every neighbour seen. *)
Definition searched (visited : gset K) (n : K) : Prop :=
  forall d, edge g n d -> d <> start /\ (d ∈ within -> d ∈ visited).

Lemma searched_mono v v' n : v ⊆ v' -> searched v n -> searched v' n.
Proof. intros Hs Hn d Hd. destruct (Hn d Hd). set_solver. Qed.

(** What a walk or a scan that returns reports. *)
Definition walk_ok (a : K) (path : list K) (visited : gset K) (r : bool * list K * gset K) : Prop :=
  match r with
  | (true, path', _) => exists l, path' = path ++ l /\ leads g a l start /\ NoDup l /\
      forall x, x ∈ l -> x ∈ within /\ x ∉ visited
  | (false, path', visited') => path' = path /\ visited ⊆ visited' /\
      forall n, n ∈ visited' -> n ∉ visited -> searched visited' n
  end.

Lemma cycle_scan_ok walk a deps :
  forall path visited,
  (forall d path visited', d ∈ within -> visited ⊆ visited' -> d ∉ visited' ->
     exists r, walk d path ({[d]} ∪ visited') = Some r /\ walk_ok d path ({[d]} ∪ visited') r /\
       (fst (fst r) = false -> searched (snd r) d)) ->
  (forall d, d ∈ deps -> edge g a d) -> start ∈ visited ->
  exists r, cycle_scan walk start within deps path visited = Some r /\ walk_ok a path visited r /\
    (fst (fst r) = false -> forall d, d ∈ deps -> d <> start /\ (d ∈ within -> d ∈ snd r)).
Proof.
  induction deps as [|d deps IH]; intros path visited Hwalk Hdeps Hst; cbn [cycle_scan].
  { eexists. split; [done|]. split; [|set_solver]. split; [done|]. split; [done|]. set_solver. }
  case_bool_decide as Hds.
  { subst d. eexists. split; [done|]. split; [|done]. exists []. rewrite app_nil_r.
    split; [done|]. split; [apply Hdeps; by left|]. split; [constructor|set_solver]. }
  destruct (negb _ || _) eqn:Eskip.
  - destruct (IH path visited Hwalk ltac:(set_solver) Hst) as (r & -> & Hok & Hd).
    exists r. split; [done|]. split; [done|]. intros Hf k [->|Hk]%elem_of_cons; [|by apply Hd].
    split; [done|]. intros Hw. rewrite bool_decide_true in Eskip by done. simpl in Eskip. bool_to_prop.
    destruct r as [[[] path'] v']; [done|]. destruct Hok as (_ & Hsub & _). set_solver.
  - bool_to_prop.
    destruct (Hwalk d (path ++ [d]) visited ltac:(done) ltac:(done) ltac:(done)) as ([[[] path'] v'] & -> & Hok & Hdd).
    + eexists. split; [done|]. split; [|done]. destruct Hok as (l & -> & Hl & Hnd & Hin).
      exists (d :: l). split; [by rewrite <- app_assoc|]. split; [split; [apply Hdeps; by left|done]|].
      split; [constructor; [intros Hd; apply Hin in Hd as [_ ?]; set_solver|done]|].
      intros x [->|Hx]%elem_of_cons; [done|]. apply Hin in Hx. set_solver.
    + destruct Hok as (-> & Hsub & Hse). rewrite removelast_last.
      specialize (Hdd eq_refl). simpl in Hdd.
      destruct (IH path v') as (r & -> & Hok' & Hd'); [|set_solver|set_solver|].
      { intros k p v2 Hk Hv Hkv. apply Hwalk; [done|set_solver|done]. }
      exists r. split; [done|]. destruct r as [[[] path2] v2]; cbn [fst snd] in *.
      * split; [|done]. destruct Hok' as (l & -> & Hl & Hnd & Hin). exists l. split; [done|].
        split; [done|]. split; [done|]. intros x Hx. apply Hin in Hx. set_solver.
      * destruct Hok' as (-> & Hsub2 & Hse2). split.
        -- split; [done|]. split; [set_solver|]. intros n Hn Hnv. destruct (decide (n ∈ v')) as [Hn'|Hn']; [|auto].
           apply (searched_mono v' v2 n Hsub2). destruct (decide (n = d)) as [->|]; [done|]. apply Hse; set_solver.
        -- intros _ k [->|Hk]%elem_of_cons; [|by apply Hd']. split; [done|]. set_solver.
Qed.

Lemma cycle_walk_ok fuel : forall a path visited,
  (size (within ∖ visited) < fuel)%nat -> start ∈ visited ->
  exists r, cycle_walk fuel g start within a path visited = Some r /\ walk_ok a path visited r /\
    (fst (fst r) = false -> searched (snd r) a).
Proof.
  induction fuel as [|fuel IH]; intros a path visited Hf Hst; [lia|]. cbn [cycle_walk].
  destruct (cycle_scan_ok (cycle_walk fuel g start within) a (dependencies g a) path visited)
    as (r & E & Hok & Hd); [|done|done|eauto].
  intros d p v Hd Hv Hdv. apply IH; [|set_solver].
  assert (within ∖ ({[d]} ∪ v) ⊂ within ∖ visited) as Hsub.
  { split; [set_solver|]. intros Hc. assert (d ∈ within ∖ ({[d]} ∪ v)) as Hin by (apply Hc; set_solver). set_solver. }
  apply subset_size in Hsub. lia.
Qed.

Lemma searched_no_cycle visited :
  (forall n, n ∈ visited -> searched visited n) ->
  forall l a, a ∈ visited -> (forall x, x ∈ l -> x ∈ within) -> leads g a l start -> False.
Proof.
  intros Hv. induction l as [|x l IH]; intros a Ha Hl Hp; simpl in Hp.
  - by destruct (Hv a Ha start Hp).
  - destruct Hp as [He Hp]. destruct (Hv a Ha x He) as [_ Hx]. apply (IH x); [|set_solver|done].
    apply Hx, Hl. by left.
Qed.
End CyclePath.

(** The cycle search is exact and total. A path it returns leads from the start
    along dependencies back to the start, through distinct nodes of [within] other
    than the start; when it returns none, no such path through [within] exists. *)
Theorem cycle_path_exact (ops : list GraphOp) (start : K) (within : gset K) :
  match cycle_path (build ops) start within with
  | Some (Some path) => leads (build ops) start path start /\ NoDup path /\
      forall x, x ∈ path -> x ∈ within /\ x <> start
  | Some None => ~ exists path, leads (build ops) start path start /\ forall x, x ∈ path -> x ∈ within
  | None => False
  end.
Proof.
  set (g := build ops). unfold cycle_path.
  destruct (cycle_walk_ok g start within (S (size within)) start [] {[start]}) as (r & -> & Hok & Hs).
  - assert (within ∖ {[start]} ⊆ within) as Hsub by set_solver. apply subseteq_size in Hsub. lia.
  - set_solver.
  - destruct r as [[[] path] v]; cbn [fst snd] in *.
    + destruct Hok as (l & -> & Hl & Hnd & Hin). split; [done|]. split; [done|]. intros x Hx. apply Hin in Hx. set_solver.
    + destruct Hok as (_ & Hsub & Hse). intros (path' & Hp & Hw).
      apply (searched_no_cycle g start within v) with path' start; [|set_solver|done|done].
      intros n Hn. destruct (decide (n = start)) as [->|]; [by apply Hs|]. apply Hse; set_solver.
Qed.

(** ** Back edges *)

Section BackEdges.
Context (g : Graph) (Hg : graph_wf g).

(** The edges not reported. *)
Definition kept (f : list (K * K)) (a b : K) : Prop := edge g a b /\ (a, b) ∉ f.

(** A reported edge closes a cycle. *)
Definition closes (e : K * K) : Prop := edge g (fst e) (snd e) /\ rtc (edge g) (snd e) (fst e).

(** The search state, with the finishing order [fin] as a ghost. *)
Record back_inv (fin : list K) (s : BackSearch) : Prop := {
  back_fin : forall n, n ∈ finished s <-> n ∈ fin;
  back_nodup : NoDup fin;
  back_disjoint : forall n, n ∈ fin -> n ∉ on_stack s;
  back_ordered : ordered (kept (found s)) fin;
  back_closes : Forall closes (found s);
}.

(** Progress from one state to another with the same stack. *)
Definition back_step (fin : list K) (s : BackSearch) (fin' : list K) (s' : BackSearch) : Prop :=
  back_inv fin' s' /\ on_stack s' = on_stack s /\ (exists l, fin' = fin ++ l) /\ (exists l, found s' = found s ++ l).

(** The scan of [node]'s dependencies, with the stack [st] below and at [node]. *)
Lemma back_scan_ok walk node st :
  node ∈ nodes g -> (forall k, k ∈ st -> rtc (edge g) k node) ->
  (forall d fin s, d ∈ nodes g -> back_inv fin s -> on_stack s = st -> d ∉ st -> d ∉ finished s ->
     (forall k, k ∈ st -> rtc (edge g) k d) ->
     exists fin' s', walk d s = Some s' /\ back_step fin s fin' s' /\ d ∈ fin') ->
  forall deps fin s, back_inv fin s -> on_stack s = st -> (forall d, d ∈ deps -> edge g node d) ->
  exists fin' s', back_scan walk node deps s = Some s' /\ back_step fin s fin' s' /\
    forall d, d ∈ deps -> d ∈ fin' \/ (node, d) ∈ found s'.
Proof.
  intros Hnode Hreach Hwalk. induction deps as [|d deps IH]; intros fin s Hinv Hst Hdeps; cbn [back_scan].
  { exists fin, s. split; [done|]. split; [|set_solver]. split; [done|]. split; [done|].
    split; exists []; by rewrite app_nil_r. }
  assert (edge g node d) as Hd by (apply Hdeps; by left). case_bool_decide as Hon.
  - destruct (IH fin (mkBack (finished s) (found s ++ [(node, d)]) (on_stack s)))
      as (fin' & s' & -> & Hstep & Hall); simpl; [|done|set_solver|].
    { destruct Hinv as [Hf Hnd Hdj Ho Hcl]. constructor; simpl; try done.
      - eapply ordered_weaken; [|exact Ho]. intros a b [He Hni]. split; [done|set_solver].
      - apply Forall_app. split; [done|]. apply Forall_singleton. split; [done|]. apply Hreach. by rewrite <- Hst. }
    exists fin', s'. split; [done|]. destruct Hstep as (Hi & Hs & Hfin & l & Hl). simpl in *. split.
    + split; [done|]. split; [done|]. split; [done|]. exists ((node, d) :: l). by rewrite Hl, <- app_assoc.
    + intros k [->|Hk]%elem_of_cons; [|auto]. right. rewrite Hl. set_solver.
  - case_bool_decide as Hfi.
    + destruct (IH fin s Hinv Hst ltac:(set_solver)) as (fin' & s' & -> & Hstep & Hall).
      exists fin', s'. split; [done|]. split; [done|]. intros k [->|Hk]%elem_of_cons; [|auto]. left.
      destruct Hstep as (_ & _ & [l ->] & _). apply elem_of_app. left. by apply (back_fin _ _ Hinv).
    + destruct (Hwalk d fin s) as (fin1 & s1 & -> & (Hi1 & Hs1 & [l1 Hf1] & [f1 Hfo1]) & Hdf);
        [by apply (deps_nodes g node d Hg)|done|done|by rewrite <- Hst|done| |].
      { intros k Hk. eapply rtc_r; [by apply Hreach|done]. }
      destruct (IH fin1 s1 Hi1) as (fin' & s' & -> & (Hi' & Hs' & [l' Hf'] & [f' Hfo']) & Hall);
        [congruence|set_solver|].
      exists fin', s'. split; [done|]. split.
      * split; [done|]. split; [congruence|]. split; [exists (l1 ++ l'); by rewrite Hf', Hf1, <- app_assoc|].
        exists (f1 ++ f'). by rewrite Hfo', Hfo1, <- app_assoc.
      * intros k [->|Hk]%elem_of_cons; [|auto]. left. rewrite Hf'. set_solver.
Qed.

(** Leaving [node]: it finishes after everything it leads to. *)
Lemma back_leave node fin s :
  back_inv fin s -> node ∈ on_stack s ->
  (forall d, edge g node d -> d ∈ fin \/ (node, d) ∈ found s) ->
  back_inv (fin ++ [node]) (mkBack ({[node]} ∪ finished s) (found s) (on_stack s ∖ {[node]})).
Proof.
  intros [Hfin Hnd Hdj Ho Hcl] Hon Hd.
  assert (node ∉ fin) as Hnf by (intros Hx; by apply (Hdj node Hx)). constructor; simpl.
  - intros n. rewrite elem_of_union, elem_of_singleton, elem_of_app, list_elem_of_singleton, Hfin. tauto.
  - apply NoDup_app. split; [done|]. split; [|apply NoDup_singleton].
    intros n Hn Hin. apply list_elem_of_singleton in Hin. by subst.
  - intros n [Hn|Hn]%elem_of_app; [specialize (Hdj n Hn); set_solver|].
    apply list_elem_of_singleton in Hn as ->. set_solver.
  - apply ordered_snoc; [done|]. intros d [He Hni]. by destruct (Hd d He).
  - done.
Qed.

Lemma back_walk_ok fuel : forall node fin s,
  (size (list_to_set (nodes g) ∖ on_stack s) < fuel)%nat -> node ∈ nodes g -> back_inv fin s ->
  node ∉ on_stack s -> node ∉ finished s -> (forall k, k ∈ on_stack s -> rtc (edge g) k node) ->
  exists fin' s', back_walk fuel g node s = Some s' /\ back_step fin s fin' s' /\ node ∈ fin'.
Proof.
  induction fuel as [|fuel IH]; intros node fin s Hf Hn Hinv Hon Hfi Hreach; [lia|]. cbn [back_walk].
  set (st := {[node]} ∪ on_stack s). set (s0 := mkBack (finished s) (found s) st).
  assert (back_inv fin s0) as Hinv0.
  { destruct Hinv as [Hfin Hnd Hdj Ho Hcl]. constructor; try done. intros k Hk. specialize (Hdj k Hk).
    apply Hfin in Hk. unfold s0, st. simpl. set_solver. }
  assert (list_to_set (nodes g) ∖ st ⊂ list_to_set (nodes g) ∖ on_stack s) as Hsub.
  { split; [set_solver|]. intros Hc.
    assert (node ∈ (list_to_set (nodes g) : gset K) ∖ st) as Hin by (apply Hc; set_solver). set_solver. }
  apply subset_size in Hsub.
  destruct (back_scan_ok (back_walk fuel g) node st Hn) with (deps := dependencies g node) (fin := fin) (s := s0)
    as (fin1 & s1 & -> & (Hi1 & Hs1 & [l1 Hf1] & Hfo1) & Hall); [| |done|done|done|].
  - intros k [->%elem_of_singleton|Hk]%elem_of_union; [apply rtc_refl|auto].
  - intros d fin2 s2 Hd Hi2 Hs2 Hon2 Hfi2 Hr2. apply IH; rewrite ?Hs2; try done. lia.
  - exists (fin1 ++ [node]). eexists. split; [done|]. unfold s0, st in Hs1. simpl in Hs1. split; [|set_solver].
    split; [apply back_leave; [done|rewrite Hs1; set_solver|exact Hall]|]. simpl. rewrite Hs1.
    split; [set_solver|]. split; [exists (l1 ++ [node]); by rewrite Hf1, <- app_assoc|exact Hfo1].
Qed.

Lemma back_roots_ok roots : forall fin s,
  (forall n, n ∈ roots -> n ∈ nodes g) -> back_inv fin s -> on_stack s = ∅ ->
  exists fin' s', back_roots g roots s = Some s' /\ back_inv fin' s' /\ on_stack s' = ∅ /\
    (exists l, fin' = fin ++ l) /\ forall n, n ∈ roots -> n ∈ fin'.
Proof.
  induction roots as [|n roots IH]; intros fin s Hr Hinv Hst; cbn [back_roots].
  { exists fin, s. split; [done|]. split; [done|]. split; [done|]. split; [exists []; by rewrite app_nil_r|set_solver]. }
  case_bool_decide as Hfi.
  - destruct (IH fin s ltac:(set_solver) Hinv Hst) as (fin' & s' & -> & Hi & Hs & [l ->] & Hall).
    exists (fin ++ l), s'. split; [done|]. split; [done|]. split; [done|]. split; [by exists l|].
    intros k [->|Hk]%elem_of_cons; [|auto]. apply elem_of_app. left. by apply (back_fin _ _ Hinv).
  - destruct (back_walk_ok (S (length (nodes g))) n fin s) as (fin1 & s1 & -> & (Hi1 & Hs1 & [l1 Hf1] & _) & Hn1);
      [|apply Hr; by left|done|rewrite Hst; set_solver|done|rewrite Hst; set_solver|].
    { rewrite Hst, difference_empty_L, size_list_to_set by apply nodes_nodup. lia. }
    destruct (IH fin1 s1) as (fin' & s' & -> & Hi & Hs & [l ->] & Hall); [set_solver|done|congruence|].
    eexists _, s'. split; [done|]. split; [done|]. split; [done|].
    split; [exists (l1 ++ l); by rewrite Hf1, <- app_assoc|]. set_solver.
Qed.
End BackEdges.

(** The back edges are exactly enough. The search is total; every edge it reports
    is an edge of the graph that closes a cycle, and once the reported edges are cut
    no cycle is left. In particular it reports none exactly when the graph is
    acyclic. *)
Theorem back_edges_cut_cycles (ops : list GraphOp) :
  let g := build ops in
  exists cut, back_edges g = Some cut /\
    (forall a b, (a, b) ∈ cut -> edge g a b /\ rtc (edge g) b a) /\
    (forall n, ~ tc (fun a b => edge g a b /\ (a, b) ∉ cut) n n) /\
    (cut = [] <-> forall n, ~ tc (edge g) n n).
Proof.
  cbv zeta. set (g := build ops). assert (graph_wf g) as Hg by apply build_wf.
  destruct (back_roots_ok g Hg (nodes g) [] (mkBack ∅ [] ∅)) as (fin & s & E & [Hfin Hnd _ Ho Hcl] & _ & _ & Hall);
    [done| |done|].
  { constructor; simpl; [set_solver|constructor|set_solver| |constructor]. intros [] n l2 [=]. }
  exists (found s). unfold back_edges. rewrite E. split; [done|].
  assert (forall a b, (a, b) ∈ found s -> edge g a b /\ rtc (edge g) b a) as Hc
    by (intros a b Hab; rewrite Forall_forall in Hcl; exact (Hcl _ Hab)).
  assert (forall n, ~ tc (kept g (found s)) n n) as Hcut.
  { intros n Hn. apply (ordered_acyclic (kept g (found s)) fin n Hnd Ho); [|done]. apply Hall.
    assert (exists b, edge g n b) as [b Hb] by (inversion Hn as [? ? [? _]|? ? ? [? _]]; eauto).
    by apply (deps_nodes g n b Hg). }
  split; [done|]. split; [exact Hcut|]. split.
  - intros Hnil n Hn. apply (Hcut n). rewrite Hnil.
    assert (forall a b, tc (edge g) a b -> tc (kept g []) a b) as Hsub; [|by apply Hsub].
    intros a b Hab. induction Hab as [a b Hab|a b c Hab _ IH].
    + apply tc_once. split; [done|apply not_elem_of_nil].
    + eapply tc_l; [|exact IH]. split; [done|apply not_elem_of_nil].
  - intros Hac. destruct (found s) as [|[a b] l]; [done|]. exfalso.
    destruct (Hc a b ltac:(by left)) as [Hab Hba]. apply (Hac a). eapply tc_rtc_r; [by apply tc_once|done].
Qed.
End Graph.
