(* ===== verification/Telemetry.v ===== *)
(** * Tracing: the export queue and span ids

    Models [koja-runtime-core/src/export_queue.rs] and [span_ids.rs]: the bounded
    export queue with its drop counter and the xoshiro256** generator at its
    64-bit width. *)

From S2P Require Import Prelude Protocol ProcessTable.
Local Open Scope Z_scope.

(** ** The export queue *)

Module Exporter.
Section Queue.
Context {P : Type}.

Definition EXPORT_CAPACITY : Z := 4096.

Record ExportQueue := mkExport { records : list P; dropped_count : Z }.

Definition export_new : ExportQueue := mkExport [] 0.

Definition len (q : ExportQueue) : Z := Z.of_nat (length (records q)).

Definition push (record : P) (q : ExportQueue) : bool * ExportQueue :=
  if EXPORT_CAPACITY <=? len q then (false, mkExport (records q) (dropped_count q +u64 1))
  else (true, mkExport (records q ++ [record]) (dropped_count q)).

Definition pop (q : ExportQueue) : option P * ExportQueue :=
  match records q with
  | [] => (None, q)
  | r :: rest => (Some r, mkExport rest (dropped_count q))
  end.

Definition dropped (q : ExportQueue) : Z := dropped_count q.

Definition is_empty (q : ExportQueue) : bool := len q =? 0.

Inductive ExportOp := EPush (record : P) | EPop.

(** The records accepted, rejected and popped by a script, in order. *)
Record Ledger := mkLedger { accepted : list P; rejected : list P; popped : list P }.

Definition export_step (st : ExportQueue * Ledger) (op : ExportOp) : ExportQueue * Ledger :=
  let (q, l) := st in
  match op with
  | EPush r =>
      let (ok, q') := push r q in
      (q', if ok : bool then mkLedger (accepted l ++ [r]) (rejected l) (popped l)
           else mkLedger (accepted l) (rejected l ++ [r]) (popped l))
  | EPop => let (o, q') := pop q in (q', mkLedger (accepted l) (rejected l) (popped l ++ option_list o))
  end.

Definition export_run (ops : list ExportOp) : ExportQueue * Ledger :=
  fold_left export_step ops (export_new, mkLedger [] [] []).

(** The export queue is a bounded FIFO that never loses a record silently. Over
    any script it never holds more than [EXPORT_CAPACITY] records, what was popped
    followed by what is queued is what was accepted, in push order, and the drop
    counter is the number of records rejected, modulo its 64-bit width. *)
Theorem export_queue_accounts (ops : list ExportOp) :
  let (q, l) := export_run ops in
  0 <= len q <= EXPORT_CAPACITY /\
  popped l ++ records q = accepted l /\
  dropped q = wrap 64 (Z.of_nat (length (rejected l))).
Proof.
  unfold export_run.
  assert (forall ops (st : ExportQueue * Ledger), (let (q, l) := st in 0 <= len q <= EXPORT_CAPACITY /\
    popped l ++ records q = accepted l /\ dropped q = wrap 64 (Z.of_nat (length (rejected l)))) ->
    let (q, l) := fold_left export_step ops st in 0 <= len q <= EXPORT_CAPACITY /\
    popped l ++ records q = accepted l /\ dropped q = wrap 64 (Z.of_nat (length (rejected l)))) as Hrun.
  { clear. induction ops as [|op ops IH]; intros [q l] (Hl & Ha & Hd); [done|]. cbn [fold_left]. apply IH.
    unfold len, dropped in *. destruct op as [r|]; cbn [export_step].
    - unfold push, len, EXPORT_CAPACITY in *. destruct (Z.leb_spec 4096 (Z.of_nat (length (records q)))); simpl.
      + split; [lia|]. split; [done|]. rewrite Hd, length_app. simpl. unfold wrap.
        rewrite Z.add_mod_idemp_l by lia. f_equal. lia.
      + rewrite length_app. simpl. split; [lia|]. split; [by rewrite app_assoc, Ha|done].
    - unfold pop. destruct (records q) as [|r rest] eqn:E; simpl in *.
      + rewrite E. simpl. split; [lia|]. split; [by rewrite !app_nil_r in *|done].
      + split; [lia|]. split; [by rewrite <- app_assoc|done]. }
  apply Hrun. done.
Qed.
End Queue.
End Exporter.

(** ** Span ids *)

Module Span.
Record SpanIds := mkSpan { s0 : Z; s1 : Z; s2 : Z; s3 : Z }.

(** [u64::from_le_bytes] on eight bytes. *)
Fixpoint from_le_bytes (bytes : list Z) : Z :=
  match bytes with [] => 0 | b :: rest => b + 256 * from_le_bytes rest end.

Definition from_seed (seed : list Z) : SpanIds :=
  let word i := from_le_bytes (take 8 (drop (8 * i) seed)) in
  let s := mkSpan (word 0%nat) (word 1%nat) (word 2%nat) (word 3%nat) in
  if (s0 s =? 0) && (s1 s =? 0) && (s2 s =? 0) && (s3 s =? 0)
  then mkSpan 0x9E3779B97F4A7C15 0xBF58476D1CE4E5B9 0x94D049BB133111EB 0x2545F4914F6CDD1D
  else s.

(** [u64::rotate_left]. *)
Definition rotate_left (x k : Z) : Z := Z.lor (wrap 64 (Z.shiftl x k)) (Z.shiftr x (64 - k)).

Definition next_raw (s : SpanIds) : Z * SpanIds :=
  let result := wrap 64 (rotate_left (wrap 64 (s1 s * 5)) 7 * 9) in
  let t := wrap 64 (Z.shiftl (s1 s) 17) in
  let x2 := Z.lxor (s2 s) (s0 s) in
  let x3 := Z.lxor (s3 s) (s1 s) in
  let x1 := Z.lxor (s1 s) x2 in
  let x0 := Z.lxor (s0 s) x3 in
  (result, mkSpan x0 x1 (Z.lxor x2 t) (rotate_left x3 45)).

(** [next_id]: the loop with fuel; [None] is out of fuel. *)
Fixpoint next_id_loop (fuel : nat) (s : SpanIds) : option (Z * SpanIds) :=
  match fuel with
  | O => None
  | S fuel =>
      let (id, s') := next_raw s in
      if negb (id =? 0) then Some (id, s') else next_id_loop fuel s'
  end.

(** Four iterations are always enough ([span_ids_nonzero]). *)
Definition next_id (s : SpanIds) : option (Z * SpanIds) := next_id_loop 4 s.

(** ** Lemmas: the state map is invertible at zero *)

Definition u64 (x : Z) : Prop := 0 <= x < 2 ^ 64.

Definition span_ok (s : SpanIds) : Prop := u64 (s0 s) /\ u64 (s1 s) /\ u64 (s2 s) /\ u64 (s3 s).

Definition nonzero (s : SpanIds) : Prop := ~ (s0 s = 0 /\ s1 s = 0 /\ s2 s = 0 /\ s3 s = 0).

Lemma wrap_u64 x : u64 (wrap 64 x).
Proof. apply wrap_range. lia. Qed.

Lemma testbit_wrap x i : 0 <= i -> Z.testbit (wrap 64 x) i = (i <? 64) && Z.testbit x i.
Proof.
  intros Hi. unfold wrap. destruct (Z.ltb_spec i 64).
  - rewrite Z.mod_pow2_bits_low by lia. done.
  - rewrite Z.mod_pow2_bits_high by lia. done.
Qed.

Lemma u64_bits x : 0 <= x -> (forall i, 64 <= i -> Z.testbit x i = false) -> u64 x.
Proof.
  intros Hx Hb. assert (wrap 64 x = x) as <-; [|apply wrap_u64]. apply Z.bits_inj'. intros i Hi.
  rewrite testbit_wrap by done. destruct (Z.ltb_spec i 64); [done|]. by rewrite Hb.
Qed.

Lemma u64_high x i : u64 x -> 64 <= i -> Z.testbit x i = false.
Proof.
  intros Hx Hi. rewrite <- (wrap_small 64 x Hx), testbit_wrap by lia. by rewrite (proj2 (Z.ltb_ge i 64)).
Qed.

Lemma lxor_u64 x y : u64 x -> u64 y -> u64 (Z.lxor x y).
Proof.
  intros Hx Hy. apply u64_bits.
  - apply Z.lxor_nonneg. unfold u64 in *. lia.
  - intros i Hi. rewrite Z.lxor_spec, !u64_high by done. done.
Qed.

Lemma rotate_u64 x k : u64 x -> 0 <= k <= 64 -> u64 (rotate_left x k).
Proof.
  intros Hx Hk. pose proof (wrap_u64 (Z.shiftl x k)) as Hw. apply u64_bits.
  - apply Z.lor_nonneg. split; [unfold u64 in Hw; lia|]. apply Z.shiftr_nonneg. unfold u64 in Hx. lia.
  - intros i Hi. unfold rotate_left. rewrite Z.lor_spec, (u64_high _ i Hw Hi), Z.shiftr_spec by lia.
    by rewrite u64_high by (done || lia).
Qed.

(** A rotation of a non-zero word is not zero. *)
Lemma rotate_zero x k : u64 x -> 0 <= k <= 64 -> rotate_left x k = 0 -> x = 0.
Proof.
  intros Hx Hk E. apply Z.bits_inj'. intros i Hi. rewrite Z.bits_0.
  destruct (decide (64 <= i)) as [Hh|Hl]; [by apply u64_high|].
  assert (forall j, Z.testbit (rotate_left x k) j = false) as Hz by (intros j; rewrite E; apply Z.bits_0).
  unfold rotate_left in Hz. destruct (decide (i + k < 64)) as [Hlt|Hge].
  - specialize (Hz (i + k)). rewrite Z.lor_spec, testbit_wrap, Z.shiftl_spec in Hz by lia.
    rewrite (proj2 (Z.ltb_lt (i + k) 64)) in Hz by lia. replace (i + k - k) with i in Hz by lia.
    by apply orb_false_iff in Hz as [? _].
  - specialize (Hz (i + k - 64)). rewrite Z.lor_spec, Z.shiftr_spec in Hz by lia.
    replace (i + k - 64 + (64 - k)) with i in Hz by lia. by apply orb_false_iff in Hz as [_ ?].
Qed.

(** Multiplication by an odd constant loses nothing modulo [2 ^ 64]. *)
Lemma mul_odd_zero x c : u64 x -> Z.gcd (2 ^ 64) c = 1 -> wrap 64 (x * c) = 0 -> x = 0.
Proof.
  intros Hx Hc E. unfold wrap in E. apply Z.mod_divide in E; [|lia]. rewrite Z.mul_comm in E.
  pose proof (Z.gauss _ _ _ E Hc) as [q Hq]. unfold u64 in Hx. nia.
Qed.

(** A word equal to itself shifted left is zero. *)
Lemma shift_fixed x k : u64 x -> 0 < k -> x = wrap 64 (Z.shiftl x k) -> x = 0.
Proof.
  intros Hx Hk E. apply Z.bits_inj'. intros i Hi. rewrite Z.bits_0. revert i Hi.
  apply (Zlt_0_ind (fun i => Z.testbit x i = false)). intros i IH Hi.
  rewrite E, testbit_wrap by done. rewrite Z.shiftl_spec by done.
  destruct (decide (i < k)) as [Hlt|Hge].
  - rewrite (Z.testbit_neg_r x (i - k)) by lia. apply andb_false_r.
  - rewrite IH by lia. apply andb_false_r.
Qed.

Lemma span_next_ok s : span_ok s -> span_ok (next_raw s).2.
Proof.
  intros (H0 & H1 & H2 & H3). unfold span_ok, next_raw; simpl.
  repeat split; repeat (apply lxor_u64 || (apply rotate_u64; [|lia]) || apply wrap_u64 || done).
Qed.

Lemma result_zero s : span_ok s -> (next_raw s).1 = 0 -> s1 s = 0.
Proof.
  intros (_ & H1 & _ & _) E. unfold next_raw in E; simpl in E.
  apply mul_odd_zero in E; [|apply rotate_u64; [apply wrap_u64|lia]|].
  - apply rotate_zero in E; [|apply wrap_u64|lia].
    apply mul_odd_zero in E; [done..|]. done.
  - done.
Qed.

Lemma lxor_cancel x y : Z.lxor x y = 0 -> x = y.
Proof. apply Z.lxor_eq. Qed.

(** The state map sends only the zero state to the zero state. *)
Lemma next_nonzero s : span_ok s -> nonzero s -> nonzero (next_raw s).2.
Proof.
  intros (H0 & H1 & H2 & H3) Hn (E0 & E1 & E2 & E3). apply Hn. unfold next_raw in *; simpl in *.
  apply rotate_zero in E3; [|by apply lxor_u64|lia]. rewrite E3, Z.lxor_0_r in E0.
  apply lxor_cancel in E3. rewrite E0, Z.lxor_0_r in *. apply lxor_cancel in E1, E2.
  assert (s1 s = 0) by (apply (shift_fixed _ 17); [done|lia|congruence]). repeat split; congruence.
Qed.

(** After a zero output the state's second word is the xor of its neighbours. *)
Lemma next_from_zero a c d :
  (next_raw (mkSpan a 0 c d)).2 = mkSpan (Z.lxor a d) (Z.lxor c a) (Z.lxor c a) (rotate_left d 45).
Proof.
  unfold next_raw; simpl. rewrite Z.shiftl_0_l. change (wrap 64 0) with 0.
  by rewrite !Z.lxor_0_r, Z.lxor_0_l.
Qed.

(** Four zero outputs in a row happen only from the zero state. *)
Lemma zero_streak s :
  span_ok s -> s1 s = 0 -> s1 (next_raw s).2 = 0 -> s1 (next_raw (next_raw s).2).2 = 0 ->
  s1 (next_raw (next_raw (next_raw s).2).2).2 = 0 -> ~ nonzero s.
Proof.
  destruct s as [a b c d]. intros (H0 & _ & H2 & H3) A0. cbn [s0 s1 s2 s3] in *. subst b.
  rewrite next_from_zero. cbn [s1]. intros A1. rewrite A1. apply lxor_cancel in A1 as ->.
  rewrite next_from_zero. cbn [s1]. rewrite Z.lxor_0_l. intros A2. rewrite A2. apply lxor_cancel in A2 as ->.
  rewrite next_from_zero. cbn [s1]. rewrite !Z.lxor_0_l. intros A3.
  apply rotate_zero in A3 as ->; [|done|lia]. intros Hn. by apply Hn.
Qed.

Lemma next_id_some s : span_ok s -> nonzero s -> exists id s', next_id s = Some (id, s') /\ id <> 0 /\
  u64 id /\ span_ok s' /\ nonzero s'.
Proof.
  intros Hs Hn. assert (forall fuel s, span_ok s -> nonzero s -> match next_id_loop fuel s with
    | Some (id, s') => id <> 0 /\ u64 id /\ span_ok s' /\ nonzero s'
    | None => Forall (fun k => s1 (Nat.iter k (fun s => (next_raw s).2) s) = 0) (seq 0 fuel) end) as Hloop.
  { clear. induction fuel as [|fuel IH]; intros s Hs Hn; [by constructor|]. cbn [next_id_loop].
    pose proof (span_next_ok s Hs) as Hs'. pose proof (next_nonzero s Hs Hn) as Hn'.
    destruct (next_raw s) as [id s'] eqn:E. simpl in Hs', Hn'. destruct (Z.eqb_spec id 0) as [->|Hid]; simpl.
    - specialize (IH s' Hs' Hn'). destruct (next_id_loop fuel s') as [[]|]; [done|].
      constructor; [apply (result_zero s); [done|by rewrite E]|]. rewrite <- fmap_S_seq. apply Forall_fmap.
      eapply Forall_impl; [exact IH|]. intros k Hk. unfold compose. rewrite Nat.iter_succ_r.
      injection E as _ <-. exact Hk.
    - split; [done|]. split; [|done]. injection E as <- _. apply wrap_u64. }
  unfold next_id. specialize (Hloop 4%nat s Hs Hn). destruct (next_id_loop 4 s) as [[id s']|]; [by exists id, s'|].
  exfalso. cbn [seq] in Hloop. rewrite !Forall_cons in Hloop. destruct Hloop as (A0 & A1 & A2 & A3 & _).
  by apply (zero_streak s).
Qed.

Lemma le_bytes_bound bytes :
  Forall (fun b => 0 <= b < 256) bytes -> 0 <= from_le_bytes bytes < 256 ^ Z.of_nat (length bytes).
Proof.
  induction 1 as [|b bytes Hb _ IH]; [done|]. cbn [from_le_bytes length].
  rewrite Nat2Z.inj_succ, Z.pow_succ_r by lia. lia.
Qed.

Lemma seed_word_u64 seed i :
  Forall (fun b => 0 <= b < 256) seed -> u64 (from_le_bytes (take 8 (drop i seed))).
Proof.
  intros Hb. assert (Forall (fun b => 0 <= b < 256) (take 8 (drop i seed))) as Ht by by apply Forall_take, Forall_drop.
  apply le_bytes_bound in Ht. assert (length (take 8 (drop i seed)) <= 8)%nat as Hl by (rewrite length_take; lia). unfold u64.
  change (2 ^ 64) with (256 ^ 8). pose proof (Z.pow_le_mono_r 256 (Z.of_nat (length (take 8 (drop i seed)))) 8). lia.
Qed.

Lemma from_seed_ok seed : Forall (fun b => 0 <= b < 256) seed -> span_ok (from_seed seed) /\ nonzero (from_seed seed).
Proof.
  intros Hb. unfold from_seed. cbn [s0 s1 s2 s3].
  set (a := from_le_bytes _). set (b := from_le_bytes (take 8 (drop (8 * 1) _))).
  set (c := from_le_bytes (take 8 (drop (8 * 2) _))). set (d := from_le_bytes (take 8 (drop (8 * 3) _))).
  destruct (_ && _ && _ && _) eqn:E.
  - split; [by repeat split|]. unfold nonzero. simpl. lia.
  - split; [by repeat split; apply seed_word_u64|]. unfold nonzero. cbn [s0 s1 s2 s3].
    intros (Ha & Hb' & Hc & Hd). by rewrite Ha, Hb', Hc, Hd in E.
Qed.

(** The ids handed out by [n] successive calls of [next_id]. *)
Fixpoint ids (n : nat) (s : SpanIds) : option (list Z) :=
  match n with
  | O => Some []
  | S n => '(id, s') ← next_id s; rest ← ids n s'; Some (id :: rest)
  end.

(** Span ids are never zero and the generator never gets stuck. From any seed
    (the all-zero one included) every call of [next_id] returns, within four
    iterations of its retry loop, a non-zero 64-bit id; so [n] calls return [n] ids
    that no receiver can read as the absence of a span. *)
Theorem span_ids_nonzero (seed : list Z) (n : nat) (Hseed : Forall (fun b => 0 <= b < 256) seed) :
  exists l, ids n (from_seed seed) = Some l /\ length l = n /\ Forall (fun id => 0 < id < 2 ^ 64) l.
Proof.
  destruct (from_seed_ok seed Hseed) as [Hs Hn]. revert Hs Hn. generalize (from_seed seed).
  induction n as [|n IH]; intros s Hs Hn; [by exists []|]. cbn [ids].
  destruct (next_id_some s Hs Hn) as (id & s' & -> & Hid & Hu & Hs' & Hn'). simpl.
  destruct (IH s' Hs' Hn') as (l & -> & Hl & HF). exists (id :: l). simpl.
  split; [done|]. split; [by rewrite Hl|]. constructor; [unfold u64 in Hu; lia|done].
Qed.

Lemma span_ids_nonzero_witness :
  exists l, ids 3 (from_seed (repeat 0 32)) = Some l /\ length l = 3%nat /\ Forall (fun id => 0 < id < 2 ^ 64) l.
Proof. apply (span_ids_nonzero (repeat 0 32) 3). repeat constructor; done. Defined.
End Span.
