(* ===== verification/Types.v ===== *)
(** * Resolved types and declarations

    Models [koja-ast/src/identifier.rs] (identifiers, resolutions, resolved
    types) and the data of [koja-typecheck/src/registry/definitions.rs]. The two
    shapes of [AnonymousKind] are constructors of [ResolvedType] directly.
    Payloads that are syntax trees and that no modelled operation reads (field
    defaults, constant initialisers, the alias rosters kept for them) are left
    out. *)

From S2P Require Import Prelude.
From stdpp Require Export strings.
Local Open Scope Z_scope.

(** ** Identifiers *)

Record Identifier := mkIdentifier { package : string; path : list string }.

#[export] Instance identifier_eq_dec : EqDecision Identifier.
Proof. solve_decision. Defined.

#[export] Instance identifier_countable : Countable Identifier.
Proof.
  refine (inj_countable' (fun i => (package i, path i)) (fun p => mkIdentifier p.1 p.2) _). by intros [].
Defined.

(** [Identifier::new] panics ([None]) on an empty package or an empty path. *)
Definition identifier_new (package : string) (path : list string) : option Identifier :=
  if bool_decide (package = "") || bool_decide (path = []) then None
  else Some (mkIdentifier package path).

Definition identifier_single (package name : string) : option Identifier := identifier_new package [name].

(** [Identifier::last]: [path] is not empty by construction. *)
Definition identifier_last (i : Identifier) : option string := last (path i).

Definition is_in_package (pkg : string) (i : Identifier) : bool := bool_decide (package i = pkg).

Definition is_in_global (i : Identifier) : bool := bool_decide (package i = "Global").

(** [slice::join]. *)
Fixpoint join_strings (sep : string) (parts : list string) : string :=
  match parts with
  | [] => ""
  | [p] => p
  | p :: rest => p +:+ sep +:+ join_strings sep rest
  end.

Definition qualified_name (i : Identifier) : string := package i +:+ "." +:+ join_strings "." (path i).

Definition source_name (i : Identifier) : string :=
  if is_in_global i then join_strings "." (path i) else package i +:+ "." +:+ join_strings "." (path i).

(** ** Resolutions and resolved types *)

(** The opaque handles are [u32]s. *)
Notation GlobalRegistryId := Z (only parsing).
Notation LocalId := Z (only parsing).
Notation TypeParamIndex := Z (only parsing).

Inductive Resolution :=
  | RGlobal (id : GlobalRegistryId)
  | RLocal (id : LocalId)
  | RTypeParam (owner : GlobalRegistryId) (index : TypeParamIndex)
  | RUnresolved.

#[export] Instance resolution_eq_dec : EqDecision Resolution.
Proof. solve_decision. Defined.

Definition resolution_is_resolved (r : Resolution) : bool :=
  match r with RUnresolved => false | _ => true end.

(** [FunctionType] and [TupleType] are [Anonymous(Function)] and
    [Anonymous(Tuple)]. *)
Inductive ResolvedType :=
  | FunctionType (params : list ResolvedType) (ret : ResolvedType)
  | TupleType (elements : list ResolvedType)
  | Named (resolution : Resolution) (type_args : list ResolvedType)
  | UnionType (members : list ResolvedType)
  | Failed
  | Unresolved.

Definition leaf (r : Resolution) : ResolvedType := Named r [].

Fixpoint is_resolved (t : ResolvedType) : bool :=
  match t with
  | FunctionType params ret => forallb is_resolved params && is_resolved ret
  | TupleType elements => forallb is_resolved elements
  | Named r args => resolution_is_resolved r && forallb is_resolved args
  | UnionType members => forallb is_resolved members
  | Failed | Unresolved => false
  end.

(** *** Induction through the lists of a type *)

Inductive AllT {A} (P : A -> Type) : list A -> Type :=
  | AllT_nil : AllT P []
  | AllT_cons x l : P x -> AllT P l -> AllT P (x :: l).

Section TypeInduction.
Context (P : ResolvedType -> Type).
Context (HF : forall params ret, AllT P params -> P ret -> P (FunctionType params ret)).
Context (HT : forall elements, AllT P elements -> P (TupleType elements)).
Context (HN : forall r args, AllT P args -> P (Named r args)).
Context (HU : forall members, AllT P members -> P (UnionType members)).
Context (HX : P Failed).
Context (HY : P Unresolved).

Fixpoint type_rect (t : ResolvedType) : P t :=
  let all := fix all (l : list ResolvedType) : AllT P l :=
    match l with [] => AllT_nil P | x :: l => AllT_cons P x l (type_rect x) (all l) end in
  match t with
  | FunctionType params ret => HF params ret (all params) (type_rect ret)
  | TupleType elements => HT elements (all elements)
  | Named r args => HN r args (all args)
  | UnionType members => HU members (all members)
  | Failed => HX
  | Unresolved => HY
  end.
End TypeInduction.

Lemma AllT_Forall {A} (P : A -> Prop) l : AllT P l -> Forall P l.
Proof. induction 1; by constructor. Qed.

(** The same principle for propositions, with [Forall]. *)
Lemma type_ind' (P : ResolvedType -> Prop) :
  (forall params ret, Forall P params -> P ret -> P (FunctionType params ret)) ->
  (forall elements, Forall P elements -> P (TupleType elements)) ->
  (forall r args, Forall P args -> P (Named r args)) ->
  (forall members, Forall P members -> P (UnionType members)) ->
  P Failed -> P Unresolved -> forall t, P t.
Proof. intros HF HT HN HU HX HY. apply type_rect; auto using AllT_Forall. Qed.

Lemma list_dec_AllT {A} (l l' : list A) : AllT (fun x => forall y, Decision (x = y)) l -> Decision (l = l').
Proof.
  intros H. revert l'. induction H as [|x l Hx _ IH]; intros [|y l'].
  - by left.
  - by right.
  - by right.
  - destruct (Hx y) as [->|Hne].
    + destruct (IH l') as [->|Hne]; [by left|right; congruence].
    + right; congruence.
Defined.

#[export] Instance type_eq_dec : EqDecision ResolvedType.
Proof.
  intros a. induction a as [ps r Hps Hr|es Hes|h args Hargs|ms Hms| |] using type_rect;
    intros [ps' r'|es'|h' args'|ms'| |]; try (by left); try (by right).
  - destruct (list_dec_AllT _ ps' Hps) as [->|]; [|right; congruence].
    destruct (Hr r') as [->|]; [by left|right; congruence].
  - destruct (list_dec_AllT _ es' Hes) as [->|]; [by left|right; congruence].
  - destruct (decide (h = h')) as [->|]; [|right; congruence].
    destruct (list_dec_AllT _ args' Hargs) as [->|]; [by left|right; congruence].
  - destruct (list_dec_AllT _ ms' Hms) as [->|]; [by left|right; congruence].
Defined.

(** ** Source spans *)

Record Position := mkPosition { offset : Z; line : Z; column : Z }.
Record Span := mkSpanOf { span_start : Position; span_end : Position; file : Z; synthetic : bool }.

Definition span_default : Span := mkSpanOf (mkPosition 0 0 0) (mkPosition 0 0 0) 0 false.

(** ** Declaration payloads *)

Inductive BuiltinShape :=
  | ShBinary | ShBits | ShBool | ShCPtr | ShFloat32 | ShFloat64 | ShInt8 | ShInt16 | ShInt32
  | ShInt64 | ShList | ShMap | ShNever | ShSet | ShString | ShUInt8 | ShUInt16 | ShUInt32
  | ShUInt64 | ShUnit.

#[export] Instance shape_eq_dec : EqDecision BuiltinShape.
Proof. solve_decision. Defined.

Definition shape_arity (s : BuiltinShape) : nat :=
  match s with
  | ShMap => 2
  | ShCPtr | ShList | ShSet => 1
  | _ => 0
  end.

Definition has_primitive_equality (s : BuiltinShape) : bool :=
  match s with
  | ShBool | ShFloat32 | ShFloat64 | ShInt8 | ShInt16 | ShInt32 | ShInt64 | ShString | ShUInt8
  | ShUInt16 | ShUInt32 | ShUInt64 => true
  | ShBinary | ShBits | ShCPtr | ShList | ShMap | ShNever | ShSet | ShUnit => false
  end.

Record ResolvedProtocolBound := mkBound { bound_args : list ResolvedType; protocol_id : GlobalRegistryId }.

Inductive ConformanceScope :=
  | Concrete (args : list ResolvedType)
  | Parameterized (bounds : list (list ResolvedProtocolBound)).

Record Conformance := mkConformance { protocol_args : list ResolvedType; scope_of : ConformanceScope }.

Definition ConformanceMap := gmap GlobalRegistryId (list Conformance).

Record BoundOverlay := mkOverlay {
  overlay_bounds : list (list ResolvedProtocolBound);
  overlay_owner : GlobalRegistryId
}.

Record BuiltinDefinition := mkBuiltin { builtin_conformances : ConformanceMap; shape : BuiltinShape }.

Inductive Dispatch := Instance_ | Static.

Record ResolvedParam := mkParam { param_name : string; param_ty : ResolvedType }.

Record ResolvedStructField := mkField { field_name : string; field_ty : ResolvedType }.

Record FunctionSignature := mkSignature {
  declared_fallible : bool;
  dispatch : Dispatch;
  sig_params : list ResolvedParam;
  return_type : ResolvedType;
  impl_args : list ResolvedType
}.

Inductive FunctionOrigin := DefaultAdapter (canonical_arity : nat) | Explicit | Test_.

Record FunctionDefinition := mkFunction {
  fn_arity : nat;
  fn_origin : FunctionOrigin;
  signature : option FunctionSignature
}.

Record StructDefinition := mkStruct {
  struct_conformances : ConformanceMap;
  struct_fields : list ResolvedStructField
}.

Inductive ResolvedVariantData :=
  | VStruct (fields : list ResolvedStructField)
  | VTuple (elements : list ResolvedType)
  | VUnit.

Record ResolvedEnumVariant := mkVariant { variant_data : ResolvedVariantData; variant_name : string }.

Record EnumDefinition := mkEnum {
  enum_conformances : ConformanceMap;
  variants : list ResolvedEnumVariant
}.

Record ResolvedProtocolMethod := mkMethod {
  method_arity : nat;
  method_dispatch : Dispatch;
  has_default : bool;
  method_name : string;
  non_self_params : list ResolvedParam;
  method_return : ResolvedType
}.

Record ProtocolDefinition := mkProtocol { methods : list ResolvedProtocolMethod }.

Record ConstantDefinition := mkConstant { constant_ty : ResolvedType }.

(** [iter().enumerate().find(...)]: the first match with its index. *)
Fixpoint find_index {A} (f : A -> bool) (l : list A) : option (nat * A) :=
  match l with
  | [] => None
  | x :: l => if f x then Some (0%nat, x) else '(i, y) ← find_index f l; Some (S i, y)
  end.

Definition lookup_field (name : string) (d : StructDefinition) : option (nat * ResolvedStructField) :=
  find_index (fun f => bool_decide (field_name f = name)) (struct_fields d).

Definition lookup_variant (name : string) (d : EnumDefinition) : option (nat * ResolvedEnumVariant) :=
  find_index (fun v => bool_decide (variant_name v = name)) (variants d).

Lemma find_index_Some {A} (f : A -> bool) l i x :
  find_index f l = Some (i, x) -> l !! i = Some x /\ f x = true.
Proof.
  revert i. induction l as [|y l IH]; intros i H; simpl in H; [done|].
  destruct (f y) eqn:E; [by simplify_eq/=|]. destruct (find_index f l) as [[j z]|]; simplify_eq/=.
  by apply IH.
Qed.

Lemma find_index_insert {A} (f : A -> bool) l i x y :
  find_index f l = Some (i, x) -> f y = true -> find_index f (<[i:=y]> l) = Some (i, y).
Proof.
  revert i. induction l as [|z l IH]; intros i H Hy; simpl in H; [done|].
  destruct (f z) eqn:E; simplify_eq/=; [by rewrite Hy|].
  destruct (find_index f l) as [[j w]|]; simplify_eq/=. rewrite E. by rewrite (IH j).
Qed.

Lemma find_index_other {A} (f : A -> bool) l i x y :
  l !! i = Some x -> f x = false -> f y = false -> find_index f (<[i:=y]> l) = find_index f l.
Proof.
  revert i. induction l as [|z l IH]; intros [|i] Hi Hx Hy; simplify_eq/=; [by rewrite Hx, Hy|].
  by rewrite (IH i).
Qed.

Lemma find_index_None {A} (f : A -> bool) l : find_index f l = None <-> Forall (fun x => f x = false) l.
Proof.
  induction l as [|y l IH]; simpl; [by split; [constructor|]|]. rewrite Forall_cons.
  destruct (f y); [naive_solver|]. destruct (find_index f l) as [[]|]; simpl; naive_solver.
Qed.

(** *** Registry entries *)

Inductive GlobalKind :=
  | KBuiltin (d : BuiltinDefinition)
  | KConstant (d : option ConstantDefinition)
  | KEnum (d : option EnumDefinition)
  | KFunction (d : FunctionDefinition)
  | KProtocol (d : option ProtocolDefinition)
  | KStruct (d : option StructDefinition)
  | KTypeAlias (expansion : option ResolvedType).

Definition label (k : GlobalKind) : string :=
  match k with
  | KBuiltin _ => "builtin"
  | KConstant _ => "constant"
  | KEnum _ => "enum"
  | KFunction _ => "function"
  | KProtocol _ => "protocol"
  | KStruct _ => "struct"
  | KTypeAlias _ => "type alias"
  end.

Inductive VisibilityScope := Public | PackagePrivate | TypePrivate (id : GlobalRegistryId).

Record RegistryEntry := mkEntry {
  deprecation : option string;
  experimental : option (option string);
  identifier : Identifier;
  kind : GlobalKind;
  name_span : Span;
  span : Span;
  type_params : list string;
  type_param_bounds : list (list ResolvedProtocolBound);
  visibility : VisibilityScope
}.
