(* ===== verification/Registry.v ===== *)
(** * The global registry

    Models [koja-typecheck/src/registry/mod.rs]: the id-keyed table of every
    named declaration with its reverse index by identifier, the inserts that
    gate name uniqueness, the lift stamps, the builtin stubs and the lookups. A
    [panic!], [expect] or failed assertion is [None]; an operation that changes
    the registry returns the new one. The inserts take the parts they read from
    the syntax tree. [next_id] is a [u32] and wraps. *)

From S2P Require Import Prelude Types.
Local Open Scope Z_scope.

(** [BTreeMap<usize, GlobalRegistryId>] is a map iterated in key order. *)
Record NameEntries := mkNames { functions : gmap nat GlobalRegistryId; non_function : option GlobalRegistryId }.

Definition names_default : NameEntries := mkNames ∅ None.

Record GlobalRegistry := mkRegistryOf {
  entries : gmap GlobalRegistryId RegistryEntry;
  by_identifier : gmap Identifier NameEntries;
  next_id : Z;
  unclaimed_builtin_stubs : gset GlobalRegistryId
}.

Definition registry_new : GlobalRegistry := mkRegistryOf ∅ ∅ 0 ∅.

Inductive InsertOutcome := Collision (existing : RegistryEntry) | Fresh (id : GlobalRegistryId).

Inductive ClaimOutcome := ArityMismatch (id : GlobalRegistryId) (expected_arity : nat) | Claimed (id : GlobalRegistryId).

Inductive FunctionLookup := Found (id : GlobalRegistryId) (e : RegistryEntry) | NoFunctions | WrongArity (arities : list nat).

(** [keys()], [values().next()] and [values().next_back()] of a [BTreeMap]. *)
Definition sorted_arities (m : gmap nat GlobalRegistryId) : list nat := merge_sort le (elements (dom m)).
Definition first_value (m : gmap nat GlobalRegistryId) : option GlobalRegistryId :=
  a ← head (sorted_arities m); m !! a.
Definition last_value (m : gmap nat GlobalRegistryId) : option GlobalRegistryId :=
  a ← last (sorted_arities m); m !! a.

(** [Option::or_else]. *)
Definition or_else {A} (o1 o2 : option A) : option A := match o1 with Some _ => o1 | None => o2 end.

Section Operations.
Implicit Types reg : GlobalRegistry.

Definition get (id : GlobalRegistryId) reg : option RegistryEntry := entries reg !! id.

Definition set_entry (id : GlobalRegistryId) (e : RegistryEntry) reg : GlobalRegistry :=
  mkRegistryOf (<[id := e]> (entries reg)) (by_identifier reg) (next_id reg) (unclaimed_builtin_stubs reg).

(** The entry an insert builds. *)
Definition fresh_entry (i : Identifier) (k : GlobalKind) (sp nsp : Span) (tps : list string)
    (vis : VisibilityScope) : RegistryEntry :=
  mkEntry None None i k nsp sp tps (replicate (length tps) []) vis.

(** Mint the next id for [e] and index it under [names]. *)
Definition mint (i : Identifier) (names : GlobalRegistryId -> NameEntries) (e : RegistryEntry) reg
    : InsertOutcome * GlobalRegistry :=
  let id := next_id reg in
  (Fresh id, mkRegistryOf (<[id := e]> (entries reg)) (<[i := names id]> (by_identifier reg))
               (wrap 32 (next_id reg + 1)) (unclaimed_builtin_stubs reg)).

Definition insert (i : Identifier) (k : GlobalKind) (sp nsp : Span) (tps : list string)
    (vis : VisibilityScope) reg : option (InsertOutcome * GlobalRegistry) :=
  let names := default names_default (by_identifier reg !! i) in
  match or_else (non_function names) (first_value (functions names)) with
  | Some id => existing ← get id reg; Some (Collision existing, reg)
  | None => Some (mint i (fun id => mkNames (functions names) (Some id)) (fresh_entry i k sp nsp tps vis) reg)
  end.

Definition insert_constant i sp nsp vis reg := insert i (KConstant None) sp nsp [] vis reg.
Definition insert_enum i sp nsp tps vis reg := insert i (KEnum None) sp nsp tps vis reg.
Definition insert_protocol i sp nsp tps vis reg := insert i (KProtocol None) sp nsp tps vis reg.
Definition insert_struct i sp nsp tps vis reg := insert i (KStruct None) sp nsp tps vis reg.
Definition insert_unclaimed_builtin i sp nsp tps vis reg := insert i (KStruct None) sp nsp tps vis reg.
Definition insert_type_alias i sp nsp vis reg := insert i (KTypeAlias None) sp nsp [] vis reg.

Definition insert_function (i : Identifier) (arity : nat) (origin : FunctionOrigin) (sp nsp : Span)
    (tps : list string) (vis : VisibilityScope) reg : option (InsertOutcome * GlobalRegistry) :=
  let names := default names_default (by_identifier reg !! i) in
  match or_else (non_function names) (functions names !! arity) with
  | Some id => existing ← get id reg; Some (Collision existing, reg)
  | None =>
      Some (mint i (fun id => mkNames (<[arity := id]> (functions names)) (non_function names))
              (fresh_entry i (KFunction (mkFunction arity origin None)) sp nsp tps vis) reg)
  end.

(** *** Stamps *)

Definition with_kind (k : GlobalKind) (e : RegistryEntry) : RegistryEntry :=
  mkEntry (deprecation e) (experimental e) (identifier e) k (name_span e) (span e) (type_params e)
    (type_param_bounds e) (visibility e).

(** [slot] selects the slot a definition goes to, as its current content and
    the kind that holds a new one. *)
Definition stamp {T} (id : GlobalRegistryId) (value : T)
    (slot : GlobalKind -> option (option T * (T -> GlobalKind))) reg : option GlobalRegistry :=
  e ← get id reg;
  '(target, put) ← slot (kind e);
  match target with
  | Some _ => None
  | None => Some (set_entry id (with_kind (put value) e) reg)
  end.

Definition set_enum_definition (id : GlobalRegistryId) (d : EnumDefinition) :=
  stamp id d (fun k => match k with KEnum s => Some (s, fun d => KEnum (Some d)) | _ => None end).
Definition set_protocol_definition (id : GlobalRegistryId) (d : ProtocolDefinition) :=
  stamp id d (fun k => match k with KProtocol s => Some (s, fun d => KProtocol (Some d)) | _ => None end).
Definition set_struct_definition (id : GlobalRegistryId) (d : StructDefinition) :=
  stamp id d (fun k => match k with KStruct s => Some (s, fun d => KStruct (Some d)) | _ => None end).
Definition set_constant_definition (id : GlobalRegistryId) (d : ConstantDefinition) :=
  stamp id d (fun k => match k with KConstant s => Some (s, fun d => KConstant (Some d)) | _ => None end).
Definition set_type_alias_definition (id : GlobalRegistryId) (t : ResolvedType) :=
  stamp id t (fun k => match k with KTypeAlias s => Some (s, fun t => KTypeAlias (Some t)) | _ => None end).
Definition set_signature (id : GlobalRegistryId) (s : FunctionSignature) :=
  stamp id s (fun k => match k with
    | KFunction d => Some (signature d, fun s => KFunction (mkFunction (fn_arity d) (fn_origin d) (Some s)))
    | _ => None
    end).

Definition set_type_alias_definition_force (id : GlobalRegistryId) (expansion : ResolvedType) reg
    : option GlobalRegistry :=
  e ← get id reg;
  match kind e with
  | KTypeAlias _ => Some (set_entry id (with_kind (KTypeAlias (Some expansion)) e) reg)
  | _ => None
  end.

Definition set_deprecation (id : GlobalRegistryId) (message : string) reg : option GlobalRegistry :=
  e ← get id reg;
  Some (set_entry id (mkEntry (Some message) (experimental e) (identifier e) (kind e) (name_span e)
    (span e) (type_params e) (type_param_bounds e) (visibility e)) reg).

Definition set_experimental (id : GlobalRegistryId) (tag : option string) reg : option GlobalRegistry :=
  e ← get id reg;
  Some (set_entry id (mkEntry (deprecation e) (Some tag) (identifier e) (kind e) (name_span e)
    (span e) (type_params e) (type_param_bounds e) (visibility e)) reg).

Definition set_type_param_bounds (owner : GlobalRegistryId) (bounds : list (list ResolvedProtocolBound)) reg
    : option GlobalRegistry :=
  e ← get owner reg;
  if bool_decide (length bounds <> length (type_params e)) then None
  else Some (set_entry owner (mkEntry (deprecation e) (experimental e) (identifier e) (kind e)
         (name_span e) (span e) (type_params e) bounds (visibility e)) reg).

(** *** Builtin stubs *)

(** [claim_builtin_stub]: the outer [None] is a panic, the inner one the
    method's own [None]. *)
Definition claim_builtin_stub (i : Identifier) (sp nsp : Span) (tps : list string) reg
    : option (option ClaimOutcome * GlobalRegistry) :=
  match names ← by_identifier reg !! i; non_function names with
  | None => Some (None, reg)
  | Some id =>
      if negb (bool_decide (id ∈ unclaimed_builtin_stubs reg)) then Some (None, reg)
      else
        e ← get id reg;
        match kind e with
        | KBuiltin d =>
            let reg := mkRegistryOf (entries reg) (by_identifier reg) (next_id reg)
                         (unclaimed_builtin_stubs reg ∖ {[id]}) in
            let e := mkEntry (deprecation e) (experimental e) (identifier e) (kind e) nsp sp
                       (type_params e) (type_param_bounds e) (visibility e) in
            let expected := shape_arity (shape d) in
            if bool_decide (length tps <> expected)
            then Some (Some (ArityMismatch id expected), set_entry id e reg)
            else
              let e := mkEntry (deprecation e) (experimental e) (identifier e) (kind e) nsp sp tps
                         (replicate (length tps) []) (visibility e) in
              Some (Some (Claimed id), set_entry id e reg)
        | _ => None
        end
  end.

Definition seed_builtin_stub (name : string) (s : BuiltinShape) (tps : list string) reg
    : option GlobalRegistry :=
  i ← identifier_single "Global" name;
  '(outcome, reg) ← insert i (KBuiltin (mkBuiltin ∅ s)) span_default span_default tps Public reg;
  match outcome with
  | Fresh id => Some (mkRegistryOf (entries reg) (by_identifier reg) (next_id reg)
                  (unclaimed_builtin_stubs reg ∪ {[id]}))
  | Collision _ => None
  end.

Definition stdlib_stubs : list (string * BuiltinShape * list string) :=
  [("Binary", ShBinary, []); ("Bits", ShBits, []); ("Bool", ShBool, []); ("Float", ShFloat64, []);
   ("Float32", ShFloat32, []); ("Float64", ShFloat64, []); ("Int", ShInt64, []); ("Int8", ShInt8, []);
   ("Int16", ShInt16, []); ("Int32", ShInt32, []); ("Int64", ShInt64, []); ("Never", ShNever, []);
   ("String", ShString, []); ("UInt8", ShUInt8, []); ("UInt16", ShUInt16, []); ("UInt32", ShUInt32, []);
   ("UInt64", ShUInt64, []); ("Unit", ShUnit, []); ("CPtr", ShCPtr, ["T"]); ("List", ShList, ["T"]);
   ("Map", ShMap, ["K"; "V"]); ("Set", ShSet, ["T"])].

Fixpoint seed_all (stubs : list (string * BuiltinShape * list string)) reg : option GlobalRegistry :=
  match stubs with
  | [] => Some reg
  | (name, s, tps) :: rest => reg ← seed_builtin_stub name s tps reg; seed_all rest reg
  end.

Definition with_stdlib_stubs : option GlobalRegistry := seed_all stdlib_stubs registry_new.

(** *** Lookups *)

Definition alias_expansion (id : GlobalRegistryId) reg : option ResolvedType :=
  e ← get id reg; match kind e with KTypeAlias (Some t) => Some t | _ => None end.

Definition builtin_shape (id : GlobalRegistryId) reg : option BuiltinShape :=
  e ← get id reg; match kind e with KBuiltin d => Some (shape d) | _ => None end.

Definition lookup (i : Identifier) reg : option (GlobalRegistryId * RegistryEntry) :=
  names ← by_identifier reg !! i;
  id ← or_else (non_function names) (last_value (functions names));
  e ← get id reg;
  Some (id, e).

Definition lookup_function (i : Identifier) (arity : nat) reg : option (GlobalRegistryId * RegistryEntry) :=
  names ← by_identifier reg !! i;
  id ← functions names !! arity;
  e ← get id reg;
  Some (id, e).

Definition function_arities (i : Identifier) reg : list nat :=
  match by_identifier reg !! i with Some names => sorted_arities (functions names) | None => [] end.

Definition function_lookup (i : Identifier) (arity : nat) reg : FunctionLookup :=
  match lookup_function i arity reg with
  | Some (id, e) => Found id e
  | None =>
      match function_arities i reg with
      | [] => NoFunctions
      | arities => WrongArity arities
      end
  end.

(** [lookup_owner_path]: the outer [None] is [Identifier::new] panicking on an
    empty path or package. *)
Definition lookup_owner_path (path : list string) (current : string) reg
    : option (option (GlobalRegistryId * string * list string)) :=
  i ← identifier_new current path;
  match lookup i reg with
  | Some (id, _) => Some (Some (id, current, path))
  | None =>
      let global :=
        g ← identifier_new "Global" path;
        Some (match lookup g reg with Some (id, _) => Some (id, "Global", path) | None => None end) in
      match path with
      | head :: ((_ :: _) as rest) =>
          q ← identifier_new head rest;
          match lookup q reg with
          | Some (id, _) => Some (Some (id, head, rest))
          | None => global
          end
      | _ => global
      end
  end.

Definition primitive (name : string) reg : option ResolvedType :=
  i ← identifier_single "Global" name; '(id, _) ← lookup i reg; Some (leaf (RGlobal id)).

Definition type_param_name (owner : GlobalRegistryId) (index : TypeParamIndex) reg : option string :=
  e ← get owner reg; type_params e !! Z.to_nat index.

Definition iter_in_package (pkg : string) reg : gmap GlobalRegistryId RegistryEntry :=
  filter (fun p => is_in_package pkg (identifier p.2) = true) (entries reg).

Definition registry_len reg : nat := size (entries reg).
End Operations.

(** ** Scripts of registry operations *)

Inductive RegOp :=
  | OpConstant (i : Identifier) (sp nsp : Span) (vis : VisibilityScope)
  | OpEnum (i : Identifier) (sp nsp : Span) (tps : list string) (vis : VisibilityScope)
  | OpProtocol (i : Identifier) (sp nsp : Span) (tps : list string) (vis : VisibilityScope)
  | OpStruct (i : Identifier) (sp nsp : Span) (tps : list string) (vis : VisibilityScope)
  | OpUnclaimed (i : Identifier) (sp nsp : Span) (tps : list string) (vis : VisibilityScope)
  | OpAlias (i : Identifier) (sp nsp : Span) (vis : VisibilityScope)
  | OpFunction (i : Identifier) (arity : nat) (origin : FunctionOrigin) (sp nsp : Span)
      (tps : list string) (vis : VisibilityScope)
  | OpSetEnum (id : GlobalRegistryId) (d : EnumDefinition)
  | OpSetProtocol (id : GlobalRegistryId) (d : ProtocolDefinition)
  | OpSetStruct (id : GlobalRegistryId) (d : StructDefinition)
  | OpSetConstant (id : GlobalRegistryId) (d : ConstantDefinition)
  | OpSetAlias (id : GlobalRegistryId) (t : ResolvedType)
  | OpForceAlias (id : GlobalRegistryId) (t : ResolvedType)
  | OpSetSignature (id : GlobalRegistryId) (s : FunctionSignature)
  | OpDeprecate (id : GlobalRegistryId) (message : string)
  | OpExperimental (id : GlobalRegistryId) (tag : option string)
  | OpBounds (id : GlobalRegistryId) (bounds : list (list ResolvedProtocolBound))
  | OpClaim (i : Identifier) (sp nsp : Span) (tps : list string).

Definition reg_step (op : RegOp) (reg : GlobalRegistry) : option GlobalRegistry :=
  match op with
  | OpConstant i sp nsp vis => snd <$> insert_constant i sp nsp vis reg
  | OpEnum i sp nsp tps vis => snd <$> insert_enum i sp nsp tps vis reg
  | OpProtocol i sp nsp tps vis => snd <$> insert_protocol i sp nsp tps vis reg
  | OpStruct i sp nsp tps vis => snd <$> insert_struct i sp nsp tps vis reg
  | OpUnclaimed i sp nsp tps vis => snd <$> insert_unclaimed_builtin i sp nsp tps vis reg
  | OpAlias i sp nsp vis => snd <$> insert_type_alias i sp nsp vis reg
  | OpFunction i arity origin sp nsp tps vis => snd <$> insert_function i arity origin sp nsp tps vis reg
  | OpSetEnum id d => set_enum_definition id d reg
  | OpSetProtocol id d => set_protocol_definition id d reg
  | OpSetStruct id d => set_struct_definition id d reg
  | OpSetConstant id d => set_constant_definition id d reg
  | OpSetAlias id t => set_type_alias_definition id t reg
  | OpForceAlias id t => set_type_alias_definition_force id t reg
  | OpSetSignature id s => set_signature id s reg
  | OpDeprecate id message => set_deprecation id message reg
  | OpExperimental id tag => set_experimental id tag reg
  | OpBounds id bounds => set_type_param_bounds id bounds reg
  | OpClaim i sp nsp tps => snd <$> claim_builtin_stub i sp nsp tps reg
  end.

(** [None] when some operation of the script panics. *)
Fixpoint reg_run (ops : list RegOp) (reg : GlobalRegistry) : option GlobalRegistry :=
  match ops with
  | [] => Some reg
  | op :: ops => reg ← reg_step op reg; reg_run ops reg
  end.

(** The registry of a compilation after a script of operations. *)
Definition reg_of (ops : list RegOp) : option GlobalRegistry := reg ← with_stdlib_stubs; reg_run ops reg.

(** ** The index invariant *)

(** The arity a function is indexed by; [None] for every other declaration. *)
Definition fn_key (e : RegistryEntry) : option nat :=
  match kind e with KFunction d => Some (fn_arity d) | _ => None end.

(** [id] is where the index of its name says it is. *)
Definition indexed (id : GlobalRegistryId) (e : RegistryEntry) (names : NameEntries) : Prop :=
  match fn_key e with
  | Some a => functions names !! a = Some id
  | None => non_function names = Some id
  end.

Record reg_wf (reg : GlobalRegistry) : Prop := {
  wf_next : 0 <= next_id reg;
  wf_ids id : is_Some (entries reg !! id) <-> 0 <= id < next_id reg;
  wf_back id e : entries reg !! id = Some e ->
    exists names, by_identifier reg !! identifier e = Some names /\ indexed id e names;
  wf_other i names id : by_identifier reg !! i = Some names -> non_function names = Some id ->
    functions names = ∅ /\ exists e, entries reg !! id = Some e /\ identifier e = i /\ fn_key e = None;
  wf_fun i names a id : by_identifier reg !! i = Some names -> functions names !! a = Some id ->
    exists e, entries reg !! id = Some e /\ identifier e = i /\ fn_key e = Some a;
  wf_bounds id e : entries reg !! id = Some e -> length (type_param_bounds e) = length (type_params e);
  wf_stubs id : id ∈ unclaimed_builtin_stubs reg -> exists e d, entries reg !! id = Some e /\ kind e = KBuiltin d
}.

Lemma reg_new_wf : reg_wf registry_new.
Proof.
  split; simpl; intros; repeat match goal with H : ∅ !! _ = _ |- _ => by rewrite lookup_empty in H end.
  - lia.
  - rewrite lookup_empty. split; [by intros []|lia].
  - set_solver.
Qed.

(** An update that keeps what the indexes depend on. *)
Definition same_key (e e' : RegistryEntry) : Prop :=
  identifier e' = identifier e /\ fn_key e' = fn_key e /\
  (forall d, kind e = KBuiltin d -> kind e' = KBuiltin d) /\
  length (type_param_bounds e') = length (type_params e').

Lemma set_entry_wf id e e' reg :
  reg_wf reg -> get id reg = Some e -> same_key e e' -> reg_wf (set_entry id e' reg).
Proof.
  intros H Hg (Hi & Hk & Hb & Hl). unfold get in Hg.
  assert (forall j f, entries reg !! j = Some f -> exists f', <[id := e']> (entries reg) !! j = Some f' /\
    identifier f' = identifier f /\ fn_key f' = fn_key f /\ (forall d, kind f = KBuiltin d -> kind f' = KBuiltin d))
    as Hfwd.
  { intros j f Hf. destruct (decide (id = j)) as [->|].
    - rewrite lookup_insert_eq. simplify_eq. by exists e'.
    - rewrite lookup_insert_ne by done. by exists f. }
  split; simpl.
  - apply (wf_next _ H).
  - intros j. pose proof (wf_ids _ H j) as Hj. destruct (decide (id = j)) as [->|].
    + rewrite lookup_insert_eq. rewrite Hg in Hj. split; intros _; [by apply Hj|done].
    + by rewrite lookup_insert_ne.
  - intros j f Hf. destruct (decide (id = j)) as [->|].
    + rewrite lookup_insert_eq in Hf. simplify_eq. rewrite Hi. unfold indexed. rewrite Hk. by apply (wf_back _ H).
    + rewrite lookup_insert_ne in Hf by done. by apply (wf_back _ H).
  - intros i names j Hn Hj. destruct (wf_other _ H i names j Hn Hj) as (He & f & Hf & Hif & Hkf).
    split; [done|]. destruct (Hfwd j f Hf) as (f' & ? & ? & ? & _). exists f'. naive_solver congruence.
  - intros i names a j Hn Hj. destruct (wf_fun _ H i names a j Hn Hj) as (f & Hf & Hif & Hkf).
    destruct (Hfwd j f Hf) as (f' & ? & ? & ? & _). exists f'. naive_solver congruence.
  - intros j f Hf. destruct (decide (id = j)) as [->|].
    + rewrite lookup_insert_eq in Hf. by simplify_eq.
    + rewrite lookup_insert_ne in Hf by done. by apply (wf_bounds _ H j).
  - intros j Hj. destruct (wf_stubs _ H j Hj) as (f & d & Hf & Hd). destruct (Hfwd j f Hf) as (f' & ? & ? & ? & Hb').
    exists f', d. auto.
Qed.

Lemma elem_sorted_arities m a : a ∈ sorted_arities m <-> is_Some (m !! a).
Proof. unfold sorted_arities. by rewrite merge_sort_Permutation, elem_of_elements, elem_of_dom. Qed.

Lemma sorted_arities_nil m : sorted_arities m = [] -> m = ∅.
Proof.
  intros E. apply map_empty. intros a. destruct (m !! a) eqn:Ea; [|done].
  assert (a ∈ sorted_arities m) as Ha by by apply elem_sorted_arities; rewrite Ea.
  rewrite E in Ha. by apply not_elem_of_nil in Ha.
Qed.

Lemma sorted_arities_empty : sorted_arities ∅ = [].
Proof. unfold sorted_arities. by rewrite dom_empty_L, elements_empty. Qed.

Lemma first_value_None m : first_value m = None <-> m = ∅.
Proof.
  unfold first_value. split; [|intros ->; by rewrite sorted_arities_empty].
  intros H. apply sorted_arities_nil. destruct (sorted_arities m) as [|b l] eqn:E; [done|].
  simpl in H. assert (is_Some (m !! b)) as [] by (apply elem_sorted_arities; rewrite E; left). congruence.
Qed.

Lemma first_value_Some m id : first_value m = Some id -> exists a, m !! a = Some id.
Proof. unfold first_value. intros H. apply bind_Some in H as (a & _ & Ha). eauto. Qed.

Lemma last_value_Some m id : last_value m = Some id -> exists a, m !! a = Some id.
Proof. unfold last_value. intros H. apply bind_Some in H as (a & _ & Ha). eauto. Qed.

Lemma last_value_None m : last_value m = None <-> m = ∅.
Proof.
  unfold last_value. split; [|intros ->; by rewrite sorted_arities_empty].
  intros H. destruct (last (sorted_arities m)) as [b|] eqn:E; simpl in H.
  - apply last_Some_elem_of, elem_sorted_arities in E as []. congruence.
  - by apply last_None, sorted_arities_nil in E.
Qed.

(** The names indexed under an identifier, empty when there are none. *)
Definition names_of (i : Identifier) (reg : GlobalRegistry) : NameEntries :=
  default names_default (by_identifier reg !! i).

(** The names an insert writes: the old ones and the new entry. *)
Record extends (id : Z) (e : RegistryEntry) (old new : NameEntries) : Prop := {
  ext_new : indexed id e new;
  ext_fun a j : functions new !! a = Some j -> (j = id /\ fn_key e = Some a) \/ functions old !! a = Some j;
  ext_other j : non_function new = Some j -> functions new = ∅ /\ ((j = id /\ fn_key e = None) \/ non_function old = Some j);
  ext_keep_fun a j : functions old !! a = Some j -> functions new !! a = Some j;
  ext_keep_other j : non_function old = Some j -> non_function new = Some j
}.

Lemma mint_wf i names e reg :
  reg_wf reg -> next_id reg + 1 < 2 ^ 32 -> identifier e = i ->
  length (type_param_bounds e) = length (type_params e) ->
  extends (next_id reg) e (names_of i reg) (names (next_id reg)) -> reg_wf (mint i names e reg).2.
Proof.
  intros H Hn Hi Hl He. pose proof (wf_next _ H) as H0. set (id := next_id reg) in *.
  assert (entries reg !! id = None) as Hfresh.
  { apply eq_None_not_Some. rewrite (wf_ids _ H). lia. }
  assert (forall j f, entries reg !! j = Some f -> <[id := e]> (entries reg) !! j = Some f) as Hkeep.
  { intros j f Hf. rewrite lookup_insert_ne; [done|]. intros <-. congruence. }
  assert (forall j m, by_identifier reg !! j = Some m -> names_of j reg = m) as Hnames.
  { intros j m Hm. unfold names_of. by rewrite Hm. }
  split; simpl; fold id.
  - pose proof (wrap_range 32 (id + 1)). lia.
  - intros j. rewrite wrap_small by lia. pose proof (wf_ids _ H j) as Hj. destruct (decide (id = j)) as [<-|].
    + rewrite lookup_insert_eq. split; [lia|done].
    + rewrite lookup_insert_ne by done. rewrite Hj. unfold id in *. lia.
  - intros j f Hf. destruct (decide (id = j)) as [<-|].
    + rewrite lookup_insert_eq in Hf. simplify_eq. rewrite lookup_insert_eq. eexists. split; [done|]. apply He.
    + rewrite lookup_insert_ne in Hf by done. destruct (wf_back _ H j f Hf) as (m & Hm & Hx).
      destruct (decide (i = identifier f)) as [->|].
      * rewrite lookup_insert_eq. eexists. split; [done|]. rewrite (Hnames _ _ Hm) in He. unfold indexed in *.
        destruct (fn_key f); [by apply (ext_keep_fun _ _ _ _ He)|by apply (ext_keep_other _ _ _ _ He)].
      * rewrite lookup_insert_ne by done. by exists m.
  - intros k m j Hm Hj. destruct (decide (i = k)) as [<-|].
    + rewrite lookup_insert_eq in Hm. simplify_eq. destruct (ext_other _ _ _ _ He j Hj) as [Hempty Hc]. split; [done|].
      destruct Hc as [[-> Hk]|Ho]; [exists e; by rewrite lookup_insert_eq|].
      unfold names_of in Ho. destruct (by_identifier reg !! identifier e) as [m|] eqn:E; [|done].
      destruct (wf_other _ H _ m j E Ho) as (_ & f & Hf & ?). exists f. split; [by apply Hkeep|done].
    + rewrite lookup_insert_ne in Hm by done. destruct (wf_other _ H k m j Hm Hj) as (? & f & Hf & ?).
      split; [done|]. exists f. split; [by apply Hkeep|done].
  - intros k m a j Hm Hj. destruct (decide (i = k)) as [<-|].
    + rewrite lookup_insert_eq in Hm. simplify_eq.
      destruct (ext_fun _ _ _ _ He a j Hj) as [[-> Hk]|Ho]; [exists e; by rewrite lookup_insert_eq|].
      unfold names_of in Ho. destruct (by_identifier reg !! identifier e) as [m|] eqn:E; simpl in Ho; [|by rewrite lookup_empty in Ho].
      destruct (wf_fun _ H _ m a j E Ho) as (f & Hf & ?). exists f. split; [by apply Hkeep|done].
    + rewrite lookup_insert_ne in Hm by done. destruct (wf_fun _ H k m a j Hm Hj) as (f & Hf & ?).
      exists f. split; [by apply Hkeep|done].
  - intros j f Hf. destruct (decide (id = j)) as [<-|].
    + rewrite lookup_insert_eq in Hf. by simplify_eq.
    + rewrite lookup_insert_ne in Hf by done. by apply (wf_bounds _ H j).
  - intros j Hj. destruct (wf_stubs _ H j Hj) as (f & d & Hf & Hd). exists f, d. auto.
Qed.

Lemma fresh_entry_bounds i k sp nsp tps vis :
  length (type_param_bounds (fresh_entry i k sp nsp tps vis)) = length (type_params (fresh_entry i k sp nsp tps vis)).
Proof. simpl. apply length_replicate. Qed.

(** ** What the inserts do *)

Section Inserts.
Context (reg : GlobalRegistry) (Hwf : reg_wf reg).

Lemma names_other i id :
  non_function (names_of i reg) = Some id ->
  exists e, get id reg = Some e /\ identifier e = i /\ fn_key e = None.
Proof.
  unfold names_of. destruct (by_identifier reg !! i) as [m|] eqn:E; [|done]. simpl. intros Hi.
  by destruct (wf_other _ Hwf i m id E Hi).
Qed.

Lemma names_fun i a id :
  functions (names_of i reg) !! a = Some id ->
  exists e, get id reg = Some e /\ identifier e = i /\ fn_key e = Some a.
Proof.
  unfold names_of. destruct (by_identifier reg !! i) as [m|] eqn:E; simpl.
  - by apply (wf_fun _ Hwf i m a id E).
  - by rewrite lookup_empty.
Qed.

Lemma other_excludes_fun i a id j :
  non_function (names_of i reg) = Some id -> functions (names_of i reg) !! a = Some j -> False.
Proof.
  unfold names_of. destruct (by_identifier reg !! i) as [m|] eqn:E; [|done]. simpl. intros Hi Ha.
  destruct (wf_other _ Hwf i m id E Hi) as [He _]. by rewrite He, lookup_empty in Ha.
Qed.

Lemma names_back id e : get id reg = Some e -> indexed id e (names_of (identifier e) reg).
Proof.
  intros Hg. destruct (wf_back _ Hwf id e Hg) as (m & Hm & Hx). unfold names_of. by rewrite Hm.
Qed.

(** The declaration an insert collides with, if there is one. *)
Lemma registry_insert_spec i k sp nsp tps vis :
  (forall d, k <> KFunction d) ->
  exists o reg', insert i k sp nsp tps vis reg = Some (o, reg') /\
    match o with
    | Collision e => reg' = reg /\ identifier e = i /\ exists id, get id reg = Some e
    | Fresh id =>
        id = next_id reg /\ (forall j e, get j reg = Some e -> identifier e <> i) /\
        reg' = (mint i (fun id => mkNames ∅ (Some id)) (fresh_entry i k sp nsp tps vis) reg).2
    end.
Proof.
  intros Hk. unfold insert. change (default names_default (by_identifier reg !! i)) with (names_of i reg).
  destruct (non_function (names_of i reg)) as [id|] eqn:En; simpl.
  - destruct (names_other i id En) as (e & He & Hi & _). rewrite He. eexists _, _. split; [done|]. simpl. eauto.
  - destruct (first_value (functions (names_of i reg))) as [id|] eqn:Ef.
    + apply first_value_Some in Ef as [a Ha]. destruct (names_fun i a id Ha) as (e & He & Hi & _). rewrite He.
      eexists _, _. split; [done|]. simpl. eauto.
    + apply first_value_None in Ef. rewrite Ef. eexists _, _. split; [done|]. simpl. split; [done|]. split; [|done].
      intros j e Hj <-. apply names_back in Hj. unfold indexed in Hj.
      destruct (fn_key e); [by rewrite Ef, lookup_empty in Hj|congruence].
Qed.

Lemma insert_function_spec i a origin sp nsp tps vis :
  exists o reg', insert_function i a origin sp nsp tps vis reg = Some (o, reg') /\
    match o with
    | Collision e => reg' = reg /\ identifier e = i /\ (fn_key e = None \/ fn_key e = Some a) /\ exists id, get id reg = Some e
    | Fresh id =>
        id = next_id reg /\
        (forall j e, get j reg = Some e -> identifier e = i -> exists b, fn_key e = Some b /\ b <> a) /\
        reg' = (mint i (fun id => mkNames (<[a := id]> (functions (names_of i reg))) None)
                  (fresh_entry i (KFunction (mkFunction a origin None)) sp nsp tps vis) reg).2
    end.
Proof.
  unfold insert_function. change (default names_default (by_identifier reg !! i)) with (names_of i reg).
  destruct (non_function (names_of i reg)) as [id|] eqn:En; simpl.
  - destruct (names_other i id En) as (e & He & Hi & Hk). rewrite He. eexists _, _. split; [done|]. simpl. eauto 10.
  - destruct (functions (names_of i reg) !! a) as [id|] eqn:Ef.
    + destruct (names_fun i a id Ef) as (e & He & Hi & Hk). rewrite He. eexists _, _. split; [done|]. simpl. eauto 10.
    + eexists _, _. split; [done|]. simpl. split; [done|]. split; [|done].
      intros j e Hj <-. apply names_back in Hj. unfold indexed in Hj.
      destruct (fn_key e) as [b|]; [|congruence]. exists b. split; [done|]. congruence.
Qed.

Lemma insert_wf i k sp nsp tps vis o reg' :
  (forall d, k <> KFunction d) -> next_id reg + 1 < 2 ^ 32 ->
  insert i k sp nsp tps vis reg = Some (o, reg') -> reg_wf reg'.
Proof.
  intros Hk Hn E. destruct (registry_insert_spec i k sp nsp tps vis Hk) as (o' & r' & E' & Ho). simplify_eq.
  destruct o as [e|id]; [by destruct Ho as [-> _]|]. destruct Ho as (_ & Hfree & ->).
  apply mint_wf; try done; [apply fresh_entry_bounds|].
  assert (fn_key (fresh_entry i k sp nsp tps vis) = None) as Hkey by (unfold fn_key; simpl; destruct k; naive_solver).
  split; unfold indexed; rewrite ?Hkey; simpl; try done.
  - intros j [= <-]. split; [done|]. by left.
  - intros a j Hj. destruct (names_fun i a j Hj) as (e & He & Hi & _). by apply Hfree in He.
  - intros j Hj. destruct (names_other i j Hj) as (e & He & Hi & _). by apply Hfree in He.
Qed.

Lemma insert_function_wf i a origin sp nsp tps vis o reg' :
  next_id reg + 1 < 2 ^ 32 -> insert_function i a origin sp nsp tps vis reg = Some (o, reg') -> reg_wf reg'.
Proof.
  intros Hn E. destruct (insert_function_spec i a origin sp nsp tps vis) as (o' & r' & E' & Ho). simplify_eq.
  destruct o as [e|id]; [by destruct Ho as [-> _]|]. destruct Ho as (_ & Hfree & ->).
  apply mint_wf; try done; [apply fresh_entry_bounds|]. split; unfold indexed, fn_key; simpl.
  - apply lookup_insert_eq.
  - intros b j. destruct (decide (a = b)) as [<-|]; [rewrite lookup_insert_eq; naive_solver|].
    rewrite lookup_insert_ne by done. by right.
  - done.
  - intros b j Hj. destruct (names_fun i b j Hj) as (e & He & Hi & Hb).
    destruct (Hfree j e He Hi) as (b' & Hb' & Hne). rewrite lookup_insert_ne by congruence. done.
  - intros j Hj. destruct (names_other i j Hj) as (e & He & Hi & Hnone).
    destruct (Hfree j e He Hi) as (b & Hb & _). congruence.
Qed.
End Inserts.

(** ** Every operation keeps the invariant *)

(** A step neither forgets an id nor mints more than one. *)
Definition keeps (reg reg' : GlobalRegistry) : Prop :=
  reg_wf reg' /\ next_id reg <= next_id reg' <= next_id reg + 1.

Lemma set_entry_keeps id e e' reg :
  reg_wf reg -> get id reg = Some e -> same_key e e' -> keeps reg (set_entry id e' reg).
Proof. intros. split; [by eapply set_entry_wf|simpl; lia]. Qed.

Lemma stamp_keeps {T} id (value : T) slot reg reg' :
  reg_wf reg -> stamp id value slot reg = Some reg' ->
  (forall e cur put, slot (kind e) = Some (cur, put) ->
     fn_key (with_kind (put value) e) = fn_key e /\ forall d, kind e <> KBuiltin d) ->
  keeps reg reg'.
Proof.
  intros Hwf E Hslot. unfold stamp in E. destruct (get id reg) as [e|] eqn:Hg; [|done]. simpl in E.
  destruct (slot (kind e)) as [[cur put]|] eqn:Hs; [|done]. simpl in E. destruct cur; [done|]. simplify_eq.
  destruct (Hslot e _ _ Hs) as [Hk Hb]. apply (set_entry_keeps id e); [done..|].
  split; [done|]. split; [done|]. split; [intros d Hd; by destruct (Hb d)|]. exact (wf_bounds _ Hwf id e Hg).
Qed.

Lemma insert_keeps i k sp nsp tps vis reg reg' :
  reg_wf reg -> next_id reg + 1 < 2 ^ 32 -> (forall d, k <> KFunction d) ->
  snd <$> insert i k sp nsp tps vis reg = Some reg' -> keeps reg reg'.
Proof.
  intros Hwf Hn Hk E. apply fmap_Some in E as ([o r] & E & ->). simpl. split; [by eapply insert_wf|].
  destruct (registry_insert_spec reg Hwf i k sp nsp tps vis Hk) as (o' & r' & E' & Ho). simplify_eq.
  destruct o; destruct Ho as (? & ? & ?); simplify_eq/=; [lia|].
  pose proof (wf_next _ Hwf). rewrite wrap_small by lia. lia.
Qed.

Lemma insert_function_keeps i a origin sp nsp tps vis reg reg' :
  reg_wf reg -> next_id reg + 1 < 2 ^ 32 ->
  snd <$> insert_function i a origin sp nsp tps vis reg = Some reg' -> keeps reg reg'.
Proof.
  intros Hwf Hn E. apply fmap_Some in E as ([o r] & E & ->). simpl. split; [by eapply insert_function_wf|].
  destruct (insert_function_spec reg Hwf i a origin sp nsp tps vis) as (o' & r' & E' & Ho). simplify_eq.
  destruct o; [destruct Ho as [-> _]; lia|]. destruct Ho as (? & ? & ->). simpl.
  pose proof (wf_next _ Hwf). rewrite wrap_small by lia. lia.
Qed.

Lemma unclaim_wf id reg :
  reg_wf reg -> reg_wf (mkRegistryOf (entries reg) (by_identifier reg) (next_id reg) (unclaimed_builtin_stubs reg ∖ {[id]})).
Proof.
  intros H. split; simpl; try apply H. intros j Hj. apply (wf_stubs _ H). set_solver.
Qed.

Lemma claim_stub_keeps i sp nsp tps reg reg' :
  reg_wf reg -> snd <$> claim_builtin_stub i sp nsp tps reg = Some reg' -> keeps reg reg'.
Proof.
  intros Hwf E. apply fmap_Some in E as ([o r] & E & ->). simpl. unfold claim_builtin_stub in E.
  assert (keeps reg reg) as Hsame by (split; [done|lia]).
  destruct (names ← by_identifier reg !! i; non_function names) as [id|]; [|by simplify_eq].
  destruct (negb _); [by simplify_eq|]. destruct (get id reg) as [e|] eqn:Hg; [|done]. simpl in E.
  destruct (kind e) as [d| | | | | |] eqn:Hk; try done. pose proof (wf_bounds _ Hwf id e Hg) as Hb.
  destruct (bool_decide _); simplify_eq; split; try (simpl; lia);
    eapply set_entry_wf; eauto using unclaim_wf; repeat split; unfold fn_key; simpl; rewrite ?Hk, ?length_replicate;
    naive_solver.
Qed.

Lemma reg_step_keeps op reg reg' :
  reg_wf reg -> next_id reg + 1 < 2 ^ 32 -> reg_step op reg = Some reg' -> keeps reg reg'.
Proof.
  intros Hwf Hn E. destruct op; simpl in E;
    try (by eapply insert_keeps; [..|exact E]); try (by eapply insert_function_keeps; [..|exact E]);
    try (by eapply claim_stub_keeps); try (eapply stamp_keeps; [done|exact E|]; intros e cur put Hs;
      unfold fn_key, with_kind; simpl; destruct (kind e); naive_solver).
  - unfold set_type_alias_definition_force in E. destruct (get id reg) as [e|] eqn:Hg; [|done]. simpl in E.
    destruct (kind e) eqn:Hk; try done. simplify_eq. eapply set_entry_keeps; [done..|].
    repeat split; unfold fn_key; simpl; rewrite ?Hk; [done..|]. exact (wf_bounds _ Hwf id e Hg).
  - unfold set_deprecation in E. destruct (get id reg) as [e|] eqn:Hg; simplify_eq/=.
    eapply set_entry_keeps; [done..|]. repeat split; [done|]. exact (wf_bounds _ Hwf id e Hg).
  - unfold set_experimental in E. destruct (get id reg) as [e|] eqn:Hg; simplify_eq/=.
    eapply set_entry_keeps; [done..|]. repeat split; [done|]. exact (wf_bounds _ Hwf id e Hg).
  - unfold set_type_param_bounds in E. destruct (get id reg) as [e|] eqn:Hg; [|done]. simpl in E.
    case_bool_decide as Hl; [done|]. simplify_eq. eapply set_entry_keeps; [done..|]. repeat split; [done|].
    simpl. lia.
Qed.

Lemma reg_run_wf ops reg reg' :
  reg_wf reg -> next_id reg + Z.of_nat (length ops) < 2 ^ 32 -> reg_run ops reg = Some reg' -> reg_wf reg'.
Proof.
  revert reg. induction ops as [|op ops IH]; intros reg Hwf Hn E; [by simplify_eq/=|]. cbn [reg_run length] in *.
  apply bind_Some in E as (r & E & Er). destruct (reg_step_keeps op reg r Hwf ltac:(lia) E) as [Hr Hnr].
  eapply IH; [done| |done]. lia.
Qed.

Lemma seed_keeps name sh tps reg reg' :
  reg_wf reg -> next_id reg + 1 < 2 ^ 32 -> seed_builtin_stub name sh tps reg = Some reg' -> keeps reg reg'.
Proof.
  intros Hwf Hn E. unfold seed_builtin_stub in E. apply bind_Some in E as (i & _ & E).
  apply bind_Some in E as ([o r] & Ei & E). assert (keeps reg r) as [Hr Hnr].
  { eapply insert_keeps; [done..| |by rewrite Ei]. done. }
  destruct o as [|id]; [done|]. simplify_eq. split; [|exact Hnr].
  destruct (registry_insert_spec reg Hwf i (KBuiltin (mkBuiltin ∅ sh)) span_default span_default tps Public ltac:(done))
    as (o & r' & Ei' & Ho). rewrite Ei in Ei'. simplify_eq. destruct Ho as (-> & _ & ->).
  split; try apply Hr. intros j Hj. cbn [unclaimed_builtin_stubs] in Hj.
  apply elem_of_union in Hj as [Hj|Hj%elem_of_singleton]; [by apply (wf_stubs _ Hr)|]. subst j.
  eexists _, _. cbn. by rewrite lookup_insert_eq.
Qed.

Lemma seed_all_wf stubs reg reg' :
  reg_wf reg -> next_id reg + Z.of_nat (length stubs) < 2 ^ 32 -> seed_all stubs reg = Some reg' ->
  reg_wf reg' /\ next_id reg' <= next_id reg + Z.of_nat (length stubs).
Proof.
  revert reg. induction stubs as [|[[name sh] tps] stubs IH]; intros reg Hwf Hn E.
  - simplify_eq/=. split; [done|lia].
  - cbn [seed_all length] in *. apply bind_Some in E as (r & E & Er).
    destruct (seed_keeps name sh tps reg r Hwf ltac:(lia) E) as [Hr Hnr].
    destruct (IH r Hr ltac:(lia) Er). split; [done|lia].
Qed.

(** Seeding the builtin stubs never panics. *)
Lemma with_stdlib_stubs_some : exists reg, with_stdlib_stubs = Some reg.
Proof.
  assert (match with_stdlib_stubs with Some _ => true | None => false end = true) as H by (vm_compute; reflexivity).
  destruct with_stdlib_stubs as [reg|]; [by exists reg|done].
Qed.

Lemma reg_of_wf ops reg : Z.of_nat (length ops) < 2 ^ 32 - 22 -> reg_of ops = Some reg -> reg_wf reg.
Proof.
  intros Hn E. unfold reg_of in E. destruct with_stdlib_stubs as [r0|] eqn:E0; [|done]. simpl in E.
  destruct (seed_all_wf stdlib_stubs registry_new r0 reg_new_wf ltac:(simpl; lia) E0) as [H0 Hn0].
  simpl in Hn0. eapply reg_run_wf; [exact H0| |exact E]. lia.
Qed.

(** The registry gates name uniqueness and its reverse index is exact. After any
    script of inserts, stamps and claims over the seeded stubs, two entries share an
    identifier only if both are functions of different arities; every entry is found
    under its own name (a function at its arity, any other declaration by [lookup]);
    and a name looked up never resolves to an entry of another name. *)
Theorem registry_names_unique (ops : list RegOp) (reg : GlobalRegistry)
    (Hops : Z.of_nat (length ops) < 2 ^ 32 - 22) (Hreg : reg_of ops = Some reg) :
  (forall id1 e1 id2 e2, get id1 reg = Some e1 -> get id2 reg = Some e2 -> identifier e1 = identifier e2 ->
     id1 = id2 \/ exists a1 a2, fn_key e1 = Some a1 /\ fn_key e2 = Some a2 /\ a1 <> a2) /\
  (forall id e, get id reg = Some e ->
     match fn_key e with
     | Some a => lookup_function (identifier e) a reg = Some (id, e)
     | None => lookup (identifier e) reg = Some (id, e)
     end) /\
  (forall i id e, lookup i reg = Some (id, e) -> get id reg = Some e /\ identifier e = i) /\
  (forall i a id e, lookup_function i a reg = Some (id, e) ->
     get id reg = Some e /\ identifier e = i /\ fn_key e = Some a).
Proof.
  pose proof (reg_of_wf ops reg Hops Hreg) as Hwf. clear Hreg. split; [|split; [|split]].
  - intros id1 e1 id2 e2 H1 H2 Hi. pose proof (names_back reg Hwf id1 e1 H1) as I1.
    pose proof (names_back reg Hwf id2 e2 H2) as I2. rewrite <- Hi in I2. unfold indexed in I1, I2.
    destruct (fn_key e1) as [a1|], (fn_key e2) as [a2|]; [|exfalso|exfalso|left; congruence].
    + destruct (decide (a1 = a2)) as [->|]; [left; congruence|right; eauto].
    + by eapply other_excludes_fun.
    + by eapply other_excludes_fun.
  - intros id e Hg. destruct (wf_back _ Hwf id e Hg) as (m & Hm & Hx). unfold indexed, lookup, lookup_function in *.
    rewrite Hm. destruct (fn_key e); simpl; rewrite Hx; simpl; unfold get in *; by rewrite Hg.
  - intros i id e H. unfold lookup in H. destruct (by_identifier reg !! i) as [m|] eqn:Hm; [|done]. simpl in H.
    destruct (non_function m) as [j|] eqn:Hj; simpl in H.
    + destruct (wf_other _ Hwf i m j Hm Hj) as (_ & f & Hf & Hif & _). unfold get in *. by rewrite Hf in H; simplify_eq/=.
    + destruct (last_value (functions m)) as [j|] eqn:Hl; [|done]. apply last_value_Some in Hl as [a Ha].
      destruct (wf_fun _ Hwf i m a j Hm Ha) as (f & Hf & Hif & _). unfold get in *. simpl in H.
      by rewrite Hf in H; simplify_eq/=.
  - intros i a id e H. unfold lookup_function in H. destruct (by_identifier reg !! i) as [m|] eqn:Hm; [|done].
    simpl in H. destruct (functions m !! a) as [j|] eqn:Ha; [|done]. simpl in H.
    destruct (wf_fun _ Hwf i m a j Hm Ha) as (f & Hf & Hif & Hk). unfold get in *.
    by rewrite Hf in H; simplify_eq/=.
Qed.

(** A two-arity function and a struct beside the seeded stubs. *)
Definition sample_names : list RegOp :=
  [OpFunction (mkIdentifier "App" ["run"]) 1 Explicit span_default span_default [] Public;
   OpFunction (mkIdentifier "App" ["run"]) 2 Explicit span_default span_default [] Public;
   OpStruct (mkIdentifier "App" ["Point"]) span_default span_default ["T"] Public;
   OpStruct (mkIdentifier "App" ["run"]) span_default span_default [] Public;
   OpSetStruct 24 (mkStruct ∅ [mkField "x" (leaf (RGlobal 6))]);
   OpClaim (mkIdentifier "Global" ["List"]) span_default span_default ["E"]].

Lemma registry_names_unique_witness :
  exists reg, reg_of sample_names = Some reg /\
    forall i id e, lookup i reg = Some (id, e) -> get id reg = Some e /\ identifier e = i.
Proof.
  destruct (reg_of sample_names) as [reg|] eqn:E.
  - exists reg. split; [done|]. apply (registry_names_unique sample_names reg); [by vm_compute|exact E].
  - exfalso. assert (match reg_of sample_names with Some _ => true | None => false end = true) as H
      by (vm_compute; reflexivity). rewrite E in H. discriminate.
Defined.

(** The inserts reject exactly the taken names, and never panic. In any reachable
    registry an insert of a non-function returns [Fresh] with the next id precisely
    when no entry has its identifier, an insert of a function precisely when no
    non-function has its identifier and no function has it at the same arity;
    otherwise it returns a registered entry of that name and changes nothing. *)
Theorem registry_insert_gate (ops : list RegOp) (reg : GlobalRegistry)
    (Hops : Z.of_nat (length ops) < 2 ^ 32 - 22) (Hreg : reg_of ops = Some reg)
    (i : Identifier) (sp nsp : Span) (tps : list string) (vis : VisibilityScope) :
  (forall k, (forall d, k <> KFunction d) -> exists o reg', insert i k sp nsp tps vis reg = Some (o, reg') /\
     match o with
     | Fresh id => id = next_id reg /\ get id reg' <> None /\ (forall j e, get j reg = Some e -> identifier e <> i)
     | Collision e => reg' = reg /\ identifier e = i /\ exists id, get id reg = Some e
     end) /\
  (forall a origin, exists o reg', insert_function i a origin sp nsp tps vis reg = Some (o, reg') /\
     match o with
     | Fresh id => id = next_id reg /\ get id reg' <> None /\
         (forall j e, get j reg = Some e -> identifier e = i -> exists b, fn_key e = Some b /\ b <> a)
     | Collision e => reg' = reg /\ identifier e = i /\ (fn_key e = None \/ fn_key e = Some a) /\
         exists id, get id reg = Some e
     end).
Proof.
  pose proof (reg_of_wf ops reg Hops Hreg) as Hwf. clear Hreg. split.
  - intros k Hk. destruct (registry_insert_spec reg Hwf i k sp nsp tps vis Hk) as (o & r & E & Ho).
    exists o, r. split; [exact E|]. destruct o as [e|id]; [done|]. destruct Ho as (-> & Hfree & ->).
    split; [done|]. split; [|done]. unfold get. simpl. by rewrite lookup_insert_eq.
  - intros a origin. destruct (insert_function_spec reg Hwf i a origin sp nsp tps vis) as (o & r & E & Ho).
    exists o, r. split; [exact E|]. destruct o as [e|id]; [done|]. destruct Ho as (-> & Hfree & ->).
    split; [done|]. split; [|done]. unfold get. simpl. by rewrite lookup_insert_eq.
Qed.

Lemma registry_insert_gate_witness :
  exists reg, reg_of sample_names = Some reg /\
    exists o reg', insert_struct (mkIdentifier "App" ["Point"]) span_default span_default [] Public reg = Some (o, reg').
Proof.
  destruct (reg_of sample_names) as [reg|] eqn:E.
  - exists reg. split; [done|].
    destruct (registry_insert_gate sample_names reg ltac:(by vm_compute) E
      (mkIdentifier "App" ["Point"]) span_default span_default [] Public) as [H _].
    destruct (H (KStruct None) ltac:(done)) as (o & r & H' & _). eauto.
  - exfalso. assert (match reg_of sample_names with Some _ => true | None => false end = true) as H
      by (vm_compute; reflexivity). rewrite E in H. discriminate.
Defined.
