(* ===== verification/Unify.v ===== *)
(** * Type equivalence, substitution and inference

    Models the registry-backed predicates of
    [koja-typecheck/src/pipeline/resolve/types.rs] that inference uses and
    [koja-typecheck/src/pipeline/unify.rs]. [types_equivalent] follows aliases
    at every level, so its recursion is on fuel and [None] is out of fuel;
    [unify_into] recurses on the template. An operation that can fail with a
    [Conflict] returns it together with the substitution it leaves behind. *)

From S2P Require Import Prelude Types Registry.
Local Open Scope Z_scope.

(** ** Primitives and aliases *)

Definition is_primitive (t : ResolvedType) (reg : GlobalRegistry) (name : string) : bool :=
  match t with
  | Named (RGlobal id) [] =>
      match get id reg with
      | Some e => is_in_global (identifier e) && bool_decide (identifier_last (identifier e) = Some name)
      | None => false
      end
  | _ => false
  end.

Definition is_arithmetic_type (t : ResolvedType) (reg : GlobalRegistry) : bool :=
  existsb (is_primitive t reg)
    ["Float"; "Float32"; "Int"; "Int16"; "Int32"; "Int64"; "Int8"; "UInt16"; "UInt32"; "UInt64"; "UInt8"].

Fixpoint peel_alias_capped (fuel : nat) (t : ResolvedType) (reg : GlobalRegistry) : ResolvedType :=
  match fuel with
  | O => t
  | S fuel =>
      match t with
      | Named (RGlobal id) [] =>
          match alias_expansion id reg with
          | Some expansion => peel_alias_capped fuel expansion reg
          | None => t
          end
      | _ => t
      end
  end.

Definition peel_alias (t : ResolvedType) (reg : GlobalRegistry) : ResolvedType := peel_alias_capped 32 t reg.

Definition is_primitive_pair (a b : ResolvedType) (reg : GlobalRegistry) (lhs rhs : string) : bool :=
  (is_primitive a reg lhs && is_primitive b reg rhs) || (is_primitive a reg rhs && is_primitive b reg lhs).

Definition primitive_aliases (a b : ResolvedType) (reg : GlobalRegistry) : bool :=
  is_primitive_pair a b reg "Int" "Int64" || is_primitive_pair a b reg "Float" "Float64".

(** [zip(..).all(..)]: stops at the first failure. *)
Definition zip_all (f : ResolvedType -> ResolvedType -> option bool) :=
  fix go (l l' : list ResolvedType) : option bool :=
    match l, l' with
    | x :: l, y :: l' => r ← f x y; if r : bool then go l l' else Some false
    | _, _ => Some true
    end.

Definition is_nil {A} (l : list A) : bool := match l with [] => true | _ => false end.

Definition same_length {A} (l l' : list A) : bool := (length l =? length l')%nat.

Fixpoint types_equivalent (fuel : nat) (a b : ResolvedType) (reg : GlobalRegistry) : option bool :=
  match fuel with
  | O => None
  | S fuel =>
      let equiv := fun x y => types_equivalent fuel x y reg in
      if bool_decide (a = b) then Some true
      else
        let a := peel_alias a reg in
        let b := peel_alias b reg in
        if bool_decide (a = b) then Some true
        else
          match a, b with
          | Named ha aa, Named hb ab =>
              if bool_decide (ha = hb) && same_length aa ab then zip_all equiv aa ab
              else Some (is_nil aa && is_nil ab && primitive_aliases a b reg)
          | FunctionType pa ra, FunctionType pb rb =>
              if same_length pa pb
              then r ← zip_all equiv pa pb; if r : bool then equiv ra rb else Some false
              else Some false
          | TupleType ea, TupleType eb => if same_length ea eb then zip_all equiv ea eb else Some false
          | UnionType ma, UnionType mb => if same_length ma mb then zip_all equiv ma mb else Some false
          | _, _ => Some false
          end
  end.

(** ** Substitutions *)

Record Conflict := mkConflict {
  actual_ty : ResolvedType;
  conflict_owner : GlobalRegistryId;
  param_index : nat;
  prev_ty : ResolvedType
}.

Record Scope := mkScope { owner : GlobalRegistryId; slots : list (option ResolvedType) }.

Definition Substitution := list Scope.

Definition subst_empty : Substitution := [].

Definition single (o : GlobalRegistryId) (arity : nat) : Substitution := [mkScope o (replicate arity None)].

Definition dual (receiver : GlobalRegistryId) (receiver_arity : nat) (method : GlobalRegistryId)
    (method_arity : nat) : Substitution :=
  [mkScope receiver (replicate receiver_arity None); mkScope method (replicate method_arity None)].

Definition from_args (o : GlobalRegistryId) (args : list ResolvedType) : Substitution :=
  [mkScope o (map Some args)].

(** [iter().find(|scope| scope.owner == owner)], with the position. *)
Definition scope_find (o : GlobalRegistryId) (s : Substitution) : option (nat * Scope) :=
  find_index (fun sc => owner sc =? o) s.

Definition owns (o : GlobalRegistryId) (s : Substitution) : bool :=
  match scope_find o s with Some _ => true | None => false end.

Definition subst_get (o : GlobalRegistryId) (index : TypeParamIndex) (s : Substitution) : option ResolvedType :=
  '(_, sc) ← scope_find o s; slot ← slots sc !! Z.to_nat index; slot.

Definition args_of (o : GlobalRegistryId) (s : Substitution) : list ResolvedType :=
  match scope_find o s with
  | None => []
  | Some (_, sc) => map (default Unresolved) (slots sc)
  end.

Definition is_sized_int (t : ResolvedType) (reg : GlobalRegistry) : bool :=
  existsb (is_primitive t reg) ["Int8"; "Int16"; "Int32"; "Int64"; "UInt8"; "UInt16"; "UInt32"; "UInt64"].

Definition is_sized_float (t : ResolvedType) (reg : GlobalRegistry) : bool :=
  existsb (is_primitive t reg) ["Float32"; "Float64"].

Definition literal_widens_into (prev value : ResolvedType) (reg : GlobalRegistry) : bool :=
  (is_primitive value reg "Int" && is_sized_int prev reg) ||
  (is_primitive value reg "Float" && is_sized_float prev reg).

(** [iter().any(..)] over equivalence. *)
Fixpoint any_equivalent (fuel : nat) (members : list ResolvedType) (value : ResolvedType) (reg : GlobalRegistry)
    : option bool :=
  match members with
  | [] => Some false
  | m :: rest => r ← types_equivalent fuel m value reg; if r : bool then Some true else any_equivalent fuel rest value reg
  end.

Definition union_contains (fuel : nat) (prev value : ResolvedType) (reg : GlobalRegistry) : option bool :=
  match peel_alias prev reg with
  | UnionType members => any_equivalent fuel members value reg
  | _ => Some false
  end.

(** The guard of [Substitution::set]: a filled slot accepts [value]. *)
Definition compatible (fuel : nat) (prev value : ResolvedType) (reg : GlobalRegistry) : option bool :=
  e ← types_equivalent fuel prev value reg;
  if e : bool then Some true
  else
    u ← union_contains fuel prev value reg;
    if u : bool then Some true else Some (literal_widens_into prev value reg).

(** [None] is out of fuel; [(Some c, s)] is [Err(c)]. *)
Definition subst_set (fuel : nat) (o : GlobalRegistryId) (index : TypeParamIndex) (value : ResolvedType)
    (reg : GlobalRegistry) (s : Substitution) : option (option Conflict * Substitution) :=
  match scope_find o s with
  | None => Some (None, s)
  | Some (i, sc) =>
      match slots sc !! Z.to_nat index with
      | None => Some (None, s)
      | Some (Some prev) =>
          c ← compatible fuel prev value reg;
          if c : bool then Some (None, s)
          else Some (Some (mkConflict value o (Z.to_nat index) prev), s)
      | Some None => Some (None, <[i := mkScope o (<[Z.to_nat index := Some value]> (slots sc))]> s)
      end
  end.

(** The loops [for (t, a) in templates.iter().zip(actuals) { unify_into(..)? }]. *)
Definition unify_zip (f : ResolvedType -> ResolvedType -> Substitution -> option (option Conflict * Substitution)) :=
  fix go (ts acts : list ResolvedType) (s : Substitution) : option (option Conflict * Substitution) :=
    match ts, acts with
    | t :: ts, a :: acts =>
        '(c, s) ← f t a s;
        match c with Some _ => Some (c, s) | None => go ts acts s end
    | _, _ => Some (None, s)
    end.

Fixpoint unify_into (fuel : nat) (reg : GlobalRegistry) (template actual : ResolvedType) (s : Substitution)
    : option (option Conflict * Substitution) :=
  match actual with
  | Failed | Unresolved => Some (None, s)
  | _ =>
      match template, actual with
      | Named (RTypeParam o index) _, _ =>
          if owns o s then subst_set fuel o index actual reg s else Some (None, s)
      | Named ht targs, Named ha aargs =>
          if negb (bool_decide (ht = ha)) || negb (same_length targs aargs) then Some (None, s)
          else unify_zip (unify_into fuel reg) targs aargs s
      | FunctionType tps tret, FunctionType aps aret =>
          if negb (same_length tps aps) then Some (None, s)
          else
            '(c, s) ← unify_zip (unify_into fuel reg) tps aps s;
            match c with Some _ => Some (c, s) | None => unify_into fuel reg tret aret s end
      | TupleType tes, TupleType aes =>
          if negb (same_length tes aes) then Some (None, s) else unify_zip (unify_into fuel reg) tes aes s
      | _, _ => Some (None, s)
      end
  end.

Fixpoint substitute (t : ResolvedType) (s : Substitution) : ResolvedType :=
  match t with
  | FunctionType params ret => FunctionType (map (fun p => substitute p s) params) (substitute ret s)
  | TupleType elements => TupleType (map (fun e => substitute e s) elements)
  | Named (RTypeParam o index) args =>
      if owns o s then default Unresolved (subst_get o index s)
      else Named (RTypeParam o index) (map (fun a => substitute a s) args)
  | Named r args => Named r (map (fun a => substitute a s) args)
  | UnionType members => UnionType (map (fun m => substitute m s) members)
  | Failed => Failed
  | Unresolved => Unresolved
  end.

(** ** Order on substitutions: more slots filled *)

Definition slot_le (a b : option ResolvedType) : Prop := a = None \/ a = b.

Definition scope_le (a b : Scope) : Prop := owner a = owner b /\ Forall2 slot_le (slots a) (slots b).

Definition subst_le : relation Substitution := Forall2 scope_le.

#[export] Instance slot_le_preorder : PreOrder slot_le.
Proof. split; [by right|]. intros a b c [-> | ->] H; [by left|done]. Qed.

#[export] Instance scope_le_preorder : PreOrder scope_le.
Proof.
  split; [by intros a; split|]. intros a b c [Ho1 Hs1] [Ho2 Hs2]. split; [congruence|]. by transitivity (slots b).
Qed.

#[export] Instance subst_le_preorder : PreOrder subst_le.
Proof. unfold subst_le. apply _. Qed.

Lemma le_find s s' o :
  subst_le s s' ->
  match scope_find o s with
  | None => scope_find o s' = None
  | Some (i, sc) => exists sc', scope_find o s' = Some (i, sc') /\ scope_le sc sc'
  end.
Proof.
  unfold scope_find. induction 1 as [|a b s s' Hab _ IH]; [done|]. simpl. destruct Hab as [Ho Hs]. rewrite Ho.
  destruct (owner b =? o); [by exists b|].
  destruct (find_index (fun sc => owner sc =? o) s) as [[i sc]|]; simpl.
  - destruct IH as (sc' & -> & ?). by exists sc'.
  - by rewrite IH.
Qed.

Lemma le_owns s s' o : subst_le s s' -> owns o s' = owns o s.
Proof.
  intros H. apply (le_find _ _ o) in H. unfold owns. destruct (scope_find o s) as [[i sc]|].
  - by destruct H as (? & -> & _).
  - by rewrite H.
Qed.

(** Related substitutions agree on the slots both fill. *)
Lemma le_get s s' o index : subst_le s s' -> slot_le (subst_get o index s) (subst_get o index s').
Proof.
  intros H. apply (le_find _ _ o) in H. unfold subst_get. destruct (scope_find o s) as [[i sc]|].
  - destruct H as (sc' & -> & _ & Hs). simpl. destruct (slots sc !! Z.to_nat index) as [x|] eqn:E; [|by left].
    destruct (Forall2_lookup_l _ _ _ _ _ Hs E) as (y & -> & Hxy). simpl.
    destruct Hxy as [-> | ->]; [by left|by right].
  - by left.
Qed.

(** *** [set] only fills empty slots *)

Lemma set_le fuel o index v reg s c s' :
  subst_set fuel o index v reg s = Some (c, s') -> subst_le s s'.
Proof.
  unfold subst_set. intros E. destruct (scope_find o s) as [[i sc]|] eqn:Ef; [|by simplify_eq].
  apply find_index_Some in Ef as [Hi Ho]. apply Z.eqb_eq in Ho.
  destruct (slots sc !! Z.to_nat index) as [[prev|]|] eqn:Es; [|..|by simplify_eq].
  - destruct (compatible fuel prev v reg) as [[]|]; by simplify_eq/=.
  - simplify_eq. rewrite <- (list_insert_id s i sc Hi) at 1. apply Forall2_insert; [reflexivity|].
    split; [done|]. simpl. rewrite <- (list_insert_id _ _ _ Es) at 1. apply Forall2_insert; [reflexivity|by left].
Qed.

Lemma unify_zip_le (f : ResolvedType -> ResolvedType -> Substitution -> option (option Conflict * Substitution)) ts :
  Forall (fun t => forall a s c s', f t a s = Some (c, s') -> subst_le s s') ts ->
  forall acts s c s', unify_zip f ts acts s = Some (c, s') -> subst_le s s'.
Proof.
  induction 1 as [|t ts Ht _ IH]; intros [|a acts] s c s' E; simpl in E; try (by simplify_eq).
  destruct (f t a s) as [[c1 s1]|] eqn:E1; [|done]. simpl in E. apply Ht in E1.
  destruct c1; [by simplify_eq|]. transitivity s1; [done|]. by eapply IH.
Qed.

(** Inference never rebinds a slot: the first binding wins. *)
Lemma unify_into_le fuel reg t : forall a s c s', unify_into fuel reg t a s = Some (c, s') -> subst_le s s'.
Proof.
  induction t as [ps r IHps IHr|es IHes|h args IHargs|ms _| |] using type_ind'; intros a s c s' E; cbn [unify_into] in E.
  - destruct a; try (by simplify_eq). destruct (negb _); [by simplify_eq|].
    destruct (unify_zip _ ps params s) as [[c1 s1]|] eqn:E1; [|done]. simpl in E.
    apply (unify_zip_le _ _ IHps) in E1. destruct c1; [by simplify_eq|]. transitivity s1; [done|]. by eapply IHr.
  - destruct a; try (by simplify_eq). destruct (negb _); [by simplify_eq|]. by eapply unify_zip_le.
  - assert (forall l, (if negb (bool_decide (h = l.1)) || negb (same_length args l.2) then Some (None, s)
       else unify_zip (unify_into fuel reg) args l.2 s) = Some (c, s') -> subst_le s s') as Hzip.
    { intros l El. destruct (negb _ || _); [by simplify_eq|]. by eapply unify_zip_le. }
    destruct a as [| |ha aargs| | |], h as [|?|o index|]; try (by simplify_eq);
      try (by destruct (owns o s); [by eapply set_le|simplify_eq]); by apply (Hzip (ha, aargs)).
  - destruct a; by simplify_eq.
  - destruct a; by simplify_eq.
  - destruct a; by simplify_eq.
Qed.

(** ** Templates inference can recover *)

(** No type parameter of the substitution's scopes occurs in [t]. *)
Fixpoint closed (s : Substitution) (t : ResolvedType) : bool :=
  match t with
  | FunctionType params ret => forallb (closed s) params && closed s ret
  | TupleType elements => forallb (closed s) elements
  | Named (RTypeParam o _) args => negb (owns o s) && forallb (closed s) args
  | Named _ args => forallb (closed s) args
  | UnionType members => forallb (closed s) members
  | Failed | Unresolved => true
  end.

(** The owned type parameters of [t] are all where [unify_into] looks: not
    inside a union and not among the arguments of a foreign type parameter. *)
Fixpoint inferable (s : Substitution) (t : ResolvedType) : bool :=
  match t with
  | FunctionType params ret => forallb (inferable s) params && inferable s ret
  | TupleType elements => forallb (inferable s) elements
  | Named (RTypeParam o _) args => owns o s || forallb (closed s) args
  | Named _ args => forallb (inferable s) args
  | UnionType members => forallb (closed s) members
  | Failed | Unresolved => true
  end.

Lemma map_id_forallb (f : ResolvedType -> ResolvedType) (p : ResolvedType -> bool) l :
  Forall (fun t => p t = true -> f t = t) l -> forallb p l = true -> map f l = l.
Proof.
  induction 1 as [|t l Ht _ IH]; intros Hp; [done|]. simpl in Hp. bool_to_prop. simpl. by rewrite Ht, IH.
Qed.

Lemma closed_substitute s t : closed s t = true -> substitute t s = t.
Proof.
  induction t as [ps r IHps IHr|es IHes|h args IHargs|ms IHms| |] using type_ind'; intros Hc; simpl in *; bool_to_prop.
  - by rewrite (map_id_forallb _ _ _ IHps), IHr.
  - by rewrite (map_id_forallb _ _ _ IHes).
  - destruct h; try (by rewrite (map_id_forallb _ _ _ IHargs)). bool_to_prop.
    rewrite H. by rewrite (map_id_forallb _ _ _ IHargs).
  - by rewrite (map_id_forallb _ _ _ IHms).
  - done.
  - done.
Qed.

Lemma closed_le s s' t : subst_le s s' -> closed s' t = closed s t.
Proof.
  intros H. assert (forall l, Forall (fun t => closed s' t = closed s t) l -> forallb (closed s') l = forallb (closed s) l) as Hl.
  { induction 1 as [|x l Hx _ IH]; [done|]. simpl. by rewrite Hx, IH. }
  induction t as [ps r IHps IHr|es IHes|h args IHargs|ms IHms| |] using type_ind'; simpl; auto.
  - by rewrite Hl, IHr.
  - destruct h; auto. by rewrite (le_owns _ _ owner0 H), Hl.
Qed.

(** Once [s] gives a template the value of a fuller [u], every substitution
    between them does. *)
Lemma substitute_between s s' u t :
  subst_le s s' -> subst_le s' u -> substitute t s = substitute t u -> substitute t s' = substitute t u.
Proof.
  intros H H'. assert (forall l, Forall (fun t => substitute t s = substitute t u -> substitute t s' = substitute t u) l ->
    map (fun t => substitute t s) l = map (fun t => substitute t u) l ->
    map (fun t => substitute t s') l = map (fun t => substitute t u) l) as Hl.
  { induction 1 as [|x l Hx _ IH]; [done|]. simpl. intros [= ? ?]. by rewrite Hx, IH. }
  induction t as [ps r IHps IHr|es IHes|h args IHargs|ms IHms| |] using type_ind'; simpl; intros E; auto.
  - injection E as ? ?. by rewrite Hl, IHr.
  - injection E as ?. by rewrite Hl.
  - destruct h as [| |o index|]; try (injection E as ?; by rewrite Hl).
    rewrite (le_owns s' u o H'), (le_owns s s' o H) in *. destruct (owns o s); [|injection E as ?; by rewrite Hl].
    destruct (le_get s s' o index H) as [E0|E0], (le_get s' u o index H') as [E1|E1]; congruence.
  - injection E as ?. by rewrite Hl.
Qed.

Lemma map_between s s' u l :
  subst_le s s' -> subst_le s' u -> map (fun t => substitute t s) l = map (fun t => substitute t u) l ->
  map (fun t => substitute t s') l = map (fun t => substitute t u) l.
Proof.
  intros H H'. induction l as [|t l IH]; [done|]. simpl. intros [= Ht Hl].
  rewrite (substitute_between s s' u t) by done. by rewrite IH.
Qed.

Section Recover.
Context (fuel : nat) (reg : GlobalRegistry) (u : Substitution).

(** The value inference reads off an instance: holes and errors tell it nothing. *)
Definition known (v : option ResolvedType) : option ResolvedType :=
  match v with Some Failed | Some Unresolved => None | _ => v end.

(** [s'] is [s] with the slots in [see] filled from [u]. *)
Definition learns (see : GlobalRegistryId -> TypeParamIndex -> bool) (s s' : Substitution) : Prop :=
  forall o index, subst_get o index s' =
    match known (subst_get o index u) with
    | Some v => if see o index then Some v else subst_get o index s
    | None => subst_get o index s
    end.

Lemma learns_nothing s : learns (fun _ _ => false) s s.
Proof. intros o index. by destruct (known _). Qed.

Lemma learns_trans see see' s s1 s2 : learns see s s1 -> learns see' s1 s2 ->
  learns (fun o index => see o index || see' o index) s s2.
Proof.
  intros H1 H2 o index. rewrite H2, H1. destruct (known _); [|done]. by destruct (see o index), (see' o index).
Qed.

Lemma set_other fuel' o index v s c s' o' index' : subst_set fuel' o index v reg s = Some (c, s') ->
  o' <> o \/ Z.to_nat index' <> Z.to_nat index -> subst_get o' index' s' = subst_get o' index' s.
Proof.
  unfold subst_set. intros E Hne. destruct (scope_find o s) as [[i sc]|] eqn:Es; [|by simplify_eq].
  destruct (slots sc !! Z.to_nat index) as [[prev|]|] eqn:Ex; [| |by simplify_eq].
  { destruct (compatible _ _ _ _) as [[]|]; by simplify_eq/=. }
  simplify_eq. unfold subst_get, scope_find in *. destruct (find_index_Some _ _ _ _ Es) as [Hi Ho%Z.eqb_eq].
  destruct (decide (o' = o)) as [->|Ho'].
  - rewrite (find_index_insert _ _ _ _ _ Es) by apply Z.eqb_refl. rewrite Es. simpl.
    rewrite list_lookup_insert_ne by naive_solver. done.
  - rewrite (find_index_other _ s i sc) by (try done; simpl; apply Z.eqb_neq; congruence). done.
Qed.

(** No slot of [u] is [Failed]. *)
Context (Hfailed : forall o index, subst_get o index u <> Some Failed).

(** What [unify_into] does with the instance of a template. *)
Definition recovers (t : ResolvedType) : Prop :=
  forall s, subst_le s u ->
    exists s', unify_into (S fuel) reg t (substitute t u) s = Some (None, s') /\
      subst_le s' u /\ substitute t s' = substitute t u.

Lemma set_recovers o index v s :
  subst_le s u -> subst_get o index u = Some v ->
  exists s', subst_set (S fuel) o index v reg s = Some (None, s') /\ subst_le s' u /\ subst_get o index s' = Some v.
Proof.
  intros H Hv. pose proof (le_find s u o H) as Hf. unfold subst_set.
  destruct (scope_find o s) as [[i sc]|] eqn:Es; unfold subst_get in *; [|by rewrite Hf in Hv].
  destruct Hf as (sc' & Eu & Hsc). rewrite Eu in Hv. simpl in Hv.
  destruct (slots sc' !! Z.to_nat index) as [y|] eqn:Ey; [|done]. simpl in Hv. subst y.
  destruct (Forall2_lookup_r _ _ _ _ _ (proj2 Hsc) Ey) as (x & Ex & Hx). rewrite Ex.
  destruct x as [prev|].
  - destruct Hx as [?|[= ->]]; [done|]. exists s. unfold compatible. simpl.
    rewrite (bool_decide_eq_true_2 (v = v)) by done. simpl. split; [done|]. split; [done|]. rewrite Es. simpl. by rewrite Ex.
  - pose proof (fun y => find_index_insert _ _ _ _ y Es) as Hfind. apply find_index_Some in Es as [Hi Ho].
    apply find_index_Some in Eu as [Hi' _]. apply Z.eqb_eq in Ho. eexists. split; [done|]. split.
    + rewrite <- (list_insert_id u i sc' Hi'). apply Forall2_insert; [done|]. split; [simpl; by rewrite <- (proj1 Hsc)|].
      simpl. rewrite <- (list_insert_id _ _ _ Ey). apply Forall2_insert; [apply Hsc|by right].
    + unfold scope_find. rewrite Hfind by apply Z.eqb_refl. simpl.
      rewrite list_lookup_insert_eq by (by eapply lookup_lt_Some). done.
Qed.

Lemma zip_recovers ts :
  Forall recovers ts -> forall s, subst_le s u ->
  exists s', unify_zip (unify_into (S fuel) reg) ts (map (fun t => substitute t u) ts) s = Some (None, s') /\
    subst_le s' u /\ map (fun t => substitute t s') ts = map (fun t => substitute t u) ts.
Proof.
  induction 1 as [|t ts Ht Hts IH]; intros s Hs; [by exists s|]. simpl.
  destruct (Ht s Hs) as (s1 & E1 & H1 & Et). rewrite E1. simpl.
  destruct (IH s1 H1) as (s2 & E2 & H2 & Ets). rewrite E2. exists s2. split; [done|]. split; [done|].
  rewrite Ets. f_equal. apply (substitute_between s1); [|done..].
  eapply unify_zip_le; [|exact E2]. apply Forall_true. intros. by eapply unify_into_le.
Qed.

(** The places [unify_into] looks at: whether the parameter occurs in one. *)
Fixpoint sees (t : ResolvedType) (o : GlobalRegistryId) (index : TypeParamIndex) : bool :=
  match t with
  | FunctionType params ret => existsb (fun p => sees p o index) params || sees ret o index
  | TupleType elements => existsb (fun e => sees e o index) elements
  | Named (RTypeParam o' index') _ => (o =? o') && (Z.to_nat index =? Z.to_nat index')%nat
  | Named _ args => existsb (fun a => sees a o index) args
  | UnionType _ | Failed | Unresolved => false
  end.

(** Matching any template against its instance: no conflict, and exactly the
    parameters that are seen are learned. *)
Definition matches_instance (t : ResolvedType) : Prop :=
  forall s, subst_le s u ->
    exists s', unify_into (S fuel) reg t (substitute t u) s = Some (None, s') /\ subst_le s' u /\ learns (sees t) s s'.

Lemma param_learned o index args : matches_instance (Named (RTypeParam o index) args).
Proof.
  intros s Hs. pose proof (le_owns s u o Hs) as Hos. cbn [substitute].
  assert (known (subst_get o index u) = None -> learns (sees (Named (RTypeParam o index) args)) s s) as Hhole.
  { intros Hk o' index'. simpl sees. destruct (Z.eqb_spec o' o) as [->|], (Nat.eqb_spec (Z.to_nat index') (Z.to_nat index)) as [Ei|]; cbn [andb];
      try (by case_match).
    assert (subst_get o index' u = subst_get o index u) as -> by (unfold subst_get; by rewrite Ei). by rewrite Hk. }
  destruct (owns o u) eqn:Ho.
  2:{ exists s. cbn [unify_into]. rewrite <- Hos. split; [done|]. split; [done|]. apply Hhole.
      unfold owns, subst_get in *. by destruct (scope_find o u). }
  destruct (subst_get o index u) as [v|] eqn:Ev; [|exists s; cbn; eauto].
  destruct (known (Some v)) as [v'|] eqn:Ek; [|exists s; destruct v; try done; cbn; eauto].
  assert (v' = v) as -> by (destruct v; by simplify_eq/=).
  destruct (set_recovers o index v s Hs Ev) as (s' & E & H' & Eg). exists s'.
  assert (unify_into (S fuel) reg (Named (RTypeParam o index) args) v s = subst_set (S fuel) o index v reg s) as Eu.
  { destruct v; try done; cbn [unify_into]; by rewrite <- Hos. }
  simpl default. rewrite Eu, E. split; [done|]. split; [done|]. intros o' index'. simpl sees.
  destruct (Z.eqb_spec o' o) as [->|Hne]; cbn [andb]; [destruct (Nat.eqb_spec (Z.to_nat index') (Z.to_nat index)) as [Ei|Hne]|].
  - assert (forall x, subst_get o index' x = subst_get o index x) as Hsame by (intros; unfold subst_get; by rewrite Ei).
    by rewrite !Hsame, Ev, Ek, Eg.
  - rewrite (set_other _ _ _ _ _ _ _ o index' E) by auto. by case_match.
  - rewrite (set_other _ _ _ _ _ _ _ o' index' E) by auto. by case_match.
Qed.

Lemma zip_learned ts : Forall matches_instance ts -> forall s, subst_le s u ->
  exists s', unify_zip (unify_into (S fuel) reg) ts (map (fun t => substitute t u) ts) s = Some (None, s') /\
    subst_le s' u /\ learns (fun o index => existsb (fun t => sees t o index) ts) s s'.
Proof.
  induction 1 as [|t ts Ht Hts IH]; intros s Hs; [exists s; split; [done|]; split; [done|apply learns_nothing]|]. simpl.
  destruct (Ht s Hs) as (s1 & E1 & H1 & L1). rewrite E1. simpl.
  destruct (IH s1 H1) as (s2 & E2 & H2 & L2). rewrite E2. exists s2. split; [done|]. split; [done|].
  exact (learns_trans _ _ s s1 s2 L1 L2).
Qed.

Lemma instance_learned t : matches_instance t.
Proof.
  induction t as [ps r IHps IHr|es IHes|h args IHargs|ms _| |] using type_ind'; try apply param_learned;
    try (intros s Hs; exists s; split; [done|]; split; [done|]; apply learns_nothing).
  - intros s Hs. cbn [substitute unify_into]. unfold same_length. rewrite length_map, Nat.eqb_refl. simpl.
    destruct (zip_learned ps IHps s Hs) as (s1 & E1 & H1 & L1). rewrite E1. simpl.
    destruct (IHr s1 H1) as (s2 & E2 & H2 & L2). rewrite E2. exists s2. split; [done|]. split; [done|].
    exact (learns_trans _ _ s s1 s2 L1 L2).
  - intros s Hs. cbn [substitute unify_into]. unfold same_length. rewrite length_map, Nat.eqb_refl. simpl.
    by apply zip_learned.
  - destruct h as [id|id|o index|]; [| |apply param_learned|]; intros s Hs; cbn [substitute unify_into];
      rewrite bool_decide_eq_true_2 by done; unfold same_length; rewrite length_map, Nat.eqb_refl; simpl; by apply zip_learned.
Qed.

Lemma forallb_recovers ts :
  Forall (fun t => inferable u t = true -> recovers t) ts -> forallb (inferable u) ts = true -> Forall recovers ts.
Proof. induction 1; simpl; intros; bool_to_prop; constructor; auto. Qed.

Lemma closed_map s l : subst_le s u -> forallb (closed u) l = true ->
  map (fun t => substitute t s) l = map (fun t => substitute t u) l.
Proof.
  intros Hs. induction l as [|t l IH]; [done|]. simpl. intros Hc. bool_to_prop. f_equal; [|by apply IH].
  rewrite (closed_substitute u t) by done. apply closed_substitute. by rewrite <- (closed_le s u).
Qed.

(** An owned parameter is set to its value, or skipped when the value is a hole. *)
Lemma param_recovers o index args s :
  owns o u = true -> subst_le s u ->
  exists s', unify_into (S fuel) reg (Named (RTypeParam o index) args) (default Unresolved (subst_get o index u)) s
      = Some (None, s') /\
    subst_le s' u /\ substitute (Named (RTypeParam o index) args) s' = default Unresolved (subst_get o index u).
Proof.
  intros Ho Hs. pose proof (le_owns s u o Hs) as Hos. rewrite Ho in Hos. cbn [substitute].
  assert (default Unresolved (subst_get o index u) = Unresolved -> exists s', Some (None (A := Conflict), s) = Some (None, s') /\
    subst_le s' u /\ (if owns o s' then default Unresolved (subst_get o index s')
      else Named (RTypeParam o index) (map (fun a => substitute a s') args)) = Unresolved) as Hhole.
  { intros Hu. exists s. split; [done|]. split; [done|]. rewrite <- Hos.
    destruct (le_get s u o index Hs) as [-> | ->]; done. }
  destruct (subst_get o index u) as [v|] eqn:Ev; [|by apply Hhole].
  assert (v <> Failed) by (intros ->; by apply (Hfailed o index)).
  destruct (set_recovers o index v s Hs Ev) as (s' & E & H' & Eg).
  destruct v; try (by apply Hhole); try done; simpl; rewrite <- Hos; exists s'; (split; [done|]); (split; [done|]);
    rewrite <- (le_owns s' u o H'), Ho; by rewrite Eg.
Qed.

Lemma inferable_recovers t : inferable u t = true -> recovers t.
Proof.
  induction t as [ps r IHps IHr|es IHes|h args IHargs|ms _| |] using type_ind'; intros Hi s Hs; simpl in Hi; bool_to_prop.
  - cbn [substitute unify_into]. unfold same_length. rewrite length_map, Nat.eqb_refl. simpl.
    destruct (zip_recovers ps (forallb_recovers _ IHps H) s Hs) as (s1 & E1 & H1 & Eps). rewrite E1. simpl.
    destruct (IHr ltac:(done) s1 H1) as (s2 & E2 & H2 & Er). rewrite E2. exists s2. split; [done|]. split; [done|].
    rewrite Er. f_equal. apply unify_into_le in E2. by apply (map_between s1).
  - cbn [substitute unify_into]. unfold same_length. rewrite length_map, Nat.eqb_refl. simpl.
    destruct (zip_recovers es (forallb_recovers _ IHes Hi) s Hs) as (s1 & E1 & H1 & Ees). rewrite E1.
    exists s1. split; [done|]. split; [done|]. by rewrite Ees.
  - destruct h as [id|id|o index|].
    1,2,4: cbn [substitute unify_into]; rewrite bool_decide_eq_true_2 by done; unfold same_length;
      rewrite length_map, Nat.eqb_refl; simpl;
      destruct (zip_recovers args (forallb_recovers _ IHargs Hi) s Hs) as (s1 & E1 & H1 & Ea); rewrite E1;
      exists s1; (split; [done|]); (split; [done|]); by rewrite Ea.
    cbn [substitute]. destruct (owns o u) eqn:Ho; simpl in Hi.
    + by apply param_recovers.
    + exists s. pose proof (le_owns s u o Hs) as Hos. cbn [unify_into substitute]. rewrite <- Hos, Ho.
      split; [done|]. split; [done|]. by rewrite (closed_map s args).
  - exists s. cbn [substitute unify_into]. split; [done|]. split; [done|]. by rewrite (closed_map s ms).
  - by exists s.
  - by exists s.
Qed.
End Recover.

(** C40: inference on an instance learns exactly what it can see. Let [t] be any type
    and [u] any assignment of its parameters, holes and errors included, over any
    scopes. Matching [t] against its own instance [substitute t u], starting from any
    substitution that is part of [u] (the empty one of [single] or [dual], or one seeded
    from a receiver), reports no conflict, keeps every binding, binds only what [u]
    binds, and fills exactly the slots of the parameters it sees, those outside unions
    and outside the arguments of another parameter, that [u] knows. So when no owned
    parameter is hidden in such a place and no slot of [u] is an error ([inferable]), the
    inferred substitution gives [t] the value [u] gives it. *)
Theorem unify_recovers_instance (fuel : nat) (reg : GlobalRegistry) (t : ResolvedType) (u s : Substitution)
    (Hs : subst_le s u) :
  exists s', unify_into (S fuel) reg t (substitute t u) s = Some (None, s') /\
    subst_le s s' /\ subst_le s' u /\ learns u (sees t) s s' /\
    (inferable u t = true -> (forall o index, subst_get o index u <> Some Failed) -> substitute t s' = substitute t u).
Proof.
  destruct (instance_learned fuel reg u t s Hs) as (s' & E & H' & HL).
  exists s'. split_and!; [done|by eapply unify_into_le|done|done|]. intros Ht Hfailed.
  destruct (inferable_recovers fuel reg u Hfailed t Ht s Hs) as (s2 & E2 & _ & Es). by simplify_eq.
Qed.

(** [fn (List<T>, U) -> T] with [T] owned by a receiver and [U] by a method, and
    an assignment that knows [T] only. *)
Definition sample_template : ResolvedType :=
  FunctionType [Named (RGlobal 19) [leaf (RTypeParam 100 0)]; leaf (RTypeParam 200 0)] (leaf (RTypeParam 100 0)).

Definition sample_assignment : Substitution := [mkScope 100 [Some (leaf (RGlobal 6))]; mkScope 200 [None]].

(** A parameter inside a union is not seen: matching [T | Int] against [String | Int]
    reports nothing and binds nothing, so [T] stays a hole. *)
Definition hidden_template : ResolvedType := UnionType [leaf (RTypeParam 100 0); leaf (RGlobal 7)].

Example hidden_parameter :
  unify_into 1 registry_new hidden_template (substitute hidden_template [mkScope 100 [Some (leaf (RGlobal 6))]])
    (single 100 1) = Some (None, single 100 1) /\
  substitute hidden_template (single 100 1) = UnionType [Unresolved; leaf (RGlobal 7)].
Proof. split; reflexivity. Qed.

Lemma unify_recovers_instance_witness :
  exists s', unify_into 1 registry_new sample_template (substitute sample_template sample_assignment)
      (dual 100 1 200 1) = Some (None, s') /\
    s' = sample_assignment /\ substitute sample_template s' = substitute sample_template sample_assignment.
Proof.
  destruct (unify_recovers_instance 0 registry_new sample_template sample_assignment (dual 100 1 200 1))
    as (s' & E & _ & _ & _ & Hrec).
  - repeat constructor.
  - exists s'. split; [exact E|]. split; [vm_compute in E; injection E as <-; reflexivity|]. apply Hrec; [reflexivity|].
    intros o index. unfold sample_assignment, subst_get, scope_find, find_index. cbn [owner].
    destruct (100 =? o); [|destruct (200 =? o)]; cbn; [destruct (Z.to_nat index) as [|n]; cbn; [discriminate|]..|].
    + by destruct n.
    + by destruct n.
    + discriminate.
Defined.
