(* ===== verification/Usefulness.v ===== *)
(** * Match coverage

    Models [koja-typecheck/src/pipeline/resolve/patterns/usefulness.rs] (Maranget's
    usefulness over deconstructed patterns) with its caller [check_coverage] of
    [resolve/match_expr.rs], [literal_repr] of [patterns/literals.rs] and the
    patterns of [koja-ast/src/ast.rs]. Spans, type paths and binding names, which
    deconstruction ignores, are left out of patterns. [usefulness] is not
    structurally recursive: it takes fuel, and [None] stands for running out of it
    or for one of the code's [expect]s and index panics; [Coverage.v] shows
    that neither happens. Variant tags are [u32]s in the code. *)

From S2P Require Import Prelude Types Registry Unify.
From stdpp Require Import pretty.
Local Open Scope Z_scope.

(** ** Patterns *)

Inductive Literal :=
  | LBool (b : bool)
  | LFloat (text : string)
  | LInt (text : string)
  | LString (text : string)
  | LUnit.

(** [Segment] is the syntax of a binary segment. *)
Inductive Pattern {Segment : Type} :=
  | PWildcard
  | PLiteral (value : Literal)
  | PBinary (segments : list Segment)
  | PBinding
  | PEnumUnit (variant : string)
  | PEnumTuple (variant : string) (elements : list Pattern)
  | PEnumStruct (variant : string) (fields : list (string * Pattern))
  | PConstructor (name : string) (elements : list Pattern)
  | PStruct (fields : list (string * Pattern))
  | PTypedBinding (resolved_type : option ResolvedType)
  | PList (elements : list Pattern)
  | PTuple (elements : list Pattern)
  | POr (patterns : list Pattern).
Arguments Pattern : clear implicits.

Inductive Constructor :=
  | CBool (b : bool)
  | CSingle
  | CUnionMember (index : nat)
  | CVariant (tag : nat).

#[export] Instance constructor_eq_dec : EqDecision Constructor.
Proof. solve_decision. Defined.

Inductive DeconstructedPattern :=
  | DConstructor (ctor : Constructor) (fields : list DeconstructedPattern)
  | DLiteral (text : string)
  | DOpaque
  | DOr (alternatives : list DeconstructedPattern)
  | DWildcard.

Definition WILDCARD : DeconstructedPattern := DWildcard.

Definition Row := list DeconstructedPattern.

(** A double quote. *)
Definition quote : string := String (Ascii.ascii_of_nat 34) EmptyString.

Definition literal_repr (value : Literal) : string :=
  match value with
  | LBool true => "true"
  | LBool false => "false"
  | LFloat s => s
  | LInt s => s
  | LString s => quote +:+ s +:+ quote
  | LUnit => "()"
  end.

(** ** Constructors of a column type *)

Inductive ConstructorSet := SetBool | SetInfinite | SetSingle | SetUnion (count : nat) | SetVariants (count : nat).

Definition all_constructors (s : ConstructorSet) : option (list Constructor) :=
  match s with
  | SetBool => Some [CBool false; CBool true]
  | SetInfinite => None
  | SetSingle => Some [CSingle]
  | SetUnion count => Some (map CUnionMember (seq 0 count))
  | SetVariants count => Some (map CVariant (seq 0 count))
  end.

Section Coverage.
Context (reg : GlobalRegistry).

Definition named_global (ty : ResolvedType) : option (GlobalRegistryId * list ResolvedType) :=
  match ty with Named (RGlobal id) type_args => Some (id, type_args) | _ => None end.

Definition enum_of (ty : ResolvedType) : option (GlobalRegistryId * EnumDefinition * list ResolvedType) :=
  '(id, type_args) ← named_global ty;
  e ← get id reg;
  match kind e with KEnum (Some d) => Some (id, d, type_args) | _ => None end.

Definition struct_of (ty : ResolvedType) : option (GlobalRegistryId * StructDefinition * list ResolvedType) :=
  '(id, type_args) ← named_global ty;
  e ← get id reg;
  match kind e with KStruct (Some d) => Some (id, d, type_args) | _ => None end.

Definition constructor_set (ty : ResolvedType) : ConstructorSet :=
  let peeled := peel_alias ty reg in
  if is_primitive peeled reg "Bool" then SetBool
  else
    match peeled with
    | UnionType members => SetUnion (length members)
    | TupleType _ => SetSingle
    | _ =>
        match enum_of peeled with
        | Some (_, d, _) => SetVariants (length (variants d))
        | None => match struct_of peeled with Some _ => SetSingle | None => SetInfinite end
        end
    end.

Definition substituted (types : list ResolvedType) (s : Substitution) : list ResolvedType :=
  map (fun ty => substitute ty s) types.

(** The payload types of a variant, in declaration order. *)
Definition payload_types (d : ResolvedVariantData) : list ResolvedType :=
  match d with
  | VStruct fields => map field_ty fields
  | VTuple elements => elements
  | VUnit => []
  end.

Definition field_types (ctor : Constructor) (ty : ResolvedType) : list ResolvedType :=
  let peeled := peel_alias ty reg in
  match ctor with
  | CBool _ | CUnionMember _ => []
  | CSingle =>
      match peeled with
      | TupleType elements => elements
      | _ =>
          match struct_of peeled with
          | Some (id, d, type_args) => substituted (map field_ty (struct_fields d)) (from_args id type_args)
          | None => []
          end
      end
  | CVariant tag =>
      match enum_of peeled with
      | Some (id, d, type_args) =>
          match variants d !! tag with
          | Some v => substituted (payload_types (variant_data v)) (from_args id type_args)
          | None => []
          end
      | None => []
      end
  end.

(** ** Deconstruction *)

Definition variant_target (variant : string) (peeled : ResolvedType)
    : option (nat * ResolvedVariantData * Substitution) :=
  '(id, d, type_args) ← enum_of peeled;
  '(tag, v) ← lookup_variant variant d;
  Some (tag, variant_data v, from_args id type_args).

(** [members.iter().position(|m| types_equivalent(m, bound))]: the outer [None]
    is out of fuel. *)
Fixpoint member_position (fuel : nat) (members : list ResolvedType) (bound : ResolvedType) : option (option nat) :=
  match members with
  | [] => Some None
  | m :: rest =>
      r ← types_equivalent fuel m bound reg;
      if r : bool then Some (Some 0%nat)
      else i ← member_position fuel rest bound; Some (option_map S i)
  end.

Section Deconstruct.
Context {Segment : Type} (fuel : nat).

Definition deconstruct_elements (deconstruct : Pattern Segment -> ResolvedType -> option (option DeconstructedPattern)) :=
  fix go (elements : list (Pattern Segment)) (types : list ResolvedType) : option (option (list DeconstructedPattern)) :=
    match elements, types with
    | e :: es, ty :: tys =>
        d ← deconstruct e ty;
        match d with
        | None => Some None
        | Some d => rest ← go es tys; Some (option_map (cons d) rest)
        end
    | _, _ => Some (Some [])
    end.

(** [deconstruct_fields]: [acc] is the vector [fields]. *)
Definition deconstruct_fields (deconstruct : Pattern Segment -> ResolvedType -> option (option DeconstructedPattern))
    (declared : list ResolvedStructField) (s : Substitution) :=
  fix go (listed : list (string * Pattern Segment)) (acc : list DeconstructedPattern)
      : option (option (list DeconstructedPattern)) :=
    match listed with
    | [] => Some (Some acc)
    | (name, p) :: rest =>
        match find_index (fun d => bool_decide (field_name d = name)) declared with
        | None => Some None
        | Some (index, d) =>
            r ← deconstruct p (substitute (field_ty d) s);
            match r with
            | None => Some None
            | Some r => go rest (<[index := r]> acc)
            end
        end
    end.

Definition deconstruct_all (deconstruct : Pattern Segment -> option (option DeconstructedPattern)) :=
  fix go (patterns : list (Pattern Segment)) : option (option (list DeconstructedPattern)) :=
    match patterns with
    | [] => Some (Some [])
    | p :: ps =>
        d ← deconstruct p;
        match d with
        | None => Some None
        | Some d => rest ← go ps; Some (option_map (cons d) rest)
        end
    end.

(** The outer [None] is out of fuel, the inner one the code's own [None]. *)
Fixpoint deconstruct (pattern : Pattern Segment) (ty : ResolvedType) {struct pattern}
    : option (option DeconstructedPattern) :=
  let peeled := peel_alias ty reg in
  match pattern with
  | PBinary _ | PList _ => Some (Some DOpaque)
  | PBinding | PWildcard => Some (Some WILDCARD)
  | PConstructor _ _ => Some None
  | PEnumStruct variant fields =>
      match variant_target variant peeled with
      | Some (tag, VStruct declared, s) =>
          fs ← deconstruct_fields deconstruct declared s fields (replicate (length declared) WILDCARD);
          Some (option_map (DConstructor (CVariant tag)) fs)
      | _ => Some None
      end
  | PEnumTuple variant elements =>
      match variant_target variant peeled with
      | Some (tag, VTuple declared, s) =>
          if negb (length declared =? length elements)%nat then Some None
          else
            fs ← deconstruct_elements deconstruct elements (substituted declared s);
            Some (option_map (DConstructor (CVariant tag)) fs)
      | _ => Some None
      end
  | PEnumUnit variant =>
      match variant_target variant peeled with
      | Some (tag, VUnit, _) => Some (Some (DConstructor (CVariant tag) []))
      | _ => Some None
      end
  | PLiteral value =>
      Some (Some (match value with
        | LBool flag =>
            if is_primitive peeled reg "Bool" then DConstructor (CBool flag) [] else DLiteral (literal_repr value)
        | _ => DLiteral (literal_repr value)
        end))
  | POr patterns => ds ← deconstruct_all (fun p => deconstruct p ty) patterns; Some (option_map DOr ds)
  | PStruct fields =>
      match struct_of peeled with
      | Some (id, d, type_args) =>
          fs ← deconstruct_fields deconstruct (struct_fields d) (from_args id type_args) fields
                 (replicate (length (struct_fields d)) WILDCARD);
          Some (option_map (DConstructor CSingle) fs)
      | None => Some None
      end
  | PTuple elements =>
      match peeled with
      | TupleType types =>
          if negb (length types =? length elements)%nat then Some None
          else fs ← deconstruct_elements deconstruct elements types; Some (option_map (DConstructor CSingle) fs)
      | _ => Some None
      end
  | PTypedBinding None => Some None
  | PTypedBinding (Some bound) =>
      match peeled with
      | UnionType members =>
          i ← member_position fuel members bound;
          Some (option_map (fun i => DConstructor (CUnionMember i) []) i)
      | _ => Some (Some WILDCARD)
      end
  end.
End Deconstruct.

(** ** Usefulness *)

(** Replace every row whose head is an or-pattern with one row per alternative;
    [None] is the index panic on an empty row. *)
Definition expand_row (row : Row) : option (list Row) :=
  match row with
  | [] => None
  | DOr alternatives :: rest => Some (map (fun a => a :: rest) alternatives)
  | _ => Some [row]
  end.

Definition expand_or_heads (matrix : list Row) : option (list Row) :=
  rows ← mapM expand_row matrix; Some (concat rows).

(** The rows a later function sees come from [expand_or_heads], so they are not
    empty; an empty row is dropped here. *)
Definition rows_with_head (matrix : list Row) (keep : DeconstructedPattern -> bool) : list Row :=
  omap (fun row : Row => match row with [] => None | head :: rest => if keep head then Some rest else None end) matrix.

Definition is_wildcard (d : DeconstructedPattern) : bool := match d with DWildcard => true | _ => false end.

Definition default_matrix (matrix : list Row) : list Row := rows_with_head matrix is_wildcard.

Definition specialize_row (ctor : Constructor) (arity : nat) (row : Row) : option Row :=
  match row with
  | DConstructor other fields :: rest => if bool_decide (other = ctor) then Some (fields ++ rest) else None
  | DWildcard :: rest => Some (replicate arity WILDCARD ++ rest)
  | _ => None
  end.

Definition prefix_each (head : DeconstructedPattern) (tails : list Row) : list Row := map (cons head) tails.

(** Fold the first [arity] columns of a witness back into [ctor]; [None] is
    [split_off] past the end. *)
Definition fold_witness (ctor : Constructor) (arity : nat) (witness : Row) : option Row :=
  if (arity <=? length witness)%nat
  then Some (DConstructor ctor (take arity witness) :: drop arity witness) else None.

Definition specialize_and_recurse (usefulness : list Row -> Row -> list ResolvedType -> option (list Row))
    (matrix : list Row) (ctor : Constructor) (head_fields rest : Row) (head_ty : ResolvedType)
    (rest_types : list ResolvedType) : option (list Row) :=
  let arity := length head_fields in
  let specialized := omap (specialize_row ctor arity) matrix in
  let types := field_types ctor head_ty ++ rest_types in
  witnesses ← usefulness specialized (head_fields ++ rest) types;
  mapM (fold_witness ctor arity) witnesses.

(** The constructors that head some row. *)
Definition present_heads (matrix : list Row) : list Constructor :=
  omap (fun row : Row => match row with DConstructor ctor _ :: _ => Some ctor | _ => None end) matrix.

Definition wild_of (ctor : Constructor) (ty : ResolvedType) : Row := replicate (length (field_types ctor ty)) WILDCARD.

Definition wildcard_usefulness (usefulness : list Row -> Row -> list ResolvedType -> option (list Row))
    (matrix : list Row) (rest : Row) (head_ty : ResolvedType) (rest_types : list ResolvedType)
    : option (list Row) :=
  let present := present_heads matrix in
  let is_present := fun ctor => bool_decide (ctor ∈ present) in
  let all := all_constructors (constructor_set head_ty) in
  match all with
  | Some all =>
      if forallb is_present all
      then
        parts ← mapM (fun ctor =>
          specialize_and_recurse usefulness matrix ctor (wild_of ctor head_ty) rest head_ty rest_types) all;
        Some (concat parts)
      else
        tails ← usefulness (default_matrix matrix) rest rest_types;
        let missing := List.filter (fun ctor => negb (is_present ctor)) all in
        Some (concat (map (fun tail => map (fun ctor => DConstructor ctor (wild_of ctor head_ty) :: tail) missing) tails))
  | None =>
      tails ← usefulness (default_matrix matrix) rest rest_types;
      Some (prefix_each WILDCARD tails)
  end.

(** The body of [usefulness], with its recursive calls. *)
Definition usefulness_body (usefulness : list Row -> Row -> list ResolvedType -> option (list Row))
    (matrix : list Row) (row : Row) (types : list ResolvedType) : option (list Row) :=
  match row with
  | [] => Some (match matrix with [] => [[]] | _ => [] end)
  | head :: rest =>
      match types with
      | [] => None
      | head_ty :: rest_types =>
          matrix ← expand_or_heads matrix;
          match head with
          | DConstructor ctor fields =>
              specialize_and_recurse usefulness matrix ctor fields rest head_ty rest_types
          | DLiteral text =>
              let same_literal := rows_with_head matrix (fun head =>
                is_wildcard head || match head with DLiteral other => bool_decide (other = text) | _ => false end) in
              tails ← usefulness same_literal rest rest_types;
              Some (prefix_each (DLiteral text) tails)
          | DOpaque =>
              tails ← usefulness (default_matrix matrix) rest rest_types;
              Some (prefix_each DOpaque tails)
          | DOr alternatives =>
              parts ← mapM (fun alternative => usefulness matrix (alternative :: rest) types) alternatives;
              Some (concat parts)
          | DWildcard => wildcard_usefulness usefulness matrix rest head_ty rest_types
          end
      end
  end.

Fixpoint usefulness (fuel : nat) (matrix : list Row) (row : Row) (types : list ResolvedType)
    : option (list Row) :=
  match fuel with
  | O => None
  | S fuel => usefulness_body (usefulness fuel) matrix row types
  end.

(** *** [SubjectCoverage] *)

Definition single_column (rows : list DeconstructedPattern) : list Row := map (fun p => [p]) rows.

Definition is_useful (fuel : nat) (subject_ty : ResolvedType) (earlier : list DeconstructedPattern)
    (candidate : DeconstructedPattern) : option bool :=
  witnesses ← usefulness fuel (single_column earlier) [candidate] [subject_ty];
  Some (negb (is_nil witnesses)).

Definition missing_witnesses (fuel : nat) (subject_ty : ResolvedType) (rows : list DeconstructedPattern)
    : option (list Row) :=
  usefulness fuel (single_column rows) [WILDCARD] [subject_ty].

(** *** Rendering of missing patterns *)

Definition type_name (id : GlobalRegistryId) : string :=
  match get id reg with Some e => source_name (identifier e) | None => "_" end.

Fixpoint display_resolution (ty : ResolvedType) : string :=
  match ty with
  | FunctionType params ret =>
      "fn (" +:+ join_strings ", " (map display_resolution params) +:+ ") -> " +:+ display_resolution ret
  | TupleType elements => "(" +:+ join_strings ", " (map display_resolution elements) +:+ ")"
  | Named (RGlobal id) type_args =>
      let head := match get id reg with
        | Some e => source_name (identifier e)
        | None => "<id " +:+ pretty id +:+ ">"
        end in
      if is_nil type_args then head
      else head +:+ "<" +:+ join_strings ", " (map display_resolution type_args) +:+ ">"
  | Named (RLocal local) _ => "<local " +:+ pretty local +:+ ">"
  | Named (RTypeParam o index) _ =>
      match type_param_name o index reg with
      | Some name => name
      | None => "<typeparam " +:+ pretty o +:+ "#" +:+ pretty index +:+ ">"
      end
  | Named RUnresolved _ | Failed | Unresolved => "<unresolved>"
  | UnionType members => join_strings " | " (map display_resolution members)
  end.

(** [fields.iter().zip(types).map(..)]. *)
Definition render_positional (render : DeconstructedPattern -> ResolvedType -> string) :=
  fix go (fields : list DeconstructedPattern) (types : list ResolvedType) : list string :=
    match fields, types with
    | f :: fields, ty :: types => render f ty :: go fields types
    | _, _ => []
    end.

Definition render_named (render : DeconstructedPattern -> ResolvedType -> string) :=
  fix go (fields : list DeconstructedPattern) (declared : list ResolvedStructField) (types : list ResolvedType)
      : list string :=
    match fields, declared, types with
    | f :: fields, d :: declared, ty :: types =>
        if is_wildcard f then go fields declared types
        else (field_name d +:+ ": " +:+ render f ty) :: go fields declared types
    | _, _, _ => []
    end.

Fixpoint render_witness (witness : DeconstructedPattern) (ty : ResolvedType) : string :=
  let peeled := peel_alias ty reg in
  match witness with
  | DLiteral text => text
  | DOpaque | DOr _ | DWildcard => "_"
  | DConstructor ctor fields =>
      let types := field_types ctor peeled in
      match ctor with
      | CBool flag => if flag then "true" else "false"
      | CSingle =>
          match peeled with
          | TupleType _ => "(" +:+ join_strings ", " (render_positional render_witness fields types) +:+ ")"
          | _ =>
              match struct_of peeled with
              | None => "_"
              | Some (id, d, _) =>
                  type_name id +:+ "{" +:+ join_strings ", " (render_named render_witness fields (struct_fields d) types) +:+ "}"
              end
          end
      | CUnionMember index =>
          match peeled with
          | UnionType members =>
              match members !! index with Some member => display_resolution member | None => "_" end
          | _ => "_"
          end
      | CVariant tag =>
          match enum_of peeled with
          | None => "_"
          | Some (id, d, _) =>
              match variants d !! tag with
              | None => "_"
              | Some v =>
                  let head := type_name id +:+ "." +:+ variant_name v in
                  match variant_data v with
                  | VStruct declared =>
                      head +:+ "{" +:+ join_strings ", " (render_named render_witness fields declared types) +:+ "}"
                  | VTuple _ => head +:+ "(" +:+ join_strings ", " (render_positional render_witness fields types) +:+ ")"
                  | VUnit => head
                  end
              end
          end
      end
  end.

(** [Vec::dedup]: drop repeated neighbours. *)
Fixpoint dedup (l : list string) : list string :=
  match l with
  | x :: ((y :: _) as rest) => if bool_decide (x = y) then dedup rest else x :: dedup rest
  | _ => l
  end.

(** [witness[0]]. *)
Definition first_column (witness : Row) : DeconstructedPattern := default DWildcard (head witness).

Definition missing_patterns (fuel : nat) (subject_ty : ResolvedType) (rows : list DeconstructedPattern)
    : option (list string) :=
  witnesses ← missing_witnesses fuel subject_ty rows;
  Some (dedup (map (fun w => render_witness (first_column w) subject_ty) witnesses)).

(** ** [check_coverage] *)

Inductive CoverageDiagnostic :=
  | UnreachableAfterCatchAll (arm : nat)
  | UnreachableArm (arm : nat)
  | UnreachableAlternative (arm alternative : nat)
  | NeedsCatchAll
  | NotExhaustive (missing : list string).

Section CheckCoverage.
Context {Segment : Type} (fuel : nat) (subject_ty : ResolvedType).

(** An arm is its pattern and whether it has a guard. *)
Definition MatchArm : Type := Pattern Segment * bool.

(** The loop over the alternatives of an or-pattern, from alternative [k] on. *)
Fixpoint check_alternatives (arm k : nat) (seen alternatives : list DeconstructedPattern)
    : option (list CoverageDiagnostic) :=
  match alternatives with
  | [] => Some []
  | alternative :: rest =>
      useful ← is_useful fuel subject_ty seen alternative;
      ds ← check_alternatives arm (S k) (seen ++ [alternative]) rest;
      Some (if useful : bool then ds else UnreachableAlternative arm k :: ds)
  end.

Definition check_arm_reachability (arm : nat) (row : DeconstructedPattern) (earlier : list DeconstructedPattern)
    : option (list CoverageDiagnostic) :=
  if existsb is_wildcard earlier then Some [UnreachableAfterCatchAll arm]
  else
    match row with
    | DOr alternatives => check_alternatives arm 0 earlier alternatives
    | _ => useful ← is_useful fuel subject_ty earlier row; Some (if useful : bool then [] else [UnreachableArm arm])
    end.

(** The loop over the arms: the diagnostics and the unguarded rows. *)
Fixpoint check_arms (arm : nat) (arms : list (DeconstructedPattern * bool)) (matrix : list DeconstructedPattern)
    : option (list CoverageDiagnostic * list DeconstructedPattern) :=
  match arms with
  | [] => Some ([], matrix)
  | (row, guarded) :: rest =>
      ds ← check_arm_reachability arm row matrix;
      '(ds', matrix) ← check_arms (S arm) rest (if guarded : bool then matrix else matrix ++ [row]);
      Some (ds ++ ds', matrix)
  end.

Definition check_coverage (arms : list MatchArm) : option (list CoverageDiagnostic) :=
  rows ← deconstruct_all (fun p => deconstruct fuel p subject_ty) (map fst arms);
  match rows with
  | None => Some []
  | Some rows =>
      '(ds, matrix) ← check_arms 0 (zip rows (map snd arms)) [];
      missing ← missing_patterns fuel subject_ty matrix;
      Some (ds ++
        match missing with
        | [] => []
        | _ => if existsb (fun w => bool_decide (w = "_")) missing then [NeedsCatchAll] else [NotExhaustive missing]
        end)
  end.
End CheckCoverage.
End Coverage.
