(* ===== verification/Coverage.v ===== *)
(** * Match coverage is right

    The meaning of patterns and the correctness of [Usefulness]: a match whose
    coverage check finds nothing missing matches every value of its subject
    type, an arm reported unreachable never runs, the listed missing patterns
    are really missing, and the check always finishes.

    Values are built from the constructors of their type; a value of a type
    without a finite constructor set is an atom, and [denote] gives the atom a
    literal stands for. Patterns cannot look inside a union member, so a union
    value is its member index. What a binary or list pattern matches is left
    open: [dmatch] takes it to match everything or nothing, the extremes between which
    every choice lies, and the theorems say which of the two they use. *)

From S2P Require Import Prelude Types Registry Unify Usefulness.
Local Open Scope nat_scope.

Inductive Value {Atom : Type} :=
  | VCon (ctor : Constructor) (fields : list Value)
  | VAtom (a : Atom).
Arguments Value : clear implicits.

(** ** Weights

    The recursion of [usefulness] decreases the weight of the matrix and the row
    together, or keeps it and drops a column. Expanding an or-pattern copies the
    rest of its row, so rows weigh the product of their patterns. *)

Fixpoint weight (d : DeconstructedPattern) : nat :=
  match d with
  | DConstructor _ fields => S (foldr (fun f acc => weight f * acc) 1 fields)
  | DOr alternatives => S (foldr (fun a acc => weight a + acc) 0 alternatives)
  | DLiteral _ | DOpaque | DWildcard => 1
  end.

Fixpoint row_weight (row : Row) : nat :=
  match row with [] => 1 | d :: row => weight d * row_weight row end.

Fixpoint matrix_weight (matrix : list Row) : nat :=
  match matrix with [] => 0 | row :: matrix => row_weight row + matrix_weight matrix end.

Lemma weight_constructor c fields : weight (DConstructor c fields) = S (row_weight fields).
Proof.
  assert (forall l, foldr (fun f acc => weight f * acc) 1 l = row_weight l) as H
    by (induction l as [|f l IH]; simpl; congruence). simpl. by rewrite H.
Qed.

Lemma weight_pos d : 1 <= weight d.
Proof. destruct d; simpl; lia. Qed.

Lemma row_weight_pos row : 1 <= row_weight row.
Proof. induction row as [|d row IH]; simpl; [lia|]. pose proof (weight_pos d). nia. Qed.

Lemma weight_alt a alts : a ∈ alts -> weight a < weight (DOr alts).
Proof.
  simpl. induction alts as [|b alts IH]; intros Ha; [by apply not_elem_of_nil in Ha|].
  apply elem_of_cons in Ha as [->|Ha]; simpl; [lia|]. specialize (IH Ha). lia.
Qed.

Lemma row_weight_app r1 r2 : row_weight (r1 ++ r2) = row_weight r1 * row_weight r2.
Proof. induction r1 as [|d r1 IH]; simpl; [lia|]. rewrite IH. lia. Qed.

Lemma row_weight_wild n : row_weight (replicate n WILDCARD) = 1.
Proof. induction n as [|n IH]; [done|]. simpl in *. lia. Qed.

Lemma matrix_weight_app m1 m2 : matrix_weight (m1 ++ m2) = matrix_weight m1 + matrix_weight m2.
Proof. induction m1 as [|r m1 IH]; simpl; [done|]. rewrite IH. lia. Qed.

(** Filtering and shrinking rows does not increase a matrix. *)
Lemma omap_weight (f : Row -> option Row) m :
  (forall r r', r ∈ m -> f r = Some r' -> row_weight r' <= row_weight r) ->
  matrix_weight (omap f m) <= matrix_weight m.
Proof.
  induction m as [|r m IH]; intros H; [done|]. csimpl.
  assert (matrix_weight (omap f m) <= matrix_weight m) by (apply IH; intros; eapply H; [by right|done]).
  destruct (f r) as [r'|] eqn:E; simpl; [|lia]. assert (row_weight r' <= row_weight r) by (eapply H; [by left|done]). lia.
Qed.

Lemma omap_weight_lt (f : Row -> option Row) m r :
  (forall r r', r ∈ m -> f r = Some r' -> row_weight r' <= row_weight r) -> r ∈ m ->
  (forall r', f r = Some r' -> row_weight r' < row_weight r) -> matrix_weight (omap f m) < matrix_weight m.
Proof.
  intros H Hr Hlt. apply list_elem_of_split in Hr as (m1 & m2 & ->).
  rewrite omap_app, !matrix_weight_app. csimpl.
  assert (matrix_weight (omap f m1) <= matrix_weight m1) by (apply omap_weight; intros; eapply H; [set_solver|done]).
  assert (matrix_weight (omap f m2) <= matrix_weight m2) by (apply omap_weight; intros; eapply H; [set_solver|done]).
  pose proof (row_weight_pos r). destruct (f r) as [r'|] eqn:E; simpl; [|lia]. specialize (Hlt r' eq_refl). lia.
Qed.

Lemma expand_row_weight row rows : expand_row row = Some rows -> matrix_weight rows <= row_weight row.
Proof.
  unfold expand_row. intros E. destruct row as [|d rest]; [done|].
  assert (matrix_weight [d :: rest] <= row_weight (d :: rest)) as Hid by (simpl; lia).
  destruct d as [| | |alts|]; simplify_eq/=; try exact Hid.
  induction alts as [|a alts IH]; simpl; lia.
Qed.

Lemma expand_weight m m' : expand_or_heads m = Some m' -> matrix_weight m' <= matrix_weight m.
Proof.
  unfold expand_or_heads. intros E. apply bind_Some in E as (rows & E & [= <-]).
  apply mapM_Some in E. induction E as [|r rs m rows Hr _ IH]; [done|]. simpl. rewrite matrix_weight_app.
  apply expand_row_weight in Hr. lia.
Qed.

Lemma rows_with_head_weight m keep : matrix_weight (rows_with_head m keep) <= matrix_weight m.
Proof.
  apply omap_weight. intros [|d r] r' _ E; [done|]. destruct (keep d); simplify_eq/=.
  pose proof (weight_pos d). pose proof (row_weight_pos r'). nia.
Qed.

Lemma specialize_weight c n m : matrix_weight (omap (specialize_row c n) m) <= matrix_weight m.
Proof.
  apply omap_weight. intros [|d r] r' _ E; [done|]. destruct d; try done; cbn [specialize_row] in E.
  - case_bool_decide; simplify_eq. cbn [row_weight]. rewrite row_weight_app, weight_constructor. lia.
  - simplify_eq. rewrite row_weight_app, row_weight_wild. simpl. lia.
Qed.

(** A constructor that heads some row leaves a strictly smaller matrix. *)
Lemma specialize_weight_lt c n m :
  c ∈ present_heads m -> matrix_weight (omap (specialize_row c n) m) < matrix_weight m.
Proof.
  intros Hc. apply list_elem_of_omap in Hc as (r & Hr & E). destruct r as [|d r]; [done|].
  destruct d as [c' fs| | | |]; simplify_eq/=. eapply omap_weight_lt; [|exact Hr|].
  - intros [|d r0] r' _ E; [done|]. destruct d; try done; cbn [specialize_row] in E.
    + case_bool_decide; simplify_eq. cbn [row_weight]. rewrite row_weight_app, weight_constructor. lia.
    + simplify_eq. rewrite row_weight_app, row_weight_wild. simpl. lia.
  - intros r' E. simpl in E. rewrite bool_decide_eq_true_2 in E by done. simplify_eq.
    cbn [row_weight]. rewrite row_weight_app, weight_constructor. pose proof (row_weight_pos r). lia.
Qed.

(** ** More fuel gives the same answer *)

Section Fuel.
Context (reg : GlobalRegistry).

Definition refines (f g : list Row -> Row -> list ResolvedType -> option (list Row)) : Prop :=
  forall m row types r, f m row types = Some r -> g m row types = Some r.

Lemma mapM_refines {A} (f g : A -> option (list Row)) l r :
  (forall x y, f x = Some y -> g x = Some y) -> mapM f l = Some r -> mapM g l = Some r.
Proof. intros H E. apply mapM_Some in E. apply mapM_Some. eapply Forall2_impl; [exact E|]. auto. Qed.

Lemma specialize_refines f g m c hf rest ty types r :
  refines f g -> specialize_and_recurse reg f m c hf rest ty types = Some r ->
  specialize_and_recurse reg g m c hf rest ty types = Some r.
Proof.
  intros H E. unfold specialize_and_recurse in *. apply bind_Some in E as (ws & E & Er). by rewrite (H _ _ _ _ E).
Qed.

Lemma wildcard_refines f g m rest ty types r :
  refines f g -> wildcard_usefulness reg f m rest ty types = Some r ->
  wildcard_usefulness reg g m rest ty types = Some r.
Proof.
  intros H E. unfold wildcard_usefulness in *. destruct (all_constructors _) as [all|].
  - destruct (forallb _ all).
    + apply bind_Some in E as (ps & E & Er). rewrite (mapM_refines _ _ _ _ (fun x y => specialize_refines _ _ _ _ _ _ _ _ _ H) E).
      done.
    + apply bind_Some in E as (ts & E & Er). by rewrite (H _ _ _ _ E).
  - apply bind_Some in E as (ts & E & Er). by rewrite (H _ _ _ _ E).
Qed.

Lemma body_refines f g : refines f g -> refines (usefulness_body reg f) (usefulness_body reg g).
Proof.
  intros H m row types r E. unfold usefulness_body in *.
  destruct row as [|head rest]; [done|]. destruct types as [|ty types]; [done|].
  apply bind_Some in E as (m' & Em & E). rewrite Em. cbn [mbind option_bind].
  destruct head as [c fs|t| |alts|].
  - by eapply specialize_refines.
  - apply bind_Some in E as (ts & E & Er). by rewrite (H _ _ _ _ E).
  - apply bind_Some in E as (ts & E & Er). by rewrite (H _ _ _ _ E).
  - apply bind_Some in E as (ps & E & Er). erewrite mapM_refines; [exact Er| |exact E]. intros x y. apply H.
  - by eapply wildcard_refines.
Qed.

Lemma usefulness_step fuel : refines (usefulness reg fuel) (usefulness reg (S fuel)).
Proof. induction fuel as [|fuel IH]; [done|]. by apply body_refines. Qed.

Lemma usefulness_mono fuel fuel' m row types r :
  fuel <= fuel' -> usefulness reg fuel m row types = Some r -> usefulness reg fuel' m row types = Some r.
Proof. induction 1; [done|]. intros E. by apply usefulness_step, IHle. Qed.
End Fuel.

(** ** The meaning of patterns *)

Definition all2P {A B} (f : A -> B -> Prop) :=
  fix go (l : list A) (l' : list B) : Prop :=
    match l, l' with
    | [], [] => True
    | x :: l, y :: l' => f x y /\ go l l'
    | _, _ => False
    end.

Definition anyP {A} (f : A -> Prop) :=
  fix go (l : list A) : Prop := match l with [] => False | x :: l => f x \/ go l end.

Lemma all2P_Forall2 {A B} (f : A -> B -> Prop) l l' : all2P f l l' <-> Forall2 f l l'.
Proof.
  revert l'. induction l as [|x l IH]; intros [|y l']; simpl.
  - by split; [constructor|].
  - split; [done|]. by inversion 1.
  - split; [done|]. by inversion 1.
  - rewrite IH. split; [intros []; by constructor|]. by inversion 1.
Qed.

Lemma anyP_Exists {A} (f : A -> Prop) l : anyP f l <-> Exists f l.
Proof. induction l as [|x l IH]; simpl; [by rewrite Exists_nil|]. by rewrite Exists_cons, IH. Qed.

Section Semantics.
Context (reg : GlobalRegistry) {Atom : Type} (denote : string -> Atom).
Implicit Types v : Value Atom.

Inductive has_type : Value Atom -> ResolvedType -> Prop :=
  | HTBool b ty : is_primitive (peel_alias ty reg) reg "Bool" = true -> has_type (VCon (CBool b) []) ty
  | HTUnion i ms ty : peel_alias ty reg = UnionType ms -> i < length ms -> has_type (VCon (CUnionMember i) []) ty
  | HTTuple vs es ty : peel_alias ty reg = TupleType es -> Forall2 has_type vs es -> has_type (VCon CSingle vs) ty
  | HTStruct vs id d args ty :
      is_primitive (peel_alias ty reg) reg "Bool" = false ->
      struct_of reg (peel_alias ty reg) = Some (id, d, args) ->
      Forall2 has_type vs (map (fun f => substitute (field_ty f) (from_args id args)) (struct_fields d)) ->
      has_type (VCon CSingle vs) ty
  | HTVariant tag variant vs id d args ty :
      is_primitive (peel_alias ty reg) reg "Bool" = false ->
      enum_of reg (peel_alias ty reg) = Some (id, d, args) -> variants d !! tag = Some variant ->
      Forall2 has_type vs (map (fun t => substitute t (from_args id args)) (payload_types (variant_data variant))) ->
      has_type (VCon (CVariant tag) vs) ty
  | HTAtom a ty : constructor_set reg ty = SetInfinite -> has_type (VAtom a) ty.

(** With [opq] a binary or list pattern counts as matching everything, without
    it as matching nothing: every choice of what they match is in between. *)
Fixpoint dmatch (opq : bool) (d : DeconstructedPattern) v : Prop :=
  match d with
  | DWildcard => True
  | DOpaque => opq = true
  | DLiteral text => v = VAtom (denote text)
  | DConstructor ctor fields => match v with VCon c vs => c = ctor /\ all2P (dmatch opq) fields vs | VAtom _ => False end
  | DOr alternatives => anyP (fun d => dmatch opq d v) alternatives
  end.

Definition rmatch (opq : bool) (row : Row) (vs : list (Value Atom)) : Prop := Forall2 (dmatch opq) row vs.

(** The value a witness pattern stands for: its wildcards stand for values that
    no literal of [L] denotes. *)
Context (L : string -> Prop).

Definition fresh v : Prop := forall text, L text -> v <> VAtom (denote text).

Fixpoint inst (d : DeconstructedPattern) v : Prop :=
  match d with
  | DWildcard | DOpaque => fresh v
  | DLiteral text => v = VAtom (denote text)
  | DConstructor ctor fields => match v with VCon c vs => c = ctor /\ all2P inst fields vs | VAtom _ => False end
  | DOr _ => False
  end.

Definition rinst (row : Row) (vs : list (Value Atom)) : Prop := Forall2 inst row vs.

(** Constructor patterns have the arity of their constructor. *)
Inductive dwf : DeconstructedPattern -> ResolvedType -> Prop :=
  | WfConstructor c fs ty : Forall2 dwf fs (field_types reg c ty) -> dwf (DConstructor c fs) ty
  | WfLiteral text ty : dwf (DLiteral text) ty
  | WfOpaque ty : dwf DOpaque ty
  | WfOr ds ty : Forall (fun d => dwf d ty) ds -> dwf (DOr ds) ty
  | WfWildcard ty : dwf DWildcard ty.

Definition is_or (d : DeconstructedPattern) : bool := match d with DOr _ => true | _ => false end.

(** Well typed patterns: literals, with texts in [L], and binary and list
    patterns only where the type has no constructors, and no or-pattern
    directly inside another. *)
Inductive dtyped : DeconstructedPattern -> ResolvedType -> Prop :=
  | TyConstructor c fs ty : Forall2 dtyped fs (field_types reg c ty) -> dtyped (DConstructor c fs) ty
  | TyLiteral text ty : L text -> constructor_set reg ty = SetInfinite -> dtyped (DLiteral text) ty
  | TyOpaque ty : constructor_set reg ty = SetInfinite -> dtyped DOpaque ty
  | TyOr ds ty : Forall (fun d => dtyped d ty /\ is_or d = false) ds -> dtyped (DOr ds) ty
  | TyWildcard ty : dtyped DWildcard ty.

(** *** Values and constructor sets *)

Lemma enum_not_shape ty x : enum_of reg ty = Some x ->
  (forall ms, ty <> UnionType ms) /\ (forall es, ty <> TupleType es) /\ struct_of reg ty = None.
Proof.
  unfold enum_of, struct_of, named_global. destruct ty as [| |[] args| | |]; try done. simpl. intros E.
  split; [done|]. split; [done|]. destruct (get id reg) as [e|]; [|done]. simpl in *. by destruct (kind e) as [| |[]| | | |].
Qed.

Lemma struct_not_shape ty x : struct_of reg ty = Some x ->
  (forall ms, ty <> UnionType ms) /\ (forall es, ty <> TupleType es) /\ enum_of reg ty = None.
Proof.
  unfold enum_of, struct_of, named_global. destruct ty as [| |[] args| | |]; try done. simpl. intros E.
  split; [done|]. split; [done|]. destruct (get id reg) as [e|]; [|done]. simpl in *. by destruct (kind e) as [| |[]| | | |].
Qed.

(** A value's constructor belongs to its type and carries the fields it says. *)
Lemma has_type_con c vs ty :
  has_type (VCon c vs) ty ->
  (exists all, all_constructors (constructor_set reg ty) = Some all /\ c ∈ all) /\
  Forall2 has_type vs (field_types reg c ty).
Proof.
  inversion 1 as [b ? Hb|i ms ? Hp Hi|? es ? Hp Hvs|? id d args ? Hb Hs Hvs|tag var ? id d args ? Hb He Hv Hvs|]; subst;
    unfold constructor_set, field_types.
  - rewrite Hb. split; [|constructor]. eexists. split; [done|]. destruct b; set_solver.
  - rewrite Hp. simpl. split; [|constructor]. eexists. split; [done|].
    apply list_elem_of_fmap. exists i. split; [done|]. apply elem_of_seq. lia.
  - rewrite Hp. simpl. split; [|done]. eexists. split; [done|]. set_solver.
  - rewrite Hb, Hs. destruct (struct_not_shape _ _ Hs) as (Hu & Ht & He).
    split; [|destruct (peel_alias ty reg); try done; unfold substituted; by rewrite map_map].
    exists [CSingle]. split; [|set_solver]. destruct (peel_alias ty reg); try done; by rewrite He.
  - rewrite Hb, He, Hv. destruct (enum_not_shape _ _ He) as (Hu & Ht & Hs). split; [|done].
    exists (map CVariant (seq 0 (length (variants d)))). split; [destruct (peel_alias ty reg); try done|].
    apply list_elem_of_fmap. exists tag. split; [done|]. apply elem_of_seq. apply lookup_lt_Some in Hv. lia.
Qed.

Lemma has_type_infinite v ty : has_type v ty -> all_constructors (constructor_set reg ty) = None -> exists a, v = VAtom a.
Proof. intros H E. destruct v as [c vs|a]; [|by exists a]. apply has_type_con in H as [(all & Ea & _) _]. congruence. Qed.

Lemma has_type_finite v ty all : has_type v ty -> all_constructors (constructor_set reg ty) = Some all ->
  exists c vs, v = VCon c vs /\ c ∈ all /\ Forall2 has_type vs (field_types reg c ty).
Proof.
  intros H E. destruct v as [c vs|a].
  - apply has_type_con in H as [(all' & Ea & Hc) Hvs]. simplify_eq. eauto.
  - inversion H as [| | | | |? ? Hs]; subst. by rewrite Hs in E.
Qed.

(** *** Shape invariants of the matrix *)

Section Shape.
Context (P : DeconstructedPattern -> ResolvedType -> Prop).
Context (Pcon : forall c fs ty, P (DConstructor c fs) ty -> Forall2 P fs (field_types reg c ty)).
Context (Por : forall ds ty, P (DOr ds) ty -> Forall (fun d => P d ty) ds).
Context (Pwild : forall ty, P DWildcard ty).

Definition shaped (types : list ResolvedType) (m : list Row) : Prop := Forall (fun row => Forall2 P row types) m.

Lemma expand_some types ty m : shaped (ty :: types) m -> exists m', expand_or_heads m = Some m' /\ shaped (ty :: types) m'.
Proof.
  unfold expand_or_heads. intros H. assert (exists rows, mapM expand_row m = Some rows /\ shaped (ty :: types) (concat rows)) as
    (rows & -> & Hr); [|by eexists].
  induction H as [|row m Hrow _ (rows & E & Hrows)]; [exists []; split; [done|constructor]|].
  inversion Hrow as [|d ? rest ? Hd Hrest]; subst.
  assert (exists rs, expand_row (d :: rest) = Some rs /\ shaped (ty :: types) rs) as (rs & Es & Hrs).
  { destruct d as [| | |alts|]; simpl; try (eexists; split; [done|]; constructor; [by constructor|constructor]).
    eexists. split; [done|]. apply Forall_fmap. eapply Forall_impl; [by apply Por|]. intros. by constructor. }
  exists (rs :: rows). split; [|by apply Forall_app]. apply mapM_Some. apply mapM_Some in E. by constructor.
Qed.

Lemma rows_with_head_shaped types ty m keep : shaped (ty :: types) m -> shaped types (rows_with_head m keep).
Proof.
  intros H. apply Forall_forall. intros row Hrow. apply list_elem_of_omap in Hrow as ([|d r] & Hr & E); [done|].
  eapply Forall_forall in H; [|exact Hr]. inversion H; subst. destruct (keep d); by simplify_eq.
Qed.

Lemma specialize_shaped types ty c n m :
  n = length (field_types reg c ty) -> shaped (ty :: types) m ->
  shaped (field_types reg c ty ++ types) (omap (specialize_row c n) m).
Proof.
  intros -> H. apply Forall_forall. intros row Hrow. apply list_elem_of_omap in Hrow as ([|d r] & Hr & E); [done|].
  eapply Forall_forall in H; [|exact Hr]. inversion H as [|? ? ? ? Hd Hrest]; subst. destruct d; try done; simpl in E.
  - case_bool_decide; simplify_eq. apply Forall2_app; auto.
  - simplify_eq. apply Forall2_app; [|done]. apply Forall2_replicate_l; [done|].
    apply Forall_true. intros. apply Pwild.
Qed.
End Shape.

Lemma dwf_con c fs ty : dwf (DConstructor c fs) ty -> Forall2 dwf fs (field_types reg c ty).
Proof. by inversion 1. Qed.

Lemma dwf_or ds ty : dwf (DOr ds) ty -> Forall (fun d => dwf d ty) ds.
Proof. by inversion 1. Qed.

Lemma dtyped_con c fs ty : dtyped (DConstructor c fs) ty -> Forall2 dtyped fs (field_types reg c ty).
Proof. by inversion 1. Qed.

Lemma dtyped_or ds ty : dtyped (DOr ds) ty -> Forall (fun d => dtyped d ty) ds.
Proof. inversion 1; subst. eapply Forall_impl; [done|]. by intros ? []. Qed.

Hint Resolve dwf_con dwf_or dtyped_con dtyped_or WfWildcard TyWildcard : core.

(** No row starts with an or-pattern: what one expansion leaves of typed rows. *)
Definition no_or_head (m : list Row) : Prop := Forall (fun row => match row with d :: _ => is_or d = false | [] => True end) m.

Lemma expand_no_or types m m' : shaped dtyped types m -> expand_or_heads m = Some m' -> no_or_head m'.
Proof.
  unfold expand_or_heads. intros H E. apply bind_Some in E as (rows & E & [= <-]). apply mapM_Some in E.
  induction E as [|row rs m rows Hrow _ IH]; [constructor|]. inversion H as [|? ? Hr Hm]; subst. simpl.
  apply Forall_app. split; [|by apply IH]. unfold expand_row in Hrow. destruct row as [|d rest]; [done|].
  inversion Hr as [|? ty ? ? Hd]; subst. destruct d as [| | |alts|]; simplify_eq; try (by repeat constructor).
  apply Forall_fmap. inversion Hd as [| | |? ? Halts|]; subst. eapply Forall_impl; [exact Halts|]. by intros ? [].
Qed.

(** Expansion does not change which values are matched. *)
Lemma expand_match opq m m' vs :
  expand_or_heads m = Some m' -> (exists r, r ∈ m /\ rmatch opq r vs) <-> (exists r, r ∈ m' /\ rmatch opq r vs).
Proof.
  unfold expand_or_heads. intros E. apply bind_Some in E as (rows & E & [= <-]). apply mapM_Some in E.
  assert (forall row rs, expand_row row = Some rs -> rmatch opq row vs <-> exists r, r ∈ rs /\ rmatch opq r vs) as Hrow.
  { intros row rs Er. destruct row as [|d rest]; [done|].
    assert (rmatch opq (d :: rest) vs <-> exists r, r ∈ [d :: rest] /\ rmatch opq r vs) as Hid.
    { split; [intros; exists (d :: rest); set_solver|]. intros (r & Hr & Hm). set_solver. }
    destruct d as [| | |alts|]; simplify_eq/=; try exact Hid. split.
    - inversion 1 as [|? v ? vs' Hd Hrest]; subst. simpl in Hd. apply anyP_Exists, Exists_exists in Hd as (a & Ha & Hm).
      exists (a :: rest). split; [by apply list_elem_of_fmap; exists a|]. by constructor.
    - intros (r & Hr & Hm). apply list_elem_of_fmap in Hr as (a & -> & Ha). inversion Hm; subst. constructor; [|done].
      simpl. apply anyP_Exists, Exists_exists. eauto. }
  induction E as [|row rs m rows Er _ IH]; [set_solver|]. simpl. specialize (Hrow row rs Er). split.
  - intros (r & Hr & Hm). apply elem_of_cons in Hr as [->|Hr].
    + apply Hrow in Hm as (r' & ? & ?). exists r'. set_solver.
    + destruct (proj1 IH) as (r' & ? & ?); [eauto|]. exists r'. set_solver.
  - intros (r & Hr & Hm). apply elem_of_app in Hr as [Hr|Hr].
    + exists row. split; [by left|]. apply Hrow. eauto.
    + destruct (proj2 IH) as (r' & ? & ?); [eauto|]. exists r'. split; [by right|done].
Qed.

(** *** Columns *)

Lemma rmatch_app opq r1 r2 us vs : length r1 = length us ->
  rmatch opq (r1 ++ r2) (us ++ vs) <-> rmatch opq r1 us /\ rmatch opq r2 vs.
Proof.
  intros Hl. split; [|intros []; by apply Forall2_app]. intros H.
  apply Forall2_app_inv in H; done.
Qed.

Lemma rmatch_wild n us : length us = n -> rmatch false (replicate n WILDCARD) us /\ rmatch true (replicate n WILDCARD) us.
Proof. intros <-. split; apply Forall2_replicate_l; try done; by apply Forall_true. Qed.

(** A specialised row matches the fields exactly when the row matches the value. *)
Lemma specialize_match types ty c n row us vs :
  n = length (field_types reg c ty) -> Forall2 dwf row (ty :: types) -> length us = n ->
  match row with d :: _ => is_or d = false | [] => True end ->
  rmatch false row (VCon c us :: vs) <->
  exists row', specialize_row c n row = Some row' /\ rmatch false row' (us ++ vs).
Proof.
  intros -> Hwf Hl Hor. inversion Hwf as [|d ? rest ? Hd Hrest]; subst. split.
  - intros H. inversion H as [|? ? ? ? Hm Hr]; subst. destruct d as [c' fs| | |ds|]; simpl in *; try done.
    + destruct Hm as [<- Hm]. rewrite bool_decide_eq_true_2 by done. eexists. split; [done|].
      apply all2P_Forall2 in Hm. apply Forall2_app; done.
    + eexists. split; [done|]. apply Forall2_app; [|done]. by apply rmatch_wild.
  - intros (row' & E & H). destruct d as [c' fs| | |ds|]; simpl in E; try done.
    + case_bool_decide; simplify_eq. apply dwf_con in Hd. apply Forall2_length in Hd.
      apply rmatch_app in H as [Hf Hr]; [|lia]. constructor; [|done]. simpl. split; [done|]. by apply all2P_Forall2.
    + simplify_eq. apply rmatch_app in H as [_ Hr]; [|by rewrite length_replicate]. by constructor.
Qed.

Lemma deconstructed_ind' (P : DeconstructedPattern -> Prop) :
  (forall c fs, Forall P fs -> P (DConstructor c fs)) -> (forall text, P (DLiteral text)) -> P DOpaque ->
  (forall ds, Forall P ds -> P (DOr ds)) -> P DWildcard -> forall d, P d.
Proof.
  intros Hc Hl Ho Hor Hw. fix IH 1. intros [c fs|text| |ds|].
  - apply Hc. induction fs; constructor; [apply IH|assumption].
  - apply Hl.
  - exact Ho.
  - apply Hor. induction ds; constructor; [apply IH|assumption].
  - exact Hw.
Qed.

Lemma dtyped_wf d ty : dtyped d ty -> dwf d ty.
Proof.
  revert ty. induction d as [c fs IH|text| |ds IH|] using deconstructed_ind'; intros ty H; inversion H; subst; try constructor.
  - clear H. match goal with H : Forall2 dtyped _ _ |- _ => induction H; inversion IH; subst; constructor; auto end.
  - clear H. match goal with H : Forall _ _ |- _ => apply Forall_forall; rewrite Forall_forall in IH; rewrite Forall_forall in H;
      intros d Hd; apply IH; [done|by apply H] end.
Qed.

(** *** What a result of [usefulness] says *)

Definition typed_values (vs : list (Value Atom)) (types : list ResolvedType) : Prop := Forall2 has_type vs types.

Definition covered (m : list Row) (vs : list (Value Atom)) : Prop := exists r, r ∈ m /\ rmatch false r vs.

(** The rows a search for missing patterns starts from and recurses into. *)
Definition wild (d : DeconstructedPattern) (ty : ResolvedType) : Prop := d = DWildcard.

(** [T] is the assumption that the matrix is well typed. *)
Record good (T : Prop) (m : list Row) (row : Row) (types : list ResolvedType) (ws : list Row) : Prop := {
  good_length : Forall (fun w => length w = length types) ws;
  good_empty vs : ws = [] -> typed_values vs types -> rmatch true row vs -> covered m vs;
  good_witness w vs : T -> Forall2 wild row types -> w ∈ ws -> typed_values vs types ->
    rinst w vs -> rmatch true row vs /\ ~ covered m vs
}.

(** Folding a specialised result back under its constructor. *)
Lemma fold_good m c hf rest ty types ws :
  shaped dwf (ty :: types) m -> length hf = length (field_types reg c ty) ->
  good (shaped dtyped (field_types reg c ty ++ types) (omap (specialize_row c (length hf)) m))
    (omap (specialize_row c (length hf)) m) (hf ++ rest) (field_types reg c ty ++ types) ws ->
  exists r, mapM (fold_witness c (length hf)) ws = Some r /\
    Forall (fun w => length w = S (length types)) r /\
    (r = [] -> forall us vs, typed_values us (field_types reg c ty) -> typed_values vs types ->
       rmatch true hf us -> rmatch true rest vs -> covered m (VCon c us :: vs)) /\
    (shaped dtyped (ty :: types) m -> no_or_head m -> Forall2 wild hf (field_types reg c ty) -> Forall2 wild rest types ->
     forall w v vs, w ∈ r -> has_type v ty -> typed_values vs types -> rinst w (v :: vs) ->
     exists us, v = VCon c us /\ rmatch true hf us /\ rmatch true rest vs /\ ~ covered m (v :: vs)).
Proof.
  intros Hwf Hl [Hlen Hempty Hwit]. set (n := length hf) in *.
  assert (mapM (fold_witness c n) ws = Some (map (fun w => DConstructor c (take n w) :: drop n w) ws)) as Er.
  { apply mapM_Some, Forall2_fmap_r, Forall_Forall2_diag. eapply Forall_impl; [exact Hlen|]. intros w Hw.
    unfold fold_witness. rewrite length_app in Hw. by rewrite (proj2 (Nat.leb_le n (length w))) by lia. }
  eexists. split; [exact Er|]. split; [|split].
  - apply Forall_fmap. eapply Forall_impl; [exact Hlen|]. intros w Hw. simpl. rewrite length_app in Hw.
    rewrite length_drop. lia.
  - intros Hr us vs Hus Hvs Hmu Hmv. apply fmap_nil_inv in Hr.
    destruct (Hempty (us ++ vs) Hr) as (r' & Hr' & Hm); [by apply Forall2_app..|].
    apply list_elem_of_omap in Hr' as (r0 & Hr0 & E). exists r0. split; [done|].
    eapply Forall_forall in Hwf; [|exact Hr0]. apply Forall2_length in Hus.
    assert (match r0 with d :: _ => is_or d = false | [] => True end) as Hor
      by by destruct r0 as [|[] r0].
    apply (specialize_match types ty c n r0 us vs); try done; [lia|]. eauto.
  - intros Htm Hor Hth Htr w v vs Hw Hv Hvs Hi. apply list_elem_of_fmap in Hw as (w0 & -> & Hw0).
    inversion Hi as [|? ? ? ? Hiv Hir]; subst. simpl in Hiv. destruct v as [c' us|]; [|done].
    destruct Hiv as [-> Hiu]. apply all2P_Forall2 in Hiu. pose proof (has_type_con _ _ _ Hv) as [_ Hus].
    pose proof (Forall2_length _ _ _ Hus) as Hlu.
    destruct (Hwit w0 (us ++ vs)) as [Hrow Hnot]; try done.
    + apply specialize_shaped; auto. 
    + by apply Forall2_app.
    + by apply Forall2_app.
    + unfold rinst. rewrite <- (take_drop n w0). by apply Forall2_app.
    + exists us. apply rmatch_app in Hrow as [? ?]; [|lia]. split; [done|]. split; [done|]. split; [done|].
      intros (r0 & Hr0 & Hm). apply Hnot. eapply Forall_forall in Hwf; [|exact Hr0].
      eapply Forall_forall in Hor; [|exact Hr0].
      assert (match r0 with d :: _ => is_or d = false | [] => True end) as Hor'
        by done.
      apply (specialize_match types ty c n r0 us vs) in Hm as (r' & E & Hm'); try done; [|lia].
      exists r'. split; [|done]. apply list_elem_of_omap. eauto.
Qed.

(** Results that drop the head column: [heads] are the witness heads. *)
Lemma prefix_good (T : Prop) m keep h rest ty types heads tails r :
  good (shaped dtyped types (rows_with_head m keep)) (rows_with_head m keep) rest types tails ->
  (T -> shaped dtyped (ty :: types) m /\ no_or_head m) -> heads <> [] ->
  (forall w, w ∈ r <-> exists h' tail, w = h' :: tail /\ h' ∈ heads /\ tail ∈ tails) ->
  (forall v d, keep d = true -> has_type v ty -> dmatch true h v -> dmatch false d v) ->
  (forall v d h', h' ∈ heads -> inst h' v -> has_type v ty -> wild h ty -> dtyped d ty -> is_or d = false ->
     (exists row, d :: row ∈ m) -> dmatch false d v -> keep d = true) ->
  (forall v h', h' ∈ heads -> inst h' v -> dmatch true h v) ->
  good T m (h :: rest) (ty :: types) r.
Proof.
  intros [Hlen Hempty Hwit] Hor Hheads Hr Hkeep Hback Hinst. split.
  - apply Forall_forall. intros w Hw. apply Hr in Hw as (h' & tail & -> & _ & Ht). simpl. f_equal.
    by eapply Forall_forall in Hlen.
  - intros vs Er Hvs Hm. inversion Hm as [|? v ? vs' Hd Hrest]; subst. inversion Hvs as [|? ? ? ? Hv Hvs']; subst.
    destruct (Hempty vs') as (r' & Hr' & Hm'); [|done..|].
    + destruct tails as [|tail tails]; [done|]. destruct heads as [|h' heads]; [done|].
      exfalso. apply (not_elem_of_nil (h' :: tail)). apply Hr. exists h', tail. set_solver.
    + apply list_elem_of_omap in Hr' as ([|d r0] & Hr0 & E); [done|]. destruct (keep d) eqn:Ek; simplify_eq.
      exists (d :: r'). split; [done|]. constructor; [|done]. by eapply Hkeep.
  - intros w vs HT Hrow Hw Hvs Hi. apply Hr in Hw as (h' & tail & -> & Hh & Ht).
    inversion Hi as [|? v ? vs' Hiv Hir]; subst. inversion Hvs as [|? ? ? ? Hv Hvs']; subst.
    inversion Hrow as [|? ? ? ? Hth Htr]; subst. destruct (Hor HT) as [Htm Hno]. clear Hor.
    destruct (Hwit tail vs') as [Hrest Hnot]; try done; [by eapply rows_with_head_shaped|].
    split; [constructor; [by eapply Hinst|done]|]. intros (r0 & Hr0 & Hm0). apply Hnot.
    eapply Forall_forall in Htm; [|exact Hr0]. eapply Forall_forall in Hno; [|exact Hr0].
    inversion Hm0 as [|d ? r' ? Hd0 Hr'']; subst. inversion Htm; subst.
    exists r'. split; [|done]. apply list_elem_of_omap. exists (d :: r'). split; [done|].
    rewrite (Hback v d h'); eauto.
Qed.

(** *** Termination and correctness together *)

Lemma mapM_fuel {A} (f : nat -> A -> option (list Row)) (Q : A -> list Row -> Prop) l :
  (forall n n' x y, n <= n' -> f n x = Some y -> f n' x = Some y) ->
  (forall x, x ∈ l -> exists n y, f n x = Some y /\ Q x y) -> exists n ys, mapM (f n) l = Some ys /\ Forall2 Q l ys.
Proof.
  intros Hmono. induction l as [|x l IH]; intros H; [exists 0, []; split; [done|constructor]|].
  destruct (H x) as (n1 & y & E1 & Hy); [by left|]. destruct IH as (n2 & ys & E2 & Hys); [intros; apply H; by right|].
  exists (n1 `max` n2), (y :: ys). split; [|by constructor]. apply mapM_Some. constructor.
  - eapply Hmono; [|exact E1]. lia.
  - apply mapM_Some in E2. eapply Forall2_impl; [exact E2|]. simpl. intros a b Hab. eapply Hmono; [|exact Hab]. lia.
Qed.

(** The problems a call recurses into are smaller. *)
Definition smaller (m : list Row) (row : Row) (m' : list Row) (row' : Row) : Prop :=
  matrix_weight m + row_weight row < matrix_weight m' + row_weight row' \/
  (matrix_weight m + row_weight row <= matrix_weight m' + row_weight row' /\ length row < length row').

Lemma expand_good T m m' row types r :
  expand_or_heads m = Some m' -> good T m' row types r -> good T m row types r.
Proof.
  intros E [Hlen Hempty Hwit]. split; [done| |]; intros; unfold covered; rewrite (expand_match false m m' vs E);
    [by apply Hempty|by apply (Hwit w)].
Qed.

(** Some fuel is enough, and the result is good. *)
Definition solvable (m : list Row) (row : Row) (types : list ResolvedType) : Prop :=
  exists fuel r, usefulness reg fuel m row types = Some r /\ good (shaped dtyped types m) m row types r.

Section Cases.
Context (m : list Row) (ty : ResolvedType) (types : list ResolvedType) (rest : Row).
Context (Hm : shaped dwf (ty :: types) m) (Hrest : Forall2 dwf rest types).
(** [m] is an expanded matrix: when the matrix it comes from is well typed, it is
    too and has no or-pattern in front. *)
Context (T : Prop) (Hor : T -> shaped dtyped (ty :: types) m /\ no_or_head m).

(** Specialising by a constructor. *)
Lemma solve_specialize c hf :
  length hf = length (field_types reg c ty) ->
  solvable (omap (specialize_row c (length hf)) m) (hf ++ rest) (field_types reg c ty ++ types) ->
  exists fuel r, specialize_and_recurse reg (usefulness reg fuel) m c hf rest ty types = Some r /\
    Forall (fun w => length w = S (length types)) r /\
    (r = [] -> forall us vs, typed_values us (field_types reg c ty) -> typed_values vs types ->
       rmatch true hf us -> rmatch true rest vs -> covered m (VCon c us :: vs)) /\
    (T -> Forall2 wild hf (field_types reg c ty) -> Forall2 wild rest types ->
     forall w v vs, w ∈ r -> has_type v ty -> typed_values vs types -> rinst w (v :: vs) ->
     exists us, v = VCon c us /\ rmatch true hf us /\ rmatch true rest vs /\ ~ covered m (v :: vs)).
Proof.
  intros Hl (fuel & ws & E & Hg). destruct (fold_good m c hf rest ty types ws Hm Hl Hg) as (r & Er & Hlen & He & Hw).
  exists fuel, r. split; [unfold specialize_and_recurse; by rewrite E|]. split; [done|]. split; [done|].
  intros HT. by apply Hw; apply Hor.
Qed.

Lemma case_constructor c fs :
  dwf (DConstructor c fs) ty ->
  solvable (omap (specialize_row c (length fs)) m) (fs ++ rest) (field_types reg c ty ++ types) ->
  exists fuel r, specialize_and_recurse reg (usefulness reg fuel) m c fs rest ty types = Some r /\
    good T m (DConstructor c fs :: rest) (ty :: types) r.
Proof.
  intros Hd Hs. apply dwf_con in Hd as Hfs. apply Forall2_length in Hfs.
  destruct (solve_specialize c fs Hfs Hs) as (fuel & r & E & Hlen & He & Hw). exists fuel, r. split; [done|]. split; [done| |].
  - intros vs Hr Hvs Hmv. inversion Hmv as [|? v ? vs' Hdv Hr']; subst. inversion Hvs as [|? ? ? ? Hv Hvs']; subst.
    simpl in Hdv. destruct v as [c' us|]; [|done]. destruct Hdv as [-> Hu]. apply all2P_Forall2 in Hu.
    apply He; try done. by apply has_type_con in Hv as [_ ?].
  - intros w vs _ Hrow. by inversion Hrow.
Qed.

Lemma elem_prefix_each h tails w :
  w ∈ prefix_each h tails <-> exists h' tail, w = h' :: tail /\ h' ∈ [h] /\ tail ∈ tails.
Proof.
  unfold prefix_each. rewrite list_elem_of_fmap. split.
  - intros (tail & -> & Ht). exists h, tail. set_solver.
  - intros (h' & tail & -> & Hh & Ht). apply list_elem_of_singleton in Hh as ->. by exists tail.
Qed.

Lemma case_literal text :
  solvable (rows_with_head m (fun head =>
      is_wildcard head || match head with DLiteral other => bool_decide (other = text) | _ => false end)) rest types ->
  exists fuel r, usefulness reg fuel (rows_with_head m (fun head =>
      is_wildcard head || match head with DLiteral other => bool_decide (other = text) | _ => false end)) rest types = Some r /\
    good T m (DLiteral text :: rest) (ty :: types) (prefix_each (DLiteral text) r).
Proof.
  intros (fuel & tails & E & Hg). exists fuel, tails. split; [done|].
  eapply (prefix_good T _ _ _ _ _ _ [DLiteral text] tails _ Hg Hor); [done|apply elem_prefix_each| | |].
  - intros v d Hk _ Hv. destruct d as [|t| | |]; simpl in *; try done. by apply bool_decide_eq_true in Hk as ->.
  - intros v d h' Hh Hi Hv Hth Htd Ho _ Hd. apply list_elem_of_singleton in Hh as ->. simpl in Hi. subst v.
    done.
  - intros v h' Hh Hi. by apply list_elem_of_singleton in Hh as ->.
Qed.

(** A head that stands for values no listed literal denotes. *)
Lemma case_fresh h :
  h = DOpaque \/ h = DWildcard -> (h = DWildcard -> all_constructors (constructor_set reg ty) = None) ->
  solvable (default_matrix m) rest types ->
  exists fuel r, usefulness reg fuel (default_matrix m) rest types = Some r /\
    good T m (h :: rest) (ty :: types) (prefix_each h r).
Proof.
  intros Hh Hall (fuel & tails & E & Hg). exists fuel, tails. split; [done|].
  eapply (prefix_good T _ _ _ _ _ _ [h] tails _ Hg Hor); [done|apply elem_prefix_each| | |].
  - intros v d Hk _ _. by destruct d.
  - intros v d h' Hh' Hi Hv Hth Htd Ho _ Hd. apply list_elem_of_singleton in Hh' as ->.
    assert (all_constructors (constructor_set reg ty) = None) as Hinf.
    { by destruct Hh as [-> | ->]; [|apply Hall]. }
    assert (fresh v) as Hfresh by by destruct Hh as [-> | ->].
    destruct (has_type_infinite v ty Hv Hinf) as [a ->]. destruct d as [|t| | |]; simpl in *; try done.
    inversion Htd as [|? ? Ht| | |]; subst. by destruct (Hfresh t Ht).
  - intros v h' Hh' Hi. apply list_elem_of_singleton in Hh' as ->. by destruct Hh as [-> | ->].
Qed.

Lemma present_head c fs r : DConstructor c fs :: r ∈ m -> c ∈ present_heads m.
Proof. intros H. apply list_elem_of_omap. by exists (DConstructor c fs :: r). Qed.

(** A wildcard over a column that misses a constructor. *)
Lemma case_missing all :
  all_constructors (constructor_set reg ty) = Some all -> forallb (fun c => bool_decide (c ∈ present_heads m)) all = false ->
  solvable (default_matrix m) rest types ->
  exists fuel r, wildcard_usefulness reg (usefulness reg fuel) m rest ty types = Some r /\
    good T m (DWildcard :: rest) (ty :: types) r.
Proof.
  intros Hall Hmiss (fuel & tails & E & Hg). unfold wildcard_usefulness. rewrite Hall, Hmiss. exists fuel. rewrite E.
  eexists. split; [done|]. set (missing := List.filter _ all).
  eapply (prefix_good T _ _ _ _ _ _ (map (fun c => DConstructor c (wild_of reg c ty)) missing) tails _ Hg Hor).
  - assert (exists c, c ∈ missing) as (c & Hc); [|by destruct missing; [apply not_elem_of_nil in Hc|]].
    apply not_true_iff_false in Hmiss. destruct missing as [|c l] eqn:Em; [|exists c; left]. exfalso. apply Hmiss.
    apply forallb_forall. intros c Hc. apply not_false_iff_true. intros Hf.
    apply (not_elem_of_nil c). rewrite <- Em. apply filterb_elem. split; [by apply list_elem_of_In|]. by rewrite Hf.
  - intros w. rewrite list_elem_of_In, in_concat. setoid_rewrite in_map_iff. split.
    + intros (x & (tail & <- & Ht) & Hx). apply in_map_iff in Hx as (c & <- & Hc). eexists _, tail. split; [done|].
      split; [apply list_elem_of_In, in_map_iff; by exists c|by apply list_elem_of_In].
    + intros (h' & tail & -> & Hh & Ht). apply list_elem_of_In, in_map_iff in Hh as (c & <- & Hc).
      eexists. split; [exists tail; split; [done|by apply list_elem_of_In]|]. apply in_map_iff. by exists c.
  - intros v d Hk _ _. by destruct d.
  - intros v d h' Hh Hi Hv _ Htd Ho (r & Hr) Hd. apply list_elem_of_In, in_map_iff in Hh as (c & <- & Hc).
    simpl in Hi. destruct v as [c' us|]; [|done]. destruct Hi as [-> _].
    destruct d as [c'' fs| | | |]; simpl in *; try done. destruct Hd as [<- _]. exfalso.
    apply list_elem_of_In, filterb_elem in Hc as [_ Hc]. rewrite bool_decide_eq_true_2 in Hc; [done|]. by eapply present_head.
  - done.
Qed.

(** A wildcard over a complete column splits on every constructor. *)
Lemma case_complete all :
  all_constructors (constructor_set reg ty) = Some all -> forallb (fun c => bool_decide (c ∈ present_heads m)) all = true ->
  (forall c, c ∈ all -> solvable (omap (specialize_row c (length (wild_of reg c ty))) m) (wild_of reg c ty ++ rest)
     (field_types reg c ty ++ types)) ->
  exists fuel r, wildcard_usefulness reg (usefulness reg fuel) m rest ty types = Some r /\
    good T m (DWildcard :: rest) (ty :: types) r.
Proof.
  intros Hall Hcomp Hsolve. unfold wildcard_usefulness. rewrite Hall, Hcomp.
  assert (forall c, length (wild_of reg c ty) = length (field_types reg c ty)) as Hwl by (intros; apply length_replicate).
  pose proof (mapM_fuel (fun n c => specialize_and_recurse reg (usefulness reg n) m c (wild_of reg c ty) rest ty types)
    _ all ltac:(intros n n' c y Hn; apply specialize_refines; intros ???? He; by apply (usefulness_mono reg n))
    (fun c Hc => solve_specialize c (wild_of reg c ty) (Hwl c) (Hsolve c Hc))) as (fuel & parts & E & Hparts).
  exists fuel. rewrite E. eexists. split; [done|]. split.
  - apply Forall_concat. eapply Forall2_Forall_r; [exact Hparts|]. apply Forall_true. by intros c part (? & _).
  - intros vs Hr Hvs Hmv. inversion Hmv as [|? v ? vs' _ Hr']; subst. inversion Hvs as [|? ? ? ? Hv Hvs']; subst.
    destruct (has_type_finite v ty all Hv Hall) as (c & us & -> & Hc & Hus).
    apply list_elem_of_lookup in Hc as [i Hi]. destruct (Forall2_lookup_l _ _ _ _ _ Hparts Hi) as (part & Hp & _ & He & _).
    apply He; try done.
    + eapply concat_nil_part; [exact Hr|]. by eapply list_elem_of_lookup_2.
    + apply rmatch_wild. by apply Forall2_length in Hus.
  - intros w vs HT Hrow Hw Hvs Hi. inversion Hvs as [|v ? vs' ? Hv Hvs']; subst. inversion Hrow as [|? ? ? ? _ Htr]; subst.
    apply list_elem_of_In, in_concat in Hw as (part & Hp & Hw). apply list_elem_of_In, list_elem_of_lookup in Hp as [i Hp].
    destruct (Forall2_lookup_r _ _ _ _ _ Hparts Hp) as (c & Hc & _ & _ & Hwit).
    destruct (Hwit HT) with (w := w) (v := v) (vs := vs') as (us & -> & _ & ? & ?); try done.
    + apply Forall2_replicate_l; [done|]. by apply Forall_true.
    + by apply list_elem_of_In.
    + split; [by constructor|done].
Qed.

Lemma case_or alts :
  (forall a, a ∈ alts -> solvable m (a :: rest) (ty :: types)) ->
  exists fuel parts, mapM (fun a => usefulness reg fuel m (a :: rest) (ty :: types)) alts = Some parts /\
    good T m (DOr alts :: rest) (ty :: types) (concat parts).
Proof.
  intros Hsolve.
  destruct (mapM_fuel (fun n a => usefulness reg n m (a :: rest) (ty :: types))
    (fun a => good (shaped dtyped (ty :: types) m) m (a :: rest) (ty :: types)) alts) as (fuel & parts & E & Hparts); [|exact Hsolve|].
  { intros n n' a y Hn. by apply usefulness_mono. }
  exists fuel, parts. split; [done|]. split.
  - apply Forall_concat. eapply Forall2_Forall_r; [exact Hparts|]. apply Forall_true. by intros a part [].
  - intros vs Hr Hvs Hmv. inversion Hmv as [|? v ? vs' Hd Hr']; subst. simpl in Hd. apply anyP_Exists, Exists_exists in Hd as (a & Ha & Hd).
    apply list_elem_of_lookup in Ha as [i Hi]. destruct (Forall2_lookup_l _ _ _ _ _ Hparts Hi) as (part & Hp & [_ He _]).
    apply He; [|done|by constructor]. eapply concat_nil_part; [exact Hr|]. by eapply list_elem_of_lookup_2.
  - intros w vs _ Hrow. by inversion Hrow.
Qed.
End Cases.

(** One unfolding of [usefulness], given its recursive calls. *)
Lemma solve_step m row types :
  shaped dwf types m -> Forall2 dwf row types ->
  (forall m' row' types', smaller m' row' m row -> shaped dwf types' m' -> Forall2 dwf row' types' -> solvable m' row' types') ->
  solvable m row types.
Proof.
  intros Hm Hrow IH. inversion Hrow as [|head ty rest types' Hhead Hrest]; subst.
  { exists 1. eexists. split; [done|]. split.
    - destruct m; repeat constructor.
    - intros vs Hr Hvs _. destruct m as [|r m]; [done|]. exists r. split; [by left|].
      inversion Hm as [|? ? Hr' _]; subst. inversion Hvs; subst. inversion Hr'. constructor.
    - intros w vs _ _ Hw Hvs _. inversion Hvs; subst. destruct m as [|r m]; [|by apply not_elem_of_nil in Hw].
      split; [constructor|]. intros (r & Hr & _). by apply not_elem_of_nil in Hr. }
  destruct (expand_some dwf dwf_or types' ty m Hm) as (m1 & Em & Hm1).
  pose proof (expand_weight _ _ Em) as Hw1. pose proof (row_weight_pos rest) as Hpos.
  assert (shaped dtyped (ty :: types') m -> shaped dtyped (ty :: types') m1 /\ no_or_head m1) as Hor1.
  { intros Ht. split; [|by eapply expand_no_or]. destruct (expand_some dtyped dtyped_or types' ty m Ht) as (m2 & E2 & H2). congruence. }
  assert (exists fuel r, usefulness_body reg (usefulness reg fuel) m (head :: rest) (ty :: types') = Some r /\
    good (shaped dtyped (ty :: types') m) m1 (head :: rest) (ty :: types') r) as (fuel & r & E & Hg).
  2: { exists (S fuel), r. split; [exact E|]. by eapply expand_good. }
  unfold usefulness_body. setoid_rewrite Em. destruct head as [c fs|t| |alts|]; cbn [mbind option_bind].
  - apply case_constructor; try done. pose proof (specialize_weight c (length fs) m1).
    apply dwf_con in Hhead as Hfs. pose proof (Forall2_length _ _ _ Hfs) as Hl. apply IH; [|by apply specialize_shaped; eauto|by apply Forall2_app].
    left. rewrite row_weight_app. cbn [row_weight]. rewrite weight_constructor. nia.
  - edestruct (case_literal m1 ty types' rest Hm1 Hrest _ Hor1 t) as (fuel & r & E & Hg); [|exists fuel; rewrite E; eauto].
    apply IH; [|by eapply rows_with_head_shaped|done]. right. split; [|simpl; lia].
    pose proof (rows_with_head_weight m1 (fun head => is_wildcard head ||
      match head with DLiteral other => bool_decide (other = t) | _ => false end)). simpl. lia.
  - edestruct (case_fresh m1 ty types' rest Hm1 Hrest _ Hor1 DOpaque) as (fuel & r & E & Hg);
      [by left|done|apply IH; [|by eapply rows_with_head_shaped|done]|exists fuel; rewrite E; eauto].
    right. pose proof (rows_with_head_weight m1 is_wildcard). unfold default_matrix. simpl. lia.
  - edestruct (case_or m1 ty types' rest (shaped dtyped (ty :: types') m) alts) as (fuel & r & E & Hg); [|exists fuel; rewrite E; eauto].
    intros a Ha. apply dwf_or in Hhead. apply IH; [|done|].
    + left. cbn [row_weight]. pose proof (weight_alt a alts Ha). nia.
    + constructor; [|done]. by eapply Forall_forall in Hhead.
  - destruct (all_constructors (constructor_set reg ty)) as [all|] eqn:Hall.
    + destruct (forallb (fun c => bool_decide (c ∈ present_heads m1)) all) eqn:Hc.
      * eapply case_complete; try done. intros c Hin. apply IH.
        -- left. rewrite row_weight_app. unfold wild_of at 2. rewrite row_weight_wild. simpl.
           assert (c ∈ present_heads m1) as Hp.
           { rewrite forallb_forall in Hc. eapply bool_decide_eq_true_1, Hc. by apply list_elem_of_In. }
           pose proof (specialize_weight_lt c (length (wild_of reg c ty)) m1 Hp). lia.
        -- apply specialize_shaped; eauto. apply length_replicate.
        -- apply Forall2_app; [|done]. apply Forall2_replicate_l; [done|]. by apply Forall_true; constructor.
      * eapply case_missing; try done. apply IH; [|by eapply rows_with_head_shaped|done].
        right. pose proof (rows_with_head_weight m1 is_wildcard). unfold default_matrix. simpl. lia.
    + edestruct (case_fresh m1 ty types' rest Hm1 Hrest _ Hor1 DWildcard) as (fuel & r & E & Hg);
        [by right|done|apply IH; [|by eapply rows_with_head_shaped|done]|].
      * right. pose proof (rows_with_head_weight m1 is_wildcard). unfold default_matrix. simpl. lia.
      * exists fuel. unfold wildcard_usefulness. rewrite Hall, E. eauto.
Qed.

(** [usefulness] answers every well formed question. *)
Lemma usefulness_solved m row types : shaped dwf types m -> Forall2 dwf row types -> solvable m row types.
Proof.
  remember (matrix_weight m + row_weight row) as n eqn:En. revert m row types En.
  induction (lt_wf n) as [n _ IHn]. intros m row types ->. remember (length row) as k eqn:Ek. revert m row types IHn Ek.
  induction (lt_wf k) as [k _ IHk]. intros m row types IHn -> Hm Hrow. apply solve_step; [done..|].
  intros m' row' types' [Hlt|[Hle Hlen]] Hm' Hrow'.
  - by eapply (IHn _ Hlt).
  - eapply (IHk _ Hlen); [|done..]. intros y Hy. apply IHn. lia.
Qed.

(** ** The meaning of source patterns *)

Section Source.
Context {Segment : Type} (efuel : nat) (opaque : Pattern Segment -> Value Atom -> Prop).

Definition pall (f : Pattern Segment -> ResolvedType -> Value Atom -> Prop) :=
  fix go (es : list (Pattern Segment)) (tys : list ResolvedType) (vs : list (Value Atom)) : Prop :=
    match es, tys, vs with
    | [], [], [] => True
    | e :: es, ty :: tys, v :: vs => f e ty v /\ go es tys vs
    | _, _, _ => False
    end.

(** Every listed field matches the value's field of that name. *)
Definition pfields (f : Pattern Segment -> ResolvedType -> Value Atom -> Prop) (declared : list ResolvedStructField)
    (s : Substitution) (vs : list (Value Atom)) :=
  fix go (listed : list (string * Pattern Segment)) : Prop :=
    match listed with
    | [] => True
    | (name, p) :: rest =>
        match find_index (fun d => bool_decide (field_name d = name)) declared with
        | Some (i, d) => match vs !! i with Some v => f p (substitute (field_ty d) s) v | None => False end
        | None => False
        end /\ go rest
    end.

(** Which values a pattern matches in a column of type [ty]. *)
Fixpoint pmatch (p : Pattern Segment) (ty : ResolvedType) (v : Value Atom) : Prop :=
  let peeled := peel_alias ty reg in
  match p with
  | PWildcard | PBinding => True
  | PBinary _ | PList _ => opaque p v
  | PConstructor _ _ => False
  | PLiteral (LBool b) =>
      if is_primitive peeled reg "Bool" then v = VCon (CBool b) [] else v = VAtom (denote (literal_repr (LBool b)))
  | PLiteral l => v = VAtom (denote (literal_repr l))
  | PEnumUnit name =>
      match variant_target reg name peeled with Some (tag, VUnit, _) => v = VCon (CVariant tag) [] | _ => False end
  | PEnumTuple name es =>
      match variant_target reg name peeled with
      | Some (tag, VTuple declared, s) => exists vs, v = VCon (CVariant tag) vs /\ pall pmatch es (substituted declared s) vs
      | _ => False
      end
  | PEnumStruct name fields =>
      match variant_target reg name peeled with
      | Some (tag, VStruct declared, s) => exists vs, v = VCon (CVariant tag) vs /\ pfields pmatch declared s vs fields
      | _ => False
      end
  | PStruct fields =>
      match struct_of reg peeled with
      | Some (id, d, args) => exists vs, v = VCon CSingle vs /\ pfields pmatch (struct_fields d) (from_args id args) vs fields
      | None => False
      end
  | PTuple es =>
      match peeled with
      | TupleType tys => exists vs, v = VCon CSingle vs /\ pall pmatch es tys vs
      | _ => False
      end
  | PTypedBinding None => False
  | PTypedBinding (Some bound) =>
      match peeled with
      | UnionType members =>
          exists i, member_position reg efuel members bound = Some (Some i) /\ v = VCon (CUnionMember i) []
      | _ => True
      end
  | POr ps => anyP (fun p => pmatch p ty v) ps
  end.

(** No pattern lists a field twice, which pattern resolution rejects. *)
Fixpoint fields_once (p : Pattern Segment) : Prop :=
  match p with
  | PEnumTuple _ es | PTuple es | POr es | PList es | PConstructor _ es => foldr (fun p acc => fields_once p /\ acc) True es
  | PEnumStruct _ fields | PStruct fields =>
      NoDup (map fst fields) /\ foldr (fun f acc => fields_once (snd f) /\ acc) True fields
  | _ => True
  end.

Lemma pattern_ind' (P : Pattern Segment -> Prop) :
  P PWildcard -> (forall l, P (PLiteral l)) -> (forall segs, P (PBinary segs)) -> P PBinding ->
  (forall n, P (PEnumUnit n)) -> (forall n es, Forall P es -> P (PEnumTuple n es)) ->
  (forall n fs, Forall (fun f => P (snd f)) fs -> P (PEnumStruct n fs)) ->
  (forall n es, Forall P es -> P (PConstructor n es)) -> (forall fs, Forall (fun f => P (snd f)) fs -> P (PStruct fs)) ->
  (forall t, P (PTypedBinding t)) -> (forall es, Forall P es -> P (PList es)) ->
  (forall es, Forall P es -> P (PTuple es)) -> (forall ps, Forall P ps -> P (POr ps)) -> forall p, P p.
Proof.
  intros Hw Hl Hb Hbi Hu Ht Hs Hc Hst Hty Hli Htu Hor.
  fix IH 1. intros p. destruct p as [|l|segs| |n|n es|n fs|n es|fs|t|es|es|ps].
  - exact Hw.
  - apply Hl.
  - apply Hb.
  - exact Hbi.
  - apply Hu.
  - apply Ht. induction es; constructor; [apply IH|assumption].
  - apply Hs. induction fs as [|[k f] fs IHfs]; constructor; [apply IH|assumption].
  - apply Hc. induction es; constructor; [apply IH|assumption].
  - apply Hst. induction fs as [|[k f] fs IHfs]; constructor; [apply IH|assumption].
  - apply Hty.
  - apply Hli. induction es; constructor; [apply IH|assumption].
  - apply Htu. induction es; constructor; [apply IH|assumption].
  - apply Hor. induction ps; constructor; [apply IH|assumption].
Qed.

Definition sound_at (p : Pattern Segment) : Prop :=
  forall ty d, deconstruct reg efuel p ty = Some (Some d) ->
    dwf d ty /\ forall v, has_type v ty -> (pmatch p ty v -> dmatch true d v) /\ (fields_once p -> dmatch false d v -> pmatch p ty v).

Lemma elements_sound es :
  Forall sound_at es -> forall tys ds, length tys = length es ->
  deconstruct_elements (deconstruct reg efuel) es tys = Some (Some ds) ->
  Forall2 dwf ds tys /\ forall vs, typed_values vs tys ->
    (pall pmatch es tys vs -> Forall2 (dmatch true) ds vs) /\
    (foldr (fun p acc => fields_once p /\ acc) True es -> Forall2 (dmatch false) ds vs -> pall pmatch es tys vs).
Proof.
  induction 1 as [|e es He _ IH]; intros [|ty tys] ds Hl E; simplify_eq/=.
  - split; [constructor|]. intros vs Hvs. inversion Hvs; subst. by split.
  - destruct (deconstruct reg efuel e ty) as [[d|]|] eqn:Ed; [|done..]. simpl in E.
    destruct (deconstruct_elements _ es tys) as [[ds'|]|] eqn:Es; [|done..]. simplify_eq/=.
    destruct (He ty d Ed) as [Hd Hm]. destruct (IH tys ds' ltac:(lia) Es) as [Hds Hms]. split; [by constructor|].
    intros vs Hvs. inversion Hvs as [|v ? vs' ? Hv Hvs']; subst. destruct (Hm v Hv), (Hms vs' Hvs'). split.
    + intros []. constructor; auto.
    + intros [] Hf. inversion Hf; subst. auto.
Qed.

Section Fields.
Context (declared : list ResolvedStructField) (s : Substitution).
Notation position name := (find_index (fun d => bool_decide (field_name d = name)) declared).

(** The declared types of the fields, under the substitution. *)
Definition declared_types : list ResolvedType := map (fun d => substitute (field_ty d) s) declared.

Lemma fields_untouched (listed : list (string * Pattern Segment)) acc ds i :
  deconstruct_fields (deconstruct reg efuel) declared s listed acc = Some (Some ds) ->
  (forall name d, name ∈ map fst listed -> position name <> Some (i, d)) -> ds !! i = acc !! i.
Proof.
  revert acc. induction listed as [|[name p] listed IH]; intros acc E Hi; simplify_eq/=; [done|].
  destruct (position name) as [[j d]|] eqn:Ej; [|done]. destruct (deconstruct reg efuel p _) as [[r|]|]; [|done..].
  simpl in E. rewrite (IH _ E). 2: { intros n d' Hn. apply Hi. by right. }
  rewrite list_lookup_insert_ne; [done|]. intros ->. by apply (Hi name d); [left|].
Qed.

Lemma fields_sound listed : Forall (fun f => sound_at (snd f)) listed ->
  forall acc ds, deconstruct_fields (deconstruct reg efuel) declared s listed acc = Some (Some ds) ->
  Forall2 dwf acc declared_types ->
  Forall2 dwf ds declared_types /\ forall vs, typed_values vs declared_types ->
    (Forall2 (dmatch true) acc vs -> pfields pmatch declared s vs listed -> Forall2 (dmatch true) ds vs) /\
    (NoDup (map fst listed) -> foldr (fun f acc => fields_once (snd f) /\ acc) True listed ->
       Forall2 (dmatch false) ds vs -> pfields pmatch declared s vs listed).
Proof.
  induction 1 as [|[name p] listed Hp _ IH]; intros acc ds E Hacc; simplify_eq/=; [by split|].
  destruct (position name) as [[i d]|] eqn:Ei; [|done].
  destruct (deconstruct reg efuel p (substitute (field_ty d) s)) as [[r|]|] eqn:Er; [|done..]. simpl in E.
  destruct (find_index_Some _ _ _ _ Ei) as [Hd Hname]. destruct (Hp _ _ Er) as [Hr Hm].
  assert (declared_types !! i = Some (substitute (field_ty d) s)) as Hty by (unfold declared_types; by rewrite list_lookup_fmap, Hd).
  assert (Forall2 dwf (<[i:=r]> acc) declared_types) as Hacc'
    by (rewrite <- (list_insert_id _ _ _ Hty); by apply Forall2_insert).
  destruct (IH _ _ E Hacc') as [Hds Hms]. split; [done|]. intros vs Hvs. destruct (Hms vs Hvs) as [Hms1 Hms2].
  destruct (Forall2_lookup_r _ _ _ _ _ Hvs Hty) as (v & Hv & Htv). destruct (Hm v Htv) as [Hm1 Hm2]. rewrite Hv. split.
  - intros Ha [Hpv Hl]. apply Hms1; [|done]. rewrite <- (list_insert_id _ _ _ Hv). apply Forall2_insert; auto.
  - intros Hnd [Hfp Hfs] Hdm. apply NoDup_cons in Hnd as [Hnin Hnd]. split; [|by apply Hms2].
    assert (ds !! i = Some r) as Hri.
    { rewrite (fields_untouched _ _ _ i E).
      - apply list_lookup_insert_eq. apply Forall2_length in Hacc. apply lookup_lt_Some in Hty. lia.
      - intros n d' Hn Hd'. apply find_index_Some in Hd' as [Hd' Hn']. simplify_eq. bool_to_prop. congruence. }
    apply Hm2; [done|]. destruct (Forall2_lookup_l _ _ _ _ _ Hdm Hri) as (v' & Hv' & Hdv). by simplify_eq.
Qed.

(** The whole of a field block, from the vector of wildcards. *)
Lemma field_block_sound listed ds : Forall (fun f => sound_at (snd f)) listed ->
  deconstruct_fields (deconstruct reg efuel) declared s listed (replicate (length declared) WILDCARD) = Some (Some ds) ->
  Forall2 dwf ds declared_types /\ forall vs, typed_values vs declared_types ->
    (pfields pmatch declared s vs listed -> Forall2 (dmatch true) ds vs) /\
    (NoDup (map fst listed) -> foldr (fun f acc => fields_once (snd f) /\ acc) True listed ->
       Forall2 (dmatch false) ds vs -> pfields pmatch declared s vs listed).
Proof.
  intros Hl E. assert (length declared_types = length declared) as Hlen by apply length_map.
  destruct (fields_sound listed Hl _ _ E) as [Hds Hm].
  { apply Forall2_replicate_l; [by rewrite Hlen|]. by apply Forall_true; constructor. }
  split; [done|]. intros vs Hvs. destruct (Hm vs Hvs) as [Hm1 Hm2]. split; [|done]. intros. apply Hm1; [|done].
  apply rmatch_wild. apply Forall2_length in Hvs. lia.
Qed.
End Fields.

Lemma alternatives_sound ty (ps : list (Pattern Segment)) ds :
  deconstruct_all (fun p => deconstruct reg efuel p ty) ps = Some (Some ds) ->
  Forall2 (fun p d => deconstruct reg efuel p ty = Some (Some d)) ps ds.
Proof.
  revert ds. induction ps as [|p ps IH]; intros ds E; simplify_eq/=; [constructor|].
  destruct (deconstruct reg efuel p ty) as [[d|]|] eqn:Ed; [|done..]. simpl in E.
  destruct (deconstruct_all _ ps) as [[ds'|]|] eqn:Es; [|done..]. simplify_eq/=. constructor; auto.
Qed.

Lemma or_sound ty ps ds : Forall sound_at ps ->
  Forall2 (fun p d => deconstruct reg efuel p ty = Some (Some d)) ps ds ->
  dwf (DOr ds) ty /\ forall v, has_type v ty ->
    (anyP (fun p => pmatch p ty v) ps -> anyP (fun d => dmatch true d v) ds) /\
    (foldr (fun p acc => fields_once p /\ acc) True ps -> anyP (fun d => dmatch false d v) ds -> anyP (fun p => pmatch p ty v) ps).
Proof.
  intros Hps Hds. assert (Forall (fun d => dwf d ty) ds /\ forall v, has_type v ty ->
    (anyP (fun p => pmatch p ty v) ps -> anyP (fun d => dmatch true d v) ds) /\
    (foldr (fun p acc => fields_once p /\ acc) True ps -> anyP (fun d => dmatch false d v) ds ->
       anyP (fun p => pmatch p ty v) ps)) as [Hwf Hm]; [|split; [by constructor|done]].
  induction Hds as [|p d ps ds Hd _ IH]; [split; [constructor|by simpl]|].
  inversion Hps as [|? ? Hp Hps']; subst. destruct (Hp ty d Hd) as [Hdw Hm]. destruct (IH Hps') as [Hw Hms].
  split; [by constructor|]. intros v Hv. destruct (Hm v Hv), (Hms v Hv). simpl. naive_solver.
Qed.

Lemma variant_target_types name ty tag data s :
  variant_target reg name (peel_alias ty reg) = Some (tag, data, s) ->
  field_types reg (CVariant tag) ty = map (fun t => substitute t s) (payload_types data).
Proof.
  unfold variant_target, field_types. destruct (enum_of reg (peel_alias ty reg)) as [[[id d] args]|]; [|done]. simpl.
  destruct (lookup_variant name d) as [[i v]|] eqn:E; [|done]. intros. simplify_eq/=.
  apply find_index_Some in E as [E _]. by rewrite E.
Qed.

Lemma struct_types ty id d args :
  struct_of reg (peel_alias ty reg) = Some (id, d, args) ->
  field_types reg CSingle ty = declared_types (struct_fields d) (from_args id args).
Proof.
  intros E. destruct (struct_not_shape _ _ E) as (_ & Ht & _). unfold field_types. rewrite E.
  unfold declared_types, substituted. destruct (peel_alias ty reg); try done; by rewrite map_map.
Qed.

(** A constructor pattern is sound when its fields are. *)
Lemma constructor_sound c ds ty (Q : list (Value Atom) -> Prop) (once : Prop) :
  Forall2 dwf ds (field_types reg c ty) ->
  (forall vs, typed_values vs (field_types reg c ty) ->
     (Q vs -> Forall2 (dmatch true) ds vs) /\ (once -> Forall2 (dmatch false) ds vs -> Q vs)) ->
  dwf (DConstructor c ds) ty /\ forall v, has_type v ty ->
    ((exists vs, v = VCon c vs /\ Q vs) -> dmatch true (DConstructor c ds) v) /\
    (once -> dmatch false (DConstructor c ds) v -> exists vs, v = VCon c vs /\ Q vs).
Proof.
  intros Hds HQ. split; [by constructor|]. intros v Hv. split.
  - intros (vs & -> & Hq). apply has_type_con in Hv as [_ Hvs]. simpl. split; [done|]. apply all2P_Forall2.
    by apply (HQ vs Hvs).
  - intros Ho Hd. destruct v as [c' vs|]; [|done]. destruct Hd as [-> Hd]. apply has_type_con in Hv as [_ Hvs].
    exists vs. split; [done|]. apply (HQ vs Hvs); [done|]. by apply all2P_Forall2.
Qed.

Lemma nullary_sound c ty : field_types reg c ty = [] ->
  dwf (DConstructor c []) ty /\ forall v, has_type v ty ->
    (v = VCon c [] -> dmatch true (DConstructor c []) v) /\ (dmatch false (DConstructor c []) v -> v = VCon c []).
Proof.
  intros E. split; [constructor; rewrite E; constructor|]. intros v _. split; [by intros ->|].
  destruct v as [c' vs|]; simpl; [|done]. intros [-> H]. by destruct vs.
Qed.

Lemma deconstruct_sound p : sound_at p.
Proof.
  induction p as [|l|segs| |n|n es IH|n fs IH|n es _|fs IH|t|es _|es IH|ps IH] using pattern_ind';
    intros ty d E; cbn [deconstruct] in E.
  - simplify_eq. split; [constructor|done].
  - simplify_eq. destruct l as [b| | | |]; try (split; [constructor|done]).
    cbn [pmatch]. destruct (is_primitive (peel_alias ty reg) reg "Bool"); [|split; [constructor|done]].
    destruct (nullary_sound (CBool b) ty eq_refl) as [Hw Hm]. split; [done|]. intros v Hv. destruct (Hm v Hv). auto.
  - simplify_eq. split; [constructor|]. by intros v _.
  - simplify_eq. split; [constructor|done].
  - cbn [pmatch]. destruct (variant_target reg n (peel_alias ty reg)) as [[[tag data] s]|] eqn:Ev; [|done].
    destruct data; simplify_eq. destruct (nullary_sound (CVariant tag) ty) as [Hw Hm]; [by rewrite (variant_target_types _ _ _ _ _ Ev)|].
    split; [done|]. intros v Hv. destruct (Hm v Hv). auto.
  - cbn [pmatch fields_once]. destruct (variant_target reg n (peel_alias ty reg)) as [[[tag data] s]|] eqn:Ev; [|done].
    destruct data as [|declared|]; simplify_eq. destruct (Nat.eqb_spec (length declared) (length es)) as [Hl|]; simpl in E; [|done].
    destruct (deconstruct_elements _ _ _) as [[ds|]|] eqn:Ed; simplify_eq/=.
    apply (elements_sound es IH) in Ed as [Hds Hm]; [|unfold substituted; by rewrite length_map].
    apply constructor_sound; rewrite (variant_target_types _ _ _ _ _ Ev); done.
  - cbn [pmatch fields_once]. destruct (variant_target reg n (peel_alias ty reg)) as [[[tag data] s]|] eqn:Ev; [|done].
    destruct data as [declared| |]; simplify_eq. destruct (deconstruct_fields _ _ _ _ _) as [[ds|]|] eqn:Ed; simplify_eq/=.
    apply (field_block_sound declared s fs ds IH) in Ed as [Hds Hm].
    apply (constructor_sound _ _ _ (fun vs => pfields pmatch declared s vs fs));
      rewrite (variant_target_types _ _ _ _ _ Ev); simpl; rewrite map_map; [done|].
    intros vs Hvs. destruct (Hm vs Hvs). split; [done|]. intros []. auto.
  - done.
  - cbn [pmatch fields_once]. destruct (struct_of reg (peel_alias ty reg)) as [[[id d'] args]|] eqn:Es; [|done].
    destruct (deconstruct_fields _ _ _ _ _) as [[ds|]|] eqn:Ed; simplify_eq/=.
    apply (field_block_sound (struct_fields d') (from_args id args) fs ds IH) in Ed as [Hds Hm].
    apply (constructor_sound _ _ _ (fun vs => pfields pmatch (struct_fields d') (from_args id args) vs fs));
      rewrite (struct_types _ _ _ _ Es); [done|]. intros vs Hvs. destruct (Hm vs Hvs). split; [done|]. intros []. auto.
  - destruct t as [bound|]; [|done]. cbn [pmatch].
    destruct (peel_alias ty reg) eqn:Ep; try (simplify_eq; split; [constructor|done]).
    destruct (member_position reg efuel members bound) as [[i|]|]; simplify_eq/=.
    destruct (nullary_sound (CUnionMember i) ty eq_refl) as [Hw Hm]. split; [done|]. intros v Hv.
    destruct (Hm v Hv) as [Hm1 Hm2]. split; [by intros (? & [= <-] & ->); apply Hm1|]. intros _ Hd. exists i. auto.
  - simplify_eq. split; [constructor|]. by intros v _.
  - cbn [pmatch fields_once]. destruct (peel_alias ty reg) as [|tys| | | |] eqn:Ep; try done.
    destruct (Nat.eqb_spec (length tys) (length es)) as [Hl|]; simpl in E; [|done].
    destruct (deconstruct_elements _ _ _) as [[ds|]|] eqn:Ed; simplify_eq/=.
    apply (elements_sound es IH) in Ed as [Hds Hm]; [|done].
    assert (field_types reg CSingle ty = tys) as Hft by (unfold field_types; by rewrite Ep).
    apply constructor_sound; rewrite Hft; done.
  - destruct (deconstruct_all _ ps) as [[ds|]|] eqn:Ed; simplify_eq/=. apply alternatives_sound in Ed.
    destruct (or_sound ty ps ds IH Ed) as [Hw Hm]. split; [done|]. intros v Hv. exact (Hm v Hv).
Qed.
End Source.

(** ** Answers for one column *)

(** Whatever the fuel, an answer is good. *)
Lemma usefulness_good fuel m row types r :
  shaped dwf types m -> Forall2 dwf row types -> usefulness reg fuel m row types = Some r ->
  good (shaped dtyped types m) m row types r.
Proof.
  intros Hm Hrow E. destruct (usefulness_solved m row types Hm Hrow) as (fuel' & r' & E' & Hg).
  apply (usefulness_mono reg fuel (fuel `max` fuel')) in E; [|lia].
  apply (usefulness_mono reg fuel' (fuel `max` fuel')) in E'; [|lia]. congruence.
Qed.

Lemma single_column_shaped (P : DeconstructedPattern -> ResolvedType -> Prop) ty rows :
  Forall (fun d => P d ty) rows -> shaped P [ty] (single_column rows).
Proof. intros H. apply Forall_fmap. eapply Forall_impl; [exact H|]. intros d Hd. by repeat constructor. Qed.

Lemma single_column_covered rows v : covered (single_column rows) [v] <-> exists d, d ∈ rows /\ dmatch false d v.
Proof.
  split.
  - intros (r & Hr & Hm). apply list_elem_of_fmap in Hr as (d & -> & Hd). inversion Hm; subst. eauto.
  - intros (d & Hd & Hm). exists [d]. split; [by apply list_elem_of_fmap; exists d|]. by repeat constructor.
Qed.

Lemma not_useful fuel ty earlier candidate v :
  Forall (fun d => dwf d ty) earlier -> dwf candidate ty -> is_useful reg fuel ty earlier candidate = Some false ->
  has_type v ty -> dmatch true candidate v -> exists d, d ∈ earlier /\ dmatch false d v.
Proof.
  intros He Hc E Hv Hm. unfold is_useful in E. apply bind_Some in E as (ws & E & Hw). destruct ws; [|done].
  apply usefulness_good in E; [|by apply single_column_shaped|by repeat constructor].
  apply single_column_covered. apply (good_empty _ _ _ _ _ E); [done|by repeat constructor..].
Qed.

Lemma nothing_missing fuel ty rows v :
  Forall (fun d => dwf d ty) rows -> missing_witnesses reg fuel ty rows = Some [] ->
  has_type v ty -> exists d, d ∈ rows /\ dmatch false d v.
Proof.
  intros Hr E Hv. unfold missing_witnesses in E.
  apply usefulness_good in E; [|by apply single_column_shaped|by repeat constructor].
  apply single_column_covered. apply (good_empty _ _ _ _ _ E); [done|by repeat constructor..].
Qed.

(** ** The loops of [check_coverage] *)

Definition unguarded (rows : list (DeconstructedPattern * bool)) : list DeconstructedPattern :=
  map fst (List.filter (fun r => negb (snd r)) rows).

(** A diagnostic that names an arm or an alternative names one that earlier
    unguarded rows, or earlier alternatives, match already. *)
Definition justified (ty : ResolvedType) (matrix : list DeconstructedPattern)
    (arm : nat) (rows : list (DeconstructedPattern * bool)) (d : CoverageDiagnostic) : Prop :=
  match d with
  | UnreachableAfterCatchAll i | UnreachableArm i =>
      exists k row g, i = arm + k /\ rows !! k = Some (row, g) /\
        forall v, has_type v ty -> dmatch true row v ->
          exists e, e ∈ matrix ++ unguarded (take k rows) /\ dmatch false e v
  | UnreachableAlternative i j =>
      exists k alts g a, i = arm + k /\ rows !! k = Some (DOr alts, g) /\ alts !! j = Some a /\
        forall v, has_type v ty -> dmatch true a v ->
          exists e, e ∈ (matrix ++ unguarded (take k rows)) ++ take j alts /\ dmatch false e v
  | NeedsCatchAll | NotExhaustive _ => False
  end.

Lemma check_alternatives_justified fuel ty arm j seen alts ds :
  Forall (fun d => dwf d ty) seen -> Forall (fun d => dwf d ty) alts ->
  check_alternatives reg fuel ty arm j seen alts = Some ds ->
  forall d, d ∈ ds -> exists k a, d = UnreachableAlternative arm (j + k) /\ alts !! k = Some a /\
    forall v, has_type v ty -> dmatch true a v -> exists e, e ∈ seen ++ take k alts /\ dmatch false e v.
Proof.
  revert j seen ds. induction alts as [|a alts IH]; intros j seen ds Hs Ha E d Hd; simpl in E.
  - simplify_eq. by apply not_elem_of_nil in Hd.
  - apply bind_Some in E as (useful & Eu & E). apply bind_Some in E as (ds' & Es & E).
    inversion Ha as [|? ? Ha1 Ha2]; subst.
    assert (d ∈ ds' -> exists k a', d = UnreachableAlternative arm (j + k) /\ (a :: alts) !! k = Some a' /\
      forall v, has_type v ty -> dmatch true a' v -> exists e, e ∈ seen ++ take k (a :: alts) /\ dmatch false e v) as Hrest.
    { intros Hd'. destruct (IH (S j) (seen ++ [a]) ds' ltac:(apply Forall_app; by repeat constructor) Ha2 Es d Hd')
        as (k & a' & -> & Hk & Hm).
      exists (S k), a'. split; [f_equal; lia|]. split; [done|]. intros v Hv Hmv. destruct (Hm v Hv Hmv) as (e & He & ?).
      exists e. by rewrite <- app_assoc in He. }
    destruct useful; simplify_eq; [by apply Hrest|]. apply elem_of_cons in Hd as [->|Hd]; [|by apply Hrest].
    exists 0, a. split; [f_equal; lia|]. split; [done|]. intros v Hv Hmv. rewrite app_nil_r. by eapply not_useful.
Qed.

Lemma check_arm_justified fuel ty arm row g rest matrix ds :
  Forall (fun d => dwf d ty) matrix -> dwf row ty -> check_arm_reachability reg fuel ty arm row matrix = Some ds ->
  forall d, d ∈ ds -> justified ty matrix arm ((row, g) :: rest) d.
Proof.
  intros Hm Hr E d Hd. unfold check_arm_reachability in E. destruct (existsb is_wildcard matrix) eqn:Ex.
  - simplify_eq. apply list_elem_of_singleton in Hd as ->. exists 0, row, g. split; [lia|]. split; [done|].
    intros v _ _. apply existsb_exists in Ex as (e & He & Hw). exists e. split; [|by destruct e].
    rewrite app_nil_r. by apply list_elem_of_In.
  - assert ((useful ← is_useful reg fuel ty matrix row; Some (if useful : bool then [] else [UnreachableArm arm])) = Some ds ->
      justified ty matrix arm ((row, g) :: rest) d) as Hplain.
    { intros E'. apply bind_Some in E' as (useful & Eu & E'). destruct useful; simplify_eq; [by apply not_elem_of_nil in Hd|].
      apply list_elem_of_singleton in Hd as ->. exists 0, row, g. split; [lia|]. split; [done|].
      intros v Hv Hmv. rewrite app_nil_r. by eapply not_useful. }
    destruct row as [| | |alts|]; try (by apply Hplain). apply dwf_or in Hr.
    destruct (check_alternatives_justified fuel ty arm 0 matrix alts ds Hm Hr E d Hd) as (k & a & -> & Hk & Hma).
    exists 0, alts, g, a. split; [lia|]. split; [done|]. split; [done|]. by rewrite app_nil_r.
Qed.

Lemma check_arms_justified fuel ty rows : Forall (fun r => dwf (fst r) ty) rows ->
  forall arm matrix ds matrix', Forall (fun d => dwf d ty) matrix ->
  check_arms reg fuel ty arm rows matrix = Some (ds, matrix') ->
  matrix' = matrix ++ unguarded rows /\ forall d, d ∈ ds -> justified ty matrix arm rows d.
Proof.
  induction 1 as [|[row g] rows Hrow _ IH]; intros arm matrix ds matrix' Hm E; simpl in E.
  - simplify_eq. rewrite app_nil_r. split; [done|]. intros d Hd. by apply not_elem_of_nil in Hd.
  - apply bind_Some in E as (ds1 & E1 & E). apply bind_Some in E as ([ds2 m2] & E2 & [= <- <-]).
    assert (Forall (fun d => dwf d ty) (if g then matrix else matrix ++ [row])) as Hm'.
    { destruct g; [done|]. apply Forall_app. by repeat constructor. }
    destruct (IH _ _ _ _ Hm' E2) as [-> Hj]. split; [destruct g; simpl; by rewrite <- ?app_assoc|].
    intros d Hd. apply elem_of_app in Hd as [Hd|Hd]; [by eapply check_arm_justified|]. specialize (Hj d Hd).
    assert (forall k, (if g then matrix else matrix ++ [row]) ++ unguarded (take k rows) =
      matrix ++ unguarded (take (S k) ((row, g) :: rows))) as Hk by (intros k; destruct g; simpl; by rewrite <- ?app_assoc).
    destruct d; cbn [justified] in *; try done.
    + destruct Hj as (k & r & g' & -> & ? & Hv). exists (S k), r, g'. rewrite <- Hk. split; [lia|done].
    + destruct Hj as (k & r & g' & -> & ? & Hv). exists (S k), r, g'. rewrite <- Hk. split; [lia|done].
    + destruct Hj as (k & alts & g' & a & -> & ? & ? & Hv). exists (S k), alts, g', a. rewrite <- Hk. split; [lia|done].
Qed.

Lemma dedup_nil l : dedup l = [] -> l = [].
Proof. induction l as [|x [|y l] IH]; simpl; [done..|]. case_bool_decide; [|done]. intros E. by apply IH in E. Qed.

Lemma missing_patterns_nil fuel ty rows :
  missing_patterns reg fuel ty rows = Some [] -> missing_witnesses reg fuel ty rows = Some [].
Proof.
  unfold missing_patterns. intros E. apply bind_Some in E as (ws & -> & E). simplify_eq. f_equal.
  match goal with H : dedup _ = [] |- _ => by apply dedup_nil, fmap_nil_inv in H end.
Qed.
End Semantics.

(** ** Match expressions *)

Section Match.
Context (reg : GlobalRegistry) {Atom Segment : Type} (denote : string -> Atom).
Context (fuel : nat) (opaque : Pattern Segment -> Value Atom -> Prop).
Context (ty : ResolvedType) (arms : list (Pattern Segment * bool)).

Notation rowed arm row := (deconstruct reg fuel (fst arm) ty = Some (Some row)).
Notation matches := (pmatch reg denote fuel opaque).

Lemma deconstruct_or (p : Pattern Segment) alts : deconstruct reg fuel p ty = Some (Some (DOr alts)) ->
  exists ps, p = POr ps /\ Forall2 (fun p d => deconstruct reg fuel p ty = Some (Some d)) ps alts.
Proof.
  destruct p as [|[]| | | | | | | |[]| | |ps]; simpl; intros E; repeat (case_match; simplify_eq/=); try done.
  all: try (apply bind_Some in E as ([] & ? & E); simplify_eq/=; repeat (case_match; simplify_eq/=); done).
  apply bind_Some in E as ([ds|] & E1 & E2); simplify_eq/=. exists ps. split; [done|]. by apply alternatives_sound.
Qed.

Lemma rows_of_arms rows :
  deconstruct_all (fun p => deconstruct reg fuel p ty) (map fst arms) = Some (Some rows) ->
  Forall2 (fun arm row => rowed arm row) arms rows.
Proof. intros E. apply alternatives_sound in E. by apply Forall2_fmap_l in E. Qed.

Lemma zipped_rows rows k row g : Forall2 (fun arm row => rowed arm row) arms rows ->
  zip rows (map snd arms) !! k = Some (row, g) -> exists p, arms !! k = Some (p, g) /\ rowed (p, g) row.
Proof.
  intros HF E. apply lookup_zip_with_Some in E as (row' & g' & [= -> ->] & Hr & Hg).
  apply list_lookup_fmap_Some in Hg as ([p g''] & -> & Hp). exists p. split; [done|].
  by eapply Forall2_lookup_lr in HF.
Qed.

Lemma unguarded_row rows k e : Forall2 (fun arm row => rowed arm row) arms rows ->
  e ∈ unguarded (take k (zip rows (map snd arms))) -> exists p, (p, false) ∈ take k arms /\ rowed (p, false) e.
Proof.
  intros HF He. unfold unguarded in He. apply list_elem_of_fmap in He as ([row g] & -> & He).
  apply list_elem_of_In, filter_In in He as [He Hg]. destruct g; [done|].
  apply list_elem_of_In, list_elem_of_lookup in He as [n Hn]. apply lookup_take_Some in Hn as [Hn Hlt].
  destruct (zipped_rows _ _ _ _ HF Hn) as (p & Hp & Hd). exists p. split; [|done].
  apply elem_of_take. eauto.
Qed.

Context (Honce : forall p g, (p, g) ∈ arms -> fields_once p).

Lemma unguarded_matches rows k e v : Forall2 (fun arm row => rowed arm row) arms rows ->
  e ∈ unguarded (take k (zip rows (map snd arms))) -> has_type reg v ty -> dmatch denote false e v ->
  exists p, (p, false) ∈ take k arms /\ matches p ty v.
Proof.
  intros HF He Hv Hm. destruct (unguarded_row rows k e HF He) as (p & Hp & Hd). exists p. split; [done|].
  apply (deconstruct_sound reg denote fuel opaque p ty e Hd); [done| |done].
  apply elem_of_take in Hp as (n & Hp & _). eapply Honce, list_elem_of_lookup_2, Hp.
Qed.

Lemma rows_wf rows : Forall2 (fun arm row => rowed arm row) arms rows ->
  Forall (fun r => dwf reg (fst r) ty) (zip rows (map snd arms)).
Proof.
  intros HF. apply Forall_lookup. intros k [row g] Hk. destruct (zipped_rows _ _ _ _ HF Hk) as (p & _ & Hd).
  apply (deconstruct_sound reg denote fuel opaque p ty row Hd).
Qed.

Lemma row_matches p row v : deconstruct reg fuel p ty = Some (Some row) -> has_type reg v ty ->
  matches p ty v -> dmatch denote true row v.
Proof. intros E Hv. by apply (deconstruct_sound reg denote fuel opaque p ty row E). Qed.

(** The unguarded arms among the first [k] match [v]. *)
Definition caught (k : nat) (v : Value Atom) : Prop := exists p, (p, false) ∈ take k arms /\ matches p ty v.

Lemma arm_justified rows i : Forall2 (fun arm row => rowed arm row) arms rows -> forall d,
  d = UnreachableAfterCatchAll i \/ d = UnreachableArm i ->
  justified reg denote ty [] 0 (zip rows (map snd arms)) d ->
  exists p g, arms !! i = Some (p, g) /\ forall v, has_type reg v ty -> matches p ty v -> caught i v.
Proof.
  intros HF d Hd Hj. assert (justified reg denote ty [] 0 (zip rows (map snd arms)) (UnreachableArm i))
    as (k & row & g & -> & Hk & Hm)
    by (destruct Hd as [-> | ->]; exact Hj).
  destruct (zipped_rows _ _ _ _ HF Hk) as (p & Hp & Hd'). exists p, g. split; [done|]. intros v Hv Hpv.
  destruct (Hm v Hv (row_matches _ _ _ Hd' Hv Hpv)) as (e & He & Hev). by eapply unguarded_matches.
Qed.

Lemma alternative_justified rows i j : Forall2 (fun arm row => rowed arm row) arms rows ->
  justified reg denote ty [] 0 (zip rows (map snd arms)) (UnreachableAlternative i j) ->
  exists ps g p, arms !! i = Some (POr ps, g) /\ ps !! j = Some p /\
    forall v, has_type reg v ty -> matches p ty v -> caught i v \/ exists p', p' ∈ take j ps /\ matches p' ty v.
Proof.
  intros HF (k & alts & g & a & -> & Hk & Ha & Hm). destruct (zipped_rows _ _ _ _ HF Hk) as (p & Hp & Hd).
  apply deconstruct_or in Hd as (ps & Hps & Halts). simpl in Hps. subst p.
  destruct (Forall2_lookup_r _ _ _ _ _ Halts Ha) as (p & Hpj & Hda). exists ps, g, p. split; [done|]. split; [done|].
  intros v Hv Hpv. destruct (Hm v Hv (row_matches _ _ _ Hda Hv Hpv)) as (e & He & Hev).
  apply elem_of_app in He as [He|He]; [left; by eapply unguarded_matches|right].
  apply list_elem_of_lookup in He as [n Hn]. apply lookup_take_Some in Hn as [Hn Hlt].
  destruct (Forall2_lookup_r _ _ _ _ _ Halts Hn) as (p' & Hp' & Hd'). exists p'.
  split; [apply elem_of_take; eauto|].
  apply (deconstruct_sound reg denote fuel opaque p' ty e Hd'); [done| |done].
  assert (fields_once (POr ps)) as Ho by (eapply Honce, list_elem_of_lookup_2, Hp). simpl in Ho.
  assert (Forall fields_once ps) as HFo by (clear -Ho; induction ps as [|q qs IH]; constructor; naive_solver).
  by eapply Forall_lookup in HFo.
Qed.

End Match.

(** C30: the verdicts of [check_coverage] hold. When it reports neither a missing
    catch-all nor missing patterns, every value of the subject's type is matched
    by an arm without a guard, so the match cannot fall through. An arm it
    reports as unreachable is never the first to match: every value it matches
    is matched by an earlier arm without a guard. An alternative it reports is
    likewise matched by an earlier such arm or an earlier alternative of the
    same or-pattern. The guard and the choice of what binary and list patterns
    match play no role. *)
Theorem match_coverage_sound {Atom Segment} reg (denote : string -> Atom) (opaque : Pattern Segment -> Value Atom -> Prop)
    fuel ty (arms : list (Pattern Segment * bool)) rows ds :
  (forall p g, (p, g) ∈ arms -> fields_once p) ->
  deconstruct_all (fun p => deconstruct reg fuel p ty) (map fst arms) = Some (Some rows) ->
  check_coverage reg fuel ty arms = Some ds ->
  (NeedsCatchAll ∉ ds -> (forall missing, NotExhaustive missing ∉ ds) -> forall v, has_type reg v ty ->
    exists p, (p, false) ∈ arms /\ pmatch reg denote fuel opaque p ty v) /\
  (forall i, UnreachableArm i ∈ ds \/ UnreachableAfterCatchAll i ∈ ds ->
    exists p g, arms !! i = Some (p, g) /\ forall v, has_type reg v ty -> pmatch reg denote fuel opaque p ty v ->
      exists p', (p', false) ∈ take i arms /\ pmatch reg denote fuel opaque p' ty v) /\
  (forall i j, UnreachableAlternative i j ∈ ds ->
    exists ps g p, arms !! i = Some (POr ps, g) /\ ps !! j = Some p /\
      forall v, has_type reg v ty -> pmatch reg denote fuel opaque p ty v ->
        (exists p', (p', false) ∈ take i arms /\ pmatch reg denote fuel opaque p' ty v) \/
        exists p', p' ∈ take j ps /\ pmatch reg denote fuel opaque p' ty v).
Proof.
  intros Honce Erows E. unfold check_coverage in E. rewrite Erows in E. simpl in E.
  apply rows_of_arms in Erows as HF. pose proof (rows_wf reg denote fuel opaque ty arms rows HF) as Hwf.
  apply bind_Some in E as ([ds1 matrix] & E1 & E). apply bind_Some in E as (missing & E2 & [= <-]).
  destruct (check_arms_justified reg denote (fun _ => False) fuel ty _ Hwf 0 [] ds1 matrix ltac:(constructor) E1)
    as [-> Hj].
  assert (forall d, d ∈ ds1 ++ match missing with [] => []
      | _ => if existsb (fun w => bool_decide (w = "_")) missing then [NeedsCatchAll] else [NotExhaustive missing] end ->
    d <> NeedsCatchAll -> (forall m, d <> NotExhaustive m) -> d ∈ ds1) as Hin.
  { intros d Hd H1 H2. apply elem_of_app in Hd as [?|Hd]; [done|]. destruct missing; [by apply not_elem_of_nil in Hd|].
    case_match; apply list_elem_of_singleton in Hd as ->; naive_solver. }
  split; [|split].
  - intros Hn1 Hn2 v Hv. assert (missing = []) as ->.
    { destruct missing as [|w ws]; [done|]. exfalso. destruct (existsb _ _); [apply Hn1|apply (Hn2 (w :: ws))];
        apply elem_of_app; right; constructor. }
    apply missing_patterns_nil in E2. simpl in E2.
    assert (Forall (fun d => dwf reg d ty) (unguarded (zip rows (map snd arms)))) as Hw.
    { apply Forall_fmap, Forall_forall. intros r Hr. apply list_elem_of_In, filter_In in Hr as [Hr _].
      apply list_elem_of_In in Hr. by rewrite Forall_forall in Hwf; apply Hwf. }
    destruct (nothing_missing reg denote (fun _ => False) fuel ty _ v Hw E2 Hv) as (e & He & Hm).
    rewrite <- (take_ge (zip _ _) (length arms)) in He by (rewrite length_zip_with, length_map; lia).
    destruct (unguarded_matches _ _ _ opaque _ _ Honce _ _ _ _ HF He Hv Hm) as (p & Hp & ?).
    exists p. rewrite take_ge in Hp by lia. done.
  - intros i Hi. destruct Hi as [Hi|Hi]; apply Hin in Hi; try done;
      (eapply arm_justified; [done|exact HF| |by apply Hj]; eauto).
  - intros i j Hi. apply Hin in Hi; [|done..]. eapply alternative_justified; [done|exact HF|by apply Hj].
Qed.

(** The subject [(Bool, Int)] and the arms
    [(true, 0) | (true, 0)], [(true, n)], [(false, _)] and [(_, 7)]. *)
Definition stub_registry : GlobalRegistry := default registry_new with_stdlib_stubs.
Definition sample_subject : ResolvedType := TupleType [leaf (RGlobal 2%Z); leaf (RGlobal 6%Z)].
Definition sample_arms : list (Pattern unit * bool) :=
  [(POr [PTuple [PLiteral (LBool true); PLiteral (LInt "0")]; PTuple [PLiteral (LBool true); PLiteral (LInt "0")]], false);
   (PTuple [PLiteral (LBool true); PBinding], false);
   (PTuple [PLiteral (LBool false); PWildcard], false);
   (PTuple [PWildcard; PLiteral (LInt "7")], true)].

Lemma match_coverage_sound_witness :
  check_coverage stub_registry 20 sample_subject sample_arms = Some [UnreachableAlternative 0 1; UnreachableArm 3] /\
  (forall v : Value string, has_type stub_registry v sample_subject ->
    exists p, (p, false) ∈ sample_arms /\ pmatch stub_registry id 20 (fun _ _ => False) p sample_subject v).
Proof.
  assert (check_coverage stub_registry 20 sample_subject sample_arms = Some [UnreachableAlternative 0 1; UnreachableArm 3])
    as E by (vm_compute; reflexivity).
  split; [exact E|].
  destruct (deconstruct_all (fun p => deconstruct stub_registry 20 p sample_subject) (map fst sample_arms)) as [[rows|]|] eqn:Er.
  - apply (match_coverage_sound stub_registry id (fun _ _ => False) 20 sample_subject sample_arms rows _) with (2 := Er) (3 := E).
    + intros p g H. repeat (apply elem_of_cons in H as [H|H]; [injection H as -> _; simpl; tauto|]). destruct (not_elem_of_nil _ H).
    + intros H. repeat (apply elem_of_cons in H as [H|H]; [discriminate H|]). destruct (not_elem_of_nil _ H).
    + intros m H. repeat (apply elem_of_cons in H as [H|H]; [discriminate H|]). destruct (not_elem_of_nil _ H).
  - exfalso. revert Er. vm_compute. discriminate.
  - exfalso. revert Er. vm_compute. discriminate.
Defined.

(** A pattern without binary and list patterns: what it matches depends on no choice. *)
Fixpoint transparent (d : DeconstructedPattern) : bool :=
  match d with
  | DWildcard | DLiteral _ => true
  | DOpaque => false
  | DConstructor _ fields => forallb transparent fields
  | DOr alternatives => forallb transparent alternatives
  end.

Lemma transparent_match {Atom} (denote : string -> Atom) d : transparent d = true ->
  forall v, dmatch denote true d v <-> dmatch denote false d v.
Proof.
  induction d as [c fs IH|text| |ds IH|] using deconstructed_ind'; intros Ht v; try done.
  - destruct v as [c' vs|]; [|done]. simpl in *. rewrite !all2P_Forall2.
    assert (Forall2 (dmatch denote true) fs vs <-> Forall2 (dmatch denote false) fs vs) as ->; [|done].
    revert vs. induction IH as [|d fs Hd _ IH]; intros [|v vs]; try (by split; inversion 1).
    simpl in Ht. apply andb_prop in Ht as [Htd Htf]. rewrite !Forall2_cons. by rewrite (Hd Htd v), (IH Htf vs).
  - simpl in *. induction IH as [|d ds Hd _ IH]; [done|]. simpl in *. apply andb_prop in Ht as [Htd Htf].
    by rewrite (Hd Htd v), (IH Htf).
Qed.

(** C31: [missing_witnesses] always finishes and lists what is really missing. For
    well typed rows there is an answer that every sufficient fuel gives. When it is
    empty, every value of the type is matched by a row, whatever the binary and list
    patterns match. A value that a listed witness pattern stands for, its wildcards
    standing for values none of the rows' literals denotes, is matched by no row without
    binary and list patterns, whatever literals denote the same value, and by no other
    row without the help of its binary and list patterns. *)
Theorem missing_witnesses_real {Atom} reg (denote : string -> Atom) (L : string -> Prop) ty rows
    (Hrows : Forall (fun d => dtyped reg L d ty) rows) :
  exists fuel ws, (forall fuel', fuel <= fuel' -> missing_witnesses reg fuel' ty rows = Some ws) /\
    (ws = [] -> forall v, has_type reg v ty -> exists d, d ∈ rows /\ dmatch denote false d v) /\
    (forall w v, w ∈ ws -> has_type reg v ty -> inst denote L (first_column w) v ->
      forall d, d ∈ rows ->
        ~ dmatch denote false d v /\ (transparent d = true -> ~ dmatch denote true d v)).
Proof.
  assert (Forall (fun d => dwf reg d ty) rows) as Hwf by (eapply Forall_impl; [exact Hrows|]; intros d; apply dtyped_wf).
  destruct (usefulness_solved reg denote L (single_column rows) [DWildcard] [ty]) as (fuel & ws & E & Hg);
    [by apply single_column_shaped|by repeat constructor|].
  exists fuel, ws. split; [|split].
  - intros fuel' Hle. by apply (usefulness_mono reg fuel fuel').
  - intros -> v Hv. apply single_column_covered. apply (good_empty _ _ _ _ _ _ _ _ Hg); [done|by repeat constructor..].
  - intros w v Hw Hv Hi d Hd. pose proof (good_length _ _ _ _ _ _ _ _ Hg) as Hl. rewrite Forall_forall in Hl.
    specialize (Hl w Hw). destruct w as [|w [|]]; try done. simpl in Hi.
    destruct (good_witness _ _ _ _ _ _ _ _ Hg [w] [v]) as [_ Hn];
      [by apply single_column_shaped|by repeat constructor|done|by repeat constructor..|].
    assert (~ dmatch denote false d v) as Hno by (intros Hm; apply Hn, single_column_covered; eauto).
    split; [done|]. intros Ht. by rewrite transparent_match.
Qed.

Lemma missing_witnesses_real_witness :
  exists fuel ws, (forall fuel', fuel <= fuel' ->
      missing_witnesses stub_registry fuel' sample_subject [DConstructor CSingle [DConstructor (CBool true) []; DWildcard]] = Some ws) /\
    (forall w (v : Value string), w ∈ ws -> has_type stub_registry v sample_subject -> inst id (fun _ => False) (first_column w) v ->
      ~ dmatch id true (DConstructor CSingle [DConstructor (CBool true) []; DWildcard]) v).
Proof.
  destruct (missing_witnesses_real stub_registry id (fun _ => False) sample_subject
    [DConstructor CSingle [DConstructor (CBool true) []; DWildcard]]) as (fuel & ws & H1 & _ & H2).
  - repeat constructor.
  - exists fuel, ws. split; [exact H1|]. intros w v Hw Hv Hi.
    apply (H2 w v Hw Hv Hi (DConstructor CSingle [DConstructor (CBool true) []; DWildcard])); [constructor|reflexivity].
Defined.
