(* ===== verification/Syntax.v ===== *)
(** * Statements, expressions and patterns

    The syntax tree of function bodies ([koja-ast/src/ast.rs]) as the passes
    after name resolution read it: every local carries its [LocalId], every
    expression its resolved type. Names, spans, type annotations and coercions
    are left out. A [StringPart] that is raw text is [None]; a closure parameter
    is its local id, named or not. *)

From S2P Require Import Prelude Types Usefulness.
Local Open Scope Z_scope.

Inductive BinOp :=
  | BAdd | BAnd | BConcat | BDiv | BEq | BGt | BGtEq | BLt | BLtEq | BMod | BMul | BNotEq | BOr | BSub.

Inductive UnaryOp := UNeg | UNot.

Record LValue := mkLValue { target_local : option LocalId; segments : list string }.

Inductive Expr :=
  | mkExpr (kind : ExprKind) (resolution : ResolvedType)
with ExprKind :=
  | EAssert (condition : Expr) (message : option Expr)
  | EBinary (op : BinOp) (left right : Expr)
  | EBinaryLiteral (segments : list BinarySegment)
  | ECall (callee : Expr) (args : list Expr)
  | EClosure (params : list (option LocalId)) (body : list Statement)
  | ECond (arms : list CondArm) (else_body : option (list Statement))
  | EEnumConstruction (data : EnumConstructionData)
  | EFail (value : Expr)
  | EFieldAccess (receiver : Expr)
  | EFor (pattern : BodyPattern) (iterable : Expr) (body : list Statement)
  | EGroup (inner : Expr)
  | EIdent (resolution : Resolution)
  | EIf (condition : Expr) (then_body : list Statement) (else_body : option (list Statement))
  | EList (elements : list Expr)
  | ELiteral (value : Literal)
  | ELoop (body : list Statement)
  | EMap (entries : list (Expr * Expr))
  | EMatch (subject : Expr) (arms : list MatchArm)
  | EMethodCall (receiver : Expr) (args : list Expr)
  | ENamedFunctionReference (target : Resolution)
  | EReceive (arms : list MatchArm) (after_timeout : option Expr) (after_body : list Statement)
  | ERescue (subject handler : Expr)
  | ESelf (local_id : option LocalId)
  | EShortClosure (params : list (option LocalId)) (body : Expr)
  | ESpawn (inner : Expr)
  | EString (parts : list (option Expr))
  | EStructConstruction (fields : list Expr)
  | ETernary (condition then_expr else_expr : Expr)
  | ETry (inner : Expr)
  | ETuple (elements : list Expr)
  | EUnary (op : UnaryOp) (operand : Expr)
  | EWhile (condition : Expr) (body : list Statement)
with EnumConstructionData :=
  | DataUnit
  | DataTuple (elements : list Expr)
  | DataStruct (fields : list Expr)
with BinarySegment := mkSegment (value : Expr) (size : option Expr)
with CondArm := mkCondArm (condition : Expr) (body : list Statement)
with MatchArm := mkMatchArm (pattern : BodyPattern) (guard : option Expr) (body : list Statement)
with Statement :=
  | SExpr (e : Expr)
  | SAssignment (target : LValue) (value : Expr)
  | SCompoundAssign (target : LValue) (value : Expr)
  | SReturn (value : option Expr)
  | SBreak
  | SDestructure (pattern : BodyPattern) (value : Expr)
with BodyPattern :=
  | BPWildcard
  | BPLiteral (value : Literal)
  | BPBinary (segments : list BinarySegment)
  | BPBinding (local_id : option LocalId)
  | BPEnumUnit
  | BPEnumTuple (elements : list BodyPattern)
  | BPEnumStruct (fields : list BodyPattern)
  | BPConstructor (elements : list BodyPattern)
  | BPStruct (fields : list BodyPattern)
  | BPTypedBinding (local_id : option LocalId)
  | BPList (elements : list BodyPattern)
  | BPTuple (elements : list BodyPattern)
  | BPOr (patterns : list BodyPattern).

Definition expr_kind (e : Expr) : ExprKind := match e with mkExpr k _ => k end.
Definition expr_type (e : Expr) : ResolvedType := match e with mkExpr _ ty => ty end.

Inductive Param :=
  | PRegular (default_value : option Expr) (local_id : option LocalId)
  | PSelf (local_id : option LocalId).

Record Function := mkFunction { fn_params : list Param; fn_body : option (list Statement) }.

(** ** Induction over bodies

    One induction over the whole family, with the hypothesis for every
    expression, statement and pattern a node holds directly. *)

Section Induction.
Context (P : Expr -> Prop) (Q : Statement -> Prop) (R : BodyPattern -> Prop).

Definition optP {A} (X : A -> Prop) (o : option A) : Prop := match o with Some a => X a | None => True end.
Definition segmentP (s : BinarySegment) : Prop := match s with mkSegment v sz => P v /\ optP P sz end.
Definition cond_armP (a : CondArm) : Prop := match a with mkCondArm c b => P c /\ Forall Q b end.
Definition match_armP (a : MatchArm) : Prop := match a with mkMatchArm p g b => R p /\ optP P g /\ Forall Q b end.
Definition dataP (d : EnumConstructionData) : Prop :=
  match d with DataUnit => True | DataTuple es | DataStruct es => Forall P es end.

(** The hypotheses about the parts of a node. *)
Definition kindP (k : ExprKind) : Prop :=
  match k with
  | EAssert c m => P c /\ optP P m
  | EBinary _ l r | ERescue l r => P l /\ P r
  | EBinaryLiteral segs => Forall segmentP segs
  | ECall c args | EMethodCall c args => P c /\ Forall P args
  | EClosure _ body | ELoop body => Forall Q body
  | ECond arms els => Forall cond_armP arms /\ optP (Forall Q) els
  | EEnumConstruction data => dataP data
  | EFail e | EFieldAccess e | EGroup e | ESpawn e | ETry e | EUnary _ e | EShortClosure _ e => P e
  | EFor p it body => R p /\ P it /\ Forall Q body
  | EIdent _ | ELiteral _ | ENamedFunctionReference _ | ESelf _ => True
  | EIf c th els => P c /\ Forall Q th /\ optP (Forall Q) els
  | EList es | ETuple es | EStructConstruction es => Forall P es
  | EMap entries => Forall (fun en => P en.1 /\ P en.2) entries
  | EMatch s arms => P s /\ Forall match_armP arms
  | EReceive arms tm body => Forall match_armP arms /\ optP P tm /\ Forall Q body
  | EString parts => Forall (optP P) parts
  | ETernary c t e => P c /\ P t /\ P e
  | EWhile c body => P c /\ Forall Q body
  end.
Definition statementP (s : Statement) : Prop :=
  match s with
  | SExpr e | SAssignment _ e | SCompoundAssign _ e => P e
  | SReturn v => optP P v
  | SBreak => True
  | SDestructure p e => R p /\ P e
  end.
Definition patternP (p : BodyPattern) : Prop :=
  match p with
  | BPWildcard | BPLiteral _ | BPBinding _ | BPEnumUnit | BPTypedBinding _ => True
  | BPBinary segs => Forall segmentP segs
  | BPEnumTuple ps | BPEnumStruct ps | BPConstructor ps | BPStruct ps | BPList ps | BPTuple ps | BPOr ps => Forall R ps
  end.

Context (HP : forall k ty, kindP k -> P (mkExpr k ty)).
Context (HQ : forall s, statementP s -> Q s).
Context (HR : forall p, patternP p -> R p).

Definition forall_of {A} (X : A -> Prop) (f : forall a, X a) : forall l, Forall X l :=
  fix go l := match l with [] => Forall_nil_2 X | a :: l => Forall_cons_2 X a l (f a) (go l) end.
Definition opt_of {A} (X : A -> Prop) (f : forall a, X a) (o : option A) : optP X o :=
  match o with Some a => f a | None => I end.

Fixpoint expr_induction (e : Expr) : P e :=
  match e with
  | mkExpr k ty => HP k ty
      match k return kindP k with
      | EAssert c m => conj (expr_induction c) (opt_of P expr_induction m)
      | EBinary _ l r => conj (expr_induction l) (expr_induction r)
      | EBinaryLiteral segs => forall_of segmentP (fun s => match s with mkSegment v sz =>
          conj (expr_induction v) (opt_of P expr_induction sz) end) segs
      | ECall c args => conj (expr_induction c) (forall_of P expr_induction args)
      | EClosure _ body => forall_of Q statement_induction body
      | ECond arms els => conj (forall_of cond_armP (fun a => match a with mkCondArm c b =>
          conj (expr_induction c) (forall_of Q statement_induction b) end) arms)
          (opt_of (Forall Q) (forall_of Q statement_induction) els)
      | EEnumConstruction data => match data with
          | DataUnit => I
          | DataTuple es => forall_of P expr_induction es
          | DataStruct es => forall_of P expr_induction es
          end
      | EFail v => expr_induction v
      | EFieldAccess r => expr_induction r
      | EFor p it body => conj (pattern_induction p) (conj (expr_induction it) (forall_of Q statement_induction body))
      | EGroup v => expr_induction v
      | EIdent _ => I
      | EIf c th els => conj (expr_induction c) (conj (forall_of Q statement_induction th)
          (opt_of (Forall Q) (forall_of Q statement_induction) els))
      | EList es => forall_of P expr_induction es
      | ELiteral _ => I
      | ELoop body => forall_of Q statement_induction body
      | EMap entries => forall_of (fun en => P en.1 /\ P en.2)
          (fun en => match en with (key, v) => conj (expr_induction key) (expr_induction v) end) entries
      | EMatch s arms => conj (expr_induction s) (forall_of match_armP (fun a => match a with mkMatchArm p g b =>
          conj (pattern_induction p) (conj (opt_of P expr_induction g) (forall_of Q statement_induction b)) end) arms)
      | EMethodCall r args => conj (expr_induction r) (forall_of P expr_induction args)
      | ENamedFunctionReference _ => I
      | EReceive arms tm body => conj (forall_of match_armP (fun a => match a with mkMatchArm p g b =>
          conj (pattern_induction p) (conj (opt_of P expr_induction g) (forall_of Q statement_induction b)) end) arms)
          (conj (opt_of P expr_induction tm) (forall_of Q statement_induction body))
      | ERescue s h => conj (expr_induction s) (expr_induction h)
      | ESelf _ => I
      | EShortClosure _ b => expr_induction b
      | ESpawn v => expr_induction v
      | EString parts => forall_of (optP P) (opt_of P expr_induction) parts
      | EStructConstruction es => forall_of P expr_induction es
      | ETernary c t el => conj (expr_induction c) (conj (expr_induction t) (expr_induction el))
      | ETry v => expr_induction v
      | ETuple es => forall_of P expr_induction es
      | EUnary _ v => expr_induction v
      | EWhile c body => conj (expr_induction c) (forall_of Q statement_induction body)
      end
  end
with statement_induction (s : Statement) : Q s :=
  HQ s
    match s return statementP s with
    | SExpr e => expr_induction e
    | SAssignment _ e => expr_induction e
    | SCompoundAssign _ e => expr_induction e
    | SReturn v => opt_of P expr_induction v
    | SBreak => I
    | SDestructure p e => conj (pattern_induction p) (expr_induction e)
    end
with pattern_induction (p : BodyPattern) : R p :=
  HR p
    match p return patternP p with
    | BPWildcard => I
    | BPLiteral _ => I
    | BPBinary segs => forall_of segmentP (fun s => match s with mkSegment v sz =>
        conj (expr_induction v) (opt_of P expr_induction sz) end) segs
    | BPBinding _ => I
    | BPEnumUnit => I
    | BPEnumTuple ps => forall_of R pattern_induction ps
    | BPEnumStruct ps => forall_of R pattern_induction ps
    | BPConstructor ps => forall_of R pattern_induction ps
    | BPStruct ps => forall_of R pattern_induction ps
    | BPTypedBinding _ => I
    | BPList ps => forall_of R pattern_induction ps
    | BPTuple ps => forall_of R pattern_induction ps
    | BPOr ps => forall_of R pattern_induction ps
    end.

Lemma body_induction : (forall e, P e) /\ (forall s, Q s) /\ (forall p, R p).
Proof. split; [exact expr_induction|]. split; [exact statement_induction|exact pattern_induction]. Qed.
End Induction.
