(* ===== verification/DefiniteAssignment.v ===== *)
(** * Definite assignment

    Models [koja-typecheck/src/pipeline/definite_assignment.rs]: the walk that
    reports every read of a local some path reaches without assigning it. A check
    is a function on the flow state that also returns the locals whose reads it
    reports; running a check on a clone of the state keeps the reports and drops
    the state. The visitor that finds the function bodies of a file is not
    modelled.

    The meaning of a body is the set of its runs: the reads and assignments in
    order, with how the run ends. [definite_assignment_sound] shows that a body
    without reports never reads an unassigned local, provided the places the walk takes
    for always evaluated, the right operands of [and] and [or] and the messages of
    [assert], branch and fail nowhere ([ordered_expr]); [short_circuit_gap] shows that
    without the condition it is false. *)

From S2P Require Import Prelude Types Registry Unify Usefulness Syntax.
Local Open Scope Z_scope.

(** ** Flow states *)

Record FlowState := mkFlow { assigned : gset LocalId; diverged : bool }.

Definition flow_default : FlowState := mkFlow ∅ false.

Definition assign (id : LocalId) (s : FlowState) : FlowState := mkFlow ({[id]} ∪ assigned s) (diverged s).

Definition is_assigned (id : LocalId) (s : FlowState) : bool := diverged s || bool_decide (id ∈ assigned s).

Definition diverge (s : FlowState) : FlowState := mkFlow (assigned s) true.

Definition join_arms (arms : list FlowState) (s : FlowState) : FlowState :=
  if diverged s then s
  else
    match List.filter (fun arm => negb (diverged arm)) arms with
    | [] => mkFlow (assigned s) true
    | first :: live => mkFlow (fold_left (fun merged arm => merged ∩ assigned arm) live (assigned first)) (diverged s)
    end.

(** ** Checks *)

Definition Check : Type := FlowState -> FlowState * list LocalId.

Definition pass : Check := fun s => (s, []).
Definition edit (f : FlowState -> FlowState) : Check := fun s => (f s, []).
Definition and_then (c1 c2 : Check) : Check := fun s =>
  let (s1, d1) := c1 s in let (s2, d2) := c2 s1 in (s2, d1 ++ d2).
Definition on_clone (c : Check) : Check := fun s => (s, snd (c s)).
Definition each {A} (f : A -> Check) : list A -> Check :=
  fix go l := match l with [] => pass | a :: l => and_then (f a) (go l) end.
Definition whenever {A} (f : A -> Check) (o : option A) : Check := match o with Some a => f a | None => pass end.

(** Run every check on its own clone and join the states they leave. *)
Definition join_checks (cs : list Check) : Check := fun s =>
  (join_arms (map (fun c => fst (c s)) cs) s, concat (map (fun c => snd (c s)) cs)).

Definition check_read (id : LocalId) : Check := fun s => (s, if is_assigned id s then [] else [id]).

Definition check_lvalue_head (target : LValue) : Check := whenever check_read (target_local target).

Definition assign_all (ids : list (option LocalId)) : FlowState -> FlowState := fun s =>
  fold_left (fun s o => match o with Some id => assign id s | None => s end) ids s.

Definition closure_entry_state (params : list (option LocalId)) : FlowState -> FlowState := assign_all params.

Notation "c1 ;;; c2" := (and_then c1 c2) (at level 63, right associativity).

Section Checker.
Context (reg : GlobalRegistry).

Definition diverge_on_never (ty : ResolvedType) : Check :=
  edit (fun s => if is_primitive ty reg "Never" then diverge s else s).

Definition bind_segment_value (value : Expr) : Check :=
  match expr_kind value with EIdent (RLocal id) => edit (assign id) | _ => pass end.

Fixpoint check_expr (e : Expr) : Check :=
  match e with
  | mkExpr kind _ =>
      match kind with
      | EAssert condition message => check_expr condition ;;; whenever check_expr message
      | EBinary _ lhs rhs => check_expr lhs ;;; check_expr rhs
      | EBinaryLiteral segments =>
          each (fun seg => match seg with mkSegment value size => check_expr value ;;; whenever check_expr size end) segments
      | ECall callee args => check_expr callee ;;; each check_expr args
      | EClosure params body => on_clone (edit (closure_entry_state params) ;;; each check_statement body)
      | ECond arms else_body =>
          match arms with
          | [] => match else_body with Some body => join_checks [each check_statement body] | None => pass end
          | mkCondArm condition body :: rest =>
              let bodies := each check_statement body ::
                map (fun arm => match arm with mkCondArm condition body =>
                  on_clone (check_expr condition) ;;; each check_statement body end) rest in
              check_expr condition ;;;
              match else_body with
              | Some body => join_checks (bodies ++ [each check_statement body])
              | None => each on_clone bodies
              end
          end
      | EEnumConstruction data =>
          match data with DataStruct fields => each check_expr fields | DataTuple elements => each check_expr elements | DataUnit => pass end
      | EFail value => check_expr value ;;; edit diverge
      | EFieldAccess receiver => check_expr receiver
      | EFor pattern iterable body =>
          check_expr iterable ;;; on_clone (bind_pattern pattern ;;; each check_statement body)
      | EGroup inner => check_expr inner
      | EIdent resolution => match resolution with RLocal id => check_read id | _ => pass end
      | EIf condition then_body else_body =>
          check_expr condition ;;;
          match else_body with
          | Some else_body => join_checks [each check_statement then_body; each check_statement else_body]
          | None => on_clone (each check_statement then_body)
          end
      | EList elements | ETuple elements => each check_expr elements
      | ELiteral _ | ENamedFunctionReference _ | ESelf _ => pass
      | ELoop body => on_clone (each check_statement body)
      | EMap entries => each (fun entry => match entry with (key, value) => check_expr key ;;; check_expr value end) entries
      | EMatch subject arms =>
          check_expr subject ;;;
          join_checks (map (fun arm => match arm with mkMatchArm pattern guard body =>
            bind_pattern pattern ;;; whenever check_expr guard ;;; each check_statement body end) arms)
      | EMethodCall receiver args => check_expr receiver ;;; each check_expr args
      | EReceive arms after_timeout after_body =>
          whenever check_expr after_timeout ;;;
          join_checks (map (fun arm => match arm with mkMatchArm pattern guard body =>
              bind_pattern pattern ;;; whenever check_expr guard ;;; each check_statement body end) arms ++
            match after_timeout with Some _ => [each check_statement after_body] | None => [] end)
      | ERescue subject handler => check_expr subject ;;; on_clone (check_expr handler)
      | EShortClosure params body => on_clone (edit (closure_entry_state params) ;;; check_expr body)
      | ESpawn inner => check_expr inner
      | EString parts => each (whenever check_expr) parts
      | EStructConstruction fields => each check_expr fields
      | ETernary condition then_expr else_expr =>
          check_expr condition ;;;
          join_checks [check_expr then_expr ;;; diverge_on_never (expr_type then_expr);
                       check_expr else_expr ;;; diverge_on_never (expr_type else_expr)]
      | ETry inner => check_expr inner
      | EUnary _ operand => check_expr operand
      | EWhile condition body => check_expr condition ;;; on_clone (each check_statement body)
      end
  end
with check_statement (stmt : Statement) : Check :=
  match stmt with
  | SAssignment target value =>
      check_expr value ;;;
      (if bool_decide (length (segments target) = 1%nat) then
         match target_local target with Some id => edit (assign id) | None => pass end
       else check_lvalue_head target) ;;;
      diverge_on_never (expr_type value)
  | SBreak => edit diverge
  | SCompoundAssign target value => check_expr value ;;; check_lvalue_head target
  | SDestructure pattern value => check_expr value ;;; bind_pattern pattern
  | SExpr e => check_expr e ;;; diverge_on_never (expr_type e)
  | SReturn value => whenever check_expr value ;;; edit diverge
  end
with bind_pattern (pattern : BodyPattern) : Check :=
  match pattern with
  | BPBinary segments =>
      each (fun seg => match seg with mkSegment value size => whenever check_expr size ;;; bind_segment_value value end) segments
  | BPBinding local_id | BPTypedBinding local_id =>
      match local_id with Some id => edit (assign id) | None => pass end
  | BPConstructor elements | BPEnumTuple elements | BPList elements | BPTuple elements => each bind_pattern elements
  | BPEnumStruct fields | BPStruct fields => each bind_pattern fields
  | BPEnumUnit | BPLiteral _ | BPWildcard => pass
  | BPOr patterns => each bind_pattern patterns
  end.

Definition check_body (body : list Statement) : Check := each check_statement body.

(** [check_match_arms], one check per arm. *)
Definition check_match_arm (arm : MatchArm) : Check :=
  match arm with mkMatchArm pattern guard body =>
    bind_pattern pattern ;;; whenever check_expr guard ;;; each check_statement body end.

Definition param_local (p : Param) : option LocalId := match p with PRegular _ id | PSelf id => id end.
Definition param_default (p : Param) : option Expr := match p with PRegular d _ => d | PSelf _ => None end.

(** The reads [check_function] reports. *)
Definition check_function (f : Function) : list LocalId :=
  match fn_body f with
  | None => []
  | Some body =>
      snd ((edit (assign_all (map param_local (fn_params f))) ;;;
            each (whenever check_expr) (map param_default (fn_params f)) ;;;
            check_body body) flow_default)
  end.
End Checker.

(** ** Runs

    What a body does to its locals. [Nested] is a closure's body, run later from
    the locals that were assigned where it was created. A run that ends in [Cut]
    was interrupted: these runs cover loops that never end. *)

Inductive Event := Read (id : LocalId) | Assign (id : LocalId) | Nested (t : list Event).
Inductive Outcome := Falls | Breaks | Leaves | Cut.

Definition after_event (A : gset LocalId) (ev : Event) : gset LocalId :=
  match ev with Assign id => {[id]} ∪ A | _ => A end.
Definition after (A : gset LocalId) (t : list Event) : gset LocalId := fold_left after_event t A.

Fixpoint safe_event (A : gset LocalId) (ev : Event) : Prop :=
  match ev with
  | Read id => id ∈ A
  | Assign _ => True
  | Nested t => (fix go A t := match t with [] => True | ev :: t => safe_event A ev /\ go (after_event A ev) t end) A t
  end.

(** Every read of [t], starting with the locals [A] assigned, is of an assigned local. *)
Fixpoint safe (A : gset LocalId) (t : list Event) : Prop :=
  match t with [] => True | ev :: t => safe_event A ev /\ safe (after_event A ev) t end.

Definition Runs : Type := list Event -> Outcome -> Prop.

Definition done_or_cut (o : Outcome) : Prop := o = Falls \/ o = Cut.
Definition skip : Runs := fun t o => t = [] /\ done_or_cut o.
Definition stop (out : Outcome) : Runs := fun t o => t = [] /\ (o = out \/ o = Cut).
Definition emit (ev : Event) : Runs := fun t o => (t = [] /\ o = Cut) \/ (t = [ev] /\ done_or_cut o).
Definition seq (r1 r2 : Runs) : Runs := fun t o =>
  (r1 t o /\ o <> Falls) \/ exists t1 t2, t = t1 ++ t2 /\ r1 t1 Falls /\ r2 t2 o.
Definition alt (r1 r2 : Runs) : Runs := fun t o => r1 t o \/ r2 t o.
Definition all_of {A} (r : A -> Runs) : list A -> Runs := fix go l := match l with [] => skip | a :: l => seq (r a) (go l) end.
Definition any_of {A} (r : A -> Runs) : list A -> Runs := fix go l := match l with [] => stop Cut | a :: l => alt (r a) (go l) end.
Definition maybe {A} (r : A -> Runs) (o : option A) : Runs := match o with Some a => r a | None => skip end.
Definition assigns (ids : list (option LocalId)) : Runs := all_of (maybe (fun id => emit (Assign id))) ids.

(** A closure's body runs later, or never. *)
Definition later (r : Runs) : Runs := fun t o => skip t o \/ exists t' o', r t' o' /\ t = [Nested t'] /\ done_or_cut o.

(** Iterations of [r], ended by a [break], or between iterations when [ends]. *)
Inductive star (ends : bool) (r : Runs) : Runs :=
  | star_cut : star ends r [] Cut
  | star_end : ends = true -> star ends r [] Falls
  | star_next t1 t2 o : r t1 Falls -> star ends r t2 o -> star ends r (t1 ++ t2) o
  | star_break t : r t Breaks -> star ends r t Falls
  | star_out t o : r t o -> o = Leaves \/ o = Cut -> star ends r t o.

(** Trying a pattern and its guard without success, then [r]. *)
Definition attempt (head r : Runs) : Runs := fun t o => exists t1 t2, t = t1 ++ t2 /\ head t1 Cut /\ r t2 o.

Definition arms_of {A} (head body : A -> Runs) : list A -> Runs :=
  fix go l := match l with [] => stop Cut | a :: l => alt (seq (head a) (body a)) (attempt (head a) (go l)) end.

Section RunsOf.
Context (reg : GlobalRegistry).

(** An expression of type [Never] does not produce a value. *)
Definition typed (ty : ResolvedType) (r : Runs) : Runs := fun t o =>
  r t o /\ (o = Falls -> is_primitive ty reg "Never" = false).

Definition read_head (target : LValue) : Runs := maybe (fun id => emit (Read id)) (target_local target).
Definition write_head (target : LValue) : Runs :=
  if bool_decide (length (segments target) = 1%nat) then maybe (fun id => emit (Assign id)) (target_local target) else skip.

Fixpoint runs_expr (e : Expr) : Runs :=
  match e with
  | mkExpr kind ty => typed ty
      match kind with
      | EAssert condition message =>
          seq (runs_expr condition) (alt skip (seq (maybe runs_expr message) (stop Leaves)))
      | EBinary (BAnd | BOr) lhs rhs => seq (runs_expr lhs) (alt skip (runs_expr rhs))
      | EBinary _ lhs rhs => seq (runs_expr lhs) (runs_expr rhs)
      | EBinaryLiteral segments =>
          all_of (fun seg => match seg with mkSegment value size => seq (runs_expr value) (maybe runs_expr size) end) segments
      | ECall callee args => seq (runs_expr callee) (all_of runs_expr args)
      | EClosure params body => later (seq (assigns params) (all_of runs_statement body))
      | ECond arms else_body =>
          (fix go arms := match arms with
            | [] => match else_body with Some body => all_of runs_statement body | None => skip end
            | mkCondArm condition body :: rest => seq (runs_expr condition) (alt (all_of runs_statement body) (go rest))
            end) arms
      | EEnumConstruction data =>
          match data with DataStruct fields => all_of runs_expr fields | DataTuple elements => all_of runs_expr elements | DataUnit => skip end
      | EFail value => seq (runs_expr value) (stop Leaves)
      | EFieldAccess receiver => runs_expr receiver
      | EFor pattern iterable body =>
          seq (runs_expr iterable) (star true (seq (runs_pattern pattern) (all_of runs_statement body)))
      | EGroup inner => runs_expr inner
      | EIdent resolution => match resolution with RLocal id => emit (Read id) | _ => skip end
      | EIf condition then_body else_body =>
          seq (runs_expr condition) (alt (all_of runs_statement then_body)
            (match else_body with Some body => all_of runs_statement body | None => skip end))
      | EList elements | ETuple elements => all_of runs_expr elements
      | ELiteral _ | ENamedFunctionReference _ | ESelf _ => skip
      | ELoop body => star false (all_of runs_statement body)
      | EMap entries => all_of (fun entry => match entry with (key, value) => seq (runs_expr key) (runs_expr value) end) entries
      | EMatch subject arms =>
          seq (runs_expr subject) (arms_of
            (fun arm => match arm with mkMatchArm pattern guard _ => seq (runs_pattern pattern) (maybe runs_expr guard) end)
            (fun arm => match arm with mkMatchArm _ _ body => all_of runs_statement body end) arms)
      | EMethodCall receiver args => seq (runs_expr receiver) (all_of runs_expr args)
      | EReceive arms after_timeout after_body =>
          seq (maybe runs_expr after_timeout) (alt (arms_of
            (fun arm => match arm with mkMatchArm pattern guard _ => seq (runs_pattern pattern) (maybe runs_expr guard) end)
            (fun arm => match arm with mkMatchArm _ _ body => all_of runs_statement body end) arms)
            (match after_timeout with Some _ => all_of runs_statement after_body | None => stop Cut end))
      | ERescue subject handler => seq (runs_expr subject) (alt skip (runs_expr handler))
      | EShortClosure params body => later (seq (assigns params) (runs_expr body))
      | ESpawn inner => runs_expr inner
      | EString parts => all_of (maybe runs_expr) parts
      | EStructConstruction fields => all_of runs_expr fields
      | ETernary condition then_expr else_expr =>
          seq (runs_expr condition) (alt (runs_expr then_expr) (runs_expr else_expr))
      | ETry inner => seq (runs_expr inner) (alt skip (stop Leaves))
      | EUnary _ operand => runs_expr operand
      | EWhile condition body =>
          seq (runs_expr condition) (star true (seq (all_of runs_statement body) (runs_expr condition)))
      end
  end
with runs_statement (stmt : Statement) : Runs :=
  match stmt with
  | SAssignment target value =>
      seq (runs_expr value) (if bool_decide (length (segments target) = 1%nat) then write_head target else read_head target)
  | SBreak => stop Breaks
  | SCompoundAssign target value => seq (runs_expr value) (seq (read_head target) (write_head target))
  | SDestructure pattern value => seq (runs_expr value) (runs_pattern pattern)
  | SExpr e => runs_expr e
  | SReturn value => seq (maybe runs_expr value) (stop Leaves)
  end
with runs_pattern (pattern : BodyPattern) : Runs :=
  match pattern with
  | BPBinary segments =>
      all_of (fun seg => match seg with mkSegment value size => seq (maybe runs_expr size)
        (match expr_kind value with EIdent (RLocal id) => emit (Assign id) | _ => skip end) end) segments
  | BPBinding local_id | BPTypedBinding local_id => maybe (fun id => emit (Assign id)) local_id
  | BPConstructor elements | BPEnumTuple elements | BPList elements | BPTuple elements => all_of runs_pattern elements
  | BPEnumStruct fields | BPStruct fields => all_of runs_pattern fields
  | BPEnumUnit | BPLiteral _ | BPWildcard => skip
  | BPOr patterns => any_of runs_pattern patterns
  end.

Definition runs_body (body : list Statement) : Runs := all_of runs_statement body.
End RunsOf.

(** ** Where the walk follows the runs

    The walk treats the right operand of [and] and [or], and an [assert]'s
    message, as always evaluated. It is right about them when they neither assign
    nor diverge; [steady] says so syntactically. *)

Definition is_admitted_or_alternative (p : BodyPattern) : bool :=
  match p with BPEnumUnit | BPLiteral _ => true | _ => false end.

Definition forall_opt {A} (f : A -> bool) (o : option A) : bool := match o with Some a => f a | None => true end.

Fixpoint steady (reg : GlobalRegistry) (e : Expr) : bool :=
  match expr_kind e with
  | EAssert c m => steady reg c && forall_opt (steady reg) m
  | EBinary _ l r => steady reg l && steady reg r
  | EBinaryLiteral segs => forallb (fun seg => match seg with mkSegment v sz => steady reg v && forall_opt (steady reg) sz end) segs
  | ECall c args | EMethodCall c args => steady reg c && forallb (steady reg) args
  | ECond [] None => true
  | ECond (mkCondArm c _ :: _) None => steady reg c
  | EEnumConstruction data =>
      match data with DataStruct es | DataTuple es => forallb (steady reg) es | DataUnit => true end
  | EFieldAccess e | EGroup e | ESpawn e | ETry e | EUnary _ e => steady reg e
  | EFor _ it _ => steady reg it
  | EIf c _ None => steady reg c
  | EList es | ETuple es | EStructConstruction es => forallb (steady reg) es
  | EMap entries => forallb (fun en => match en with (k, v) => steady reg k && steady reg v end) entries
  | ERescue s _ => steady reg s
  | EString parts => forallb (forall_opt (steady reg)) parts
  | ETernary c t el =>
      steady reg c && steady reg t && steady reg el &&
      negb (is_primitive (expr_type t) reg "Never") && negb (is_primitive (expr_type el) reg "Never")
  | EWhile c _ => steady reg c
  | EClosure _ _ | EShortClosure _ _ | EIdent _ | ELiteral _ | ENamedFunctionReference _ | ESelf _ | ELoop _ => true
  | ECond _ (Some _) | EIf _ _ (Some _) | EFail _ | EMatch _ _ | EReceive _ _ _ => false
  end.

(** Every operand and message the walk takes for evaluated is steady, and the
    alternatives of or-patterns are those that resolution admits. *)
Fixpoint ordered_expr (reg : GlobalRegistry) (e : Expr) : bool :=
  match expr_kind e with
  | EAssert c m => ordered_expr reg c && forall_opt (fun m => ordered_expr reg m && steady reg m) m
  | EBinary op l r =>
      ordered_expr reg l && ordered_expr reg r && match op with BAnd | BOr => steady reg r | _ => true end
  | EBinaryLiteral segs =>
      forallb (fun seg => match seg with mkSegment v sz => ordered_expr reg v && forall_opt (ordered_expr reg) sz end) segs
  | ECall c args | EMethodCall c args => ordered_expr reg c && forallb (ordered_expr reg) args
  | EClosure _ body | ELoop body => forallb (ordered_statement reg) body
  | ECond arms els =>
      forallb (fun a => match a with mkCondArm c b => ordered_expr reg c && forallb (ordered_statement reg) b end) arms &&
      forall_opt (forallb (ordered_statement reg)) els
  | EEnumConstruction data =>
      match data with DataStruct es | DataTuple es => forallb (ordered_expr reg) es | DataUnit => true end
  | EFail e | EFieldAccess e | EGroup e | ESpawn e | ETry e | EUnary _ e | EShortClosure _ e => ordered_expr reg e
  | EFor p it body => ordered_pattern reg p && ordered_expr reg it && forallb (ordered_statement reg) body
  | EIf c th els =>
      ordered_expr reg c && forallb (ordered_statement reg) th && forall_opt (forallb (ordered_statement reg)) els
  | EList es | ETuple es | EStructConstruction es => forallb (ordered_expr reg) es
  | EMap entries => forallb (fun en => match en with (k, v) => ordered_expr reg k && ordered_expr reg v end) entries
  | EMatch s arms => ordered_expr reg s && forallb (fun a => match a with mkMatchArm p g b =>
      ordered_pattern reg p && forall_opt (ordered_expr reg) g && forallb (ordered_statement reg) b end) arms
  | EReceive arms tm body =>
      forallb (fun a => match a with mkMatchArm p g b =>
        ordered_pattern reg p && forall_opt (ordered_expr reg) g && forallb (ordered_statement reg) b end) arms &&
      forall_opt (ordered_expr reg) tm && forallb (ordered_statement reg) body
  | ERescue s h => ordered_expr reg s && ordered_expr reg h
  | EString parts => forallb (forall_opt (ordered_expr reg)) parts
  | ETernary c t el => ordered_expr reg c && ordered_expr reg t && ordered_expr reg el
  | EWhile c body => ordered_expr reg c && forallb (ordered_statement reg) body
  | EIdent _ | ELiteral _ | ENamedFunctionReference _ | ESelf _ => true
  end
with ordered_statement (reg : GlobalRegistry) (s : Statement) : bool :=
  match s with
  | SExpr e | SAssignment _ e | SCompoundAssign _ e => ordered_expr reg e
  | SReturn v => forall_opt (ordered_expr reg) v
  | SBreak => true
  | SDestructure p e => ordered_pattern reg p && ordered_expr reg e
  end
with ordered_pattern (reg : GlobalRegistry) (p : BodyPattern) : bool :=
  match p with
  | BPBinary segs => forallb (fun seg => match seg with mkSegment _ sz => forall_opt (ordered_expr reg) sz end) segs
  | BPEnumTuple ps | BPEnumStruct ps | BPConstructor ps | BPStruct ps | BPList ps | BPTuple ps => forallb (ordered_pattern reg) ps
  | BPOr ps => forallb is_admitted_or_alternative ps
  | BPWildcard | BPLiteral _ | BPBinding _ | BPEnumUnit | BPTypedBinding _ => true
  end.

(** ** Checks follow runs *)

Lemma after_mono A t : A ⊆ after A t.
Proof. revert A. induction t as [|ev t IH]; intros A; [done|]. simpl. etransitivity; [|apply IH]. destruct ev; simpl; set_solver. Qed.

Lemma after_app A t1 t2 : after A (t1 ++ t2) = after (after A t1) t2.
Proof. apply fold_left_app. Qed.

Lemma safe_app A t1 t2 : safe A (t1 ++ t2) <-> safe A t1 /\ safe (after A t1) t2.
Proof. revert A. induction t1 as [|ev t1 IH]; intros A; simpl; [naive_solver|]. rewrite IH. naive_solver. Qed.

Lemma safe_nested A t : safe_event A (Nested t) <-> safe A t.
Proof. revert A. induction t as [|ev t IH]; intros A; [done|]. simpl. by rewrite <- (IH (after_event A ev)). Qed.

(** Without reports the check predicts the runs: a run is safe from any locals
    that contain the assigned ones, and when it falls through the state it
    leaves is not diverged and lists only assigned locals. *)
Definition ok (c : Check) (r : Runs) : Prop := forall s, snd (c s) = [] ->
  (diverged s = true -> diverged (fst (c s)) = true) /\
  (diverged s = false -> forall A t o, assigned s ⊆ A -> r t o ->
    safe A t /\ (o = Falls -> diverged (fst (c s)) = false /\ assigned (fst (c s)) ⊆ after A t)).

(** The half of [ok] that a check on a clone gives. *)
Definition covers (c : Check) (r : Runs) : Prop := forall s, snd (c s) = [] -> diverged s = false ->
  forall A t o, assigned s ⊆ A -> r t o -> safe A t.

(** The checks [cs], each on its own clone, predict the alternatives [r]. *)
Definition joins (cs : list Check) (r : Runs) : Prop := forall s, (forall c, c ∈ cs -> snd (c s) = []) -> diverged s = false ->
  forall A t o, assigned s ⊆ A -> r t o ->
    safe A t /\ (o = Falls -> exists c, c ∈ cs /\ diverged (fst (c s)) = false /\ assigned (fst (c s)) ⊆ after A t).

Lemma ok_covers c r : ok c r -> covers c r.
Proof. intros H s E D A t o HA Hr. by apply (proj2 (H s E) D A t o HA Hr). Qed.

Lemma ok_weaken c r r' : ok c r -> (forall t o, r' t o -> r t o) -> ok c r'.
Proof. intros H Hr s E. destruct (H s E) as [H1 H2]. split; [done|]. intros D A t o HA Ht. by apply H2; [..|apply Hr]. Qed.

Lemma and_then_split c1 c2 s : snd ((c1 ;;; c2) s) = [] ->
  snd (c1 s) = [] /\ snd (c2 (fst (c1 s))) = [] /\ fst ((c1 ;;; c2) s) = fst (c2 (fst (c1 s))).
Proof.
  unfold and_then. destruct (c1 s) as [s1 d1] eqn:E1. destruct (c2 s1) as [s2 d2] eqn:E2. simpl. intros H.
  apply app_eq_nil in H as [-> ->]. by rewrite E2.
Qed.

Lemma ok_seq c1 c2 r1 r2 : ok c1 r1 -> ok c2 r2 -> ok (c1 ;;; c2) (seq r1 r2).
Proof.
  intros H1 H2 s E. apply and_then_split in E as (E1 & E2 & ->). destruct (H1 s E1) as [M1 K1]. destruct (H2 _ E2) as [M2 K2].
  split; [auto|]. intros D A t o HA [[Hr Ho]|(t1 & t2 & -> & Hr1 & Hr2)].
  - destruct (K1 D A t o HA Hr). done.
  - destruct (K1 D A t1 Falls HA Hr1) as [Hs1 Hf]. destruct (Hf eq_refl) as [D1 HA1].
    destruct (K2 D1 _ t2 o HA1 Hr2) as [Hs2 Hf2]. rewrite safe_app, after_app. done.
Qed.

Lemma ok_pass : ok pass skip.
Proof. intros s _. split; [done|]. by intros D A t o HA [-> _]. Qed.

Lemma ok_pass_r c r : ok (c ;;; pass) r -> ok c r.
Proof.
  intros H s E. specialize (H s). unfold and_then in H. destruct (c s) as [s1 d1]; simpl in *. subst. by apply H.
Qed.

Lemma ok_each {A} (f : A -> Check) (r : A -> Runs) l : Forall (fun a => ok (f a) (r a)) l -> ok (each f l) (all_of r l).
Proof. induction 1 as [|a l Ha _ IH]; [apply ok_pass|]. by apply ok_seq. Qed.

Lemma ok_whenever {A} (f : A -> Check) (r : A -> Runs) o : optP (fun a => ok (f a) (r a)) o -> ok (whenever f o) (maybe r o).
Proof. destruct o; [done|]. intros _. apply ok_pass. Qed.

Lemma ok_assign id : ok (edit (assign id)) (emit (Assign id)).
Proof.
  intros s _. split; [done|]. intros D A t o HA [[-> ->]|[-> _]]; [done|]. simpl. split; [done|]. intros _. split; [done|set_solver].
Qed.

Lemma ok_assigns ids : ok (edit (assign_all ids)) (assigns ids).
Proof.
  assert (forall ids, ok (each (whenever (fun id => edit (assign id))) ids) (assigns ids)) as H.
  { clear. intros ids. apply ok_each, Forall_true. intros [id|]; [apply ok_assign|apply ok_pass]. }
  intros s _. specialize (H ids s).
  assert (each (whenever (fun id => edit (assign id))) ids s = edit (assign_all ids) s) as E.
  { clear H. revert s. induction ids as [|[id|] ids IH]; intros s; [done|..]; cbn [each]; unfold and_then; simpl.
    - rewrite IH. done.
    - rewrite IH. done. }
  rewrite E in H. by apply H.
Qed.

Lemma ok_read id : ok (check_read id) (emit (Read id)).
Proof.
  intros s E. split; [done|]. intros D A t o HA [[-> ->]|[-> _]]; [done|]. unfold check_read in *. simpl in *.
  destruct (is_assigned id s) eqn:Ei; [|done]. unfold is_assigned in Ei. rewrite D in Ei. apply bool_decide_eq_true in Ei.
  split; [set_solver|done].
Qed.

Lemma ok_diverge out : out <> Falls -> ok (edit diverge) (stop out).
Proof. intros Hout s _. split; [done|]. intros D A t o HA [-> [-> | ->]]; done. Qed.

Lemma ok_clone c r : covers c r -> ok (on_clone c) r.
Proof.
  intros H s E. split; [done|]. intros D A t o HA Hr. split; [exact (H s E D A t o HA Hr)|]. intros _. split; [done|].
  simpl. etransitivity; [exact HA|apply after_mono].
Qed.

Lemma covers_alt c r1 r2 : covers c r1 -> covers c r2 -> covers c (alt r1 r2).
Proof. intros H1 H2 s E D A t o HA [Hr|Hr]; [by eapply H1|by eapply H2]. Qed.

Lemma covers_skip c : covers c skip.
Proof. by intros s E D A t o HA [-> _]. Qed.

Lemma covers_later c r : covers c r -> covers c (later r).
Proof.
  intros H s E D A t o HA [[-> _]|(t' & o' & Hr & -> & _)]; [done|]. split; [|done]. apply safe_nested. by eapply H.
Qed.

Lemma covers_star ends c r : covers c r -> covers c (star ends r).
Proof.
  intros H s E D A t o HA Hr. revert A HA. induction Hr as [| |t1 t2 o Hr1 _ IH|t Hr|t o Hr _]; intros A HA; try done.
  - apply safe_app. split; [by eapply H|]. apply IH. etransitivity; [exact HA|apply after_mono].
  - by eapply H.
  - by eapply H.
Qed.

(** A check that leaves the state alone also predicts the run that skips it. *)
Lemma ok_optional c r : (forall s, fst (c s) = s) -> ok c r -> ok c (alt skip r).
Proof.
  intros Hst H s E. destruct (H s E) as [M K]. split; [done|]. intros D A t o HA [[-> _]|Hr]; [|by apply K].
  split; [done|]. intros _. by rewrite Hst.
Qed.

Lemma fold_inter_first (live : list FlowState) B : fold_left (fun merged arm => merged ∩ assigned arm) live B ⊆ B.
Proof. revert B. induction live as [|x live IH]; intros B; simpl; [done|]. etransitivity; [apply IH|]. set_solver. Qed.

Lemma fold_inter_part (live : list FlowState) B x : x ∈ live ->
  fold_left (fun merged arm => merged ∩ assigned arm) live B ⊆ assigned x.
Proof.
  revert B. induction live as [|y live IH]; intros B Hx; [by apply not_elem_of_nil in Hx|]. simpl.
  apply elem_of_cons in Hx as [-> | Hx]; [|by apply IH]. etransitivity; [apply fold_inter_first|]. set_solver.
Qed.

Lemma ok_join cs r : joins cs r -> ok (join_checks cs) r.
Proof.
  intros H s E. unfold join_checks in E. cbn [snd] in E. assert (forall c, c ∈ cs -> snd (c s) = []) as Ed.
  { intros c Hc. eapply concat_nil_part; [exact E|]. apply list_elem_of_fmap. eauto. }
  split; [unfold join_checks, join_arms; cbn [fst]; intros D; by rewrite D|].
  intros D A t o HA Hr. destruct (H s Ed D A t o HA Hr) as [Hs Hf]. split; [done|]. intros ->.
  destruct (Hf eq_refl) as (c & Hc & Dc & Ac). unfold join_checks, join_arms. cbn [fst]. rewrite D.
  assert (fst (c s) ∈ List.filter (fun arm => negb (diverged arm)) (map (fun c => fst (c s)) cs)) as Hin.
  { apply list_elem_of_In, filter_In. rewrite Dc. split; [|done]. apply list_elem_of_In, list_elem_of_fmap. eauto. }
  destruct (List.filter _ _) as [|first live] eqn:Ef; [by apply not_elem_of_nil in Hin|]. simpl. split; [done|].
  etransitivity; [|exact Ac]. apply elem_of_cons in Hin as [-> | Hin]; [apply fold_inter_first|by apply fold_inter_part].
Qed.

Lemma joins_nil : joins [] (stop Cut).
Proof. intros s _ D A t o HA [-> [-> | ->]]; done. Qed.

Lemma joins_alt c cs r r' : ok c r -> joins cs r' -> joins (c :: cs) (alt r r').
Proof.
  intros H Hs s E D A t o HA [Hr|Hr].
  - destruct (proj2 (H s (E c ltac:(by left))) D A t o HA Hr) as [Hsafe Hf]. split; [done|]. intros Ho.
    exists c. split; [by left|auto].
  - destruct (Hs s ltac:(intros c' Hc'; apply E; by right) D A t o HA Hr) as [Hsafe Hf]. split; [done|]. intros Ho.
    destruct (Hf Ho) as (c' & Hc' & ?). exists c'. split; [by right|done].
Qed.

Lemma joins_one c r : ok c r -> joins [c] r.
Proof.
  intros H s E D A t o HA Hr. destruct (proj2 (H s (E c ltac:(by left))) D A t o HA Hr) as [Hsafe Hf]. split; [done|].
  intros Ho. exists c. split; [by left|auto].
Qed.

(** A later [cond] arm: its condition is checked on a clone, its body from the
    state before the condition. *)
Lemma joins_cond cond body cs rc rb r' : ok cond rc -> ok body rb -> joins cs r' ->
  joins ((on_clone cond ;;; body) :: cs) (seq rc (alt rb r')).
Proof.
  intros Hc Hb Hs s E D A t o HA Hr. destruct (and_then_split _ _ _ (E _ ltac:(by left))) as (E1 & E2 & Ef).
  simpl in E1, E2, Ef. destruct Hr as [[Hr Ho]|(t1 & t2 & -> & Hr1 & Hr2)].
  - destruct (proj2 (Hc s E1) D A t o HA Hr). done.
  - destruct (proj2 (Hc s E1) D A t1 Falls HA Hr1) as [Hs1 _].
    assert (assigned s ⊆ after A t1) as HA1 by (etransitivity; [exact HA|apply after_mono]).
    rewrite safe_app, after_app. destruct Hr2 as [Hr2|Hr2].
    + destruct (proj2 (Hb s E2) D _ t2 o HA1 Hr2) as [Hs2 Hf]. split; [done|]. intros Ho.
      exists (on_clone cond ;;; body). split; [by left|]. rewrite Ef. auto.
    + destruct (Hs s ltac:(intros c' Hc'; apply E; by right) D _ t2 o HA1 Hr2) as [Hs2 Hf]. split; [done|]. intros Ho.
      destruct (Hf Ho) as (c' & Hc' & ?). exists c'. split; [by right|done].
Qed.

(** The arms of a [match]: pattern and guard, then the body or the next arm. *)
Lemma joins_arms {X} (f : X -> Check) (head body : X -> Check) (rh rb : X -> Runs) arms :
  (forall a s, f a s = (head a ;;; body a) s) ->
  Forall (fun a => ok (head a) (rh a) /\ ok (body a) (rb a)) arms -> joins (map f arms) (arms_of rh rb arms).
Proof.
  intros Hf. induction 1 as [|a arms [Hh Hb] _ IH]; [apply joins_nil|]. cbn [map arms_of].
  intros s E D A t o HA Hr. destruct Hr as [Hr|(t1 & t2 & -> & Hr1 & Hr2)].
  - assert (ok (f a) (seq (rh a) (rb a))) as Ha.
    { intros s'. rewrite Hf. by apply (ok_seq _ _ _ _ Hh Hb). }
    destruct (proj2 (Ha s (E _ ltac:(by left))) D A t o HA Hr) as [Hsafe Hfalls]. split; [done|]. intros Ho.
    exists (f a). split; [by left|auto].
  - assert (snd (head a s) = []) as E1.
    { specialize (E (f a) ltac:(by left)). rewrite Hf in E. by destruct (and_then_split _ _ _ E). }
    destruct (proj2 (Hh s E1) D A t1 Cut HA Hr1) as [Hs1 _].
    assert (assigned s ⊆ after A t1) as HA1 by (etransitivity; [exact HA|apply after_mono]).
    rewrite safe_app, after_app.
    destruct (IH s ltac:(intros c' Hc'; apply E; by right) D _ t2 o HA1 Hr2) as [Hs2 Hfalls]. split; [done|]. intros Ho.
    destruct (Hfalls Ho) as (c' & Hc' & ?). exists c'. split; [by right|done].
Qed.

(** Without a fall-through state nothing an arm assigns survives. *)
Lemma ok_discard cs r : joins (cs ++ [pass]) r -> ok (each on_clone cs) r.
Proof.
  intros H s. assert (forall s, fst (each on_clone cs s) = s /\ (snd (each on_clone cs s) = [] -> forall c, c ∈ cs -> snd (c s) = [])) as Hcs.
  { clear. intros s. induction cs as [|c cs IH]; [split; [done|]; intros _ c Hc; by apply not_elem_of_nil in Hc|].
    cbn [each]. unfold and_then. simpl. destruct (each on_clone cs s) as [s2 d2]. simpl in *. destruct IH as [-> IH].
    split; [done|]. intros E c' Hc'. apply app_eq_nil in E as [E1 E2]. apply elem_of_cons in Hc' as [-> | Hc']; auto. }
  destruct (Hcs s) as [-> Hd]. intros E. split; [done|]. intros D A t o HA Hr.
  destruct (H s) with (A := A) (t := t) (o := o) as [Hsafe _]; [|done..|].
  - intros c Hc. apply elem_of_app in Hc as [Hc|Hc]; [by apply Hd|]. by apply list_elem_of_singleton in Hc as ->.
  - split; [done|]. intros _. split; [done|]. etransitivity; [exact HA|apply after_mono].
Qed.

Lemma ok_while c b rc rb : ok c rc -> ok b rb -> ok (c ;;; on_clone b) (seq rc (star true (seq rb rc))).
Proof.
  intros Hc Hb s E. destruct (and_then_split _ _ _ E) as (E1 & E2 & ->). simpl in E2. destruct (Hc s E1) as [M1 K1].
  split; [done|]. intros D A t o HA [[Hr Ho]|(t1 & t2 & -> & Hr1 & Hr2)].
  - destruct (K1 D A t o HA Hr). done.
  - destruct (K1 D A t1 Falls HA Hr1) as [Hs1 Hf]. destruct (Hf eq_refl) as [D1 HA1]. rewrite safe_app, after_app. simpl.
    assert (forall B t o, assigned s ⊆ B -> assigned (fst (c s)) ⊆ B -> seq rb rc t o -> safe B t) as Hit.
    { intros B t o' HB HB1 [[Hr _]|(u1 & u2 & -> & Hu1 & Hu2)].
      - by apply (proj2 (Hb _ E2) D1 B t o' HB1 Hr).
      - apply safe_app. split; [by apply (proj2 (Hb _ E2) D1 B u1 Falls HB1 Hu1)|].
        refine (proj1 (K1 D _ u2 o' _ Hu2)). etransitivity; [exact HB|apply after_mono]. }
    assert (assigned s ⊆ after A t1) as HA0 by (etransitivity; [exact HA|apply after_mono]).
    split; [|intros _; split; [done|etransitivity; [exact HA1|apply after_mono]]]. split; [done|].
    clear -Hit Hr2 HA0 HA1. revert HA0 HA1. generalize (after A t1) as B.
    induction Hr2 as [| |u1 u2 o Hu1 _ IH|u Hu|u o Hu _]; intros B HB HB1; try done; [|by eapply Hit..].
    apply safe_app. split; [by eapply Hit|]. apply IH; (etransitivity; [|apply after_mono]); done.
Qed.

Section Sound.
Context (reg : GlobalRegistry).

Lemma ok_typed c r ty : ok c r -> ok c (typed reg ty r).
Proof. intros H. eapply ok_weaken; [exact H|]. by intros t o [Hr _]. Qed.

Lemma ok_never c r ty : ok c (typed reg ty r) -> ok (c ;;; diverge_on_never reg ty) (typed reg ty r).
Proof.
  intros H s E. destruct (and_then_split _ _ _ E) as (E1 & _ & ->). destruct (H s E1) as [M K].
  split; [intros D; unfold diverge_on_never, edit; simpl; destruct (is_primitive _ _ _); auto|].
  intros D A t o HA Hr. destruct (K D A t o HA Hr) as [Hs Hf]. split; [done|]. intros ->. destruct Hr as [_ Hn].
  specialize (Hn eq_refl). unfold diverge_on_never, edit. simpl. rewrite Hn. auto.
Qed.

Lemma ok_never_expr c e : ok c (runs_expr reg e) -> ok (c ;;; diverge_on_never reg (expr_type e)) (runs_expr reg e).
Proof. destruct e as [k ty]. apply ok_never. Qed.

(** *** Steady expressions leave the state alone *)

Definition keeps (c : Check) : Prop := forall s, fst (c s) = s.

Lemma keeps_then c1 c2 : keeps c1 -> keeps c2 -> keeps (c1 ;;; c2).
Proof.
  intros H1 H2 s. unfold and_then. specialize (H1 s). destruct (c1 s) as [s1 d1]. simpl in H1. subst s1.
  specialize (H2 s). by destruct (c2 s).
Qed.

Lemma keeps_each {A} (f : A -> Check) l : Forall (fun a => keeps (f a)) l -> keeps (each f l).
Proof. induction 1; [done|]. by apply keeps_then. Qed.

Lemma keeps_whenever {A} (f : A -> Check) (g : A -> bool) o :
  optP (fun a => g a = true -> keeps (f a)) o -> forall_opt g o = true -> keeps (whenever f o).
Proof. destruct o; simpl; [auto|]. by intros _ _ s. Qed.

Lemma keeps_list {A} (f : A -> Check) (g : A -> bool) (X : A -> Prop) l :
  (forall a, X a -> g a = true -> keeps (f a)) -> Forall X l -> forallb g l = true -> keeps (each f l).
Proof.
  intros Hf HX Hg. apply keeps_each. induction HX as [|a l Ha _ IH]; constructor; apply andb_prop in Hg as [Hg ?]; auto.
Qed.

Lemma keeps_clones cs : keeps (each on_clone cs).
Proof. apply keeps_each, Forall_true. by intros c s. Qed.

Lemma steady_keeps e : steady reg e = true -> keeps (check_expr reg e).
Proof.
  revert e. refine (expr_induction (fun e => steady reg e = true -> keeps (check_expr reg e)) (fun _ => True) (fun _ => True)
    _ (fun _ _ => I) (fun _ _ => I)).
  intros k ty H Hs. cbn [steady expr_kind] in Hs. cbn [check_expr].
  destruct k as [c m|op l r|segs|c args|ps b|[|[c b] arms] [els|]|[|es|es]|v|v|p it b|v|res|c th [els|]|es|l|b|es|sub arms
    |rc args|t|arms tm b|sub h|i|ps b|v|parts|es|c t el|v|es|op v|c b]; try discriminate Hs; try (intros s; reflexivity);
    cbn [kindP dataP] in H; repeat (apply andb_prop in Hs as [Hs ?]); try (by apply H);
    try (eapply keeps_list; [|exact H|exact Hs]; by auto).
  - destruct H. apply keeps_then; [by auto|]. by eapply keeps_whenever.
  - destruct H. apply keeps_then; auto.
  - eapply keeps_list; [|exact H|exact Hs]. intros [v sz] [Hv Hsz] E. apply andb_prop in E as [E1 E2].
    apply keeps_then; [by auto|]. by eapply keeps_whenever.
  - destruct H. apply keeps_then; [by auto|]. eapply keeps_list; [|done..]. by auto.
  - destruct H as [H _]. apply Forall_cons in H as [H _]. destruct H as [Hc _]. apply keeps_then; [by auto|]. apply keeps_clones.
  - destruct H as (_ & H & _). apply keeps_then; [by auto|]. by intros s.
  - by destruct res; intros s.
  - destruct H as (H & _). apply keeps_then; [by auto|]. by intros s.
  - eapply keeps_list; [|exact H|exact Hs]. intros [key v] [Hk Hv] E. apply andb_prop in E as [E1 E2]. apply keeps_then; auto.
  - destruct H. apply keeps_then; [by auto|]. eapply keeps_list; [|done..]. by auto.
  - destruct H as (H & _). apply keeps_then; [by auto|]. by intros s.
  - eapply keeps_list; [|exact H|exact Hs]. intros [v|] Hv E; [by auto|]. by intros s.
  - destruct H as (H & Ht & He). apply keeps_then; [by auto|]. intros s.
    assert (forall e, (steady reg e = true -> keeps (check_expr reg e)) -> steady reg e = true ->
      negb (is_primitive (expr_type e) reg "Never") = true ->
      fst ((check_expr reg e ;;; diverge_on_never reg (expr_type e)) s) = s) as Harm.
    { intros e IHe Hst Hn. specialize (IHe Hst s). unfold and_then, diverge_on_never, edit.
      apply negb_true_iff in Hn. rewrite Hn.
      destruct (check_expr reg e s) as [s1 d1]. by simpl in *. }
    unfold join_checks. cbn [fst map]. rewrite !Harm by done. unfold join_arms. destruct s as [a []]; [done|]. simpl.
    f_equal. set_solver.
  - destruct H as (H & _). apply keeps_then; [by auto|]. by intros s.
Qed.

(** *** The walk is right about every node *)

Definition expr_ok (e : Expr) : Prop := ordered_expr reg e = true -> ok (check_expr reg e) (runs_expr reg e).
Definition statement_ok (s : Statement) : Prop :=
  ordered_statement reg s = true -> ok (check_statement reg s) (runs_statement reg s).
Definition pattern_ok (p : BodyPattern) : Prop :=
  ordered_pattern reg p = true -> ok (bind_pattern reg p) (runs_pattern reg p).

Lemma ok_list {A} (f : A -> Check) (r : A -> Runs) (g : A -> bool) (X : A -> Prop) l :
  (forall a, X a -> g a = true -> ok (f a) (r a)) -> Forall X l -> forallb g l = true -> ok (each f l) (all_of r l).
Proof.
  intros Hf HX Hg. apply ok_each. induction HX as [|a l Ha _ IH]; constructor; apply andb_prop in Hg as [Hg ?]; auto.
Qed.

Lemma ok_opt {A} (f : A -> Check) (r : A -> Runs) (g : A -> bool) o :
  optP (fun a => g a = true -> ok (f a) (r a)) o -> forall_opt g o = true -> ok (whenever f o) (maybe r o).
Proof. intros H Hg. apply ok_whenever. destruct o; simpl in *; auto. Qed.

Lemma ok_body body : Forall statement_ok body -> forallb (ordered_statement reg) body = true ->
  ok (each (check_statement reg) body) (all_of (runs_statement reg) body).
Proof. apply ok_list. auto. Qed.

Lemma ok_exprs es : Forall expr_ok es -> forallb (ordered_expr reg) es = true ->
  ok (each (check_expr reg) es) (all_of (runs_expr reg) es).
Proof. apply ok_list. auto. Qed.

Lemma arms_ok arms : Forall (match_armP expr_ok statement_ok pattern_ok) arms ->
  forallb (fun a => match a with mkMatchArm p g b =>
    ordered_pattern reg p && forall_opt (ordered_expr reg) g && forallb (ordered_statement reg) b end) arms = true ->
  joins (map (fun arm => match arm with mkMatchArm pattern guard body =>
      bind_pattern reg pattern ;;; whenever (check_expr reg) guard ;;; each (check_statement reg) body end) arms)
    (arms_of (fun arm => match arm with mkMatchArm pattern guard _ =>
        seq (runs_pattern reg pattern) (maybe (runs_expr reg) guard) end)
      (fun arm => match arm with mkMatchArm _ _ body => all_of (runs_statement reg) body end) arms).
Proof.
  intros H Ho. apply joins_arms with
    (head := fun arm => match arm with mkMatchArm pattern guard _ => bind_pattern reg pattern ;;; whenever (check_expr reg) guard end)
    (body := fun arm => match arm with mkMatchArm _ _ body => each (check_statement reg) body end).
  - intros [p g b] s. unfold and_then. destruct (bind_pattern reg p s) as [s1 d1].
    destruct (whenever (check_expr reg) g s1) as [s2 d2]. destruct (each (check_statement reg) b s2) as [s3 d3].
    by rewrite app_assoc.
  - induction H as [|[p g b] arms (Hp & Hg & Hb) _ IH]; constructor; apply andb_prop in Ho as [Ho ?]; [|by apply IH].
    apply andb_prop in Ho as [Ho Hob]. apply andb_prop in Ho as [Hop Hog]. split; [|by apply ok_body].
    apply ok_seq; [by apply Hp|]. by eapply ok_opt.
Qed.

Definition cond_runs (final : Runs) : list CondArm -> Runs :=
  fix go arms := match arms with
    | [] => final
    | mkCondArm condition body :: rest => seq (runs_expr reg condition) (alt (all_of (runs_statement reg) body) (go rest))
    end.

Lemma cond_ok arms cf final : Forall (cond_armP expr_ok statement_ok) arms ->
  forallb (fun a => match a with mkCondArm c b => ordered_expr reg c && forallb (ordered_statement reg) b end) arms = true ->
  ok cf final ->
  joins (map (fun arm => match arm with mkCondArm condition body =>
    on_clone (check_expr reg condition) ;;; each (check_statement reg) body end) arms ++ [cf]) (cond_runs final arms).
Proof.
  intros H Ho Hf. induction H as [|[c b] arms [Hc Hb] _ IH]; [by apply joins_one|].
  apply andb_prop in Ho as [Ho Hos]. apply andb_prop in Ho as [Hoc Hob]. cbn [map cond_runs app].
  apply joins_cond; [by apply Hc|by apply ok_body|by apply IH].
Qed.

Lemma segments_ok segs : Forall (segmentP expr_ok) segs ->
  forallb (fun seg => match seg with mkSegment v sz => ordered_expr reg v && forall_opt (ordered_expr reg) sz end) segs = true ->
  ok (each (fun seg => match seg with mkSegment value size => check_expr reg value ;;; whenever (check_expr reg) size end) segs)
    (all_of (fun seg => match seg with mkSegment value size => seq (runs_expr reg value) (maybe (runs_expr reg) size) end) segs).
Proof.
  apply ok_list. intros [v sz] [Hv Hsz] E. apply andb_prop in E as [E1 E2]. apply ok_seq; [by apply Hv|by eapply ok_opt].
Qed.

Lemma ok_try c r q : ok c r -> ok pass q -> ok c (seq r q).
Proof. intros H Hq. by apply ok_pass_r, ok_seq. Qed.

Lemma ok_may_leave : ok pass (alt skip (stop Leaves)).
Proof. intros s _. split; [done|]. intros D A t o HA [[-> _]|[-> _]]; done. Qed.

Lemma ok_assert m : optP expr_ok m -> forall_opt (fun m => ordered_expr reg m && steady reg m) m = true ->
  ok (whenever (check_expr reg) m) (alt skip (seq (maybe (runs_expr reg) m) (stop Leaves))).
Proof.
  intros H Ho. destruct m as [m|]; cbn [forall_opt optP whenever maybe] in *.
  - apply andb_prop in Ho as [Ho Hs]. apply ok_optional; [by apply steady_keeps|].
    intros s E. specialize (H Ho s E) as [M K]. split; [done|]. intros D A t o HA [[Hr Hn]|(t1 & t2 & -> & Hr1 & -> & [-> | ->])].
    + destruct (K D A t o HA Hr). done.
    + destruct (K D A t1 Falls HA Hr1) as [? _]. rewrite app_nil_r. done.
    + destruct (K D A t1 Falls HA Hr1) as [? _]. rewrite app_nil_r. done.
  - intros s _. split; [done|]. intros D A t o HA [[-> _]|[[[-> _] ?]|(t1 & t2 & -> & [-> _] & -> & _)]]; done.
Qed.

Lemma joins_last cs c r r' : joins cs r -> ok c r' -> joins (cs ++ [c]) (alt r r').
Proof.
  intros Hs H s E D A t o HA [Hr|Hr].
  - destruct (Hs s) with (A := A) (t := t) (o := o) as [Hsafe Hf]; [intros c' Hc'; apply E; set_solver|done..|].
    split; [done|]. intros Ho. destruct (Hf Ho) as (c' & Hc' & ?). exists c'. split; [set_solver|done].
  - destruct (proj2 (H s (E c ltac:(set_solver))) D A t o HA Hr) as [Hsafe Hf]. split; [done|]. intros Ho.
    exists c. split; [set_solver|auto].
Qed.

Lemma kind_ok k ty : kindP expr_ok statement_ok pattern_ok k -> expr_ok (mkExpr k ty).
Proof.
  intros H Ho. cbn [ordered_expr expr_kind] in Ho. cbn [check_expr runs_expr]. apply ok_typed.
  destruct k as [c m|op l r|segs|c args|ps b|arms els|[|es|es]|v|v|p it b|v|res|c th els|es|l|b|es|sub arms
    |rc args|t|arms tm b|sub h|i|ps b|v|parts|es|c t el|v|es|op v|c b];
    cbn [kindP dataP] in H; repeat (apply andb_prop in Ho as [Ho ?]); try (by apply H); try (by apply ok_exprs); try apply ok_pass.
  - destruct H as [Hc Hm]. apply ok_seq; [by apply Hc|by apply ok_assert].
  - destruct H as [Hl Hr]. assert (ok (check_expr reg r) (alt skip (runs_expr reg r)) -> ok (check_expr reg l ;;; check_expr reg r)
      (match op with BAnd | BOr => seq (runs_expr reg l) (alt skip (runs_expr reg r)) | _ => seq (runs_expr reg l) (runs_expr reg r) end)) as Hop.
    { intros Hopt. destruct op; (apply ok_seq; [by apply Hl|done || by apply Hr]). }
    destruct op; try (apply ok_seq; [by apply Hl|by apply Hr]); apply Hop, ok_optional; try (by apply steady_keeps); by apply Hr.
  - by apply segments_ok.
  - destruct H. apply ok_seq; [auto|by apply ok_exprs].
  - apply ok_clone, covers_later, ok_covers, ok_seq; [apply ok_assigns|by apply ok_body].
  - destruct H as [Ha He].
    assert (ok (match els with Some body => each (check_statement reg) body | None => pass end)
      (match els with Some body => all_of (runs_statement reg) body | None => skip end)) as Hels.
    { destruct els as [els|]; [by apply ok_body|apply ok_pass]. }
    change (ok (match arms with
      | [] => match els with Some body => join_checks [each (check_statement reg) body] | None => pass end
      | mkCondArm condition body :: rest =>
          check_expr reg condition ;;;
          match els with
          | Some els => join_checks ((each (check_statement reg) body ::
              map (fun arm => match arm with mkCondArm condition body =>
                on_clone (check_expr reg condition) ;;; each (check_statement reg) body end) rest) ++ [each (check_statement reg) els])
          | None => each on_clone (each (check_statement reg) body ::
              map (fun arm => match arm with mkCondArm condition body =>
                on_clone (check_expr reg condition) ;;; each (check_statement reg) body end) rest)
          end
      end) (cond_runs (match els with Some body => all_of (runs_statement reg) body | None => skip end) arms)).
    destruct arms as [|[c b] rest].
    + destruct els; [by apply ok_join, joins_one|done].
    + apply Forall_cons in Ha as [[Hc Hb] Ha]. apply andb_prop in Ho as [Ho Hrest]. apply andb_prop in Ho as [Hoc Hob].
      cbn [cond_runs]. apply ok_seq; [by apply Hc|].
      destruct els as [els|]; [apply ok_join|apply ok_discard]; (apply joins_alt; [by apply ok_body|by apply cond_ok]).
  - apply ok_seq; [by apply H|by apply ok_diverge].
  - destruct H as (Hp & Hit & Hb). apply ok_seq; [by apply Hit|].
    apply ok_clone, covers_star, ok_covers, ok_seq; [by apply Hp|by apply ok_body].
  - destruct res; try apply ok_pass. apply ok_read.
  - destruct H as (Hc & Ht & He). apply ok_seq; [by apply Hc|]. destruct els as [els|].
    + apply ok_join, joins_alt; [by apply ok_body|]. apply joins_one. by apply ok_body.
    + apply ok_clone, covers_alt; [by apply ok_covers, ok_body|apply covers_skip].
  - apply ok_clone, covers_star, ok_covers. by apply ok_body.
  - eapply ok_list; [|exact H|exact Ho]. intros [key v] [Hk Hv] E. apply andb_prop in E as [E1 E2].
    apply ok_seq; [by apply Hk|by apply Hv].
  - destruct H as [Hs Ha]. apply ok_seq; [by apply Hs|]. by apply ok_join, arms_ok.
  - destruct H. apply ok_seq; [auto|by apply ok_exprs].
  - destruct H as (Ha & Htm & Hb). apply ok_seq; [by eapply ok_opt|]. apply ok_join. destruct tm as [tm|].
    + apply joins_last; [by apply arms_ok|by apply ok_body].
    + rewrite app_nil_r. intros s E D A t o HA [Hr|[-> [-> | ->]]]; [by eapply arms_ok|done..].
  - destruct H as [Hs Hh]. apply ok_seq; [by apply Hs|]. apply ok_clone, covers_alt; [apply covers_skip|by apply ok_covers, Hh].
  - apply ok_clone, covers_later, ok_covers, ok_seq; [apply ok_assigns|by apply H].
  - eapply ok_list; [|exact H|exact Ho]. intros o Hv E. by eapply ok_opt.
  - destruct H as (Hc & Ht & He). apply ok_seq; [by apply Hc|]. apply ok_join, joins_alt; [|apply joins_one]; apply ok_never_expr; auto.
  - apply ok_try; [by apply H|apply ok_may_leave].
  - destruct H as [Hc Hb]. apply ok_while; [by apply Hc|by apply ok_body].
Qed.

Lemma head_ok target : ok (check_lvalue_head target) (read_head target).
Proof. apply ok_whenever. destruct (target_local target); [apply ok_read|done]. Qed.

Lemma write_ok target : bool_decide (length (segments target) = 1%nat) = true ->
  ok (match target_local target with Some id => edit (assign id) | None => pass end) (write_head target).
Proof. intros E. unfold write_head. rewrite E. destruct (target_local target); [apply ok_assign|apply ok_pass]. Qed.

(** Writing the target after a compound assignment adds nothing to check. *)
Lemma ok_write_anyway target : ok pass (write_head target).
Proof.
  unfold write_head. case_bool_decide; [|apply ok_pass]. destruct (target_local target); [|apply ok_pass].
  intros s _. split; [done|]. intros D A t o HA [[-> ->]|[-> _]]; [done|]. split; [done|]. intros _. split; [done|]. set_solver.
Qed.

(** The divergence check of an assignment comes after the write. *)
Lemma ok_assign_never c1 c2 e r2 : ok c1 (runs_expr reg e) -> ok c2 r2 ->
  ok (c1 ;;; c2 ;;; diverge_on_never reg (expr_type e)) (seq (runs_expr reg e) r2).
Proof.
  intros H1 H2 s E. destruct (and_then_split _ _ _ E) as (E1 & E2 & ->). destruct (and_then_split _ _ _ E2) as (E3 & _ & ->).
  destruct (H1 s E1) as [M1 K1], (H2 _ E3) as [M2 K2]. unfold diverge_on_never, edit. cbn [fst].
  split; [intros D; destruct (is_primitive _ _ _); [done|auto]|]. intros D A t o HA [[Hr Ho]|(t1 & t2 & -> & Hr1 & Hr2)].
  - destruct (K1 D A t o HA Hr). done.
  - destruct (K1 D A t1 Falls HA Hr1) as [Hs1 Hf]. destruct (Hf eq_refl) as [D1 HA1].
    destruct (K2 D1 _ t2 o HA1 Hr2) as [Hs2 Hf2]. rewrite safe_app, after_app. split; [done|]. intros Ho.
    assert (is_primitive (expr_type e) reg "Never" = false) as Hn by (destruct e; by destruct Hr1 as [_ Hn]; apply Hn).
    rewrite Hn. auto.
Qed.

Lemma statement_rule s : statementP expr_ok pattern_ok s -> statement_ok s.
Proof.
  intros H Ho. destruct s as [e|target v|target v|v| |p e]; cbn [statementP ordered_statement] in H, Ho; cbn [check_statement runs_statement].
  - apply ok_never_expr. by apply H.
  - apply ok_assign_never; [by apply H|]. destruct (bool_decide _) eqn:E; [by apply write_ok|apply head_ok].
  - apply ok_seq; [by apply H|]. apply ok_try; [apply head_ok|apply ok_write_anyway].
  - apply ok_seq; [by eapply ok_opt|by apply ok_diverge].
  - by apply ok_diverge.
  - apply andb_prop in Ho as [Hp He]. destruct H as [IHp IHe]. apply ok_seq; [by apply IHe|by apply IHp].
Qed.

Lemma admitted_bind ps : forallb is_admitted_or_alternative ps = true ->
  (forall s, each (bind_pattern reg) ps s = (s, [])) /\ (forall t o, any_of (runs_pattern reg) ps t o -> t = [] /\ done_or_cut o).
Proof.
  induction ps as [|p ps IH]; intros Ho; [split; [done|]; by intros t o [-> [-> | ->]]; (split; [done|]; right)|].
  apply andb_prop in Ho as [Hp Ho]. destruct (IH Ho) as [IH1 IH2].
  split; [intros s; destruct p; try done; cbn [each bind_pattern]; unfold and_then; simpl; by rewrite IH1|].
  intros t o [Hr|Hr]; [by destruct p|auto].
Qed.

Lemma pattern_rule p : patternP expr_ok pattern_ok p -> pattern_ok p.
Proof.
  intros H Ho. destruct p as [|l|segs|id| |ps|ps|ps|ps|id|ps|ps|ps]; cbn [patternP ordered_pattern] in H, Ho;
    cbn [bind_pattern runs_pattern]; try apply ok_pass; try (eapply ok_list; [|exact H|exact Ho]; by auto).
  - eapply ok_list; [|exact H|exact Ho]. intros [v sz] [_ Hsz] E. apply ok_seq; [by eapply ok_opt|].
    unfold bind_segment_value. destruct (expr_kind v) as []; try apply ok_pass.
    match goal with |- context [match ?r with _ => _ end] => destruct r end; try apply ok_pass. apply ok_assign.
  - destruct id; [apply ok_assign|apply ok_pass].
  - destruct id; [apply ok_assign|apply ok_pass].
  - destruct (admitted_bind ps Ho) as [Hc Hr]. intros s _. rewrite Hc. split; [done|].
    intros D A t o HA Ht. destruct (Hr t o Ht) as [-> _]. done.
Qed.

Lemma bodies_ok : (forall e, expr_ok e) /\ (forall s, statement_ok s) /\ (forall p, pattern_ok p).
Proof. apply body_induction; [exact kind_ok|exact statement_rule|exact pattern_rule]. Qed.
End Sound.

(** C32: a function without reports never reads an unassigned local, when what the
    walk takes for always evaluated is [steady]. When [check_function] reports nothing,
    in every run of the body and of every parameter default, from locals that include
    the parameters, each read is of a local that is assigned by then: on every branch,
    in every iteration of every loop, in guards and pattern sizes, and in closures,
    which see the locals assigned where they are created. The condition is on the right
    operands of [and] and [or], the messages of [assert] and the defaults: outside bodies
    that may be skipped or run later they hold no [match], [receive], [fail], [if] or [cond]
    with an [else], nor a branch of type [Never], so they neither assign nor diverge.
    The checker does not ask for it, and [short_circuit_gap] is a body it accepts that
    breaks it and reads an unassigned local. Alternatives of or-patterns are those that
    resolution admits. *)
Theorem definite_assignment_sound (reg : GlobalRegistry) (f : Function) (body : list Statement) (A : gset LocalId)
    (Hbody : fn_body f = Some body) (Hordered : forallb (ordered_statement reg) body = true)
    (Hdefaults : forallb (forall_opt (fun d => ordered_expr reg d && steady reg d)) (map param_default (fn_params f)) = true)
    (Hreports : check_function reg f = []) (HA : forall id, Some id ∈ map param_local (fn_params f) -> id ∈ A) :
  (forall t o, runs_body reg body t o -> safe A t) /\
  (forall d t o, Some d ∈ map param_default (fn_params f) -> runs_expr reg d t o -> safe A t).
Proof.
  destruct (bodies_ok reg) as (He & Hs & _). unfold check_function in Hreports. rewrite Hbody in Hreports.
  apply and_then_split in Hreports as (_ & Hreports & _). cbn [fst edit] in Hreports.
  apply and_then_split in Hreports as (Hd & Hb & _).
  set (s := assign_all (map param_local (fn_params f)) flow_default) in *.
  assert (diverged s = false /\ assigned s ⊆ A) as [Ds As].
  { subst s. clear -HA. unfold assign_all. revert HA. generalize (map param_local (fn_params f)) as ids.
    assert (forall ids s, diverged s = false -> assigned s ⊆ A -> (forall id, Some id ∈ ids -> id ∈ A) ->
      diverged (fold_left (fun s o => match o with Some id => assign id s | None => s end) ids s) = false /\
      assigned (fold_left (fun s o => match o with Some id => assign id s | None => s end) ids s) ⊆ A) as H.
    { induction ids as [|[id|] ids IH]; intros s Ds As Hids; [done|..]; simpl; (apply IH; [done|..|set_solver]); [|done].
      specialize (Hids id). set_solver. }
    intros ids HA. by apply H. }
  assert (forall ds s', forallb (forall_opt (fun d => ordered_expr reg d && steady reg d)) ds = true ->
    snd (each (whenever (check_expr reg)) ds s') = [] ->
    fst (each (whenever (check_expr reg)) ds s') = s' /\ forall d, Some d ∈ ds -> ordered_expr reg d = true /\ snd (check_expr reg d s') = [])
    as Hds.
  { clear. induction ds as [|d ds IH]; intros s' Ho E; [split; [done|]; intros d Hd; by apply not_elem_of_nil in Hd|].
    apply andb_prop in Ho as [Ho Hos]. cbn [each] in *. apply and_then_split in E as (E1 & E2 & ->).
    assert (fst (whenever (check_expr reg) d s') = s') as Hk.
    { destruct d as [d|]; [|done]. simpl in Ho. apply andb_prop in Ho as [_ Hst]. by apply steady_keeps. }
    rewrite Hk in *. destruct (IH s' Hos E2) as [IH1 IH2]. split; [done|]. intros d' Hd'.
    apply elem_of_cons in Hd' as [<-|Hd']; [|by apply IH2]. simpl in Ho. apply andb_prop in Ho as [Ho _]. done. }
  destruct (Hds _ s Hdefaults Hd) as [Hkeep Hreads]. rewrite Hkeep in Hb. split.
  - intros t o Hr. assert (Forall (statement_ok reg) body) as HF by (by apply Forall_true).
    by apply (proj2 (ok_body reg body HF Hordered s Hb) Ds A t o As Hr).
  - intros d t o Hin Hr. destruct (Hreads d Hin) as [Hod Hnd]. by apply (proj2 (He d Hod s Hnd) Ds A t o As Hr).
Qed.

(** [fn f(flag, n = 0)] with the body
    [if flag: x = n else return; while flag: y = x; flag and x]. *)
Definition untyped (k : ExprKind) : Expr := mkExpr k Unresolved.
Definition local (id : LocalId) : Expr := untyped (EIdent (RLocal id)).
Definition set_local (id : LocalId) (e : Expr) : Statement := SAssignment (mkLValue (Some id) ["x"]) e.
Definition sample_function : Function :=
  mkFunction [PRegular None (Some 1); PRegular (Some (untyped (ELiteral (LInt "0")))) (Some 2)]
    (Some [SExpr (untyped (EIf (local 1) [set_local 3 (local 2)] (Some [SReturn None])));
           SExpr (untyped (EWhile (local 1) [set_local 4 (local 3)]));
           SExpr (untyped (EBinary BAnd (local 1) (local 3)))]).

Lemma definite_assignment_sound_witness : check_function registry_new sample_function = [] /\
  forall t o, runs_body registry_new (default [] (fn_body sample_function)) t o -> safe {[1; 2]} t.
Proof.
  split; [vm_compute; reflexivity|].
  apply (definite_assignment_sound registry_new sample_function (default [] (fn_body sample_function)) {[1; 2]}).
  - reflexivity.
  - vm_compute; reflexivity.
  - vm_compute; reflexivity.
  - vm_compute; reflexivity.
  - intros id H. simpl in H. repeat (apply elem_of_cons in H as [H|H]; [injection H as ->; set_solver|]).
    destruct (not_elem_of_nil _ H).
Defined.

(** [flag and (if c: x = 1; true else x = 2; true)] followed by a read of [x]. *)
Definition short_circuit_function : Function :=
  mkFunction [PRegular None (Some 1); PRegular None (Some 2)]
    (Some [SExpr (untyped (EBinary BAnd (local 1) (untyped (EIf (local 2)
             [set_local 3 (untyped (ELiteral (LInt "1"))); SExpr (untyped (ELiteral (LBool true)))]
             (Some [set_local 3 (untyped (ELiteral (LInt "2"))); SExpr (untyped (ELiteral (LBool true)))])))));
           SExpr (local 3)]).

(** C33: the walk takes the right operand of [and] for evaluated. It reports nothing
    for a body that assigns [x] only inside that operand and reads it afterwards,
    although the body has a complete run, the one in which the left operand is
    false, that reads [x] without a value. *)
Theorem short_circuit_gap : check_function registry_new short_circuit_function = [] /\
  exists t, runs_body registry_new (default [] (fn_body short_circuit_function)) t Falls /\ ~ safe {[1; 2]} t.
Proof.
  split; [vm_compute; reflexivity|]. exists [Read 1; Read 3]. split.
  - assert (forall id : LocalId, runs_expr registry_new (local id) [Read id] Falls) as Hread.
    { intros id. split; [right; split; [done|by left]|done]. }
    right. exists [Read 1], [Read 3]. split; [done|]. split.
    + split; [|done]. right. exists [Read 1], []. split; [done|]. split; [apply Hread|]. left. by split; [|left].
    + right. exists [Read 3], []. split; [done|]. split; [apply Hread|]. by split; [|left].
  - simpl. set_solver.
Qed.
