(* ===== verification/Chars.v ===== *)
(** * Characters and strings

    A [char] is its scalar value in [Z]; a [String] or [&str] is the list of its
    characters, and byte offsets into it count the UTF-8 length of each. Shared by
    the lexer, the string literals and the document renderer. *)

From Stdlib Require Import Ascii String.
From S2P Require Import Prelude.
Local Open Scope Z_scope.

Definition chr (a : ascii) : Z := Z.of_N (N_of_ascii a).
Arguments chr a%_char_scope.

Fixpoint str (s : string) : list Z :=
  match s with EmptyString => [] | String a s => chr a :: str s end.
Arguments str s%_string_scope.

(** Double quote, newline, carriage return, tab and backslash. *)
Definition QUOTE : Z := 34.
Definition NEWLINE : Z := 10.
Definition CR : Z := 13.
Definition TAB : Z := 9.
Definition BACKSLASH : Z := 92.

Definition len_utf8 (c : Z) : Z :=
  if c <? 128 then 1 else if c <? 2048 then 2 else if c <? 65536 then 3 else 4.

Definition utf8_len (s : list Z) : Z := foldr (fun c n => len_utf8 c + n) 0 s.

(** The split of a string at a byte offset; [None] off a character boundary. *)
Fixpoint split_bytes (n : Z) (s : list Z) : option (list Z * list Z) :=
  if n =? 0 then Some ([], s)
  else match s with
       | [] => None
       | c :: s =>
           if n <? len_utf8 c then None
           else '(a, b) ← split_bytes (n - len_utf8 c) s; Some (c :: a, b)
       end.

(** [&s[i..j]]. *)
Definition str_slice (s : list Z) (i j : Z) : option (list Z) :=
  if j <? i then None
  else '(_, t) ← split_bytes i s; '(m, _) ← split_bytes (j - i) t; Some m.

Definition is_ascii_lowercase (c : Z) : bool := (chr "a" <=? c) && (c <=? chr "z").
Definition is_ascii_uppercase (c : Z) : bool := (chr "A" <=? c) && (c <=? chr "Z").
Definition is_ascii_digit (c : Z) : bool := (chr "0" <=? c) && (c <=? chr "9").
Definition is_ascii_hexdigit (c : Z) : bool :=
  is_ascii_digit c || ((chr "a" <=? c) && (c <=? chr "f")) || ((chr "A" <=? c) && (c <=? chr "F")).

(** ** Lemmas *)

Lemma utf8_len_app a b : utf8_len (a ++ b) = utf8_len a + utf8_len b.
Proof. induction a; simpl; lia. Qed.

Lemma len_utf8_pos c : 1 <= len_utf8 c.
Proof. unfold len_utf8. repeat case_match; lia. Qed.

Lemma utf8_len_nonneg s : 0 <= utf8_len s.
Proof. induction s as [|c s IH]; simpl; [lia|]. pose proof (len_utf8_pos c). lia. Qed.

Lemma split_bytes_app a b : split_bytes (utf8_len a) (a ++ b) = Some (a, b).
Proof.
  induction a as [|c a IH]; simpl; [by destruct b|].
  pose proof (len_utf8_pos c). pose proof (utf8_len_nonneg a).
  rewrite (proj2 (Z.eqb_neq _ _)) by lia. rewrite (proj2 (Z.ltb_ge _ _)) by lia.
  replace (len_utf8 c + utf8_len a - len_utf8 c) with (utf8_len a) by lia.
  by rewrite IH.
Qed.

Lemma utf8_len_nil s : utf8_len s = 0 -> s = [].
Proof.
  destruct s as [|c s]; simpl; [done|]. pose proof (len_utf8_pos c). pose proof (utf8_len_nonneg s). lia.
Qed.

(** The length of a string in bytes. *)
Definition byte_len (s : list Z) : nat := Z.to_nat (utf8_len s).

Arguments byte_len s : simpl never.

Lemma byte_len_app a b : byte_len (a ++ b) = (byte_len a + byte_len b)%nat.
Proof.
  unfold byte_len. rewrite utf8_len_app. pose proof (utf8_len_nonneg a). pose proof (utf8_len_nonneg b). lia.
Qed.

Lemma byte_len_cons c s : byte_len (c :: s) = (Z.to_nat (len_utf8 c) + byte_len s)%nat.
Proof.
  unfold byte_len. simpl. pose proof (len_utf8_pos c). pose proof (utf8_len_nonneg s). lia.
Qed.

#[export] Hint Rewrite byte_len_app byte_len_cons : bytes.
