(* ===== verification/Doc.v ===== *)
(** * The document renderer of the formatter

    Models [koja-fmt/src/doc.rs]: the document algebra, [flatten] and the
    renderer with its work stacks. Text is a list of characters, a column a [nat]
    that counts bytes (the code keeps it in a [u32]); the work stacks are lists
    whose head is the top. The loops take fuel: [render] passes the weight of the
    document, which is shown to be enough.

    [layout] is the same renderer by recursion on the document. The theorems
    relate the two, show that a group that fits is laid out as its flattened
    document, and that rendering never loses, adds or reorders text. *)

From Stdlib Require Import Ascii String.
From S2P Require Import Prelude Chars.
Local Open Scope nat_scope.

Definition Text : Type := list Z.

Inductive Doc :=
  | DNil
  | DText (s : Text)
  | DLineSuffix (s : Text)
  | DHardline
  | DLine
  | DSoftline
  | DConcat (docs : list Doc)
  | DIndent (n : nat) (inner : Doc)
  | DGroup (inner : Doc)
  | DFill (items : list Doc)
  | DIfBreak (flat_doc break_doc : Doc).

Definition blank : Z := 32.
Definition newline : Z := 10.

Definition if_break (flat_doc break_doc : Doc) : Doc := DIfBreak flat_doc break_doc.
Definition trailing_comma : Doc := if_break DNil (DText (str ",")).
Definition space : Doc := DText [blank].

(** [sep] before every document but the first. *)
Definition intersperse (docs : list Doc) (sep : Doc) : Doc :=
  DConcat (match docs with [] => [] | d :: rest => d :: concat (map (fun d => [sep; d]) rest) end).

Fixpoint flatten (doc : Doc) : Doc :=
  match doc with
  | DNil | DText _ | DLineSuffix _ | DHardline => doc
  | DLine => space
  | DSoftline => DNil
  | DIfBreak flat_doc _ => flatten flat_doc
  | DConcat docs => DConcat (map flatten docs)
  | DIndent _ inner => flatten inner
  | DGroup inner => flatten inner
  | DFill items => intersperse (map flatten items) space
  end.

(** ** The renderer *)

Definition DEFAULT_WIDTH : nat := 80.

Inductive Mode := Flat | Break.

Definition Entry : Type := nat * Mode * Doc.

(** The output and the column. *)
Definition Out : Type := Text * nat.

Definition push_text (s : Text) (st : Out) : Out := (fst st ++ s, snd st + byte_len s).
Definition emit_newline (ind : nat) (st : Out) : Out := (fst st ++ newline :: replicate ind blank, ind).

(** The loop of [fits]: [None] is out of fuel. *)
Fixpoint fits_loop (fuel : nat) (remaining : nat) (work : list Entry) : option bool :=
  match work with
  | [] => Some true
  | (ind, mode, d) :: work =>
      match fuel with
      | O => None
      | S fuel =>
          match d with
          | DNil | DLineSuffix _ => fits_loop fuel remaining work
          | DText s => if remaining <? byte_len s then Some false else fits_loop fuel (remaining - byte_len s) work
          | DHardline => Some true
          | DLine =>
              match mode with
              | Flat => if remaining =? 0 then Some false else fits_loop fuel (remaining - 1) work
              | Break => Some true
              end
          | DSoftline => match mode with Flat => fits_loop fuel remaining work | Break => Some true end
          | DIfBreak flat_doc _ => fits_loop fuel remaining ((ind, Flat, flat_doc) :: work)
          | DConcat docs => fits_loop fuel remaining (map (fun d => (ind, mode, d)) docs ++ work)
          | DIndent n inner => fits_loop fuel remaining ((ind + n, mode, inner) :: work)
          | DGroup inner => fits_loop fuel remaining ((ind, Flat, inner) :: work)
          | DFill items =>
              let separator_spaces := length items - 1 in
              if remaining <? separator_spaces then Some false
              else fits_loop fuel (remaining - separator_spaces) (map (fun d => (ind, Flat, d)) items ++ work)
          end
      end
  end.

(** One step of fuel per document of the work stack. *)
Fixpoint weight (d : Doc) : nat :=
  match d with
  | DConcat docs | DFill docs => S (foldr (fun d acc => weight d + acc) 0 docs)
  | DIndent _ inner | DGroup inner => S (weight inner)
  | DIfBreak f b => S (weight f + weight b)
  | _ => 1
  end.

Definition fits (remaining ind : nat) (d : Doc) : option bool := fits_loop (weight d) remaining [(ind, Flat, d)].

(** The loop of [render_fill], with [first] for [i = 0]. *)
Definition fill_loop (width ind : nat) (item_into : Doc -> Out -> option Out) : bool -> list Doc -> Out -> option Out :=
  fix go (first : bool) (items : list Doc) (st : Out) :=
    match items with
    | [] => Some st
    | item :: rest =>
        st ← (if first then Some st
              else fit ← fits (width - (snd st + 1)) ind item;
                   Some (if fit : bool then push_text [blank] st else emit_newline ind st));
        st ← item_into item st;
        go false rest st
    end.

(** The loop of [render_doc_into]; a fill starts a loop of its own per item. *)
Fixpoint render_loop (fuel width : nat) (stack : list Entry) (st : Out) : option Out :=
  match stack with
  | [] => Some st
  | (ind, mode, d) :: stack =>
      match fuel with
      | O => None
      | S fuel =>
          match d with
          | DNil => render_loop fuel width stack st
          | DText s | DLineSuffix s => render_loop fuel width stack (push_text s st)
          | DHardline => render_loop fuel width stack (emit_newline ind st)
          | DLine =>
              render_loop fuel width stack (match mode with Flat => push_text [blank] st | Break => emit_newline ind st end)
          | DSoftline => render_loop fuel width stack (match mode with Flat => st | Break => emit_newline ind st end)
          | DIfBreak flat_doc break_doc =>
              render_loop fuel width ((ind, mode, match mode with Flat => flat_doc | Break => break_doc end) :: stack) st
          | DConcat docs => render_loop fuel width (map (fun d => (ind, mode, d)) docs ++ stack) st
          | DIndent n inner => render_loop fuel width ((ind + n, mode, inner) :: stack) st
          | DGroup inner =>
              fit ← fits (width - snd st) ind inner;
              render_loop fuel width ((ind, if fit : bool then Flat else Break, inner) :: stack) st
          | DFill items =>
              st ← fill_loop width ind (fun item => render_loop fuel width [(ind, Flat, item)]) true items st;
              render_loop fuel width stack st
          end
      end
  end.

Definition render (doc : Doc) (width : nat) : option Text :=
  fst <$> render_loop (weight doc) width [(0, Break, doc)] ([], 0).

(** ** The renderer by recursion *)

Inductive Fit := Fails | Stops | Goes (remaining : nat).

Definition fit_all (f : Doc -> nat -> Fit) : list Doc -> nat -> Fit :=
  fix go docs remaining := match docs with
    | [] => Goes remaining
    | d :: docs => match f d remaining with Goes remaining => go docs remaining | r => r end
    end.

Fixpoint fit (mode : Mode) (d : Doc) (remaining : nat) : Fit :=
  match d with
  | DNil | DLineSuffix _ => Goes remaining
  | DText s => if remaining <? byte_len s then Fails else Goes (remaining - byte_len s)
  | DHardline => Stops
  | DLine => match mode with Flat => if remaining =? 0 then Fails else Goes (remaining - 1) | Break => Stops end
  | DSoftline => match mode with Flat => Goes remaining | Break => Stops end
  | DIfBreak flat_doc _ => fit Flat flat_doc remaining
  | DConcat docs => fit_all (fit mode) docs remaining
  | DIndent _ inner => fit mode inner remaining
  | DGroup inner => fit Flat inner remaining
  | DFill items =>
      if remaining <? length items - 1 then Fails else fit_all (fit Flat) items (remaining - (length items - 1))
  end.

Definition fits_flat (d : Doc) (remaining : nat) : bool := match fit Flat d remaining with Fails => false | _ => true end.

Definition fill_with (width ind : nat) (item_into : Doc -> Out -> Out) : bool -> list Doc -> Out -> Out :=
  fix go (first : bool) (items : list Doc) (st : Out) :=
    match items with
    | [] => st
    | item :: rest =>
        let st := if first then st
                  else if fits_flat item (width - (snd st + 1)) then push_text [blank] st else emit_newline ind st in
        go false rest (item_into item st)
    end.

Fixpoint layout (width ind : nat) (mode : Mode) (d : Doc) (st : Out) : Out :=
  match d with
  | DNil => st
  | DText s | DLineSuffix s => push_text s st
  | DHardline => emit_newline ind st
  | DLine => match mode with Flat => push_text [blank] st | Break => emit_newline ind st end
  | DSoftline => match mode with Flat => st | Break => emit_newline ind st end
  | DIfBreak flat_doc break_doc =>
      match mode with Flat => layout width ind mode flat_doc st | Break => layout width ind mode break_doc st end
  | DConcat docs => fold_left (fun st d => layout width ind mode d st) docs st
  | DIndent n inner => layout width (ind + n) mode inner st
  | DGroup inner =>
      if fits_flat inner (width - snd st) then layout width ind Flat inner st else layout width ind Break inner st
  | DFill items => fill_with width ind (fun item => layout width ind Flat item) true items st
  end.

(** ** The loops compute the recursion *)

Lemma doc_ind' (P : Doc -> Prop) :
  P DNil -> (forall s, P (DText s)) -> (forall s, P (DLineSuffix s)) -> P DHardline -> P DLine -> P DSoftline ->
  (forall ds, Forall P ds -> P (DConcat ds)) -> (forall n d, P d -> P (DIndent n d)) -> (forall d, P d -> P (DGroup d)) ->
  (forall ds, Forall P ds -> P (DFill ds)) -> (forall f b, P f -> P b -> P (DIfBreak f b)) -> forall d, P d.
Proof.
  intros Hn Ht Hl Hh Hli Hs Hc Hi Hg Hf Hb. fix IH 1. intros [|s|s| | | |ds|n d|d|ds|f b].
  - exact Hn.
  - apply Ht.
  - apply Hl.
  - exact Hh.
  - exact Hli.
  - exact Hs.
  - apply Hc. induction ds; constructor; [apply IH|assumption].
  - apply Hi, IH.
  - apply Hg, IH.
  - apply Hf. induction ds; constructor; [apply IH|assumption].
  - apply Hb; apply IH.
Qed.

Definition total (work : list Entry) : nat := foldr (fun e acc => weight (snd e) + acc) 0 work.

Lemma total_app w1 w2 : total (w1 ++ w2) = total w1 + total w2.
Proof. induction w1 as [|e w1 IH]; simpl; [done|]. rewrite IH. lia. Qed.

Lemma total_map ind mode docs : total (map (fun d => (ind, mode, d)) docs) = foldr (fun d acc => weight d + acc) 0 docs.
Proof. induction docs as [|d docs IH]; simpl; [done|]. unfold total in *. simpl. by rewrite IH. Qed.

Lemma doc_weight_pos d : 1 <= weight d.
Proof. destruct d; simpl; lia. Qed.

Definition fit_work (work : list Entry) (remaining : nat) : Fit :=
  foldr (fun e k remaining => match fit (snd (fst e)) (snd e) remaining with Goes r => k r | r => r end) Goes work remaining.

Lemma fit_work_app w1 w2 remaining : fit_work (w1 ++ w2) remaining =
  match fit_work w1 remaining with Goes r => fit_work w2 r | r => r end.
Proof.
  revert remaining. induction w1 as [|e w1 IH]; intros remaining; [done|]. unfold fit_work in *. simpl.
  destruct (fit _ _ _); auto.
Qed.

Lemma fit_work_map ind mode docs remaining : fit_work (map (fun d => (ind, mode, d)) docs) remaining = fit_all (fit mode) docs remaining.
Proof. revert remaining. induction docs as [|d docs IH]; intros remaining; [done|]. unfold fit_work in *. simpl. destruct (fit _ _ _); auto. Qed.

Lemma fits_loop_spec fuel remaining work : total work <= fuel ->
  fits_loop fuel remaining work = Some (match fit_work work remaining with Fails => false | _ => true end).
Proof.
  revert remaining work. induction fuel as [|fuel IH]; intros remaining [|[[ind mode] d] work] Hf; try done.
  - simpl in Hf. pose proof (doc_weight_pos d). lia.
  - simpl in Hf. change (fit_work ((ind, mode, d) :: work) remaining) with
      (match fit mode d remaining with Goes r => fit_work work r | r => r end).
    cbn [fits_loop]. destruct d; cbn [fit weight snd] in *; try (apply IH; simpl; lia).
    + destruct (remaining <? byte_len s); [done|]. apply IH. lia.
    + done.
    + destruct mode; [|done]. destruct (remaining =? 0); [done|]. apply IH. lia.
    + destruct mode; [|done]. apply IH. lia.
    + rewrite IH by (rewrite total_app, total_map; lia). rewrite fit_work_app, fit_work_map. by destruct (fit_all _ _ _).
    + destruct (remaining <? _); [done|]. rewrite IH by (rewrite total_app, total_map; lia).
      rewrite fit_work_app, fit_work_map. by destruct (fit_all _ _ _).
Qed.

Lemma fits_spec remaining ind d : fits remaining ind d = Some (fits_flat d remaining).
Proof. unfold fits, fits_flat. rewrite fits_loop_spec by (simpl; lia). simpl. by destruct (fit Flat d remaining). Qed.

Lemma fill_loop_spec width ind f g first items st : Forall (fun item => forall st, f item st = Some (g item st)) items ->
  fill_loop width ind f first items st = Some (fill_with width ind g first items st).
Proof.
  intros H. revert first st. induction H as [|item items Hi _ IH]; intros first st; [done|]. cbn [fill_loop fill_with].
  destruct first; simpl; [by rewrite Hi; simpl; rewrite IH|]. rewrite fits_spec. simpl. rewrite Hi. simpl. apply IH.
Qed.

Definition layout_stack (width : nat) (stack : list Entry) (st : Out) : Out :=
  fold_left (fun st e => layout width (fst (fst e)) (snd (fst e)) (snd e) st) stack st.

Lemma layout_stack_map width ind mode docs stack st :
  layout_stack width (map (fun d => (ind, mode, d)) docs ++ stack) st =
  layout_stack width stack (fold_left (fun st d => layout width ind mode d st) docs st).
Proof. unfold layout_stack. rewrite fold_left_app. f_equal. revert st. induction docs as [|d docs IH]; intros st; simpl; [done|apply IH]. Qed.

Lemma render_loop_spec width fuel : forall stack st, total stack <= fuel ->
  render_loop fuel width stack st = Some (layout_stack width stack st).
Proof.
  induction fuel as [|fuel IH]; intros [|[[ind mode] d] stack] st Hf; try done.
  - simpl in Hf. pose proof (doc_weight_pos d). lia.
  - simpl in Hf. change (layout_stack width ((ind, mode, d) :: stack) st) with (layout_stack width stack (layout width ind mode d st)).
    cbn [render_loop]. destruct d; cbn [layout weight] in *; try (apply IH; simpl; lia).
    + rewrite IH by (rewrite total_app, total_map; lia). by rewrite layout_stack_map.
    + rewrite IH by (simpl; lia). done.
    + rewrite fits_spec. simpl. rewrite IH by (simpl; lia). by destruct (fits_flat _ _).
    + rewrite (fill_loop_spec width ind _ (fun item => layout width ind Flat item)).
      * simpl. apply IH. lia.
      * assert (foldr (fun d acc => weight d + acc) 0 items <= fuel) as Hw by lia. clear -IH Hw.
        induction items as [|item items IHi]; constructor; simpl in Hw.
        -- intros st. rewrite IH by (simpl; lia). done.
        -- apply IHi. lia.
    + rewrite IH by (destruct mode; simpl; lia). by destruct mode.
Qed.

Lemma render_layout doc width : render doc width = Some (fst (layout width 0 Break doc ([], 0))).
Proof. unfold render. rewrite render_loop_spec by (simpl; lia). done. Qed.

(** ** Text is preserved *)

Definition is_gap (c : Z) : bool := bool_decide (c = blank) || bool_decide (c = newline).
Definition ink (s : Text) : Text := List.filter (fun c => negb (is_gap c)) s.

(** [s] is the text of [d] without blanks, with one choice per [IfBreak]. *)
Fixpoint inks (d : Doc) (s : Text) : Prop :=
  match d with
  | DNil | DHardline | DLine | DSoftline => s = []
  | DText t | DLineSuffix t => s = ink t
  | DConcat docs | DFill docs =>
      foldr (fun d k s => exists s1 s2, s = s1 ++ s2 /\ inks d s1 /\ k s2) (fun s => s = []) docs s
  | DIndent _ inner | DGroup inner => inks inner s
  | DIfBreak f b => inks f s \/ inks b s
  end.

Lemma ink_app s1 s2 : ink (s1 ++ s2) = ink s1 ++ ink s2.
Proof. apply List.filter_app. Qed.

Lemma ink_newline ind : ink (newline :: replicate ind blank) = [].
Proof. unfold ink. simpl. induction ind as [|ind IH]; [done|]. done. Qed.

Lemma ink_blank : ink [blank] = [].
Proof. done. Qed.

(** [f] appends text with the ink of [d]. *)
Definition appends (d : Doc) (f : Out -> Out) : Prop := forall st, exists s, inks d s /\ ink (fst (f st)) = ink (fst st) ++ s.

Lemma push_ink s st : ink (fst (push_text s st)) = ink (fst st) ++ ink s.
Proof. apply ink_app. Qed.

Lemma newline_ink ind st : ink (fst (emit_newline ind st)) = ink (fst st).
Proof. simpl. by rewrite ink_app, ink_newline, app_nil_r. Qed.

Lemma layout_appends width d : forall ind mode, appends d (layout width ind mode d).
Proof.
  induction d as [|s|s| | | |ds IH|n d IH|d IH|ds IH|f b IHf IHb] using doc_ind'; intros ind mode st; cbn [layout inks].
  - exists []. by rewrite app_nil_r.
  - exists (ink s). by rewrite push_ink.
  - exists (ink s). by rewrite push_ink.
  - exists []. by rewrite newline_ink, app_nil_r.
  - exists []. rewrite app_nil_r. destruct mode; [by rewrite push_ink, ink_blank, app_nil_r|by rewrite newline_ink].
  - exists []. rewrite app_nil_r. destruct mode; [done|by rewrite newline_ink].
  - revert st. induction IH as [|d ds Hd _ IHl]; intros st; [exists []; by rewrite app_nil_r|]. simpl.
    destruct (Hd ind mode st) as (s1 & H1 & E1). destruct (IHl (layout width ind mode d st)) as (s2 & H2 & E2).
    exists (s1 ++ s2). split; [by exists s1, s2|]. by rewrite E2, E1, app_assoc.
  - apply IH.
  - destruct (fits_flat _ _); apply IH.
  - generalize true as first. revert st. induction IH as [|d ds Hd _ IHl]; intros st first; [exists []; by rewrite app_nil_r|].
    cbn [fill_with foldr]. set (st1 := if first then _ else _).
    assert (ink (fst st1) = ink (fst st)) as E0.
    { subst st1. destruct first; [done|]. destruct (fits_flat _ _); [by rewrite push_ink, ink_blank, app_nil_r|by rewrite newline_ink]. }
    destruct (Hd ind Flat st1) as (s1 & H1 & E1). destruct (IHl (layout width ind Flat d st1) false) as (s2 & H2 & E2).
    exists (s1 ++ s2). split; [by exists s1, s2|]. by rewrite E2, E1, E0, app_assoc.
  - destruct mode; [destruct (IHf ind Flat st) as (s & ? & ?)|destruct (IHb ind Break st) as (s & ? & ?)]; exists s; auto.
Qed.

(** Rendering always finishes and keeps the text. Whatever the page width, the
    non-blank characters of the output are those of the document, in order, each
    [IfBreak] contributing one of its two documents: the formatter's layout
    only adds and removes blanks and line breaks. *)
Theorem render_preserves_text (doc : Doc) (width : nat) :
  exists out, render doc width = Some out /\ inks doc (ink out).
Proof.
  rewrite render_layout. eexists. split; [done|]. destruct (layout_appends width doc 0 Break ([], 0)) as (s & Hs & E).
  by rewrite E.
Qed.

(** ** Groups *)

(** No hard line breaks and no suffixes that the fit check ignores. *)
Fixpoint plain (d : Doc) : bool :=
  match d with
  | DHardline | DLineSuffix _ => false
  | DConcat docs | DFill docs => forallb plain docs
  | DIndent _ inner | DGroup inner => plain inner
  | DIfBreak f _ => plain f
  | _ => true
  end.

(** The text of a document on one line. *)
Fixpoint flat_text (d : Doc) : Text :=
  match d with
  | DText s | DLineSuffix s => s
  | DLine => [blank]
  | DConcat docs => concat (map flat_text docs)
  | DIndent _ inner | DGroup inner => flat_text inner
  | DIfBreak f _ => flat_text f
  | DFill items => match items with [] => [] | d :: rest => flat_text d ++ concat (map (fun d => blank :: flat_text d) rest) end
  | DNil | DHardline | DSoftline => []
  end.

Definition room (remaining need : nat) : Fit := if remaining <? need then Fails else Goes (remaining - need).

Lemma fit_all_room docs (need : Doc -> nat) remaining : Forall (fun d => forall r, fit Flat d r = room r (need d)) docs ->
  fit_all (fit Flat) docs remaining = room remaining (list_sum (map need docs)).
Proof.
  intros H. revert remaining. induction H as [|d docs Hd _ IH]; intros remaining; simpl.
  - unfold room. destruct (Nat.ltb_spec remaining 0); [lia|]. by rewrite Nat.sub_0_r.
  - rewrite Hd. unfold room at 1. destruct (Nat.ltb_spec remaining (need d)).
    + unfold room. destruct (Nat.ltb_spec remaining (need d + list_sum (map need docs))); [done|lia].
    + rewrite IH. unfold room.
      destruct (Nat.ltb_spec (remaining - need d) (list_sum (map need docs))), (Nat.ltb_spec remaining (need d + list_sum (map need docs)));
        try lia; [done|]. f_equal. lia.
Qed.

Lemma byte_len_blank s : byte_len (blank :: s) = S (byte_len s).
Proof. by rewrite byte_len_cons. Qed.

Lemma length_concat_map {A} (f : A -> Text) l : byte_len (concat (map f l)) = list_sum (map (fun a => byte_len (f a)) l).
Proof. induction l as [|a l IH]; simpl; [done|]. by rewrite byte_len_app, IH. Qed.

Lemma fill_length items : byte_len (flat_text (DFill items)) = list_sum (map (fun d => byte_len (flat_text d)) items) + (length items - 1).
Proof.
  destruct items as [|d rest]; [done|]. cbn [flat_text map length]. rewrite byte_len_app, length_concat_map.
  assert (list_sum (map (fun a => byte_len (blank :: flat_text a)) rest) = list_sum (map (fun d => byte_len (flat_text d)) rest) + length rest) as ->
    by (induction rest as [|e rest IH]; [done|]; simpl in *; rewrite ?byte_len_blank; lia).
  simpl. lia.
Qed.

Lemma plain_all (P : Doc -> Prop) docs : Forall (fun d => plain d = true -> P d) docs -> forallb plain docs = true -> Forall P docs.
Proof. induction 1 as [|d docs Hd _ IH]; intros Hp; constructor; apply andb_prop in Hp as [? ?]; auto. Qed.

Lemma fit_plain d : plain d = true -> forall remaining, fit Flat d remaining = room remaining (byte_len (flat_text d)).
Proof.
  induction d as [|s|s| | | |ds IH|n d IH|d IH|ds IH|f b IHf IHb] using doc_ind'; intros Hp remaining; try done; cbn [fit].
  - unfold room. simpl. by rewrite Nat.sub_0_r.
  - unfold room. simpl. destruct remaining; done.
  - unfold room. simpl. by rewrite Nat.sub_0_r.
  - rewrite (fit_all_room ds (fun d => byte_len (flat_text d))) by (by apply plain_all). simpl. by rewrite length_concat_map.
  - by apply IH.
  - by apply IH.
  - rewrite fill_length. rewrite (fit_all_room ds (fun d => byte_len (flat_text d))) by (by apply plain_all).
    set (sum := list_sum (map (fun d => byte_len (flat_text d)) ds)). unfold room.
    destruct (Nat.ltb_spec remaining (length ds - 1)), (Nat.ltb_spec remaining (sum + (length ds - 1))); try done; try lia;
      destruct (Nat.ltb_spec (remaining - (length ds - 1)) sum); try lia; [done|]. f_equal. lia.
  - by apply IHf.
Qed.

Lemma fits_plain d remaining : plain d = true -> fits_flat d remaining = (byte_len (flat_text d) <=? remaining).
Proof.
  intros Hp. unfold fits_flat. rewrite fit_plain by done. unfold room.
  destruct (Nat.ltb_spec remaining (byte_len (flat_text d))), (Nat.leb_spec (byte_len (flat_text d)) remaining); try done; lia.
Qed.

Lemma push_app s1 s2 st : push_text s2 (push_text s1 st) = push_text (s1 ++ s2) st.
Proof. unfold push_text. simpl. rewrite byte_len_app, app_assoc. f_equal. lia. Qed.

Lemma snd_push s st : snd (push_text s st) = snd st + byte_len s.
Proof. done. Qed.

Lemma push_nil st : push_text [] st = st.
Proof. unfold push_text. rewrite app_nil_r, Nat.add_0_r. by destruct st. Qed.

(** Within the page a plain document in flat mode is its flat text. *)
Lemma layout_flat width d : plain d = true -> forall ind st, byte_len (flat_text d) <= width - snd st ->
  layout width ind Flat d st = push_text (flat_text d) st.
Proof.
  induction d as [|s|s| | | |ds IH|n d IH|d IH|ds IH|f b IHf IHb] using doc_ind'; intros Hp ind st Hle; try done; cbn [layout].
  - by rewrite push_nil.
  - by rewrite push_nil.
  - cbn [flat_text] in *. cbn [plain] in Hp. revert st Hle. induction IH as [|d ds Hd _ IHl]; intros st Hle; simpl in *; [by rewrite push_nil|].
    apply andb_prop in Hp as [Hp1 Hp2]. rewrite byte_len_app in Hle. rewrite Hd by (done || lia).
    rewrite IHl; [|done|unfold push_text; simpl; lia]. apply push_app.
  - by apply IH.
  - cbn [flat_text plain] in *. rewrite fits_plain by done. destruct (Nat.leb_spec (byte_len (flat_text d)) (width - snd st)); [|lia]. by apply IH.
  - cbn [plain] in Hp. destruct ds as [|d ds]; [by rewrite push_nil|]. apply Forall_cons in IH as [Hd IH]. apply andb_prop in Hp as [Hp1 Hp2].
    cbn [flat_text fill_with] in *. rewrite byte_len_app in Hle. rewrite Hd by (done || lia). rewrite <- push_app.
    assert (byte_len (concat (map (fun d => blank :: flat_text d) ds)) <= width - snd (push_text (flat_text d) st)) as Hle' by (unfold push_text; simpl; lia).
    revert Hle'. generalize (push_text (flat_text d) st) as st1. clear Hle Hd Hp1.
    induction IH as [|e ds He _ IHl]; intros st1 Hle; simpl in *; [by rewrite push_nil|]. apply andb_prop in Hp2 as [Hp1 Hp2].
    rewrite byte_len_blank, byte_len_app in Hle. rewrite fits_plain by done. destruct (Nat.leb_spec (byte_len (flat_text e)) (width - (snd st1 + 1))); [|lia].
    assert (snd (push_text [blank] st1) = S (snd st1)) as Hb by (simpl; rewrite byte_len_blank; change (byte_len []) with 0; lia).
    rewrite He by (done || lia). rewrite IHl; [|done|rewrite snd_push; lia].
    by rewrite !push_app.
  - by apply IHf.
Qed.

(** A flattened document renders as its flat text in every mode and width. *)
Lemma layout_flatten width d : plain d = true -> forall ind mode st, layout width ind mode (flatten d) st = push_text (flat_text d) st.
Proof.
  induction d as [|s|s| | | |ds IH|n d IH|d IH|ds IH|f b IHf IHb] using doc_ind'; intros Hp ind mode st; try done; cbn [flatten layout].
  - by rewrite push_nil.
  - by rewrite push_nil.
  - cbn [flat_text plain] in *. revert st. induction IH as [|d ds Hd _ IHl]; intros st; simpl in *; [by rewrite push_nil|].
    apply andb_prop in Hp as [Hp1 Hp2]. rewrite Hd, IHl by done. apply push_app.
  - by apply IH.
  - by apply IH.
  - cbn [plain] in Hp. destruct ds as [|d ds]; [by rewrite push_nil|]. apply Forall_cons in IH as [Hd IH]. apply andb_prop in Hp as [Hp1 Hp2].
    cbn [flat_text map intersperse layout fold_left]. rewrite Hd by done. rewrite <- push_app.
    generalize (push_text (flat_text d) st) as st1. clear Hd Hp1.
    induction IH as [|e ds He _ IHl]; intros st1; simpl in *; [by rewrite push_nil|]. apply andb_prop in Hp2 as [Hp1 Hp2].
    rewrite He, IHl by done. by rewrite !push_app.
  - by apply IHf.
Qed.

(** A group is either its flattened document or broken, and the page width
    decides. For a document without hard breaks or line suffixes the fit check
    says whether its one-line text fits in the width. When it does, rendering the
    group gives that text, the same as rendering the flattened document at any
    width, and it is no longer than the width; when it does not, the group
    renders as its content in break mode. *)
Theorem group_flat_or_broken (d : Doc) (width : nat) (Hplain : plain d = true) :
  fits width 0 d = Some (byte_len (flat_text d) <=? width) /\
  (byte_len (flat_text d) <= width -> render (DGroup d) width = Some (flat_text d) /\
    forall width', render (flatten d) width' = Some (flat_text d)) /\
  (width < byte_len (flat_text d) -> render (DGroup d) width = render d width).
Proof.
  rewrite fits_spec, fits_plain, !render_layout by done. split; [done|]. cbn [layout snd]. rewrite Nat.sub_0_r, fits_plain by done.
  split.
  - intros Hle. destruct (Nat.leb_spec (byte_len (flat_text d)) width); [|lia]. rewrite layout_flat by (done || simpl; lia).
    split; [done|]. intros width'. by rewrite render_layout, layout_flatten.
  - intros Hlt. destruct (Nat.leb_spec (byte_len (flat_text d)) width); [lia|done].
Qed.

(** [f(a, b)] with a trailing comma when it is broken. *)
Definition sample_doc : Doc :=
  DConcat [DText (str "f(");
    DIndent 2 (DConcat [DSoftline; DText (str "a,"); DLine; DText (str "b"); trailing_comma]);
    DSoftline; DText (str ")")].

Lemma group_flat_or_broken_witness :
  render (DGroup sample_doc) 7 = Some (str "f(a, b)") /\
  fits 7 0 sample_doc = Some (byte_len (flat_text sample_doc) <=? 7).
Proof.
  destruct (group_flat_or_broken sample_doc 7 eq_refl) as (H1 & H2 & _). split; [|exact H1].
  apply H2. vm_compute. lia.
Defined.
