(* ===== verification/IRValue.v ===== *)
(** * IR types, operators and runtime values

    Models the vocabulary the evaluator computes with: [koja-ir/src/types.rs]
    (operators with their panic messages, binary segments and patterns, [IRType]),
    the integer receivers of [koja-ir/src/intrinsic_id.rs], [koja-ir-eval/src/value.rs]
    and [error.rs], and the frame of [interpreter.rs].

    Integers stored in a [Value] are [Z] in the range of [i64]. Floats are the
    Standard Library's executable IEEE 754 model, at precision 24 and 53. Bytes are
    [Z] in [0, 256). The shared storage behind a heap value ([Rc]) is represented by
    its contents: the operations modelled here never write through it. The text of a
    [TypeMismatch] is not modelled, the panic messages are. *)

From S2P Require Import Prelude.
From stdpp Require Import strings.
From Stdlib Require Import SpecFloat.
Local Open Scope Z_scope.

(** ** Operators ([types.rs]) *)

Inductive IRBinOp := Add | Div | Eq | Gt | GtEq | Lt | LtEq | Mod | Mul | NotEq | Sub.

#[global] Instance IRBinOp_eq_dec : EqDecision IRBinOp.
Proof. solve_decision. Defined.

Definition surface_symbol (op : IRBinOp) : string :=
  match op with
  | Add => "+" | Div => "/" | Eq => "==" | Gt => ">" | GtEq => ">=" | Lt => "<" | LtEq => "<="
  | Mod => "%" | Mul => "*" | NotEq => "!=" | Sub => "-"
  end.

Definition division_by_zero_message (op : IRBinOp) : string :=
  "division by zero in " +:+ surface_symbol op.

Definition non_finite_message (op : IRBinOp) : string :=
  "non-finite float result in " +:+ surface_symbol op.

Definition overflow_message (op : IRBinOp) : string :=
  "integer overflow in " +:+ surface_symbol op.

Definition NEG_OVERFLOW_MESSAGE : string := "integer overflow in unary -".

Inductive IRUnaryOp := Neg | Not.

Inductive ConcatKind := KBinary | KBits | KString.

Inductive BinaryEndian := Big | Little.

Inductive BinarySign := Signed | Unsigned.

#[global] Instance BinaryEndian_eq_dec : EqDecision BinaryEndian.
Proof. solve_decision. Defined.

#[global] Instance BinarySign_eq_dec : EqDecision BinarySign.
Proof. solve_decision. Defined.

(** ** The type lattice ([types.rs]) *)

Inductive IRType :=
| TBinary | TBits | TBool
| TCPtr (pointee : IRType)
| TEnum (symbol : string)
| TFloat32 | TFloat64
| TFunction (params : list IRType) (ret : IRType)
| TIndirect (inner : IRType)
| TInt8 | TInt16 | TInt32 | TInt64
| TList (element : IRType)
| TMap (key value : IRType)
| TSet (element : IRType)
| TString
| TStruct (symbol : string)
| TTuple (elements : list IRType)
| TUInt8 | TUInt16 | TUInt32 | TUInt64
| TUnion (mangled : string) (members : list IRType)
| TUnit.

Definition is_float (ty : IRType) : bool :=
  match ty with TFloat32 | TFloat64 => true | _ => false end.

Definition int_bit_width (ty : IRType) : option Z :=
  match ty with
  | TInt8 | TUInt8 => Some 8
  | TInt16 | TUInt16 => Some 16
  | TInt32 | TUInt32 => Some 32
  | TInt64 | TUInt64 => Some 64
  | _ => None
  end.

Definition int_sign (ty : IRType) : option BinarySign :=
  match ty with
  | TInt8 | TInt16 | TInt32 | TInt64 => Some Signed
  | TUInt8 | TUInt16 | TUInt32 | TUInt64 => Some Unsigned
  | _ => None
  end.

Definition is_int (ty : IRType) : bool :=
  match ty with
  | TInt8 | TInt16 | TInt32 | TInt64 | TUInt8 | TUInt16 | TUInt32 | TUInt64 => true
  | _ => false
  end.

Definition concat_ir_type (k : ConcatKind) : IRType :=
  match k with KBinary => TBinary | KBits => TBits | KString => TString end.

(** [bin_op_result_type] and [unary_op_result_type] of [lower/ops.rs]. *)
Definition bin_op_result_type (op : IRBinOp) (operand_ty : IRType) : IRType :=
  match op with
  | Add | Sub | Mul | Div | Mod => operand_ty
  | Eq | NotEq | Gt | GtEq | Lt | LtEq => TBool
  end.

Definition unary_op_result_type (op : IRUnaryOp) (operand_ty : IRType) : IRType :=
  match op with Neg => operand_ty | Not => TBool end.

(** ** Binary segments and patterns ([types.rs]) *)

Definition ValueId := Z.
Definition IRLocalId := Z.

Record ResolvedBinaryLayout := mkLayout { total_bits : Z; byte_aligned : bool }.

Inductive LoweredBinarySegment :=
| SInteger (value : ValueId) (width : Z) (sign : BinarySign) (endian : BinaryEndian) (bit_offset : Z)
| SFloat (value : ValueId) (width : Z) (endian : BinaryEndian) (bit_offset : Z)
| SString (value : ValueId) (byte_length bit_offset : Z).

Definition segment_bit_offset (s : LoweredBinarySegment) : Z :=
  match s with SInteger _ _ _ _ o | SFloat _ _ _ o | SString _ _ o => o end.

Definition segment_width (s : LoweredBinarySegment) : Z :=
  match s with SInteger _ w _ _ _ | SFloat _ w _ _ => w | SString _ n _ => n * 8 end.

Definition segment_value (s : LoweredBinarySegment) : ValueId :=
  match s with SInteger v _ _ _ _ | SFloat v _ _ _ | SString v _ _ => v end.

Inductive LoweredBinaryPattern :=
| LiteralInt (bit_offset : Z) (endian : BinaryEndian) (sign : BinarySign) (value width : Z)
| LiteralBytes (bit_offset : Z) (bytes : list Z)
| BindInt (bit_offset : Z) (endian : BinaryEndian) (local : IRLocalId) (sign : BinarySign) (ty : IRType)
    (width : Z)
| Discard (bit_offset width : Z)
| GreedyTail (bit_offset : Z) (local : option IRLocalId) (ty : IRType).

Definition pattern_bit_offset (p : LoweredBinaryPattern) : Z :=
  match p with
  | LiteralInt o _ _ _ _ | LiteralBytes o _ | BindInt o _ _ _ _ _ | Discard o _ | GreedyTail o _ _ => o
  end.

Record LoweredBinaryMatchLayout := mkMatchLayout { fixed_bits : Z; has_greedy_tail : bool }.

(** ** Integer receivers of intrinsics ([intrinsic_id.rs]) *)

Inductive IntType := IInt | IInt8 | IInt16 | IInt32 | IUInt8 | IUInt16 | IUInt32 | IUInt64.

Definition bit_width (ty : IntType) : Z :=
  match ty with
  | IInt | IUInt64 => 64
  | IInt8 | IUInt8 => 8
  | IInt16 | IUInt16 => 16
  | IInt32 | IUInt32 => 32
  end.

Definition is_signed (ty : IntType) : bool :=
  match ty with IInt | IInt8 | IInt16 | IInt32 => true | _ => false end.

Inductive BitOp := Band | Bnot | Bor | Bsl | Bsr | Bxor.

(** [None] is the [unreachable!] of the operators that never shift. *)
Definition shift_count_message (op : BitOp) : option string :=
  match op with
  | Bsl => Some "shift count out of range in bsl"
  | Bsr => Some "shift count out of range in bsr"
  | _ => None
  end.

Inductive IntNarrowTarget := NInt8 | NInt16 | NInt32 | NUInt8 | NUInt16 | NUInt32 | NUInt64.

Inductive NumericConvert := FloatToFloat32 | IntNarrow (target : IntNarrowTarget) | UInt64ToInt.

(** ** Floats *)

(** [f32] and [f64]: precision and maximal exponent. *)
Inductive FloatWidth := F32 | F64.

Definition prec (w : FloatWidth) : Z := match w with F32 => 24 | F64 => 53 end.
Definition emax (w : FloatWidth) : Z := match w with F32 => 128 | F64 => 1024 end.

Definition is_finite (x : spec_float) : bool :=
  match x with S754_zero _ | S754_finite _ _ _ => true | _ => false end.

(** ** Values ([value.rs]) *)

Inductive Value :=
| VBinary (bytes : list Z)
| VBits (bytes : list Z) (bit_length : Z)
| VBool (b : bool)
| VCPtr (address : Z)
| VClosure (body : string) (captures : list Value)
| VEnum (name : string) (payload : EnumPayload) (symbol : string) (tag : Z)
| VFloat32 (v : spec_float)
| VFloat64 (v : spec_float)
| VInt (n : Z)
| VList (items : list Value)
| VMap (entries : list (Value * Value))
| VSet (items : list Value)
| VString (bytes : list Z)
| VStruct (symbol : string) (fields : list Value)
| VTuple (elements : list Value)
| VUnion (payload : Value) (symbol : string) (tag : Z)
| VUnit
with EnumPayload :=
| PStruct (fields : list (string * Value))
| PTuple (elements : list Value)
| PUnit.

Definition as_bool (v : Value) : option bool := match v with VBool b => Some b | _ => None end.
Definition as_float64 (v : Value) : option spec_float :=
  match v with VFloat64 x => Some x | _ => None end.
Definition as_int (v : Value) : option Z := match v with VInt n => Some n | _ => None end.
Definition as_string_bytes (v : Value) : option (list Z) :=
  match v with VString b => Some b | _ => None end.

(** ** Errors ([error.rs]) *)

Inductive RuntimeError :=
| TypeMismatch
| Panicked (message : string)
| UnknownIntrinsic (symbol : string)
| ExternUnresolved (c_name : string) (link_lib : option string) (reason symbol : string)
| UnreachableExecuted
| Unsupported
| ValueUndefined (id : ValueId).

(** What a call of the evaluator ends in: a value, a runtime error it returns, or a
    panic of the evaluator itself (an index out of range, a failed assertion). *)
Inductive Outcome (A : Type) := Ok (a : A) | Err (e : RuntimeError) | Crash.
Arguments Ok {A} a.
Arguments Err {A} e.
Arguments Crash {A}.

Definition bindO {A B} (m : Outcome A) (f : A -> Outcome B) : Outcome B :=
  match m with Ok a => f a | Err e => Err e | Crash => Crash end.

Notation "'let*' x := m 'in' k" := (bindO m (fun x => k))
  (at level 200, x pattern, m at level 100, k at level 200, right associativity) : koja_scope.

Definition orCrash {A} (o : option A) : Outcome A := match o with Some a => Ok a | None => Crash end.

(** ** UTF-8 ([str::from_utf8]) *)

Definition in_range (lo hi b : Z) : bool := (lo <=? b) && (b <=? hi).
Definition cont (b : Z) : bool := in_range 128 191 b.

(** The well-formed byte sequences of the Unicode standard. *)
Fixpoint utf8_valid (l : list Z) : bool :=
  match l with
  | [] => true
  | b0 :: l0 =>
      if in_range 0 127 b0 then utf8_valid l0
      else match l0 with
      | [] => false
      | b1 :: l1 =>
          if in_range 194 223 b0 then cont b1 && utf8_valid l1
          else match l1 with
          | [] => false
          | b2 :: l2 =>
              if (b0 =? 224) && in_range 160 191 b1
                 || (in_range 225 236 b0 || in_range 238 239 b0) && cont b1
                 || (b0 =? 237) && in_range 128 159 b1
              then cont b2 && utf8_valid l2
              else match l2 with
              | [] => false
              | b3 :: l3 =>
                  if (b0 =? 240) && in_range 144 191 b1
                     || in_range 241 243 b0 && cont b1
                     || (b0 =? 244) && in_range 128 143 b1
                  then cont b2 && cont b3 && utf8_valid l3
                  else false
              end
          end
      end
  end.

(** [Value::string] asserts that its bytes are UTF-8. *)
Definition value_string (bytes : list Z) : Outcome Value :=
  if utf8_valid bytes then Ok (VString bytes) else Crash.

(** ** Frames ([interpreter.rs]) *)

Record Frame := mkFrame {
  captures : list Value;
  values : gmap ValueId Value;
  locals : gmap IRLocalId Value;
}.

Definition frame_with_captures (caps : list Value) : Frame := mkFrame caps ∅ ∅.

Definition lookup_value (vs : gmap ValueId Value) (id : ValueId) : Outcome Value :=
  match vs !! id with Some v => Ok v | None => Err (ValueUndefined id) end.

Definition set_local (f : Frame) (l : IRLocalId) (v : Value) : Frame :=
  mkFrame (captures f) (values f) (<[l:=v]> (locals f)).

(** ** The storage convention *)

Definition byte_ok (b : Z) : Prop := 0 <= b < 256.

#[global] Instance byte_ok_dec b : Decision (byte_ok b).
Proof. unfold byte_ok. apply _. Defined.

(** The [i64] an integer type's values are stored as: signed types and the narrow
    unsigned ones hold their value, a 64-bit unsigned one its bit pattern. *)
Definition stored (w : Z) (sign : BinarySign) (n : Z) : Prop :=
  match sign with
  | Signed => - 2 ^ (w - 1) <= n < 2 ^ (w - 1)
  | Unsigned => if w =? 64 then - 2 ^ 63 <= n < 2 ^ 63 else 0 <= n < 2 ^ w
  end.

(** The bit [p] of a byte string, counted from the first byte's high end. *)
Definition bit_at (bytes : list Z) (p : Z) : bool :=
  match bytes !! Z.to_nat (p / 8) with
  | Some b => Z.testbit b (7 - p mod 8)
  | None => false
  end.

(** A [Bits] payload: as many bytes as the length needs, zero past it. *)
Definition bits_ok (bytes : list Z) (len : Z) : Prop :=
  0 <= len /\ Z.of_nat (length bytes) = (len + 7) / 8 /\ Forall byte_ok bytes /\
  forall p, len <= p -> bit_at bytes p = false.

(** Values of the primitive types, as the evaluator stores them. *)
Definition has_type (ty : IRType) (v : Value) : Prop :=
  match v with
  | VBinary b => ty = TBinary /\ Forall byte_ok b
  | VBits b n => ty = TBits /\ bits_ok b n
  | VBool _ => ty = TBool
  | VFloat32 x => ty = TFloat32 /\ is_finite x = true
  | VFloat64 x => ty = TFloat64 /\ is_finite x = true
  | VInt n => match int_bit_width ty, int_sign ty with
              | Some w, Some s => stored w s n
              | _, _ => False
              end
  | VString b => ty = TString /\ Forall byte_ok b /\ utf8_valid b = true
  | VUnit => ty = TUnit
  | _ => False
  end.

(** Concatenating well-formed texts gives a well-formed text. *)
Lemma utf8_valid_app l r : utf8_valid l = true -> utf8_valid r = true -> utf8_valid (l ++ r) = true.
Proof.
  intros Hl Hr. remember (length l) as n eqn:Hn. revert l Hl Hn.
  induction (lt_wf n) as [n _ IH]. intros l Hl Hn. subst n.
  assert (forall l', (length l' < length l)%nat -> utf8_valid l' = true -> utf8_valid (l' ++ r) = true)
    as Rec by (intros l' Hlt Hv; by apply (IH (length l'))). clear IH.
  destruct l as [|b0 l0]; [done|]. simpl in Hl. simpl app. simpl utf8_valid.
  destruct (in_range 0 127 b0); [apply Rec; [simpl; lia|done]|].
  destruct l0 as [|b1 l1]; [done|]. simpl app. simpl.
  destruct (in_range 194 223 b0).
  { apply andb_true_iff in Hl as [-> Hl]. apply Rec; [simpl; lia|done]. }
  destruct l1 as [|b2 l2]; [done|]. simpl app. simpl.
  destruct (_ || _ || _) eqn:E3 in Hl; rewrite E3.
  { apply andb_true_iff in Hl as [-> Hl]. apply Rec; [simpl; lia|done]. }
  destruct l2 as [|b3 l3]; [done|]. simpl app. simpl.
  destruct (_ || _ || _) eqn:E4 in Hl; rewrite E4; [|done].
  apply andb_true_iff in Hl as [Hc Hl]. rewrite Hc. apply Rec; [simpl; lia|done].
Qed.

#[export] Hint Resolve utf8_valid_app : koja.
