(* ===== verification/EvalOps.v ===== *)
(** * Operators of the evaluator

    Models [koja-ir-eval/src/ops.rs], the integer conversions of
    [intrinsics/numeric.rs] and the bitwise family of [intrinsics/bitwise.rs].

    [overflow_checks] is Rust's build setting: with it an [i128] overflow panics the
    evaluator, without it the product wraps. Every result below is proved for both
    settings where the two agree. *)

From Stdlib Require Import SpecFloat.
From stdpp Require Import strings.
From S2P Require Import Prelude IRValue.
Local Open Scope Z_scope.

(** ** Casts *)

(** [n as u64] and [n as i64]. *)
Definition as_u64 (n : Z) : Z := wrap 64 n.
Definition as_i64 (n : Z) : Z := swrap 64 n.

Definition i128_in_range (n : Z) : bool := (- 2 ^ 127 <=? n) && (n <? 2 ^ 127).

Section Ops.
Context (overflow_checks : bool).

(** The result of an [i128] operator. *)
Definition i128_result (n : Z) : Outcome Z :=
  if i128_in_range n then Ok n else if overflow_checks then Crash else Ok (swrap 128 n).

(** ** Integers ([ops.rs]) *)

Definition int_range (ty : IRType) : Z * Z :=
  let width := default 64 (int_bit_width ty) in
  match int_sign ty with
  | Some Unsigned => (0, Z.shiftl 1 width - 1)
  | _ => (- Z.shiftl 1 (width - 1), Z.shiftl 1 (width - 1) - 1)
  end.

Definition int_operand (ty : IRType) (n : Z) : Z :=
  match int_sign ty with Some Unsigned => as_u64 n | _ => n end.

Definition require_ints (lhs rhs : Value) : Outcome (Z * Z) :=
  match lhs, rhs with
  | VInt a, VInt b => Ok (a, b)
  | _, _ => Err TypeMismatch
  end.

(** The exact result; [None] is the [unreachable!] on the other operators. *)
Definition int_exact (op : IRBinOp) (a b : Z) : option Z :=
  match op with
  | Add => Some (a + b)
  | Div => Some (Z.quot a b)
  | Mod => Some (Z.rem a b)
  | Mul => Some (a * b)
  | Sub => Some (a - b)
  | _ => None
  end.

Definition apply_int_arith (op : IRBinOp) (ty : IRType) (lhs rhs : Value) : Outcome Value :=
  let* (a, b) := require_ints lhs rhs in
  let a := int_operand ty a in
  let b := int_operand ty b in
  if bool_decide (op = Div \/ op = Mod) && (b =? 0) then
    Err (Panicked (division_by_zero_message op))
  else
    let* n := orCrash (int_exact op a b) in
    let* exact := i128_result n in
    let '(mn, mx) := int_range ty in
    if (exact <? mn) || (mx <? exact) then Err (Panicked (overflow_message op))
    else Ok (VInt (as_i64 (as_u64 exact))).

Definition apply_int_compare (op : IRBinOp) (ty : IRType) (lhs rhs : Value) : Outcome Value :=
  let* (a, b) := require_ints lhs rhs in
  let a := int_operand ty a in
  let b := int_operand ty b in
  match op with
  | Gt => Ok (VBool (b <? a))
  | GtEq => Ok (VBool (b <=? a))
  | Lt => Ok (VBool (a <? b))
  | LtEq => Ok (VBool (a <=? b))
  | _ => Crash
  end.

(** ** Equality *)

Definition apply_equality (op : IRBinOp) (lhs rhs : Value) : Outcome Value :=
  let* equal :=
    match lhs, rhs with
    | VBool a, VBool b => Ok (Bool.eqb a b)
    | VFloat32 a, VFloat32 b => Ok (SFeqb a b)
    | VFloat64 a, VFloat64 b => Ok (SFeqb a b)
    | VInt a, VInt b => Ok (a =? b)
    | VString a, VString b => Ok (bool_decide (a = b))
    | VUnit, VUnit => Ok true
    | _, _ => Err TypeMismatch
    end in
  match op with
  | Eq => Ok (VBool equal)
  | NotEq => Ok (VBool (negb equal))
  | _ => Crash
  end.

(** ** Floats *)

(** [%] on floats: the exact remainder with the sign of the dividend. *)
Definition SFrem (w : FloatWidth) (x y : spec_float) : spec_float :=
  match x, y with
  | S754_nan, _ | _, S754_nan | S754_infinity _, _ | _, S754_zero _ => S754_nan
  | S754_zero _, _ | _, S754_infinity _ => x
  | S754_finite s m e, S754_finite _ m' e' =>
      let k := Z.min e e' in
      let r := (Z.pos m * 2 ^ (e - k)) mod (Z.pos m' * 2 ^ (e' - k)) in
      binary_normalize (prec w) (emax w) (if s then - r else r) k s
  end.

Definition float_arith (w : FloatWidth) (op : IRBinOp) (a b : spec_float) : Outcome spec_float :=
  match op with
  | Add => Ok (SFadd (prec w) (emax w) a b)
  | Div => Ok (SFdiv (prec w) (emax w) a b)
  | Mod => Ok (SFrem w a b)
  | Mul => Ok (SFmul (prec w) (emax w) a b)
  | Sub => Ok (SFsub (prec w) (emax w) a b)
  | _ => Crash
  end.

Definition float_compare (op : IRBinOp) (a b : spec_float) : Outcome bool :=
  match op with
  | Gt => Ok (SFltb b a)
  | GtEq => Ok (SFleb b a)
  | Lt => Ok (SFltb a b)
  | LtEq => Ok (SFleb a b)
  | _ => Crash
  end.

Definition require_floats (lhs rhs : Value) : Outcome (FloatWidth * spec_float * spec_float) :=
  match lhs, rhs with
  | VFloat32 a, VFloat32 b => Ok (F32, a, b)
  | VFloat64 a, VFloat64 b => Ok (F64, a, b)
  | _, _ => Err TypeMismatch
  end.

Definition float_value (w : FloatWidth) (x : spec_float) : Value :=
  match w with F32 => VFloat32 x | F64 => VFloat64 x end.

Definition apply_float_arith (op : IRBinOp) (lhs rhs : Value) : Outcome Value :=
  let* (w, a, b) := require_floats lhs rhs in
  let* v := float_arith w op a b in
  if is_finite v then Ok (float_value w v) else Err (Panicked (non_finite_message op)).

Definition apply_float_compare (op : IRBinOp) (lhs rhs : Value) : Outcome Value :=
  let* (w, a, b) := require_floats lhs rhs in
  let* r := float_compare op a b in
  Ok (VBool r).

(** ** Dispatch *)

Definition apply_binary_op (op : IRBinOp) (operand_ty : IRType) (lhs rhs : Value) : Outcome Value :=
  match op with
  | Add | Div | Mod | Mul | Sub =>
      if is_float operand_ty then apply_float_arith op lhs rhs else apply_int_arith op operand_ty lhs rhs
  | Eq | NotEq => apply_equality op lhs rhs
  | Gt | GtEq | Lt | LtEq =>
      if is_float operand_ty then apply_float_compare op lhs rhs
      else apply_int_compare op operand_ty lhs rhs
  end.

Definition apply_unary_op (op : IRUnaryOp) (operand_ty : IRType) (operand : Value) : Outcome Value :=
  match op with
  | Neg =>
      match operand with
      | VFloat32 v => Ok (VFloat32 (SFopp v))
      | VFloat64 v => Ok (VFloat64 (SFopp v))
      | VInt n =>
          let negated := - n in
          let '(mn, mx) := int_range operand_ty in
          if (negated <? mn) || (mx <? negated) then Err (Panicked NEG_OVERFLOW_MESSAGE)
          else Ok (VInt (as_i64 negated))
      | _ => Err TypeMismatch
      end
  | Not => match operand with VBool b => Ok (VBool (negb b)) | _ => Err TypeMismatch end
  end.

(** ** Bitwise intrinsics ([intrinsics/bitwise.rs]) *)

(** [helpers::arg_int]. *)
Definition arg_int (args : list Value) (index : nat) : Outcome Z :=
  match args !! index with
  | Some (VInt n) => Ok n
  | _ => Err TypeMismatch
  end.

Definition shift_count (ty : IntType) (op : BitOp) (count : Z) : Outcome Z :=
  if (count <? 0) || (bit_width ty <=? count) then
    let* m := orCrash (shift_count_message op) in Err (Panicked m)
  else Ok count.

Definition normalize (ty : IntType) (value : Z) : Z :=
  let width := bit_width ty in
  if width =? 64 then value
  else
    let masked := Z.land (as_u64 value) (Z.shiftl 1 width - 1) in
    if is_signed ty && (Z.shiftr masked (width - 1) =? 1) then masked - Z.shiftl 1 width
    else masked.

Definition bitwise_dispatch (ty : IntType) (op : BitOp) (args : list Value) : Outcome Value :=
  let* lhs := arg_int args 0 in
  let* result :=
    match op with
    | Band => let* rhs := arg_int args 1 in Ok (Z.land lhs rhs)
    | Bnot => Ok (normalize ty (Z.lnot lhs))
    | Bor => let* rhs := arg_int args 1 in Ok (Z.lor lhs rhs)
    | Bsl =>
        let* rhs := arg_int args 1 in
        let* count := shift_count ty op rhs in
        Ok (normalize ty (as_i64 (Z.shiftl lhs count)))
    | Bsr =>
        let* rhs := arg_int args 1 in
        let* count := shift_count ty op rhs in
        if is_signed ty then Ok (Z.shiftr lhs count)
        else Ok (normalize ty (as_i64 (Z.shiftr (as_u64 lhs) count)))
    | Bxor => let* rhs := arg_int args 1 in Ok (Z.lxor lhs rhs)
    end in
  Ok (VInt result).

(** ** Checked conversions ([intrinsics/numeric.rs]) *)

(** [None] is the [unreachable!] of the float conversion. *)
Definition checked_bounds (c : NumericConvert) : option (Z * Z) :=
  match c with
  | FloatToFloat32 => None
  | IntNarrow NInt8 => Some (- 128, 127)
  | IntNarrow NInt16 => Some (- 32768, 32767)
  | IntNarrow NInt32 => Some (- 2147483648, 2147483647)
  | IntNarrow NUInt8 => Some (0, 255)
  | IntNarrow NUInt16 => Some (0, 65535)
  | IntNarrow NUInt32 => Some (0, 4294967295)
  | IntNarrow NUInt64 => Some (0, 9223372036854775807)
  | UInt64ToInt => Some (0, 9223372036854775807)
  end.

(** The integer conversions, up to wrapping the result in the [Result] enum: the
    value, or the [OutOfRange] error. *)
Definition convert_int (c : NumericConvert) (args : list Value) : Outcome (option Z) :=
  match args with
  | [VInt v] =>
      let* (mn, mx) := orCrash (checked_bounds c) in
      Ok (if (mn <=? v) && (v <=? mx) then Some v else None)
  | _ => Err TypeMismatch
  end.

(** ** The storage convention is kept *)

Lemma int_type_cases ty : is_int ty = true ->
  exists w s, int_bit_width ty = Some w /\ int_sign ty = Some s /\ (w = 8 \/ w = 16 \/ w = 32 \/ w = 64).
Proof. destruct ty; intros; try done; do 2 eexists; split_and!; try done; lia. Qed.

(** The bounds of an integer type of [w] bits. *)
Definition range_of (w : Z) (s : BinarySign) : Z * Z :=
  match s with Unsigned => (0, 2 ^ w - 1) | Signed => (- 2 ^ (w - 1), 2 ^ (w - 1) - 1) end.

(** The value a stored integer stands for, and the integer a value is stored as. *)
Definition decode (s : BinarySign) (n : Z) : Z := match s with Unsigned => wrap 64 n | Signed => n end.

Lemma int_range_of ty w s : int_bit_width ty = Some w -> int_sign ty = Some s -> int_range ty = range_of w s.
Proof. intros Hw Hs. destruct ty; simplify_eq/=; reflexivity. Qed.

Lemma int_operand_decode ty s n : int_sign ty = Some s -> int_operand ty n = decode s n.
Proof. intros Hs. unfold int_operand. by rewrite Hs. Qed.

Lemma stored_i64 w s n : w = 8 \/ w = 16 \/ w = 32 \/ w = 64 -> stored w s n -> - 2 ^ 63 <= n < 2 ^ 63.
Proof. intros [-> | [-> | [-> | ->]]]; destruct s; simpl; lia. Qed.

Lemma stored_range w s n : w = 8 \/ w = 16 \/ w = 32 \/ w = 64 -> stored w s n ->
  (range_of w s).1 <= decode s n <= (range_of w s).2.
Proof.
  intros Hw Hst. pose proof (stored_i64 w s n Hw Hst) as Hn. destruct s; simpl in *; [lia|].
  pose proof (wrap_range 64 n ltac:(lia)).
  destruct Hw as [-> | [-> | [-> | ->]]]; simpl in *; rewrite ?wrap_small in * by lia; lia.
Qed.

(** Storing a value that is in range and reading it back gives it. *)
Lemma store_decode w s n : w = 8 \/ w = 16 \/ w = 32 \/ w = 64 ->
  (range_of w s).1 <= n <= (range_of w s).2 ->
  stored w s (as_i64 (as_u64 n)) /\ decode s (as_i64 (as_u64 n)) = n.
Proof.
  intros Hw Hn. unfold as_i64, as_u64.
  assert (swrap 64 (wrap 64 n) = swrap 64 n) as ->
    by (unfold swrap; by rewrite wrap_idemp by lia).
  destruct s; simpl in *.
  - rewrite swrap_small by (destruct Hw as [-> | [-> | [-> | ->]]]; lia). lia.
  - rewrite wrap_swrap by lia. rewrite wrap_small by (destruct Hw as [-> | [-> | [-> | ->]]]; lia).
    split; [|done]. destruct (Z.eqb_spec w 64) as [->|].
    + exact (swrap_range 64 n ltac:(lia)).
    + rewrite swrap_small; destruct Hw as [-> | [-> | [-> | ->]]]; lia.
Qed.

Lemma decode_inj w s a b : w = 8 \/ w = 16 \/ w = 32 \/ w = 64 -> stored w s a -> stored w s b ->
  decode s a = decode s b -> a = b.
Proof.
  intros Hw Ha Hb. pose proof (stored_i64 w s a Hw Ha). pose proof (stored_i64 w s b Hw Hb).
  destruct s; simpl; [done|]. unfold wrap. intros E.
  assert (a mod 2 ^ 64 = if a <? 0 then a + 2 ^ 64 else a) as Ea.
  { destruct (Z.ltb_spec a 0); [symmetry; apply (Z.mod_unique _ _ (-1)); lia|apply Z.mod_small; lia]. }
  assert (b mod 2 ^ 64 = if b <? 0 then b + 2 ^ 64 else b) as Eb.
  { destruct (Z.ltb_spec b 0); [symmetry; apply (Z.mod_unique _ _ (-1)); lia|apply Z.mod_small; lia]. }
  rewrite Ea, Eb in E. destruct (Z.ltb_spec a 0), (Z.ltb_spec b 0); lia.
Qed.

(** ** Arithmetic *)

Definition is_arith (op : IRBinOp) : bool :=
  match op with Add | Div | Mod | Mul | Sub => true | _ => false end.

Definition divides_by_zero (op : IRBinOp) (b : Z) : bool :=
  bool_decide (op = Div \/ op = Mod) && (b =? 0).

(** What the arithmetic contract asks of an operator on values [x] and [y] of a
    type of [w] bits. *)
Definition arith_spec (op : IRBinOp) (w : Z) (s : BinarySign) (x y n : Z) (r : Outcome Value) : Prop :=
  if divides_by_zero op y then r = Err (Panicked (division_by_zero_message op))
  else if ((range_of w s).1 <=? n) && (n <=? (range_of w s).2)
  then exists v, r = Ok (VInt v) /\ stored w s v /\ decode s v = n
  else r = Err (Panicked (overflow_message op)).

(** A product of two 64-bit values is negative once it wraps at 128 bits. *)
Lemma i128_wrapped_out_of_range w s n : w = 8 \/ w = 16 \/ w = 32 \/ w = 64 ->
  i128_in_range n = false -> 2 ^ 127 <= n < 2 ^ 128 -> (s = Unsigned) ->
  swrap 128 n < (range_of w s).1.
Proof.
  intros Hw _ Hn ->. unfold swrap. rewrite wrap_small by lia.
  destruct (Z.ltb_spec n (2 ^ (128 - 1))); simpl in *; lia.
Qed.

Lemma quot_bound a b : Z.abs (Z.quot a b) <= Z.abs a.
Proof.
  destruct (Z.eq_dec b 0) as [->|Hb]; [assert (Z.quot a 0 = 0) as -> by (by destruct a); lia|].
  rewrite <- Z.quot_abs by done. rewrite Z.quot_div_nonneg by lia.
  apply Z.div_le_upper_bound; [lia|]. nia.
Qed.

Lemma rem_bound a b : b <> 0 -> Z.abs (Z.rem a b) <= Z.abs a.
Proof.
  intros Hb. rewrite <- Z.rem_abs by done. rewrite Z.rem_mod_nonneg by lia.
  apply Z.mod_le; lia.
Qed.

(** An exact result outside [i128] is a product of unsigned values past [2 ^ 127]. *)
Lemma exact_outside_i128 op w s x y n : w = 8 \/ w = 16 \/ w = 32 \/ w = 64 ->
  (range_of w s).1 <= x <= (range_of w s).2 -> (range_of w s).1 <= y <= (range_of w s).2 ->
  divides_by_zero op y = false -> int_exact op x y = Some n -> i128_in_range n = false ->
  op = Mul /\ s = Unsigned /\ 2 ^ 127 <= n < 2 ^ 128.
Proof.
  intros Hw Hx Hy Hz Hn Ho. unfold i128_in_range in Ho.
  assert (Z.abs x <= 2 ^ 64 - 1 /\ Z.abs y <= 2 ^ 64 - 1) as [Hx' Hy'].
  { destruct Hw as [-> | [-> | [-> | ->]]]; destruct s; simpl in *; lia. }
  assert (- 2 ^ 127 <= n < 2 ^ 127 -> False) as Hout by lia.
  pose proof (quot_bound x y).
  destruct op; simplify_eq/=; try (exfalso; lia).
  - exfalso. assert (y <> 0) as Hy0.
    { intros ->. unfold divides_by_zero in Hz. rewrite bool_decide_true in Hz by auto. done. }
    pose proof (rem_bound x y Hy0). lia.
  - split; [done|]. destruct s.
    + exfalso. assert (- 2 ^ 63 <= x <= 2 ^ 63 /\ - 2 ^ 63 <= y <= 2 ^ 63) as [? ?].
      { destruct Hw as [-> | [-> | [-> | ->]]]; simpl in *; lia. }
      apply Hout. nia.
    + assert (0 <= x /\ 0 <= y) as [? ?] by (simpl in *; lia). split; [done|].
      assert (0 <= x * y <= (2 ^ 64 - 1) * (2 ^ 64 - 1)) by nia.
      assert (2 ^ 127 <= x * y) by lia. lia.
Qed.

Lemma int_arith_spec op ty w s a b n :
  int_bit_width ty = Some w -> int_sign ty = Some s -> stored w s a -> stored w s b ->
  int_exact op (decode s a) (decode s b) = Some n ->
  overflow_checks = false \/ i128_in_range n = true ->
  arith_spec op w s (decode s a) (decode s b) n (apply_int_arith op ty (VInt a) (VInt b)).
Proof.
  intros Ew Es Ha Hb En Hover.
  assert (w = 8 \/ w = 16 \/ w = 32 \/ w = 64) as Hw by (destruct ty; simplify_eq/=; lia).
  unfold arith_spec, apply_int_arith. simpl bindO.
  rewrite !(int_operand_decode ty s) by done. fold (divides_by_zero op (decode s b)).
  destruct (divides_by_zero op (decode s b)) eqn:Hz; [done|].
  rewrite En. simpl. unfold i128_result. rewrite (int_range_of ty w s) by done.
  pose proof (stored_range w s a Hw Ha) as Hra. pose proof (stored_range w s b Hw Hb) as Hrb.
  destruct (i128_in_range n) eqn:Hi; simpl.
  - destruct (range_of w s) as [mn mx] eqn:Er. simpl in *.
    destruct (Z.leb_spec mn n), (Z.leb_spec n mx), (Z.ltb_spec n mn), (Z.ltb_spec mx n); try lia; simpl; try done.
    destruct (store_decode w s n Hw) as [? ?]; [rewrite Er; simpl; lia|]. eauto.
  - destruct Hover as [->|]; [|done]. simpl.
    destruct (exact_outside_i128 op w s _ _ n Hw Hra Hrb Hz En Hi) as (-> & Hs & Hn).
    pose proof (i128_wrapped_out_of_range w s n Hw Hi Hn Hs) as Hlow. subst s.
    destruct (range_of w Unsigned) as [mn mx] eqn:Er. simpl in Hlow.
    assert (mx < n) by (simpl in Er; simplify_eq; destruct Hw as [-> | [-> | [-> | ->]]]; lia).
    simpl. destruct (Z.leb_spec n mx); [lia|]. rewrite andb_false_r.
    destruct (Z.ltb_spec (swrap 128 n) mn); [done|lia].
Qed.
End Ops.

(** ** Theorems on operators *)

Lemma has_type_int ty n : has_type ty (VInt n) ->
  exists w s, int_bit_width ty = Some w /\ int_sign ty = Some s /\ stored w s n /\
    (w = 8 \/ w = 16 \/ w = 32 \/ w = 64).
Proof.
  simpl. destruct (int_bit_width ty) as [w|] eqn:Ew; [|done].
  destruct (int_sign ty) as [s|] eqn:Es; [|done]. intros H. exists w, s. split_and!; try done.
  destruct ty; simplify_eq/=; lia.
Qed.

Lemma has_type_of_int ty v : is_int ty = true -> has_type ty v -> exists n, v = VInt n.
Proof. intros Hi Hv. destruct v; simpl in Hv; destruct ty; naive_solver. Qed.

Lemma is_int_width ty w : int_bit_width ty = Some w -> is_int ty = true /\ is_float ty = false.
Proof. destruct ty; simpl; intros; simplify_eq; done. Qed.

(** The operators the type checker admits on operands of a type. *)
Definition op_allowed (op : IRBinOp) (ty : IRType) : bool :=
  match op with
  | Eq | NotEq =>
      is_int ty || is_float ty || match ty with TBool | TString | TUnit => true | _ => false end
  | _ => is_int ty || is_float ty
  end.

(** The relation a comparison decides on the values its operands stand for. *)
Definition compare_spec (op : IRBinOp) (x y : Z) : option bool :=
  match op with
  | Eq => Some (x =? y) | NotEq => Some (negb (x =? y))
  | Gt => Some (y <? x) | GtEq => Some (y <=? x) | Lt => Some (x <? y) | LtEq => Some (x <=? y)
  | _ => None
  end.

Lemma apply_binary_op_arith checks op ty l r : is_arith op = true -> is_float ty = false ->
  apply_binary_op checks op ty l r = apply_int_arith checks op ty l r.
Proof. intros Ho Hf. destruct op; try done; simpl; by rewrite Hf. Qed.

(** Comparing stored integers compares the values they stand for. *)
Lemma int_compare_exact checks op ty a b r :
  has_type ty (VInt a) -> has_type ty (VInt b) ->
  compare_spec op (int_operand ty a) (int_operand ty b) = Some r ->
  apply_binary_op checks op ty (VInt a) (VInt b) = Ok (VBool r).
Proof.
  intros Ha Hb Hr. apply has_type_int in Ha as (w & s & Ew & Es & Ha & Hw).
  simpl in Hb. rewrite Ew, Es in Hb. destruct (is_int_width ty w Ew) as [_ Hf].
  assert ((int_operand ty a =? int_operand ty b) = (a =? b)) as Heq.
  { rewrite !(int_operand_decode ty s) by done.
    destruct (Z.eqb_spec a b) as [->|Hne]; [apply Z.eqb_refl|]. apply Z.eqb_neq.
    intros E. apply Hne. by apply (decode_inj w s). }
  destruct op; simplify_eq/=; rewrite ?Hf; rewrite ?Heq; done.
Qed.

(** The values of an integer type. *)
Definition value_range (ty : IRType) : Z * Z :=
  match int_bit_width ty, int_sign ty with
  | Some w, Some s => range_of w s
  | _, _ => (1, 0)
  end.

(** [MIN % -1]: its exact result is 0, and the contract counts it as an overflow. *)
Definition rem_of_min (op : IRBinOp) (ty : IRType) (x y : Z) : bool :=
  bool_decide (op = Mod) && (x =? (value_range ty).1) && (y =? - 1).

(** The contract that [IRBinOp] and its messages document, for an operator whose
    exact result on [x] and [y] is [n]: the three faults, and otherwise a stored
    integer that reads back as [n]. *)
Definition meets_contract (op : IRBinOp) (ty : IRType) (x y n : Z) (r : Outcome Value) : Prop :=
  if divides_by_zero op y then r = Err (Panicked (division_by_zero_message op))
  else if rem_of_min op ty x y || negb (((value_range ty).1 <=? n) && (n <=? (value_range ty).2))
  then r = Err (Panicked (overflow_message op))
  else exists v, r = Ok (VInt v) /\ has_type ty (VInt v) /\ int_operand ty v = n.

(** The products that Rust's own overflow check stops before [checked] sees them. *)
Definition beyond_i128 (checks : bool) (op : IRBinOp) (ty : IRType) (n : Z) : bool :=
  checks && match op, ty with Mul, TUInt64 => true | _, _ => false end && negb (i128_in_range n).

Lemma beyond_i128_crash op ty w s a b n : is_arith op = true ->
  int_bit_width ty = Some w -> int_sign ty = Some s -> stored w s a -> stored w s b ->
  divides_by_zero op (decode s b) = false -> int_exact op (decode s a) (decode s b) = Some n ->
  i128_in_range n = false -> op = Mul /\ ty = TUInt64 /\ apply_int_arith true op ty (VInt a) (VInt b) = Crash.
Proof.
  intros Ho Ew Es Ha Hb Hz En Hin.
  assert (w = 8 \/ w = 16 \/ w = 32 \/ w = 64) as Hw by (destruct ty; simplify_eq/=; lia).
  pose proof (stored_range w s a Hw Ha) as Hra. pose proof (stored_range w s b Hw Hb) as Hrb.
  assert (apply_int_arith true op ty (VInt a) (VInt b) = Crash) as ->.
  { unfold apply_int_arith. simpl bindO. rewrite !(int_operand_decode ty s) by done.
    fold (divides_by_zero op (decode s b)). rewrite Hz, En. unfold i128_result. simpl. by rewrite Hin. }
  destruct (exact_outside_i128 op w s _ _ n Hw Hra Hrb Hz En Hin) as (-> & -> & Hn). split_and!; [done|..].
  - simpl in En. simplify_eq. clear - Hra Hrb Hn Ew Es. unfold range_of, fst, snd in Hra, Hrb.
    destruct ty; simplify_eq/=; try done; exfalso; nia.
  - done.
Qed.

(** The remainder of the smallest value by [-1] is stored as 0. *)
Lemma rem_of_min_zero checks ty w s a b : int_bit_width ty = Some w -> int_sign ty = Some s ->
  stored w s a -> stored w s b -> decode s a = (range_of w s).1 -> decode s b = - 1 ->
  apply_int_arith checks Mod ty (VInt a) (VInt b) = Ok (VInt 0).
Proof.
  intros Ew Es Ha Hb Ea Eb.
  assert (w = 8 \/ w = 16 \/ w = 32 \/ w = 64) as Hw by (destruct ty; simplify_eq/=; lia).
  pose proof (stored_range w s b Hw Hb) as Hrb. rewrite Eb in Hrb.
  destruct s; [|simpl in Hrb; lia].
  unfold apply_int_arith. simpl bindO. rewrite !(int_operand_decode ty Signed), Ea, Eb by done.
  rewrite (int_range_of ty w Signed) by done.
  destruct checks, Hw as [-> | [-> | [-> | ->]]]; reflexivity.
Qed.

(** C34: integer arithmetic of the evaluator meets the documented contract on every
    pair of stored operands but in two cases, and meets it in neither of them. The
    contract: a zero divisor panics, a result that is not representable at the operand
    type's width and signedness panics as an overflow, and so does [MIN % -1]; any
    other result is exact and stored so that it reads back. The two cases: [MIN % -1]
    gives 0 instead of the overflow panic, and in a build with Rust's overflow checks
    a product of [UInt64] values past [i128] aborts the evaluator. *)
Theorem int_arith_exact checks op ty a b n :
  is_arith op = true -> has_type ty (VInt a) -> has_type ty (VInt b) ->
  int_exact op (int_operand ty a) (int_operand ty b) = Some n ->
  let x := int_operand ty a in
  let y := int_operand ty b in
  let r := apply_binary_op checks op ty (VInt a) (VInt b) in
  (meets_contract op ty x y n r <-> rem_of_min op ty x y = false /\ beyond_i128 checks op ty n = false) /\
  (rem_of_min op ty x y = true -> r = Ok (VInt 0)) /\
  (beyond_i128 checks op ty n = true -> r = Crash).
Proof.
  intros Ho Ha Hb En x y r. apply has_type_int in Ha as (w & s & Ew & Es & Ha & Hw).
  simpl in Hb. rewrite Ew, Es in Hb.
  assert (value_range ty = range_of w s) as Hr by (unfold value_range; by rewrite Ew, Es). destruct (is_int_width ty w Ew) as [_ Hf].
  assert (rem_of_min op ty x y = true -> divides_by_zero op y = false /\ r = Ok (VInt 0)) as Hrem.
  { unfold rem_of_min. intros [[->%bool_decide_eq_true Hx%Z.eqb_eq]%andb_prop Hy%Z.eqb_eq]%andb_prop.
    split; [unfold divides_by_zero; by rewrite Hy|]. unfold r. rewrite apply_binary_op_arith by done.
    rewrite Hr in Hx. unfold x, y in *. rewrite !(int_operand_decode ty s) in * by done.
    by apply (rem_of_min_zero checks ty w s). }
  assert (beyond_i128 checks op ty n = true -> divides_by_zero op y = false /\ rem_of_min op ty x y = false /\ r = Crash) as Hmul.
  { unfold beyond_i128. intros [[Hc Ht]%andb_prop Hin%negb_true_iff]%andb_prop.
    destruct op; try done. destruct ty; try done. split_and!; [done..|]. unfold r. rewrite apply_binary_op_arith by done. destruct checks; [|done].
    unfold x, y in *. rewrite !(int_operand_decode TUInt64 s) in * by done.
    by apply (beyond_i128_crash Mul TUInt64 w s a b n). }
  split; [|split; [intros H; by apply Hrem|intros H; by apply Hmul]].
  unfold meets_contract. destruct (rem_of_min op ty x y) eqn:Er.
  { destruct (Hrem eq_refl) as [-> ->]. simpl. split; [intros ?; discriminate|by intros [? ?]]. }
  destruct (beyond_i128 checks op ty n) eqn:Eb.
  { destruct (Hmul eq_refl) as (-> & _ & ->). simpl. split; [|by intros [? ?]].
    destruct (_ && _); simpl; [intros (? & ? & _)|]; discriminate. }
  split; [done|]. intros _. unfold r, x, y in *. rewrite apply_binary_op_arith by done.
  rewrite !(int_operand_decode ty s) in * by done. rewrite Hr. simpl orb.
  destruct (divides_by_zero op (decode s b)) eqn:Hz.
  { unfold apply_int_arith. simpl bindO. rewrite !(int_operand_decode ty s) by done.
    fold (divides_by_zero op (decode s b)). by rewrite Hz. }
  assert (checks = false \/ i128_in_range n = true) as Hc.
  { destruct checks; [right|by left]. destruct (i128_in_range n) eqn:Hin; [done|].
    destruct (beyond_i128_crash op ty w s a b n) as (-> & -> & _); try done.
    unfold beyond_i128 in Eb. by rewrite Hin in Eb. }
  pose proof (int_arith_spec checks op ty w s a b n Ew Es Ha Hb En Hc) as Hsp.
  unfold arith_spec in Hsp. rewrite Hz in Hsp. destruct (_ && _); simpl; [|done].
  destruct Hsp as (v & Hv & Hst & Hd). exists v. split; [done|]. simpl.
  rewrite Ew, Es. split; [done|]. by rewrite (int_operand_decode ty s).
Qed.

Lemma int_arith_exact_witness :
  meets_contract Add TUInt64 (2 ^ 64 - 2) 1 (2 ^ 64 - 1) (apply_binary_op true Add TUInt64 (VInt (-2)) (VInt 1)) /\
  apply_binary_op true Add TUInt64 (VInt (-2)) (VInt 1) = Ok (VInt (-1)) /\
  meets_contract Add TUInt64 (2 ^ 64 - 1) 1 (2 ^ 64) (apply_binary_op true Add TUInt64 (VInt (-1)) (VInt 1)) /\
  apply_binary_op true Add TUInt64 (VInt (-1)) (VInt 1) = Err (Panicked "integer overflow in +") /\
  apply_binary_op true Mod TInt8 (VInt (-128)) (VInt (-1)) = Ok (VInt 0) /\
  apply_binary_op true Mul TUInt64 (VInt (-1)) (VInt (-1)) = Crash.
Proof.
  split_and!; [|reflexivity| |reflexivity|..].
  - apply (int_arith_exact true Add TUInt64 (-2) 1 (2 ^ 64 - 1));
      [reflexivity|simpl; lia|simpl; lia|reflexivity|split; reflexivity].
  - apply (int_arith_exact true Add TUInt64 (-1) 1 (2 ^ 64));
      [reflexivity|simpl; lia|simpl; lia|reflexivity|split; reflexivity].
  - apply (int_arith_exact true Mod TInt8 (-128) (-1) 0); [reflexivity|simpl; lia|simpl; lia|reflexivity..].
  - apply (int_arith_exact true Mul TUInt64 (-1) (-1) ((2 ^ 64 - 1) * (2 ^ 64 - 1)));
      [reflexivity|simpl; lia|simpl; lia|reflexivity..].
Defined.

(** Float operators: a finite value of the operands' width, a truth value or the
    non-finite panic. *)
Lemma float_op_type_safe checks op fw x y :
  let ty := match fw with F32 => TFloat32 | F64 => TFloat64 end in
  let r := apply_binary_op checks op ty (float_value fw x) (float_value fw y) in
  (exists v, r = Ok v /\ has_type (bin_op_result_type op ty) v) \/
  (r = Err (Panicked (non_finite_message op)) /\ is_arith op = true).
Proof.
  intros ty r.
  assert (forall v, float_arith fw op x y = Ok v -> is_arith op = true ->
    r = if is_finite v then Ok (float_value fw v) else Err (Panicked (non_finite_message op))) as Harith.
  { intros v Hv Ho. unfold r, apply_binary_op, apply_float_arith.
    destruct op, fw; try done; simpl require_floats; unfold bindO at 1; by rewrite Hv. }
  destruct (is_arith op) eqn:Ho.
  - assert (exists v, float_arith fw op x y = Ok v) as [v Hv] by (destruct op; try done; eauto).
    rewrite (Harith v Hv eq_refl). destruct (is_finite v) eqn:Ef; [left|by right].
    eexists. split; [done|]. unfold ty. by destruct fw, op.
  - left. unfold r, ty. destruct op, fw; try done; eexists; (split; [reflexivity|done]).
Qed.

(** Integer operators, with the one crash of the evaluator. *)
Lemma int_op_type_safe checks op ty a b :
  has_type ty (VInt a) -> has_type ty (VInt b) ->
  let r := apply_binary_op checks op ty (VInt a) (VInt b) in
  (exists v, r = Ok v /\ has_type (bin_op_result_type op ty) v) \/
  (exists m, r = Err (Panicked m) /\ is_arith op = true) \/
  (r = Crash /\ checks = true /\ op = Mul /\ ty = TUInt64).
Proof.
  intros Hl Hr r. pose proof Hl as Hl'. apply has_type_int in Hl' as (w & s & Ew & Es & Ha & Hw).
  pose proof Hr as Hb. simpl in Hb. rewrite Ew, Es in Hb. destruct (is_int_width ty w Ew) as [_ Hf].
  destruct (is_arith op) eqn:Har.
  - assert (exists n, int_exact op (int_operand ty a) (int_operand ty b) = Some n) as [n En]
      by (destruct op; try done; simpl; eauto).
    assert (bin_op_result_type op ty = ty) as -> by (by destruct op).
    unfold r. rewrite apply_binary_op_arith by done.
    rewrite !(int_operand_decode ty s) in En by done.
    destruct (decide (checks = false \/ i128_in_range n = true)) as [Hc|Hc].
    + pose proof (int_arith_spec checks op ty w s a b n Ew Es Ha Hb En Hc) as Hsp. unfold arith_spec in Hsp.
      destruct (divides_by_zero op (decode s b)); [eauto|].
      destruct (_ && _); [|eauto]. destruct Hsp as (v & Hv & Hst & _). left. eexists. split; [done|].
      simpl. by rewrite Ew, Es.
    + destruct checks; [|by destruct Hc; left].
      destruct (i128_in_range n) eqn:Hin; [by destruct Hc; right|].
      destruct (divides_by_zero op (decode s b)) eqn:Hz.
      { unfold apply_int_arith. simpl bindO. rewrite !(int_operand_decode ty s) by done.
        fold (divides_by_zero op (decode s b)). rewrite Hz. eauto. }
      right. right. destruct (beyond_i128_crash op ty w s a b n) as (-> & -> & ->); done.
  - left. assert (exists x, compare_spec op (int_operand ty a) (int_operand ty b) = Some x) as [x Hx]
      by (destruct op; try done; simpl; eauto).
    unfold r. rewrite (int_compare_exact checks op ty a b x) by done. eexists. split; [done|]. by destruct op.
Qed.

(** Operators are type safe: on operands of the operand type, an operator the
    type checker admits returns a value of its result type or, for arithmetic only,
    a Koja panic; it never reports a type mismatch. The one crash of the evaluator
    is a product of two [UInt64] under Rust's overflow checks. *)
Theorem binary_op_type_safe checks op ty l r :
  op_allowed op ty = true -> has_type ty l -> has_type ty r ->
  (exists v, apply_binary_op checks op ty l r = Ok v /\ has_type (bin_op_result_type op ty) v) \/
  (exists m, apply_binary_op checks op ty l r = Err (Panicked m) /\ is_arith op = true) \/
  (apply_binary_op checks op ty l r = Crash /\ checks = true /\ op = Mul /\ ty = TUInt64).
Proof.
  intros Ho Hl Hr. destruct (is_int ty) eqn:Hi.
  { destruct (has_type_of_int ty l Hi Hl) as [a ->]. destruct (has_type_of_int ty r Hi Hr) as [b ->].
    by apply int_op_type_safe. }
  destruct (is_float ty) eqn:Hf.
  - assert (exists fw x y, l = float_value fw x /\ r = float_value fw y /\
              ty = match fw with F32 => TFloat32 | F64 => TFloat64 end) as (fw & x & y & -> & -> & ->).
    { destruct ty; try done; [exists F32|exists F64];
        destruct l; simpl in Hl; try naive_solver; destruct r; simpl in Hr; naive_solver. }
    destruct (float_op_type_safe checks op fw x y) as [H|[H ?]]; eauto.
  - left. assert (op = Eq \/ op = NotEq) as Hop
      by (destruct op; try done; simpl in Ho; rewrite ?Hi, ?Hf in Ho; auto; discriminate).
    assert (ty = TBool \/ ty = TString \/ ty = TUnit) as Hty.
    { destruct Hop as [-> | ->]; simpl in Ho; rewrite Hi, Hf in Ho; destruct ty; auto; done. }
    destruct Hop as [-> | ->], Hty as [-> | [-> | ->]];
      destruct l; simpl in Hl; try naive_solver; destruct r; simpl in Hr; try naive_solver; simpl; eauto.
Qed.

Lemma binary_op_type_safe_witness :
  exists v, apply_binary_op false Sub TInt8 (VInt 5) (VInt 7) = Ok v /\ has_type TInt8 v.
Proof.
  destruct (binary_op_type_safe false Sub TInt8 (VInt 5) (VInt 7)) as [H|[[m [H _]]|[H _]]];
    [reflexivity|simpl; lia|simpl; lia|exact H|discriminate|discriminate].
Defined.

(** ** Bitwise intrinsics *)

Definition int_type_sign (ty : IntType) : BinarySign := if is_signed ty then Signed else Unsigned.

(** Keep the low [w] bits of a value, read with a sign. *)
Definition fit (w : Z) (s : BinarySign) (z : Z) : Z :=
  match s with Signed => swrap w z | Unsigned => wrap w z end.

Lemma bit_width_cases ty : bit_width ty = 8 \/ bit_width ty = 16 \/ bit_width ty = 32 \/ bit_width ty = 64.
Proof. destruct ty; simpl; lia. Qed.

Lemma swrap_wrap w z : 0 <= w -> swrap w (wrap w z) = swrap w z.
Proof. intros. unfold swrap. by rewrite wrap_idemp. Qed.

Lemma wrap_wrap_le w k z : 0 <= w <= k -> wrap w (wrap k z) = wrap w z.
Proof.
  intros H. unfold wrap. apply Z.mod_mod_divide. exists (2 ^ (k - w)).
  rewrite <- Z.pow_add_r by lia. f_equal. lia.
Qed.

(** A stored integer is determined by its low bits. *)
Lemma decode_fit w s r z : w = 8 \/ w = 16 \/ w = 32 \/ w = 64 ->
  stored w s r -> wrap w r = wrap w z -> decode s r = fit w s z.
Proof.
  intros Hw Hst Heq. destruct s; simpl in *.
  - rewrite <- (swrap_wrap w z), <- Heq, swrap_wrap by lia. rewrite swrap_small; lia.
  - rewrite <- Heq. destruct (Z.eqb_spec w 64) as [->|Hne]; [done|].
    rewrite !wrap_small; try lia. destruct Hw as [-> | [-> | [-> | ->]]]; lia.
Qed.

Lemma decode_low_bits w s n : w = 8 \/ w = 16 \/ w = 32 \/ w = 64 -> wrap w (decode s n) = wrap w n.
Proof. intros Hw. destruct s; simpl; [done|]. apply wrap_wrap_le. lia. Qed.

Lemma normalize_fit ty v : bit_width ty <> 64 -> normalize ty v = fit (bit_width ty) (int_type_sign ty) v.
Proof.
  intros Hne. pose proof (bit_width_cases ty) as Hw. unfold normalize.
  rewrite (proj2 (Z.eqb_neq _ _) Hne).
  rewrite !Z.shiftl_1_l, Z.sub_1_r, <- Z.ones_equiv, Z.land_ones by lia.
  fold (wrap (bit_width ty) (as_u64 v)). unfold as_u64. rewrite wrap_wrap_le by lia.
  set (w := bit_width ty) in *. pose proof (wrap_range w v ltac:(lia)) as Hr.
  assert (2 ^ w = 2 * 2 ^ (w - 1)) as Hp by (rewrite <- Z.pow_succ_r; [f_equal; lia|lia]).
  rewrite Z.shiftr_div_pow2 by lia. unfold int_type_sign. destruct (is_signed ty); simpl; [|done].
  unfold swrap. destruct (Z.ltb_spec (wrap w v) (2 ^ (w - 1))) as [Hlt|Hge].
  - by rewrite Z.div_small by lia.
  - assert (wrap w v / 2 ^ (w - 1) = 1) as -> by (symmetry; apply (Z.div_unique _ _ _ (wrap w v - 2 ^ (w - 1))); lia).
    done.
Qed.

(** [normalize] re-establishes the storage convention and keeps the low bits. *)
Lemma normalize_stored ty v : - 2 ^ 63 <= v < 2 ^ 63 ->
  stored (bit_width ty) (int_type_sign ty) (normalize ty v) /\ wrap (bit_width ty) (normalize ty v) = wrap (bit_width ty) v.
Proof.
  intros Hv. pose proof (bit_width_cases ty) as Hw. destruct (Z.eq_dec (bit_width ty) 64) as [He|Hne].
  - unfold normalize. rewrite He, Z.eqb_refl. split; [|done]. unfold stored.
    destruct (int_type_sign ty); simpl; lia.
  - rewrite normalize_fit by done. unfold fit, stored.
    destruct (int_type_sign ty); split.
    + apply swrap_range. lia.
    + apply wrap_swrap. lia.
    + rewrite (proj2 (Z.eqb_neq _ _) Hne). apply wrap_range. lia.
    + apply wrap_idemp. lia.
Qed.

(** The storage convention as a condition on the high bits, which the logical
    operators respect bit by bit. *)
Lemma signed_range_high k n : 0 <= k -> - 2 ^ k <= n < 2 ^ k <-> Z.shiftr n k = 0 \/ Z.shiftr n k = -1.
Proof.
  intros Hk. rewrite Z.shiftr_div_pow2 by done. pose proof (Z.pow_pos_nonneg 2 k ltac:(lia) Hk).
  pose proof (Z.mod_pos_bound n (2 ^ k) ltac:(lia)). pose proof (Z.div_mod n (2 ^ k) ltac:(lia)). split; nia.
Qed.

Lemma unsigned_range_high k n : 0 <= k -> 0 <= n < 2 ^ k <-> Z.shiftr n k = 0.
Proof.
  intros Hk. rewrite Z.shiftr_div_pow2 by done. pose proof (Z.pow_pos_nonneg 2 k ltac:(lia) Hk).
  pose proof (Z.mod_pos_bound n (2 ^ k) ltac:(lia)). pose proof (Z.div_mod n (2 ^ k) ltac:(lia)). split; nia.
Qed.

Section Logical.
Context (f : Z -> Z -> Z) (g : bool -> bool -> bool).
Hypothesis f_spec : forall a b n, Z.testbit (f a b) n = g (Z.testbit a n) (Z.testbit b n).
Hypothesis g_false : g false false = false.

Lemma logical_shiftr a b k : 0 <= k -> Z.shiftr (f a b) k = f (Z.shiftr a k) (Z.shiftr b k).
Proof.
  intros Hk. apply Z.bits_inj'. intros n Hn. rewrite f_spec, !Z.shiftr_spec by done. apply f_spec.
Qed.

Lemma logical_low_bits a b w : 0 <= w -> wrap w (f a b) = f (wrap w a) (wrap w b).
Proof.
  intros Hw. apply Z.bits_inj'. intros n Hn. unfold wrap. rewrite f_spec. destruct (Z.ltb_spec n w).
  - by rewrite !Z.mod_pow2_bits_low by lia.
  - rewrite !Z.mod_pow2_bits_high by lia. done.
Qed.

Lemma logical_sign a b : a = 0 \/ a = -1 -> b = 0 \/ b = -1 -> f a b = 0 \/ f a b = -1.
Proof.
  intros Ha Hb.
  assert (forall x, x = 0 \/ x = -1 -> forall n, 0 <= n -> Z.testbit x n = Z.testbit x 0) as Hc.
  { intros x [-> | ->] n Hn; [by rewrite !Z.bits_0|by rewrite !Z.bits_m1 by lia]. }
  destruct (Z.testbit (f a b) 0) eqn:E; [right|left]; apply Z.bits_inj'; intros n Hn;
    rewrite f_spec, (Hc a Ha n Hn), (Hc b Hb n Hn), <- f_spec, E.
  - by rewrite Z.bits_m1.
  - by rewrite Z.bits_0.
Qed.

Lemma logical_stored w s a b : w = 8 \/ w = 16 \/ w = 32 \/ w = 64 ->
  stored w s a -> stored w s b -> stored w s (f a b).
Proof.
  intros Hw Ha Hb.
  assert (forall k, 0 <= k -> - 2 ^ k <= a < 2 ^ k -> - 2 ^ k <= b < 2 ^ k -> - 2 ^ k <= f a b < 2 ^ k) as Hs.
  { intros k Hk. rewrite !signed_range_high by done. rewrite logical_shiftr by done. apply logical_sign. }
  destruct s; simpl in *; [apply Hs; try done; lia|].
  destruct (Z.eqb_spec w 64) as [|_]; [by apply (Hs 63)|].
  rewrite !unsigned_range_high in * by lia. rewrite logical_shiftr by lia. rewrite Ha, Hb.
  apply Z.bits_inj'. intros n Hn. by rewrite f_spec, Z.bits_0, g_false.
Qed.

Lemma logical_exact w s a b : w = 8 \/ w = 16 \/ w = 32 \/ w = 64 ->
  stored w s a -> stored w s b -> decode s (f a b) = fit w s (f (decode s a) (decode s b)).
Proof.
  intros Hw Ha Hb. apply decode_fit; [done|by apply logical_stored|].
  rewrite !logical_low_bits by lia. by rewrite !decode_low_bits.
Qed.
End Logical.

(** What each bitwise operator computes on the values its operands stand for. *)
Definition bitop_spec (ty : IntType) (op : BitOp) (x y : Z) : Z :=
  let w := bit_width ty in
  let s := int_type_sign ty in
  match op with
  | Band => fit w s (Z.land x y)
  | Bnot => fit w s (- x - 1)
  | Bor => fit w s (Z.lor x y)
  | Bsl => fit w s (x * 2 ^ y)
  | Bsr => x / 2 ^ y
  | Bxor => fit w s (Z.lxor x y)
  end.

Lemma wrap_mul_l w a b : 0 <= w -> wrap w (wrap w a * b) = wrap w (a * b).
Proof. intros. unfold wrap. apply Zmult_mod_idemp_l. Qed.

Lemma bsl_exact ty a c : stored (bit_width ty) (int_type_sign ty) a -> 0 <= c < bit_width ty ->
  let r := normalize ty (as_i64 (Z.shiftl a c)) in
  stored (bit_width ty) (int_type_sign ty) r /\
  decode (int_type_sign ty) r = fit (bit_width ty) (int_type_sign ty) (decode (int_type_sign ty) a * 2 ^ c).
Proof.
  intros Ha Hc r. pose proof (bit_width_cases ty) as Hw.
  destruct (normalize_stored ty (as_i64 (Z.shiftl a c))) as [Hst Hlow];
    [apply (swrap_range 64); lia|].
  split; [done|]. apply decode_fit; [done..|]. unfold r. rewrite Hlow. unfold as_i64.
  rewrite <- (wrap_wrap_le _ 64 (swrap _ _)) by lia. rewrite wrap_swrap, wrap_wrap_le by lia.
  rewrite Z.shiftl_mul_pow2 by lia.
  rewrite <- (wrap_mul_l _ (decode _ _)), decode_low_bits, wrap_mul_l by lia. done.
Qed.

Lemma bsr_exact ty a c : stored (bit_width ty) (int_type_sign ty) a -> 0 <= c < bit_width ty ->
  let r := if is_signed ty then Z.shiftr a c else normalize ty (as_i64 (Z.shiftr (as_u64 a) c)) in
  stored (bit_width ty) (int_type_sign ty) r /\ decode (int_type_sign ty) r = decode (int_type_sign ty) a / 2 ^ c.
Proof.
  intros Ha Hc r. pose proof (bit_width_cases ty) as Hw.
  pose proof (Z.pow_pos_nonneg 2 c ltac:(lia) ltac:(lia)) as Hp.
  pose proof (stored_range _ _ _ Hw Ha) as Hrange. unfold int_type_sign, r in *. clear r.
  set (w := bit_width ty) in *.
  destruct (is_signed ty) eqn:Hsg.
  - simpl. rewrite Z.shiftr_div_pow2 by lia. split; [|done]. simpl in Ha.
    pose proof (Z.mod_pos_bound a (2 ^ c) ltac:(lia)). pose proof (Z.div_mod a (2 ^ c) ltac:(lia)). nia.
  - set (x := decode Unsigned a) in *. assert (as_u64 a = x) as -> by done.
    rewrite Z.shiftr_div_pow2 by lia. simpl in Hrange.
    assert (0 <= x / 2 ^ c <= x) as Hq.
    { split; [apply Z.div_pos; lia|]. apply Z.div_le_upper_bound; [lia|]. nia. }
    destruct (normalize_stored ty (as_i64 (x / 2 ^ c))) as [Hst Hlow]; [apply (swrap_range 64); lia|].
    unfold int_type_sign in Hst. rewrite Hsg in Hst. split; [done|].
    fold w in Hst, Hlow. rewrite (decode_fit w Unsigned _ (x / 2 ^ c) Hw Hst).
    + simpl. apply wrap_small. lia.
    + rewrite Hlow. unfold as_i64. rewrite <- (wrap_wrap_le w 64 (swrap _ _)) by lia.
      rewrite wrap_swrap, wrap_wrap_le by lia. done.
Qed.

(** The bitwise intrinsics compute at the receiver's width: on operands stored at
    the receiver's type, every operator stores a value of that type, the one the
    mathematical operation gives once cut to the width, and a shift whose count is
    negative or not below the width panics with the operator's message. *)
Theorem bitwise_exact ty op a b :
  stored (bit_width ty) (int_type_sign ty) a -> stored (bit_width ty) (int_type_sign ty) b ->
  (op = Bsl \/ op = Bsr -> 0 <= b < bit_width ty ->
     exists r, bitwise_dispatch ty op [VInt a; VInt b] = Ok (VInt r) /\
       stored (bit_width ty) (int_type_sign ty) r /\
       decode (int_type_sign ty) r = bitop_spec ty op (decode (int_type_sign ty) a) b) /\
  (op = Bsl \/ op = Bsr -> ~ (0 <= b < bit_width ty) ->
     exists m, shift_count_message op = Some m /\
       bitwise_dispatch ty op [VInt a; VInt b] = Err (Panicked m)) /\
  (op <> Bsl -> op <> Bsr ->
     exists r, bitwise_dispatch ty op [VInt a; VInt b] = Ok (VInt r) /\
       stored (bit_width ty) (int_type_sign ty) r /\
       decode (int_type_sign ty) r =
         bitop_spec ty op (decode (int_type_sign ty) a) (decode (int_type_sign ty) b)).
Proof.
  intros Ha Hb. pose proof (bit_width_cases ty) as Hw. split_and!.
  - intros Hop Hc.
    assert (shift_count ty op b = Ok b) as Hsc.
    { unfold shift_count. destruct (Z.ltb_spec b 0), (Z.leb_spec (bit_width ty) b); try lia. done. }
    destruct Hop as [-> | ->]; unfold bitwise_dispatch; simpl bindO; rewrite Hsc; simpl.
    + eexists. split; [done|]. by apply bsl_exact.
    + pose proof (bsr_exact ty a b Ha Hc) as H. destruct (is_signed ty) eqn:E; eexists; (split; [done|]); exact H.
  - intros Hop Hc.
    assert (((b <? 0) || (bit_width ty <=? b)) = true) as Hsc.
    { destruct (Z.ltb_spec b 0), (Z.leb_spec (bit_width ty) b); try lia; done. }
    destruct Hop as [-> | ->]; eexists; (split; [reflexivity|]);
      unfold bitwise_dispatch; simpl bindO; unfold shift_count; rewrite Hsc; done.
  - intros H1 H2. destruct op; try done; eexists; (split; [reflexivity|]).
    + split; [apply (logical_stored Z.land andb Z.land_spec eq_refl); done|].
      by apply (logical_exact Z.land andb Z.land_spec eq_refl).
    + destruct (normalize_stored ty (Z.lnot a)) as [Hst Hlow].
      { pose proof (stored_i64 _ _ _ Hw Ha). unfold Z.lnot. lia. }
      split; [done|]. apply decode_fit; [done..|]. rewrite Hlow.
      unfold Z.lnot. unfold wrap. rewrite <- !Z.sub_1_r, <- (Z.sub_0_l a), <- (Z.sub_0_l (decode _ a)).
      rewrite Zminus_mod, (Zminus_mod (0 - decode _ _)), (Zminus_mod 0 a), (Zminus_mod 0 (decode _ _)).
      pose proof (decode_low_bits (bit_width ty) (int_type_sign ty) a Hw) as Hd. unfold wrap in Hd. by rewrite Hd.
    + split; [apply (logical_stored Z.lor orb Z.lor_spec eq_refl); done|].
      by apply (logical_exact Z.lor orb Z.lor_spec eq_refl).
    + split; [apply (logical_stored Z.lxor xorb Z.lxor_spec eq_refl); done|].
      by apply (logical_exact Z.lxor xorb Z.lxor_spec eq_refl).
Qed.

Lemma bitwise_exact_witness :
  bitwise_dispatch IInt8 Bsl [VInt 64; VInt 1] = Ok (VInt (-128)) /\
  bitwise_dispatch IInt8 Bsl [VInt 64; VInt 8] = Err (Panicked "shift count out of range in bsl").
Proof.
  destruct (bitwise_exact IInt8 Bsl 64 1) as [H _]; [simpl; lia|simpl; lia|].
  destruct (bitwise_exact IInt8 Bsl 64 8) as [_ [H' _]]; [simpl; lia|simpl; lia|].
  destruct H as (r & Hr & _); [by left|simpl; lia|].
  destruct H' as (m & Hm & Hr'); [by left|simpl; lia|].
  split.
  - rewrite Hr. vm_compute in Hr. congruence.
  - rewrite Hr'. simpl in Hm. congruence.
Defined.

(** ** Unary operators and conversions *)

(** Negation of a signed integer is exact or panics; [not] flips. *)
Lemma unary_op_type_safe op ty v :
  (op = Not /\ ty = TBool \/ op = Neg /\ (is_float ty = true \/ int_sign ty = Some Signed)) -> has_type ty v ->
  (exists r, apply_unary_op op ty v = Ok r /\ has_type (unary_op_result_type op ty) r) \/
  apply_unary_op op ty v = Err (Panicked NEG_OVERFLOW_MESSAGE).
Proof.
  intros [[-> ->] | [-> Hty]] Hv.
  - destruct v; simpl in Hv; naive_solver.
  - destruct v as [| | | | | |x|x|n| | | | | | | |]; simpl in Hv;
      try (exfalso; destruct ty; naive_solver).
    + left. destruct Hv as [-> Hx]. eexists. split; [done|]. simpl. split; [done|]. by destruct x.
    + left. destruct Hv as [-> Hx]. eexists. split; [done|]. simpl. split; [done|]. by destruct x.
    + destruct Hty as [Hf|Hs]; [destruct ty; done|].
      destruct (has_type_int ty n Hv) as (w & s & Ew & Es & Hst & Hw).
      rewrite Hs in Es. injection Es as <-. clear Hv.
      unfold apply_unary_op. rewrite (int_range_of ty w Signed) by done. simpl range_of. cbv iota beta.
      destruct (_ || _) eqn:E; [by right|]. left. eexists. split; [done|]. simpl. rewrite Ew, Hs.
      apply orb_false_iff in E as [E1 E2]. apply Z.ltb_ge in E1, E2. unfold as_i64. simpl in *.
      rewrite swrap_small by (destruct Hw as [-> | [-> | [-> | ->]]]; lia). lia.
Qed.

(** The representable values of a conversion's target. *)
Definition convert_fits (c : NumericConvert) (n : Z) : Prop :=
  match c with
  | IntNarrow NInt8 => stored 8 Signed n
  | IntNarrow NInt16 => stored 16 Signed n
  | IntNarrow NInt32 => stored 32 Signed n
  | IntNarrow NUInt8 => stored 8 Unsigned n
  | IntNarrow NUInt16 => stored 16 Unsigned n
  | IntNarrow NUInt32 => stored 32 Unsigned n
  | IntNarrow NUInt64 => 0 <= n < 2 ^ 64
  | UInt64ToInt => stored 64 Signed (decode Unsigned n)
  | FloatToFloat32 => False
  end.

(** A conversion succeeds exactly on the values its target represents, which it keeps. *)
Lemma convert_int_exact c n : c <> FloatToFloat32 -> - 2 ^ 63 <= n < 2 ^ 63 ->
  exists r, convert_int c [VInt n] = Ok r /\
    match r with Some v => v = n /\ convert_fits c n | None => ~ convert_fits c n end.
Proof.
  intros Hc Hn. unfold convert_int. destruct (checked_bounds c) as [[mn mx]|] eqn:Eb;
    [|destruct c as [|[]|]; done]. simpl. eexists. split; [done|].
  assert (decode Unsigned n = if n <? 0 then n + 2 ^ 64 else n) as Hd.
  { simpl. unfold wrap. destruct (Z.ltb_spec n 0); [symmetry; apply (Z.mod_unique _ _ (-1)); lia|apply Z.mod_small; lia]. }
  destruct (Z.leb_spec mn n), (Z.leb_spec n mx); simpl;
    destruct c as [|[]|]; simplify_eq/=; rewrite ?Hd; unfold stored; simpl;
    destruct (Z.ltb_spec n 0); lia.
Qed.

(** ** Where the operators depart from their contract *)

(** The remainder of the smallest integer by [-1] is computed, not trapped: the
    contract of [overflow_message] names it among the overflow faults, and the LLVM
    backend panics. *)
Example rem_min_not_trapped :
  apply_binary_op false Mod TInt64 (VInt (- 2 ^ 63)) (VInt (-1)) = Ok (VInt 0) /\
  apply_binary_op false Div TInt64 (VInt (- 2 ^ 63)) (VInt (-1)) = Err (Panicked "integer overflow in /").
Proof. split; reflexivity. Qed.

(** Under Rust's overflow checks a large product of [UInt64] values takes the
    evaluator down instead of raising the Koja panic. *)
Example mul_u64_crash :
  apply_binary_op true Mul TUInt64 (VInt (-1)) (VInt (-1)) = Crash /\
  apply_binary_op false Mul TUInt64 (VInt (-1)) (VInt (-1)) = Err (Panicked "integer overflow in *").
Proof. split; reflexivity. Qed.
