(* ===== verification/BinaryOps.v ===== *)
(** * Binaries and bit strings

    Models [koja-ir/src/binary_packing.rs] and [koja-ir-eval/src/binary_ops.rs]:
    packing segments into a buffer, [<>] concatenation, [<<...>>] construction and
    binary matching. Bits are counted from the high end of the first byte.

    [None] (in the packers) and [Crash] (in the evaluator) are Rust panics. A shift by
    the width of its operand or more panics under [overflow_checks] and is taken modulo
    the width without them. Lengths are of payloads held in memory: their sums are not
    cut to 64 bits. *)

From Stdlib Require Import SpecFloat.
From stdpp Require Import strings.
From S2P Require Import Prelude IRValue EvalOps.
Local Open Scope Z_scope.

(** ** Rust slices and loops *)

(** [for i in lo..lo + n] over a loop body that may panic. *)
Fixpoint for_range {A} (f : Z -> A -> option A) (lo : Z) (n : nat) (a : A) : option A :=
  match n with
  | O => Some a
  | S n' => match f lo a with Some a' => for_range f (lo + 1) n' a' | None => None end
  end.

(** [(0..n).all(f)] over a test that may panic, stopping at the first failure. *)
Fixpoint all_range (f : Z -> option bool) (lo : Z) (n : nat) : option bool :=
  match n with
  | O => Some true
  | S n' => match f lo with
            | Some true => all_range f (lo + 1) n'
            | other => other
            end
  end.

Definition read_byte (buf : list Z) (i : Z) : option Z :=
  if i <? 0 then None else buf !! Z.to_nat i.

Definition write_byte (buf : list Z) (i b : Z) : option (list Z) :=
  if (0 <=? i) && (i <? Z.of_nat (length buf)) then Some (<[Z.to_nat i := b]> buf) else None.

(** [buffer[i] |= b]. *)
Definition or_byte (buf : list Z) (i b : Z) : option (list Z) :=
  match read_byte buf i with
  | Some x => write_byte buf i (Z.lor x b)
  | None => None
  end.

(** [&buf[start..start + n]]. *)
Definition slice (buf : list Z) (start n : Z) : option (list Z) :=
  if (0 <=? start) && (0 <=? n) && (start + n <=? Z.of_nat (length buf))
  then Some (take (Z.to_nat n) (drop (Z.to_nat start) buf)) else None.

(** [buf[start..start + n].copy_from_slice(src)], [src] of length [n]. *)
Definition copy_into (buf : list Z) (start : Z) (src : list Z) : option (list Z) :=
  let n := Z.of_nat (length src) in
  if (0 <=? start) && (start + n <=? Z.of_nat (length buf))
  then Some (take (Z.to_nat start) buf ++ src ++ drop (Z.to_nat (start + n)) buf) else None.

Definition div_ceil8 (n : Z) : Z := (n + 7) / 8.
Definition zeros (n : Z) : list Z := replicate (Z.to_nat n) 0.

Section Packing.
Context (overflow_checks : bool).

(** The effective count of a shift of a [w]-bit integer. *)
Definition shift_amount (w shift : Z) : option Z :=
  if shift <? w then Some shift else if overflow_checks then None else Some (shift mod w).

Definition shr (w v shift : Z) : option Z :=
  match shift_amount w shift with Some k => Some (Z.shiftr v k) | None => None end.

Definition shl (w v shift : Z) : option Z :=
  match shift_amount w shift with Some k => Some (wrap w (Z.shiftl v k)) | None => None end.

(** ** Packing ([binary_packing.rs]) *)

Definition pack_bits_into (buffer : list Z) (value width start_bit : Z) : option (list Z) :=
  for_range (fun i buf =>
    match shr 64 value (width - 1 - i) with
    | None => None
    | Some v =>
        let bit := Z.land v 1 in
        if bit =? 0 then Some buf
        else
          let bit_pos := start_bit + i in
          or_byte buf (bit_pos / 8) (Z.shiftl 1 (7 - bit_pos mod 8))
    end) 0 (Z.to_nat width) buffer.

(** The shift of byte [i] of [num_bytes], counted in [u32]. *)
Definition byte_shift (endian : BinaryEndian) (num_bytes i : Z) : Z :=
  match endian with
  | Little => wrap 32 i * 8
  | Big => wrap 32 (num_bytes - 1 - i) * 8
  end.

Definition pack_integer_segment (buffer : list Z) (value width : Z) (endian : BinaryEndian) (start_bit : Z)
    : option (list Z) :=
  if width =? 0 then Some buffer
  else if (start_bit mod 8 =? 0) && (width mod 8 =? 0) then
    let num_bytes := width / 8 in
    let start_byte := start_bit / 8 in
    for_range (fun i buf =>
      match shr 64 value (byte_shift endian num_bytes i) with
      | None => None
      | Some v => write_byte buf (start_byte + i) (wrap 8 v)
      end) 0 (Z.to_nat num_bytes) buffer
  else pack_bits_into buffer value width start_bit.

(** ** Extraction ([binary_ops.rs]) *)

(** Bit [pos] of a payload as [0] or [1]. *)
Definition read_bit (bytes : list Z) (pos : Z) : option Z :=
  match read_byte bytes (pos / 8) with
  | Some b => Some (Z.land (Z.shiftr b (7 - pos mod 8)) 1)
  | None => None
  end.

Definition extract_integer_segment (bytes : list Z) (width : Z) (endian : BinaryEndian) (start_bit : Z)
    : option Z :=
  if width =? 0 then Some 0
  else if (start_bit mod 8 =? 0) && (width mod 8 =? 0) then
    let num_bytes := width / 8 in
    let start_byte := start_bit / 8 in
    match slice bytes start_byte num_bytes with
    | None => None
    | Some window =>
        for_range (fun i value =>
          match read_byte window i with
          | None => None
          | Some byte =>
              match shl 64 byte (byte_shift endian num_bytes i) with
              | Some b => Some (Z.lor value b)
              | None => None
              end
          end) 0 (Z.to_nat num_bytes) 0
    end
  else
    for_range (fun i value =>
      match read_bit bytes (start_bit + i) with
      | Some bit => Some (Z.lor (wrap 64 (Z.shiftl value 1)) bit)
      | None => None
      end) 0 (Z.to_nat width) 0.

Definition width_mask (width : Z) : Z := if 64 <=? width then 2 ^ 64 - 1 else Z.shiftl 1 width - 1.

Definition sign_interpret (value width : Z) (sign : BinarySign) : Z :=
  match sign with
  | Unsigned => as_i64 value
  | Signed =>
      if (width =? 0) || (64 <=? width) then as_i64 value
      else
        let sign_bit := Z.shiftl 1 (width - 1) in
        if negb (Z.land value sign_bit =? 0) then as_i64 (Z.lor value (2 ^ 64 - 1 - width_mask width))
        else as_i64 value
  end.

(** The byte of a literal at a distance from its low end, sign filled past 128 bits. *)
Definition value_byte (value significance : Z) : Z :=
  if 16 <=? significance then (if value <? 0 then 255 else 0)
  else wrap 8 (Z.shiftr value (significance * 8)).

Definition literal_segment_matches (bytes : list Z) (width : Z) (endian : BinaryEndian)
    (start_bit value : Z) : option bool :=
  if width <=? 64 then
    match extract_integer_segment bytes width endian start_bit with
    | Some extracted => Some (extracted =? Z.land (as_u64 value) (width_mask width))
    | None => None
    end
  else if (start_bit mod 8 =? 0) && (width mod 8 =? 0) then
    let num_bytes := width / 8 in
    let start_byte := start_bit / 8 in
    all_range (fun i =>
      let significance := match endian with Little => i | Big => num_bytes - 1 - i end in
      match read_byte bytes (start_byte + i) with
      | Some b => Some (b =? value_byte value significance)
      | None => None
      end) 0 (Z.to_nat num_bytes)
  else
    all_range (fun i =>
      match read_bit bytes (start_bit + i) with
      | Some actual =>
          let significance := width - 1 - i in
          let expected := Z.land (Z.shiftr (value_byte value (significance / 8)) (significance mod 8)) 1 in
          Some (actual =? expected)
      | None => None
      end) 0 (Z.to_nat width).

Definition extract_bit_range (bytes : list Z) (start_bit len : Z) : option (list Z) :=
  let byte_count := div_ceil8 len in
  if start_bit mod 8 =? 0 then
    match slice bytes (start_bit / 8) byte_count with
    | None => None
    | Some out =>
        if len mod 8 =? 0 then Some out
        else
          let last := Z.of_nat (length out) - 1 in
          match read_byte out last with
          | Some b => write_byte out last (Z.land b (255 - Z.shiftr 255 (len mod 8)))
          | None => None
          end
    end
  else
    for_range (fun i out =>
      match read_bit bytes (start_bit + i) with
      | None => None
      | Some bit =>
          if bit =? 0 then Some out else or_byte out (i / 8) (Z.shiftl 1 (7 - i mod 8))
      end) 0 (Z.to_nat len) (zeros byte_count).

(** ** Concatenation ([binary_ops.rs]) *)

(** The [while] loop of [append_bits] for an unaligned start; [fuel] bounds the
    number of source bytes. *)
Fixpoint append_loop (fuel : nat) (shift : Z) (src dest : list Z) (remaining src_idx dest_idx : Z)
    : option (list Z) :=
  match fuel with
  | O => if 0 <? remaining then None else Some dest
  | S fuel' =>
      if 0 <? remaining then
        match read_byte src src_idx with
        | None => None
        | Some byte =>
            match or_byte dest dest_idx (Z.shiftr byte shift) with
            | None => None
            | Some dest =>
                let next_bits := Z.min remaining 8 in
                let consumed_in_low := next_bits + shift in
                let dest' :=
                  if (8 - shift <? consumed_in_low) && (dest_idx + 1 <? Z.of_nat (length dest))
                  then or_byte dest (dest_idx + 1) (wrap 8 (Z.shiftl byte (8 - shift)))
                  else Some dest in
                match dest' with
                | None => None
                | Some dest =>
                    if 8 <? remaining
                    then append_loop fuel' shift src dest (remaining - 8) (src_idx + 1) (dest_idx + 1)
                    else append_loop fuel' shift src dest 0 src_idx dest_idx
                end
            end
        end
      else Some dest
  end.

Definition append_bits (dest : list Z) (start_bit : Z) (src : list Z) (len : Z) : option (list Z) :=
  if len =? 0 then Some dest
  else
    let shift := start_bit mod 8 in
    let dest_byte_start := start_bit / 8 in
    if shift =? 0 then
      match slice src 0 (div_ceil8 len) with
      | Some bytes => copy_into dest dest_byte_start bytes
      | None => None
      end
    else append_loop (Z.to_nat len) shift src dest len 0 dest_byte_start.

Definition concat_values (kind : ConcatKind) (left right : Value) : Outcome Value :=
  match kind with
  | KString =>
      match left, right with
      | VString l, VString r => value_string (l ++ r)
      | _, _ => Err TypeMismatch
      end
  | KBinary =>
      match left, right with
      | VBinary l, VBinary r => Ok (VBinary (l ++ r))
      | _, _ => Err TypeMismatch
      end
  | KBits =>
      match left, right with
      | VBits lb ll, VBits rb rl =>
          let total := ll + rl in
          let* out := orCrash (copy_into (zeros (div_ceil8 total)) 0 lb) in
          let* out := orCrash (append_bits out ll rb rl) in
          Ok (VBits out total)
      | _, _ => Err TypeMismatch
      end
  end.

(** ** Construction ([binary_ops.rs]) *)

(** [to_bits] of a float: sign, biased exponent, fraction. *)
Definition to_bits (w : FloatWidth) (x : spec_float) : Z :=
  let p := prec w in
  let total := match w with F32 => 32 | F64 => 64 end in
  let sgn (s : bool) := if s then 2 ^ (total - 1) else 0 in
  match x with
  | S754_zero s => sgn s
  | S754_infinity s => sgn s + (2 * emax w - 1) * 2 ^ (p - 1)
  | S754_nan => (2 * emax w - 1) * 2 ^ (p - 1) + 2 ^ (p - 2)
  | S754_finite s m e =>
      if Z.pos m <? 2 ^ (p - 1) then sgn s + Z.pos m
      else sgn s + (e + p - 1 + emax w - 1) * 2 ^ (p - 1) + (Z.pos m - 2 ^ (p - 1))
  end.

(** [as] between the float widths: rounding to nearest, ties to even. *)
Definition float_cast (to : FloatWidth) (x : spec_float) : spec_float :=
  match x with
  | S754_finite s m e => binary_normalize (prec to) (emax to) (if s then Z.neg m else Z.pos m) e s
  | _ => x
  end.

Definition float_segment_bits (width : Z) (v : Value) : Outcome Z :=
  if width =? 32 then
    match v with
    | VFloat32 x => Ok (to_bits F32 x)
    | VFloat64 x => Ok (to_bits F32 (float_cast F32 x))
    | _ => Crash
    end
  else if width =? 64 then
    match v with
    | VFloat64 x => Ok (to_bits F64 x)
    | VFloat32 x => Ok (to_bits F64 (float_cast F64 x))
    | _ => Crash
    end
  else Crash.

(** One segment of [construct_binary_literal]. *)
Definition construct_segment (frame : Frame) (buffer : list Z) (segment : LoweredBinarySegment)
    : Outcome (list Z) :=
  match segment with
  | SInteger value width _ endian bit_offset =>
      let* resolved := lookup_value (values frame) value in
      match resolved with
      | VInt n => orCrash (pack_integer_segment buffer (as_u64 n) width endian bit_offset)
      | _ => Err TypeMismatch
      end
  | SFloat value width endian bit_offset =>
      let* resolved := lookup_value (values frame) value in
      let* bits := float_segment_bits width resolved in
      orCrash (pack_integer_segment buffer bits width endian bit_offset)
  | SString value byte_length bit_offset =>
      let* resolved := lookup_value (values frame) value in
      match resolved with
      | VString bytes =>
          let* payload := orCrash (slice bytes 0 byte_length) in
          orCrash (copy_into buffer (bit_offset / 8) payload)
      | _ => Err TypeMismatch
      end
  end.

Fixpoint construct_segments (frame : Frame) (buffer : list Z) (segments : list LoweredBinarySegment)
    : Outcome (list Z) :=
  match segments with
  | [] => Ok buffer
  | segment :: rest =>
      let* buffer := construct_segment frame buffer segment in
      construct_segments frame buffer rest
  end.

Definition construct_binary_literal (layout : ResolvedBinaryLayout) (segments : list LoweredBinarySegment)
    (frame : Frame) : Outcome Value :=
  let* buffer := construct_segments frame (zeros (div_ceil8 (total_bits layout))) segments in
  if byte_aligned layout then Ok (VBinary buffer) else Ok (VBits buffer (total_bits layout)).

(** ** Matching ([binary_ops.rs]) *)

(** One segment of [execute_binary_match]: [false] stops the match. *)
Definition match_segment (bytes : list Z) (bit_length : Z) (segment : LoweredBinaryPattern) (frame : Frame)
    : Outcome (bool * Frame) :=
  match segment with
  | LiteralInt bit_offset endian _ value width =>
      let* b := orCrash (literal_segment_matches bytes width endian bit_offset value) in
      Ok (b, frame)
  | LiteralBytes bit_offset expected =>
      let* window := orCrash (slice bytes (bit_offset / 8) (Z.of_nat (length expected))) in
      Ok (bool_decide (window = expected), frame)
  | BindInt bit_offset endian local sign _ width =>
      let* extracted := orCrash (extract_integer_segment bytes width endian bit_offset) in
      Ok (true, set_local frame local (VInt (sign_interpret extracted width sign)))
  | Discard _ _ => Ok (true, frame)
  | GreedyTail bit_offset None _ => Ok (true, frame)
  | GreedyTail bit_offset (Some local) ty =>
      let* tail :=
        match ty with
        | TBinary =>
            let* rest := orCrash (slice bytes (bit_offset / 8)
                                    (Z.of_nat (length bytes) - bit_offset / 8)) in
            Ok (VBinary rest)
        | TBits =>
            if bit_length <? bit_offset then Crash
            else
              let* out := orCrash (extract_bit_range bytes bit_offset (bit_length - bit_offset)) in
              Ok (VBits out (bit_length - bit_offset))
        | _ => Crash
        end in
      Ok (true, set_local frame local tail)
  end.

Fixpoint match_segments (bytes : list Z) (bit_length : Z) (segments : list LoweredBinaryPattern)
    (frame : Frame) : Outcome (bool * Frame) :=
  match segments with
  | [] => Ok (true, frame)
  | segment :: rest =>
      let* (ok, frame) := match_segment bytes bit_length segment frame in
      if ok : bool then match_segments bytes bit_length rest frame else Ok (false, frame)
  end.

(** The payload and bit length of a subject. *)
Definition subject_payload (subject : Value) : option (list Z * Z) :=
  match subject with
  | VBinary b | VString b => Some (b, Z.of_nat (length b) * 8)
  | VBits b n => Some (b, n)
  | _ => None
  end.

Definition execute_binary_match (layout : LoweredBinaryMatchLayout) (segments : list LoweredBinaryPattern)
    (subject : Value) (frame : Frame) : Outcome (bool * Frame) :=
  match subject_payload subject with
  | None => Err TypeMismatch
  | Some (bytes, bit_length) =>
      let length_ok :=
        if has_greedy_tail layout then fixed_bits layout <=? bit_length
        else bit_length =? fixed_bits layout in
      if negb length_ok then Ok (false, frame) else match_segments bytes bit_length segments frame
  end.

(** [extend_unique_bytes]: [unique] says whether the left storage has one holder. *)
Definition extend_unique_bytes (unique : bool) (left right : Value) : Value + Value :=
  match left, right with
  | VBinary l, VBinary r => if unique then inl (VBinary (l ++ r)) else inr left
  | VString l, VString r => if unique then inl (VString (l ++ r)) else inr left
  | _, _ => inr left
  end.
End Packing.

(** ** Loops *)

Lemma for_range_inv {A} (P : Z -> A -> Prop) (f : Z -> A -> option A) n lo a :
  P lo a ->
  (forall i x, lo <= i < lo + Z.of_nat n -> P i x -> exists x', f i x = Some x' /\ P (i + 1) x') ->
  exists a', for_range f lo n a = Some a' /\ P (lo + Z.of_nat n) a'.
Proof.
  revert lo a. induction n as [|n IH]; intros lo a Ha Hstep; cbn [for_range].
  - exists a. split; [done|]. by rewrite Z.add_0_r.
  - destruct (Hstep lo a) as (x & -> & Hx); [lia|done|].
    destruct (IH (lo + 1) x Hx) as (a' & -> & Ha').
    { intros i y Hi. apply Hstep. lia. }
    exists a'. split; [done|]. by replace (lo + Z.of_nat (S n)) with (lo + 1 + Z.of_nat n) by lia.
Qed.

(** Reason about the loop of the goal with an invariant. *)
Ltac loop_inv P :=
  match goal with
  | |- context [for_range ?f ?lo ?n ?a] =>
      let H := fresh "Hloop" in
      assert (exists a', for_range f lo n a = Some a' /\ P (lo + Z.of_nat n) a') as H;
      [apply (for_range_inv P f n lo a); cbv beta|cbv beta in H]
  end.

Lemma all_range_spec (f : Z -> option bool) (P : Z -> Prop) n lo :
  (forall i, lo <= i < lo + Z.of_nat n -> exists b, f i = Some b /\ (b = true <-> P i)) ->
  exists b, all_range f lo n = Some b /\ (b = true <-> forall i, lo <= i < lo + Z.of_nat n -> P i).
Proof.
  revert lo. induction n as [|n IH]; intros lo Hf; cbn [all_range].
  - exists true. split; [done|]. split; [|done]. intros _ i Hi. lia.
  - destruct (Hf lo) as (b & -> & Hb); [lia|]. destruct b.
    + destruct (IH (lo + 1)) as (b' & -> & Hb'); [intros i Hi; apply Hf; lia|].
      exists b'. split; [done|]. rewrite Hb'. split; intros H i Hi.
      * destruct (Z.eq_dec i lo) as [->|]; [by apply Hb|]. apply H. lia.
      * apply H. lia.
    + exists false. split; [done|]. split; [done|]. intros H. apply Hb, H. lia.
Qed.

(** ** Bits of byte strings *)

Lemma byte_pos p : 0 <= p -> p = 8 * (p / 8) + p mod 8 /\ 0 <= p mod 8 < 8 /\ 0 <= p / 8.
Proof.
  intros Hp. split_and!.
  - apply Z.div_mod. lia.
  - apply Z.mod_pos_bound. lia.
  - apply Z.mod_pos_bound. lia.
  - apply Z.div_pos; lia.
Qed.

Lemma byte_of_pos q r : 0 <= r < 8 -> (8 * q + r) / 8 = q /\ (8 * q + r) mod 8 = r.
Proof.
  intros Hr. split.
  - symmetry. apply (Z.div_unique _ _ _ r); lia.
  - symmetry. apply (Z.mod_unique _ _ q); lia.
Qed.

Lemma byte_ok_testbit b n : byte_ok b -> 8 <= n -> Z.testbit b n = false.
Proof.
  intros Hb Hn. destruct (Z.eq_dec b 0) as [->|]; [apply Z.bits_0|].
  apply Z.bits_above_log2; [unfold byte_ok in Hb; lia|].
  apply Z.lt_le_trans with 8; [|done]. apply Z.log2_lt_pow2; unfold byte_ok in Hb; lia.
Qed.

Lemma testbit_byte_ok b : 0 <= b -> (forall n, 8 <= n -> Z.testbit b n = false) -> byte_ok b.
Proof.
  intros Hb H. split; [done|]. destruct (Z.lt_ge_cases b 256) as [|Hge]; [done|]. exfalso.
  assert (0 < b) as Hpos by lia. pose proof (Z.bit_log2 b Hpos) as Hlog. rewrite H in Hlog; [done|].
  change 8 with (Z.log2 256). by apply Z.log2_le_mono.
Qed.

Lemma byte_ok_wrap z : byte_ok (wrap 8 z).
Proof. exact (wrap_range 8 z ltac:(lia)). Qed.

Lemma byte_ok_lor a b : byte_ok a -> byte_ok b -> byte_ok (Z.lor a b).
Proof.
  intros Ha Hb. apply testbit_byte_ok.
  - apply Z.lor_nonneg. unfold byte_ok in *. lia.
  - intros n Hn. by rewrite Z.lor_spec, !byte_ok_testbit.
Qed.

Lemma byte_ok_shiftr a k : 0 <= k -> byte_ok a -> byte_ok (Z.shiftr a k).
Proof.
  intros Hk Ha. apply testbit_byte_ok; [apply Z.shiftr_nonneg; unfold byte_ok in Ha; lia|].
  intros n Hn. rewrite Z.shiftr_spec by lia. apply byte_ok_testbit; [done|lia].
Qed.

Lemma byte_ok_bit k : 0 <= k < 8 -> byte_ok (Z.shiftl 1 k).
Proof.
  intros Hk. rewrite Z.shiftl_1_l. split; [apply Z.pow_nonneg; lia|].
  change 256 with (2 ^ 8). apply Z.pow_lt_mono_r; lia.
Qed.

Lemma read_byte_lookup buf i : 0 <= i -> read_byte buf i = buf !! Z.to_nat i.
Proof. intros Hi. unfold read_byte. destruct (Z.ltb_spec i 0); [lia|done]. Qed.

Lemma read_byte_Some buf i : 0 <= i < Z.of_nat (length buf) -> exists b, read_byte buf i = Some b /\ buf !! Z.to_nat i = Some b.
Proof.
  intros Hi. rewrite read_byte_lookup by lia.
  destruct (lookup_lt_is_Some_2 buf (Z.to_nat i)) as [b Hb]; [lia|]. eauto.
Qed.

Lemma bit_at_byte buf p b : buf !! Z.to_nat (p / 8) = Some b -> bit_at buf p = Z.testbit b (7 - p mod 8).
Proof. intros Hb. unfold bit_at. by rewrite Hb. Qed.

Lemma land_1_bit v k : 0 <= k -> Z.land (Z.shiftr v k) 1 = Z.b2z (Z.testbit v k).
Proof.
  intros Hk. change 1 with (Z.ones 1). rewrite Z.land_ones by lia.
  change (2 ^ 1) with 2. rewrite <- Z.bit0_mod, Z.shiftr_spec by lia. f_equal.
Qed.

Lemma read_bit_spec bytes p : 0 <= p < 8 * Z.of_nat (length bytes) -> read_bit bytes p = Some (Z.b2z (bit_at bytes p)).
Proof.
  intros Hp. destruct (byte_pos p ltac:(lia)) as (Hp1 & Hp2 & Hp3). unfold read_bit.
  destruct (read_byte_Some bytes (p / 8)) as (b & -> & Hb); [lia|].
  rewrite (bit_at_byte _ _ b Hb), land_1_bit by lia. done.
Qed.

(** The effect of storing a byte on the bits. *)
Lemma bit_at_insert buf i b p : 0 <= p -> 0 <= i < Z.of_nat (length buf) ->
  bit_at (<[Z.to_nat i := b]> buf) p = if p / 8 =? i then Z.testbit b (7 - p mod 8) else bit_at buf p.
Proof.
  intros Hp Hi. pose proof (byte_pos p Hp) as (_ & _ & Hq). unfold bit_at. destruct (Z.eqb_spec (p / 8) i) as [->|Hne].
  - rewrite list_lookup_insert_eq by lia. done.
  - rewrite list_lookup_insert_ne by lia. done.
Qed.

Lemma write_byte_spec buf i b : 0 <= i < Z.of_nat (length buf) -> Forall byte_ok buf -> byte_ok b ->
  exists buf', write_byte buf i b = Some buf' /\ length buf' = length buf /\ Forall byte_ok buf' /\
    forall p, 0 <= p -> bit_at buf' p = if p / 8 =? i then Z.testbit b (7 - p mod 8) else bit_at buf p.
Proof.
  intros Hi Hok Hb. exists (<[Z.to_nat i := b]> buf). split_and!.
  - unfold write_byte. destruct (Z.leb_spec 0 i), (Z.ltb_spec i (Z.of_nat (length buf))); try lia. done.
  - apply length_insert.
  - by apply Forall_insert.
  - intros p Hp. by apply bit_at_insert.
Qed.

Lemma or_byte_spec buf i b : 0 <= i < Z.of_nat (length buf) -> Forall byte_ok buf -> byte_ok b ->
  exists buf', or_byte buf i b = Some buf' /\ length buf' = length buf /\ Forall byte_ok buf' /\
    forall p, 0 <= p ->
      bit_at buf' p = bit_at buf p || ((p / 8 =? i) && Z.testbit b (7 - p mod 8)).
Proof.
  intros Hi Hok Hb. unfold or_byte. destruct (read_byte_Some buf i Hi) as (x & -> & Hx).
  pose proof (Forall_lookup_1 _ _ _ _ Hok Hx) as Hxok.
  destruct (write_byte_spec buf i (Z.lor x b)) as (buf' & -> & Hl & Ho & Hbits); [done|done|by apply byte_ok_lor|].
  exists buf'. split_and!; try done. intros p Hp. rewrite Hbits by done.
  destruct (Z.eqb_spec (p / 8) i) as [<-|]; simpl; [|by rewrite orb_false_r].
  rewrite Z.lor_spec. by rewrite (bit_at_byte buf p x Hx).
Qed.

(** Setting one bit. *)
Lemma or_bit_spec buf q : 0 <= q < 8 * Z.of_nat (length buf) -> Forall byte_ok buf ->
  exists buf', or_byte buf (q / 8) (Z.shiftl 1 (7 - q mod 8)) = Some buf' /\ length buf' = length buf /\
    Forall byte_ok buf' /\ forall p, 0 <= p -> bit_at buf' p = bit_at buf p || (p =? q).
Proof.
  intros Hq Hok. destruct (byte_pos q ltac:(lia)) as (H1 & H2 & H3).
  destruct (or_byte_spec buf (q / 8) (Z.shiftl 1 (7 - q mod 8))) as (buf' & E & Hl & Ho & Hb);
    [lia|done|apply byte_ok_bit; lia|].
  exists buf'. split_and!; try done. intros p Hp. rewrite Hb by done. f_equal.
  destruct (byte_pos p Hp) as (P1 & P2 & P3). rewrite Z.shiftl_1_l, Z.pow2_bits_eqb by lia.
  destruct (Z.eqb_spec (p / 8) (q / 8)), (Z.eqb_spec (7 - q mod 8) (7 - p mod 8)), (Z.eqb_spec p q); simpl; try done; lia.
Qed.

(** Byte strings with the same bits are the same. *)
Lemma bits_ext a b : length a = length b -> Forall byte_ok a -> Forall byte_ok b ->
  (forall p, 0 <= p -> bit_at a p = bit_at b p) -> a = b.
Proof.
  intros Hl Ha Hb Hbits. apply list_eq. intros i. destruct (decide (i < length a)%nat) as [Hi|Hi].
  - destruct (lookup_lt_is_Some_2 a i Hi) as [x Hx]. destruct (lookup_lt_is_Some_2 b i ltac:(lia)) as [y Hy].
    rewrite Hx, Hy. f_equal. apply Z.bits_inj'. intros n Hn.
    pose proof (Forall_lookup_1 _ _ _ _ Ha Hx). pose proof (Forall_lookup_1 _ _ _ _ Hb Hy).
    destruct (Z.lt_ge_cases n 8); [|by rewrite !byte_ok_testbit].
    destruct (byte_of_pos (Z.of_nat i) (7 - n)) as [E1 E2]; [lia|].
    specialize (Hbits (8 * Z.of_nat i + (7 - n)) ltac:(lia)).
    rewrite (bit_at_byte a _ x), (bit_at_byte b _ y) in Hbits by (rewrite E1, Nat2Z.id; done).
    rewrite E2 in Hbits. by replace (7 - (7 - n)) with n in Hbits by lia.
  - by rewrite !lookup_ge_None_2 by lia.
Qed.

Lemma bit_at_beyond buf p : 8 * Z.of_nat (length buf) <= p -> bit_at buf p = false.
Proof.
  intros Hp. unfold bit_at. rewrite lookup_ge_None_2; [done|].
  assert (Z.of_nat (length buf) <= p / 8) by (apply Z.div_le_lower_bound; lia). lia.
Qed.

Lemma zeros_length n : 0 <= n -> Z.of_nat (length (zeros n)) = n.
Proof. intros. unfold zeros. rewrite length_replicate. lia. Qed.

Lemma zeros_ok n : Forall byte_ok (zeros n).
Proof. apply Forall_replicate. split; lia. Qed.

Lemma bit_at_zeros n p : bit_at (zeros n) p = false.
Proof.
  unfold bit_at, zeros. destruct (_ !! _) eqn:E; [|done].
  apply lookup_replicate in E as [-> _]. apply Z.bits_0.
Qed.

Lemma div_ceil8_bound n : 0 <= n -> n <= 8 * div_ceil8 n < n + 8 /\ 0 <= div_ceil8 n.
Proof.
  intros Hn. unfold div_ceil8. pose proof (Z.div_mod (n + 7) 8 ltac:(lia)).
  pose proof (Z.mod_pos_bound (n + 7) 8 ltac:(lia)). lia.
Qed.

Lemma slice_spec buf start n : 0 <= start -> 0 <= n -> start + n <= Z.of_nat (length buf) -> Forall byte_ok buf ->
  exists s, slice buf start n = Some s /\ Z.of_nat (length s) = n /\ Forall byte_ok s /\
    forall p, 0 <= p < 8 * n -> bit_at s p = bit_at buf (8 * start + p).
Proof.
  intros Hs Hn Hl Hok. eexists. split_and!.
  - unfold slice. destruct (Z.leb_spec 0 start), (Z.leb_spec 0 n), (Z.leb_spec (start + n) (Z.of_nat (length buf)));
      try lia. done.
  - rewrite length_take, length_drop. lia.
  - by apply Forall_take, Forall_drop.
  - intros p Hp. unfold bit_at. destruct (byte_pos p ltac:(lia)) as (E & Hm & Hq).
    destruct (byte_of_pos (start + p / 8) (p mod 8) Hm) as [E1 E2].
    replace (8 * start + p) with (8 * (start + p / 8) + p mod 8) by lia. rewrite E1, E2.
    rewrite lookup_take_lt, lookup_drop by lia.
    by replace (Z.to_nat start + Z.to_nat (p / 8))%nat with (Z.to_nat (start + p / 8)) by lia.
Qed.

Lemma bit_at_app_l l r p : 0 <= p < 8 * Z.of_nat (length l) -> bit_at (l ++ r) p = bit_at l p.
Proof.
  intros Hp. destruct (byte_pos p ltac:(lia)) as (? & ? & ?). unfold bit_at. by rewrite lookup_app_l by lia.
Qed.

Lemma bit_at_app_r l r p : 8 * Z.of_nat (length l) <= p -> bit_at (l ++ r) p = bit_at r (p - 8 * Z.of_nat (length l)).
Proof.
  intros Hp. destruct (byte_pos p ltac:(lia)) as (E & Hm & ?). unfold bit_at.
  destruct (byte_of_pos (p / 8 - Z.of_nat (length l)) (p mod 8) Hm) as [E1 E2].
  replace (p - 8 * Z.of_nat (length l)) with (8 * (p / 8 - Z.of_nat (length l)) + p mod 8) by lia.
  rewrite E1, E2, lookup_app_r by lia.
  by replace (Z.to_nat (p / 8) - length l)%nat with (Z.to_nat (p / 8 - Z.of_nat (length l))) by lia.
Qed.

Lemma copy_into_spec buf start src : 0 <= start -> start + Z.of_nat (length src) <= Z.of_nat (length buf) ->
  Forall byte_ok buf -> Forall byte_ok src ->
  exists buf', copy_into buf start src = Some buf' /\ length buf' = length buf /\ Forall byte_ok buf' /\
    forall p, 0 <= p -> bit_at buf' p =
      if (8 * start <=? p) && (p <? 8 * (start + Z.of_nat (length src))) then bit_at src (p - 8 * start) else bit_at buf p.
Proof.
  intros Hs Hl Hok Hsrc. eexists. split_and!.
  - unfold copy_into. destruct (Z.leb_spec 0 start), (Z.leb_spec (start + Z.of_nat (length src)) (Z.of_nat (length buf)));
      try lia. done.
  - rewrite !length_app, length_take, length_drop. lia.
  - rewrite !Forall_app. split_and!; [by apply Forall_take|done|by apply Forall_drop].
  - intros p Hp. set (n := Z.of_nat (length src)) in *.
    assert (Z.of_nat (length (take (Z.to_nat start) buf)) = start) as Ht by (rewrite length_take; lia).
    assert (forall q, 0 <= q < 8 * start -> bit_at (take (Z.to_nat start) buf) q = bit_at buf q) as Htake.
    { intros q Hq. rewrite <- (take_drop (Z.to_nat start) buf) at 2. symmetry. apply bit_at_app_l. lia. }
    destruct (Z.leb_spec (8 * start) p); simpl.
    + rewrite bit_at_app_r by lia. rewrite Ht. destruct (Z.ltb_spec p (8 * (start + n))).
      * apply bit_at_app_l. lia.
      * rewrite bit_at_app_r by lia. rewrite <- (take_drop (Z.to_nat (start + n)) buf) at 2.
        rewrite bit_at_app_r by (rewrite length_take; lia). f_equal.
        rewrite length_take. lia.
    + rewrite bit_at_app_l by lia. by apply Htake.
Qed.

(** ** Packing and extraction on bits *)

(** The bit of a value that goes to place [k] of a segment: bytes in little-endian
    order when the segment is byte aligned and asks for it, high end first otherwise.
    The map is its own inverse. *)
Definition seg_bit (endian : BinaryEndian) (width start k : Z) : Z :=
  if (start mod 8 =? 0) && (width mod 8 =? 0) && bool_decide (endian = Little)
  then 8 * (k / 8) + (7 - k mod 8) else width - 1 - k.

Lemma seg_bit_range e w s k : 0 <= k < w -> 0 <= seg_bit e w s k < w.
Proof.
  intros Hk. unfold seg_bit. destruct (_ && _ && _) eqn:E; [|lia].
  apply andb_true_iff in E as [E _]. apply andb_true_iff in E as [_ E]. apply Z.eqb_eq in E.
  destruct (byte_pos k ltac:(lia)) as (? & ? & ?). pose proof (Z.div_mod w 8 ltac:(lia)). lia.
Qed.

Lemma seg_bit_involutive e w s k : 0 <= k < w -> seg_bit e w s (seg_bit e w s k) = k.
Proof.
  intros Hk. unfold seg_bit. destruct (_ && _ && _); [|lia].
  destruct (byte_pos k ltac:(lia)) as (? & ? & ?).
  destruct (byte_of_pos (k / 8) (7 - k mod 8)) as [-> ->]; lia.
Qed.

Lemma shift_amount_small checks w k : 0 <= k < w -> shift_amount checks w k = Some k.
Proof. intros Hk. unfold shift_amount. destruct (Z.ltb_spec k w); [done|lia]. Qed.

Lemma byte_shift_small e n i : 0 <= i < n -> n <= 8 ->
  byte_shift e n i = match e with Little => i * 8 | Big => (n - 1 - i) * 8 end.
Proof. intros Hi Hn. unfold byte_shift. destruct e; rewrite wrap_small by lia; done. Qed.

Lemma aligned_width w s : (s mod 8 =? 0) && (w mod 8 =? 0) = true -> s = 8 * (s / 8) /\ w = 8 * (w / 8).
Proof.
  intros E. apply andb_true_iff in E as [E1 E2]. apply Z.eqb_eq in E1, E2.
  pose proof (Z.div_mod s 8 ltac:(lia)). pose proof (Z.div_mod w 8 ltac:(lia)). lia.
Qed.

(** What packing a segment does to a buffer whose bits there are still zero. *)
Definition packed (buf buf' : list Z) (v w : Z) (e : BinaryEndian) (s : Z) : Prop :=
  length buf' = length buf /\ Forall byte_ok buf' /\
  forall p, 0 <= p -> bit_at buf' p =
    if (s <=? p) && (p <? s + w) then Z.testbit v (seg_bit e w s (p - s)) else bit_at buf p.

Lemma pack_aligned_spec checks buf v w e s :
  0 < w <= 64 -> 0 <= s -> (s mod 8 =? 0) && (w mod 8 =? 0) = true ->
  s + w <= 8 * Z.of_nat (length buf) -> Forall byte_ok buf ->
  exists buf', pack_integer_segment checks buf v w e s = Some buf' /\ packed buf buf' v w e s.
Proof.
  intros Hw Hs Hal Hfit Hok. unfold pack_integer_segment.
  destruct (Z.eqb_spec w 0) as [|_]; [lia|]. rewrite Hal. destruct (aligned_width w s Hal) as [Es Ew].
  set (q := s / 8) in *. set (n := w / 8) in *.
  loop_inv (fun i b => length b = length buf /\ Forall byte_ok b /\
      forall p, 0 <= p -> bit_at b p =
        if (s <=? p) && (p <? s + 8 * i) then Z.testbit v (seg_bit e w s (p - s)) else bit_at buf p).
  - split_and!; try done. intros p Hp. destruct (Z.leb_spec s p), (Z.ltb_spec p (s + 8 * 0)); try lia; done.
  - intros i b Hi (Hl & Ho & Hb). rewrite byte_shift_small by lia. unfold shr.
    rewrite shift_amount_small by (destruct e; lia).
    set (k := match e with Little => i * 8 | Big => (n - 1 - i) * 8 end).
    destruct (write_byte_spec b (q + i) (wrap 8 (Z.shiftr v k))) as (b' & -> & Hl' & Ho' & Hb');
      [rewrite Hl; lia|done|apply byte_ok_wrap|].
    exists b'. split; [done|]. split_and!; [congruence|done|]. intros p Hp. rewrite Hb' by done.
    destruct (byte_pos p Hp) as (P1 & P2 & P3).
    destruct (Z.eqb_spec (p / 8) (q + i)) as [Eq|Ne].
    + destruct (Z.leb_spec s p), (Z.ltb_spec p (s + 8 * (i + 1))); try lia. simpl.
      unfold wrap. rewrite Z.mod_pow2_bits_low, Z.shiftr_spec by lia. f_equal.
      unfold seg_bit. rewrite Hal. simpl.
      destruct (byte_of_pos i (p mod 8) P2) as [E1 E2].
      replace (p - s) with (8 * i + p mod 8) by lia. unfold k. destruct e; simpl; rewrite ?E1, ?E2; lia.
    + rewrite Hb by done.
      destruct (Z.leb_spec s p), (Z.ltb_spec p (s + 8 * i)), (Z.ltb_spec p (s + 8 * (i + 1))); try done; lia.
  - destruct Hloop as (buf' & -> & Hl & Ho & Hb). exists buf'. split; [done|]. split_and!; try done. intros p Hp. rewrite Hb by done.
    by replace (s + 8 * (0 + Z.of_nat (Z.to_nat n))) with (s + w) by lia.
Qed.

Lemma pack_bits_spec checks buf v w s :
  0 < w <= 64 -> 0 <= s -> s + w <= 8 * Z.of_nat (length buf) -> Forall byte_ok buf ->
  (forall p, s <= p < s + w -> bit_at buf p = false) ->
  exists buf', pack_bits_into checks buf v w s = Some buf' /\ length buf' = length buf /\ Forall byte_ok buf' /\
    forall p, 0 <= p -> bit_at buf' p =
      if (s <=? p) && (p <? s + w) then Z.testbit v (w - 1 - (p - s)) else bit_at buf p.
Proof.
  intros Hw Hs Hfit Hok Hz. unfold pack_bits_into.
  loop_inv (fun i b => length b = length buf /\ Forall byte_ok b /\
      forall p, 0 <= p -> bit_at b p =
        if (s <=? p) && (p <? s + i) then Z.testbit v (w - 1 - (p - s)) else bit_at buf p).
  - split_and!; try done. intros p Hp. destruct (Z.leb_spec s p), (Z.ltb_spec p (s + 0)); try lia; done.
  - intros i b Hi (Hl & Ho & Hb). unfold shr. rewrite shift_amount_small by lia. cbv zeta.
    rewrite land_1_bit by lia.
    assert (forall b', (forall p, 0 <= p -> bit_at b' p = bit_at b p || ((p =? s + i) && Z.testbit v (w - 1 - i))) ->
      forall p, 0 <= p -> bit_at b' p =
        if (s <=? p) && (p <? s + (i + 1)) then Z.testbit v (w - 1 - (p - s)) else bit_at buf p) as Hgoal.
    { intros b' Hb' p Hp. rewrite Hb', Hb by done.
      destruct (Z.eqb_spec p (s + i)) as [->|Hne].
      - destruct (Z.leb_spec s (s + i)), (Z.ltb_spec (s + i) (s + i)), (Z.ltb_spec (s + i) (s + (i + 1))); try lia.
        simpl. rewrite Hz by lia. by replace (w - 1 - (s + i - s)) with (w - 1 - i) by lia.
      - rewrite orb_false_r.
        destruct (Z.leb_spec s p), (Z.ltb_spec p (s + i)), (Z.ltb_spec p (s + (i + 1))); try done; lia. }
    destruct (Z.testbit v (w - 1 - i)) eqn:Ebit; simpl.
    + destruct (or_bit_spec b (s + i)) as (b' & -> & Hl' & Ho' & Hb'); [rewrite Hl; lia|done|].
      exists b'. split; [done|]. split_and!; [congruence|done|]. apply Hgoal. intros p Hp.
      by rewrite Hb', andb_true_r.
    + exists b. split; [done|]. split_and!; try done. apply Hgoal. intros p Hp. by rewrite andb_false_r, orb_false_r.
  - destruct Hloop as (buf' & -> & Hl & Ho & Hb). exists buf'. split; [done|]. split_and!; try done. intros p Hp. rewrite Hb by done.
    by replace (s + (0 + Z.of_nat (Z.to_nat w))) with (s + w) by lia.
Qed.

Lemma pack_spec checks buf v w e s :
  0 <= w <= 64 -> 0 <= s -> s + w <= 8 * Z.of_nat (length buf) -> Forall byte_ok buf ->
  (forall p, s <= p < s + w -> bit_at buf p = false) ->
  exists buf', pack_integer_segment checks buf v w e s = Some buf' /\ packed buf buf' v w e s.
Proof.
  intros Hw Hs Hfit Hok Hz. destruct (Z.eqb_spec w 0) as [->|Hne].
  { exists buf. split; [done|]. split_and!; try done. intros p Hp.
    destruct (Z.leb_spec s p), (Z.ltb_spec p (s + 0)); try lia; done. }
  destruct ((s mod 8 =? 0) && (w mod 8 =? 0)) eqn:Hal; [by apply pack_aligned_spec; [lia|..]|].
  unfold pack_integer_segment. rewrite (proj2 (Z.eqb_neq _ _) Hne), Hal.
  destruct (pack_bits_spec checks buf v w s) as (buf' & -> & Hl & Ho & Hb); [lia|done..|].
  exists buf'. split; [done|]. split_and!; try done. intros p Hp. rewrite Hb by done.
  unfold seg_bit. by rewrite Hal.
Qed.

(** What extraction reads. *)
Lemma extract_aligned_spec checks bytes w e s :
  0 < w <= 64 -> 0 <= s -> (s mod 8 =? 0) && (w mod 8 =? 0) = true ->
  s + w <= 8 * Z.of_nat (length bytes) -> Forall byte_ok bytes ->
  exists v, extract_integer_segment checks bytes w e s = Some v /\ 0 <= v /\
    forall n, 0 <= n -> Z.testbit v n = (n <? w) && bit_at bytes (s + seg_bit e w s n).
Proof.
  intros Hw Hs Hal Hfit Hok. unfold extract_integer_segment.
  destruct (Z.eqb_spec w 0) as [|_]; [lia|]. rewrite Hal. destruct (aligned_width w s Hal) as [Es Ew].
  set (q := s / 8) in *. set (num := w / 8) in *.
  destruct (slice_spec bytes q num) as (win & -> & Hwl & Hwo & Hwb); [lia..|done|].
  set (place := fun n => match e with Little => n / 8 | Big => num - 1 - n / 8 end).
  assert (forall n, 0 <= n < w -> 0 <= place n < num /\ s + seg_bit e w s n = s + 8 * place n + (7 - n mod 8)) as Hplace.
  { intros n Hn. destruct (byte_pos n ltac:(lia)) as (N1 & N2 & N3). unfold place, seg_bit. rewrite Hal.
    destruct e; simpl; lia. }
  loop_inv (fun i v => 0 <= v /\ forall n, 0 <= n -> Z.testbit v n =
      (n <? w) && (place n <? i) && bit_at bytes (s + seg_bit e w s n)).
  - split; [done|]. intros n Hn. rewrite Z.bits_0. destruct (Z.ltb_spec n w) as [Hlt|]; simpl; [|done].
    destruct (Hplace n) as [Hp _]; [lia|]. destruct (Z.ltb_spec (place n) 0); [lia|done].
  - intros i v Hi [Hv0 Hv]. destruct (read_byte_Some win i) as (b & -> & Hb); [lia|].
    rewrite byte_shift_small by lia. unfold shl. rewrite shift_amount_small by (destruct e; lia).
    set (k := match e with Little => i * 8 | Big => (num - 1 - i) * 8 end).
    assert (0 <= k /\ k + 8 <= w) as [Hk0 Hk] by (unfold k; destruct e; lia).
    pose proof (Forall_lookup_1 _ _ _ _ Hwo Hb) as Hbok.
    eexists. split; [done|]. split.
    { apply Z.lor_nonneg. split; [done|]. apply (wrap_range 64). lia. }
    intros n Hn. rewrite Z.lor_spec, Hv by done.
    assert (Z.testbit (wrap 64 (Z.shiftl b k)) n = (k <=? n) && (n <? k + 8) && Z.testbit b (n - k)) as ->.
    { unfold wrap. destruct (Z.ltb_spec n 64).
      - rewrite Z.mod_pow2_bits_low by lia. destruct (Z.leb_spec k n); simpl.
        + rewrite Z.shiftl_spec by lia. destruct (Z.ltb_spec n (k + 8)); simpl; [done|].
          apply byte_ok_testbit; [done|lia].
        + by rewrite Z.shiftl_spec_low by lia.
      - rewrite Z.mod_pow2_bits_high by lia. destruct (Z.ltb_spec n (k + 8)); [lia|]. by rewrite andb_false_r. }
    destruct (Z.ltb_spec n w) as [Hlt|Hge]; simpl.
    2:{ destruct (Z.ltb_spec n (k + 8)); [lia|]. by rewrite andb_false_r. }
    destruct (Hplace n) as [Hp Ep]; [lia|]. destruct (byte_pos n ltac:(lia)) as (N1 & N2 & N3).
    assert ((k <=? n) && (n <? k + 8) = (place n =? i)) as ->.
    { unfold place, k. destruct e;
        destruct (Z.leb_spec (i * 8) n) || destruct (Z.leb_spec ((num - 1 - i) * 8) n);
        destruct (Z.ltb_spec n (i * 8 + 8)) || destruct (Z.ltb_spec n ((num - 1 - i) * 8 + 8));
        destruct (Z.eqb_spec (n / 8) i) || destruct (Z.eqb_spec (num - 1 - n / 8) i); simpl; try done; lia. }
    destruct (Z.eqb_spec (place n) i) as [Epl|Npl]; simpl.
    + destruct (Z.ltb_spec (place n) i), (Z.ltb_spec (place n) (i + 1)); try lia. simpl.
      rewrite Ep, Epl. assert (n - k = n mod 8) as -> by (unfold place in Epl; unfold k; destruct e; lia).
      rewrite <- Z.add_assoc, Es, <- Hwb by lia.
      destruct (byte_of_pos i (7 - n mod 8)) as [E1 E2]; [lia|].
      rewrite (bit_at_byte win _ b) by (by rewrite E1). rewrite E2. f_equal. lia.
    + rewrite orb_false_r. destruct (Z.ltb_spec (place n) i), (Z.ltb_spec (place n) (i + 1)); try done; lia.
  - destruct Hloop as (v & -> & Hv0 & Hv). exists v. split; [done|]. split; [done|]. intros n Hn. rewrite Hv by done.
    destruct (Z.ltb_spec n w) as [Hlt|]; simpl; [|done]. destruct (Hplace n) as [Hp _]; [lia|].
    destruct (Z.ltb_spec (place n) (0 + Z.of_nat (Z.to_nat num))); [done|lia].
Qed.

Lemma extract_spec checks bytes w e s :
  0 <= w <= 64 -> 0 <= s -> s + w <= 8 * Z.of_nat (length bytes) -> Forall byte_ok bytes ->
  exists v, extract_integer_segment checks bytes w e s = Some v /\ 0 <= v /\
    forall n, 0 <= n -> Z.testbit v n = (n <? w) && bit_at bytes (s + seg_bit e w s n).
Proof.
  intros Hw Hs Hfit Hok. destruct (Z.eqb_spec w 0) as [->|Hne].
  { exists 0. split; [done|]. split; [done|]. intros n Hn. rewrite Z.bits_0. destruct (Z.ltb_spec n 0); [lia|done]. }
  destruct ((s mod 8 =? 0) && (w mod 8 =? 0)) eqn:Hal; [by apply extract_aligned_spec; [lia|..]|].
  unfold extract_integer_segment. rewrite (proj2 (Z.eqb_neq _ _) Hne), Hal.
  loop_inv (fun i v => 0 <= v /\ forall n, 0 <= n -> Z.testbit v n = (n <? i) && bit_at bytes (s + (i - 1 - n))).
  - split; [done|]. intros n Hn. rewrite Z.bits_0. destruct (Z.ltb_spec n 0); [lia|done].
  - intros i v Hi [Hv0 Hv]. rewrite read_bit_spec by lia. eexists. split; [done|]. split.
    { apply Z.lor_nonneg. split; [apply (wrap_range 64); lia|]. destruct (bit_at _ _); simpl; lia. }
    intros n Hn. rewrite Z.lor_spec.
    destruct (Z.eq_dec n 0) as [->|].
    + unfold wrap. rewrite Z.mod_pow2_bits_low, Z.shiftl_spec_low by lia.
      rewrite Z.b2z_bit0, orb_false_l. destruct (Z.ltb_spec 0 (i + 1)); [|lia]. simpl. f_equal. lia.
    + assert (Z.testbit (Z.b2z (bit_at bytes (s + i))) n = false) as ->.
      { destruct (bit_at _ _); simpl; [|apply Z.bits_0]. destruct n; try lia. reflexivity. }
      rewrite orb_false_r. unfold wrap. destruct (Z.ltb_spec n 64).
      * rewrite Z.mod_pow2_bits_low, Z.shiftl_spec, Hv by lia.
        destruct (Z.ltb_spec (n - 1) i), (Z.ltb_spec n (i + 1)); try lia; simpl; try done; f_equal; lia.
      * rewrite Z.mod_pow2_bits_high by lia. destruct (Z.ltb_spec n (i + 1)); [lia|done].
  - destruct Hloop as (v & -> & Hv0 & Hv). exists v. split; [done|]. split; [done|]. intros n Hn. rewrite Hv by done.
    unfold seg_bit. rewrite Hal. simpl.
    replace (0 + Z.of_nat (Z.to_nat w)) with w by lia. done.
Qed.

Lemma wrap_testbit w v n : 0 <= w -> 0 <= n -> Z.testbit (wrap w v) n = (n <? w) && Z.testbit v n.
Proof.
  intros Hw Hn. unfold wrap. destruct (Z.ltb_spec n w); simpl.
  - by apply Z.mod_pow2_bits_low.
  - apply Z.mod_pow2_bits_high. lia.
Qed.

(** A segment whose bits are those of [v] reads back as [v] cut to its width. *)
Lemma extract_bits_of checks bytes w e s v :
  0 <= w <= 64 -> 0 <= s -> s + w <= 8 * Z.of_nat (length bytes) -> Forall byte_ok bytes ->
  (forall k, 0 <= k < w -> bit_at bytes (s + k) = Z.testbit v (seg_bit e w s k)) ->
  extract_integer_segment checks bytes w e s = Some (wrap w v).
Proof.
  intros Hw Hs Hfit Hok Hbits. destruct (extract_spec checks bytes w e s Hw Hs Hfit Hok) as (x & -> & Hx0 & Hx).
  f_equal. apply Z.bits_inj'. intros n Hn. rewrite Hx, wrap_testbit by lia.
  destruct (Z.ltb_spec n w); simpl; [|done].
  rewrite Hbits by (apply seg_bit_range; lia). by rewrite seg_bit_involutive.
Qed.

(** ** Segments of any width *)

Lemma for_range_stuck {A} (f : Z -> A -> option A) i n : forall lo a,
  lo <= i < lo + Z.of_nat n -> (forall x, f i x = None) -> for_range f lo n a = None.
Proof.
  induction n as [|n IH]; intros lo a Hi Hf; [lia|]. cbn [for_range].
  destruct (Z.eq_dec lo i) as [->|]; [by rewrite Hf|]. destruct (f lo a); [|done]. apply IH; [lia|done].
Qed.

(** Past eight bytes, one byte is shifted by exactly a word. *)
Lemma byte_shift_word e n : 8 < n -> exists i, 0 <= i < n /\ byte_shift e n i = 64.
Proof.
  intros Hn. exists (match e with Little => 8 | Big => n - 9 end). split; [destruct e; lia|].
  unfold byte_shift. destruct e; try reflexivity. by replace (n - 1 - (n - 9)) with 8 by lia.
Qed.

Lemma shift_amount_word : shift_amount true 64 64 = None.
Proof. reflexivity. Qed.

Lemma shift_amount_unchecked w k : exists j, shift_amount false w k = Some j.
Proof. unfold shift_amount. destruct (k <? w); eauto. Qed.

(** Whether reading a segment into a word stays within what Rust's overflow checks let
    pass: the path over bits shifts by one, the path over bytes by the whole distance. *)
Definition word_safe (checks : bool) (w s : Z) : bool :=
  negb checks || (w <=? 64) || negb ((s mod 8 =? 0) && (w mod 8 =? 0)).

Lemma word_shift checks w s e i : word_safe checks w s = true -> (s mod 8 =? 0) && (w mod 8 =? 0) = true ->
  0 <= i < w / 8 -> exists k, shift_amount checks 64 (byte_shift e (w / 8) i) = Some k.
Proof.
  unfold word_safe. intros Hs Hal Hi. rewrite Hal, orb_false_r in Hs. destruct (aligned_width w s Hal) as [_ Hw].
  destruct checks; [|apply shift_amount_unchecked]. apply Z.leb_le in Hs. exists (byte_shift e (w / 8) i).
  apply shift_amount_small. rewrite byte_shift_small by lia. destruct e; lia.
Qed.

Lemma extract_total checks bytes w e s : word_safe checks w s = true ->
  0 <= w -> 0 <= s -> s + w <= 8 * Z.of_nat (length bytes) -> Forall byte_ok bytes ->
  exists v, extract_integer_segment checks bytes w e s = Some v.
Proof.
  intros Hsafe Hw Hs Hfit Hok. unfold extract_integer_segment. destruct (w =? 0); [eauto|].
  destruct (_ && _) eqn:Hal.
  - destruct (aligned_width w s Hal) as [Es Ew].
    destruct (slice_spec bytes (s / 8) (w / 8)) as (win & -> & Hl & _); [lia..|done|].
    loop_inv (fun (i : Z) (v : Z) => True); [done| |destruct Hloop as (v & -> & _); eauto].
    intros i v Hi _. destruct (read_byte_Some win i) as (b & -> & _); [lia|]. unfold shl.
    destruct (word_shift checks w s e i) as (k & ->); try done; [lia|]. eauto.
  - loop_inv (fun (i : Z) (v : Z) => True); [done| |destruct Hloop as (v & -> & _); eauto].
    intros i v Hi _. rewrite read_bit_spec by lia. eauto.
Qed.

Lemma extract_overshift bytes w e s : word_safe true w s = false -> extract_integer_segment true bytes w e s = None.
Proof.
  unfold word_safe. simpl. intros [Hw%Z.leb_gt Hal%negb_false_iff]%orb_false_iff. unfold extract_integer_segment.
  destruct (aligned_width w s Hal) as [_ Ew]. rewrite Hal. destruct (Z.eqb_spec w 0); [lia|].
  destruct (slice _ _ _) as [win|]; [|done]. destruct (byte_shift_word e (w / 8)) as (i & Hi & Hk); [lia|].
  apply (for_range_stuck _ i); [lia|]. intros v. unfold shl. rewrite Hk. by destruct (read_byte win i).
Qed.

Lemma pack_total checks buf v w e s : negb checks || (w <=? 64) = true ->
  0 <= w -> 0 <= s -> s + w <= 8 * Z.of_nat (length buf) -> Forall byte_ok buf ->
  exists buf', pack_integer_segment checks buf v w e s = Some buf' /\ length buf' = length buf /\ Forall byte_ok buf' /\
    forall p, s + w <= p -> bit_at buf' p = bit_at buf p.
Proof.
  intros Hsafe Hw Hs Hfit Hok. unfold pack_integer_segment. destruct (Z.eqb_spec w 0) as [->|Hne]; [eauto|].
  set (P := fun (i : Z) b => length b = length buf /\ Forall byte_ok b /\ forall p, s + w <= p -> bit_at b p = bit_at buf p).
  destruct (_ && _) eqn:Hal; [|unfold pack_bits_into].
  - destruct (aligned_width w s Hal) as [Es Ew]. loop_inv P; [by split_and!| |destruct Hloop as (b & -> & ?); eauto].
    intros i b Hi (Hl & Ho & Hb). unfold shr.
    destruct (word_shift checks w s e i) as (k & ->); [unfold word_safe; by rewrite Hsafe|done|lia|].
    destruct (write_byte_spec b (s / 8 + i) (wrap 8 (Z.shiftr v k))) as (b' & -> & Hl' & Ho' & Hb');
      [rewrite Hl; lia|done|apply byte_ok_wrap|].
    exists b'. split; [done|]. split_and!; [congruence|done|]. intros p Hp. rewrite Hb', <- Hb by lia.
    destruct (byte_pos p ltac:(lia)) as (P1 & P2 & P3). destruct (Z.eqb_spec (p / 8) (s / 8 + i)); [lia|done].
  - loop_inv P; [by split_and!| |destruct Hloop as (b & -> & ?); eauto].
    intros i b Hi (Hl & Ho & Hb). unfold shr.
    assert (exists k, shift_amount checks 64 (w - 1 - i) = Some k) as (k & ->).
    { destruct checks; [|apply shift_amount_unchecked]. apply Z.leb_le in Hsafe. eexists. apply shift_amount_small. lia. }
    cbv zeta. destruct (Z.land _ 1 =? 0); [exists b; split; [reflexivity|by repeat split]|].
    destruct (or_bit_spec b (s + i)) as (b' & -> & Hl' & Ho' & Hb'); [rewrite Hl; lia|done|].
    exists b'. split; [done|]. split_and!; [congruence|done|]. intros p Hp. rewrite Hb', <- Hb by lia.
    destruct (Z.eqb_spec p (s + i)); [lia|]. by rewrite orb_false_r.
Qed.

Lemma pack_overshift buf v w e s : 64 < w -> pack_integer_segment true buf v w e s = None.
Proof.
  intros Hw. unfold pack_integer_segment. destruct (Z.eqb_spec w 0); [lia|]. destruct (_ && _) eqn:Hal.
  - destruct (aligned_width w s Hal) as [_ Ew]. destruct (byte_shift_word e (w / 8)) as (i & Hi & Hk); [lia|].
    apply (for_range_stuck _ i); [lia|]. intros b. unfold shr. by rewrite Hk.
  - unfold pack_bits_into. apply (for_range_stuck _ (w - 1 - 64)); [lia|]. intros b. unfold shr.
    by replace (w - 1 - (w - 1 - 64)) with 64 by lia.
Qed.

(** Extraction is the inverse of packing: a segment of at most 64 bits packed at
    any bit offset that fits the buffer, over zeroed bits, reads back as the value cut
    to the segment's width, in either byte order and whether or not the fast path for
    whole bytes applies; the bits around it are untouched. *)
Theorem extract_pack_roundtrip checks buf v w e s :
  0 <= w <= 64 -> 0 <= s -> s + w <= 8 * Z.of_nat (length buf) -> Forall byte_ok buf ->
  (forall p, s <= p < s + w -> bit_at buf p = false) ->
  exists buf', pack_integer_segment checks buf v w e s = Some buf' /\
    length buf' = length buf /\ Forall byte_ok buf' /\
    extract_integer_segment checks buf' w e s = Some (wrap w v) /\
    forall p, 0 <= p -> p < s \/ s + w <= p -> bit_at buf' p = bit_at buf p.
Proof.
  intros Hw Hs Hfit Hok Hz. destruct (pack_spec checks buf v w e s) as (buf' & E & Hl & Ho & Hb); try done.
  exists buf'. split; [done|]. split; [done|]. split; [done|]. split.
  - apply extract_bits_of; try done; [by rewrite Hl|]. intros k Hk. rewrite Hb by lia.
    destruct (Z.leb_spec s (s + k)), (Z.ltb_spec (s + k) (s + w)); try lia. simpl.
    by replace (s + k - s) with k by lia.
  - intros p Hp Hout. rewrite Hb by done. destruct (Z.leb_spec s p), (Z.ltb_spec p (s + w)); try lia; done.
Qed.

Lemma extract_pack_roundtrip_witness :
  exists buf', pack_integer_segment true [0; 0; 0] 4660 16 Little 4 = Some buf' /\
    extract_integer_segment true buf' 16 Little 4 = Some 4660.
Proof.
  destruct (extract_pack_roundtrip true [0; 0; 0] 4660 16 Little 4) as (buf' & H & _ & _ & H' & _).
  - lia.
  - lia.
  - simpl. lia.
  - repeat (constructor; [split; lia|]). constructor.
  - intros p Hp. apply (bit_at_zeros 3).
  - exists buf'. split; [exact H|exact H'].
Defined.

(** ** Literal segments *)

Lemma value_byte_bit v sg n : 0 <= sg -> 0 <= n < 8 -> - 2 ^ 127 <= v < 2 ^ 127 ->
  Z.testbit (value_byte v sg) n = Z.testbit v (8 * sg + n).
Proof.
  intros Hs Hn Hv. unfold value_byte. destruct (Z.leb_spec 16 sg).
  - assert (Z.testbit v (8 * sg + n) = (v <? 0)) as ->.
    { destruct (Z.ltb_spec v 0).
      - destruct (Z.eq_dec v (-1)) as [->|]; [apply Z.bits_m1; lia|].
        apply Z.bits_above_log2_neg; [lia|]. apply Z.lt_le_trans with 127; [|lia].
        apply Z.log2_lt_pow2; lia.
      - destruct (Z.eq_dec v 0) as [->|]; [apply Z.bits_0|]. apply Z.bits_above_log2; [lia|].
        apply Z.lt_le_trans with 127; [|lia]. apply Z.log2_lt_pow2; lia. }
    destruct (v <? 0); [|apply Z.bits_0]. change 255 with (Z.ones 8). apply Z.ones_spec_low. lia.
  - unfold wrap. rewrite Z.mod_pow2_bits_low, Z.shiftr_spec by lia. f_equal. lia.
Qed.

Lemma value_byte_ok v sg : byte_ok (value_byte v sg).
Proof.
  unfold value_byte. destruct (16 <=? sg); [|apply byte_ok_wrap]. destruct (v <? 0); split; lia.
Qed.

Lemma byte_eq_bits a b : byte_ok a -> byte_ok b -> a = b <-> forall n, 0 <= n < 8 -> Z.testbit a n = Z.testbit b n.
Proof.
  intros Ha Hb. split; [by intros ->|]. intros H. apply Z.bits_inj'. intros n Hn.
  destruct (Z.lt_ge_cases n 8); [by apply H|by rewrite !byte_ok_testbit].
Qed.

Lemma land_width_mask v w : 0 <= w <= 64 -> Z.land (as_u64 v) (width_mask w) = wrap w v.
Proof.
  intros Hw. unfold width_mask, as_u64. destruct (Z.leb_spec 64 w).
  - assert (w = 64) as -> by lia. change (2 ^ 64 - 1) with (Z.ones 64). rewrite Z.land_ones by lia.
    exact (wrap_idemp 64 v ltac:(lia)).
  - rewrite Z.shiftl_1_l, Z.sub_1_r, <- Z.ones_equiv, Z.land_ones by lia. apply wrap_wrap_le. lia.
Qed.

(** A literal segment tests exactly its bits: at any width, past 64 bits too, and
    at any offset, the test succeeds if and only if every bit of the subject there is
    the bit of the literal's two's complement encoding, sign extended to the width. *)
Theorem literal_segment_exact checks bytes w e s v :
  0 <= w -> 0 <= s -> s + w <= 8 * Z.of_nat (length bytes) -> Forall byte_ok bytes -> - 2 ^ 127 <= v < 2 ^ 127 ->
  exists b, literal_segment_matches checks bytes w e s v = Some b /\
    (b = true <-> forall k, 0 <= k < w -> bit_at bytes (s + k) = Z.testbit v (seg_bit e w s k)).
Proof.
  intros Hw Hs Hfit Hok Hv. unfold literal_segment_matches. destruct (Z.leb_spec w 64) as [H64|H64].
  { destruct (extract_spec checks bytes w e s) as (x & Hx & Hx0 & Hxb); try done. rewrite Hx. eexists. split; [done|].
    rewrite land_width_mask, Z.eqb_eq by lia. split.
    - intros -> k Hk. pose proof (seg_bit_range e w s k Hk) as Hr. specialize (Hxb (seg_bit e w s k) ltac:(lia)).
      rewrite seg_bit_involutive in Hxb by done. rewrite wrap_testbit in Hxb by lia.
      destruct (Z.ltb_spec (seg_bit e w s k) w); [|lia]. done.
    - intros Hbits. pose proof (extract_bits_of checks bytes w e s v) as H. rewrite H in Hx; try done. by simplify_eq. }
  destruct (_ && _) eqn:Hal.
  - destruct (aligned_width w s Hal) as [Es Ew]. set (q := s / 8) in *. set (num := w / 8) in *.
    set (place := fun i => match e with Little => i | Big => num - 1 - i end).
    edestruct (all_range_spec (fun i => match read_byte bytes (q + i) with
        | Some b => Some (b =? value_byte v (place i)) | None => None end)
      (fun i => forall n, 0 <= n < 8 -> bit_at bytes (s + (8 * i + n)) = Z.testbit v (seg_bit e w s (8 * i + n)))
      (Z.to_nat num) 0) as (b & Hb & Hiff).
    { intros i Hi. destruct (read_byte_Some bytes (q + i)) as (x & -> & Hx); [lia|]. eexists. split; [done|].
      rewrite Z.eqb_eq, byte_eq_bits by (try apply value_byte_ok; by eapply Forall_lookup_1).
      assert (forall n, 0 <= n < 8 -> bit_at bytes (s + (8 * i + n)) = Z.testbit x (7 - n) /\
        Z.testbit v (seg_bit e w s (8 * i + n)) = Z.testbit (value_byte v (place i)) (7 - n)) as Hbit.
      { intros n Hn. destruct (byte_of_pos (q + i) n Hn) as [E1 E2]. split.
        - replace (s + (8 * i + n)) with (8 * (q + i) + n) by lia.
          rewrite (bit_at_byte bytes _ x) by (by rewrite E1). by rewrite E2.
        - rewrite value_byte_bit by (unfold place; destruct e; lia). f_equal.
          destruct (byte_of_pos i n Hn) as [F1 F2].
          unfold seg_bit, place. rewrite Hal. destruct e; simpl; rewrite ?F1, ?F2; lia. }
      split; intros H n Hn.
      - destruct (Hbit n Hn) as [-> ->]. apply H. lia.
      - specialize (H (7 - n) ltac:(lia)). destruct (Hbit (7 - n)) as [B1 B2]; [lia|]. rewrite B1, B2 in H.
        by replace (7 - (7 - n)) with n in H by lia. }
    exists b. split; [done|]. rewrite Hiff. split; intros H.
    + intros k Hk. destruct (byte_pos k ltac:(lia)) as (K1 & K2 & K3). rewrite K1. apply H; lia.
    + intros i Hi n Hn. apply H. lia.
  - edestruct all_range_spec as (b & Hb & Hiff); [|exists b; split; [exact Hb|]].
    + intros i Hi. cbv beta. rewrite read_bit_spec by lia. eexists. split; [reflexivity|].
      set (sg := w - 1 - i). destruct (byte_pos sg ltac:(lia)) as (S1 & S2 & S3).
      rewrite land_1_bit, value_byte_bit by lia. rewrite <- S1, Z.eqb_eq.
      instantiate (1 := fun i => bit_at bytes (s + i) = Z.testbit v (w - 1 - i)). unfold sg.
      destruct (bit_at _ _), (Z.testbit v _); simpl; intuition (congruence || discriminate).
    + rewrite Hiff. unfold seg_bit. rewrite Hal. simpl. split; intros H k Hk; apply H; lia.
Qed.

Lemma literal_segment_exact_witness :
  literal_segment_matches true [255; 255; 255; 255; 255; 255; 255; 255; 254] 72 Big 0 (-2) = Some true.
Proof.
  destruct (literal_segment_exact true [255; 255; 255; 255; 255; 255; 255; 255; 254] 72 Big 0 (-2)) as (b & -> & Hb).
  - lia.
  - lia.
  - simpl. lia.
  - repeat (constructor; [split; lia|]). constructor.
  - lia.
  - f_equal. apply Hb. intros k Hk.
    assert (forall n : nat, (n < 72)%nat -> bit_at [255; 255; 255; 255; 255; 255; 255; 255; 254] (0 + Z.of_nat n) =
      Z.testbit (-2) (seg_bit Big 72 0 (Z.of_nat n))) as H.
    { intros n Hn. do 72 (destruct n as [|n]; [reflexivity|]). lia. }
    specialize (H (Z.to_nat k) ltac:(lia)). by rewrite Z2Nat.id in H by lia.
Defined.

(** ** Sign interpretation *)

(** A pattern of [w] bits is read with the segment's sign. *)
Lemma sign_interpret_spec v w sign : 0 < w <= 64 -> 0 <= v < 2 ^ w ->
  sign_interpret v w sign = match sign with Signed => swrap w v | Unsigned => swrap 64 v end.
Proof.
  intros Hw Hv. unfold sign_interpret. destruct sign; [|done].
  destruct (Z.eqb_spec w 0) as [|_]; [lia|]. simpl. destruct (Z.leb_spec 64 w).
  { assert (w = 64) as -> by lia. done. }
  assert (2 ^ w = 2 * 2 ^ (w - 1)) as Hp by (rewrite <- Z.pow_succ_r; [f_equal; lia|lia]).
  assert (2 ^ w < 2 ^ 64) as Hlt by (apply Z.pow_lt_mono_r; lia).
  assert (0 < 2 ^ (w - 1)) as Hpos by (apply Z.pow_pos_nonneg; lia).
  assert (Z.testbit v (w - 1) = (2 ^ (w - 1) <=? v)) as Htop.
  { rewrite Z.testbit_odd, Z.shiftr_div_pow2 by lia. destruct (Z.leb_spec (2 ^ (w - 1)) v).
    - assert (v / 2 ^ (w - 1) = 1) as -> by (symmetry; apply (Z.div_unique _ _ _ (v - 2 ^ (w - 1))); lia). done.
    - by rewrite Z.div_small by lia. }
  rewrite Z.shiftl_1_l.
  assert ((Z.land v (2 ^ (w - 1)) =? 0) = negb (Z.testbit v (w - 1))) as ->.
  { destruct (Z.testbit v (w - 1)) eqn:Eb; simpl.
    - apply Z.eqb_neq. intros E. assert (Z.testbit (Z.land v (2 ^ (w - 1))) (w - 1) = true) as Hc
        by (rewrite Z.land_spec, Eb, Z.pow2_bits_true by lia; done). rewrite E, Z.bits_0 in Hc. done.
    - apply Z.eqb_eq, Z.bits_inj'. intros n Hn. rewrite Z.land_spec, Z.bits_0, Z.pow2_bits_eqb by lia.
      destruct (Z.eqb_spec (w - 1) n) as [<-|]; [by rewrite Eb|apply andb_false_r]. }
  rewrite negb_involutive, Htop. unfold swrap at 1. rewrite (wrap_small w) by lia.
  destruct (Z.leb_spec (2 ^ (w - 1)) v), (Z.ltb_spec v (2 ^ (w - 1))); try lia.
  - unfold as_i64, width_mask. destruct (Z.leb_spec 64 w); [lia|]. rewrite Z.shiftl_1_l.
    replace (2 ^ 64 - 1 - (2 ^ w - 1)) with (Z.shiftl (2 ^ (64 - w) - 1) w).
    + rewrite Z.lor_comm, lor_disjoint_add by lia.
      assert (2 ^ (64 - w) * 2 ^ w = 2 ^ 64) as Hm by (rewrite <- Z.pow_add_r by lia; f_equal; lia).
      replace ((2 ^ (64 - w) - 1) * 2 ^ w + v) with (v - 2 ^ w + 2 ^ 64) by lia.
      unfold swrap. rewrite (wrap_small 64) by lia.
      assert (2 ^ w <= 2 ^ 63) by (apply Z.pow_le_mono_r; lia).
      change (64 - 1) with 63. destruct (Z.ltb_spec (v - 2 ^ w + 2 ^ 64) (2 ^ 63)); lia.
    + rewrite Z.shiftl_mul_pow2 by lia. rewrite Z.mul_sub_distr_r, <- Z.pow_add_r by lia.
      replace (64 - w + w) with 64 by lia. lia.
  - unfold as_i64. apply (swrap_small 64); [lia|]. change (64 - 1) with 63.
    assert (2 ^ (w - 1) <= 2 ^ 63) by (apply Z.pow_le_mono_r; lia). lia.
Qed.
