(* ===== verification/BinaryBits.v ===== *)
(** * Concatenation, construction and matching of binaries

    The bit-level contracts of the operations of [BinaryOps]: what [<>] and [<<...>>]
    build, what a greedy tail holds, and that a pattern laid out like a literal reads
    the literal back. *)

From stdpp Require Import strings.
From S2P Require Import Prelude IRValue EvalOps BinaryOps.
Local Open Scope Z_scope.

(** ** Greedy tails *)

Lemma testbit_high_mask k n : 0 < k < 8 -> 0 <= n < 8 -> Z.testbit (255 - Z.shiftr 255 k) n = (8 - k <=? n).
Proof.
  intros Hk Hn.
  assert (k = 1 \/ k = 2 \/ k = 3 \/ k = 4 \/ k = 5 \/ k = 6 \/ k = 7) as Hk' by lia.
  assert (n = 0 \/ n = 1 \/ n = 2 \/ n = 3 \/ n = 4 \/ n = 5 \/ n = 6 \/ n = 7) as Hn' by lia.
  destruct Hk' as [-> | [-> | [-> | [-> | [-> | [-> | ->]]]]]];
    destruct Hn' as [-> | [-> | [-> | [-> | [-> | [-> | [-> | ->]]]]]]]; reflexivity.
Qed.

Lemma high_mask_ok b k : byte_ok b -> byte_ok (Z.land b (255 - Z.shiftr 255 k)).
Proof.
  intros Hb. apply testbit_byte_ok.
  - apply Z.land_nonneg. left. unfold byte_ok in Hb. lia.
  - intros n Hn. by rewrite Z.land_spec, byte_ok_testbit.
Qed.

Lemma extract_range_aligned bytes s len :
  s mod 8 = 0 -> 0 <= s -> 0 <= len -> s + len <= 8 * Z.of_nat (length bytes) -> Forall byte_ok bytes ->
  exists out, extract_bit_range bytes s len = Some out /\ bits_ok out len /\
    forall p, 0 <= p < len -> bit_at out p = bit_at bytes (s + p).
Proof.
  intros Hal Hs Hlen Hfit Hok. unfold extract_bit_range. rewrite Hal. simpl.
  destruct (byte_pos s Hs) as (Es & _ & Hq). rewrite Hal in Es.
  destruct (div_ceil8_bound len Hlen) as [Hc Hc0].
  destruct (slice_spec bytes (s / 8) (div_ceil8 len)) as (out & -> & Hl & Ho & Hb); [lia..|done|].
  destruct (Z.eqb_spec (len mod 8) 0) as [Hz|Hz].
  - exists out. split; [done|]. pose proof (Z.div_mod len 8 ltac:(lia)).
    split; [split_and!; try done|].
    + intros p Hp. apply bit_at_beyond. lia.
    + intros p Hp. rewrite Hb by lia. f_equal. lia.
  - pose proof (Z.mod_pos_bound len 8 ltac:(lia)). pose proof (Z.div_mod len 8 ltac:(lia)).
    set (last := Z.of_nat (length out) - 1). destruct (read_byte_Some out last) as (x & -> & Hx); [lia|].
    pose proof (Forall_lookup_1 _ _ _ _ Ho Hx) as Hxok.
    destruct (write_byte_spec out last (Z.land x (255 - Z.shiftr 255 (len mod 8)))) as (out' & -> & Hl' & Ho' & Hb');
      [lia|done|by apply high_mask_ok|].
    assert (forall p, 0 <= p -> bit_at out' p = (p <? len) && bit_at bytes (s + p)) as Hbits.
    { intros p Hp. rewrite Hb' by done. destruct (byte_pos p Hp) as (P1 & P2 & P3).
      destruct (Z.eqb_spec (p / 8) last) as [El|El].
      - rewrite Z.land_spec, testbit_high_mask by lia. rewrite <- El in Hx. rewrite <- (bit_at_byte out p x Hx).
        rewrite andb_comm, Hb by lia. replace (8 * (s / 8) + p) with (s + p) by lia. f_equal.
        destruct (Z.leb_spec (8 - len mod 8) (7 - p mod 8)), (Z.ltb_spec p len); try done; lia.
      - destruct (Z.ltb_spec p len); simpl.
        + rewrite Hb by lia. f_equal. lia.
        + apply bit_at_beyond. lia. }
    exists out'. split; [done|]. split; [split_and!|].
    + done.
    + rewrite Hl', Hl. done.
    + done.
    + intros p Hp. rewrite Hbits by lia. destruct (Z.ltb_spec p len); [lia|done].
    + intros p Hp. rewrite Hbits by lia. destruct (Z.ltb_spec p len); [done|lia].
Qed.

Lemma extract_range_spec bytes s len :
  0 <= s -> 0 <= len -> s + len <= 8 * Z.of_nat (length bytes) -> Forall byte_ok bytes ->
  exists out, extract_bit_range bytes s len = Some out /\ bits_ok out len /\
    forall p, 0 <= p < len -> bit_at out p = bit_at bytes (s + p).
Proof.
  intros Hs Hlen Hfit Hok. destruct (Z.eqb_spec (s mod 8) 0) as [Hal|Hal]; [by apply extract_range_aligned|].
  unfold extract_bit_range. rewrite (proj2 (Z.eqb_neq _ _) Hal). destruct (div_ceil8_bound len Hlen) as [Hc Hc0].
  pose proof (zeros_length (div_ceil8 len) Hc0) as Hzl.
  loop_inv (fun i out => Z.of_nat (length out) = div_ceil8 len /\ Forall byte_ok out /\
    forall p, 0 <= p -> bit_at out p = (p <? i) && bit_at bytes (s + p)).
  - split_and!; [done|apply zeros_ok|]. intros p Hp. rewrite bit_at_zeros. destruct (Z.ltb_spec p 0); [lia|done].
  - intros i out Hi (Hl & Ho & Hb). rewrite read_bit_spec by lia.
    destruct (bit_at bytes (s + i)) eqn:Ebit; simpl.
    + destruct (or_bit_spec out i) as (out' & -> & Hl' & Ho' & Hb'); [lia|done|].
      exists out'. split; [done|]. split_and!; [lia|done|]. intros p Hp. rewrite Hb', Hb by done.
      destruct (Z.eqb_spec p i) as [->|].
      * rewrite Ebit, orb_true_r. destruct (Z.ltb_spec i (i + 1)); [done|lia].
      * rewrite orb_false_r. destruct (Z.ltb_spec p i), (Z.ltb_spec p (i + 1)); try done; lia.
    + exists out. split; [done|]. split_and!; try done. intros p Hp. rewrite Hb by done.
      destruct (Z.ltb_spec p i), (Z.ltb_spec p (i + 1)); try done; try lia. by replace p with i by lia.
  - destruct Hloop as (out & -> & Hl & Ho & Hb). replace (0 + Z.of_nat (Z.to_nat len)) with len in Hb by lia.
    exists out. split; [done|]. split; [split_and!; try done|].
    + intros p Hp. rewrite Hb by lia. destruct (Z.ltb_spec p len); [lia|done].
    + intros p Hp. rewrite Hb by lia. destruct (Z.ltb_spec p len); [done|lia].
Qed.

(** ** Concatenation *)

Lemma bits_ok_padding bytes len p : bits_ok bytes len -> len <= p -> bit_at bytes p = false.
Proof. intros (_ & _ & _ & H). apply H. Qed.

(** One source byte, shifted over two bytes of the destination. *)
Lemma append_byte shift b q : 0 < shift < 8 -> byte_ok b -> 0 <= q < 8 ->
  (q < 8 - shift -> Z.testbit (Z.shiftr b shift) (7 - (shift + q)) = Z.testbit b (7 - q)) /\
  (8 - shift <= q -> Z.testbit (wrap 8 (Z.shiftl b (8 - shift))) (7 - (q - (8 - shift))) = Z.testbit b (7 - q)).
Proof.
  intros Hs Hb Hq. split; intros H.
  - rewrite Z.shiftr_spec by lia. f_equal. lia.
  - rewrite wrap_testbit by lia. destruct (Z.ltb_spec (7 - (q - (8 - shift))) 8); [|lia]. simpl.
    rewrite Z.shiftl_spec by lia. f_equal. lia.
Qed.

(** The state of the loop of [append_bits] after [j] source bytes. *)
Definition appended (dest0 dest src : list Z) (start j : Z) : Prop :=
  length dest = length dest0 /\ Forall byte_ok dest /\
  forall p, 0 <= p -> bit_at dest p =
    if p <? start then bit_at dest0 p else (p <? start + 8 * j) && bit_at src (p - start).

(** The part of a byte that spills over: the guard may skip it only where all its
    bits are padding. *)
Lemma append_spill d1 src len j b shift d :
  0 < shift < 8 -> bits_ok src len -> 0 <= j -> 8 * j < len -> byte_ok b -> 0 <= d -> Forall byte_ok d1 ->
  8 * d + shift + (len - 8 * j) <= 8 * Z.of_nat (length d1) ->
  (forall q, 0 <= q < 8 -> Z.testbit b (7 - q) = bit_at src (8 * j + q)) ->
  exists d2, (if (8 - shift <? Z.min (len - 8 * j) 8 + shift) && (d + 1 <? Z.of_nat (length d1))
     then or_byte d1 (d + 1) (wrap 8 (Z.shiftl b (8 - shift))) else Some d1) = Some d2 /\
     length d2 = length d1 /\ Forall byte_ok d2 /\
     forall p, 0 <= p -> bit_at d2 p =
       bit_at d1 p || ((p / 8 =? d + 1) && Z.testbit (wrap 8 (Z.shiftl b (8 - shift))) (7 - p mod 8)).
Proof.
  intros Hs Hsrc Hj Hlen Hb Hd Hok Hfit Hbsrc. destruct (_ && _) eqn:Econd.
  - apply andb_true_iff in Econd as [_ Hlt]. apply Z.ltb_lt in Hlt.
    destruct (or_byte_spec d1 (d + 1) (wrap 8 (Z.shiftl b (8 - shift)))) as (d2 & E2 & L2 & O2 & B2);
      [lia|done|apply byte_ok_wrap|]. eauto 6.
  - exists d1. split_and!; try done. intros p Hp. destruct (byte_pos p Hp) as (P1 & P2 & P3).
    destruct (Z.eqb_spec (p / 8) (d + 1)) as [Ep|]; simpl; [|by rewrite orb_false_r].
    set (q := p mod 8 + (8 - shift)).
    assert (Z.testbit (wrap 8 (Z.shiftl b (8 - shift))) (7 - p mod 8) = false) as ->; [|by rewrite orb_false_r].
    destruct (Z.lt_ge_cases q 8) as [Hq|Hq].
    + destruct (append_byte shift b q) as [_ Hlow]; [lia|done|lia|].
      replace (7 - p mod 8) with (7 - (q - (8 - shift))) by lia. rewrite Hlow, Hbsrc by lia.
      apply (bits_ok_padding src len); [done|].
      apply andb_false_iff in Econd as [Hc|Hc]; apply Z.ltb_ge in Hc; lia.
    + rewrite wrap_testbit by lia. rewrite Z.shiftl_spec_low by lia. apply andb_false_r.
Qed.

Lemma append_step dest0 dest src start len j b shift :
  shift = start mod 8 -> 0 < shift -> 0 <= start -> bits_ok src len ->
  start + len <= 8 * Z.of_nat (length dest0) -> 0 <= j -> 8 * j < len ->
  appended dest0 dest src start j -> src !! Z.to_nat j = Some b ->
  exists d1 d2, or_byte dest (start / 8 + j) (Z.shiftr b shift) = Some d1 /\
    (if (8 - shift <? Z.min (len - 8 * j) 8 + shift) && (start / 8 + j + 1 <? Z.of_nat (length d1))
     then or_byte d1 (start / 8 + j + 1) (wrap 8 (Z.shiftl b (8 - shift))) else Some d1) = Some d2 /\
    appended dest0 d2 src start (j + 1).
Proof.
  intros Hsh Hpos Hst Hsrc Hfit Hj Hlen (Hl & Ho & Hb) Hbyte.
  destruct (byte_pos start Hst) as (S1 & S2 & S3). rewrite <- Hsh in *. set (d := start / 8 + j) in *.
  assert (byte_ok b) as Hbok by (destruct Hsrc as (_ & _ & Hf & _); exact (Forall_lookup_1 _ _ _ _ Hf Hbyte)).
  assert (forall q, 0 <= q < 8 -> Z.testbit b (7 - q) = bit_at src (8 * j + q)) as Hbsrc.
  { intros q Hq. destruct (byte_of_pos j q Hq) as [E1 E2]. rewrite (bit_at_byte src _ b) by (by rewrite E1).
    by rewrite E2. }
  destruct (or_byte_spec dest d (Z.shiftr b shift)) as (d1 & E1 & L1 & O1 & B1);
    [rewrite Hl; lia|done|apply byte_ok_shiftr; [lia|done]|].
  destruct (append_spill d1 src len j b shift d) as (d2 & E2 & L2 & O2 & B2); try done; try lia.
  exists d1, d2. split; [done|]. split; [done|]. split; [congruence|]. split; [done|]. intros p Hp. rewrite B2, B1, Hb by done.
  destruct (byte_pos p Hp) as (P1 & P2 & P3).
  destruct (Z.ltb_spec p start) as [Hps|Hps].
  - destruct (Z.eqb_spec (p / 8) d) as [Ed|]; simpl.
    2:{ destruct (Z.eqb_spec (p / 8) (d + 1)); [lia|]. by rewrite !orb_false_r. }
    destruct (Z.eqb_spec (p / 8) (d + 1)); [lia|]. simpl. rewrite orb_false_r.
    assert (Z.testbit (Z.shiftr b shift) (7 - p mod 8) = false) as ->; [|by rewrite orb_false_r].
    rewrite Z.shiftr_spec by lia. apply byte_ok_testbit; [done|lia].
  - set (q := p - (start + 8 * j)). destruct (Z.ltb_spec p (start + 8 * j)) as [Hold|Hnew]; simpl.
    + destruct (Z.ltb_spec p (start + 8 * (j + 1))); [|lia]. simpl.
      destruct (Z.eqb_spec (p / 8) (d + 1)); [lia|]. destruct (Z.eqb_spec (p / 8) d); simpl; [|by rewrite !orb_false_r].
      rewrite orb_false_r.
      assert (Z.testbit (Z.shiftr b shift) (7 - p mod 8) = false) as ->; [|by rewrite orb_false_r].
      rewrite Z.shiftr_spec by lia. apply byte_ok_testbit; [done|lia].
    + destruct (Z.ltb_spec p (start + 8 * (j + 1))) as [Hin|Hout]; simpl.
      * destruct (append_byte shift b q) as [Hhi Hlo]; [lia|done|lia|].
        replace (p - start) with (8 * j + q) by lia. rewrite <- Hbsrc by lia.
        destruct (Z.lt_ge_cases q (8 - shift)) as [Hq|Hq].
        -- destruct (Z.eqb_spec (p / 8) d); [|lia]. destruct (Z.eqb_spec (p / 8) (d + 1)); [lia|]. simpl.
           rewrite orb_false_r, <- Hhi by lia. f_equal. lia.
        -- destruct (Z.eqb_spec (p / 8) (d + 1)); [|lia]. destruct (Z.eqb_spec (p / 8) d); [lia|]. simpl.
           rewrite <- Hlo by lia. f_equal. lia.
      * destruct (Z.eqb_spec (p / 8) d); [lia|]. simpl. destruct (Z.eqb_spec (p / 8) (d + 1)); simpl; [|done].
        rewrite wrap_testbit by lia. rewrite Z.shiftl_spec_low by lia. apply andb_false_r.
Qed.

Lemma append_loop_spec dest0 src start len shift fuel : forall dest j,
  shift = start mod 8 -> 0 < shift -> 0 <= start -> bits_ok src len ->
  start + len <= 8 * Z.of_nat (length dest0) -> 0 <= j -> 8 * j < len -> (len - 8 * j <= Z.of_nat fuel) ->
  appended dest0 dest src start j ->
  exists dest', append_loop fuel shift src dest (len - 8 * j) j (start / 8 + j) = Some dest' /\
    exists k, len <= 8 * k /\ appended dest0 dest' src start k.
Proof.
  induction fuel as [|fuel IH]; intros dest j Hsh Hpos Hst Hsrc Hfit Hj Hlt Hfuel Happ; [lia|].
  cbn [append_loop]. destruct (Z.ltb_spec 0 (len - 8 * j)); [|lia].
  pose proof Hsrc as (Hlen & Hbl & _). destruct (div_ceil8_bound len Hlen) as [Hc _]. unfold div_ceil8 in Hc.
  destruct (read_byte_Some src j) as (b & -> & Hb); [lia|].
  destruct (append_step dest0 dest src start len j b shift) as (d1 & d2 & -> & Hd2 & Happ'); try done.
  cbv zeta. rewrite Hd2. destruct (Z.ltb_spec 8 (len - 8 * j)) as [Hmore|Hlast].
  - replace (len - 8 * j - 8) with (len - 8 * (j + 1)) by lia.
    replace (start / 8 + j + 1) with (start / 8 + (j + 1)) by lia. apply IH; try done; lia.
  - exists d2. split; [by destruct fuel|]. exists (j + 1). split; [lia|done].
Qed.

(** Appending writes the source's bits after the start and leaves those before. *)
Lemma append_bits_spec dest start src len :
  0 <= start -> bits_ok src len -> start + len <= 8 * Z.of_nat (length dest) -> Forall byte_ok dest ->
  (forall p, start <= p -> bit_at dest p = false) ->
  exists dest', append_bits dest start src len = Some dest' /\ length dest' = length dest /\ Forall byte_ok dest' /\
    forall p, 0 <= p -> bit_at dest' p = if p <? start then bit_at dest p else bit_at src (p - start).
Proof.
  intros Hst Hsrc Hfit Hok Hz. pose proof Hsrc as (Hlen & Hbl & Hf & Hpad).
  destruct (div_ceil8_bound len Hlen) as [Hc Hc0]. fold (div_ceil8 len) in Hbl.
  unfold append_bits. destruct (Z.eqb_spec len 0) as [->|Hne].
  { exists dest. split_and!; try done. intros p Hp. destruct (Z.ltb_spec p start); [done|].
    rewrite Hz, Hpad by lia. done. }
  destruct (byte_pos start Hst) as (S1 & S2 & S3).
  destruct (Z.eqb_spec (start mod 8) 0) as [Hal|Hal].
  - destruct (slice_spec src 0 (div_ceil8 len)) as (w & -> & Hwl & Hwo & Hwb); [lia..|done|].
    destruct (copy_into_spec dest (start / 8) w) as (dest' & -> & Hl' & Ho' & Hb'); [lia..|done|done|].
    exists dest'. split_and!; try done. intros p Hp. rewrite Hb' by done.
    replace (8 * (start / 8)) with start by lia. rewrite Hwl.
    destruct (Z.leb_spec start p), (Z.ltb_spec p start), (Z.ltb_spec p (8 * (start / 8 + div_ceil8 len))); try lia; simpl; try done.
    + rewrite Hwb by lia. f_equal.
    + rewrite Hz, Hpad by lia. done.
  - destruct (append_loop_spec dest src start len (start mod 8) (Z.to_nat len) dest 0)
      as (dest' & Hrun & k & Hk & Hl' & Ho' & Hb'); try done; try lia.
    { split_and!; try done. intros p Hp. destruct (Z.ltb_spec p start); [done|].
      destruct (Z.ltb_spec p (start + 8 * 0)); [lia|]. simpl. apply Hz. lia. }
    rewrite Z.add_0_r, Z.mul_0_r, Z.sub_0_r in Hrun. rewrite Hrun. exists dest'. split_and!; try done.
    intros p Hp. rewrite Hb' by done. destruct (Z.ltb_spec p start); [done|].
    destruct (Z.ltb_spec p (start + 8 * k)); simpl; [done|]. symmetry. apply Hpad. lia.
Qed.

(** [<>] on bit strings concatenates their bits: for well-formed operands of any
    bit lengths the result is well formed, of the summed length, and its bits are the
    left operand's followed by the right operand's. *)
Theorem concat_bits_exact lb ll rb rl :
  bits_ok lb ll -> bits_ok rb rl ->
  exists out, concat_values KBits (VBits lb ll) (VBits rb rl) = Ok (VBits out (ll + rl)) /\
    bits_ok out (ll + rl) /\
    forall p, 0 <= p -> bit_at out p = if p <? ll then bit_at lb p else bit_at rb (p - ll).
Proof.
  intros Hl Hr. pose proof Hl as (Hll & Hlb & Hlo & Hlz). pose proof Hr as (Hrl & Hrb & Hro & Hrz).
  fold (div_ceil8 ll) in Hlb. fold (div_ceil8 rl) in Hrb.
  destruct (div_ceil8_bound ll Hll) as [Hcl _]. destruct (div_ceil8_bound rl Hrl) as [Hcr _].
  destruct (div_ceil8_bound (ll + rl)) as [Hct Hct0]; [lia|]. set (n := div_ceil8 (ll + rl)) in *.
  pose proof (zeros_length n Hct0) as Hzl.
  unfold concat_values. cbv zeta. fold n.
  destruct (copy_into_spec (zeros n) 0 lb) as (o1 & -> & L1 & O1 & B1); [lia|lia|apply zeros_ok|done|]. simpl.
  assert (forall p, 0 <= p -> bit_at o1 p = bit_at lb p) as B1'.
  { intros p Hp. rewrite B1 by done. rewrite bit_at_zeros.
    destruct (Z.leb_spec (8 * 0) p), (Z.ltb_spec p (8 * (0 + Z.of_nat (length lb)))); try lia; simpl.
    - f_equal. lia.
    - symmetry. apply bit_at_beyond. lia. }
  destruct (append_bits_spec o1 ll rb rl) as (o2 & -> & L2 & O2 & B2); [lia|done|lia|done| |].
  { intros p Hp. rewrite B1' by lia. by apply Hlz. }
  simpl. exists o2. split; [done|].
  assert (forall p, 0 <= p -> bit_at o2 p = if p <? ll then bit_at lb p else bit_at rb (p - ll)) as B2'.
  { intros p Hp. rewrite B2 by done. destruct (Z.ltb_spec p ll); [by apply B1'|done]. }
  split; [|done]. split_and!; [lia|by rewrite L2, L1, Hzl|done|].
  intros p Hp. rewrite B2' by lia. destruct (Z.ltb_spec p ll); [lia|]. apply Hrz. lia.
Qed.

Lemma concat_bits_exact_witness :
  exists out, concat_values KBits (VBits [160] 3) (VBits [255; 128] 9) = Ok (VBits out 12) /\ out = [191; 240].
Proof.
  destruct (concat_bits_exact [160] 3 [255; 128] 9) as (out & Hc & _).
  - split_and!; [lia|reflexivity|repeat constructor; lia|]. intros p Hp.
    destruct (Z.lt_ge_cases p 8); [|apply bit_at_beyond; simpl; lia].
    assert (p = 3 \/ p = 4 \/ p = 5 \/ p = 6 \/ p = 7) as [-> | [-> | [-> | [-> | ->]]]] by lia; reflexivity.
  - split_and!; [lia|reflexivity|repeat constructor; lia|]. intros p Hp.
    destruct (Z.lt_ge_cases p 16); [|apply bit_at_beyond; simpl; lia].
    assert (p = 9 \/ p = 10 \/ p = 11 \/ p = 12 \/ p = 13 \/ p = 14 \/ p = 15)
      as [-> | [-> | [-> | [-> | [-> | [-> | ->]]]]]] by lia; reflexivity.
  - exists out. split; [exact Hc|]. vm_compute in Hc. congruence.
Defined.

(** ** Construction *)

(** The bits a segment contributes; [None] when its value is missing or of the wrong
    kind. *)
Definition segment_source (frame : Frame) (s : LoweredBinarySegment) : option (Z -> bool) :=
  match s with
  | SInteger v w _ e o =>
      match values frame !! v with
      | Some (VInt n) => Some (fun k => Z.testbit n (seg_bit e w o k))
      | _ => None
      end
  | SFloat v w e o =>
      match values frame !! v with
      | Some x => match float_segment_bits w x with
                  | Ok n => Some (fun k => Z.testbit n (seg_bit e w o k))
                  | _ => None
                  end
      | None => None
      end
  | SString v n _ =>
      match values frame !! v with Some (VString b) => Some (bit_at b) | _ => None end
  end.

(** A segment that packs and reads back: its value is of its kind, an integer fits a
    word and a string starts on a byte. No pass asks for any of the three; what the
    others build is in [BinaryLower] and in the examples at the end. *)
Definition segment_ok (frame : Frame) (s : LoweredBinarySegment) : Prop :=
  0 <= segment_width s /\ is_Some (segment_source frame s) /\
  match s with
  | SInteger _ w _ _ _ => w <= 64
  | SFloat _ _ _ _ => True
  | SString v n o => o mod 8 = 0 /\
      forall b, values frame !! v = Some (VString b) -> n <= Z.of_nat (length b) /\ Forall byte_ok b
  end.

(** Segments at consecutive offsets from [off] to [total]. *)
Fixpoint laid_out (off total : Z) (segments : list LoweredBinarySegment) : Prop :=
  match segments with
  | [] => off = total
  | s :: rest => segment_bit_offset s = off /\ laid_out (off + segment_width s) total rest
  end.

Lemma laid_out_le off total segments : Forall (fun s => 0 <= segment_width s) segments ->
  laid_out off total segments -> off <= total.
Proof.
  revert off. induction segments as [|s rest IH]; intros off Hw H; simpl in H; [lia|].
  inversion Hw; subst. destruct H as [_ H]. specialize (IH _ H3 H). lia.
Qed.

Lemma float_segment_width w x n : float_segment_bits w x = Ok n -> w = 32 \/ w = 64.
Proof.
  unfold float_segment_bits. destruct (Z.eqb_spec w 32); [auto|]. destruct (Z.eqb_spec w 64); [auto|]. done.
Qed.

(** Building one segment writes its bits at its offset. *)
Lemma construct_segment_spec checks frame buf s src :
  segment_ok frame s -> segment_source frame s = Some src -> 0 <= segment_bit_offset s ->
  segment_bit_offset s + segment_width s <= 8 * Z.of_nat (length buf) -> Forall byte_ok buf ->
  (forall p, segment_bit_offset s <= p -> bit_at buf p = false) ->
  exists buf', construct_segment checks frame buf s = Ok buf' /\ length buf' = length buf /\ Forall byte_ok buf' /\
    forall p, 0 <= p -> bit_at buf' p =
      if (segment_bit_offset s <=? p) && (p <? segment_bit_offset s + segment_width s)
      then src (p - segment_bit_offset s) else bit_at buf p.
Proof.
  intros (Hw & _ & Hkind) Hsrc Ho Hfit Hok Hz.
  destruct s as [v w sg e o|v w e o|v n o]; simpl in *; unfold lookup_value.
  - destruct (values frame !! v) as [[]|] eqn:Ev; simplify_eq/=.
    destruct (pack_spec checks buf (as_u64 n) w e o) as (buf' & -> & Hl & Hok' & Hb); [lia|done|lia|done|intros p Hp; apply Hz; lia|].
    simpl.
    exists buf'. split_and!; try done. intros p Hp. rewrite Hb by done.
    destruct (Z.leb_spec o p), (Z.ltb_spec p (o + w)); simpl; try done.
    unfold as_u64. pose proof (seg_bit_range e w o (p - o) ltac:(lia)) as Hr. rewrite wrap_testbit by lia.
    destruct (Z.ltb_spec (seg_bit e w o (p - o)) 64); [done|lia].
  - destruct (values frame !! v) as [x|] eqn:Ev; [|done]. destruct (float_segment_bits w x) as [n| |] eqn:Ef; try done.
    simplify_eq/=. pose proof (float_segment_width w x n Ef) as Hw64. rewrite Ef. simpl.
    destruct (pack_spec checks buf n w e o) as (buf' & -> & Hl & Hok' & Hb); [lia|done|lia|done|intros p Hp; apply Hz; lia|].
    simpl.
    exists buf'. split; [done|]. split; [done|]. split; [done|]. exact Hb.
  - destruct (values frame !! v) as [[]|] eqn:Ev; simplify_eq/=. destruct Hkind as [Hal Hb].
    destruct (Hb bytes eq_refl) as [Hn Hbok]. destruct (byte_pos o Ho) as (O1 & _ & O3). rewrite Hal in O1.
    destruct (slice_spec bytes 0 n) as (sl & -> & Hsl & Hslo & Hslb); [lia..|done|]. simpl.
    destruct (copy_into_spec buf (o / 8) sl) as (buf' & -> & Hl & Hok' & Hbits); [lia..|done|done|].
    exists buf'. split_and!; try done. intros p Hp. rewrite Hbits by done. rewrite Hsl.
    replace (8 * (o / 8)) with o by lia. replace (8 * (o / 8 + n)) with (o + n * 8) by lia.
    destruct (Z.leb_spec o p), (Z.ltb_spec p (o + n * 8)); simpl; try done. rewrite Hslb by lia. f_equal.
Qed.

Lemma construct_segments_spec checks frame segments : forall buf off total,
  Forall (segment_ok frame) segments -> laid_out off total segments -> 0 <= off ->
  total <= 8 * Z.of_nat (length buf) -> Forall byte_ok buf -> (forall p, off <= p -> bit_at buf p = false) ->
  exists buf', construct_segments checks frame buf segments = Ok buf' /\ length buf' = length buf /\
    Forall byte_ok buf' /\ (forall p, 0 <= p < off -> bit_at buf' p = bit_at buf p) /\
    (forall p, total <= p -> bit_at buf' p = false) /\
    forall s src, s ∈ segments -> segment_source frame s = Some src ->
      forall k, 0 <= k < segment_width s -> bit_at buf' (segment_bit_offset s + k) = src k.
Proof.
  induction segments as [|s rest IH]; intros buf off total Hseg Hlay Hoff Htot Hok Hz; simpl in Hlay.
  { exists buf. subst. split_and!; try done. intros s src Hs. by apply not_elem_of_nil in Hs. }
  inversion Hseg as [|? ? Hs Hrest]; subst. destruct Hlay as [Eo Hlay].
  pose proof Hs as (Hw & [src Hsrc] & _).
  assert (off + segment_width s <= total) as Hle.
  { eapply laid_out_le; [|exact Hlay]. eapply Forall_impl; [exact Hrest|]. by intros x (? & _). }
  destruct (construct_segment_spec checks frame buf s src) as (b1 & E1 & L1 & O1 & B1);
    [done|done|lia|lia|done|intros p Hp; apply Hz; lia|].
  cbn [construct_segments]. rewrite E1. simpl. rewrite Eo in B1.
  destruct (IH b1 (off + segment_width s) total) as (b2 & E2 & L2 & O2 & Low & High & Hsegs);
    [done|done|lia|by rewrite L1|done| |].
  { intros p Hp. rewrite B1 by lia. destruct (Z.ltb_spec p (off + segment_width s)); [lia|].
    rewrite andb_false_r. apply Hz. lia. }
  exists b2. split_and!; try done; [congruence| |].
  - intros p Hp. rewrite Low, B1 by lia. destruct (Z.leb_spec off p); [lia|done].
  - intros s' src' Hin Hsrc' k Hk. apply elem_of_cons in Hin as [->|Hin]; [|by eapply Hsegs].
    rewrite Hsrc in Hsrc'. simplify_eq. rewrite Low, B1 by lia.
    destruct (Z.leb_spec (segment_bit_offset s) (segment_bit_offset s + k)),
      (Z.ltb_spec (segment_bit_offset s + k) (segment_bit_offset s + segment_width s)); try lia. simpl. f_equal. lia.
Qed.

(** The payload a literal of [total] bits builds. *)
Definition literal_value (layout : ResolvedBinaryLayout) (bytes : list Z) : Value :=
  if byte_aligned layout then VBinary bytes else VBits bytes (total_bits layout).

(** Construction never fails on a literal the lowering laid out: the value is of the
    layout's type and holds the bits of every segment, in order and zero padded. *)
Lemma construct_literal_bits checks frame layout segments :
  Forall (segment_ok frame) segments -> laid_out 0 (total_bits layout) segments ->
  byte_aligned layout = (total_bits layout mod 8 =? 0) ->
  exists bytes, construct_binary_literal checks layout segments frame = Ok (literal_value layout bytes) /\
    bits_ok bytes (total_bits layout) /\
    forall s src, s ∈ segments -> segment_source frame s = Some src ->
      forall k, 0 <= k < segment_width s -> bit_at bytes (segment_bit_offset s + k) = src k.
Proof.
  intros Hseg Hlay Hal.
  assert (0 <= total_bits layout) as Ht.
  { eapply laid_out_le; [|exact Hlay]. eapply Forall_impl; [exact Hseg|]. by intros x (? & _). }
  destruct (div_ceil8_bound _ Ht) as [Hc Hc0]. pose proof (zeros_length _ Hc0) as Hzl.
  destruct (construct_segments_spec checks frame segments (zeros (div_ceil8 (total_bits layout))) 0 (total_bits layout))
    as (bytes & E & L & O & _ & High & Hbits); try done; try lia.
  { apply zeros_ok. }
  { intros p _. apply bit_at_zeros. }
  exists bytes. unfold construct_binary_literal, literal_value. rewrite E. simpl.
  split; [by destruct (byte_aligned layout)|]. split; [|done]. split_and!; try done. by rewrite L, Hzl.
Qed.

(** ** Matching *)

(** A pattern segment that reads a literal's segment back: it stands at the same
    place with the same width and byte order, and binds, tests or skips it. *)
Inductive reads_back (frame : Frame) : LoweredBinarySegment -> LoweredBinaryPattern -> Prop :=
| rb_bind v w sg e o l sign ty : 0 < w ->
    reads_back frame (SInteger v w sg e o) (BindInt o e l sign ty w)
| rb_literal v w sg e o sign n m : values frame !! v = Some (VInt n) -> wrap w m = wrap w n ->
    - 2 ^ 127 <= m < 2 ^ 127 -> reads_back frame (SInteger v w sg e o) (LiteralInt o e sign m w)
| rb_bytes v n o b : values frame !! v = Some (VString b) ->
    reads_back frame (SString v n o) (LiteralBytes o (take (Z.to_nat n) b))
| rb_skip s : reads_back frame s (Discard (segment_bit_offset s) (segment_width s)).

(** The value a binding receives: the low [w] bits, read with the segment's sign. *)
Definition bound_value (n w : Z) (sign : BinarySign) : Value :=
  VInt (match sign with Signed => swrap w n | Unsigned => swrap 64 (wrap w n) end).

(** The locals after reading a literal built in [src] back. *)
Fixpoint read_back_frame (src : Frame) (segments : list LoweredBinarySegment)
    (patterns : list LoweredBinaryPattern) (frame : Frame) : Frame :=
  match segments, patterns with
  | SInteger v _ _ _ _ :: ss, BindInt _ _ l sign _ w :: ps =>
      let frame := match values src !! v with
                   | Some (VInt n) => set_local frame l (bound_value n w sign)
                   | _ => frame
                   end in
      read_back_frame src ss ps frame
  | _ :: ss, _ :: ps => read_back_frame src ss ps frame
  | _, _ => frame
  end.

(** The types a binding is stamped with are [Int], or the annotation, which has the
    segment's width and no modifier. The stored value is of the type unless the
    annotation is a signed type narrower than a word and the top bit is set. *)
Lemma bound_value_typed n w sign ty : 0 < w <= 64 -> ty = TInt64 \/ sign = Unsigned /\ int_bit_width ty = Some w ->
  has_type ty (bound_value n w sign) <-> ~ (ty <> TInt64 /\ int_sign ty = Some Signed /\ Z.testbit n (w - 1) = true).
Proof.
  intros Hw Hty. pose proof (wrap_range w n ltac:(lia)) as Hr. pose proof (swrap_range 64 (wrap w n) ltac:(lia)) as H64.
  assert (2 ^ (w - 1) <= 2 ^ 63) as Hp by (apply Z.pow_le_mono_r; lia).
  assert (ty = TInt64 \/ ty <> TInt64) as [->|Hne] by (destruct ty; (left; reflexivity) || (right; discriminate)).
  { split; [naive_solver|]. intros _. simpl. destruct sign; [|lia]. pose proof (swrap_range w n ltac:(lia)). lia. }
  destruct Hty as [|[-> Ew]]; [done|].
  assert (Z.testbit n (w - 1) = (2 ^ (w - 1) <=? wrap w n)) as ->.
  { rewrite <- (Z.mod_pow2_bits_low n w) by lia. fold (wrap w n). assert (2 ^ w = 2 * 2 ^ (w - 1)) as E.
    { rewrite <- Z.pow_succ_r by lia. f_equal. lia. }
    rewrite Z.testbit_odd, Z.shiftr_div_pow2 by lia. destruct (Z.leb_spec (2 ^ (w - 1)) (wrap w n)).
    - replace (wrap w n / 2 ^ (w - 1)) with 1; [done|]. apply Z.div_unique with (wrap w n - 2 ^ (w - 1)); lia.
    - by rewrite Z.div_small by lia. }
  destruct ty; simplify_eq/=; rewrite ?Z.leb_le; try (rewrite swrap_small by lia);
    split; try (intros; lia); try naive_solver lia.
  all: intros H; match type of H with ~ (_ /\ _ /\ ?a <= ?b) => assert (~ a <= b) by (intros ?; by apply H) end; lia.
Qed.

Lemma wrap_eq_testbit w a b k : 0 <= w -> wrap w a = wrap w b -> 0 <= k < w -> Z.testbit a k = Z.testbit b k.
Proof.
  intros Hw E Hk. pose proof (f_equal (fun z => Z.testbit z k) E) as H. cbv beta in H.
  rewrite !wrap_testbit in H by lia. destruct (Z.ltb_spec k w); [done|lia].
Qed.

(** One pattern segment over a payload that holds the literal's bits. *)
Lemma match_segment_reads_back checks src bytes len frame s p bits :
  segment_ok src s -> segment_source src s = Some bits -> 0 <= segment_bit_offset s ->
  segment_bit_offset s + segment_width s <= 8 * Z.of_nat (length bytes) -> Forall byte_ok bytes ->
  (forall k, 0 <= k < segment_width s -> bit_at bytes (segment_bit_offset s + k) = bits k) ->
  reads_back src s p ->
  match_segment checks bytes len p frame = Ok (true, read_back_frame src [s] [p] frame).
Proof.
  intros (Hw & _ & Hkind) Hsrc Ho Hfit Hok Hbits Hrb.
  destruct Hrb as [v w sg e o l sign ty Hpos|v w sg e o sign n m Hv Hm Hrange|v n o b Hv|s']; simpl in *.
  - destruct (values src !! v) as [[]|]; simplify_eq/=.
    rewrite (extract_bits_of checks bytes w e o n) by (try done; lia). simpl.
    rewrite sign_interpret_spec by (try apply wrap_range; lia). unfold bound_value.
    destruct sign; [|done]. by rewrite swrap_wrap by lia.
  - rewrite Hv in Hsrc. simplify_eq/=.
    destruct (literal_segment_exact checks bytes w e o m) as (r & -> & Hr); try done. simpl.
    replace r with true; [done|]. symmetry. apply Hr. intros k Hk. rewrite Hbits by done.
    apply (wrap_eq_testbit w); [done|by symmetry|by apply seg_bit_range].
  - rewrite Hv in Hsrc. simplify_eq/=. destruct Hkind as [Hal Hb]. destruct (Hb b Hv) as [Hn Hbok].
    destruct (byte_pos o Ho) as (O1 & _ & O3). rewrite Hal in O1.
    assert (Z.of_nat (length (take (Z.to_nat n) b)) = n) as Hlen by (rewrite length_take; lia). rewrite Hlen.
    destruct (slice_spec bytes (o / 8) n) as (win & -> & Hwl & Hwo & Hwb); [lia..|done|]. simpl.
    rewrite bool_decide_true; [done|]. apply bits_ext; [lia|done|by apply Forall_take|].
    intros p Hp. destruct (Z.lt_ge_cases p (8 * n)) as [Hlt|Hge]; [|by rewrite !bit_at_beyond by lia].
    rewrite Hwb by lia. replace (8 * (o / 8) + p) with (o + p) by lia. rewrite Hbits by lia.
    rewrite <- (take_drop (Z.to_nat n) b) at 1. apply bit_at_app_l. lia.
  - by destruct s'.
Qed.

Lemma read_back_cons src s ss p ps frame :
  read_back_frame src (s :: ss) (p :: ps) frame = read_back_frame src ss ps (read_back_frame src [s] [p] frame).
Proof. destruct s, p; reflexivity. Qed.

Lemma match_segments_read_back checks src bytes len segments patterns : forall off total frame,
  Forall2 (reads_back src) segments patterns -> Forall (segment_ok src) segments ->
  laid_out off total segments -> 0 <= off -> total <= 8 * Z.of_nat (length bytes) -> Forall byte_ok bytes ->
  (forall s bits, s ∈ segments -> segment_source src s = Some bits ->
    forall k, 0 <= k < segment_width s -> bit_at bytes (segment_bit_offset s + k) = bits k) ->
  match_segments checks bytes len patterns frame = Ok (true, read_back_frame src segments patterns frame).
Proof.
  intros off total frame Hrb. revert off frame.
  induction Hrb as [|s p ss ps Hsp Hrb IH]; intros off frame Hok Hlay Hoff Hfit Hby Hbits; [done|].
  inversion Hok as [|? ? Hs Hss]; subst. destruct Hlay as [Eo Hlay]. pose proof Hs as (Hw & [bits Hsrc] & _).
  assert (off + segment_width s <= total) as Hle.
  { eapply laid_out_le; [|exact Hlay]. eapply Forall_impl; [exact Hss|]. by intros x (? & _). }
  cbn [match_segments].
  rewrite (match_segment_reads_back checks src bytes len frame s p bits); [|done|done|lia|lia|done| |done].
  - cbn [bindO]. rewrite (read_back_cons src s ss p ps frame). apply (IH (off + segment_width s)); [done|done|lia|done|done|].
    intros s' bits' Hin. apply Hbits. by right.
  - intros k Hk. by apply (Hbits s); [left|..].
Qed.

(** C36: a pattern laid out like a literal reads the literal back, for segments with a
    value of their kind, integers of at most 64 bits and strings that start on a byte:
    building a [<<...>>] literal whose segments were laid out consecutively succeeds,
    and matching its value against a pattern of the same layout, which binds, tests or
    skips each segment, succeeds and stores in every bound local the low bits of its
    segment's value, as many as the segment is wide, sign extended when the pattern
    segment says [signed] and zero extended otherwise, whatever the local's type
    ([bound_value_typed] says when that is a value of the type). *)
Theorem literal_match_roundtrip checks src layout segments patterns frame :
  Forall (segment_ok src) segments -> laid_out 0 (total_bits layout) segments ->
  byte_aligned layout = (total_bits layout mod 8 =? 0) -> Forall2 (reads_back src) segments patterns ->
  exists v, construct_binary_literal checks layout segments src = Ok v /\
    execute_binary_match checks (mkMatchLayout (total_bits layout) false) patterns v frame =
      Ok (true, read_back_frame src segments patterns frame).
Proof.
  intros Hseg Hlay Hal Hrb. destruct (construct_literal_bits checks src layout segments Hseg Hlay Hal)
    as (bytes & E & (Ht & Hlen & Hok & _) & Hbits).
  exists (literal_value layout bytes). split; [done|].
  fold (div_ceil8 (total_bits layout)) in Hlen. destruct (div_ceil8_bound _ Ht) as [Hc _].
  assert (subject_payload (literal_value layout bytes) = Some (bytes, total_bits layout)) as Hsub.
  { unfold literal_value. destruct (byte_aligned layout) eqn:Hb; [|done]. simpl. do 2 f_equal.
    symmetry in Hal. apply Z.eqb_eq in Hal. pose proof (Z.div_mod (total_bits layout) 8 ltac:(lia)). lia. }
  unfold execute_binary_match. rewrite Hsub. simpl. rewrite Z.eqb_refl. simpl.
  apply (match_segments_read_back checks src bytes _ segments patterns 0 (total_bits layout)); try done; lia.
Qed.

Lemma literal_match_roundtrip_witness :
  let src := mkFrame [] {[ 0 := VInt 5; 1 := VInt (-2); 2 := VString [72; 105] ]} ∅ in
  let segments := [SInteger 0 4 Unsigned Big 0; SInteger 1 12 Signed Big 4; SString 2 2 16] in
  let patterns := [LiteralInt 0 Big Unsigned 5 4; BindInt 4 Big 7 Signed TInt64 12; LiteralBytes 16 [72; 105]] in
  exists v, construct_binary_literal true (mkLayout 32 true) segments src = Ok v /\
    v = VBinary [95; 254; 72; 105] /\
    execute_binary_match true (mkMatchLayout 32 false) patterns v (frame_with_captures []) =
      Ok (true, mkFrame [] ∅ {[ 7 := VInt (-2) ]}).
Proof.
  intros src segments patterns.
  destruct (literal_match_roundtrip true src (mkLayout 32 true) segments patterns (frame_with_captures []))
    as (v & Hc & Hm).
  - do 2 (constructor; [split; [simpl; lia|]; split; [eexists; reflexivity|simpl; lia]|]).
    constructor; [|constructor]. split; [simpl; lia|]. split; [eexists; reflexivity|]. split; [reflexivity|].
    intros b Hb. vm_compute in Hb. injection Hb as <-. split; [simpl; lia|].
    repeat (constructor; [split; lia|]). constructor.
  - repeat split; reflexivity.
  - reflexivity.
  - constructor; [|constructor; [|constructor; [|constructor]]].
    + apply (rb_literal src 0 4 Unsigned Big 0 Unsigned 5 5); [reflexivity|reflexivity|lia].
    + apply rb_bind. lia.
    + apply (rb_bytes src 2 2 16 [72; 105]). reflexivity.
  - exists v. split; [exact Hc|]. split; [vm_compute in Hc; congruence|]. exact Hm.
Defined.

(** ** Where binding departs from the storage convention *)

(** A segment bound at a narrow signed type without the [signed] modifier stores a
    value the type does not have: reading back the byte [200] at [Int8]. The extracted
    pattern is zero extended and never narrowed to the local's type. *)
Example bind_narrow_signed :
  match_segment true [200] 8 (BindInt 0 Big 1 Unsigned TInt8 8) (frame_with_captures []) =
    Ok (true, mkFrame [] ∅ {[ 1 := VInt 200 ]}) /\ ~ has_type TInt8 (VInt 200).
Proof. split; [reflexivity|]. simpl. lia. Qed.

(** Under overflow checks a segment wider than 64 bits cannot be packed, nor bound when
    it is whole bytes on a byte boundary: one byte is shifted by the whole word. No
    earlier stage rejects the width. *)
Example wide_segment_panics :
  pack_integer_segment true (zeros 9) 1 72 Big 0 = None /\
  extract_integer_segment true (zeros 9) 72 Big 0 = None /\
  pack_integer_segment false (zeros 9) 1 72 Big 0 = Some [1; 0; 0; 0; 0; 0; 0; 0; 1].
Proof. split_and!; reflexivity. Qed.
