(* ===== verification/BinaryLower.v ===== *)
(** * Checking and lowering binary literals and patterns

    Models the two passes that must agree on the width of every segment of a
    [<<...>>] form: the type checker ([koja-typecheck/src/pipeline/resolve/literals/binary.rs]
    and [patterns/binary.rs]) and the lowering ([koja-ir/src/lower/binary_literal.rs],
    [binary_match.rs] and [parse_int_literal] of [ops.rs]).

    A segment carries the shapes of its expressions the passes tell apart; the
    expression lowering is what gives each segment its [ValueId] and [IRType]. A pass
    that reports a diagnostic returns [None]; the text is not modelled. Bit totals are
    unbounded integers. *)

From Stdlib Require Import Ascii String.
From stdpp Require Import strings.
From S2P Require Import Prelude IRValue EvalOps BinaryOps BinaryBits.
Local Open Scope Z_scope.
Local Open Scope list_scope.

(** ** Segments of the AST *)

Inductive StringPart := PartLiteral (bytes : list Z) | PartInterpolation.

(** The expression shapes the passes distinguish. *)
Inductive SegExpr :=
| XString (parts : list StringPart)
| XInt (text : string)
| XLiteral
| XNeg (operand : SegExpr)
| XIdent (name : string) (local : option IRLocalId)
| XOther.

Inductive TypeExpr := TNamed (path : list string) | TOtherExpr.

Inductive BinaryUnit := Bit | Byte.

#[global] Instance BinaryUnit_eq_dec : EqDecision BinaryUnit.
Proof. solve_decision. Defined.

(** [primitive] is the primitive type the checker resolved the value to, if any. *)
Record BinarySegment := mkSegment {
  value : SegExpr;
  primitive : option string;
  size : option SegExpr;
  unit : BinaryUnit;
  signedness : option BinarySign;
  endianness : option BinaryEndian;
  type_ann : option TypeExpr;
}.

(** [path.last().map(Name::as_str).unwrap_or("")]. *)
Definition last_name (path : list string) : string := default ""%string (last path).

Definition string_segment_bytes (e : SegExpr) : option (list Z) :=
  match e with
  | XString parts =>
      foldr (fun part acc => match part, acc with
                             | PartLiteral b, Some rest => Some (b ++ rest)
                             | _, _ => None
                             end) (Some []) parts
  | _ => None
  end.

Definition string_segment_byte_length (e : SegExpr) : option Z :=
  (fun b => Z.of_nat (List.length b)) <$> string_segment_bytes e.

(** ** Integer literals *)

(** A digit of a radix up to 16, in either case. *)
Definition digit (radix : Z) (c : ascii) : option Z :=
  let n := Z.of_nat (nat_of_ascii c) in
  let d := if in_range 48 57 n then n - 48
           else if in_range 97 102 n then n - 87
           else if in_range 65 70 n then n - 55
           else radix in
  if d <? radix then Some d else None.

Fixpoint digits (radix acc : Z) (cs : list ascii) : option Z :=
  match cs with
  | [] => Some acc
  | c :: rest => match digit radix c with
                 | Some d => digits radix (acc * radix + d) rest
                 | None => None
                 end
  end.

(** [from_str_radix] of an unsigned or signed type with the given bounds. *)
Definition from_str_radix (lo hi radix : Z) (cs : list ascii) : option Z :=
  let parsed :=
    match cs with
    | [] => None
    | c :: rest =>
        let more := bool_decide (rest <> []) in
        if Ascii.eqb c "+" && more then digits radix 0 rest
        else if Ascii.eqb c "-" && more && (lo <? 0) then Z.opp <$> digits radix 0 rest
        else digits radix 0 cs
    end in
  match parsed with
  | Some n => if (lo <=? n) && (n <=? hi) then Some n else None
  | None => None
  end.

Definition parse_u64 (text : string) : option Z :=
  from_str_radix 0 (2 ^ 64 - 1) 10 (list_ascii_of_string text).

Definition parse_i128_radix (radix : Z) (cs : list ascii) : option Z :=
  from_str_radix (- 2 ^ 127) (2 ^ 127 - 1) radix cs.

Definition parse_i128 (text : string) : option Z := parse_i128_radix 10 (list_ascii_of_string text).

Definition parse_int_literal (text : string) : option Z :=
  let cleaned := List.filter (fun c => negb (Ascii.eqb c "_")) (list_ascii_of_string text) in
  match cleaned with
  | c0 :: c1 :: rest =>
      if Ascii.eqb c0 "0" && (Ascii.eqb c1 "x" || Ascii.eqb c1 "X") then parse_i128_radix 16 rest
      else if Ascii.eqb c0 "0" && (Ascii.eqb c1 "b" || Ascii.eqb c1 "B") then parse_i128_radix 2 rest
      else parse_i128_radix 10 cleaned
  | _ => parse_i128_radix 10 cleaned
  end.

(** ** Literals in the type checker ([literals/binary.rs]) *)

(** The width and sign an integer annotation gives. *)
Definition int_annotation (name : string) : option (Z * BinarySign) :=
  if String.eqb name "Int8" then Some (8, Signed)
  else if String.eqb name "UInt8" then Some (8, Unsigned)
  else if String.eqb name "Int16" then Some (16, Signed)
  else if String.eqb name "UInt16" then Some (16, Unsigned)
  else if String.eqb name "Int32" then Some (32, Signed)
  else if String.eqb name "UInt32" then Some (32, Unsigned)
  else if String.eqb name "Int64" then Some (64, Signed)
  else if String.eqb name "UInt64" then Some (64, Unsigned)
  else None.

Definition float_annotation (name : string) : option Z :=
  if String.eqb name "Float32" then Some 32 else if String.eqb name "Float64" then Some 64 else None.

Definition is_primitive (s : BinarySegment) (name : string) : bool :=
  bool_decide (primitive s = Some name).

Definition literal_fits_int_segment (s : BinarySegment) (width_bits : Z) (sign : BinarySign) : bool :=
  match value s with
  | XInt text =>
      match parse_i128 text with
      | None => true
      | Some v =>
          if (width_bits =? 0) || (127 <? width_bits) then true
          else
            let '(low, high) := match sign with
                                | Signed => (- Z.shiftl 1 (width_bits - 1), Z.shiftl 1 (width_bits - 1) - 1)
                                | Unsigned => (0, Z.shiftl 1 width_bits - 1)
                                end in
            (low <=? v) && (v <=? high)
      end
  | _ => true
  end.

(** [SegmentInfo]: a fixed width, or a splice. *)
Inductive SegmentInfo := Fixed (width_bits : Z) | SpliceInfo.

Definition splice_segment_info (s : BinarySegment) : option SegmentInfo :=
  if negb (is_primitive s "Binary") then None
  else if bool_decide (signedness s = None /\ endianness s = None) then Some SpliceInfo else None.

(** [::N] with its unit; the multiplication by 8 saturates. *)
Definition sized_width (s : BinarySegment) (size_expr : SegExpr) : option Z :=
  match size_expr with
  | XInt n => (fun bits => match unit s with
                           | Bit => bits
                           | Byte => Z.min (bits * 8) (2 ^ 64 - 1)
                           end) <$> parse_u64 n
  | _ => None
  end.

Definition resolve_segment (s : BinarySegment) : option SegmentInfo :=
  match string_segment_byte_length (value s) with
  | Some byte_length =>
      if bool_decide (size s = None /\ type_ann s = None) then Some (Fixed (byte_length * 8)) else None
  | None =>
      match size s, type_ann s with
      | Some size_expr, _ =>
          match sized_width s size_expr with
          | None => None
          | Some width_bits =>
              if width_bits =? 0 then None
              else if negb (is_primitive s "Int") then None
              else if literal_fits_int_segment s width_bits Unsigned then Some (Fixed width_bits) else None
          end
      | None, Some TOtherExpr => None
      | None, Some (TNamed path) =>
          let name := last_name path in
          if String.eqb name "Binary" then splice_segment_info s
          else match float_annotation name with
          | Some width_bits =>
              match value s with XInt _ => None | _ => Some (Fixed width_bits) end
          | None =>
              match int_annotation name with
              | Some (width_bits, sign) =>
                  if literal_fits_int_segment s width_bits sign then Some (Fixed width_bits) else None
              | None => None
              end
          end
      | None, None =>
          if is_primitive s "Binary" then splice_segment_info s
          else if negb (is_primitive s "Int") then None
          else if literal_fits_int_segment s 8 Unsigned then Some (Fixed 8) else None
      end
  end.

(** The walk of [resolve_binary_literal]: total bits, bits of the current run, whether
    a splice was seen, whether every segment resolved. *)
Fixpoint resolve_segments (segments : list BinarySegment) (total run : Z) (has_splice ok : bool)
    : Z * Z * bool * bool :=
  match segments with
  | [] => (total, run, has_splice, ok)
  | s :: rest =>
      match resolve_segment s with
      | Some (Fixed bits) => resolve_segments rest (total + bits) (run + bits) has_splice ok
      | Some SpliceInfo => resolve_segments rest total 0 true (ok && (run mod 8 =? 0))
      | None => resolve_segments rest total run has_splice false
      end
  end.

(** The primitive type of the literal, [None] for [ResolvedType::Failed]. *)
Definition resolve_binary_literal (segments : list BinarySegment) : option string :=
  let '(total, run, has_splice, ok) := resolve_segments segments 0 0 false true in
  let ok := ok && negb (has_splice && negb (run mod 8 =? 0)) in
  if ok then Some (if has_splice || (total mod 8 =? 0) then "Binary"%string else "Bits"%string) else None.

(** ** Lowering literals ([lower/binary_literal.rs]) *)

Inductive ClassifiedSegment := CInteger (width : Z) | CFloat (width : Z) | CSplice | CString (byte_length : Z).

Definition classify_segment (s : BinarySegment) (value_ty : option IRType) : option ClassifiedSegment :=
  match string_segment_byte_length (value s) with
  | Some byte_length => Some (CString byte_length)
  | None =>
      match size s, type_ann s with
      | Some size_expr, _ => CInteger <$> sized_width s size_expr
      | None, Some (TNamed path) =>
          let name := last_name path in
          if String.eqb name "Binary" then Some CSplice
          else match float_annotation name with
          | Some w => Some (CFloat w)
          | None => (fun '(w, _) => CInteger w) <$> int_annotation name
          end
      | None, Some TOtherExpr => None
      | None, None =>
          match value_ty with Some TBinary => Some CSplice | _ => Some (CInteger 8) end
      end
  end.

Definition ast_endianness_to_ir (e : option BinaryEndian) : BinaryEndian := default Big e.
Definition ast_signedness_to_ir (s : option BinarySign) : BinarySign := default Unsigned s.

(** An operand of the concatenation a literal lowers to. *)
Inductive Operand :=
| OConstruct (layout : ResolvedBinaryLayout) (segments : list LoweredBinarySegment)
| OValue (v : ValueId).

Definition emit_construct (segments : list LoweredBinarySegment) (bits : Z) : Operand :=
  OConstruct (mkLayout bits (bits mod 8 =? 0)) segments.

Record ConcatBuilder := mkBuilder {
  has_splice : bool;
  operands : list Operand;
  run : list LoweredBinarySegment;
  run_bits : Z;
}.

Definition builder_default : ConcatBuilder := mkBuilder false [] [] 0.

Definition builder_push (b : ConcatBuilder) (s : LoweredBinarySegment) : ConcatBuilder :=
  mkBuilder (has_splice b) (operands b) (run b ++ [s]) (run_bits b + segment_width s).

Definition builder_flush (b : ConcatBuilder) : option ConcatBuilder :=
  match run b with
  | [] => Some b
  | _ :: _ =>
      if has_splice b && negb (run_bits b mod 8 =? 0) then None
      else Some (mkBuilder (has_splice b) (operands b ++ [emit_construct (run b) (run_bits b)]) [] 0)
  end.

Definition builder_splice (b : ConcatBuilder) (v : ValueId) : ConcatBuilder :=
  mkBuilder (has_splice b) (operands b ++ [OValue v]) (run b) (run_bits b).

(** One segment with the value and type its expression lowered to. *)
Definition lower_literal_segment (b : ConcatBuilder) (s : BinarySegment) (v : ValueId) (ty : IRType)
    : option ConcatBuilder :=
  let bare := bool_decide (size s = None /\ type_ann s = None) in
  match classify_segment s (if bare then Some ty else None) with
  | None => None
  | Some (CInteger w) =>
      Some (builder_push b (SInteger v w (ast_signedness_to_ir (signedness s))
                              (ast_endianness_to_ir (endianness s)) (run_bits b)))
  | Some (CFloat w) =>
      Some (builder_push b (SFloat v w (ast_endianness_to_ir (endianness s)) (run_bits b)))
  | Some (CString n) => Some (builder_push b (SString v n (run_bits b)))
  | Some CSplice =>
      (fun b => builder_splice b v) <$> builder_flush (mkBuilder true (operands b) (run b) (run_bits b))
  end.

Fixpoint lower_segments (b : ConcatBuilder) (segments : list (BinarySegment * ValueId * IRType))
    : option ConcatBuilder :=
  match segments with
  | [] => Some b
  | (s, v, ty) :: rest =>
      match lower_literal_segment b s v ty with
      | Some b => lower_segments b rest
      | None => None
      end
  end.

(** [concat_operands] folds the operands left to right with [Concat<Binary>]; no
    operand at all builds the empty literal. *)
Definition concat_operands (ops : list Operand) : Operand * list Operand :=
  match ops with
  | [] => (emit_construct [] 0, [])
  | first :: rest => (first, rest)
  end.

Definition lower_binary_literal (segments : list (BinarySegment * ValueId * IRType))
    : option (Operand * list Operand) :=
  match lower_segments builder_default segments with
  | Some b => match builder_flush b with
              | Some b => Some (concat_operands (operands b))
              | None => None
              end
  | None => None
  end.

(** Running the lowered instructions in a frame. *)
Definition eval_operand (checks : bool) (frame : Frame) (o : Operand) : Outcome Value :=
  match o with
  | OConstruct layout segments => construct_binary_literal checks layout segments frame
  | OValue v => lookup_value (values frame) v
  end.

Fixpoint eval_concat (checks : bool) (frame : Frame) (acc : Value) (ops : list Operand) : Outcome Value :=
  match ops with
  | [] => Ok acc
  | o :: rest =>
      let* v := eval_operand checks frame o in
      let* acc := concat_values KBinary acc v in
      eval_concat checks frame acc rest
  end.

Definition eval_literal (checks : bool) (frame : Frame) (prog : Operand * list Operand) : Outcome Value :=
  let* v := eval_operand checks frame prog.1 in
  eval_concat checks frame v prog.2.

(** ** The two passes agree *)

(** What a width decision of the checker means for the lowering's classification. *)
Definition info_matches (info : SegmentInfo) (c : ClassifiedSegment) : Prop :=
  match info, c with
  | Fixed w, CInteger w' | Fixed w, CFloat w' => w = w'
  | Fixed w, CString n => w = n * 8
  | SpliceInfo, CSplice => True
  | _, _ => False
  end.

(** The lowered value is a [Binary] exactly when the checker resolved it to one. *)
Definition type_agrees (s : BinarySegment) (ty : IRType) : Prop :=
  primitive s = Some "Binary"%string <-> ty = TBinary.

Definition bare_type (s : BinarySegment) (ty : IRType) : option IRType :=
  if bool_decide (size s = None /\ type_ann s = None) then Some ty else None.

Lemma classify_agrees s ty info : type_agrees s ty -> resolve_segment s = Some info ->
  exists c, classify_segment s (bare_type s ty) = Some c /\ info_matches info c.
Proof.
  intros Hty Hres. unfold resolve_segment in Hres. unfold classify_segment, bare_type.
  destruct (string_segment_byte_length (value s)) as [n|].
  { case_bool_decide; simplify_eq. eexists. split; [done|]. reflexivity. }
  destruct (size s) as [sz|] eqn:Esz.
  { destruct (sized_width s sz) as [w|]; [|done]. repeat (case_match; simplify_eq). eexists. split; [done|]. done. }
  destruct (type_ann s) as [[path|]|] eqn:Eann; [|done|].
  - cbv zeta in *. destruct (String.eqb _ _).
    { unfold splice_segment_info in Hres. repeat (case_match; simplify_eq). eexists. by split. }
    destruct (float_annotation _) as [w|].
    { destruct (value s); simplify_eq; eexists; by split. }
    destruct (int_annotation _) as [[w sg]|]; [|done]. destruct (literal_fits_int_segment _ _ _); simplify_eq.
    eexists. by split.
  - rewrite bool_decide_true by done. unfold is_primitive in *. case_bool_decide as Hb.
    + unfold splice_segment_info, is_primitive in Hres. rewrite bool_decide_true in Hres by done.
      simpl in Hres. case_bool_decide; simplify_eq. rewrite (proj1 Hty Hb). eexists. by split.
    + assert (ty <> TBinary) as Hnb by (intros ->; by apply Hb, Hty).
      case_bool_decide; [|done]. simpl in Hres. destruct (literal_fits_int_segment _ _ _); simplify_eq.
      destruct ty; try done; eexists; (split; [done|]); reflexivity.
Qed.

Lemma resolve_segments_failed segments : forall total run hs, (resolve_segments segments total run hs false).2 = false.
Proof.
  induction segments as [|s rest IH]; intros; simpl; [done|].
  destruct (resolve_segment s) as [[w|]|]; apply IH.
Qed.

Lemma from_str_radix_bound lo hi radix cs n : from_str_radix lo hi radix cs = Some n -> lo <= n <= hi.
Proof.
  unfold from_str_radix. cbv zeta. destruct (match cs with [] => None | _ => _ end) as [m|]; [|done].
  destruct (Z.leb_spec lo m), (Z.leb_spec m hi); intros; simplify_eq/=; lia.
Qed.

Section Agreement.
Context (frame : Frame).

(** What lowering the segment's expression gives: a value in the frame, of the type the
    checker recorded; a string literal is its bytes. *)
Definition operand_held (seg : BinarySegment * ValueId * IRType) : Prop :=
  let '(s, v, ty) := seg in
  type_agrees s ty /\
  (exists x, values frame !! v = Some x /\ has_type ty x) /\
  forall b, string_segment_bytes (value s) = Some b -> values frame !! v = Some (VString b) /\ Forall byte_ok b.

(** Whether a segment can be built: an integer segment needs an integer and, in a build
    with Rust's overflow checks, a word's width; a float segment needs a float. The
    checker asks for the kind of the value only when there is no annotation, and never
    for the width. *)
Definition segment_builds (checks : bool) (seg : BinarySegment * ValueId * IRType) : bool :=
  let '(s, v, ty) := seg in
  match classify_segment s (bare_type s ty) with
  | Some (CInteger w) => is_int ty && (negb checks || (w <=? 64))
  | Some (CFloat _) => is_float ty
  | Some _ => true
  | None => false
  end.

(** The same on lowered segments. *)
Definition lowered_held (s : LoweredBinarySegment) : Prop :=
  match s with
  | SInteger v w _ _ _ => 0 <= w /\ is_Some (values frame !! v)
  | SFloat v w _ _ => (w = 32 \/ w = 64) /\ is_Some (values frame !! v)
  | SString v n _ => exists b, values frame !! v = Some (VString b) /\ 0 <= n <= Z.of_nat (List.length b) /\ Forall byte_ok b
  end.

Definition lowered_builds (checks : bool) (s : LoweredBinarySegment) : bool :=
  match s with
  | SInteger v w _ _ _ =>
      match values frame !! v with Some (VInt _) => true | _ => false end && (negb checks || (w <=? 64))
  | SFloat v _ _ _ => match values frame !! v with Some (VFloat32 _) | Some (VFloat64 _) => true | _ => false end
  | SString _ _ _ => true
  end.

Lemma lowered_held_width s : lowered_held s -> 0 <= segment_width s.
Proof. destruct s; simpl; [intros [? _]; lia|lia|]. intros (? & ? & ? & ?). lia. Qed.

(** A segment is written at its place, over zeros, or not at all. A string that does
    not start on a byte is written from the byte it starts in. *)
Lemma construct_segment_verdict checks buf s : lowered_held s -> 0 <= segment_bit_offset s ->
  segment_bit_offset s + segment_width s <= 8 * Z.of_nat (List.length buf) -> Forall byte_ok buf ->
  (forall p, segment_bit_offset s <= p -> bit_at buf p = false) ->
  if lowered_builds checks s
  then exists buf', construct_segment checks frame buf s = Ok buf' /\ List.length buf' = List.length buf /\
         Forall byte_ok buf' /\ forall p, segment_bit_offset s + segment_width s <= p -> bit_at buf' p = false
  else forall buf', construct_segment checks frame buf s <> Ok buf'.
Proof.
  intros Hheld Ho Hfit Hok Hz. pose proof (lowered_held_width s Hheld) as Hw0.
  assert (forall n w e o, negb checks || (w <=? 64) = true -> 0 <= w -> 0 <= o -> o + w <= 8 * Z.of_nat (List.length buf) ->
    (forall p, o <= p -> bit_at buf p = false) ->
    exists buf', orCrash (pack_integer_segment checks buf n w e o) = Ok buf' /\ List.length buf' = List.length buf /\
      Forall byte_ok buf' /\ forall p, o + w <= p -> bit_at buf' p = false) as Hpack.
  { intros n w e o Hs Hw Ho' Hf Hz'. destruct (pack_total checks buf n w e o) as (b & -> & Hl & Hb & Hp); try done.
    exists b. split_and!; try done. intros p Hp'. rewrite Hp by done. apply Hz'. lia. }
  destruct s as [v w sg e o|v w e o|v n o]; simpl in *; unfold lookup_value.
  - destruct Hheld as [_ [x ->]]. destruct x; simpl; try done.
    destruct (negb checks || (w <=? 64)) eqn:Hs; [by apply Hpack|].
    destruct checks; [|done]. simpl in Hs. apply Z.leb_gt in Hs. by rewrite pack_overshift.
  - destruct Hheld as [Hw [x ->]]. unfold float_segment_bits.
    destruct Hw as [-> | ->]; destruct x; simpl; try done; (apply Hpack; [by rewrite orb_true_r|done..]).
  - destruct Hheld as (b & -> & Hn & Hb). simpl. destruct (byte_pos o Ho) as (O1 & O2 & O3).
    destruct (slice_spec b 0 n) as (sl & Es & Hsl & Hslo & _); [lia..|done|]. rewrite Es. simpl.
    destruct (copy_into_spec buf (o / 8) sl) as (buf' & Ec & Hl & Hok' & Hbits); [lia..|done|done|]. rewrite Ec.
    exists buf'. split_and!; try done. intros p Hp. rewrite Hbits by lia.
    destruct (Z.ltb_spec p (8 * (o / 8 + Z.of_nat (List.length sl)))); [lia|]. rewrite andb_false_r. apply Hz. lia.
Qed.

Lemma laid_out_nonneg off total l : Forall lowered_held l -> laid_out off total l -> off <= total.
Proof. intros Hok. apply laid_out_le. eapply Forall_impl; [exact Hok|exact lowered_held_width]. Qed.

Lemma construct_segments_verdict checks l : forall buf off total,
  Forall lowered_held l -> laid_out off total l -> 0 <= off -> total <= 8 * Z.of_nat (List.length buf) ->
  Forall byte_ok buf -> (forall p, off <= p -> bit_at buf p = false) ->
  if forallb (lowered_builds checks) l
  then exists buf', construct_segments checks frame buf l = Ok buf' /\ List.length buf' = List.length buf /\
         Forall byte_ok buf' /\ forall p, total <= p -> bit_at buf' p = false
  else forall buf', construct_segments checks frame buf l <> Ok buf'.
Proof.
  induction l as [|s l IH]; intros buf off total Hheld Hlay Hoff Hfit Hok Hz; simpl in Hlay.
  { subst. simpl. eauto. }
  inversion Hheld as [|? ? Hs Hl]; subst. destruct Hlay as [Eo Hlay]. pose proof (laid_out_nonneg _ _ _ Hl Hlay) as Hle.
  pose proof (lowered_held_width s Hs). cbn [forallb construct_segments].
  pose proof (construct_segment_verdict checks buf s Hs ltac:(lia) ltac:(lia) Hok ltac:(intros p Hp; apply Hz; lia)) as Hseg.
  destruct (lowered_builds checks s); cbn [andb].
  - destruct Hseg as (b1 & -> & L1 & O1 & Z1). cbn [bindO]. rewrite Eo in Z1.
    pose proof (IH b1 (off + segment_width s) total Hl Hlay ltac:(lia) ltac:(lia) O1 Z1) as Hrest.
    by rewrite L1 in Hrest.
  - intros buf'. destruct (construct_segment checks frame buf s) as [b| |] eqn:Ec; simpl; [|done..]. by destruct (Hseg b).
Qed.

Lemma construct_verdict checks r l : Forall lowered_held l -> laid_out 0 r l ->
  if forallb (lowered_builds checks) l
  then exists bytes, construct_binary_literal checks (mkLayout r (r mod 8 =? 0)) l frame =
         Ok (if r mod 8 =? 0 then VBinary bytes else VBits bytes r) /\ bits_ok bytes r
  else forall v, construct_binary_literal checks (mkLayout r (r mod 8 =? 0)) l frame <> Ok v.
Proof.
  intros Hheld Hlay. pose proof (laid_out_nonneg _ _ _ Hheld Hlay) as Hr.
  destruct (div_ceil8_bound r Hr) as [Hc Hc0]. pose proof (zeros_length _ Hc0) as Hzl.
  pose proof (construct_segments_verdict checks l (zeros (div_ceil8 r)) 0 r Hheld Hlay ltac:(lia) ltac:(lia)
    (zeros_ok _) ltac:(intros p _; apply bit_at_zeros)) as Hseg.
  unfold construct_binary_literal. cbn [total_bits byte_aligned]. destruct (forallb _ _).
  - destruct Hseg as (bytes & -> & Hl & Hok & Hz). exists bytes. cbn [bindO]. split; [by destruct (r mod 8 =? 0)|].
    split_and!; try done. by rewrite Hl, Hzl.
  - intros v. destruct (construct_segments _ _ _ _) as [b| |] eqn:Ec; simpl; [|done..]. by destruct (Hseg b).
Qed.

(** An operand of a literal with a splice: a splice's binary, or a run of whole bytes. *)
Definition operand_shaped (o : Operand) : Prop :=
  match o with
  | OConstruct layout l => exists r, layout = mkLayout r (r mod 8 =? 0) /\ r mod 8 = 0 /\ laid_out 0 r l /\ Forall lowered_held l
  | OValue v => exists b, values frame !! v = Some (VBinary b) /\ Forall byte_ok b
  end.

Definition operand_builds (checks : bool) (o : Operand) : bool :=
  match o with OConstruct _ l => forallb (lowered_builds checks) l | OValue _ => true end.

Lemma operand_verdict checks o : operand_shaped o ->
  if operand_builds checks o then exists b, eval_operand checks frame o = Ok (VBinary b) /\ Forall byte_ok b
  else forall v, eval_operand checks frame o <> Ok v.
Proof.
  destruct o as [layout l|v]; simpl.
  - intros (r & -> & Hr & Hlay & Hheld). pose proof (construct_verdict checks r l Hheld Hlay) as H. rewrite Hr in H.
    rewrite Hr. simpl in *. destruct (forallb _ _); [|done]. destruct H as (b & -> & _ & _ & Hb & _). eauto.
  - intros (b & Hv & Hb). unfold lookup_value. rewrite Hv. eauto.
Qed.

Lemma concat_verdict checks ops : forall acc, Forall operand_shaped ops -> Forall byte_ok acc ->
  if forallb (operand_builds checks) ops
  then exists b, eval_concat checks frame (VBinary acc) ops = Ok (VBinary b) /\ Forall byte_ok b
  else forall v, eval_concat checks frame (VBinary acc) ops <> Ok v.
Proof.
  induction ops as [|o rest IH]; intros acc Hops Hacc; simpl; [eauto|].
  inversion Hops as [|? ? Ho Hrest]; subst. pose proof (operand_verdict checks o Ho) as Hv.
  destruct (operand_builds checks o); cbn [andb].
  - destruct Hv as (b & -> & Hb). simpl. apply IH; [done|]. by apply Forall_app_2.
  - intros v. destruct (eval_operand checks frame o) as [x| |]; simpl; [|done..]. by destruct (Hv x).
Qed.

Lemma operands_verdict checks ops : Forall operand_shaped ops ->
  if forallb (operand_builds checks) ops
  then exists b, eval_literal checks frame (concat_operands ops) = Ok (VBinary b) /\ Forall byte_ok b
  else forall v, eval_literal checks frame (concat_operands ops) <> Ok v.
Proof.
  intros Hops. unfold eval_literal. destruct ops as [|o rest]; simpl; [by exists []|].
  inversion Hops as [|? ? Ho Hrest]; subst. pose proof (operand_verdict checks o Ho) as Hv.
  destruct (operand_builds checks o); cbn [andb].
  - destruct Hv as (b & -> & Hb). simpl. by apply concat_verdict.
  - intros v. destruct (eval_operand checks frame o) as [x| |]; simpl; [|done..]. by destruct (Hv x).
Qed.

(** The builder's state against the checker's walk, with whether the segments so far
    can be built. *)
Record builder_inv (b : ConcatBuilder) (total r : Z) (hs : bool) (builds : bool -> bool) : Prop := {
  inv_bits : run_bits b = r;
  inv_splice : has_splice b = hs;
  inv_laid : laid_out 0 r (run b);
  inv_segs : Forall lowered_held (run b);
  inv_ops : Forall operand_shaped (operands b);
  inv_nosplice : hs = false -> operands b = [] /\ total = r;
  inv_builds : forall checks, forallb (operand_builds checks) (operands b) && forallb (lowered_builds checks) (run b) = builds checks;
}.

Lemma laid_out_app off mid total l1 l2 : laid_out off mid l1 -> laid_out mid total l2 -> laid_out off total (l1 ++ l2).
Proof.
  revert off. induction l1 as [|s l1 IH]; intros off H1 H2; simpl in *; [by subst|].
  destruct H1 as [E H1]. split; [done|]. by apply IH.
Qed.

Lemma push_inv b total r hs builds s w :
  builder_inv b total r hs builds -> segment_bit_offset s = r -> segment_width s = w -> lowered_held s ->
  builder_inv (builder_push b s) (total + w) (r + w) hs (fun checks => builds checks && lowered_builds checks s).
Proof.
  intros [Hb Hs Hl Ho Hops Hno Hbu] Eo Ew Hok. split; simpl; try done.
  - by rewrite Hb, Ew.
  - apply (laid_out_app 0 r); [done|]. simpl. rewrite Ew. done.
  - by apply Forall_app_2; [|constructor].
  - intros ->. destruct (Hno eq_refl) as [-> ->]. done.
  - intros checks. rewrite <- Hbu, forallb_app. simpl. by rewrite andb_true_r, andb_assoc.
Qed.

Lemma flush_inv b total r builds : builder_inv b total r true builds -> r mod 8 = 0 ->
  exists b', builder_flush b = Some b' /\ builder_inv b' total 0 true builds /\ run b' = [].
Proof.
  intros Hinv Hal. pose proof Hinv as [Hb Hs Hl Ho Hops _ Hbu]. unfold builder_flush.
  destruct (run b) as [|s rest] eqn:Erun.
  - exists b. split; [done|]. simpl in Hl. subst r. rewrite <- Hl in *. split; [|done]. by split; rewrite ?Erun.
  - rewrite Hb, Hs, Hal. simpl. eexists. split; [done|]. split; [|done]. split; simpl; try done.
    + apply Forall_app_2; [done|]. constructor; [|constructor]. exists r. by split_and!.
    + intros checks. rewrite <- Hbu, forallb_app. simpl. by rewrite !andb_true_r.
Qed.

Lemma splice_inv b total r hs builds v bytes :
  builder_inv b total r hs builds -> r mod 8 = 0 -> values frame !! v = Some (VBinary bytes) -> Forall byte_ok bytes ->
  exists b', builder_flush (mkBuilder true (operands b) (run b) (run_bits b)) = Some b' /\
    builder_inv (builder_splice b' v) total 0 true builds.
Proof.
  intros [Hb Hs Hl Ho Hops Hno Hbu] Hal Hv Hok.
  destruct (flush_inv (mkBuilder true (operands b) (run b) (run_bits b)) total r builds) as (b' & E & Hinv & Er);
    [by split|done|].
  exists b'. split; [done|]. destruct Hinv as [? ? ? ? ? ? Hbu']. split; simpl; try done.
  - apply Forall_app_2; [done|]. constructor; [|constructor]. by exists bytes.
  - intros checks. rewrite <- Hbu', forallb_app. simpl. by rewrite andb_true_r.
Qed.

Lemma int_held v ty x : values frame !! v = Some x -> has_type ty x ->
  match values frame !! v with Some (VInt _) => true | _ => false end = is_int ty.
Proof. intros -> Ht. destruct x; simpl in Ht; destruct ty; simpl in *; first [done|by destruct Ht]. Qed.

Lemma float_held v ty x : values frame !! v = Some x -> has_type ty x ->
  match values frame !! v with Some (VFloat32 _) | Some (VFloat64 _) => true | _ => false end = is_float ty.
Proof. intros -> Ht. destruct x; simpl in Ht; destruct ty; simpl in *; first [done|by destruct Ht]. Qed.

Lemma sized_width_nonneg s e w : sized_width s e = Some w -> 0 <= w.
Proof.
  unfold sized_width. destruct e as [|text| | | |]; try done. destruct (parse_u64 text) as [n|] eqn:En; [|done].
  apply from_str_radix_bound in En. destruct (unit s); simpl; intros; simplify_eq; lia.
Qed.

Lemma classified_width s ty c info : resolve_segment s = Some info -> classify_segment s (bare_type s ty) = Some c ->
  match c with
  | CInteger w => 0 <= w
  | CFloat w => w = 32 \/ w = 64
  | CString n => string_segment_byte_length (value s) = Some n
  | CSplice => primitive s = Some "Binary"%string \/ ty = TBinary
  end.
Proof.
  intros Hres. unfold classify_segment, resolve_segment, bare_type in *.
  destruct (string_segment_byte_length (value s)) as [n|]; [by intros [= <-]|].
  destruct (size s) as [sz|].
  { destruct (sized_width s sz) as [w|] eqn:Ew; [|done]. intros [= <-]. by eapply sized_width_nonneg. }
  destruct (type_ann s) as [[path|]|]; [|done|].
  - cbv zeta in *. destruct (String.eqb _ _).
    { intros [= <-]. left. unfold splice_segment_info, is_primitive in Hres.
      destruct (bool_decide (primitive s = Some "Binary"%string)) eqn:E; [by apply bool_decide_eq_true in E|done]. }
    destruct (float_annotation _) as [w|] eqn:Ef.
    { intros [= <-]. unfold float_annotation in Ef. repeat (case_match; simplify_eq); auto. }
    destruct (int_annotation _) as [[w sg]|] eqn:Ei; [|done]. intros [= <-].
    unfold int_annotation in Ei. repeat (case_match; simplify_eq); lia.
  - rewrite bool_decide_true by done. destruct ty; intros [= <-]; auto; lia.
Qed.

Lemma builder_inv_ext b total r hs f g : (forall c, f c = g c) -> builder_inv b total r hs f -> builder_inv b total r hs g.
Proof. intros E [? ? ? ? ? ? Hbu]. split; try done. intros c. by rewrite <- E. Qed.

(** Lowering one accepted segment. *)
Lemma lower_segment_inv b total r hs builds s v ty info :
  builder_inv b total r hs builds -> operand_held (s, v, ty) -> resolve_segment s = Some info ->
  (info = SpliceInfo -> r mod 8 = 0) ->
  let builds' := fun checks => builds checks && segment_builds checks (s, v, ty) in
  exists b', lower_literal_segment b s v ty = Some b' /\
    match info with
    | Fixed w => builder_inv b' (total + w) (r + w) hs builds'
    | SpliceInfo => builder_inv b' total 0 true builds'
    end.
Proof.
  intros Hinv (Hty & (x & Hx & Hxt) & Hstr) Hres Hal builds'. pose proof (inv_bits _ _ _ _ _ Hinv) as Hb.
  destruct (classify_agrees s ty info Hty Hres) as (c & Hc & Hm). pose proof (classified_width s ty c info Hres Hc) as Hw.
  unfold lower_literal_segment. fold (bare_type s ty). rewrite Hc, Hb.
  assert (forall checks, segment_builds checks (s, v, ty) = match c with
    | CInteger w => is_int ty && (negb checks || (w <=? 64)) | CFloat _ => is_float ty | _ => true end) as Hbu.
  { intros checks. unfold segment_builds. rewrite Hc. by destruct c. }
  assert (forall low w, segment_bit_offset low = r -> segment_width low = w -> lowered_held low ->
    (forall checks, lowered_builds checks low = segment_builds checks (s, v, ty)) ->
    exists b', Some (builder_push b low) = Some b' /\ builder_inv b' (total + w) (r + w) hs builds') as Hpush.
  { intros low w Eo Ew Hheld Hlow. eexists. split; [done|].
    apply (builder_inv_ext _ _ _ _ (fun checks => builds checks && lowered_builds checks low)); [|by apply push_inv].
    intros checks. unfold builds'. by rewrite Hlow. }
  destruct info as [w|], c as [w'|w'| |n]; simpl in Hm; try done; subst.
  - apply Hpush; [done|done|split; [done|by rewrite Hx]|]. intros checks. rewrite Hbu. simpl.
    by rewrite (int_held v ty x).
  - apply Hpush; [done|done|split; [done|by rewrite Hx]|]. intros checks. rewrite Hbu. simpl.
    by rewrite (float_held v ty x).
  - unfold string_segment_byte_length in Hw. destruct (string_segment_bytes (value s)) as [bytes|] eqn:Eb; [|done].
    simpl in Hw. simplify_eq. destruct (Hstr bytes eq_refl) as [Hv Hbytes].
    apply Hpush; [done|done| |intros checks; by rewrite Hbu]. exists bytes. split; [done|]. split; [lia|done].
  - assert (ty = TBinary) as -> by (destruct Hw as [Hw|]; [by apply Hty|done]).
    assert (exists bytes, x = VBinary bytes /\ Forall byte_ok bytes) as (bytes & -> & Hbytes).
    { destruct x; simpl in Hxt; try done; try (by destruct Hxt). destruct Hxt. eauto. }
    destruct (splice_inv b total (run_bits b) hs builds v bytes) as (b' & E & Hinv'); try done; [by apply Hal|].
    rewrite E. eexists. split; [done|]. eapply builder_inv_ext; [|exact Hinv'].
    intros checks. unfold builds'. by rewrite Hbu, andb_true_r.
Qed.

Lemma lower_segments_inv segments : forall b total r hs builds total' r' hs',
  builder_inv b total r hs builds -> Forall operand_held segments ->
  resolve_segments (map (fun x => x.1.1) segments) total r hs true = (total', r', hs', true) ->
  exists b', lower_segments b segments = Some b' /\
    builder_inv b' total' r' hs' (fun checks => builds checks && forallb (segment_builds checks) segments).
Proof.
  induction segments as [|[[s v] ty] rest IH]; intros b total r hs builds total' r' hs' Hinv Hok Hres; simpl in Hres.
  { simplify_eq. exists b. split; [done|]. eapply builder_inv_ext; [|exact Hinv]. intros c. by rewrite andb_true_r. }
  inversion Hok as [|? ? Hseg Hrest]; subst. cbn [lower_segments].
  assert (forall b' t1 r1 h1, resolve_segments (map (fun x => x.1.1) rest) t1 r1 h1 true = (total', r', hs', true) ->
    builder_inv b' t1 r1 h1 (fun checks => builds checks && segment_builds checks (s, v, ty)) ->
    exists b2, lower_segments b' rest = Some b2 /\ builder_inv b2 total' r' hs'
      (fun checks => builds checks && forallb (segment_builds checks) ((s, v, ty) :: rest))) as Hnext.
  { intros b' t1 r1 h1 Hr Hi. destruct (IH b' t1 r1 h1 _ total' r' hs' Hi Hrest Hr) as (b2 & E & Hi2). exists b2.
    split; [done|]. eapply builder_inv_ext; [|exact Hi2]. intros c. simpl. by rewrite andb_assoc. }
  destruct (resolve_segment s) as [info|] eqn:Er.
  2:{ pose proof (resolve_segments_failed (map (fun x => x.1.1) rest) total r hs) as Hf. by rewrite Hres in Hf. }
  destruct info as [w|].
  - destruct (lower_segment_inv b total r hs builds s v ty (Fixed w) Hinv Hseg Er) as (b' & -> & Hinv'); [done|].
    by apply (Hnext b' (total + w) (r + w) hs).
  - destruct (r mod 8 =? 0) eqn:Hal; simpl in Hres.
    2:{ pose proof (resolve_segments_failed (map (fun x => x.1.1) rest) total 0 true) as Hf. by rewrite Hres in Hf. }
    apply Z.eqb_eq in Hal.
    destruct (lower_segment_inv b total r hs builds s v ty SpliceInfo Hinv Hseg Er) as (b' & -> & Hinv'); [done|].
    by apply (Hnext b' total 0 true).
Qed.
End Agreement.

(** The type the checker gives a literal, as an IR type. *)
Definition literal_ir_type (name : string) : IRType := if String.eqb name "Binary" then TBinary else TBits.


(** A segment with no modifier, one with a size and one with an annotation. *)
Definition plain (e : SegExpr) (ty : string) : BinarySegment := mkSegment e (Some ty) None Bit None None None.
Definition sized (e : SegExpr) (n : string) : BinarySegment :=
  mkSegment e (Some "Int"%string) (Some (XInt n)) Bit None None None.
Definition annotated (e : SegExpr) (ty name : string) : BinarySegment :=
  mkSegment e (Some ty) None Bit None None (Some (TNamed [name])).


(** ** What the checks let through *)

(** A string segment that does not start on a byte is accepted, and its bytes are
    written over the segment before it: [<<1::4, "a", 1::4>>] has the bits of
    [1, 0x61, 1] packed, [22; 17], and evaluates to [97; 1]. *)
Example unaligned_string_overwrites :
  let frame := mkFrame [] {[ 0 := VInt 1; 1 := VString [97]; 2 := VInt 1 ]} ∅ in
  let segments := [(sized (XInt "1") "4", 0, TInt64); (plain (XString [PartLiteral [97]]) "String", 1, TString);
                   (sized (XInt "1") "4", 2, TInt64)] in
  resolve_binary_literal (map (fun x => x.1.1) segments) = Some "Binary"%string /\
  exists prog, lower_binary_literal segments = Some prog /\
    eval_literal true frame prog = Ok (VBinary [97; 1]).
Proof. split; [reflexivity|]. eexists. split; reflexivity. Qed.

(** An integer annotation does not ask for an integer value. *)
Example annotation_accepts_bool : resolve_segment (annotated XOther "Bool" "Int16") = Some (Fixed 16).
Proof. reflexivity. Qed.

(** The range check only reads decimal text: [511] does not fit eight bits, [0x1FF]
    passes. *)
Example hex_literal_unchecked :
  resolve_segment (plain (XInt "511") "Int") = None /\
  resolve_segment (plain (XInt "0x1FF") "Int") = Some (Fixed 8) /\
  parse_int_literal "0x1FF" = Some 511.
Proof. split_and!; reflexivity. Qed.

(** ** Patterns in the type checker ([patterns/binary.rs]) *)

Definition is_binary_or_bits_annotation (t : TypeExpr) : option string :=
  match t with
  | TNamed path =>
      let name := last_name path in
      if String.eqb name "Binary" || String.eqb name "Bits" then Some name else None
  | TOtherExpr => None
  end.

Definition int_annotation_width (name : string) : option Z := fst <$> int_annotation name.

(** [segment_fixed_width] of the checker. *)
Definition checked_fixed_width (s : BinarySegment) : option Z :=
  match size s, type_ann s with
  | Some size_expr, _ =>
      if bool_decide (unit s = Byte) then None
      else match size_expr with
      | XInt n => match parse_u64 n with
                  | Some bits => if bits =? 0 then None else Some bits
                  | None => None
                  end
      | _ => None
      end
  | None, Some (TNamed path) => int_annotation_width (last_name path)
  | None, Some TOtherExpr => None
  | None, None => Some 8
  end.

Definition check_literal_overflow (e : SegExpr) (bits : Z) (sign : option BinarySign) : bool :=
  if (bits =? 0) || (64 <? bits) then true
  else
    let v := match e with
             | XInt n => parse_i128 n
             | XNeg (XInt n) => Z.opp <$> parse_i128 n
             | _ => None
             end in
    match v with
    | None => true
    | Some v =>
        if bool_decide (sign = Some Signed)
        then (- Z.shiftl 1 (bits - 1) <=? v) && (v <=? Z.shiftl 1 (bits - 1) - 1)
        else (0 <=? v) && (v <=? Z.shiftl 1 bits - 1)
    end.

Definition check_orphan_modifiers (s : BinarySegment) : bool :=
  let bare := bool_decide (size s = None /\ type_ann s = None) in
  negb (bare && (bool_decide (is_Some (signedness s)) || bool_decide (is_Some (endianness s)))).

(** A greedy tail, in the last place: whether it is one, and whether it is accepted. *)
Definition check_greedy_tail (s : BinarySegment) (is_last : bool) (fixed_bits : Z) : option bool :=
  match size s, type_ann s with
  | None, Some ann =>
      match is_binary_or_bits_annotation ann with
      | None => None
      | Some name =>
          Some (is_last && negb (String.eqb name "Binary" && negb (fixed_bits mod 8 =? 0)) &&
                match value s with XIdent _ _ => true | _ => false end)
      end
  | _, _ => None
  end.

(** [resolve_segment] of the pattern checker: the fixed bits so far and whether a
    greedy tail was seen, [None] on a diagnostic. *)
Definition resolve_pattern_segment (s : BinarySegment) (is_last : bool) (total : Z) (has_greedy : bool)
    : option (Z * bool) :=
  match string_segment_byte_length (value s) with
  | Some byte_length =>
      if bool_decide (size s = None /\ type_ann s = None)
      then Some (total + Z.min (byte_length * 8) (2 ^ 64 - 1), has_greedy) else None
  | None =>
      match check_greedy_tail s is_last total with
      | Some accepted => if accepted && negb has_greedy then Some (total, true) else None
      | None =>
          match checked_fixed_width s with
          | None => None
          | Some width =>
              if negb (check_orphan_modifiers s) then None
              else match value s with
              | XIdent _ _ => Some (total + width, has_greedy)
              | XInt _ | XLiteral | XNeg _ =>
                  if check_literal_overflow (value s) width (signedness s)
                  then Some (total + width, has_greedy) else None
              | _ => None
              end
          end
      end
  end.

Fixpoint resolve_pattern_segments (segments : list BinarySegment) (total : Z) (has_greedy : bool)
    : option (Z * bool) :=
  match segments with
  | [] => Some (total, has_greedy)
  | s :: rest =>
      match resolve_pattern_segment s (match rest with [] => true | _ => false end) total has_greedy with
      | Some (total, has_greedy) => resolve_pattern_segments rest total has_greedy
      | None => None
      end
  end.

(** ** Lowering patterns ([lower/binary_match.rs]) *)

(** [segment_fixed_width] of the lowering. *)
Definition lowered_fixed_width (s : BinarySegment) : option Z :=
  match size s, type_ann s with
  | Some (XInt n), _ => wrap 64 <$> parse_int_literal n
  | Some _, _ => None
  | None, Some (TNamed path) => int_annotation_width (last_name path)
  | None, _ => Some 8
  end.

Definition lower_greedy_tail (s : BinarySegment) (bit_offset : Z) : option LoweredBinaryPattern :=
  match size s, type_ann s with
  | None, Some (TNamed path) =>
      let name := last_name path in
      let ty := if String.eqb name "Binary" then Some TBinary
                else if String.eqb name "Bits" then Some TBits else None in
      match ty with
      | None => None
      | Some ty =>
          match value s with
          | XIdent _ (Some l) => Some (GreedyTail bit_offset (Some l) ty)
          | XIdent name None => if String.eqb name "_" then Some (GreedyTail bit_offset None ty) else None
          | _ => None
          end
      end
  | _, _ => None
  end.

(** The outer [None] is the panic on a binding without a local. [local_type] is the
    type the resolver stamped on the binding. *)
Definition lower_segment (local_type : IRLocalId -> IRType) (s : BinarySegment) (bit_offset : Z)
    : option (option LoweredBinaryPattern) :=
  match string_segment_bytes (value s) with
  | Some bytes => Some (Some (LiteralBytes bit_offset bytes))
  | None =>
      match lower_greedy_tail s bit_offset with
      | Some tail => Some (Some tail)
      | None =>
          match lowered_fixed_width s with
          | None => Some None
          | Some width =>
              let endian := ast_endianness_to_ir (endianness s) in
              let sign := ast_signedness_to_ir (signedness s) in
              match value s with
              | XIdent name local =>
                  if String.eqb name "_" then Some (Some (Discard bit_offset width))
                  else match local with
                  | None => None
                  | Some l => Some (Some (BindInt bit_offset endian l sign (local_type l) width))
                  end
              | XInt n =>
                  Some ((fun v => LiteralInt bit_offset endian sign v width) <$> parse_int_literal n)
              | XNeg (XInt n) =>
                  Some ((fun v => LiteralInt bit_offset endian sign (- v) width) <$> parse_int_literal n)
              | _ => Some None
              end
          end
      end
  end.

(** The width a lowered segment advances the offset by. *)
Definition pattern_advance (p : LoweredBinaryPattern) : Z :=
  match p with
  | LiteralInt _ _ _ _ w | BindInt _ _ _ _ _ w | Discard _ w => w
  | LiteralBytes _ bytes => Z.min (Z.of_nat (List.length bytes) * 8) (2 ^ 64 - 1)
  | GreedyTail _ _ _ => 0
  end.

Definition is_greedy (p : LoweredBinaryPattern) : bool :=
  match p with GreedyTail _ _ _ => true | _ => false end.

(** [lower_binary_pattern]: a segment that does not lower is skipped. *)
Fixpoint lower_binary_pattern (local_type : IRLocalId -> IRType) (segments : list BinarySegment)
    (bit_offset : Z) (has_greedy : bool) : option (list LoweredBinaryPattern * LoweredBinaryMatchLayout) :=
  match segments with
  | [] => Some ([], mkMatchLayout bit_offset has_greedy)
  | s :: rest =>
      match lower_segment local_type s bit_offset with
      | None => None
      | Some None => lower_binary_pattern local_type rest bit_offset has_greedy
      | Some (Some p) =>
          match lower_binary_pattern local_type rest (bit_offset + pattern_advance p) (has_greedy || is_greedy p) with
          | Some (ps, layout) => Some (p :: ps, layout)
          | None => None
          end
      end
  end.

(** ** Agreement on patterns *)

Lemma digit_10_plain c d : digit 10 c = Some d ->
  Ascii.eqb c "_" = false /\ Ascii.eqb c "x" = false /\ Ascii.eqb c "X" = false /\
  Ascii.eqb c "b" = false /\ Ascii.eqb c "B" = false.
Proof.
  destruct c as [[] [] [] [] [] [] [] []]; intros H; try discriminate H; repeat split.
Qed.

Lemma digits_10_plain cs acc n : digits 10 acc cs = Some n -> Forall (fun c => is_Some (digit 10 c)) cs.
Proof.
  revert acc. induction cs as [|c cs IH]; intros acc H; [constructor|]. simpl in H.
  destruct (digit 10 c) eqn:E; [|done]. constructor; [by rewrite E|by eapply IH].
Qed.

Lemma filter_plain cs : Forall (fun c => is_Some (digit 10 c)) cs ->
  List.filter (fun c => negb (Ascii.eqb c "_")) cs = cs.
Proof.
  induction 1 as [|c cs [d Hd] _ IH]; [done|]. simpl. destruct (digit_10_plain c d Hd) as (-> & _). simpl. by rewrite IH.
Qed.

(** A size the checker reads is the size the lowering reads. *)
Lemma parse_agrees text n : parse_u64 text = Some n -> parse_int_literal text = Some n /\ 0 <= n < 2 ^ 64.
Proof.
  unfold parse_u64, parse_int_literal, parse_i128_radix, from_str_radix.
  destruct (list_ascii_of_string text) as [|c rest]; [done|]. cbv zeta. intros H.
  assert (forall m, (if (0 <=? m) && (m <=? 2 ^ 64 - 1) then Some m else None) = Some n ->
    m = n /\ 0 <= n < 2 ^ 64 /\ (- 2 ^ 127 <=? n) && (n <=? 2 ^ 127 - 1) = true) as Hm.
  { intros m Hr. destruct (Z.leb_spec 0 m), (Z.leb_spec m (2 ^ 64 - 1)); simpl in Hr; simplify_eq.
    destruct (Z.leb_spec (- 2 ^ 127) n), (Z.leb_spec n (2 ^ 127 - 1)); lia. }
  replace (0 <? 0) with false in H by done. rewrite andb_false_r in H.
  destruct (Ascii.eqb_spec c "+") as [->|Hplus]; simpl in H.
  - case_bool_decide as Hmore; simpl in H.
    + destruct (digits 10 0 rest) as [m|] eqn:Ed; [|done]. destruct (Hm m H) as (-> & Hn & Hb).
      split; [|done]. simpl. rewrite (filter_plain rest) by (by eapply digits_10_plain).
      destruct rest as [|c1 rest]; [done|]. simpl andb. rewrite bool_decide_true by done. simpl.
      simpl in Ed. rewrite Ed. by rewrite Hb.
    + done.
  - destruct (digits 10 0 (c :: rest)) as [m|] eqn:Ed; [|simpl in Ed; rewrite Ed in H; done].
    pose proof (digits_10_plain _ _ _ Ed) as Hall. pose proof Ed as Ed'. simpl in Ed'. rewrite Ed' in H.
    destruct (Hm m H) as (-> & Hn & Hb). split; [|done]. rewrite filter_plain by done.
    inversion Hall as [|? ? [d Hd] Hrest]; subst.
    assert (Ascii.eqb c "-" = false) as Hminus.
    { destruct (Ascii.eqb_spec c "-") as [->|]; [discriminate Hd|done]. }
    assert (Ascii.eqb c "+" = false) as Hpl by (by apply Ascii.eqb_neq).
    destruct rest as [|c1 rest].
    + rewrite Hpl, Hminus. simpl andb. cbv iota. rewrite Ed. by rewrite Hb.
    + inversion Hrest as [|? ? [d1 Hd1] _]; subst.
      destruct (digit_10_plain c1 d1 Hd1) as (_ & -> & -> & -> & ->). rewrite !andb_false_r, Hpl, Hminus.
      simpl andb. cbv iota. rewrite Ed. by rewrite Hb.
Qed.

(** What the stages before hold of a segment: the resolver gives every name but [_]
    its local, the lexer writes no sign into an integer, and a string fits in memory. *)
Definition segment_resolved (s : BinarySegment) : Prop :=
  match value s with
  | XIdent name local => if String.eqb name "_" then local = None else is_Some local
  | XNeg (XInt n) => forall v, parse_int_literal n = Some v -> 0 <= v
  | XString _ => forall b, string_segment_bytes (value s) = Some b -> Z.of_nat (List.length b) * 8 < 2 ^ 64
  | _ => True
  end.

(** The segments the lowering keeps. A literal is kept when it is an integer that
    [i128] holds; the checker accepts others as well. *)
Definition kept (s : BinarySegment) : bool :=
  match value s with
  | XInt n | XNeg (XInt n) => bool_decide (is_Some (parse_int_literal n))
  | XLiteral | XNeg _ => false
  | _ => true
  end.

(** The bits the checker counts for the segments the lowering drops. *)
Fixpoint dropped_bits (segments : list BinarySegment) : Z :=
  match segments with
  | [] => 0
  | s :: rest => (if kept s then 0 else default 0 (checked_fixed_width s)) + dropped_bits rest
  end.

(** What the evaluator needs of a lowered segment. *)
Definition pattern_runs (p : LoweredBinaryPattern) : Prop :=
  match p with
  | LiteralInt _ _ _ v _ => - 2 ^ 127 <= v < 2 ^ 127
  | LiteralBytes _ b => Z.of_nat (List.length b) * 8 < 2 ^ 64
  | BindInt _ _ _ _ _ _ | Discard _ _ => True
  | GreedyTail _ _ ty => ty = TBinary \/ ty = TBits
  end.

(** A binding of more than 64 bits on a byte boundary: a byte of it is shifted past
    the word. *)
Definition overshifts (p : LoweredBinaryPattern) : bool :=
  match p with BindInt o _ _ _ _ w => negb (word_safe true w o) | _ => false end.

Lemma parse_int_literal_bound text n : parse_int_literal text = Some n -> - 2 ^ 127 <= n <= 2 ^ 127 - 1.
Proof.
  unfold parse_int_literal, parse_i128_radix. cbv zeta. intros H.
  repeat (case_match; try by eapply from_str_radix_bound).
Qed.

(** Patterns at consecutive offsets. *)
Fixpoint pattern_laid_out (off total : Z) (ps : list LoweredBinaryPattern) : Prop :=
  match ps with
  | [] => off = total
  | p :: rest => pattern_bit_offset p = off /\ 0 <= pattern_advance p /\ pattern_laid_out (off + pattern_advance p) total rest
  end.

Lemma fixed_width_agrees s w : checked_fixed_width s = Some w -> lowered_fixed_width s = Some w /\ 0 <= w.
Proof.
  unfold checked_fixed_width, lowered_fixed_width. destruct (size s) as [[| n | | | |]|]; try (case_bool_decide; done).
  - case_bool_decide; [done|]. destruct (parse_u64 n) as [bits|] eqn:Ep; [|done].
    destruct (parse_agrees n bits Ep) as [-> Hb]. destruct (bits =? 0); [done|]. intros [= <-]. simpl.
    rewrite wrap_small by lia. split; [done|lia].
  - destruct (type_ann s) as [[path|]|]; try done; intros H.
    + split; [done|]. unfold int_annotation_width, int_annotation in H.
      repeat (case_match; simplify_eq/=; try lia).
    + simplify_eq. split; [done|lia].
Qed.

Lemma greedy_tail_none s is_last total : check_greedy_tail s is_last total = None -> forall off, lower_greedy_tail s off = None.
Proof.
  intros H off. revert H. unfold check_greedy_tail, lower_greedy_tail. destruct (size s); [done|].
  destruct (type_ann s) as [[path|]|]; try done. unfold is_binary_or_bits_annotation. cbv zeta.
  destruct (String.eqb (last_name path) "Binary"); [done|]. by destruct (String.eqb (last_name path) "Bits").
Qed.

Lemma greedy_tail_some s is_last total off : check_greedy_tail s is_last total = Some true -> segment_resolved s ->
  kept s = true /\ exists l ty, lower_greedy_tail s off = Some (GreedyTail off l ty) /\ (ty = TBinary \/ ty = TBits).
Proof.
  unfold check_greedy_tail, lower_greedy_tail, segment_resolved, kept. destruct (size s); [done|].
  destruct (type_ann s) as [[path|]|]; try done. unfold is_binary_or_bits_annotation. cbv zeta.
  intros Hc Hl. assert (exists ty, (if String.eqb (last_name path) "Binary" then Some TBinary
    else if String.eqb (last_name path) "Bits" then Some TBits else None) = Some ty /\ (ty = TBinary \/ ty = TBits)) as (ty & -> & Hty).
  { destruct (String.eqb (last_name path) "Binary"); [eauto|]. simpl in Hc.
    destruct (String.eqb (last_name path) "Bits"); [eauto|done]. }
  destruct (value s) as [| | | |nm local|]; try (destruct (_ || _); [rewrite andb_false_r in Hc|]; done).
  split; [done|]. destruct (String.eqb nm "_") eqn:En; [subst local|destruct Hl as [l ->]]; eauto.
Qed.

Lemma fixed_segment_width s w total (hg : bool) total' hg' :
  checked_fixed_width s = Some w ->
  (if negb (check_orphan_modifiers s) then None
   else match value s with
   | XIdent _ _ => Some (total + w, hg)
   | XInt _ | XLiteral | XNeg _ =>
       if check_literal_overflow (value s) w (signedness s) then Some (total + w, hg) else None
   | _ => None
   end) = Some (total', hg') ->
  total' = total + w /\ hg' = hg /\ match value s with XString _ | XOther => False | _ => True end.
Proof. intros _ H. repeat (case_match; simplify_eq/=); done. Qed.

(** Each kept segment the checker accepts lowers, in place and with the checked
    width; each other one lowers to nothing. *)
Lemma lower_segment_agrees local_type s is_last total hg total' hg' off :
  segment_resolved s -> resolve_pattern_segment s is_last total hg = Some (total', hg') ->
  if kept s
  then exists p, lower_segment local_type s off = Some (Some p) /\ pattern_runs p /\ pattern_bit_offset p = off /\
         0 <= pattern_advance p /\ total' = total + pattern_advance p /\ hg' = hg || is_greedy p
  else lower_segment local_type s off = Some None /\ total' = total + default 0 (checked_fixed_width s) /\ hg' = hg.
Proof.
  intros Hlow Hres. unfold resolve_pattern_segment in Hres. unfold lower_segment.
  unfold string_segment_byte_length in Hres. destruct (string_segment_bytes (value s)) as [bytes|] eqn:Estr; simpl in Hres.
  { case_bool_decide; simplify_eq. assert (kept s = true) as -> by (unfold kept; by destruct (value s)).
    eexists. split; [done|]. simpl. rewrite orb_false_r.
    split; [|split_and!; (done || lia)]. unfold segment_resolved in Hlow. rewrite Estr in Hlow.
    destruct (value s); try done. by apply Hlow. }
  destruct (check_greedy_tail s is_last total) as [acc|] eqn:Egr.
  - destruct (acc && negb hg) eqn:Eacc; simplify_eq. apply andb_true_iff in Eacc as [-> Hng].
    apply negb_true_iff in Hng as ->. destruct (greedy_tail_some s is_last total' off Egr Hlow) as (-> & l & ty & -> & Hty).
    eexists. split; [done|]. simpl. split_and!; (done || lia).
  - rewrite (greedy_tail_none s is_last total Egr). destruct (checked_fixed_width s) as [w|] eqn:Hw; [|done].
    destruct (fixed_segment_width s w total hg total' hg' Hw Hres) as (-> & -> & Hval).
    destruct (fixed_width_agrees s w Hw) as [-> Hw0]. simpl default.
    unfold segment_resolved in Hlow. unfold kept. destruct (value s) as [|n| |op|nm local|]; try done.
    + destruct (parse_int_literal n) as [v|] eqn:Hv; simpl; [|done]. apply parse_int_literal_bound in Hv.
      eexists. split; [done|]. simpl. rewrite orb_false_r. split_and!; (done || lia).
    + destruct op as [|n| | | |]; try done. destruct (parse_int_literal n) as [v|] eqn:Hv; simpl; [|done].
      specialize (Hlow v eq_refl). apply parse_int_literal_bound in Hv.
      eexists. split; [done|]. simpl. rewrite orb_false_r. split_and!; (done || lia).
    + destruct (String.eqb nm "_") eqn:En; [|destruct Hlow as [l ->]];
        eexists; (split; [done|]); simpl; rewrite orb_false_r; split_and!; (done || lia).
Qed.

Lemma lower_pattern_agrees local_type segments : forall total hg total' hg' off,
  Forall segment_resolved segments -> resolve_pattern_segments segments total hg = Some (total', hg') ->
  exists ps off', lower_binary_pattern local_type segments off hg = Some (ps, mkMatchLayout off' hg') /\
    List.length ps = List.length (List.filter kept segments) /\ pattern_laid_out off off' ps /\ Forall pattern_runs ps /\
    total' - total = off' - off + dropped_bits segments.
Proof.
  induction segments as [|s rest IH]; intros total hg total' hg' off Hlow Hres; simpl in Hres.
  { simplify_eq. exists [], off. simpl. split_and!; (done || lia). }
  inversion Hlow as [|? ? Hs Hrest]; subst.
  destruct (resolve_pattern_segment s _ total hg) as [[t1 g1]|] eqn:Es; [|done].
  pose proof (lower_segment_agrees local_type s _ total hg t1 g1 off Hs Es) as Hseg.
  cbn [lower_binary_pattern List.filter dropped_bits]. destruct (kept s).
  - destruct Hseg as (p & -> & Hrun & Ho & Ha & -> & ->).
    destruct (IH _ _ _ _ (off + pattern_advance p) Hrest Hres) as (ps & off' & -> & Hl & Hlay & Hruns & Ht).
    exists (p :: ps), off'. simpl. split_and!; [done|by rewrite Hl|done|done|done|by constructor|lia].
  - destruct Hseg as (-> & -> & ->).
    destruct (IH _ _ _ _ off Hrest Hres) as (ps & off' & -> & Hl & Hlay & Hruns & Ht).
    exists ps, off'. split_and!; try done. lia.
Qed.

(** ** Accepted patterns run *)

Lemma pattern_laid_out_le off total ps : pattern_laid_out off total ps -> off <= total.
Proof.
  revert off. induction ps as [|p ps IH]; intros off H; simpl in H; [lia|]. destruct H as (_ & Ha & H).
  specialize (IH _ H). lia.
Qed.

Lemma match_segment_runs checks bytes len p frame :
  pattern_runs p -> 0 <= pattern_bit_offset p -> 0 <= pattern_advance p ->
  pattern_bit_offset p + pattern_advance p <= len -> len <= 8 * Z.of_nat (List.length bytes) -> Forall byte_ok bytes ->
  if checks && overshifts p then match_segment checks bytes len p frame = Crash
  else exists b f, match_segment checks bytes len p frame = Ok (b, f).
Proof.
  intros Hrun Ho Ha Hle Hlen Hok. destruct (checks && overshifts p) eqn:Eover.
  { apply andb_prop in Eover as [-> Eover]. destruct p; try done. apply negb_true_iff in Eover.
    simpl. by rewrite extract_overshift. }
  destruct p as [o e sg v w|o expected|o e l sg ty w|o w|o [l|] ty]; simpl in *; eauto.
  - destruct (literal_segment_exact checks bytes w e o v) as (b & -> & _); try done; try lia. simpl. eauto.
  - destruct (slice_spec bytes (o / 8) (Z.of_nat (List.length expected))) as (win & -> & _); try done; try lia.
    { destruct (byte_pos o Ho). lia. }
    { destruct (byte_pos o Ho) as (? & ? & ?). lia. }
    simpl. eauto.
  - destruct (extract_total checks bytes w e o) as (x & ->); try done; try lia; [|simpl; eauto].
    unfold word_safe in *. destruct checks; [|done]. by apply negb_false_iff in Eover.
  - destruct Hrun as [-> | ->].
    + destruct (byte_pos o Ho) as (? & ? & ?).
      destruct (slice_spec bytes (o / 8) (Z.of_nat (List.length bytes) - o / 8)) as (win & -> & _); try done; try lia.
      simpl. eauto.
    + destruct (Z.ltb_spec len o); [lia|].
      destruct (extract_range_spec bytes o (len - o)) as (out & -> & _); try done; try lia. simpl. eauto.
Qed.

(** The segments before one that matches have matched. *)
Definition stops_at (checks : bool) (bytes : list Z) (len : Z) (ps : list LoweredBinaryPattern) (frame : Frame) : Prop :=
  checks = true /\ exists before p after f, ps = before ++ p :: after /\ overshifts p = true /\
    match_segments checks bytes len before frame = Ok (true, f).

Lemma match_segments_run checks bytes len ps : forall off total frame,
  Forall pattern_runs ps -> pattern_laid_out off total ps -> 0 <= off -> total <= len ->
  len <= 8 * Z.of_nat (List.length bytes) -> Forall byte_ok bytes ->
  (exists b f, match_segments checks bytes len ps frame = Ok (b, f) /\ ~ stops_at checks bytes len ps frame) \/
  (match_segments checks bytes len ps frame = Crash /\ stops_at checks bytes len ps frame).
Proof.
  induction ps as [|p ps IH]; intros off total frame Hrun Hlay Hoff Htot Hlen Hok.
  { left. eexists _, _. split; [done|]. intros (_ & before & ? & ? & ? & E & _). by destruct before. }
  inversion Hrun as [|? ? Hp Hps]; subst. destruct Hlay as (Eo & Ha & Hlay).
  pose proof (pattern_laid_out_le _ _ _ Hlay). cbn [match_segments].
  pose proof (match_segment_runs checks bytes len p frame Hp ltac:(lia) Ha ltac:(lia) Hlen Hok) as Hm.
  destruct (checks && overshifts p) eqn:Eover.
  { right. rewrite Hm. split; [done|]. apply andb_prop in Eover as [-> Eover]. split; [done|]. by exists [], p, ps, frame. }
  destruct Hm as (b & f & Hm). rewrite Hm. cbn [bindO].
  assert (forall before q after f', p :: ps = before ++ q :: after -> checks = true -> overshifts q = true ->
    match_segments checks bytes len before frame = Ok (true, f') ->
    exists before', before = p :: before' /\ ps = before' ++ q :: after /\ b = true /\
      match_segments checks bytes len before' f = Ok (true, f')) as Hhead.
  { intros [|p' before] q after f' E -> Hq Hf; simplify_eq/=; [by rewrite Hq in Eover|].
    rewrite Hm in Hf. simpl in Hf. destruct b; [eauto|done]. }
  destruct b.
  - destruct (IH (off + pattern_advance p) total f) as [(b' & f' & -> & Hno)|[-> (Hc & before & q & after & f' & -> & Hq & Hf)]];
      [done|done|lia|done|done|done|left|right].
    + eexists _, _. split; [done|]. intros (Hc & before & q & after & f2 & E & Hq & Hf).
      destruct (Hhead before q after f2 E Hc Hq Hf) as (before' & -> & -> & _ & Hf'). apply Hno. split; [done|]. eauto 7.
    + split; [done|]. split; [done|]. exists (p :: before), q, after, f'. split_and!; [done|done|]. simpl. by rewrite Hm.
  - left. eexists _, _. split; [done|]. intros (Hc & before & q & after & f2 & E & Hq & Hf).
    by destruct (Hhead before q after f2 E Hc Hq Hf) as (? & _ & _ & ? & _).
Qed.

(** A run that gets to a segment the word cannot hold: in a build with Rust's overflow
    checks, the segments before it match. *)
Definition reaches_overshift (checks : bool) (layout : LoweredBinaryMatchLayout) (ps : list LoweredBinaryPattern)
    (subject : Value) (frame : Frame) : Prop :=
  checks = true /\ exists before p after f, ps = before ++ p :: after /\ overshifts p = true /\
    execute_binary_match checks layout before subject frame = Ok (true, f).



(** A literal that is not an integer is accepted and then dropped by the lowering:
    [<<1.5>>] becomes the empty pattern, which matches only the empty binary. *)
Example non_integer_literal_dropped :
  resolve_pattern_segments [plain XLiteral "Float"] 0 false = Some (8, false) /\
  lower_binary_pattern (fun _ => TInt64) [plain XLiteral "Float"] 0 false = Some ([], mkMatchLayout 0 false).
Proof. split; reflexivity. Qed.
