(* ===== verification/IntrinsicId.v ===== *)
(** * Intrinsic ids

    Models [koja-ir/src/intrinsic_id.rs]: the dispatch slot of every function annotated
    [@intrinsic], the method tables the [intrinsic_methods!] macro expands, the parser
    from an identifier and the dotted rendering ([Display]).

    The macro takes one table of variants and segments per enum and generates both
    [from_source] and [segment] from it; [IntrinsicMethods] is that table, and
    [IntrinsicTable] the promise that no segment occurs twice, which is what makes the
    two generated functions inverse to each other.

    [intrinsic_roundtrip] shows that parsing and rendering are inverse on the ids of
    the source surface, and that the consuming twins are exactly the ids no source name
    reaches. *)

From stdpp Require Import strings list.
From S2P Require Import Prelude Types IRValue.
Local Open Scope string_scope.

(** ** The tables *)

Class IntrinsicMethods (A : Type) := { variants : list A; segment : A -> string }.

Definition from_source {A} `{IntrinsicMethods A} (s : string) : option A :=
  List.find (fun m => String.eqb s (segment m)) variants.

Class IntrinsicTable (A : Type) `{IntrinsicMethods A} :=
  from_source_segment : forall m, from_source (segment m) = Some m.

Lemma from_source_some {A} `{IntrinsicMethods A} s m : from_source s = Some m -> segment m = s.
Proof. intros [_ H1]%List.find_some. symmetry. by apply String.eqb_eq. Qed.

Inductive BinaryMethod : Set := Binary_At | Binary_ByteSize | Binary_Find | Binary_Slice | Binary_ToBits | Binary_ToString.

Definition binary_method_segment (m : BinaryMethod) : string :=
  match m with
  | Binary_At => "at"
  | Binary_ByteSize => "byte_size"
  | Binary_Find => "find"
  | Binary_Slice => "slice"
  | Binary_ToBits => "to_bits"
  | Binary_ToString => "to_string"
  end.

#[export] Instance binary_method_table : IntrinsicMethods BinaryMethod :=
  {| variants := [Binary_At; Binary_ByteSize; Binary_Find; Binary_Slice; Binary_ToBits; Binary_ToString];
     segment := binary_method_segment |}.

Inductive BitsMethod : Set := Bits_BitSize | Bits_ByteAt | Bits_ToBinary.

Definition bits_method_segment (m : BitsMethod) : string :=
  match m with
  | Bits_BitSize => "bit_size"
  | Bits_ByteAt => "byte_at"
  | Bits_ToBinary => "to_binary"
  end.

#[export] Instance bits_method_table : IntrinsicMethods BitsMethod :=
  {| variants := [Bits_BitSize; Bits_ByteAt; Bits_ToBinary];
     segment := bits_method_segment |}.

Definition bit_op_segment (m : BitOp) : string :=
  match m with
  | Band => "band"
  | Bnot => "bnot"
  | Bor => "bor"
  | Bsl => "bsl"
  | Bsr => "bsr"
  | Bxor => "bxor"
  end.

#[export] Instance bit_op_table : IntrinsicMethods BitOp :=
  {| variants := [Band; Bnot; Bor; Bsl; Bsr; Bxor];
     segment := bit_op_segment |}.

Inductive CPtrMethod : Set := CPtr_Address | CPtr_Alloc | CPtr_Borrow | CPtr_Copy | CPtr_Free | CPtr_Null | CPtr_NullQ | CPtr_Offset | CPtr_Read | CPtr_ToBinary | CPtr_Write.

Definition cptr_method_segment (m : CPtrMethod) : string :=
  match m with
  | CPtr_Address => "address"
  | CPtr_Alloc => "alloc"
  | CPtr_Borrow => "borrow"
  | CPtr_Copy => "copy"
  | CPtr_Free => "free"
  | CPtr_Null => "null"
  | CPtr_NullQ => "null?"
  | CPtr_Offset => "offset"
  | CPtr_Read => "read"
  | CPtr_ToBinary => "to_binary"
  | CPtr_Write => "write"
  end.

#[export] Instance cptr_method_table : IntrinsicMethods CPtrMethod :=
  {| variants := [CPtr_Address; CPtr_Alloc; CPtr_Borrow; CPtr_Copy; CPtr_Free; CPtr_Null; CPtr_NullQ; CPtr_Offset; CPtr_Read; CPtr_ToBinary; CPtr_Write];
     segment := cptr_method_segment |}.

Inductive CStringMethod : Set := CString_ToString.

Definition cstring_method_segment (m : CStringMethod) : string :=
  match m with
  | CString_ToString => "to_string"
  end.

#[export] Instance cstring_method_table : IntrinsicMethods CStringMethod :=
  {| variants := [CString_ToString];
     segment := cstring_method_segment |}.

Inductive FloatType : Set := FloatType_Float | FloatType_Float32.

Definition float_type_segment (m : FloatType) : string :=
  match m with
  | FloatType_Float => "Float"
  | FloatType_Float32 => "Float32"
  end.

#[export] Instance float_type_table : IntrinsicMethods FloatType :=
  {| variants := [FloatType_Float; FloatType_Float32];
     segment := float_type_segment |}.

Definition int_type_segment (m : IntType) : string :=
  match m with
  | IInt => "Int"
  | IInt8 => "Int8"
  | IInt16 => "Int16"
  | IInt32 => "Int32"
  | IUInt8 => "UInt8"
  | IUInt16 => "UInt16"
  | IUInt32 => "UInt32"
  | IUInt64 => "UInt64"
  end.

#[export] Instance int_type_table : IntrinsicMethods IntType :=
  {| variants := [IInt; IInt8; IInt16; IInt32; IUInt8; IUInt16; IUInt32; IUInt64];
     segment := int_type_segment |}.

Inductive KernelMethod : Set := Kernel_Panic.

Definition kernel_method_segment (m : KernelMethod) : string :=
  match m with
  | Kernel_Panic => "panic"
  end.

#[export] Instance kernel_method_table : IntrinsicMethods KernelMethod :=
  {| variants := [Kernel_Panic];
     segment := kernel_method_segment |}.

Inductive ListMethod : Set := List_Append | List_Concat | List_EmptyQ | List_FromList | List_Get | List_Length | List_New | List_Pop | List_ReplaceAt | List_Slice.

Definition list_method_segment (m : ListMethod) : string :=
  match m with
  | List_Append => "append"
  | List_Concat => "concat"
  | List_EmptyQ => "empty?"
  | List_FromList => "from_list"
  | List_Get => "get"
  | List_Length => "length"
  | List_New => "new"
  | List_Pop => "pop"
  | List_ReplaceAt => "replace_at"
  | List_Slice => "slice"
  end.

#[export] Instance list_method_table : IntrinsicMethods ListMethod :=
  {| variants := [List_Append; List_Concat; List_EmptyQ; List_FromList; List_Get; List_Length; List_New; List_Pop; List_ReplaceAt; List_Slice];
     segment := list_method_segment |}.

Inductive LogRuntimeMethod : Set := LogRuntime_Config | LogRuntime_Configure | LogRuntime_Enter | LogRuntime_Leave | LogRuntime_Level.

Definition log_runtime_method_segment (m : LogRuntimeMethod) : string :=
  match m with
  | LogRuntime_Config => "config"
  | LogRuntime_Configure => "configure"
  | LogRuntime_Enter => "enter"
  | LogRuntime_Leave => "leave"
  | LogRuntime_Level => "level"
  end.

#[export] Instance log_runtime_method_table : IntrinsicMethods LogRuntimeMethod :=
  {| variants := [LogRuntime_Config; LogRuntime_Configure; LogRuntime_Enter; LogRuntime_Leave; LogRuntime_Level];
     segment := log_runtime_method_segment |}.

Inductive MapMethod : Set := Map_EmptyQ | Map_Get | Map_HasQ | Map_Length | Map_New | Map_Next | Map_Put | Map_Remove.

Definition map_method_segment (m : MapMethod) : string :=
  match m with
  | Map_EmptyQ => "empty?"
  | Map_Get => "get"
  | Map_HasQ => "has?"
  | Map_Length => "length"
  | Map_New => "new"
  | Map_Next => "next"
  | Map_Put => "put"
  | Map_Remove => "remove"
  end.

#[export] Instance map_method_table : IntrinsicMethods MapMethod :=
  {| variants := [Map_EmptyQ; Map_Get; Map_HasQ; Map_Length; Map_New; Map_Next; Map_Put; Map_Remove];
     segment := map_method_segment |}.

Inductive ParseTarget : Set := ParseTarget_Float | ParseTarget_Int.

Definition parse_target_segment (m : ParseTarget) : string :=
  match m with
  | ParseTarget_Float => "Float"
  | ParseTarget_Int => "Int"
  end.

#[export] Instance parse_target_table : IntrinsicMethods ParseTarget :=
  {| variants := [ParseTarget_Float; ParseTarget_Int];
     segment := parse_target_segment |}.

Inductive ProcessMethod : Set := Process_Context | Process_Demonitor | Process_Monitor | Process_Parent.

Definition process_method_segment (m : ProcessMethod) : string :=
  match m with
  | Process_Context => "context"
  | Process_Demonitor => "demonitor"
  | Process_Monitor => "monitor"
  | Process_Parent => "parent"
  end.

#[export] Instance process_method_table : IntrinsicMethods ProcessMethod :=
  {| variants := [Process_Context; Process_Demonitor; Process_Monitor; Process_Parent];
     segment := process_method_segment |}.

Inductive RefMethod : Set := Ref_AliveQ | Ref_Call | Ref_Cast | Ref_Kill | Ref_SelfRef | Ref_SendAfter | Ref_Signal.

Definition ref_method_segment (m : RefMethod) : string :=
  match m with
  | Ref_AliveQ => "alive?"
  | Ref_Call => "call"
  | Ref_Cast => "cast"
  | Ref_Kill => "kill"
  | Ref_SelfRef => "self_ref"
  | Ref_SendAfter => "send_after"
  | Ref_Signal => "signal"
  end.

#[export] Instance ref_method_table : IntrinsicMethods RefMethod :=
  {| variants := [Ref_AliveQ; Ref_Call; Ref_Cast; Ref_Kill; Ref_SelfRef; Ref_SendAfter; Ref_Signal];
     segment := ref_method_segment |}.

Inductive ReplyToMethod : Set := ReplyTo_Send.

Definition reply_to_method_segment (m : ReplyToMethod) : string :=
  match m with
  | ReplyTo_Send => "send"
  end.

#[export] Instance reply_to_method_table : IntrinsicMethods ReplyToMethod :=
  {| variants := [ReplyTo_Send];
     segment := reply_to_method_segment |}.

Inductive RuntimeBlockMethod : Set := RuntimeBlock_AdoptBinary.

Definition runtime_block_method_segment (m : RuntimeBlockMethod) : string :=
  match m with
  | RuntimeBlock_AdoptBinary => "adopt_binary"
  end.

#[export] Instance runtime_block_method_table : IntrinsicMethods RuntimeBlockMethod :=
  {| variants := [RuntimeBlock_AdoptBinary];
     segment := runtime_block_method_segment |}.

Inductive TraceRuntimeMethod : Set := TraceRuntime_ExportDropped | TraceRuntime_ExportPop | TraceRuntime_ExportPush | TraceRuntime_Install | TraceRuntime_SpanClose | TraceRuntime_SpanId | TraceRuntime_SpanOpen | TraceRuntime_SpanPut | TraceRuntime_SpanTake.

Definition trace_runtime_method_segment (m : TraceRuntimeMethod) : string :=
  match m with
  | TraceRuntime_ExportDropped => "export_dropped"
  | TraceRuntime_ExportPop => "export_pop"
  | TraceRuntime_ExportPush => "export_push"
  | TraceRuntime_Install => "install"
  | TraceRuntime_SpanClose => "span_close"
  | TraceRuntime_SpanId => "span_id"
  | TraceRuntime_SpanOpen => "span_open"
  | TraceRuntime_SpanPut => "span_put"
  | TraceRuntime_SpanTake => "span_take"
  end.

#[export] Instance trace_runtime_method_table : IntrinsicMethods TraceRuntimeMethod :=
  {| variants := [TraceRuntime_ExportDropped; TraceRuntime_ExportPop; TraceRuntime_ExportPush; TraceRuntime_Install; TraceRuntime_SpanClose; TraceRuntime_SpanId; TraceRuntime_SpanOpen; TraceRuntime_SpanPut; TraceRuntime_SpanTake];
     segment := trace_runtime_method_segment |}.

Inductive SetMethod : Set := Set_EmptyQ | Set_FromList | Set_HasQ | Set_Insert | Set_Length | Set_New | Set_Next | Set_Remove.

Definition set_method_segment (m : SetMethod) : string :=
  match m with
  | Set_EmptyQ => "empty?"
  | Set_FromList => "from_list"
  | Set_HasQ => "has?"
  | Set_Insert => "insert"
  | Set_Length => "length"
  | Set_New => "new"
  | Set_Next => "next"
  | Set_Remove => "remove"
  end.

#[export] Instance set_method_table : IntrinsicMethods SetMethod :=
  {| variants := [Set_EmptyQ; Set_FromList; Set_HasQ; Set_Insert; Set_Length; Set_New; Set_Next; Set_Remove];
     segment := set_method_segment |}.

Inductive SocketMethod : Set := Socket_LastError | Socket_RecvFromRaw | Socket_ResolveRaw.

Definition socket_method_segment (m : SocketMethod) : string :=
  match m with
  | Socket_LastError => "last_error"
  | Socket_RecvFromRaw => "recv_from_raw"
  | Socket_ResolveRaw => "resolve_raw"
  end.

#[export] Instance socket_method_table : IntrinsicMethods SocketMethod :=
  {| variants := [Socket_LastError; Socket_RecvFromRaw; Socket_ResolveRaw];
     segment := socket_method_segment |}.

Inductive StringMethod : Set := String_ByteLength | String_Find | String_Get | String_Length | String_Next | String_Slice | String_SliceBytes | String_ToBinary | String_ToCstring.

Definition string_method_segment (m : StringMethod) : string :=
  match m with
  | String_ByteLength => "byte_length"
  | String_Find => "find"
  | String_Get => "get"
  | String_Length => "length"
  | String_Next => "next"
  | String_Slice => "slice"
  | String_SliceBytes => "slice_bytes"
  | String_ToBinary => "to_binary"
  | String_ToCstring => "to_cstring"
  end.

#[export] Instance string_method_table : IntrinsicMethods StringMethod :=
  {| variants := [String_ByteLength; String_Find; String_Get; String_Length; String_Next; String_Slice; String_SliceBytes; String_ToBinary; String_ToCstring];
     segment := string_method_segment |}.

(** ** Impl cells and conversions *)

Inductive ConsumingMethod := ListAppend | MapPut | SetInsert.

Definition consuming_path (m : ConsumingMethod) : string :=
  match m with ListAppend => "List.append" | MapPut => "Map.put" | SetInsert => "Set.insert" end.

Inductive DebugImpl := DebugBool | DebugFloat | DebugFloat32 | DebugInt (ty : IntType).

Definition debug_from_receiver (receiver : string) : option DebugImpl :=
  if receiver =? "Bool" then Some DebugBool
  else if receiver =? "Float" then Some DebugFloat
  else if receiver =? "Float32" then Some DebugFloat32
  else ty ← from_source receiver; Some (DebugInt ty).

Definition debug_segment (d : DebugImpl) : string :=
  match d with
  | DebugBool => "Bool" | DebugFloat => "Float" | DebugFloat32 => "Float32"
  | DebugInt ty => segment ty
  end.

Inductive EqualityImpl :=
| EqualityBinary | EqualityBool | EqualityFloat (ty : FloatType) | EqualityInt (ty : IntType) | EqualityString.

Definition equality_from_receiver (receiver : string) : option EqualityImpl :=
  match from_source receiver with
  | Some ty => Some (EqualityFloat ty)
  | None =>
      if receiver =? "Binary" then Some EqualityBinary
      else if receiver =? "Bool" then Some EqualityBool
      else if receiver =? "String" then Some EqualityString
      else ty ← from_source receiver; Some (EqualityInt ty)
  end.

Definition equality_segment (e : EqualityImpl) : string :=
  match e with
  | EqualityBinary => "Binary" | EqualityBool => "Bool" | EqualityFloat ty => segment ty
  | EqualityInt ty => segment ty | EqualityString => "String"
  end.

Inductive HashImpl := HashBinary | HashBool | HashInt (ty : IntType) | HashString.

Definition hash_from_receiver (receiver : string) : option HashImpl :=
  if receiver =? "Binary" then Some HashBinary
  else if receiver =? "Bool" then Some HashBool
  else if receiver =? "String" then Some HashString
  else ty ← from_source receiver; Some (HashInt ty).

Definition hash_segment (h : HashImpl) : string :=
  match h with
  | HashBinary => "Binary" | HashBool => "Bool" | HashInt ty => segment ty | HashString => "String"
  end.

Definition narrow_suffix (t : IntNarrowTarget) : string :=
  match t with
  | NInt8 => "int8" | NInt16 => "int16" | NInt32 => "int32"
  | NUInt8 => "uint8" | NUInt16 => "uint16" | NUInt32 => "uint32" | NUInt64 => "uint64"
  end.

Definition narrow_from_source (method : string) : option IntNarrowTarget :=
  if method =? "to_int8" then Some NInt8
  else if method =? "to_int16" then Some NInt16
  else if method =? "to_int32" then Some NInt32
  else if method =? "to_uint8" then Some NUInt8
  else if method =? "to_uint16" then Some NUInt16
  else if method =? "to_uint32" then Some NUInt32
  else if method =? "to_uint64" then Some NUInt64
  else None.

Definition convert_path (c : NumericConvert) : string :=
  match c with
  | FloatToFloat32 => "Float.to_float32"
  | IntNarrow target => "Int.to_" +:+ narrow_suffix target
  | UInt64ToInt => "UInt64.to_int"
  end.

(** ** Ids *)

Inductive IRIntrinsicId :=
| IdBinary (m : BinaryMethod)
| IdBits (m : BitsMethod)
| IdBitwise (ty : IntType) (op : BitOp)
| IdCPtr (m : CPtrMethod)
| IdCString (m : CStringMethod)
| Consuming (m : ConsumingMethod)
| IdDebug (i : DebugImpl)
| IdEquality (i : EqualityImpl)
| IdHash (i : HashImpl)
| IdKernel (m : KernelMethod)
| IdList (m : ListMethod)
| IdLogRuntime (m : LogRuntimeMethod)
| IdMap (m : MapMethod)
| IdNumericConvert (c : NumericConvert)
| IdParse (t : ParseTarget)
| IdProcess (m : ProcessMethod)
| IdRef (m : RefMethod)
| IdReplyTo (m : ReplyToMethod)
| IdRuntimeBlock (m : RuntimeBlockMethod)
| IdSet (m : SetMethod)
| IdSocket (m : SocketMethod)
| IdString (m : StringMethod)
| IdTraceRuntime (m : TraceRuntimeMethod).

(** The match on the receiver's namespace. *)
Definition namespaced (receiver method : string) : option IRIntrinsicId :=
  if receiver =? "Binary" then IdBinary <$> from_source method
  else if receiver =? "Bits" then IdBits <$> from_source method
  else if receiver =? "CPtr" then IdCPtr <$> from_source method
  else if receiver =? "CString" then IdCString <$> from_source method
  else if (receiver =? "Float") && (method =? "to_float32") then Some (IdNumericConvert FloatToFloat32)
  else if receiver =? "Int" then (fun t => IdNumericConvert (IntNarrow t)) <$> narrow_from_source method
  else if receiver =? "Kernel" then IdKernel <$> from_source method
  else if receiver =? "List" then IdList <$> from_source method
  else if receiver =? "LogRuntime" then IdLogRuntime <$> from_source method
  else if receiver =? "Map" then IdMap <$> from_source method
  else if receiver =? "Process" then IdProcess <$> from_source method
  else if receiver =? "Ref" then IdRef <$> from_source method
  else if receiver =? "ReplyTo" then IdReplyTo <$> from_source method
  else if receiver =? "RuntimeBlock" then IdRuntimeBlock <$> from_source method
  else if receiver =? "Set" then IdSet <$> from_source method
  else if receiver =? "Socket" then IdSocket <$> from_source method
  else if receiver =? "String" then IdString <$> from_source method
  else if receiver =? "TraceRuntime" then IdTraceRuntime <$> from_source method
  else if (receiver =? "UInt64") && (method =? "to_int") then Some (IdNumericConvert UInt64ToInt)
  else None.

(** The families that cut across receivers. *)
Definition cross_receiver (receiver method : string) : option IRIntrinsicId :=
  if method =? "equals?" then IdEquality <$> equality_from_receiver receiver
  else if method =? "format" then IdDebug <$> debug_from_receiver receiver
  else if method =? "hash" then IdHash <$> hash_from_receiver receiver
  else if method =? "parse" then IdParse <$> from_source receiver
  else op ← from_source method; ty ← from_source receiver; Some (IdBitwise ty op).

Definition from_pair (receiver method : string) : option IRIntrinsicId :=
  match namespaced receiver method with
  | Some id => Some id
  | None => cross_receiver receiver method
  end.

Definition from_identifier (identifier : Identifier) : option IRIntrinsicId :=
  match path identifier with
  | [receiver; method] => from_pair receiver method
  | _ => None
  end.

(** [Display]. *)
Definition intrinsic_display (id : IRIntrinsicId) : string :=
  match id with
  | IdBinary m => "Binary." +:+ segment m
  | IdBits m => "Bits." +:+ segment m
  | IdBitwise ty op => segment ty +:+ "." +:+ segment op
  | IdCPtr m => "CPtr." +:+ segment m
  | IdCString m => "CString." +:+ segment m
  | Consuming m => consuming_path m +:+ ".$consume$"
  | IdDebug i => debug_segment i +:+ ".format"
  | IdEquality i => equality_segment i +:+ ".equals?"
  | IdHash i => hash_segment i +:+ ".hash"
  | IdKernel m => "Kernel." +:+ segment m
  | IdList m => "List." +:+ segment m
  | IdLogRuntime m => "LogRuntime." +:+ segment m
  | IdMap m => "Map." +:+ segment m
  | IdNumericConvert c => convert_path c
  | IdParse t => segment t +:+ ".parse"
  | IdProcess m => "Process." +:+ segment m
  | IdRef m => "Ref." +:+ segment m
  | IdReplyTo m => "ReplyTo." +:+ segment m
  | IdRuntimeBlock m => "RuntimeBlock." +:+ segment m
  | IdSet m => "Set." +:+ segment m
  | IdSocket m => "Socket." +:+ segment m
  | IdString m => "String." +:+ segment m
  | IdTraceRuntime m => "TraceRuntime." +:+ segment m
  end.

Definition is_consuming (id : IRIntrinsicId) : bool := match id with Consuming _ => true | _ => false end.

(** ** Parsing and rendering *)

(** No table repeats a segment. *)

#[export] Instance binary_method_table_ok : IntrinsicTable BinaryMethod.
Proof. by intros []. Qed.
#[export] Instance bits_method_table_ok : IntrinsicTable BitsMethod.
Proof. by intros []. Qed.
#[export] Instance bit_op_table_ok : IntrinsicTable BitOp.
Proof. by intros []. Qed.
#[export] Instance cptr_method_table_ok : IntrinsicTable CPtrMethod.
Proof. by intros []. Qed.
#[export] Instance cstring_method_table_ok : IntrinsicTable CStringMethod.
Proof. by intros []. Qed.
#[export] Instance float_type_table_ok : IntrinsicTable FloatType.
Proof. by intros []. Qed.
#[export] Instance int_type_table_ok : IntrinsicTable IntType.
Proof. by intros []. Qed.
#[export] Instance kernel_method_table_ok : IntrinsicTable KernelMethod.
Proof. by intros []. Qed.
#[export] Instance list_method_table_ok : IntrinsicTable ListMethod.
Proof. by intros []. Qed.
#[export] Instance log_runtime_method_table_ok : IntrinsicTable LogRuntimeMethod.
Proof. by intros []. Qed.
#[export] Instance map_method_table_ok : IntrinsicTable MapMethod.
Proof. by intros []. Qed.
#[export] Instance parse_target_table_ok : IntrinsicTable ParseTarget.
Proof. by intros []. Qed.
#[export] Instance process_method_table_ok : IntrinsicTable ProcessMethod.
Proof. by intros []. Qed.
#[export] Instance ref_method_table_ok : IntrinsicTable RefMethod.
Proof. by intros []. Qed.
#[export] Instance reply_to_method_table_ok : IntrinsicTable ReplyToMethod.
Proof. by intros []. Qed.
#[export] Instance runtime_block_method_table_ok : IntrinsicTable RuntimeBlockMethod.
Proof. by intros []. Qed.
#[export] Instance trace_runtime_method_table_ok : IntrinsicTable TraceRuntimeMethod.
Proof. by intros []. Qed.
#[export] Instance set_method_table_ok : IntrinsicTable SetMethod.
Proof. by intros []. Qed.
#[export] Instance socket_method_table_ok : IntrinsicTable SocketMethod.
Proof. by intros []. Qed.
#[export] Instance string_method_table_ok : IntrinsicTable StringMethod.
Proof. by intros []. Qed.

(** One conditional of a parser: its test holds of a literal, or the rest decides. *)
Ltac parse_step :=
  match goal with
  | |- context [String.eqb ?s ?t] => destruct (String.eqb_spec s t) as [->|_]; cbn [andb]
  end.

Ltac parsed :=
  intros H;
  repeat match goal with
  | H : _ <$> _ = Some _ |- _ => apply fmap_Some in H as (? & H & ->)
  | H : mbind _ _ = Some _ |- _ => apply bind_Some in H as (? & ? & H)
  | H : Some _ = Some _ |- _ => injection H as <-
  | H : from_source _ = Some _ |- _ => apply from_source_some in H as <-
  end; try discriminate; try by split.

Lemma narrow_spec m t : narrow_from_source m = Some t -> m = "to_" +:+ narrow_suffix t.
Proof. unfold narrow_from_source. repeat (parse_step; [by intros [= <-]|]). done. Qed.

Lemma debug_spec r d : debug_from_receiver r = Some d -> debug_segment d = r.
Proof. unfold debug_from_receiver. repeat (parse_step; [by intros [= <-]|]). parsed. Qed.

Lemma hash_spec r d : hash_from_receiver r = Some d -> hash_segment d = r.
Proof. unfold hash_from_receiver. repeat (parse_step; [by intros [= <-]|]). parsed. Qed.

Lemma equality_spec r d : equality_from_receiver r = Some d -> equality_segment d = r.
Proof.
  unfold equality_from_receiver. destruct (from_source r) as [ty|] eqn:Ef.
  { intros [= <-]. by apply from_source_some. }
  repeat (parse_step; [by intros [= <-]|]). parsed.
Qed.

Lemma namespaced_spec r m id :
  namespaced r m = Some id -> intrinsic_display id = r +:+ "." +:+ m /\ is_consuming id = false.
Proof.
  unfold namespaced.
  do 4 (parse_step; [by parsed|]).
  parse_step; [parse_step; [by parsed|done]|].
  parse_step; [by intros (t & ->%narrow_spec & ->)%fmap_Some|].
  do 12 (parse_step; [by parsed|]).
  parse_step; [parse_step; [by parsed|done]|done].
Qed.

Lemma cross_receiver_spec r m id :
  cross_receiver r m = Some id -> intrinsic_display id = r +:+ "." +:+ m /\ is_consuming id = false.
Proof.
  unfold cross_receiver. parse_step; [|parse_step; [|parse_step; [|parse_step]]].
  - intros (i & <-%equality_spec & ->)%fmap_Some. done.
  - intros (i & <-%debug_spec & ->)%fmap_Some. done.
  - intros (i & <-%hash_spec & ->)%fmap_Some. done.
  - by parsed.
  - by parsed.
Qed.

(** A rendered id split at its first dot. *)
Definition dotted (s : string) : string * string :=
  match String.index 0 "." s with
  | Some n => (String.substring 0 n s, String.substring (S n) (String.length s) s)
  | None => (s, "")
  end.

Lemma display_parses id :
  is_consuming id = false ->
  let '(receiver, method) := dotted (intrinsic_display id) in
  intrinsic_display id = receiver +:+ "." +:+ method /\ from_pair receiver method = Some id.
Proof.
  intros Hc. destruct id as [m|m|ty op|m|m|m|d|e|h|m|m|m|m|c|t|m|m|m|m|m|m|m|m]; try discriminate Hc; clear Hc;
    repeat match goal with
    | x : ?T |- _ => lazymatch type of T with Set => destruct x end
    end; vm_compute; split; reflexivity.
Qed.

(** Parsing an identifier and rendering an id are inverse: the id a two segment
    path parses to renders as that path, every id of the source surface is reached by
    the path it renders as, and the ids no identifier of any package reaches are the
    consuming twins. *)
Theorem intrinsic_roundtrip (id : IRIntrinsicId) :
  (forall identifier, from_identifier identifier = Some id ->
     exists receiver method, path identifier = [receiver; method] /\
       intrinsic_display id = receiver +:+ "." +:+ method) /\
  (is_consuming id = false <-> exists identifier, from_identifier identifier = Some id).
Proof.
  assert (Hpair : forall r m, from_pair r m = Some id ->
    intrinsic_display id = r +:+ "." +:+ m /\ is_consuming id = false).
  { intros r m. unfold from_pair. destruct (namespaced r m) eqn:En.
    - intros [= ->]. by apply namespaced_spec.
    - apply cross_receiver_spec. }
  split; [|split].
  - intros [pkg [|r [|m [|]]]]; try done. intros [Hd _]%Hpair. by exists r, m.
  - intros Hc%display_parses. destruct (dotted _) as [r m]. destruct Hc as [_ Hc].
    by exists (mkIdentifier "Global" [r; m]).
  - intros [[pkg [|r [|m [|]]]] Hi]; try done. by apply Hpair in Hi as [_ ?].
Qed.
