(* ===== verification/IRFunction.v ===== *)
(** * The intermediate representation

    Models [koja-ir/src/function.rs] in full (symbols, function kinds, functions,
    blocks, all instructions and terminators, with the operand and slot queries and
    the id counters), the constants of [types.rs] and [constant.rs], the declarations
    of [struct_decl.rs] and [enum_decl.rs], [package.rs], the lookups of [program.rs]
    and [declarations.rs], and the operand lists of [seal/mod.rs].

    A symbol is its mangled name. Block, value and local ids are [Z] and do not wrap:
    a function would need 2^32 of them. Packages keep their [BTreeMap]s as maps from
    symbols. What only diagnostics and the LLVM backend read (labels of blocks, source
    locations, union layouts) is left out.

    [uses_value_operands] shows that the two operand walks of the code, [uses_value]
    of the evaluator and [instruction_operands] of the seal, agree on every
    instruction. *)

From stdpp Require Import strings gmap.
From Stdlib Require Import SpecFloat.
From S2P Require Import Prelude IRValue IntrinsicId.
Local Open Scope Z_scope.

Notation IRSymbol := string (only parsing).
Notation IRBlockId := Z (only parsing).
Notation IRVariantTag := Z (only parsing).

(** [is_heap_managed] of [types.rs]. *)
Definition is_heap_managed (ty : IRType) : bool :=
  match ty with
  | TBinary | TBits | TString => true
  | TEnum _ | TFunction _ _ | TIndirect _ | TList _ | TMap _ _ | TSet _ | TStruct _ | TTuple _
  | TUnion _ _ => true
  | TBool | TCPtr _ | TFloat32 | TFloat64 | TInt8 | TInt16 | TInt32 | TInt64
  | TUInt8 | TUInt16 | TUInt32 | TUInt64 | TUnit => false
  end.

(** ** Constants *)

(** A string constant is its UTF-8 bytes. *)
Inductive ConstValue :=
| CBinary (bytes : list Z)
| CBits (bytes : list Z) (bit_length : Z)
| CBool (b : bool)
| CFloat32 (v : spec_float)
| CFloat64 (v : spec_float)
| CInt8 (v : Z) | CInt16 (v : Z) | CInt32 (v : Z) | CInt64 (v : Z)
| CString (bytes : list Z)
| CUInt8 (v : Z) | CUInt16 (v : Z) | CUInt32 (v : Z) | CUInt64 (v : Z)
| CUnit.

Inductive IRConstantValue :=
| Built (init : IRSymbol) (ty : IRType)
| EnumVariant (tag : IRVariantTag) (ty : IRSymbol)
| Primitive (v : ConstValue)
| CStruct (fields : list IRConstantValue) (ty : IRSymbol).

(** ** Declarations *)

Record IRStructField := mkStructField { field_index : Z; ir_type : IRType; field_name : string }.

Record IRStructDecl := mkStructDecl { sfields : list IRStructField; ssymbol : IRSymbol }.

Record StructFieldInit := mkFieldInit { init_index : Z; init_value : ValueId }.

Inductive IRVariantPayload :=
| VPStruct (fields : list IRStructField)
| VPTuple (types : list IRType)
| VPUnit.

Record IREnumVariant := mkVariant { vname : string; vpayload : IRVariantPayload; vtag : IRVariantTag }.

Record IREnumDecl := mkEnumDecl { esymbol : IRSymbol; variants : list IREnumVariant }.

Inductive EnumPayloadInit :=
| EPStruct (fields : list StructFieldInit)
| EPTuple (elements : list ValueId)
| EPUnit.

(** ** Instructions *)

Record BranchTarget := mkTarget { target_args : list ValueId; target_block : IRBlockId }.

(** [BranchTarget::to] and [BranchTarget::with_args]. *)
Definition target_to (block : IRBlockId) : BranchTarget := mkTarget [] block.
Definition target_with_args (block : IRBlockId) (args : list ValueId) : BranchTarget := mkTarget args block.

Inductive IRIndirectSlot :=
| SlotEnumPayload (payload_index : Z) (tag : IRVariantTag) (ty : IRSymbol)
| SlotStructField (index : Z) (struct_symbol : IRSymbol).

Inductive ReceiveTag := RBusiness | RExitSignal | RIOReady | RLifecycle.

#[global] Instance ReceiveTag_eq_dec : EqDecision ReceiveTag.
Proof. solve_decision. Defined.

Definition wire_byte (t : ReceiveTag) : Z :=
  match t with RBusiness => 0 | RExitSignal => 4 | RIOReady => 2 | RLifecycle => 1 end.

Record ReceiveArm := mkArm {
  arm_body : IRBlockId;
  payload_local : IRLocalId;
  payload_type : IRType;
  arm_tag : ReceiveTag;
}.

Record ReceiveAfter := mkAfter { after_body : IRBlockId; timeout : ValueId }.

Inductive IRInstruction :=
| BinaryOp (dest lhs : ValueId) (op : IRBinOp) (operand_ty : IRType) (rhs : ValueId)
| BinaryConstruct (dest : ValueId) (layout : ResolvedBinaryLayout) (segments : list LoweredBinarySegment)
| BinaryMatch (dest : ValueId) (layout : LoweredBinaryMatchLayout) (segments : list LoweredBinaryPattern)
    (subject : ValueId)
| Call (dest : ValueId) (callee : IRSymbol) (args : list ValueId)
| CallClosure (args : list ValueId) (callee dest : ValueId) (param_types : list IRType) (result_ty : IRType)
| Clone (dest source : ValueId) (ty : IRType)
| ClosureEquals (dest lhs rhs : ValueId) (ty : IRType)
| Concat (consumes_lhs : bool) (dest : ValueId) (kind : ConcatKind) (lhs rhs : ValueId)
| Const (dest : ValueId) (value : ConstValue)
| ConsumeLocal (local : IRLocalId)
| DeepCopy (dest source : ValueId) (ty : IRType)
| EnumConstruct (dest : ValueId) (payload : EnumPayloadInit) (tag : IRVariantTag) (ty : IRSymbol)
| EnumTagGet (dest value : ValueId) (ty : IRSymbol)
| EnumPayloadFieldGet (dest value : ValueId) (tag : IRVariantTag) (payload_index : Z) (field_type : IRType)
    (ty : IRSymbol)
| FieldGet (base dest : ValueId) (index : Z) (field_type : IRType) (struct_symbol : IRSymbol)
| FieldSet (base dest : ValueId) (index : Z) (field_type : IRType) (struct_symbol : IRSymbol) (value : ValueId)
| IndirectPresent (base dest : ValueId) (slot : IRIndirectSlot)
| DropLocal (local : IRLocalId) (ty : IRType)
| DropValue (value : ValueId) (ty : IRType)
| LocalDecl (local : IRLocalId) (ty : IRType)
| LocalRead (dest : ValueId) (local : IRLocalId) (ty : IRType)
| LocalWrite (local : IRLocalId) (value : ValueId)
| MakeClosure (body : IRSymbol) (captured : list ValueId) (dest : ValueId) (ty : IRType)
| LoadCapture (capture_index : Z) (dest : ValueId) (ty : IRType)
| LoadCaptureOf (capture_index : Z) (closure dest : ValueId) (ty : IRType)
| LoadConst (const_id : IRSymbol) (dest : ValueId) (ty : IRType)
| StructInit (dest : ValueId) (fields : list StructFieldInit) (ty : IRSymbol)
| TupleGet (base dest : ValueId) (element_type : IRType) (index : Z)
| TupleInit (dest : ValueId) (elements : list ValueId) (ty : list IRType)
| UnaryOp (dest : ValueId) (op : IRUnaryOp) (operand : ValueId) (operand_ty : IRType)
| Spawn (config : ValueId) (config_type : IRType) (dest : ValueId) (ref_type wrapper : IRSymbol)
| ProcessExit (reason : ValueId)
| SetPriority (tag : ValueId)
| YieldCheck
| Receive (after : option ReceiveAfter) (arms : list ReceiveArm) (dest : ValueId) (result_type : IRType)
| NumericWiden (dest : ValueId) (from to : IRType) (value : ValueId)
| UnionWrap (dest : ValueId) (member_index : Z) (member_type ty : IRType) (value : ValueId)
| UnionTagGet (dest : ValueId) (ty : IRType) (value : ValueId)
| UnionPayloadGet (dest : ValueId) (member_index : Z) (member_type ty : IRType) (value : ValueId).

(** [IRInstruction::dest]. *)
Definition instr_dest (i : IRInstruction) : option ValueId :=
  match i with
  | BinaryConstruct dest _ _ | BinaryMatch dest _ _ _ | BinaryOp dest _ _ _ _ | Call dest _ _
  | CallClosure _ _ dest _ _ | Clone dest _ _ | ClosureEquals dest _ _ _ | Concat _ dest _ _ _
  | Const dest _ | DeepCopy dest _ _ | EnumConstruct dest _ _ _ | EnumPayloadFieldGet dest _ _ _ _ _
  | EnumTagGet dest _ _ | FieldGet _ dest _ _ _ | FieldSet _ dest _ _ _ _ | IndirectPresent _ dest _
  | LoadCapture _ dest _ | LoadCaptureOf _ _ dest _ | LoadConst _ dest _ | LocalRead dest _ _
  | MakeClosure _ _ dest _ | NumericWiden dest _ _ _ | Receive _ _ dest _ | Spawn _ _ dest _ _
  | StructInit dest _ _ | TupleGet _ dest _ _ | TupleInit dest _ _ | UnaryOp dest _ _ _
  | UnionPayloadGet dest _ _ _ _ | UnionTagGet dest _ _ | UnionWrap dest _ _ _ _ => Some dest
  | ConsumeLocal _ | DropLocal _ _ | DropValue _ _ | LocalDecl _ _ | LocalWrite _ _ | ProcessExit _
  | SetPriority _ | YieldCheck => None
  end.

(** [args.contains(&value)]. *)
Definition contains (l : list ValueId) (v : ValueId) : bool := existsb (Z.eqb v) l.

(** [IRInstruction::uses_value]. *)
Definition uses_value (i : IRInstruction) (value : ValueId) : bool :=
  match i with
  | BinaryConstruct _ _ segments =>
      existsb (fun s => match s with SFloat v _ _ _ | SInteger v _ _ _ _ | SString v _ _ => v =? value end) segments
  | BinaryMatch _ _ _ subject => subject =? value
  | BinaryOp _ lhs _ _ rhs | ClosureEquals _ lhs rhs _ | Concat _ _ _ lhs rhs => (lhs =? value) || (rhs =? value)
  | Call _ _ args => contains args value
  | CallClosure args callee _ _ _ => (callee =? value) || contains args value
  | Clone _ source _ | DeepCopy _ source _ => source =? value
  | Const _ _ | ConsumeLocal _ | DropLocal _ _ | LoadCapture _ _ _ | LoadConst _ _ _ | LocalDecl _ _
  | LocalRead _ _ _ | YieldCheck => false
  | DropValue v _ => v =? value
  | EnumConstruct _ payload _ _ =>
      match payload with
      | EPStruct fields => existsb (fun f => init_value f =? value) fields
      | EPTuple elements => contains elements value
      | EPUnit => false
      end
  | EnumPayloadFieldGet _ v _ _ _ _ | EnumTagGet _ v _ | LocalWrite _ v | NumericWiden _ _ _ v
  | UnionPayloadGet _ _ _ _ v | UnionTagGet _ _ v | UnionWrap _ _ _ _ v => v =? value
  | FieldGet base _ _ _ _ | IndirectPresent base _ _ | TupleGet base _ _ _ => base =? value
  | FieldSet base _ _ _ _ v => (base =? value) || (v =? value)
  | LoadCaptureOf _ closure _ _ => closure =? value
  | MakeClosure _ captured _ _ => contains captured value
  | ProcessExit reason => reason =? value
  | Receive after _ _ _ => match after with Some a => timeout a =? value | None => false end
  | SetPriority tag => tag =? value
  | Spawn config _ _ _ _ => config =? value
  | StructInit _ fields _ => existsb (fun f => init_value f =? value) fields
  | TupleInit _ elements _ => contains elements value
  | UnaryOp _ _ operand _ => operand =? value
  end.

(** [IRInstruction::touches_local]. *)
Definition touches_local (i : IRInstruction) (local : IRLocalId) : bool :=
  match i with
  | ConsumeLocal l | DropLocal l _ | LocalDecl l _ | LocalRead _ l _ | LocalWrite l _ => l =? local
  | BinaryMatch _ _ segments _ =>
      existsb (fun s => match s with
                        | BindInt _ _ l _ _ _ => l =? local
                        | GreedyTail _ (Some l) _ => l =? local
                        | _ => false
                        end) segments
  | Receive _ arms _ _ => existsb (fun arm => payload_local arm =? local) arms
  | _ => false
  end.

(** The releases, which define nothing. *)
Definition is_drop (i : IRInstruction) : bool :=
  match i with DropLocal _ _ | DropValue _ _ => true | _ => false end.

(** [instruction_operands] and [terminator_operands] of [seal/mod.rs]. *)
Definition instruction_operands (i : IRInstruction) : list ValueId :=
  match i with
  | BinaryConstruct _ _ segments => map segment_value segments
  | BinaryMatch _ _ _ subject => [subject]
  | BinaryOp _ lhs _ _ rhs => [lhs; rhs]
  | Call _ _ args => args
  | CallClosure args callee _ _ _ => callee :: args
  | Clone _ source _ | DeepCopy _ source _ => [source]
  | ClosureEquals _ lhs rhs _ | Concat _ _ _ lhs rhs => [lhs; rhs]
  | Const _ _ => []
  | EnumConstruct _ payload _ _ =>
      match payload with
      | EPStruct fields => map init_value fields
      | EPTuple elements => elements
      | EPUnit => []
      end
  | EnumPayloadFieldGet _ value _ _ _ _ | EnumTagGet _ value _ => [value]
  | FieldGet base _ _ _ _ => [base]
  | FieldSet base _ _ _ _ value => [base; value]
  | IndirectPresent base _ _ => [base]
  | LoadCapture _ _ _ => []
  | LoadCaptureOf _ closure _ _ => [closure]
  | LoadConst _ _ _ => []
  | ConsumeLocal _ | DropLocal _ _ | LocalDecl _ _ | LocalRead _ _ _ => []
  | DropValue value _ => [value]
  | LocalWrite _ value => [value]
  | MakeClosure _ captured _ _ => captured
  | NumericWiden _ _ _ value => [value]
  | Receive after _ _ _ => match after with Some a => [timeout a] | None => [] end
  | Spawn config _ _ _ _ => [config]
  | ProcessExit reason => [reason]
  | SetPriority tag => [tag]
  | YieldCheck => []
  | StructInit _ fields _ => map init_value fields
  | TupleGet base _ _ _ => [base]
  | TupleInit _ elements _ => elements
  | UnaryOp _ _ operand _ => [operand]
  | UnionPayloadGet _ _ _ _ value | UnionTagGet _ _ value => [value]
  | UnionWrap _ _ _ _ value => [value]
  end.

(** ** Terminators, blocks and functions *)

Inductive IRTerminator :=
| Branch (target : BranchTarget)
| CondBranch (cond : ValueId) (else_target then_target : BranchTarget)
| Return (value : option ValueId)
| TailCall (args : list ValueId) (callee : IRSymbol)
| Unreachable.

(** [IRTerminator::targets]. *)
Definition targets (t : IRTerminator) : list IRBlockId :=
  match t with
  | Branch target => [target_block target]
  | CondBranch _ else_target then_target => [target_block then_target; target_block else_target]
  | Return _ | TailCall _ _ | Unreachable => []
  end.

(** [IRTerminator::uses_value]. *)
Definition term_uses_value (t : IRTerminator) (value : ValueId) : bool :=
  match t with
  | Branch target => contains (target_args target) value
  | CondBranch cond else_target then_target =>
      (cond =? value) || contains (target_args else_target) value || contains (target_args then_target) value
  | Return returned => bool_decide (returned = Some value)
  | TailCall args _ => contains args value
  | Unreachable => false
  end.

Definition terminator_operands (t : IRTerminator) : list ValueId :=
  match t with
  | Branch target => target_args target
  | CondBranch cond else_target then_target => cond :: target_args then_target ++ target_args else_target
  | Return value => option_list value
  | TailCall args _ => args
  | Unreachable => []
  end.

Record BlockParam := mkBlockParam { param_dest : ValueId; param_ty : IRType }.

Record IRBasicBlock := mkBlock {
  block_id : IRBlockId;
  block_params : list BlockParam;
  instructions : list IRInstruction;
  terminator : IRTerminator;
}.

(** The blocks a [receive] dispatches to without a terminator edge. *)
Definition receive_targets (i : IRInstruction) : list IRBlockId :=
  match i with
  | Receive after arms _ _ => map arm_body arms ++ option_list (after_body <$> after)
  | _ => []
  end.

Record IRExternAttrs := mkExternAttrs { link_lib : option string; link_name : option string }.

Inductive FunctionKind :=
| CloneGlue
| Closure (env_layout : list IRType)
| CopyClosureGlue (env_layout : list IRType)
| DeepCopyGlue
| DropClosureGlue (env_layout : list IRType)
| EqClosureGlue (env_layout : list IRType)
| DropGlue
| Extern (attrs : IRExternAttrs)
| Intrinsic (id : IRIntrinsicId)
| ProcessEntryWrapper (state : IRType)
| Regular
| SpawnWrapper (state : IRType).

Record IRFunctionParam := mkParam { param_id : ValueId; local_id : IRLocalId; fparam_ty : IRType }.

Record IRFunction := mkFunction {
  blocks : list IRBasicBlock;
  kind : FunctionKind;
  params : list IRFunctionParam;
  return_type : IRType;
  symbol : IRSymbol;
}.

Definition with_blocks (f : IRFunction) (bs : list IRBasicBlock) : IRFunction :=
  mkFunction bs (kind f) (params f) (return_type f) (symbol f).

(** ** Id counters *)

(** [next_block_id]: one past the highest id, or 0. *)
Definition next_block_id (f : IRFunction) : IRBlockId :=
  match map block_id (blocks f) with
  | [] => 0
  | id :: ids => fold_left Z.max ids id + 1
  end.

Definition local_high (i : IRInstruction) (high : Z) : Z :=
  match i with
  | ConsumeLocal l | DropLocal l _ | LocalDecl l _ | LocalRead _ l _ | LocalWrite l _ => Z.max high l
  | Receive _ arms _ _ => fold_left (fun m arm => Z.max m (payload_local arm)) arms high
  | _ => high
  end.

Definition next_local_id (f : IRFunction) : IRLocalId :=
  let high := fold_left (fun m p => Z.max m (local_id p)) (params f) 0 in
  fold_left (fun m b => fold_left (fun m i => local_high i m) (instructions b) m) (blocks f) high + 1.

Definition param_high_water_mark (f : IRFunction) : Z :=
  match map (fun p => param_id p + 1) (params f) with [] => 0 | m :: ms => fold_left Z.max ms m end.

Definition block_high_water (m : Z) (b : IRBasicBlock) : Z :=
  let m := fold_left (fun m p => Z.max m (param_dest p + 1)) (block_params b) m in
  fold_left (fun m i => match instr_dest i with Some d => Z.max m (d + 1) | None => m end) (instructions b) m.

Definition high_water_mark (bs : list IRBasicBlock) (seed : Z) : ValueId :=
  fold_left block_high_water bs seed.

Definition next_value_id (f : IRFunction) : ValueId :=
  high_water_mark (blocks f) (param_high_water_mark f).

(** ** Packages and programs *)

Record IRPackage := mkPackage {
  constants : gmap IRSymbol IRConstantValue;
  enums : gmap IRSymbol IREnumDecl;
  functions : gmap IRSymbol IRFunction;
  package : string;
  structs : gmap IRSymbol IRStructDecl;
}.

Record IRProgram := mkProgram {
  built_constant_order : list IRSymbol;
  entry_point : IRSymbol;
  packages : list IRPackage;
}.

(** [find_in] of [declarations.rs]: the first package that declares the symbol. *)
Fixpoint find_in {A} (ps : list IRPackage) (select : IRPackage -> gmap IRSymbol A) (mangled : string) : option A :=
  match ps with
  | [] => None
  | p :: rest => match select p !! mangled with Some a => Some a | None => find_in rest select mangled end
  end.

Definition program_function (p : IRProgram) (mangled : string) : option IRFunction :=
  find_in (packages p) functions mangled.
Definition program_struct (p : IRProgram) (mangled : string) : option IRStructDecl :=
  find_in (packages p) structs mangled.
Definition program_enum (p : IRProgram) (mangled : string) : option IREnumDecl :=
  find_in (packages p) enums mangled.
Definition program_constant (p : IRProgram) (mangled : string) : option IRConstantValue :=
  find_in (packages p) constants mangled.

(** ** Lemmas *)

Lemma contains_spec l v : contains l v = bool_decide (v ∈ l).
Proof.
  induction l as [|a l IH]; simpl; [done|].
  rewrite IH. destruct (Z.eqb_spec v a) as [->|Hne].
  - symmetry. apply bool_decide_eq_true_2. left.
  - apply bool_decide_ext. rewrite elem_of_cons. naive_solver.
Qed.

Lemma contains_map {A} (g : A -> ValueId) l v : contains (map g l) v = existsb (fun a => g a =? v) l.
Proof. induction l as [|a l IH]; simpl; [done|]. by rewrite IH, Z.eqb_sym. Qed.

(** The evaluator's operand query and the seal's operand list agree. *)
Lemma uses_value_operands i v : uses_value i v = contains (instruction_operands i) v.
Proof.
  destruct i; simpl; rewrite ?contains_map, ?orb_false_r, ?(Z.eqb_sym v); try done.
  - induction segments as [|s l IH]; simpl; [done|]. rewrite IH. by destruct s.
  - destruct payload; by rewrite ?contains_map.
  - destruct after; simpl; by rewrite ?orb_false_r, ?(Z.eqb_sym v).
Qed.

(** [find_in] commutes with a map over the selected declarations. *)
Lemma find_in_fmap {A} (g : A -> A) (h : IRPackage -> IRPackage) select ps mangled :
  (forall p, select (h p) = g <$> select p) ->
  find_in (map h ps) select mangled = g <$> find_in ps select mangled.
Proof.
  intros Hsel. induction ps as [|p ps IH]; simpl; [done|].
  rewrite Hsel, lookup_fmap. destruct (select p !! mangled); simpl; done.
Qed.

Lemma find_in_same {A} (h : IRPackage -> IRPackage) (select : IRPackage -> gmap IRSymbol A) ps mangled :
  (forall p, select (h p) = select p) -> find_in (map h ps) select mangled = find_in ps select mangled.
Proof.
  intros Hsel. induction ps as [|p ps IH]; simpl; [done|]. by rewrite Hsel, IH.
Qed.

Lemma find_in_elem {A} ps (select : IRPackage -> gmap string A) m a :
  find_in ps select m = Some a -> exists pkg, pkg ∈ ps /\ select pkg !! m = Some a.
Proof.
  induction ps as [|p ps IH]; simpl; [done|]. destruct (select p !! m) as [x|] eqn:E.
  - intros [= <-]. exists p. split; [left|done].
  - intros (q & Hq & ?)%IH. exists q. split; [by right|done].
Qed.
