(* ===== verification/Dominators.v ===== *)
(** * Dominators

    Models [koja-ir/src/dominators.rs]: the successor edges, the depth-first postorder, the predecessor map and
    the iterative algorithm of Cooper, Harvey and Kennedy, with the chain walk
    [dominates] and the tree of children. Of the instructions only [Receive]
    carries edges. An index that is missing
    from a map panics in the code and is [None] here; loops take fuel, and
    [compute_immediate_dominators] passes the number of blocks plus two, which is
    shown to be enough.

    [idoms_correct] shows that the computed tree is the dominance relation of the
    control-flow graph, defined by paths. *)

From S2P Require Import Prelude IRValue IRFunction.
Local Open Scope nat_scope.

Definition successors (block : IRBasicBlock) : list IRBlockId :=
  concat (map receive_targets (instructions block)) ++ targets (terminator block).

(** Collecting into a [HashMap]: a later block replaces an earlier one. *)
Definition by_id (blocks : list IRBasicBlock) : gmap IRBlockId IRBasicBlock :=
  fold_left (fun m b => <[block_id b := b]> m) blocks ∅.

(** The visited set and the postorder built so far. *)
Definition Visit : Type := gset IRBlockId * list IRBlockId.

Definition visit_all (f : IRBlockId -> Visit -> option Visit) : list IRBlockId -> Visit -> option Visit :=
  fix go targets st := match targets with [] => Some st | t :: rest => st ← f t st; go rest st end.

Fixpoint visit (fuel : nat) (blocks : gmap IRBlockId IRBasicBlock) (id : IRBlockId) (st : Visit) : option Visit :=
  let (visited, order) := st in
  if bool_decide (id ∈ visited) then Some (visited, order)
  else
    match blocks !! id with
    | None => Some ({[id]} ∪ visited, order)
    | Some block =>
        match fuel with
        | O => None
        | S fuel =>
            '(visited, order) ← visit_all (visit fuel blocks) (successors block) ({[id]} ∪ visited, order);
            Some (visited, order ++ [id])
        end
    end.

Definition postorder_traversal (fuel : nat) (blocks : list IRBasicBlock) (entry : IRBlockId) : option (list IRBlockId) :=
  '(_, order) ← visit fuel (by_id blocks) entry (∅, []);
  Some order.

Fixpoint postorder_index (n : nat) (order : list IRBlockId) : gmap IRBlockId nat :=
  match order with [] => ∅ | b :: rest => <[b := n]> (postorder_index (S n) rest) end.

Definition add_predecessor (id : IRBlockId) (m : gmap IRBlockId (list IRBlockId)) (successor : IRBlockId) :=
  <[successor := default [] (m !! successor) ++ [id]]> m.

Definition predecessor_map (blocks : list IRBasicBlock) : gmap IRBlockId (list IRBlockId) :=
  fold_left (fun m b => fold_left (add_predecessor (block_id b)) (successors b) m) blocks ∅.

Section Intersect.
Context (fuel : nat) (idoms : gmap IRBlockId IRBlockId) (index : gmap IRBlockId nat).

(** [while postorder_index[finger] < postorder_index[limit] { finger = idoms[finger] }] *)
Fixpoint climb (fuel : nat) (finger limit : IRBlockId) : option IRBlockId :=
  i ← index !! finger;
  l ← index !! limit;
  if i <? l then
    match fuel with
    | O => None
    | S fuel => parent ← idoms !! finger; climb fuel parent limit
    end
  else Some finger.

Fixpoint meet (rounds : nat) (finger1 finger2 : IRBlockId) : option IRBlockId :=
  if bool_decide (finger1 = finger2) then Some finger1
  else
    match rounds with
    | O => None
    | S rounds =>
        finger1 ← climb fuel finger1 finger2;
        finger2 ← climb fuel finger2 finger1;
        meet rounds finger1 finger2
    end.

Definition intersect (b1 b2 : IRBlockId) : option IRBlockId := meet fuel b1 b2.

(** The fold over the known predecessors. *)
Fixpoint intersect_all (acc : IRBlockId) (others : list IRBlockId) : option IRBlockId :=
  match others with
  | [] => Some acc
  | other :: rest => acc ← intersect other acc; intersect_all acc rest
  end.
End Intersect.

Section Compute.
Context (fuel : nat) (index : gmap IRBlockId nat) (predecessors : gmap IRBlockId (list IRBlockId)) (entry : IRBlockId).

(** One turn of the loop over the blocks: the map and the [changed] flag. *)
Definition update_block (st : gmap IRBlockId IRBlockId * bool) (block : IRBlockId)
    : option (gmap IRBlockId IRBlockId * bool) :=
  let (idoms, changed) := st in
  if bool_decide (block = entry) then Some (idoms, changed)
  else
    match List.filter (fun p => bool_decide (is_Some (idoms !! p))) (default [] (predecessors !! block)) with
    | [] => Some (idoms, changed)
    | first :: others =>
        new ← intersect_all fuel idoms index first others;
        if bool_decide (idoms !! block = Some new) then Some (idoms, changed)
        else Some (<[block := new]> idoms, true)
    end.

Fixpoint update_blocks (blocks : list IRBlockId) (st : gmap IRBlockId IRBlockId * bool)
    : option (gmap IRBlockId IRBlockId * bool) :=
  match blocks with
  | [] => Some st
  | b :: rest => st ← update_block st b; update_blocks rest st
  end.

(** [while changed]: [order] is the reverse postorder. *)
Fixpoint iterate (passes : nat) (order : list IRBlockId) (idoms : gmap IRBlockId IRBlockId)
    : option (gmap IRBlockId IRBlockId) :=
  match passes with
  | O => None
  | S passes =>
      '(idoms, changed) ← update_blocks order (idoms, false);
      if changed : bool then iterate passes order idoms else Some idoms
  end.
End Compute.

Definition compute_with (fuel : nat) (blocks : list IRBasicBlock) (entry : IRBlockId) : option (gmap IRBlockId IRBlockId) :=
  postorder ← postorder_traversal fuel blocks entry;
  idoms ← iterate fuel (postorder_index 0 postorder) (predecessor_map blocks) entry fuel (rev postorder) {[entry := entry]};
  Some (delete entry idoms).

Definition compute_immediate_dominators (blocks : list IRBasicBlock) (entry : IRBlockId) : option (gmap IRBlockId IRBlockId) :=
  compute_with (length blocks + 2) blocks entry.

Fixpoint chain_has (fuel : nat) (idoms : gmap IRBlockId IRBlockId) (dominator current : IRBlockId) : option bool :=
  if bool_decide (current = dominator) then Some true
  else
    match idoms !! current with
    | None => Some false
    | Some parent => match fuel with O => None | S fuel => chain_has fuel idoms dominator parent end
    end.

Definition dominates (fuel : nat) (idoms : gmap IRBlockId IRBlockId) (entry dominator block : IRBlockId) : option bool :=
  if bool_decide (dominator = entry) then Some true else chain_has fuel idoms dominator block.

Definition dominator_tree_children (idoms : gmap IRBlockId IRBlockId) (blocks : list IRBasicBlock)
    : gmap IRBlockId (list IRBlockId) :=
  fold_left (fun children b =>
    match idoms !! block_id b with
    | Some parent => <[parent := default [] (children !! parent) ++ [block_id b]]> children
    | None => children
    end) blocks ∅.

(** The diamond of the unit test: [0 -> 1 -> 3], [0 -> 2 -> 3]. *)
Definition diamond : list IRBasicBlock :=
  [mkBlock 0%Z [] [] (CondBranch 0%Z (target_to 2%Z) (target_to 1%Z)); mkBlock 1%Z [] [] (Branch (target_to 3%Z));
   mkBlock 2%Z [] [] (Branch (target_to 3%Z)); mkBlock 3%Z [] [] (Return None)].

Example diamond_idoms : compute_immediate_dominators diamond 0 = Some (list_to_map [(1, 0); (2, 0); (3, 0)]%Z).
Proof. vm_compute. reflexivity. Qed.

(** ** Dominance by paths, in a numbered graph

    [order] is a postorder: the entry comes last, and every other block has a
    predecessor after it. *)

Section Dominance.
Context (order : list Z) (entry : Z) (edge : Z -> Z -> Prop).

Definition rank (b : Z) : nat := default 0 (postorder_index 0 order !! b).

(** [b] is reached from the entry without passing [d], taking at most [k] edges
    that do not go down in rank. *)
Inductive avoid (d : Z) : nat -> Z -> Prop :=
  | avoid_entry k : entry <> d -> avoid d k entry
  | avoid_down k p b : avoid d k p -> edge p b -> rank b < rank p -> b <> d -> avoid d k b
  | avoid_any k p b : avoid d k p -> edge p b -> b <> d -> avoid d (S k) b.

Definition dom (d b : Z) : Prop := forall k, ~ avoid d k b.

(** [d] is on the chain of immediate dominators of [b]. *)
Inductive anc (I : gmap Z Z) : Z -> Z -> Prop :=
  | anc_refl b : is_Some (I !! b) -> anc I b b
  | anc_step b p d : I !! b = Some p -> b <> entry -> anc I p d -> anc I b d.

Definition tree (I : gmap Z Z) : Prop := I !! entry = Some entry /\
  forall b p, I !! b = Some p -> b ∈ order /\ (b <> entry -> rank b < rank p /\ is_Some (I !! p)).

Context (order_nodup : NoDup order) (entry_last : last order = Some entry).
Context (edge_order : forall p b, edge p b -> p ∈ order /\ b ∈ order).

Lemma index_lookup n l b i : NoDup l -> postorder_index n l !! b = Some i <-> n <= i /\ l !! (i - n) = Some b.
Proof.
  revert n. induction l as [|x l IH]; intros n Hnd; simpl.
  - rewrite lookup_empty. split; [done|]. intros [_ H]. by destruct (i - n).
  - apply NoDup_cons in Hnd as [Hx Hnd]. destruct (decide (x = b)) as [->|Hne].
    + rewrite lookup_insert_eq. split; [intros [= <-]; split; [lia|]; by rewrite Nat.sub_diag|]. intros [Hle H].
      destruct (i - n) as [|j] eqn:Ej; [f_equal; lia|]. exfalso. apply Hx. apply list_elem_of_lookup. by exists j.
    + rewrite lookup_insert_ne by done. rewrite IH by done. split.
      * intros [Hle H]. split; [lia|]. replace (i - n) with (S (i - S n)) by lia. done.
      * intros [Hle H]. destruct (i - n) as [|j] eqn:Ej; [by injection H|]. split; [lia|]. by replace (i - S n) with j by lia.
Qed.

Lemma rank_spec b : b ∈ order -> postorder_index 0 order !! b = Some (rank b) /\ order !! rank b = Some b /\ rank b < length order.
Proof.
  intros Hb. apply list_elem_of_lookup in Hb as [i Hi].
  assert (postorder_index 0 order !! b = Some i) as E by (apply index_lookup; [done|]; rewrite Nat.sub_0_r; auto with lia).
  unfold rank. rewrite E. simpl. split; [done|]. split; [done|]. by apply lookup_lt_Some in Hi.
Qed.

Lemma rank_inj b c : b ∈ order -> c ∈ order -> rank b = rank c -> b = c.
Proof. intros Hb Hc E. destruct (rank_spec b Hb) as (_ & H1 & _), (rank_spec c Hc) as (_ & H2 & _). rewrite E in H1. congruence. Qed.

Lemma entry_in : entry ∈ order.
Proof. by apply last_Some_elem_of. Qed.

Lemma rank_entry : S (rank entry) = length order.
Proof.
  pose proof (rank_spec entry entry_in) as (_ & H & Hlt). rewrite last_lookup in entry_last.
  assert (rank entry = pred (length order)) as ->; [|lia]. eapply NoDup_lookup; eauto.
Qed.

(** *** Paths *)

Lemma avoid_le d k k' b : avoid d k b -> k <= k' -> avoid d k' b.
Proof.
  intros H. revert k'. induction H as [k Hd|k p b _ IH He Hr Hb|k p b _ IH He Hb]; intros k' Hle.
  - by apply avoid_entry.
  - by eapply avoid_down; [apply IH|..].
  - destruct k' as [|k']; [lia|]. eapply avoid_any; [apply IH; lia|done..].
Qed.

Lemma avoid_in d k b : avoid d k b -> b ∈ order.
Proof. intros H. destruct H as [|? ? ? _ He|? ? ? _ He]; [apply entry_in|by destruct (edge_order _ _ He)..]. Qed.

Lemma avoid_ne d k b : avoid d k b -> b <> d.
Proof. by destruct 1. Qed.

(** A path that avoids [d] also avoids [b], or it passes [b]. *)
Lemma avoid_through d j b x : avoid d j x -> avoid b j x \/ avoid d j b.
Proof.
  induction 1 as [k Hd|k p y Hp IH He Hr Hy|k p y Hp IH He Hy].
  - destruct (decide (entry = b)) as [<-|]; [right; by apply avoid_entry|left; by apply avoid_entry].
  - destruct IH as [IH|IH]; [|by right]. destruct (decide (y = b)) as [->|]; [right|left]; by eapply avoid_down.
  - destruct IH as [IH|IH]; [|right; eapply avoid_le; [done|lia]].
    destruct (decide (y = b)) as [->|]; [right|left]; by eapply avoid_any.
Qed.

(** Paths need no repeated block: at most one such edge per block. *)
Inductive walk (d : Z) : list Z -> Prop :=
  | walk_one : entry <> d -> walk d [entry]
  | walk_snoc l p b : walk d (l ++ [p]) -> edge p b -> b <> d -> b ∉ l ++ [p] -> walk d ((l ++ [p]) ++ [b]).

Lemma walk_prefix d w : walk d w -> NoDup w /\ (forall x, x ∈ w -> x ∈ order /\ exists l, walk d (l ++ [x])).
Proof.
  induction 1 as [Hd|l p b Hw [IHn IHp] He Hb Hfresh].
  - split; [apply NoDup_singleton|]. intros x Hx. apply list_elem_of_singleton in Hx as ->. split; [apply entry_in|].
    exists []. by constructor.
  - split; [apply NoDup_app; split; [done|]; split; [set_solver|apply NoDup_singleton]|].
    intros x Hx. apply elem_of_app in Hx as [Hx|Hx]; [by apply IHp|]. apply list_elem_of_singleton in Hx as ->.
    split; [by destruct (edge_order _ _ He)|]. exists (l ++ [p]). by constructor.
Qed.

Lemma walk_avoid d w : walk d w -> forall b l, w = l ++ [b] -> avoid d (length l) b.
Proof.
  induction 1 as [Hd|l p b Hw IH He Hb Hfresh]; intros x l' E.
  - destruct l' as [|? [|]]; simplify_eq/=. by apply avoid_entry.
  - apply app_inj_tail in E as [<- <-]. rewrite length_app. simpl. rewrite Nat.add_comm.
    eapply avoid_any; [by apply (IH p l)|done..].
Qed.

Lemma avoid_bound d k b : avoid d k b -> avoid d (length order) b.
Proof.
  intros H. assert (exists l, walk d (l ++ [b])) as [l Hl].
  { induction H as [k Hd|k p b Hp [l Hl] He Hr Hb|k p b Hp [l Hl] He Hb]; [exists []; by constructor|..];
      (destruct (decide (b ∈ l ++ [p])) as [Hin|Hin]; [by apply (walk_prefix _ _ Hl)|exists (l ++ [p]); by constructor]). }
  eapply avoid_le; [by apply (walk_avoid _ _ Hl b l)|]. destruct (walk_prefix _ _ Hl) as [Hnd Hin].
  assert (length (l ++ [b]) <= length order) by (apply submseteq_length, NoDup_submseteq; [done|]; intros x Hx; by apply Hin).
  rewrite length_app in *. simpl in *. lia.
Qed.

(** *** Chains *)

Lemma anc_dom I b d : anc I b d -> is_Some (I !! b) /\ is_Some (I !! d).
Proof. induction 1 as [b Hb|b p d Hb _ _ [_ IH]]; [done|]. split; [by exists p|done]. Qed.

Lemma anc_rank I b d : tree I -> anc I b d -> rank b <= rank d /\ (b = d \/ rank b < rank d).
Proof.
  intros [_ HI]. induction 1 as [b Hb|b p d Hb Hne _ [IH1 IH2]]; [split; [lia|by left]|].
  destruct (HI b p Hb) as [_ Hlt]. specialize (Hlt Hne). split; [lia|right; lia].
Qed.

Lemma anc_trans I a b c : anc I a b -> anc I b c -> anc I a c.
Proof. induction 1 as [|a p b Ha Hne _ IH]; [done|]. intros H. eapply anc_step; [done..|auto]. Qed.

Lemma anc_antisym I a b : tree I -> anc I a b -> anc I b a -> a = b.
Proof. intros HI H1 H2. destruct (anc_rank _ _ _ HI H1) as [_ [|]], (anc_rank _ _ _ HI H2) as [? _]; [done|lia]. Qed.

Lemma tree_in I b : tree I -> is_Some (I !! b) -> b ∈ order.
Proof. intros [_ HI] [p Hp]. by apply (HI b p). Qed.

(** An ancestor other than the block itself is an ancestor of the parent. *)
Lemma anc_up I b p d : I !! b = Some p -> anc I b d -> b <> d -> anc I p d.
Proof. intros Hp H Hne. destruct H as [|b p' d Hp' _ H]; [done|]. by simplify_eq. Qed.

Lemma rank_max b : b ∈ order -> rank b <= rank entry.
Proof. intros Hb. pose proof rank_entry. destruct (rank_spec b Hb) as (_ & _ & ?). lia. Qed.

(** *** [intersect] finds the nearest common ancestor *)

Notation index := (postorder_index 0 order).

Lemma climb_spec I fuel f limit : tree I -> is_Some (I !! f) -> limit ∈ order -> length order - rank f <= fuel ->
  exists f', climb I index fuel f limit = Some f' /\ anc I f f' /\ rank limit <= rank f' /\
    forall d, anc I f d -> rank limit <= rank d -> anc I f' d.
Proof.
  intros HI. revert f. induction fuel as [|fuel IH]; intros f Hf Hlim Hfuel; pose proof (tree_in _ _ HI Hf) as Hin;
    destruct (rank_spec f Hin) as (Ef & _ & Hlt), (rank_spec limit Hlim) as (El & _ & _); [lia|].
  cbn [climb]. rewrite Ef, El. simpl. destruct (Nat.ltb_spec (rank f) (rank limit)) as [Hr|Hr].
  - pose proof (rank_max limit Hlim). assert (f <> entry) as Hne by (intros ->; lia).
    destruct Hf as [p Hp]. rewrite Hp. simpl. destruct (proj2 HI f p Hp) as [_ Hpar]. destruct (Hpar Hne) as [Hpr Hps].
    destruct (IH p Hps Hlim ltac:(lia)) as (f' & -> & Ha & Hle & Hall). exists f'. split; [done|].
    split; [by eapply anc_step|]. split; [done|]. intros d Hd Hdr. apply Hall; [|done].
    eapply anc_up; [done..|]. intros ->. lia.
  - exists f. split; [done|]. split; [by constructor|]. split; [lia|done].
Qed.

Lemma meet_spec I fuel rounds f1 f2 : tree I -> length order <= fuel -> is_Some (I !! f1) -> is_Some (I !! f2) ->
  length order - Nat.min (rank f1) (rank f2) <= rounds ->
  exists c, meet fuel I index rounds f1 f2 = Some c /\ anc I f1 c /\ anc I f2 c /\ forall d, anc I f1 d -> anc I f2 d -> anc I c d.
Proof.
  intros HI Hfuel. revert f1 f2. induction rounds as [|rounds IH]; intros f1 f2 H1 H2 Hr;
    pose proof (tree_in _ _ HI H1) as Hin1; pose proof (tree_in _ _ HI H2) as Hin2;
    destruct (rank_spec f1 Hin1) as (_ & _ & Hlt1); [lia|].
  cbn [meet]. case_bool_decide as E; [subst; exists f2; split; [done|]; split; [by constructor|split; [by constructor|done]]|].
  assert (rank f1 <> rank f2) as Hne by (intros Heq; apply E; by apply rank_inj).
  destruct (climb_spec I fuel f1 f2 HI H1 Hin2 ltac:(lia)) as (g1 & -> & Ha1 & Hl1 & Hall1). simpl.
  destruct (anc_dom _ _ _ Ha1) as [_ Hg1]. pose proof (tree_in _ _ HI Hg1) as Hing1.
  destruct (climb_spec I fuel f2 g1 HI H2 Hing1 ltac:(lia)) as (g2 & -> & Ha2 & Hl2 & Hall2). simpl.
  destruct (anc_dom _ _ _ Ha2) as [_ Hg2]. destruct (anc_rank _ _ _ HI Ha1) as [Hm1 _].
  destruct (IH g1 g2 Hg1 Hg2 ltac:(lia)) as (c & -> & Hc1 & Hc2 & Hall). exists c. split; [done|].
  split; [by eapply anc_trans|]. split; [by eapply anc_trans|]. intros d Hd1 Hd2.
  destruct (anc_rank _ _ _ HI Hd1) as [Hrd1 _], (anc_rank _ _ _ HI Hd2) as [Hrd2 _].
  assert (anc I g1 d) as Hgd by (apply Hall1; [done|lia]). apply Hall; [done|]. apply Hall2; [done|].
  by destruct (anc_rank _ _ _ HI Hgd).
Qed.

Lemma intersect_all_spec I fuel acc others : tree I -> length order <= fuel -> is_Some (I !! acc) ->
  Forall (fun o => is_Some (I !! o)) others ->
  exists c, intersect_all fuel I index acc others = Some c /\ Forall (fun o => anc I o c) (acc :: others) /\
    forall d, Forall (fun o => anc I o d) (acc :: others) -> anc I c d.
Proof.
  intros HI Hfuel Hacc Hos. revert acc Hacc. induction Hos as [|o others Ho _ IH]; intros acc Hacc; cbn [intersect_all].
  - exists acc. split; [done|]. split; [repeat constructor; done|]. intros d Hd. by inversion Hd.
  - unfold intersect. destruct (meet_spec I fuel fuel o acc HI Hfuel Ho Hacc ltac:(lia)) as (m & -> & Hm1 & Hm2 & Hmall). simpl.
    destruct (IH m (proj2 (anc_dom _ _ _ Hm1))) as (c & -> & Hc & Hall). exists c. split; [done|].
    apply Forall_cons in Hc as [Hmc Hc]. split.
    + constructor; [by eapply anc_trans|]. constructor; [by eapply anc_trans|done].
    + intros d Hd. apply Forall_cons in Hd as [Hd1 Hd]. apply Forall_cons in Hd as [Hd2 Hd]. apply Hall.
      constructor; [by apply Hmall|done].
Qed.

(** *** One update *)

Context (predecessors : gmap Z (list Z)).
Context (edge_spec : forall p b, p ∈ order -> b ∈ order -> p ∈ default [] (predecessors !! b) <-> edge p b).
Context (parent : forall b, b ∈ order -> b <> entry -> exists p, edge p b /\ rank b < rank p).

(** Every dominator of a block other than the block itself dominates its parent. *)
Definition parents_dominated (I : gmap Z Z) : Prop :=
  forall y a d, I !! y = Some a -> y <> entry -> dom d y -> d <> y -> dom d a.

Lemma dom_entry d : dom d entry -> d = entry.
Proof. intros H. destruct (decide (d = entry)); [done|]. exfalso. apply (H 0). by apply avoid_entry. Qed.

Lemma dom_edge d p b : edge p b -> dom d b -> d <> b -> dom d p.
Proof. intros He Hd Hne k Hk. apply (Hd (S k)). by eapply avoid_any. Qed.

Lemma dom_up I p c d : tree I -> parents_dominated I -> anc I p c -> rank c <= rank d -> dom d p -> dom d c.
Proof.
  intros HI HJ H Hr. induction H as [|b p c Hb Hne Hanc IH]; [done|]. intros Hd. apply IH; [done|].
  eapply HJ; [done..|]. intros ->. destruct (anc_rank _ _ _ HI Hanc) as [? _]. destruct (proj2 HI b p Hb) as [_ Hp].
  specialize (Hp Hne). lia.
Qed.

Lemma dom_anc I y d : tree I -> parents_dominated I -> is_Some (I !! y) -> dom d y -> anc I y d.
Proof.
  intros HI HJ. assert (forall n y, length order - rank y <= n -> is_Some (I !! y) -> dom d y -> anc I y d) as H; [|by eauto].
  clear y. induction n as [|n IH]; intros y Hn Hy Hd; pose proof (tree_in _ _ HI Hy) as Hin;
    destruct (rank_spec y Hin) as (_ & _ & ?); [lia|].
  destruct (decide (d = y)) as [->|Hne]; [by constructor|]. destruct Hy as [a Ha].
  destruct (decide (y = entry)) as [->|Hye]; [by apply dom_entry in Hd|].
  destruct (proj2 HI y a Ha) as [_ Hpar]. destruct (Hpar Hye). eapply anc_step; [done..|]. apply IH; [lia|done|].
  by eapply HJ.
Qed.

(** What the turn of [b] does: the new parent is the nearest common ancestor of
    the known predecessors. *)
Record turn (I : gmap Z Z) (b : Z) (I' : gmap Z Z) : Prop := {
  turn_parent : exists c, I' = <[b := c]> I /\ rank b < rank c /\ is_Some (I !! c) /\
    (forall p, edge p b -> is_Some (I !! p) -> anc I p c) /\
    (forall d, (forall p, edge p b -> is_Some (I !! p) -> anc I p d) -> anc I c d)
}.

(** All blocks above [b] are known. *)
Definition known_above (I : gmap Z Z) (m : nat) : Prop := forall x, x ∈ order -> m <= rank x -> is_Some (I !! x).

Lemma update_block_turn I b changed fuel : tree I -> length order <= fuel -> b ∈ order -> b <> entry ->
  known_above I (S (rank b)) ->
  exists I' changed', update_block fuel index predecessors entry (I, changed) b = Some (I', changed') /\ turn I b I' /\
    (changed' = false -> changed = false /\ I' = I).
Proof.
  intros HI Hfuel Hb Hne Hknown. unfold update_block. rewrite bool_decide_eq_false_2 by done.
  set (ps := List.filter (fun p => bool_decide (is_Some (I !! p))) (default [] (predecessors !! b))).
  assert (forall p, p ∈ ps <-> edge p b /\ is_Some (I !! p)) as Hps.
  { intros p. unfold ps. rewrite list_elem_of_In, filter_In, <- list_elem_of_In, bool_decide_eq_true. split.
    - intros [H1 H2]. split; [|done]. apply edge_spec; [by eapply tree_in|done..].
    - intros [H1 H2]. split; [|done]. apply edge_spec; [by eapply tree_in|done..]. }
  destruct (parent b Hb Hne) as (f & Hf & Hfr). assert (f ∈ ps) as Hfps.
  { apply Hps. split; [done|]. apply Hknown; [by destruct (edge_order _ _ Hf)|lia]. }
  destruct ps as [|first others] eqn:Eps; [by apply not_elem_of_nil in Hfps|].
  destruct (intersect_all_spec I fuel first others HI Hfuel) as (c & -> & Hc & Hall).
  { by apply (Hps first); left. }
  { apply Forall_forall. intros o Ho. apply (Hps o). by right. }
  simpl. rewrite Forall_forall in Hc. assert (anc I f c) as Hfc by by apply Hc.
  assert (turn I b (<[b := c]> I)) as Ht.
  { constructor. exists c. split; [done|]. destruct (anc_rank _ _ _ HI Hfc). split; [lia|].
    split; [by destruct (anc_dom _ _ _ Hfc)|]. split; [intros p Hp Hk; apply Hc, Hps; done|].
    intros d Hd. apply Hall, Forall_forall. intros p Hp. apply Hps in Hp as [??]. auto. }
  case_bool_decide as E.
  - exists I, changed. split; [done|]. rewrite insert_id in Ht by done. done.
  - by exists (<[b := c]> I), true.
Qed.

(** *** What a turn changes *)

Lemma turn_tree I b I' : tree I -> b ∈ order -> b <> entry -> turn I b I' -> tree I'.
Proof.
  intros [He HI] Hb Hne [(c & -> & Hr & Hc & _)]. split; [by rewrite lookup_insert_ne|].
  intros x p Hx. destruct (decide (x = b)) as [->|Hxb].
  - rewrite lookup_insert_eq in Hx. injection Hx as <-. split; [done|]. intros _. split; [done|].
    destruct (decide (b = c)) as [->|]; [lia|]. by rewrite lookup_insert_ne.
  - rewrite lookup_insert_ne in Hx by done. destruct (HI x p Hx) as [Hxo Hp]. split; [done|]. intros Hxe.
    destruct (Hp Hxe) as [? Hps]. split; [done|]. destruct (decide (b = p)) as [->|]; [by rewrite lookup_insert_eq|by rewrite lookup_insert_ne].
Qed.

Lemma anc_insert_above I b c x d : tree I -> rank b < rank x -> anc (<[b := c]> I) x d <-> anc I x d.
Proof.
  intros [_ HI] Hr. split; intros H.
  - revert Hr. induction H as [x Hx|x p d Hx Hne _ IH]; intros Hr; rewrite lookup_insert_ne in Hx by (intros ->; lia); [by constructor|].
    eapply anc_step; [done..|]. apply IH. destruct (HI x p Hx) as [_ Hp]. destruct (Hp Hne). lia.
  - revert Hr. induction H as [x Hx|x p d Hx Hne _ IH]; intros Hr; [constructor; by rewrite lookup_insert_ne by (intros ->; lia)|].
    eapply anc_step; [by rewrite lookup_insert_ne by (intros ->; lia)|done|]. apply IH.
    destruct (HI x p Hx) as [_ Hp]. destruct (Hp Hne). lia.
Qed.

Lemma anc_insert_below I b c x d : tree I -> is_Some (I !! x) -> anc (<[b := c]> I) x d ->
  anc I x d \/ (anc I x b /\ anc (<[b := c]> I) b d).
Proof.
  intros [_ HI] Hx H. induction H as [x _|x p d Hp Hne H IH]; [left; by constructor|].
  destruct (decide (x = b)) as [->|Hxb]; [right; split; [by constructor|by eapply anc_step]|].
  rewrite lookup_insert_ne in Hp by done. destruct (HI x p Hp) as [_ Hpar]. destruct (Hpar Hne) as [_ Hps].
  destruct (IH Hps) as [IHa|[IHa IHb]]; [left|right; split; [|done]]; by eapply anc_step.
Qed.

Lemma turn_parents I b I' : tree I -> parents_dominated I -> b ∈ order -> b <> entry ->
  known_above I (S (rank b)) -> turn I b I' -> parents_dominated I'.
Proof.
  intros HI HJ Hb Hne Hknown [(c & -> & Hr & Hc & Hpc & Hall)] y a d Hy Hye Hd Hdy.
  destruct (decide (y = b)) as [->|Hyb]; [|rewrite lookup_insert_ne in Hy by done; by eapply HJ].
  rewrite lookup_insert_eq in Hy. injection Hy as <-.
  destruct (parent b Hb Hne) as (f & Hf & Hfr).
  assert (is_Some (I !! f)) as Hfk by (apply Hknown; [by destruct (edge_order _ _ Hf)|lia]).
  assert (anc I c d) as Hcd.
  { apply Hall. intros p Hp Hk. apply dom_anc; [done..|]. by eapply dom_edge. }
  eapply dom_up; [done|done|by apply (Hpc f)|by destruct (anc_rank _ _ _ HI Hcd)|by eapply dom_edge].
Qed.

(** *** The invariant of a pass

    In pass [k], with the blocks of rank at least [m] done: the chain of a done
    block holds no [d] that some path with [k] edges against the order avoids,
    and the chain of another block none that a path with fewer such edges avoids. *)

Record pass_state (I : gmap Z Z) (m k : nat) : Prop := {
  st_tree : tree I;
  st_parents : parents_dominated I;
  st_known : known_above I m;
  st_done x d : x ∈ order -> m <= rank x -> avoid d k x -> ~ anc I x d;
  st_todo : match k with
    | O => forall x, is_Some (I !! x) -> m <= rank x
    | S j => (forall x, x ∈ order -> is_Some (I !! x)) /\
        forall x d, x ∈ order -> rank x < m -> avoid d j x -> ~ anc I x d
    end
}.

Lemma turn_done I b I' k : pass_state I (S (rank b)) k -> b ∈ order -> b <> entry -> turn I b I' ->
  forall d, avoid d k b -> ~ anc I' b d.
Proof.
  intros [HI HJ Hk Hdone Htodo] Hb Hne [(c & -> & Hr & Hc & Hpc & Hall)] d Hd Hanc.
  pose proof (avoid_ne _ _ _ Hd) as Hbd.
  assert (anc I c d) as Hcd.
  { apply (anc_insert_above I b c c d HI Hr). eapply anc_up; [apply lookup_insert_eq|exact Hanc|done]. }
  assert (forall p, edge p b -> is_Some (I !! p) -> ~ anc I p d -> False) as Habs.
  { intros p Hp Hpk Hn. apply Hn. eapply anc_trans; [by apply Hpc|done]. }
  inversion Hd as [|k' p b' Hav He Hrk _|j p b' Hav He _]; subst.
  - done.
  - destruct (edge_order _ _ He) as [Hp _]. apply (Habs p He); [by apply Hk|]. by apply (Hdone p d Hp).
  - destruct (edge_order _ _ He) as [Hp _]. destruct Htodo as [Hall' Htodo]. apply (Habs p He); [by apply Hall'|].
    destruct (decide (rank p < S (rank b))) as [Hlt|Hge]; [by apply (Htodo p d Hp)|]. apply (Hdone p d Hp); [lia|].
    eapply avoid_le; [done|lia].
Qed.

Lemma turn_state I b I' k : pass_state I (S (rank b)) k -> b ∈ order -> b <> entry -> turn I b I' ->
  pass_state I' (rank b) k.
Proof.
  intros Hst Hb Hne Ht. pose proof (turn_done I b I' k Hst Hb Hne Ht) as Hbdone.
  destruct Hst as [HI HJ Hk Hdone Htodo]. pose proof (turn_tree I b I' HI Hb Hne Ht) as HI'.
  pose proof (turn_parents I b I' HI HJ Hb Hne Hk Ht) as HJ'. destruct Ht as [(c & -> & Hr & Hc & Hpc & Hall)].
  assert (forall x, is_Some (I !! x) -> is_Some (<[b := c]> I !! x)) as Hmono.
  { intros x Hx. destruct (decide (b = x)) as [->|]; [by rewrite lookup_insert_eq|by rewrite lookup_insert_ne]. }
  assert (forall x, x ∈ order -> x <> b -> rank b <= rank x -> S (rank b) <= rank x) as Habove.
  { intros x Hx Hxb Hle. assert (rank x <> rank b); [|lia]. intros E. by apply Hxb, rank_inj. }
  split; [done|done|..].
  - intros x Hx Hle. destruct (decide (x = b)) as [->|Hxb]; [by rewrite lookup_insert_eq|]. apply Hmono, Hk; auto.
  - intros x d Hx Hle Hav. destruct (decide (x = b)) as [->|Hxb]; [by apply Hbdone|].
    rewrite anc_insert_above by (done || apply Habove; done). apply Hdone; auto.
  - destruct k as [|j].
    + intros x Hx. destruct (decide (x = b)) as [->|Hxb]; [done|]. rewrite lookup_insert_ne in Hx by done.
      specialize (Htodo x Hx). lia.
    + destruct Htodo as [Hall' Htodo]. split; [auto|]. intros x d Hx Hlt Hav Hanc.
      destruct (anc_insert_below I b c x d HI (Hall' x Hx) Hanc) as [Ha|[Hab Hbd]]; [by apply (Htodo x d Hx ltac:(lia) Hav)|].
      destruct (avoid_through d j b x Hav) as [Hav'|Hav']; [by apply (Htodo x b Hx ltac:(lia) Hav')|].
      apply (Hbdone d); [|done]. eapply avoid_le; [done|lia].
Qed.

(** *** Passes *)

Context (fuel : nat) (fuel_enough : length order <= fuel).

Notation update := (update_blocks fuel index predecessors entry).

Lemma pass_blocks n I changed k : pass_state I n k -> n <= rank entry ->
  exists I' changed', update (rev (take n order)) (I, changed) = Some (I', changed') /\ pass_state I' 0 k /\
    (changed' = false -> changed = false /\ I' = I).
Proof.
  revert I changed. induction n as [|n IH]; intros I changed Hst Hn; [by exists I, changed|].
  pose proof rank_entry as Hre. destruct (lookup_lt_is_Some_2 order n ltac:(lia)) as [b Hb].
  assert (b ∈ order) as Hbo by by eapply list_elem_of_lookup_2.
  assert (rank b = n) as Hrb by (destruct (rank_spec b Hbo) as (_ & H & _); eapply NoDup_lookup; eauto).
  assert (b <> entry) as Hne by (intros ->; lia).
  rewrite (take_S_r _ _ b Hb), rev_app_distr. cbn [rev app update_blocks]. rewrite <- Hrb in Hst.
  destruct (update_block_turn I b changed fuel (st_tree _ _ _ Hst) fuel_enough Hbo Hne (st_known _ _ _ Hst))
    as (I1 & ch1 & -> & Ht & Hch1). simpl.
  pose proof (turn_state I b I1 k Hst Hbo Hne Ht) as Hst1. rewrite Hrb in Hst1.
  destruct (IH I1 ch1 Hst1 ltac:(lia)) as (I2 & ch2 & -> & Hst2 & Hch2). exists I2, ch2. split; [done|]. split; [done|].
  intros E. destruct (Hch2 E) as [-> ->]. by apply Hch1.
Qed.

Lemma rev_order : rev order = entry :: rev (take (rank entry) order).
Proof.
  pose proof rank_entry as Hre. destruct (rank_spec entry entry_in) as (_ & H & _).
  rewrite <- (take_ge order (S (rank entry))) at 1 by lia. by rewrite (take_S_r _ _ _ H), rev_app_distr.
Qed.

Lemma pass_spec I k : pass_state I (rank entry) k ->
  exists I' changed, update (rev order) (I, false) = Some (I', changed) /\ pass_state I' 0 k /\ (changed = false -> I' = I).
Proof.
  intros Hst. rewrite rev_order. cbn [update_blocks]. unfold update_block at 1. rewrite bool_decide_eq_true_2 by done. simpl.
  destruct (pass_blocks (rank entry) I false k Hst ltac:(lia)) as (I' & ch & -> & Hst' & Hch). exists I', ch.
  split; [done|]. split; [done|]. intros E. by apply Hch.
Qed.

Lemma next_pass I k : pass_state I 0 k -> pass_state I (rank entry) (S k).
Proof.
  intros [HI HJ Hk Hdone Htodo]. assert (forall x, x ∈ order -> is_Some (I !! x)) as Hall by (intros x Hx; apply Hk; [done|lia]).
  split; [done|done|..].
  - intros x Hx _. auto.
  - intros x d Hx Hle Hav Hanc. assert (x = entry) as ->.
    { apply rank_inj; [done|apply entry_in|]. pose proof (rank_max x Hx). lia. }
    inversion Hanc; subst; [|done]. by apply avoid_ne in Hav.
  - split; [done|]. intros x d Hx _ Hav. apply Hdone; [done|lia|done].
Qed.

Definition exact (I : gmap Z Z) : Prop := tree I /\ parents_dominated I /\ (forall x, x ∈ order -> is_Some (I !! x)) /\
  forall b d, b ∈ order -> anc I b d -> dom d b.

Lemma late_exact I k : pass_state I 0 k -> length order <= k -> exact I.
Proof.
  intros [HI HJ Hk Hdone _] Hle. split; [done|]. split; [done|]. split; [intros x Hx; apply Hk; [done|lia]|].
  intros b d Hb Hanc k' Hav. apply avoid_bound in Hav. apply (Hdone b d Hb ltac:(lia)); [by eapply avoid_le|done].
Qed.

(** Once the chains are exact a pass changes nothing. *)
Lemma exact_pass I : exact I -> update (rev order) (I, false) = Some (I, false).
Proof.
  intros (HI & HJ & Hall & Hex).
  assert (forall l, (forall b, b ∈ l -> b ∈ order) -> update l (I, false) = Some (I, false)) as Hl;
    [|apply Hl; intros b Hb; by apply list_elem_of_In, in_rev, list_elem_of_In in Hb].
  induction l as [|b l IH]; intros Hl; [done|]. cbn [update_blocks].
  assert (update_block fuel index predecessors entry (I, false) b = Some (I, false)) as ->; [|simpl; apply IH; set_solver].
  destruct (decide (b = entry)) as [->|Hne]; [unfold update_block; by rewrite bool_decide_eq_true_2|].
  assert (b ∈ order) as Hb by (apply Hl; by left).
  destruct (update_block_turn I b false fuel HI fuel_enough Hb Hne ltac:(intros x Hx _; auto)) as (I' & ch & E & Ht & _).
  assert (I' = I) as ->.
  { destruct Ht as [(c & -> & Hr & Hc & Hpc & Hcall)]. destruct (Hall b Hb) as [a Ha]. apply insert_id. rewrite Ha. f_equal.
    destruct (proj2 HI b a Ha) as [_ Hpar]. destruct (Hpar Hne) as [Hra Has].
    apply (anc_antisym I); [done|..].
    - apply (anc_up I b a c Ha); [|intros ->; lia]. apply dom_anc; [done..|]. intros k Hav.
      inversion Hav as [|k' p b' Hp He _ _|j p b' Hp He _]; subst; [done|..];
        (destruct (edge_order _ _ He) as [Hpo _]; eapply (Hex p c Hpo); [by apply Hpc; auto|done]).
    - apply Hcall. intros p Hp Hpk. apply dom_anc; [done..|]. eapply dom_edge; [done| |intros ->; lia].
      apply Hex; [done|]. eapply anc_step; [done..|by constructor]. }
  rewrite E. f_equal. f_equal. destruct ch; [|done]. exfalso.
  unfold update_block in E. rewrite bool_decide_eq_false_2 in E by done.
  destruct (List.filter _ _); [done|]. destruct (intersect_all _ _ _ _ _) as [new|]; [|done]. simpl in E.
  case_bool_decide as En; [done|]. injection E as E. apply En. by rewrite <- E at 1; rewrite lookup_insert_eq.
Qed.

Lemma iterate_exact passes I k : pass_state I (rank entry) k -> (length order < k -> exact I) ->
  k <= S (length order) -> length order + 2 <= passes + k ->
  exists I', iterate fuel index predecessors entry passes (rev order) I = Some I' /\ exact I'.
Proof.
  revert I k. induction passes as [|passes IH]; intros I k Hst Hex Hk Hp; [lia|]. cbn [iterate].
  destruct (pass_spec I k Hst) as (I' & ch & E & Hst' & Hch). rewrite E. simpl. destruct ch.
  - destruct (decide (length order < k)) as [Hlt|Hge]; [specialize (Hex Hlt); rewrite exact_pass in E; [done|done]|].
    apply (IH I' (S k)); [by apply next_pass|intros ?; eapply late_exact; [done|lia]|lia|lia].
  - exists I'. split; [done|]. rewrite (Hch eq_refl) in *.
    assert (forall n, pass_state I 0 (k + n)) as Hforever.
    { induction n as [|n IHn]; [by rewrite Nat.add_0_r|]. rewrite Nat.add_succ_r.
      destruct (pass_spec I (S (k + n)) (next_pass _ _ IHn)) as (I2 & ch2 & E2 & Hst2 & _). rewrite E in E2. by simplify_eq. }
    eapply late_exact; [apply (Hforever (length order))|lia].
Qed.

Lemma first_pass : pass_state {[entry := entry]} (rank entry) 0.
Proof.
  assert (forall x p, ({[entry := entry]} : gmap Z Z) !! x = Some p -> x = entry /\ p = entry) as Hl
    by (intros x p Hx; by apply lookup_singleton_Some in Hx as [-> ->]).
  split.
  - split; [apply lookup_singleton_eq|]. intros b p Hb. apply Hl in Hb as [-> ->]. by split; [apply entry_in|].
  - intros y a d Hy Hne. by apply Hl in Hy as [-> _].
  - intros x Hx Hle. assert (x = entry) as ->; [|by rewrite lookup_singleton_eq].
    apply rank_inj; [done|apply entry_in|]. pose proof (rank_max x Hx). lia.
  - intros x d Hx Hle Hav Hanc. assert (x = entry) as ->.
    { apply rank_inj; [done|apply entry_in|]. pose proof (rank_max x Hx). lia. }
    inversion Hanc; subst; [|done]. by apply avoid_ne in Hav.
  - intros x [p Hp]. by apply Hl in Hp as [-> _].
Qed.
End Dominance.

(** ** The depth-first postorder *)

Definition before (x y : Z) (l : list Z) : Prop := exists l1 l2 l3, l = l1 ++ x :: l2 ++ y :: l3.

Lemma before_app x y l l0 l4 : before x y l -> before x y (l0 ++ l ++ l4).
Proof. intros (l1 & l2 & l3 & ->). exists (l0 ++ l1), l2, (l3 ++ l4). by rewrite <- !app_assoc; simpl; rewrite <- !app_assoc. Qed.

Section Postorder.
Context (B : gmap Z IRBasicBlock).

Definition leads (p b : Z) : Prop := exists block, B !! p = Some block /\ b ∈ successors block.

(** The postorder grows by [new]: the known blocks newly visited, each once, each
    before a block that leads to it or one of the [roots]. *)
Record visited_from (V : gset Z) (roots : list Z) (V' : gset Z) (new : list Z) : Prop := {
  vf_grows : V ⊆ V';
  vf_roots x : x ∈ roots -> x ∈ V';
  vf_nodup : NoDup new;
  vf_new x : x ∈ new <-> x ∈ V' /\ x ∉ V /\ is_Some (B !! x);
  vf_closed x y : x ∈ new -> leads x y -> y ∈ V';
  vf_parent x : x ∈ new -> x ∈ roots \/ exists p, leads p x /\ before x p new;
  vf_reach x : x ∈ new -> exists r, r ∈ roots /\ rtc leads r x
}.

Lemma visited_none V roots : (forall x, x ∈ roots -> x ∈ V) -> visited_from V roots V [].
Proof.
  intros H. split; [done|done|constructor|set_solver|..]; intros x; intros; by match goal with Hx : _ ∈ [] |- _ => apply not_elem_of_nil in Hx end.
Qed.

Lemma visited_unknown V id : B !! id = None -> visited_from V [id] ({[id]} ∪ V) [].
Proof.
  intros Eb. split; [set_solver|set_solver|constructor|..]; [|intros x; intros; by match goal with Hx : _ ∈ [] |- _ => apply not_elem_of_nil in Hx end..].
  intros x. split; [intros Hx; by apply not_elem_of_nil in Hx|].
  intros (H1 & H2 & [blk H3]). assert (x = id) as -> by set_solver. congruence.
Qed.

Lemma visited_app V r V1 n1 rs V2 n2 : visited_from V [r] V1 n1 -> visited_from V1 rs V2 n2 ->
  visited_from V (r :: rs) V2 (n1 ++ n2).
Proof.
  intros [G1 R1 N1 A1 C1 P1 T1] [G2 R2 N2 A2 C2 P2 T2]. split.
  - set_solver.
  - intros x Hx. apply elem_of_cons in Hx as [->|Hx]; [apply G2, R1; by left|auto].
  - apply NoDup_app. split; [done|]. split; [|done]. intros x Hx1 Hx2. apply A1 in Hx1. apply A2 in Hx2. naive_solver.
  - intros x. rewrite elem_of_app, A1, A2. split; [set_solver|]. intros (H1 & H2 & H3).
    destruct (decide (x ∈ V1)); [left|right]; done.
  - intros x y Hx Hl. apply elem_of_app in Hx as [Hx|Hx]; [by eapply G2, C1|by eapply C2].
  - intros x Hx. apply elem_of_app in Hx as [Hx|Hx].
    + destruct (P1 x Hx) as [Hr|(p & Hp & Hb)]; [left; set_solver|right]. exists p. split; [done|]. by apply (before_app _ _ _ []).
    + destruct (P2 x Hx) as [Hr|(p & Hp & Hb)]; [left; by right|right]. exists p. split; [done|].
      rewrite <- (app_nil_r n2). by apply before_app.
  - intros x Hx. apply elem_of_app in Hx as [Hx|Hx]; [destruct (T1 x Hx) as (r' & Hr & ?)|destruct (T2 x Hx) as (r' & Hr & ?)];
      exists r'; (split; [set_solver|done]).
Qed.

Lemma visit_all_spec f (fits : gset Z -> Prop) ts :
  (forall t V O, t ∈ ts -> fits V -> exists V' new, f t (V, O) = Some (V', O ++ new) /\ visited_from V [t] V' new) ->
  (forall V V', V ⊆ V' -> fits V -> fits V') ->
  forall V O, fits V -> exists V' new, visit_all f ts (V, O) = Some (V', O ++ new) /\ visited_from V ts V' new.
Proof.
  intros Hf Hmono. induction ts as [|t ts IH]; intros V O HV.
  - exists V, []. rewrite app_nil_r. split; [done|]. apply visited_none. set_solver.
  - cbn [visit_all]. destruct (Hf t V O ltac:(by left) HV) as (V1 & n1 & -> & H1). simpl.
    destruct (IH ltac:(intros; apply Hf; [by right|done]) V1 (O ++ n1) ltac:(eapply Hmono; [apply H1|done])) as (V2 & n2 & -> & H2).
    exists V2, (n1 ++ n2). rewrite app_assoc. split; [done|]. by eapply visited_app.
Qed.

Lemma visit_spec fuel id V O : size (base.dom B ∖ V) <= fuel ->
  exists V' new, visit fuel B id (V, O) = Some (V', O ++ new) /\ visited_from V [id] V' new /\
    (id ∉ V -> is_Some (B !! id) -> exists new', new = new' ++ [id]).
Proof.
  revert id V O. induction fuel as [|fuel IH]; intros id V O Hsize.
  - cbn [visit]. case_bool_decide as Hv; [exists V, []; rewrite app_nil_r; split; [done|]; split; [apply visited_none; set_solver|done]|].
    destruct (B !! id) as [block|] eqn:Eb.
    + exfalso. assert (id ∈ base.dom B ∖ V) as Hin by (apply elem_of_difference; split; [by apply elem_of_dom_2 in Eb|done]).
      apply Nat.le_0_r, size_empty_inv in Hsize. set_solver.
    + exists ({[id]} ∪ V), []. rewrite app_nil_r. split; [done|]. split; [by apply visited_unknown|by intros _ [? ?]].
  - cbn [visit]. case_bool_decide as Hv; [exists V, []; rewrite app_nil_r; split; [done|]; split; [apply visited_none; set_solver|done]|].
    destruct (B !! id) as [block|] eqn:Eb.
    + assert (size (base.dom B ∖ ({[id]} ∪ V)) <= fuel) as Hs.
      { assert (size (base.dom B ∖ ({[id]} ∪ V)) < size (base.dom B ∖ V)); [|lia]. apply subset_size.
        assert (id ∈ base.dom B) by (by apply elem_of_dom_2 in Eb). set_solver. }
      destruct (visit_all_spec (visit fuel B) (fun V => size (base.dom B ∖ V) <= fuel) (successors block)) with
        (V := {[id]} ∪ V) (O := O) as (V' & new & -> & H).
      { intros t W O' _ HW. destruct (IH t W O' HW) as (V' & new & E & Hvf & _). eauto. }
      { intros W W' HW Hle. etransitivity; [apply subseteq_size|exact Hle]. set_solver. }
      { done. }
      simpl. exists V', (new ++ [id]). rewrite app_assoc. split; [done|]. split; [|intros _ _; by exists new].
      destruct H as [G R N A C P T]. assert (id ∉ new) as Hid by (rewrite A; set_solver). split.
      * set_solver.
      * set_solver.
      * apply NoDup_app. split; [done|]. split; [set_solver|apply NoDup_singleton].
      * intros x. rewrite elem_of_app, list_elem_of_singleton, A. split.
        -- intros [H| ->]; [set_solver|]. split; [set_solver|]. split; [done|by eexists].
        -- intros (H1 & H2 & H3). destruct (decide (x = id)); [by right|left]. set_solver.
      * intros x y Hx Hl. apply elem_of_app in Hx as [Hx|Hx]; [by eapply C|]. apply list_elem_of_singleton in Hx as ->.
        destruct Hl as (blk & Hblk & Hy). simplify_eq. by apply R.
      * intros x Hx. apply elem_of_app in Hx as [Hx|Hx]; [|left; done]. right. destruct (P x Hx) as [Hr|(p & Hp & Hb)].
        -- exists id. split; [by exists block|]. apply list_elem_of_split in Hx as (l1 & l2 & ->). exists l1, l2, [].
           by rewrite <- app_assoc.
        -- exists p. split; [done|]. by apply (before_app _ _ _ []).
      * intros x Hx. exists id. split; [by left|]. apply elem_of_app in Hx as [Hx|Hx]; [|by apply list_elem_of_singleton in Hx as ->].
        destruct (T x Hx) as (r & Hr & Hrx). eapply rtc_l; [by exists block|done].
    + exists ({[id]} ∪ V), []. rewrite app_nil_r. split; [done|]. split; [by apply visited_unknown|by intros _ [? ?]].
Qed.
End Postorder.

(** ** The blocks of a function *)

Section Blocks.
Context (blocks : list IRBasicBlock) (entry : Z).

(** A control-flow edge between two blocks of the function. *)
Definition step (p b : Z) : Prop :=
  exists block, block ∈ blocks /\ block_id block = p /\ b ∈ successors block /\ b ∈ map block_id blocks.

(** [l] lists the blocks of a path from the entry to [b]. *)
Inductive cfg_path : list Z -> Z -> Prop :=
  | path_entry : cfg_path [entry] entry
  | path_step l p b : cfg_path l p -> step p b -> cfg_path (l ++ [b]) b.

Context (ids_unique : NoDup (map block_id blocks)) (entry_known : entry ∈ map block_id blocks).

Lemma by_id_lookup id block : by_id blocks !! id = Some block <-> block ∈ blocks /\ block_id block = id.
Proof.
  unfold by_id. clear entry_known.
  assert (forall m : gmap Z IRBasicBlock, NoDup (map block_id blocks) -> (forall b, b ∈ blocks -> m !! block_id b = None) ->
    fold_left (fun m b => <[block_id b := b]> m) blocks m !! id = Some block <->
    m !! id = Some block \/ (block ∈ blocks /\ block_id block = id)) as H.
  { clear ids_unique. induction blocks as [|b bs IH]; intros m Hnd Hm; simpl; [set_solver|].
    apply NoDup_cons in Hnd as [Hb Hnd]. rewrite IH; [|done|].
    - destruct (decide (block_id b = id)) as [<-|Hne].
      + rewrite lookup_insert_eq. split; [|].
        * intros [[= <-]|[H1 H2]]; [right; split; [by left|done]|]. right. split; [by right|done].
        * intros [H|[H1 H2]]; [by rewrite (Hm b ltac:(by left)) in H|]. apply elem_of_cons in H1 as [->|H1]; [by left|by right].
      + rewrite lookup_insert_ne by done. split; [intros [?|[? ?]]; [by left|right; split; [by right|done]]|].
        intros [?|[H1 H2]]; [by left|]. apply elem_of_cons in H1 as [->|H1]; [done|by right].
    - intros b' Hb'. rewrite lookup_insert_ne; [apply Hm; by right|]. intros E. apply Hb. rewrite E. by apply list_elem_of_fmap_2. }
  rewrite H; [|done|by intros; apply lookup_empty]. rewrite lookup_empty. naive_solver.
Qed.

Lemma by_id_known id : is_Some (by_id blocks !! id) <-> id ∈ map block_id blocks.
Proof.
  split.
  - intros [b Hb]. apply by_id_lookup in Hb as [Hb <-]. by apply list_elem_of_fmap_2.
  - intros Hid. apply list_elem_of_fmap in Hid as (b & -> & Hb). exists b. by apply by_id_lookup.
Qed.

Lemma leads_step p b : is_Some (by_id blocks !! b) -> leads (by_id blocks) p b <-> step p b.
Proof.
  intros Hb. unfold leads, step. split.
  - intros (block & Hp & Hs). apply by_id_lookup in Hp as [Hp <-]. exists block. by rewrite <- by_id_known.
  - intros (block & Hp & <- & Hs & _). exists block. split; [by apply by_id_lookup|done].
Qed.

Lemma predecessor_lookup b p : p ∈ default [] (predecessor_map blocks !! b) <->
  exists block, block ∈ blocks /\ block_id block = p /\ b ∈ successors block.
Proof.
  unfold predecessor_map. clear ids_unique entry_known.
  assert (forall id succs (m : gmap Z (list Z)), p ∈ default [] (fold_left (add_predecessor id) succs m !! b) <->
    p ∈ default [] (m !! b) \/ (p = id /\ b ∈ succs)) as Hin.
  { intros id. induction succs as [|s succs IH]; intros m; simpl; [set_solver|]. rewrite IH. unfold add_predecessor.
    destruct (decide (s = b)) as [->|Hne]; [rewrite lookup_insert_eq|rewrite lookup_insert_ne by done]; simpl; set_solver. }
  assert (forall (m : gmap Z (list Z)), p ∈ default [] (fold_left (fun m b => fold_left (add_predecessor (block_id b)) (successors b) m) blocks m !! b) <->
    p ∈ default [] (m !! b) \/ exists block, block ∈ blocks /\ block_id block = p /\ b ∈ successors block) as H.
  { induction blocks as [|x xs IH]; intros m; simpl; [set_solver|]. rewrite IH, Hin. set_solver. }
  rewrite H, lookup_empty. set_solver.
Qed.

(** The postorder is what the analysis above asks for. *)
Lemma postorder_ok fuel : length blocks <= fuel -> exists order, postorder_traversal fuel blocks entry = Some order /\
  NoDup order /\ last order = Some entry /\ (forall b, b ∈ order <-> rtc step entry b) /\
  (forall b, b ∈ order -> b <> entry -> exists p, step p b /\ p ∈ order /\ before b p order).
Proof.
  intros Hfuel. unfold postorder_traversal.
  destruct (visit_spec (by_id blocks) fuel entry ∅ []) as (V & order & -> & [G R N A C P T] & Hlast).
  { transitivity (length (map block_id blocks)); [|by rewrite length_map].
    rewrite <- (size_list_to_set (C := gset Z)) by done. apply subseteq_size. intros x Hx.
    apply elem_of_difference in Hx as [Hx _]. apply elem_of_dom, by_id_known in Hx. by apply elem_of_list_to_set. }
  simpl. exists order. split; [done|]. split; [done|].
  destruct Hlast as [new Hnew]; [set_solver|by apply by_id_known|].
  assert (forall b, rtc step entry b -> b ∈ order) as Hreach.
  { intros b Hb. revert b Hb. apply (rtc_ind_r (fun b => b ∈ order) entry).
    - rewrite Hnew. set_solver.
    - intros y z _ Hyz Hy. assert (is_Some (by_id blocks !! z)) as Hz by (destruct Hyz as (? & _ & _ & _ & ?); by apply by_id_known).
      apply A. split; [|split; [set_solver|done]]. eapply C; [done|]. by apply leads_step. }
  split; [rewrite Hnew; apply last_snoc|]. split.
  - intros b. split; [|apply Hreach]. intros Hb. destruct (T b Hb) as (r & Hr & Hrb). apply list_elem_of_singleton in Hr as ->.
    apply A in Hb as (_ & _ & Hb). clear -Hrb Hb ids_unique.
    induction Hrb as [|x y z Hxy Hyz IH]; [done|]. eapply rtc_l; [|by apply IH]. apply leads_step; [|done].
    destruct Hyz as [|y y' z (blk & Hblk & _) _]; [done|by exists blk].
  - intros b Hb Hne. destruct (P b Hb) as [Hr|(p & Hp & Hbp)]; [by apply list_elem_of_singleton in Hr|].
    exists p. split; [apply leads_step; [by apply A in Hb as (_ & _ & ?)|done]|]. split; [|done].
    destruct Hbp as (l1 & l2 & l3 & ->). set_solver.
Qed.

(** *** The computed tree *)

Definition reached_edge (order : list Z) (p b : Z) : Prop := step p b /\ p ∈ order.

Lemma before_rank order x y : NoDup order -> before x y order -> rank order x < rank order y.
Proof.
  intros Hnd (l1 & l2 & l3 & ->).
  assert (forall i z, (l1 ++ x :: l2 ++ y :: l3) !! i = Some z -> rank (l1 ++ x :: l2 ++ y :: l3) z = i) as Hr.
  { intros i z Hi. destruct (rank_spec _ Hnd z) as (_ & H & _); [by eapply list_elem_of_lookup_2|]. eapply NoDup_lookup; eauto. }
  rewrite (Hr (length l1) x), (Hr (length l1 + S (length l2)) y); [lia|..].
  - rewrite lookup_app_r by lia. replace (length l1 + S (length l2) - length l1) with (S (length l2)) by lia. simpl.
    by rewrite lookup_app_r, Nat.sub_diag.
  - by rewrite lookup_app_r, Nat.sub_diag.
Qed.

Lemma compute_exact fuel : length blocks + 2 <= fuel ->
  exists order I, compute_with fuel blocks entry = Some (delete entry I) /\ NoDup order /\ last order = Some entry /\
    length order <= length blocks /\ (forall b, b ∈ order <-> rtc step entry b) /\
    exact order entry (reached_edge order) I.
Proof.
  intros Hfuel. destruct (postorder_ok fuel ltac:(lia)) as (order & Ep & Hnd & Hlast & Hreach & Hpar).
  assert (forall b, b ∈ order -> b ∈ map block_id blocks) as Hids.
  { intros b Hb. apply Hreach in Hb. apply rtc_inv_r in Hb as [<-|(y & _ & (? & _ & _ & _ & ?))]; done. }
  assert (length order <= length blocks) as Hlen.
  { rewrite <- (length_map block_id blocks). apply submseteq_length, NoDup_submseteq; [done|auto]. }
  assert (forall p b, reached_edge order p b -> p ∈ order /\ b ∈ order) as Hedge.
  { intros p b [Hs Hp]. split; [done|]. apply Hreach. eapply rtc_r; [by apply Hreach|done]. }
  assert (forall p b, p ∈ order -> b ∈ order -> p ∈ default [] (predecessor_map blocks !! b) <-> reached_edge order p b) as Hpreds.
  { intros p b Hp Hb. rewrite predecessor_lookup. unfold reached_edge, step. specialize (Hids b Hb). naive_solver. }
  assert (forall b, b ∈ order -> b <> entry -> exists p, reached_edge order p b /\ rank order b < rank order p) as Hparent.
  { intros b Hb Hne. destruct (Hpar b Hb Hne) as (p & Hs & Hp & Hbp). exists p. split; [done|]. by apply before_rank. }
  destruct (iterate_exact order entry (reached_edge order) Hnd Hlast Hedge _ Hpreds Hparent fuel ltac:(lia) fuel {[entry := entry]} 0)
    as (I & EI & Hex); [by eapply first_pass with (fuel := fuel); [..|lia]|lia|lia|lia|].
  exists order, I. unfold compute_with. rewrite Ep. simpl. rewrite EI. done.
Qed.

(** *** Chains and paths *)

Lemma dom_paths order d b : (forall b, b ∈ order <-> rtc step entry b) ->
  dom order entry (reached_edge order) d b <-> forall l, cfg_path l b -> d ∈ l.
Proof.
  intros Hreach. split.
  - intros Hd l Hl. destruct (decide (d ∈ l)) as [|Hn]; [done|]. exfalso. apply (Hd (length l)). clear Hd.
    assert (rtc step entry b /\ avoid order entry (reached_edge order) d (length l) b) as [_ H]; [|done].
    induction Hl as [|l p b Hl IH Hs]; [split; [done|apply avoid_entry; set_solver]|].
    destruct IH as [IHr IH]; [set_solver|]. split; [by eapply rtc_r|]. rewrite length_app, Nat.add_comm.
    eapply avoid_any; [done| |set_solver]. split; [done|]. by apply Hreach.
  - intros H k Hav. assert (exists l, cfg_path l b /\ d ∉ l) as (l & Hl & Hn); [|by apply Hn, H].
    clear H. induction Hav as [k Hd|k p b _ (l & Hl & Hn) [Hs _] _ Hb|k p b _ (l & Hl & Hn) [Hs _] Hb].
    + exists [entry]. split; [constructor|set_solver].
    + exists (l ++ [b]). split; [by econstructor|set_solver].
    + exists (l ++ [b]). split; [by econstructor|set_solver].
Qed.

Lemma chain_has_spec order I fuel d b : NoDup order -> last order = Some entry -> tree order entry I -> d <> entry ->
  is_Some (I !! b) -> length order - rank order b <= fuel ->
  exists r, chain_has fuel (delete entry I) d b = Some r /\ (r = true <-> anc entry I b d).
Proof.
  intros Hnd Hlast HI Hd. revert b. induction fuel as [|fuel IH]; intros b Hb Hfuel;
    pose proof (tree_in _ _ _ _ HI Hb) as Hin; destruct (rank_spec order Hnd b Hin) as (_ & _ & Hlt); [lia|]. cbn [chain_has].
  case_bool_decide as E; [subst; exists true; split; [done|]; split; [intros _; by constructor|done]|].
  destruct (decide (b = entry)) as [->|Hbe].
  - rewrite lookup_delete_eq. exists false. split; [done|]. split; [done|]. intros H. inversion H; subst; done.
  - rewrite lookup_delete_ne by done. destruct Hb as [p Hp]. rewrite Hp. destruct (proj2 HI b p Hp) as [_ Hpar].
    destruct (Hpar Hbe) as [Hr Hps]. destruct (IH p Hps ltac:(lia)) as (r & -> & Hiff). exists r. split; [done|]. rewrite Hiff.
    split; [by apply anc_step|]. intros H. by eapply anc_up.
Qed.

Lemma children_lookup idoms p : default [] (dominator_tree_children idoms blocks !! p) =
  List.filter (fun b => bool_decide (idoms !! b = Some p)) (map block_id blocks).
Proof.
  unfold dominator_tree_children. clear ids_unique entry_known.
  assert (forall m : gmap Z (list Z), default [] (fold_left (fun children b => match idoms !! block_id b with
      | Some parent => <[parent := default [] (children !! parent) ++ [block_id b]]> children | None => children end) blocks m !! p) =
    default [] (m !! p) ++ List.filter (fun b => bool_decide (idoms !! b = Some p)) (map block_id blocks)) as H.
  { induction blocks as [|x xs IH]; intros m; cbn [fold_left map List.filter]; [by rewrite app_nil_r|]. rewrite IH.
    destruct (idoms !! block_id x) as [q|] eqn:E; [|by rewrite bool_decide_eq_false_2].
    destruct (decide (q = p)) as [->|Hne].
    - rewrite lookup_insert_eq, bool_decide_eq_true_2 by done. simpl. by rewrite <- app_assoc.
    - rewrite lookup_insert_ne, bool_decide_eq_false_2 by congruence. done. }
  by rewrite H, lookup_empty.
Qed.
(** No panic and enough fuel, for unreachable blocks too. *)
Lemma dominates_total : exists idoms, compute_immediate_dominators blocks entry = Some idoms /\
  forall d b, is_Some (dominates (length blocks) idoms entry d b).
Proof.
  destruct (compute_exact (length blocks + 2) ltac:(lia))
    as (order & I & E & Hnd & Hlast & Hlen & Hreach & HI & _).
  exists (delete entry I). split; [exact E|]. intros d b. unfold dominates. case_bool_decide; [by eexists|].
  destruct (I !! b) as [p|] eqn:Eb.
  - destruct (chain_has_spec order I (length blocks) d b Hnd Hlast HI) as (r & -> & _); [done|by eexists|lia|by eexists].
  - assert (delete entry I !! b = None) as En by (apply lookup_delete_None; auto).
    destruct (length blocks); simpl; (case_bool_decide; [by eexists|]); rewrite En; by eexists.
Qed.
End Blocks.

(** The computed tree, by paths: [order] is a numbering of the reached blocks in which
    parents come after their children. *)
Lemma idoms_paths (blocks : list IRBasicBlock) (entry : Z)
    (ids_unique : NoDup (map block_id blocks)) (entry_known : entry ∈ map block_id blocks) :
  exists idoms order, compute_immediate_dominators blocks entry = Some idoms /\ NoDup order /\
    (forall b, b ∈ order <-> exists l, cfg_path blocks entry l b) /\
    (forall b p, idoms !! b = Some p -> p ∈ order /\ rank order b < rank order p) /\
    (forall b, is_Some (idoms !! b) <-> b <> entry /\ exists l, cfg_path blocks entry l b) /\
    (forall b d, (exists l, cfg_path blocks entry l b) -> exists r, dominates (length blocks) idoms entry d b = Some r /\
      (r = true <-> forall l, cfg_path blocks entry l b -> d ∈ l)) /\
    (forall b a, idoms !! b = Some a -> a <> b /\ (forall l, cfg_path blocks entry l b -> a ∈ l) /\
      forall d, d <> b -> (forall l, cfg_path blocks entry l b -> d ∈ l) -> forall l, cfg_path blocks entry l a -> d ∈ l).
Proof.
  destruct (compute_exact blocks entry ids_unique entry_known (length blocks + 2) ltac:(lia))
    as (order & I & E & Hnd & Hlast & Hlen & Hreach & HI & HJ & Hall & Hex).
  exists (delete entry I), order. split; [exact E|]. split; [exact Hnd|].
  assert (forall b, b ∈ order <-> exists l, cfg_path blocks entry l b) as Hpaths.
  { intros b. rewrite Hreach. split.
    - revert b. apply rtc_ind_r; [exists [entry]; constructor|]. intros y z _ Hs [l Hl]. exists (l ++ [z]). by econstructor.
    - intros [l Hl]. induction Hl as [|l p b _ IH Hs]; [done|]. by eapply rtc_r. }
  assert (forall b, is_Some (I !! b) <-> b ∈ order) as Hdom by (intros b; split; [apply (tree_in _ _ _ _ HI)|apply Hall]).
  pose proof (fun d b => dom_paths blocks entry ids_unique entry_known order d b Hreach) as Hdp.
  assert (forall b d, b ∈ order -> anc entry I b d <-> dom order entry (reached_edge blocks order) d b) as Hanc.
  { intros b d Hb. split; [by apply Hex|]. intros Hd. eapply dom_anc; [done..|by apply Hdom|exact Hd]. }
  split; [exact Hpaths|]. split; [|split; [|split]].
  - intros b p. destruct (decide (b = entry)) as [->|Hne]; [by rewrite lookup_delete_eq|].
    rewrite lookup_delete_ne by done. intros Hp. destruct (proj2 HI b p Hp) as [_ Hpar].
    destruct (Hpar Hne) as [Hr Hs]. split; [by apply Hdom|done].
  - intros b. rewrite <- Hpaths, <- Hdom. destruct (decide (b = entry)) as [->|Hne].
    + rewrite lookup_delete_eq. split; [by intros [? ?]|naive_solver].
    + rewrite lookup_delete_ne by done. naive_solver.
  - intros b d Hb. apply Hpaths in Hb. unfold dominates. case_bool_decide as Ed.
    + subst d. exists true. split; [done|]. split; [|done]. intros _ l Hl. clear -Hl. induction Hl; set_solver.
    + destruct (chain_has_spec blocks entry entry_known order I (length blocks) d b Hnd Hlast HI Ed) as (r & -> & Hr); [by apply Hdom|lia|].
      exists r. split; [done|]. by rewrite Hr, Hanc, Hdp.
  - intros b a Hb. destruct (decide (b = entry)) as [->|Hne]; [by rewrite lookup_delete_eq in Hb|].
    rewrite lookup_delete_ne in Hb by done. destruct (proj2 HI b a Hb) as [Hbo Hpar]. destruct (Hpar Hne) as [Hr Has].
    split; [intros ->; lia|]. split; [apply Hdp, Hanc; [done|]; eapply anc_step; [done..|by constructor]|].
    intros d Hdb Hd. apply Hdp. eapply HJ; [done..| |done]. by apply Hdp.
Qed.

(** C38: the computed tree is the dominance relation of the control-flow graph. For
    every function whose block ids are unique and include the entry, the
    algorithm finishes and the map has an entry for exactly the blocks other than
    the entry that some path reaches. For each reached block [b] the chain walk
    [dominates] answers, and its answer is whether [d] is on every path from the
    entry to [b]; the parent of [b] is its immediate dominator, a strict dominator
    that every strict dominator of [b] dominates. The children lists invert the
    map in declaration order. *)
Theorem idoms_correct (blocks : list IRBasicBlock) (entry : Z)
    (ids_unique : NoDup (map block_id blocks)) (entry_known : entry ∈ map block_id blocks) :
  exists idoms, compute_immediate_dominators blocks entry = Some idoms /\
    (forall b, is_Some (idoms !! b) <-> b <> entry /\ exists l, cfg_path blocks entry l b) /\
    (forall b d, (exists l, cfg_path blocks entry l b) -> exists r, dominates (length blocks) idoms entry d b = Some r /\
      (r = true <-> forall l, cfg_path blocks entry l b -> d ∈ l)) /\
    (forall b a, idoms !! b = Some a -> a <> b /\ (forall l, cfg_path blocks entry l b -> a ∈ l) /\
      forall d, d <> b -> (forall l, cfg_path blocks entry l b -> d ∈ l) -> forall l, cfg_path blocks entry l a -> d ∈ l) /\
    (forall p, default [] (dominator_tree_children idoms blocks !! p) =
      List.filter (fun b => bool_decide (idoms !! b = Some p)) (map block_id blocks)).
Proof.
  destruct (idoms_paths blocks entry ids_unique entry_known) as (idoms & _ & E & _ & _ & _ & Hdom & Hdoms & Hidom).
  exists idoms. do 4 (split; [done|]). intros p. apply children_lookup.
Qed.

(** A loop: [0 -> 1], [1 -> 2 | 3], [2 -> 1], with block 4 unreachable. *)
Definition looped : list IRBasicBlock :=
  [mkBlock 0%Z [] [] (Branch (target_to 1%Z));
   mkBlock 1%Z [] [Receive (Some (mkAfter 3%Z 0%Z)) [mkArm 2%Z 0%Z TUnit RBusiness] 1%Z TUnit] Unreachable;
   mkBlock 2%Z [] [] (Branch (target_to 1%Z)); mkBlock 3%Z [] [] (Return None); mkBlock 4%Z [] [] (Branch (target_to 3%Z))].

Lemma idoms_correct_witness : compute_immediate_dominators looped 0 = Some (list_to_map [(1, 0); (2, 1); (3, 1)]%Z) /\
  exists idoms, compute_immediate_dominators looped 0 = Some idoms /\
    forall b d, (exists l, cfg_path looped 0 l b) -> exists r, dominates (length looped) idoms 0 d b = Some r /\
      (r = true <-> forall l, cfg_path looped 0 l b -> d ∈ l).
Proof.
  split; [vm_compute; reflexivity|]. destruct (idoms_correct looped 0) as (idoms & E & _ & H & _).
  - apply (bool_decide_eq_true_1 (NoDup (map block_id looped))). vm_compute. reflexivity.
  - simpl. set_solver.
  - exists idoms. split; [exact E|exact H].
Defined.
