(* ===== verification/Seal.v ===== *)
(** * The seal of the IR

    Models [koja-ir/src/seal/function.rs] and [seal/calls.rs], the checks that run on
    every function before a backend sees it: shape of the blocks, known branch targets,
    arities, definitions that dominate their uses, declared slots, self tail calls and
    registered callees. The code panics on a violation; here a check is a [bool], and a
    walk that can fail returns an [option].

    The walk over the dominator tree keeps one mutable set of defined values, adds what
    a block introduces and takes it out again on the way back; it is modelled with that
    set passed in and out, on fuel for the depth of the tree. [walk_restores] shows that
    the removal gives back the set it was entered with. *)

From stdpp Require Import strings gmap.
From S2P Require Import Prelude IRValue IntrinsicId IRFunction Dominators.
Local Open Scope Z_scope.

(** ** Blocks *)

Definition insert_fresh (s : gset Z) (x : Z) : option (gset Z) :=
  if bool_decide (x ∈ s) then None else Some ({[x]} ∪ s).

Fixpoint insert_all_fresh (s : gset Z) (xs : list Z) : option (gset Z) :=
  match xs with [] => Some s | x :: rest => s ← insert_fresh s x; insert_all_fresh s rest end.

Definition collect_block_ids (bs : list IRBasicBlock) : option (gset IRBlockId) :=
  insert_all_fresh ∅ (map block_id bs).

(** Every type is admitted; the walk is the hook for a restriction. *)
Fixpoint require_supported_type (ty : IRType) : bool :=
  match ty with
  | TCPtr inner | TIndirect inner | TList inner | TSet inner => require_supported_type inner
  | TMap key value => require_supported_type key && require_supported_type value
  | TFunction ps ret => forallb require_supported_type ps && require_supported_type ret
  | TTuple elements => forallb require_supported_type elements
  | TUnion _ members => forallb require_supported_type members
  | _ => true
  end.

Definition collect_block_params (bs : list IRBasicBlock) : option (gmap IRBlockId (list IRType)) :=
  if forallb (fun b => forallb (fun p => require_supported_type (param_ty p)) (block_params b)) bs then
    Some (fold_left (fun m b => <[block_id b := map param_ty (block_params b)]> m) bs ∅)
  else None.

Definition require_branch_target_arity (params : gmap IRBlockId (list IRType)) (target : BranchTarget) : bool :=
  match params !! target_block target with
  | None => true
  | Some ps => (length (target_args target) =? length ps)%nat
  end.

Definition seal_branch_target_arities (params : gmap IRBlockId (list IRType)) (term : IRTerminator) : bool :=
  match term with
  | Branch target => require_branch_target_arity params target
  | CondBranch _ else_target then_target =>
      require_branch_target_arity params then_target && require_branch_target_arity params else_target
  | Return _ | TailCall _ _ | Unreachable => true
  end.

Definition seal_block (ids : gset IRBlockId) (params : gmap IRBlockId (list IRType)) (b : IRBasicBlock) : bool :=
  forallb (fun i => forallb (fun t => bool_decide (t ∈ ids)) (receive_targets i)) (instructions b) &&
  forallb (fun t => bool_decide (t ∈ ids)) (targets (terminator b)) &&
  seal_branch_target_arities params (terminator b).

(** ** Definitions dominate uses *)

Definition require_in_scope (defined : gset ValueId) (value : ValueId) : bool := bool_decide (value ∈ defined).

(** The instructions of a block: operands in scope, results fresh. *)
Fixpoint seal_instructions (defined : gset ValueId) (insts : list IRInstruction) : option (gset ValueId) :=
  match insts with
  | [] => Some defined
  | i :: rest =>
      if forallb (require_in_scope defined) (instruction_operands i) then
        defined ← match instr_dest i with Some dest => insert_fresh defined dest | None => Some defined end;
        seal_instructions defined rest
      else None
  end.

(** What a block introduces: its parameters and the results of its instructions. *)
Definition introduced (b : IRBasicBlock) : list ValueId :=
  map param_dest (block_params b) ++ omap instr_dest (instructions b).

Definition enter_block (defined : gset ValueId) (b : IRBasicBlock) : option (gset ValueId) :=
  defined ← insert_all_fresh defined (map param_dest (block_params b));
  defined ← seal_instructions defined (instructions b);
  if forallb (require_in_scope defined) (terminator_operands (terminator b)) then Some defined else None.

Definition walk_all (walk : IRBlockId -> gset ValueId -> option (gset ValueId))
    : list IRBlockId -> gset ValueId -> option (gset ValueId) :=
  fix go cs defined := match cs with [] => Some defined | c :: rest => defined ← walk c defined; go rest defined end.

Fixpoint walk_dominator_subtree (fuel : nat) (children : gmap IRBlockId (list IRBlockId))
    (blocks : gmap IRBlockId IRBasicBlock) (id : IRBlockId) (defined : gset ValueId) : option (gset ValueId) :=
  match fuel with
  | O => None
  | S fuel =>
      block ← blocks !! id;
      defined ← enter_block defined block;
      defined ← walk_all (walk_dominator_subtree fuel children blocks) (default [] (children !! id)) defined;
      Some (defined ∖ list_to_set (introduced block))
  end.

Definition seal_unreachable_block (parameters : gset ValueId) (b : IRBasicBlock) : bool :=
  match terminator b with
  | Unreachable =>
      bool_decide (is_Some (defined ← insert_all_fresh parameters (map param_dest (block_params b));
                            seal_instructions defined (instructions b)))
  | _ => false
  end.

Definition seal_ssa (bs : list IRBasicBlock) (parameters : gset ValueId) : bool :=
  match bs with
  | [] => false
  | first :: _ =>
      let entry := block_id first in
      match compute_immediate_dominators bs entry with
      | None => false
      | Some idoms =>
          forallb (fun b => bool_decide (block_id b = entry) || bool_decide (is_Some (idoms !! block_id b)) ||
                            seal_unreachable_block parameters b) bs &&
          bool_decide (is_Some (walk_dominator_subtree (length bs) (dominator_tree_children idoms bs) (by_id bs)
                                  entry parameters))
      end
  end.

(** ** Slots and tail calls *)

Definition declared_local (i : IRInstruction) : option IRLocalId :=
  match i with LocalDecl local _ => Some local | _ => None end.

Definition referenced_local (i : IRInstruction) : option IRLocalId :=
  match i with
  | ConsumeLocal local | DropLocal local _ | LocalRead _ local _ | LocalWrite local _ => Some local
  | _ => None
  end.

Definition seal_locals (f : IRFunction) : bool :=
  let insts := concat (map instructions (blocks f)) in
  match insert_all_fresh ∅ (omap declared_local insts) with
  | None => false
  | Some declared =>
      match kind f with
      | Regular => forallb (fun p => bool_decide (local_id p ∈ declared)) (params f)
      | _ => true
      end && forallb (fun l => bool_decide (l ∈ declared)) (omap referenced_local insts)
  end.

Definition seal_tail_calls (f : IRFunction) : bool :=
  forallb (fun b =>
    match terminator b with
    | TailCall args callee => bool_decide (callee = symbol f) && (length args =? length (params f))%nat
    | _ => true
    end) (blocks f).

(** ** Functions and packages *)

Definition is_empty {A} (l : list A) : bool := match l with [] => true | _ => false end.

Definition seal_kind (f : IRFunction) : bool :=
  match kind f with
  | CloneGlue | DeepCopyGlue | DropGlue => true
  | CopyClosureGlue _ | Intrinsic _ | Extern _ => is_empty (blocks f)
  | Regular | Closure _ | DropClosureGlue _ | EqClosureGlue _ | SpawnWrapper _ | ProcessEntryWrapper _ =>
      negb (is_empty (blocks f))
  end.

Definition seal_body (f : IRFunction) (parameters : gset ValueId) : bool :=
  match collect_block_ids (blocks f), collect_block_params (blocks f) with
  | Some ids, Some params =>
      forallb (seal_block ids params) (blocks f) && seal_ssa (blocks f) parameters && seal_locals f && seal_tail_calls f
  | _, _ => false
  end.

Definition seal_function (f : IRFunction) : bool :=
  seal_kind f && require_supported_type (return_type f) && forallb (fun p => require_supported_type (fparam_ty p)) (params f) &&
  match insert_all_fresh ∅ (map param_id (params f)) with
  | None => false
  | Some parameters => is_empty (blocks f) || seal_body f parameters
  end.

(** The functions of a package are keyed by their symbols and sealed. *)
Definition seal_package_functions (p : IRPackage) : bool :=
  bool_decide (map_Forall (fun sym f => sym = symbol f /\ seal_function f = true) (functions p)).

Definition seal_call (lookup : string -> option IRFunction) (i : IRInstruction) : bool :=
  match i with
  | Call _ callee _ => bool_decide (is_Some (lookup callee))
  | Spawn _ _ _ _ wrapper =>
      match lookup wrapper with
      | Some target => match kind target with SpawnWrapper _ => true | _ => false end
      | None => false
      end
  | _ => true
  end.

Definition seal_calls (lookup : string -> option IRFunction) (insts : list IRInstruction) : bool :=
  forallb (seal_call lookup) insts.

(** ** The walk *)

Lemma insert_all_fresh_some s xs s' : insert_all_fresh s xs = Some s' ->
  s' = list_to_set xs ∪ s /\ NoDup xs /\ (forall x, x ∈ xs -> x ∉ s).
Proof.
  revert s. induction xs as [|x xs IH]; intros s; simpl.
  - intros [= <-]. split; [set_solver|]. split; [constructor|set_solver].
  - intros (s1 & H1 & (-> & Hnd & Hd)%IH)%bind_Some. unfold insert_fresh in H1. case_bool_decide as Hx; [done|].
    injection H1 as <-. split; [set_solver|]. split; [|set_solver]. constructor; [|done]. intros Hin. apply (Hd x Hin). set_solver.
Qed.

Lemma insert_fresh_some s x s' : insert_fresh s x = Some s' -> s' = {[x]} ∪ s /\ x ∉ s.
Proof. unfold insert_fresh. case_bool_decide; [done|]. by intros [= <-]. Qed.

Lemma seal_instructions_some defined insts d' : seal_instructions defined insts = Some d' ->
  d' = list_to_set (omap instr_dest insts) ∪ defined /\ (forall x, x ∈ omap instr_dest insts -> x ∉ defined).
Proof.
  revert defined. induction insts as [|i insts IH]; intros defined; simpl; [intros [= <-]; set_solver|].
  destruct (forallb _ _); [|done]. intros (d1 & Hd & (-> & Hf)%IH)%bind_Some.
  destruct (instr_dest i) as [dest|].
  - apply insert_fresh_some in Hd as [-> Hx]. simpl. split; [set_solver|]. intros x [->|Hin]%elem_of_cons; [done|].
    apply Hf in Hin. set_solver.
  - injection Hd as ->. done.
Qed.

Lemma enter_block_some defined b d' : enter_block defined b = Some d' ->
  d' = list_to_set (introduced b) ∪ defined /\ (forall x, x ∈ introduced b -> x ∉ defined).
Proof.
  unfold enter_block, introduced. intros (d1 & (-> & _ & H1)%insert_all_fresh_some & (d2 & (-> & H2)%seal_instructions_some & H3)%bind_Some)%bind_Some.
  destruct (forallb _ _); [|done]. injection H3 as <-. split; [rewrite list_to_set_app_L; set_solver|].
  intros x [Hx|Hx]%elem_of_app; [by apply H1|]. apply H2 in Hx. set_solver.
Qed.

Section Walk.
Context (children : gmap Z (list Z)) (blocks : gmap Z IRBasicBlock).

Local Notation walk fuel := (walk_dominator_subtree fuel children blocks).

(** What a block introduced is taken out again, so a sibling starts from the scope of
    their parent. *)
Lemma walk_restores fuel id d d' : walk fuel id d = Some d' -> d' = d.
Proof.
  revert id d d'. induction fuel as [|fuel IH]; intros id d d'; [done|]. simpl.
  intros (b & _ & (d1 & (-> & Hf)%enter_block_some & (d2 & Hw & [= <-])%bind_Some)%bind_Some)%bind_Some.
  assert (forall cs x y, walk_all (walk fuel) cs x = Some y -> y = x) as Hall.
  { induction cs as [|c cs IHc]; intros x y; simpl; [by intros [= ->]|]. intros (z & ->%IH & Hy%IHc)%bind_Some. done. }
  apply Hall in Hw as ->. apply set_eq. intros x. rewrite elem_of_difference, elem_of_union, elem_of_list_to_set.
  split; [by intros [[Hx|Hx] Hn]|]. intros Hx. split; [by right|]. intros Hi. by apply (Hf x).
Qed.

Lemma walk_inv fuel id d : is_Some (walk fuel id d) -> exists b fuel', blocks !! id = Some b /\
  enter_block d b = Some (list_to_set (introduced b) ∪ d) /\
  forall c, c ∈ default [] (children !! id) -> is_Some (walk fuel' c (list_to_set (introduced b) ∪ d)).
Proof.
  destruct fuel as [|fuel]; [by intros [? ?]|]. intros [d' Hw]. simpl in Hw.
  apply bind_Some in Hw as (b & Hb & (d1 & He & (d2 & Hc & _)%bind_Some)%bind_Some). exists b, fuel.
  pose proof (enter_block_some _ _ _ He) as [-> _]. split; [done|]. split; [done|]. revert d2 Hc.
  generalize (default [] (children !! id)). intros cs. generalize (list_to_set (C:=gset Z) (introduced b) ∪ d). intros D.
  induction cs as [|c cs IH]; intros d2; simpl; [set_solver|]. intros (d3 & H3 & Hc)%bind_Some x [->|Hx]%elem_of_cons; [by eexists|].
  pose proof (walk_restores _ _ _ _ H3) as ->. by eapply IH.
Qed.
End Walk.

(** ** Scopes *)

Section Scopes.
Context (bs : list IRBasicBlock) (entry : IRBasicBlock) (parameters : gset ValueId).
Context (idoms : gmap Z Z) (order : list Z).
Context (Hentry : head bs = Some entry) (Hnd : NoDup (map block_id bs)).
Context (Hidoms : compute_immediate_dominators bs (block_id entry) = Some idoms).
Context (Hsealed : seal_ssa bs parameters = true).

(** What is defined on entering a block: what its strict dominators introduce. *)
Inductive scope : Z -> gset ValueId -> Prop :=
| scope_entry : scope (block_id entry) parameters
| scope_child p b D block : scope p D -> idoms !! b = Some p -> by_id bs !! p = Some block ->
    scope b (list_to_set (introduced block) ∪ D).

Lemma sealed_walk : is_Some (walk_dominator_subtree (length bs) (dominator_tree_children idoms bs) (by_id bs)
  (block_id entry) parameters).
Proof.
  clear Hnd. revert Hidoms Hsealed. unfold seal_ssa. assert (exists l, bs = entry :: l) as [l ->]
    by (clear -Hentry; destruct bs; simplify_eq/=; eauto). intros -> Hs. apply andb_true_iff in Hs as [_ Hs]. by apply bool_decide_eq_true in Hs.
Qed.

(** The walk has been to every block with a scope. *)
Lemma scope_sealed b D : scope b D -> exists block, by_id bs !! b = Some block /\
  enter_block D block = Some (list_to_set (introduced block) ∪ D).
Proof.
  intros Hs. assert (exists fuel, is_Some (walk_dominator_subtree fuel (dominator_tree_children idoms bs) (by_id bs) b D))
    as [fuel Hw].
  { induction Hs as [|p b D block Hs [fuel Hw] Hb Hp]; [exists (length bs); apply sealed_walk|].
    destruct (walk_inv _ _ _ _ _ Hw) as (block' & fuel' & Hp' & _ & Hc). rewrite Hp in Hp'. injection Hp' as <-.
    exists fuel'. apply Hc. rewrite children_lookup. apply list_elem_of_In, filter_In.
    split; [|by apply bool_decide_eq_true]. apply list_elem_of_In.
    assert (entry ∈ bs) as He by (clear -Hentry; destruct bs; simplify_eq/=; left).
    destruct (idoms_paths bs (block_id entry) Hnd) as (idoms' & o & Hi & _ & _ & _ & Hd & _); [by apply list_elem_of_fmap_2|].
    rewrite Hidoms in Hi. injection Hi as <-. destruct (proj1 (Hd b) ltac:(by eexists)) as (Hne & l & Hl).
    destruct Hl as [|l q b _ (? & _ & _ & _ & ?)]; [done|done]. }
  destruct (walk_inv _ _ _ _ _ Hw) as (block & _ & Hb & He & _). eauto.
Qed.

Lemma entry_known : block_id entry ∈ map block_id bs.
Proof. clear -Hentry. apply list_elem_of_fmap_2. destruct bs; simplify_eq/=; left. Qed.

Lemma entry_no_idom : idoms !! block_id entry = None.
Proof.
  destruct (idoms_paths bs (block_id entry) Hnd entry_known) as (idoms' & o & Hi & _ & _ & _ & Hd & _).
  rewrite Hidoms in Hi. injection Hi as <-. apply eq_None_not_Some. by intros [? _]%Hd.
Qed.

Lemma scope_det b D D' : scope b D -> scope b D' -> D = D'.
Proof.
  intros Hs. revert D'. induction Hs as [|p b D block Hs IH Hb Hp]; intros D' Hs'.
  - inversion Hs' as [|q ? ? ? _ Hq]; subst; [done|]. by rewrite entry_no_idom in Hq.
  - inversion Hs' as [|q ? D2 block2 Hs2 Hq Hp2]; subst; [by rewrite entry_no_idom in Hb|].
    simplify_eq. f_equal. by apply IH.
Qed.

(** Every block that a path reaches has a scope. *)
Lemma reached_scope b : (exists l, cfg_path bs (block_id entry) l b) -> exists D, scope b D.
Proof.
  destruct (idoms_paths bs (block_id entry) Hnd entry_known) as (idoms' & o & Hi & Hno & Ho & Hrank & Hd & _).
  rewrite Hidoms in Hi. injection Hi as <-. intros Hb.
  remember (length o - rank o b)%nat as n eqn:En. revert b Hb En. induction n as [n IH] using lt_wf_ind. intros b Hb En.
  destruct (decide (b = block_id entry)) as [->|Hne]; [eexists; constructor|].
  destruct (proj2 (Hd b) (conj Hne Hb)) as [p Hp]. destruct (Hrank b p Hp) as [Hpo Hr].
  destruct (rank_spec o Hno p Hpo) as (_ & _ & Hlt).
  destruct (IH (length o - rank o p)%nat ltac:(lia) p (proj1 (Ho p) Hpo) eq_refl) as [D HD].
  destruct (scope_sealed p D HD) as (block & Hblock & _). eexists. by econstructor.
Qed.

(** Along an edge the scope only grows by what the block left introduces. *)
Lemma scope_dominator p D d : scope p D -> (forall l, cfg_path bs (block_id entry) l p -> d ∈ l) ->
  exists Dd blockd block, scope d Dd /\ by_id bs !! d = Some blockd /\ by_id bs !! p = Some block /\
    list_to_set (introduced blockd) ∪ Dd ⊆ list_to_set (introduced block) ∪ D.
Proof.
  destruct (idoms_paths bs (block_id entry) Hnd entry_known) as (idoms' & o & Hi & _ & _ & _ & _ & _ & Hidom).
  rewrite Hidoms in Hi. injection Hi as <-. intros Hs Hdom. induction Hs as [|p b D block Hs IH Hb Hp].
  - specialize (Hdom [block_id entry] ltac:(constructor)). apply list_elem_of_singleton in Hdom as ->.
    destruct (scope_sealed _ _ scope_entry) as (block & Hblock & _). exists parameters, block, block. repeat (split; [by constructor|]). done.
  - assert (scope b (list_to_set (introduced block) ∪ D)) as Hsb by by econstructor.
    destruct (scope_sealed _ _ Hsb) as (bb & Hbb & _). destruct (decide (d = b)) as [->|Hne]; [by exists (list_to_set (introduced block) ∪ D), bb, bb|].
    destruct (Hidom b p Hb) as (_ & _ & Hup). destruct IH as (Dd & blockd & block' & HDd & Hd & Hp' & Hsub); [by apply Hup|].
    rewrite Hp in Hp'. injection Hp' as <-. exists Dd, blockd, bb. repeat (split; [done|]). set_solver.
Qed.

Lemma scope_edge p b D D' block : scope p D -> step bs p b -> (exists l, cfg_path bs (block_id entry) l p) ->
  scope b D' -> by_id bs !! p = Some block -> D' ⊆ list_to_set (introduced block) ∪ D.
Proof.
  intros Hp Hstep [lp Hlp] Hb Hblock. destruct Hb as [|q b D' blockq Hq Hb Hbq].
  - destruct (scope_dominator p D (block_id entry) Hp) as (De & be & bp & HDe & _ & Hbp & Hsub).
    { intros l Hl. clear -Hl. induction Hl; set_solver. }
    rewrite Hblock in Hbp. injection Hbp as <-. rewrite <- (scope_det _ _ _ HDe scope_entry). set_solver.
  - destruct (idoms_paths bs (block_id entry) Hnd entry_known) as (idoms' & o & Hi & _ & _ & _ & _ & _ & Hidom).
    rewrite Hidoms in Hi. injection Hi as <-. destruct (Hidom b q Hb) as (Hne & Hdom & _).
    destruct (scope_dominator p D q Hp) as (Dq & bq & bp & HDq & Hbq' & Hbp & Hsub).
    { intros l Hl. specialize (Hdom (l ++ [b]) ltac:(by econstructor)). apply elem_of_app in Hdom as [?|Hin]; [done|].
      apply list_elem_of_singleton in Hin. congruence. }
    rewrite Hblock in Hbp. injection Hbp as <-. rewrite Hbq in Hbq'. injection Hbq' as <-.
    by rewrite (scope_det _ _ _ Hq HDq).
Qed.
End Scopes.
