(* ===== verification/Interpreter.v ===== *)
(** * The evaluator

    Models [koja-ir-eval/src/interpreter.rs] with [built_constants.rs], the storage
    query of [value.rs], and the business payload of [intrinsics/process.rs]: the
    instruction walk, frames, calls, closures, tail restarts, [receive], register
    release, constants, default values and the three entry points.

    A computation threads the store of built constants and an abstract world, and ends
    in an [Outcome] or runs out of fuel. The world stands for everything outside the
    evaluation of one process: the class [Host] has one operation for each call the
    evaluator makes into the intrinsics, the foreign functions, the scheduler and the
    clock, and no laws. The two questions the code asks about reference counts
    ([Rc::ptr_eq] and whether a buffer has one holder) are also put to the host, since
    values are represented by their contents. An [await] that parks is a step of the
    host ([yield_once]). Panics of the evaluator are [Crash].

    Loops of the code that need not end take fuel: nested calls and tail restarts in
    [execute_function], jumps between blocks in [execute_blocks], and the wait of
    [execute_receive]. [debug_assertions] says whether [debug_assert_eq!] is compiled
    in, [overflow_checks] is the build's arithmetic mode. *)

From stdpp Require Import strings gmap.
From Stdlib Require Import SpecFloat Ascii String.
From S2P Require Import Prelude Protocol IRValue IntrinsicId EvalOps BinaryOps IRFunction.
Local Open Scope Z_scope.

(** ** Messages ([scheduler.rs]) *)

Record ReplyInfo := mkReplyInfo { caller_pid : Pid; token : Z }.

Record EvalMessage := mkEvalMessage {
  em_context : Context;
  em_tag : Tag;
  em_value : Value;
  em_reply : option ReplyInfo;
}.

(** ** The host *)

Class Host (W : Type) := {
  intrinsic_dispatch : IRIntrinsicId -> IRFunction -> list Value -> W -> Outcome Value * W;
  extern_dispatch : string -> list Value -> W -> option (Outcome Value) * W;
  foreign_call : IRFunction -> list Value -> W -> option (Outcome Value) * W;
  spawn_child : string -> Value -> W -> Pid * W;
  process_exit : Z -> W -> W;
  set_priority : Z -> W -> W;
  reduce : W -> bool * W;
  yield_once : W -> W;
  current_pid : W -> Pid;
  instant_now : W -> Instant * W;
  pop_received : Pid -> W -> option EvalMessage * W;
  clear_deadline : Pid -> W -> W;
  park_receive : Pid -> option Instant -> W -> W;
  set_context : Context -> W -> W;
  rc_ptr_eq : Frame -> ValueId -> ValueId -> W -> bool;
  rc_unique : Frame -> ValueId -> W -> bool;
}.

(** ** Computations *)

Inductive Run (S A : Type) := Done (o : Outcome A) (s : S) | OutOfFuel.
Arguments Done {S A} o s.
Arguments OutOfFuel {S A}.

Record State (W : Type) := mkState { built : gmap string Value; world : W }.
Arguments mkState {W} _ _.
Arguments built {W} _.
Arguments world {W} _.

Definition M (W A : Type) : Type := State W -> Run (State W) A.

Section Monad.
Context {W : Type}.

Definition ret {A} (a : A) : M W A := fun s => Done (Ok a) s.
Definition liftO {A} (o : Outcome A) : M W A := fun s => Done o s.
Definition no_fuel {A} : M W A := fun _ => OutOfFuel.

Definition bindM {A B} (m : M W A) (k : A -> M W B) : M W B := fun s =>
  match m s with
  | Done (Ok a) s => k a s
  | Done (Err e) s => Done (Err e) s
  | Done Crash s => Done Crash s
  | OutOfFuel => OutOfFuel
  end.

(** Host operations that answer, that act, and that do both. *)
Definition ask {A} (f : W -> A) : M W A := fun s => Done (Ok (f (world s))) s.
Definition act (f : W -> W) : M W unit := fun s => Done (Ok tt) (mkState (built s) (f (world s))).
Definition perform {A} (f : W -> A * W) : M W A := fun s =>
  let '(a, w) := f (world s) in Done (Ok a) (mkState (built s) w).

(** [built_constants::value] and [built_constants::store]. *)
Definition built_value (symbol : string) : M W Value := fun s => Done (orCrash (built s !! symbol)) s.
Definition built_store (symbol : string) (v : Value) : M W unit := fun s =>
  Done (Ok tt) (mkState (<[symbol:=v]> (built s)) (world s)).
End Monad.

Notation "'let!' x := m 'in' k" := (bindM m (fun x => k))
  (at level 200, x pattern, m at level 100, k at level 200, right associativity) : koja_scope.

(** ** Resolution ([CallResolver]) *)

Record IRScript := mkScript {
  script_blocks : list IRBasicBlock;
  script_built_order : list string;
  script_packages : list IRPackage;
  script_return_type : IRType;
}.

Record CallResolver := mkResolver {
  cr_built_constant_order : list string;
  cr_constant_value : string -> option IRConstantValue;
  cr_enum_decl : string -> option IREnumDecl;
  cr_resolve : string -> option IRFunction;
  cr_struct_decl : string -> option IRStructDecl;
}.

Definition program_resolver (p : IRProgram) : CallResolver :=
  mkResolver (built_constant_order p) (program_constant p) (program_enum p) (program_function p) (program_struct p).

Definition script_resolver (s : IRScript) : CallResolver :=
  let p := mkProgram (script_built_order s) "" (script_packages s) in program_resolver p.

(** ** Operand access *)

(** [lookup_all]. *)
Fixpoint lookup_all (vs : gmap ValueId Value) (ids : list ValueId) : Outcome (list Value) :=
  match ids with
  | [] => Ok []
  | id :: rest =>
      let* v := lookup_value vs id in
      let* rest := lookup_all vs rest in
      Ok (v :: rest)
  end.

Definition with_values (f : Frame) (vs : gmap ValueId Value) : Frame := mkFrame (captures f) vs (locals f).
Definition set_value (f : Frame) (id : ValueId) (v : Value) : Frame := with_values f (<[id:=v]> (values f)).

Definition expect_closure (v : Value) : Outcome (string * list Value) :=
  match v with VClosure body caps => Ok (body, caps) | _ => Err TypeMismatch end.
Definition expect_enum (v : Value) : Outcome (EnumPayload * IRVariantTag) :=
  match v with VEnum _ payload _ tag => Ok (payload, tag) | _ => Err TypeMismatch end.
Definition expect_int (v : Value) : Outcome Z := match v with VInt n => Ok n | _ => Err TypeMismatch end.
Definition expect_struct (v : Value) : Outcome (string * list Value) :=
  match v with VStruct symbol fields => Ok (symbol, fields) | _ => Err TypeMismatch end.
Definition expect_tuple (v : Value) : Outcome (list Value) :=
  match v with VTuple elements => Ok elements | _ => Err TypeMismatch end.
Definition expect_union (v : Value) : Outcome (Value * Z) :=
  match v with VUnion payload _ tag => Ok (payload, tag) | _ => Err TypeMismatch end.

Definition nth_value (l : list Value) (i : Z) : Outcome Value := orCrash (l !! Z.to_nat i).

(** ** Constants *)

Definition materialize_const (c : ConstValue) : Outcome Value :=
  match c with
  | CBinary bytes => Ok (VBinary bytes)
  | CBits bytes n => Ok (VBits bytes n)
  | CBool b => Ok (VBool b)
  | CFloat32 v => Ok (VFloat32 v)
  | CFloat64 v => Ok (VFloat64 v)
  | CInt8 v | CInt16 v | CInt32 v | CInt64 v | CUInt8 v | CUInt16 v | CUInt32 v => Ok (VInt v)
  | CUInt64 v => Ok (VInt (as_i64 v))
  | CString bytes => value_string bytes
  | CUnit => Ok VUnit
  end.

(** [shares_storage] of [value.rs], where [ptr_eq] is [Rc::ptr_eq] of the storages. *)
Definition shares_storage (ptr_eq : bool) (a b : Value) : bool :=
  match a, b with
  | VBinary _, VBinary _ | VString _, VString _ | VList _, VList _ | VSet _, VSet _ | VMap _, VMap _ => ptr_eq
  | _, _ => false
  end.

(** [coerce_return]. *)
Definition coerce_return (v : Value) (return_type : IRType) : Value :=
  match return_type with TUnit => VUnit | _ => v end.

Inductive BlockOutcome := BDone (v : Value) | TailRestart (args : list Value).

(** [find_block]: a missing block panics. *)
Definition find_block (bs : list IRBasicBlock) (id : IRBlockId) : Outcome IRBasicBlock :=
  orCrash (List.find (fun b => block_id b =? id) bs).

(** The argument lookups of [bind_block_params], before any binding. *)
Fixpoint edge_bindings (vs : gmap ValueId Value) (args : list ValueId) (ps : list BlockParam)
    : Outcome (list (ValueId * Value)) :=
  match args, ps with
  | arg :: args, p :: ps =>
      let* v := lookup_value vs arg in
      let* rest := edge_bindings vs args ps in
      Ok ((param_dest p, v) :: rest)
  | _, _ => Ok []
  end.

Definition bind_all (vs : gmap ValueId Value) (bs : list (ValueId * Value)) : gmap ValueId Value :=
  fold_left (fun m b => <[b.1:=b.2]> m) bs vs.

Definition bind_block_params (target : BranchTarget) (bs : list IRBasicBlock) (vs : gmap ValueId Value)
    : Outcome (gmap ValueId Value) :=
  let* block := find_block bs (target_block target) in
  if bool_decide (length (target_args target) = length (block_params block)) then
    let* bindings := edge_bindings vs (target_args target) (block_params block) in
    Ok (bind_all vs bindings)
  else Crash.

(** [last_segment] of [function.rs]: the text after the last dot, without an arity. *)
Definition after_last (sep : ascii) (cs : list ascii) : option (list ascii * list ascii) :=
  (fix go cs := match cs with
    | [] => None
    | c :: rest =>
        match go rest with
        | Some (before, after) => Some (c :: before, after)
        | None => if bool_decide (c = sep) then Some ([], rest) else None
        end
    end) cs.

Definition is_ascii_digit (c : ascii) : bool :=
  let n := Ascii.nat_of_ascii c in ((48 <=? n) && (n <=? 57))%nat.

Definition strip_arity_suffix (segment : list ascii) : list ascii :=
  match after_last "/"%char segment with
  | None => segment
  | Some (before, after) =>
      match after with c :: _ => if is_ascii_digit c then before else segment | [] => segment end
  end.

Definition last_segment (mangled : string) : string :=
  let cs := list_ascii_of_string mangled in
  let segment := match after_last "."%char cs with Some (_, after) => after | None => cs end in
  string_of_list_ascii (strip_arity_suffix segment).

(** ** The evaluator *)

Section Eval.
Context {W : Type} `{Host W} (overflow_checks debug_assertions : bool) (R : CallResolver).

(** [debug_assert_eq!] of two lengths. *)
Definition debug_assert_len {A B} (xs : list A) (ys : list B) : M W unit :=
  if debug_assertions && negb (bool_decide (length xs = length ys)) then liftO Crash else ret tt.

Fixpoint materialize_pooled_constant (cv : IRConstantValue) : Outcome Value :=
  match cv with
  | Built _ _ => Crash
  | Primitive inner => materialize_const inner
  | EnumVariant tag ty =>
      let* decl := orCrash (cr_enum_decl R ty) in
      let* variant := orCrash (variants decl !! Z.to_nat tag) in
      Ok (VEnum (vname variant) PUnit ty tag)
  | CStruct fields ty =>
      let* vs := (fix go fields := match fields with
                    | [] => Ok []
                    | f :: rest =>
                        let* v := materialize_pooled_constant f in
                        let* vs := go rest in
                        Ok (v :: vs)
                    end) fields in
      Ok (VStruct ty vs)
  end.

(** The zipped fields of a struct variant. *)
Fixpoint struct_payload (vs : gmap ValueId Value) (inits : list StructFieldInit) (declared : list IRStructField)
    : Outcome (list (string * Value)) :=
  match inits, declared with
  | i :: inits, d :: declared =>
      let* v := lookup_value vs (init_value i) in
      let* rest := struct_payload vs inits declared in
      Ok ((field_name d, v) :: rest)
  | _, _ => Ok []
  end.

Definition materialize_enum (sym : string) (tag : IRVariantTag) (payload : EnumPayloadInit) (fr : Frame)
    : Outcome Value :=
  let* decl := orCrash (cr_enum_decl R sym) in
  let* variant := orCrash (variants decl !! Z.to_nat tag) in
  let* materialized :=
    match payload, vpayload variant with
    | EPUnit, VPUnit => Ok PUnit
    | EPTuple ids, VPTuple _ => let* vs := lookup_all (values fr) ids in Ok (PTuple vs)
    | EPStruct inits, VPStruct declared =>
        let* fields := struct_payload (values fr) inits declared in Ok (PStruct fields)
    | _, _ => Crash
    end in
  Ok (VEnum (vname variant) materialized sym tag).

(** *** Register release *)

Definition consuming_kind (f : IRFunction) : bool :=
  match kind f with Intrinsic id => is_consuming id | _ => false end.

Definition consuming_receiver (i : IRInstruction) : option ValueId :=
  match i with
  | Call _ callee args =>
      f ← cr_resolve R callee;
      if consuming_kind f then head args else None
  | Concat true _ _ lhs _ => Some lhs
  | _ => None
  end.

Definition remove_defined (insts : list IRInstruction) (vs : gmap ValueId Value) : gmap ValueId Value :=
  fold_left (fun m i => match instr_dest i with Some d => delete d m | None => m end) insts vs.

Definition exit_dead (fr : Frame) (receiver : ValueId) (receiver_value : Value) (remaining : list IRInstruction)
    (term : IRTerminator) (w : W) (id : ValueId) (v : Value) : bool :=
  negb (id =? receiver) && shares_storage (rc_ptr_eq fr id receiver w) v receiver_value
  && negb (term_uses_value term id) && negb (existsb (fun i => uses_value i id) remaining).

Definition release_exit_registers (receiver : ValueId) (remaining : list IRInstruction) (term : IRTerminator)
    (fr : Frame) (w : W) : Frame :=
  match values fr !! receiver with
  | None => fr
  | Some receiver_value =>
      with_values fr
        (filter (fun kv => exit_dead fr receiver receiver_value remaining term w kv.1 kv.2 = false) (values fr))
  end.

Definition release_dead_registers (i : IRInstruction) (rest : list IRInstruction) (term : IRTerminator)
    (fr : Frame) : M W Frame :=
  match consuming_receiver i with
  | None => ret fr
  | Some receiver =>
      let fr := with_values fr (remove_defined (i :: rest) (values fr)) in
      match term with
      | Return _ | TailCall _ _ => ask (release_exit_registers receiver (i :: rest) term fr)
      | _ => ret fr
      end
  end.

(** *** Receive *)

(** [lifecycle_value]. *)
Definition lifecycle_value (arm : ReceiveArm) (variant : Z) : Outcome Value :=
  match payload_type arm with
  | TEnum sym =>
      let* event := orCrash (lifecycle_from_index variant) in
      let* decl := orCrash (cr_enum_decl R sym) in
      let name := lifecycle_variant_name event in
      let* v := orCrash (List.find (fun v => bool_decide (vname v = name)) (variants decl)) in
      Ok (VEnum (vname v) PUnit sym (vtag v))
  | _ => Crash
  end.

(** [option_some_struct_symbol]. *)
Definition option_some_struct_symbol (option_symbol : string) : Outcome string :=
  let* decl := orCrash (cr_enum_decl R option_symbol) in
  let* some := orCrash (List.find (fun v => bool_decide (vname v = "Some"%string)) (variants decl)) in
  match vpayload some with VPTuple [TStruct sym] => Ok sym | _ => Crash end.

(** [helpers::option_value]. *)
Definition option_value (sym : string) (v : option Value) : Outcome Value :=
  let '(name, payload) :=
    match v with Some v => ("Some"%string, PTuple [v]) | None => ("None"%string, PUnit) end in
  match cr_enum_decl R sym with
  | None => Err TypeMismatch
  | Some decl =>
      match List.find (fun d => bool_decide (vname d = name)) (variants decl) with
      | None => Err TypeMismatch
      | Some variant => Ok (VEnum name payload sym (vtag variant))
      end
  end.

(** [build_business_payload]; an error of [option_value] panics. *)
Definition build_business_payload (envelope_type : IRType) (message : EvalMessage) : Outcome Value :=
  match envelope_type with
  | TTuple [_; TEnum option_symbol] =>
      let* reply_to :=
        match em_reply message with
        | None => Ok None
        | Some info =>
            let* sym := option_some_struct_symbol option_symbol in
            Ok (Some (VStruct sym [VInt (caller_pid info); VInt (token info)]))
        end in
      match option_value option_symbol reply_to with
      | Ok opt => Ok (VTuple [em_value message; opt])
      | _ => Crash
      end
  | _ => Crash
  end.

Definition find_arm (arms : list ReceiveArm) (t : ReceiveTag) : option ReceiveArm :=
  List.find (fun arm => bool_decide (arm_tag arm = t)) arms.

(** [dispatch_received]: the arm's body, with the payload bound. *)
Definition dispatch_received (message : EvalMessage) (arms : list ReceiveArm) (fr : Frame)
    : M W (option (IRBlockId * Frame)) :=
  match em_tag message with
  | Business =>
      match find_arm arms RBusiness with
      | None => ret None
      | Some arm =>
          let! _ := act (set_context (em_context message)) in
          let! payload := liftO (build_business_payload (payload_type arm) message) in
          ret (Some (arm_body arm, set_local fr (payload_local arm) payload))
      end
  | ExitSignal =>
      match find_arm arms RExitSignal with
      | None => ret None
      | Some arm => ret (Some (arm_body arm, set_local fr (payload_local arm) (em_value message)))
      end
  | IOReady =>
      match find_arm arms RIOReady with
      | None => ret None
      | Some arm => ret (Some (arm_body arm, set_local fr (payload_local arm) (em_value message)))
      end
  | TagLifecycle =>
      match find_arm arms RLifecycle with
      | None => ret None
      | Some arm =>
          match em_value message with
          | VInt variant =>
              let! payload := liftO (lifecycle_value arm variant) in
              ret (Some (arm_body arm, set_local fr (payload_local arm) payload))
          | _ => liftO Crash
          end
      end
  | Reply => ret None
  end.

(** The loop of [execute_receive]. *)
Fixpoint receive_loop (fuel : nat) (pid : Pid) (arms : list ReceiveArm) (after : option ReceiveAfter)
    (deadline : option Instant) (fr : Frame) : M W (IRBlockId * Frame) :=
  match fuel with
  | O => no_fuel
  | S fuel =>
      let! popped := perform (pop_received pid) in
      let! dispatched := match popped with Some m => dispatch_received m arms fr | None => ret None end in
      match dispatched with
      | Some next =>
          let! _ := match deadline with Some _ => act (clear_deadline pid) | None => ret tt end in
          ret next
      | None =>
          let! expired := match deadline with
                          | Some d => let! now := perform instant_now in ret (d <=? now)
                          | None => ret false
                          end in
          if expired : bool then
            let! _ := act (clear_deadline pid) in
            match after with Some clause => ret (after_body clause, fr) | None => liftO Crash end
          else
            let! _ := act (park_receive pid deadline) in
            let! _ := act yield_once in
            receive_loop fuel pid arms after deadline fr
      end
  end.

Definition execute_receive (fuel : nat) (arms : list ReceiveArm) (after : option ReceiveAfter) (fr : Frame)
    : M W (IRBlockId * Frame) :=
  let! deadline :=
    match after with
    | None => ret None
    | Some clause =>
        let! v := liftO (lookup_value (values fr) (timeout clause)) in
        match v with
        | VInt ms =>
            let! now := perform instant_now in
            ret (Some (now + duration_from_user_millis ms))
        | _ => liftO (Err TypeMismatch)
        end
    end in
  let! pid := ask current_pid in
  receive_loop fuel pid arms after deadline fr.

(** *** Instructions *)

(** The arguments of a call: a consuming twin's receiver moves out of its register. *)
Fixpoint call_args (consuming : bool) (args : list ValueId) (fr : Frame) : Outcome (list Value * Frame) :=
  match args with
  | [] => Ok ([], fr)
  | arg :: rest =>
      let* v := lookup_value (values fr) arg in
      let fr := if consuming then with_values fr (delete arg (values fr)) else fr in
      let* (vs, fr) := call_args false rest fr in
      Ok (v :: vs, fr)
  end.

(** How the bodies of functions and of closures run. *)
Context (call : IRFunction -> list Value -> M W Value).
Context (call_closure : IRFunction -> list Value -> list Value -> M W Value).

Definition closures_equal (lhs rhs : Value) : M W bool :=
  let! (lhs_body, lhs_captures) := liftO (expect_closure lhs) in
  let! (rhs_body, rhs_captures) := liftO (expect_closure rhs) in
  if negb (bool_decide (lhs_body = rhs_body)) then ret false
  else
    match lhs_captures, rhs_captures with
    | [], [] => ret true
    | _, _ =>
        let! eq_glue := liftO (orCrash (cr_resolve R (lhs_body +:+ ".$eq_env$"))) in
        let! r := call_closure eq_glue [rhs] lhs_captures in
        match r with VBool equal => ret equal | _ => liftO (Err TypeMismatch) end
    end.

(** [execute_instruction_value]: the value defined, if any, and the frame. *)
Definition execute_instruction_value (i : IRInstruction) (fr : Frame) : M W (option Value * Frame) :=
  let def (o : Outcome Value) : M W (option Value * Frame) := let! v := liftO o in ret (Some v, fr) in
  let look id := lookup_value (values fr) id in
  match i with
  | BinaryConstruct _ layout segments => def (construct_binary_literal overflow_checks layout segments fr)
  | BinaryMatch _ layout segments subject =>
      let! v := liftO (look subject) in
      let! (matched, fr) := liftO (execute_binary_match overflow_checks layout segments v fr) in
      ret (Some (VBool matched), fr)
  | BinaryOp _ lhs op operand_ty rhs =>
      def (let* l := look lhs in let* r := look rhs in apply_binary_op overflow_checks op operand_ty l r)
  | Call _ callee args =>
      let! callee_fn := liftO (orCrash (cr_resolve R callee)) in
      let! (arg_values, fr) := liftO (call_args (consuming_kind callee_fn) args fr) in
      let! v := call callee_fn arg_values in
      ret (Some v, fr)
  | CallClosure args callee _ _ _ =>
      let! (body, caps) := liftO (let* v := look callee in expect_closure v) in
      let! arg_values := liftO (lookup_all (values fr) args) in
      let! body_fn := liftO (orCrash (cr_resolve R body)) in
      let! v := call_closure body_fn arg_values caps in
      ret (Some v, fr)
  | Clone _ source _ | DeepCopy _ source _ => def (look source)
  | ClosureEquals _ lhs rhs _ =>
      let! l := liftO (look lhs) in
      let! r := liftO (look rhs) in
      let! b := closures_equal l r in
      ret (Some (VBool b), fr)
  | Concat consumes_lhs _ kind lhs rhs =>
      let! r := liftO (look rhs) in
      let! l := liftO (look lhs) in
      if consumes_lhs then
        let! unique := ask (rc_unique fr lhs) in
        let fr := with_values fr (delete lhs (values fr)) in
        match extend_unique_bytes unique l r with
        | inl extended => ret (Some extended, fr)
        | inr l => let! v := liftO (concat_values kind l r) in ret (Some v, fr)
        end
      else def (concat_values kind l r)
  | Const _ value => def (materialize_const value)
  | ConsumeLocal local => ret (None, set_local fr local VUnit)
  | DropLocal _ _ | DropValue _ _ => ret (None, fr)
  | EnumConstruct _ payload tag ty => def (materialize_enum ty tag payload fr)
  | EnumPayloadFieldGet _ value tag payload_index _ _ =>
      def (let* v := look value in
           let* (payload, actual_tag) := expect_enum v in
           if negb (actual_tag =? tag) then Crash
           else match payload with
           | PTuple elements => nth_value elements payload_index
           | PStruct fields => nth_value (map snd fields) payload_index
           | PUnit => Crash
           end)
  | EnumTagGet _ value _ =>
      def (let* v := look value in let* (_, tag) := expect_enum v in Ok (VInt tag))
  | FieldGet base _ index _ _ =>
      def (let* v := look base in let* (_, fields) := expect_struct v in nth_value fields index)
  | FieldSet base _ index _ _ value =>
      def (let* v := look base in
           let* (sym, fields) := expect_struct v in
           let* new_field := look value in
           let* _ := nth_value fields index in
           Ok (VStruct sym (<[Z.to_nat index:=new_field]> fields)))
  | IndirectPresent base _ _ =>
      def (let* v := look base in Ok (VBool (match v with VUnit => false | _ => true end)))
  | LoadCapture capture_index _ _ => def (nth_value (captures fr) capture_index)
  | LoadCaptureOf capture_index closure _ _ =>
      def (let* v := look closure in let* (_, caps) := expect_closure v in nth_value caps capture_index)
  | LoadConst const_id _ _ =>
      let! pooled := liftO (orCrash (cr_constant_value R const_id)) in
      let! v := match pooled with
                | Built _ _ => built_value const_id
                | _ => liftO (materialize_pooled_constant pooled)
                end in
      ret (Some v, fr)
  | LocalDecl local _ => ret (None, set_local fr local VUnit)
  | LocalRead _ local _ => def (orCrash (locals fr !! local))
  | LocalWrite local value => let! v := liftO (look value) in ret (None, set_local fr local v)
  | MakeClosure body captured _ _ => def (let* caps := lookup_all (values fr) captured in Ok (VClosure body caps))
  | NumericWiden _ _ _ value =>
      def (let* v := look value in
           Ok (match v with VFloat32 x => VFloat64 (float_cast F64 x) | other => other end))
  | ProcessExit reason =>
      let! code := liftO (let* v := look reason in expect_int v) in
      let! _ := act (process_exit code) in
      ret (None, fr)
  | Receive _ _ _ _ => liftO Crash
  | SetPriority tag =>
      let! level := liftO (let* v := look tag in expect_int v) in
      let! _ := act (set_priority level) in
      ret (None, fr)
  | Spawn config _ _ ref_type wrapper =>
      let! v := liftO (look config) in
      let! pid := perform (spawn_child wrapper v) in
      ret (Some (VStruct ref_type [VInt pid]), fr)
  | StructInit _ fields ty =>
      def (let* vs := lookup_all (values fr) (map init_value fields) in Ok (VStruct ty vs))
  | TupleGet base _ _ index =>
      def (let* v := look base in let* elements := expect_tuple v in nth_value elements index)
  | TupleInit _ elements _ => def (let* vs := lookup_all (values fr) elements in Ok (VTuple vs))
  | UnaryOp _ op operand operand_ty => def (let* v := look operand in apply_unary_op op operand_ty v)
  | UnionPayloadGet _ member_index _ _ value =>
      def (let* v := look value in
           let* (payload, actual_tag) := expect_union v in
           if actual_tag =? member_index then Ok payload else Crash)
  | UnionTagGet _ _ value => def (let* v := look value in let* (_, tag) := expect_union v in Ok (VInt tag))
  | UnionWrap _ member_index _ ty value =>
      def (let* payload := look value in
           match ty with TUnion mangled _ => Ok (VUnion payload mangled member_index) | _ => Crash end)
  | YieldCheck =>
      let! exhausted := perform reduce in
      let! _ := (if exhausted : bool then act yield_once else ret tt) in
      ret (None, fr)
  end.

(** [execute_instruction]: bind the value to [dest]. *)
Definition execute_instruction (i : IRInstruction) (fr : Frame) : M W Frame :=
  let! (result, fr) := execute_instruction_value i fr in
  match instr_dest i, result with
  | Some dest, Some v => ret (set_value fr dest v)
  | None, None => ret fr
  | _, _ => liftO Crash
  end.

(** *** Blocks *)

(** The instructions of a block; a [Receive] transfers control and ends the walk. *)
Fixpoint execute_instructions (receive_fuel : nat) (insts : list IRInstruction) (term : IRTerminator) (fr : Frame)
    : M W (option IRBlockId * Frame) :=
  match insts with
  | [] => ret (None, fr)
  | Receive after arms _ _ :: _ =>
      let! (next, fr) := execute_receive receive_fuel arms after fr in
      ret (Some next, fr)
  | i :: rest =>
      let! fr := release_dead_registers i rest term fr in
      let! fr := execute_instruction i fr in
      execute_instructions receive_fuel rest term fr
  end.

(** What the terminator does: leave the frame, or go on at a block. *)
Definition execute_terminator (bs : list IRBasicBlock) (term : IRTerminator) (fr : Frame)
    : Outcome (BlockOutcome + IRBlockId * Frame) :=
  match term with
  | Branch target =>
      let* vs := bind_block_params target bs (values fr) in
      Ok (inr (target_block target, with_values fr vs))
  | CondBranch cond else_target then_target =>
      let* v := lookup_value (values fr) cond in
      match v with
      | VBool b =>
          let chosen := if b then then_target else else_target in
          let* vs := bind_block_params chosen bs (values fr) in
          Ok (inr (target_block chosen, with_values fr vs))
      | _ => Err TypeMismatch
      end
  | Return None => Ok (inl (BDone VUnit))
  | Return (Some id) => let* v := lookup_value (values fr) id in Ok (inl (BDone v))
  | TailCall args _ => let* vs := lookup_all (values fr) args in Ok (inl (TailRestart vs))
  | Unreachable => Err UnreachableExecuted
  end.

Fixpoint run_blocks (fuel receive_fuel : nat) (bs : list IRBasicBlock) (current : IRBlockId) (fr : Frame)
    : M W BlockOutcome :=
  match fuel with
  | O => no_fuel
  | S fuel =>
      let! block := liftO (find_block bs current) in
      let! (jump, fr) := execute_instructions receive_fuel (instructions block) (terminator block) fr in
      match jump with
      | Some next => run_blocks fuel receive_fuel bs next fr
      | None =>
          let! step := liftO (execute_terminator bs (terminator block) fr) in
          match step with
          | inl outcome => ret outcome
          | inr (next, fr) => run_blocks fuel receive_fuel bs next fr
          end
      end
  end.

(** [execute_blocks] starts at the first block. *)
Definition execute_blocks (fuel : nat) (bs : list IRBasicBlock) (fr : Frame) : M W BlockOutcome :=
  match bs with
  | [] => liftO Crash
  | first :: _ => run_blocks fuel fuel bs (block_id first) fr
  end.

(** The frame a call starts in: parameters zipped with arguments. *)
Definition seed_frame (caps : list Value) (ps : list IRFunctionParam) (args : list Value) : Frame :=
  mkFrame caps (bind_all ∅ (zip (map param_id ps) args)) ∅.
End Eval.

Section Functions.
Context {W : Type} `{Host W} (overflow_checks debug_assertions : bool) (R : CallResolver).

(** [execute_function] and [execute_closure_function]. *)
Fixpoint execute_function (fuel : nat) (f : IRFunction) (args : list Value) : M W Value :=
  match fuel with
  | O => no_fuel
  | S fuel =>
      let! _ := debug_assert_len debug_assertions (params f) args in
      match kind f with
      | Intrinsic id => let! o := perform (intrinsic_dispatch id f args) in liftO o
      | Extern attrs =>
          let c_symbol := default (last_segment (symbol f)) (link_name attrs) in
          let! shim := perform (extern_dispatch c_symbol args) in
          match shim with
          | Some o => liftO o
          | None =>
              let! foreign := perform (foreign_call f args) in
              match foreign with
              | Some o => liftO o
              | None => liftO (Err (ExternUnresolved c_symbol (link_lib attrs)
                                      "no foreign table was resolved for this run" (symbol f)))
              end
          end
      | CloneGlue | DeepCopyGlue => ret (default VUnit (head args))
      | DropGlue => ret VUnit
      | Regular => execute_regular fuel f args
      | Closure _ | EqClosureGlue _ | CopyClosureGlue _ | DropClosureGlue _ | SpawnWrapper _
      | ProcessEntryWrapper _ => liftO Crash
      end
  end
with execute_regular (fuel : nat) (f : IRFunction) (args : list Value) : M W Value :=
  match fuel with
  | O => no_fuel
  | S fuel =>
      let! outcome :=
        execute_blocks overflow_checks R (execute_function fuel) (execute_closure_function fuel) fuel (blocks f)
          (seed_frame [] (params f) args) in
      match outcome with
      | BDone v => ret (coerce_return v (return_type f))
      | TailRestart new_args => execute_regular fuel f new_args
      end
  end
with execute_closure_function (fuel : nat) (f : IRFunction) (args caps : list Value) : M W Value :=
  match fuel with
  | O => no_fuel
  | S fuel =>
      let! _ := debug_assert_len debug_assertions (params f) args in
      match kind f with
      | Closure env_layout | EqClosureGlue env_layout =>
          let! _ := debug_assert_len debug_assertions env_layout caps in
          let! outcome :=
            execute_blocks overflow_checks R (execute_function fuel) (execute_closure_function fuel) fuel
              (blocks f) (seed_frame caps (params f) args) in
          match outcome with
          | BDone v => ret (coerce_return v (return_type f))
          | TailRestart _ => liftO Crash
          end
      | _ => liftO Crash
      end
  end.

(** ** Entry points *)

Fixpoint run_built_inits (fuel : nat) (order : list string) : M W unit :=
  match order with
  | [] => ret tt
  | sym :: rest =>
      match cr_constant_value R sym with
      | Some (Built init _) =>
          let! init_fn := liftO (orCrash (cr_resolve R init)) in
          let! v := execute_function fuel init_fn [] in
          let! _ := built_store sym v in
          run_built_inits fuel rest
      | _ => liftO Crash
      end
  end.

Definition build_constants (fuel : nat) : M W unit := run_built_inits fuel (cr_built_constant_order R).

(** [process_body_of]: the function the wrapper's first call names. *)
Definition process_body_of (wrapper : string) : option IRFunction :=
  wrapper_fn ← cr_resolve R wrapper;
  let calls := omap (fun i => match i with Call _ callee _ => Some callee | _ => None end)
                 (concat (map instructions (blocks wrapper_fn))) in
  body ← head calls;
  cr_resolve R body.

Definition is_argv_shaped (config_type : IRType) : bool :=
  match config_type with TList TString => true | _ => false end.

(** Arguments are UTF-8 in Rust, so [Value::string] accepts them. *)
Definition argv_value (args : list (list Z)) : Value := VList (map VString args).

Fixpoint default_value_for_type (fuel : nat) (ty : IRType) : M W Value :=
  match fuel with
  | O => no_fuel
  | S fuel =>
      let all := fix all (tys : list IRType) : M W (list Value) :=
        match tys with
        | [] => ret []
        | t :: rest =>
            let! v := default_value_for_type fuel t in
            let! vs := all rest in
            ret (v :: vs)
        end in
      match ty with
      | TBinary => ret (VBinary [])
      | TBool => ret (VBool false)
      | TCPtr _ => ret (VCPtr 0)
      | TEnum sym =>
          let! decl := liftO (orCrash (cr_enum_decl R sym)) in
          let! variant := liftO (orCrash (head (variants decl))) in
          let! payload :=
            match vpayload variant with
            | VPStruct fields =>
                let! vs := all (map ir_type fields) in
                ret (PStruct (zip (map field_name fields) vs))
            | VPTuple types => let! vs := all types in ret (PTuple vs)
            | VPUnit => ret PUnit
            end in
          ret (VEnum (vname variant) payload sym (vtag variant))
      | TFloat32 => ret (VFloat32 (S754_zero false))
      | TFloat64 => ret (VFloat64 (S754_zero false))
      | TInt8 | TInt16 | TInt32 | TInt64 | TUInt8 | TUInt16 | TUInt32 | TUInt64 => ret (VInt 0)
      | TList _ => ret (VList [])
      | TMap _ _ => ret (VMap [])
      | TSet _ => ret (VSet [])
      | TString => ret (VString [])
      | TStruct sym =>
          let! decl := liftO (orCrash (cr_struct_decl R sym)) in
          let! vs := all (map ir_type (sfields decl)) in
          ret (VStruct sym vs)
      | TTuple elements => let! vs := all elements in ret (VTuple vs)
      | TUnit => ret VUnit
      | TBits | TFunction _ _ | TIndirect _ | TUnion _ _ => liftO (Err Unsupported)
      end
  end.

(** [run_entry_body] of a program entered at [entry]. *)
Definition run_entry_body (fuel : nat) (entry : IRFunction) (args : list (list Z)) : M W Value :=
  let! _ := build_constants fuel in
  let! config_type := liftO (orCrash (fparam_ty <$> head (params entry))) in
  let! config_value :=
    if is_argv_shaped config_type then ret (argv_value args) else default_value_for_type fuel config_type in
  let! body_fn := liftO (orCrash (process_body_of (symbol entry))) in
  execute_function fuel body_fn [config_value].

(** [Interpreter::run_function], the seam of the tests. *)
Definition run_function (fuel : nat) (mangled : string) : M W Value :=
  let! f := liftO (orCrash (cr_resolve R mangled)) in
  let! _ := build_constants fuel in
  execute_function fuel f [].

(** [build_spawn_future]'s body: an error is the crash the scheduler records. *)
Definition run_spawned (fuel : nat) (wrapper : string) (config : Value) : M W Value :=
  let! body_fn := liftO (orCrash (process_body_of wrapper)) in
  execute_function fuel body_fn [config].
End Functions.

(** [run_program_with]: the entry must be a process entry wrapper. *)
Definition run_program {W} `{Host W} (overflow_checks debug_assertions : bool) (fuel : nat) (p : IRProgram)
    (args : list (list Z)) : M W Value :=
  let! entry := liftO (orCrash (program_function p (entry_point p))) in
  match kind entry with
  | ProcessEntryWrapper _ =>
      run_entry_body overflow_checks debug_assertions (program_resolver p) fuel entry args
  | _ => liftO Crash
  end.

(** [run_script_body]. *)
Definition run_script {W} `{Host W} (overflow_checks debug_assertions : bool) (fuel : nat) (s : IRScript) : M W Value :=
  let R := script_resolver s in
  let! _ := build_constants overflow_checks debug_assertions R fuel in
  let! outcome :=
    execute_blocks overflow_checks R (execute_function overflow_checks debug_assertions R fuel)
      (execute_closure_function overflow_checks debug_assertions R fuel) fuel (script_blocks s)
      (frame_with_captures []) in
  match outcome with
  | BDone v => ret (coerce_return v (script_return_type s))
  | TailRestart _ => liftO Crash
  end.
