(* ===== verification/EvalRefine.v ===== *)
(** * Refinement between runs of the evaluator

    When a pass rewrites function bodies, a run of the original program is compared
    with a run of the rewritten one. [refines r r'] says that [r'] ends like [r], in
    the same outcome and the same final state, unless [r] has run out of fuel or has
    gone wrong. Going wrong is what the seal pass excludes: a panic of the evaluator,
    or the read of a register that was never defined.

    [Transforms] is the interface between a pass and the evaluator: what the pass may
    change. Under it every part of the evaluator that does not look into a body is
    shown here to respect refinement, once for all passes; [transform_refines] leaves
    to a pass only the bodies it rewrites. Taking the identity as the pass gives that
    more fuel never changes a result ([fuel_mono]). *)

From stdpp Require Import strings gmap.
From S2P Require Import Prelude Protocol IRValue EvalOps BinaryOps IRFunction Interpreter.
Local Open Scope Z_scope.

(** ** Refinement *)

Definition wrong {A} (o : Outcome A) : bool :=
  match o with Crash | Err (ValueUndefined _) => true | _ => false end.

Definition refines {S A} (r r' : Run S A) : Prop :=
  match r with OutOfFuel => True | Done o s => wrong o = true \/ r' = Done o s end.

Definition refinesM {W A} (m m' : M W A) : Prop := forall s, refines (m s) (m' s).

#[export] Instance refines_preorder {S A} : PreOrder (@refines S A).
Proof.
  split.
  - intros [o s|]; simpl; auto.
  - intros [o s|] r' r''; simpl; [|done]. intros [Hw| ->]; [by left|]. simpl. done.
Qed.

#[export] Instance refinesM_preorder {W A} : PreOrder (@refinesM W A).
Proof.
  split.
  - intros m s. reflexivity.
  - intros m m' m'' Hm Hm' s. etransitivity; [apply Hm|apply Hm'].
Qed.

Lemma refinesM_bind {W A B} (m m' : M W A) (k k' : A -> M W B) :
  refinesM m m' -> (forall a, refinesM (k a) (k' a)) -> refinesM (bindM m k) (bindM m' k').
Proof.
  intros Hm Hk s. unfold bindM. specialize (Hm s). destruct (m s) as [[a|e|] s1|]; simpl in *; try done.
  - destruct Hm as [Hw| ->]; [done|apply Hk].
  - destruct Hm as [Hw| ->]; [by left|by right].
  - by left.
Qed.

(** A weaker premise on the continuation: only values the first part can produce. *)
Lemma refinesM_bind_post {W A B} (P : A -> Prop) (m m' : M W A) (k k' : A -> M W B) :
  refinesM m m' -> (forall s a s', m s = Done (Ok a) s' -> P a) ->
  (forall a, P a -> refinesM (k a) (k' a)) -> refinesM (bindM m k) (bindM m' k').
Proof.
  intros Hm HP Hk s. unfold bindM. specialize (Hm s). destruct (m s) as [[a|e|] s1|] eqn:E; simpl in *; try done.
  - destruct Hm as [Hw| ->]; [done|]. apply Hk. by eapply HP.
  - destruct Hm as [Hw| ->]; [by left|by right].
  - by left.
Qed.

Lemma refinesM_no_fuel {W A} (m : M W A) : refinesM no_fuel m.
Proof. by intros s. Qed.

Lemma refinesM_liftO_wrong {W A} (o : Outcome A) (m : M W A) : wrong o = true -> refinesM (liftO o) m.
Proof. intros Hw s. by left. Qed.

Lemma bindM_assoc {W A B C} (m : M W A) (k : A -> M W B) (h : B -> M W C) s :
  bindM (bindM m k) h s = bindM m (fun a => bindM (k a) h) s.
Proof. unfold bindM. by destruct (m s) as [[]|]. Qed.

Lemma bindM_ext {W A B} (m : M W A) (k k' : A -> M W B) s :
  (forall a s, k a s = k' a s) -> bindM m k s = bindM m k' s.
Proof. intros Hk. unfold bindM. destruct (m s) as [[]|]; try done. Qed.

Lemma bindM_cong {W A B} (m m' : M W A) (k : A -> M W B) s : m s = m' s -> bindM m k s = bindM m' k s.
Proof. unfold bindM. by intros ->. Qed.

Lemma bindM_liftO {W A B} (a : A) (k : A -> M W B) s : bindM (liftO (Ok a)) k s = k a s.
Proof. done. Qed.

Lemma bindM_ok {W A B} (m : M W A) (k : A -> M W B) s b s' :
  bindM m k s = Done (Ok b) s' -> exists a s1, m s = Done (Ok a) s1 /\ k a s1 = Done (Ok b) s'.
Proof. unfold bindM. destruct (m s) as [[a| |] s1|]; try done. eauto. Qed.

Lemma refinesM_ext_l {W A} (m1 m2 m' : M W A) : (forall s, m1 s = m2 s) -> refinesM m2 m' -> refinesM m1 m'.
Proof. intros He Hr s. rewrite He. apply Hr. Qed.

Lemma refinesM_ext_r {W A} (m m1 m2 : M W A) : (forall s, m1 s = m2 s) -> refinesM m m1 -> refinesM m m2.
Proof. intros He Hr s. rewrite <- He. apply Hr. Qed.

Create HintDb refine discriminated.
#[export] Hint Resolve refinesM_bind refinesM_no_fuel : refine.

(** Walk two computations of the same shape in step. *)
Ltac step_in :=
  repeat match goal with
  | |- refinesM ?m ?m => reflexivity
  | |- refinesM no_fuel _ => apply refinesM_no_fuel
  | |- refinesM (liftO Crash) _ => by apply refinesM_liftO_wrong
  | |- refinesM (bindM _ _) (bindM _ _) => apply refinesM_bind; [|intros ?]
  | |- refinesM (let '(_, _) := ?p in _) _ => destruct p
  | |- refinesM (match ?x with _ => _ end) (match ?x with _ => _ end) => destruct x
  | H : context [refinesM] |- refinesM _ _ => solve [apply H; eauto]
  end.

(** ** What a pass may change *)

Class Transforms (R R' : CallResolver) (tc : IRFunction -> IRFunction) := {
  tr_order : cr_built_constant_order R' = cr_built_constant_order R;
  tr_constant : forall s, cr_constant_value R' s = cr_constant_value R s;
  tr_enum : forall s, cr_enum_decl R' s = cr_enum_decl R s;
  tr_struct : forall s, cr_struct_decl R' s = cr_struct_decl R s;
  tr_resolve : forall s, cr_resolve R' s = tc <$> cr_resolve R s;
  tr_header : forall f, tc f = with_blocks f (blocks (tc f));
  tr_regular : forall f, kind f <> Regular -> tc f = f;
}.

Lemma transforms_id R : Transforms R R id.
Proof.
  split; try done.
  - intros s. by destruct (cr_resolve R s).
  - by intros [].
Qed.

Definition known (R : CallResolver) (f : IRFunction) : Prop := exists s, cr_resolve R s = Some f.

Definition is_receive (i : IRInstruction) : bool := match i with Receive _ _ _ _ => true | _ => false end.

Lemma execute_instructions_cons {W} `{Host W} oc R call call_closure n i rest term fr :
  is_receive i = false ->
  execute_instructions (W:=W) oc R call call_closure n (i :: rest) term fr =
  let! fr := release_dead_registers R i rest term fr in
  let! fr := execute_instruction oc R call call_closure i fr in
  execute_instructions oc R call call_closure n rest term fr.
Proof. by destruct i. Qed.

Section Congruence.
Context {W : Type} `{Host W} (oc : bool).
Context (R R' : CallResolver) (tc : IRFunction -> IRFunction) `{!Transforms R R' tc}.

Lemma resolve_tc s : cr_resolve R' s = tc <$> cr_resolve R s.
Proof. apply tr_resolve. Qed.
Lemma enum_tc s : cr_enum_decl R' s = cr_enum_decl R s.
Proof. apply tr_enum. Qed.
Lemma constant_tc s : cr_constant_value R' s = cr_constant_value R s.
Proof. apply tr_constant. Qed.
Lemma struct_tc s : cr_struct_decl R' s = cr_struct_decl R s.
Proof. apply tr_struct. Qed.
Lemma kind_tc f : kind (tc f) = kind f.
Proof. by rewrite (tr_header (R:=R) (R':=R') f). Qed.
Lemma params_tc f : params (tc f) = params f.
Proof. by rewrite (tr_header (R:=R) (R':=R') f). Qed.
Lemma return_type_tc f : return_type (tc f) = return_type f.
Proof. by rewrite (tr_header (R:=R) (R':=R') f). Qed.
Lemma symbol_tc f : symbol (tc f) = symbol f.
Proof. by rewrite (tr_header (R:=R) (R':=R') f). Qed.

Lemma consuming_kind_tc f : consuming_kind (tc f) = consuming_kind f.
Proof. unfold consuming_kind. by rewrite kind_tc. Qed.

Lemma pooled_constant_tc cv : materialize_pooled_constant R' cv = materialize_pooled_constant R cv.
Proof.
  revert cv. fix IH 1. intros [init ty|tag ty|v|fields ty]; simpl; try done.
  - by rewrite enum_tc.
  - f_equal. clear ty. induction fields as [|cv fields IHf]; [done|]. rewrite IH. destruct (materialize_pooled_constant R cv); simpl; try done.
    by rewrite IHf.
Qed.

Lemma materialize_enum_tc sym tag payload fr : materialize_enum R' sym tag payload fr = materialize_enum R sym tag payload fr.
Proof. unfold materialize_enum. by rewrite enum_tc. Qed.

Lemma consuming_receiver_tc i : consuming_receiver R' i = consuming_receiver R i.
Proof.
  destruct i; simpl; try done. rewrite resolve_tc. destruct (cr_resolve R callee) as [f|]; simpl; [|done].
  by rewrite consuming_kind_tc.
Qed.

Lemma release_tc i rest term fr s :
  release_dead_registers (W:=W) R' i rest term fr s = release_dead_registers R i rest term fr s.
Proof. unfold release_dead_registers. by rewrite consuming_receiver_tc. Qed.

Lemma dispatch_received_tc msg arms fr s :
  dispatch_received (W:=W) R' msg arms fr s = dispatch_received R msg arms fr s.
Proof.
  unfold dispatch_received, build_business_payload, option_value, option_some_struct_symbol, lifecycle_value.
  destruct (em_tag msg); try done.
  - destruct (find_arm arms RBusiness); [|done]. unfold bindM. simpl.
    destruct (payload_type _) as [| | | | | | | | | | | | | | | | | |l| | | | | |]; try done.
    destruct l as [|? [|[] [|]]]; try done. by rewrite !enum_tc.
  - destruct (find_arm arms RLifecycle); [|done]. destruct (em_value msg); try done. unfold bindM. simpl.
    destruct (payload_type _); try done. by rewrite !enum_tc.
Qed.

Lemma receive_loop_refines n n' pid arms after deadline fr :
  (n <= n')%nat -> refinesM (receive_loop (W:=W) R n pid arms after deadline fr) (receive_loop R' n' pid arms after deadline fr).
Proof.
  revert n'. induction n as [|n IH]; intros n' Hn; [apply refinesM_no_fuel|]. destruct n' as [|n']; [lia|]. simpl.
  apply refinesM_bind; [reflexivity|]. intros popped. apply refinesM_bind.
  - destruct popped; [|reflexivity]. eapply refinesM_ext_r; [|reflexivity]. intros s. symmetry. apply dispatch_received_tc.
  - intros [next|]; step_in. apply IH. lia.
Qed.

Lemma execute_receive_refines n n' arms after fr :
  (n <= n')%nat -> refinesM (execute_receive (W:=W) R n arms after fr) (execute_receive R' n' arms after fr).
Proof. intros Hn. unfold execute_receive. step_in. by apply receive_loop_refines. Qed.

(** How calls are answered, on both sides. *)
Context (call call' : IRFunction -> list Value -> M W Value).
Context (call_closure call_closure' : IRFunction -> list Value -> list Value -> M W Value).
Context (Hcall : forall f args, known R f -> refinesM (call f args) (call' (tc f) args)).
Context (Hclosure : forall f args caps, known R f -> refinesM (call_closure f args caps) (call_closure' (tc f) args caps)).

Lemma resolve_refines {A} s (k k' : IRFunction -> M W A) :
  (forall f, known R f -> refinesM (k f) (k' (tc f))) ->
  refinesM (bindM (liftO (orCrash (cr_resolve R s))) k) (bindM (liftO (orCrash (cr_resolve R' s))) k').
Proof.
  intros Hk st. unfold bindM, liftO. rewrite resolve_tc. destruct (cr_resolve R s) as [f|] eqn:E; simpl; [|by left].
  apply Hk. by exists s.
Qed.

Lemma closures_equal_refines l r : refinesM (closures_equal R call_closure l r) (closures_equal R' call_closure' l r).
Proof.
  unfold closures_equal. apply refinesM_bind; [reflexivity|]. intros [lb lc].
  apply refinesM_bind; [reflexivity|]. intros [rb rc]. destruct (negb _); [reflexivity|].
  assert (forall k k' : IRFunction -> M W bool, (forall f, known R f -> refinesM (k f) (k' (tc f))) ->
    refinesM (bindM (liftO (orCrash (cr_resolve R (lb +:+ ".$eq_env$")))) k)
             (bindM (liftO (orCrash (cr_resolve R' (lb +:+ ".$eq_env$")))) k')) as Hres
    by (intros; by apply resolve_refines).
  destruct lc; [destruct rc; [reflexivity|]|]; apply Hres; intros f Hf; step_in.
Qed.

Lemma execute_instruction_value_refines i fr :
  refinesM (execute_instruction_value oc R call call_closure i fr)
           (execute_instruction_value oc R' call' call_closure' i fr).
Proof.
  destruct i; try reflexivity; simpl.
  - apply resolve_refines. intros f Hf. rewrite consuming_kind_tc. step_in.
  - apply refinesM_bind; [reflexivity|]. intros [body caps]. apply refinesM_bind; [reflexivity|]. intros vs.
    apply resolve_refines. intros f Hf. step_in.
  - do 2 (apply refinesM_bind; [reflexivity|]; intros ?). apply refinesM_bind; [apply closures_equal_refines|reflexivity].
  - rewrite materialize_enum_tc. reflexivity.
  - rewrite constant_tc. apply refinesM_bind; [reflexivity|]. intros cv. destruct cv; try reflexivity;
      by rewrite pooled_constant_tc.
Qed.

Lemma execute_instruction_refines i fr :
  refinesM (execute_instruction oc R call call_closure i fr) (execute_instruction oc R' call' call_closure' i fr).
Proof. unfold execute_instruction. apply refinesM_bind; [apply execute_instruction_value_refines|reflexivity]. Qed.

Lemma execute_instructions_refines n n' insts term fr :
  (n <= n')%nat ->
  refinesM (execute_instructions oc R call call_closure n insts term fr)
           (execute_instructions oc R' call' call_closure' n' insts term fr).
Proof.
  intros Hn. revert fr. induction insts as [|i insts IH]; intros fr; [reflexivity|].
  destruct (is_receive i) eqn:Ei.
  - destruct i; try done. simpl. apply refinesM_bind; [by apply execute_receive_refines|reflexivity].
  - rewrite !execute_instructions_cons by done.
    apply refinesM_bind; [eapply refinesM_ext_r; [intros s; symmetry; apply release_tc|reflexivity]|intros fr1].
    apply refinesM_bind; [apply execute_instruction_refines|apply IH].
Qed.

Lemma run_blocks_refines n n' rn rn' bs current fr :
  (n <= n')%nat -> (rn <= rn')%nat ->
  refinesM (run_blocks oc R call call_closure n rn bs current fr)
           (run_blocks oc R' call' call_closure' n' rn' bs current fr).
Proof.
  intros Hn Hrn. revert n' Hn current fr. induction n as [|n IH]; intros n' Hn current fr; [apply refinesM_no_fuel|].
  destruct n' as [|n']; [lia|]. simpl. apply refinesM_bind; [reflexivity|]. intros block.
  apply refinesM_bind; [by apply execute_instructions_refines|]. intros [[next|] fr1]; [apply IH; lia|].
  apply refinesM_bind; [reflexivity|]. intros [outcome|[next fr2]]; [reflexivity|apply IH; lia].
Qed.

Lemma execute_blocks_refines n n' bs fr :
  (n <= n')%nat ->
  refinesM (execute_blocks oc R call call_closure n bs fr) (execute_blocks oc R' call' call_closure' n' bs fr).
Proof.
  intros Hn. unfold execute_blocks. destruct bs as [|b bs]; [reflexivity|]. by apply run_blocks_refines.
Qed.
End Congruence.

(** ** Functions *)

Section Functions.
Context {W : Type} `{Host W} (oc da : bool).
Context (R R' : CallResolver) (tc : IRFunction -> IRFunction) `{!Transforms R R' tc}.

(** Calls, closure calls and bodies at fuel [n] refine those at fuel [n']. *)
Definition calls_refine (n n' : nat) : Prop := forall f args, known R f ->
  refinesM (W:=W) (execute_function oc da R n f args) (execute_function oc da R' n' (tc f) args).
Definition closures_refine (n n' : nat) : Prop := forall f args caps, known R f ->
  refinesM (W:=W) (execute_closure_function oc da R n f args caps) (execute_closure_function oc da R' n' (tc f) args caps).
Definition bodies_refine (n n' : nat) : Prop := forall f args, known R f -> kind f = Regular ->
  refinesM (W:=W) (execute_regular oc da R n f args) (execute_regular oc da R' n' (tc f) args).

Lemma calls_refine_step n n' : bodies_refine n n' -> calls_refine (S n) (S n').
Proof.
  intros Hbody f args Hf. simpl. rewrite (params_tc R R' tc), (kind_tc R R' tc).
  apply refinesM_bind; [reflexivity|]. intros _.
  destruct (kind f) eqn:Ek; try reflexivity; try (rewrite (tr_regular f) by congruence; reflexivity).
  by apply Hbody.
Qed.

Lemma closures_refine_step n n' : (n <= n')%nat ->
  calls_refine n n' -> closures_refine n n' -> closures_refine (S n) (S n').
Proof.
  intros Hn Hc Hcl f args caps Hf. simpl. rewrite (params_tc R R' tc), (kind_tc R R' tc).
  apply refinesM_bind; [reflexivity|]. intros _.
  destruct (kind f) eqn:Ek; try reflexivity; rewrite (tr_regular f) by congruence;
    (apply refinesM_bind; [reflexivity|]; intros _);
    (apply refinesM_bind; [by apply (execute_blocks_refines oc R R' tc)|reflexivity]).
Qed.

(** A pass has to account for the bodies it rewrites, and for nothing else. *)
Lemma transform_refines :
  (forall n, calls_refine n n -> closures_refine n n -> bodies_refine n n -> bodies_refine (S n) (S n)) ->
  forall n, calls_refine n n /\ closures_refine n n /\ bodies_refine n n.
Proof.
  intros Hstep n. induction n as [|n (IHc & IHcl & IHb)].
  - repeat split; intros ? *; intros; apply refinesM_no_fuel.
  - split; [by apply calls_refine_step|]. split; [by apply closures_refine_step|by apply Hstep].
Qed.

(** *** Entry points *)

Lemma process_body_of_tc wrapper :
  (forall f, cr_resolve R wrapper = Some f -> kind f <> Regular) ->
  process_body_of R' wrapper = tc <$> process_body_of R wrapper.
Proof.
  intros Hk. unfold process_body_of. rewrite (resolve_tc R R' tc).
  destruct (cr_resolve R wrapper) as [f|] eqn:E; simpl; [|done].
  rewrite (tr_regular f) by (by apply Hk).
  destruct (head _) as [body|]; simpl; [|done]. by rewrite (resolve_tc R R' tc).
Qed.

Lemma run_built_inits_refines n order :
  calls_refine n n -> refinesM (W:=W) (run_built_inits oc da R n order) (run_built_inits oc da R' n order).
Proof.
  intros Hc. induction order as [|sym order IH]; simpl; [reflexivity|]. rewrite (constant_tc R R' tc).
  destruct (cr_constant_value R sym) as [[init ty| | |]|]; try reflexivity.
  apply (resolve_refines R R' tc). intros f Hf. apply refinesM_bind; [by apply Hc|]. intros v.
  apply refinesM_bind; [reflexivity|intros _; apply IH].
Qed.

Lemma default_value_refines n ty :
  refinesM (W:=W) (default_value_for_type R n ty) (default_value_for_type R' n ty).
Proof.
  revert ty. induction n as [|n IH]; intros ty; [apply refinesM_no_fuel|].
  set (all R0 := fix all (tys : list IRType) : M W (list Value) :=
        match tys with
        | [] => ret []
        | t :: rest =>
            let! v := default_value_for_type R0 n t in
            let! vs := all rest in
            ret (v :: vs)
        end).
  assert (forall tys, refinesM (all R tys) (all R' tys)) as Hall.
  { induction tys as [|t tys IHt]; simpl; [reflexivity|]. apply refinesM_bind; [apply IH|]. intros v.
    apply refinesM_bind; [apply IHt|reflexivity]. }
  destruct ty; simpl; try reflexivity; fold (all R); fold (all R').
  - rewrite (enum_tc R R' tc). do 2 (apply refinesM_bind; [reflexivity|intros ?]).
    apply refinesM_bind; [|reflexivity]. destruct (vpayload _); try reflexivity;
      (apply refinesM_bind; [apply Hall|reflexivity]).
  - rewrite (struct_tc R R' tc). apply refinesM_bind; [reflexivity|intros ?].
    apply refinesM_bind; [apply Hall|reflexivity].
  - apply refinesM_bind; [apply Hall|reflexivity].
Qed.

Lemma run_entry_body_refines n entry args :
  calls_refine n n ->
  (forall f, cr_resolve R (symbol entry) = Some f -> kind f <> Regular) ->
  refinesM (W:=W) (run_entry_body oc da R n entry args) (run_entry_body oc da R' n entry args).
Proof.
  intros Hc Hk. unfold run_entry_body, build_constants.
  apply refinesM_bind; [rewrite (tr_order (R:=R) (R':=R')); by apply run_built_inits_refines|intros _].
  apply refinesM_bind; [reflexivity|]. intros ty.
  apply refinesM_bind; [destruct (is_argv_shaped ty); [reflexivity|apply default_value_refines]|]. intros v.
  rewrite process_body_of_tc by done. intros s. unfold bindM, liftO.
  destruct (process_body_of R (symbol entry)) as [f|] eqn:E; simpl; [|by left]. apply Hc.
  unfold process_body_of in E. destruct (cr_resolve R (symbol entry)); simpl in E; [|done].
  destruct (head _) as [b|]; simpl in E; [|done]. by exists b.
Qed.
End Functions.

(** ** More fuel never changes a result *)

Section Fuel.
Context {W : Type} `{Host W} (oc da : bool) (R : CallResolver).

Lemma fuel_mono_all n : forall n', (n <= n')%nat ->
  calls_refine (W:=W) oc da R R id n n' /\ closures_refine (W:=W) oc da R R id n n' /\
  bodies_refine (W:=W) oc da R R id n n'.
Proof.
  pose proof (transforms_id R) as Tr.
  induction n as [|n IH]; intros n' Hn; [repeat split; intros ? *; intros; apply refinesM_no_fuel|].
  destruct n' as [|n']; [lia|]. destruct (IH n') as (IHc & IHcl & IHb); [lia|].
  split; [by apply calls_refine_step|]. split; [apply closures_refine_step; (done || lia)|].
  intros f args Hf Hk. simpl.
  apply refinesM_bind; [apply (execute_blocks_refines oc R R id); (done || lia)|].
  intros [v|new_args]; [reflexivity|by apply IHb].
Qed.

Lemma execute_regular_mono n n' f args : (n <= n')%nat -> known R f -> kind f = Regular ->
  refinesM (W:=W) (execute_regular oc da R n f args) (execute_regular oc da R n' f args).
Proof. intros Hn Hf Hk. by apply (fuel_mono_all n n' Hn). Qed.

Lemma execute_function_mono n n' f args : (n <= n')%nat -> known R f ->
  refinesM (W:=W) (execute_function oc da R n f args) (execute_function oc da R n' f args).
Proof. intros Hn Hf. by apply (fuel_mono_all n n' Hn). Qed.
End Fuel.
