(* ===== verification/EvalFacts.v ===== *)
(** * Facts about the evaluator

    What proofs about passes need of [Interpreter]: how blocks are found, how a
    straight run of instructions splits, where a [Receive] can go, how a run goes on
    after a terminator, which registers a frame can hold, and that the high water mark
    of a function is past all of them. *)

From stdpp Require Import strings gmap.
From S2P Require Import Prelude Protocol IRValue EvalOps BinaryOps IRFunction Interpreter EvalRefine.
Local Open Scope Z_scope.

(** ** Blocks *)

Lemma find_block_elem bs id b : find_block bs id = Ok b -> b ∈ bs /\ block_id b = id.
Proof.
  unfold find_block. destruct (List.find _ bs) as [b0|] eqn:E; [|done]. intros [= <-].
  apply find_some in E as [Hin Heq]. split; [by apply list_elem_of_In|lia].
Qed.

Lemma find_block_none bs id : (forall b, b ∈ bs -> block_id b <> id) -> find_block bs id = Crash.
Proof.
  intros Hn. unfold find_block. destruct (List.find _ bs) as [b0|] eqn:E; [|done].
  apply find_some in E as [Hin Heq]. apply list_elem_of_In in Hin. apply Hn in Hin. lia.
Qed.

Lemma find_block_unique bs b : NoDup (map block_id bs) -> b ∈ bs -> find_block bs (block_id b) = Ok b.
Proof.
  unfold find_block. induction bs as [|a bs IH]; simpl; intros Hnd Hin; [by apply elem_of_nil in Hin|].
  apply NoDup_cons in Hnd as [Hna Hnd]. apply elem_of_cons in Hin as [<-|Hin]; [by rewrite Z.eqb_refl|].
  destruct (Z.eqb_spec (block_id a) (block_id b)) as [He|_]; [|by apply IH].
  exfalso. apply Hna. rewrite He. by apply list_elem_of_fmap_2.
Qed.

(** A block is found or the lookup panics. *)
Lemma find_block_cases bs id : find_block bs id = Crash \/ exists b, find_block bs id = Ok b.
Proof. unfold find_block. destruct (List.find _ bs); simpl; eauto. Qed.

(** A terminator goes on at one of its targets. *)
Lemma terminator_target bs term fr next fr' :
  execute_terminator bs term fr = Ok (inr (next, fr')) -> next ∈ targets term.
Proof.
  destruct term as [t|cond e t|[]| |]; simpl; try done.
  - destruct (bind_block_params _ _ _); try done. intros [= <- _]. set_solver.
  - destruct (lookup_value _ _) as [[]| |]; simpl; try done. destruct (bind_block_params _ _ _); try done.
    intros [= <- _]. destruct b; set_solver.
  - by destruct (lookup_value _ _).
  - by destruct (lookup_all _ _).
Qed.

Section Plain.
Context {W : Type} `{Host W} (oc : bool) (R : CallResolver).
Context (call : IRFunction -> list Value -> M W Value).
Context (call_closure : IRFunction -> list Value -> list Value -> M W Value).

Local Notation exec := (execute_instructions oc R call call_closure).
Local Notation run := (run_blocks oc R call call_closure).

(** Without consuming sites nothing is released, and the terminator of the block plays
    no part in running its instructions. *)
Lemma exec_app n l1 l2 term term' fr s :
  Forall (fun i => consuming_receiver R i = None) l1 ->
  exec n (l1 ++ l2) term fr s =
  (let! (jump, fr) := exec n l1 term' fr in
   match jump with Some next => ret (Some next, fr) | None => exec n l2 term fr end) s.
Proof.
  intros Hf. revert fr s. induction Hf as [|i l1 Hi _ IH]; intros fr s; [done|].
  destruct (is_receive i) eqn:Er.
  - destruct i; try done. simpl. rewrite bindM_assoc. unfold bindM.
    by destruct (execute_receive R n arms after fr s) as [[[]| |]|].
  - change ((i :: l1) ++ l2) with (i :: (l1 ++ l2)). rewrite !execute_instructions_cons by done.
    unfold release_dead_registers. rewrite Hi, !bindM_assoc.
    apply bindM_ext. intros fr1 s1. etransitivity; [|symmetry; apply bindM_assoc].
    apply bindM_ext. intros fr2 s2. apply IH.
Qed.

Lemma exec_term n l term term' fr s :
  Forall (fun i => consuming_receiver R i = None) l -> exec n l term fr s = exec n l term' fr s.
Proof.
  intros Hf. rewrite <- (app_nil_r l) at 1. rewrite (exec_app n l [] term term') by done. unfold bindM.
  destruct (exec n l term' fr s) as [[[[]]| |]|]; done.
Qed.

Lemma exec_drops n l term fr s : forallb is_drop l = true -> exec n l term fr s = Done (Ok (None, fr)) s.
Proof.
  revert fr s. induction l as [|i l IH]; intros fr s Hd; [done|]. simpl in Hd.
  apply andb_true_iff in Hd as [Hi Hd]. destruct i; try done; by apply IH.
Qed.

(** A [Receive] hands control to one of its targets. *)
Lemma dispatch_received_target m arms fr s b fr' s' :
  dispatch_received R m arms fr s = Done (Ok (Some (b, fr'))) s' -> b ∈ map arm_body arms.
Proof.
  assert (forall t arm, find_arm arms t = Some arm -> arm_body arm ∈ map arm_body arms) as Hfind.
  { intros t arm [Hin _]%find_some. by apply list_elem_of_fmap_2, list_elem_of_In. }
  unfold dispatch_received.
  destruct (em_tag m); try done; (case_match eqn:Ea; [|done]); apply Hfind in Ea.
  - intros (? & ? & _ & (? & ? & _ & [= <- _ _])%bindM_ok)%bindM_ok. done.
  - by intros [= <- _ _].
  - by intros [= <- _ _].
  - case_match; try done. by intros (? & ? & _ & [= <- _ _])%bindM_ok.
Qed.

Lemma receive_loop_target n pid arms after deadline fr s next fr' s' :
  receive_loop R n pid arms after deadline fr s = Done (Ok (next, fr')) s' ->
  next ∈ map arm_body arms ++ option_list (after_body <$> after).
Proof.
  revert fr s. induction n as [|n IH]; intros fr s; [done|].
  intros (popped & s1 & _ & (d & s2 & Hd & Hr)%bindM_ok)%bindM_ok. apply elem_of_app.
  destruct d as [[b fr1]|].
  - left. apply bindM_ok in Hr as (? & ? & _ & [= <- _ _]).
    destruct popped as [m|]; [|done]. by eapply dispatch_received_target.
  - apply bindM_ok in Hr as (expired & s3 & _ & Hr). destruct expired.
    + apply bindM_ok in Hr as (? & ? & _ & Hr). destruct after as [a|]; [|done]. right.
      injection Hr as <- _ _. left.
    + apply bindM_ok in Hr as (? & ? & _ & (? & ? & _ & Hr)%bindM_ok). apply elem_of_app. by eapply IH.
Qed.

Lemma execute_receive_target n arms after fr s next fr' s' :
  execute_receive R n arms after fr s = Done (Ok (next, fr')) s' ->
  next ∈ map arm_body arms ++ option_list (after_body <$> after).
Proof. intros (d & ? & _ & (pid & ? & _ & Hr)%bindM_ok)%bindM_ok. by eapply receive_loop_target. Qed.

Lemma exec_jump n l term fr s next fr' s' :
  exec n l term fr s = Done (Ok (Some next, fr')) s' -> exists i, i ∈ l /\ next ∈ receive_targets i.
Proof.
  revert fr s. induction l as [|i l IH]; intros fr s; [done|]. destruct (is_receive i) eqn:Er.
  - destruct i; try done. intros ([b fr1] & s1 & He & [= -> _ _])%bindM_ok.
    exists (Receive after arms dest result_type). split; [left|]. by eapply execute_receive_target.
  - rewrite execute_instructions_cons by done.
    intros (fr1 & s1 & _ & (fr2 & s2 & _ & (j & Hj & Ht)%IH)%bindM_ok)%bindM_ok. exists j. split; [by right|done].
Qed.

(** The rest of a block's run: the terminator, then the block it goes to. *)
Definition continue_at (n rn : nat) (bs : list IRBasicBlock) (term : IRTerminator) (fr : Frame) : M W BlockOutcome :=
  let! step := liftO (execute_terminator bs term fr) in
  match step with inl outcome => ret outcome | inr (next, fr) => run n rn bs next fr end.

Definition take_leg (n rn : nat) (bs : list IRBasicBlock) (leg : BranchTarget) (fr : Frame) : M W BlockOutcome :=
  let! vs := liftO (bind_block_params leg bs (values fr)) in
  run n rn bs (target_block leg) (with_values fr vs).

Lemma continue_branch n rn bs leg fr s :
  continue_at n rn bs (Branch leg) fr s = take_leg n rn bs leg fr s.
Proof. unfold continue_at, take_leg, bindM, liftO. simpl. by destruct (bind_block_params _ _ _). Qed.

Lemma continue_cond n rn bs cond e t fr s :
  continue_at n rn bs (CondBranch cond e t) fr s =
  (let! v := liftO (lookup_value (values fr) cond) in
   match v with VBool c => take_leg n rn bs (if c then t else e) fr | _ => liftO (Err TypeMismatch) end) s.
Proof.
  unfold continue_at, take_leg, bindM, liftO. simpl. destruct (lookup_value (values fr) cond) as [v| |]; try done.
  destruct v; try done. simpl. by destruct (bind_block_params _ _ _).
Qed.

(** A terminator that leaves the frame does not look at the blocks. *)
Definition leave (term : IRTerminator) (fr : Frame) : Outcome BlockOutcome :=
  match term with
  | Return None => Ok (BDone VUnit)
  | Return (Some id) => let* v := lookup_value (values fr) id in Ok (BDone v)
  | TailCall args _ => let* vs := lookup_all (values fr) args in Ok (TailRestart vs)
  | _ => Err UnreachableExecuted
  end.

Lemma continue_leave n rn bs term fr s : targets term = [] -> continue_at n rn bs term fr s = liftO (leave term fr) s.
Proof.
  unfold continue_at, bindM, liftO. destruct term as [| |[x|]|args callee|]; simpl; try done.
  - by destruct (lookup_value _ _).
  - by destruct (lookup_all _ _).
Qed.

Lemma run_S n rn bs current fr s :
  run (S n) rn bs current fr s =
  (let! block := liftO (find_block bs current) in
   let! (jump, fr) := exec rn (instructions block) (terminator block) fr in
   match jump with
   | Some next => run n rn bs next fr
   | None => continue_at n rn bs (terminator block) fr
   end) s.
Proof. done. Qed.

(** The rest of a block from a point inside it, with what follows the whole run. *)
Definition rest_of {A} (n rn : nat) (bs : list IRBasicBlock) (term : IRTerminator) (fin : BlockOutcome -> M W A)
    (jf : option IRBlockId * Frame) : M W A :=
  let '(jump, fr) := jf in
  match jump with
  | Some next => let! o := run n rn bs next fr in fin o
  | None => let! o := continue_at n rn bs term fr in fin o
  end.

Lemma run_rest {A} n rn bs current fr b (fin : BlockOutcome -> M W A) s :
  find_block bs current = Ok b ->
  (let! o := run (S n) rn bs current fr in fin o) s =
  (let! jf := exec rn (instructions b) (terminator b) fr in rest_of n rn bs (terminator b) fin jf) s.
Proof.
  intros Hb. etransitivity; [apply bindM_cong, run_S|]. rewrite Hb.
  etransitivity; [apply bindM_assoc|]. rewrite bindM_liftO. etransitivity; [apply bindM_assoc|].
  apply bindM_ext. by intros [[next|] fr1] s1.
Qed.

Lemma rest_app {A} n rn bs l1 l2 term term' fr (fin : BlockOutcome -> M W A) s :
  Forall (fun i => consuming_receiver R i = None) l1 ->
  (let! jf := exec rn (l1 ++ l2) term fr in rest_of n rn bs term fin jf) s =
  (let! (jump, fr) := exec rn l1 term' fr in
   match jump with
   | Some next => let! o := run n rn bs next fr in fin o
   | None => let! jf := exec rn l2 term fr in rest_of n rn bs term fin jf
   end) s.
Proof.
  intros Hf. etransitivity; [apply bindM_cong, exec_app, Hf|]. etransitivity; [apply bindM_assoc|].
  apply bindM_ext. by intros [[next|] fr1] s1.
Qed.
End Plain.

(** ** Frames *)

Definition bounded (n : Z) (fr : Frame) : Prop := forall id v, values fr !! id = Some v -> id < n.

Lemma bounded_set n fr id v : bounded n fr -> id < n -> bounded n (set_value fr id v).
Proof. intros Hb Hid x w. simpl. intros [[<- _]|[_ ?]]%lookup_insert_Some; [done|by eapply Hb]. Qed.

Lemma bounded_mono n n' fr : bounded n fr -> n <= n' -> bounded n' fr.
Proof. intros Hb Hn id v Hv. apply Hb in Hv. lia. Qed.

Lemma lookup_all_cases vs ids : (exists l, lookup_all vs ids = Ok l) \/ exists id, lookup_all vs ids = Err (ValueUndefined id).
Proof.
  induction ids as [|id ids IH]; simpl; [eauto|]. unfold lookup_value. destruct (vs !! id); simpl; [|eauto].
  destruct IH as [[l ->]|[x ->]]; simpl; eauto.
Qed.

(** Looking up only depends on the registers that are there. *)
Lemma lookup_all_agree vs vs' ids l :
  lookup_all vs ids = Ok l -> (forall id v, vs !! id = Some v -> vs' !! id = Some v) -> lookup_all vs' ids = Ok l.
Proof.
  intros Hl Ha. revert l Hl. induction ids as [|id ids IH]; intros l; simpl; [done|]. unfold lookup_value.
  destruct (vs !! id) as [v|] eqn:E; simpl; [|done]. rewrite (Ha _ _ E). simpl.
  destruct (lookup_all vs ids) as [l1| |]; simpl; try done. intros [= <-]. by rewrite (IH l1).
Qed.

Lemma call_args_plain args fr : call_args false args fr = let* vs := lookup_all (values fr) args in Ok (vs, fr).
Proof.
  induction args as [|a args IH]; simpl; [done|]. destruct (lookup_value _ _); simpl; try done. rewrite IH.
  by destruct (lookup_all _ _).
Qed.

(** ** Registers stay below the high water mark *)

(** Take a successful run apart into its binds. *)
Ltac peel_bind Hr :=
  repeat first
    [ apply bindM_ok in Hr as (? & ? & ? & Hr)
    | match type of Hr with context [let '(_, _) := ?p in _] => destruct p end ].

Lemma match_segments_values checks bytes n segments fr b fr' :
  match_segments checks bytes n segments fr = Ok (b, fr') -> values fr' = values fr.
Proof.
  revert fr. induction segments as [|g segments IH]; intros fr; simpl; [by intros [= _ <-]|].
  destruct (match_segment checks bytes n g fr) as [[b1 fr1]| |] eqn:E; simpl; try done.
  assert (values fr1 = values fr) as <-.
  { revert E. destruct g as [| | | |? [l|] ty]; simpl; unfold bindO;
      repeat case_match; intros; simplify_eq; done. }
  destruct b1; [apply IH|by intros [= _ <-]].
Qed.

Lemma execute_binary_match_values checks layout segments v fr b fr' :
  execute_binary_match checks layout segments v fr = Ok (b, fr') -> values fr' = values fr.
Proof.
  unfold execute_binary_match. destruct (subject_payload v) as [[bytes n]|]; [|done].
  destruct (negb _); [by intros [= _ <-]|apply match_segments_values].
Qed.

Section Bounded.
Context {W : Type} `{Host W} (oc : bool) (R : CallResolver).
Context (call : IRFunction -> list Value -> M W Value).
Context (call_closure : IRFunction -> list Value -> list Value -> M W Value).

Lemma call_args_values consuming args fr vs fr' :
  call_args consuming args fr = Ok (vs, fr') -> forall id v, values fr' !! id = Some v -> values fr !! id = Some v.
Proof.
  revert consuming fr vs. induction args as [|a args IH]; intros consuming fr vs; simpl; [by intros [= _ <-]|].
  destruct (lookup_value _ _); simpl; try done.
  destruct (call_args false args _) as [[vs1 fr1]| |] eqn:E; simpl; try done. intros [= _ <-] id v Hv.
  apply (IH _ _ _ E) in Hv. destruct consuming; [|done]. simpl in Hv. by apply lookup_delete_Some in Hv as [_ ?].
Qed.

(** An instruction adds no register but the one it defines. *)
Lemma execute_instruction_value_values i fr s r fr' s' :
  execute_instruction_value oc R call call_closure i fr s = Done (Ok (r, fr')) s' ->
  forall id v, values fr' !! id = Some v -> values fr !! id = Some v.
Proof.
  destruct i; intros Hr; peel_bind Hr; try (by injection Hr as _ <- _); try done.
  - injection Hr as _ <- _. injection H1 as H1 _. apply execute_binary_match_values in H1. by rewrite H1.
  - injection Hr as _ <- _. injection H1 as H1 _. by eapply call_args_values.
  - destruct consumes_lhs; [|peel_bind Hr; by injection Hr as _ <- _].
    peel_bind Hr. intros id v Hv. assert (fr' = with_values fr (delete lhs (values fr))) as ->.
    { destruct (extend_unique_bytes _ _ _); [by injection Hr as _ <- _|]. peel_bind Hr. by injection Hr as _ <- _. }
    simpl in Hv. by apply lookup_delete_Some in Hv as [_ ?].
Qed.

Lemma execute_instruction_bounded n i fr s fr' s' :
  execute_instruction oc R call call_closure i fr s = Done (Ok fr') s' ->
  bounded n fr -> (forall d, instr_dest i = Some d -> d < n) -> bounded n fr'.
Proof.
  unfold execute_instruction. intros ([r fr1] & s1 & He & Hr)%bindM_ok Hb Hd.
  assert (bounded n fr1) as Hb1.
  { intros id v Hv. eapply Hb. by eapply execute_instruction_value_values. }
  destruct (instr_dest i) as [d|], r as [v|]; try done; injection Hr as <- _; [|done].
  apply bounded_set; auto.
Qed.

Lemma dispatch_received_values m arms fr s b fr' s' :
  dispatch_received R m arms fr s = Done (Ok (Some (b, fr'))) s' -> values fr' = values fr.
Proof.
  unfold dispatch_received. destruct (em_tag m); try done; (case_match; [|done]); intros Hr.
  - peel_bind Hr. by injection Hr as _ <- _.
  - by injection Hr as _ <- _.
  - by injection Hr as _ <- _.
  - case_match; try done. peel_bind Hr. by injection Hr as _ <- _.
Qed.

Lemma receive_loop_values n pid arms after deadline fr s next fr' s' :
  receive_loop R n pid arms after deadline fr s = Done (Ok (next, fr')) s' -> values fr' = values fr.
Proof.
  revert fr s. induction n as [|n IH]; intros fr s; [done|].
  intros (popped & s1 & _ & (d & s2 & Hd & Hr)%bindM_ok)%bindM_ok. destruct d as [[b fr1]|].
  - apply bindM_ok in Hr as (? & ? & _ & [= _ <- _]). destruct popped as [m|]; [|done].
    by eapply dispatch_received_values.
  - apply bindM_ok in Hr as (expired & s3 & _ & Hr). destruct expired; peel_bind Hr; [|by eapply IH].
    destruct after as [a|]; [|done]. by injection Hr as _ <- _.
Qed.

Lemma execute_receive_values n arms after fr s next fr' s' :
  execute_receive R n arms after fr s = Done (Ok (next, fr')) s' -> values fr' = values fr.
Proof. intros (d & ? & _ & (pid & ? & _ & Hr)%bindM_ok)%bindM_ok. by eapply receive_loop_values. Qed.

Lemma exec_bounded n rn insts term fr s jump fr' s' :
  execute_instructions oc R call call_closure rn insts term fr s = Done (Ok (jump, fr')) s' ->
  Forall (fun i => consuming_receiver R i = None) insts ->
  Forall (fun i => forall d, instr_dest i = Some d -> d < n) insts ->
  bounded n fr -> bounded n fr'.
Proof.
  intros He Hfree. revert fr s He. induction Hfree as [|i l Hi _ IH]; intros fr s; [by intros [= _ <- _]|].
  destruct (is_receive i) eqn:Er.
  - destruct i; try done. intros ([b fr1] & s1 & He & [= _ <- _])%bindM_ok _ Hb.
    apply execute_receive_values in He. unfold bounded. by rewrite He.
  - rewrite execute_instructions_cons by done. unfold release_dead_registers. rewrite Hi.
    intros (fr1 & s1 & [= <- <-] & (fr2 & s2 & He & Hr)%bindM_ok)%bindM_ok [Hd Hl]%Forall_cons Hb.
    eapply IH; try done. by eapply execute_instruction_bounded.
Qed.
End Bounded.

Lemma bind_all_bounded n bs vs :
  (forall id v, vs !! id = Some v -> id < n) -> Forall (fun b => b.1 < n) bs ->
  forall id v, bind_all vs bs !! id = Some v -> id < n.
Proof.
  intros Hvs Hbs. revert vs Hvs. induction Hbs as [|[d w] bs Hd _ IH]; intros vs Hvs; [done|]. simpl.
  apply IH. intros id v [[<- _]|[_ ?]]%lookup_insert_Some; [done|by eapply Hvs].
Qed.

Lemma edge_bindings_dests vs args ps bs :
  edge_bindings vs args ps = Ok bs -> Forall (fun b => exists p, p ∈ ps /\ b.1 = param_dest p) bs.
Proof.
  revert ps bs. induction args as [|a args IH]; intros [|p ps] bs; simpl; try (by intros [= <-]).
  destruct (lookup_value vs a); simpl; try done. destruct (edge_bindings vs args ps) as [l| |] eqn:E; simpl; try done.
  intros [= <-]. constructor.
  - exists p. split; [left|done].
  - eapply Forall_impl; [by apply IH|]. intros b (q & Hq & ?). exists q. split; [by right|done].
Qed.

(** The high water mark is past every register of the function. *)
Lemma fold_max_ge {A} (g : Z -> A -> Z) l z : (forall z a, z <= g z a) -> z <= fold_left g l z.
Proof.
  intros Hg. revert z. induction l as [|a l IH]; intros z; simpl; [lia|]. specialize (IH (g z a)). specialize (Hg z a). lia.
Qed.

Lemma fold_max_elem {A} (g : Z -> A -> Z) l z a (P : Z -> Prop) :
  (forall z a, z <= g z a) -> (forall z z', P z -> z <= z' -> P z') -> a ∈ l -> (forall z, P (g z a)) -> P (fold_left g l z).
Proof.
  intros Hg Hmono Ha HP. revert z. induction l as [|b l IH]; intros z; [by apply elem_of_nil in Ha|]. simpl.
  apply elem_of_cons in Ha as [<-|Ha]; [|by apply IH]. eapply Hmono; [apply HP|]. by apply fold_max_ge.
Qed.

Lemma block_high_water_ge m b : m <= block_high_water m b.
Proof.
  unfold block_high_water. etransitivity; [|apply fold_max_ge; intros; case_match; lia]. apply fold_max_ge. lia.
Qed.

Lemma block_high_water_param m b p : p ∈ block_params b -> param_dest p < block_high_water m b.
Proof.
  intros Hp. unfold block_high_water. eapply Z.lt_le_trans; [|apply fold_max_ge; intros; case_match; lia].
  apply (fold_max_elem _ _ _ p (fun z => param_dest p < z)); [lia|lia|done|lia].
Qed.

Lemma block_high_water_dest m b i d : i ∈ instructions b -> instr_dest i = Some d -> d < block_high_water m b.
Proof.
  intros Hi Hd. unfold block_high_water.
  apply (fold_max_elem _ _ _ i (fun z => d < z)); [intros; case_match; lia|lia|done|]. intros z. rewrite Hd. lia.
Qed.

Lemma next_value_block f b (P : Z -> Prop) :
  (forall z z', P z -> z <= z' -> P z') -> b ∈ blocks f -> (forall m, P (block_high_water m b)) -> P (next_value_id f).
Proof.
  intros Hm Hb HP. unfold next_value_id, high_water_mark. by eapply fold_max_elem; try done; apply block_high_water_ge.
Qed.

Lemma next_value_dest f b i d : b ∈ blocks f -> i ∈ instructions b -> instr_dest i = Some d -> d < next_value_id f.
Proof. intros Hb Hi Hd. apply (next_value_block f b); [lia|done|]. intros m. by eapply block_high_water_dest. Qed.

Lemma next_value_block_param f b p : b ∈ blocks f -> p ∈ block_params b -> param_dest p < next_value_id f.
Proof. intros Hb Hp. apply (next_value_block f b); [lia|done|]. intros m. by apply block_high_water_param. Qed.

Lemma next_value_param f p : p ∈ params f -> param_id p < next_value_id f.
Proof.
  intros Hp. unfold next_value_id, high_water_mark.
  eapply Z.lt_le_trans; [|apply fold_max_ge, block_high_water_ge]. unfold param_high_water_mark.
  assert (param_id p + 1 ∈ map (fun p => param_id p + 1) (params f)) as Hin
    by (by apply (list_elem_of_fmap_2 (fun p => param_id p + 1))).
  destruct (map _ (params f)) as [|m ms]; [by apply elem_of_nil in Hin|].
  assert (param_id p + 1 <= fold_left Z.max ms m); [|lia].
  apply elem_of_cons in Hin as [->|Hin]; [apply fold_max_ge; lia|].
  by apply (fold_max_elem _ _ _ (param_id p + 1) (fun z => param_id p + 1 <= z)); try done; lia.
Qed.

Lemma seed_frame_bounded f caps args : bounded (next_value_id f) (seed_frame caps (params f) args).
Proof.
  intros id v. simpl. apply bind_all_bounded; [intros ? ?; by rewrite lookup_empty|].
  apply Forall_forall. intros [d w] Hd. apply elem_of_zip_l in Hd. simpl.
  apply list_elem_of_fmap in Hd as (p & -> & Hp). by apply next_value_param.
Qed.

(** The result of a body is already coerced to the declared return type. *)
Lemma coerce_idem v ty : coerce_return (coerce_return v ty) ty = coerce_return v ty.
Proof. by destruct ty. Qed.

Lemma execute_regular_coerced {W} `{Host W} oc da R n f args s v s' :
  execute_regular (W:=W) oc da R n f args s = Done (Ok v) s' -> coerce_return v (return_type f) = v.
Proof.
  revert args s. induction n as [|n IH]; intros args s; [done|].
  intros ([w|new_args] & s1 & _ & Hr)%bindM_ok; [|by eapply IH]. injection Hr as <- _. apply coerce_idem.
Qed.

(** Calling a regular function runs its body, with one unit of fuel more. *)
Lemma execute_function_regular {W} `{Host W} oc da R n f args :
  known R f -> kind f = Regular ->
  refinesM (W:=W) (execute_function oc da R n f args) (execute_regular oc da R n f args).
Proof.
  intros Hf Hk. destruct n as [|n]; [apply refinesM_no_fuel|].
  transitivity (execute_regular (W:=W) oc da R n f args); [|apply execute_regular_mono; (done || lia)].
  intros s. cbn [execute_function]. unfold bindM, debug_assert_len. rewrite Hk. destruct (_ && _); [by left|reflexivity].
Qed.

(** ** A host for examples *)

(** A host in which nothing outside the process happens. *)
#[export] Instance silent_host : Host unit := {
  intrinsic_dispatch _ _ _ w := (Crash, w);
  extern_dispatch _ _ w := (None, w);
  foreign_call _ _ w := (None, w);
  spawn_child _ _ w := (0, w);
  process_exit _ w := w;
  set_priority _ w := w;
  reduce w := (false, w);
  yield_once w := w;
  current_pid _ := 1;
  instant_now w := (0, w);
  pop_received _ w := (None, w);
  clear_deadline _ w := w;
  park_receive _ _ w := w;
  set_context _ w := w;
  rc_ptr_eq _ _ _ _ := false;
  rc_unique _ _ _ := false;
}.
