(* ===== verification/SealSound.v ===== *)
(** * Sealed code reads no undefined register

    What the seal's dominance check means for the evaluator: a run of a program whose
    functions are sealed never ends in [ValueUndefined], the error for the read of a
    register that holds nothing.

    The seal alone does not give this. It counts the result of a [receive] as defined
    although the evaluator never binds it, it does not look at block parameters of the
    entry block or of the arms of a [receive], and it knows nothing of the consuming
    sites, which take a register's value away. [body_ready] decides what lowering keeps
    to in these points; [receive_result_gap] and [entry_param_gap] show that each is
    needed. *)

From stdpp Require Import strings gmap.
From S2P Require Import Prelude Protocol IRValue IntrinsicId EvalOps BinaryOps IRFunction Dominators Seal Interpreter EvalRefine EvalFacts.
Local Open Scope Z_scope.

(** ** Outcomes and runs without undefined registers *)

Definition clean {A} (o : Outcome A) : bool := match o with Err (ValueUndefined _) => false | _ => true end.

Definition clean_run {S A} (r : Run S A) : bool := match r with Done o _ => clean o | OutOfFuel => true end.

Definition cleanM {W A} (m : M W A) : Prop := forall s, clean_run (m s) = true.

Lemma clean_bindO {A B} (m : Outcome A) (k : A -> Outcome B) :
  clean m = true -> (forall a, m = Ok a -> clean (k a) = true) -> clean (bindO m k) = true.
Proof. destruct m; simpl; auto. Qed.

Lemma clean_orCrash {A} (o : option A) : clean (orCrash o) = true.
Proof. by destruct o. Qed.

Lemma clean_bind {W A B} (m : M W A) (k : A -> M W B) s :
  clean_run (m s) = true -> (forall a s', m s = Done (Ok a) s' -> clean_run (k a s') = true) ->
  clean_run (bindM m k s) = true.
Proof. unfold bindM. intros Hm Hk. destruct (m s) as [[a|e|] s'|]; simpl in *; auto. Qed.

Lemma cleanM_bind {W A B} (m : M W A) (k : A -> M W B) : cleanM m -> (forall a, cleanM (k a)) -> cleanM (bindM m k).
Proof. intros Hm Hk s. apply clean_bind; [apply Hm|]. intros a s' _. apply Hk. Qed.

Lemma cleanM_liftO {W A} (o : Outcome A) : clean o = true -> cleanM (W:=W) (liftO o).
Proof. by intros Ho s. Qed.

Lemma cleanM_pure {W A} (a : A) : cleanM (W:=W) (ret a).
Proof. by intros s. Qed.

Lemma cleanM_ask {W A} (f : W -> A) : cleanM (ask f).
Proof. by intros s. Qed.

Lemma cleanM_act {W} (f : W -> W) : cleanM (act f).
Proof. by intros s. Qed.

Lemma cleanM_perform {W A} (f : W -> A * W) : cleanM (perform f).
Proof. intros s. unfold perform. by destruct (f (world s)). Qed.

Create HintDb clean discriminated.
#[export] Hint Resolve cleanM_bind cleanM_liftO cleanM_pure cleanM_ask cleanM_act cleanM_perform clean_orCrash : clean.
#[export] Hint Extern 0 (clean _ = true) => reflexivity : clean.

(** Outcomes of helpers that look at no register. *)
Ltac clean_cases :=
  repeat first
    [ reflexivity | assumption
    | apply clean_orCrash
    | apply clean_bindO; [|intros ? ?]
    | match goal with
      | |- clean (match ?x with _ => _ end) = true => destruct x
      | |- clean (let '(_, _) := ?x in _) = true => destruct x
      end ].

Lemma clean_int_arith oc op ty l r : clean (apply_int_arith oc op ty l r) = true.
Proof. unfold apply_int_arith, require_ints, i128_result. clean_cases. Qed.

Lemma clean_int_compare op ty l r : clean (apply_int_compare op ty l r) = true.
Proof. unfold apply_int_compare, require_ints. clean_cases. Qed.

Lemma clean_float_arith op l r : clean (apply_float_arith op l r) = true.
Proof. unfold apply_float_arith, require_floats, float_arith. clean_cases. Qed.

Lemma clean_float_compare op l r : clean (apply_float_compare op l r) = true.
Proof. unfold apply_float_compare, require_floats, float_compare. clean_cases. Qed.

Lemma clean_binary_op oc op ty l r : clean (apply_binary_op oc op ty l r) = true.
Proof.
  unfold apply_binary_op. destruct op; try (destruct (is_float ty));
    first [apply clean_int_arith | apply clean_int_compare | apply clean_float_arith | apply clean_float_compare
          | unfold apply_equality; clean_cases].
Qed.

Lemma clean_unary_op op ty v : clean (apply_unary_op op ty v) = true.
Proof. unfold apply_unary_op. clean_cases. Qed.

Lemma clean_string bytes : clean (value_string bytes) = true.
Proof. unfold value_string. clean_cases. Qed.

Lemma clean_concat k l r : clean (concat_values k l r) = true.
Proof. unfold concat_values. clean_cases; apply clean_string. Qed.

Lemma clean_match_segments oc bytes n segs fr : clean (match_segments oc bytes n segs fr) = true.
Proof.
  revert fr. induction segs as [|g segs IH]; intros fr; simpl; [done|].
  apply clean_bindO; [unfold match_segment; clean_cases|]. intros [b fr'] _. by destruct b.
Qed.

Lemma clean_binary_match oc layout segs v fr : clean (execute_binary_match oc layout segs v fr) = true.
Proof. unfold execute_binary_match. destruct (subject_payload v) as [[bytes n]|]; [|done].
  destruct (negb _); [done|apply clean_match_segments]. Qed.

(** ** Operands that are there *)

(** Every register of the list holds a value. *)
Definition present (vs : gmap ValueId Value) (ids : list ValueId) : Prop := forall id, id ∈ ids -> is_Some (vs !! id).

Lemma present_lookup vs ids id : present vs ids -> id ∈ ids -> exists v, lookup_value vs id = Ok v.
Proof. intros Hp Hid. destruct (Hp id Hid) as [v Hv]. exists v. unfold lookup_value. by rewrite Hv. Qed.

Lemma clean_lookup vs ids id : present vs ids -> id ∈ ids -> clean (lookup_value vs id) = true.
Proof. intros Hp Hid. by destruct (present_lookup vs ids id Hp Hid) as [v ->]. Qed.

Lemma clean_lookup_all vs ids : present vs ids -> clean (lookup_all vs ids) = true.
Proof.
  intros Hp. induction ids as [|id ids IH]; [done|]. simpl. apply clean_bindO.
  - eapply clean_lookup; [exact Hp|left].
  - intros v _. apply clean_bindO; [|done]. apply IH. intros x Hx. apply Hp. by right.
Qed.

Lemma clean_construct oc layout segs fr :
  present (values fr) (map segment_value segs) -> clean (construct_binary_literal oc layout segs fr) = true.
Proof.
  intros Hp. unfold construct_binary_literal. apply clean_bindO; [|intros b _; by destruct (byte_aligned layout)].
  generalize (zeros (div_ceil8 (total_bits layout))). induction segs as [|g segs IH]; intros buf; [done|].
  simpl. apply clean_bindO; [|intros; apply IH; intros x Hx; apply Hp; by right].
  assert (exists v, lookup_value (values fr) (segment_value g) = Ok v) as [v Hv] by (eapply present_lookup; [exact Hp|left]).
  unfold construct_segment, float_segment_bits. destruct g; simpl in Hv; rewrite Hv; simpl; clean_cases.
Qed.

Lemma clean_enum R sym tag payload fr :
  present (values fr) (match payload with EPStruct fs => map init_value fs | EPTuple es => es | EPUnit => [] end) ->
  clean (materialize_enum R sym tag payload fr) = true.
Proof.
  intros Hp. unfold materialize_enum. apply clean_bindO; [apply clean_orCrash|]. intros decl _.
  apply clean_bindO; [apply clean_orCrash|]. intros variant _. apply clean_bindO; [|done].
  destruct payload as [inits|ids|], (vpayload variant) as [declared|tys|]; try done.
  - apply clean_bindO; [|done]. revert declared. induction inits as [|i inits IH]; intros declared; [done|].
    destruct declared as [|d declared]; [done|]. simpl. apply clean_bindO.
    + eapply clean_lookup; [exact Hp|left].
    + intros v _. apply clean_bindO; [|done]. apply IH. intros x Hx. apply Hp. by right.
  - apply clean_bindO; [by apply clean_lookup_all|done].
Qed.

Lemma clean_pooled R cv : clean (materialize_pooled_constant R cv) = true.
Proof.
  revert cv. fix IH 1. intros [init ty|tag ty|v|fields ty]; simpl; try done.
  - clean_cases.
  - destruct v; try done. apply clean_string.
  - apply clean_bindO; [|done]. clear ty. induction fields as [|f fields IHf]; [done|].
    apply clean_bindO; [apply IH|]. intros v _. apply clean_bindO; [exact IHf|done].
Qed.

(** ** Instructions *)

(** A consuming call does not pass its receiver twice. *)
Definition consuming_ok (R : CallResolver) (i : IRInstruction) : bool :=
  match i, consuming_receiver R i with
  | Call _ _ args, Some r => negb (contains (tail args) r)
  | _, _ => true
  end.

Section Instructions.
Context {W : Type} `{Host W} (oc : bool) (R : CallResolver).
Context (call : IRFunction -> list Value -> M W Value).
Context (call_closure : IRFunction -> list Value -> list Value -> M W Value).
Context (Hcall : forall f args, known R f -> cleanM (call f args)).
Context (Hclosure : forall f args caps, known R f -> cleanM (call_closure f args caps)).

Lemma resolve_clean {A} sym (k : IRFunction -> M W A) :
  (forall f, cr_resolve R sym = Some f -> cleanM (k f)) -> cleanM (bindM (liftO (orCrash (cr_resolve R sym))) k).
Proof.
  intros Hk s. unfold bindM, liftO. destruct (cr_resolve R sym) as [f|] eqn:E; simpl; [|done]. by apply Hk.
Qed.

Lemma closures_equal_clean l r : cleanM (closures_equal R call_closure l r).
Proof.
  unfold closures_equal. apply cleanM_bind; [apply cleanM_liftO; by destruct l|]. intros [lb lc].
  apply cleanM_bind; [apply cleanM_liftO; by destruct r|]. intros [rb rc]. destruct (negb _); [apply cleanM_pure|].
  assert (cleanM (W:=W) (let! eq_glue := liftO (orCrash (cr_resolve R (lb +:+ ".$eq_env$"))) in
    let! v := call_closure eq_glue [r] lc in
    match v with VBool equal => ret equal | _ => liftO (Err TypeMismatch) end)) as Hgo.
  { apply resolve_clean. intros f Hf. apply cleanM_bind; [apply Hclosure; by eexists|].
    intros []; (apply cleanM_pure || by apply cleanM_liftO). }
  destruct lc; [destruct rc; [apply cleanM_pure|exact Hgo]|exact Hgo].
Qed.

Lemma call_args_clean consuming args fr :
  present (values fr) args -> (consuming = true -> forall r, head args = Some r -> r ∉ tail args) ->
  clean (call_args consuming args fr) = true.
Proof.
  intros Hp Hc. destruct args as [|a args]; [done|]. simpl. apply clean_bindO; [eapply clean_lookup; [exact Hp|left]|].
  intros v _. apply clean_bindO; [|by intros [? ?]]. rewrite call_args_plain. apply clean_bindO; [|done].
  apply clean_lookup_all. intros x Hx. destruct consuming; [|apply Hp; by right]. simpl.
  rewrite lookup_delete_ne; [apply Hp; by right|]. intros ->. by apply (Hc eq_refl x).
Qed.

(** One step of a computation whose operands are present. *)
Ltac clean_step Hp :=
  first
    [ apply cleanM_pure | apply cleanM_ask | apply cleanM_act | apply cleanM_perform
    | apply closures_equal_clean | apply clean_binary_op | apply clean_unary_op | apply clean_concat
    | apply clean_binary_match | apply clean_pooled | apply clean_string
    | apply clean_construct; exact Hp | apply clean_enum; exact Hp
    | apply resolve_clean; intros ? ?
    | match goal with H : cr_resolve R _ = Some _ |- _ => (apply Hcall || apply Hclosure); by eexists end
    | apply cleanM_bind; [|intros ?]
    | apply cleanM_liftO
    | apply clean_orCrash
    | reflexivity
    | eapply clean_lookup; [exact Hp|set_solver]
    | apply clean_lookup_all; intros ? ?; apply Hp; set_solver
    | apply clean_bindO; [|intros ? _]
    | match goal with
      | |- cleanM (match ?x with _ => _ end) => destruct x
      | |- clean (match ?x with _ => _ end) = true => destruct x
      end ].

Lemma instruction_value_clean i fr :
  present (values fr) (instruction_operands i) -> consuming_ok R i = true ->
  cleanM (execute_instruction_value oc R call call_closure i fr).
Proof.
  intros Hp Hok. destruct i; simpl in Hp |- *;
    try (by repeat (clean_step Hp; unfold expect_closure, expect_enum, expect_int, expect_struct, expect_tuple, expect_union, nth_value)).
  - apply resolve_clean. intros f Hf. apply cleanM_bind.
    + apply cleanM_liftO, call_args_clean; [exact Hp|]. intros Hcons r Hr Hin. unfold consuming_ok in Hok. simpl in Hok.
      rewrite Hf in Hok. simpl in Hok. rewrite Hcons, Hr in Hok. apply negb_true_iff in Hok.
      rewrite contains_spec, bool_decide_eq_true_2 in Hok by done. done.
    + intros [vs fr']. apply cleanM_bind; [apply Hcall; by eexists|intros v; apply cleanM_pure].
  - apply cleanM_bind; [|intros ?; apply cleanM_pure]. apply cleanM_liftO. destruct value; try done. apply clean_string.
  - apply cleanM_bind; [apply cleanM_liftO, clean_orCrash|]. intros cv. apply cleanM_bind; [|intros ?; apply cleanM_pure].
    destruct cv; try apply cleanM_liftO, clean_pooled. intros s. simpl. apply clean_orCrash.
Qed.

(** Only a consuming site takes a register away, and only its receiver's. *)
Lemma instruction_value_keeps i fr s r fr' s' :
  execute_instruction_value oc R call call_closure i fr s = Done (Ok (r, fr')) s' ->
  forall id v, consuming_receiver R i <> Some id -> values fr !! id = Some v -> values fr' !! id = Some v.
Proof.
  destruct i; intros Hr; peel_bind Hr; try (by injection Hr as _ <- _); try done.
  - injection Hr as _ <- _. injection H1 as H1 _. apply execute_binary_match_values in H1. by rewrite H1.
  - injection Hr as _ <- _. injection H1 as H1 _. injection H0 as H0 _. intros id v Hne Hv. simpl in Hne.
    destruct (cr_resolve R callee) as [g|]; [|done]. injection H0 as ->. simpl in Hne. destruct args as [|a args].
    + by injection H1 as _ <-.
    + simpl in H1. destruct (lookup_value _ a); [|done..]. simpl in H1. rewrite call_args_plain in H1.
      destruct (lookup_all _ args); [|done..]. injection H1 as _ <-. destruct (consuming_kind _); [|done].
      simpl. rewrite lookup_delete_ne; [done|]. intros ->. by apply Hne.
  - destruct consumes_lhs; [|peel_bind Hr; by injection Hr as _ <- _].
    peel_bind Hr. intros id v Hne Hv. assert (fr' = with_values fr (delete lhs (values fr))) as ->.
    { destruct (extend_unique_bytes _ _ _); [by injection Hr as _ <- _|]. peel_bind Hr. by injection Hr as _ <- _. }
    simpl. rewrite lookup_delete_ne; [done|]. intros ->. by apply Hne.
Qed.

Lemma instruction_clean i fr :
  present (values fr) (instruction_operands i) -> consuming_ok R i = true ->
  cleanM (execute_instruction oc R call call_closure i fr).
Proof.
  intros Hp Hok. unfold execute_instruction. apply cleanM_bind; [by apply instruction_value_clean|].
  intros [r fr']. destruct (instr_dest i), r; (apply cleanM_pure || by apply cleanM_liftO).
Qed.

Lemma instruction_keeps i fr s fr' s' :
  execute_instruction oc R call call_closure i fr s = Done (Ok fr') s' ->
  (forall id, consuming_receiver R i <> Some id -> is_Some (values fr !! id) -> is_Some (values fr' !! id)) /\
  (forall d, instr_dest i = Some d -> is_Some (values fr' !! d)).
Proof.
  unfold execute_instruction. intros ([r fr1] & s1 & He & Hr)%bindM_ok.
  pose proof (instruction_value_keeps _ _ _ _ _ _ He) as Hk.
  destruct (instr_dest i) as [d|], r as [v|]; try done; injection Hr as <- _.
  - split.
    + intros id Hne [w Hw]. simpl. destruct (decide (d = id)) as [->|Hd]; [by rewrite lookup_insert_eq|].
      rewrite lookup_insert_ne by done. eexists. by eapply Hk.
    + intros d' [= <-]. simpl. by rewrite lookup_insert_eq.
  - split; [|done]. intros id Hne [w Hw]. eexists. by eapply Hk.
Qed.

Lemma dispatch_clean m arms fr : cleanM (W:=W) (dispatch_received R m arms fr).
Proof.
  unfold dispatch_received. destruct (em_tag m); try apply cleanM_pure; (destruct (find_arm arms _); [|apply cleanM_pure]);
    try apply cleanM_pure.
  - apply cleanM_bind; [apply cleanM_act|intros _]. apply cleanM_bind; [|intros ?; apply cleanM_pure].
    apply cleanM_liftO. unfold build_business_payload, option_some_struct_symbol. clean_cases.
  - destruct (em_value m); try by apply cleanM_liftO. apply cleanM_bind; [|intros ?; apply cleanM_pure].
    apply cleanM_liftO. unfold lifecycle_value. clean_cases.
Qed.

Lemma receive_loop_clean n pid arms after deadline fr : cleanM (W:=W) (receive_loop R n pid arms after deadline fr).
Proof.
  induction n as [|n IH]; [by intros s|]. simpl. apply cleanM_bind; [apply cleanM_perform|]. intros popped.
  apply cleanM_bind; [destruct popped; [apply dispatch_clean|apply cleanM_pure]|]. intros [next|].
  - apply cleanM_bind; [destruct deadline; [apply cleanM_act|apply cleanM_pure]|intros _; apply cleanM_pure].
  - apply cleanM_bind; [destruct deadline; [apply cleanM_bind; [apply cleanM_perform|intros ?; apply cleanM_pure]|apply cleanM_pure]|].
    intros []; (apply cleanM_bind; [apply cleanM_act|intros _]).
    + destruct after; [apply cleanM_pure|by apply cleanM_liftO].
    + apply cleanM_bind; [apply cleanM_act|intros _; exact IH].
Qed.

Lemma receive_clean n arms after fr :
  present (values fr) (match after with Some a => [timeout a] | None => [] end) ->
  cleanM (W:=W) (execute_receive R n arms after fr).
Proof.
  intros Hp. unfold execute_receive. apply cleanM_bind.
  - destruct after as [a|]; [|apply cleanM_pure]. apply cleanM_bind; [apply cleanM_liftO; eapply clean_lookup; [exact Hp|left]|].
    intros []; try by apply cleanM_liftO. apply cleanM_bind; [apply cleanM_perform|intros ?; apply cleanM_pure].
  - intros d. apply cleanM_bind; [apply cleanM_ask|intros pid; apply receive_loop_clean].
Qed.
End Instructions.

(** ** Blocks *)

Definition exits (term : IRTerminator) : bool := match term with Return _ | TailCall _ _ => true | _ => false end.

Definition receive_dest (i : IRInstruction) : option ValueId :=
  match i with Receive _ _ dest _ => Some dest | _ => None end.

(** Registers the scope of the seal does not account for: receivers of consuming
    sites and results of receives. *)
Definition special (R : CallResolver) (bs : list IRBasicBlock) : gset ValueId :=
  let insts := concat (map instructions bs) in
  list_to_set (omap (consuming_receiver R) insts) ∪ list_to_set (omap receive_dest insts).

(** A special register is used only in the block that defined it, before it is taken;
    [local] holds the ones that are there. *)
Definition usable (C local : gset ValueId) (o : ValueId) : bool := negb (bool_decide (o ∈ C)) || bool_decide (o ∈ local).

Fixpoint lives (R : CallResolver) (C local : gset ValueId) (insts : list IRInstruction) (term : IRTerminator) : bool :=
  match insts with
  | [] => forallb (usable C local) (terminator_operands term)
  | i :: rest =>
      forallb (usable C local) (instruction_operands i) && consuming_ok R i &&
      (if is_receive i then is_empty rest && negb (exits term)
       else lives R C (list_to_set (option_list (instr_dest i)) ∪ (local ∖ list_to_set (option_list (consuming_receiver R i))))
              rest term)
  end.

Definition operands (l : list IRInstruction) : list ValueId := concat (map instruction_operands l).

Lemma term_uses_operands t v : term_uses_value t v = contains (terminator_operands t) v.
Proof.
  unfold contains. destruct t as [tg|c e t|[x|]|args callee|]; simpl; try done.
  - rewrite existsb_app, (Z.eqb_sym c). unfold contains. rewrite <- orb_assoc. f_equal. apply orb_comm.
  - rewrite orb_false_r. case_bool_decide as E; symmetry; [apply Z.eqb_eq; congruence|apply Z.eqb_neq; congruence].
Qed.

Lemma uses_operands l v : existsb (fun i => uses_value i v) l = contains (operands l) v.
Proof.
  induction l as [|i l IH]; [done|]. unfold operands, contains in *. simpl. rewrite existsb_app, IH. f_equal.
  apply uses_value_operands.
Qed.

Section Blocks.
Context {W : Type} `{Host W} (oc : bool) (R : CallResolver).
Context (call : IRFunction -> list Value -> M W Value).
Context (call_closure : IRFunction -> list Value -> list Value -> M W Value).
Context (Hcall : forall f args, known R f -> cleanM (call f args)).
Context (Hclosure : forall f args caps, known R f -> cleanM (call_closure f args caps)).

Local Notation exec := (execute_instructions oc R call call_closure).
Local Notation run := (run_blocks oc R call call_closure).

(** A register nothing that is still to run reads. *)
Definition unread (l : list IRInstruction) (term : IRTerminator) (o : ValueId) : Prop :=
  exits term = true /\ o ∉ operands l /\ o ∉ terminator_operands term.

Lemma release_dead_keeps i rest term fr s : exists fr1, release_dead_registers (W:=W) R i rest term fr s = Done (Ok fr1) s /\
  forall o, is_Some (values fr !! o) -> o ∉ omap instr_dest (i :: rest) ->
    is_Some (values fr1 !! o) \/ unread (i :: rest) term o.
Proof.
  unfold release_dead_registers. destruct (consuming_receiver R i) as [r|]; [|by exists fr; eauto].
  assert (forall l vs o, is_Some (vs !! o) -> o ∉ omap instr_dest l -> is_Some (remove_defined l vs !! o)) as Hrem.
  { induction l as [|j l IH]; intros vs o Ho Hn; [done|]. unfold remove_defined. simpl. apply IH.
    - destruct (instr_dest j) as [d|] eqn:Ed; [|done]. rewrite lookup_delete_ne; [done|]. intros ->. apply Hn. simpl. rewrite Ed. left.
    - intros Hin. apply Hn. simpl. destruct (instr_dest j); [by right|done]. }
  set (fr0 := with_values fr (remove_defined (i :: rest) (values fr))).
  assert (exits term = false \/ exits term = true) as [He|He] by (destruct (exits term); auto).
  - exists fr0. split; [by destruct term|]. intros o Ho Hn. left. by apply Hrem.
  - exists (release_exit_registers r (i :: rest) term fr0 (world s)). split; [by destruct term|]. intros o Ho Hn.
    specialize (Hrem _ _ _ Ho Hn). unfold release_exit_registers. destruct (values fr0 !! r) as [rv|]; [|by left].
    destruct Hrem as [v Hv]. simpl values.
    destruct (exit_dead fr0 r rv (i :: rest) term (world s) o v) eqn:Ed.
    + right. unfold exit_dead in Ed. apply andb_true_iff in Ed as [[[_ _]%andb_true_iff Ht]%andb_true_iff Hu].
      rewrite uses_operands in Hu. rewrite term_uses_operands in Ht. apply negb_true_iff in Ht, Hu.
      split; [done|]. split; intros Hin.
      * by rewrite contains_spec, bool_decide_eq_true_2 in Hu.
      * by rewrite contains_spec, bool_decide_eq_true_2 in Ht.
    + left. exists v. by apply map_lookup_filter_Some.
Qed.

Context (C : gset ValueId).

(** What the walk of the seal promises at a point of a block, with [D] defined and
    [local] the special registers that are there. *)
Definition holds (D local : gset ValueId) (l : list IRInstruction) (term : IRTerminator) (vs : gmap ValueId Value) : Prop :=
  forall o, o ∈ D -> usable C local o = true -> is_Some (vs !! o) \/ unread l term o.

Definition accounted (l : list IRInstruction) : Prop := forall i, i ∈ l ->
  (forall r, consuming_receiver R i = Some r -> r ∈ C) /\ (forall d, receive_dest i = Some d -> d ∈ C).

Lemma holds_present D local i rest term vs :
  holds D local (i :: rest) term vs -> forallb (require_in_scope D) (instruction_operands i) = true ->
  forallb (usable C local) (instruction_operands i) = true -> present vs (instruction_operands i).
Proof.
  intros Hh Hs Hu o Ho. rewrite forallb_forall in Hs, Hu. pose proof (proj1 (list_elem_of_In _ _) Ho) as Hin.
  destruct (Hh o) as [?|(_ & Hn & _)]; [exact (bool_decide_eq_true_1 _ (Hs o Hin))|by apply Hu|done|].
  exfalso. apply Hn. unfold operands. simpl. apply elem_of_app. by left.
Qed.

Lemma usable_free local o : o ∉ C -> usable C local o = true.
Proof. intros Hn. unfold usable. by rewrite bool_decide_eq_false_2. Qed.

(** One instruction that is not a receive. *)
Lemma step_holds D D1 local i rest term fr1 s fr2 s2 :
  holds D local (i :: rest) term (values fr1) ->
  execute_instruction oc R call call_closure i fr1 s = Done (Ok fr2) s2 ->
  (match instr_dest i with Some dest => insert_fresh D dest | None => Some D end) = Some D1 ->
  (forall r, consuming_receiver R i = Some r -> r ∈ C) ->
  holds D1 (list_to_set (option_list (instr_dest i)) ∪ (local ∖ list_to_set (option_list (consuming_receiver R i))))
    rest term (values fr2).
Proof.
  intros Hh He HD HC o Ho Hu. destruct (instruction_keeps oc R call call_closure _ _ _ _ _ He) as [Hk Hd].
  destruct (decide (instr_dest i = Some o)) as [Ei|Ei]; [left; by apply Hd|].
  assert (o ∈ D) as HoD.
  { destruct (instr_dest i) as [d|]; [|by simplify_eq]. apply insert_fresh_some in HD as [-> _]. set_solver. }
  assert (usable C local o = true /\ consuming_receiver R i <> Some o) as [Hul Hne].
  { unfold usable in *. destruct (bool_decide (o ∈ C)) eqn:EC; simpl in *.
    - apply bool_decide_eq_true in Hu. rewrite elem_of_union, elem_of_difference, !elem_of_list_to_set in Hu.
      destruct Hu as [Hu|[Hu Hn]].
      + destruct (instr_dest i); simpl in Hu; set_solver.
      + split; [by apply bool_decide_eq_true|]. intros E. rewrite E in Hn. simpl in Hn. set_solver.
    - split; [done|]. intros E. apply HC in E. by apply bool_decide_eq_false in EC. }
  destruct (Hh o HoD Hul) as [Hs|(Hx & Hn & Ht)]; [left; by apply Hk|right].
  split; [done|]. split; [|done]. intros Hin. apply Hn. unfold operands. simpl. apply elem_of_app. by right.
Qed.

Lemma exec_holds rn l term D Dend local fr s :
  seal_instructions D l = Some Dend -> forallb (require_in_scope Dend) (terminator_operands term) = true ->
  lives R C local l term = true -> accounted l -> holds D local l term (values fr) ->
  clean_run (exec rn l term fr s) = true /\
  forall jump fr' s', exec rn l term fr s = Done (Ok (jump, fr')) s' ->
    (jump = None -> present (values fr') (terminator_operands term)) /\
    (is_Some jump -> exits term = false) /\
    (exits term = false -> forall o, o ∈ Dend -> o ∉ C -> is_Some (values fr' !! o)).
Proof.
  revert D local fr s. induction l as [|i l IH]; intros D local fr s Hs Ht Hl Ha Hh.
  - split; [done|]. intros jump fr' s' [= <- <- <-]. simpl in Hs, Hl. injection Hs as <-. split.
    + intros _ o Ho. rewrite forallb_forall in Ht, Hl. pose proof (proj1 (list_elem_of_In _ _) Ho) as Hin.
      destruct (Hh o) as [?|(_ & _ & Hn)]; [exact (bool_decide_eq_true_1 _ (Ht o Hin))|by apply Hl|done|done].
    + split; [by intros []|]. intros Hx o Ho Hn. destruct (Hh o Ho) as [?|(Hx' & _)]; [by apply usable_free|done|congruence].
  - simpl in Hs. destruct (forallb (require_in_scope D) _) eqn:Hscope; [|done].
    apply bind_Some in Hs as (D1 & HD1 & Hs). simpl in Hl.
    apply andb_true_iff in Hl as [[Hu Hok]%andb_true_iff Hl].
    destruct (Ha i) as [HCr HCd]; [left|]. assert (accounted l) as Ha' by (intros j Hj; apply Ha; by right).
    destruct (is_receive i) eqn:Er.
    + destruct i as [| | | | | | | | | | | | | | | | | | | | | | | | | | | | |after arms dest rty| | | | | | | | |]; try done.
      apply andb_true_iff in Hl as [Hempty Hx]. destruct l; [|done]. apply negb_true_iff in Hx. simpl in Hs. injection Hs as <-.
      pose proof (holds_present _ _ _ _ _ _ Hh Hscope Hu) as Hp.
      split.
      * apply clean_bind; [by apply receive_clean|]. intros [next fr1] s1 _. done.
      * intros jump fr' s' ([next fr1] & s1 & He & [= <- <- _])%bindM_ok. split; [done|]. split; [done|]. intros _ o Ho Hn.
        apply execute_receive_values in He. rewrite He. apply insert_fresh_some in HD1 as [-> _].
        destruct (Hh o) as [?|(Hx' & _)]; [|by apply usable_free|done|congruence].
        assert (o <> dest) by (intros ->; apply Hn, HCd; done). set_solver.
    + rewrite execute_instructions_cons by done. destruct (release_dead_keeps i l term fr s) as (fr1 & Hrel & Hkeep).
      assert (holds D local (i :: l) term (values fr1)) as Hh1.
      { intros o Ho Hu'. destruct (Hh o Ho Hu') as [Hv|Hn]; [|by right]. apply Hkeep; [done|]. intros Hin.
        assert (seal_instructions D (i :: l) = Some Dend) as Hs' by (simpl; rewrite Hscope, HD1; done).
        apply seal_instructions_some in Hs' as [_ Hf]. by apply (Hf o). }
      pose proof (holds_present _ _ _ _ _ _ Hh1 Hscope Hu) as Hp.
      unfold bindM at 1 3. rewrite Hrel. split.
      * apply clean_bind; [by apply instruction_clean|]. intros fr2 s2 He. apply (IH D1 _ fr2 s2 Hs Ht Hl Ha').
        by eapply step_holds.
      * intros jump fr' s' (fr2 & s2 & He & Hr)%bindM_ok. eapply (IH D1 _ fr2 s2 Hs Ht Hl Ha'); [by eapply step_holds|exact Hr].
Qed.
End Blocks.

(** ** Edges *)

Lemma bind_all_dom bs vs id : (is_Some (vs !! id) \/ id ∈ map fst bs) -> is_Some (bind_all vs bs !! id).
Proof.
  unfold bind_all. revert vs. induction bs as [|[x v] bs IH]; intros vs; simpl; [intros [?|?]; [done|set_solver]|].
  intros Ho. apply IH. simpl. destruct (decide (x = id)) as [->|Hne]; [left; by rewrite lookup_insert_eq|].
  rewrite lookup_insert_ne by done. destruct Ho as [?|Hin]; [by left|right; set_solver].
Qed.

Lemma edge_bindings_fst vs args ps bs :
  length args = length ps -> edge_bindings vs args ps = Ok bs -> map fst bs = map param_dest ps.
Proof.
  revert ps bs. induction args as [|a args IH]; intros [|p ps] bs; simpl; try done; [by intros _ [= <-]|].
  intros [= Hlen]. destruct (lookup_value vs a); simpl; try done. destruct (edge_bindings vs args ps) as [rest| |] eqn:E; try done.
  intros [= <-]. simpl. f_equal. by apply IH.
Qed.

Lemma clean_edge_bindings vs args ps : present vs args -> clean (edge_bindings vs args ps) = true.
Proof.
  intros Hp. revert ps. induction args as [|a args IH]; intros [|p ps]; try done. simpl.
  apply clean_bindO; [eapply clean_lookup; [exact Hp|left]|]. intros v _. apply clean_bindO; [|done].
  apply IH. intros x Hx. apply Hp. by right.
Qed.

Lemma clean_bind_params t bs vs : present vs (target_args t) -> clean (bind_block_params t bs vs) = true.
Proof.
  intros Hp. unfold bind_block_params. apply clean_bindO; [apply clean_orCrash|]. intros b _.
  destruct (bool_decide _); [|done]. apply clean_bindO; [by apply clean_edge_bindings|done].
Qed.

Lemma bind_params_dom t bs vs vs' : bind_block_params t bs vs = Ok vs' ->
  (forall id, is_Some (vs !! id) -> is_Some (vs' !! id)) /\
  exists b, find_block bs (target_block t) = Ok b /\ present vs' (map param_dest (block_params b)).
Proof.
  unfold bind_block_params. destruct (find_block bs (target_block t)) as [b| |] eqn:E; simpl; try done.
  case_bool_decide as Hlen; [|done]. destruct (edge_bindings vs _ _) as [bds| |] eqn:Eb; try done. intros [= <-]. split.
  - intros id Hid. apply bind_all_dom. by left.
  - exists b. split; [done|]. intros id Hid. apply bind_all_dom. right. by rewrite (edge_bindings_fst _ _ _ _ Hlen Eb).
Qed.

Lemma terminator_clean bs term fr :
  present (values fr) (terminator_operands term) -> clean (execute_terminator bs term fr) = true.
Proof.
  intros Hp. destruct term as [t|c e t|[x|]|args callee|]; simpl in *; try done.
  - apply clean_bindO; [by apply clean_bind_params|done].
  - apply clean_bindO; [eapply clean_lookup; [exact Hp|left]|]. intros v _. destruct v; try done.
    apply clean_bindO; [|done]. apply clean_bind_params. intros id Hid. apply Hp. destruct b; set_solver.
  - apply clean_bindO; [eapply clean_lookup; [exact Hp|left]|done].
  - apply clean_bindO; [by apply clean_lookup_all|done].
Qed.

Lemma terminator_next bs term fr next fr' : execute_terminator bs term fr = Ok (inr (next, fr')) ->
  exits term = false /\ (forall id, is_Some (values fr !! id) -> is_Some (values fr' !! id)) /\
  exists b, find_block bs next = Ok b /\ present (values fr') (map param_dest (block_params b)).
Proof.
  destruct term as [t|c e t|[x|]|args callee|]; simpl; try done.
  - destruct (bind_block_params t bs (values fr)) as [vs| |] eqn:E; try done. intros [= <- <-].
    apply bind_params_dom in E as [H1 H2]. done.
  - destruct (lookup_value _ _) as [[]| |]; simpl; try done.
    destruct (bind_block_params _ bs (values fr)) as [vs| |] eqn:E; try done. intros [= <- <-].
    apply bind_params_dom in E as [H1 H2]. done.
  - by destruct (lookup_value _ _).
  - by destruct (lookup_all _ _).
Qed.

(** ** Bodies *)

Definition receives_bare (bs : list IRBasicBlock) (i : IRInstruction) : bool :=
  forallb (fun b => negb (contains (receive_targets i) (block_id b)) || is_empty (block_params b)) bs.

(** What lowering keeps to beyond the seal: no parameters on the entry block and on the
    arms of a receive, a receive ends its block, special registers are used locally. *)
Definition body_ready (R : CallResolver) (bs : list IRBasicBlock) : bool :=
  match bs with
  | [] => true
  | entry :: _ =>
      is_empty (block_params entry) &&
      forallb (fun b =>
        lives R (special R bs) (list_to_set (map param_dest (block_params b))) (instructions b) (terminator b) &&
        forallb (receives_bare bs) (instructions b)) bs
  end.

Section Body.
Context {W : Type} `{Host W} (oc : bool) (R : CallResolver).
Context (call : IRFunction -> list Value -> M W Value).
Context (call_closure : IRFunction -> list Value -> list Value -> M W Value).
Context (Hcall : forall f args, known R f -> cleanM (call f args)).
Context (Hclosure : forall f args caps, known R f -> cleanM (call_closure f args caps)).
Context (bs : list IRBasicBlock) (entry : IRBasicBlock) (parameters : gset ValueId) (idoms : gmap Z Z).
Context (Hentry : head bs = Some entry) (Hnd : NoDup (map block_id bs)).
Context (Hidoms : compute_immediate_dominators bs (block_id entry) = Some idoms).
Context (Hsealed : seal_ssa bs parameters = true) (Hready : body_ready R bs = true).

Local Notation C := (special R bs).
Local Notation scope := (scope bs entry parameters idoms).

Lemma ready_block b : b ∈ bs ->
  lives R C (list_to_set (map param_dest (block_params b))) (instructions b) (terminator b) = true /\
  forall i, i ∈ instructions b -> receives_bare bs i = true.
Proof.
  clear Hsealed Hidoms. intros Hb. unfold body_ready in Hready. destruct bs as [|e l]; [by apply not_elem_of_nil in Hb|].
  apply andb_true_iff in Hready as [_ Hall]. rewrite forallb_forall in Hall.
  specialize (Hall b (proj1 (list_elem_of_In _ _) Hb)). apply andb_true_iff in Hall as [Hl Hr]. split; [done|].
  intros i Hi. rewrite forallb_forall in Hr. by apply Hr, list_elem_of_In.
Qed.

Lemma block_accounted b : b ∈ bs -> accounted R C (instructions b).
Proof.
  intros Hb i Hi. assert (i ∈ concat (map instructions bs)) as Hin.
  { apply list_elem_of_In, in_concat. exists (instructions b). split; [apply in_map|]; by apply list_elem_of_In. }
  unfold special. split; intros r Hr; rewrite elem_of_union, !elem_of_list_to_set, !list_elem_of_omap; [left|right]; eauto.
Qed.

(** A run may enter the block [id] with these registers. *)
Definition enters (id : Z) (vs : gmap ValueId Value) : Prop :=
  (exists l, cfg_path bs (block_id entry) l id) /\
  (forall D, scope id D -> forall o, o ∈ D -> o ∉ C -> is_Some (vs !! o)) /\
  (forall b, b ∈ bs -> block_id b = id -> present vs (map param_dest (block_params b))).

(** Leaving block [b] for [next] with everything defined in and above [b]. *)
Lemma edge_enters b D vs next : b ∈ bs -> scope (block_id b) D -> (exists l, cfg_path bs (block_id entry) l (block_id b)) ->
  next ∈ successors b -> next ∈ map block_id bs ->
  (forall o, o ∈ list_to_set (introduced b) ∪ D -> o ∉ C -> is_Some (vs !! o)) ->
  (forall b', b' ∈ bs -> block_id b' = next -> present vs (map param_dest (block_params b'))) -> enters next vs.
Proof.
  intros Hb HD Hpath Hsucc Hknown Hall Hparams. assert (step bs (block_id b) next) as Hstep by (by exists b).
  split; [destruct Hpath as [l Hl]; exists (l ++ [next]); by econstructor|]. split; [|done].
  intros D' HD' o Ho Hn. apply Hall; [|done].
  eapply (scope_edge bs entry parameters idoms Hentry Hnd Hidoms Hsealed (block_id b) next D D' b) in HD'; [set_solver|done..|].
  by apply by_id_lookup.
Qed.

Lemma block_exec_clean id fr b rn s : enters id (values fr) -> find_block bs id = Ok b ->
  clean_run (execute_instructions oc R call call_closure rn (instructions b) (terminator b) fr s) = true /\
  forall jump fr' s', execute_instructions oc R call call_closure rn (instructions b) (terminator b) fr s = Done (Ok (jump, fr')) s' ->
    (jump = None -> present (values fr') (terminator_operands (terminator b))) /\
    (is_Some jump -> exits (terminator b) = false) /\
    (exits (terminator b) = false -> exists D, scope id D /\
       forall o, o ∈ list_to_set (introduced b) ∪ D -> o ∉ C -> is_Some (values fr' !! o)).
Proof.
  intros (Hpath & Hscope & Hparams) [Hb <-]%find_block_elem.
  destruct (reached_scope bs entry parameters idoms Hentry Hnd Hidoms Hsealed _ Hpath) as [D HD].
  destruct (scope_sealed bs entry parameters idoms Hentry Hnd Hidoms Hsealed _ _ HD) as (b' & Hb' & Henter).
  apply by_id_lookup in Hb' as [Hb' Eid]; [|done].
  assert (b' = b) as ->.
  { pose proof (find_block_unique bs b Hnd Hb) as F1. pose proof (find_block_unique bs b' Hnd Hb') as F2.
    rewrite Eid, F1 in F2. by injection F2. }
  destruct (ready_block b Hb) as [Hlives _].
  unfold enter_block in Henter. apply bind_Some in Henter as (D0 & H0 & (Dend & Hs & Hterm)%bind_Some).
  destruct (forallb _ _) eqn:Hin; [|done]. injection Hterm as HDend.
  apply insert_all_fresh_some in H0 as (-> & _ & _).
  destruct (exec_holds oc R call call_closure Hcall Hclosure C rn (instructions b) (terminator b) _ Dend _ fr s Hs Hin Hlives)
    as [Hclean Hpost].
  - by apply block_accounted.
  - intros o Ho Hu. left. destruct (decide (o ∈ map param_dest (block_params b))) as [Hp|Hp]; [by apply (Hparams b)|].
    apply (Hscope D HD); [set_solver|]. intros HoC. unfold usable in Hu. rewrite bool_decide_eq_true_2 in Hu by done.
    simpl in Hu. apply bool_decide_eq_true in Hu. set_solver.
  - split; [done|]. intros jump fr' s' He. destruct (Hpost _ _ _ He) as (H1 & H2 & H3). split; [done|]. split; [done|].
    intros Hx. exists D. split; [done|]. intros o Ho Hn. apply H3; [done| |done]. by rewrite HDend.
Qed.

Lemma run_clean n rn id fr s : enters id (values fr) ->
  clean_run (run_blocks oc R call call_closure n rn bs id fr s) = true.
Proof.
  revert id fr s. induction n as [|n IH]; intros id fr s He; [done|]. rewrite run_S.
  apply clean_bind; [apply clean_orCrash|]. intros b s' [= Hb <-].
  destruct (block_exec_clean id fr b rn s He Hb) as [Hclean Hpost]. pose proof (find_block_elem _ _ _ Hb) as [Hin Hid].
  destruct He as (Hpath & _ & _). apply clean_bind; [done|]. intros [jump fr1] s1 Hex. destruct (Hpost _ _ _ Hex) as (Hterm & Hx & HD).
  destruct jump as [next|].
  - destruct (HD (Hx ltac:(by eexists))) as (D & Hscope & Hall). destruct (exec_jump _ _ _ _ _ _ _ _ _ _ _ _ Hex) as (i & Hi & Hnext).
    destruct (decide (next ∈ map block_id bs)) as [Hknown|Hunknown].
    + apply IH. subst id. eapply (edge_enters b D); [done..| |done|done|].
      * unfold successors. apply elem_of_app. left. apply list_elem_of_In, in_concat. exists (receive_targets i).
        split; [apply in_map|]; by apply list_elem_of_In.
      * intros b' Hb' <-. destruct (ready_block b Hin) as [_ Hr]. specialize (Hr i Hi). unfold receives_bare in Hr.
        rewrite forallb_forall in Hr. specialize (Hr b' (proj1 (list_elem_of_In _ _) Hb')).
        rewrite contains_spec, bool_decide_eq_true_2 in Hr by done. simpl in Hr. destruct (block_params b'); [|done].
        intros o Ho. by apply not_elem_of_nil in Ho.
    + destruct n as [|n]; [done|]. rewrite run_S. rewrite find_block_none; [done|].
      intros b' Hb' <-. apply Hunknown. by apply list_elem_of_fmap_2.
  - unfold continue_at. apply clean_bind; [by apply terminator_clean, Hterm|]. intros [o|[next fr2]] s2 [= Ht <-]; [done|].
    pose proof (terminator_target _ _ _ _ _ Ht) as Htgt. apply terminator_next in Ht as (Hex' & Hkeep & b' & Hb' & Hp).
    destruct (HD Hex') as (D & Hscope & Hall). apply find_block_elem in Hb' as Hb2. destruct Hb2 as [Hin' <-].
    apply IH. subst id. eapply (edge_enters b D); [done..| | |intros o Ho Hn; by apply Hkeep, Hall|].
    + unfold successors. apply elem_of_app. by right.
    + by apply list_elem_of_fmap_2.
    + intros b2 Hb2 E. pose proof (find_block_unique bs b2 Hnd Hb2) as F. rewrite E, Hb' in F. by injection F as <-.
Qed.

Lemma entry_enters vs : (forall o, o ∈ parameters -> is_Some (vs !! o)) -> enters (block_id entry) vs.
Proof.
  intros Hp. split; [exists [block_id entry]; constructor|]. split.
  - intros D HD o Ho _. apply Hp.
    by rewrite (scope_det bs entry parameters idoms Hentry Hnd Hidoms _ _ _ (scope_entry _ _ _ _) HD).
  - intros b Hb E. assert (b = entry) as ->.
    { assert (entry ∈ bs) as He by (clear -Hentry; destruct bs; simplify_eq/=; left).
      pose proof (find_block_unique bs b Hnd Hb) as F1. pose proof (find_block_unique bs entry Hnd He) as F2.
      rewrite E, F2 in F1. by injection F1. }
    clear -Hready Hentry. destruct bs as [|e l]; [done|]. simpl in Hentry. injection Hentry as ->.
    simpl in Hready. apply andb_true_iff in Hready as [Hr _]. destruct (block_params entry); [|done].
    intros o Ho. by apply not_elem_of_nil in Ho.
Qed.
End Body.

(** ** Functions *)

(** Intrinsics and foreign functions know nothing of registers. *)
Class CleanHost (W : Type) `{Host W} := {
  intrinsic_clean : forall id f args w, clean (intrinsic_dispatch id f args w).1 = true;
  extern_clean : forall name args w o w', extern_dispatch name args w = (Some o, w') -> clean o = true;
  foreign_clean : forall f args w o w', foreign_call f args w = (Some o, w') -> clean o = true;
}.

Definition function_ready (R : CallResolver) (f : IRFunction) : bool :=
  match kind f with Regular | Closure _ | EqClosureGlue _ => body_ready R (blocks f) | _ => true end.

Definition sealed (R : CallResolver) : Prop := forall f, known R f -> seal_function f = true /\ function_ready R f = true.

Lemma lookup_all_length vs ids l : lookup_all vs ids = Ok l -> length l = length ids.
Proof.
  revert l. induction ids as [|id ids IH]; intros l; simpl; [by intros [= <-]|].
  destruct (lookup_value vs id); simpl; try done. destruct (lookup_all vs ids); simpl; try done. intros [= <-]. simpl. f_equal. by apply IH.
Qed.

Section Functions.
Context {W : Type} `{Host W} `{!CleanHost W} (oc : bool) (R : CallResolver) (Hsealed : sealed R).

Lemma restart_arity call call_closure n rn bs id fr s new s' k :
  (forall b args callee, b ∈ bs -> terminator b = TailCall args callee -> length args = k) ->
  run_blocks (W:=W) oc R call call_closure n rn bs id fr s = Done (Ok (TailRestart new)) s' -> length new = k.
Proof.
  intros Hk. revert id fr s. induction n as [|n IH]; intros id fr s; [done|]. rewrite run_S.
  intros (b & s1 & [= Hb <-] & ([jump fr1] & s2 & _ & Hr)%bindM_ok)%bindM_ok. destruct jump as [next|]; [by eapply IH|].
  unfold continue_at in Hr. apply bindM_ok in Hr as (o & s3 & [= Ht <-] & Hr). destruct o as [o|[next fr2]]; [|by eapply IH].
  injection Hr as -> _. apply find_block_elem in Hb as [Hb _].
  destruct (terminator b) as [t|c e t|[x|]|args callee|] eqn:Eb; simpl in Ht; try done.
  - by destruct (bind_block_params _ _ _).
  - destruct (lookup_value _ _) as [[]| |]; simpl in Ht; try done. by destruct (bind_block_params _ _ _).
  - by destruct (lookup_value _ _).
  - destruct (lookup_all _ args) as [l| |] eqn:El; [|done..]. injection Ht as ->. rewrite (lookup_all_length _ _ _ El). by eapply Hk.
Qed.

Lemma sealed_body f : seal_function f = true -> blocks f <> [] ->
  NoDup (map block_id (blocks f)) /\ seal_ssa (blocks f) (list_to_set (map param_id (params f))) = true /\
  (forall b args callee, b ∈ blocks f -> terminator b = TailCall args callee -> length args = length (params f)).
Proof.
  unfold seal_function. intros Hs Hne. apply andb_true_iff in Hs as [_ Hs].
  destruct (insert_all_fresh ∅ (map param_id (params f))) as [ps|] eqn:Ep; [|done].
  apply insert_all_fresh_some in Ep as (-> & _ & _). rewrite union_empty_r_L in Hs.
  destruct (blocks f) as [|b0 l] eqn:Eb; [done|]. cbn [is_empty orb] in Hs. unfold seal_body in Hs. rewrite Eb in Hs.
  destruct (collect_block_ids (b0 :: l)) as [ids|] eqn:Ei; [|done]. destruct (collect_block_params (b0 :: l)); [|done].
  apply andb_true_iff in Hs as [[[_ Hssa]%andb_true_iff _]%andb_true_iff Htc].
  apply insert_all_fresh_some in Ei as (_ & Hnd & _). split; [done|]. split; [done|].
  intros b args callee Hb Ht. unfold seal_tail_calls in Htc. rewrite Eb, forallb_forall in Htc.
  specialize (Htc b (proj1 (list_elem_of_In _ _) Hb)). rewrite Ht in Htc. apply andb_true_iff in Htc as [_ Hlen]. by apply Nat.eqb_eq.
Qed.

Lemma seed_params caps ps args o : length args = length ps -> o ∈ map param_id ps ->
  is_Some (values (seed_frame caps ps args) !! o).
Proof.
  intros Hlen Ho. simpl. apply bind_all_dom. right. rewrite fst_zip; [done|]. by rewrite length_map, Hlen.
Qed.

Lemma body_clean call call_closure n f args caps
    (Hcall : forall f args, known R f -> cleanM (call f args))
    (Hclosure : forall f args caps, known R f -> cleanM (call_closure f args caps)) :
  seal_function f = true -> body_ready R (blocks f) = true -> length args = length (params f) ->
  cleanM (execute_blocks (W:=W) oc R call call_closure n (blocks f) (seed_frame caps (params f) args)).
Proof.
  intros Hs Hr Hlen. unfold execute_blocks. destruct (blocks f) as [|b l] eqn:Eb; [by apply cleanM_liftO|].
  destruct (sealed_body f Hs) as (Hnd & Hssa & _); [by rewrite Eb|]. rewrite Eb in Hnd, Hssa.
  destruct (dominates_total (b :: l) (block_id b) Hnd) as (idoms & Hi & _); [left|]. intros s.
  eapply run_clean; [done..|]. eapply entry_enters; [done..|]. intros o Ho. apply seed_params; [done|set_solver].
Qed.

Definition calls_clean (n : nat) : Prop :=
  (forall f args, known R f -> cleanM (execute_function (W:=W) oc true R n f args)) /\
  (forall f args, known R f -> kind f = Regular -> length args = length (params f) ->
     cleanM (execute_regular (W:=W) oc true R n f args)) /\
  (forall f args caps, known R f -> cleanM (execute_closure_function (W:=W) oc true R n f args caps)).

Lemma assert_clean {A B C} (xs : list A) (ys : list B) (k : unit -> M W C) :
  (length xs = length ys -> cleanM (k tt)) -> cleanM (bindM (debug_assert_len true xs ys) k).
Proof.
  intros Hk s. unfold debug_assert_len. simpl. case_bool_decide as E; simpl; [by apply Hk|done].
Qed.

Lemma functions_clean n : calls_clean n.
Proof.
  induction n as [|n (IHf & IHr & IHc)]; [repeat split; intros; by intros s|]. split; [|split].
  - intros f args Hf. simpl. apply assert_clean. intros Hlen.
    destruct (kind f) as [| | | | | | |attrs|id| | |] eqn:Ek; try apply cleanM_pure; try by apply cleanM_liftO.
    + intros s. unfold bindM, perform. destruct (extern_dispatch _ args (world s)) as [[o|] w] eqn:E; simpl.
      * by eapply extern_clean.
      * destruct (foreign_call f args w) as [[o|] w'] eqn:E'; simpl; [by eapply foreign_clean|done].
    + intros s. unfold bindM, perform. pose proof (intrinsic_clean id f args (world s)) as Hi.
      destruct (intrinsic_dispatch id f args (world s)). done.
    + by apply IHr.
  - intros f args Hf Hk Hlen s. simpl. destruct (Hsealed f Hf) as [Hs Hready]. unfold function_ready in Hready. rewrite Hk in Hready.
    apply clean_bind; [by apply body_clean|]. intros [v|new] s' He; [done|]. apply IHr; [done..|].
    unfold execute_blocks in He. destruct (blocks f) as [|b l] eqn:Eb; [done|].
    destruct (sealed_body f Hs) as (_ & _ & Ht); [by rewrite Eb|]. rewrite Eb in Ht. by eapply restart_arity.
  - intros f args caps Hf. simpl. apply assert_clean. intros Hlen. destruct (Hsealed f Hf) as [Hs Hready].
    unfold function_ready in Hready.
    destruct (kind f) eqn:Ek; try (by apply cleanM_liftO); apply assert_clean; intros _;
      (apply cleanM_bind; [by apply body_clean|]); intros []; (apply cleanM_pure || by apply cleanM_liftO).
Qed.

(** *** Entry points *)

Lemma built_inits_clean n order : cleanM (W:=W) (run_built_inits oc true R n order).
Proof.
  induction order as [|sym order IH]; simpl; [apply cleanM_pure|].
  destruct (cr_constant_value R sym) as [[init ty| | |]|]; try by apply cleanM_liftO.
  apply resolve_clean. intros f Hf. apply cleanM_bind; [apply functions_clean; by eexists|]. intros v.
  apply cleanM_bind; [by intros s|intros _; exact IH].
Qed.

Lemma default_clean n ty : cleanM (W:=W) (default_value_for_type R n ty).
Proof.
  revert ty. induction n as [|n IH]; intros ty; [by intros s|].
  set (all := fix all (tys : list IRType) : M W (list Value) :=
        match tys with
        | [] => ret []
        | t :: rest =>
            let! v := default_value_for_type R n t in
            let! vs := all rest in
            ret (v :: vs)
        end).
  assert (forall tys, cleanM (all tys)) as Hall.
  { induction tys as [|t tys IHt]; simpl; [apply cleanM_pure|]. apply cleanM_bind; [apply IH|]. intros v.
    apply cleanM_bind; [apply IHt|intros ?; apply cleanM_pure]. }
  destruct ty; simpl; fold all; try apply cleanM_pure; try by apply cleanM_liftO.
  - do 2 (apply cleanM_bind; [apply cleanM_liftO, clean_orCrash|intros ?]). apply cleanM_bind; [|intros ?; apply cleanM_pure].
    destruct (vpayload _); try apply cleanM_pure; (apply cleanM_bind; [apply Hall|intros ?; apply cleanM_pure]).
  - apply cleanM_bind; [apply cleanM_liftO, clean_orCrash|intros ?]. apply cleanM_bind; [apply Hall|intros ?; apply cleanM_pure].
  - apply cleanM_bind; [apply Hall|intros ?; apply cleanM_pure].
Qed.

Lemma entry_body_clean n entry args : cleanM (W:=W) (run_entry_body oc true R n entry args).
Proof.
  unfold run_entry_body, build_constants. apply cleanM_bind; [apply built_inits_clean|intros _].
  apply cleanM_bind; [apply cleanM_liftO, clean_orCrash|intros ty].
  apply cleanM_bind; [destruct (is_argv_shaped ty); [apply cleanM_pure|apply default_clean]|]. intros v s.
  unfold bindM, liftO. destruct (process_body_of R (symbol entry)) as [f|] eqn:E; simpl; [|done]. apply functions_clean.
  unfold process_body_of in E. destruct (cr_resolve R (symbol entry)); simpl in E; [|done].
  destruct (head _) as [b|]; simpl in E; [|done]. by exists b.
Qed.
End Functions.

Definition program_ready (p : IRProgram) : bool :=
  forallb (fun pkg => bool_decide (map_Forall (fun _ f => function_ready (program_resolver p) f = true) (functions pkg)))
    (packages p).

Lemma program_sealed p :
  forallb seal_package_functions (packages p) = true -> program_ready p = true -> sealed (program_resolver p).
Proof.
  unfold program_ready. rewrite !forallb_forall. intros Hs Hr f [sym (pkg & Hp & Hf)%find_in_elem]. apply list_elem_of_In in Hp.
  specialize (Hs pkg Hp). specialize (Hr pkg Hp). apply bool_decide_eq_true in Hs, Hr. split; [|by apply (Hr sym)].
  by apply (Hs sym).
Qed.

(** C5: sealed code reads no undefined register. If every function of a program passes
    the seal and keeps to what lowering promises of receives, entry blocks and
    consuming sites, then a run of the program, with any fuel, arguments and host whose
    intrinsics return values or proper errors, never ends in [ValueUndefined]. Arities
    of calls are asserted, as in a debug build. *)
Theorem sealed_reads_defined {W} `{Host W} `{!CleanHost W} oc p
    (seals : forallb seal_package_functions (packages p) = true) (ready : program_ready p = true) :
  forall fuel args s id s', run_program (W:=W) oc true fuel p args s <> Done (Err (ValueUndefined id)) s'.
Proof.
  intros fuel args s id s' E. pose proof (program_sealed p seals ready) as Hs.
  assert (cleanM (W:=W) (run_program oc true fuel p args)) as Hc.
  { unfold run_program. apply cleanM_bind; [apply cleanM_liftO, clean_orCrash|]. intros entry.
    destruct (kind entry); try (by apply cleanM_liftO). by apply entry_body_clean. }
  specialize (Hc s). by rewrite E in Hc.
Qed.

(** ** A program, and two gaps *)

#[export] Instance silent_clean : CleanHost unit.
Proof. by split. Qed.

(** [main] doubles a string three times; the concatenation consumes what it read from
    the slot. *)
Definition grow_fn : IRFunction :=
  mkFunction
    [ mkBlock 0 [] [LocalDecl 0 (TList TString); LocalWrite 0 0; LocalDecl 1 TString; Const 1 (CString [104; 105]);
                    LocalWrite 1 1; Const 2 (CInt64 3)]
        (Branch (target_with_args 1 [2]));
      mkBlock 1 [mkBlockParam 3 TInt64] [Const 4 (CInt64 0); BinaryOp 5 3 Eq TInt64 4]
        (CondBranch 5 (target_to 2) (target_to 3));
      mkBlock 2 [] [LocalRead 6 1 TString; LocalRead 7 1 TString; ConsumeLocal 1; Concat true 8 KString 6 7; LocalWrite 1 8;
                    Const 9 (CInt64 1); BinaryOp 10 3 Sub TInt64 9]
        (Branch (target_with_args 1 [10]));
      mkBlock 3 [] [LocalRead 11 1 TString] (Return (Some 3)) ]
    Regular [mkParam 0 0 (TList TString)] TInt64 "App.main".

Definition grow_entry : IRFunction :=
  mkFunction [mkBlock 0 [] [Call 1 "App.main" [0]] (Return (Some 1))]
    (ProcessEntryWrapper TUnit) [mkParam 0 0 (TList TString)] TInt64 "App.entry".

Definition grow : IRProgram :=
  mkProgram [] "App.entry" [mkPackage ∅ ∅ (<["App.main":=grow_fn]> {["App.entry":=grow_entry]}) "App" ∅].

Example grow_runs : run_program true true 40 grow [] (mkState ∅ tt) = Done (Ok (VInt 0)) (mkState ∅ tt).
Proof. vm_compute. reflexivity. Qed.

Lemma sealed_reads_defined_witness :
  forallb seal_package_functions (packages grow) = true /\ program_ready grow = true /\
  forall id s', run_program true true 40 grow [] (mkState ∅ tt) <> Done (Err (ValueUndefined id)) s'.
Proof.
  split; [vm_compute; reflexivity|]. split; [vm_compute; reflexivity|].
  apply sealed_reads_defined; vm_compute; reflexivity.
Defined.

(** The seal accepts a body that returns the result of a [receive], which the evaluator
    never binds. *)
Definition receive_result_fn : IRFunction :=
  mkFunction
    [ mkBlock 0 [] [Const 0 (CInt64 0); Receive (Some (mkAfter 1 0)) [] 1 TInt64] Unreachable;
      mkBlock 1 [] [] (Return (Some 1)) ]
    Regular [] TInt64 "App.wait".

Example receive_result_gap : seal_function receive_result_fn = true /\
  execute_function true true (program_resolver grow) 9 receive_result_fn [] (mkState ∅ tt)
    = Done (Err (ValueUndefined 1)) (mkState ∅ tt).
Proof. split; vm_compute; reflexivity. Qed.

(** It also accepts parameters on the entry block, which no edge binds. *)
Definition entry_param_fn : IRFunction :=
  mkFunction [mkBlock 0 [mkBlockParam 0 TInt64] [] (Return (Some 0))] Regular [] TInt64 "App.param".

Example entry_param_gap : seal_function entry_param_fn = true /\
  execute_function true true (program_resolver grow) 9 entry_param_fn [] (mkState ∅ tt)
    = Done (Err (ValueUndefined 0)) (mkState ∅ tt).
Proof. split; vm_compute; reflexivity. Qed.
