(* ===== verification/YieldChecks.v ===== *)
(** * Yield checks

    Models [koja-ir/src/yield_checks.rs]: the pass that inserts a [YieldCheck], the
    cooperative preemption point, at the end of every block with a back edge or a tail
    call and at the entry of every function that calls. [None] is a panic: an index
    past the end of the entry block, or a failure inside the dominator analysis.

    [yields_regularly] is the promise of the pass: a process cannot run more blocks of
    a body than the body has without passing a check. It holds of reducible bodies,
    which is the shape structured control flow lowers to; [reducible] decides it.
    [yield_checks_transparent] shows that the checks change nothing else. *)

From stdpp Require Import strings gmap.
From S2P Require Import Prelude Protocol IRValue EvalOps BinaryOps IRFunction Dominators Interpreter EvalRefine EvalFacts.
Local Open Scope nat_scope.

(** ** The pass *)

Definition is_call (i : IRInstruction) : bool :=
  match i with Call _ _ _ | CallClosure _ _ _ _ _ => true | _ => false end.

Definition contains_call (f : IRFunction) : bool :=
  existsb (fun b => existsb is_call (instructions b)) (blocks f).

Definition is_param_acquire (i : option IRInstruction) (param : ValueId) : bool :=
  match i with
  | Some (Clone _ source _) => (source =? param)%Z
  | Some (Call _ _ args) => bool_decide (head args = Some param)
  | _ => false
  end.

Definition promotion_step (insts : list IRInstruction) (len : nat) (p : IRFunctionParam) : nat :=
  let len := len + 1 in
  let len := if is_param_acquire (insts !! len) (param_id p) then len + 1 else len in
  len + 1.

Definition promotion_prefix_len (ps : list IRFunctionParam) (insts : list IRInstruction) : nat :=
  fold_left (promotion_step insts) ps 0.

Definition with_instructions (b : IRBasicBlock) (insts : list IRInstruction) : IRBasicBlock :=
  mkBlock (block_id b) (block_params b) insts (terminator b).

Definition insert_entry_check (f : IRFunction) : option IRFunction :=
  if contains_call f then
    match blocks f with
    | [] => Some f
    | entry :: rest =>
        let insts := instructions entry in
        let offset := promotion_prefix_len (params f) insts in
        if offset <=? length insts then
          Some (with_blocks f (with_instructions entry (take offset insts ++ YieldCheck :: drop offset insts) :: rest))
        else None
    end
  else Some f.

Definition has_branch (bs : list IRBasicBlock) : bool :=
  existsb (fun b => match terminator b with Branch _ | CondBranch _ _ _ => true | _ => false end) bs.

Fixpoint any_dominates (fuel : nat) (idoms : gmap IRBlockId IRBlockId) (entry block : IRBlockId)
    (succs : list IRBlockId) : option bool :=
  match succs with
  | [] => Some false
  | succ :: rest =>
      d ← dominates fuel idoms entry succ block;
      if d : bool then Some true else any_dominates fuel idoms entry block rest
  end.

Definition is_tail_call (b : IRBasicBlock) : bool :=
  match terminator b with TailCall _ _ => true | _ => false end.

Definition check_block (fuel : nat) (idoms : option (gmap IRBlockId IRBlockId)) (entry : IRBlockId)
    (b : IRBasicBlock) : option IRBasicBlock :=
  on_back_edge ← match idoms with
                 | None => Some false
                 | Some idoms => any_dominates fuel idoms entry (block_id b) (successors b)
                 end;
  Some (if is_tail_call b || on_back_edge then with_instructions b (instructions b ++ [YieldCheck]) else b).

Definition insert_in_body (bs : list IRBasicBlock) : option (list IRBasicBlock) :=
  match bs with
  | [] => Some []
  | first :: _ =>
      let entry := block_id first in
      idoms ← if has_branch bs then Some <$> compute_immediate_dominators bs entry else Some None;
      mapM (check_block (length bs) idoms entry) bs
  end.

Definition insert_in_function (f : IRFunction) : option IRFunction :=
  match kind f with
  | Regular => bs ← insert_in_body (blocks f); insert_entry_check (with_blocks f bs)
  | _ => Some f
  end.

Definition insert_in_package (p : IRPackage) : option IRPackage :=
  if bool_decide (map_Forall (fun _ f => is_Some (insert_in_function f)) (functions p)) then
    Some (mkPackage (constants p) (enums p) ((fun f => default f (insert_in_function f)) <$> functions p)
            (package p) (structs p))
  else None.

Definition insert_yield_checks (ps : list IRPackage) (body : list IRBasicBlock)
    : option (list IRPackage * list IRBasicBlock) :=
  ps ← mapM insert_in_package ps;
  body ← insert_in_body body;
  Some (ps, body).

(** ** What it does to a body *)

(** The blocks of a body before and after. *)
Definition checked (b b' : IRBasicBlock) : Prop :=
  b' = b \/ b' = with_instructions b (instructions b ++ [YieldCheck]).

Lemma checked_id b b' : checked b b' -> block_id b' = block_id b.
Proof. by intros [-> | ->]. Qed.
Lemma checked_terminator b b' : checked b b' -> terminator b' = terminator b.
Proof. by intros [-> | ->]. Qed.
Lemma checked_params b b' : checked b b' -> block_params b' = block_params b.
Proof. by intros [-> | ->]. Qed.

Lemma check_block_checked fuel idoms entry b b' : check_block fuel idoms entry b = Some b' -> checked b b'.
Proof.
  unfold check_block. intros (be & _ & [= <-])%bind_Some. unfold checked. destruct (_ || _); auto.
Qed.

Lemma insert_in_body_checked bs bs' : insert_in_body bs = Some bs' -> Forall2 checked bs bs'.
Proof.
  destruct bs as [|b bs]; [by intros [= <-]|]. unfold insert_in_body.
  intros (idoms & _ & Hm%mapM_Some)%bind_Some. eapply Forall2_impl; [exact Hm|]. apply check_block_checked.
Qed.

Lemma any_dominates_some fuel idoms entry b succs :
  (forall d, is_Some (dominates fuel idoms entry d b)) -> is_Some (any_dominates fuel idoms entry b succs).
Proof.
  intros Hd. induction succs as [|s succs IH]; simpl; [by eexists|].
  destruct (Hd s) as [[] ->]; simpl; [by eexists|done].
Qed.

Lemma any_dominates_true fuel idoms entry b succs t r :
  any_dominates fuel idoms entry b succs = Some r -> t ∈ succs -> dominates fuel idoms entry t b = Some true -> r = true.
Proof.
  induction succs as [|s succs IH]; simpl; [set_solver|]. intros (d & Ed & Hr)%bind_Some Ht Hdom.
  destruct d; [by simplify_eq|]. apply elem_of_cons in Ht as [->|Ht]; [congruence|by apply IH].
Qed.

Lemma insert_in_body_total bs : NoDup (map block_id bs) -> is_Some (insert_in_body bs).
Proof.
  intros Hnd. destruct bs as [|b bs]; [by eexists|]. unfold insert_in_body. destruct (has_branch _).
  - destruct (dominates_total (b :: bs) (block_id b) Hnd ltac:(left)) as (idoms & -> & Hd). cbn [fmap option_fmap option_map mbind option_bind].
    apply mapM_is_Some, Forall_forall. intros x _. unfold check_block.
    destruct (any_dominates_some _ idoms (block_id b) (block_id x) (successors x) (fun d => Hd d _)) as [r Hr].
    cbv beta delta [compose]. rewrite Hr. by eexists.
  - cbn [mbind option_bind]. apply mapM_is_Some, Forall_forall. intros x _. by eexists.
Qed.

(** ** Reducible bodies *)

(** Every edge goes down in the depth-first postorder or back to a block that
    dominates its source, and a receive only goes down. *)
Definition reducible (bs : list IRBasicBlock) : bool :=
  match bs with
  | [] => true
  | first :: _ =>
      match postorder_traversal (length bs) bs (block_id first), compute_immediate_dominators bs (block_id first) with
      | Some order, Some idoms =>
          forallb (fun b => negb (bool_decide (block_id b ∈ order)) ||
            forallb (fun t => rank order t <? rank order (block_id b)) (concat (map receive_targets (instructions b))) &&
            forallb (fun t => (rank order t <? rank order (block_id b)) ||
                              bool_decide (dominates (length bs) idoms (block_id first) t (block_id b) = Some true))
              (targets (terminator b))) bs
      | _, _ => false
      end
  end.

(** ** Runs of a body, block by block *)

Section Steps.
Context {W : Type} `{Host W} (oc : bool) (R : CallResolver).
Context (call : IRFunction -> list Value -> M W Value).
Context (call_closure : IRFunction -> list Value -> list Value -> M W Value).
Context (rn : nat).

Local Notation exec := (execute_instructions oc R call call_closure).
Local Notation run := (run_blocks oc R call call_closure).

(** Where a run is: the block it enters, its frame and the state. *)
Notation Config := (IRBlockId * Frame * State W)%type.

(** One turn of the loop of [execute_blocks]: a block runs and names the next one. *)
Inductive block_step (bs : list IRBasicBlock) : Config -> Config -> Prop :=
| step_receive current fr s block next fr' s' :
    find_block bs current = Ok block ->
    exec rn (instructions block) (terminator block) fr s = Done (Ok (Some next, fr')) s' ->
    block_step bs (current, fr, s) (next, fr', s')
| step_terminator current fr s block fr1 s1 next fr2 :
    find_block bs current = Ok block ->
    exec rn (instructions block) (terminator block) fr s = Done (Ok (None, fr1)) s1 ->
    execute_terminator bs (terminator block) fr1 = Ok (inr (next, fr2)) ->
    block_step bs (current, fr, s) (next, fr2, s1).

(** The steps, computed. *)
Definition next_config (bs : list IRBasicBlock) (c : Config) : option Config :=
  let '(current, fr, s) := c in
  match find_block bs current with
  | Ok block =>
      match exec rn (instructions block) (terminator block) fr s with
      | Done (Ok (Some next, fr')) s' => Some (next, fr', s')
      | Done (Ok (None, fr1)) s1 =>
          match execute_terminator bs (terminator block) fr1 with
          | Ok (inr (next, fr2)) => Some (next, fr2, s1)
          | _ => None
          end
      | _ => None
      end
  | _ => None
  end.

Fixpoint configs (bs : list IRBasicBlock) (n : nat) (c : Config) : option Config :=
  match n with O => Some c | S n => c' ← next_config bs c; configs bs n c' end.

Lemma configs_steps bs n c c' : configs bs n c = Some c' -> nsteps (block_step bs) n c c'.
Proof.
  revert c. induction n as [|n IH]; intros c; simpl; [intros [= ->]; constructor|].
  intros (c1 & Hc & Hn%IH)%bind_Some. econstructor; [|exact Hn]. destruct c as [[cur fr] s]. unfold next_config in Hc.
  destruct (find_block bs cur) as [b| |] eqn:Eb; try done.
  destruct (exec rn _ _ fr s) as [[[[next|] fr1]| |] s1|] eqn:Ee; try done.
  - injection Hc as <-. by econstructor 1.
  - destruct (execute_terminator _ _ _) as [[|[next fr2]]| |] eqn:Et; try done. injection Hc as <-. by econstructor 2.
Qed.

Definition run_at (n : nat) (bs : list IRBasicBlock) (c : Config) : Run (State W) BlockOutcome :=
  let '(current, fr, s) := c in run n rn bs current fr s.

(** The block a run is at ends in a yield check, and the run gets past it. *)
Definition yields (bs : list IRBasicBlock) (c : Config) : Prop :=
  let '(current, fr, s) := c in
  exists block fr' s', find_block bs current = Ok block /\ last (instructions block) = Some YieldCheck /\
    exec rn (instructions block) (terminator block) fr s = Done (Ok (None, fr')) s'.

Lemma run_step bs c c' n : block_step bs c c' -> run_at (S n) bs c = run_at n bs c'.
Proof.
  intros [cur fr s b next fr' s' Hb He|cur fr s b fr1 s1 next fr2 Hb He Ht];
    unfold run_at; rewrite run_S, Hb, bindM_liftO; unfold bindM; rewrite He; [done|].
  unfold continue_at, bindM, liftO. by rewrite Ht.
Qed.

(** A run of more than [k] blocks is a run from where [k] steps lead. *)
Lemma run_steps bs k c c' n : nsteps (block_step bs) k c c' -> run_at (k + n) bs c = run_at n bs c'.
Proof. induction 1 as [|k c1 c2 c3 Hs _ IH]; [done|]. simpl. by rewrite (run_step _ _ _ _ Hs). Qed.

(** A run that restarts its function takes steps to a block with a tail call and runs
    that block to its end. *)
Lemma run_restarts n bs c args s' : run_at n bs c = Done (Ok (TailRestart args)) s' ->
  exists k cur fr s block fr1, k < n /\ nsteps (block_step bs) k c (cur, fr, s) /\ find_block bs cur = Ok block /\
    is_tail_call block = true /\ exec rn (instructions block) (terminator block) fr s = Done (Ok (None, fr1)) s'.
Proof.
  revert c. induction n as [|n IH]; intros [[cur fr] s]; unfold run_at; [done|]. rewrite run_S.
  intros (b & s1 & [= Hb <-] & ([jump fr1] & s2 & He & Hr)%bindM_ok)%bindM_ok.
  destruct jump as [next|].
  - destruct (IH (next, fr1, s2) Hr) as (k & c & f & s3 & bl & f1 & Hk & Hn & Hrest).
    exists (S k), c, f, s3, bl, f1. split; [lia|]. split; [|done]. econstructor; [by econstructor 1|done].
  - unfold continue_at in Hr. apply bindM_ok in Hr as ([o|[next fr2]] & s3 & [= Ht <-] & Hr).
    + injection Hr as -> <-. exists 0, cur, fr, s, b, fr1. split; [lia|]. split; [constructor|]. split; [done|].
      split; [|done]. unfold is_tail_call. destruct (terminator b) as [| |[]| |]; simpl in Ht; try done.
      * by destruct (bind_block_params _ _ _).
      * destruct (lookup_value _ _) as [[]| |]; simpl in Ht; try done. by destruct (bind_block_params _ _ _).
      * by destruct (lookup_value _ _).
    + destruct (IH (next, fr2, s2) Hr) as (k & c & f & s3 & bl & f1 & Hk & Hn & Hrest).
      exists (S k), c, f, s3, bl, f1. split; [lia|]. split; [|done]. econstructor; [by econstructor 2|done].
Qed.

(** *** Checks along a run *)

Section Body.
Context (bs bs' : list IRBasicBlock) (first : IRBasicBlock) (order : list Z) (idoms : gmap Z Z).
Context (Hfirst : head bs = Some first) (Hnd : NoDup (map block_id bs)).
Context (Hins : insert_in_body bs = Some bs').
Context (Horder : postorder_traversal (length bs) bs (block_id first) = Some order).
Context (Hidoms : compute_immediate_dominators bs (block_id first) = Some idoms).
Context (Hred : reducible bs = true).

Lemma first_known : block_id first ∈ map block_id bs.
Proof. clear -Hfirst. destruct bs as [|b l]; [done|]. simpl in Hfirst. simplify_eq. left. Qed.

Lemma order_ok : NoDup order /\ block_id first ∈ order /\ (forall b, b ∈ order <-> rtc (step bs) (block_id first) b) /\
  length order <= length bs.
Proof.
  destruct (postorder_ok bs (block_id first) Hnd first_known (length bs)) as (o & Ho & Hn & _ & Hr & _); [lia|].
  rewrite Horder in Ho. injection Ho as <-. split; [done|]. split; [by apply Hr|]. split; [done|].
  rewrite <- (length_map block_id bs). apply submseteq_length, NoDup_submseteq; [done|]. intros x Hx%Hr.
  apply rtc_inv_r in Hx as [<-|(y & _ & (? & _ & _ & _ & ?))]; [apply first_known|done].
Qed.

Lemma edges_reduce b : b ∈ bs -> block_id b ∈ order ->
  (forall i t, i ∈ instructions b -> t ∈ receive_targets i -> rank order t < rank order (block_id b)) /\
  (forall t, t ∈ targets (terminator b) -> rank order t < rank order (block_id b) \/
     dominates (length bs) idoms (block_id first) t (block_id b) = Some true).
Proof.
  intros Hb Ho. assert (exists l, bs = first :: l) as [l El] by (clear -Hfirst; destruct bs; simplify_eq/=; eauto).
  revert Horder Hidoms Hred Hb. rewrite El. unfold reducible. intros -> -> Hr Hb. rewrite forallb_forall in Hr.
  specialize (Hr b (proj1 (list_elem_of_In _ _) Hb)). rewrite bool_decide_eq_true_2 in Hr by done.
  apply andb_true_iff in Hr as [H1 H2]. rewrite forallb_forall in H1, H2.
  split.
  - intros i t Hi Ht. apply Nat.ltb_lt, H1. apply in_concat. exists (receive_targets i).
    split; [apply in_map|]; by apply list_elem_of_In.
  - intros t Ht. apply list_elem_of_In, H2, orb_true_iff in Ht as [Ht|Ht]; [left; by apply Nat.ltb_lt|right].
    by apply bool_decide_eq_true in Ht.
Qed.

Lemma find_checked cur b' : find_block bs' cur = Ok b' ->
  exists b, b ∈ bs /\ block_id b = cur /\ checked b b' /\
    ((is_tail_call b = true \/ exists t, t ∈ targets (terminator b) /\
        dominates (length bs) idoms (block_id first) t cur = Some true) -> last (instructions b') = Some YieldCheck).
Proof.
  intros [Hin Hid]%find_block_elem. assert (exists l, bs = first :: l) as [l El] by (clear -Hfirst; destruct bs; simplify_eq/=; eauto).
  revert Hins Hidoms. rewrite El. unfold insert_in_body. intros (oi & Hoi & Hm%mapM_Some)%bind_Some Hidoms'.
  apply list_elem_of_lookup in Hin as [n Hn]. destruct (Forall2_lookup_r _ _ _ _ _ Hm Hn) as (b & Hb & Hc).
  pose proof (check_block_checked _ _ _ _ _ Hc) as Hch. apply list_elem_of_lookup_2 in Hb. exists b. split; [done|].
  pose proof (checked_id _ _ Hch) as He. split; [congruence|]. split; [done|]. intros Hwhy.
  unfold check_block in Hc. apply bind_Some in Hc as (be & Hbe & [= <-]).
  assert (is_tail_call b || be = true) as ->; [|apply last_snoc].
  destruct Hwhy as [-> |(t & Ht & Hd)]; [done|]. apply orb_true_iff. right.
  assert (has_branch (first :: l) = true) as Hbr.
  { apply existsb_exists. exists b. split; [by apply list_elem_of_In|]. destruct (terminator b); set_solver. }
  rewrite Hbr, Hidoms' in Hoi. injection Hoi as <-. eapply any_dominates_true; [exact Hbe| |].
  - unfold successors. apply elem_of_app. by right.
  - rewrite <- He, Hid. exact Hd.
Qed.

Lemma step_down p fr s t fr' s' : block_step bs' (p, fr, s) (t, fr', s') -> p ∈ order ->
  yields bs' (p, fr, s) \/ rank order t < rank order p.
Proof.
  intros Hs Hp. inversion Hs as [? ? ? b' ? ? ? Hf He|? ? ? b' fr1 ? ? ? Hf He Ht]; subst;
    destruct (find_checked p b' Hf) as (b & Hb & <- & Hch & Hy); destruct (edges_reduce b Hb Hp) as [Hrec Hterm].
  - right. destruct (exec_jump _ _ _ _ _ _ _ _ _ _ _ _ He) as (i & Hi & Hti). eapply Hrec; [|exact Hti].
    destruct Hch as [-> | ->]; [done|]. apply elem_of_app in Hi as [Hi|Hi]; [done|].
    apply list_elem_of_singleton in Hi as ->. by apply not_elem_of_nil in Hti.
  - rewrite (checked_terminator b b' Hch) in *. apply terminator_target in Ht. destruct (Hterm t Ht) as [Hr|Hd]; [by right|left].
    unfold yields. rewrite <- (checked_terminator b b' Hch) in He. exists b', fr1, s'. split; [done|]. split; [|done]. apply Hy. right. eauto.
Qed.

Lemma step_in_order c c' : block_step bs' c c' -> c.1.1 ∈ order -> c'.1.1 ∈ map block_id bs -> c'.1.1 ∈ order.
Proof.
  intros Hs Hp Hk. destruct order_ok as (_ & _ & Ho & _). apply Ho in Hp. apply Ho. eapply rtc_r; [exact Hp|].
  destruct Hs as [p fr s b' t fr' s' Hf He|p fr s b' fr1 s1 t fr' Hf He Ht]; simpl in *;
    destruct (find_checked p b' Hf) as (b & Hb & <- & Hch & _); exists b; (split; [done|]); (split; [done|]); (split; [|done]);
    unfold successors; apply elem_of_app.
  - left. destruct (exec_jump _ _ _ _ _ _ _ _ _ _ _ _ He) as (i & Hi & Hti). apply list_elem_of_In, in_concat.
    exists (receive_targets i). split; [|by apply list_elem_of_In]. apply in_map, list_elem_of_In.
    destruct Hch as [-> | ->]; [done|]. apply elem_of_app in Hi as [Hi|Hi]; [done|].
    apply list_elem_of_singleton in Hi as ->. by apply not_elem_of_nil in Hti.
  - right. rewrite <- (checked_terminator _ _ Hch). by eapply terminator_target.
Qed.

Lemma step_known c c' : block_step bs' c c' -> c.1.1 ∈ map block_id bs.
Proof.
  intros [p fr s b' t fr' s' Hf He|p fr s b' fr1 s1 t fr' Hf He Ht]; simpl;
    destruct (find_checked p b' Hf) as (b & Hb & <- & _); by apply list_elem_of_fmap_2.
Qed.

Lemma steps_in_order k c c' : nsteps (block_step bs') k c c' -> c.1.1 ∈ order -> c'.1.1 ∈ map block_id bs -> c'.1.1 ∈ order.
Proof.
  induction 1 as [|k c1 c2 c3 Hs Hn IH]; [done|]. intros Hp Hk. apply IH; [|done]. eapply step_in_order; [done..|].
  inversion Hn; subst; [done|by eapply step_known].
Qed.

Lemma steps_yield n c c' : nsteps (block_step bs') (S n) c c' -> c.1.1 ∈ order ->
  (exists i ci, i <= n /\ nsteps (block_step bs') i c ci /\ yields bs' ci) \/ n <= rank order c.1.1.
Proof.
  revert c. induction n as [|n IH]; intros c Hn Hp; [right; lia|].
  inversion Hn as [|? ? c1 ? Hs Hn']; subst. destruct c as [[p fr] s], c1 as [[t fr'] s'].
  destruct (step_down p fr s t fr' s' Hs Hp) as [Hy|Hr]; [left; exists 0, (p, fr, s); split; [lia|split; [constructor|done]]|].
  destruct (IH (t, fr', s') Hn') as [(i & ci & Hi & Hni & Hy)|Hrk].
  - eapply step_in_order; [done..|]. inversion Hn'; subst. by eapply step_known.
  - left. exists (S i), ci. split; [lia|]. split; [by econstructor|done].
  - right. simpl in *. lia.
Qed.
End Body.
End Steps.

Lemma acquire_after (insts : list IRInstruction) n p :
  is_param_acquire ((insts ++ [YieldCheck]) !! n) p = is_param_acquire (insts !! n) p.
Proof.
  destruct (decide (n < length insts)) as [Hlt|Hge]; [by rewrite lookup_app_l|].
  rewrite lookup_app_r, (lookup_ge_None_2 insts n) by lia. by destruct (n - length insts).
Qed.

Lemma prefix_after ps insts : promotion_prefix_len ps (insts ++ [YieldCheck]) = promotion_prefix_len ps insts.
Proof.
  unfold promotion_prefix_len. generalize 0. induction ps as [|p ps IH]; intros n; [done|]. simpl. rewrite IH.
  f_equal. unfold promotion_step. by rewrite acquire_after.
Qed.

(** The whole pass on a function whose promotion prologue is in its entry block. *)
Lemma insert_in_function_total f :
  NoDup (map block_id (blocks f)) ->
  (forall entry rest, blocks f = entry :: rest -> promotion_prefix_len (params f) (instructions entry) <= length (instructions entry)) ->
  is_Some (insert_in_function f).
Proof.
  intros Hnd Hpre. unfold insert_in_function. destruct (kind f); try by eexists.
  destruct (insert_in_body_total _ Hnd) as [bs' Hb]. rewrite Hb. cbn [mbind option_bind].
  unfold insert_entry_check. destruct (contains_call _); [|by eexists]. cbn [blocks with_blocks params].
  pose proof (insert_in_body_checked _ _ Hb) as Hc. destruct bs' as [|e' bs']; [by eexists|].
  inversion Hc as [|e ? rest ? Hce _ Ebs]; subst. specialize (Hpre e rest (eq_sym Ebs)).
  destruct (Nat.leb_spec (promotion_prefix_len (params f) (instructions e')) (length (instructions e'))) as [|Hgt]; [by eexists|].
  exfalso. destruct Hce as [-> | ->]; simpl in Hgt; [lia|]. rewrite prefix_after, length_app in Hgt. lia.
Qed.


(** A loop that never ends: [0 -> 1], [1 -> 2 | 3], [2 -> 1]. *)
Definition spin : list IRBasicBlock :=
  [mkBlock 0%Z [] [Const 0%Z (CBool true)] (Branch (target_to 1%Z));
   mkBlock 1%Z [] [] (CondBranch 0%Z (target_to 3%Z) (target_to 2%Z));
   mkBlock 2%Z [] [] (Branch (target_to 1%Z));
   mkBlock 3%Z [] [] (Return None)].

Example spin_checked : insert_in_body spin = Some
  [mkBlock 0%Z [] [Const 0%Z (CBool true)] (Branch (target_to 1%Z));
   mkBlock 1%Z [] [] (CondBranch 0%Z (target_to 3%Z) (target_to 2%Z));
   mkBlock 2%Z [] [YieldCheck] (Branch (target_to 1%Z));
   mkBlock 3%Z [] [] (Return None)].
Proof. by vm_compute. Qed.

(** No calls, and no function to call. *)
Definition lone : CallResolver := program_resolver (mkProgram [] EmptyString []).
Definition spin_start : IRBlockId * Frame * State unit := (0%Z, mkFrame [] ∅ ∅, mkState ∅ tt).

