(* ===== verification/YieldSound.v ===== *)
(** * Yield checks change nothing else

    The other half of the pass modelled in [YieldChecks]: on a host that never asks a
    process to yield ([calm]), a program or script with yield checks runs as it did
    without them. A body and its checked version are compared block by block
    ([only_checks]); the interface [Transforms] does the rest. *)

From stdpp Require Import strings gmap.
From S2P Require Import Prelude Protocol IRValue EvalOps BinaryOps IRFunction Dominators Interpreter EvalRefine EvalFacts YieldChecks.
Local Open Scope Z_scope.

(** [l'] is [l] with yield checks inserted. *)
Inductive inserted : list IRInstruction -> list IRInstruction -> Prop :=
| inserted_nil : inserted [] []
| inserted_cons i l l' : inserted l l' -> inserted (i :: l) (i :: l')
| inserted_check l l' : inserted l l' -> inserted l (YieldCheck :: l').

Lemma inserted_refl l : inserted l l.
Proof. induction l; by constructor. Qed.

Lemma inserted_trans l1 l2 l3 : inserted l1 l2 -> inserted l2 l3 -> inserted l1 l3.
Proof.
  intros H12 H23. revert l1 H12. induction H23 as [|i l l' _ IH|l l' _ IH]; intros l1 H12; [done| |].
  - inversion H12; subst; constructor; by apply IH.
  - constructor. by apply IH.
Qed.

Lemma inserted_app l1 l1' l2 l2' : inserted l1 l1' -> inserted l2 l2' -> inserted (l1 ++ l2) (l1' ++ l2').
Proof. induction 1; intros; simpl; [done|constructor; auto..]. Qed.

Record only_checks (b b' : IRBasicBlock) : Prop := {
  oc_id : block_id b' = block_id b;
  oc_params : block_params b' = block_params b;
  oc_terminator : terminator b' = terminator b;
  oc_instructions : inserted (instructions b) (instructions b');
}.

Lemma only_checks_refl b : only_checks b b.
Proof. split; try done. apply inserted_refl. Qed.

Lemma only_checks_trans b1 b2 b3 : only_checks b1 b2 -> only_checks b2 b3 -> only_checks b1 b3.
Proof. intros [] []. split; [congruence..|]. by eapply inserted_trans. Qed.

(** ** The pass only inserts checks *)

Lemma checked_only b b' : checked b b' -> only_checks b b'.
Proof.
  intros [-> | ->]; [apply only_checks_refl|]. split; try done. simpl. rewrite <- (app_nil_r (instructions b)) at 1.
  apply inserted_app; [apply inserted_refl|]. repeat constructor.
Qed.

Lemma insert_in_body_only bs bs' : insert_in_body bs = Some bs' -> Forall2 only_checks bs bs'.
Proof. intros H%insert_in_body_checked. eapply Forall2_impl; [exact H|]. apply checked_only. Qed.

Lemma insert_entry_check_only f f' : insert_entry_check f = Some f' ->
  f' = with_blocks f (blocks f') /\ Forall2 only_checks (blocks f) (blocks f').
Proof.
  assert (forall bs, Forall2 only_checks bs bs) as Hrefl by (intros bs; apply Forall2_same_length_lookup; split; [done|];
    intros i x y Hx Hy; simplify_eq; apply only_checks_refl).
  unfold insert_entry_check. destruct (contains_call f); [|intros [= <-]; by destruct f].
  destruct (blocks f) as [|b bs] eqn:Eb; [intros [= <-]; rewrite Eb; split; [by destruct f; simplify_eq/=|done]|].
  destruct (_ <=? _)%nat; [|done]. intros [= <-]. split; [done|]. simpl. constructor; [|done]. split; try done. simpl.
  rewrite <- (take_drop (promotion_prefix_len (params f) (instructions b)) (instructions b)) at 1.
  apply inserted_app; [apply inserted_refl|constructor; apply inserted_refl].
Qed.

Lemma insert_in_function_only f f' : insert_in_function f = Some f' ->
  f' = with_blocks f (blocks f') /\ Forall2 only_checks (blocks f) (blocks f') /\ (kind f <> Regular -> f' = f).
Proof.
  assert (forall g, f = g -> g = with_blocks f (blocks g) /\ Forall2 only_checks (blocks f) (blocks g)) as Hid.
  { intros g <-. split; [by destruct f|]. apply Forall2_same_length_lookup. split; [done|]. intros i x y Hx Hy.
    simplify_eq. apply only_checks_refl. }
  unfold insert_in_function. destruct (kind f) eqn:Ek; intros Hf;
    try (simplify_eq; destruct (Hid f' eq_refl); split; [done|split; done]).
  apply bind_Some in Hf as (bs & Hb%insert_in_body_only & [He Ho]%insert_entry_check_only). split; [exact He|].
  split; [|done]. simpl in Ho. clear -Hb Ho. revert Ho. generalize (blocks f'). induction Hb as [|b b1 bs0 bs1 Hb _ IH]; intros bs2 Ho;
    inversion Ho; subst; constructor; [by eapply only_checks_trans|by apply IH].
Qed.

(** ** Running a body with checks *)

Section Body.
Context {W : Type} `{Host W} (oc : bool).
Context (R R' : CallResolver) (tc : IRFunction -> IRFunction) `{!Transforms R R' tc}.
Context (call call' : IRFunction -> list Value -> M W Value).
Context (call_closure call_closure' : IRFunction -> list Value -> list Value -> M W Value).
Context (Hcall : forall f args, known R f -> refinesM (call f args) (call' (tc f) args)).
Context (Hclosure : forall f args caps, known R f -> refinesM (call_closure f args caps) (call_closure' (tc f) args caps)).
Context (calm : forall w, reduce w = (false, w)).

Lemma remove_defined_inserted l l' vs : inserted l l' -> remove_defined l' vs = remove_defined l vs.
Proof. intros Hi. revert vs. induction Hi as [|i l l' _ IH|l l' _ IH]; intros vs; [done|apply IH..]. Qed.

Lemma uses_inserted l l' id : inserted l l' ->
  existsb (fun i => uses_value i id) l' = existsb (fun i => uses_value i id) l.
Proof. induction 1 as [|i l l' _ IH|l l' _ IH]; simpl; [done|by rewrite IH|done]. Qed.

Lemma release_inserted i l l' term fr s : inserted l l' ->
  release_dead_registers (W:=W) R' i l' term fr s = release_dead_registers R i l term fr s.
Proof.
  intros Hi. rewrite (release_tc R R' tc). unfold release_dead_registers. destruct (consuming_receiver R i) as [r|]; [|done].
  assert (inserted (i :: l) (i :: l')) as Hi' by by constructor. rewrite (remove_defined_inserted _ _ _ Hi').
  assert (forall fr w, release_exit_registers r (i :: l') term fr w = release_exit_registers (W:=W) r (i :: l) term fr w) as Hex.
  { intros fr0 w. unfold release_exit_registers, exit_dead. destruct (values fr0 !! r); [|done]. f_equal.
    apply map_filter_ext. intros k x _. by rewrite (uses_inserted _ _ _ Hi'). }
  destruct term; try done; unfold ask; by rewrite Hex.
Qed.

(** A check on a calm host does nothing. *)
Lemma exec_check n l term fr s :
  execute_instructions (W:=W) oc R' call' call_closure' n (YieldCheck :: l) term fr s =
  execute_instructions oc R' call' call_closure' n l term fr s.
Proof.
  rewrite execute_instructions_cons by done. unfold release_dead_registers. simpl consuming_receiver. cbn beta iota.
  unfold execute_instruction. simpl execute_instruction_value. unfold bindM, perform, ret. rewrite calm. by destruct s.
Qed.

Lemma exec_inserted n l l' term fr : inserted l l' ->
  refinesM (execute_instructions oc R call call_closure n l term fr)
           (execute_instructions oc R' call' call_closure' n l' term fr).
Proof.
  intros Hi. revert fr. induction Hi as [|i l l' Hl IH|l l' Hl IH]; intros fr; [reflexivity| |].
  - destruct (is_receive i) eqn:Ei.
    + destruct i; try done. simpl. apply refinesM_bind; [by apply (execute_receive_refines R R' tc)|reflexivity].
    + rewrite !execute_instructions_cons by done.
      apply refinesM_bind; [eapply refinesM_ext_r; [intros s; symmetry; by apply release_inserted|reflexivity]|intros fr1].
      apply refinesM_bind; [by apply (execute_instruction_refines oc R R' tc)|apply IH].
  - eapply refinesM_ext_r; [|apply IH]. intros s. symmetry. apply exec_check.
Qed.

Lemma find_only bs bs' id : Forall2 only_checks bs bs' ->
  (find_block bs id = Crash /\ find_block bs' id = Crash) \/
  exists b b', find_block bs id = Ok b /\ find_block bs' id = Ok b' /\ only_checks b b'.
Proof.
  unfold find_block. induction 1 as [|b b' bs bs' Hb _ IH]; simpl; [by left|]. rewrite (oc_id _ _ Hb).
  destruct (_ =? _)%Z; [|exact IH]. right. by exists b, b'.
Qed.

Lemma terminator_only bs bs' term fr : Forall2 only_checks bs bs' ->
  execute_terminator bs' term fr = execute_terminator bs term fr.
Proof.
  intros Hbs. assert (forall t vs, bind_block_params t bs' vs = bind_block_params t bs vs) as Hbind.
  { intros t vs. unfold bind_block_params.
    destruct (find_only bs bs' (target_block t) Hbs) as [[-> ->]|(b & b' & -> & -> & Hb)]; [done|].
    simpl. by rewrite (oc_params _ _ Hb). }
  destruct term; simpl; try done; by rewrite ?Hbind || (destruct (lookup_value _ _) as [[]| |]; try done; simpl; by rewrite Hbind).
Qed.

Lemma run_only n rn bs bs' current fr : Forall2 only_checks bs bs' ->
  refinesM (run_blocks oc R call call_closure n rn bs current fr)
           (run_blocks oc R' call' call_closure' n rn bs' current fr).
Proof.
  intros Hbs. revert current fr. induction n as [|n IH]; intros current fr; [apply refinesM_no_fuel|]. simpl.
  destruct (find_only bs bs' current Hbs) as [[-> ->]|(b & b' & -> & -> & Hb)]; [by apply refinesM_liftO_wrong|].
  intros s. rewrite !bindM_liftO, (oc_terminator _ _ Hb). revert s.
  apply refinesM_bind; [by apply exec_inserted, oc_instructions|]. intros [[next|] fr1]; [apply IH|].
  rewrite (terminator_only bs bs') by done. apply refinesM_bind; [reflexivity|].
  intros [o|[next fr2]]; [reflexivity|apply IH].
Qed.

Lemma blocks_only n bs bs' fr : Forall2 only_checks bs bs' ->
  refinesM (execute_blocks oc R call call_closure n bs fr) (execute_blocks oc R' call' call_closure' n bs' fr).
Proof.
  intros Hbs. unfold execute_blocks. destruct Hbs as [|b b' l l' Hb Hl]; [reflexivity|].
  rewrite (oc_id _ _ Hb). by apply run_only; constructor.
Qed.
End Body.

(** ** Programs and scripts *)

Definition checked_function (f : IRFunction) : IRFunction := default f (insert_in_function f).

Lemma checked_function_only f :
  checked_function f = with_blocks f (blocks (checked_function f)) /\
  Forall2 only_checks (blocks f) (blocks (checked_function f)) /\ (kind f <> Regular -> checked_function f = f).
Proof.
  unfold checked_function. destruct (insert_in_function f) as [f'|] eqn:E; [by apply insert_in_function_only|].
  split; [by destruct f|]. split; [|done]. apply Forall2_same_length_lookup. split; [done|].
  intros i x y Hx Hy. simplify_eq/=. apply only_checks_refl.
Qed.

Definition checked_package (p : IRPackage) : IRPackage :=
  mkPackage (constants p) (enums p) (checked_function <$> functions p) (package p) (structs p).

Lemma insert_yield_checks_packages ps body ps' body' :
  insert_yield_checks ps body = Some (ps', body') -> ps' = map checked_package ps /\ Forall2 only_checks body body'.
Proof.
  intros (ps1 & Hps%mapM_Some & (body1 & Hb%insert_in_body_only & [= <- <-])%bind_Some)%bind_Some. split; [|done].
  induction Hps as [|p p' ps ps1 Hp _ IH]; [done|]. simpl. rewrite <- IH. f_equal.
  unfold insert_in_package in Hp. by destruct (bool_decide _); simplify_eq.
Qed.

Lemma checks_transform order entry ps :
  Transforms (program_resolver (mkProgram order entry ps))
    (program_resolver (mkProgram order entry (map checked_package ps))) checked_function.
Proof.
  split; try done; simpl.
  - intros s. by apply find_in_same.
  - intros s. by apply find_in_same.
  - intros s. by apply find_in_same.
  - intros s. by apply find_in_fmap.
  - intros f. apply checked_function_only.
  - intros f. apply checked_function_only.
Qed.

Section Program.
Context {W : Type} `{Host W} (oc da : bool) (calm : forall w, reduce w = (false, w)).
Context (R R' : CallResolver) `{!Transforms R R' checked_function}.

Lemma functions_checked n :
  calls_refine (W:=W) oc da R R' checked_function n n /\ closures_refine (W:=W) oc da R R' checked_function n n.
Proof.
  assert (forall n, calls_refine (W:=W) oc da R R' checked_function n n /\
    closures_refine (W:=W) oc da R R' checked_function n n /\ bodies_refine (W:=W) oc da R R' checked_function n n) as Hall.
  { apply transform_refines; [done|]. clear n. intros n Hc Hcl Hb f args Hf Hk. simpl.
    destruct (checked_function_only f) as (_ & Hbs & _).
    rewrite (params_tc R R' checked_function), (return_type_tc R R' checked_function).
    apply refinesM_bind; [by apply (blocks_only oc R R' checked_function)|].
    intros [v|new_args]; [reflexivity|by apply Hb]. }
  split; apply Hall.
Qed.
End Program.

(** Functions are registered under their own symbols. *)
Definition keyed (ps : list IRPackage) : bool :=
  forallb (fun p => bool_decide (map_Forall (fun k f => symbol f = k) (functions p))) ps.

Lemma keyed_function ps order entry s f :
  keyed ps = true -> program_function (mkProgram order entry ps) s = Some f -> symbol f = s.
Proof.
  unfold keyed, program_function. simpl. induction ps as [|p ps IH]; simpl; [done|].
  intros [Hp%bool_decide_eq_true Hps]%andb_true_iff. destruct (functions p !! s) as [g|] eqn:E; [|by apply IH].
  intros [= <-]. by apply Hp.
Qed.

(** C39: yield checks are transparent: on a host that never asks a process to yield, a
    program and a script with the checks inserted end in the outcome and the state they
    ended in without them, with the same fuel, unless the original runs out of fuel or
    goes wrong. *)
Theorem yield_checks_transparent {W} `{Host W} oc da ps body ps' body'
    (calm : forall w : W, reduce w = (false, w)) (inserts : insert_yield_checks ps body = Some (ps', body')) :
  (forall order entry fuel args s, keyed ps = true ->
     refines (run_program (W:=W) oc da fuel (mkProgram order entry ps) args s)
             (run_program (W:=W) oc da fuel (mkProgram order entry ps') args s)) /\
  (forall order ty fuel s,
     refines (run_script (W:=W) oc da fuel (mkScript body order ps ty) s)
             (run_script (W:=W) oc da fuel (mkScript body' order ps' ty) s)).
Proof.
  apply insert_yield_checks_packages in inserts as [-> Hbody]. split.
  - intros order entry fuel args s Hkeyed. pose proof (checks_transform order entry ps) as Tr.
    unfold run_program. cbn [entry_point]. unfold bindM, liftO.
    rewrite (tr_resolve (R:=program_resolver (mkProgram order entry ps))
      (R':=program_resolver (mkProgram order entry (map checked_package ps))) entry : program_function _ _ = _). simpl cr_resolve.
    destruct (program_function (mkProgram order entry ps) entry) as [e|] eqn:Ee; simpl; [|by left].
    destruct (kind e) eqn:Ek; try (by left). destruct (checked_function_only e) as (_ & _ & He). rewrite He, Ek by congruence.
    apply (run_entry_body_refines oc da _ _ checked_function); [by apply functions_checked|].
    intros f. simpl. rewrite (keyed_function _ _ _ _ _ Hkeyed Ee), Ee. intros [= <-]. by rewrite Ek.
  - intros order ty fuel s. pose proof (checks_transform order "" ps) as Tr. unfold run_script, build_constants.
    destruct (functions_checked (W:=W) oc da calm _ _ fuel) as [Hc Hcl]. revert s.
    apply refinesM_bind; [by apply (run_built_inits_refines oc da _ _ checked_function)|intros _].
    apply refinesM_bind; [by apply (blocks_only oc _ _ checked_function)|reflexivity].
Qed.

(** A function that calls another in a loop, run from an entry wrapper. *)
Definition step_fn : IRFunction :=
  mkFunction
    [mkBlock 0 [] [LocalDecl 0 TInt64; LocalWrite 0 0; LocalRead 1 0 TInt64; Const 2 (CInt64 1); BinaryOp 3 1 Sub TInt64 2]
       (Return (Some 3))]
    Regular [mkParam 0 0 TInt64] TInt64 "App.step".

Definition main_fn : IRFunction :=
  mkFunction
    [ mkBlock 0 [] [LocalDecl 0 (TList TString); LocalWrite 0 0; Const 1 (CInt64 3)] (Branch (target_with_args 1 [1]));
      mkBlock 1 [mkBlockParam 2 TInt64] [Const 3 (CInt64 0); BinaryOp 4 2 Eq TInt64 3]
        (CondBranch 4 (target_to 2) (target_to 3));
      mkBlock 2 [] [Call 5 "App.step" [2]] (Branch (target_with_args 1 [5]));
      mkBlock 3 [] [] (Return (Some 2)) ]
    Regular [mkParam 0 0 (TList TString)] TInt64 "App.main".

Definition main_entry : IRFunction :=
  mkFunction [mkBlock 0 [] [Call 1 "App.main" [0]] (Return (Some 1))]
    (ProcessEntryWrapper TUnit) [mkParam 0 0 (TList TString)] TInt64 "App.entry".

Definition main_packages : list IRPackage :=
  [mkPackage ∅ ∅ (<["App.step":=step_fn]> (<["App.main":=main_fn]> {["App.entry":=main_entry]})) "App" ∅].

(** The entry check lands after the prologue, the loop check at the back edge. *)
Example main_checked :
  map instructions (blocks (checked_function main_fn)) =
  [[LocalDecl 0 (TList TString); LocalWrite 0 0; YieldCheck; Const 1 (CInt64 3)];
   [Const 3 (CInt64 0); BinaryOp 4 2 Eq TInt64 3]; [Call 5 "App.step" [2]; YieldCheck]; []].
Proof. vm_compute. reflexivity. Qed.

Lemma yield_checks_transparent_witness :
  exists ps' body', insert_yield_checks main_packages [] = Some (ps', body') /\
    refines (run_program true true 60 (mkProgram [] "App.entry" main_packages) [] (mkState ∅ tt))
            (run_program true true 60 (mkProgram [] "App.entry" ps') [] (mkState ∅ tt)) /\
    run_program true true 60 (mkProgram [] "App.entry" main_packages) [] (mkState ∅ tt) = Done (Ok (VInt 0)) (mkState ∅ tt).
Proof.
  destruct (insert_yield_checks main_packages []) as [[ps' body']|] eqn:E; [|exfalso; vm_compute in E; discriminate].
  exists ps', body'. split; [done|]. split; [|vm_compute; reflexivity].
  destruct (yield_checks_transparent (W:=unit) true true main_packages [] ps' body') as [Hrun _]; [done|exact E|].
  apply Hrun. vm_compute. reflexivity.
Defined.
