(* ===== verification/TailCalls.v ===== *)
(** * Tail calls

    Models [koja-ir/src/tail_calls.rs]: the collapse of return forwarders, the match
    on a self-recursive call before a return, and its rewrite into a [TailCall] with
    acquired or moved arguments. The [while] loop of the collapse takes fuel; as many
    turns as the function has blocks are enough ([collapse_terminates]).

    [rewrite_complete] shows that the pass leaves no call it could have rewritten and
    that a second run changes nothing, as its comment claims. That the pass preserves what a program computes is in
    [TailCallsSound]. *)

From stdpp Require Import strings gmap sorting.
From S2P Require Import Prelude IRValue IRFunction.
Local Open Scope Z_scope.

Definition function_has_tail_call (f : IRFunction) : bool :=
  existsb (fun b => match terminator b with TailCall _ _ => true | _ => false end) (blocks f).

Definition is_self_call (sym : IRSymbol) (i : IRInstruction) : bool :=
  match i with Call _ callee _ => bool_decide (callee = sym) | _ => false end.

Definition contains_self_call (f : IRFunction) : bool :=
  existsb (fun b => existsb (is_self_call (symbol f)) (instructions b)) (blocks f).

(** ** Return forwarders *)

Inductive ForwarderShape := ReturnsParam | ReturnsUnit.

(** [edge_args[0]]: [edges_are_collapsible] has checked that there is one. *)
Definition returned_value (shape : ForwarderShape) (edge_args : list ValueId) : option ValueId :=
  match shape with ReturnsParam => Some (hd 0 edge_args) | ReturnsUnit => None end.

Definition is_exit_drop (param : ValueId) (i : IRInstruction) : bool :=
  match i with
  | DropLocal _ _ => true
  | DropValue value _ => negb (value =? param)
  | _ => false
  end.

Definition forwarder_shape (b : IRBasicBlock) : option ForwarderShape :=
  match block_params b with
  | [param] =>
      shape ← match terminator b with
              | Return (Some returned) => if returned =? param_dest param then Some ReturnsParam else None
              | Return None => if is_heap_managed (param_ty param) then None else Some ReturnsUnit
              | _ => None
              end;
      if forallb (is_exit_drop (param_dest param)) (instructions b) then Some shape else None
  | _ => None
  end.

Definition legs (t : IRTerminator) : list BranchTarget :=
  match t with
  | Branch target => [target]
  | CondBranch _ else_target then_target => [then_target; else_target]
  | _ => []
  end.

Definition edges_are_collapsible (f : IRFunction) (target : IRBlockId) : bool :=
  let hits := List.filter (fun leg => target_block leg =? target) (concat (map (fun b => legs (terminator b)) (blocks f))) in
  forallb (fun leg => (length (target_args leg) =? 1)%nat) hits && negb (length hits =? 0)%nat.

(** The first block past the entry that can be collapsed, with its shape. *)
Fixpoint find_forwarder (f : IRFunction) (bs : list IRBasicBlock) : option (IRBasicBlock * ForwarderShape) :=
  match bs with
  | [] => None
  | b :: rest =>
      match forwarder_shape b with
      | Some shape => if edges_are_collapsible f (block_id b) then Some (b, shape) else find_forwarder f rest
      | None => find_forwarder f rest
      end
  end.

Section Collapse.
Context (target : IRBlockId) (exit_drops : list IRInstruction) (shape : ForwarderShape).

Definition trampoline (id : IRBlockId) (args : list ValueId) : IRBasicBlock :=
  mkBlock id [] exit_drops (Return (returned_value shape args)).

(** One leg of a [CondBranch]: the new leg, the next id and the trampoline, if any. *)
Definition retarget_leg (leg : BranchTarget) (next_block : Z) : BranchTarget * Z * list IRBasicBlock :=
  if target_block leg =? target then
    (target_to next_block, next_block + 1, [trampoline next_block (target_args leg)])
  else (leg, next_block, []).

Definition collapse_block (b : IRBasicBlock) (next_block : Z) : IRBasicBlock * Z * list IRBasicBlock :=
  match terminator b with
  | Branch branch =>
      if target_block branch =? target then
        (mkBlock (block_id b) (block_params b) (instructions b ++ exit_drops)
           (Return (returned_value shape (target_args branch))), next_block, [])
      else (b, next_block, [])
  | CondBranch cond else_target then_target =>
      let '(then_target, next_block, t1) := retarget_leg then_target next_block in
      let '(else_target, next_block, t2) := retarget_leg else_target next_block in
      (mkBlock (block_id b) (block_params b) (instructions b) (CondBranch cond else_target then_target),
       next_block, t1 ++ t2)
  | _ => (b, next_block, [])
  end.

Fixpoint collapse_blocks (bs : list IRBasicBlock) (next_block : Z) : list IRBasicBlock * list IRBasicBlock :=
  match bs with
  | [] => ([], [])
  | b :: rest =>
      let '(b, next_block, t) := collapse_block b next_block in
      let '(rest, ts) := collapse_blocks rest next_block in
      (b :: rest, t ++ ts)
  end.
End Collapse.

(** [None] is the [false] that signals the fixpoint. *)
Definition collapse_one_forwarder (f : IRFunction) : option IRFunction :=
  match find_forwarder f (tl (blocks f)) with
  | None => None
  | Some (m, shape) =>
      let '(bs, trampolines) :=
        collapse_blocks (block_id m) (instructions m) shape (blocks f) (next_block_id f) in
      Some (with_blocks f (List.filter (fun b => negb (block_id b =? block_id m)) (bs ++ trampolines)))
  end.

Fixpoint collapse_loop (fuel : nat) (f : IRFunction) : option IRFunction :=
  match fuel with
  | O => None
  | S fuel =>
      match collapse_one_forwarder f with
      | None => Some f
      | Some f' => collapse_loop fuel f'
      end
  end.

Definition collapse_return_forwarders (f : IRFunction) : IRFunction :=
  default f (collapse_loop (S (length (blocks f))) f).

(** ** The rewrite *)

Record RewritePlan := mkPlan { plan_args : list ValueId; call_index : nat }.

(** The reverse scan over the numbered instructions. *)
Fixpoint scan_tail (returned : option ValueId) (enclosing : IRSymbol) (l : list (nat * IRInstruction))
    : option RewritePlan :=
  match l with
  | [] => None
  | (index, i) :: rest =>
      match i with
      | DropLocal _ _ | DropValue _ _ => scan_tail returned enclosing rest
      | Call dest callee args =>
          if negb (bool_decide (callee = enclosing)) then None
          else match returned with
          | Some id => if id =? dest then Some (mkPlan args index) else None
          | None => Some (mkPlan args index)
          end
      | _ => None
      end
  end.

Definition match_tail_call (b : IRBasicBlock) (enclosing : IRSymbol) : option RewritePlan :=
  match terminator b with
  | Return returned => scan_tail returned enclosing (rev (imap pair (instructions b)))
  | _ => None
  end.

(** The slot [arg] reads in the block and that is never written after the read. *)
Definition passthrough_slot (insts : list IRInstruction) (call_index : nat) (arg : ValueId) : option IRLocalId :=
  let read i := match i with LocalRead dest slot _ => if dest =? arg then Some slot else None | _ => None end in
  let fix position (n : nat) (l : list IRInstruction) : option (nat * IRLocalId) :=
    match l with
    | [] => None
    | i :: rest => match read i with Some slot => Some (n, slot) | None => position (S n) rest end
    end in
  '(read_index, slot) ← position 0%nat (take call_index insts);
  if existsb (fun i => match i with LocalWrite local _ => local =? slot | _ => false end)
       (drop (S read_index) insts)
  then None else Some slot.

Definition consumes_drop (arg : ValueId) (slot : option IRLocalId) (i : IRInstruction) : bool :=
  match i with
  | DropValue value _ => value =? arg
  | DropLocal local _ => bool_decide (slot = Some local)
  | _ => false
  end.

(** The first index at or past [index] whose drop [arg] may take over. *)
Fixpoint find_drop (arg : ValueId) (slot : option IRLocalId) (taken : list nat) (index : nat)
    (l : list IRInstruction) : option nat :=
  match l with
  | [] => None
  | i :: rest =>
      if negb (bool_decide (index ∈ taken)) && consumes_drop arg slot i then Some index
      else find_drop arg slot taken (S index) rest
  end.

Definition passthrough_drop (insts : list IRInstruction) (call_index : nat) (arg : ValueId) (taken : list nat)
    : option nat :=
  find_drop arg (passthrough_slot insts call_index arg) taken call_index (drop call_index insts).

(** The loop over the arguments zipped with the parameter types: the new arguments,
    the clones, the elided drops and the next fresh value. *)
Fixpoint acquire_args (insts : list IRInstruction) (call_index : nat) (args : list ValueId) (tys : list IRType)
    (elided : list nat) (next : Z) : list ValueId * list IRInstruction * list nat * Z :=
  match args, tys with
  | arg :: args, ty :: tys =>
      if negb (is_heap_managed ty) then
        let '(out, clones, elided, next) := acquire_args insts call_index args tys elided next in
        (arg :: out, clones, elided, next)
      else
        match passthrough_drop insts call_index arg elided with
        | Some drop_index =>
            let '(out, clones, elided, next) :=
              acquire_args insts call_index args tys (elided ++ [drop_index]) next in
            (arg :: out, clones, elided, next)
        | None =>
            let dest := next in
            let '(out, clones, elided, next) := acquire_args insts call_index args tys elided (next + 1) in
            (dest :: out, Clone dest arg ty :: clones, elided, next)
        end
  | _, _ => (args, [], elided, next)
  end.

Definition insert_at {A} (i : nat) (x : A) (l : list A) : list A := take i l ++ x :: drop i l.

(** Sorted, then removed from the highest down. *)
Definition remove_indices {A} (indices : list nat) (l : list A) : list A :=
  fold_left (fun l i => delete i l) (rev (merge_sort le indices)) l.

Fixpoint insert_all {A} (i : nat) (xs : list A) (l : list A) : list A :=
  match xs with [] => l | x :: xs => insert_all (S i) xs (insert_at i x l) end.

Definition apply_plan (b : IRBasicBlock) (plan : RewritePlan) (enclosing : IRSymbol) (param_types : list IRType)
    (next : Z) : IRBasicBlock * Z :=
  let insts := delete (call_index plan) (instructions b) in
  let '(args, clones, elided, next) := acquire_args insts (call_index plan) (plan_args plan) param_types [] next in
  let insts := remove_indices elided insts in
  let insts := insert_all (call_index plan) clones insts in
  (mkBlock (block_id b) (block_params b) insts (TailCall args enclosing), next).

Fixpoint rewrite_blocks (enclosing : IRSymbol) (param_types : list IRType) (bs : list IRBasicBlock) (next : Z)
    : list IRBasicBlock :=
  match bs with
  | [] => []
  | b :: rest =>
      match match_tail_call b enclosing with
      | Some plan =>
          let '(b, next) := apply_plan b plan enclosing param_types next in
          b :: rewrite_blocks enclosing param_types rest next
      | None => b :: rewrite_blocks enclosing param_types rest next
      end
  end.

Definition rewrite_function (f : IRFunction) : IRFunction :=
  let f := if contains_self_call f then collapse_return_forwarders f else f in
  with_blocks f (rewrite_blocks (symbol f) (map fparam_ty (params f)) (blocks f) (next_value_id f)).

Definition rewrite_if_regular (f : IRFunction) : IRFunction :=
  match kind f with Regular => rewrite_function f | _ => f end.

(** [rewrite_tail_calls] on a package. *)
Definition rewrite_package (p : IRPackage) : IRPackage :=
  mkPackage (constants p) (enums p) (rewrite_if_regular <$> functions p) (package p) (structs p).

Definition rewrite_tail_calls (ps : list IRPackage) : list IRPackage := map rewrite_package ps.

(** ** The collapse, described block by block *)

(** What happens to a leg and to a block, given the trampolines that were made. *)
Inductive leg_collapsed (target : IRBlockId) (drops : list IRInstruction) (shape : ForwarderShape)
    (ts : list IRBasicBlock) : BranchTarget -> BranchTarget -> Prop :=
| leg_kept leg : target_block leg <> target -> leg_collapsed target drops shape ts leg leg
| leg_moved args id :
    trampoline drops shape id args ∈ ts ->
    leg_collapsed target drops shape ts (mkTarget args target) (target_to id).

Inductive block_collapsed (target : IRBlockId) (drops : list IRInstruction) (shape : ForwarderShape)
    (ts : list IRBasicBlock) : IRBasicBlock -> IRBasicBlock -> Prop :=
| block_kept b :
    match terminator b with Branch t => target_block t <> target | CondBranch _ _ _ => False | _ => True end ->
    block_collapsed target drops shape ts b b
| block_returns id ps insts args :
    block_collapsed target drops shape ts (mkBlock id ps insts (Branch (mkTarget args target)))
      (mkBlock id ps (insts ++ drops) (Return (returned_value shape args)))
| block_cond id ps insts cond e t e' t' :
    leg_collapsed target drops shape ts e e' -> leg_collapsed target drops shape ts t t' ->
    block_collapsed target drops shape ts (mkBlock id ps insts (CondBranch cond e t))
      (mkBlock id ps insts (CondBranch cond e' t')).

#[export] Hint Constructors leg_collapsed block_collapsed : koja.

Section CollapseFacts.
Context (target : IRBlockId) (drops : list IRInstruction) (shape : ForwarderShape).

Lemma leg_collapsed_mono ts ts' leg leg' :
  ts ⊆ ts' -> leg_collapsed target drops shape ts leg leg' -> leg_collapsed target drops shape ts' leg leg'.
Proof. intros Hsub []; constructor; auto. Qed.

Lemma block_collapsed_mono ts ts' b b' :
  ts ⊆ ts' -> block_collapsed target drops shape ts b b' -> block_collapsed target drops shape ts' b b'.
Proof. intros Hsub []; constructor; eauto using leg_collapsed_mono. Qed.

Lemma block_collapsed_head ts b b' :
  block_collapsed target drops shape ts b b' -> block_id b' = block_id b /\ block_params b' = block_params b.
Proof. by intros []. Qed.

(** Fresh trampolines: numbered from [n], without parameters. *)
Definition fresh_trampolines (n n' : Z) (ts : list IRBasicBlock) : Prop :=
  n <= n' /\ NoDup (map block_id ts) /\
  Forall (fun t => n <= block_id t < n' /\ exists args, t = trampoline drops shape (block_id t) args) ts.

Lemma fresh_trampolines_nil n : fresh_trampolines n n [].
Proof. split; [lia|]. split; constructor. Qed.

Lemma fresh_trampolines_app n m k ts us :
  fresh_trampolines n m ts -> fresh_trampolines m k us -> fresh_trampolines n k (ts ++ us).
Proof.
  intros (Hn & Hd & Hf) (Hm & Hd' & Hf'). split; [lia|]. rewrite map_app. split.
  - apply NoDup_app. split; [done|]. split; [|done].
    intros id (t & -> & Ht)%list_elem_of_fmap (u & Heq & Hu)%list_elem_of_fmap.
    rewrite Forall_forall in Hf, Hf'. specialize (Hf _ Ht) as [? _]. specialize (Hf' _ Hu) as [? _]. lia.
  - apply Forall_app. split; (eapply Forall_impl; [eassumption|]); simpl; intros ? [? ?]; split; (done || lia).
Qed.

Lemma retarget_leg_spec leg n leg' n' ts :
  retarget_leg target drops shape leg n = (leg', n', ts) ->
  fresh_trampolines n n' ts /\ leg_collapsed target drops shape ts leg leg'.
Proof.
  unfold retarget_leg. destruct (Z.eqb_spec (target_block leg) target) as [He|Hne]; intros [= <- <- <-].
  - split.
    + split; [lia|]. split; [apply NoDup_singleton|]. constructor; [|constructor]. simpl. eauto with lia.
    + destruct leg as [args b]. simpl in *. subst b. constructor. left.
  - split; [apply fresh_trampolines_nil|]. by constructor.
Qed.

Lemma collapse_block_spec b n b' n' ts :
  collapse_block target drops shape b n = (b', n', ts) ->
  fresh_trampolines n n' ts /\ block_collapsed target drops shape ts b b'.
Proof.
  unfold collapse_block. destruct b as [id ps insts term]; simpl. destruct term as [br|cond e t| | | ]; simpl.
  2:{ destruct (retarget_leg _ _ _ t n) as [[t1 n1] ts1] eqn:E1.
      destruct (retarget_leg _ _ _ e n1) as [[e2 n2] ts2] eqn:E2. intros [= <- <- <-].
      apply retarget_leg_spec in E1 as [F1 L1]. apply retarget_leg_spec in E2 as [F2 L2].
      split; [by eapply fresh_trampolines_app|].
      constructor; (eapply leg_collapsed_mono; [|eassumption]); set_solver. }
  { destruct (Z.eqb_spec (target_block br) target) as [He|Hne]; intros [= <- <- <-];
      (split; [apply fresh_trampolines_nil|]).
    - destruct br as [args b]. simpl in *. subst b. constructor.
    - by constructor. }
  all: intros [= <- <- <-]; split; [apply fresh_trampolines_nil|by constructor].
Qed.

Lemma collapse_blocks_spec bs n bs' ts :
  collapse_blocks target drops shape bs n = (bs', ts) ->
  exists n', fresh_trampolines n n' ts /\ Forall2 (block_collapsed target drops shape ts) bs bs'.
Proof.
  revert n bs' ts. induction bs as [|b bs IH]; simpl; intros n bs' ts.
  - intros [= <- <-]. exists n. split; [apply fresh_trampolines_nil|constructor].
  - destruct (collapse_block _ _ _ b n) as [[b1 n1] t1] eqn:E1.
    destruct (collapse_blocks _ _ _ bs n1) as [bs2 ts2] eqn:E2. intros [= <- <-].
    apply collapse_block_spec in E1 as [F1 B1]. apply IH in E2 as (n2 & F2 & B2).
    exists n2. split; [by eapply fresh_trampolines_app|].
    constructor; [eapply block_collapsed_mono; [|eassumption]; set_solver|].
    eapply Forall2_impl; [eassumption|]. intros. eapply block_collapsed_mono; [|eassumption]. set_solver.
Qed.
End CollapseFacts.

Lemma find_forwarder_spec f bs m shape :
  find_forwarder f bs = Some (m, shape) ->
  m ∈ bs /\ forwarder_shape m = Some shape /\ edges_are_collapsible f (block_id m) = true.
Proof.
  induction bs as [|b bs IH]; simpl; [done|].
  destruct (forwarder_shape b) as [s|] eqn:Es.
  - destruct (edges_are_collapsible f (block_id b)) eqn:Ee.
    + intros [= <- <-]. repeat split; [left|done|done].
    + intros (? & ? & ?)%IH. split; [by right|done].
  - intros (? & ? & ?)%IH. split; [by right|done].
Qed.

(** A forwarder has one parameter and only exit drops. *)
Lemma forwarder_shape_spec b shape :
  forwarder_shape b = Some shape ->
  exists p, block_params b = [p] /\ forallb (is_exit_drop (param_dest p)) (instructions b) = true /\
    match shape with
    | ReturnsParam => terminator b = Return (Some (param_dest p))
    | ReturnsUnit => terminator b = Return None /\ is_heap_managed (param_ty p) = false
    end.
Proof.
  unfold forwarder_shape. destruct (block_params b) as [|p [|]]; try done. intros Hs. exists p. split; [done|].
  destruct (terminator b) as [| |[r|]| |]; simpl in Hs; try done;
    [destruct (Z.eqb_spec r (param_dest p)); try done; subst r|destruct (is_heap_managed _) eqn:Eh; try done];
    simpl in Hs; destruct (forallb _ _); try done; by injection Hs as <-.
Qed.

Lemma next_block_id_bound f b : b ∈ blocks f -> block_id b < next_block_id f.
Proof.
  unfold next_block_id. intros Hb%(list_elem_of_fmap_2 block_id).
  change (block_id <$> blocks f) with (map block_id (blocks f)) in Hb.
  destruct (map block_id (blocks f)) as [|id ids]; [by apply elem_of_nil in Hb|].
  assert (forall ids a, a <= fold_left Z.max ids a /\ forall x, x ∈ ids -> x <= fold_left Z.max ids a) as Hmax.
  { clear. induction ids as [|i ids IH]; simpl; intros a.
    - split; [lia|]. intros x Hx%elem_of_nil. done.
    - destruct (IH (Z.max a i)) as [H1 H2]. split; [lia|].
      intros x [->|Hx]%elem_of_cons; [lia|by apply H2]. }
  destruct (Hmax ids id) as [H1 H2]. apply elem_of_cons in Hb as [->|Hb]; [lia|]. specialize (H2 _ Hb). lia.
Qed.

(** One collapse, as the facts its correctness needs. *)
Lemma collapse_one_spec f f' :
  collapse_one_forwarder f = Some f' ->
  exists m shape bs ts n',
    m ∈ tl (blocks f) /\ forwarder_shape m = Some shape /\ edges_are_collapsible f (block_id m) = true /\
    fresh_trampolines (instructions m) shape (next_block_id f) n' ts /\
    Forall2 (block_collapsed (block_id m) (instructions m) shape ts) (blocks f) bs /\
    f' = with_blocks f (List.filter (fun b => negb (block_id b =? block_id m)) (bs ++ ts)).
Proof.
  unfold collapse_one_forwarder. destruct (find_forwarder _ _) as [[m shape]|] eqn:Ef; [|done].
  destruct (collapse_blocks _ _ _ _ _) as [bs ts] eqn:Ec. intros [= <-].
  apply find_forwarder_spec in Ef as (Hm & Hs & He). apply collapse_blocks_spec in Ec as (n' & Ht & Hb).
  exists m, shape, bs, ts, n'. done.
Qed.

(** ** Termination of the collapse *)

(** The blocks that could still be forwarders. *)
Definition joins (bs : list IRBasicBlock) : nat :=
  length (List.filter (fun b => (length (block_params b) =? 1)%nat) bs).

Lemma joins_app bs bs' : joins (bs ++ bs') = (joins bs + joins bs')%nat.
Proof. unfold joins. by rewrite List.filter_app, length_app. Qed.

Lemma joins_le bs : (joins bs <= length bs)%nat.
Proof. apply List.filter_length_le. Qed.

Lemma joins_collapsed target drops shape ts bs bs' :
  Forall2 (block_collapsed target drops shape ts) bs bs' -> joins bs' = joins bs.
Proof.
  unfold joins. induction 1 as [|b b' bs bs' Hb _ IH]; simpl; [done|].
  apply block_collapsed_head in Hb as [_ ->]. destruct (_ =? _)%nat; simpl; by rewrite IH.
Qed.

Lemma joins_trampolines drops shape n n' ts : fresh_trampolines drops shape n n' ts -> joins ts = 0%nat.
Proof.
  intros (_ & _ & Hf). unfold joins. induction Hf as [|t ts [_ [args ->]] _ IH]; simpl; done.
Qed.

Lemma joins_filter_lt (keep : IRBasicBlock -> bool) bs m :
  m ∈ bs -> keep m = false -> length (block_params m) = 1%nat -> (joins (List.filter keep bs) < joins bs)%nat.
Proof.
  unfold joins. intros Hm Hk Hl. induction bs as [|b bs IH]; [by apply elem_of_nil in Hm|].
  assert (forall l, (length (List.filter (fun b => (length (block_params b) =? 1)%nat) (List.filter keep l)) <=
                     length (List.filter (fun b => (length (block_params b) =? 1)%nat) l))%nat) as Hle.
  { clear. induction l as [|a l IH]; simpl; [lia|]. destruct (keep a); simpl; destruct (_ =? _)%nat; simpl; lia. }
  simpl. apply elem_of_cons in Hm as [<-|Hm].
  - rewrite Hk, Hl. simpl. specialize (Hle bs). lia.
  - specialize (IH Hm). destruct (keep b); simpl; destruct (_ =? _)%nat; simpl; lia.
Qed.

Lemma collapse_one_decreases f f' : collapse_one_forwarder f = Some f' -> (joins (blocks f') < joins (blocks f))%nat.
Proof.
  intros (m & shape & bs & ts & n' & Hm & Hs & _ & Ht & Hb & ->)%collapse_one_spec. simpl.
  rewrite <- (joins_collapsed _ _ _ _ _ _ Hb).
  replace (joins bs) with (joins (bs ++ ts)) by (rewrite joins_app, (joins_trampolines _ _ _ _ _ Ht); lia).
  assert (m ∈ blocks f) as Hin by (destruct (blocks f); [done|by right]).
  destruct (proj1 (list_elem_of_lookup _ _) Hin) as [i Hi].
  destruct (Forall2_lookup_l _ _ _ _ _ Hb Hi) as (m' & Hi' & Hmm').
  destruct (block_collapsed_head _ _ _ _ _ _ Hmm') as [Hid Hps].
  apply forwarder_shape_spec in Hs as (p & Hp & _).
  apply (joins_filter_lt _ _ m').
  - apply elem_of_app. left. by eapply list_elem_of_lookup_2.
  - by rewrite Hid, Z.eqb_refl.
  - by rewrite Hps, Hp.
Qed.

Lemma collapse_loop_enough fuel f :
  (joins (blocks f) < fuel)%nat ->
  exists f', collapse_loop fuel f = Some f' /\ collapse_one_forwarder f' = None.
Proof.
  revert f. induction fuel as [|fuel IH]; intros f Hlt; [lia|]. simpl.
  destruct (collapse_one_forwarder f) as [f1|] eqn:E; [|by exists f].
  apply IH. apply collapse_one_decreases in E. lia.
Qed.

Lemma collapse_ends f :
  exists f', collapse_loop (S (length (blocks f))) f = Some f' /\ collapse_return_forwarders f = f' /\
    collapse_one_forwarder f' = None.
Proof.
  destruct (collapse_loop_enough (S (length (blocks f))) f) as (f' & Hl & Hn).
  - pose proof (joins_le (blocks f)). lia.
  - exists f'. unfold collapse_return_forwarders. by rewrite Hl.
Qed.

Lemma collapse_fixpoint f : collapse_one_forwarder (collapse_return_forwarders f) = None.
Proof. destruct (collapse_ends f) as (f' & _ & -> & Hn). done. Qed.

(** A function of the same name, parameters and kind, with other blocks. *)
Lemma collapse_loop_header fuel f f' :
  collapse_loop fuel f = Some f' -> f' = with_blocks f (blocks f').
Proof.
  revert f. induction fuel as [|fuel IH]; intros f; simpl; [done|].
  destruct (collapse_one_forwarder f) as [f1|] eqn:E.
  - intros ->%IH. apply collapse_one_spec in E as (? & ? & ? & ? & ? & _ & _ & _ & _ & _ & ->). done.
  - intros [= <-]. by destruct f.
Qed.

Lemma collapse_header f : collapse_return_forwarders f = with_blocks f (blocks (collapse_return_forwarders f)).
Proof. destruct (collapse_ends f) as (f' & Hl & -> & _). by eapply collapse_loop_header. Qed.

(** ** The matched shape *)

Definition returns_call (returned : option ValueId) (dest : ValueId) : bool :=
  match returned with Some id => id =? dest | None => true end.

Lemma scan_tail_spec returned enclosing insts plan :
  scan_tail returned enclosing (rev (imap pair insts)) = Some plan ->
  exists pre dest drops,
    insts = pre ++ Call dest enclosing (plan_args plan) :: drops /\ forallb is_drop drops = true /\
    call_index plan = length pre /\ returns_call returned dest = true.
Proof.
  induction insts as [|i insts IH] using rev_ind; simpl; [done|].
  rewrite imap_app. simpl. rewrite rev_app_distr. simpl.
  destruct i; try done.
  1:{ destruct (bool_decide (callee = enclosing)) eqn:Ec; simpl; [|done].
      apply bool_decide_eq_true in Ec as ->. intros Hs. exists insts, dest, [].
      destruct returned as [id|]; simpl in *; [destruct (id =? dest); [|done]|];
        injection Hs as <-; simpl; rewrite Nat.add_0_r; done. }
  all: intros (pre & dest & drops & -> & Hd & Hi & Hr)%IH;
    eexists pre, dest, (drops ++ [_]); rewrite <- app_assoc; simpl;
    (split; [done|]); (split; [by rewrite forallb_app, Hd|done]).
Qed.

Lemma match_tail_call_spec b enclosing plan :
  match_tail_call b enclosing = Some plan ->
  exists returned pre dest drops,
    terminator b = Return returned /\
    instructions b = pre ++ Call dest enclosing (plan_args plan) :: drops /\ forallb is_drop drops = true /\
    call_index plan = length pre /\ returns_call returned dest = true.
Proof.
  unfold match_tail_call. destruct (terminator b) as [| |returned| |]; try done.
  intros (pre & dest & drops & Hs)%scan_tail_spec. by exists returned, pre, dest, drops.
Qed.

(** ** Idempotence *)

(** How the rewrite leaves the blocks: as they were, or ending in a [TailCall]. *)
Definition rewritten (enclosing : IRSymbol) (b b' : IRBasicBlock) : Prop :=
  match_tail_call b enclosing = None /\ b' = b \/
  block_id b' = block_id b /\ block_params b' = block_params b /\ legs (terminator b) = [] /\
  exists args, terminator b' = TailCall args enclosing.

Lemma rewrite_blocks_shape enclosing tys bs next :
  Forall2 (rewritten enclosing) bs (rewrite_blocks enclosing tys bs next).
Proof.
  revert next. induction bs as [|b bs IH]; intros next; simpl; [constructor|].
  destruct (match_tail_call b enclosing) as [plan|] eqn:Em; [|by constructor; [left|]].
  destruct (apply_plan b plan enclosing tys next) as [b' next'] eqn:Ea. constructor; [|done]. right.
  unfold apply_plan in Ea. destruct (acquire_args _ _ _ _ _ _) as [[[args clones] elided] n].
  injection Ea as <- <-. simpl. apply match_tail_call_spec in Em as (r & ? & ? & ? & -> & _). eauto.
Qed.

Lemma rewrite_blocks_fixed enclosing tys bs bs' next :
  Forall2 (rewritten enclosing) bs bs' -> rewrite_blocks enclosing tys bs' next = bs'.
Proof.
  intros Hr. revert next. induction Hr as [|b b' bs bs' Hb _ IH]; intros next; simpl; [done|].
  assert (match_tail_call b' enclosing = None) as ->.
  { destruct Hb as [[Hn ->]|(_ & _ & _ & args & Ht)]; [done|]. unfold match_tail_call. by rewrite Ht. }
  by rewrite IH.
Qed.

Lemma rewritten_legs enclosing bs bs' :
  Forall2 (rewritten enclosing) bs bs' ->
  map (fun b => legs (terminator b)) bs' = map (fun b => legs (terminator b)) bs.
Proof.
  induction 1 as [|b b' bs bs' Hb _ IH]; simpl; [done|]. rewrite IH. f_equal.
  destruct Hb as [[_ ->]|(_ & _ & Hl & args & ->)]; [done|]. by rewrite Hl.
Qed.

Lemma edges_same f f' target :
  map (fun b => legs (terminator b)) (blocks f') = map (fun b => legs (terminator b)) (blocks f) ->
  edges_are_collapsible f' target = edges_are_collapsible f target.
Proof. unfold edges_are_collapsible. by intros ->. Qed.

Lemma find_forwarder_rewritten enclosing f f' bs bs' :
  (forall target, edges_are_collapsible f' target = edges_are_collapsible f target) ->
  Forall2 (rewritten enclosing) bs bs' -> find_forwarder f bs = None -> find_forwarder f' bs' = None.
Proof.
  intros Hedges. induction 1 as [|b b' bs bs' Hb _ IH]; simpl; [done|].
  destruct Hb as [[_ ->]|(_ & _ & _ & args & Ht)].
  - rewrite Hedges. destruct (forwarder_shape b); [|done]. by destruct (edges_are_collapsible _ _).
  - intros Hnone.
    assert (forwarder_shape b' = None) as ->.
    { unfold forwarder_shape. rewrite Ht. by destruct (block_params b') as [|? [|]]. }
    apply IH. destruct (forwarder_shape b); [|done]. by destruct (edges_are_collapsible _ _).
Qed.

Lemma collapse_one_rewritten f bs' :
  collapse_one_forwarder f = None -> Forall2 (rewritten (symbol f)) (blocks f) bs' ->
  collapse_one_forwarder (with_blocks f bs') = None.
Proof.
  unfold collapse_one_forwarder. intros Hn Hr.
  destruct (find_forwarder f _) as [[m s]|] eqn:Ef; [by destruct (collapse_blocks _ _ _ _ _)|].
  rewrite (find_forwarder_rewritten (symbol f) f (with_blocks f bs') (tl (blocks f)) _); try done.
  - intros target. apply edges_same. simpl. by eapply rewritten_legs.
  - simpl. by destruct Hr.
Qed.

(** Without a self-recursive call there is nothing to match. *)
Lemma no_self_call_unmatched f b :
  contains_self_call f = false -> b ∈ blocks f -> match_tail_call b (symbol f) = None.
Proof.
  intros Hc Hb. destruct (match_tail_call b (symbol f)) as [plan|] eqn:Em; [|done]. exfalso.
  apply match_tail_call_spec in Em as (r & pre & dest & drops & _ & Hi & _).
  assert (contains_self_call f = true) as Ht; [|congruence].
  unfold contains_self_call. apply existsb_exists. exists b. split; [by apply list_elem_of_In|].
  rewrite Hi. rewrite existsb_app. simpl. rewrite bool_decide_eq_true_2 by done. by rewrite orb_true_r.
Qed.

Lemma rewrite_blocks_unmatched enclosing tys bs next :
  Forall (fun b => match_tail_call b enclosing = None) bs -> rewrite_blocks enclosing tys bs next = bs.
Proof. induction 1 as [|b bs Hb _ IH]; simpl; [done|]. by rewrite Hb, IH. Qed.

Lemma rewrite_no_self_call f : contains_self_call f = false -> rewrite_function f = f.
Proof.
  intros Hc. unfold rewrite_function. rewrite Hc, rewrite_blocks_unmatched; [by destruct f|].
  apply Forall_forall. intros b Hb. by apply no_self_call_unmatched.
Qed.

Lemma collapse_none f : collapse_one_forwarder f = None -> collapse_return_forwarders f = f.
Proof. intros Hn. unfold collapse_return_forwarders. simpl. by rewrite Hn. Qed.

Lemma rewrite_shape f :
  exists g, contains_self_call f = true /\ collapse_one_forwarder g = None /\ symbol g = symbol f /\
      (exists bs, rewrite_function f = with_blocks g bs /\ Forall2 (rewritten (symbol g)) (blocks g) bs) \/
    contains_self_call f = false /\ rewrite_function f = f.
Proof.
  exists (collapse_return_forwarders f).
  destruct (contains_self_call f) eqn:Hc; [left|right; split; [done|by apply rewrite_no_self_call]].
  split; [done|]. split; [apply collapse_fixpoint|]. split; [by rewrite collapse_header|].
  unfold rewrite_function. rewrite Hc. eexists. split; [done|]. apply rewrite_blocks_shape.
Qed.

(** The pass is complete and idempotent: in the function it returns no block ends
    in a self-recursive call whose result is returned, no return forwarder hides one,
    and running the pass again, as its comment says, changes nothing. *)
Theorem rewrite_complete f :
  rewrite_function (rewrite_function f) = rewrite_function f /\
  (forall b, b ∈ blocks (rewrite_function f) -> match_tail_call b (symbol f) = None) /\
  (contains_self_call f = true -> collapse_one_forwarder (rewrite_function f) = None).
Proof.
  destruct (rewrite_shape f) as [g [(Hc & Hfix & Hsym & bs & -> & Hr)|[Hc ->]]].
  - assert (collapse_one_forwarder (with_blocks g bs) = None) as Hn by (by apply collapse_one_rewritten).
    assert ((if contains_self_call (with_blocks g bs) then collapse_return_forwarders (with_blocks g bs)
             else with_blocks g bs) = with_blocks g bs) as Hf
      by (destruct (contains_self_call (with_blocks g bs)); [by apply collapse_none|done]).
    split; [|split; [|done]].
    + unfold rewrite_function. rewrite Hf. simpl. by erewrite rewrite_blocks_fixed.
    + intros b' Hb'. simpl in Hb'. apply list_elem_of_lookup in Hb' as [i Hi].
      destruct (Forall2_lookup_r _ _ _ _ _ Hr Hi) as (b & _ & Hbb). rewrite <- Hsym.
      destruct Hbb as [[Hn' ->]|(_ & _ & _ & args & Ht)]; [done|]. unfold match_tail_call. by rewrite Ht.
  - split; [by apply rewrite_no_self_call|]. split; [|by rewrite Hc].
    intros b Hb. by apply no_self_call_unmatched.
Qed.

(** The loop of the collapse ends: a turn for every block, and one to notice, are
    enough, and where it ends no forwarder is left. *)
Theorem collapse_terminates f :
  exists f', collapse_loop (S (length (blocks f))) f = Some f' /\ collapse_one_forwarder f' = None.
Proof. destruct (collapse_ends f) as (f' & Hl & _ & Hn). by exists f'. Qed.
