(* ===== verification/TailCallsSound.v ===== *)
(** * Tail calls preserve what a program computes

    The refinement proof for the pass of [TailCalls], against the evaluator of
    [Interpreter]: the collapse of return forwarders and the rewrite of self-recursive
    calls are two transformations in the sense of [Transforms], shown correct
    separately and composed.

    [lowered_ok] says what the pass relies on, as a decidable check on the program it
    is given: block ids are distinct, the targets of [Receive] take no block
    parameters, a bare [Return] only stands in a [Unit] function, functions are stored
    under their own symbol, and consume fusion, a later pass, has not run yet. *)

From stdpp Require Import strings gmap sorting.
From S2P Require Import Prelude Protocol IRValue EvalOps BinaryOps IRFunction Interpreter EvalRefine EvalFacts TailCalls.
Local Open Scope Z_scope.

(** ** Blocks *)

(** What is assumed of the blocks of a rewritten function. *)
Record blocks_ok (R : CallResolver) (bs : list IRBasicBlock) : Prop := {
  bo_nodup : NoDup (map block_id bs);
  bo_free : forall b i, b ∈ bs -> i ∈ instructions b -> consuming_receiver R i = None;
  bo_receive : forall b i b', b ∈ bs -> i ∈ instructions b -> b' ∈ bs -> block_id b' ∈ receive_targets i ->
    block_params b' = [];
}.

(** ** Collapsing one return forwarder *)

Lemma edges_spec f target b leg :
  edges_are_collapsible f target = true -> b ∈ blocks f -> leg ∈ legs (terminator b) ->
  target_block leg = target -> exists x, target_args leg = [x].
Proof.
  unfold edges_are_collapsible. intros [Hall _]%andb_true_iff Hb Hl <-.
  rewrite forallb_forall in Hall. specialize (Hall leg). destruct (target_args leg) as [|x [|]]; eauto; exfalso;
    (assert (In leg (List.filter (fun l => target_block l =? target_block leg)
       (concat (map (fun b => legs (terminator b)) (blocks f))))) as Hin;
     [apply filter_In; split; [|apply Z.eqb_refl]; apply in_concat; exists (legs (terminator b));
      split; [apply in_map_iff; exists b; split; [done|by apply list_elem_of_In]|by apply list_elem_of_In]|by apply Hall in Hin]).
Qed.

Lemma Forall2_elem_l {A B} (P : A -> B -> Prop) l k x : Forall2 P l k -> x ∈ l -> exists y, y ∈ k /\ P x y.
Proof.
  intros HF [i Hi]%list_elem_of_lookup. destruct (Forall2_lookup_l _ _ _ _ _ HF Hi) as (y & Hy & HP).
  exists y. split; [by eapply list_elem_of_lookup_2|done].
Qed.

Lemma Forall2_elem_r {A B} (P : A -> B -> Prop) l k y : Forall2 P l k -> y ∈ k -> exists x, x ∈ l /\ P x y.
Proof. intros HF%Forall2_flip Hy. destruct (Forall2_elem_l _ _ _ _ HF Hy) as (x & Hx & HP). by exists x. Qed.

Lemma elem_of_filterb {A} (g : A -> bool) l x : x ∈ List.filter g l <-> x ∈ l /\ g x = true.
Proof. rewrite !list_elem_of_In, filter_In. done. Qed.

Lemma NoDup_map_filter {A B} (g : A -> B) (keep : A -> bool) l : NoDup (map g l) -> NoDup (map g (List.filter keep l)).
Proof.
  induction l as [|a l IH]; simpl; [done|]. intros [Ha Hl]%NoDup_cons. destruct (keep a); simpl; [|by apply IH].
  apply NoDup_cons. split; [|by apply IH]. intros (x & Hx & Hin)%list_elem_of_fmap. apply Ha. rewrite Hx.
  apply elem_of_filterb in Hin as [Hin _]. by apply list_elem_of_fmap_2.
Qed.

Section CollapseOne.
Context (R : CallResolver) (f : IRFunction) (m : IRBasicBlock) (shape : ForwarderShape).
Context (bs ts : list IRBasicBlock) (n' : Z).
Context (Hok : blocks_ok R (blocks f)).
Context (Hm : m ∈ tl (blocks f)) (Hshape : forwarder_shape m = Some shape).
Context (Hedges : edges_are_collapsible f (block_id m) = true).
Context (Hts : fresh_trampolines (instructions m) shape (next_block_id f) n' ts).
Context (Hbs : Forall2 (block_collapsed (block_id m) (instructions m) shape ts) (blocks f) bs).

Local Notation bs' := (List.filter (fun b => negb (block_id b =? block_id m)) (bs ++ ts)).

Lemma m_in : m ∈ blocks f.
Proof. destruct (blocks f); [done|by right]. Qed.

Lemma trampoline_id t : t ∈ ts -> next_block_id f <= block_id t.
Proof. destruct Hts as (_ & _ & Hf). rewrite Forall_forall in Hf. intros Ht. apply Hf in Ht. lia. Qed.

Lemma trampoline_kept t : t ∈ ts -> t ∈ bs'.
Proof.
  intros Ht. apply elem_of_filterb. split; [by apply elem_of_app; right|].
  pose proof (trampoline_id t Ht). pose proof (next_block_id_bound f m m_in). lia.
Qed.

Lemma ids_bs : map block_id bs = map block_id (blocks f).
Proof.
  clear -Hbs. revert Hbs. generalize (blocks f). intros l0 Hl.
  induction Hl as [|b b' l l' Hb _ IH]; [done|]. simpl. rewrite IH.
  by apply block_collapsed_head in Hb as [-> _].
Qed.

Lemma collapsed_nodup : NoDup (map block_id bs').
Proof.
  apply NoDup_map_filter. rewrite map_app, ids_bs. apply NoDup_app.
  destruct Hts as (_ & Hnd & Hf). split; [apply Hok|]. split; [|done].
  intros id (b & -> & Hb)%list_elem_of_fmap (t & He & Ht)%list_elem_of_fmap.
  pose proof (trampoline_id t Ht). pose proof (next_block_id_bound f b Hb). lia.
Qed.

(** Every other block is still found, with the same parameters. *)
Lemma find_collapsed b :
  b ∈ blocks f -> block_id b <> block_id m ->
  exists b', find_block bs' (block_id b) = Ok b' /\
    block_collapsed (block_id m) (instructions m) shape ts b b'.
Proof.
  intros Hb Hne. destruct (Forall2_elem_l _ _ _ _ Hbs Hb) as (b' & Hb' & Hc). exists b'. split; [|done].
  destruct (block_collapsed_head _ _ _ _ _ _ Hc) as [Hid _]. rewrite <- Hid.
  apply find_block_unique; [apply collapsed_nodup|]. apply elem_of_filterb.
  split; [by apply elem_of_app; left|lia].
Qed.

(** What was assumed of the blocks still holds. *)
Lemma collapsed_ok : blocks_ok R bs'.
Proof.
  assert (forall b', b' ∈ bs' -> (exists b, b ∈ blocks f /\ block_id b' = block_id b /\ block_params b' = block_params b /\
      forall i, i ∈ instructions b' -> i ∈ instructions b \/ i ∈ instructions m) \/
      block_params b' = [] /\ instructions b' = instructions m) as Hfrom.
  { intros b' [Hb' _]%elem_of_filterb. apply elem_of_app in Hb' as [Hb'|Ht].
    - left. destruct (Forall2_elem_r _ _ _ _ Hbs Hb') as (b & Hb & Hcol). exists b. split; [done|].
      destruct (block_collapsed_head _ _ _ _ _ _ Hcol) as [Hid Hps]. split; [done|]. split; [done|].
      destruct Hcol; simpl; try tauto. intros i Hi. by apply elem_of_app.
    - right. destruct Hts as (_ & _ & Hf). rewrite Forall_forall in Hf. apply Hf in Ht as (_ & args & ->). done. }
  assert (forall b' i, b' ∈ bs' -> i ∈ instructions b' -> exists b, b ∈ blocks f /\ i ∈ instructions b) as Hinst.
  { intros b' i [(b & Hb & _ & _ & Hi)|[_ He]]%Hfrom Hin; [apply Hi in Hin as [?|?]|rewrite He in Hin];
      eauto using m_in. }
  split.
  - apply collapsed_nodup.
  - intros b' i Hb' Hi. destruct (Hinst b' i Hb' Hi) as (b & Hb & Hi'). by eapply bo_free.
  - intros b' i c' Hb' Hi Hc' Ht. destruct (Hinst b' i Hb' Hi) as (b & Hb & Hi').
    destruct (Hfrom c' Hc') as [(c & Hc & Hid & Hps & _)|[? _]]; [|done].
    rewrite Hps. rewrite Hid in Ht. exact (bo_receive _ _ Hok b i c Hb Hi' Hc Ht).
Qed.
Lemma m_instructions_drop : forallb is_drop (instructions m) = true.
Proof.
  apply forwarder_shape_spec in Hshape as (p & _ & Hd & _). rewrite forallb_forall in Hd |- *.
  intros i Hi. apply Hd in Hi. by destruct i.
Qed.

(** What a forwarder hands back for the argument it is given. *)
Definition forwarded (fr : Frame) (args : list ValueId) : Outcome BlockOutcome :=
  match returned_value shape args with
  | None => Ok (BDone VUnit)
  | Some x => let* v := lookup_value (values fr) x in Ok (BDone v)
  end.

Lemma execute_return bs0 fr args :
  execute_terminator bs0 (Return (returned_value shape args)) fr = let* o := forwarded fr args in Ok (inl o).
Proof.
  unfold forwarded. destruct (returned_value shape args) as [x|]; simpl; [|done]. by destruct (lookup_value _ _).
Qed.

Context {W : Type} `{Host W} (oc : bool).
Context (call : IRFunction -> list Value -> M W Value).
Context (call_closure : IRFunction -> list Value -> list Value -> M W Value).
Local Notation take := (take_leg oc R call call_closure).
Local Notation cont := (continue_at oc R call call_closure).

(** Branching into the forwarder returns, unless it runs out of fuel or is undefined. *)
Lemma take_forwarder n rn x fr :
  refinesM (take n rn (blocks f) (mkTarget [x] (block_id m)) fr)
           (match n with O => no_fuel | S _ => liftO (forwarded fr [x]) end).
Proof.
  apply forwarder_shape_spec in Hshape as Hsp. destruct Hsp as (p & Hp & _ & Ht).
  unfold take_leg, bind_block_params. simpl. rewrite (find_block_unique _ m) by (apply Hok || apply m_in). simpl.
  rewrite Hp. simpl. intros s. unfold lookup_value, bindM, liftO.
  destruct (values fr !! x) as [v|] eqn:Ex; simpl; [|by left].
  destruct n as [|n]; [done|]. rewrite run_S. unfold bindM, liftO.
  rewrite (find_block_unique _ m) by (apply Hok || apply m_in).
  rewrite exec_drops by apply m_instructions_drop. unfold continue_at, bindM, liftO, forwarded, returned_value, lookup_value.
  destruct shape; [rewrite Ht|destruct Ht as [-> _]]; simpl.
  - unfold lookup_value. rewrite lookup_insert_eq, Ex. by right.
  - by right.
Qed.

Lemma take_trampoline n rn id args fr :
  trampoline (instructions m) shape id args ∈ ts ->
  refinesM (match n with O => no_fuel | S _ => liftO (forwarded fr args) end)
           (take n rn bs' (target_to id) fr).
Proof.
  intros Ht s. destruct n as [|n]; [done|]. apply trampoline_kept in Ht.
  pose proof (find_block_unique _ _ collapsed_nodup Ht) as Hfind. simpl in Hfind.
  assert (bind_block_params (target_to id) bs' (values fr) = Ok (values fr)) as Hbind
    by (unfold bind_block_params; simpl; by rewrite Hfind).
  unfold take_leg, bindM at 1, liftO at 2. rewrite Hbind. simpl target_block.
  replace (with_values fr (values fr)) with fr by (by destruct fr).
  rewrite run_S. unfold bindM, liftO. rewrite Hfind. cbn [instructions terminator trampoline].
  rewrite exec_drops by apply m_instructions_drop. unfold continue_at, bindM, liftO. rewrite execute_return.
  destruct (forwarded fr args); by right.
Qed.
Lemma take_leg_collapsed n rn leg leg' fr :
  (forall current fr, current <> block_id m ->
     refinesM (run_blocks oc R call call_closure n rn (blocks f) current fr)
              (run_blocks oc R call call_closure n rn bs' current fr)) ->
  leg_collapsed (block_id m) (instructions m) shape ts leg leg' ->
  (target_block leg = block_id m -> exists x, target_args leg = [x]) ->
  refinesM (take n rn (blocks f) leg fr) (take n rn bs' leg' fr).
Proof.
  intros IH [leg0 Hne|args id Hid] Hone.
  - unfold take_leg, bind_block_params.
    destruct (find_block_cases (blocks f) (target_block leg0)) as [Hc|[b Hb]]; [by intros s; rewrite Hc; left|].
    destruct (find_block_elem _ _ _ Hb) as [Hin Heq].
    destruct (find_collapsed b Hin) as (b' & Hb' & Hcol); [congruence|].
    apply block_collapsed_head in Hcol as [_ Hps]. rewrite Hb, <- Heq, Hb'. simpl. rewrite Hps.
    apply refinesM_bind; [reflexivity|]. intros vs. apply IH. congruence.
  - simpl in Hone. destruct Hone as [x ->]; [done|].
    etransitivity; [apply take_forwarder|by apply take_trampoline].
Qed.

Lemma continue_collapsed n rn b b' fr :
  (forall current fr, current <> block_id m ->
     refinesM (run_blocks oc R call call_closure n rn (blocks f) current fr)
              (run_blocks oc R call call_closure n rn bs' current fr)) ->
  b ∈ blocks f -> block_collapsed (block_id m) (instructions m) shape ts b b' ->
  refinesM (cont n rn (blocks f) (terminator b) fr) (cont n rn bs' (terminator b') fr).
Proof.
  intros IH Hb Hcol. pose proof (edges_spec f (block_id m) b) as Hone.
  destruct Hcol as [b Ht|id ps insts args|id ps insts cond e t e' t' He Ht]; simpl in *.
  - destruct (terminator b) as [leg|cond e t|x|args callee|] eqn:Eb; try done;
      try (by intros s; rewrite !continue_leave).
    eapply refinesM_ext_l; [intros s; apply continue_branch|].
    eapply refinesM_ext_r; [intros s; symmetry; apply continue_branch|].
    apply take_leg_collapsed; [done|by constructor|done].
  - destruct (Hone (mkTarget args (block_id m))) as [x Hx]; try done; [left|]. simpl in Hx. subst args.
    eapply refinesM_ext_l; [intros s; apply continue_branch|]. etransitivity; [apply take_forwarder|].
    destruct n; [apply refinesM_no_fuel|]. intros s. unfold continue_at, bindM, liftO. rewrite execute_return.
    destruct (forwarded fr [x]); by right.
  - eapply refinesM_ext_l; [intros s; apply continue_cond|].
    eapply refinesM_ext_r; [intros s; symmetry; apply continue_cond|].
    apply refinesM_bind; [reflexivity|]. intros v. destruct v as [| |c| | | | | | | | | | | | | |]; try reflexivity.
    destruct c; apply take_leg_collapsed; try done; intros Heq; apply Hone; try done; [left|right; left].
Qed.

(** The blocks without the forwarder run like the blocks with it. *)
Lemma run_collapsed n rn current fr :
  current <> block_id m ->
  refinesM (run_blocks oc R call call_closure n rn (blocks f) current fr)
           (run_blocks oc R call call_closure n rn bs' current fr).
Proof.
  revert current fr. induction n as [|n IH]; intros current fr Hne; [apply refinesM_no_fuel|].
  eapply refinesM_ext_l; [intros s; apply run_S|]. eapply refinesM_ext_r; [intros s; symmetry; apply run_S|].
  destruct (find_block_cases (blocks f) current) as [Hc|[b Hb]]; [by intros s; rewrite Hc; left|].
  destruct (find_block_elem _ _ _ Hb) as [Hin <-].
  destruct (find_collapsed b Hin Hne) as (b' & Hb' & Hcol). rewrite Hb, Hb'.
  assert (Forall (fun i => consuming_receiver R i = None) (instructions b)) as Hfree
    by (apply Forall_forall; intros i Hi; by eapply bo_free).
  assert (forall s, execute_instructions oc R call call_closure rn (instructions b') (terminator b') fr s =
                    execute_instructions oc R call call_closure rn (instructions b) (terminator b) fr s) as Hexec.
  { intros s. destruct Hcol as [b ?|id ps insts args|id ps insts cond e t e' t' ? ?]; simpl in *;
      [done| |by apply exec_term].
    rewrite (exec_app oc R call call_closure rn insts (instructions m) _ (Branch (mkTarget args (block_id m)))) by done.
    unfold bindM. destruct (execute_instructions _ _ _ _ _ insts _ fr s) as [[[[next|] fr1]| |] s1|]; try done.
    by rewrite exec_drops by apply m_instructions_drop. }
  intros s. unfold bindM at 1 3, liftO. simpl. unfold bindM. rewrite Hexec.
  destruct (execute_instructions oc R call call_closure rn (instructions b) (terminator b) fr s)
    as [[[[next|] fr1]|e|] s1|] eqn:E; simpl; try done; try (by left); try (by right).
  - apply IH. intros ->. apply exec_jump in E as (i & Hi & Ht).
    pose proof (bo_receive _ _ Hok b i m Hin Hi m_in Ht) as Hp.
    apply forwarder_shape_spec in Hshape as (p & Hp' & _). congruence.
  - by apply continue_collapsed.
Qed.

End CollapseOne.

(** ** The whole collapse *)

Lemma collapse_one_ok R f f' : blocks_ok R (blocks f) -> collapse_one_forwarder f = Some f' -> blocks_ok R (blocks f').
Proof. intros Hok (m & shape & bs & ts & n' & Hm & Hs & He & Ht & Hb & ->)%collapse_one_spec.
  exact (collapsed_ok R f m shape bs ts n' Hok Hm Ht Hb).
Qed.

(** What one turn of the loop preserves, the loop preserves. *)
Lemma collapse_invariant (P : IRFunction -> Prop) (Q : IRFunction -> IRFunction -> Prop) `{!PreOrder Q} f :
  (forall f f', P f -> collapse_one_forwarder f = Some f' -> P f' /\ Q f f') ->
  P f -> P (collapse_return_forwarders f) /\ Q f (collapse_return_forwarders f).
Proof.
  intros Hstep. destruct (collapse_ends f) as (f' & Hl & -> & _). revert Hl.
  generalize (S (length (blocks f))) as fuel. intros fuel. revert f.
  induction fuel as [|fuel IH]; intros f; simpl; [done|].
  destruct (collapse_one_forwarder f) as [f1|] eqn:E; [|by intros [= <-]].
  intros Hl Hp. destruct (Hstep f f1 Hp E) as [Hp1 Hq]. destruct (IH f1 Hl Hp1) as [Hp' Hq'].
  split; [done|by etransitivity].
Qed.

Lemma collapse_ok R f : blocks_ok R (blocks f) -> blocks_ok R (blocks (collapse_return_forwarders f)).
Proof.
  intros Hok. eapply (collapse_invariant (fun f => blocks_ok R (blocks f)) (fun _ _ => True)); [|done].
  intros g g' Hg Hc. split; [by eapply collapse_one_ok|done]. Unshelve. by split.
Qed.

Section CollapseAll.
Context (R : CallResolver) {W : Type} `{Host W} (oc : bool).
Context (call : IRFunction -> list Value -> M W Value).
Context (call_closure : IRFunction -> list Value -> list Value -> M W Value).
Local Notation run_body := (execute_blocks oc R call call_closure).

Definition body_refines (f f' : IRFunction) : Prop :=
  forall n fr, refinesM (run_body n (blocks f) fr) (run_body n (blocks f') fr).

#[local] Instance body_refines_preorder : PreOrder body_refines.
Proof.
  split; [intros f n fr; reflexivity|]. intros f g h Hfg Hgh n fr. etransitivity; [apply Hfg|apply Hgh].
Qed.

Lemma collapse_one_sound f f' :
  blocks_ok R (blocks f) -> collapse_one_forwarder f = Some f' -> body_refines f f'.
Proof.
  intros Hok (m & shape & bs & ts & n' & Hm & Hs & He & Ht & Hb & ->)%collapse_one_spec.
  intros n fr. cbn [blocks with_blocks].
  pose proof (run_collapsed R f m shape bs ts n' Hok Hm Hs He Ht Hb oc call call_closure n n) as Hrun.
  destruct (blocks f) as [|b0 l] eqn:Ef; [by apply elem_of_nil in Hm|]. simpl in Hm.
  inversion Hb as [|? b1 ? bs1 Hb0 Hbl]; subst.
  assert (block_id b0 <> block_id m) as Hne.
  { intros Heq. pose proof (bo_nodup _ _ Hok) as Hnd. simpl in Hnd. apply NoDup_cons in Hnd as [Hn _]. apply Hn.
    rewrite Heq. by apply list_elem_of_fmap_2. }
  specialize (Hrun (block_id b0) fr Hne). apply block_collapsed_head in Hb0 as [Hid _].
  simpl in *. rewrite Hid in *. apply Z.eqb_neq in Hne. rewrite Hne in *. simpl in *. by rewrite Hid.
Qed.

Lemma collapse_sound f : blocks_ok R (blocks f) -> body_refines f (collapse_return_forwarders f).
Proof.
  intros Hok. apply (collapse_invariant (fun f => blocks_ok R (blocks f)) body_refines); [|done].
  intros g g' Hg Hc. split; [by eapply collapse_one_ok|by apply collapse_one_sound].
Qed.
End CollapseAll.

(** ** The rewritten instructions *)

Lemma delete_suffix {A} (pre l : list A) i : (length pre <= i)%nat -> delete i (pre ++ l) = pre ++ delete (i - length pre)%nat l.
Proof.
  intros Hi. rewrite !delete_take_drop, take_app_ge, drop_app_ge by lia.
  rewrite <- app_assoc. do 3 f_equal. lia.
Qed.

Lemma forallb_delete {A} (p : A -> bool) l i : forallb p l = true -> forallb p (delete i l) = true.
Proof.
  revert i. induction l as [|a l IH]; intros [|i]; simpl; try done; intros [Ha Hl]%andb_true_iff; [done|].
  rewrite Ha. by apply IH.
Qed.

(** Removing indices past a prefix leaves the prefix. *)
Lemma remove_indices_suffix {A} (p : A -> bool) (pre l : list A) indices :
  Forall (fun i => (length pre <= i)%nat) indices -> forallb p l = true ->
  exists l', remove_indices indices (pre ++ l) = pre ++ l' /\ forallb p l' = true.
Proof.
  intros Hi Hp. unfold remove_indices.
  assert (Forall (fun i => (length pre <= i)%nat) (rev (merge_sort le indices))) as Hr.
  { rewrite Forall_forall in Hi |- *. intros i Hin. apply Hi.
    rewrite <- (merge_sort_Permutation le indices). apply list_elem_of_In, in_rev. by apply list_elem_of_In. }
  revert l Hp. induction Hr as [|i l0 Hle _ IH]; intros l Hp; simpl; [by exists l|].
  rewrite delete_suffix by done. apply IH. by apply forallb_delete.
Qed.

Lemma insert_all_middle {A} (pre xs l : list A) : insert_all (length pre) xs (pre ++ l) = pre ++ xs ++ l.
Proof.
  revert pre. induction xs as [|x xs IH]; intros pre; simpl; [done|]. unfold insert_at.
  rewrite take_app_length, drop_app_length.
  replace (S (length pre)) with (length (pre ++ [x])) by (rewrite length_app; simpl; lia).
  change (pre ++ x :: l) with (pre ++ [x] ++ l). rewrite app_assoc, IH, <- app_assoc. done.
Qed.

Lemma find_drop_ge arg slot taken index l i : find_drop arg slot taken index l = Some i -> (index <= i)%nat.
Proof.
  revert index. induction l as [|a l IH]; intros index; simpl; [done|].
  destruct (_ && _); [intros [= <-]; lia|]. intros ?%IH. lia.
Qed.

Lemma acquire_elided insts ci args tys elided next out clones elided' next' :
  acquire_args insts ci args tys elided next = (out, clones, elided', next') ->
  Forall (fun i => (ci <= i)%nat) elided -> Forall (fun i => (ci <= i)%nat) elided'.
Proof.
  revert tys elided next out clones elided' next'.
  induction args as [|arg args IH]; intros [|ty tys] elided next out clones elided' next'; simpl;
    try (by intros [= <- <- <- <-]).
  destruct (negb (is_heap_managed ty)).
  { destruct (acquire_args _ _ _ _ _ _) as [[[o c] e] n] eqn:E. intros [= <- <- <- <-]. by eapply IH. }
  destruct (passthrough_drop _ _ _ _) as [d|] eqn:Ed;
    destruct (acquire_args _ _ _ _ _ _) as [[[o c] e] n] eqn:E; intros [= <- <- <- <-] Hf; eapply IH; try done.
  apply Forall_app. split; [done|]. constructor; [|constructor]. by eapply find_drop_ge.
Qed.

(** The clones run, and the new arguments hold the values of the old ones. *)
Lemma acquire_sound {W} `{Host W} oc R call call_closure rn term insts ci args tys elided next out clones elided' next' fr vals :
  acquire_args insts ci args tys elided next = (out, clones, elided', next') ->
  bounded next fr -> lookup_all (values fr) args = Ok vals ->
  Forall (fun i => consuming_receiver R i = None) clones /\
  exists fr', lookup_all (values fr') out = Ok vals /\
    (forall id v, values fr !! id = Some v -> values fr' !! id = Some v) /\
    forall s : State W, execute_instructions oc R call call_closure rn clones term fr s = Done (Ok (None, fr')) s.
Proof.
  revert tys elided next out clones elided' next' fr vals.
  induction args as [|arg args IH]; intros [|ty tys] elided next out clones elided' next' fr vals;
    try (intros [= <- <- <- <-] _ Hl; split; [constructor|by exists fr]).
  intros Hacq Hb Hl. simpl in Hacq, Hl. unfold lookup_value in Hl.
  destruct (values fr !! arg) as [v|] eqn:Ea; simpl in Hl; [|done].
  destruct (lookup_all (values fr) args) as [vals1| |] eqn:El; simpl in Hl; try done. injection Hl as <-.
  assert (forall elided0 o c e n, acquire_args insts ci args tys elided0 next = (o, c, e, n) ->
    Forall (fun i => consuming_receiver R i = None) c /\
    exists fr', lookup_all (values fr') (arg :: o) = Ok (v :: vals1) /\
      (forall id v, values fr !! id = Some v -> values fr' !! id = Some v) /\
      forall s : State W, execute_instructions oc R call call_closure rn c term fr s = Done (Ok (None, fr')) s) as Hkeep.
  { intros e0 o c e n E. destruct (IH _ _ _ _ _ _ _ fr vals1 E Hb El) as (Hc & fr' & Ho & Hext & Hrun).
    split; [done|]. exists fr'. simpl. unfold lookup_value. rewrite (Hext _ _ Ea). simpl. rewrite Ho. done. }
  destruct (negb (is_heap_managed ty)).
  { destruct (acquire_args _ _ _ _ _ _) as [[[o c] e] n] eqn:E. injection Hacq as <- <- <- <-. by eapply Hkeep. }
  destruct (passthrough_drop _ _ _ _) as [d|] eqn:Ed;
    destruct (acquire_args _ _ _ _ _ _) as [[[o c] e] n] eqn:E; injection Hacq as <- <- <- <-; [by eapply Hkeep|].
  assert (bounded (next + 1) (set_value fr next v)) as Hb1.
  { apply bounded_set; [|lia]. eapply bounded_mono; [done|lia]. }
  assert (forall id w, values fr !! id = Some w -> values (set_value fr next v) !! id = Some w) as Hext1.
  { intros id w Hw. simpl. rewrite lookup_insert_ne; [done|]. apply Hb in Hw. lia. }
  destruct (IH _ _ _ _ _ _ _ (set_value fr next v) vals1 E Hb1) as (Hc & fr' & Ho & Hext & Hrun).
  { by eapply lookup_all_agree. }
  split; [by constructor|]. exists fr'. split; [|split].
  - simpl. unfold lookup_value. rewrite (Hext next v) by (simpl; by rewrite lookup_insert_eq). simpl. by rewrite Ho.
  - auto.
  - intros s. cbn [execute_instructions]. unfold release_dead_registers. simpl consuming_receiver.
    unfold execute_instruction, bindM. simpl. unfold lookup_value. rewrite Ea. simpl. apply Hrun.
Qed.

(** ** The rewrite of one function *)

Lemma find_block_Forall2 (P : IRBasicBlock -> IRBasicBlock -> Prop) bs bs' id :
  Forall2 (fun b b' => block_id b' = block_id b /\ P b b') bs bs' ->
  find_block bs id = Crash \/ exists b b', find_block bs id = Ok b /\ find_block bs' id = Ok b' /\ P b b'.
Proof.
  unfold find_block. induction 1 as [|b b' bs bs' [Hid HP] _ IH]; simpl; [by left|]. rewrite Hid.
  destruct (block_id b =? id); [right; by exists b, b'|apply IH].
Qed.

(** What is assumed of a function. *)
Record function_ok (R : CallResolver) (f : IRFunction) : Prop := {
  fo_blocks : blocks_ok R (blocks f);
  fo_return : forall b, b ∈ blocks f -> terminator b = Return None -> return_type f = TUnit;
}.

(** How the pass leaves a block. *)
Definition tail_rewritten (f : IRFunction) (b b' : IRBasicBlock) : Prop :=
  b' = b \/
  exists plan next, next_value_id f <= next /\ match_tail_call b (symbol f) = Some plan /\
    b' = (apply_plan b plan (symbol f) (map fparam_ty (params f)) next).1.

Lemma acquire_next insts ci args tys elided next out clones elided' next' :
  acquire_args insts ci args tys elided next = (out, clones, elided', next') -> next <= next'.
Proof.
  revert tys elided next out clones elided' next'.
  induction args as [|arg args IH]; intros [|ty tys] elided next out clones elided' next'; simpl;
    try (by intros [= <- <- <- <-]).
  destruct (negb (is_heap_managed ty)); [|destruct (passthrough_drop _ _ _ _)];
    destruct (acquire_args _ _ _ _ _ _) as [[[o c] e] k] eqn:E; intros [= <- <- <- <-]; apply IH in E; lia.
Qed.

Lemma apply_plan_head b plan enclosing tys next :
  let '(b', next') := apply_plan b plan enclosing tys next in
  block_id b' = block_id b /\ block_params b' = block_params b /\ next <= next'.
Proof.
  unfold apply_plan. destruct (acquire_args _ _ _ _ _ _) as [[[o c] e] n] eqn:E. simpl.
  apply acquire_next in E. done.
Qed.

Lemma rewrite_blocks_spec f bs next :
  next_value_id f <= next ->
  Forall2 (fun b b' => block_id b' = block_id b /\ block_params b' = block_params b /\ tail_rewritten f b b')
    bs (rewrite_blocks (symbol f) (map fparam_ty (params f)) bs next).
Proof.
  revert next. induction bs as [|b bs IH]; intros next Hn; simpl; [constructor|].
  destruct (match_tail_call b (symbol f)) as [plan|] eqn:Em.
  - pose proof (apply_plan_head b plan (symbol f) (map fparam_ty (params f)) next) as Hh.
    destruct (apply_plan _ _ _ _ _) as [b' next'] eqn:Ea. destruct Hh as (Hid & Hps & Hle).
    constructor; [|apply IH; lia]. split; [done|]. split; [done|]. right. exists plan, next. by rewrite Ea.
  - constructor; [|by apply IH]. split; [done|]. split; [done|]. by left.
Qed.

(** The rewritten block: the same prefix, the clones, the drops that are left. *)
Lemma apply_plan_spec f b plan next :
  match_tail_call b (symbol f) = Some plan ->
  exists returned pre dest drops out clones elided next' drops',
    terminator b = Return returned /\ returns_call returned dest = true /\
    instructions b = pre ++ Call dest (symbol f) (plan_args plan) :: drops /\ forallb is_drop drops = true /\
    acquire_args (pre ++ drops) (length pre) (plan_args plan) (map fparam_ty (params f)) [] next =
      (out, clones, elided, next') /\
    forallb is_drop drops' = true /\
    (apply_plan b plan (symbol f) (map fparam_ty (params f)) next).1 =
      mkBlock (block_id b) (block_params b) (pre ++ clones ++ drops') (TailCall out (symbol f)).
Proof.
  intros (returned & pre & dest & drops & Ht & Hi & Hd & Hc & Hr)%match_tail_call_spec.
  unfold apply_plan. rewrite Hi, Hc, delete_middle.
  destruct (acquire_args _ _ _ _ _ _) as [[[out clones] elided] next'] eqn:E.
  destruct (remove_indices_suffix is_drop pre drops elided) as (drops' & Hrem & Hd'); [by eapply acquire_elided|done|].
  exists returned, pre, dest, drops, out, clones, elided, next', drops'. rewrite Hrem, insert_all_middle. done.
Qed.

Section RewriteSound.
Context {W : Type} `{Host W} (oc da : bool).
Context (R R' : CallResolver) (tc : IRFunction -> IRFunction) `{!Transforms R R' tc}.
Context (f : IRFunction) (Hok : function_ok R f) (Hself : cr_resolve R (symbol f) = Some f) (Hregular : kind f = Regular).
Context (Htc : blocks (tc f) = rewrite_blocks (symbol f) (map fparam_ty (params f)) (blocks f) (next_value_id f)).
Context (n : nat) (Hcalls : calls_refine (W:=W) oc da R R' tc n n) (Hclosures : closures_refine (W:=W) oc da R R' tc n n).
Context (Hbodies : bodies_refine (W:=W) oc da R R' tc n n).

Local Notation exec := (execute_instructions oc R (execute_function oc da R n) (execute_closure_function oc da R n)).
Local Notation exec' := (execute_instructions oc R' (execute_function oc da R' n) (execute_closure_function oc da R' n)).
Local Notation run := (run_blocks oc R (execute_function oc da R n) (execute_closure_function oc da R n)).
Local Notation run' := (run_blocks oc R' (execute_function oc da R' n) (execute_closure_function oc da R' n)).
Local Notation cont := (continue_at oc R (execute_function oc da R n) (execute_closure_function oc da R n)).
Local Notation cont' := (continue_at oc R' (execute_function oc da R' n) (execute_closure_function oc da R' n)).
Local Notation rest := (rest_of oc R (execute_function oc da R n) (execute_closure_function oc da R n)).
Local Notation rest' := (rest_of oc R' (execute_function oc da R' n) (execute_closure_function oc da R' n)).

(** How [execute_regular] goes on after its blocks. *)
Definition finish (R : CallResolver) (f : IRFunction) (o : BlockOutcome) : M W Value :=
  match o with
  | BDone v => ret (coerce_return v (return_type f))
  | TailRestart new_args => execute_regular oc da R n f new_args
  end.

Lemma f_known : known R f.
Proof. by exists (symbol f). Qed.

Lemma finish_refines o : refinesM (finish R f o) (finish R' (tc f) o).
Proof.
  destruct o as [v|args]; simpl; [rewrite (return_type_tc R R' tc); reflexivity|apply Hbodies; [apply f_known|done]].
Qed.

(** The blocks of the rewritten function. *)
Lemma find_rewritten id :
  find_block (blocks f) id = Crash \/
  exists b b', b ∈ blocks f /\ find_block (blocks f) id = Ok b /\ find_block (blocks (tc f)) id = Ok b' /\
    block_params b' = block_params b /\ tail_rewritten f b b'.
Proof.
  rewrite Htc.
  destruct (find_block_Forall2 _ _ _ id (rewrite_blocks_spec f (blocks f) (next_value_id f) ltac:(lia)))
    as [Hc|(b & b' & Hb & Hb' & Hps & Hr)]; [by left|right].
  exists b, b'. split; [|done]. by apply find_block_elem in Hb as [? _].
Qed.

Lemma block_free b : b ∈ blocks f -> Forall (fun i => consuming_receiver R i = None) (instructions b).
Proof. intros Hb. apply Forall_forall. intros i Hi. exact (bo_free _ _ (fo_blocks _ _ Hok) b i Hb Hi). Qed.

Lemma block_dests b :
  b ∈ blocks f -> Forall (fun i => forall d, instr_dest i = Some d -> d < next_value_id f) (instructions b).
Proof. intros Hb. apply Forall_forall. intros i Hi d. by eapply next_value_dest. Qed.

Lemma bind_block_params_bounded target fr vs :
  bind_block_params target (blocks f) (values fr) = Ok vs -> bounded (next_value_id f) fr ->
  bounded (next_value_id f) (with_values fr vs).
Proof.
  unfold bind_block_params. destruct (find_block_cases (blocks f) (target_block target)) as [->|[b Hb]]; [done|].
  rewrite Hb. simpl. apply find_block_elem in Hb as [Hb _]. case_bool_decide; [|done].
  destruct (edge_bindings _ _ _) as [bs| |] eqn:Ee; simpl; try done. intros [= <-] Hbd id v. simpl.
  apply bind_all_bounded; [done|]. apply edge_bindings_dests in Ee. eapply Forall_impl; [done|].
  intros [d w] (p & Hp & Hd). simpl in *. subst d. by eapply next_value_block_param.
Qed.

(** The same terminator reads the same parameters off the rewritten blocks. *)
Lemma bind_rewritten target vs :
  wrong (bind_block_params target (blocks f) vs) = true \/
  bind_block_params target (blocks (tc f)) vs = bind_block_params target (blocks f) vs.
Proof.
  unfold bind_block_params. destruct (find_rewritten (target_block target)) as [->|(b & b' & _ & -> & -> & Hps & _)];
    [by left|right]. simpl. by rewrite Hps.
Qed.

(** A recursive call whose result is returned, against the restart of the body. *)
Lemma self_call_restart vals dest returned fr drops rn k term :
  returns_call returned dest = true -> forallb is_drop drops = true ->
  (returned = None -> return_type f = TUnit) ->
  refinesM
    (let! fr1 := let! v := execute_function oc da R n f vals in ret (set_value fr dest v) in
     let! jf := exec rn drops term fr1 in rest k rn (blocks f) (Return returned) (finish R f) jf)
    (execute_regular oc da R' n (tc f) vals).
Proof.
  intros Hret Hd Hunit. transitivity (execute_regular (W:=W) oc da R n f vals); [|apply Hbodies; [apply f_known|done]].
  intros s. pose proof (execute_function_regular (W:=W) oc da R n f vals f_known Hregular s) as Hcall.
  unfold bindM at 1 2. destruct (execute_function oc da R n f vals s) as [[v|e|] s1|]; try done. simpl in Hcall.
  destruct Hcall as [|Hcall]; [done|]. rewrite Hcall. apply execute_regular_coerced in Hcall.
  simpl. unfold bindM at 1. rewrite exec_drops by done. unfold rest_of, continue_at, bindM, liftO.
  destruct returned as [x|]; simpl.
  - simpl in Hret. apply Z.eqb_eq in Hret as ->. unfold lookup_value. rewrite lookup_insert_eq. simpl.
    rewrite Hcall. by right.
  - rewrite (Hunit eq_refl) in *. simpl in *. subst v. by right.
Qed.

Lemma exec_self_call rn dest args drops term fr s :
  exec rn (Call dest (symbol f) args :: drops) term fr s =
  (let! vals := liftO (lookup_all (values fr) args) in
   let! fr1 := let! v := execute_function oc da R n f vals in ret (set_value fr dest v) in
   exec rn drops term fr1) s.
Proof.
  rewrite execute_instructions_cons by done.
  assert (consuming_kind f = false) as Hc by (unfold consuming_kind; by rewrite Hregular).
  assert (consuming_receiver R (Call dest (symbol f) args) = None) as Hr
    by (simpl; rewrite Hself; simpl; by rewrite Hc).
  unfold release_dead_registers, execute_instruction. rewrite Hr. cbn [execute_instruction_value]. rewrite Hself.
  unfold bindM, liftO, ret. cbn [orCrash]. rewrite Hc, call_args_plain.
  destruct (lookup_all (values fr) args) as [vals| |]; simpl; try done.
  by destruct (execute_function oc da R n f vals s) as [[]|].
Qed.

(** The rest of a rewritten block against the rest of the original one. *)
Lemma tail_block_refines rn k fr b returned pre dest args drops out clones elided next next' drops' :
  b ∈ blocks f -> terminator b = Return returned -> returns_call returned dest = true ->
  instructions b = pre ++ Call dest (symbol f) args :: drops -> forallb is_drop drops = true ->
  acquire_args (pre ++ drops) (length pre) args (map fparam_ty (params f)) [] next = (out, clones, elided, next') ->
  forallb is_drop drops' = true -> next_value_id f <= next -> bounded (next_value_id f) fr ->
  refinesM
    (let! jf := exec rn (Call dest (symbol f) args :: drops) (Return returned) fr in
     rest k rn (blocks f) (Return returned) (finish R f) jf)
    (let! jf := exec' rn (clones ++ drops') (TailCall out (symbol f)) fr in
     rest' k rn (blocks (tc f)) (TailCall out (symbol f)) (finish R' (tc f)) jf).
Proof.
  intros Hb Ht Hret Hi Hd Hacq Hd' Hn Hbd.
  destruct (lookup_all_cases (values fr) args) as [[vals Hvals]|[id Hvals]].
  - destruct (acquire_sound oc R' (execute_function oc da R' n) (execute_closure_function oc da R' n) rn
      (TailCall out (symbol f)) _ _ _ _ _ _ _ _ _ _ fr vals Hacq (bounded_mono _ _ _ Hbd Hn) Hvals)
      as (Hfree & fr' & Hout & _ & Hrun).
    assert (forall s, (let! jf := exec' rn (clones ++ drops') (TailCall out (symbol f)) fr in
       rest' k rn (blocks (tc f)) (TailCall out (symbol f)) (finish R' (tc f)) jf) s =
       execute_regular oc da R' n (tc f) vals s) as Hnew.
    { intros s. unfold bindM at 1. rewrite (exec_app _ _ _ _ _ _ _ _ (TailCall out (symbol f))) by done.
      unfold bindM at 1. rewrite Hrun, exec_drops by done. unfold rest_of, continue_at, bindM, liftO. simpl. by rewrite Hout. }
    eapply refinesM_ext_r; [intros s; symmetry; apply Hnew|].
    eapply refinesM_ext_l; [|eapply (self_call_restart vals dest returned fr drops rn k (Return returned)); try done;
      intros ->; by eapply fo_return].
    intros s. etransitivity; [apply bindM_cong, exec_self_call|]. rewrite Hvals.
    etransitivity; [apply bindM_assoc|]. rewrite bindM_liftO. apply bindM_assoc.
  - intros s. unfold bindM at 1. rewrite exec_self_call. unfold bindM at 1, liftO at 1. rewrite Hvals. by left.
Qed.
(** The runs of the two bodies from a block on, up to the end of the function. *)
Definition runs_refine (k rn : nat) : Prop := forall current fr, bounded (next_value_id f) fr ->
  refinesM (let! o := run k rn (blocks f) current fr in finish R f o)
           (let! o := run' k rn (blocks (tc f)) current fr in finish R' (tc f) o).

Lemma continue_rewritten k rn term fr :
  runs_refine k rn -> bounded (next_value_id f) fr ->
  refinesM (let! o := cont k rn (blocks f) term fr in finish R f o)
           (let! o := cont' k rn (blocks (tc f)) term fr in finish R' (tc f) o).
Proof.
  intros IH Hb.
  assert (forall leg, refinesM
    (let! o := take_leg oc R (execute_function oc da R n) (execute_closure_function oc da R n) k rn (blocks f) leg fr in finish R f o)
    (let! o := take_leg oc R' (execute_function oc da R' n) (execute_closure_function oc da R' n) k rn (blocks (tc f)) leg fr in
     finish R' (tc f) o)) as Hleg.
  { intros leg s. unfold take_leg. destruct (bind_rewritten leg (values fr)) as [Hw|He].
    - unfold bindM, liftO. destruct (bind_block_params leg (blocks f) (values fr)) as [|[]|]; try done; by left.
    - rewrite !bindM_assoc, He. unfold bindM at 1 3, liftO.
      destruct (bind_block_params leg (blocks f) (values fr)) as [vs|e|] eqn:E; [|by right|by left].
      apply IH. by eapply bind_block_params_bounded. }
  destruct term as [leg|cond e t|returned|args callee|].
  - eapply refinesM_ext_l; [intros s; apply bindM_cong, continue_branch|].
    eapply refinesM_ext_r; [intros s; symmetry; apply bindM_cong, continue_branch|apply Hleg].
  - eapply refinesM_ext_l; [intros s; etransitivity; [apply bindM_cong, continue_cond|apply bindM_assoc]|].
    eapply refinesM_ext_r; [intros s; symmetry; etransitivity; [apply bindM_cong, continue_cond|apply bindM_assoc]|].
    apply refinesM_bind; [reflexivity|]. intros v. destruct v as [| |c| | | | | | | | | | | | | |]; try reflexivity.
    apply Hleg.
  - apply refinesM_bind; [intros s; by rewrite !continue_leave|apply finish_refines].
  - apply refinesM_bind; [intros s; by rewrite !continue_leave|apply finish_refines].
  - apply refinesM_bind; [intros s; by rewrite !continue_leave|apply finish_refines].
Qed.

Lemma run_rewritten k rn : runs_refine k rn.
Proof.
  induction k as [|k IH]; intros current fr Hb; [intros s; done|].
  destruct (find_rewritten current) as [Hc|(b & b' & Hin & Hfb & Hfb' & _ & Hr)].
  { intros s. unfold bindM, run_blocks, liftO. rewrite Hc. by left. }
  eapply refinesM_ext_l; [intros s; by apply run_rest|].
  eapply refinesM_ext_r; [intros s; symmetry; by apply run_rest|].
  destruct Hr as [->|(plan & next & Hn & Hm & ->)].
  - apply (refinesM_bind_post (fun jf => bounded (next_value_id f) jf.2)).
    + by apply (execute_instructions_refines oc R R' tc).
    + intros s [jump fr1] s1 He. eapply exec_bounded; try done; [by apply block_free|by apply block_dests].
    + intros [[id|] fr1] Hb1; [by apply IH|by apply continue_rewritten].
  - destruct (apply_plan_spec f b plan next Hm)
      as (returned & pre & dest & drops & out & clones & elided & next' & drops' & Ht & Hret & Hi & Hd & Hacq & Hd' & ->).
    cbn [instructions terminator]. rewrite Ht, Hi.
    assert (Forall (fun i => consuming_receiver R i = None) pre) as Hpre
      by (pose proof (block_free b Hin) as Hf; rewrite Hi in Hf; by apply Forall_app in Hf as [? _]).
    assert (Forall (fun i => forall d, instr_dest i = Some d -> d < next_value_id f) pre) as Hdest
      by (pose proof (block_dests b Hin) as Hf; rewrite Hi in Hf; by apply Forall_app in Hf as [? _]).
    eapply refinesM_ext_l; [intros s; by apply rest_app with (term' := Return returned)|].
    eapply refinesM_ext_r; [intros s; symmetry; apply rest_app with (term' := Return returned)|].
    { eapply Forall_impl; [exact Hpre|]. intros i Hi'. by rewrite (consuming_receiver_tc R R' tc). }
    apply (refinesM_bind_post (fun jf => bounded (next_value_id f) jf.2)).
    + by apply (execute_instructions_refines oc R R' tc).
    + intros s [jump fr1] s1 He. by eapply exec_bounded.
    + intros [[id|] fr1] Hb1; [by apply IH|]. by eapply tail_block_refines.
Qed.

Lemma rewrite_body_refines args :
  refinesM (execute_regular oc da R (S n) f args) (execute_regular oc da R' (S n) (tc f) args).
Proof.
  pose proof (run_rewritten n n) as Hrun.
  pose proof (rewrite_blocks_spec f (blocks f) (next_value_id f) ltac:(lia)) as Hspec. rewrite <- Htc in Hspec.
  change (execute_regular oc da R (S n) f args) with
    (let! o := execute_blocks oc R (execute_function oc da R n) (execute_closure_function oc da R n) n (blocks f)
                 (seed_frame [] (params f) args) in finish R f o).
  change (execute_regular oc da R' (S n) (tc f) args) with
    (let! o := execute_blocks oc R' (execute_function oc da R' n) (execute_closure_function oc da R' n) n (blocks (tc f))
                 (seed_frame [] (params (tc f)) args) in finish R' (tc f) o).
  rewrite (params_tc R R' tc). unfold execute_blocks. unfold runs_refine in Hrun.
  destruct (blocks f) as [|b0 l] eqn:Eb; [by intros s; left|].
  inversion Hspec as [|? b1 ? l1 (Hid & _) Hl Heq Heq']. rewrite <- Heq' in Hrun.
  rewrite Hid. apply Hrun. apply seed_frame_bounded.
Qed.
End RewriteSound.

(** ** Programs *)

(** The two stages of the pass on one function. *)
Definition collapse_if_regular (f : IRFunction) : IRFunction :=
  match kind f with
  | Regular => if contains_self_call f then collapse_return_forwarders f else f
  | _ => f
  end.

Definition tail_if_regular (f : IRFunction) : IRFunction :=
  match kind f with
  | Regular => with_blocks f (rewrite_blocks (symbol f) (map fparam_ty (params f)) (blocks f) (next_value_id f))
  | _ => f
  end.

Lemma collapse_if_header f : collapse_if_regular f = with_blocks f (blocks (collapse_if_regular f)).
Proof.
  unfold collapse_if_regular. destruct (kind f); try (by destruct f).
  destruct (contains_self_call f); [apply collapse_header|by destruct f].
Qed.

Lemma rewrite_stages f : rewrite_if_regular f = tail_if_regular (collapse_if_regular f).
Proof.
  pose proof (collapse_if_header f) as Hh.
  assert (kind (collapse_if_regular f) = kind f) as Hk by (by rewrite Hh).
  unfold tail_if_regular. rewrite Hk. unfold rewrite_if_regular, rewrite_function, collapse_if_regular.
  by destruct (kind f) eqn:E.
Qed.

(** The bare returns of a function. *)
Definition bare_returns_ok (f : IRFunction) : Prop :=
  forall b, b ∈ blocks f -> terminator b = Return None -> return_type f = TUnit.

Lemma collapse_one_returns f f' : collapse_one_forwarder f = Some f' -> bare_returns_ok f -> bare_returns_ok f'.
Proof.
  intros (m & shape & bs & ts & n' & Hm & Hs & He & Ht & Hb & ->)%collapse_one_spec Hret b'. simpl.
  assert (m ∈ blocks f) as Hmf by (destruct (blocks f); [done|by right]).
  apply forwarder_shape_spec in Hs as (p & _ & _ & Hterm).
  assert (forall args, returned_value shape args = None -> return_type f = TUnit) as Hnone.
  { intros args. destruct shape; simpl; [done|]. intros _. destruct Hterm as [Hterm _]. by eapply Hret. }
  intros [Hb' _]%elem_of_filterb. apply elem_of_app in Hb' as [Hb'|Hb'].
  - destruct (Forall2_elem_r _ _ _ _ Hb Hb') as (b & Hin & Hcol).
    destruct Hcol; simpl; [by apply Hret|intros [= Heq]; by eapply Hnone|done].
  - destruct Ht as (_ & _ & Hf). rewrite Forall_forall in Hf. apply Hf in Hb' as (_ & args & ->). simpl.
    intros [= Heq]. by eapply Hnone.
Qed.

Lemma collapse_returns f : bare_returns_ok f -> bare_returns_ok (collapse_return_forwarders f).
Proof.
  intros Hr. eapply (collapse_invariant bare_returns_ok (fun _ _ => True)); [|done].
  intros g g' Hg Hc. split; [by eapply collapse_one_returns|done]. Unshelve. by split.
Qed.

(** What the pass relies on, of everything a resolver finds. *)
Definition resolver_ok (R : CallResolver) : Prop := forall s f, cr_resolve R s = Some f ->
  symbol f = s /\ (kind f = Regular -> function_ok R f).

Definition map_resolver (tc : IRFunction -> IRFunction) (R : CallResolver) : CallResolver :=
  mkResolver (cr_built_constant_order R) (cr_constant_value R) (cr_enum_decl R)
    (fun s => tc <$> cr_resolve R s) (cr_struct_decl R).

Lemma collapse_transforms R : Transforms R (map_resolver collapse_if_regular R) collapse_if_regular.
Proof.
  split; try done; [apply collapse_if_header|]. intros f Hk. unfold collapse_if_regular. by destruct (kind f).
Qed.

Lemma blocks_ok_transfer R R' tc bs : Transforms R R' tc -> blocks_ok R bs -> blocks_ok R' bs.
Proof.
  intros Tr [Hn Hf Hr]. split; try done. intros b i Hb Hi. rewrite (consuming_receiver_tc R R' tc). by eapply Hf.
Qed.

Lemma resolver_ok_collapsed R : resolver_ok R -> resolver_ok (map_resolver collapse_if_regular R).
Proof.
  intros Hok s f'. simpl. destruct (cr_resolve R s) as [f|] eqn:E; simpl; [|done]. intros [= <-].
  destruct (Hok s f E) as [Hs Hf]. rewrite collapse_if_header. simpl. split; [done|]. intros Hk.
  specialize (Hf Hk). rewrite <- collapse_if_header. unfold collapse_if_regular. rewrite Hk.
  destruct Hf as [Hb Hr]. split.
  - eapply blocks_ok_transfer; [apply collapse_transforms|]. destruct (contains_self_call f); [|done].
    by apply collapse_ok.
  - destruct (contains_self_call f); [by apply collapse_returns|done].
Qed.

Section ProgramSound.
Context {W : Type} `{Host W} (oc da : bool) (R R' : CallResolver).
Context (Hok : resolver_ok R).
Local Notation R1 := (map_resolver collapse_if_regular R).

Lemma collapse_stage n :
  calls_refine (W:=W) oc da R R1 collapse_if_regular n n.
Proof.
  pose proof (collapse_transforms R) as Tr. apply transform_refines; [done|]. clear n. intros n Hc Hcl Hb f args Hf Hk.
  destruct (Hf) as [s Hs]. destruct (Hok s f Hs) as [_ Hfo]. specialize (Hfo Hk).
  cbn [execute_regular]. rewrite (params_tc R R1 collapse_if_regular), (return_type_tc R R1 collapse_if_regular).
  apply refinesM_bind; [|intros [v|new_args]; [reflexivity|by apply Hb]].
  etransitivity; [by apply (execute_blocks_refines oc R R1 collapse_if_regular)|].
  assert (collapse_if_regular f = if contains_self_call f then collapse_return_forwarders f else f) as ->
    by (unfold collapse_if_regular; by rewrite Hk).
  destruct (contains_self_call f); [|reflexivity].
  apply collapse_sound. eapply blocks_ok_transfer; [done|]. by apply fo_blocks.
Qed.

Context `{!Transforms R1 R' tail_if_regular}.

Lemma tail_stage n : calls_refine (W:=W) oc da R1 R' tail_if_regular n n.
Proof.
  apply transform_refines; [done|]. clear n. intros n Hc Hcl Hb f args Hf Hk. destruct Hf as [s Hs].
  destruct (resolver_ok_collapsed R Hok s f Hs) as [Hsym Hfo].
  apply rewrite_body_refines; try done; [by apply Hfo|by rewrite Hsym|]. unfold tail_if_regular. by rewrite Hk.
Qed.
End ProgramSound.

(** ** The check on a program *)

Definition body_check (R : CallResolver) (f : IRFunction) : bool :=
  bool_decide (NoDup (map block_id (blocks f))) &&
  forallb (fun b =>
    forallb (fun i =>
      match consuming_receiver R i with None => true | Some _ => false end &&
      forallb (fun b' => negb (contains (receive_targets i) (block_id b')) || (length (block_params b') =? 0)%nat)
        (blocks f)) (instructions b) &&
    match terminator b, return_type f with Return None, TUnit => true | Return None, _ => false | _, _ => true end)
  (blocks f).

Definition function_check (R : CallResolver) (s : string) (f : IRFunction) : bool :=
  bool_decide (symbol f = s) && match kind f with Regular => body_check R f | _ => true end.

Definition lowered_ok (p : IRProgram) : bool :=
  forallb (fun pkg => bool_decide (map_Forall (fun s f => function_check (program_resolver p) s f = true) (functions pkg)))
    (packages p).

Lemma body_check_ok R f : body_check R f = true -> function_ok R f.
Proof.
  unfold body_check. intros [Hnd%bool_decide_eq_true Hall]%andb_true_iff. rewrite forallb_forall in Hall.
  assert (forall b i, b ∈ blocks f -> i ∈ instructions b -> consuming_receiver R i = None /\
    forall b', b' ∈ blocks f -> block_id b' ∈ receive_targets i -> block_params b' = []) as Hinst.
  { intros b i Hb Hi. apply list_elem_of_In in Hb, Hi. apply Hall in Hb. apply andb_true_iff in Hb as [Hb _].
    rewrite forallb_forall in Hb. apply Hb in Hi. apply andb_true_iff in Hi as [Hc Ht].
    split; [by destruct (consuming_receiver R i)|]. intros b' Hb' Hin. rewrite forallb_forall in Ht.
    apply list_elem_of_In in Hb'. apply Ht in Hb'. rewrite contains_spec, bool_decide_eq_true_2 in Hb' by done.
    simpl in Hb'. apply Nat.eqb_eq in Hb'. by destruct (block_params b'). }
  split; [split; [done| |]|].
  - intros b i Hb Hi. by apply (Hinst b i).
  - intros b i b' Hb Hi Hb' Ht. by apply (Hinst b i Hb Hi).
  - intros b Hb Ht. apply list_elem_of_In in Hb. apply Hall in Hb. apply andb_true_iff in Hb as [_ Hb].
    rewrite Ht in Hb. by destruct (return_type f).
Qed.

Lemma lowered_ok_resolver p : lowered_ok p = true -> resolver_ok (program_resolver p).
Proof.
  unfold lowered_ok. rewrite forallb_forall. intros Hall s f (pkg & Hp & Hf)%find_in_elem.
  apply list_elem_of_In, Hall, bool_decide_eq_true in Hp. apply Hp in Hf.
  apply andb_true_iff in Hf as [Hs%bool_decide_eq_true Hb]. split; [done|]. intros Hk. rewrite Hk in Hb.
  by apply body_check_ok.
Qed.

(** [rewrite_tail_calls] over the packages of a program. *)
Definition rewrite_program (p : IRProgram) : IRProgram :=
  mkProgram (built_constant_order p) (entry_point p) (rewrite_tail_calls (packages p)).

Lemma rewrite_program_function p s : program_function (rewrite_program p) s = rewrite_if_regular <$> program_function p s.
Proof. by apply find_in_fmap. Qed.

Lemma rewrite_transforms p :
  Transforms (map_resolver collapse_if_regular (program_resolver p)) (program_resolver (rewrite_program p)) tail_if_regular.
Proof.
  split; try done; simpl.
  - intros s. by apply find_in_same.
  - intros s. by apply find_in_same.
  - intros s. by apply find_in_same.
  - intros s. rewrite rewrite_program_function. destruct (program_function p s) as [f|]; simpl; [|done].
    by rewrite rewrite_stages.
  - intros f. unfold tail_if_regular. destruct (kind f); by destruct f.
  - intros f Hk. unfold tail_if_regular. by destruct (kind f).
Qed.

(** C3: Rewriting the tail calls of a lowered program preserves what it does: run by the
    evaluator with any fuel, host and arguments, the rewritten program ends in the same
    outcome and the same final state as the original, unless the original runs out of
    fuel or goes wrong (a panic of the evaluator, or a read of an undefined register). *)
Theorem tail_calls_preserve {W} `{Host W} oc da p fuel args s :
  lowered_ok p = true ->
  refines (run_program (W:=W) oc da fuel p args s) (run_program (W:=W) oc da fuel (rewrite_program p) args s).
Proof.
  intros Hlow. pose proof (lowered_ok_resolver p Hlow) as Hok.
  pose proof (rewrite_transforms p) as Tr2. pose proof (collapse_transforms (program_resolver p)) as Tr1.
  unfold run_program. cbn [entry_point rewrite_program]. rewrite rewrite_program_function. unfold bindM, liftO.
  destruct (program_function p (entry_point p)) as [entry|] eqn:Ee; simpl; [|by left].
  assert (forall k, kind entry = k -> k <> Regular -> rewrite_if_regular entry = entry) as Hentry
    by (intros k <- Hk; unfold rewrite_if_regular; by destruct (kind entry)).
  destruct (kind entry) eqn:Ek; try (by left). rewrite (Hentry (ProcessEntryWrapper state)), Ek by done.
  destruct (Hok _ _ Ee) as [Hsym _].
  etransitivity; [eapply (run_entry_body_refines oc da _ _ collapse_if_regular); [by apply collapse_stage|]|
    eapply (run_entry_body_refines oc da _ _ tail_if_regular); [by apply tail_stage|]]; rewrite Hsym; simpl.
  - intros f Hf. rewrite Ee in Hf. injection Hf as <-. by rewrite Ek.
  - intros f. rewrite Ee. simpl. intros [= <-]. rewrite collapse_if_header. simpl. by rewrite Ek.
Qed.

(** ** A program *)

(** [loop(n, acc, log)] adds up to [n], carrying a string along; the recursive call is
    the value of an [if] whose merge block drops the string and returns. *)
Definition demo_loop : IRFunction :=
  mkFunction
    [ mkBlock 0 [] [LocalDecl 2 TString; LocalWrite 2 2; Const 3 (CInt64 0); BinaryOp 4 0 Eq TInt64 3]
        (CondBranch 4 (target_to 2) (target_with_args 1 [1]));
      mkBlock 1 [mkBlockParam 5 TInt64] [DropLocal 2 TString] (Return (Some 5));
      mkBlock 2 [] [Const 6 (CInt64 1); BinaryOp 7 0 Sub TInt64 6; BinaryOp 8 1 Add TInt64 0; LocalRead 9 2 TString;
                    Call 10 "App.loop" [7; 8; 9]]
        (Branch (target_with_args 1 [10])) ]
    Regular [mkParam 0 0 TInt64; mkParam 1 1 TInt64; mkParam 2 2 TString] TInt64 "App.loop".

Definition demo_body : IRFunction :=
  mkFunction
    [ mkBlock 0 [] [Const 1 (CInt64 5); Const 2 (CInt64 0); Const 3 (CString [104; 105]); Call 4 "App.loop" [1; 2; 3]]
        (Return (Some 4)) ]
    Regular [mkParam 0 0 (TList TString)] TInt64 "App.body".

Definition demo_entry : IRFunction :=
  mkFunction [mkBlock 0 [] [Call 1 "App.body" [0]] (Return (Some 1))]
    (ProcessEntryWrapper TUnit) [mkParam 0 0 (TList TString)] TInt64 "App.entry".

Definition demo : IRProgram :=
  mkProgram [] "App.entry"
    [mkPackage ∅ ∅ (<["App.loop":=demo_loop]> (<["App.body":=demo_body]> {["App.entry":=demo_entry]})) "App" ∅].

(** The merge is gone, and the slot moves through the back edge: its drop is elided. *)
Example demo_rewritten :
  blocks (rewrite_function demo_loop) =
  [ mkBlock 0 [] [LocalDecl 2 TString; LocalWrite 2 2; Const 3 (CInt64 0); BinaryOp 4 0 Eq TInt64 3]
      (CondBranch 4 (target_to 2) (target_to 3));
    mkBlock 2 [] [Const 6 (CInt64 1); BinaryOp 7 0 Sub TInt64 6; BinaryOp 8 1 Add TInt64 0; LocalRead 9 2 TString]
      (TailCall [7; 8; 9] "App.loop");
    mkBlock 3 [] [DropLocal 2 TString] (Return (Some 1)) ].
Proof. vm_compute. reflexivity. Qed.

Example demo_run :
  run_program true true 40 demo [] (mkState ∅ tt) = Done (Ok (VInt 15)) (mkState ∅ tt).
Proof. vm_compute. reflexivity. Qed.

Lemma tail_calls_preserve_witness :
  lowered_ok demo = true /\
  refines (run_program true true 40 demo [] (mkState ∅ tt))
    (run_program true true 40 (rewrite_program demo) [] (mkState ∅ tt)).
Proof. split; [vm_compute; reflexivity|]. apply tail_calls_preserve. vm_compute. reflexivity. Defined.
