(* ===== verification/Lexer.v ===== *)
(** * The lexer

    Models [koja-lexer/src/cursor.rs], [koja-lexer/src/lexer.rs] and the token
    kinds and lexeme tables of [koja-ast/src/token.rs]. A [char] is its scalar
    value in [Z], a [String] or [&str] the list of its characters; byte offsets
    into it count [len_utf8]. The state of the lexer is the record of the code.
    A panic (reading past the end, slicing off a character boundary) is [None];
    so is running out of the fuel of a loop, which [lex] never does (LexerSound).
    The [u32] line, column and brace counters wrap, as a release build does. *)

From Stdlib Require Import Ascii String.
From S2P Require Import Prelude Types Chars.
Local Open Scope Z_scope.

(** ** Character classes *)

Definition is_ident_char (c : Z) : bool :=
  is_ascii_lowercase c || is_ascii_uppercase c || is_ascii_digit c || (c =? chr "_")
  || (c =? chr "?").

Definition is_number_char (c : Z) : bool := is_ascii_digit c || (c =? chr "_").

Definition is_hex_char (c : Z) : bool := is_ascii_hexdigit c || (c =? chr "_").
Definition is_binary_char (c : Z) : bool := (c =? chr "0") || (c =? chr "1") || (c =? chr "_").

(** [' ' | '\t' | '\r']. *)
Definition is_blank (c : Z) : bool := (c =? chr " ") || (c =? TAB) || (c =? CR).

(** ** Tokens *)

Inductive TokenKind : Set :=
  | TkIdent (name : list Z) | TkTypeIdent (name : list Z)
  | TkIntLit (text : list Z) | TkFloatLit (text : list Z)
  | TkStringStart | TkStringFragment (text : list Z) | TkStringEnd
  | TkInterpolStart | TkInterpolEnd | TkMultilineStringStart | TkMultilineStringEnd
  | TkTrue | TkFalse
  | TkAfter | TkAssert | TkBreak | TkBuiltin | TkCond | TkConst | TkElse | TkEnd | TkEnum
  | TkExtend | TkFail | TkFn | TkFor | TkIf | TkImpl | TkIn | TkLoop | TkMatch | TkNot
  | TkPriv | TkProtocol | TkReceive | TkRescue | TkReturn | TkSelf | TkSpawn | TkStruct
  | TkTest | TkTry | TkType | TkUnless | TkWhen | TkWhile
  | TkPlus | TkMinus | TkStar | TkSlash | TkPercent | TkEq | TkEqEq | TkNotEq | TkLt | TkGt
  | TkLtLt | TkGtGt | TkLtGt | TkLtEq | TkGtEq | TkPlusEq | TkMinusEq | TkStarEq | TkSlashEq
  | TkArrow | TkPipe | TkAlias | TkAmpersand | TkQuestion | TkBang | TkAt | TkDot
  | TkLParen | TkRParen | TkLBrace | TkRBrace | TkLBracket | TkRBracket | TkComma | TkColon
  | TkColonColon
  | TkNewline | TkEndOfFile.

#[export] Instance token_kind_eq_dec : EqDecision TokenKind.
Proof. solve_decision. Defined.

Record Token := mkToken { kind : TokenKind; token_span : Span }.

(** [keyword_lexeme]. *)
Definition keyword_lexeme (k : TokenKind) : option (list Z) :=
  match k with
  | TkAfter => Some (str "after")
  | TkAlias => Some (str "alias")
  | TkAssert => Some (str "assert")
  | TkBreak => Some (str "break")
  | TkBuiltin => Some (str "builtin")
  | TkCond => Some (str "cond")
  | TkConst => Some (str "const")
  | TkElse => Some (str "else")
  | TkEnd => Some (str "end")
  | TkEnum => Some (str "enum")
  | TkExtend => Some (str "extend")
  | TkFail => Some (str "fail")
  | TkFalse => Some (str "false")
  | TkFn => Some (str "fn")
  | TkFor => Some (str "for")
  | TkIf => Some (str "if")
  | TkImpl => Some (str "impl")
  | TkIn => Some (str "in")
  | TkLoop => Some (str "loop")
  | TkMatch => Some (str "match")
  | TkNot => Some (str "not")
  | TkPriv => Some (str "priv")
  | TkProtocol => Some (str "protocol")
  | TkReceive => Some (str "receive")
  | TkRescue => Some (str "rescue")
  | TkReturn => Some (str "return")
  | TkSelf => Some (str "self")
  | TkSpawn => Some (str "spawn")
  | TkStruct => Some (str "struct")
  | TkTest => Some (str "test")
  | TkTrue => Some (str "true")
  | TkTry => Some (str "try")
  | TkType => Some (str "type")
  | TkUnless => Some (str "unless")
  | TkWhen => Some (str "when")
  | TkWhile => Some (str "while")
  | _ => None
  end.

(** [symbol_lexeme]; [None] is its [unreachable!]. *)
Definition symbol_lexeme (k : TokenKind) : option (list Z) :=
  match k with
  | TkAmpersand => Some (str "&")
  | TkArrow => Some (str "->")
  | TkAt => Some (str "@")
  | TkBang => Some (str "!")
  | TkColon => Some (str ":")
  | TkColonColon => Some (str "::")
  | TkComma => Some (str ",")
  | TkDot => Some (str ".")
  | TkEq => Some (str "=")
  | TkEqEq => Some (str "==")
  | TkGt => Some (str ">")
  | TkGtEq => Some (str ">=")
  | TkGtGt => Some (str ">>")
  | TkInterpolEnd => Some (str "}")
  | TkInterpolStart => Some (str "#{")
  | TkLBrace => Some (str "{")
  | TkLBracket => Some (str "[")
  | TkLParen => Some (str "(")
  | TkLt => Some (str "<")
  | TkLtEq => Some (str "<=")
  | TkLtGt => Some (str "<>")
  | TkLtLt => Some (str "<<")
  | TkMinus => Some (str "-")
  | TkMinusEq => Some (str "-=")
  | TkMultilineStringEnd | TkMultilineStringStart => Some [QUOTE; QUOTE; QUOTE]
  | TkNotEq => Some (str "!=")
  | TkPercent => Some (str "%")
  | TkPipe => Some (str "|")
  | TkPlus => Some (str "+")
  | TkPlusEq => Some (str "+=")
  | TkQuestion => Some (str "?")
  | TkRBrace => Some (str "}")
  | TkRBracket => Some (str "]")
  | TkRParen => Some (str ")")
  | TkSlash => Some (str "/")
  | TkSlashEq => Some (str "/=")
  | TkStar => Some (str "*")
  | TkStarEq => Some (str "*=")
  | TkStringEnd | TkStringStart => Some [QUOTE]
  | _ => None
  end.

(** [Display for TokenKind]; [None] is the panic of [symbol_lexeme]. *)
Definition token_display (k : TokenKind) : option (list Z) :=
  match k with
  | TkIdent name => Some (str "identifier `" ++ name ++ str "`")
  | TkTypeIdent name => Some (str "type identifier `" ++ name ++ str "`")
  | TkIntLit text | TkFloatLit text => Some (str "number `" ++ text ++ str "`")
  | TkStringFragment _ => Some (str "string text")
  | TkNewline => Some (str "newline")
  | TkEndOfFile => Some (str "end of file")
  | other =>
      match keyword_lexeme other with
      | Some keyword => Some (str "keyword `" ++ keyword ++ str "`")
      | None => lexeme ← symbol_lexeme other; Some (str "`" ++ lexeme ++ str "`")
      end
  end.

(** ** The cursor *)

Record Cursor := mkCursor {
  byte_offset : Z; chars : list Z; cur_column : Z; cur_line : Z; pos : nat; source : list Z }.

Definition advance (c : Cursor) : option (Z * Cursor) :=
  x ← chars c !! pos c;
  let '(column, line) :=
    if x =? NEWLINE then (1, wrap 32 (cur_line c + 1))
    else (wrap 32 (cur_column c + 1), cur_line c) in
  Some (x, mkCursor (byte_offset c + len_utf8 x) (chars c) column line (S (pos c)) (source c)).

Definition at_end (c : Cursor) : bool := bool_decide (length (chars c) <= pos c)%nat.
Definition char_at (c : Cursor) (index : nat) : option Z := chars c !! index.
Definition cursor_len (c : Cursor) : nat := length (chars c).
Definition cursor_new (source : list Z) : Cursor := mkCursor 0 source 1 1 0 source.
Definition char_index (c : Cursor) : nat := pos c.
Definition peek (c : Cursor) : option Z := chars c !! pos c.
Definition peek_at (c : Cursor) (offset : nat) : option Z := chars c !! (pos c + offset)%nat.
Definition position (c : Cursor) : Position :=
  mkPosition (wrap 32 (byte_offset c)) (cur_line c) (cur_column c).

Fixpoint skip_loop (fuel : nat) (pred : Z -> bool) (c : Cursor) : option Cursor :=
  match fuel with
  | O => None
  | S fuel =>
      if at_end c then Some c
      else x ← peek c;
           if pred x then '(_, c) ← advance c; skip_loop fuel pred c else Some c
  end.

Definition skip_while (pred : Z -> bool) (c : Cursor) : option Cursor :=
  skip_loop (S (cursor_len c)) pred c.

Definition text_from (start : Z) (c : Cursor) : option (list Z) :=
  str_slice (source c) start (byte_offset c).

(** ** The lexer's state *)

Inductive StringMode : Set := Multiline | Single.

#[export] Instance string_mode_eq_dec : EqDecision StringMode.
Proof. solve_decision. Defined.

Record InterpolState := mkInterpol { brace_depth : Z; mode : StringMode; interpol_start : Position }.

Record Comment := mkComment { comment_text : list Z; comment_span : Span }.

Inductive Severity : Set := SevError | SevWarning.

(** The fields [related] and [fix] are [None] in every diagnostic of the lexer. *)
Record Diagnostic := mkDiagnostic {
  severity : Severity; message : list Z; hint : option (list Z); diag_span : Span }.

Definition error_with_hint (message hint : list Z) (span : Span) : Diagnostic :=
  mkDiagnostic SevError message (Some hint) span.

Record Lexer := mkLexer {
  comments : list Comment; cursor : Cursor; errors : list Diagnostic; lexer_file : Z;
  string_stack : list InterpolState; tokens : list Token }.

(** The stack grows at its head; the output vectors at their end. *)
Definition lexer_new (source : list Z) (file : Z) : Lexer :=
  mkLexer [] (cursor_new source) [] file [] [].

Definition set_cursor (c : Cursor) (l : Lexer) : Lexer :=
  mkLexer (comments l) c (errors l) (lexer_file l) (string_stack l) (tokens l).
Definition set_stack (s : list InterpolState) (l : Lexer) : Lexer :=
  mkLexer (comments l) (cursor l) (errors l) (lexer_file l) s (tokens l).
Definition push_token (t : Token) (l : Lexer) : Lexer :=
  mkLexer (comments l) (cursor l) (errors l) (lexer_file l) (string_stack l) (tokens l ++ [t]).
Definition push_comment (c : Comment) (l : Lexer) : Lexer :=
  mkLexer (comments l ++ [c]) (cursor l) (errors l) (lexer_file l) (string_stack l) (tokens l).
Definition push_error (d : Diagnostic) (l : Lexer) : Lexer :=
  mkLexer (comments l) (cursor l) (errors l ++ [d]) (lexer_file l) (string_stack l) (tokens l).

(** [self.cursor.advance();] *)
Definition step_cursor (l : Lexer) : option Lexer :=
  '(_, c) ← advance (cursor l); Some (set_cursor c l).

Definition span_from (l : Lexer) (start : Position) : Span :=
  mkSpanOf start (position (cursor l)) (lexer_file l) false.

Definition last_token_kind (l : Lexer) : option TokenKind := kind <$> last (tokens l).

Definition continues_line (l : Lexer) : bool :=
  match last_token_kind l with
  | None => true
  | Some (TkIdent name) => bool_decide (name = str "and") || bool_decide (name = str "or")
  | Some (TkPlus | TkMinus | TkStar | TkSlash | TkPercent | TkNot | TkEqEq | TkNotEq | TkLt
         | TkGt | TkLtEq | TkGtEq | TkEq | TkPlusEq | TkMinusEq | TkStarEq | TkSlashEq
         | TkArrow | TkPipe | TkComma | TkDot | TkColon | TkColonColon | TkLtGt | TkAt
         | TkLParen | TkLBrace | TkLBracket | TkLtLt | TkNewline) => true
  | Some _ => false
  end.

Definition emit (k : TokenKind) (start : Position) (l : Lexer) : Lexer :=
  push_token (mkToken k (span_from l start)) l.

(** Two characters, one token. *)
Definition double (k : TokenKind) (l : Lexer) : option Lexer :=
  let start := position (cursor l) in
  l ← step_cursor l;
  l ← step_cursor l;
  Some (push_token (mkToken k (span_from l start)) l).

Definition single (k : TokenKind) (l : Lexer) : option Lexer :=
  let start := position (cursor l) in
  l ← step_cursor l;
  Some (push_token (mkToken k (span_from l start)) l).

(** [emit_fragment] drains [text]; its callers all return right after. *)
Definition emit_fragment (text : list Z) (frag_start : Position) (l : Lexer) : Lexer :=
  if bool_decide (text = []) then l else emit (TkStringFragment text) frag_start l.

Definition error (message hint : list Z) (span : Span) (l : Lexer) : Lexer :=
  push_error (error_with_hint message hint span) l.

(** The keyword table, in the order of the [match]. *)
Definition keywords : list (list Z * TokenKind) :=
  [(str "after", TkAfter); (str "alias", TkAlias); (str "assert", TkAssert);
   (str "break", TkBreak); (str "builtin", TkBuiltin); (str "cond", TkCond);
   (str "const", TkConst); (str "else", TkElse); (str "end", TkEnd); (str "enum", TkEnum);
   (str "extend", TkExtend); (str "fail", TkFail); (str "false", TkFalse); (str "fn", TkFn);
   (str "for", TkFor); (str "if", TkIf); (str "impl", TkImpl); (str "in", TkIn);
   (str "loop", TkLoop); (str "match", TkMatch); (str "not", TkNot); (str "priv", TkPriv);
   (str "protocol", TkProtocol); (str "receive", TkReceive); (str "rescue", TkRescue);
   (str "return", TkReturn); (str "self", TkSelf); (str "spawn", TkSpawn);
   (str "struct", TkStruct); (str "test", TkTest); (str "true", TkTrue); (str "try", TkTry);
   (str "type", TkType); (str "unless", TkUnless); (str "when", TkWhen);
   (str "while", TkWhile)].

Definition keyword_or_ident (name : list Z) : TokenKind :=
  if match name with c :: _ => is_ascii_uppercase c | [] => false end then TkTypeIdent name
  else match List.find (fun kw => bool_decide (fst kw = name)) keywords with
       | Some kw => snd kw
       | None => TkIdent name
       end.

(** ** The scanners *)

Definition lex_comment (l : Lexer) : option Lexer :=
  let start := position (cursor l) in
  l ← step_cursor l;
  skip ← (if at_end (cursor l) then Some false
          else x ← peek (cursor l); Some (x =? chr " "));
  l ← (if skip : bool then step_cursor l else Some l);
  let text_start := byte_offset (cursor l) in
  c ← skip_while (fun x => negb (x =? NEWLINE)) (cursor l);
  let l := set_cursor c l in
  text ← text_from text_start (cursor l);
  Some (push_comment (mkComment text (span_from l start)) l).

Definition lex_ident (l : Lexer) : option Lexer :=
  let start := position (cursor l) in
  let start_offset := byte_offset (cursor l) in
  c ← skip_while is_ident_char (cursor l);
  let l := set_cursor c l in
  name ← text_from start_offset (cursor l);
  Some (emit (keyword_or_ident name) start l).

(** The loops of [next_nonws_continues]: over blanks, to the end of a comment's
    line, and over whole lines. *)
Fixpoint blanks_from (fuel : nat) (c : Cursor) (i : nat) : option nat :=
  match fuel with
  | O => None
  | S fuel =>
      match char_at c i with
      | Some x => if is_blank x then blanks_from fuel c (S i) else Some i
      | None => Some i
      end
  end.

Fixpoint line_end_from (fuel : nat) (c : Cursor) (i : nat) : option nat :=
  match fuel with
  | O => None
  | S fuel =>
      if bool_decide (i < cursor_len c)%nat && negb (bool_decide (char_at c i = Some NEWLINE))
      then line_end_from fuel c (S i) else Some i
  end.

Fixpoint next_nonws_loop (fuel : nat) (c : Cursor) (i : nat) : option bool :=
  match fuel with
  | O => None
  | S fuel =>
      i ← blanks_from (S (cursor_len c)) c i;
      if bool_decide (cursor_len c <= i)%nat then Some false
      else if bool_decide (char_at c i = Some (chr "#")) then
        i ← line_end_from (S (cursor_len c)) c i;
        next_nonws_loop fuel c (if bool_decide (i < cursor_len c)%nat then S i else i)
      else if bool_decide (char_at c i = Some NEWLINE) then next_nonws_loop fuel c (S i)
      else if bool_decide (cursor_len c <= i)%nat then Some false
      else Some (bool_decide (char_at c i = Some (chr ".")))
  end.

Definition next_nonws_continues (l : Lexer) : option bool :=
  next_nonws_loop (S (cursor_len (cursor l))) (cursor l) (char_index (cursor l)).

Fixpoint whitespace_before (c : Cursor) (i : nat) : bool :=
  match i with
  | O => true
  | S i =>
      match char_at c i with
      | Some x => if x =? NEWLINE then true
                  else if is_blank x then whitespace_before c i else false
      | None => false
      end
  end.

Definition only_whitespace_before_on_line (l : Lexer) : bool :=
  whitespace_before (cursor l) (char_index (cursor l)).

Definition lex_newline (l : Lexer) : option Lexer :=
  let start := position (cursor l) in
  l ← step_cursor l;
  if continues_line l then Some l
  else
    continues ← next_nonws_continues l;
    if continues : bool then Some l
    else if bool_decide (last_token_kind l = Some TkNewline) then Some l
    else Some (emit TkNewline start l).

Definition lex_prefixed_int (start : Position) (start_offset : Z) (pred : Z -> bool)
    (label hint : list Z) (l : Lexer) : option Lexer :=
  l ← step_cursor l;
  l ← step_cursor l;
  let digit_start := byte_offset (cursor l) in
  c ← skip_while pred (cursor l);
  let l := set_cursor c l in
  if byte_offset (cursor l) =? digit_start then Some (error label hint (span_from l start) l)
  else
    name ← text_from start_offset (cursor l);
    Some (emit (TkIntLit name) start l).

(** The decimal part of [lex_number]. *)
Definition lex_decimal (start : Position) (start_offset : Z) (l : Lexer) : option Lexer :=
  c ← skip_while is_number_char (cursor l);
  let l := set_cursor c l in
  fraction ← (if at_end (cursor l) then Some false
              else x ← peek (cursor l);
                   Some ((x =? chr ".")
                         && match peek_at (cursor l) 1 with
                            | Some y => is_ascii_digit y | None => false end));
  if fraction : bool then
    l ← step_cursor l;
    c ← skip_while is_number_char (cursor l);
    let l := set_cursor c l in
    name ← text_from start_offset (cursor l);
    Some (emit (TkFloatLit name) start l)
  else
    name ← text_from start_offset (cursor l);
    Some (emit (TkIntLit name) start l).

Definition lex_number (l : Lexer) : option Lexer :=
  let start := position (cursor l) in
  let start_offset := byte_offset (cursor l) in
  first ← peek (cursor l);
  match (if first =? chr "0" then peek_at (cursor l) 1 else None) with
  | Some next =>
      if (next =? chr "x") || (next =? chr "X") then
        lex_prefixed_int start start_offset is_hex_char
          (str "expected hex digits after '0x'")
          (str "hex literals use digits 0-9 and a-f, e.g. 0xFF") l
      else if (next =? chr "b") || (next =? chr "B") then
        lex_prefixed_int start start_offset is_binary_char
          (str "expected binary digits after '0b'")
          (str "binary literals use digits 0 and 1, e.g. 0b1010") l
      else lex_decimal start start_offset l
  | None => lex_decimal start start_offset l
  end.

(** ** Strings *)

Definition QUOTES : list Z := [QUOTE; QUOTE; QUOTE].

(** The escapes of a string. *)
Definition escape_of (next : Z) : option Z :=
  if next =? QUOTE then Some QUOTE
  else if next =? BACKSLASH then Some BACKSLASH
  else if next =? chr "n" then Some NEWLINE
  else if next =? chr "r" then Some CR
  else if next =? chr "t" then Some TAB
  else if next =? chr "#" then Some (chr "#")
  else None.

Definition unterminated (multiline : bool) (span : Span) (l : Lexer) : Lexer :=
  if multiline
  then error (str "unterminated multiline string") (str "add a closing '" ++ QUOTES ++ str "'") span l
  else error (str "unterminated string") (str "add a closing '" ++ [QUOTE] ++ str "'") span l.

(** The end of a string at its closing delimiter. *)
Definition close_single (text : list Z) (frag_start : Position) (l : Lexer) : option Lexer :=
  let l := emit_fragment text frag_start l in
  let end_start := position (cursor l) in
  l ← step_cursor l;
  Some (emit TkStringEnd end_start l).

Definition close_multiline (text : list Z) (frag_start : Position) (l : Lexer) : option Lexer :=
  let l := emit_fragment text frag_start l in
  let end_start := position (cursor l) in
  let closer_starts_line := only_whitespace_before_on_line l in
  l ← step_cursor l;
  l ← step_cursor l;
  l ← step_cursor l;
  let l :=
    if closer_starts_line then l
    else error
      (str "the closing '" ++ QUOTES ++ str "' of a multiline string must be on its own line")
      (str "move the closing '" ++ QUOTES ++ str "' to its own line") (span_from l end_start) l in
  Some (emit TkMultilineStringEnd end_start l).

Definition open_interpolation (multiline : bool) (text : list Z) (frag_start : Position) (l : Lexer)
    : option Lexer :=
  let l := emit_fragment text frag_start l in
  let interp_start := position (cursor l) in
  l ← step_cursor l;
  l ← step_cursor l;
  let l := emit TkInterpolStart interp_start l in
  let mode := if multiline then Multiline else Single in
  Some (set_stack (mkInterpol 0 mode interp_start :: string_stack l) l).

(** An escape sequence: the characters it stands for. *)
Definition lex_escape (next : Z) (l : Lexer) : option (list Z * Lexer) :=
  match escape_of next with
  | Some ch =>
      l ← step_cursor l;
      l ← step_cursor l;
      Some ([ch], l)
  | None =>
      let esc_start := position (cursor l) in
      l ← step_cursor l;
      l ← step_cursor l;
      Some ([BACKSLASH; next],
            error (str "unknown escape sequence '" ++ [BACKSLASH; next] ++ str "'")
              (str "supported escapes: " ++ [BACKSLASH; BACKSLASH] ++ str ", "
                 ++ [BACKSLASH; QUOTE] ++ str ", \n, \r, \t, \#")
              (span_from l esc_start) l)
  end.

Fixpoint string_loop (fuel : nat) (multiline : bool) (frag_start : Position) (text : list Z)
    (l : Lexer) : option Lexer :=
  match fuel with
  | O => None
  | S fuel =>
      if at_end (cursor l) then
        let l := emit_fragment text frag_start l in
        Some (unterminated multiline (span_from l frag_start) l)
      else
        c ← peek (cursor l);
        if negb multiline && (c =? QUOTE) then close_single text frag_start l
        else if multiline && (c =? QUOTE) && bool_decide (peek_at (cursor l) 1 = Some QUOTE)
                && bool_decide (peek_at (cursor l) 2 = Some QUOTE)
        then close_multiline text frag_start l
        else if negb multiline && (c =? NEWLINE) then
          let l := emit_fragment text frag_start l in
          Some (error (str "unterminated string") (str "add a closing '" ++ [QUOTE] ++ str "'")
                  (span_from l frag_start) l)
        else if (c =? chr "#") && bool_decide (peek_at (cursor l) 1 = Some (chr "{"))
        then open_interpolation multiline text frag_start l
        else
          match (if c =? BACKSLASH then peek_at (cursor l) 1 else None) with
          | Some next =>
              '(cooked, l) ← lex_escape next l;
              string_loop fuel multiline frag_start (text ++ cooked) l
          | None =>
              l ← step_cursor l;
              string_loop fuel multiline frag_start (text ++ [c]) l
          end
  end.

Definition lex_string_body (multiline : bool) (l : Lexer) : option Lexer :=
  string_loop (S (cursor_len (cursor l))) multiline (position (cursor l)) [] l.

Definition lex_string (l : Lexer) : option Lexer :=
  let start := position (cursor l) in
  l ← step_cursor l;
  lex_string_body false (emit TkStringStart start l).

Definition lex_multiline_string (l : Lexer) : option Lexer :=
  let start := position (cursor l) in
  l ← step_cursor l;
  l ← step_cursor l;
  l ← step_cursor l;
  let l := emit TkMultilineStringStart start l in
  next ← (if at_end (cursor l) then Some None else c ← peek (cursor l); Some (Some c));
  let crlf := bool_decide (next = Some CR) && bool_decide (peek_at (cursor l) 1 = Some NEWLINE) in
  let l :=
    if negb (bool_decide (next = None) || bool_decide (next = Some NEWLINE)) && negb crlf
    then error (str "multiline string content must start on a new line")
           (str "put the content on the line after the opening '" ++ QUOTES ++ str "'")
           (span_from l start) l
    else l in
  lex_string_body true l.

Definition unexpected_character (character : Z) (hint : option (list Z)) (start : Position) (l : Lexer)
    : option Lexer :=
  l ← step_cursor l;
  Some (push_error (mkDiagnostic SevError (str "unexpected character '" ++ [character] ++ str "'")
                      hint (span_from l start)) l).

(** ** The main loop *)

(** [one] unless the next character selects a longer token. *)
Definition operator (l : Lexer) (longer : list (Z * TokenKind)) (one : TokenKind) : option Lexer :=
  match peek_at (cursor l) 1 with
  | Some next =>
      match List.find (fun p => fst p =? next) longer with
      | Some p => double (snd p) l
      | None => single one l
      end
  | None => single one l
  end.

(** [{]: nested inside an interpolation it is counted. *)
Definition open_brace (l : Lexer) : option Lexer :=
  l ← single TkLBrace l;
  match string_stack l with
  | s :: rest =>
      Some (set_stack (mkInterpol (wrap 32 (brace_depth s + 1)) (mode s) (interpol_start s) :: rest) l)
  | [] => Some l
  end.

(** [}]: a nested brace, the end of an interpolation, or a plain brace. *)
Definition close_brace (l : Lexer) : option Lexer :=
  match string_stack l with
  | s :: rest =>
      if 0 <? brace_depth s then
        single TkRBrace
          (set_stack (mkInterpol (brace_depth s - 1) (mode s) (interpol_start s) :: rest) l)
      else
        let l := set_stack rest l in
        let interp_end := position (cursor l) in
        l ← step_cursor l;
        let l := emit TkInterpolEnd interp_end l in
        lex_string_body (bool_decide (mode s = Multiline)) l
  | [] => single TkRBrace l
  end.

Definition single_kinds : list (Z * TokenKind) :=
  [(chr "(", TkLParen); (chr ")", TkRParen); (chr "[", TkLBracket); (chr "]", TkRBracket);
   (chr ",", TkComma); (chr "@", TkAt); (chr "%", TkPercent); (chr ".", TkDot);
   (chr "?", TkQuestion); (chr "|", TkPipe); (chr "&", TkAmpersand)].

Definition operator_kinds : list (Z * (list (Z * TokenKind) * TokenKind)) :=
  [(chr "+", ([(chr "=", TkPlusEq)], TkPlus));
   (chr "-", ([(chr ">", TkArrow); (chr "=", TkMinusEq)], TkMinus));
   (chr "*", ([(chr "=", TkStarEq)], TkStar));
   (chr "/", ([(chr "=", TkSlashEq)], TkSlash));
   (chr "=", ([(chr "=", TkEqEq)], TkEq));
   (chr "!", ([(chr "=", TkNotEq)], TkBang));
   (chr "<", ([(chr "<", TkLtLt); (chr ">", TkLtGt); (chr "=", TkLtEq)], TkLt));
   (chr ">", ([(chr ">", TkGtGt); (chr "=", TkGtEq)], TkGt));
   (chr ":", ([(chr ":", TkColonColon)], TkColon))].

(** The [match] of [run] on the current character. The arms are disjoint, so the
    one-character and the operator arms are tables. *)
Definition run_step (l : Lexer) : option Lexer :=
  let start := position (cursor l) in
  c ← peek (cursor l);
  match List.find (fun p => fst p =? c) single_kinds, List.find (fun p => fst p =? c) operator_kinds with
  | Some p, _ => single (snd p) l
  | None, Some p => operator l (fst (snd p)) (snd (snd p))
  | None, None =>
      if c =? chr "{" then open_brace l
      else if c =? chr "}" then close_brace l
      else if is_ascii_lowercase c || (c =? chr "_") || is_ascii_uppercase c then lex_ident l
      else if is_ascii_digit c then lex_number l
      else if c =? chr "#" then lex_comment l
      else if c =? QUOTE then
        if bool_decide (peek_at (cursor l) 1 = Some QUOTE)
           && bool_decide (peek_at (cursor l) 2 = Some QUOTE)
        then lex_multiline_string l else lex_string l
      else if c =? NEWLINE then lex_newline l
      else unexpected_character c None start l
  end.

Fixpoint run_loop (fuel : nat) (l : Lexer) : option Lexer :=
  match fuel with
  | O => None
  | S fuel =>
      if at_end (cursor l) then Some l
      else
        c ← skip_while is_blank (cursor l);
        let l := set_cursor c l in
        if at_end (cursor l) then Some l
        else l ← run_step l; run_loop fuel l
  end.

(** What [run] does after the loop. *)
Definition finish (l : Lexer) : Lexer :=
  let l :=
    match string_stack l with
    | s :: _ =>
        error (str "unterminated string interpolation") (str "add a closing '}'")
          (span_from l (interpol_start s)) l
    | [] => l
    end in
  push_token (mkToken TkEndOfFile (span_from l (position (cursor l)))) l.

Definition run (l : Lexer) : option Lexer :=
  l ← run_loop (S (cursor_len (cursor l))) l; Some (finish l).

Record LexResult := mkLexResult {
  result_comments : list Comment; result_errors : list Diagnostic; result_tokens : list Token }.

Definition lex (source : list Z) (file : Z) : option LexResult :=
  l ← run (lexer_new source file);
  Some (mkLexResult (comments l) (errors l) (tokens l)).

(** ** The lexer's own tests *)

Definition lex_kinds (s : list Z) : option (list TokenKind) :=
  r ← lex s 0; Some (kind <$> result_tokens r).

Example lex_arrow :
  lex_kinds (str "x -> y")
  = Some [TkIdent (str "x"); TkArrow; TkIdent (str "y"); TkEndOfFile].
Proof. vm_compute. reflexivity. Qed.

Example lex_interpolation :
  lex_kinds ([QUOTE] ++ str "a#{f({x})}b" ++ [QUOTE])
  = Some [TkStringStart; TkStringFragment (str "a"); TkInterpolStart; TkIdent (str "f"); TkLParen;
          TkLBrace; TkIdent (str "x"); TkRBrace; TkRParen; TkInterpolEnd;
          TkStringFragment (str "b"); TkStringEnd; TkEndOfFile].
Proof. vm_compute. reflexivity. Qed.

Example lex_continuation :
  lex_kinds (str "a +" ++ [NEWLINE] ++ str "0x1F" ++ [NEWLINE; NEWLINE] ++ str "  # c" ++ [NEWLINE]
             ++ str ".b" ++ [NEWLINE] ++ str "if 1.5")
  = Some [TkIdent (str "a"); TkPlus; TkIntLit (str "0x1F"); TkDot; TkIdent (str "b"); TkNewline;
          TkIf; TkFloatLit (str "1.5"); TkEndOfFile].
Proof. vm_compute. reflexivity. Qed.
