(* ===== verification/LexerSound.v ===== *)
(** * The lexer is total and loses nothing

    Theorems on the lexer of Lexer.v. [Piece]s cut the source into the lexemes of
    the tokens, the comments, and what is skipped; [lex_lossless] shows that the
    tokens and comments [lex] returns are those of such a cut of the whole source,
    with the spans the cut gives them, so that lexing never panics, always ends,
    and drops only blanks, line breaks that end no statement, and text an error is
    reported on. [lex_well_bracketed] shows that an error-free token stream is in
    the grammar of strings and interpolations ([code]) the parser consumes. *)

From Stdlib Require Import Ascii String.
From S2P Require Import Prelude Types Chars Lexer.
Local Open Scope Z_scope.

(** ** The cursor after a prefix of the source *)

Definition place_step (p : Z * Z) (x : Z) : Z * Z :=
  if x =? NEWLINE then (wrap 32 (fst p + 1), 1) else (fst p, wrap 32 (snd p + 1)).

(** Line and column after [pre]. *)
Definition place (pre : list Z) : Z * Z := fold_left place_step pre (1, 1).

Definition position_at (pre : list Z) : Position :=
  mkPosition (wrap 32 (utf8_len pre)) (fst (place pre)) (snd (place pre)).

Definition cursor_at (pre rest : list Z) : Cursor :=
  mkCursor (utf8_len pre) (pre ++ rest) (snd (place pre)) (fst (place pre)) (length pre)
    (pre ++ rest).

Lemma cursor_new_at s : cursor_new s = cursor_at [] s.
Proof. done. Qed.

Lemma position_cursor pre rest : position (cursor_at pre rest) = position_at pre.
Proof. done. Qed.

Lemma peek_cursor pre rest : peek (cursor_at pre rest) = head rest.
Proof. unfold peek. simpl. rewrite lookup_app_r, Nat.sub_diag by lia. by destruct rest. Qed.

Lemma peek_at_cursor pre rest n : peek_at (cursor_at pre rest) n = rest !! n.
Proof. unfold peek_at. simpl. rewrite lookup_app_r by lia. f_equal. lia. Qed.

Lemma at_end_cursor pre rest : at_end (cursor_at pre rest) = bool_decide (rest = []).
Proof.
  unfold at_end. simpl. apply bool_decide_ext. rewrite length_app.
  destruct rest; simpl; split; [done|lia|lia|done].
Qed.

Lemma advance_cursor pre x rest :
  advance (cursor_at pre (x :: rest)) = Some (x, cursor_at (pre ++ [x]) rest).
Proof.
  unfold advance. simpl. rewrite lookup_app_r, Nat.sub_diag by lia. simpl.
  unfold cursor_at. unfold place. rewrite utf8_len_app, fold_left_app, length_app, <- app_assoc. simpl.
  unfold place_step. rewrite Z.add_0_r, Nat.add_1_r. by destruct (x =? NEWLINE).
Qed.

(** The longest prefix of characters that satisfy a test. *)
Fixpoint take_while (f : Z -> bool) (l : list Z) : list Z :=
  match l with x :: l => if f x then x :: take_while f l else [] | [] => [] end.
Fixpoint drop_while (f : Z -> bool) (l : list Z) : list Z :=
  match l with x :: l' => if f x then drop_while f l' else l | [] => [] end.

Lemma take_drop_while f l : take_while f l ++ drop_while f l = l.
Proof. induction l as [|x l IH]; simpl; [done|]. destruct (f x); simpl; by rewrite ?IH. Qed.

Lemma take_while_all f l : Forall (fun x => f x = true) (take_while f l).
Proof. induction l as [|x l IH]; simpl; [done|]. destruct (f x) eqn:?; auto. Qed.

Lemma drop_while_length f l : (length (drop_while f l) <= length l)%nat.
Proof. induction l as [|x l IH]; simpl; [done|]. destruct (f x); simpl; lia. Qed.

Lemma skip_loop_cursor f rest : forall fuel pre, (length rest < fuel)%nat ->
  skip_loop fuel f (cursor_at pre rest) = Some (cursor_at (pre ++ take_while f rest) (drop_while f rest)).
Proof.
  induction rest as [|x rest IH]; intros [|fuel] pre Hf; simpl in Hf; try lia; simpl skip_loop;
    rewrite at_end_cursor.
  - by rewrite bool_decide_eq_true_2, app_nil_r.
  - rewrite bool_decide_eq_false_2, peek_cursor by done. simpl.
    destruct (f x); [|by rewrite app_nil_r].
    rewrite advance_cursor. simpl. rewrite IH by lia. by rewrite <- app_assoc.
Qed.

Lemma skip_while_cursor f pre rest :
  skip_while f (cursor_at pre rest) = Some (cursor_at (pre ++ take_while f rest) (drop_while f rest)).
Proof. apply skip_loop_cursor. unfold cursor_len. simpl. rewrite length_app. lia. Qed.

Lemma text_from_cursor a b rest : text_from (utf8_len a) (cursor_at (a ++ b) rest) = Some b.
Proof.
  unfold text_from, str_slice. simpl. rewrite utf8_len_app.
  pose proof (utf8_len_nonneg b). rewrite (proj2 (Z.ltb_ge _ _)) by lia.
  rewrite <- app_assoc, split_bytes_app. simpl.
  replace (utf8_len a + utf8_len b - utf8_len a) with (utf8_len b) by lia.
  by rewrite split_bytes_app.
Qed.

#[export] Hint Rewrite position_cursor peek_cursor peek_at_cursor at_end_cursor advance_cursor
  skip_while_cursor text_from_cursor : cursor.

Lemma step_cursor_at l pre x rest :
  cursor l = cursor_at pre (x :: rest) ->
  step_cursor l = Some (set_cursor (cursor_at (pre ++ [x]) rest) l).
Proof. unfold step_cursor. intros ->. by rewrite advance_cursor. Qed.

(** ** The lookahead over following lines is total *)

Lemma blanks_from_total c : forall fuel i, (cursor_len c - i < fuel)%nat ->
  exists j, blanks_from fuel c i = Some j /\ (i <= j)%nat.
Proof.
  induction fuel as [|fuel IH]; intros i Hf; simpl; [lia|].
  destruct (char_at c i) as [x|] eqn:Hx; [|by exists i].
  apply lookup_lt_Some in Hx. fold (cursor_len c) in Hx. destruct (is_blank x); [|by exists i].
  destruct (IH (S i)) as (j & -> & ?); [lia|]. exists j. split; [done|lia].
Qed.

Lemma line_end_from_total c : forall fuel i, (cursor_len c - i < fuel)%nat ->
  exists j, line_end_from fuel c i = Some j /\ (i <= j)%nat.
Proof.
  induction fuel as [|fuel IH]; intros i Hf; simpl; [lia|].
  case_bool_decide; [|by exists i]. destruct (negb _); [|by exists i]. simpl.
  destruct (IH (S i)) as (j & -> & ?); [lia|]. exists j. split; [done|lia].
Qed.

Lemma next_nonws_loop_total c : forall fuel i, (cursor_len c - i < fuel)%nat ->
  exists b, next_nonws_loop fuel c i = Some b.
Proof.
  induction fuel as [|fuel IH]; intros i Hf; cbn [next_nonws_loop]; [lia|].
  destruct (blanks_from_total c (S (cursor_len c)) i) as (j & -> & ?); [lia|]. cbn [mbind option_bind].
  case_bool_decide; [by eexists|]. case_bool_decide.
  - destruct (line_end_from_total c (S (cursor_len c)) j) as (k & -> & ?); [lia|].
    apply IH. case_bool_decide; lia.
  - case_bool_decide; [|by eexists]. apply IH. lia.
Qed.

Lemma next_nonws_total l : exists b, next_nonws_continues l = Some b.
Proof. apply next_nonws_loop_total. lia. Qed.

(** ** The pieces of a source *)

(** What the characters of a string stand for. *)
Fixpoint cook (raw : list Z) : list Z :=
  match raw with
  | [] => []
  | c :: raw' =>
      match (if c =? BACKSLASH then raw' else []) with
      | next :: _ =>
          match raw' with
          | _ :: rest =>
              match escape_of next with Some ch => [ch] | None => [BACKSLASH; next] end ++ cook rest
          | [] => [c]
          end
      | [] => c :: cook raw'
      end
  end.

(** [text] is how a token of kind [k] is spelled. *)
Definition spells (k : TokenKind) (text : list Z) : Prop :=
  match k with
  | TkIdent name | TkTypeIdent name =>
      text = name /\ keyword_or_ident text = k /\ Forall (fun c => is_ident_char c = true) text
  | TkIntLit name | TkFloatLit name => text = name /\ exists d t, text = d :: t /\ is_ascii_digit d = true
  | TkStringFragment cooked => cook text = cooked /\ text <> []
  | TkNewline => text = [NEWLINE]
  | TkEndOfFile => False
  | _ => keyword_lexeme k = Some text \/ keyword_lexeme k = None /\ symbol_lexeme k = Some text
  end.

Inductive Piece :=
  | Lexeme (k : TokenKind) (text : list Z)
  | Remark (body text : list Z)
  | Skipped (text : list Z).

Definition piece_text (p : Piece) : list Z :=
  match p with Lexeme _ t | Remark _ t | Skipped t => t end.
Definition pieces_text (ps : list Piece) : list Z := concat (map piece_text ps).

(** The span of [text] after [pre]. *)
Definition span_at (file : Z) (pre text : list Z) : Span :=
  mkSpanOf (position_at pre) (position_at (pre ++ text)) file false.

Fixpoint piece_tokens (file : Z) (pre : list Z) (ps : list Piece) : list Token :=
  match ps with
  | [] => []
  | p :: ps =>
      match p with Lexeme k t => [mkToken k (span_at file pre t)] | _ => [] end
      ++ piece_tokens file (pre ++ piece_text p) ps
  end.

Fixpoint piece_comments (file : Z) (pre : list Z) (ps : list Piece) : list Comment :=
  match ps with
  | [] => []
  | p :: ps =>
      match p with Remark body t => [mkComment body (span_at file pre t)] | _ => [] end
      ++ piece_comments file (pre ++ piece_text p) ps
  end.

Definition is_layout (c : Z) : Prop := is_blank c = true \/ c = NEWLINE.

Definition piece_ok (file : Z) (es : list Diagnostic) (pre : list Z) (p : Piece) : Prop :=
  match p with
  | Lexeme k t => spells k t
  | Remark body t =>
      (t = chr "#" :: body \/ t = chr "#" :: chr " " :: body) /\ Forall (fun c => c <> NEWLINE) body
  | Skipped t => Forall is_layout t \/ exists d, d ∈ es /\ diag_span d = span_at file pre t
  end.

Fixpoint pieces_ok (file : Z) (es : list Diagnostic) (pre : list Z) (ps : list Piece) : Prop :=
  match ps with
  | [] => True
  | p :: ps => piece_ok file es pre p /\ pieces_ok file es (pre ++ piece_text p) ps
  end.

Definition piece_kinds (ps : list Piece) : list TokenKind :=
  omap (fun p => match p with Lexeme k _ => Some k | _ => None end) ps.

Lemma pieces_text_app ps qs : pieces_text (ps ++ qs) = pieces_text ps ++ pieces_text qs.
Proof. unfold pieces_text. by rewrite map_app, concat_app. Qed.

Lemma piece_tokens_app file ps : forall pre qs,
  piece_tokens file pre (ps ++ qs)
  = piece_tokens file pre ps ++ piece_tokens file (pre ++ pieces_text ps) qs.
Proof.
  induction ps as [|p ps IH]; intros pre qs; simpl; [by rewrite app_nil_r|].
  rewrite IH. unfold pieces_text. simpl. by rewrite !app_assoc.
Qed.

Lemma piece_comments_app file ps : forall pre qs,
  piece_comments file pre (ps ++ qs)
  = piece_comments file pre ps ++ piece_comments file (pre ++ pieces_text ps) qs.
Proof.
  induction ps as [|p ps IH]; intros pre qs; simpl; [by rewrite app_nil_r|].
  rewrite IH. unfold pieces_text. simpl. by rewrite !app_assoc.
Qed.

Lemma pieces_ok_app file es ps : forall pre qs,
  pieces_ok file es pre (ps ++ qs)
  <-> pieces_ok file es pre ps /\ pieces_ok file es (pre ++ pieces_text ps) qs.
Proof.
  induction ps as [|p ps IH]; intros pre qs; simpl; [rewrite app_nil_r; tauto|].
  rewrite IH. unfold pieces_text. simpl. rewrite <- app_assoc. tauto.
Qed.

Lemma pieces_ok_mono file es es' ps : forall pre,
  es ⊆ es' -> pieces_ok file es pre ps -> pieces_ok file es' pre ps.
Proof.
  induction ps as [|p ps IH]; intros pre Hes; simpl; [done|]. intros [Hp Hps]. split; [|by apply IH].
  destruct p as [k t|body t|t]; simpl in *; try done.
  destruct Hp as [?|(d & ? & ?)]; [by left|right; exists d; auto].
Qed.

Lemma piece_tokens_kinds file ps : forall pre, kind <$> piece_tokens file pre ps = piece_kinds ps.
Proof.
  induction ps as [|p ps IH]; intros pre; [done|]. simpl. rewrite fmap_app, IH. by destruct p.
Qed.

(** ** What a scanner does *)

(** From [l] at [pre | rest], the lexer [l'] at [rest'] has consumed [ps] and
    reported [es]. *)
Record scanned (l : Lexer) (pre rest : list Z) (l' : Lexer) (rest' : list Z)
    (ps : list Piece) (es : list Diagnostic) : Prop := {
  sc_text : rest = pieces_text ps ++ rest';
  sc_cursor : cursor l' = cursor_at (pre ++ pieces_text ps) rest';
  sc_file : lexer_file l' = lexer_file l;
  sc_tokens : tokens l' = tokens l ++ piece_tokens (lexer_file l) pre ps;
  sc_comments : comments l' = comments l ++ piece_comments (lexer_file l) pre ps;
  sc_errors : errors l' = errors l ++ es;
  sc_ok : pieces_ok (lexer_file l) es pre ps }.

Lemma scanned_nil l pre rest :
  cursor l = cursor_at pre rest -> scanned l pre rest l rest [] [].
Proof. intros H. constructor; simpl; rewrite ?app_nil_r; done. Qed.

Lemma scanned_trans l pre rest l1 rest1 ps es l2 rest2 qs fs :
  scanned l pre rest l1 rest1 ps es ->
  scanned l1 (pre ++ pieces_text ps) rest1 l2 rest2 qs fs ->
  scanned l pre rest l2 rest2 (ps ++ qs) (es ++ fs).
Proof.
  intros [-> Hc Hf Ht Hm He Ho] [-> Hc' Hf' Ht' Hm' He' Ho']. rewrite Hf in *.
  constructor; rewrite ?pieces_text_app, ?piece_tokens_app, ?piece_comments_app, ?app_assoc; try congruence.
  apply pieces_ok_app. split; (eapply pieces_ok_mono; [|eassumption]); set_solver.
Qed.

(** A token of kind [k] spelled [t], a comment, text skipped, an error reported. *)
Definition place_token (k : TokenKind) (pre t rest : list Z) (l : Lexer) : Lexer :=
  push_token (mkToken k (span_at (lexer_file l) pre t)) (set_cursor (cursor_at (pre ++ t) rest) l).

Lemma scanned_token l k pre t rest :
  spells k t -> scanned l pre (t ++ rest) (place_token k pre t rest l) rest [Lexeme k t] [].
Proof. intros H. constructor; simpl; unfold pieces_text; simpl; rewrite ?app_nil_r; done. Qed.

Lemma scanned_remark l body pre t rest :
  piece_ok 0 [] pre (Remark body t) ->
  scanned l pre (t ++ rest)
    (push_comment (mkComment body (span_at (lexer_file l) pre t)) (set_cursor (cursor_at (pre ++ t) rest) l))
    rest [Remark body t] [].
Proof. intros H. constructor; simpl; unfold pieces_text; simpl; rewrite ?app_nil_r; done. Qed.

Lemma scanned_skip l pre t rest :
  Forall is_layout t ->
  scanned l pre (t ++ rest) (set_cursor (cursor_at (pre ++ t) rest) l) rest [Skipped t] [].
Proof. intros H. constructor; simpl; unfold pieces_text; simpl; rewrite ?app_nil_r; auto. Qed.

Lemma scanned_error l pre rest d :
  cursor l = cursor_at pre rest -> scanned l pre rest (push_error d l) rest [] [d].
Proof. intros H. constructor; simpl; rewrite ?app_nil_r; done. Qed.

Lemma scanned_reject l d pre t rest :
  diag_span d = span_at (lexer_file l) pre t ->
  scanned l pre (t ++ rest) (push_error d (set_cursor (cursor_at (pre ++ t) rest) l)) rest
    [Skipped t] [d].
Proof.
  intros H. constructor; simpl; unfold pieces_text; simpl; rewrite ?app_nil_r; try done.
  split; [|done]. right. exists d. split; [set_solver|done].
Qed.

(** The stack is no part of [scanned]. *)
Lemma scanned_stack l pre rest l' rest' ps es st :
  scanned l pre rest l' rest' ps es -> scanned l pre rest (set_stack st l') rest' ps es.
Proof. intros []. by constructor. Qed.

Lemma scanned_stack_l l pre rest l' rest' ps es st :
  scanned (set_stack st l) pre rest l' rest' ps es -> scanned l pre rest l' rest' ps es.
Proof. intros []. by constructor. Qed.

(** ** Strings and interpolations in the token stream *)

Definition plain_kind (k : TokenKind) : bool :=
  match k with
  | TkStringStart | TkStringFragment _ | TkStringEnd | TkInterpolStart | TkInterpolEnd
  | TkMultilineStringStart | TkMultilineStringEnd | TkLBrace | TkRBrace => false
  | _ => true
  end.

Definition opener (m : StringMode) : TokenKind :=
  match m with Multiline => TkMultilineStringStart | Single => TkStringStart end.
Definition closer (m : StringMode) : TokenKind :=
  match m with Multiline => TkMultilineStringEnd | Single => TkStringEnd end.

Definition fragment (ks : list TokenKind) : Prop :=
  ks = [] \/ exists s, s <> [] /\ ks = [TkStringFragment s].

(** The rest of a string: its end, or the start of an interpolation. *)
Inductive body_moves (m : StringMode) (st : list InterpolState) :
    list TokenKind -> list InterpolState -> Prop :=
  | bm_close frag : fragment frag -> body_moves m st (frag ++ [closer m]) st
  | bm_interpol frag p :
      fragment frag -> body_moves m st (frag ++ [TkInterpolStart]) (mkInterpol 0 m p :: st).

(** How a step without errors moves the stack with the tokens it emits. *)
Inductive moves : list InterpolState -> list TokenKind -> list InterpolState -> Prop :=
  | mv_plain st ks : Forall (fun k => plain_kind k = true) ks -> moves st ks st
  | mv_top k : k = TkLBrace \/ k = TkRBrace -> moves [] [k] []
  | mv_lbrace s st :
      moves (s :: st) [TkLBrace]
        (mkInterpol (wrap 32 (brace_depth s + 1)) (mode s) (interpol_start s) :: st)
  | mv_rbrace s st :
      0 < brace_depth s ->
      moves (s :: st) [TkRBrace] (mkInterpol (brace_depth s - 1) (mode s) (interpol_start s) :: st)
  | mv_string m st ks st' : body_moves m st ks st' -> moves st (opener m :: ks) st'
  | mv_resume s st ks st' :
      brace_depth s <= 0 -> body_moves (mode s) st ks st' -> moves (s :: st) (TkInterpolEnd :: ks) st'.

(** A run step at a character. *)
Definition stepped (l : Lexer) (pre rest : list Z) (r : option Lexer) : Prop :=
  exists l' rest' ps es, r = Some l' /\ scanned l pre rest l' rest' ps es
    /\ (length rest' < length rest)%nat
    /\ (es = [] -> moves (string_stack l) (piece_kinds ps) (string_stack l')).

Lemma stepped_token l k pre x t rest :
  spells k (x :: t) -> plain_kind k = true ->
  stepped l pre (x :: t ++ rest) (Some (place_token k pre (x :: t) rest l)).
Proof.
  intros Hk Hp. eexists _, rest, _, _. split; [done|]. split; [apply (scanned_token l k pre (x :: t) rest Hk)|].
  split; [simpl; rewrite length_app; lia|]. intros _. by apply mv_plain; repeat constructor.
Qed.

Lemma single_at k l pre x rest :
  cursor l = cursor_at pre (x :: rest) -> single k l = Some (place_token k pre [x] rest l).
Proof.
  intros H. unfold single. rewrite (step_cursor_at _ _ _ _ H). simpl. by rewrite H.
Qed.

Lemma double_at k l pre x y rest :
  cursor l = cursor_at pre (x :: y :: rest) -> double k l = Some (place_token k pre [x; y] rest l).
Proof.
  intros H. unfold double. rewrite (step_cursor_at _ _ _ _ H). simpl.
  erewrite step_cursor_at by done. unfold span_from. simpl. rewrite H.
  unfold place_token, span_at, set_cursor, push_token. simpl. by rewrite <- !app_assoc.
Qed.

(** ** The scanners of names, numbers, comments and line breaks *)

Lemma keyword_spells k t : keyword_lexeme k = Some t -> spells k t /\ plain_kind k = true.
Proof. destruct k; try discriminate; intros [= <-]; simpl; auto. Qed.

Lemma keywords_lexemes : Forall (fun kw => keyword_lexeme (snd kw) = Some (fst kw)) keywords.
Proof. repeat constructor. Qed.

Lemma keyword_or_ident_cases t :
  keyword_or_ident t = TkTypeIdent t \/ keyword_or_ident t = TkIdent t
  \/ keyword_lexeme (keyword_or_ident t) = Some t.
Proof.
  unfold keyword_or_ident. destruct (match t with [] => false | c :: _ => _ end); [by left|right].
  destruct (List.find _ keywords) as [[w k]|] eqn:Hf; [right|by left].
  apply find_some in Hf as [Hin Hw]. simpl in Hw. apply bool_decide_eq_true in Hw as ->.
  apply list_elem_of_In in Hin. exact (proj1 (Forall_forall _ _) keywords_lexemes _ Hin).
Qed.

Lemma word_spells t :
  Forall (fun c => is_ident_char c = true) t ->
  spells (keyword_or_ident t) t /\ plain_kind (keyword_or_ident t) = true.
Proof.
  intros Ht. destruct (keyword_or_ident_cases t) as [E|[E|E]]; [| |by apply keyword_spells];
    rewrite E; simpl; auto.
Qed.

Lemma skip_while_cons f pre x rest :
  f x = true ->
  skip_while f (cursor_at pre (x :: rest))
  = Some (cursor_at (pre ++ x :: take_while f rest) (drop_while f rest)).
Proof. intros Hx. rewrite skip_while_cursor. simpl. by rewrite Hx. Qed.

Lemma lex_ident_at l pre x rest :
  cursor l = cursor_at pre (x :: rest) -> is_ident_char x = true ->
  stepped l pre (x :: rest) (lex_ident l).
Proof.
  intros H Hx.
  destruct (word_spells (take_while is_ident_char (x :: rest)) (take_while_all _ _)) as [Hs Hp].
  simpl take_while in Hs, Hp. rewrite Hx in Hs, Hp.
  unfold lex_ident. rewrite H, skip_while_cons by done. cbn [mbind option_bind].
  cbn [cursor set_cursor byte_offset cursor_at]. fold (cursor_at pre (x :: rest)).
  rewrite text_from_cursor. cbn [mbind option_bind].
  rewrite <- (take_drop_while is_ident_char rest) at 1.
  exact (stepped_token l _ pre x _ _ Hs Hp).
Qed.

Lemma digit_number_char x : is_ascii_digit x = true -> is_number_char x = true.
Proof. unfold is_number_char. by intros ->. Qed.

Lemma lex_decimal_at l pre x rest :
  cursor l = cursor_at pre (x :: rest) -> is_ascii_digit x = true ->
  stepped l pre (x :: rest) (lex_decimal (position_at pre) (utf8_len pre) l).
Proof.
  intros H Hx. pose proof (digit_number_char x Hx) as Hn. unfold lex_decimal.
  rewrite H, skip_while_cons by done. cbn [mbind option_bind cursor set_cursor].
  rewrite at_end_cursor, peek_cursor, peek_at_cursor.
  pose proof (take_drop_while is_number_char rest) as Hr.
  set (t := take_while is_number_char rest) in *. set (r := drop_while is_number_char rest) in *.
  assert (stepped l pre (x :: rest)
            (name ← text_from (utf8_len pre) (cursor_at (pre ++ x :: t) r);
             Some (emit (TkIntLit name) (position_at pre) (set_cursor (cursor_at (pre ++ x :: t) r) l))))
    as Hint.
  { rewrite text_from_cursor. cbn [mbind option_bind]. rewrite <- Hr.
    refine (stepped_token l (TkIntLit (x :: t)) pre x t r _ eq_refl). split; [done|]. by eexists _, _. }
  destruct r as [|y r]; [rewrite bool_decide_eq_true_2 by done; exact Hint|].
  rewrite bool_decide_eq_false_2 by done. cbn [mbind option_bind head].
  match goal with |- context [if ?b then _ else _] => destruct b end; [|exact Hint].
  erewrite step_cursor_at by done. cbn [mbind option_bind cursor set_cursor].
  rewrite skip_while_cursor. cbn [mbind option_bind cursor set_cursor].
  rewrite <- !app_assoc. rewrite text_from_cursor. cbn [mbind option_bind]. rewrite <- Hr.
  rewrite <- (take_drop_while is_number_char r) at 1. simpl.
  replace (x :: t ++ y :: take_while is_number_char r ++ drop_while is_number_char r)
    with (x :: (t ++ y :: take_while is_number_char r) ++ drop_while is_number_char r)
    by (simpl; by rewrite <- app_assoc).
  refine (stepped_token l (TkFloatLit _) pre x _ _ _ eq_refl). split; [done|]. by eexists _, _.
Qed.

(** Two characters consumed. *)
Lemma step_cursor_two l pre x y rest :
  cursor l = cursor_at pre (x :: y :: rest) ->
  (l ← step_cursor l; step_cursor l) = Some (set_cursor (cursor_at (pre ++ [x; y]) rest) l).
Proof.
  intros H. rewrite (step_cursor_at _ _ _ _ H). cbn [mbind option_bind].
  erewrite step_cursor_at by done. by rewrite <- app_assoc.
Qed.

Lemma bind_two {A} (l : Lexer) (k : Lexer -> option A) l' :
  (l ← step_cursor l; step_cursor l) = Some l' ->
  (l ← step_cursor l; l ← step_cursor l; k l) = k l'.
Proof. destruct (step_cursor l) as [l1|]; simpl; [|done]. by intros ->. Qed.

Lemma take_while_nil f l : take_while f l = [] -> drop_while f l = l.
Proof. destruct l as [|x l]; simpl; [done|]. by destruct (f x). Qed.

Lemma byte_offset_cursor pre rest : byte_offset (cursor_at pre rest) = utf8_len pre.
Proof. done. Qed.

Lemma stepped_reject l d pre x t rest :
  diag_span d = span_at (lexer_file l) pre (x :: t) ->
  stepped l pre (x :: t ++ rest)
    (Some (push_error d (set_cursor (cursor_at (pre ++ x :: t) rest) l))).
Proof.
  intros H. eexists _, rest, _, [d]. split; [done|].
  split; [exact (scanned_reject l d pre (x :: t) rest H)|]. split; [simpl; rewrite length_app; lia|done].
Qed.

Lemma lex_prefixed_int_at l pre x y rest pred label hint :
  cursor l = cursor_at pre (x :: y :: rest) -> is_ascii_digit x = true ->
  stepped l pre (x :: y :: rest)
    (lex_prefixed_int (position_at pre) (utf8_len pre) pred label hint l).
Proof.
  intros H Hx. unfold lex_prefixed_int.
  rewrite (bind_two _ _ _ (step_cursor_two _ _ _ _ _ H)). cbn [cursor set_cursor].
  rewrite skip_while_cursor. cbn [mbind option_bind cursor set_cursor].
  rewrite !byte_offset_cursor, <- !app_assoc, text_from_cursor. cbn [mbind option_bind].
  pose proof (take_drop_while pred rest) as Hr.
  destruct (Z.eqb_spec (utf8_len (pre ++ [x; y] ++ take_while pred rest)) (utf8_len (pre ++ [x; y])))
    as [E|E].
  - rewrite !utf8_len_app in E.
    assert (take_while pred rest = []) as Ht by (apply utf8_len_nil; lia).
    rewrite Ht, (take_while_nil _ _ Ht). by refine (stepped_reject l _ pre x [y] rest _).
  - rewrite <- Hr at 1.
    refine (stepped_token l (TkIntLit _) pre x (y :: take_while pred rest) _ _ eq_refl).
    split; [done|]. by eexists _, _.
Qed.

Lemma lex_number_at l pre x rest :
  cursor l = cursor_at pre (x :: rest) -> is_ascii_digit x = true ->
  stepped l pre (x :: rest) (lex_number l).
Proof.
  intros H Hx. pose proof (lex_decimal_at l pre x rest H Hx) as Hd.
  unfold lex_number. rewrite H, peek_cursor, peek_at_cursor. cbn [mbind option_bind head].
  rewrite position_cursor, byte_offset_cursor.
  destruct (x =? chr "0"); [|exact Hd]. destruct rest as [|y rest]; [exact Hd|].
  change ((x :: y :: rest) !! 1%nat) with (Some y). cbn iota.
  destruct (_ || _); [by apply lex_prefixed_int_at|].
  destruct (_ || _); [by apply lex_prefixed_int_at|exact Hd].
Qed.

Lemma unexpected_character_at l pre x rest h :
  cursor l = cursor_at pre (x :: rest) ->
  stepped l pre (x :: rest) (unexpected_character x h (position_at pre) l).
Proof.
  intros H. unfold unexpected_character. rewrite (step_cursor_at _ _ _ _ H). cbn [mbind option_bind].
  by refine (stepped_reject l _ pre x [] rest _).
Qed.

Lemma lex_newline_at l pre rest :
  cursor l = cursor_at pre (NEWLINE :: rest) -> stepped l pre (NEWLINE :: rest) (lex_newline l).
Proof.
  intros H. unfold lex_newline. rewrite (step_cursor_at _ _ _ _ H). cbn [mbind option_bind].
  set (l1 := set_cursor _ l).
  assert (stepped l pre (NEWLINE :: rest) (Some l1)) as Hs.
  { eexists _, rest, _, _. split; [done|]. split; [refine (scanned_skip l pre [NEWLINE] rest _)|].
    - apply Forall_singleton. by right.
    - split; [simpl; lia|]. intros _. by apply mv_plain. }
  destruct (continues_line l1); [done|].
  destruct (next_nonws_total l1) as [b ->]. cbn [mbind option_bind]. destruct b; [done|].
  case_bool_decide; [done|]. rewrite H.
  exact (stepped_token l TkNewline pre NEWLINE [] rest eq_refl eq_refl).
Qed.

Lemma stepped_set_cursor c l pre rest r : stepped (set_cursor c l) pre rest r -> stepped l pre rest r.
Proof.
  intros (l' & rest' & ps & es & ? & [] & ? & ?). exists l', rest', ps, es. by repeat split.
Qed.

Lemma lex_comment_body l pre t rest :
  cursor l = cursor_at (pre ++ t) rest -> t = [chr "#"] \/ t = [chr "#"; chr " "] ->
  stepped l pre (t ++ rest)
    (c ← skip_while (fun x => negb (x =? NEWLINE)) (cursor l);
     text ← text_from (utf8_len (pre ++ t)) c;
     Some (push_comment (mkComment text (span_from (set_cursor c l) (position_at pre))) (set_cursor c l))).
Proof.
  intros H Ht. rewrite H, skip_while_cursor. cbn [mbind option_bind].
  rewrite text_from_cursor. cbn [mbind option_bind].
  set (f := fun x => negb (x =? NEWLINE)) in *. pose proof (take_drop_while f rest) as Hr.
  rewrite <- Hr at 1. rewrite app_assoc, <- (app_assoc pre t).
  eexists _, (drop_while f rest), _, _. split; [done|].
  split; [refine (scanned_remark l (take_while f rest) pre (t ++ take_while f rest) _ _)|].
  - split; [destruct Ht as [->| ->]; auto|]. eapply Forall_impl; [apply (take_while_all f)|].
    unfold f. intros c Hc ->. by rewrite Z.eqb_refl in Hc.
  - split; [rewrite !length_app; destruct Ht as [->| ->]; simpl; lia|]. intros _. by apply mv_plain.
Qed.

Lemma lex_comment_at l pre rest :
  cursor l = cursor_at pre (chr "#" :: rest) -> stepped l pre (chr "#" :: rest) (lex_comment l).
Proof.
  intros H. unfold lex_comment. rewrite (step_cursor_at _ _ _ _ H).
  cbn [mbind option_bind cursor set_cursor]. rewrite at_end_cursor, peek_cursor, H.
  set (l1 := set_cursor _ l).
  assert (stepped l pre (chr "#" :: rest)
    (c ← skip_while (fun x => negb (x =? NEWLINE)) (cursor l1);
     text ← text_from (utf8_len (pre ++ [chr "#"])) c;
     Some (push_comment (mkComment text (span_from (set_cursor c l1) (position_at pre))) (set_cursor c l1))))
    as Hs by exact (stepped_set_cursor _ _ _ _ _ (lex_comment_body l1 pre [chr "#"] rest eq_refl (or_introl eq_refl))).
  destruct rest as [|y rest]; [rewrite bool_decide_eq_true_2 by done; exact Hs|].
  rewrite bool_decide_eq_false_2 by done. cbn [mbind option_bind head].
  destruct (Z.eqb_spec y (chr " ")) as [->|]; [|exact Hs].
  unfold l1. erewrite step_cursor_at by done. cbn [mbind option_bind].
  set (l2 := set_cursor _ (set_cursor _ l)).
  assert (cursor l2 = cursor_at (pre ++ [chr "#"; chr " "]) rest) as H2 by (simpl; by rewrite <- app_assoc).
  rewrite H2, byte_offset_cursor, <- H2. do 2 eapply stepped_set_cursor.
  exact (lex_comment_body l2 pre [chr "#"; chr " "] rest H2 (or_intror eq_refl)).
Qed.

(** ** The string scanner *)

(** Where the loop over a string's characters stops. *)
Definition terminal (multiline : bool) (rest : list Z) : bool :=
  match rest with
  | [] => true
  | c :: _ =>
      negb multiline && (c =? QUOTE)
      || multiline && (c =? QUOTE) && bool_decide (rest !! 1%nat = Some QUOTE)
         && bool_decide (rest !! 2%nat = Some QUOTE)
      || negb multiline && (c =? NEWLINE)
      || (c =? chr "#") && bool_decide (rest !! 1%nat = Some (chr "{"))
  end.

Definition set_errors (es : list Diagnostic) (l : Lexer) : Lexer :=
  mkLexer (comments l) (cursor l) es (lexer_file l) (string_stack l) (tokens l).

(** [l] with [t] consumed up to [rest] and [es] reported. *)
Definition consumed (pre t rest : list Z) (es : list Diagnostic) (l : Lexer) : Lexer :=
  set_errors (errors l ++ es) (set_cursor (cursor_at (pre ++ t) rest) l).

Lemma consumed_nil pre rest l : cursor l = cursor_at pre rest -> l = consumed pre [] rest [] l.
Proof. destruct l. simpl. intros ->. unfold consumed, set_errors, set_cursor. simpl. by rewrite !app_nil_r. Qed.

Lemma consumed_trans pre t rest es t' rest' es' l :
  consumed (pre ++ t) t' rest' es' (consumed pre t rest es l) = consumed pre (t ++ t') rest' (es ++ es') l.
Proof. unfold consumed, set_errors, set_cursor. simpl. by rewrite <- !app_assoc. Qed.

Lemma cook_plain c t : c <> BACKSLASH \/ t = [] -> cook (c :: t) = c :: cook t.
Proof.
  intros H. simpl. destruct (Z.eqb_spec c BACKSLASH) as [->|]; [|done].
  by destruct H as [?| ->].
Qed.

Lemma cook_escape n t :
  cook (BACKSLASH :: n :: t)
  = match escape_of n with Some ch => [ch] | None => [BACKSLASH; n] end ++ cook t.
Proof. done. Qed.

Lemma cook_nil t : cook t = [] -> t = [].
Proof.
  destruct t as [|c [|n t]]; [done|by rewrite cook_plain by auto|].
  destruct (decide (c = BACKSLASH)) as [->|]; [|by rewrite cook_plain by auto].
  rewrite cook_escape. by destruct (escape_of n).
Qed.

Lemma lex_escape_at l pre n rest :
  cursor l = cursor_at pre (BACKSLASH :: n :: rest) ->
  exists es, lex_escape n l
    = Some (match escape_of n with Some ch => [ch] | None => [BACKSLASH; n] end,
            consumed pre [BACKSLASH; n] rest es l)
    /\ (es = [] <-> is_Some (escape_of n)).
Proof.
  intros H. unfold lex_escape. destruct (escape_of n).
  - rewrite (bind_two _ _ _ (step_cursor_two _ _ _ _ _ H)). exists [].
    split; [|naive_solver]. unfold consumed, set_errors. by rewrite app_nil_r.
  - rewrite (bind_two _ _ _ (step_cursor_two _ _ _ _ _ H)). eexists [_].
    split; [done|]. split; [done|]. by intros [].
Qed.

(** A plain character and an escape, which do not stop the loop. *)
Lemma string_loop_plain fuel ml fs text l pre c rest :
  cursor l = cursor_at pre (c :: rest) -> terminal ml (c :: rest) = false ->
  c <> BACKSLASH \/ rest = [] ->
  string_loop (S fuel) ml fs text l = string_loop fuel ml fs (text ++ [c]) (consumed pre [c] rest [] l).
Proof.
  intros H Ht Hc. cbn [string_loop]. rewrite H, at_end_cursor, peek_cursor, !peek_at_cursor.
  rewrite bool_decide_eq_false_2 by done. cbn [mbind option_bind head].
  unfold terminal in Ht. apply orb_false_iff in Ht as [[[-> ->]%orb_false_iff ->]%orb_false_iff ->].
  assert ((if c =? BACKSLASH then (c :: rest) !! 1%nat else None) = None) as ->.
  { destruct (Z.eqb_spec c BACKSLASH) as [->|]; [|done]. by destruct Hc as [?| ->]. }
  rewrite (step_cursor_at _ _ _ _ H). cbn [mbind option_bind].
  unfold consumed, set_errors. by rewrite app_nil_r.
Qed.

Lemma string_loop_backslash fuel ml fs text l pre n rest :
  cursor l = cursor_at pre (BACKSLASH :: n :: rest) ->
  string_loop (S fuel) ml fs text l
  = ('(cooked, l) ← lex_escape n l; string_loop fuel ml fs (text ++ cooked) l).
Proof.
  intros H. cbn [string_loop]. rewrite H, at_end_cursor, peek_cursor, !peek_at_cursor.
  rewrite bool_decide_eq_false_2 by done. by destruct ml.
Qed.

Lemma string_loop_escape fuel ml fs text l pre n rest ch :
  cursor l = cursor_at pre (BACKSLASH :: n :: rest) -> escape_of n = Some ch ->
  string_loop (S fuel) ml fs text l
  = string_loop fuel ml fs (text ++ [ch]) (consumed pre [BACKSLASH; n] rest [] l).
Proof.
  intros H He. rewrite (string_loop_backslash _ _ _ _ _ _ _ _ H).
  destruct (lex_escape_at l pre n rest H) as (es & -> & Hes). cbn [mbind option_bind].
  rewrite He in *. by rewrite (proj2 Hes) by eauto.
Qed.

(** What does not stop the loop: the characters it consumes and what they stand for. *)
Lemma string_loop_step fuel ml fs text l pre rest :
  cursor l = cursor_at pre rest -> terminal ml rest = false ->
  exists t rest' es, rest = t ++ rest' /\ t <> []
    /\ (forall u, (u = [] \/ rest' <> []) -> cook (t ++ u) = cook t ++ cook u)
    /\ string_loop (S fuel) ml fs text l = string_loop fuel ml fs (text ++ cook t) (consumed pre t rest' es l).
Proof.
  intros H Ht. destruct rest as [|c rest]; [done|].
  destruct (decide (c = BACKSLASH /\ rest <> [])) as [[-> Hne]|Hplain].
  - destruct rest as [|n rest]; [done|]. rewrite (string_loop_backslash _ _ _ _ _ _ _ _ H).
    destruct (lex_escape_at l pre n rest H) as (es & -> & Hes). cbn [mbind option_bind].
    exists [BACKSLASH; n], rest, es. split; [done|]. split; [done|]. split.
    + intros u _. change ([BACKSLASH; n] ++ u) with (BACKSLASH :: n :: u).
      by rewrite !cook_escape, app_nil_r.
    + by rewrite cook_escape, app_nil_r.
  - assert (c <> BACKSLASH \/ rest = []) as Hc.
    { destruct (decide (c = BACKSLASH)); [|by left]. destruct rest; [by right|]. by exfalso; apply Hplain. }
    exists [c], rest, []. split; [done|]. split; [done|]. split.
    + intros u Hu. change ([c] ++ u) with (c :: u).
      by rewrite (cook_plain c u), (cook_plain c []) by naive_solver.
    + rewrite (string_loop_plain _ _ _ _ _ _ _ _ H) by done. by rewrite cook_plain by auto.
Qed.

Lemma string_loop_scan ml fs : forall fuel l pre rest text,
  (length rest < fuel)%nat -> cursor l = cursor_at pre rest ->
  exists t rest' es n, rest = t ++ rest' /\ terminal ml rest' = true
    /\ string_loop fuel ml fs text l = string_loop (S n) ml fs (text ++ cook t) (consumed pre t rest' es l).
Proof.
  induction fuel as [|fuel IH]; intros l pre rest text Hf H; [lia|].
  destruct (terminal ml rest) eqn:Ht.
  { exists [], rest, [], fuel. split; [done|]. split; [done|].
    rewrite app_nil_r. by rewrite <- consumed_nil. }
  destruct (string_loop_step fuel ml fs text l pre rest H Ht) as (t & rest' & es & -> & Hne & Hcook & ->).
  destruct (IH (consumed pre t rest' es l) (pre ++ t) rest' (text ++ cook t))
    as (t' & rest2 & es' & n & -> & Ht' & ->); [|done|].
  { rewrite length_app in Hf. destruct t; [done|]. simpl in Hf. lia. }
  exists (t ++ t'), rest2, (es ++ es'), n. split; [by rewrite app_assoc|]. split; [done|].
  rewrite consumed_trans, <- app_assoc, Hcook; [done|]. destruct t'; [by left|by right].
Qed.

Definition frag_pieces (t : list Z) : list Piece :=
  match t with [] => [] | _ :: _ => [Lexeme (TkStringFragment (cook t)) t] end.

Lemma frag_pieces_fragment t : fragment (piece_kinds (frag_pieces t)).
Proof.
  destruct t as [|c t]; [by left|right]. exists (cook (c :: t)). split; [|done].
  intros H. by apply cook_nil in H.
Qed.

Lemma fragment_at l pre t rest es :
  scanned l pre (t ++ rest) (emit_fragment (cook t) (position_at pre) (consumed pre t rest es l)) rest
    (frag_pieces t) es.
Proof.
  unfold emit_fragment. case_bool_decide as Hc.
  - apply cook_nil in Hc as ->. constructor; simpl; by rewrite ?app_nil_r.
  - destruct t as [|c t]; [done|]. constructor; simpl; unfold pieces_text; simpl; rewrite ?app_nil_r; try done.
Qed.

Lemma emit_fragment_cursor text fs l : cursor (emit_fragment text fs l) = cursor l.
Proof. unfold emit_fragment. by case_bool_decide. Qed.
Lemma emit_fragment_stack text fs l : string_stack (emit_fragment text fs l) = string_stack l.
Proof. unfold emit_fragment. by case_bool_decide. Qed.

(** The end of a string, as [bm_close] and [bm_interpol] without the fragment. *)
Definition exit_moves (m : StringMode) (st : list InterpolState) (ks : list TokenKind)
    (st' : list InterpolState) : Prop :=
  ks = [closer m] /\ st' = st \/ exists p, ks = [TkInterpolStart] /\ st' = mkInterpol 0 m p :: st.

Definition exited (m : StringMode) (l : Lexer) (pre rest : list Z) (r : option Lexer) : Prop :=
  exists l' rest' ps es, r = Some l' /\ scanned l pre rest l' rest' ps es
    /\ (es = [] -> exit_moves m (string_stack l) (piece_kinds ps) (string_stack l')).

Lemma exited_error m l pre rest d :
  cursor l = cursor_at pre rest -> exited m l pre rest (Some (push_error d l)).
Proof.
  intros H. eexists _, rest, _, [d]. split; [done|]. split; [by apply scanned_error|done].
Qed.

Lemma close_single_at text fs l pre rest :
  cursor l = cursor_at pre (QUOTE :: rest) ->
  exited Single (emit_fragment text fs l) pre (QUOTE :: rest) (close_single text fs l).
Proof.
  intros H. unfold close_single. set (l1 := emit_fragment text fs l).
  assert (cursor l1 = cursor_at pre (QUOTE :: rest)) as H1 by (unfold l1; by rewrite emit_fragment_cursor).
  rewrite (step_cursor_at _ _ _ _ H1). cbn [mbind option_bind]. rewrite H1.
  eexists _, rest, _, _. split; [done|].
  split; [refine (scanned_token l1 TkStringEnd pre [QUOTE] rest _); by right|]. intros _. by left.
Qed.

Lemma open_interpolation_at (ml : bool) text fs l pre rest :
  cursor l = cursor_at pre (chr "#" :: chr "{" :: rest) ->
  exited (if ml then Multiline else Single) (emit_fragment text fs l) pre (chr "#" :: chr "{" :: rest)
    (open_interpolation ml text fs l).
Proof.
  intros H. unfold open_interpolation. set (l1 := emit_fragment text fs l).
  assert (cursor l1 = cursor_at pre (chr "#" :: chr "{" :: rest)) as H1
    by (unfold l1; by rewrite emit_fragment_cursor).
  rewrite (bind_two _ _ _ (step_cursor_two _ _ _ _ _ H1)). rewrite H1.
  eexists _, rest, _, _. split; [done|]. split.
  - apply scanned_stack. refine (scanned_token l1 TkInterpolStart pre [chr "#"; chr "{"] rest _). by right.
  - intros _. right. by eexists.
Qed.

Lemma step_cursor_three {A} l pre x y z rest (k : Lexer -> option A) :
  cursor l = cursor_at pre (x :: y :: z :: rest) ->
  (l ← step_cursor l; l ← step_cursor l; l ← step_cursor l; k l)
  = k (set_cursor (cursor_at (pre ++ [x; y; z]) rest) l).
Proof.
  intros H.
  rewrite (bind_two l (fun l => l ← step_cursor l; k l) _ (step_cursor_two _ _ _ _ _ H)).
  erewrite step_cursor_at by done. cbn [mbind option_bind]. by rewrite <- app_assoc.
Qed.

Lemma close_multiline_at text fs l pre rest :
  cursor l = cursor_at pre (QUOTES ++ rest) ->
  exited Multiline (emit_fragment text fs l) pre (QUOTES ++ rest) (close_multiline text fs l).
Proof.
  intros H. unfold close_multiline. set (l1 := emit_fragment text fs l).
  assert (cursor l1 = cursor_at pre (QUOTES ++ rest)) as H1 by (unfold l1; by rewrite emit_fragment_cursor).
  rewrite (step_cursor_three l1 pre QUOTE QUOTE QUOTE rest _ H1). rewrite H1.
  pose proof (scanned_token l1 TkMultilineStringEnd pre QUOTES rest (or_intror (conj eq_refl eq_refl))) as Hs.
  destruct (only_whitespace_before_on_line l1).
  - eexists _, rest, _, _. split; [done|]. split; [exact Hs|]. intros _. by left.
  - eexists _, rest, _, [_]. split; [done|]. split; [|done].
    destruct Hs. by constructor.
Qed.

Lemma string_exit n (ml : bool) fs text l pre rest :
  cursor l = cursor_at pre rest -> terminal ml rest = true ->
  exited (if ml then Multiline else Single) (emit_fragment text fs l) pre rest
    (string_loop (S n) ml fs text l).
Proof.
  intros H Ht. cbn [string_loop]. rewrite H, at_end_cursor, peek_cursor, !peek_at_cursor.
  assert (cursor (emit_fragment text fs l) = cursor_at pre rest) as H1 by by rewrite emit_fragment_cursor.
  destruct rest as [|c rest].
  { rewrite bool_decide_eq_true_2 by done. unfold unterminated. destruct ml; by apply exited_error. }
  rewrite bool_decide_eq_false_2 by done. cbn [mbind option_bind head]. unfold terminal in Ht.
  destruct (negb ml && (c =? QUOTE)) eqn:E1; clean; [by apply close_single_at|].
  destruct (_ && _ && _ && _) eqn:E2; clean.
  { destruct rest as [|y [|z rest]]; clean. by apply close_multiline_at. }
  destruct (negb ml && (c =? NEWLINE)) eqn:E3; [by apply exited_error|].
  simpl in Ht. rewrite Ht. apply andb_true_iff in Ht as [->%Z.eqb_eq Hy%bool_decide_eq_true].
  destruct rest as [|y rest]; clean. by apply open_interpolation_at.
Qed.

Definition bodied (m : StringMode) (l : Lexer) (pre rest : list Z) (r : option Lexer) : Prop :=
  exists l' rest' ps es, r = Some l' /\ scanned l pre rest l' rest' ps es
    /\ (es = [] -> body_moves m (string_stack l) (piece_kinds ps) (string_stack l')).

Lemma piece_kinds_app ps qs : piece_kinds (ps ++ qs) = piece_kinds ps ++ piece_kinds qs.
Proof. apply omap_app. Qed.

Lemma lex_string_body_at (ml : bool) l pre rest :
  cursor l = cursor_at pre rest ->
  bodied (if ml then Multiline else Single) l pre rest (lex_string_body ml l).
Proof.
  intros H. unfold lex_string_body. rewrite H, position_cursor.
  destruct (string_loop_scan ml (position_at pre) (S (cursor_len (cursor_at pre rest))) l pre rest [])
    as (t & rest1 & es & n & -> & Ht & ->); [unfold cursor_len; simpl; rewrite length_app; lia|done|].
  rewrite app_nil_l. pose proof (fragment_at l pre t rest1 es) as Hf.
  destruct (string_exit n ml (position_at pre) (cook t) (consumed pre t rest1 es l) (pre ++ t) rest1)
    as (l' & rest' & ps & fs & -> & Hs & Hm); [done|done|].
  assert (pieces_text (frag_pieces t) = t) as Et
    by (destruct t; unfold pieces_text; simpl; by rewrite ?app_nil_r).
  exists l', rest', (frag_pieces t ++ ps), (es ++ fs). split; [done|].
  split; [apply (scanned_trans _ _ _ _ _ _ _ _ _ _ _ Hf); by rewrite Et|].
  intros [_ ->]%app_eq_nil. specialize (Hm eq_refl). rewrite emit_fragment_stack in Hm. simpl in Hm.
  rewrite piece_kinds_app. pose proof (frag_pieces_fragment t).
  destruct Hm as [[-> ->]|(p & -> & ->)]; by constructor.
Qed.

(** A delimiter followed by a string body. *)
Lemma stepped_body m l k pre x t rest l1 es r :
  scanned l pre (x :: t ++ rest) l1 rest [Lexeme k (x :: t)] es ->
  bodied m l1 (pre ++ x :: t) rest r ->
  (forall ks st', body_moves m (string_stack l1) ks st' -> moves (string_stack l) (k :: ks) st') ->
  stepped l pre (x :: t ++ rest) r.
Proof.
  intros Hs (l' & rest' & ps & fs & -> & Hb & Hm) Hk.
  assert (pieces_text [Lexeme k (x :: t)] = x :: t) as Et by (unfold pieces_text; simpl; by rewrite app_nil_r).
  exists l', rest', ([Lexeme k (x :: t)] ++ ps), (es ++ fs). split; [done|].
  split; [apply (scanned_trans _ _ _ _ _ _ _ _ _ _ _ Hs); by rewrite Et|]. split.
  - rewrite (sc_text _ _ _ _ _ _ _ Hb). simpl. rewrite !length_app. lia.
  - intros [_ ->]%app_eq_nil. apply Hk, Hm. done.
Qed.

Lemma lex_string_at l pre rest :
  cursor l = cursor_at pre (QUOTE :: rest) -> stepped l pre (QUOTE :: rest) (lex_string l).
Proof.
  intros H. unfold lex_string. rewrite (step_cursor_at _ _ _ _ H). cbn [mbind option_bind]. rewrite H.
  eapply (stepped_body Single l TkStringStart pre QUOTE [] rest).
  - refine (scanned_token l TkStringStart pre [QUOTE] rest _). by right.
  - by apply (lex_string_body_at false).
  - intros ks st' Hb. by apply (mv_string Single).
Qed.

Lemma lex_multiline_string_at l pre rest :
  cursor l = cursor_at pre (QUOTES ++ rest) -> stepped l pre (QUOTES ++ rest) (lex_multiline_string l).
Proof.
  intros H. unfold lex_multiline_string.
  rewrite (step_cursor_three l pre QUOTE QUOTE QUOTE rest _ H). rewrite H.
  pose proof (scanned_token l TkMultilineStringStart pre QUOTES rest (or_intror (conj eq_refl eq_refl))) as Hs.
  set (l1 := emit _ _ _). change (place_token _ _ _ _ _) with l1 in Hs.
  assert (exists next, (if at_end (cursor l1) then Some None else c ← peek (cursor l1); Some (Some c)) = Some next)
    as [next ->].
  { simpl cursor. rewrite at_end_cursor, peek_cursor. destruct rest; by eexists. }
  cbn [mbind option_bind]. destruct (negb _ && negb _).
  - eapply (stepped_body Multiline l TkMultilineStringStart pre QUOTE [QUOTE; QUOTE] rest _ [_]);
      [|by apply (lex_string_body_at true)|intros ks st' Hb; by apply (mv_string Multiline)].
    destruct Hs. by constructor.
  - eapply (stepped_body Multiline l TkMultilineStringStart pre QUOTE [QUOTE; QUOTE] rest);
      [exact Hs|by apply (lex_string_body_at true)|intros ks st' Hb; by apply (mv_string Multiline)].
Qed.

(** ** The main loop *)

Lemma open_brace_at l pre rest :
  cursor l = cursor_at pre (chr "{" :: rest) -> stepped l pre (chr "{" :: rest) (open_brace l).
Proof.
  intros H. unfold open_brace. rewrite (single_at _ _ _ _ _ H). cbn [mbind option_bind].
  pose proof (scanned_token l TkLBrace pre [chr "{"] rest (or_intror (conj eq_refl eq_refl))) as Hs.
  destruct (string_stack (place_token TkLBrace pre [chr "{"] rest l)) as [|s st] eqn:E; simpl in E.
  - eexists _, rest, _, _. split; [done|]. split; [exact Hs|]. split; [simpl; lia|]. intros _.
    simpl. rewrite E. apply mv_top. by left.
  - eexists _, rest, _, _. split; [done|]. split; [apply scanned_stack, Hs|]. split; [simpl; lia|].
    intros _. simpl. rewrite E. apply mv_lbrace.
Qed.

Lemma close_brace_at l pre rest :
  cursor l = cursor_at pre (chr "}" :: rest) -> stepped l pre (chr "}" :: rest) (close_brace l).
Proof.
  intros H. unfold close_brace.
  pose proof (fun k (Hk : spells k [chr "}"]) l => scanned_token l k pre [chr "}"] rest Hk) as Hs.
  destruct (string_stack l) as [|s st] eqn:E.
  - rewrite (single_at _ _ _ _ _ H). eexists _, rest, _, _. split; [done|].
    split; [apply Hs; by right|]. split; [simpl; lia|]. intros _. simpl. rewrite E. apply mv_top. by right.
  - destruct (Z.ltb_spec 0 (brace_depth s)) as [Hd|Hd].
    + erewrite single_at by exact H. eexists _, rest, _, _. split; [done|].
      split; [eapply scanned_stack_l; apply Hs; by right|]. split; [simpl; lia|]. intros _. simpl. rewrite E.
      by apply mv_rbrace.
    + erewrite step_cursor_at by exact H. cbn [mbind option_bind].
      eapply (stepped_body (mode s) l TkInterpolEnd pre (chr "}") [] rest).
      2: { replace (mode s) with (if bool_decide (mode s = Multiline) then Multiline else Single) at 1
             by (by destruct (mode s)). by apply lex_string_body_at. }
      * eapply (scanned_stack_l _ _ _ _ _ _ _ st). simpl. rewrite H.
        refine (Hs TkInterpolEnd _ (set_stack st l)). by right.
      * intros ks st' Hb. rewrite E. by apply mv_resume.
Qed.

Lemma find_table {A} (t : list (Z * A)) c p :
  List.find (fun p => fst p =? c) t = Some p -> p ∈ t /\ fst p = c.
Proof. intros [Hin ->%Z.eqb_eq]%find_some. split; [by apply list_elem_of_In|done]. Qed.

Lemma single_kinds_spell :
  Forall (fun p => spells (snd p) [fst p] /\ plain_kind (snd p) = true) single_kinds.
Proof. repeat (apply List.Forall_cons; [split; [right; split|]; reflexivity|]). constructor. Qed.

Lemma operator_kinds_spell :
  Forall (fun p => (spells (snd (snd p)) [fst p] /\ plain_kind (snd (snd p)) = true)
    /\ Forall (fun q => spells (snd q) [fst p; fst q] /\ plain_kind (snd q) = true) (fst (snd p))) operator_kinds.
Proof.
  repeat (apply List.Forall_cons;
    [split; [split; [right; split|]; reflexivity|];
     repeat (apply List.Forall_cons; [split; [right; split|]; reflexivity|]); constructor|]).
  constructor.
Qed.

Lemma stepped_single l k pre x rest :
  cursor l = cursor_at pre (x :: rest) -> spells k [x] /\ plain_kind k = true ->
  stepped l pre (x :: rest) (single k l).
Proof. intros H [Hk Hp]. rewrite (single_at _ _ _ _ _ H). exact (stepped_token l k pre x [] rest Hk Hp). Qed.

Lemma operator_at l pre x rest longer one :
  cursor l = cursor_at pre (x :: rest) -> spells one [x] /\ plain_kind one = true ->
  Forall (fun q => spells (snd q) [x; fst q] /\ plain_kind (snd q) = true) longer ->
  stepped l pre (x :: rest) (operator l longer one).
Proof.
  intros H Hone Hlong. unfold operator. rewrite H, peek_at_cursor.
  destruct rest as [|y rest]; [by apply stepped_single|].
  change ((x :: y :: rest) !! 1%nat) with (Some y). cbn iota.
  destruct (List.find _ longer) as [q|] eqn:Hq; [|by apply stepped_single].
  apply find_table in Hq as [Hin <-]. rewrite Forall_forall in Hlong. destruct (Hlong q Hin) as [Hk Hp].
  rewrite (double_at _ _ _ _ _ _ H). exact (stepped_token l (snd q) pre x [fst q] rest Hk Hp).
Qed.

Lemma run_step_at l pre x rest :
  cursor l = cursor_at pre (x :: rest) -> stepped l pre (x :: rest) (run_step l).
Proof.
  intros H. unfold run_step. rewrite H, peek_cursor, !peek_at_cursor, position_cursor.
  cbn [mbind option_bind head].
  destruct (List.find _ single_kinds) as [p|] eqn:Hp.
  { apply find_table in Hp as [Hin <-]. apply stepped_single; [done|].
    exact (proj1 (Forall_forall _ _) single_kinds_spell p Hin). }
  destruct (List.find _ operator_kinds) as [p|] eqn:Ho.
  { apply find_table in Ho as [Hin <-].
    destruct (proj1 (Forall_forall _ _) operator_kinds_spell p Hin) as [? ?]. by apply operator_at. }
  clear Hp Ho.
  destruct (Z.eqb_spec x (chr "{")) as [->|]; [by apply open_brace_at|].
  destruct (Z.eqb_spec x (chr "}")) as [->|]; [by apply close_brace_at|].
  destruct (is_ascii_lowercase x || (x =? chr "_") || is_ascii_uppercase x) eqn:Hi.
  { apply lex_ident_at; [done|]. unfold is_ident_char.
    by destruct (is_ascii_lowercase x), (x =? chr "_"), (is_ascii_uppercase x), (is_ascii_digit x). }
  destruct (is_ascii_digit x) eqn:Hd; [by apply lex_number_at|].
  destruct (Z.eqb_spec x (chr "#")) as [->|]; [by apply lex_comment_at|].
  destruct (Z.eqb_spec x QUOTE) as [->|].
  { case_bool_decide as H1; [case_bool_decide as H2|]; simpl; try by apply lex_string_at.
    destruct rest as [|y [|z rest]]; clean. by apply lex_multiline_string_at. }
  destruct (Z.eqb_spec x NEWLINE) as [->|]; [by apply lex_newline_at|].
  by apply unexpected_character_at.
Qed.

(** The main loop, from any state: it consumes all of the source, in steps. *)
Inductive runs : Lexer -> list Z -> list Z -> Lexer -> list Piece -> list Diagnostic -> Prop :=
  | runs_end l pre : cursor l = cursor_at pre [] -> runs l pre [] l [] []
  | runs_blank l pre t rest l' ps es :
      Forall is_layout t ->
      runs (set_cursor (cursor_at (pre ++ t) rest) l) (pre ++ t) rest l' ps es ->
      runs l pre (t ++ rest) l' (Skipped t :: ps) es
  | runs_step l pre rest l1 rest1 qs fs l' ps es :
      scanned l pre rest l1 rest1 qs fs -> (length rest1 < length rest)%nat ->
      (fs = [] -> moves (string_stack l) (piece_kinds qs) (string_stack l1)) ->
      runs l1 (pre ++ pieces_text qs) rest1 l' ps es ->
      runs l pre rest l' (qs ++ ps) (fs ++ es).

Lemma run_loop_runs : forall fuel l pre rest,
  (length rest < fuel)%nat -> cursor l = cursor_at pre rest ->
  exists l' ps es, run_loop fuel l = Some l' /\ runs l pre rest l' ps es.
Proof.
  induction fuel as [|fuel IH]; intros l pre rest Hf H; [lia|]. cbn [run_loop]. rewrite H, at_end_cursor.
  destruct rest as [|x rest].
  { rewrite bool_decide_eq_true_2 by done. exists l, [], []. split; [done|]. by constructor. }
  rewrite bool_decide_eq_false_2 by done. rewrite skip_while_cursor. cbn [mbind option_bind cursor set_cursor].
  rewrite at_end_cursor. pose proof (take_drop_while is_blank (x :: rest)) as Hr.
  pose proof (drop_while_length is_blank (x :: rest)) as Hlen.
  assert (Forall is_layout (take_while is_blank (x :: rest))) as Hlay.
  { eapply Forall_impl; [apply take_while_all|]. by left. }
  set (t := take_while is_blank (x :: rest)) in *. set (r := drop_while is_blank (x :: rest)) in *.
  set (l1 := set_cursor _ l). rewrite <- Hr.
  destruct r as [|y r].
  { rewrite bool_decide_eq_true_2 by done. exists l1, [Skipped t], []. split; [done|].
    apply runs_blank; [done|]. by constructor. }
  rewrite bool_decide_eq_false_2 by done.
  destruct (run_step_at l1 (pre ++ t) y r eq_refl) as (l2 & r2 & qs & fs & -> & Hs & Hlt & Hm).
  cbn [mbind option_bind].
  destruct (IH l2 ((pre ++ t) ++ pieces_text qs) r2) as (l' & ps & es & -> & Hruns).
  { simpl in *. lia. }
  { apply (sc_cursor _ _ _ _ _ _ _ Hs). }
  exists l', (Skipped t :: qs ++ ps), (fs ++ es). split; [done|].
  apply runs_blank; [done|]. by eapply runs_step.
Qed.

Lemma runs_scanned l pre rest l' ps es :
  runs l pre rest l' ps es -> cursor l = cursor_at pre rest -> scanned l pre rest l' [] ps es.
Proof.
  induction 1 as [l pre Hc|l pre t rest l' ps es Ht Hr IH|l pre rest l1 rest1 qs fs l' ps es Hs Hlt Hm Hr IH];
    intros H.
  - by apply scanned_nil.
  - apply (scanned_trans _ _ _ _ _ [Skipped t] [] _ _ _ _ (scanned_skip l pre t rest Ht)).
    unfold pieces_text. simpl. rewrite app_nil_r. by apply IH.
  - eapply scanned_trans; [exact Hs|]. by apply IH, (sc_cursor _ _ _ _ _ _ _ Hs).
Qed.

(** C9: lexing is total and lossless. For every source the lexer returns without a
    panic, and the source is cut, in order and without gaps, into lexemes, comments
    and skipped text, such that the tokens are exactly those of the lexemes followed
    by one end of file, the comments exactly the comments, each with the span of its
    piece; a lexeme spells its token (a fixed token its lexeme, a string fragment
    what its escapes stand for); and what is skipped is blanks and line breaks or
    carries an error with its span. *)
Theorem lex_lossless (source : list Z) (file : Z) :
  exists r ps, lex source file = Some r
    /\ pieces_text ps = source
    /\ result_tokens r = piece_tokens file [] ps ++ [mkToken TkEndOfFile (span_at file source [])]
    /\ result_comments r = piece_comments file [] ps
    /\ pieces_ok file (result_errors r) [] ps.
Proof.
  destruct (run_loop_runs (S (length source)) (lexer_new source file) [] source) as (l & ps & es & Hl & Hr);
    [lia|done|].
  pose proof (runs_scanned _ _ _ _ _ _ Hr eq_refl) as [Ht Hc Hf Htok Hcom He Ho].
  unfold lex, run. unfold cursor_len. simpl length. rewrite Hl. cbn [mbind option_bind].
  rewrite app_nil_r in Ht. simpl in Hc. rewrite <- Ht in Hc. simpl in Hf, Htok, Hcom, He, Ho.
  eexists _, ps. split; [done|]. split; [done|]. unfold finish. simpl result_tokens.
  destruct (string_stack l) as [|s st]; unfold span_from; simpl;
    rewrite Hcom, Htok, He, Hc, Hf.
  - split; [|done]. rewrite position_cursor. unfold span_at. by rewrite app_nil_r.
  - split; [|split; [done|]]; [rewrite position_cursor; unfold span_at; by rewrite app_nil_r|].
    eapply pieces_ok_mono; [|exact Ho]. set_solver.
Qed.

(** ** The grammar of strings in the token stream *)

(** [code nested ks]: a token sequence with its strings and interpolations closed;
    inside an interpolation ([nested]) braces are balanced too. [parts] is the inside
    of a string: fragments, no two in a row, and interpolations. *)
Inductive code : bool -> list TokenKind -> Prop :=
  | code_nil n : code n []
  | code_plain n k ks : plain_kind k = true -> code n ks -> code n (k :: ks)
  | code_top k ks : k = TkLBrace \/ k = TkRBrace -> code false ks -> code false (k :: ks)
  | code_braces ks ks' : code true ks -> code true ks' -> code true (TkLBrace :: ks ++ TkRBrace :: ks')
  | code_string n m ps ks : parts ps -> code n ks -> code n (opener m :: ps ++ closer m :: ks)
with parts : list TokenKind -> Prop :=
  | parts_fragment ks : fragment ks -> parts ks
  | parts_interpol ks inner ps :
      fragment ks -> code true inner -> parts ps ->
      parts (ks ++ TkInterpolStart :: inner ++ TkInterpolEnd :: ps).

Lemma code_app n a b : code n a -> code n b -> code n (a ++ b).
Proof.
  induction 1 as [n|n k ks Hk Hc IH|k ks Hk Hc IH|ks ks' Hc _ Hc' IH|n m ps ks Hp Hc IH]; intros Hb; simpl; auto.
  - by apply code_plain; auto.
  - by apply code_top; auto.
  - rewrite <- app_assoc. apply code_braces; auto.
  - rewrite <- app_assoc. apply code_string; auto.
Qed.

Lemma code_nested_any n a : code true a -> code n a.
Proof.
  remember true as b eqn:Eb. intros H. revert n Eb.
  induction H as [b|b k ks Hk Hc IH|k ks Hk Hc IH|ks ks' Hc IHc Hc' IH|b m ps ks Hp Hc IH];
    intros n Eb; subst; try done.
  - constructor.
  - by apply code_plain; auto.
  - destruct n; [by apply code_braces|]. apply code_top; [by left|]. apply code_app; [by apply IHc|].
    apply code_top; [by right|by apply IH].
  - by apply code_string; auto.
Qed.

(** Inside an interpolation with [d] braces open. *)
Fixpoint nest (d : nat) (inner : list TokenKind) : Prop :=
  match d with
  | O => code true inner
  | S d => exists a b, inner = a ++ TkLBrace :: b /\ nest d a /\ code true b
  end.

(** The tokens so far, with the interpolations of the stack open. *)
Fixpoint prefix (st : list InterpolState) (ks : list TokenKind) : Prop :=
  match st with
  | [] => code false ks
  | s :: st =>
      exists ks0 ps inner, ks = ks0 ++ opener (mode s) :: ps ++ TkInterpolStart :: inner
        /\ prefix st ks0 /\ parts ps /\ nest (Z.to_nat (brace_depth s)) inner
  end.

Lemma nest_app d : forall a b, nest d a -> code true b -> nest d (a ++ b).
Proof.
  destruct d as [|d]; intros a b; simpl; [apply code_app|].
  intros (a' & b' & -> & Ha & Hb') Hb. exists a', (b' ++ b). rewrite <- app_assoc. simpl.
  eauto using code_app.
Qed.

Lemma prefix_app st ks b : prefix st ks -> code true b -> prefix st (ks ++ b).
Proof.
  destruct st as [|s st]; simpl; [intros; apply code_app; [done|by apply code_nested_any]|].
  intros (ks0 & ps & inner & -> & Hks & Hps & Hn) Hb. exists ks0, ps, (inner ++ b).
  split; [|eauto using nest_app]. by list_simplifier.
Qed.

Lemma parts_snoc ps inner ks :
  parts ps -> code true inner -> fragment ks ->
  parts (ps ++ TkInterpolStart :: inner ++ TkInterpolEnd :: ks).
Proof.
  intros Hp Hi Hk. induction Hp as [fs Hf|fs inner' ps Hf Hc Hp IH].
  - by apply parts_interpol; [..|apply parts_fragment].
  - rewrite <- app_assoc. simpl. rewrite <- app_assoc. by apply parts_interpol.
Qed.

Lemma code_plains n ks : Forall (fun k => plain_kind k = true) ks -> code n ks.
Proof. induction 1; by constructor. Qed.

Lemma body_prefix m st ks0 ps ks st' :
  prefix st ks0 -> (forall frag, fragment frag -> parts (ps ++ frag)) ->
  body_moves m st ks st' -> prefix st' (ks0 ++ opener m :: ps ++ ks).
Proof.
  intros Hp Hps [frag Hf|frag p Hf].
  - apply prefix_app; [done|]. rewrite app_assoc.
    apply (code_string true m (ps ++ frag) []); [by auto|constructor].
  - simpl. exists ks0, (ps ++ frag), []. rewrite <- !app_assoc. split; [done|].
    split; [done|]. split; [by auto|constructor].
Qed.

Definition shallow (n : Z) (st : list InterpolState) : Prop :=
  Forall (fun s => 0 <= brace_depth s <= n) st.

Lemma moves_shallow st ks st' n n' :
  moves st ks st' -> shallow n st -> 0 <= n < n' -> shallow n' st'.
Proof.
  intros Hm Hn Hlt.
  assert (forall st, shallow n st -> shallow n' st) as Hup
    by (intros ? H; eapply Forall_impl; [exact H|]; simpl; lia).
  assert (forall m st ks st', body_moves m st ks st' -> shallow n st -> shallow n' st') as Hb.
  { intros m ? ? ? [] ?; [by apply Hup|]. constructor; [simpl; lia|by apply Hup]. }
  destruct Hm as [| |s st|s st| |s st ks st' ? Hbm]; eauto.
  - apply Forall_cons in Hn as [Hs Hn]. constructor; [|by apply Hup]. simpl.
    unfold wrap. split; [by apply Z.mod_pos_bound|]. pose proof (Z.mod_le (brace_depth s + 1) (2 ^ 32)). lia.
  - apply Forall_cons in Hn as [Hs Hn]. constructor; [|by apply Hup]. simpl. lia.
  - apply Forall_cons in Hn as [Hs Hn]. eauto.
Qed.

Lemma moves_prefix st ks0 ks st' n :
  moves st ks st' -> shallow n st -> n + 1 < 2 ^ 32 -> prefix st ks0 -> prefix st' (ks0 ++ ks).
Proof.
  intros Hm Hn Hlt Hp.
  destruct Hm as [st ks Hk|k Hk|s st|s st Hd|m st ks st' Hb|s st ks st' Hd Hb].
  - apply prefix_app; [done|by apply code_plains].
  - simpl in *. apply code_app; [done|]. apply code_top; [done|constructor].
  - apply Forall_cons in Hn as [Hs _]. destruct Hp as (k0 & ps & inner & -> & Hk & Hps & Hi).
    exists k0, ps, (inner ++ [TkLBrace]). split; [by list_simplifier|].
    split; [done|]. split; [done|]. simpl brace_depth. rewrite wrap_small by lia.
    replace (Z.to_nat (brace_depth s + 1)) with (S (Z.to_nat (brace_depth s))) by lia.
    exists inner, []. split; [done|]. split; [done|constructor].
  - destruct Hp as (k0 & ps & inner & -> & Hk & Hps & Hi).
    exists k0, ps, (inner ++ [TkRBrace]). split; [by list_simplifier|].
    split; [done|]. split; [done|]. simpl brace_depth.
    replace (Z.to_nat (brace_depth s)) with (S (Z.to_nat (brace_depth s - 1))) in Hi by lia.
    destruct Hi as (a & b & -> & Ha & Hb). rewrite <- app_assoc. apply nest_app; [done|].
    apply (code_braces b []); [done|constructor].
  - apply (body_prefix m st ks0 []); [done|intros; by apply parts_fragment|done].
  - destruct Hp as (k0 & ps & inner & -> & Hk & Hps & Hi).
    replace (Z.to_nat (brace_depth s)) with 0%nat in Hi by lia. simpl in Hi.
    replace ((k0 ++ opener (mode s) :: ps ++ TkInterpolStart :: inner) ++ TkInterpolEnd :: ks)
      with (k0 ++ opener (mode s) :: (ps ++ TkInterpolStart :: inner ++ [TkInterpolEnd]) ++ ks)
      by (by list_simplifier).
    apply (body_prefix _ st); [done| |done]. intros frag Hf. rewrite <- app_assoc. simpl.
    rewrite <- app_assoc. by apply parts_snoc.
Qed.

Lemma runs_prefix l pre rest l' ps es :
  runs l pre rest l' ps es -> es = [] -> Z.of_nat (length pre + length rest) < 2 ^ 32 ->
  shallow (Z.of_nat (length pre)) (string_stack l) -> forall ks, prefix (string_stack l) ks ->
  prefix (string_stack l') (ks ++ piece_kinds ps).
Proof.
  induction 1 as [l pre Hc|l pre t rest l' ps es Ht Hr IH|l pre rest l1 rest1 qs fs l' ps es Hs Hlt Hm Hr IH];
    intros Hes Hlen Hsh ks Hp.
  - by rewrite app_nil_r.
  - apply IH; try done; simpl; rewrite length_app in *.
    + lia.
    + eapply Forall_impl; [exact Hsh|]. simpl. lia.
  - apply app_eq_nil in Hes as [-> ->]. specialize (Hm eq_refl).
    pose proof (sc_text _ _ _ _ _ _ _ Hs) as ->. rewrite length_app in Hlt, Hlen.
    rewrite piece_kinds_app, app_assoc. apply IH; [done|rewrite length_app; lia| |].
    + eapply moves_shallow; [exact Hm|exact Hsh|]. rewrite length_app. lia.
    + eapply moves_prefix; [exact Hm|exact Hsh| |done]. lia.
Qed.

(** C11: error-free lexing yields well bracketed strings. When the lexer reports no
    error, the kinds of its tokens are, before the end of file, a sentence of the
    grammar of strings: every string is closed by the delimiter that matches its
    opener, holds no two fragments in a row, and every interpolation is closed, its
    braces balanced. (The brace counters are 32 bits wide, hence the bound.) *)
Theorem lex_well_bracketed (source : list Z) (file : Z) (r : LexResult) :
  Z.of_nat (length source) < 2 ^ 32 -> lex source file = Some r -> result_errors r = [] ->
  exists ks, kind <$> result_tokens r = ks ++ [TkEndOfFile] /\ code false ks.
Proof.
  intros Hlen. unfold lex, run.
  destruct (run_loop_runs (S (length source)) (lexer_new source file) [] source) as (l & ps & es & Hl & Hr);
    [lia|done|].
  unfold cursor_len. simpl length. rewrite Hl. cbn [mbind option_bind]. intros [= <-]. simpl.
  pose proof (runs_scanned _ _ _ _ _ _ Hr eq_refl) as [_ _ _ Htok _ He _]. simpl in Htok, He.
  unfold finish. destruct (string_stack l) as [|s st] eqn:Hst; simpl; [|intros [_ ?]%app_eq_nil; done].
  rewrite He. intros ->. rewrite fmap_app, Htok, piece_tokens_kinds. exists (piece_kinds ps). split; [done|].
  pose proof (runs_prefix _ _ _ _ _ _ Hr eq_refl Hlen (List.Forall_nil _) [] (code_nil _)) as Hp.
  by rewrite Hst in Hp.
Qed.

Lemma lex_well_bracketed_witness :
  let source := [QUOTE] ++ str "a#{f({x})}b" ++ [QUOTE] in
  exists r ks, lex source 0 = Some r /\ kind <$> result_tokens r = ks ++ [TkEndOfFile] /\ code false ks.
Proof.
  intros source. destruct (lex source 0) as [r|] eqn:E; [|by vm_compute in E].
  exists r. destruct (lex_well_bracketed source 0 r) as (ks & H1 & H2).
  - reflexivity.
  - exact E.
  - vm_compute in E. injection E as <-. reflexivity.
  - exists ks. auto.
Defined.
