(* ===== verification/Literals.v ===== *)
(** * String literals, printed and read back

    Models the string printers of the formatter ([string_to_doc], [heredoc_to_doc]
    and [interpolation_to_doc] of [koja-fmt/src/printer/expr.rs], the escapes and
    [heredoc_representable] of [koja-fmt/src/printer/util.rs], the line trimming of
    [koja-fmt/src/lib.rs]) and the dedenting of heredocs in the parser
    ([koja-parser/src/construct/string.rs]). The printer of an interpolated
    expression is an argument. The round-trip theorems are in LiteralsSound. *)

From Stdlib Require Import Ascii String.
From S2P Require Import Prelude Types Chars Doc Lexer.
Local Open Scope Z_scope.

(** ** Escapes *)

Fixpoint escape_string_literal (s : list Z) : list Z :=
  match s with
  | [] => []
  | c :: s =>
      (if c =? BACKSLASH then [BACKSLASH; BACKSLASH]
       else if c =? QUOTE then [BACKSLASH; QUOTE]
       else if c =? NEWLINE then [BACKSLASH; chr "n"]
       else if c =? CR then [BACKSLASH; chr "r"]
       else if c =? TAB then [BACKSLASH; chr "t"]
       else if (c =? chr "#") && bool_decide (head s = Some (chr "{")) then [BACKSLASH; chr "#"]
       else [c]) ++ escape_string_literal s
  end.

(** The loop of [escape_multiline_literal] with its [quote_run]. *)
Fixpoint escape_multiline (quote_run : nat) (s : list Z) : list Z :=
  match s with
  | [] => []
  | c :: s =>
      if c =? QUOTE then
        if bool_decide (S quote_run = 3%nat) then [BACKSLASH; QUOTE] ++ escape_multiline 0 s
        else [QUOTE] ++ escape_multiline (S quote_run) s
      else
        (if c =? BACKSLASH then [BACKSLASH; BACKSLASH]
         else if c =? CR then [BACKSLASH; chr "r"]
         else if c =? TAB then [BACKSLASH; chr "t"]
         else if (c =? chr "#") && bool_decide (head s = Some (chr "{")) then [BACKSLASH; chr "#"]
         else [c]) ++ escape_multiline 0 s
  end.

Definition escape_multiline_literal (s : list Z) : list Z := escape_multiline 0 s.

(** ** Parts of a string *)

Section Parts.
Context {Expr : Type}.

Inductive StringPart :=
  | SpLiteral (value : list Z)
  | SpInterpolation (expr : Expr) (format : option (list Z)).

(** [value.contains(" \n")] *)
Fixpoint space_before_newline (s : list Z) : bool :=
  match s with
  | c :: s' => (c =? chr " ") && bool_decide (head s' = Some NEWLINE) || space_before_newline s'
  | [] => false
  end.

Fixpoint heredoc_representable (parts : list StringPart) : bool :=
  match parts with
  | [] => true
  | SpLiteral value :: rest =>
      negb (space_before_newline value)
      && (negb (bool_decide (rest = [])) || negb (bool_decide (last value = Some (chr " "))))
      && heredoc_representable rest
  | SpInterpolation _ _ :: rest => heredoc_representable rest
  end.

(** ** The documents *)

(** [s.split('\n')]. *)
Fixpoint split_newline (s : list Z) : list (list Z) :=
  match s with
  | [] => [[]]
  | c :: s =>
      if c =? NEWLINE then [] :: split_newline s
      else match split_newline s with
           | line :: lines => (c :: line) :: lines
           | [] => [[c]]
           end
  end.

Context (expr_to_doc : Expr -> Doc).

Definition interpolation_to_doc (expr : Expr) (format : option (list Z)) : Doc :=
  DConcat ([DText (str "#{"); flatten (expr_to_doc expr)]
           ++ match format with Some spec => [DText (str ":" ++ spec)] | None => [] end
           ++ [DText (str "}")]).

(** A hard line before every line but the first. *)
Fixpoint literal_lines (first : bool) (lines : list (list Z)) : list Doc :=
  match lines with
  | [] => []
  | line :: lines =>
      (if first then [] else [DHardline]) ++ [DText line] ++ literal_lines false lines
  end.

Definition heredoc_to_doc (parts : list StringPart) : Doc :=
  DConcat ([DText QUOTES; DHardline]
           ++ concat (map (fun part =>
                match part with
                | SpLiteral value => literal_lines true (split_newline (escape_multiline_literal value))
                | SpInterpolation expr format => [interpolation_to_doc expr format]
                end) parts)
           ++ [DHardline; DText QUOTES]).

Definition string_to_doc (parts : list StringPart) (multiline : bool) : Doc :=
  if multiline && heredoc_representable parts then heredoc_to_doc parts
  else DConcat ([DText [QUOTE]]
                ++ map (fun part =>
                     match part with
                     | SpLiteral value => DText (escape_string_literal value)
                     | SpInterpolation expr format => interpolation_to_doc expr format
                     end) parts
                ++ [DText [QUOTE]]).

(** ** Dedenting a heredoc *)

(** The loop of [dedent_string]. *)
Fixpoint dedent_loop (indent : Z) (at_line_start : bool) (stripped : Z) (s : list Z) : list Z :=
  match s with
  | [] => []
  | ch :: s =>
      if ch =? NEWLINE then NEWLINE :: dedent_loop indent true 0 s
      else if at_line_start && (ch =? chr " ") && (stripped <? indent)
           then dedent_loop indent at_line_start (stripped + 1) s
      else ch :: dedent_loop indent false stripped s
  end.

Definition dedent_string (s : list Z) (indent : Z) (dedent_first_line : bool) : list Z :=
  dedent_loop indent dedent_first_line 0 s.

(** The first part loses a leading line break. *)
Definition strip_first (parts : list StringPart) : list StringPart :=
  match parts with
  | SpLiteral (c :: value) :: rest =>
      if c =? NEWLINE then SpLiteral value :: rest else parts
  | _ => parts
  end.

(** The last part loses a trailing line break. *)
Fixpoint pop_last (parts : list StringPart) : list StringPart :=
  match parts with
  | [] => []
  | [SpLiteral value] =>
      if bool_decide (last value = Some NEWLINE) then [SpLiteral (removelast value)] else parts
  | part :: rest => part :: pop_last rest
  end.

Definition dedent_part (indent : Z) (i : nat) (part : StringPart) : StringPart :=
  match part with
  | SpLiteral value => SpLiteral (dedent_string value indent (bool_decide (i = 0%nat)))
  | SpInterpolation _ _ => part
  end.

(** [closing_column] is a [u32]; the subtraction wraps in a release build. *)
Definition dedent_multiline_parts (parts : list StringPart) (closing_column : Z) : list StringPart :=
  match parts with
  | [] => []
  | _ :: _ => pop_last (imap (dedent_part (wrap 32 (closing_column - 1))) (strip_first parts))
  end.
End Parts.
Arguments StringPart : clear implicits.

(** ** The formatter's last pass over the rendered text *)

(** [char::is_whitespace]: the Unicode White_Space property. *)
Definition is_whitespace (c : Z) : bool :=
  ((9 <=? c) && (c <=? 13)) || (c =? 32) || (c =? 133) || (c =? 160) || (c =? 5760)
  || ((8192 <=? c) && (c <=? 8202)) || (c =? 8232) || (c =? 8233) || (c =? 8239) || (c =? 8287)
  || (c =? 12288).

Fixpoint trim_end (s : list Z) : list Z :=
  match s with
  | [] => []
  | c :: s =>
      match trim_end s with
      | [] => if is_whitespace c then [] else [c]
      | t => c :: t
      end
  end.

Definition strip_cr (line : list Z) : list Z :=
  if bool_decide (last line = Some CR) then removelast line else line.

(** [str::lines]: a final empty line is not one. *)
Definition lines (s : list Z) : list (list Z) :=
  let all := split_newline s in
  map strip_cr (if bool_decide (last all = Some []) then removelast all else all).

(** [join("\n")]. *)
Fixpoint join_lines (ls : list (list Z)) : list Z :=
  match ls with
  | [] => []
  | [line] => line
  | line :: ls => line ++ NEWLINE :: join_lines ls
  end.

(** The text of [format_width] from its document. *)
Definition format_doc (doc : Doc) (width : nat) : option (list Z) :=
  rendered ← render doc width;
  let out := join_lines (map trim_end (lines rendered)) in
  Some (if bool_decide (last out = Some NEWLINE) then out else out ++ [NEWLINE]).
