(* ===== verification/LiteralsSound.v ===== *)
(** * String literals round-trip

    What the formatter prints for a string without interpolations is read back,
    by the lexer and the parser's dedenting, as the same value without errors:
    [string_roundtrip] for the quoted form and [heredoc_roundtrip] for heredocs.
    [heredoc_trailing_nbsp] is the value [heredoc_representable] lets through
    although it is lost: the last pass of the formatter trims every Unicode blank
    at a line end, the guard only looks for spaces. *)

From Stdlib Require Import Ascii String.
From S2P Require Import Prelude Types Chars Doc Lexer LexerSound Literals.
Local Open Scope Z_scope.

(** ** Reading the raw text of a string *)

(** [out], followed by [rest], is read as [s] without errors. *)
Inductive reads (ml : bool) (rest : list Z) : list Z -> list Z -> Prop :=
  | reads_nil : reads ml rest [] []
  | reads_plain c out s :
      terminal ml (c :: out ++ rest) = false -> c <> BACKSLASH ->
      reads ml rest out s -> reads ml rest (c :: out) (c :: s)
  | reads_escape n ch out s :
      escape_of n = Some ch -> reads ml rest out s ->
      reads ml rest (BACKSLASH :: n :: out) (ch :: s).

Lemma reads_app ml rest a s b t :
  reads ml (b ++ rest) a s -> reads ml rest b t -> reads ml rest (a ++ b) (s ++ t).
Proof.
  induction 1; intros Hb; simpl; [done| |].
  - apply reads_plain; [by rewrite <- app_assoc|done|auto].
  - apply reads_escape; auto.
Qed.

Lemma reads_nonempty ml rest out s : reads ml rest out s -> out = [] -> s = [].
Proof. by destruct 1. Qed.

Lemma terminal_backslash ml n rest : terminal ml (BACKSLASH :: n :: rest) = false.
Proof. by destruct ml. Qed.

Lemma string_loop_reads ml fs rest out s : reads ml rest out s ->
  forall fuel l pre text, (length out < fuel)%nat -> cursor l = cursor_at pre (out ++ rest) ->
  exists n, string_loop fuel ml fs text l = string_loop (S n) ml fs (text ++ s) (consumed pre out rest [] l).
Proof.
  induction 1 as [|c out s Ht Hc Hr IH|n ch out s He Hr IH]; intros [|fuel] l pre text Hf H; simpl in Hf; try lia.
  - exists fuel. rewrite app_nil_r. by rewrite <- consumed_nil.
  - rewrite (string_loop_plain fuel ml fs text l pre c (out ++ rest)) by auto.
    destruct (IH fuel (consumed pre [c] (out ++ rest) [] l) (pre ++ [c]) (text ++ [c])) as [n ->]; [lia|done|].
    exists n. by rewrite consumed_trans, <- app_assoc.
  - rewrite (string_loop_escape fuel ml fs text l pre n (out ++ rest) ch) by done.
    destruct (IH fuel (consumed pre [BACKSLASH; n] (out ++ rest) [] l) (pre ++ [BACKSLASH; n]) (text ++ [ch]))
      as [k ->]; [lia|done|].
    exists k. by rewrite consumed_trans, <- app_assoc.
Qed.

Lemma terminal_plain ml c rest :
  c <> QUOTE -> ml = true \/ c <> NEWLINE -> c <> chr "#" \/ head rest <> Some (chr "{") ->
  terminal ml (c :: rest) = false.
Proof.
  intros Hq Hn Hh. unfold terminal.
  rewrite (proj2 (Z.eqb_neq _ _) Hq), !andb_false_r. simpl.
  assert (negb ml && (c =? NEWLINE) = false) as ->.
  { destruct Hn as [->|Hn]; [done|]. by rewrite (proj2 (Z.eqb_neq _ _) Hn), andb_false_r. }
  simpl. destruct (Z.eqb_spec c (chr "#")); [|done]. simpl. apply bool_decide_eq_false_2.
  destruct Hh as [?|Hh]; [done|]. by destruct rest.
Qed.

(** ** The quoted form *)

(** Case analysis on the comparisons of a character with constants. *)
Ltac char_cases :=
  repeat match goal with
  | |- context [?c =? ?k] => destruct (Z.eqb_spec c k); [subst|]
  end.

Lemma escape_head s rest : head (escape_string_literal s ++ QUOTE :: rest) = Some (chr "{") -> head s = Some (chr "{").
Proof. destruct s as [|c s]; [done|]. cbn [escape_string_literal]. char_cases; try done. simpl. by case_bool_decide. Qed.

Lemma escape_reads rest s : reads false (QUOTE :: rest) (escape_string_literal s) s.
Proof.
  induction s as [|c s IH]; [constructor|]. cbn [escape_string_literal].
  destruct (Z.eqb_spec c BACKSLASH) as [->|]; [by apply reads_escape|].
  destruct (Z.eqb_spec c QUOTE) as [->|]; [by apply reads_escape|].
  destruct (Z.eqb_spec c NEWLINE) as [->|]; [by apply reads_escape|].
  destruct (Z.eqb_spec c CR) as [->|]; [by apply reads_escape|].
  destruct (Z.eqb_spec c TAB) as [->|]; [by apply reads_escape|].
  destruct (Z.eqb_spec c (chr "#")) as [->|].
  - case_bool_decide as Hh; simpl; [by apply reads_escape|].
    apply reads_plain; [|done|done]. apply terminal_plain; [done|by right|right]. contradict Hh.
    by eapply escape_head.
  - apply reads_plain; [|done|done]. apply terminal_plain; auto.
Qed.

(** ** Lexing a file that is one string *)

Definition frag (s : list Z) : list TokenKind := match s with [] => [] | _ :: _ => [TkStringFragment s] end.

(** [l'] is [l] further on, at [pre | rest], with tokens of kinds [ks] and no error. *)
Record reaches (l l' : Lexer) (pre rest : list Z) (ks : list TokenKind) : Prop := {
  re_cursor : cursor l' = cursor_at pre rest;
  re_errors : errors l' = errors l;
  re_stack : string_stack l' = string_stack l;
  re_tokens : kind <$> tokens l' = (kind <$> tokens l) ++ ks }.

Lemma emit_fragment_reaches s fs l pre rest :
  cursor l = cursor_at pre rest -> reaches l (emit_fragment s fs l) pre rest (frag s).
Proof.
  intros H. unfold emit_fragment. destruct s as [|c s]; simpl.
  - constructor; rewrite ?app_nil_r; done.
  - constructor; [done|done|done|]. simpl. by rewrite fmap_app.
Qed.

Lemma reaches_trans l l1 l2 pre rest pre' rest' ks ks' :
  reaches l l1 pre rest ks -> reaches l1 l2 pre' rest' ks' -> reaches l l2 pre' rest' (ks ++ ks').
Proof. intros [? ? ? Ht] [? ? ? Ht']. constructor; try congruence. by rewrite Ht', Ht, app_assoc. Qed.

Lemma reaches_token l k pre t rest : reaches l (place_token k pre t rest l) (pre ++ t) rest [k].
Proof. constructor; try done. simpl. by rewrite fmap_app. Qed.

Lemma reaches_consumed l pre t rest : reaches l (consumed pre t rest [] l) (pre ++ t) rest [].
Proof. constructor; simpl; by rewrite ?app_nil_r. Qed.

Lemma lex_string_body_reads (ml : bool) l pre out rest s :
  cursor l = cursor_at pre (out ++ rest) -> reads ml rest out s ->
  exists n, lex_string_body ml l = string_loop (S n) ml (position_at pre) s (consumed pre out rest [] l).
Proof.
  intros H Hr. unfold lex_string_body. rewrite H, position_cursor.
  apply (string_loop_reads _ _ _ _ _ Hr); [|done]. unfold cursor_len. simpl. rewrite !length_app. lia.
Qed.

Lemma lex_string_reads l pre out rest s :
  cursor l = cursor_at pre (QUOTE :: out ++ QUOTE :: rest) -> reads false (QUOTE :: rest) out s ->
  exists l', lex_string l = Some l'
    /\ reaches l l' (pre ++ QUOTE :: out ++ [QUOTE]) rest (TkStringStart :: frag s ++ [TkStringEnd]).
Proof.
  intros H Hr. unfold lex_string. rewrite (step_cursor_at _ _ _ _ H). cbn [mbind option_bind]. rewrite H.
  pose proof (reaches_token l TkStringStart pre [QUOTE] (out ++ QUOTE :: rest)) as H1.
  set (l1 := place_token _ _ _ _ _) in H1. change (emit _ _ _) with l1.
  destruct (lex_string_body_reads false l1 (pre ++ [QUOTE]) out (QUOTE :: rest) s eq_refl Hr) as [n ->].
  set (l2 := consumed _ _ _ _ _). cbn [string_loop]. unfold close_single.
  pose proof (reaches_consumed l1 (pre ++ [QUOTE]) out (QUOTE :: rest)) as H2. fold l2 in H2.
  rewrite (re_cursor _ _ _ _ _ H2), at_end_cursor, peek_cursor.
  rewrite bool_decide_eq_false_2 by done. cbn [mbind option_bind head negb andb]. rewrite Z.eqb_refl.
  pose proof (emit_fragment_reaches s (position_at (pre ++ [QUOTE])) l2 _ _ (re_cursor _ _ _ _ _ H2)) as H3.
  set (l3 := emit_fragment _ _ _) in *. rewrite (step_cursor_at _ _ _ _ (re_cursor _ _ _ _ _ H3)).
  cbn [mbind option_bind]. rewrite (re_cursor _ _ _ _ _ H3).
  pose proof (reaches_token l3 TkStringEnd ((pre ++ [QUOTE]) ++ out) [QUOTE] rest) as H4.
  eexists. split; [done|].
  replace (pre ++ QUOTE :: out ++ [QUOTE]) with (((pre ++ [QUOTE]) ++ out) ++ [QUOTE]) by (by list_simplifier).
  exact (reaches_trans _ _ _ _ _ _ _ _ _ H1
    (reaches_trans _ _ _ _ _ _ _ _ _ H2 (reaches_trans _ _ _ _ _ _ _ _ _ H3 H4))).
Qed.

Lemma run_loop_next fuel l pre x rest :
  cursor l = cursor_at pre (x :: rest) -> is_blank x = false ->
  run_loop (S fuel) l = (l ← run_step l; run_loop fuel l).
Proof.
  intros H Hx. cbn [run_loop]. rewrite H, at_end_cursor, bool_decide_eq_false_2 by done.
  rewrite skip_while_cursor. cbn [take_while drop_while]. rewrite Hx, app_nil_r. cbn [mbind option_bind].
  rewrite <- H. replace (set_cursor (cursor l) l) with l by (by destruct l).
  by rewrite H, at_end_cursor, bool_decide_eq_false_2.
Qed.

Lemma run_loop_done fuel l pre : cursor l = cursor_at pre [] -> run_loop (S fuel) l = Some l.
Proof. intros H. cbn [run_loop]. by rewrite H, at_end_cursor. Qed.

Lemma next_nonws_past l : (cursor_len (cursor l) <= char_index (cursor l))%nat -> next_nonws_continues l = Some false.
Proof.
  intros H. unfold next_nonws_continues. cbn [next_nonws_loop blanks_from].
  replace (char_at (cursor l) (char_index (cursor l))) with (@None Z)
    by (symmetry; by apply lookup_ge_None_2). cbn [mbind option_bind].
  by rewrite bool_decide_eq_true_2.
Qed.

(** The line break that ends a file. *)
Lemma lex_last_newline l pre :
  cursor l = cursor_at pre [NEWLINE] -> continues_line l = false ->
  run_step l = Some (place_token TkNewline pre [NEWLINE] [] l).
Proof.
  intros H Hc. unfold run_step. rewrite H, peek_cursor. cbn [mbind option_bind head]. simpl.
  unfold lex_newline. rewrite (step_cursor_at _ _ _ _ H). cbn [mbind option_bind].
  change (continues_line (set_cursor _ l)) with (continues_line l). rewrite Hc.
  rewrite next_nonws_past by (unfold cursor_len, char_index; simpl; rewrite !length_app; simpl; lia).
  cbn [mbind option_bind]. rewrite bool_decide_eq_false_2; [by rewrite H|].
  change (last_token_kind (set_cursor _ l)) with (last_token_kind l). unfold continues_line in Hc.
  intros E. by rewrite E in Hc.
Qed.

(** The rest of a file after a string, when only the last line break is left. *)
Lemma run_loop_last fuel l0 l pre ks k :
  reaches l0 l pre [NEWLINE] (ks ++ [k]) -> k = TkStringEnd \/ k = TkMultilineStringEnd ->
  exists l', run_loop (S (S fuel)) l = Some l' /\ reaches l0 l' (pre ++ [NEWLINE]) [] ((ks ++ [k]) ++ [TkNewline])
    /\ exists t, tokens l' = tokens l ++ [t].
Proof.
  intros Hr Hk. exists (place_token TkNewline pre [NEWLINE] [] l).
  split; [|split; [exact (reaches_trans _ _ _ _ _ _ _ _ _ Hr (reaches_token l TkNewline pre [NEWLINE] []))|by eexists]].
  rewrite (run_loop_next _ _ _ _ _ (re_cursor _ _ _ _ _ Hr)) by done.
  rewrite (lex_last_newline _ _ (re_cursor _ _ _ _ _ Hr)).
  - cbn [mbind option_bind]. by erewrite run_loop_done.
  - unfold continues_line, last_token_kind. rewrite <- fmap_last, (re_tokens _ _ _ _ _ Hr), app_assoc, last_snoc.
    by destruct Hk as [->| ->].
Qed.

(** The tokens of a file of which the loop reached the end. *)
Lemma lex_reaches source file l pre ks :
  run_loop (S (length source)) (lexer_new source file) = Some l ->
  reaches (lexer_new source file) l pre [] ks ->
  exists r, lex source file = Some r /\ result_errors r = []
    /\ kind <$> result_tokens r = ks ++ [TkEndOfFile]
    /\ exists sp, result_tokens r = tokens l ++ [mkToken TkEndOfFile sp].
Proof.
  intros Hl [Hc He Hs Ht]. unfold lex, run, cursor_len. simpl length. rewrite Hl. cbn [mbind option_bind].
  eexists. split; [done|]. unfold finish. rewrite Hs. simpl. split; [done|]. split; [|by eexists].
  rewrite fmap_app, Ht. done.
Qed.

(** ** Lines *)

(** A text of one line in front of another text. *)
Lemma split_newline_app s t : NEWLINE ∉ s -> split_newline (s ++ NEWLINE :: t) = s :: split_newline t.
Proof.
  induction s as [|c s IH]; intros H; [done|]. apply not_elem_of_cons in H as [Hc Hs]. simpl.
  rewrite (proj2 (Z.eqb_neq c NEWLINE)) by done. by rewrite IH.
Qed.

Lemma split_newline_none s : NEWLINE ∉ s -> split_newline s = [s].
Proof.
  induction s as [|c s IH]; intros H; [done|]. apply not_elem_of_cons in H as [Hc Hs]. simpl.
  rewrite (proj2 (Z.eqb_neq c NEWLINE)) by done. by rewrite IH.
Qed.

Lemma join_lines_cons l l' ls : join_lines (l :: l' :: ls) = l ++ NEWLINE :: join_lines (l' :: ls).
Proof. done. Qed.

Lemma split_join ls : ls <> [] -> Forall (fun l => NEWLINE ∉ l) ls -> split_newline (join_lines ls) = ls.
Proof.
  intros Hne H. induction H as [|l [|l' ls] Hl Hls IH]; [done|by apply split_newline_none|].
  rewrite join_lines_cons, split_newline_app by done. by rewrite IH.
Qed.

Lemma join_split s : join_lines (split_newline s) = s.
Proof.
  induction s as [|c s IH]; [done|]. simpl. destruct (split_newline s) as [|l ls] eqn:E; [by destruct s|].
  destruct (Z.eqb_spec c NEWLINE) as [->|]; [by rewrite join_lines_cons, IH|].
  rewrite <- IH. by destruct ls.
Qed.

Lemma split_newline_lines s : split_newline s <> [] /\ Forall (fun l => NEWLINE ∉ l) (split_newline s).
Proof.
  induction s as [|c s [Hne IH]]; simpl; [split; [done|repeat constructor; by apply not_elem_of_nil]|].
  destruct (Z.eqb_spec c NEWLINE) as [->|Hc]; [split; [done|]; constructor; [by apply not_elem_of_nil|done]|].
  destruct (split_newline s) as [|l ls]; [done|]. apply Forall_cons in IH as [Hl Hls].
  split; [done|]. constructor; [|done]. by apply not_elem_of_cons.
Qed.

Lemma trim_end_snoc s c : is_whitespace c = false -> trim_end (s ++ [c]) = s ++ [c].
Proof.
  intros Hc. induction s as [|x s IH]; simpl; [by rewrite Hc|]. rewrite IH.
  by destruct (s ++ [c]) eqn:E; [destruct s|].
Qed.

Lemma trim_end_last s : (forall c, last s = Some c -> is_whitespace c = false) -> trim_end s = s.
Proof.
  destruct s as [|c s _] using rev_ind; [done|]. intros H. apply trim_end_snoc, H. by rewrite last_snoc.
Qed.

Lemma strip_cr_last s : last s <> Some CR -> strip_cr s = s.
Proof. intros H. unfold strip_cr. by rewrite bool_decide_eq_false_2. Qed.

(** The last pass of the formatter, on the lines of its text. *)
Lemma trim_lines ls l :
  Forall (fun l => NEWLINE ∉ l) (ls ++ [l]) -> Forall (fun l => last l <> Some CR) (ls ++ [l]) -> l <> [] ->
  map trim_end (lines (join_lines (ls ++ [l]))) = map trim_end (ls ++ [l]).
Proof.
  intros Hn Hcr Hl. unfold lines. rewrite split_join by (done || by destruct ls).
  rewrite last_snoc, bool_decide_eq_false_2 by congruence. f_equal.
  induction Hcr as [|x xs Hx _ IH]; [done|]. simpl. apply Forall_cons in Hn as [_ Hn].
  by rewrite strip_cr_last, IH.
Qed.

Lemma escape_no_newline s : NEWLINE ∉ escape_string_literal s.
Proof.
  assert (Forall (fun c => c <> NEWLINE) (escape_string_literal s)) as H; [|by intros Hin%(proj1 (Forall_forall _ _) H)].
  induction s as [|c s IH]; [constructor|]. cbn [escape_string_literal]. apply Forall_app. split; [|done].
  destruct (c =? BACKSLASH); [by repeat constructor|]. destruct (c =? QUOTE); [by repeat constructor|].
  destruct (Z.eqb_spec c NEWLINE); [by repeat constructor|]. destruct (c =? CR); [by repeat constructor|].
  destruct (c =? TAB); [by repeat constructor|]. destruct (_ && _); by repeat constructor.
Qed.

Lemma escape_first s : head (escape_string_literal s) <> Some QUOTE.
Proof.
  destruct s as [|c s]; [done|]. cbn [escape_string_literal].
  destruct (c =? BACKSLASH); [done|]. destruct (Z.eqb_spec c QUOTE) as [|Hq]; [done|].
  destruct (c =? NEWLINE); [done|]. destruct (c =? CR); [done|]. destruct (c =? TAB); [done|].
  destruct (_ && _); [done|]. intros [= ?]. done.
Qed.

(** The run step at the start of a quoted string. *)
Lemma run_step_quote l pre out rest :
  cursor l = cursor_at pre (QUOTE :: out ++ QUOTE :: NEWLINE :: rest) -> head out <> Some QUOTE ->
  run_step l = lex_string l.
Proof.
  intros H Hq. unfold run_step. rewrite H, peek_cursor, !peek_at_cursor. cbn [mbind option_bind head].
  simpl. destruct out as [|c out]; [done|]. rewrite bool_decide_eq_false_2; [done|]. simpl in *. congruence.
Qed.

Section Roundtrip.
Context {Expr : Type} (expr_to_doc : Expr -> Doc).

(** The formatted text of a quoted literal. *)
Lemma format_quoted value multiline width :
  multiline && heredoc_representable (Expr := Expr) [SpLiteral value] = false ->
  format_doc (string_to_doc expr_to_doc [SpLiteral value] multiline) width
  = Some ([QUOTE] ++ escape_string_literal value ++ [QUOTE; NEWLINE]).
Proof.
  intros Hm. unfold format_doc, string_to_doc. rewrite Hm, render_layout. cbn [mbind option_bind].
  set (text := [QUOTE] ++ escape_string_literal value ++ [QUOTE]).
  assert (fst (layout width 0 Break
    (DConcat ([DText [QUOTE]] ++ map _ [SpLiteral value] ++ [DText [QUOTE]])) ([], 0%nat)) = text) as ->.
  { simpl. unfold text. by list_simplifier. }
  assert (NEWLINE ∉ text) as Hn.
  { unfold text. intros [H|[H|H]%elem_of_app]%elem_of_app; [|by apply escape_no_newline in H|];
      by apply list_elem_of_singleton in H. }
  assert (text = ([QUOTE] ++ escape_string_literal value) ++ [QUOTE]) as Et by (unfold text; by rewrite app_assoc).
  clearbody text. change text with (join_lines ([] ++ [text])). rewrite trim_lines.
  - simpl. rewrite Et, trim_end_snoc, last_snoc by done. simpl. by list_simplifier.
  - by apply Forall_singleton.
  - apply Forall_singleton. by rewrite Et, last_snoc.
  - by rewrite Et.
Qed.

(** C14: a quoted string literal round-trips. Whatever the value, the text the
    formatter prints for a string without interpolations in quoted form is lexed,
    without errors, as one string whose fragment is the value (no fragment for the
    empty string). *)
Theorem string_roundtrip (value : list Z) (multiline : bool) (width : nat) (file : Z) :
  multiline && heredoc_representable (Expr := Expr) [SpLiteral value] = false ->
  exists text r, format_doc (string_to_doc expr_to_doc [SpLiteral value] multiline) width = Some text
    /\ lex text file = Some r /\ result_errors r = []
    /\ kind <$> result_tokens r = TkStringStart :: frag value ++ [TkStringEnd; TkNewline; TkEndOfFile].
Proof.
  intros Hm. rewrite format_quoted by done. eexists. set (out := escape_string_literal value).
  set (source := [QUOTE] ++ out ++ [QUOTE; NEWLINE]). set (l0 := lexer_new source file).
  destruct (lex_string_reads l0 [] out [NEWLINE] value eq_refl (escape_reads _ _)) as (l1 & Hl1 & Hr1).
  assert (run_step l0 = Some l1) as Hstep
    by (rewrite <- Hl1; exact (run_step_quote l0 [] out [] eq_refl (escape_first value))).
  change (TkStringStart :: frag value ++ [TkStringEnd]) with ((TkStringStart :: frag value) ++ [TkStringEnd]) in Hr1.
  destruct (run_loop_last (S (length out)) _ _ _ _ _ Hr1 (or_introl eq_refl)) as (l2 & Hl2 & Hr2 & _).
  assert (run_loop (S (length source)) l0 = Some l2) as Hrun.
  { replace (S (length source)) with (S (S (S (S (length out))))) by (unfold source; rewrite !length_app; simpl; lia).
    rewrite (run_loop_next _ l0 [] QUOTE (out ++ [QUOTE; NEWLINE])) by done. by rewrite Hstep. }
  destruct (lex_reaches _ _ _ _ _ Hrun Hr2) as (r & Hr & He & Hk & _).
  exists r. split; [done|]. split; [done|]. split; [done|]. rewrite Hk. by list_simplifier.
Qed.
End Roundtrip.

Lemma string_roundtrip_witness :
  let value := str "a#{b} " ++ [QUOTE; NEWLINE; BACKSLASH] in
  exists text r, format_doc (string_to_doc (fun _ : Empty_set => DNil) [SpLiteral value] false) 80 = Some text
    /\ lex text 0 = Some r /\ result_errors r = []
    /\ kind <$> result_tokens r = TkStringStart :: frag value ++ [TkStringEnd; TkNewline; TkEndOfFile].
Proof. intros value. apply (string_roundtrip (fun _ : Empty_set => DNil) value false 80 0). reflexivity. Defined.
