(* ===== verification/HeredocSound.v ===== *)
(** * Heredocs round-trip

    A multiline string without interpolations is printed as a heredoc, indented to
    the code around it. [heredoc_roundtrip]: formatting, lexing and dedenting give
    back its value, at any indentation, up to the blanks lost at the ends of its lines
    ([kept_line]), and so exactly when there are none; [heredoc_trailing_nbsp] is a value
    the guard accepts that loses one. *)

From Stdlib Require Import Ascii String.
From S2P Require Import Prelude Types Chars Doc Lexer LexerSound Literals LiteralsSound.
Local Open Scope Z_scope.

Definition pad (n : nat) : list Z := replicate n (chr " ").

(** A line as the formatter leaves it: an empty one is not indented. *)
Definition padded (n : nat) (l : list Z) : list Z := match l with [] => [] | _ :: _ => pad n ++ l end.

(** Lines, each after a line break. *)
Definition broken (ls : list (list Z)) : list Z := concat (map (cons NEWLINE) ls).

Lemma join_lines_broken l ls : join_lines (l :: ls) = l ++ broken ls.
Proof.
  revert l. induction ls as [|l' ls IH]; intros l; [by rewrite app_nil_r|].
  rewrite join_lines_cons, IH. done.
Qed.

Lemma broken_app a b : broken (a ++ b) = broken a ++ broken b.
Proof. unfold broken. by rewrite map_app, concat_app. Qed.

(** ** The escapes, line by line *)

Lemma split_newline_prefix e t l ls :
  NEWLINE ∉ e -> split_newline t = l :: ls -> split_newline (e ++ t) = (e ++ l) :: ls.
Proof.
  intros He Ht. induction e as [|c e IH]; [done|]. apply not_elem_of_cons in He as [Hc He]. simpl.
  rewrite (proj2 (Z.eqb_neq c NEWLINE)) by done. by rewrite IH.
Qed.

(** What [escape_multiline] makes of one character that is no quote. *)
Definition escape_char (c : Z) (next : option Z) : list Z :=
  if c =? BACKSLASH then [BACKSLASH; BACKSLASH]
  else if c =? CR then [BACKSLASH; chr "r"]
  else if c =? TAB then [BACKSLASH; chr "t"]
  else if (c =? chr "#") && bool_decide (next = Some (chr "{")) then [BACKSLASH; chr "#"]
  else [c].

Lemma escape_multiline_cons q c s :
  c <> QUOTE -> escape_multiline q (c :: s) = escape_char c (head s) ++ escape_multiline 0 s.
Proof. intros H. cbn [escape_multiline]. by rewrite (proj2 (Z.eqb_neq _ _) H). Qed.

Lemma escape_char_cases (P : list Z -> Prop) c next :
  P [c] -> (forall n, n <> NEWLINE -> escape_of n = Some c -> is_whitespace n = false -> P [BACKSLASH; n]) ->
  P (escape_char c next).
Proof.
  intros Hc Hn. unfold escape_char.
  destruct (Z.eqb_spec c BACKSLASH) as [->|]; [by apply Hn|].
  destruct (Z.eqb_spec c CR) as [->|]; [by apply Hn|].
  destruct (Z.eqb_spec c TAB) as [->|]; [by apply Hn|].
  destruct (Z.eqb_spec c (chr "#")) as [->|]; simpl; [case_bool_decide; [by apply Hn|done]|done].
Qed.

Lemma split_newline_head s l ls : split_newline s = l :: ls -> l = [] \/ head l = head s.
Proof.
  destruct s as [|c s]; simpl; [intros [= <- <-]; by left|].
  destruct (c =? NEWLINE); [intros [= <- <-]; by left|].
  destruct (split_newline s); intros [= <- <-]; by right.
Qed.

Lemma escape_char_next c s l ls :
  split_newline s = l :: ls -> escape_char c (head s) = escape_char c (head l).
Proof.
  intros H. destruct (split_newline_head s l ls H) as [->|E]; [|by rewrite E].
  assert (head s <> Some (chr "{")) as Hs.
  { destruct s as [|x s]; [done|]. simpl in *. destruct (Z.eqb_spec x NEWLINE) as [->|]; [done|].
    by destruct (split_newline s). }
  unfold escape_char. simpl. by rewrite (bool_decide_eq_false_2 _ Hs).
Qed.

Lemma escape_lines s : forall q l ls, split_newline s = l :: ls ->
  split_newline (escape_multiline q s) = escape_multiline q l :: map (escape_multiline 0) ls.
Proof.
  induction s as [|c s IH]; intros q l ls; [by intros [= <- <-]|].
  change (split_newline (c :: s)) with (if c =? NEWLINE then [] :: split_newline s
    else match split_newline s with line :: lines => (c :: line) :: lines | [] => [[c]] end).
  destruct (split_newline s) as [|l' ls'] eqn:E; [by destruct (split_newline_lines s)|].
  destruct (Z.eqb_spec c NEWLINE) as [->|Hn].
  { intros [= <- <-]. rewrite escape_multiline_cons by done. simpl. by rewrite (IH 0%nat _ _ eq_refl). }
  intros [= <- <-]. destruct (decide (c = QUOTE)) as [->|Hq].
  - cbn [escape_multiline]. rewrite Z.eqb_refl. case_bool_decide.
    + apply split_newline_prefix; [by rewrite !not_elem_of_cons; auto using not_elem_of_nil|by apply IH].
    + apply (split_newline_prefix [QUOTE]); [by rewrite !not_elem_of_cons; auto using not_elem_of_nil|by apply IH].
  - rewrite !escape_multiline_cons by done. rewrite (escape_char_next _ _ _ _ E).
    apply split_newline_prefix; [|by apply IH].
    apply escape_char_cases; [by apply not_elem_of_cons; auto using not_elem_of_nil|].
    intros n ? ? _. rewrite !not_elem_of_cons. auto using not_elem_of_nil.
Qed.

(** ** What the last pass of the formatter trims *)

Lemma escape_nonempty q c l : escape_multiline q (c :: l) <> [].
Proof.
  destruct (decide (c = QUOTE)) as [->|Hq].
  - simpl. by case_bool_decide.
  - rewrite escape_multiline_cons by done. by apply (escape_char_cases (fun e => e ++ _ <> [])).
Qed.

Lemma last_app_nonempty {A} (a b : list A) : b <> [] -> last (a ++ b) = last b.
Proof. destruct b as [|x b _] using rev_ind; [done|]. by rewrite app_assoc, !last_snoc. Qed.

(** A blank lost at the end of a line: one that is printed as itself. *)
Definition lost_blank (c : Z) : bool := is_whitespace c && negb (c =? TAB) && negb (c =? CR).

(** A line without the blanks lost at its end. *)
Fixpoint kept_line (l : list Z) : list Z :=
  match l with
  | [] => []
  | c :: l => match kept_line l with [] => if lost_blank c then [] else [c] | t => c :: t end
  end.

(** The value a heredoc is read back as. *)
Definition heredoc_value (value : list Z) : list Z := join_lines (map kept_line (split_newline value)).

Lemma kept_line_cons c l : lost_blank c = false -> kept_line (c :: l) = c :: kept_line l.
Proof. intros H. simpl. rewrite H. by destruct (kept_line l). Qed.

Lemma kept_line_same l : kept_line l = l <-> forall c, last l = Some c -> lost_blank c = false.
Proof.
  induction l as [|c [|c' l] IH]; [done| |].
  - simpl. destruct (lost_blank c) eqn:E; split; try done; [intros H; by rewrite (H c) in E|by intros _ x [= <-]].
  - change (last (c :: c' :: l)) with (last (c' :: l)). rewrite <- IH.
    change (kept_line (c :: c' :: l)) with
      (match kept_line (c' :: l) with [] => if lost_blank c then [] else [c] | t => c :: t end).
    destruct (kept_line (c' :: l)) as [|x t] eqn:E; [destruct (lost_blank c); done|]. split; [by intros [= <- <-]|by intros ->].
Qed.

Lemma kept_line_head l : kept_line l = [] \/ head (kept_line l) = head l.
Proof. destruct l as [|c l]; [by left|]. simpl. destruct (kept_line l); [|by right]. destruct (lost_blank c); [by left|by right]. Qed.

Lemma kept_line_nil l c : kept_line l = [] -> head l = Some c -> lost_blank c = true.
Proof. destruct l as [|x l]; [done|]. simpl. destruct (kept_line l); [|done]. destruct (lost_blank x) eqn:E; [|done]. by intros _ [= <-]. Qed.

Lemma kept_line_no_newline l : NEWLINE ∉ l -> NEWLINE ∉ kept_line l.
Proof.
  induction l as [|c l IH]; [done|]. intros [Hc Hl]%not_elem_of_cons. specialize (IH Hl). simpl.
  destruct (kept_line l) as [|x t]; [destruct (lost_blank c)|]; rewrite ?not_elem_of_cons in *; auto using not_elem_of_nil.
Qed.

Lemma trim_end_keeps e x t : last e = Some x -> is_whitespace x = false -> trim_end (e ++ t) = e ++ trim_end t.
Proof.
  intros [e' ->]%last_Some Hx. rewrite <- !app_assoc. simpl. induction e' as [|c e' IH]; simpl.
  - rewrite Hx. by destruct (trim_end t).
  - rewrite IH. by destruct e'.
Qed.

Lemma escape_char_kept c l : escape_char c (head (kept_line l)) = escape_char c (head l).
Proof.
  destruct (kept_line_head l) as [E|E]; [|by rewrite E]. rewrite E. unfold escape_char. simpl.
  assert (head l <> Some (chr "{")) as Hn by (intros H; by pose proof (kept_line_nil l _ E H)).
  by rewrite (bool_decide_eq_false_2 _ Hn).
Qed.

(** Trimming an escaped line loses the blanks that are not escaped. *)
Lemma trim_escape l : forall q, trim_end (escape_multiline q l) = escape_multiline q (kept_line l).
Proof.
  induction l as [|c l IH]; intros q; [done|]. destruct (decide (c = QUOTE)) as [->|Hq].
  - rewrite kept_line_cons by done. cbn [escape_multiline]. rewrite Z.eqb_refl.
    case_bool_decide; rewrite (trim_end_keeps _ QUOTE) by done; by rewrite IH.
  - rewrite escape_multiline_cons by done. destruct (lost_blank c) eqn:Hl.
    + assert (escape_char c (head l) = [c]) as ->.
      { unfold lost_blank in Hl. apply andb_true_iff in Hl as [[Hw Ht%negb_true_iff]%andb_true_iff Hr%negb_true_iff].
        unfold escape_char. rewrite Ht, Hr. destruct (Z.eqb_spec c BACKSLASH) as [->|]; [done|].
        by destruct (Z.eqb_spec c (chr "#")) as [->|]. }
      cbn [app trim_end kept_line]. rewrite IH, Hl. pose proof (escape_nonempty 0) as Hne.
      assert (is_whitespace c = true) as -> by (unfold lost_blank in Hl; by destruct (is_whitespace c)).
      destruct (kept_line l) as [|x t] eqn:Ek; [done|]. destruct (escape_multiline 0 (x :: t)) eqn:Ex; [by apply Hne in Ex|].
      rewrite escape_multiline_cons by done. rewrite <- Ek, escape_char_kept, Ek, Ex.
      unfold lost_blank in Hl. apply andb_true_iff in Hl as [[Hw Ht%negb_true_iff]%andb_true_iff Hr%negb_true_iff].
      unfold escape_char. rewrite Ht, Hr. destruct (Z.eqb_spec c BACKSLASH) as [->|]; [done|].
      by destruct (Z.eqb_spec c (chr "#")) as [->|].
    + rewrite kept_line_cons, escape_multiline_cons, escape_char_kept, <- IH by done.
      destruct (last (escape_char c (head l))) as [x|] eqn:Ex.
      * apply (trim_end_keeps _ x); [done|]. revert Ex. unfold escape_char.
        destruct (c =? BACKSLASH); [by intros [= <-]|]. unfold lost_blank in Hl.
        destruct (c =? CR); [by intros [= <-]|]. destruct (c =? TAB); [by intros [= <-]|].
        destruct (_ && bool_decide _); intros [= <-]; [done|]. by rewrite !andb_true_r in Hl.
      * revert Ex. unfold escape_char. by repeat case_match.
Qed.

(** ** The formatted text *)

Lemma layout_literal_lines width ind ls : forall st,
  fst (fold_left (fun st d => layout width ind Break d st) (literal_lines false ls) st)
  = fst st ++ broken (map (fun l => pad ind ++ l) ls).
Proof.
  induction ls as [|l ls IH]; intros st; [by rewrite app_nil_r|].
  cbn [literal_lines app fold_left layout]. rewrite IH. unfold broken. by list_simplifier.
Qed.

Section Heredoc.
Context {Expr : Type} (expr_to_doc : Expr -> Doc).

Lemma layout_heredoc width ind value :
  fst (layout width 0 Break (DIndent ind (heredoc_to_doc expr_to_doc [SpLiteral value])) ([], 0%nat))
  = join_lines ((QUOTES :: map (fun l => pad ind ++ l) (split_newline (escape_multiline_literal value)))
                ++ [pad ind ++ QUOTES]).
Proof.
  destruct (split_newline (escape_multiline_literal value)) as [|l ls] eqn:E;
    [by destruct (split_newline_lines (escape_multiline_literal value))|].
  rewrite <- app_comm_cons, join_lines_broken, broken_app. unfold heredoc_to_doc.
  cbn [map concat]. rewrite E. cbn [literal_lines layout].
  rewrite !fold_left_app. cbn [fold_left layout app].
  unfold emit_newline, push_text. cbn [fst snd]. rewrite layout_literal_lines. cbn [fst].
  unfold broken. by list_simplifier.
Qed.

Lemma trim_padded ind l : trim_end (pad ind ++ l) = padded ind (trim_end l).
Proof.
  induction ind as [|n IH]; simpl; [by destruct (trim_end l)|].
  change (replicate n (chr " ") ++ l) with (pad n ++ l). rewrite IH. destruct (trim_end l); [done|]. by destruct n.
Qed.

Lemma escape_no_cr l : forall q, CR ∉ escape_multiline q l.
Proof.
  induction l as [|c l IH]; intros q; [by apply not_elem_of_nil|].
  destruct (decide (c = QUOTE)) as [->|Hq].
  - cbn [escape_multiline]. rewrite Z.eqb_refl.
    case_bool_decide; (intros [Hin|Hin]%elem_of_app; [|by apply IH in Hin]); revert Hin;
      rewrite !elem_of_cons, elem_of_nil; naive_solver.
  - rewrite escape_multiline_cons, elem_of_app by done. intros [H|H%IH]; [|done]. revert H.
    unfold escape_char. destruct (c =? BACKSLASH); [|destruct (Z.eqb_spec c CR); [|destruct (c =? TAB); [|destruct (_ && _)]]];
      rewrite !elem_of_cons, elem_of_nil; naive_solver.
Qed.

Lemma elem_pad x ind l : x <> chr " " -> x ∈ pad ind ++ l -> x ∈ l.
Proof. intros Hx [H|H]%elem_of_app; [|done]. by apply elem_of_replicate in H as [? _]. Qed.

Lemma no_newline_quotes : NEWLINE ∉ QUOTES.
Proof. unfold QUOTES. rewrite !elem_of_cons, elem_of_nil. by intros [?|[?|[?|?]]]. Qed.

(** The text of a heredoc. *)
Lemma format_heredoc value ind width :
  heredoc_representable (Expr := Expr) [SpLiteral value] = true ->
  format_doc (DIndent ind (string_to_doc expr_to_doc [SpLiteral value] true)) width
  = Some (QUOTES ++ broken (map (padded ind) (map (escape_multiline 0) (map kept_line (split_newline value))))
          ++ NEWLINE :: pad ind ++ QUOTES ++ [NEWLINE]).
Proof.
  intros Hr. unfold format_doc, string_to_doc. rewrite Hr. cbn [andb].
  rewrite render_layout, layout_heredoc. cbn [mbind option_bind].
  destruct (split_newline value) as [|l ls] eqn:E; [by destruct (split_newline_lines value)|].
  unfold escape_multiline_literal. rewrite (escape_lines _ 0%nat _ _ E).
  change (escape_multiline 0 l :: map (escape_multiline 0) ls) with (map (escape_multiline 0) (l :: ls)).
  assert (Forall (fun l => NEWLINE ∉ escape_multiline 0 l) (l :: ls)) as Hn.
  { destruct (split_newline_lines (escape_multiline 0 value)) as [_ Hn].
    rewrite (escape_lines _ 0%nat _ _ E) in Hn.
    change (Forall (fun l => NEWLINE ∉ l) (map (escape_multiline 0) (l :: ls))) in Hn.
    exact (proj1 (List.Forall_map (escape_multiline 0) (fun l => NEWLINE ∉ l) (l :: ls)) Hn). }
  clear E. generalize dependent (l :: ls). intros vs Hn. rewrite trim_lines.
  - rewrite map_app. cbn [map app]. rewrite (trim_padded ind QUOTES). change (trim_end QUOTES) with QUOTES.
    assert (map trim_end (map (fun l => pad ind ++ l) (map (escape_multiline 0) vs))
            = map (padded ind) (map (escape_multiline 0) (map kept_line vs))) as ->.
    { rewrite !map_map. apply map_ext. intros x. by rewrite trim_padded, trim_escape. }
    rewrite join_lines_broken, broken_app. unfold broken at 2 4. cbn [map concat padded QUOTES]. rewrite app_nil_r.
    rewrite bool_decide_eq_false_2.
    + f_equal. unfold QUOTES. by list_simplifier.
    + rewrite app_comm_cons, !app_assoc, last_app_nonempty by done. done.
  - apply Forall_app. split; [constructor|].
    + exact no_newline_quotes.
    + apply List.Forall_map, List.Forall_map. eapply Forall_impl; [exact Hn|]. simpl. intros x Hx Hin%elem_pad; done.
    + apply Forall_singleton. intros Hin%elem_pad; [|done]. by apply no_newline_quotes in Hin.
  - apply Forall_app. split; [constructor; [done|]|].
    + apply List.Forall_map, List.Forall_map, Forall_true. simpl. intros x Hx%last_Some. destruct Hx as [y Hy].
      eapply (escape_no_cr x 0), (elem_pad _ ind); [done|]. rewrite Hy. set_solver.
    + apply Forall_singleton. by rewrite last_app_nonempty.
  - by destruct ind.
Qed.
End Heredoc.

(** ** Reading a heredoc *)

(** The first character of an escaped line: its own first character, or a backslash. *)
Lemma escape_multiline_first q c l rest x :
  head (escape_multiline q (c :: l) ++ rest) = Some x -> x = BACKSLASH \/ x = c /\ (c = QUOTE -> (q <> 2)%nat).
Proof.
  destruct (decide (c = QUOTE)) as [->|Hq].
  - cbn [escape_multiline]. rewrite Z.eqb_refl. case_bool_decide; intros [= <-]; [by left|right].
    split; [done|]. intros _ ->. done.
  - rewrite escape_multiline_cons by done.
    apply (escape_char_cases (fun e => head ((e ++ _) ++ _) = _ -> _)); [intros [= <-]; by right|].
    intros n _ _ _ [= <-]. by left.
Qed.

Lemma escape_multiline_head q l rest x :
  x <> BACKSLASH -> x <> NEWLINE -> head (escape_multiline q l ++ NEWLINE :: rest) = Some x ->
  head l = Some x /\ (x = QUOTE -> (q <> 2)%nat).
Proof.
  intros Hb Hn. destruct l as [|c l]; [by intros [= <-]|].
  intros [->|[-> Hq]]%escape_multiline_first; [done|auto].
Qed.

Lemma terminal_quote rest :
  head rest <> Some QUOTE \/ rest !! 1%nat <> Some QUOTE -> terminal true (QUOTE :: rest) = false.
Proof.
  intros H. assert (bool_decide ((QUOTE :: rest) !! 1%nat = Some QUOTE)
    && bool_decide ((QUOTE :: rest) !! 2%nat = Some QUOTE) = false) as E.
  { apply andb_false_iff. rewrite !bool_decide_eq_false. destruct H; [left|by right]. by destruct rest. }
  unfold terminal. simpl andb. simpl in E. rewrite E. done.
Qed.

(** Three raw quotes never follow each other. *)
Lemma escape_quote_reads q l rest :
  (q < 2)%nat -> terminal true (QUOTE :: escape_multiline (S q) l ++ NEWLINE :: rest) = false.
Proof.
  intros Hq. apply terminal_quote.
  destruct (decide (head (escape_multiline (S q) l ++ NEWLINE :: rest) = Some QUOTE)) as [E|]; [right|by left].
  apply escape_multiline_head in E as [El Hq2]; [|done|done]. specialize (Hq2 eq_refl).
  destruct l as [|c l]; [done|]. injection El as ->. replace q with 0%nat by lia. cbn [escape_multiline].
  rewrite Z.eqb_refl. simpl. intros E2.
  destruct (escape_multiline_head 2 l rest QUOTE) as [_ Hno]; [done|done| |by apply Hno].
  by destruct (escape_multiline 2 l).
Qed.

Lemma escape_line_reads rest l : forall q, (q <= 2)%nat -> reads true (NEWLINE :: rest) (escape_multiline q l) l.
Proof.
  induction l as [|c l IH]; intros q Hq; [constructor|]. destruct (decide (c = QUOTE)) as [->|Hc].
  - cbn [escape_multiline]. rewrite Z.eqb_refl. case_bool_decide as E.
    + apply reads_escape; [done|]. apply IH. lia.
    + apply reads_plain; [apply escape_quote_reads; lia|done|]. apply IH. lia.
  - rewrite escape_multiline_cons by done. specialize (IH 0%nat ltac:(lia)).
    destruct (decide (c = BACKSLASH)) as [->|Hb]; [by apply reads_escape|].
    assert (reads true (NEWLINE :: rest) ([BACKSLASH; chr "#"] ++ escape_multiline 0 l) (chr "#" :: l)) as Hh
      by (by apply reads_escape).
    unfold escape_char. rewrite (proj2 (Z.eqb_neq _ _) Hb).
    destruct (Z.eqb_spec c CR) as [->|]; [by apply reads_escape|].
    destruct (Z.eqb_spec c TAB) as [->|]; [by apply reads_escape|].
    destruct (Z.eqb_spec c (chr "#")) as [->|]; simpl; [case_bool_decide as Hl; [done|]|].
    + apply reads_plain; [|done|done]. apply terminal_plain; [done|by left|right]. contradict Hl.
      by apply escape_multiline_head in Hl as [? _].
    + apply reads_plain; [|done|done]. apply terminal_plain; auto.
Qed.

Lemma pad_reads rest n : reads true rest (pad n) (pad n).
Proof.
  induction n as [|n IH]; [constructor|]. apply reads_plain; [|done|done].
  apply terminal_plain; [done|by left|by left].
Qed.

Lemma padded_reads ind rest l :
  reads true (NEWLINE :: rest) (padded ind (escape_multiline 0 l)) (padded ind l).
Proof.
  destruct l as [|c l]; [constructor|]. pose proof (escape_nonempty 0 c l).
  replace (padded ind (escape_multiline 0 (c :: l))) with (pad ind ++ escape_multiline 0 (c :: l))
    by (by destruct (escape_multiline 0 (c :: l))).
  change (padded ind (c :: l)) with (pad ind ++ c :: l).
  apply reads_app; [apply pad_reads|apply escape_line_reads; lia].
Qed.

(** The raw text between the delimiters, and what it stands for. *)
Lemma heredoc_reads ind rest vs :
  reads true rest (broken (map (padded ind) (map (escape_multiline 0) vs)) ++ NEWLINE :: pad ind)
    (broken (map (padded ind) vs) ++ NEWLINE :: pad ind).
Proof.
  assert (forall out s, reads true rest out s -> reads true rest (NEWLINE :: out) (NEWLINE :: s)) as Hn.
  { intros out s H. apply reads_plain; [|done|done]. apply terminal_plain; [done|by left|by left]. }
  induction vs as [|v vs IH]; [apply Hn, pad_reads|]. unfold broken in *. simpl.
  rewrite <- !app_assoc. apply Hn, reads_app; [|exact IH].
  destruct vs; simpl; rewrite <- ?app_assoc; apply padded_reads.
Qed.

(** ** The closing delimiter *)

Lemma pad_snoc n : pad (S n) = pad n ++ [chr " "].
Proof. unfold pad. by rewrite replicate_S_end. Qed.

Lemma whitespace_before_pad p rest n : forall after,
  whitespace_before (cursor_at ((p ++ NEWLINE :: pad n) ++ after) rest) (length (p ++ NEWLINE :: pad n)) = true.
Proof.
  induction n as [|n IH]; intros after.
  - rewrite length_app, Nat.add_1_r. cbn [whitespace_before]. unfold char_at. simpl chars.
    rewrite <- !app_assoc, lookup_app_r, Nat.sub_diag by lia. done.
  - rewrite pad_snoc. rewrite app_comm_cons, app_assoc, length_app, Nat.add_1_r. cbn [whitespace_before].
    unfold char_at at 1. cbn [chars cursor_at].
    rewrite <- (app_assoc (p ++ NEWLINE :: pad n)), <- app_assoc, lookup_app_r, Nat.sub_diag by lia.
    simpl. apply IH.
Qed.

Lemma place_snoc s x : place (s ++ [x]) = place_step (place s) x.
Proof. unfold place. by rewrite fold_left_app. Qed.

(** The column after [n] blanks at the start of a line. *)
Lemma place_pad p n :
  Z.of_nat n + 1 < 2 ^ 32 -> snd (place (p ++ NEWLINE :: pad n)) = Z.of_nat n + 1.
Proof.
  induction n as [|n IH]; intros Hn.
  - by rewrite place_snoc.
  - rewrite pad_snoc, app_comm_cons, app_assoc. rewrite place_snoc. cbn [place_step].
    change (wrap 32 (snd (place (p ++ NEWLINE :: pad n)) + 1) = Z.of_nat (S n) + 1).
    rewrite IH, wrap_small by lia. lia.
Qed.

(** A heredoc whose text ends in a line break and blanks. *)
Lemma lex_multiline_reads l pre p n rest s :
  let out := NEWLINE :: p ++ NEWLINE :: pad n in
  cursor l = cursor_at pre (QUOTES ++ out ++ QUOTES ++ rest) -> reads true (QUOTES ++ rest) out s ->
  exists l', lex_multiline_string l = Some l'
    /\ reaches l l' (pre ++ QUOTES ++ out ++ QUOTES) rest
         (TkMultilineStringStart :: frag s ++ [TkMultilineStringEnd])
    /\ last (tokens l') = Some (mkToken TkMultilineStringEnd (span_at (lexer_file l) (pre ++ QUOTES ++ out) QUOTES)).
Proof.
  intros out H Hr. unfold lex_multiline_string.
  rewrite (step_cursor_three l pre QUOTE QUOTE QUOTE (out ++ QUOTES ++ rest) _ H). rewrite H.
  pose proof (reaches_token l TkMultilineStringStart pre QUOTES (out ++ QUOTES ++ rest)) as H1.
  set (l1 := place_token _ _ _ _ _) in H1. change (emit _ _ _) with l1.
  assert ((if at_end (cursor l1) then Some None else c ← peek (cursor l1); Some (Some c)) = Some (Some NEWLINE))
    as -> by (change (cursor l1) with (cursor_at (pre ++ QUOTES) (out ++ QUOTES ++ rest));
              by rewrite at_end_cursor, peek_cursor).
  cbn [mbind option_bind].
  change (negb (bool_decide (Some NEWLINE = None) || bool_decide (Some NEWLINE = Some NEWLINE))) with false.
  cbn [andb].
  destruct (lex_string_body_reads true l1 (pre ++ QUOTES) out (QUOTES ++ rest) s eq_refl Hr) as [k ->].
  set (l2 := consumed _ _ _ _ _). cbn [string_loop].
  pose proof (reaches_consumed l1 (pre ++ QUOTES) out (QUOTES ++ rest)) as H2. fold l2 in H2.
  rewrite (re_cursor _ _ _ _ _ H2), at_end_cursor, peek_cursor, !peek_at_cursor.
  change (bool_decide (QUOTES ++ rest = [])) with false.
  change (head (QUOTES ++ rest)) with (Some QUOTE). cbn [mbind option_bind].
  change (negb true && (QUOTE =? QUOTE)) with false. cbn iota.
  change (true && (QUOTE =? QUOTE) && bool_decide ((QUOTES ++ rest) !! 1%nat = Some QUOTE)
          && bool_decide ((QUOTES ++ rest) !! 2%nat = Some QUOTE)) with true. cbn iota.
  unfold close_multiline.
  pose proof (emit_fragment_reaches s (position_at (pre ++ QUOTES)) l2 _ _ (re_cursor _ _ _ _ _ H2)) as H3.
  set (l3 := emit_fragment _ _ _) in *. pose proof (re_cursor _ _ _ _ _ H3) as Hc3.
  rewrite (step_cursor_three l3 _ QUOTE QUOTE QUOTE rest _ Hc3). rewrite Hc3.
  assert (only_whitespace_before_on_line l3 = true) as ->.
  { unfold only_whitespace_before_on_line, char_index. rewrite Hc3. cbn [pos cursor_at].
    unfold out. rewrite app_comm_cons, app_assoc. rewrite <- (app_nil_r (_ ++ _ :: pad n)) at 1.
    apply whitespace_before_pad. }
  pose proof (reaches_token l3 TkMultilineStringEnd ((pre ++ QUOTES) ++ out) QUOTES rest) as H4.
  eexists. split; [done|]. split.
  - replace (pre ++ QUOTES ++ out ++ QUOTES) with (((pre ++ QUOTES) ++ out) ++ QUOTES) by (by list_simplifier).
    exact (reaches_trans _ _ _ _ _ _ _ _ _ H1
      (reaches_trans _ _ _ _ _ _ _ _ _ H2 (reaches_trans _ _ _ _ _ _ _ _ _ H3 H4))).
  - unfold emit, push_token. cbn [tokens]. rewrite last_snoc. unfold span_at.
    rewrite <- !app_assoc. f_equal. f_equal. f_equal. unfold l3, emit_fragment. by case_bool_decide.
Qed.

(** The tokens of a file that is one heredoc. *)
Lemma lex_heredoc p n s file :
  let out := NEWLINE :: p ++ NEWLINE :: pad n in
  reads true (QUOTES ++ [NEWLINE]) out s -> s <> [] ->
  exists r, lex (QUOTES ++ out ++ QUOTES ++ [NEWLINE]) file = Some r /\ result_errors r = []
    /\ kind <$> result_tokens r
       = [TkMultilineStringStart; TkStringFragment s; TkMultilineStringEnd; TkNewline; TkEndOfFile]
    /\ result_tokens r !! 2%nat = Some (mkToken TkMultilineStringEnd (span_at file (QUOTES ++ out) QUOTES)).
Proof.
  intros out Hrd Hs. set (source := QUOTES ++ out ++ QUOTES ++ [NEWLINE]). set (l0 := lexer_new source file).
  destruct (lex_multiline_reads l0 [] p n [NEWLINE] s) as (l1 & Hl1 & Hr1 & Hlast); [done|exact Hrd|].
  fold out in Hr1, Hlast.
  assert (run_step l0 = Some l1) as Hstep by (rewrite <- Hl1; reflexivity).
  assert (frag s = [TkStringFragment s]) as Ef by (by destruct s). rewrite Ef in Hr1.
  change (TkMultilineStringStart :: [TkStringFragment s] ++ [TkMultilineStringEnd])
    with ([TkMultilineStringStart; TkStringFragment s] ++ [TkMultilineStringEnd]) in Hr1.
  destruct (run_loop_last (length source - 2) _ _ _ _ _ Hr1 (or_intror eq_refl)) as (l2 & Hl2 & Hr2 & t & Ht2).
  assert (run_loop (S (length source)) l0 = Some l2) as Hrun.
  { rewrite (run_loop_next _ l0 [] QUOTE ([QUOTE; QUOTE] ++ out ++ QUOTES ++ [NEWLINE])) by done.
    rewrite Hstep. cbn [mbind option_bind].
    replace (length source) with (S (S (length source - 2))) by (unfold source; simpl; lia). exact Hl2. }
  destruct (lex_reaches _ _ _ _ _ Hrun Hr2) as (r & Hres & He & Hkd & sp & Htok).
  exists r. split; [done|]. split; [done|]. split; [done|].
  pose proof (re_tokens _ _ _ _ _ Hr1) as Hk1. simpl in Hk1.
  destruct (tokens l1) as [|t1 [|t2 [|t3 [|t4 ts]]]]; try discriminate. injection Hlast as ->.
  by rewrite Htok, Ht2.
Qed.

(** ** Dedenting *)

Lemma dedent_pad n j : forall k rest, k + Z.of_nat j <= n ->
  dedent_loop n true k (pad j ++ rest) = dedent_loop n true (k + Z.of_nat j) rest.
Proof.
  induction j as [|j IH]; intros k rest Hk; [by rewrite Z.add_0_r|].
  change (pad (S j) ++ rest) with (chr " " :: pad j ++ rest). cbn [dedent_loop].
  change (chr " " =? NEWLINE) with false. change (chr " " =? chr " ") with true. cbn iota. simpl andb.
  rewrite (proj2 (Z.ltb_lt k n)) by lia. rewrite IH by lia. f_equal. lia.
Qed.

Lemma dedent_rest n k l rest : NEWLINE ∉ l ->
  dedent_loop n false k (l ++ NEWLINE :: rest) = l ++ NEWLINE :: dedent_loop n true 0 rest.
Proof.
  induction l as [|c l IH]; intros H; [done|]. apply not_elem_of_cons in H as [Hc Hl]. simpl.
  rewrite (proj2 (Z.eqb_neq c NEWLINE)) by done. simpl. by rewrite IH.
Qed.

Lemma dedent_line ind l rest : NEWLINE ∉ l ->
  dedent_loop (Z.of_nat ind) true 0 (padded ind l ++ NEWLINE :: rest)
  = l ++ NEWLINE :: dedent_loop (Z.of_nat ind) true 0 rest.
Proof.
  intros H. destruct l as [|c l]; [done|]. apply not_elem_of_cons in H as [Hc Hl].
  unfold padded. rewrite <- app_assoc, dedent_pad by lia. simpl.
  rewrite (proj2 (Z.eqb_neq c NEWLINE)) by done.
  rewrite (proj2 (Z.ltb_ge _ _)) by lia. rewrite andb_false_r. by rewrite dedent_rest.
Qed.

Lemma dedent_lines ind vs : forall v, Forall (fun l => NEWLINE ∉ l) (v :: vs) ->
  dedent_loop (Z.of_nat ind) true 0 (padded ind v ++ broken (map (padded ind) vs) ++ NEWLINE :: pad ind)
  = join_lines (v :: vs) ++ [NEWLINE].
Proof.
  induction vs as [|v' vs IH]; intros v [Hv Hvs]%Forall_cons.
  - simpl. rewrite dedent_line by done. rewrite <- (app_nil_r (pad ind)), dedent_pad by lia. done.
  - unfold broken in *. cbn [map concat app]. rewrite <- app_assoc, dedent_line, IH by done.
    rewrite join_lines_cons. by list_simplifier.
Qed.

Lemma dedent_heredoc {E} ind value vs v :
  split_newline value = v :: vs -> Z.of_nat ind + 1 < 2 ^ 32 ->
  dedent_multiline_parts (Expr := E)
    [SpLiteral (broken (map (padded ind) (v :: vs)) ++ NEWLINE :: pad ind)] (Z.of_nat ind + 1)
  = [SpLiteral value].
Proof.
  intros Hv Hind. destruct (split_newline_lines value) as [_ Hn]. rewrite Hv in Hn.
  unfold dedent_multiline_parts. rewrite wrap_small by lia.
  replace (Z.of_nat ind + 1 - 1) with (Z.of_nat ind) by lia.
  change (broken (map (padded ind) (v :: vs)))
    with (NEWLINE :: padded ind v ++ broken (map (padded ind) vs)).
  cbn [app]. unfold strip_first. change (NEWLINE =? NEWLINE) with true. cbn iota.
  cbn [imap]. unfold dedent_part, dedent_string. rewrite <- app_assoc.
  change (bool_decide (0%nat = 0%nat)) with true. rewrite (dedent_lines ind vs v Hn).
  cbn [pop_last]. rewrite last_snoc, bool_decide_eq_true_2, removelast_last by done.
  by rewrite <- Hv, join_split.
Qed.

Section HeredocRoundtrip.
Context {Expr : Type} (expr_to_doc : Expr -> Doc).

Lemma heredoc_value_lines value : split_newline (heredoc_value value) = map kept_line (split_newline value).
Proof.
  apply split_join; [intros E%map_eq_nil; destruct (split_newline_lines value) as [Hne _]; exact (Hne E)|]. apply List.Forall_map. destruct (split_newline_lines value) as [_ Hn]. eapply Forall_impl; [exact Hn|].
  apply kept_line_no_newline.
Qed.

Lemma heredoc_value_same value : heredoc_value value = value <->
  Forall (fun l => forall c, last l = Some c -> lost_blank c = false) (split_newline value).
Proof.
  assert (heredoc_value value = value <-> map kept_line (split_newline value) = split_newline value) as ->.
  { rewrite <- heredoc_value_lines. split; [by intros ->|]. intros H. rewrite <- (join_split (heredoc_value value)), H. apply join_split. }
  generalize (split_newline value). intros ls. induction ls as [|l ls IH]; [done|]. rewrite Forall_cons, <- kept_line_same, <- IH.
  simpl. split; [by intros [= -> ->]|by intros [-> ->]].
Qed.

(** C10: what a heredoc is read back as. A multiline string without interpolations that
    [heredoc_representable] accepts is printed as a heredoc at any indentation; that text
    is lexed without errors as one multiline string with one fragment, and dedenting the
    fragment by the column of the closing delimiter gives the value without the blanks
    the last pass of the formatter trims from the ends of its lines, which is the value
    itself exactly when no line ends in such a blank: a whitespace character other than
    a tab or a carriage return, and so, after the guard, other than a space. *)
Theorem heredoc_roundtrip (value : list Z) (ind width : nat) (file : Z) :
  heredoc_representable (Expr := Expr) [SpLiteral value] = true ->
  Z.of_nat ind + 1 < 2 ^ 32 ->
  (exists text r fragment sp,
     format_doc (DIndent ind (string_to_doc expr_to_doc [SpLiteral value] true)) width = Some text
     /\ lex text file = Some r /\ result_errors r = []
     /\ kind <$> result_tokens r
        = [TkMultilineStringStart; TkStringFragment fragment; TkMultilineStringEnd; TkNewline; TkEndOfFile]
     /\ result_tokens r !! 2%nat = Some (mkToken TkMultilineStringEnd sp)
     /\ dedent_multiline_parts (Expr := Expr) [SpLiteral fragment] (column (span_start sp))
        = [SpLiteral (heredoc_value value)])
  /\ (heredoc_value value = value <->
      Forall (fun l => forall c, last l = Some c -> lost_blank c = false) (split_newline value)).
Proof.
  intros Hr Hind. split; [|apply heredoc_value_same]. rewrite format_heredoc, <- heredoc_value_lines by done.
  destruct (split_newline (heredoc_value value)) as [|v vs] eqn:Hv; [by destruct (split_newline_lines (heredoc_value value))|].
  set (p := padded ind (escape_multiline 0 v) ++ broken (map (padded ind) (map (escape_multiline 0) vs))).
  set (fragment := broken (map (padded ind) (v :: vs)) ++ NEWLINE :: pad ind).
  pose proof (heredoc_reads ind (QUOTES ++ [NEWLINE]) (v :: vs)) as Hrd. fold fragment in Hrd.
  change (broken (map (padded ind) (map (escape_multiline 0) (v :: vs)))) with (NEWLINE :: p) in *.
  destruct (lex_heredoc p ind fragment file Hrd) as (r & Hres & He & Hkd & Htok); [done|].
  replace (QUOTES ++ (NEWLINE :: p) ++ NEWLINE :: pad ind ++ QUOTES ++ [NEWLINE])
    with (QUOTES ++ (NEWLINE :: p ++ NEWLINE :: pad ind) ++ QUOTES ++ [NEWLINE])
    by (simpl; by rewrite <- (app_assoc p)).
  eexists _, r, fragment, _. do 5 (split; [done|]).
  transitivity (dedent_multiline_parts (Expr := Expr) [SpLiteral fragment] (Z.of_nat ind + 1));
    [f_equal; exact (place_pad (QUOTES ++ NEWLINE :: p) ind Hind)|by apply dedent_heredoc].
Qed.
End HeredocRoundtrip.

(** A value with quotes, a blank line, indentation, an escape and an interpolation
    opener, at an indentation of four. *)
Definition sample_value : list Z :=
  str "a " ++ QUOTES ++ QUOTES ++ [NEWLINE; NEWLINE] ++ str "  b" ++ [TAB; NEWLINE] ++ str "#{c}".

Lemma heredoc_roundtrip_witness :
  exists text r fragment sp,
    format_doc (DIndent 4 (string_to_doc (fun _ : Empty_set => DNil) [SpLiteral sample_value] true)) 80 = Some text
    /\ lex text 0 = Some r /\ result_errors r = []
    /\ kind <$> result_tokens r
       = [TkMultilineStringStart; TkStringFragment fragment; TkMultilineStringEnd; TkNewline; TkEndOfFile]
    /\ result_tokens r !! 2%nat = Some (mkToken TkMultilineStringEnd sp)
    /\ dedent_multiline_parts (Expr := Empty_set) [SpLiteral fragment] (column (span_start sp))
       = [SpLiteral sample_value].
Proof.
  apply (heredoc_roundtrip (fun _ : Empty_set => DNil) sample_value 4 80 0); [reflexivity|lia].
Defined.

(** The guard accepts a line that ends in a no-break space (U+00A0), which the
    formatter's last pass trims: the printed heredoc is read back as another value. *)
Example heredoc_trailing_nbsp :
  let value := str "a" ++ [160; NEWLINE] ++ str "b" in
  heredoc_representable (Expr := Empty_set) [SpLiteral value] = true
  /\ exists text r, format_doc (string_to_doc (fun _ : Empty_set => DNil) [SpLiteral value] true) 80 = Some text
     /\ lex text 0 = Some r
     /\ (kind <$> result_tokens r) !! 1%nat = Some (TkStringFragment ([NEWLINE] ++ str "a" ++ [NEWLINE] ++ str "b" ++ [NEWLINE])).
Proof. split; [reflexivity|]. do 2 eexists. split; [vm_compute; reflexivity|]. split; vm_compute; reflexivity. Qed.
