(* ===== verification/Cycle.v ===== *)
(** * Breaking recursive types

    Models [koja-ir/src/cycle.rs]: the pass that wraps the slots of recursive struct
    and enum declarations in [Indirect], so that no backend sees a type of infinite
    size. Ids are those of IRFunction; the slot numbers are [u32]s, cut from [usize]
    positions as the code casts them. A [BTreeMap] is a map whose entries are visited
    in the order of [map_to_list], a [BTreeSet] of slots a list without duplicates:
    the order of a visit shows nowhere, since a slot is wrapped at most once.

    [break_type_cycles_acyclic]: after the pass the inline references between
    declarations have no cycle, and only slots that were on a cycle have changed. *)

From stdpp Require Import strings gmap.
From S2P Require Import Prelude Graph IRValue IRFunction.
Local Open Scope Z_scope.

Inductive Slot : Set :=
  | StructField (index : Z)
  | EnumTupleElement (variant element : Z)
  | EnumStructField (variant index : Z).

#[export] Instance slot_eq_dec : EqDecision Slot.
Proof. solve_decision. Defined.

Record Edge := mkEdge { target : IRSymbol; slot : Slot }.

(** [inline_refs]: what contributes to the size of a value of the type. *)
Fixpoint inline_refs (ty : IRType) : list IRSymbol :=
  match ty with
  | TStruct symbol | TEnum symbol => [symbol]
  | TTuple elements => concat (map inline_refs elements)
  | TUnion _ members => concat (map inline_refs members)
  | _ => []
  end.

Definition collect_struct_edges (decl : IRStructDecl) : list Edge :=
  concat (map (fun field =>
    map (fun t => mkEdge t (StructField (field_index field))) (inline_refs (ir_type field))) (sfields decl)).

Definition collect_variant_edges (i : nat) (variant : IREnumVariant) : list Edge :=
  let variant_idx := wrap 32 (Z.of_nat i) in
  match vpayload variant with
  | VPTuple types =>
      concat (imap (fun element_idx ty =>
        map (fun t => mkEdge t (EnumTupleElement variant_idx (wrap 32 (Z.of_nat element_idx))))
          (inline_refs ty)) types)
  | VPStruct fields =>
      concat (map (fun field =>
        map (fun t => mkEdge t (EnumStructField variant_idx (field_index field)))
          (inline_refs (ir_type field))) fields)
  | VPUnit => []
  end.

Definition collect_enum_edges (decl : IREnumDecl) : list Edge :=
  concat (imap collect_variant_edges (variants decl)).

Definition values {A} (m : gmap IRSymbol A) : list A := snd <$> map_to_list m.

Definition insert_struct (m : gmap IRSymbol (list Edge)) (decl : IRStructDecl) :=
  <[ssymbol decl := collect_struct_edges decl]> m.
Definition insert_enum (m : gmap IRSymbol (list Edge)) (decl : IREnumDecl) :=
  <[esymbol decl := collect_enum_edges decl]> m.

Definition collect_edges (ps : list IRPackage) : gmap IRSymbol (list Edge) :=
  fold_left (fun m p =>
    fold_left insert_enum (values (enums p)) (fold_left insert_struct (values (structs p)) m)) ps ∅.

(** The calls that build the inline-reference graph. *)
Definition edge_ops (edges : gmap IRSymbol (list Edge)) : list (GraphOp (K := IRSymbol)) :=
  concat (map (fun '(source, targets) => AddNode source :: map (fun e => AddEdge source (target e)) targets)
    (map_to_list edges)).

(** [BTreeSet::extend]. *)
Definition extend_slots (set slots : list Slot) : list Slot :=
  fold_left (fun set s => if bool_decide (s ∈ set) then set else set ++ [s]) slots set.

(** The loop over the back edges; [edges[&from]] panics on an unknown source. *)
Fixpoint collect_hits (edges : gmap IRSymbol (list Edge)) (back : list (IRSymbol * IRSymbol))
    (hits : gmap IRSymbol (list Slot)) : option (gmap IRSymbol (list Slot)) :=
  match back with
  | [] => Some hits
  | (from, to) :: back =>
      es ← edges !! from;
      let slots := map slot (List.filter (fun e => bool_decide (target e = to)) es) in
      collect_hits edges back (<[from := extend_slots (default [] (hits !! from)) slots]> hits)
  end.

Definition wrap_indirect (ty : IRType) : IRType :=
  match ty with TIndirect _ => ty | _ => TIndirect ty end.

Definition wrap_field (f : IRStructField) : IRStructField :=
  mkStructField (field_index f) (wrap_indirect (ir_type f)) (field_name f).

(** [iter_mut().find(..)] and the write through it. *)
Fixpoint update_first {A} (test : A -> bool) (f : A -> A) (l : list A) : list A :=
  match l with
  | [] => []
  | x :: l => if test x then f x :: l else x :: update_first test f l
  end.

Definition rewrite_struct_slot (decl : IRStructDecl) (s : Slot) : IRStructDecl :=
  match s with
  | StructField index =>
      mkStructDecl (update_first (fun f => field_index f =? index) wrap_field (sfields decl)) (ssymbol decl)
  | _ => decl
  end.

Definition rewrite_struct (decl : IRStructDecl) (slots : list Slot) : IRStructDecl :=
  fold_left rewrite_struct_slot slots decl.

(** The match of [rewrite_enum] on the payload and the slot. *)
Definition rewrite_variant (s : Slot) (variant : IREnumVariant) : IREnumVariant :=
  mkVariant (vname variant)
    (match vpayload variant, s with
     | VPTuple types, EnumTupleElement _ element => VPTuple (alter wrap_indirect (Z.to_nat element) types)
     | VPStruct fields, EnumStructField _ index =>
         VPStruct (update_first (fun f => field_index f =? index) wrap_field fields)
     | payload, _ => payload
     end) (vtag variant).

Definition rewrite_enum_slot (decl : IREnumDecl) (s : Slot) : IREnumDecl :=
  match s with
  | EnumTupleElement variant _ | EnumStructField variant _ =>
      mkEnumDecl (esymbol decl) (alter (rewrite_variant s) (Z.to_nat variant) (variants decl))
  | StructField _ => decl
  end.

Definition rewrite_enum (decl : IREnumDecl) (slots : list Slot) : IREnumDecl :=
  fold_left rewrite_enum_slot slots decl.

Definition rewrite_struct_decl (rewrites : gmap IRSymbol (list Slot)) (decl : IRStructDecl) : IRStructDecl :=
  match rewrites !! ssymbol decl with Some slots => rewrite_struct decl slots | None => decl end.
Definition rewrite_enum_decl (rewrites : gmap IRSymbol (list Slot)) (decl : IREnumDecl) : IREnumDecl :=
  match rewrites !! esymbol decl with Some slots => rewrite_enum decl slots | None => decl end.

Definition rewrite_package (rewrites : gmap IRSymbol (list Slot)) (p : IRPackage) : IRPackage :=
  mkPackage (constants p) (rewrite_enum_decl rewrites <$> enums p) (functions p) (package p)
    (rewrite_struct_decl rewrites <$> structs p).

Definition apply_indirect_rewrites (ps : list IRPackage) (rewrites : gmap IRSymbol (list Slot))
    : list IRPackage := map (rewrite_package rewrites) ps.

Section Pass.
Context (le : IRSymbol -> IRSymbol -> Prop) `{!RelDecision le}.

Definition back_edge_slots (edges : gmap IRSymbol (list Edge)) : option (gmap IRSymbol (list Slot)) :=
  back ← back_edges le (build (edge_ops edges));
  collect_hits edges back ∅.

Definition break_type_cycles (ps : list IRPackage) : option (list IRPackage) :=
  let edges := collect_edges ps in
  recursive_slots ← back_edge_slots edges;
  if bool_decide (recursive_slots = ∅) then Some ps
  else Some (apply_indirect_rewrites ps recursive_slots).
End Pass.

(** ** The slots of a declaration *)

Definition struct_slots (d : IRStructDecl) : list (Slot * IRType) :=
  map (fun f => (StructField (field_index f), ir_type f)) (sfields d).

Definition variant_slots (i : nat) (v : IREnumVariant) : list (Slot * IRType) :=
  let i := wrap 32 (Z.of_nat i) in
  match vpayload v with
  | VPTuple types => imap (fun e ty => (EnumTupleElement i (wrap 32 (Z.of_nat e)), ty)) types
  | VPStruct fields => map (fun f => (EnumStructField i (field_index f), ir_type f)) fields
  | VPUnit => []
  end.

Definition enum_slots (d : IREnumDecl) : list (Slot * IRType) := concat (imap variant_slots (variants d)).

Definition slot_edges (sl : list (Slot * IRType)) : list Edge :=
  concat (map (fun st => map (fun t => mkEdge t (fst st)) (inline_refs (snd st))) sl).

(** [a] is declared with the slots [sl]. *)
Inductive declares (ps : list IRPackage) : IRSymbol -> list (Slot * IRType) -> Prop :=
  | declares_struct p k d : p ∈ ps -> structs p !! k = Some d -> declares ps (ssymbol d) (struct_slots d)
  | declares_enum p k d : p ∈ ps -> enums p !! k = Some d -> declares ps (esymbol d) (enum_slots d).

(** A value of type [ty] contains one of the declaration [b] in its own layout. *)
Inductive inline (b : IRSymbol) : IRType -> Prop :=
  | inline_struct : inline b (TStruct b)
  | inline_enum : inline b (TEnum b)
  | inline_tuple elements ty : ty ∈ elements -> inline b ty -> inline b (TTuple elements)
  | inline_union mangled members ty : ty ∈ members -> inline b ty -> inline b (TUnion mangled members).

(** [a] holds a value of [b] inline. *)
Definition holds (ps : list IRPackage) (a b : IRSymbol) : Prop :=
  exists sl s ty, declares ps a sl /\ (s, ty) ∈ sl /\ inline b ty.

(** What lowering guarantees of its declarations: a symbol is declared once, the
    fields of a declaration have distinct indices, positions fit in 32 bits. *)
Definition fields_ok (fs : list IRStructField) : Prop := NoDup (map field_index fs).

Definition payload_ok (v : IREnumVariant) : Prop :=
  match vpayload v with
  | VPTuple types => Z.of_nat (length types) < 2 ^ 32
  | VPStruct fields => fields_ok fields
  | VPUnit => True
  end.

Record packages_ok (ps : list IRPackage) : Prop := {
  ok_once : forall a sl sl', declares ps a sl -> declares ps a sl' -> sl = sl';
  ok_fields : forall p k d, p ∈ ps -> structs p !! k = Some d -> fields_ok (sfields d);
  ok_variants : forall p k d, p ∈ ps -> enums p !! k = Some d ->
    Z.of_nat (length (variants d)) < 2 ^ 32 /\ Forall payload_ok (variants d) }.

(** ** The collected edges *)

Lemma struct_edges_slots d : collect_struct_edges d = slot_edges (struct_slots d).
Proof. unfold collect_struct_edges, slot_edges, struct_slots. by rewrite map_map. Qed.

Lemma slot_edges_app a b : slot_edges (a ++ b) = slot_edges a ++ slot_edges b.
Proof. unfold slot_edges. by rewrite map_app, concat_app. Qed.

Lemma slot_edges_concat l : slot_edges (concat l) = concat (map slot_edges l).
Proof. induction l as [|x l IH]; simpl; [done|]. by rewrite slot_edges_app, IH. Qed.

Lemma map_imap {A B C} (f : nat -> A -> B) (g : B -> C) l : map g (imap f l) = imap (fun i x => g (f i x)) l.
Proof. revert f. induction l as [|x l IH]; intros f; simpl; [done|]. by rewrite IH. Qed.

Lemma variant_edges_slots i v : collect_variant_edges i v = slot_edges (variant_slots i v).
Proof.
  unfold collect_variant_edges, variant_slots, slot_edges. destruct (vpayload v) as [fs|ts|]; [by rewrite map_map| |done].
  by rewrite map_imap.
Qed.

Lemma enum_edges_slots d : collect_enum_edges d = slot_edges (enum_slots d).
Proof.
  unfold collect_enum_edges, enum_slots. rewrite slot_edges_concat, map_imap. f_equal.
  apply imap_ext. intros. apply variant_edges_slots.
Qed.

(** [inline_refs] lists them. *)
Lemma elem_flat_refs b ts : Forall (fun ty => b ∈ inline_refs ty <-> inline b ty) ts ->
  b ∈ concat (map inline_refs ts) <-> exists ty, ty ∈ ts /\ inline b ty.
Proof.
  intros Hts. rewrite list_elem_of_In, in_concat. setoid_rewrite in_map_iff. rewrite Forall_forall in Hts. split.
  - intros (l & (ty & <- & Hty%list_elem_of_In) & Hb%list_elem_of_In). exists ty. split; [done|by apply Hts].
  - intros (ty & Hty & Hb). exists (inline_refs ty). rewrite <- list_elem_of_In, (Hts ty Hty). split; [|done].
    exists ty. by rewrite <- list_elem_of_In.
Qed.

Lemma elem_inline_refs b : forall ty, b ∈ inline_refs ty <-> inline b ty.
Proof.
  fix IH 1. intros ty.
  destruct ty; cbn [inline_refs]; try (clear IH; split; [by intros ?%not_elem_of_nil|by inversion 1]).
  - clear IH. rewrite list_elem_of_singleton. split; [intros ->; constructor|by inversion 1].
  - clear IH. rewrite list_elem_of_singleton. split; [intros ->; constructor|by inversion 1].
  - rewrite elem_flat_refs; [|clear -IH; induction elements as [|x l IHl]; constructor; [apply IH|exact IHl]].
    clear IH. split; [intros (x & ? & ?); by econstructor|inversion 1; eauto].
  - rewrite elem_flat_refs; [|clear -IH; induction members as [|x l IHl]; constructor; [apply IH|exact IHl]].
    clear IH. split; [intros (x & ? & ?); by econstructor|inversion 1; eauto].
Qed.

Lemma elem_slot_edges sl e :
  e ∈ slot_edges sl <-> exists ty, (slot e, ty) ∈ sl /\ inline (target e) ty.
Proof.
  setoid_rewrite <- elem_inline_refs. unfold slot_edges. rewrite list_elem_of_In, in_concat.
  setoid_rewrite in_map_iff. split.
  - intros (x & ([s ty] & <- & Hin) & He). apply in_map_iff in He as (t & <- & Ht). simpl in *.
    exists ty. by rewrite !list_elem_of_In.
  - intros (ty & Hin & Ht). eexists. split; [exists (slot e, ty); split; [done|by apply list_elem_of_In]|].
    apply in_map_iff. exists (target e). split; [by destruct e|by apply list_elem_of_In].
Qed.

Section Inserts.
Context {D V : Type} (key : D -> IRSymbol) (val : D -> V).

Definition insert_decl (m : gmap IRSymbol V) (d : D) : gmap IRSymbol V := <[key d := val d]> m.

Lemma inserts_from ds : forall m a v,
  fold_left insert_decl ds m !! a = Some v -> m !! a = Some v \/ exists d, d ∈ ds /\ key d = a /\ val d = v.
Proof.
  induction ds as [|d ds IH]; intros m a v; simpl; [by left|]. intros [H|(d' & ? & ? & ?)]%IH; [|set_solver].
  unfold insert_decl in H. apply lookup_insert_Some in H as [[<- <-]|[_ H]]; [right|by left]. set_solver.
Qed.

Lemma inserts_keep ds : forall m a, is_Some (m !! a) \/ (exists d, d ∈ ds /\ key d = a) ->
  is_Some (fold_left insert_decl ds m !! a).
Proof.
  induction ds as [|d ds IH]; intros m a H; simpl; [destruct H as [?|(d & ? & _)]; [done|set_solver]|].
  apply IH. unfold insert_decl. destruct (decide (key d = a)) as [<-|Hne]; [left; by rewrite lookup_insert_eq|].
  rewrite lookup_insert_ne by done. destruct H as [?|(d' & Hin & <-)]; [by left|right].
  apply elem_of_cons in Hin as [->|Hin]; [done|by exists d'].
Qed.
End Inserts.

Lemma elem_values {A} (m : gmap IRSymbol A) d : d ∈ values m <-> exists k, m !! k = Some d.
Proof.
  unfold values. rewrite list_elem_of_fmap. split.
  - intros ([k x] & -> & H%elem_of_map_to_list). by exists k.
  - intros [k H]. exists (k, d). split; [done|by apply elem_of_map_to_list].
Qed.

Lemma collect_edges_spec ps : forall m,
  let r := fold_left (fun m p =>
    fold_left insert_enum (values (enums p)) (fold_left insert_struct (values (structs p)) m)) ps m in
  (forall a es, r !! a = Some es -> m !! a = Some es \/ exists sl, declares ps a sl /\ es = slot_edges sl)
  /\ (forall a, is_Some (m !! a) \/ (exists sl, declares ps a sl) -> is_Some (r !! a)).
Proof.
  induction ps as [|p ps IH]; intros m; cbn [fold_left].
  { split; [by left|]. intros a [?|(sl & [? ? ? Hin|? ? ? Hin])]; [done|set_solver|set_solver]. }
  set (m1 := fold_left insert_struct _ m). set (m2 := fold_left insert_enum _ m1).
  destruct (IH m2) as [Hfrom Hkeep]. split.
  - intros a es [H|(sl & Hd & ->)]%Hfrom.
    + apply (inserts_from esymbol collect_enum_edges) in H as [H|(d & [k Hk]%elem_values & <- & <-)].
      * apply (inserts_from ssymbol collect_struct_edges) in H as [H|(d & [k Hk]%elem_values & <- & <-)]; [by left|].
        right. exists (struct_slots d). split; [eapply declares_struct; [by left|done]|apply struct_edges_slots].
      * right. exists (enum_slots d). split; [eapply declares_enum; [by left|done]|apply enum_edges_slots].
    + right. exists sl. split; [|done]. destruct Hd; [eapply declares_struct|eapply declares_enum]; try done; by right.
  - intros a H. apply Hkeep.
    destruct H as [H|(sl & [p' k d [->|Hp]%elem_of_cons Hd|p' k d [->|Hp]%elem_of_cons Hd])].
    + left. apply (inserts_keep esymbol collect_enum_edges). left.
      apply (inserts_keep ssymbol collect_struct_edges). by left.
    + left. apply (inserts_keep esymbol collect_enum_edges). left.
      apply (inserts_keep ssymbol collect_struct_edges). right. exists d. rewrite elem_values. eauto.
    + right. eexists. by eapply declares_struct.
    + left. apply (inserts_keep esymbol collect_enum_edges). right. exists d. rewrite elem_values. eauto.
    + right. eexists. by eapply declares_enum.
Qed.

Lemma collect_edges_lookup ps a sl :
  packages_ok ps -> declares ps a sl -> collect_edges ps !! a = Some (slot_edges sl).
Proof.
  intros Hok Hd. destruct (collect_edges_spec ps ∅) as [Hfrom Hkeep].
  destruct (Hkeep a) as [es Hes]; [right; by exists sl|]. unfold collect_edges. rewrite Hes.
  apply Hfrom in Hes as [Hes|(sl' & Hd' & ->)]; [by rewrite lookup_empty in Hes|].
  by rewrite (ok_once _ Hok _ _ _ Hd Hd').
Qed.

Lemma collect_edges_declared ps a es :
  collect_edges ps !! a = Some es -> exists sl, declares ps a sl /\ es = slot_edges sl.
Proof.
  intros H. destruct (collect_edges_spec ps ∅) as [Hfrom _].
  apply Hfrom in H as [H|?]; [by rewrite lookup_empty in H|done].
Qed.

Lemma elem_edge_ops es a b :
  AddEdge a b ∈ edge_ops es <-> exists l e, es !! a = Some l /\ e ∈ l /\ target e = b.
Proof.
  unfold edge_ops. rewrite list_elem_of_In, in_concat. setoid_rewrite in_map_iff. split.
  - intros (x & ([s l] & <- & Hin) & [?|He]); [done|]. apply in_map_iff in He as (e & [= -> <-] & He).
    exists l, e. rewrite !list_elem_of_In in *. rewrite <- elem_of_map_to_list, list_elem_of_In. done.
  - intros (l & e & Hl & He & <-). eexists. split.
    + exists (a, l). split; [done|]. by rewrite <- list_elem_of_In, elem_of_map_to_list.
    + right. apply in_map_iff. exists e. split; [done|by apply list_elem_of_In].
Qed.

(** The graph the pass searches is the inline references. *)
Lemma graph_holds ps a b :
  packages_ok ps -> edge (build (edge_ops (collect_edges ps))) a b <-> holds ps a b.
Proof.
  intros Hok. rewrite build_edge, elem_edge_ops. split.
  - intros (l & e & (sl & Hd & ->)%collect_edges_declared & (ty & Hs & Ht)%elem_slot_edges & <-).
    by exists sl, (slot e), ty.
  - intros (sl & s & ty & Hd & Hs & Ht). exists (slot_edges sl), (mkEdge b s).
    split; [by apply collect_edges_lookup|]. split; [|done]. apply elem_slot_edges. by exists ty.
Qed.

(** ** The recorded slots *)

Definition hit (h : gmap IRSymbol (list Slot)) (a : IRSymbol) (s : Slot) : Prop := s ∈ default [] (h !! a).

Lemma extend_slots_elem slots : forall set s, s ∈ extend_slots set slots <-> s ∈ set \/ s ∈ slots.
Proof.
  induction slots as [|x slots IH]; intros set s; [set_solver|].
  change (extend_slots set (x :: slots)) with (extend_slots (if bool_decide (x ∈ set) then set else set ++ [x]) slots).
  rewrite IH. case_bool_decide; set_solver.
Qed.

Lemma elem_filter_slots l to s :
  s ∈ map slot (List.filter (fun e => bool_decide (target e = to)) l)
  <-> exists e, e ∈ l /\ target e = to /\ slot e = s.
Proof.
  rewrite list_elem_of_In, in_map_iff. setoid_rewrite List.filter_In. setoid_rewrite bool_decide_eq_true.
  setoid_rewrite list_elem_of_In. naive_solver.
Qed.

Lemma collect_hits_ok es : forall back h, (forall a b, (a, b) ∈ back -> is_Some (es !! a)) ->
  exists h', collect_hits es back h = Some h' /\ forall a s, hit h' a s <->
    hit h a s \/ exists b l e, (a, b) ∈ back /\ es !! a = Some l /\ e ∈ l /\ target e = b /\ slot e = s.
Proof.
  induction back as [|[from to] back IH]; intros h Hb; [exists h; split; [done|]; set_solver|].
  cbn [collect_hits]. destruct (Hb from to) as [l Hl]; [by left|]. rewrite Hl. cbn [mbind option_bind].
  destruct (IH (<[from := extend_slots (default [] (h !! from))
    (map slot (List.filter (fun e => bool_decide (target e = to)) l))]> h)) as (h' & -> & Hh');
    [intros a b ?; apply (Hb a b); by right|].
  exists h'. split; [done|]. intros a s. rewrite Hh'.
  assert (hit (<[from := extend_slots (default [] (h !! from))
    (map slot (List.filter (fun e => bool_decide (target e = to)) l))]> h) a s
    <-> hit h a s \/ a = from /\ exists e, e ∈ l /\ target e = to /\ slot e = s) as ->.
  { unfold hit. destruct (decide (from = a)) as [->|Hne]; [|rewrite lookup_insert_ne by done; naive_solver].
    rewrite lookup_insert_eq. simpl. rewrite extend_slots_elem, elem_filter_slots. naive_solver. }
  setoid_rewrite elem_of_cons. naive_solver.
Qed.

(** ** Rewriting a declaration *)

Definition wrap_slots (sel : Slot -> bool) (sl : list (Slot * IRType)) : list (Slot * IRType) :=
  map (fun st => (fst st, if sel (fst st) then wrap_indirect (snd st) else snd st)) sl.

Lemma wrap_indirect_idemp ty : wrap_indirect (wrap_indirect ty) = wrap_indirect ty.
Proof. by destruct ty. Qed.

Lemma wrap_slots_twice f g sl : wrap_slots g (wrap_slots f sl) = wrap_slots (fun s => f s || g s) sl.
Proof.
  unfold wrap_slots. rewrite map_map. apply map_ext. intros [s ty]. simpl. f_equal.
  destruct (f s), (g s); simpl; by rewrite ?wrap_indirect_idemp.
Qed.

Lemma wrap_slots_ext f g sl : Forall (fun st => f (fst st) = g (fst st)) sl -> wrap_slots f sl = wrap_slots g sl.
Proof. induction 1 as [|st sl H _ IH]; [done|]. unfold wrap_slots in *. simpl. by rewrite H, IH. Qed.

Lemma wrap_slots_none f sl : Forall (fun st => f (fst st) = false) sl -> wrap_slots f sl = sl.
Proof.
  induction 1 as [|[s ty] sl H _ IH]; [done|]. unfold wrap_slots in *. simpl in *. by rewrite H, IH.
Qed.

Lemma update_first_map {A} (key : A -> Z) (f : A -> A) i l :
  NoDup (map key l) ->
  update_first (fun x => key x =? i) f l = map (fun x => if key x =? i then f x else x) l.
Proof.
  induction l as [|x l IH]; intros Hn; [done|]. cbn [map] in Hn. apply NoDup_cons in Hn as [Hx Hn]. simpl.
  destruct (Z.eqb_spec (key x) i) as [<-|]; [|by rewrite IH].
  f_equal. rewrite <- (List.map_id l) at 1. apply map_ext_in. intros y Hy.
  destruct (Z.eqb_spec (key y) (key x)) as [E|]; [|done]. exfalso. apply Hx. rewrite <- E.
  by apply list_elem_of_In, in_map.
Qed.

Lemma wrap_fields_index i fs : map field_index (map (fun f => if field_index f =? i then wrap_field f else f) fs) = map field_index fs.
Proof. rewrite map_map. apply map_ext. intros f. by destruct (_ =? _). Qed.

Lemma rewrite_struct_slot_ok d s : fields_ok (sfields d) ->
  fields_ok (sfields (rewrite_struct_slot d s))
  /\ struct_slots (rewrite_struct_slot d s) = wrap_slots (fun x => bool_decide (x = s)) (struct_slots d).
Proof.
  intros Hf. unfold rewrite_struct_slot. destruct s as [i|v e|v i].
  - rewrite update_first_map by done. unfold fields_ok. simpl. rewrite wrap_fields_index. split; [done|].
    unfold struct_slots, wrap_slots. simpl. rewrite !map_map. apply map_ext. intros f. simpl.
    destruct (Z.eqb_spec (field_index f) i) as [<-|Hne]; [by rewrite bool_decide_eq_true_2|].
    rewrite bool_decide_eq_false_2 by congruence. done.
  - split; [done|]. symmetry. apply wrap_slots_none. unfold struct_slots. apply List.Forall_map, Forall_true. done.
  - split; [done|]. symmetry. apply wrap_slots_none. unfold struct_slots. apply List.Forall_map, Forall_true. done.
Qed.

Lemma rewrite_struct_ok slots : forall d, fields_ok (sfields d) ->
  ssymbol (rewrite_struct d slots) = ssymbol d
  /\ struct_slots (rewrite_struct d slots) = wrap_slots (fun x => bool_decide (x ∈ slots)) (struct_slots d).
Proof.
  induction slots as [|s slots IH]; intros d Hf.
  - split; [done|]. symmetry. apply wrap_slots_none, Forall_true. done.
  - destruct (rewrite_struct_slot_ok d s Hf) as [Hf' Hs].
    change (rewrite_struct d (s :: slots)) with (rewrite_struct (rewrite_struct_slot d s) slots).
    destruct (IH _ Hf') as [Hsym ->]. rewrite Hsym, Hs, wrap_slots_twice. split; [by destruct s|].
    apply wrap_slots_ext, Forall_true. intros [x ty]. simpl.
    rewrite <- bool_decide_or. apply bool_decide_ext. by rewrite elem_of_cons.
Qed.

Lemma imap_id {A} (g : nat -> A -> A) l : (forall i x, g i x = x) -> imap g l = l.
Proof. revert g. induction l as [|x l IH]; intros g Hg; simpl; [done|]. rewrite Hg, IH; [done|]. intros. apply Hg. Qed.

Lemma imap_imap {A B C} (f : nat -> B -> C) (g : nat -> A -> B) l : imap f (imap g l) = imap (fun i x => f i (g i x)) l.
Proof. revert f g. induction l as [|x l IH]; intros f g; simpl; [done|]. f_equal. apply (IH (f ∘ S) (g ∘ S)). Qed.

Lemma alter_imap {A} (f : A -> A) n l : alter f n l = imap (fun i x => if bool_decide (i = n) then f x else x) l.
Proof.
  revert n. induction l as [|x l IH]; intros [|n]; [done|done|by simpl; rewrite imap_id|].
  transitivity (x :: alter f n l); [done|]. rewrite IH. simpl. f_equal. apply imap_ext.
  intros i y _. simpl. by rewrite (bool_decide_ext (i = n) (S i = S n)) by lia.
Qed.

Lemma wrap_slots_imap {A} sel (f : nat -> A -> Slot * IRType) l :
  wrap_slots sel (imap f l) = imap (fun i x => (fst (f i x), if sel (fst (f i x)) then wrap_indirect (snd (f i x)) else snd (f i x))) l.
Proof. unfold wrap_slots. by rewrite map_imap. Qed.

Lemma wrap_slots_concat sel l : wrap_slots sel (concat l) = concat (map (wrap_slots sel) l).
Proof. unfold wrap_slots. by rewrite concat_map. Qed.

Lemma wrap32_inj i j : 0 <= i < 2 ^ 32 -> 0 <= j < 2 ^ 32 -> wrap 32 i = wrap 32 j -> i = j.
Proof. intros Hi Hj. by rewrite !wrap_small by done. Qed.

(** A slot of a variant, with the variant's position. *)
Definition slot_variant (s : Slot) : option Z :=
  match s with EnumTupleElement v _ | EnumStructField v _ => Some v | StructField _ => None end.

Lemma variant_slots_variant i v st : st ∈ variant_slots i v -> slot_variant (fst st) = Some (wrap 32 (Z.of_nat i)).
Proof.
  unfold variant_slots. destruct (vpayload v) as [fs|ts|]; [| |set_solver].
  - rewrite list_elem_of_In, in_map_iff. by intros (f & <- & _).
  - rewrite list_elem_of_lookup. intros [k Hk]. rewrite list_lookup_imap in Hk. by destruct (ts !! k); simplify_eq/=.
Qed.

Lemma rewrite_variant_ok i v s : payload_ok v -> slot_variant s = Some (wrap 32 (Z.of_nat i)) ->
  (forall n e, s = EnumTupleElement n e -> 0 <= e < 2 ^ 32) ->
  payload_ok (rewrite_variant s v)
  /\ variant_slots i (rewrite_variant s v) = wrap_slots (fun x => bool_decide (x = s)) (variant_slots i v).
Proof.
  intros Hv Hs He. unfold payload_ok, rewrite_variant, variant_slots in *. simpl.
  destruct (vpayload v) as [fs|ts|], s as [j|n e|n j]; simplify_eq/=; try done.
  - split; [done|]. symmetry. apply wrap_slots_none. by apply List.Forall_map, Forall_true.
  - rewrite update_first_map by done. unfold fields_ok. rewrite wrap_fields_index. split; [done|].
    unfold wrap_slots. rewrite !map_map. apply map_ext. intros f. simpl.
    destruct (Z.eqb_spec (field_index f) j) as [<-|Hne]; [by rewrite bool_decide_eq_true_2|].
    by rewrite bool_decide_eq_false_2 by congruence.
  - specialize (He _ _ eq_refl). rewrite length_alter. split; [done|]. rewrite alter_imap, wrap_slots_imap.
    rewrite imap_imap. apply imap_ext. intros k ty Hk%lookup_lt_Some. simpl. f_equal.
    rewrite (wrap_small 32 (Z.of_nat k)) by lia.
    rewrite (bool_decide_ext (k = Z.to_nat e) (EnumTupleElement (wrap 32 (Z.of_nat i)) (Z.of_nat k)
      = EnumTupleElement (wrap 32 (Z.of_nat i)) e)); [done|].
    split; [intros ->; f_equal; lia|intros [= <-]; lia].
  - split; [done|]. symmetry. apply wrap_slots_none. rewrite Forall_lookup. intros k st Hk.
    rewrite list_lookup_imap in Hk. by destruct (ts !! k); simplify_eq/=.
Qed.

Definition enum_ok (d : IREnumDecl) : Prop :=
  Z.of_nat (length (variants d)) < 2 ^ 32 /\ Forall payload_ok (variants d).

Definition slot_ok (s : Slot) : Prop :=
  match s with
  | StructField _ => True
  | EnumTupleElement v e => 0 <= v < 2 ^ 32 /\ 0 <= e < 2 ^ 32
  | EnumStructField v _ => 0 <= v < 2 ^ 32
  end.

Lemma rewrite_enum_alter d s v : slot_variant s = Some v ->
  rewrite_enum_slot d s = mkEnumDecl (esymbol d) (alter (rewrite_variant s) (Z.to_nat v) (variants d)).
Proof. destruct s; simpl; intros [= ->]; done. Qed.

Lemma rewrite_enum_variant_ok d s v : enum_ok d -> slot_ok s -> slot_variant s = Some v ->
  enum_ok (rewrite_enum_slot d s)
  /\ enum_slots (rewrite_enum_slot d s) = wrap_slots (fun x => bool_decide (x = s)) (enum_slots d).
Proof.
  intros [Hlen Hp] Hs Hv. rewrite (rewrite_enum_alter d s v Hv). unfold enum_ok, enum_slots. simpl. rewrite length_alter.
  assert (0 <= v < 2 ^ 32) as Hvr by (destruct s; simplify_eq/=; lia).
  assert (forall n e, s = EnumTupleElement n e -> 0 <= e < 2 ^ 32) as He by (intros n e ->; apply Hs).
  rewrite alter_imap. split; [split; [done|]|].
  - rewrite Forall_lookup in *. intros i x. rewrite list_lookup_imap. destruct (variants d !! i) as [y|] eqn:E; [|done].
    intros [= <-]. case_bool_decide as Hi; [|by eapply Hp].
    apply (rewrite_variant_ok i); [by eapply Hp| |done]. rewrite wrap_small; [rewrite Hv; f_equal; lia|].
    apply lookup_lt_Some in E. lia.
  - rewrite wrap_slots_concat, map_imap, imap_imap. f_equal. apply imap_ext. intros i x Hx. simpl.
    pose proof (lookup_lt_Some _ _ _ Hx) as Hi. case_bool_decide as Hiv.
    + apply (rewrite_variant_ok i); [by eapply Forall_lookup_1| |done].
      rewrite wrap_small by lia. rewrite Hv. f_equal. lia.
    + symmetry. apply wrap_slots_none, Forall_forall. intros st Hst%variant_slots_variant.
      apply bool_decide_eq_false_2. intros Heq. rewrite Heq, Hv, wrap_small in Hst by lia. injection Hst. lia.
Qed.

Lemma enum_slots_variant d st : st ∈ enum_slots d -> is_Some (slot_variant (fst st)).
Proof.
  unfold enum_slots. rewrite list_elem_of_In, in_concat. intros (l & Hl & Hst).
  apply list_elem_of_In, list_elem_of_lookup in Hl as [i Hi]. rewrite list_lookup_imap in Hi.
  destruct (variants d !! i); simplify_eq/=. apply list_elem_of_In, variant_slots_variant in Hst. by eexists.
Qed.

Lemma rewrite_enum_slot_ok d s : enum_ok d -> slot_ok s ->
  enum_ok (rewrite_enum_slot d s)
  /\ enum_slots (rewrite_enum_slot d s) = wrap_slots (fun x => bool_decide (x = s)) (enum_slots d).
Proof.
  intros Hd Hs. destruct (slot_variant s) as [v|] eqn:Hv; [by eapply rewrite_enum_variant_ok|].
  destruct s; try done. split; [done|]. symmetry. apply wrap_slots_none, Forall_forall.
  intros st [v Hst]%enum_slots_variant. apply bool_decide_eq_false_2. intros E. by rewrite E in Hst.
Qed.

Lemma rewrite_enum_ok slots : forall d, enum_ok d -> Forall slot_ok slots ->
  esymbol (rewrite_enum d slots) = esymbol d
  /\ enum_slots (rewrite_enum d slots) = wrap_slots (fun x => bool_decide (x ∈ slots)) (enum_slots d).
Proof.
  induction slots as [|s slots IH]; intros d Hd Hs.
  - split; [done|]. symmetry. apply wrap_slots_none, Forall_true. done.
  - apply Forall_cons in Hs as [Hs Hss]. destruct (rewrite_enum_slot_ok d s Hd Hs) as [Hd' He].
    change (rewrite_enum d (s :: slots)) with (rewrite_enum (rewrite_enum_slot d s) slots).
    destruct (IH _ Hd' Hss) as [Hsym ->]. rewrite Hsym, He, wrap_slots_twice. split; [by destruct s|].
    apply wrap_slots_ext, Forall_true. intros [x ty]. simpl.
    rewrite <- bool_decide_or. apply bool_decide_ext. by rewrite elem_of_cons.
Qed.

(** ** The whole pass *)

Lemma variant_slots_ok i v st : st ∈ variant_slots i v -> slot_ok (fst st).
Proof.
  unfold variant_slots. destruct (vpayload v) as [fs|ts|]; [| |set_solver].
  - rewrite list_elem_of_In, in_map_iff. intros (f & <- & _). by apply wrap_range.
  - rewrite list_elem_of_lookup. intros [k Hk]. rewrite list_lookup_imap in Hk.
    destruct (ts !! k); simplify_eq/=. split; by apply wrap_range.
Qed.

Lemma declares_slot_ok ps a sl st : declares ps a sl -> st ∈ sl -> slot_ok (fst st).
Proof.
  intros [p k d _ _|p k d _ _].
  - unfold struct_slots. rewrite list_elem_of_In, in_map_iff. by intros (f & <- & _).
  - unfold enum_slots. rewrite list_elem_of_In, in_concat. intros (l & Hl & Hst).
    apply list_elem_of_In, list_elem_of_lookup in Hl as [i Hi]. rewrite list_lookup_imap in Hi.
    destruct (variants d !! i); simplify_eq/=. apply list_elem_of_In in Hst. by eapply variant_slots_ok.
Qed.

(** The selection of a set of recorded slots. *)
Definition recorded (h : gmap IRSymbol (list Slot)) (a : IRSymbol) (s : Slot) : bool :=
  bool_decide (s ∈ default [] (h !! a)).

Section Rewrites.
Context (ps : list IRPackage) (h : gmap IRSymbol (list Slot)) (Hok : packages_ok ps).
Hypothesis Hh : forall a s, hit h a s -> slot_ok s.

Lemma rewrite_struct_decl_ok d : fields_ok (sfields d) ->
  ssymbol (rewrite_struct_decl h d) = ssymbol d
  /\ struct_slots (rewrite_struct_decl h d) = wrap_slots (recorded h (ssymbol d)) (struct_slots d).
Proof.
  intros Hd. unfold rewrite_struct_decl, recorded. destruct (h !! ssymbol d) as [slots|]; simpl; [by apply rewrite_struct_ok|].
  split; [done|]. symmetry. apply wrap_slots_none, Forall_true. done.
Qed.

Lemma rewrite_enum_decl_ok d : enum_ok d ->
  esymbol (rewrite_enum_decl h d) = esymbol d
  /\ enum_slots (rewrite_enum_decl h d) = wrap_slots (recorded h (esymbol d)) (enum_slots d).
Proof.
  intros Hd. unfold rewrite_enum_decl, recorded. destruct (h !! esymbol d) as [slots|] eqn:E; simpl.
  - apply rewrite_enum_ok; [done|]. apply Forall_forall. intros s Hs. apply (Hh (esymbol d)).
    unfold hit. by rewrite E.
  - split; [done|]. symmetry. apply wrap_slots_none, Forall_true. done.
Qed.

Lemma rewrites_declare a sl : declares ps a sl -> declares (apply_indirect_rewrites ps h) a (wrap_slots (recorded h a) sl).
Proof.
  intros [p k d Hp Hd|p k d Hp Hd].
  - destruct (rewrite_struct_decl_ok d (ok_fields _ Hok _ _ _ Hp Hd)) as [<- <-].
    apply (declares_struct _ (rewrite_package h p) k); [by apply list_elem_of_In, in_map, list_elem_of_In|].
    simpl. by rewrite lookup_fmap, Hd.
  - destruct (rewrite_enum_decl_ok d (ok_variants _ Hok _ _ _ Hp Hd)) as [<- <-].
    apply (declares_enum _ (rewrite_package h p) k); [by apply list_elem_of_In, in_map, list_elem_of_In|].
    simpl. by rewrite lookup_fmap, Hd.
Qed.

Lemma rewrites_declared a sl' : declares (apply_indirect_rewrites ps h) a sl' ->
  exists sl, declares ps a sl /\ sl' = wrap_slots (recorded h a) sl.
Proof.
  intros [p' k d' Hp Hd|p' k d' Hp Hd]; apply list_elem_of_In, in_map_iff in Hp as (p & <- & Hp%list_elem_of_In);
    simpl in Hd; rewrite lookup_fmap in Hd.
  - destruct (structs p !! k) as [d|] eqn:E; [|done]. injection Hd as <-.
    destruct (rewrite_struct_decl_ok d (ok_fields _ Hok _ _ _ Hp E)) as [-> ->].
    exists (struct_slots d). split; [by eapply declares_struct|done].
  - destruct (enums p !! k) as [d|] eqn:E; [|done]. injection Hd as <-.
    destruct (rewrite_enum_decl_ok d (ok_variants _ Hok _ _ _ Hp E)) as [-> ->].
    exists (enum_slots d). split; [by eapply declares_enum|done].
Qed.

(** What a declaration still holds inline sits in a slot that was not recorded. *)
Lemma rewrites_hold a b : holds (apply_indirect_rewrites ps h) a b ->
  exists sl s ty, declares ps a sl /\ (s, ty) ∈ sl /\ inline b ty /\ ~ hit h a s.
Proof.
  intros (sl' & s & ty' & (sl & Hd & ->)%rewrites_declared & Hs & Hb).
  unfold wrap_slots in Hs. apply list_elem_of_In, in_map_iff in Hs as ([s0 ty] & [= -> <-] & Hs%list_elem_of_In).
  destruct (recorded h a s) eqn:Er; [exfalso; destruct ty; inversion Hb|].
  exists sl, s, ty. split; [done|]. split; [done|]. split; [done|]. by apply bool_decide_eq_false in Er.
Qed.
End Rewrites.

Lemma apply_no_rewrites ps : apply_indirect_rewrites ps ∅ = ps.
Proof.
  unfold apply_indirect_rewrites. rewrite <- (List.map_id ps) at 2. apply map_ext. intros [cs es fs p ss].
  unfold rewrite_package. simpl. f_equal.
  - rewrite <- (map_fmap_id es) at 2. apply map_fmap_ext. intros k d _. unfold rewrite_enum_decl. by rewrite lookup_empty.
  - rewrite <- (map_fmap_id ss) at 2. apply map_fmap_ext. intros k d _. unfold rewrite_struct_decl. by rewrite lookup_empty.
Qed.

Section Correct.
Context (le : IRSymbol -> IRSymbol -> Prop) `{!RelDecision le}.

(** C6: the pass breaks every recursive type and touches nothing else. It always
    finishes; afterwards no declaration holds itself inline, directly or through
    others. Every declaration keeps its slots with their types, except that a slot's
    type is wrapped in [Indirect] when the slot holds a declaration from which its
    own one is reached; a program without recursive types is left as it is. *)
Theorem break_type_cycles_acyclic (ps : list IRPackage) :
  packages_ok ps ->
  exists ps' sel, break_type_cycles le ps = Some ps'
    /\ (forall a, ~ tc (holds ps') a a)
    /\ (forall a sl', declares ps' a sl' <-> exists sl, declares ps a sl /\ sl' = wrap_slots (sel a) sl)
    /\ (forall a s, sel a s = true -> exists sl ty b,
          declares ps a sl /\ (s, ty) ∈ sl /\ inline b ty /\ rtc (holds ps) b a)
    /\ ((forall a, ~ tc (holds ps) a a) -> ps' = ps).
Proof.
  intros Hok. pose proof (fun a b => graph_holds ps a b Hok) as Hg.
  destruct (back_edges_cut_cycles le (edge_ops (collect_edges ps))) as (cut & Hcut & Hclose & Hacy & Hnil).
  destruct (collect_hits_ok (collect_edges ps) cut ∅) as (h & Hh & Hhit).
  { intros a b [Hab _]%Hclose. apply Hg in Hab as (sl & s & ty & Hd & _).
    by rewrite (collect_edges_lookup ps a sl Hok Hd). }
  assert (forall a s, hit h a s <-> exists sl ty b,
    declares ps a sl /\ (s, ty) ∈ sl /\ inline b ty /\ (a, b) ∈ cut) as Hhit'.
  { intros a s. rewrite Hhit. split.
    - intros [Hem|(b & l & e & Hab & Hl & He & <- & <-)]; [unfold hit in Hem; rewrite lookup_empty in Hem; set_solver|].
      apply collect_edges_declared in Hl as (sl & Hd & ->). apply elem_slot_edges in He as (ty & Hs & Ht).
      by exists sl, ty, (target e).
    - intros (sl & ty & b & Hd & Hs & Hb & Hab). right. exists b, (slot_edges sl), (mkEdge b s).
      split; [done|]. split; [by apply collect_edges_lookup|]. split; [|done]. apply elem_slot_edges. by exists ty. }
  assert (forall a s, hit h a s -> slot_ok s) as Hsok
    by (intros a s (sl & ty & b & Hd & Hs & _)%Hhit'; exact (declares_slot_ok _ _ _ _ Hd Hs)).
  exists (apply_indirect_rewrites ps h), (recorded h). split; [|split; [|split; [|split]]].
  - unfold break_type_cycles, back_edge_slots. rewrite Hcut. cbn [mbind option_bind]. rewrite Hh. cbn [mbind option_bind].
    case_bool_decide as E; [by rewrite E, apply_no_rewrites|done].
  - intros a Ha. apply (Hacy a). revert Ha. apply tc_sub. intros x y Hxy.
    destruct (rewrites_hold ps h Hok Hsok x y Hxy) as (sl & s & ty & Hd & Hs & Hb & Hno).
    split; [apply Hg; by exists sl, s, ty|]. intros Hc. apply Hno, Hhit'. by exists sl, ty, y.
  - intros a sl'. split; [by apply rewrites_declared|]. intros (sl & Hd & ->). by apply rewrites_declare.
  - intros a s Hs%bool_decide_eq_true. apply Hhit' in Hs as (sl & ty & b & Hd & Hs & Hb & Hab).
    exists sl, ty, b. do 3 (split; [done|]). apply Hclose in Hab as [_ Hba]. revert Hba. apply rtc_subrel. intros x y. apply Hg.
  - intros Ha. assert (cut = []) as ->.
    { apply Hnil. intros n Hn. apply (Ha n). revert Hn. apply tc_sub. apply Hg. }
    simpl in Hh. injection Hh as <-. apply apply_no_rewrites.
Qed.
End Correct.

(** A list node and an option of it, the mutual recursion of the code's own test. *)
Definition node_decl : IRStructDecl :=
  mkStructDecl [mkStructField 0 TInt64 "value"; mkStructField 1 (TEnum "Option_Node") "next"] "Node".
Definition option_decl : IREnumDecl :=
  mkEnumDecl "Option_Node" [mkVariant "Some" (VPTuple [TStruct "Node"]) 0; mkVariant "None" VPUnit 1].
Definition node_package : IRPackage :=
  mkPackage ∅ {["Option_Node" := option_decl]} ∅ "App" {["Node" := node_decl]}.

Lemma node_declares a sl : declares [node_package] a sl ->
  a = "Node" /\ sl = struct_slots node_decl \/ a = "Option_Node" /\ sl = enum_slots option_decl.
Proof.
  intros [p k d Hp Hd|p k d Hp Hd]; apply list_elem_of_singleton in Hp as ->; simpl in Hd;
    apply lookup_singleton_Some in Hd as [_ <-]; auto.
Qed.

Lemma node_package_ok : packages_ok [node_package].
Proof.
  constructor.
  - intros a sl sl' [[-> ->]|[-> ->]]%node_declares [[? ->]|[? ->]]%node_declares; done.
  - intros p k d Hp Hd. apply list_elem_of_singleton in Hp as ->. simpl in Hd. apply lookup_singleton_Some in Hd as [_ <-].
    unfold fields_ok. simpl. apply NoDup_cons. split; [by rewrite list_elem_of_singleton|apply NoDup_singleton].
  - intros p k d Hp Hd. apply list_elem_of_singleton in Hp as ->. simpl in Hd. apply lookup_singleton_Some in Hd as [_ <-].
    split; [done|]. by repeat constructor.
Qed.

Example node_option_broken :
  break_type_cycles String.le [node_package]
  = Some [mkPackage ∅ {["Option_Node" := mkEnumDecl "Option_Node"
            [mkVariant "Some" (VPTuple [TIndirect (TStruct "Node")]) 0; mkVariant "None" VPUnit 1]]} ∅ "App"
          {["Node" := node_decl]}].
Proof. vm_compute. reflexivity. Qed.

Lemma break_type_cycles_acyclic_witness :
  exists ps' sel, break_type_cycles String.le [node_package] = Some ps'
    /\ (forall a, ~ tc (holds ps') a a)
    /\ (forall a sl', declares ps' a sl' <-> exists sl, declares [node_package] a sl /\ sl' = wrap_slots (sel a) sl)
    /\ (forall a s, sel a s = true -> exists sl ty b,
          declares [node_package] a sl /\ (s, ty) ∈ sl /\ inline b ty /\ rtc (holds [node_package]) b a)
    /\ ((forall a, ~ tc (holds [node_package]) a a) -> ps' = [node_package]).
Proof. apply (break_type_cycles_acyclic String.le [node_package]). exact node_package_ok. Defined.
