(* ===== verification/BuiltOrder.v ===== *)
(** * Startup order of built constants

    Models [koja-ir/src/built_order.rs], the declaration index of
    [koja-ir/src/declarations.rs] and [koja-ir/src/seal/constants.rs]: which constants
    the init of a [Built] constant reaches through the call graph, the order the inits
    run in, the diagnostics of a startup cycle, and the seal's check of a stored order.

    A [BTreeMap] is a [gmap] whose entries are visited in the order [le] of their
    symbols, a panic is [None] and the seal's panics are [false]. Declarations of
    unions are not read here and left out; [span_of] is the argument the code takes,
    and a diagnostic keeps what its message is built from, rendered by [fault_message].

    [startup_order_correct]: the pass always finishes; it gives an order exactly when
    no init needs its own constant, and the order is one the seal accepts. *)

From stdpp Require Import strings gmap.
From S2P Require Import Prelude Graph Types IRValue IRFunction.

#[export] Instance irtype_eq_dec : EqDecision IRType.
Proof.
  hnf. fix go 1. intros a b. unfold Decision.
  decide equality; first [apply String.string_dec | apply List.list_eq_dec; exact go].
Defined.

(** One [Built] constant an init reaches, and the function its read sits in. *)
Record Edge := mkEdge { to : IRSymbol; via : option IRSymbol }.

Record Declarations := mkDeclarations {
  decl_constants : gmap IRSymbol IRConstantValue;
  decl_enums : gmap IRSymbol IREnumDecl;
  decl_functions : gmap IRSymbol IRFunction;
  decl_structs : gmap IRSymbol IRStructDecl }.

Definition no_declarations : Declarations := mkDeclarations ∅ ∅ ∅ ∅.

Record InitGraph := mkInitGraph {
  calls : Graph (K := IRSymbol);
  inits : gmap IRSymbol IRSymbol;
  loads : gmap IRSymbol (list IRSymbol) }.

Record Dependencies := mkDependencies {
  dep_graph : Graph (K := IRSymbol);
  dep_via : gmap (IRSymbol * IRSymbol) IRSymbol }.

(** What a diagnostic of a startup cycle says. *)
Inductive Fault :=
  | SelfCycle (constant : IRSymbol) (hops : list string)
  | WaitsOn (constant blocker : IRSymbol).

Record Diagnostic := mkDiagnostic { fault : Fault; diag_span : Span }.

Fixpoint join (sep : string) (l : list string) : string :=
  match l with [] => "" | [x] => x | x :: l => x +:+ sep +:+ join sep l end.

Definition quoted (s : string) : string := "`" +:+ s +:+ "`".

Definition fault_message (f : Fault) : string :=
  match f with
  | SelfCycle constant hops =>
      "constant " +:+ quoted constant +:+ " depends on itself at startup through " +:+ join ", " hops
  | WaitsOn constant blocker =>
      "constant " +:+ quoted constant +:+ " depends on " +:+ quoted blocker +:+ ", which is in a startup cycle"
  end.

(** The init of a [Built] constant. *)
Definition built_init (v : IRConstantValue) : option IRSymbol :=
  match v with Built init _ => Some init | _ => None end.

Section Order.
Context (le : IRSymbol -> IRSymbol -> Prop) `{!RelDecision le}.

(** The entries of a [BTreeMap]. *)
Definition key_le {A} (a b : IRSymbol * A) : Prop := le a.1 b.1.
#[local] Instance key_le_dec {A} : RelDecision (@key_le A).
Proof. intros a b. unfold key_le. apply _. Defined.

Definition entries {A} (m : gmap IRSymbol A) : list (IRSymbol * A) := merge_sort key_le (map_to_list m).

(** ** The declaration index *)

Fixpoint index_unique {A} (index : gmap IRSymbol A) (declarations : list (IRSymbol * A))
    : option (gmap IRSymbol A) :=
  match declarations with
  | [] => Some index
  | (symbol, declaration) :: rest =>
      match index !! symbol with
      | Some _ => None
      | None => index_unique (<[symbol := declaration]> index) rest
      end
  end.

Definition index_package (d : Declarations) (p : IRPackage) : option Declarations :=
  cs ← index_unique (decl_constants d) (entries (constants p));
  es ← index_unique (decl_enums d) (entries (enums p));
  fs ← index_unique (decl_functions d) (entries (functions p));
  ss ← index_unique (decl_structs d) (entries (structs p));
  Some (mkDeclarations cs es fs ss).

Fixpoint index_packages (d : Declarations) (ps : list IRPackage) : option Declarations :=
  match ps with
  | [] => Some d
  | p :: ps => d ← index_package d p; index_packages d ps
  end.

Definition declarations_new (ps : list IRPackage) : option Declarations := index_packages no_declarations ps.

(** ** The call graph of the inits *)

Definition add_call (caller callee : IRSymbol) (g : InitGraph) : InitGraph :=
  mkInitGraph (add_edge caller callee (calls g)) (inits g) (loads g).

Definition add_load (caller constant : IRSymbol) (g : InitGraph) : InitGraph :=
  mkInitGraph (calls g) (inits g) (<[caller := default [] (loads g !! caller) ++ [constant]]> (loads g)).

Definition index_instruction (caller : IRSymbol) (g : InitGraph) (i : IRInstruction) : InitGraph :=
  match i with
  | Call _ callee _ => add_call caller callee g
  | LoadConst const_id _ _ => match inits g !! const_id with Some _ => add_load caller const_id g | None => g end
  | MakeClosure body _ _ _ => add_call caller body g
  | _ => g
  end.

Definition index_terminator (caller : IRSymbol) (t : IRTerminator) (g : InitGraph) : InitGraph :=
  match t with TailCall _ callee => add_call caller callee g | _ => g end.

Definition index_block (caller : IRSymbol) (g : InitGraph) (b : IRBasicBlock) : InitGraph :=
  index_terminator caller (terminator b) (fold_left (index_instruction caller) (instructions b) g).

Definition index_function (g : InitGraph) (f : IRFunction) : InitGraph :=
  fold_left (index_block (symbol f)) (blocks f)
    (mkInitGraph (add_node (symbol f) (calls g)) (inits g) (loads g)).

Definition init_graph_new (d : Declarations) : InitGraph :=
  fold_left index_function (map snd (entries (decl_functions d)))
    (mkInitGraph graph_new (omap built_init (decl_constants d)) ∅).

(** The loops of [reaches]: [seen] and the edges so far. *)
Definition push_reached (init function : IRSymbol) (st : gset IRSymbol * list Edge) (constant : IRSymbol)
    : gset IRSymbol * list Edge :=
  let '(seen, edges) := st in
  if bool_decide (constant ∈ seen) then st
  else ({[constant]} ∪ seen,
        edges ++ [mkEdge constant (if bool_decide (function <> init) then Some function else None)]).

Definition push_function (g : InitGraph) (init : IRSymbol) (st : gset IRSymbol * list Edge) (function : IRSymbol)
    : gset IRSymbol * list Edge :=
  fold_left (push_reached init function) (default [] (loads g !! function)) st.

Definition reaches (g : InitGraph) (init : IRSymbol) : option (list Edge) :=
  functions ← reachable le (calls g) init;
  Some (fold_left (push_function g init) functions (∅, [])).2.

Definition reached_constants (g : InitGraph) (init : IRSymbol) : option (list IRSymbol) :=
  edges ← reaches g init; Some (map to edges).

(** ** Dependencies between constants *)

Definition add_dependency (constant : IRSymbol) (d : Dependencies) (e : Edge) : Dependencies :=
  mkDependencies (add_edge constant (to e) (dep_graph d))
    (match via e with Some f => <[(constant, to e) := f]> (dep_via d) | None => dep_via d end).

Fixpoint add_dependencies (g : InitGraph) (cs : list (IRSymbol * IRSymbol)) (d : Dependencies) : option Dependencies :=
  match cs with
  | [] => Some d
  | (constant, init) :: cs =>
      edges ← reaches g init;
      add_dependencies g cs (fold_left (add_dependency constant) edges
        (mkDependencies (add_node constant (dep_graph d)) (dep_via d)))
  end.

Definition dependencies_new (g : InitGraph) : option Dependencies :=
  add_dependencies g (entries (inits g)) (mkDependencies graph_new ∅).

(** The loop of [hops] over the path and the return to [constant]. *)
Fixpoint hop_list (d : Dependencies) (constant from : IRSymbol) (path : list IRSymbol) : list string :=
  match path with
  | [] => []
  | next :: path =>
      match dep_via d !! (from, next) with Some function => [quoted function] | None => [] end
      ++ (if bool_decide (next <> constant) then [quoted next] else [])
      ++ hop_list d constant next path
  end.

Definition hops (d : Dependencies) (constant : IRSymbol) (path : list IRSymbol) : list string :=
  hop_list d constant constant (path ++ [constant]).

Definition diagnose_stuck (constant : IRSymbol) (d : Dependencies) (stuck : gset IRSymbol)
    (span_of : IRSymbol -> Span) : option Diagnostic :=
  found ← cycle_path (dep_graph d) constant stuck;
  match found with
  | Some path => Some (mkDiagnostic (SelfCycle constant (hops d constant path)) (span_of constant))
  | None =>
      blocker ← head (List.filter (fun target => bool_decide (target ∈ stuck)) (dependencies (dep_graph d) constant));
      Some (mkDiagnostic (WaitsOn constant blocker) (span_of constant))
  end.

Fixpoint diagnose_all (cs : list IRSymbol) (d : Dependencies) (stuck : gset IRSymbol)
    (span_of : IRSymbol -> Span) : option (list Diagnostic) :=
  match cs with
  | [] => Some []
  | c :: cs => x ← diagnose_stuck c d stuck span_of; xs ← diagnose_all cs d stuck span_of; Some (x :: xs)
  end.

Definition built_constant_order (ps : list IRPackage) (span_of : IRSymbol -> Span)
    : option (list IRSymbol + list Diagnostic) :=
  declarations ← declarations_new ps;
  d ← dependencies_new (init_graph_new declarations);
  order ← toposort le (dep_graph d);
  match stuck order with
  | [] => Some (inl (order_ready order))
  | _ =>
      let stuck : gset IRSymbol := list_to_set (stuck order) in
      diagnostics ← diagnose_all (merge_sort le (elements stuck)) d stuck span_of;
      Some (inr diagnostics)
  end.

(** ** The seal *)

Definition seal_init (d : Declarations) (v : IRConstantValue) : bool :=
  match v with
  | Built init ty =>
      match decl_functions d !! init with
      | Some function =>
          match kind function with Regular => true | _ => false end
          && match params function with [] => true | _ => false end
          && bool_decide (return_type function = ty)
      | None => false
      end
  | _ => true
  end.

(** The positions of the listed symbols; [None] is one of the two panics. *)
Fixpoint seal_positions (built : gmap IRSymbol IRSymbol) (index : nat) (order : list IRSymbol)
    (position : gmap IRSymbol nat) : option (gmap IRSymbol nat) :=
  match order with
  | [] => Some position
  | symbol :: order =>
      match built !! symbol, position !! symbol with
      | Some _, None => seal_positions built (S index) order (<[symbol := index]> position)
      | _, _ => None
      end
  end.

Definition seal_entry (g : InitGraph) (position : gmap IRSymbol nat) (e : IRSymbol * IRSymbol) : bool :=
  match position !! e.1, reached_constants g e.2 with
  | Some own, Some reached =>
      forallb (fun c => match position !! c with Some before => (before <? own)%nat | None => false end) reached
  | _, _ => false
  end.

Definition seal_built_constants (d : Declarations) (order : list IRSymbol) : bool :=
  forallb (fun e => seal_init d e.2) (entries (decl_constants d))
  && match seal_positions (omap built_init (decl_constants d)) 0 order ∅ with
     | Some position => forallb (seal_entry (init_graph_new d) position) (entries (omap built_init (decl_constants d)))
     | None => false
     end.
End Order.

(** ** What the functions of a program may do *)

Definition instruction_calls (i : IRInstruction) (b : IRSymbol) : Prop :=
  match i with Call _ c _ => c = b | MakeClosure c _ _ _ => c = b | _ => False end.

Definition terminator_calls (t : IRTerminator) (b : IRSymbol) : Prop :=
  match t with TailCall _ c => c = b | _ => False end.

Definition function_calls (f : IRFunction) (b : IRSymbol) : Prop :=
  exists blk, blk ∈ blocks f
    /\ ((exists i, i ∈ instructions blk /\ instruction_calls i b) \/ terminator_calls (terminator blk) b).

Definition function_loads (f : IRFunction) (c : IRSymbol) : Prop :=
  exists blk dest ty, blk ∈ blocks f /\ LoadConst c dest ty ∈ instructions blk.

(** A declared function [a] may run [b]: by a call, as a closure or by a tail call. *)
Definition may_call (d : Declarations) (a b : IRSymbol) : Prop :=
  exists k f, decl_functions d !! k = Some f /\ symbol f = a /\ function_calls f b.

Definition built (d : Declarations) (c : IRSymbol) : Prop :=
  exists init ty, decl_constants d !! c = Some (Built init ty).

(** The init of [c] may load the built constant [c']. *)
Definition needs (d : Declarations) (c c' : IRSymbol) : Prop :=
  exists init ty k f, decl_constants d !! c = Some (Built init ty) /\ built d c'
    /\ rtc (may_call d) init (symbol f) /\ decl_functions d !! k = Some f /\ function_loads f c'.

(** A startup order: every built constant once, after all its init needs. *)
Record startup_order (d : Declarations) (order : list IRSymbol) : Prop := {
  so_once : NoDup order;
  so_all : forall c, c ∈ order <-> built d c;
  so_after : forall l1 c l2, order = l1 ++ c :: l2 -> forall c', needs d c c' -> c' ∈ l1 }.

(** Every init is a regular function without parameters of the constant's type. *)
Definition inits_ok (d : Declarations) : Prop :=
  forall c init ty, decl_constants d !! c = Some (Built init ty) ->
    exists f, decl_functions d !! init = Some f /\ kind f = Regular /\ params f = [] /\ return_type f = ty.

(** ** The call graph *)

Definition loaded (g : InitGraph) (a : IRSymbol) : list IRSymbol := default [] (loads g !! a).

Definition buildable (g : Graph (K := IRSymbol)) : Prop := exists ops, g = build ops.

Lemma buildable_new : buildable graph_new.
Proof. by exists []. Qed.

Lemma buildable_node n g : buildable g -> buildable (add_node n g).
Proof. intros [ops ->]. exists (ops ++ [AddNode n]). unfold build. by rewrite fold_left_app. Qed.

Lemma buildable_edge a b g : buildable g -> buildable (add_edge a b g).
Proof. intros [ops ->]. exists (ops ++ [AddEdge a b]). unfold build. by rewrite fold_left_app. Qed.

(** From [g] to [g'] the calls [C] and the loads [L] are added, nothing else. *)
Record adds (C L : relation IRSymbol) (g g' : InitGraph) : Prop := {
  adds_inits : inits g' = inits g;
  adds_build : buildable (calls g) -> buildable (calls g');
  adds_calls : forall a b, edge (calls g') a b <-> edge (calls g) a b \/ C a b;
  adds_loads : forall a c, c ∈ loaded g' a <-> c ∈ loaded g a \/ L a c }.

Lemma adds_none g : adds (fun _ _ => False) (fun _ _ => False) g g.
Proof. constructor; tauto. Qed.

Lemma adds_ext (C C' L L' : relation IRSymbol) g g' :
  (forall a b, C a b <-> C' a b) -> (forall a b, L a b <-> L' a b) -> adds C L g g' -> adds C' L' g g'.
Proof. intros HC HL [? ? Hc Hl]. constructor; [done|done|intros; by rewrite Hc, HC|intros; by rewrite Hl, HL]. Qed.

Lemma adds_trans C L C' L' g g' g'' : adds C L g g' -> adds C' L' g' g'' ->
  adds (fun a b => C a b \/ C' a b) (fun a b => L a b \/ L' a b) g g''.
Proof.
  intros [Hi Hb Hc Hl] [Hi' Hb' Hc' Hl']. constructor; [congruence|auto| |]; intros.
  - rewrite Hc', Hc. tauto.
  - rewrite Hl', Hl. tauto.
Qed.

Lemma adds_fold {X} (f : InitGraph -> X -> InitGraph) (C L : X -> relation IRSymbol) I xs : forall g,
  (forall g x, inits g = I -> adds (C x) (L x) g (f g x)) -> inits g = I ->
  adds (fun a b => exists x, x ∈ xs /\ C x a b) (fun a b => exists x, x ∈ xs /\ L x a b) g (fold_left f xs g).
Proof.
  induction xs as [|x xs IH]; intros g Hf Hg; simpl.
  - eapply adds_ext, adds_none; set_solver.
  - pose proof (Hf g x Hg) as Hx. eapply adds_ext; [| |eapply adds_trans; [exact Hx|apply IH; [exact Hf|]]].
    + intros a b. setoid_rewrite elem_of_cons. naive_solver.
    + intros a b. setoid_rewrite elem_of_cons. naive_solver.
    + by rewrite (adds_inits _ _ _ _ Hx).
Qed.

Lemma add_call_adds caller b g :
  adds (fun x y => x = caller /\ b = y) (fun _ _ => False) g (add_call caller b g).
Proof.
  constructor; simpl; [done|apply buildable_edge| |tauto]. intros x y. rewrite add_edge_edge. naive_solver.
Qed.

Lemma add_load_adds caller c g :
  adds (fun _ _ => False) (fun x y => x = caller /\ c = y) g (add_load caller c g).
Proof.
  constructor; simpl; [done|done|tauto|]. intros x y. unfold loaded. simpl.
  destruct (decide (caller = x)) as [<-|Hne]; [rewrite lookup_insert_eq; simpl; set_solver|].
  rewrite lookup_insert_ne by done. naive_solver.
Qed.

Definition loads_here (I : gmap IRSymbol IRSymbol) (i : IRInstruction) (c : IRSymbol) : Prop :=
  match i with LoadConst x _ _ => x = c /\ is_Some (I !! c) | _ => False end.

Lemma index_instruction_adds caller i g :
  adds (fun x b => x = caller /\ instruction_calls i b) (fun x c => x = caller /\ loads_here (inits g) i c)
    g (index_instruction caller g i).
Proof.
  destruct i; cbn [index_instruction instruction_calls loads_here];
    try (eapply adds_ext, adds_none; tauto); try (eapply adds_ext, add_call_adds; tauto).
  destruct (inits g !! const_id) eqn:E.
  - eapply adds_ext, add_load_adds; [tauto|]. intros x c. naive_solver.
  - eapply adds_ext, adds_none; [tauto|]. intros x c. split; [done|]. intros (_ & <- & Hs). by destruct Hs; congruence.
Qed.

Lemma index_terminator_adds caller t g :
  adds (fun x b => x = caller /\ terminator_calls t b) (fun _ _ => False) g (index_terminator caller t g).
Proof.
  destruct t; simpl; try (eapply adds_ext, adds_none; tauto). eapply adds_ext, add_call_adds; tauto.
Qed.

Lemma index_block_adds caller blk g :
  adds (fun x b => x = caller
          /\ ((exists i, i ∈ instructions blk /\ instruction_calls i b) \/ terminator_calls (terminator blk) b))
       (fun x c => x = caller /\ exists i, i ∈ instructions blk /\ loads_here (inits g) i c)
    g (index_block caller g blk).
Proof.
  unfold index_block.
  eapply adds_ext; [| |eapply adds_trans;
    [apply (adds_fold (index_instruction caller) (fun i x b => x = caller /\ instruction_calls i b)
              (fun i x c => x = caller /\ loads_here (inits g) i c) (inits g)); [|done]
    |apply index_terminator_adds]]; [naive_solver|naive_solver|].
  intros g' i Hg. rewrite <- Hg. apply index_instruction_adds.
Qed.

Lemma add_node_adds n g :
  adds (fun _ _ => False) (fun _ _ => False) g (mkInitGraph (add_node n (calls g)) (inits g) (loads g)).
Proof. constructor; simpl; [done|apply buildable_node| |tauto]. intros a b. rewrite add_node_edge. tauto. Qed.

Lemma index_function_adds f g :
  adds (fun x b => x = symbol f /\ function_calls f b)
       (fun x c => x = symbol f /\ function_loads f c /\ is_Some (inits g !! c)) g (index_function g f).
Proof.
  unfold index_function. eapply adds_ext; [| |eapply adds_trans; [apply add_node_adds|
    apply (adds_fold (index_block (symbol f))
      (fun blk x b => x = symbol f
          /\ ((exists i, i ∈ instructions blk /\ instruction_calls i b) \/ terminator_calls (terminator blk) b))
      (fun blk x c => x = symbol f /\ exists i, i ∈ instructions blk /\ loads_here (inits g) i c) (inits g)); [|done]]].
  - intros a b. unfold function_calls. naive_solver.
  - intros a c. unfold function_loads. split.
    + intros [?|(blk & Hb & -> & i & Hi & Hl)]; [done|]. split; [done|].
      destruct i; try done. destruct Hl as [<- Hs]. eauto 8.
    + intros (-> & (blk & dest & ty & Hb & Hi) & Hs). right. exists blk. split; [done|]. split; [done|].
      by exists (LoadConst c dest ty).
  - intros g' blk Hg. rewrite <- Hg. apply index_block_adds.
Qed.

Section Graph_of.
Context (le : IRSymbol -> IRSymbol -> Prop) `{!RelDecision le} (d : Declarations).

Lemma elem_entries {A} (m : gmap IRSymbol A) k v : (k, v) ∈ entries le m <-> m !! k = Some v.
Proof. unfold entries. by rewrite merge_sort_Permutation, elem_of_map_to_list. Qed.

Lemma entries_keys {A} (m : gmap IRSymbol A) : NoDup (map fst (entries le m)).
Proof. unfold entries. rewrite merge_sort_Permutation. apply NoDup_fst_map_to_list. Qed.

Lemma built_inits c : is_Some (omap built_init (decl_constants d) !! c) <-> built d c.
Proof.
  unfold built. rewrite lookup_omap. destruct (decl_constants d !! c) as [[]|]; simpl; split;
    try (intros [? ?]; naive_solver); naive_solver.
Qed.

Lemma init_graph_spec : let g := init_graph_new le d in
  inits g = omap built_init (decl_constants d) /\ buildable (calls g)
  /\ (forall a b, edge (calls g) a b <-> may_call d a b)
  /\ (forall a c, c ∈ loaded g a <-> built d c /\ exists k f, decl_functions d !! k = Some f /\ symbol f = a /\ function_loads f c).
Proof.
  simpl. unfold init_graph_new. set (g0 := mkInitGraph _ _ _).
  assert (forall f, f ∈ map snd (entries le (decl_functions d)) <-> exists k, decl_functions d !! k = Some f) as Hf.
  { intros f. rewrite list_elem_of_In, in_map_iff. setoid_rewrite <- list_elem_of_In. split.
    - intros ([k f'] & <- & Hin%elem_entries). by exists k.
    - intros [k Hk]. exists (k, f). by rewrite elem_entries. }
  edestruct (adds_fold index_function (fun f x b => x = symbol f /\ function_calls f b)
       (fun f x c => x = symbol f /\ function_loads f c /\ is_Some (inits g0 !! c)) (inits g0)
       (map snd (entries le (decl_functions d))) g0) as [Hi Hb Hc Hl]; [|done|].
  { intros g f Hg. rewrite <- Hg. apply index_function_adds. }
  split; [done|]. split; [apply Hb, buildable_new|]. split.
  - intros a b. rewrite Hc. unfold may_call. setoid_rewrite Hf. unfold edge, dependencies, g0; simpl.
    rewrite lookup_empty. simpl. set_solver.
  - intros a c. rewrite Hl. setoid_rewrite Hf. unfold loaded, g0; simpl. rewrite lookup_empty, <- built_inits. simpl. set_solver.
Qed.

(** ** Reached constants *)

Lemma push_reached_ok init f cs : forall seen es,
  (forall c, c ∈ seen <-> c ∈ map to es) -> NoDup (map to es) ->
  let r := fold_left (push_reached init f) cs (seen, es) in
  (forall c, c ∈ r.1 <-> c ∈ map to r.2) /\ NoDup (map to r.2)
  /\ (forall c, c ∈ map to r.2 <-> c ∈ map to es \/ c ∈ cs).
Proof.
  induction cs as [|c cs IH]; intros seen es Hs Hn; simpl; [set_solver|].
  case_bool_decide as Hc.
  - destruct (IH seen es Hs Hn) as (H1 & H2 & H3). split; [done|]. split; [done|].
    intros x. rewrite H3, elem_of_cons. rewrite Hs in Hc. naive_solver.
  - rewrite Hs in Hc. edestruct (IH ({[c]} ∪ seen) (es ++ [mkEdge c (if bool_decide (f <> init) then Some f else None)]))
      as (H1 & H2 & H3).
    + intros x. rewrite map_app. simpl. rewrite elem_of_app, list_elem_of_singleton. set_solver.
    + rewrite map_app. simpl. apply NoDup_app. split; [done|]. split; [set_solver|apply NoDup_singleton].
    + split; [done|]. split; [done|]. intros x. rewrite H3, map_app. simpl. set_solver.
Qed.

Lemma push_functions_ok g init fs : forall seen es,
  (forall c, c ∈ seen <-> c ∈ map to es) -> NoDup (map to es) ->
  let r := fold_left (push_function g init) fs (seen, es) in
  NoDup (map to r.2) /\ (forall c, c ∈ map to r.2 <-> c ∈ map to es \/ exists f, f ∈ fs /\ c ∈ loaded g f).
Proof.
  induction fs as [|f fs IH]; intros seen es Hs Hn; simpl; [set_solver|].
  destruct (push_reached_ok init f (loaded g f) seen es Hs Hn) as (H1 & H2 & H3).
  change (push_function g init (seen, es) f) with (fold_left (push_reached init f) (loaded g f) (seen, es)).
  destruct (fold_left _ (loaded g f) _) as [seen' es']. simpl in *.
  destruct (IH seen' es' H1 H2) as [H4 H5]. split; [done|]. intros c. rewrite H5, H3. set_solver.
Qed.

Lemma reaches_spec init : exists es, reaches le (init_graph_new le d) init = Some es /\
  forall c, c ∈ map to es <-> built d c /\ exists k f,
    decl_functions d !! k = Some f /\ rtc (may_call d) init (symbol f) /\ function_loads f c.
Proof.
  destruct init_graph_spec as (_ & [ops Hops] & Hc & Hl). set (g := init_graph_new le d) in *.
  destruct (reachable_exact le ops init) as (fs & Hfs & _ & _ & Hin).
  unfold reaches. rewrite Hops, Hfs. cbn [mbind option_bind]. eexists. split; [done|].
  destruct (push_functions_ok g init fs ∅ []) as [_ H]; [set_solver|apply NoDup_nil_2|].
  intros c. rewrite H. setoid_rewrite Hin. setoid_rewrite Hl.
  assert (forall a b, rtc (edge (build ops)) a b <-> rtc (may_call d) a b) as Hr.
  { rewrite <- Hops. intros a b. split; apply rtc_subrel; intros x y; by apply Hc. }
  setoid_rewrite Hr. set_solver.
Qed.

(** ** Dependencies *)

Lemma reaches_needs c init ty es : decl_constants d !! c = Some (Built init ty) ->
  reaches le (init_graph_new le d) init = Some es -> forall c', c' ∈ map to es <-> needs d c c'.
Proof.
  intros Hc Hes c'. destruct (reaches_spec init) as (es' & Hes' & H). simplify_eq. rewrite H. unfold needs. split.
  - intros (Hb & k & f & Hf & Hr & Hl). exists init, ty, k, f. auto.
  - intros (init' & ty' & k & f & Hc' & Hb & Hr & Hf & Hl). simplify_eq. eauto 6.
Qed.

Lemma add_dependency_edges c es : forall x,
  let r := fold_left (add_dependency c) es x in
  (buildable (dep_graph x) -> buildable (dep_graph r))
  /\ (forall a b, edge (dep_graph r) a b <-> edge (dep_graph x) a b \/ (a = c /\ b ∈ map to es))
  /\ (forall a, a ∈ nodes le (dep_graph r) <->
        a ∈ nodes le (dep_graph x) \/ a ∈ map to es \/ (a = c /\ es <> [])).
Proof.
  induction es as [|e es IH]; intros x; simpl; [set_solver|].
  destruct (IH (add_dependency c x e)) as (H1 & H2 & H3). simpl in *. split; [|split].
  - intros Hb. apply H1, buildable_edge, Hb.
  - intros a b. rewrite H2, add_edge_edge. set_solver.
  - intros a. rewrite H3, !elem_nodes, add_edge_nodes, elem_of_cons. naive_solver.
Qed.

Lemma add_dependencies_ok cs : forall x,
  (forall c init, (c, init) ∈ cs -> exists ty, decl_constants d !! c = Some (Built init ty)) ->
  exists r, add_dependencies le (init_graph_new le d) cs x = Some r
  /\ (buildable (dep_graph x) -> buildable (dep_graph r))
  /\ (forall a b, edge (dep_graph r) a b <-> edge (dep_graph x) a b \/ (a ∈ map fst cs /\ needs d a b))
  /\ (forall a, a ∈ nodes le (dep_graph r) <-> a ∈ nodes le (dep_graph x) \/ a ∈ map fst cs \/
        exists c, c ∈ map fst cs /\ needs d c a).
Proof.
  induction cs as [|[c init] cs IH]; intros x Hcs; cbn [add_dependencies map].
  { exists x. split; [done|]. set_solver. }
  destruct (Hcs c init) as [ty Hc]; [by left|]. destruct (reaches_spec init) as (es & Hes & _).
  rewrite Hes. cbn [mbind option_bind]. pose proof (reaches_needs c init ty es Hc Hes) as Hn.
  destruct (add_dependency_edges c es (mkDependencies (add_node c (dep_graph x)) (dep_via x))) as (H1 & H2 & H3).
  set (y := fold_left _ es _) in *. destruct (IH y) as (r & Hr & Hb & He & Hd); [intros; apply Hcs; by right|].
  exists r. split; [done|]. cbn [dep_graph] in *. split; [|split].
  - intros Hx. apply Hb, H1, buildable_node, Hx.
  - intros a b. rewrite He, H2, add_node_edge, elem_of_cons. setoid_rewrite Hn. simpl. naive_solver.
  - intros a. rewrite Hd, H3, Hn, !elem_nodes, add_node_nodes. setoid_rewrite elem_of_cons. simpl. naive_solver.
Qed.

Lemma dependencies_spec : exists r ops, dependencies_new le (init_graph_new le d) = Some r
  /\ dep_graph r = build ops /\ (forall a b, edge (build ops) a b <-> needs d a b)
  /\ (forall a, a ∈ nodes le (build ops) <-> built d a).
Proof.
  destruct init_graph_spec as (Hi & _). unfold dependencies_new. rewrite Hi.
  assert (forall c, c ∈ map fst (entries le (omap built_init (decl_constants d))) <-> built d c) as Hk.
  { intros c. rewrite <- built_inits, list_elem_of_In, in_map_iff. setoid_rewrite <- list_elem_of_In. split.
    - intros ([k x] & <- & Hin%elem_entries). by exists x.
    - intros [x Hx]. exists (c, x). by rewrite elem_entries. }
  destruct (add_dependencies_ok (entries le (omap built_init (decl_constants d))) (mkDependencies graph_new ∅))
    as (r & Hr & Hb & He & Hn).
  { intros c init Hin%elem_entries. rewrite lookup_omap in Hin.
    destruct (decl_constants d !! c) as [[]|]; simplify_eq/=. eauto. }
  destruct (Hb buildable_new) as [ops Hops]. exists r, ops. rewrite <- Hops. split; [done|]. split; [done|].
  assert (forall a b, needs d a b -> built d a /\ built d b) as Hnb 
    by (intros a b (i & ty & k & f & Hc & Hb' & _); split; [by exists i, ty|done]).
  split.
  - intros a b. rewrite He, Hk. unfold edge, dependencies. simpl. rewrite lookup_empty. set_solver.
  - intros a. rewrite Hn, Hk, elem_nodes. simpl. setoid_rewrite Hk. rewrite lookup_empty.
    split; [intros [[? ?]|[?|(c & _ & [_ ?]%Hnb)]]; done|tauto].
Qed.

(** ** Diagnostics *)

(** [l] leads from [a] to [b] by needs. *)
Fixpoint need_path (a : IRSymbol) (l : list IRSymbol) (b : IRSymbol) : Prop :=
  match l with [] => needs d a b | x :: l => needs d a x /\ need_path x l b end.

(** [c] can not be built: it needs a constant that needs itself. *)
Definition stranded (c : IRSymbol) : Prop := exists m, rtc (needs d) c m /\ tc (needs d) m m.

(** What the diagnostic of a stranded constant tells. *)
Definition tells (span_of : IRSymbol -> Span) (c : IRSymbol) (x : Diagnostic) : Prop :=
  diag_span x = span_of c /\
  match fault x with
  | SelfCycle c' named => c' = c /\ exists path, need_path c path c /\ NoDup path /\ forall y, y ∈ path -> quoted y ∈ named
  | WaitsOn c' b => c' = c /\ ~ tc (needs d) c c /\ needs d c b /\ stranded b
  end.

Lemma need_path_leads g a l b : (forall x y, edge g x y <-> needs d x y) -> need_path a l b <-> leads g a l b.
Proof. intros Hg. revert a. induction l as [|x l IH]; intros a; simpl; by rewrite Hg, ?IH. Qed.

Lemma cycle_need_path a b : tc (needs d) a b ->
  exists l, need_path a l b /\ forall x, x ∈ l -> tc (needs d) a x /\ tc (needs d) x b.
Proof.
  induction 1 as [a b H|a x b H Hxb (l & Hl & Hin)].
  - exists []. set_solver.
  - exists (x :: l). split; [done|]. intros y [->|Hy]%elem_of_cons; [split; [by apply tc_once|done]|].
    destruct (Hin y Hy) as [? ?]. split; [by eapply tc_l|done].
Qed.

Lemma stranded_next c : stranded c -> exists b, needs d c b /\ stranded b.
Proof.
  intros (m & Hcm & Hm). apply rtc_inv in Hcm as [->|(b & Hcb & Hbm)]; [|exists b; split; [done|by exists m]].
  assert (exists b, needs d m b /\ rtc (needs d) b m) as (b & Hb & Hr).
  { inversion Hm as [? Hb|? e ? Hb He]; subst; [by exists m|]. exists e. split; [done|by apply tc_rtc]. }
  exists b. split; [done|]. by exists m.
Qed.

Lemma hop_list_names r c path : forall from x, x ∈ path -> x <> c -> quoted x ∈ hop_list r c from path.
Proof.
  induction path as [|y path IH]; intros from x Hx Hne; simpl; [set_solver|]. rewrite !elem_of_app.
  apply elem_of_cons in Hx as [->|Hx]; [|right; right; by apply IH].
  right. left. rewrite bool_decide_eq_true_2 by done. by left.
Qed.

Lemma diagnose_stuck_tells r ops (stuck : gset IRSymbol) span_of c :
  dep_graph r = build ops -> (forall a b, edge (build ops) a b <-> needs d a b) ->
  (forall x, x ∈ stuck <-> stranded x) -> c ∈ stuck ->
  exists x, diagnose_stuck c r stuck span_of = Some x /\ tells span_of c x.
Proof.
  intros Hr He Hs Hc. unfold diagnose_stuck. rewrite Hr.
  pose proof (cycle_path_exact ops c stuck) as Hp. destruct (cycle_path (build ops) c stuck) as [[path|]|]; [| |done];
    cbn [mbind option_bind].
  - destruct Hp as (Hl & Hnd & Hin). eexists. split; [done|]. split; [done|]. simpl. split; [done|].
    exists path. split; [by eapply need_path_leads|]. split; [done|]. intros y Hy.
    apply hop_list_names; [set_solver|by apply Hin].
  - assert (~ tc (needs d) c c) as Hno.
    { intros (l & Hl & Hin)%cycle_need_path. apply Hp. exists l. split; [by eapply need_path_leads|].
      intros x Hx. apply Hs. exists x. split; [done|]. destruct (Hin x Hx). by eapply tc_transitive. }
    destruct (stranded_next c) as (b & Hb & Hsb); [by apply Hs|].
    set (l := List.filter _ _). assert (b ∈ l) as Hbl.
    { apply filterb_elem. split; [by apply He|]. by apply bool_decide_eq_true, Hs. }
    destruct l as [|b' l'] eqn:E; [by apply not_elem_of_nil in Hbl|]. simpl. eexists. split; [done|].
    split; [done|]. simpl. split; [done|]. split; [done|].
    assert (b' ∈ l) as Hb' by (rewrite E; by left). apply filterb_elem in Hb' as [Hb1 Hb2%bool_decide_eq_true].
    split; [by apply He|by apply Hs].
Qed.

Lemma diagnose_all_tells r ops (stuck : gset IRSymbol) span_of cs :
  dep_graph r = build ops -> (forall a b, edge (build ops) a b <-> needs d a b) ->
  (forall x, x ∈ stuck <-> stranded x) -> (forall c, c ∈ cs -> c ∈ stuck) ->
  exists xs, diagnose_all cs r stuck span_of = Some xs /\ Forall2 (tells span_of) cs xs.
Proof.
  intros Hr He Hs. induction cs as [|c cs IH]; intros Hcs; simpl; [by exists []|].
  destruct (diagnose_stuck_tells r ops stuck span_of c Hr He Hs) as (x & -> & Hx); [by apply Hcs; left|].
  destruct IH as (xs & -> & Hxs); [intros; apply Hcs; by right|]. simpl. exists (x :: xs). split; [done|by constructor].
Qed.
End Graph_of.

(** ** The seal accepts exactly the startup orders *)

Lemma seal_positions_ok b order : forall index position,
  (forall c, c ∈ order -> is_Some (b !! c) /\ position !! c = None) -> NoDup order ->
  exists p, seal_positions b index order position = Some p
    /\ forall c n, p !! c = Some n <-> position !! c = Some n \/ exists i, order !! i = Some c /\ n = (index + i)%nat.
Proof.
  induction order as [|s order IH]; intros index position Ho Hn; simpl.
  { exists position. split; [done|]. set_solver. }
  apply NoDup_cons in Hn as [Hs Hn]. destruct (Ho s) as [[x ->] ->]; [by left|].
  destruct (IH (S index) (<[s := index]> position)) as (p & -> & Hp); [|done|].
  { intros c Hc. rewrite lookup_insert_ne by congruence. apply Ho. by right. }
  exists p. split; [done|]. intros c n. rewrite Hp, lookup_insert_Some. split.
  - intros [[[<- <-]|[_ H]]|(i & Hi & ->)]; [right; exists 0%nat; split; [done|lia]|by left|].
    right. exists (S i). split; [done|lia].
  - intros [H|([|i] & Hi & ->)].
    + left. right. split; [|done]. intros ->. destruct (Ho c) as [_ ?]; [by left|congruence].
    + simpl in Hi. simplify_eq. left. left. split; [done|lia].
    + right. exists i. split; [done|lia].
Qed.

Lemma seal_positions_inv b order : forall index position p, seal_positions b index order position = Some p ->
  (forall c, c ∈ order -> is_Some (b !! c) /\ position !! c = None) /\ NoDup order.
Proof.
  induction order as [|s order IH]; intros index position p H; simpl in H; [split; [set_solver|apply NoDup_nil_2]|].
  destruct (b !! s) as [x|] eqn:Hb; [|done]. destruct (position !! s) eqn:Hp; [done|].
  destruct (IH _ _ _ H) as [Ho Hn].
  assert (s ∉ order) as Hs by (intros Hs; destruct (Ho s Hs) as [_ E]; by rewrite lookup_insert_eq in E).
  split; [|by apply NoDup_cons]. intros c [->|Hc]%elem_of_cons; [by rewrite Hb|].
  destruct (Ho c Hc) as [? E]. rewrite lookup_insert_ne in E by congruence. done.
Qed.

Section Seal_order.
Context (le : IRSymbol -> IRSymbol -> Prop) `{!RelDecision le} (d : Declarations).

Lemma seal_inits_exact : forallb (fun e => seal_init d e.2) (entries le (decl_constants d)) = true <-> inits_ok d.
Proof.
  rewrite forallb_forall. setoid_rewrite <- list_elem_of_In. unfold inits_ok. split.
  - intros H c init ty Hc. specialize (H (c, Built init ty)). rewrite elem_entries in H. specialize (H Hc). simpl in H.
    destruct (decl_functions d !! init) as [f|]; [|done]. exists f. split; [done|].
    apply andb_true_iff in H as [[Hk Hp]%andb_true_iff Hr%bool_decide_eq_true].
    by destruct (kind f), (params f).
  - intros H [c v] Hc%elem_entries. simpl. destruct v as [init ty| | |]; try done. simpl.
    destruct (H c init ty Hc) as (f & -> & -> & -> & ->). by rewrite bool_decide_eq_true_2.
Qed.

(** The order as positions. *)
Lemma after_positions order : NoDup order ->
  (forall l1 c l2, order = l1 ++ c :: l2 -> forall c', needs d c c' -> c' ∈ l1)
  <-> (forall n c c', order !! n = Some c -> needs d c c' -> exists m, order !! m = Some c' /\ (m < n)%nat).
Proof.
  intros Hn. split.
  - intros H n c c' Hc Hcc. pose proof (H (take n order) c (drop (S n) order)) as Hx.
    specialize (Hx ltac:(symmetry; by apply take_drop_middle) c' Hcc).
    apply list_elem_of_lookup in Hx as [m Hm]. apply lookup_take_Some in Hm as [Hm Hlt]. by exists m.
  - intros H l1 c l2 -> c' Hcc. destruct (H (length l1) c c') as (m & Hm & Hlt); [by apply list_lookup_middle|done|].
    rewrite lookup_app_l in Hm by done. by eapply list_elem_of_lookup_2.
Qed.

Lemma built_of_init c init : omap built_init (decl_constants d) !! c = Some init ->
  exists ty, decl_constants d !! c = Some (Built init ty).
Proof. rewrite lookup_omap. destruct (decl_constants d !! c) as [[]|]; intros; simplify_eq/=; eauto. Qed.

Lemma seal_entry_exact p c init ty : decl_constants d !! c = Some (Built init ty) ->
  seal_entry le (init_graph_new le d) p (c, init) = true
  <-> exists n, p !! c = Some n /\ forall c', needs d c c' -> exists m, p !! c' = Some m /\ (m < n)%nat.
Proof.
  intros Hc. unfold seal_entry, reached_constants. cbn [fst snd].
  destruct (reaches_spec le d init) as (es & Hes & _). rewrite Hes. cbn [mbind option_bind].
  pose proof (reaches_needs le d c init ty es Hc Hes) as Hn. destruct (p !! c) as [n|]; [|naive_solver].
  rewrite forallb_forall. setoid_rewrite <- list_elem_of_In. setoid_rewrite Hn. split.
  - intros H. exists n. split; [done|]. intros c' Hc'%H. destruct (p !! c') as [m|]; [|done].
    exists m. split; [done|by apply Nat.ltb_lt].
  - intros (n' & [= <-] & H) c' (m & -> & Hm)%H. by apply Nat.ltb_lt.
Qed.

(** The seal accepts a stored order exactly when the inits have the right shape and
    the order is a startup order. *)
Lemma seal_order_exact order : seal_built_constants le d order = true <-> inits_ok d /\ startup_order d order.
Proof.
  unfold seal_built_constants. rewrite andb_true_iff, seal_inits_exact. apply and_iff_compat_l.
  set (b := omap built_init (decl_constants d)).
  assert (forall p, forallb (seal_entry le (init_graph_new le d) p) (entries le b) = true <->
    forall c, built d c -> exists n, p !! c = Some n /\ forall c', needs d c c' -> exists m, p !! c' = Some m /\ (m < n)%nat) as Hent.
  { intros p. rewrite forallb_forall. setoid_rewrite <- list_elem_of_In. split.
    - intros H c Hb. apply built_inits in Hb as [init Hi]. destruct (built_of_init c init Hi) as [ty Hty].
      apply (seal_entry_exact p c init ty Hty), H. by apply elem_entries.
    - intros H [c init] Hin%elem_entries. destruct (built_of_init c init Hin) as [ty Hty].
      apply (seal_entry_exact p c init ty Hty), H. by exists init, ty. }
  split.
  - destruct (seal_positions b 0 order ∅) as [p|] eqn:Hp; [|done]. rewrite Hent. intros H.
    destruct (seal_positions_inv _ _ _ _ _ Hp) as [Ho Hn]. destruct (seal_positions_ok b order 0 ∅ Ho Hn) as (p' & E & Hspec).
    simplify_eq.
    assert (forall c n, p !! c = Some n <-> order !! n = Some c) as Hpos.
    { intros c n. rewrite Hspec, lookup_empty. naive_solver. }
    setoid_rewrite Hpos in H. constructor; [done| |].
    + intros c. split; [intros Hc; apply built_inits, (Ho c Hc)|].
      intros (n & Hc & _)%H. by eapply list_elem_of_lookup_2.
    + apply after_positions; [done|]. intros n c c' Hc Hcc.
      destruct (H c) as (n' & Hc' & Hall); [apply built_inits, (Ho c); by eapply list_elem_of_lookup_2|].
      assert (n' = n) as -> by (by eapply NoDup_lookup). by apply Hall.
  - intros [Hn Hall Haft]. destruct (seal_positions_ok b order 0 ∅) as (p & -> & Hspec); [|done|].
    { intros c Hc. split; [by apply built_inits, Hall|apply lookup_empty]. }
    apply Hent. assert (forall c n, p !! c = Some n <-> order !! n = Some c) as Hpos.
    { intros c n. rewrite Hspec, lookup_empty. naive_solver. }
    setoid_rewrite Hpos. intros c Hc. apply Hall, list_elem_of_lookup in Hc as [n Hc]. exists n. split; [done|].
    intros c' Hcc. by eapply (proj1 (after_positions order Hn) Haft).
Qed.

(** C7: the startup order of built constants is right and total. Whenever every symbol
    is declared once the pass returns. An order comes back exactly when no constant
    needs itself, through whatever calls; then it lists each built constant once,
    after every constant its init may load, and the seal accepts it when the inits
    have their shape. Otherwise there is one diagnostic at each constant that can not
    be built: it names the constants of a cycle through that one, or,
    if there is none, another it waits on that can not be built. *)
Theorem startup_order_correct (ps : list IRPackage) (span_of : IRSymbol -> Span) :
  declarations_new le ps = Some d ->
  exists r, built_constant_order le ps span_of = Some r /\
  match r with
  | inl order => (forall c, ~ tc (needs d) c c) /\ startup_order d order
      /\ (inits_ok d -> seal_built_constants le d order = true)
  | inr diagnostics => (exists c, tc (needs d) c c) /\ exists cs, Forall2 (tells d span_of) cs diagnostics
      /\ NoDup cs /\ forall c, c ∈ cs <-> stranded d c
  end.
Proof.
  intros Hd. unfold built_constant_order. rewrite Hd. cbn [mbind option_bind].
  destruct (dependencies_spec le d) as (r & ops & -> & Hg & He & Hno). cbn [mbind option_bind]. rewrite Hg.
  destruct (toposort_correct le ops) as (ready & stk & -> & Hperm & Hnd & Hord & Hst & Hsub).
  cbn [mbind option_bind stuck order_ready].
  assert (forall c, c ∈ stk <-> stranded d c) as Hstk.
  { intros c. rewrite Hst, Hno. unfold stranded. split.
    - intros (_ & m & Hcm & Hm). exists m. split; [by eapply rtc_subrel; [|done]; intros; apply He|].
      by eapply tc_sub; [|done]; intros; apply He.
    - intros Hs. pose proof Hs as (m & Hcm & Hm). destruct (stranded_next d c Hs) as (b & (i & ty & _ & _ & Hc & _) & _).
      split; [by exists i, ty|]. exists m. split; [by eapply rtc_subrel; [|done]; intros; apply He|].
      by eapply tc_sub; [|done]; intros; apply He. }
  destruct stk as [|s stk].
  - rewrite app_nil_r in *. eexists. split; [done|]. assert (startup_order d ready) as Hs.
    { constructor; [done|by intros c; rewrite Hperm, Hno|]. intros l1 c l2 E c' Hcc. apply (Hord l1 c l2 E), He, Hcc. }
    split; [|split; [done|intros Hi; by apply seal_order_exact]].
    intros c Hc. assert (c ∈ []) as Hin by (apply Hstk; by exists c). by apply not_elem_of_nil in Hin.
  - set (S := list_to_set (s :: stk) : gset IRSymbol).
    assert (forall x, x ∈ S <-> stranded d x) as HS by (intros x; unfold S; by rewrite elem_of_list_to_set, Hstk).
    assert (forall c, c ∈ merge_sort le (elements S) <-> c ∈ S) as Hel
      by (intros c; by rewrite merge_sort_Permutation, elem_of_elements).
    destruct (diagnose_all_tells d r ops S span_of (merge_sort le (elements S)) Hg He HS) as (xs & -> & Hxs);
      [intros c; by rewrite Hel|].
    eexists. split; [done|]. split.
    + destruct (proj1 (Hstk s) ltac:(by left)) as (m & _ & Hm). by exists m.
    + eexists. split; [exact Hxs|]. split; [rewrite merge_sort_Permutation; apply NoDup_elements|].
      intros c. by rewrite Hel, HS.
Qed.
End Seal_order.

(** [A]'s init reads [B] through a helper. *)
Definition sample_function (name : string) (body : list IRInstruction) : IRFunction :=
  mkFunction [mkBlock 0%Z [] body (Return None)] Regular [] TUnit name.

Definition sample_package (b_reads : list IRInstruction) : IRPackage :=
  mkPackage {["A" := Built "init_a" TUnit; "B" := Built "init_b" TUnit]} ∅
    (list_to_map (map (fun f => (symbol f, f))
      [sample_function "init_a" [Call 0%Z "helper" []]; sample_function "helper" [LoadConst "B" 0%Z TUnit];
       sample_function "init_b" b_reads])) "App" ∅.

Definition no_span (c : IRSymbol) : Span := span_default.

Example sample_order :
  built_constant_order String.le [sample_package []] no_span = Some (inl ["B"; "A"]).
Proof. vm_compute. reflexivity. Qed.

Example sample_cycle :
  option_map (sum_map id (map (fun x => fault_message (fault x))))
    (built_constant_order String.le [sample_package [LoadConst "A" 0%Z TUnit]] no_span)
  = Some (inr ["constant `A` depends on itself at startup through `helper`, `B`";
               "constant `B` depends on itself at startup through `A`, `helper`"]).
Proof. vm_compute. reflexivity. Qed.

Definition sample_declarations : Declarations :=
  default no_declarations (declarations_new String.le [sample_package []]).

Lemma startup_order_correct_witness : exists order,
  built_constant_order String.le [sample_package []] no_span = Some (inl order)
  /\ startup_order sample_declarations order.
Proof.
  destruct (startup_order_correct String.le sample_declarations [sample_package []] no_span) as (r & Hr & H);
    [vm_compute; reflexivity|].
  assert (r = inl ["B"; "A"]) as -> by (vm_compute in Hr; injection Hr as <-; reflexivity).
  exists ["B"; "A"]. split; [exact Hr|exact (proj1 (proj2 H))].
Defined.
