(* ===== verification/TypeParser.v ===== *)
(** * The parser core and type expressions

    Models the token navigation of [koja-parser/src/parser.rs], the whole type-expression
    grammar of [koja-parser/src/types.rs], the type syntax of [koja-ast/src/ast.rs] and
    how the formatter prints a type, [type_expr_to_doc] of [koja-fmt/src/printer/util.rs].

    The parser is a record threaded through a small state monad [P]; [None] is a panic
    (a token read past the end, a token without a lexeme) or fuel that ran out. Loops and
    the recursion on types take [loop_fuel] steps, twice the number of tokens: every
    iteration consumes a token or the pending half of a [>>]. The comments, the source
    text and the display path of the parser are not read here and left out. *)

From Stdlib Require Import Ascii String.
From S2P Require Import Prelude Types Chars Doc Lexer.
Local Open Scope Z_scope.

(** ** Syntax *)

Record Name := mkName { name_text : list Z; name_span : Span }.

Inductive TypeExpr :=
  | TeNamed (path : list Name) (resolution : Resolution) (span : Span)
  | TeGeneric (path : list Name) (args : list TypeExpr) (resolution : Resolution) (span : Span)
  | TeUnit (span : Span)
  | TeFunction (params : list TypeExpr) (return_type : TypeExpr) (span : Span)
  | TeSelf (span : Span)
  | TeTuple (elements : list TypeExpr) (span : Span)
  | TeUnion (types : list TypeExpr) (span : Span).

Definition named (path : list Name) (span : Span) : TypeExpr := TeNamed path RUnresolved span.
Definition generic (path : list Name) (args : list TypeExpr) (span : Span) : TypeExpr :=
  TeGeneric path args RUnresolved span.

Definition type_expr_span (t : TypeExpr) : Span :=
  match t with
  | TeFunction _ _ span | TeGeneric _ _ _ span | TeNamed _ _ span | TeSelf span | TeTuple _ span
  | TeUnion _ span | TeUnit span => span
  end.

Record TypeParam := mkTypeParam { tp_name : Name; tp_bounds : list TypeExpr; tp_span : Span }.

(** ** Printing *)

Fixpoint path_text (names : list Name) : list Z :=
  match names with
  | [] => []
  | [n] => name_text n
  | n :: names => name_text n ++ chr "." :: path_text names
  end.

(** Every document but the last with [ |] after it. *)
Fixpoint pipe_members (docs : list Doc) : list Doc :=
  match docs with
  | [] => []
  | [doc] => [doc]
  | doc :: docs => DConcat [doc; DText (str " |")] :: pipe_members docs
  end.

Fixpoint type_expr_to_doc (t : TypeExpr) : Doc :=
  match t with
  | TeNamed path _ _ => DText (path_text path)
  | TeGeneric path args _ _ =>
      DConcat [DText (path_text path); DText (str "<");
               intersperse (map type_expr_to_doc args) (DText (str ", ")); DText (str ">")]
  | TeUnit _ => DText (str "()")
  | TeSelf _ => DText (str "Self")
  | TeFunction params return_type _ =>
      DConcat [DText (str "fn ("); intersperse (map type_expr_to_doc params) (DText (str ", "));
               DText (str ") -> "); type_expr_to_doc return_type]
  | TeTuple elements _ =>
      DConcat [DText (str "("); intersperse (map type_expr_to_doc elements) (DText (str ", ")); DText (str ")")]
  | TeUnion types _ => DIndent 2 (DFill (pipe_members (map type_expr_to_doc types)))
  end.

(** ** The parser's state *)

Record Parser := mkParser {
  p_tokens : list Token; p_pos : nat; p_errors : list Diagnostic; pending_token : option TokenKind }.

Definition parser_new (r : LexResult) : Parser := mkParser (result_tokens r) 0 (result_errors r) None.

Definition P (A : Type) : Type := Parser -> option (A * Parser).

Definition retP {A} (a : A) : P A := fun p => Some (a, p).
Definition bindP {A B} (m : P A) (k : A -> P B) : P B :=
  fun p => match m p with Some (a, p) => k a p | None => None end.

Declare Scope parser_scope.
Notation "'let^' x := m 'in' k" := (bindP m (fun x => k))
  (at level 200, x name, m at level 100, k at level 200, right associativity) : parser_scope.
Notation "m ;;; k" := (bindP m (fun _ => k)) (at level 63, right associativity) : parser_scope.
Local Open Scope parser_scope.

(** [self.tokens[self.pos]]. *)
Definition current : P Token := fun p => t ← p_tokens p !! p_pos p; Some (t, p).

Definition p_peek : P TokenKind := fun p =>
  match pending_token p with Some k => Some (k, p) | None => (let^ t := current in retP (kind t)) p end.

Definition current_span : P Span := let^ t := current in retP (token_span t).

Definition p_advance : P Token := fun p =>
  match pending_token p with
  | Some k =>
      t ← p_tokens p !! p_pos p;
      Some (mkToken k (token_span t), mkParser (p_tokens p) (p_pos p) (p_errors p) None)
  | None =>
      t ← p_tokens p !! p_pos p;
      Some (t, if bool_decide (S (p_pos p) < length (p_tokens p))%nat
               then mkParser (p_tokens p) (S (p_pos p)) (p_errors p) None else p)
  end.

(** [std::mem::discriminant], as the kind without its payload. *)
Definition discriminant (k : TokenKind) : TokenKind :=
  match k with
  | TkIdent _ => TkIdent [] | TkTypeIdent _ => TkTypeIdent [] | TkIntLit _ => TkIntLit []
  | TkFloatLit _ => TkFloatLit [] | TkStringFragment _ => TkStringFragment [] | k => k
  end.

Definition p_at (k : TokenKind) : P bool :=
  let^ found := p_peek in retP (bool_decide (discriminant found = discriminant k)).

Definition at_eof : P bool := let^ found := p_peek in retP (bool_decide (found = TkEndOfFile)).

Definition p_eat (k : TokenKind) : P (option Token) :=
  let^ here := p_at k in
  if here : bool then let^ t := p_advance in retP (Some t) else retP None.

Definition push_diagnostic (d : Diagnostic) : P unit := fun p =>
  Some (tt, mkParser (p_tokens p) (p_pos p) (p_errors p ++ [d]) (pending_token p)).

Definition p_error (message : list Z) (span : Span) : P unit :=
  push_diagnostic (mkDiagnostic SevError message None span).

Definition display (k : TokenKind) : P (list Z) := fun p => d ← token_display k; Some (d, p).

(** [format!("{prefix}{}", self.peek())]. *)
Definition found_message (prefix : list Z) : P (list Z) :=
  let^ found := p_peek in let^ d := display found in retP (prefix ++ d).

Definition end_hint : list Z :=
  str "every 'fn', 'if', 'while', 'loop', 'for', and 'struct' must be closed with 'end'".

Definition p_expect (k : TokenKind) : P Token :=
  let^ here := p_at k in
  if here : bool then p_advance
  else
    let^ span := current_span in
    let^ expected := display k in
    let^ message := found_message (str "expected " ++ expected ++ str ", found ") in
    push_diagnostic (mkDiagnostic SevError message (if bool_decide (k = TkEnd) then Some end_hint else None) span) ;;;
    p_advance.

Definition set_pending (k : option TokenKind) : P unit := fun p =>
  Some (tt, mkParser (p_tokens p) (p_pos p) (p_errors p) k).
Definition get_pending : P (option TokenKind) := fun p => Some (pending_token p, p).

(** [expect_gt]: half of a [>>] is kept for the outer generic. *)
Definition expect_gt : P unit :=
  let^ pending := get_pending in
  if bool_decide (pending = Some TkGt) then set_pending None
  else
    let^ gt := p_eat TkGt in
    match gt with
    | Some _ => retP tt
    | None =>
        let^ gtgt := p_eat TkGtGt in
        match gtgt with
        | Some _ => set_pending (Some TkGt)
        | None =>
            let^ span := current_span in
            let^ message := found_message (str "expected `>`, found ") in
            p_error message span
        end
    end.

Definition ERROR_IDENT : list Z := str "<error>".

Definition expect_ident : P (list Z) :=
  let^ found := p_peek in
  match found with
  | TkIdent name => p_advance ;;; retP name
  | _ =>
      let^ span := current_span in
      let^ message := found_message (str "expected identifier, found ") in
      p_error message span ;;; p_advance ;;; retP ERROR_IDENT
  end.

Definition expect_type_ident : P (list Z) :=
  let^ found := p_peek in
  match found with
  | TkTypeIdent name => p_advance ;;; retP name
  | _ =>
      let^ span := current_span in
      let^ message := found_message (str "expected type identifier, found ") in
      p_error message span ;;; p_advance ;;; retP ERROR_IDENT
  end.

Definition expect_name : P Name := let^ span := current_span in let^ n := expect_ident in retP (mkName n span).
Definition expect_type_name : P Name :=
  let^ span := current_span in let^ n := expect_type_ident in retP (mkName n span).

Definition prev_end : P Position := fun p =>
  match p_pos p with
  | O => Some (mkPosition 0 1 1, p)
  | S n => t ← p_tokens p !! n; Some (span_end (token_span t), p)
  end.

Definition p_span_from (start : Span) : P Span :=
  let^ e := prev_end in retP (mkSpanOf (span_start start) e (file start) false).

(** ** Loops *)

Definition loop_fuel (p : Parser) : nat := S (2 * length (p_tokens p)).
Definition with_fuel {A} (f : nat -> P A) : P A := fun p => f (loop_fuel p) p.
Definition out_of_fuel {A} : P A := fun _ => None.

Fixpoint skip_newlines_loop (fuel : nat) : P unit :=
  match fuel with
  | O => out_of_fuel
  | S fuel =>
      let^ found := p_peek in
      if bool_decide (found = TkNewline) then p_advance ;;; skip_newlines_loop fuel else retP tt
  end.

Definition skip_newlines : P unit := with_fuel skip_newlines_loop.

Fixpoint comma_loop {T} (terminator : TokenKind) (parse_one : P T) (fuel : nat) (items : list T) : P (list T) :=
  match fuel with
  | O => out_of_fuel
  | S fuel =>
      let^ comma := p_eat TkComma in
      match comma with
      | None => retP items
      | Some _ =>
          skip_newlines ;;;
          let^ done := p_at terminator in
          if done : bool then retP items
          else let^ item := parse_one in comma_loop terminator parse_one fuel (items ++ [item])
      end
  end.

Definition comma_separated {T} (terminator : TokenKind) (parse_one : P T) : P (list T) :=
  skip_newlines ;;;
  let^ empty := p_at terminator in
  if empty : bool then retP []
  else
    let^ first := parse_one in
    let^ items := with_fuel (fun fuel => comma_loop terminator parse_one fuel [first]) in
    skip_newlines ;;; retP items.

(** ** Type expressions *)

(** The parser of types that [types.rs] calls recursively is [parse_type]. *)
Section Grammar.
Context (parse_type : P TypeExpr).

Definition parse_function_type : P TypeExpr :=
  let^ start := current_span in
  p_advance ;;; p_expect TkLParen ;;;
  let^ params := comma_separated TkRParen parse_type in
  p_expect TkRParen ;;; p_expect TkArrow ;;;
  let^ return_type := parse_type in
  let^ span := p_span_from start in
  retP (TeFunction params return_type span).

Fixpoint tuple_loop (fuel : nat) (elements : list TypeExpr) : P (list TypeExpr) :=
  match fuel with
  | O => out_of_fuel
  | S fuel =>
      let^ closed := p_at TkRParen in
      let^ ended := at_eof in
      if (closed : bool) || (ended : bool) then
        let^ span := current_span in
        p_error (str "tuple types do not allow trailing commas") span ;;; retP elements
      else
        let^ element := parse_type in
        let^ comma := p_eat TkComma in
        match comma with
        | None => retP (elements ++ [element])
        | Some _ => skip_newlines ;;; tuple_loop fuel (elements ++ [element])
        end
  end.

Definition parse_paren_type : P TypeExpr :=
  let^ start := current_span in
  p_advance ;;; skip_newlines ;;;
  let^ unit_close := p_eat TkRParen in
  match unit_close with
  | Some _ => let^ span := p_span_from start in retP (TeUnit span)
  | None =>
      let^ first := parse_type in
      let^ comma := p_eat TkComma in
      match comma with
      | Some _ =>
          skip_newlines ;;;
          let^ elements := with_fuel (fun fuel => tuple_loop fuel [first]) in
          skip_newlines ;;; p_expect TkRParen ;;;
          let^ span := p_span_from start in
          retP (TeTuple elements span)
      | None => skip_newlines ;;; p_expect TkRParen ;;; retP first
      end
  end.

Fixpoint generic_loop (fuel : nat) (args : list TypeExpr) : P (list TypeExpr) :=
  match fuel with
  | O => out_of_fuel
  | S fuel =>
      let^ comma := p_eat TkComma in
      match comma with
      | None => retP args
      | Some _ => let^ arg := parse_type in generic_loop fuel (args ++ [arg])
      end
  end.

Definition parse_optional_generic_args (path : list Name) (start : Span) : P TypeExpr :=
  let^ lt := p_eat TkLt in
  match lt with
  | None => let^ span := p_span_from start in retP (named path span)
  | Some _ =>
      let^ first := parse_type in
      let^ args := with_fuel (fun fuel => generic_loop fuel [first]) in
      expect_gt ;;;
      let^ span := p_span_from start in
      retP (generic path args span)
  end.

(** [while self.eat(Dot)]: further type names. *)
Fixpoint dotted_types (fuel : nat) (path : list Name) : P (list Name) :=
  match fuel with
  | O => out_of_fuel
  | S fuel =>
      let^ dot := p_eat TkDot in
      match dot with
      | None => retP path
      | Some _ =>
          let^ found := p_peek in
          match found with
          | TkTypeIdent _ => let^ n := expect_type_name in dotted_types fuel (path ++ [n])
          | _ => retP path
          end
      end
  end.

Fixpoint dotted_loop (fuel : nat) (start : Span) (path : list Name) : P TypeExpr :=
  match fuel with
  | O => out_of_fuel
  | S fuel =>
      let^ found := p_peek in
      match found with
      | TkIdent _ =>
          let^ n := expect_name in
          let^ dot := p_eat TkDot in
          match dot with
          | None => let^ span := p_span_from start in retP (named (path ++ [n]) span)
          | Some _ => dotted_loop fuel start (path ++ [n])
          end
      | TkTypeIdent _ =>
          let^ n := expect_type_name in
          let^ path := with_fuel (fun fuel => dotted_types fuel (path ++ [n])) in
          parse_optional_generic_args path start
      | _ => parse_optional_generic_args path start
      end
  end.

Definition parse_dotted_type_path : P TypeExpr :=
  let^ start := current_span in with_fuel (fun fuel => dotted_loop fuel start []).

Definition parse_primary_type_expr : P TypeExpr :=
  let^ found := p_peek in
  match found with
  | TkFn => parse_function_type
  | TkLParen => parse_paren_type
  | TkTypeIdent name =>
      if bool_decide (name = str "Self") then
        let^ start := current_span in
        p_advance ;;;
        let^ span := p_span_from start in
        retP (TeSelf span)
      else parse_dotted_type_path
  | TkIdent _ => parse_dotted_type_path
  | _ =>
      let^ span := current_span in
      let^ message := found_message (str "expected type expression, found ") in
      p_error message span ;;; p_advance ;;;
      retP (named [mkName ERROR_IDENT span] span)
  end.

Fixpoint union_loop (fuel : nat) (types : list TypeExpr) : P (list TypeExpr) :=
  match fuel with
  | O => out_of_fuel
  | S fuel =>
      let^ pipe := p_eat TkPipe in
      match pipe with
      | None => retP types
      | Some _ => let^ t := parse_primary_type_expr in union_loop fuel (types ++ [t])
      end
  end.

Definition parse_union_type : P TypeExpr :=
  let^ first := parse_primary_type_expr in
  let^ union := p_at TkPipe in
  if union : bool then
    let^ types := with_fuel (fun fuel => union_loop fuel [first]) in
    let^ span := p_span_from (type_expr_span first) in
    retP (TeUnion types span)
  else retP first.
End Grammar.

Fixpoint parse_type_depth (fuel : nat) : P TypeExpr :=
  match fuel with
  | O => out_of_fuel
  | S fuel => parse_union_type (parse_type_depth fuel)
  end.

Definition parse_type_expr : P TypeExpr := with_fuel parse_type_depth.

(** ** Impl targets *)

Fixpoint bounds_loop (fuel : nat) (protocols : list TypeExpr) : P (list TypeExpr) :=
  match fuel with
  | O => out_of_fuel
  | S fuel =>
      let^ amp := p_eat TkAmpersand in
      match amp with
      | None => retP protocols
      | Some _ => let^ t := parse_primary_type_expr parse_type_expr in bounds_loop fuel (protocols ++ [t])
      end
  end.

Definition parse_impl_target_arg (bounds : list TypeParam) : P (TypeExpr * list TypeParam) :=
  let^ arg := parse_type_expr in
  let^ colon := p_eat TkColon in
  match colon with
  | None => retP (arg, bounds)
  | Some _ =>
      let span := type_expr_span arg in
      let^ first := parse_primary_type_expr parse_type_expr in
      let^ protocols := with_fuel (fun fuel => bounds_loop fuel [first]) in
      match arg with
      | TeNamed [n] _ _ => retP (arg, bounds ++ [mkTypeParam n protocols span])
      | _ =>
          p_error (str "bounds in an impl target only apply to bare type parameters") span ;;;
          retP (arg, bounds)
      end
  end.

Fixpoint impl_args_loop (fuel : nat) (args : list TypeExpr) (bounds : list TypeParam)
    : P (list TypeExpr * list TypeParam) :=
  match fuel with
  | O => out_of_fuel
  | S fuel =>
      let^ ab := parse_impl_target_arg bounds in
      let args := args ++ [fst ab] in
      let^ comma := p_eat TkComma in
      match comma with
      | None => retP (args, snd ab)
      | Some _ => impl_args_loop fuel args (snd ab)
      end
  end.

Definition parse_impl_target : P (TypeExpr * list TypeParam) :=
  let^ found := p_peek in
  match found with
  | TkTypeIdent _ =>
      let^ start := current_span in
      let^ n := expect_type_name in
      let^ path := with_fuel (fun fuel => dotted_types fuel [n]) in
      let^ lt := p_eat TkLt in
      match lt with
      | None => let^ span := p_span_from start in retP (named path span, [])
      | Some _ =>
          let^ ab := with_fuel (fun fuel => impl_args_loop fuel [] []) in
          expect_gt ;;;
          let^ span := p_span_from start in
          retP (generic path (fst ab) span, snd ab)
      end
  | _ => let^ t := parse_type_expr in retP (t, [])
  end.

(** ** Examples *)

(** A type without its spans and resolutions. *)
Definition strip_name (n : Name) : Name := mkName (name_text n) span_default.

Fixpoint strip (t : TypeExpr) : TypeExpr :=
  match t with
  | TeNamed path _ _ => named (map strip_name path) span_default
  | TeGeneric path args _ _ => generic (map strip_name path) (map strip args) span_default
  | TeUnit _ => TeUnit span_default
  | TeFunction params return_type _ => TeFunction (map strip params) (strip return_type) span_default
  | TeSelf _ => TeSelf span_default
  | TeTuple elements _ => TeTuple (map strip elements) span_default
  | TeUnion types _ => TeUnion (map strip types) span_default
  end.

(** The type a text holds, without spans, with the errors and what is left. *)
Definition read_type (text : list Z) : option (TypeExpr * list Diagnostic * list TokenKind) :=
  r ← lex text 0;
  '(t, p) ← parse_type_expr (parser_new r);
  Some (strip t, p_errors p, kind <$> drop (p_pos p) (p_tokens p)).

Definition simple (name : list Z) : TypeExpr := named [mkName name span_default] span_default.

Example read_nested :
  read_type (str "Map<A.B, List<List<C>>> | fn (D) -> E | F")
  = Some (TeUnion
      [generic [mkName (str "Map") span_default]
         [named [mkName (str "A") span_default; mkName (str "B") span_default] span_default;
          generic [mkName (str "List") span_default]
            [generic [mkName (str "List") span_default] [simple (str "C")] span_default] span_default] span_default;
       TeFunction [simple (str "D")] (TeUnion [simple (str "E"); simple (str "F")] span_default) span_default]
      span_default, [], [TkEndOfFile]).
Proof. vm_compute. reflexivity. Qed.
