(* ===== verification/TypeTotal.v ===== *)
(** * The type parser returns on every token stream

    The recovery of the parser never loops and never panics: whatever the tokens, as long as
    they end with the end of file as the lexer's do, [parse_type_expr] and
    [parse_impl_target] return. [work] counts what is left to consume, two per token and
    one for the kept half of a [>>]: every loop consumes some, and every call of the
    parser of types nested in another comes after something was consumed. *)

From Stdlib Require Import Ascii String.
From S2P Require Import Prelude Types Chars Lexer LexerSound TypeParser.
Local Open Scope nat_scope.
Local Open Scope parser_scope.

Record stream_ok (p : Parser) : Prop := {
  ok_pending : pending_token p = None \/ pending_token p = Some TkGt;
  ok_pos : p_pos p < length (p_tokens p);
  ok_last : kind <$> last (p_tokens p) = Some TkEndOfFile }.

Definition work (p : Parser) : nat :=
  2 * (length (p_tokens p) - 1 - p_pos p) + match pending_token p with Some _ => 1 | None => 0 end.

(** [m] returns, in a state like the one it started from, with [R] of its result and the
    work left. *)
Definition run {A} (m : P A) (p : Parser) (R : A -> nat -> Prop) : Prop :=
  exists a p', m p = Some (a, p') /\ stream_ok p' /\ p_tokens p' = p_tokens p /\ R a (work p').

Lemma run_ret {A} (a : A) p (R : A -> nat -> Prop) : stream_ok p -> R a (work p) -> run (retP a) p R.
Proof. intros. by exists a, p. Qed.

Lemma run_bind {A B} (m : P A) (k : A -> P B) p R S : run m p R ->
  (forall a p', stream_ok p' -> R a (work p') -> run (k a) p' S) -> run (bindP m k) p S.
Proof.
  intros (a & p1 & Hm & Hok & Ht & Ha) Hk. destruct (Hk a p1 Hok Ha) as (b & p2 & Hb & Hok2 & Ht2 & HS).
  exists b, p2. unfold bindP. rewrite Hm. split; [done|]. split; [done|]. split; [congruence|done].
Qed.

Lemma run_imp {A} (m : P A) p (R S : A -> nat -> Prop) : run m p R -> (forall a n, R a n -> S a n) -> run m p S.
Proof. intros (a & p' & ? & ? & ? & ?) HS. exists a, p'. auto. Qed.

(** Nothing more than [n] is left. *)
Definition within {A} (n : nat) : A -> nat -> Prop := fun _ left => left <= n.

Lemma current_ok p : stream_ok p -> exists t, p_tokens p !! p_pos p = Some t.
Proof. intros [_ H _]. by apply lookup_lt_is_Some_2 in H. Qed.

Lemma peek_ok p : stream_ok p -> exists k, p_peek p = Some (k, p).
Proof.
  intros Hp. destruct (current_ok p Hp) as [t Ht]. unfold p_peek, current, bindP, retP.
  destruct (pending_token p) as [k|]; [by exists k|]. rewrite Ht. simpl. by eexists.
Qed.

(** Looking does not change the state. *)
Lemma run_peek {B} (f : TokenKind -> P B) p R : stream_ok p ->
  (forall k, p_peek p = Some (k, p) -> run (f k) p R) -> run (bindP p_peek f) p R.
Proof. intros Hp Hf. destruct (peek_ok p Hp) as [k Hk]. unfold run, bindP. rewrite Hk. by apply Hf. Qed.

Lemma run_at {B} k (f : bool -> P B) p R : stream_ok p ->
  (forall k' b, p_peek p = Some (k', p) -> (b = true -> discriminant k' = discriminant k) -> run (f b) p R) ->
  run (bindP (p_at k) f) p R.
Proof.
  intros Hp Hf. destruct (peek_ok p Hp) as [k' Hk]. unfold run, p_at, bindP, retP. rewrite Hk. apply (Hf k'); [done|].
  by intros ?%bool_decide_eq_true.
Qed.

Lemma run_span p : stream_ok p -> run current_span p (within (work p)).
Proof.
  intros Hp. destruct (current_ok p Hp) as [t Ht]. exists (token_span t), p. unfold current_span, current, bindP, retP.
  rewrite Ht. unfold within. auto.
Qed.

Lemma run_span_from start p : stream_ok p -> run (p_span_from start) p (within (work p)).
Proof.
  intros Hp. unfold p_span_from, prev_end. assert (exists e, (match p_pos p with
    | O => Some (mkPosition 0 1 1, p)
    | S n => t ← p_tokens p !! n; Some (span_end (token_span t), p) end) = Some (e, p)) as [e He].
  { pose proof (ok_pos p Hp). destruct (p_pos p) as [|n]; [by eexists|].
    destruct (lookup_lt_is_Some_2 (p_tokens p) n) as [t' ->]; [lia|]. by eexists. }
  eexists _, p. unfold bindP, retP. rewrite He. unfold within. auto.
Qed.

(** Advancing past anything but the end of file consumes it. *)
Lemma run_advance p : stream_ok p -> run p_advance p (fun _ n => n <= work p
  /\ (forall k, p_peek p = Some (k, p) -> k <> TkEndOfFile -> n < work p)).
Proof.
  intros Hp. destruct (current_ok p Hp) as [t Ht]. destruct Hp as [Hpend Hpos Hlast]. unfold run, p_advance, p_peek, current, bindP, retP.
  destruct (pending_token p) as [k|] eqn:E; rewrite Ht; cbn [mbind option_bind].
  - eexists _, _. split; [done|]. split; [by constructor; [left|..]|]. split; [done|]. unfold work. rewrite E. simpl. split; [lia|lia].
  - eexists _, _. split; [done|]. case_bool_decide as Hlt.
    + split; [by constructor; [left|..]|]. split; [done|]. unfold work. simpl. rewrite E. split; [lia|lia].
    + split; [by constructor; [left|..]|]. split; [done|]. split; [done|]. intros k [= <-] Hk. exfalso. apply Hk.
      rewrite last_lookup in Hlast. replace (pred (length (p_tokens p))) with (p_pos p) in Hlast by lia.
      rewrite Ht in Hlast. by injection Hlast.
Qed.

Lemma run_eof {B} (f : bool -> P B) p R : stream_ok p -> (forall b, run (f b) p R) -> run (bindP at_eof f) p R.
Proof. intros Hp Hf. destruct (peek_ok p Hp) as [k' Hk]. unfold run, at_eof, bindP, retP. rewrite Hk. apply Hf. Qed.

(** Eating anything but the end of file consumes it. *)
Lemma run_eat k p : stream_ok p -> k <> TkEndOfFile ->
  run (p_eat k) p (fun t n => n <= work p /\ (t <> None -> n < work p)).
Proof.
  intros Hp Hk. apply run_at; [done|]. intros k' [] Hpk Hd; [|by apply run_ret].
  eapply run_bind; [by apply run_advance|]. intros t p1 Hp1 [Hw Hlt]. apply run_ret; [done|]. split; [done|]. intros _.
  apply (Hlt k' Hpk). intros ->. specialize (Hd eq_refl). by destruct k.
Qed.

Lemma run_push d p : stream_ok p -> run (push_diagnostic d) p (within (work p)).
Proof. intros [? ? ?]. eexists _, _. split; [done|]. split; [by constructor|]. unfold within, work. simpl. auto. Qed.

Lemma run_found prefix p : stream_ok p -> run (found_message prefix) p (within (work p)).
Proof.
  intros Hp. apply run_peek; [done|]. intros k _. assert (exists d, token_display k = Some d) as [d Hd] by (destruct k; by eexists).
  exists (prefix ++ d), p. unfold bindP, display, retP. rewrite Hd. unfold within. auto.
Qed.

Lemma run_display k p (R : list Z -> nat -> Prop) : stream_ok p -> (forall d, R d (work p)) -> run (display k) p R.
Proof.
  intros Hp HR. assert (exists d, token_display k = Some d) as [d Hd] by (destruct k; by eexists).
  exists d, p. unfold display. by rewrite Hd.
Qed.

(** Runs the operations of [m] one after another, carrying the bound on the work. *)
Ltac after := let a := fresh "a" in let p := fresh "p" in let Hp := fresh "Hp" in let Hw := fresh "Hw" in
  intros a p Hp Hw; unfold within in Hw; cbv beta in Hw.

Lemma run_expect k p : stream_ok p -> run (p_expect k) p (within (work p)).
Proof.
  intros Hp. apply run_at; [done|]. intros k' [] _ _.
  - eapply run_imp; [by apply run_advance|]. by intros a n [? _].
  - eapply run_bind; [by apply run_span|]. after. eapply run_bind; [apply (run_display k p0 (within (work p0))); [done|by unfold within]|]. after.
    eapply run_bind; [by apply run_found|]. after. eapply run_bind; [by apply run_push|]. after.
    eapply run_imp; [by apply run_advance|]. intros t n [? _]. unfold within. lia.
Qed.

Lemma run_pending k p : stream_ok p -> k = None \/ k = Some TkGt ->
  run (set_pending k) p (fun _ n => n <= S (work p) /\ (k = None -> n <= work p)).
Proof.
  intros [? ? ?] Hk. eexists _, _. split; [done|]. split; [by constructor|]. split; [done|]. unfold work. simpl.
  destruct Hk as [-> | ->], (pending_token p); split; (done || lia).
Qed.

Lemma run_expect_gt p : stream_ok p -> run expect_gt p (within (work p)).
Proof.
  intros Hp. unfold run, expect_gt, bindP at 1, get_pending. case_bool_decide.
  - destruct (run_pending None p Hp) as (a & p' & ? & ? & ? & _ & Hw); [by left|]. exists a, p'. unfold within. auto.
  - fold (run (bindP (p_eat TkGt) (fun gt => match gt with Some _ => retP tt | None =>
      let^ gtgt := p_eat TkGtGt in
      match gtgt with
      | Some _ => set_pending (Some TkGt)
      | None =>
          let^ span := current_span in
          let^ message := found_message (str "expected `>`, found ") in p_error message span
      end end)) p (within (work p))).
    eapply run_bind; [by apply run_eat|]. after. destruct a as [t|]; [apply run_ret; [done|]; unfold within; lia|].
    eapply run_bind; [by apply run_eat|]. after. destruct a as [t|].
    + eapply run_imp; [by apply run_pending; [|right]|]. intros u n [? _]. unfold within.
      destruct Hw0 as [_ Hw0]. specialize (Hw0 ltac:(done)). lia.
    + eapply run_bind; [by apply run_span|]. after. eapply run_bind; [by apply run_found|]. after.
      eapply run_imp; [by apply run_push|]. unfold within. intros. lia.
Qed.

(** Reports what was found and skips it. *)
Lemma run_report prefix p {A} (r : A) : stream_ok p ->
  run (let^ span := current_span in let^ message := found_message prefix in p_error message span ;;; p_advance ;;; retP r)
    p (within (work p)).
Proof.
  intros Hp. eapply run_bind; [by apply run_span|]. after. eapply run_bind; [by apply run_found|]. after.
  eapply run_bind; [by apply run_push|]. after. eapply run_bind; [by apply run_advance|]. after.
  apply run_ret; [done|]. unfold within. lia.
Qed.

Lemma run_take {A} (r : A) p : stream_ok p -> run (p_advance ;;; retP r) p (within (work p)).
Proof. intros Hp. eapply run_bind; [by apply run_advance|]. after. apply run_ret; [done|]. unfold within. lia. Qed.

Lemma run_ident p : stream_ok p -> run expect_ident p (within (work p)).
Proof. intros Hp. apply run_peek; [done|]. intros k _. destruct k; by (apply run_report || apply run_take). Qed.

Lemma run_type_ident p : stream_ok p -> run expect_type_ident p (within (work p)).
Proof. intros Hp. apply run_peek; [done|]. intros k _. destruct k; by (apply run_report || apply run_take). Qed.

Lemma run_name p : stream_ok p -> run expect_name p (within (work p)).
Proof.
  intros Hp. eapply run_bind; [by apply run_span|]. after. eapply run_bind; [by apply run_ident|]. after.
  apply run_ret; [done|]. unfold within. lia.
Qed.

Lemma run_type_name p : stream_ok p -> run expect_type_name p (within (work p)).
Proof.
  intros Hp. eapply run_bind; [by apply run_span|]. after. eapply run_bind; [by apply run_type_ident|]. after.
  apply run_ret; [done|]. unfold within. lia.
Qed.

(** ** Loops *)

Lemma work_fuel p : stream_ok p -> work p < loop_fuel p.
Proof. intros [? ? ?]. unfold work, loop_fuel. destruct (pending_token p); lia. Qed.

Lemma run_skip_loop fuel : forall p, stream_ok p -> work p < fuel -> run (skip_newlines_loop fuel) p (within (work p)).
Proof.
  induction fuel as [|fuel IH]; intros p Hp Hf; [lia|]. cbn [skip_newlines_loop]. apply run_peek; [done|]. intros k Hk.
  case_bool_decide as E; [|by apply run_ret; [|unfold within]]. subst k.
  eapply run_bind; [by apply run_advance|]. after. destruct Hw as [_ Hw]. specialize (Hw _ Hk ltac:(done)).
  eapply run_imp; [apply IH; [done|lia]|]. unfold within. intros. lia.
Qed.

Lemma run_skip p : stream_ok p -> run skip_newlines p (within (work p)).
Proof. intros Hp. apply run_skip_loop; [done|by apply work_fuel]. Qed.

(** A parser that returns wherever at most [n] is left. *)
Definition total {A} (n : nat) (m : P A) : Prop := forall p, stream_ok p -> work p <= n -> run m p (within (work p)).

Section Lists.
Context {T : Type} (m : P T) (n : nat) (Hm : total n m).

Lemma run_comma_loop terminator fuel : forall p items, stream_ok p -> work p < fuel -> work p <= n ->
  run (comma_loop terminator m fuel items) p (within (work p)).
Proof.
  induction fuel as [|fuel IH]; intros p items Hp Hf Hn; [lia|]. cbn [comma_loop].
  eapply run_bind; [by apply run_eat|]. after. destruct a as [t|]; [|apply run_ret; [done|]; unfold within; lia].
  destruct Hw as [_ Hw]. specialize (Hw ltac:(done)).
  eapply run_bind; [by apply run_skip|]. after. apply run_at; [done|]. intros k [] _ _; [apply run_ret; [done|]; unfold within; lia|].
  eapply run_bind; [apply Hm; [done|lia]|]. after. eapply run_imp; [apply IH; [done|lia|lia]|]. unfold within. intros. lia.
Qed.

Lemma run_comma_separated terminator : total n (comma_separated terminator m).
Proof.
  intros p Hp Hn. eapply run_bind; [by apply run_skip|]. after. apply run_at; [done|].
  intros k [] _ _; [apply run_ret; [done|]; unfold within; lia|].
  eapply run_bind; [apply Hm; [done|lia]|]. after.
  eapply run_bind; [apply run_comma_loop; [done|by apply work_fuel|lia]|]. after.
  eapply run_bind; [by apply run_skip|]. after. apply run_ret; [done|]. unfold within. lia.
Qed.
End Lists.

(** ** The grammar *)

Section Grammar_total.
Context (m : P TypeExpr) (n : nat).
(** The parser of types returns wherever less than [n] is left. *)
Hypothesis Hm : forall p, stream_ok p -> work p < n -> run m p (within (work p)).

Lemma below k : k < n -> total k m.
Proof. intros Hk p Hp Hw. apply Hm; [done|lia]. Qed.

(** Past a token that is not the end of file, less is left. *)
Lemma run_past p k : stream_ok p -> p_peek p = Some (k, p) -> k <> TkEndOfFile -> run p_advance p (fun _ left => left < work p).
Proof. intros Hp Hk Hne. eapply run_imp; [by apply run_advance|]. intros t left [_ H]. by apply (H k). Qed.

Lemma run_function p : stream_ok p -> work p <= n -> p_peek p = Some (TkFn, p) -> run (parse_function_type m) p (within (work p)).
Proof.
  intros Hp Hn Hk. unfold parse_function_type, current_span at 1.
  destruct (current_ok p Hp) as [t Ht]. unfold run, bindP at 1 2, current, retP. rewrite Ht. cbn [mbind option_bind].
  eapply run_bind; [by eapply run_past|]. after. eapply run_bind; [by apply run_expect|]. after.
  eapply run_bind; [apply (run_comma_separated m (work p1) (below (work p1) ltac:(lia))); [done|lia]|]. after.
  eapply run_bind; [by apply run_expect|]. after. eapply run_bind; [by apply run_expect|]. after.
  eapply run_bind; [apply Hm; [done|lia]|]. after. eapply run_bind; [by apply run_span_from|]. after.
  apply run_ret; [done|]. unfold within. lia.
Qed.

Lemma run_tuple_loop fuel : forall p els, stream_ok p -> work p < fuel -> work p < n ->
  run (tuple_loop m fuel els) p (within (work p)).
Proof.
  induction fuel as [|fuel IH]; intros p els Hp Hf Hn; [lia|]. cbn [tuple_loop].
  apply run_at; [done|]. intros k b _ _. apply run_eof; [done|]. intros e. destruct (b || e).
  - eapply run_bind; [by apply run_span|]. after. eapply run_bind; [by apply run_push|]. after.
    apply run_ret; [done|]. unfold within. lia.
  - eapply run_bind; [apply Hm; [done|lia]|]. after. eapply run_bind; [by apply run_eat|]. after.
    destruct a0 as [t|]; [|apply run_ret; [done|]; unfold within; lia]. destruct Hw0 as [_ Hw0]. specialize (Hw0 ltac:(done)).
    eapply run_bind; [by apply run_skip|]. after. eapply run_imp; [apply IH; [done|lia|lia]|]. unfold within. intros. lia.
Qed.

Lemma run_paren p : stream_ok p -> work p <= n -> p_peek p = Some (TkLParen, p) -> run (parse_paren_type m) p (within (work p)).
Proof.
  intros Hp Hn Hk. unfold parse_paren_type, current_span at 1.
  destruct (current_ok p Hp) as [t Ht]. unfold run, bindP at 1 2, current, retP. rewrite Ht. cbn [mbind option_bind].
  eapply run_bind; [by eapply run_past|]. after. eapply run_bind; [by apply run_skip|]. after.
  eapply run_bind; [by apply run_eat|]. after. destruct a1 as [c|].
  { eapply run_bind; [by apply run_span_from|]. after. apply run_ret; [done|]. unfold within. lia. }
  eapply run_bind; [apply Hm; [done|lia]|]. after. eapply run_bind; [by apply run_eat|]. after. destruct a2 as [c|].
  - eapply run_bind; [by apply run_skip|]. after.
    eapply run_bind; [apply run_tuple_loop; [done|by apply work_fuel|lia]|]. after.
    eapply run_bind; [by apply run_skip|]. after. eapply run_bind; [by apply run_expect|]. after.
    eapply run_bind; [by apply run_span_from|]. after. apply run_ret; [done|]. unfold within. lia.
  - eapply run_bind; [by apply run_skip|]. after. eapply run_bind; [by apply run_expect|]. after.
    apply run_ret; [done|]. unfold within. lia.
Qed.

Lemma run_generic_loop fuel : forall p args, stream_ok p -> work p < fuel -> work p < n ->
  run (generic_loop m fuel args) p (within (work p)).
Proof.
  induction fuel as [|fuel IH]; intros p args Hp Hf Hn; [lia|]. cbn [generic_loop].
  eapply run_bind; [by apply run_eat|]. after. destruct a as [t|]; [|apply run_ret; [done|]; unfold within; lia].
  destruct Hw as [_ Hw]. specialize (Hw ltac:(done)). eapply run_bind; [apply Hm; [done|lia]|]. after.
  eapply run_imp; [apply IH; [done|lia|lia]|]. unfold within. intros. lia.
Qed.

Lemma run_generic_args path start : total n (parse_optional_generic_args m path start).
Proof.
  intros p Hp Hn. eapply run_bind; [by apply run_eat|]. after. destruct a as [t|].
  - destruct Hw as [_ Hw]. specialize (Hw ltac:(done)). eapply run_bind; [apply Hm; [done|lia]|]. after.
    eapply run_bind; [apply run_generic_loop; [done|by apply work_fuel|lia]|]. after.
    eapply run_bind; [by apply run_expect_gt|]. after. eapply run_bind; [by apply run_span_from|]. after.
    apply run_ret; [done|]. unfold within. lia.
  - eapply run_bind; [by apply run_span_from|]. after. apply run_ret; [done|]. unfold within. lia.
Qed.

Lemma run_dotted_types fuel : forall p path, stream_ok p -> work p < fuel -> run (dotted_types fuel path) p (within (work p)).
Proof.
  induction fuel as [|fuel IH]; intros p path Hp Hf; [lia|]. cbn [dotted_types].
  eapply run_bind; [by apply run_eat|]. after. destruct a as [t|]; [|apply run_ret; [done|]; unfold within; lia].
  destruct Hw as [_ Hw]. specialize (Hw ltac:(done)). apply run_peek; [done|]. intros k _.
  destruct k; try (apply run_ret; [done|]; unfold within; lia).
  eapply run_bind; [by apply run_type_name|]. after. eapply run_imp; [apply IH; [done|lia]|]. unfold within. intros. lia.
Qed.

Lemma run_dotted_loop fuel start : forall p path, stream_ok p -> work p < fuel -> work p <= n ->
  run (dotted_loop m fuel start path) p (within (work p)).
Proof.
  induction fuel as [|fuel IH]; intros p path Hp Hf Hn; [lia|]. cbn [dotted_loop]. apply run_peek; [done|].
  intros k _. destruct k; try (by apply run_generic_args).
  - eapply run_bind; [by apply run_name|]. after. eapply run_bind; [by apply run_eat|]. after. destruct a0 as [t|].
    + destruct Hw0 as [_ Hw0]. specialize (Hw0 ltac:(done)).
      eapply run_imp; [apply IH; [done|lia|lia]|]. unfold within. intros. lia.
    + eapply run_bind; [by apply run_span_from|]. after. apply run_ret; [done|]. unfold within. lia.
  - eapply run_bind; [by apply run_type_name|]. after.
    eapply run_bind; [apply run_dotted_types; [done|by apply work_fuel]|]. after.
    eapply run_imp; [apply run_generic_args; [done|lia]|]. unfold within. intros. lia.
Qed.

Lemma run_dotted : total n (parse_dotted_type_path m).
Proof.
  intros p Hp Hn. eapply run_bind; [by apply run_span|]. after.
  eapply run_imp; [apply run_dotted_loop; [done|by apply work_fuel|lia]|]. unfold within. intros. lia.
Qed.

Lemma run_primary : total n (parse_primary_type_expr m).
Proof.
  intros p Hp Hn. apply run_peek; [done|]. intros k Hk.
  destruct k; try (eapply run_bind; [by apply run_span|]; after; eapply run_bind; [by apply run_found|]; after;
    eapply run_bind; [by apply run_push|]; after; eapply run_bind; [by apply run_advance|]; after;
    apply run_ret; [done|]; unfold within; lia).
  - by apply run_dotted.
  - case_bool_decide; [|by apply run_dotted]. eapply run_bind; [by apply run_span|]. after.
    eapply run_bind; [by apply run_advance|]. after. eapply run_bind; [by apply run_span_from|]. after.
    apply run_ret; [done|]. unfold within. lia.
  - by apply run_function.
  - by apply run_paren.
Qed.

Lemma run_union_loop fuel : forall p types, stream_ok p -> work p < fuel -> work p <= n ->
  run (union_loop m fuel types) p (within (work p)).
Proof.
  induction fuel as [|fuel IH]; intros p types Hp Hf Hn; [lia|]. cbn [union_loop].
  eapply run_bind; [by apply run_eat|]. after. destruct a as [t|]; [|apply run_ret; [done|]; unfold within; lia].
  destruct Hw as [_ Hw]. specialize (Hw ltac:(done)). eapply run_bind; [apply run_primary; [done|lia]|]. after.
  eapply run_imp; [apply IH; [done|lia|lia]|]. unfold within. intros. lia.
Qed.

Lemma run_union : total n (parse_union_type m).
Proof.
  intros p Hp Hn. eapply run_bind; [by apply run_primary|]. after. apply run_at; [done|].
  intros k [] _ _; [|apply run_ret; [done|]; unfold within; lia].
  eapply run_bind; [apply run_union_loop; [done|by apply work_fuel|lia]|]. after.
  eapply run_bind; [by apply run_span_from|]. after. apply run_ret; [done|]. unfold within. lia.
Qed.
End Grammar_total.

Lemma run_type_depth fuel : forall p, stream_ok p -> work p < fuel -> run (parse_type_depth fuel) p (within (work p)).
Proof.
  induction fuel as [|fuel IH]; intros p Hp Hf; [lia|]. cbn [parse_type_depth].
  apply (run_union _ fuel IH); [done|lia].
Qed.

Lemma run_type p : stream_ok p -> run parse_type_expr p (within (work p)).
Proof. intros Hp. apply run_type_depth; [done|by apply work_fuel]. Qed.

Lemma run_bound p : stream_ok p -> run (parse_primary_type_expr parse_type_expr) p (within (work p)).
Proof. intros Hp. apply (run_primary _ (work p)); [|done|done]. intros. by apply run_type. Qed.

(** ** Impl targets *)

Lemma run_bounds_loop fuel : forall p ts, stream_ok p -> work p < fuel -> run (bounds_loop fuel ts) p (within (work p)).
Proof.
  induction fuel as [|fuel IH]; intros p ts Hp Hf; [lia|]. cbn [bounds_loop].
  eapply run_bind; [by apply run_eat|]. after. destruct a as [t|]; [|apply run_ret; [done|]; unfold within; lia].
  destruct Hw as [_ Hw]. specialize (Hw ltac:(done)). eapply run_bind; [by apply run_bound|]. after.
  eapply run_imp; [apply IH; [done|lia]|]. unfold within. intros. lia.
Qed.

Lemma run_impl_arg bounds p : stream_ok p -> run (parse_impl_target_arg bounds) p (within (work p)).
Proof.
  intros Hp. eapply run_bind; [by apply run_type|]. after. eapply run_bind; [by apply run_eat|]. after.
  destruct a0 as [t|]; [|apply run_ret; [done|]; unfold within; lia].
  eapply run_bind; [by apply run_bound|]. after.
  eapply run_bind; [apply run_bounds_loop; [done|by apply work_fuel]|]. after.
  destruct a as [[|nm [|]]| | | | | |]; try (apply run_ret; [done|]; unfold within; lia).
  all: eapply run_bind; [by apply run_push|]; after; apply run_ret; [done|]; unfold within; lia.
Qed.

Lemma run_impl_args fuel : forall p args bounds, stream_ok p -> work p < fuel ->
  run (impl_args_loop fuel args bounds) p (within (work p)).
Proof.
  induction fuel as [|fuel IH]; intros p args bounds Hp Hf; [lia|]. cbn [impl_args_loop].
  eapply run_bind; [by apply run_impl_arg|]. after. eapply run_bind; [by apply run_eat|]. after.
  destruct a0 as [t|]; [|apply run_ret; [done|]; unfold within; lia].
  destruct Hw0 as [_ Hw0]. specialize (Hw0 ltac:(done)). eapply run_imp; [apply IH; [done|lia]|]. unfold within. intros. lia.
Qed.

Lemma run_impl_target p : stream_ok p -> run parse_impl_target p (within (work p)).
Proof.
  intros Hp. apply run_peek; [done|]. intros k _.
  destruct k; try (eapply run_bind; [by apply run_type|]; after; apply run_ret; [done|]; unfold within; lia).
  eapply run_bind; [by apply run_span|]. after. eapply run_bind; [by apply run_type_name|]. after.
  eapply run_bind; [apply run_dotted_types; [done|by apply work_fuel]|]. after.
  eapply run_bind; [by apply run_eat|]. after. destruct a2 as [t|].
  - eapply run_bind; [apply run_impl_args; [done|by apply work_fuel]|]. after.
    eapply run_bind; [by apply run_expect_gt|]. after. eapply run_bind; [by apply run_span_from|]. after.
    apply run_ret; [done|]. unfold within. lia.
  - eapply run_bind; [by apply run_span_from|]. after. apply run_ret; [done|]. unfold within. lia.
Qed.

(** C13: the type parser is total. For every source the lexer returns, and from every token
    of it, whatever the tokens are, the parser of types and the parser of impl targets
    return without a panic and without looping; they stay inside the tokens and never go
    back, so they keep the end of file in front of whoever parses on. *)
Theorem type_parser_total (source : list Z) (file : Z) (n : nat) :
  exists r, lex source file = Some r /\
    let p := mkParser (result_tokens r) n (result_errors r) None in
    (n < length (result_tokens r) ->
     (exists t p', parse_type_expr p = Some (t, p') /\ n <= p_pos p' < length (p_tokens p') /\ p_tokens p' = result_tokens r)
     /\ (exists t bounds p', parse_impl_target p = Some ((t, bounds), p') /\ n <= p_pos p' < length (p_tokens p')
          /\ p_tokens p' = result_tokens r)).
Proof.
  destruct (run_loop_runs (S (length source)) (lexer_new source file) [] source ltac:(lia) (cursor_new_at source))
    as (l & ps & es & Hl & _).
  unfold lex, Lexer.run, cursor_len. simpl length. rewrite Hl. cbn [mbind option_bind].
  eexists. split; [done|]. cbv zeta. intros Hn. set (p := mkParser _ n _ None).
  assert (stream_ok p) as Hp.
  { constructor; [by left|done|]. unfold p, finish. simpl. by rewrite last_snoc. }
  assert (forall q, stream_ok q -> p_tokens q = p_tokens p -> work q <= work p -> n <= p_pos q < length (p_tokens q)) as Hin.
  { intros q [_ Hq _] Ht Hw. split; [|done]. unfold work in Hw. rewrite Ht in *. simpl in *.
    destruct (pending_token q); lia. }
  split.
  - destruct (run_type p Hp) as (t & q & Hq & Hok & Ht & Hw). exists t, q. auto.
  - destruct (run_impl_target p Hp) as ([t bounds] & q & Hq & Hok & Ht & Hw). exists t, bounds, q. auto.
Qed.
