(* ===== verification/TypeKinds.v ===== *)
(** * The type parser on the tokens of a type

    [type_kinds] are the tokens of a type as the formatter spells it, with one token per
    closing angle bracket; [merge] is what the lexer makes of adjacent ones. [at_stream] is
    the parser in front of a token stream, with the half of a [>>] it may have kept.
    [parse_type_kinds]: in front of the tokens of a [printable] type the parser returns that
    type, up to spans, without an error, whatever ends it. *)

From Stdlib Require Import Ascii String.
From S2P Require Import Prelude Types Chars Doc Lexer TypeParser.
Local Open Scope Z_scope.
Local Open Scope parser_scope.

Lemma type_expr_ind' (Q : TypeExpr -> Prop) :
  (forall path r sp, Q (TeNamed path r sp)) ->
  (forall path args r sp, Forall Q args -> Q (TeGeneric path args r sp)) ->
  (forall sp, Q (TeUnit sp)) ->
  (forall params ret sp, Forall Q params -> Q ret -> Q (TeFunction params ret sp)) ->
  (forall sp, Q (TeSelf sp)) ->
  (forall elements sp, Forall Q elements -> Q (TeTuple elements sp)) ->
  (forall types sp, Forall Q types -> Q (TeUnion types sp)) -> forall t, Q t.
Proof.
  intros Hn Hg Hu Hf Hs Ht Hun. fix IH 1. intros [path r sp|path args r sp|sp|params ret sp|sp|els sp|types sp].
  - apply Hn.
  - apply Hg. induction args; constructor; [apply IH|assumption].
  - apply Hu.
  - apply Hf; [|apply IH]. induction params; constructor; [apply IH|assumption].
  - apply Hs.
  - apply Ht. induction els; constructor; [apply IH|assumption].
  - apply Hun. induction types; constructor; [apply IH|assumption].
Qed.

(** ** The tokens of a type *)

Fixpoint join_kinds (sep : TokenKind) (ls : list (list TokenKind)) : list TokenKind :=
  match ls with
  | [] => []
  | [l] => l
  | l :: ls => l ++ sep :: join_kinds sep ls
  end.

Definition path_kinds (path : list Name) : list TokenKind :=
  join_kinds TkDot (map (fun n => [TkTypeIdent (name_text n)]) path).

(** Every closing angle bracket is a token of its own. *)
Fixpoint type_kinds (t : TypeExpr) : list TokenKind :=
  match t with
  | TeNamed path _ _ => path_kinds path
  | TeGeneric path args _ _ => path_kinds path ++ TkLt :: join_kinds TkComma (map type_kinds args) ++ [TkGt]
  | TeUnit _ => [TkLParen; TkRParen]
  | TeSelf _ => [TkTypeIdent (str "Self")]
  | TeFunction params ret _ =>
      TkFn :: TkLParen :: join_kinds TkComma (map type_kinds params) ++ TkRParen :: TkArrow :: type_kinds ret
  | TeTuple elements _ => TkLParen :: join_kinds TkComma (map type_kinds elements) ++ [TkRParen]
  | TeUnion types _ => join_kinds TkPipe (map type_kinds types)
  end.

Fixpoint merge (ks : list TokenKind) : list TokenKind :=
  match ks with
  | [] => []
  | TkGt :: rest => match rest with TkGt :: ks => TkGtGt :: merge ks | _ => TkGt :: merge rest end
  | k :: ks => k :: merge ks
  end.

(** ** Which types are printed faithfully *)

Definition is_function (t : TypeExpr) : bool := match t with TeFunction _ _ _ => true | _ => false end.
Definition is_union (t : TypeExpr) : bool := match t with TeUnion _ _ => true | _ => false end.

Definition type_word (w : list Z) : bool :=
  match w with c :: _ => is_ascii_uppercase c | [] => false end && forallb is_ident_char w.

(** Type names, of which the first is not [Self]. *)
Definition path_ok (path : list Name) : bool :=
  match path with n :: _ => negb (bool_decide (name_text n = str "Self")) | [] => false end
  && forallb (fun n => type_word (name_text n)) path.

(** Members of a union: none is a union, only the last may be a function. *)
Fixpoint members_ok (ts : list TypeExpr) : bool :=
  match ts with
  | [] => true
  | [t] => negb (is_union t)
  | t :: ts => negb (is_union t) && negb (is_function t) && members_ok ts
  end.

Fixpoint printable (t : TypeExpr) : bool :=
  match t with
  | TeNamed path _ _ => path_ok path
  | TeGeneric path args _ _ => path_ok path && (1 <=? length args)%nat && forallb printable args
  | TeUnit _ | TeSelf _ => true
  | TeFunction params ret _ => forallb printable params && printable ret
  | TeTuple elements _ => (2 <=? length elements)%nat && forallb printable elements
  | TeUnion types _ => (2 <=? length types)%nat && forallb printable types && members_ok types
  end.

(** ** The parser in front of a token stream *)

Definition rest_is (p : Parser) (ks : list TokenKind) : Prop :=
  kind <$> drop (p_pos p) (p_tokens p) = merge (ks ++ [TkEndOfFile]).

Definition at_stream (p : Parser) (ks : list TokenKind) : Prop :=
  pending_token p = None /\ rest_is p ks
  \/ pending_token p = Some TkGt /\ exists ks', ks = TkGt :: ks' /\ rest_is p ks'.

Record same (p p' : Parser) : Prop := { same_tokens : p_tokens p' = p_tokens p; same_errors : p_errors p' = p_errors p }.

(** [m] returns without an error, in front of [ks]. *)
Definition yields {A} (m : P A) (p : Parser) (Q : A -> Prop) (ks : list TokenKind) : Prop :=
  exists a p', m p = Some (a, p') /\ Q a /\ at_stream p' ks /\ same p p'.

(** What [p_peek] shows of a stream. *)
Definition shows (ks : list TokenKind) (k : TokenKind) : Prop :=
  match ks with
  | [] => k = TkEndOfFile
  | TkGt :: _ => k = TkGt \/ k = TkGtGt
  | x :: _ => k = x
  end.

Lemma merge_nil ks : merge ks = [] -> ks = [].
Proof. destruct ks as [|k ks]; [done|]. destruct k; try done. by destruct ks as [|[] ks]. Qed.

Lemma merge_cons k ks : k <> TkGt -> merge (k :: ks) = k :: merge ks.
Proof. by destruct k. Qed.

Lemma merge_gt ks : (exists ks', ks = TkGt :: ks' /\ merge (TkGt :: ks) = TkGtGt :: merge ks')
  \/ merge (TkGt :: ks) = TkGt :: merge ks.
Proof. destruct ks as [|[] ks]; simpl; eauto. Qed.

Lemma merge_snoc k ks : k <> TkGt -> merge (ks ++ [k]) = merge ks ++ [k].
Proof.
  intros Hk. induction ks as [ks IH] using (induction_ltof1 _ length). unfold ltof in IH. destruct ks as [|x ks]; [by destruct k|].
  destruct (decide (x = TkGt)) as [->|Hx].
  - destruct ks as [|y ks]; [by destruct k|]. destruct (decide (y = TkGt)) as [->|Hy].
    + simpl. by rewrite (IH ks) by (simpl; lia).
    + transitivity (TkGt :: merge ((y :: ks) ++ [k])); [by destruct y|]. rewrite IH by (simpl; lia). by destruct y.
  - cbn [app]. rewrite !merge_cons, IH by (done || simpl; lia). done.
Qed.

Lemma merge_length ks : (length ks <= 2 * length (merge ks))%nat.
Proof.
  induction ks as [ks IH] using (induction_ltof1 _ length). unfold ltof in IH. destruct ks as [|k ks]; [done|].
  destruct (decide (k = TkGt)) as [->|Hk].
  - destruct (merge_gt ks) as [(ks' & -> & E)| E]; rewrite E; simpl.
    + specialize (IH ks'). simpl in IH. lia.
    + specialize (IH ks). simpl in IH. lia.
  - rewrite merge_cons by done. specialize (IH ks). simpl in *. lia.
Qed.

Lemma same_refl p : same p p.
Proof. done. Qed.

Lemma same_trans p1 p2 p3 : same p1 p2 -> same p2 p3 -> same p1 p3.
Proof. intros [? ?] [? ?]. constructor; congruence. Qed.

Lemma yields_ret {A} (a : A) p (Q : A -> Prop) ks : at_stream p ks -> Q a -> yields (retP a) p Q ks.
Proof. intros. exists a, p. by repeat split. Qed.

Lemma yields_bind {A B} (m : P A) (k : A -> P B) p Q R ks ks' : yields m p Q ks ->
  (forall a p', Q a -> at_stream p' ks -> same p p' -> yields (k a) p' R ks') -> yields (bindP m k) p R ks'.
Proof.
  intros (a & p1 & Hm & Ha & Hs & H1) Hk. destruct (Hk a p1 Ha Hs H1) as (b & p2 & Hb & HR & Hs' & H2).
  exists b, p2. unfold bindP. rewrite Hm. repeat split; try done; by eapply same_trans.
Qed.

Lemma yields_imp {A} (m : P A) p (Q R : A -> Prop) ks :
  yields m p Q ks -> (forall a, Q a -> R a) -> yields m p R ks.
Proof. intros (a & p' & Hm & HQ & Hs & Hsame) Himp. exists a, p'. auto. Qed.

(** There is a token in front of the parser, not the last one unless the stream is empty. *)
Lemma rest_current p ks : rest_is p ks ->
  exists t, p_tokens p !! p_pos p = Some t /\ head (merge (ks ++ [TkEndOfFile])) = Some (kind t).
Proof.
  unfold rest_is. intros H. destruct (drop (p_pos p) (p_tokens p)) as [|t ts] eqn:E.
  - symmetry in H. apply merge_nil in H. by destruct ks.
  - exists t. split; [|by rewrite <- H]. rewrite <- (Nat.add_0_r (p_pos p)), <- lookup_drop, E. done.
Qed.

Lemma stream_current p ks : at_stream p ks -> exists t, p_tokens p !! p_pos p = Some t.
Proof. intros [[_ H]|(_ & ks' & _ & H)]; apply rest_current in H as (t & Ht & _); by exists t. Qed.

Lemma rest_shows p ks t : rest_is p ks -> p_tokens p !! p_pos p = Some t -> shows ks (kind t).
Proof.
  intros H Ht. destruct (rest_current p ks H) as (t' & Ht' & Hh). simplify_eq.
  destruct ks as [|k ks]; [injection Hh as <-; done|]. cbn [app] in Hh. destruct (decide (k = TkGt)) as [->|Hk].
  - destruct (merge_gt (ks ++ [TkEndOfFile])) as [(ks' & _ & E)| E]; rewrite E in Hh; injection Hh as <-; simpl; auto.
  - rewrite merge_cons in Hh by done. injection Hh as ->. by destruct (kind t).
Qed.

Lemma peek_shows p ks : at_stream p ks -> exists k, p_peek p = Some (k, p) /\ shows ks k.
Proof.
  intros Hs. destruct (stream_current p ks Hs) as [t Ht]. unfold p_peek, bindP, current, retP. rewrite Ht.
  destruct Hs as [[-> H]|(-> & ks' & -> & H)]; simpl; eexists; (split; [done|]); [by eapply rest_shows|by left].
Qed.

Lemma yields_peek p ks : at_stream p ks -> yields p_peek p (shows ks) ks.
Proof. intros Hs. destruct (peek_shows p ks Hs) as (k & Hk & Hsh). exists k, p. by repeat split. Qed.

Lemma yields_span p ks : at_stream p ks -> yields current_span p (fun _ => True) ks.
Proof.
  intros Hs. destruct (stream_current p ks Hs) as [t Ht]. exists (token_span t), p.
  unfold current_span, current, bindP, retP. rewrite Ht. by repeat split.
Qed.

Lemma yields_span_from p ks start : at_stream p ks -> yields (p_span_from start) p (fun _ => True) ks.
Proof.
  intros Hs. destruct (stream_current p ks Hs) as [t Ht]. unfold p_span_from, prev_end.
  assert (exists e, (match p_pos p with
    | O => Some (mkPosition 0 1 1, p)
    | S n => t ← p_tokens p !! n; Some (span_end (token_span t), p) end) = Some (e, p)) as [e He].
  { destruct (p_pos p) as [|n]; [by eexists|]. apply lookup_lt_Some in Ht.
    destruct (lookup_lt_is_Some_2 (p_tokens p) n) as [t' ->]; [lia|]. by eexists. }
  eexists _, p. unfold bindP, retP. rewrite He. by repeat split.
Qed.

(** Consuming the token in front. *)
Lemma rest_next p k ks : rest_is p (k :: ks) -> k <> TkGt ->
  exists t, p_tokens p !! p_pos p = Some t /\ kind t = k /\ (S (p_pos p) < length (p_tokens p))%nat
    /\ rest_is (mkParser (p_tokens p) (S (p_pos p)) (p_errors p) None) ks.
Proof.
  intros H Hk. destruct (rest_current _ _ H) as (t & Ht & Hh). exists t. split; [done|].
  cbn [app] in Hh. rewrite merge_cons in Hh by done. injection Hh as ->. split; [done|].
  unfold rest_is in *. cbn [app] in H. rewrite merge_cons in H by done.
  rewrite (drop_S _ _ _ Ht) in H. simpl in H. injection H as H. simpl. split; [|done].
  destruct (decide (S (p_pos p) < length (p_tokens p))%nat); [done|].
  rewrite drop_ge in H by lia. symmetry in H. apply merge_nil in H. by destruct ks.
Qed.

Lemma yields_advance p k ks : at_stream p (k :: ks) -> k <> TkGt ->
  yields p_advance p (fun t => kind t = k) ks.
Proof.
  intros [[Hp H]|(_ & ks' & [= -> _] & _)] Hk; [|done].
  destruct (rest_next p k ks H Hk) as (t & Ht & Hkt & Hlt & Hr). unfold yields, p_advance. rewrite Hp, Ht.
  cbn [mbind option_bind]. rewrite bool_decide_eq_true_2 by done. eexists _, _. split; [done|]. split; [done|].
  split; [left; by split|done].
Qed.

(** ** Looking and expecting *)

(** The stream does not start with a token like [k]. *)
Definition head_not (k : TokenKind) (ks : list TokenKind) : Prop :=
  forall x, shows ks x -> discriminant x <> discriminant k.

Lemma yields_at_here p k k' ks : at_stream p (k' :: ks) -> k' <> TkGt -> discriminant k' = discriminant k ->
  yields (p_at k) p (fun b => b = true) (k' :: ks).
Proof.
  intros Hs Hk Hd. eapply yields_bind; [by apply yields_peek|]. intros x p' Hx Hs' _.
  apply yields_ret; [done|]. apply bool_decide_eq_true. destruct k'; simpl in Hx; subst; done.
Qed.

Lemma yields_at_not p k ks : at_stream p ks -> head_not k ks -> yields (p_at k) p (fun b => b = false) ks.
Proof.
  intros Hs Hk. eapply yields_bind; [by apply yields_peek|]. intros x p' Hx Hs' _.
  apply yields_ret; [done|]. by apply bool_decide_eq_false, Hk.
Qed.

Lemma yields_not_eof p ks : at_stream p ks -> head_not TkEndOfFile ks -> yields at_eof p (fun b => b = false) ks.
Proof.
  intros Hs Hn. eapply yields_bind; [by apply yields_peek|]. intros x p' Hx Hs' _. apply yields_ret; [done|].
  apply bool_decide_eq_false. intros ->. by apply (Hn _ Hx).
Qed.

Lemma yields_eat_here p k k' ks : at_stream p (k' :: ks) -> k' <> TkGt -> discriminant k' = discriminant k ->
  yields (p_eat k) p (fun t => exists x, t = Some x) ks.
Proof.
  intros Hs Hk Hd. eapply yields_bind; [by apply yields_at_here|]. intros b p' -> Hs' _.
  eapply yields_bind; [by apply yields_advance|]. intros t p'' _ Hs'' _. apply yields_ret; [done|by eexists].
Qed.

Lemma yields_eat_not p k ks : at_stream p ks -> head_not k ks -> yields (p_eat k) p (fun t => t = None) ks.
Proof.
  intros Hs Hk. eapply yields_bind; [by apply yields_at_not|]. intros b p' -> Hs' _. by apply yields_ret.
Qed.

Lemma yields_expect p k k' ks : at_stream p (k' :: ks) -> k' <> TkGt -> discriminant k' = discriminant k ->
  yields (p_expect k) p (fun _ => True) ks.
Proof.
  intros Hs Hk Hd. eapply yields_bind; [by apply yields_at_here|]. intros b p' -> Hs' _.
  destruct (yields_advance p' k' ks Hs' Hk) as (t & p'' & ? & _ & ? & ?). by exists t, p''.
Qed.

(** A closing angle bracket, alone or as half of a [>>]. *)
Lemma yields_expect_gt p ks : at_stream p (TkGt :: ks) -> yields expect_gt p (fun _ => True) ks.
Proof.
  intros [[Hp H]|(Hp & ks' & [= <-] & H)]; unfold expect_gt, yields, bindP, get_pending; rewrite Hp; simpl.
  2:{ exists tt. eexists. split; [done|]. split; [done|]. split; [left; by split|done]. }
  destruct (rest_current _ _ H) as (t & Ht & Hh). cbn [app] in Hh.
  assert (p_peek p = Some (kind t, p)) as Hpk by (unfold p_peek, bindP, current, retP; by rewrite Hp, Ht).
  assert (forall k, merge (TkGt :: ks ++ [TkEndOfFile]) = kind t :: k -> k <> [] ->
    p_advance p = Some (t, mkParser (p_tokens p) (S (p_pos p)) (p_errors p) None)
    /\ (kind <$> drop (S (p_pos p)) (p_tokens p)) = k) as Hadv.
  { intros k E Hne. unfold rest_is in H. cbn [app] in H. rewrite E, (drop_S _ _ _ Ht) in H. simpl in H. injection H as H.
    split; [|done]. unfold p_advance. rewrite Hp, Ht. cbn [mbind option_bind].
    rewrite bool_decide_eq_true_2; [done|]. destruct (decide (S (p_pos p) < length (p_tokens p))%nat); [done|].
    rewrite drop_ge in H by lia. by subst. }
  unfold p_eat, p_at, bindP, retP. rewrite Hpk.
  destruct (merge_gt (ks ++ [TkEndOfFile])) as [(ks' & E & Em)| Em]; rewrite Em in *; injection Hh as Hkt; rewrite <- Hkt.
  - destruct (Hadv (merge ks')) as [Ha Hd]; [by rewrite <- Hkt| |].
    { intros ->%merge_nil. destruct ks as [|? []]; discriminate. }
    rewrite bool_decide_eq_false_2 by done. rewrite Hpk, <- Hkt, bool_decide_eq_true_2 by done. rewrite Ha. simpl.
    exists tt. eexists. split; [done|]. split; [done|]. split; [|done].
    right. split; [done|]. destruct ks as [|k ks]; [discriminate|]. injection E as -> E. exists ks. split; [done|].
    unfold rest_is. simpl. by rewrite Hd, E.
  - destruct (Hadv (merge (ks ++ [TkEndOfFile]))) as [Ha Hd]; [by rewrite <- Hkt| |].
    { intros E%merge_nil. by destruct ks. }
    rewrite bool_decide_eq_true_2 by done. rewrite Ha. exists tt. eexists. split; [done|]. split; [done|]. split; [|done].
    left. split; [done|]. unfold rest_is. simpl. exact Hd.
Qed.

(** ** Loops *)

Lemma stream_fuel p ks : at_stream p ks -> (length ks < loop_fuel p)%nat.
Proof.
  assert (forall ks, rest_is p ks -> (length ks < 2 * length (p_tokens p))%nat) as Hr.
  { intros l H. pose proof (merge_length (l ++ [TkEndOfFile])) as Hm. unfold rest_is in H. rewrite <- H in Hm.
    rewrite length_fmap, length_drop, length_app in Hm. simpl in Hm. lia. }
  unfold loop_fuel. intros [[_ H]|(_ & ks' & -> & H)]; apply Hr in H; simpl; lia.
Qed.

Lemma same_fuel p p' : same p p' -> loop_fuel p' = loop_fuel p.
Proof. intros [H _]. unfold loop_fuel. by rewrite H. Qed.

Lemma yields_skip p ks : at_stream p ks -> head_not TkNewline ks -> yields skip_newlines p (fun _ => True) ks.
Proof.
  intros Hs Hn. unfold skip_newlines, with_fuel, loop_fuel.
  destruct (yields_bind p_peek (fun found => if bool_decide (found = TkNewline)
      then p_advance ;;; skip_newlines_loop (2 * length (p_tokens p)) else retP tt) p (shows ks) (fun _ => True) ks ks)
    as (a & p' & H & ? & ? & ?); [by apply yields_peek| |by exists a, p'].
  intros x p' Hx Hs' _. rewrite bool_decide_eq_false_2; [by apply yields_ret|].
  intros ->. by apply (Hn TkNewline Hx).
Qed.

(** Tokens a type can start with, and those that end one. *)
Definition starts (ks : list TokenKind) : bool :=
  match ks with TkFn :: _ | TkLParen :: _ | TkTypeIdent _ :: _ => true | _ => false end.

Definition stops (ks : list TokenKind) : bool :=
  match ks with [] | TkComma :: _ | TkGt :: _ | TkRParen :: _ => true | _ => false end.

Definition stops_member (ks : list TokenKind) : bool :=
  match ks with TkPipe :: _ => true | _ => stops ks end.

(** Shows by the first token that a stream does not start with [k]. *)
Ltac head_differs :=
  let x := fresh in let Hx := fresh in
  intros x Hx; repeat match goal with
    | H : starts ?l = true |- _ => destruct l as [|[] ?]; try discriminate H; clear H
    | H : stops ?l = true |- _ => destruct l as [|[] ?]; try discriminate H; clear H
    | H : stops_member ?l = true |- _ => destruct l as [|[] ?]; try discriminate H; clear H
    end; simpl in Hx; first [subst x; done | destruct Hx as [-> | ->]; done].

Lemma starts_app a b : starts a = true -> starts (a ++ b) = true.
Proof. by destruct a. Qed.

Definition tail_kinds (sep : TokenKind) (ts : list TypeExpr) : list TokenKind :=
  concat (map (fun t => sep :: type_kinds t) ts).

Lemma join_tail sep t ts : join_kinds sep (map type_kinds (t :: ts)) = type_kinds t ++ tail_kinds sep ts.
Proof.
  revert t. induction ts as [|t' ts IH]; intros t; [symmetry; apply app_nil_r|].
  change (join_kinds sep (map type_kinds (t :: t' :: ts)))
    with (type_kinds t ++ sep :: join_kinds sep (map type_kinds (t' :: ts))). by rewrite IH.
Qed.

Lemma path_tail n path : path_kinds (n :: path)
  = TkTypeIdent (name_text n) :: concat (map (fun n => [TkDot; TkTypeIdent (name_text n)]) path).
Proof.
  revert n. induction path as [|n' path IH]; intros n; [done|].
  change (path_kinds (n :: n' :: path)) with (TkTypeIdent (name_text n) :: TkDot :: path_kinds (n' :: path)). by rewrite IH.
Qed.

Lemma path_starts path : path_ok path = true -> starts (path_kinds path) = true.
Proof. destruct path as [|n path]; [done|]. by rewrite path_tail. Qed.

Lemma type_starts t : printable t = true -> starts (type_kinds t) = true.
Proof.
  induction t as [path r sp|path args r sp _|sp|params ret sp _ _|sp|els sp _|types sp IH] using type_expr_ind';
    intros Ht; simpl in *; try done.
  - by apply path_starts.
  - apply andb_true_iff in Ht as [[Hp _]%andb_true_iff _]. by apply starts_app, path_starts.
  - apply andb_true_iff in Ht as [[Hl Hp]%andb_true_iff _]. destruct types as [|t types]; [done|].
    rewrite join_tail. apply starts_app. apply Forall_cons in IH as [IH _]. simpl in Hp.
    by apply IH, (proj1 (andb_true_iff _ _) Hp).
Qed.

(** [m] reads the type [t] back. *)
Definition parses (m : P TypeExpr) (t : TypeExpr) : Prop := forall p ks,
  stops ks = true -> at_stream p (type_kinds t ++ ks) -> yields m p (fun t' => strip t' = strip t) ks.

Definition reads_list (ts : list TypeExpr) (r : list TypeExpr) : Prop := map strip r = map strip ts.

Lemma reads_snoc items t t' ts r : strip t' = strip t ->
  (exists ts', r = (items ++ [t']) ++ ts' /\ reads_list ts ts') -> exists ts', r = items ++ ts' /\ reads_list (t :: ts) ts'.
Proof.
  intros Ht (ts' & -> & Hts). exists (t' :: ts'). split; [by rewrite <- app_assoc|]. unfold reads_list in *. simpl. congruence.
Qed.

Lemma tail_length sep ts : (length ts <= length (tail_kinds sep ts))%nat.
Proof. induction ts as [|t ts IH]; [done|]. unfold tail_kinds in *. simpl. rewrite length_app. lia. Qed.

Section Lists.
Context (m : P TypeExpr).

Definition element (t : TypeExpr) : Prop := printable t = true /\ parses m t.

Lemma tail_stops ts ks : stops ks = true -> stops (tail_kinds TkComma ts ++ ks) = true.
Proof. by destruct ts. Qed.

Lemma yields_comma_loop ts ks : Forall element ts -> forall fuel p items, (length ts < fuel)%nat ->
  at_stream p (tail_kinds TkComma ts ++ TkRParen :: ks) ->
  yields (comma_loop TkRParen m fuel items) p (fun r => exists ts', r = items ++ ts' /\ reads_list ts ts') (TkRParen :: ks).
Proof.
  induction 1 as [|t ts [Ht Hp] _ IH]; intros [|fuel] p items Hf Hs; simpl in Hf; try lia.
  - eapply yields_bind; [by apply yields_eat_not; [done|head_differs]|]. intros c p1 -> Hs1 _.
    apply yields_ret; [done|]. exists []. by rewrite app_nil_r.
  - unfold tail_kinds in Hs. cbn [map concat] in Hs. rewrite <- app_assoc in Hs. cbn [app] in Hs.
    pose proof (starts_app _ (tail_kinds TkComma ts ++ TkRParen :: ks) (type_starts t Ht)) as Hst.
    eapply yields_bind; [by eapply yields_eat_here|]. intros c p1 [x ->] Hs1 _.
    eapply yields_bind; [apply yields_skip; [done|]|].
    { fold (tail_kinds TkComma ts). head_differs. }
    intros _ p2 _ Hs2 _. fold (tail_kinds TkComma ts) in Hs2.
    eapply yields_bind; [apply yields_at_not; [exact Hs2|head_differs]|]. intros b p3 -> Hs3 _.
    eapply yields_bind; [eapply Hp; [|exact Hs3]; by apply tail_stops|]. intros t' p4 Ht' Hs4 _.
    eapply yields_imp; [apply (IH fuel p4 (items ++ [t'])); [lia|done]|]. intros r. by apply reads_snoc.
Qed.

Lemma yields_comma_separated ts ks p : Forall element ts ->
  at_stream p (join_kinds TkComma (map type_kinds ts) ++ TkRParen :: ks) ->
  yields (comma_separated TkRParen m) p (reads_list ts) (TkRParen :: ks).
Proof.
  intros H Hs. destruct H as [|t ts [Ht Hp] H].
  - cbn [map join_kinds app] in Hs. eapply yields_bind; [apply yields_skip; [exact Hs|head_differs]|]. intros _ p1 _ Hs1 _.
    eapply yields_bind; [by eapply yields_at_here|]. intros b p2 -> Hs2 _. by apply yields_ret.
  - rewrite join_tail, <- app_assoc in Hs.
    pose proof (starts_app _ (tail_kinds TkComma ts ++ TkRParen :: ks) (type_starts t Ht)) as Hst.
    eapply yields_bind; [apply yields_skip; [exact Hs|head_differs]|]. intros _ p1 _ Hs1 _.
    eapply yields_bind; [apply yields_at_not; [exact Hs1|head_differs]|]. intros b p2 -> Hs2 _.
    eapply yields_bind; [eapply Hp; [|exact Hs2]; by apply tail_stops|]. intros t' p3 Ht' Hs3 _.
    eapply yields_bind; [apply yields_comma_loop; [done| |exact Hs3]|].
    { apply stream_fuel in Hs3. rewrite length_app in Hs3. simpl in Hs3. pose proof (tail_length TkComma ts). lia. }
    intros r p4 (ts' & -> & Hts) Hs4 _.
    eapply yields_bind; [apply yields_skip; [exact Hs4|head_differs]|]. intros _ p5 _ Hs5 _.
    apply yields_ret; [done|]. unfold reads_list in *. simpl in *. congruence.
Qed.

Lemma tail_cons sep t ts ks : tail_kinds sep (t :: ts) ++ ks = sep :: type_kinds t ++ tail_kinds sep ts ++ ks.
Proof. unfold tail_kinds. simpl. by rewrite <- app_assoc. Qed.

Lemma yields_tuple_loop ts ks : Forall element ts -> forall fuel p t items, element t -> (length ts < fuel)%nat ->
  at_stream p (type_kinds t ++ tail_kinds TkComma ts ++ TkRParen :: ks) ->
  yields (tuple_loop m fuel items) p (fun r => exists ts', r = items ++ ts' /\ reads_list (t :: ts) ts') (TkRParen :: ks).
Proof.
  intros H. induction H as [|t1 ts Ht1 _ IH]; intros [|fuel] p t items [Ht Hp] Hf Hs; simpl in Hf; try lia.
  all: match type of Hs with at_stream _ (_ ++ ?l) => pose proof (starts_app _ l (type_starts t Ht)) as Hst end.
  all: eapply yields_bind; [apply yields_at_not; [exact Hs|head_differs]|]; intros b p1 -> Hs1 _.
  all: eapply yields_bind; [apply yields_not_eof; [exact Hs1|head_differs]|]; intros b p2 -> Hs2 _.
  all: cbn [orb]; eapply yields_bind; [eapply Hp; [|exact Hs2]; by apply tail_stops|]; intros t' p3 Ht' Hs3 _.
  - eapply yields_bind; [apply yields_eat_not; [exact Hs3|head_differs]|]. intros c p4 -> Hs4 _.
    apply yields_ret; [done|]. exists [t']. split; [done|]. unfold reads_list. simpl. by rewrite Ht'.
  - rewrite tail_cons in Hs3. eapply yields_bind; [by eapply yields_eat_here|]. intros c p4 [x ->] Hs4 _.
    pose proof (starts_app _ (tail_kinds TkComma ts ++ TkRParen :: ks) (type_starts t1 (proj1 Ht1))) as Hst1.
    eapply yields_bind; [apply yields_skip; [exact Hs4|head_differs]|]. intros _ p5 _ Hs5 _.
    eapply yields_imp; [apply (IH fuel p5 t1 (items ++ [t'])); [done|lia|done]|]. intros r. by apply reads_snoc.
Qed.

Lemma yields_generic_loop ts ks : Forall element ts -> forall fuel p items, (length ts < fuel)%nat ->
  at_stream p (tail_kinds TkComma ts ++ TkGt :: ks) ->
  yields (generic_loop m fuel items) p (fun r => exists ts', r = items ++ ts' /\ reads_list ts ts') (TkGt :: ks).
Proof.
  induction 1 as [|t ts [Ht Hp] _ IH]; intros [|fuel] p items Hf Hs; simpl in Hf; try lia.
  - eapply yields_bind; [apply yields_eat_not; [exact Hs|head_differs]|]. intros c p1 -> Hs1 _.
    apply yields_ret; [done|]. exists []. by rewrite app_nil_r.
  - rewrite tail_cons in Hs. eapply yields_bind; [by eapply yields_eat_here|]. intros c p1 [x ->] Hs1 _.
    eapply yields_bind; [eapply Hp; [|exact Hs1]; by apply tail_stops|]. intros t' p2 Ht' Hs2 _.
    eapply yields_imp; [apply (IH fuel p2 (items ++ [t'])); [lia|done]|]. intros r. by apply reads_snoc.
Qed.
End Lists.

(** ** Names *)

Lemma yields_type_name p n ks : at_stream p (TkTypeIdent n :: ks) -> yields expect_type_name p (fun nm => name_text nm = n) ks.
Proof.
  intros Hs. eapply yields_bind; [by apply yields_span|]. intros sp p1 _ Hs1 _.
  eapply yields_bind; [|intros w p2 Hw Hs2 _; by apply yields_ret; [exact Hs2|exact Hw]].
  eapply yields_bind; [by apply yields_peek|]. intros k p2 Hk Hs2 _. simpl in Hk. subst k.
  eapply yields_bind; [by eapply yields_advance|]. intros t p3 _ Hs3 _. by apply yields_ret.
Qed.

Definition reads_path (path r : list Name) : Prop := map strip_name r = map strip_name path.

Lemma yields_dotted_types names ks : head_not TkDot ks -> forall fuel p path, (length names < fuel)%nat ->
  at_stream p (concat (map (fun n => [TkDot; TkTypeIdent (name_text n)]) names) ++ ks) ->
  yields (dotted_types fuel path) p (fun r => exists ns, r = path ++ ns /\ reads_path names ns) ks.
Proof.
  intros Hks. induction names as [|n names IH]; intros [|fuel] p path Hf Hs; simpl in Hf; try lia.
  - eapply yields_bind; [by apply yields_eat_not|]. intros c p1 -> Hs1 _. apply yields_ret; [done|].
    exists []. by rewrite app_nil_r.
  - cbn [map concat app] in Hs. eapply yields_bind; [by eapply yields_eat_here|]. intros c p1 [x ->] Hs1 _.
    eapply yields_bind; [by apply yields_peek|]. intros k p2 Hk Hs2 _. simpl in Hk. subst k.
    eapply yields_bind; [by apply yields_type_name|]. intros nm p3 Hnm Hs3 _.
    eapply yields_imp; [apply (IH fuel p3 (path ++ [nm])); [lia|done]|].
    intros r (ns & -> & Hns). exists (nm :: ns). split; [by rewrite <- app_assoc|].
    unfold reads_path, strip_name in *. simpl. rewrite Hnm. congruence.
Qed.

Lemma dots_length names : (length names <= length (concat (map (fun n => [TkDot; TkTypeIdent (name_text n)]) names)))%nat.
Proof. induction names as [|n names IH]; simpl; lia. Qed.

Lemma yields_dotted m path ks p Q ks' : path_ok path = true -> head_not TkDot ks ->
  (forall path' start p', reads_path path path' -> at_stream p' ks -> yields (parse_optional_generic_args m path' start) p' Q ks') ->
  at_stream p (path_kinds path ++ ks) -> yields (parse_dotted_type_path m) p Q ks'.
Proof.
  intros Hp Hks Hk Hs. destruct path as [|n path]; [done|]. rewrite path_tail in Hs. cbn [app] in Hs.
  eapply yields_bind; [by apply yields_span|]. intros start p1 _ Hs1 _.
  unfold with_fuel, loop_fuel. cbn [dotted_loop].
  eapply yields_bind; [by apply yields_peek|]. intros k p2 Hk2 Hs2 _. simpl in Hk2. subst k.
  eapply yields_bind; [by apply yields_type_name|]. intros nm p3 Hnm Hs3 _. cbn [app].
  eapply yields_bind; [apply (yields_dotted_types path ks); [done| |exact Hs3]|].
  { apply stream_fuel in Hs3. rewrite length_app in Hs3. pose proof (dots_length path). lia. }
  intros r p4 (ns & -> & Hns) Hs4 _. apply Hk; [|done]. unfold reads_path, strip_name in *. simpl. rewrite Hnm. by f_equal.
Qed.

(** The first name of a path is no [Self]. *)
Lemma primary_path m path ks p Q ks' : path_ok path = true -> at_stream p (path_kinds path ++ ks) ->
  (forall p', at_stream p' (path_kinds path ++ ks) -> yields (parse_dotted_type_path m) p' Q ks') ->
  yields (parse_primary_type_expr m) p Q ks'.
Proof.
  intros Hp Hs Hk. eapply yields_bind; [by apply yields_peek|]. intros k p1 Hk1 Hs1 _.
  destruct path as [|n path]; [done|]. rewrite path_tail in Hk1. simpl in Hk1. subst k.
  apply andb_true_iff in Hp as [Hself _]. apply negb_true_iff in Hself. rewrite Hself. by apply Hk.
Qed.

(** ** Types *)

(** The nesting of calls of the type parser. *)
Fixpoint depth (t : TypeExpr) : nat :=
  match t with
  | TeGeneric _ args _ _ => S (foldr (fun t n => Nat.max (depth t) n) 0%nat args)
  | TeFunction params ret _ => S (Nat.max (foldr (fun t n => Nat.max (depth t) n) 0%nat params) (depth ret))
  | TeTuple elements _ => S (foldr (fun t n => Nat.max (depth t) n) 0%nat elements)
  | TeUnion types _ => foldr (fun t n => Nat.max (depth t) n) 1%nat types
  | _ => 1%nat
  end.

Definition parses_member (m : P TypeExpr) (t : TypeExpr) : Prop := forall p ks,
  (if is_function t then stops ks else stops_member ks) = true -> at_stream p (type_kinds t ++ ks) ->
  yields (parse_primary_type_expr m) p (fun t' => strip t' = strip t) ks.

Lemma parses_named m path r sp : path_ok path = true -> parses_member m (TeNamed path r sp).
Proof.
  intros Hp p ks Hks Hs. simpl in Hks, Hs. eapply primary_path; [done|exact Hs|]. intros p1 Hs1.
  eapply yields_dotted; [done| | |exact Hs1]; [head_differs|]. intros path' start p2 Hpath Hs2.
  eapply yields_bind; [apply yields_eat_not; [exact Hs2|head_differs]|]. intros c p3 -> Hs3 _.
  eapply yields_bind; [by apply yields_span_from|]. intros sp' p4 _ Hs4 _.
  apply yields_ret; [done|]. simpl. by rewrite Hpath.
Qed.

Lemma parses_generic m path args r sp : path_ok path = true -> args <> [] -> Forall (element m) args ->
  parses_member m (TeGeneric path args r sp).
Proof.
  intros Hp Hne Hargs p ks Hks Hs. cbn [is_function type_kinds] in Hks, Hs. rewrite <- app_assoc in Hs. cbn [app] in Hs.
  eapply primary_path; [done|exact Hs|]. intros p1 Hs1.
  eapply yields_dotted; [done| | |exact Hs1]; [head_differs|]. intros path' start p2 Hpath Hs2.
  eapply yields_bind; [by eapply yields_eat_here|]. intros c p3 [x ->] Hs3 _.
  destruct Hargs as [|t ts [Ht Htp] Hts]; [done|]. rewrite join_tail, <- !app_assoc in Hs3. cbn [app] in Hs3.
  eapply yields_bind; [eapply Htp; [|exact Hs3]; by apply tail_stops|]. intros t' p4 Ht' Hs4 _.
  eapply yields_bind; [apply (yields_generic_loop m ts); [done| |exact Hs4]|].
  { apply stream_fuel in Hs4. rewrite length_app in Hs4. simpl in Hs4. pose proof (tail_length TkComma ts). lia. }
  intros l p5 (ts' & -> & Hl) Hs5 _. eapply yields_bind; [by apply yields_expect_gt|]. intros _ p6 _ Hs6 _.
  eapply yields_bind; [by apply yields_span_from|]. intros sp' p7 _ Hs7 _. apply yields_ret; [done|].
  unfold reads_list in Hl. simpl. by rewrite Hpath, Ht', Hl.
Qed.

Lemma parses_function m params ret sp : Forall (element m) params -> parses m ret ->
  parses_member m (TeFunction params ret sp).
Proof.
  intros Hps Hret p ks Hks Hs. cbn [is_function type_kinds] in Hks, Hs. cbn [app] in Hs. rewrite <- app_assoc in Hs. cbn [app] in Hs.
  eapply yields_bind; [by apply yields_peek|]. intros k p1 Hk Hs1 _. simpl in Hk. subst k.
  eapply yields_bind; [by apply yields_span|]. intros start p2 _ Hs2 _.
  eapply yields_bind; [by eapply yields_advance|]. intros _ p3 _ Hs3 _.
  eapply yields_bind; [by eapply yields_expect|]. intros _ p4 _ Hs4 _.
  eapply yields_bind; [by apply yields_comma_separated|]. intros ps p5 Hps' Hs5 _.
  eapply yields_bind; [by eapply yields_expect|]. intros _ p6 _ Hs6 _.
  eapply yields_bind; [by eapply yields_expect|]. intros _ p7 _ Hs7 _.
  eapply yields_bind; [by apply Hret|]. intros r p8 Hr Hs8 _.
  eapply yields_bind; [by apply yields_span_from|]. intros sp' p9 _ Hs9 _. apply yields_ret; [done|].
  unfold reads_list in Hps'. simpl. by rewrite Hps', Hr.
Qed.

Lemma parses_tuple m els sp : (2 <= length els)%nat -> Forall (element m) els -> parses_member m (TeTuple els sp).
Proof.
  intros Hlen Hels p ks Hks Hs. cbn [is_function type_kinds] in Hks, Hs. cbn [app] in Hs. rewrite <- app_assoc in Hs. cbn [app] in Hs.
  destruct Hels as [|t1 l [Ht1 Hp1] Hels]; [simpl in Hlen; lia|]. destruct Hels as [|t2 ts Ht2 Hts]; [simpl in Hlen; lia|].
  eapply yields_bind; [by apply yields_peek|]. intros k p1 Hk Hs1 _. simpl in Hk. subst k.
  eapply yields_bind; [by apply yields_span|]. intros start p2 _ Hs2 _.
  eapply yields_bind; [by eapply yields_advance|]. intros _ p3 _ Hs3 _. rewrite join_tail, <- app_assoc in Hs3.
  pose proof (fun ks => starts_app _ ks (type_starts t1 Ht1)) as Hst1.
  specialize (Hst1 (tail_kinds TkComma (t2 :: ts) ++ TkRParen :: ks)).
  eapply yields_bind; [apply yields_skip; [exact Hs3|head_differs]|]. intros _ p4 _ Hs4 _.
  eapply yields_bind; [apply yields_eat_not; [exact Hs4|head_differs]|]. intros c p5 -> Hs5 _.
  eapply yields_bind; [eapply Hp1; [|exact Hs5]; by apply tail_stops|]. intros t1' p6 Ht1' Hs6 _. rewrite tail_cons in Hs6.
  eapply yields_bind; [by eapply yields_eat_here|]. intros c p7 [x ->] Hs7 _.
  pose proof (starts_app _ (tail_kinds TkComma ts ++ TkRParen :: ks) (type_starts t2 (proj1 Ht2))) as Hst2.
  eapply yields_bind; [apply yields_skip; [exact Hs7|head_differs]|]. intros _ p8 _ Hs8 _.
  eapply yields_bind; [apply (yields_tuple_loop m ts ks Hts _ p8 t2); [done| |exact Hs8]|].
  { apply stream_fuel in Hs8. rewrite !length_app in Hs8. simpl in Hs8. pose proof (tail_length TkComma ts). lia. }
  intros l p9 (ts' & -> & Hl) Hs9 _. eapply yields_bind; [apply yields_skip; [exact Hs9|head_differs]|]. intros _ p10 _ Hs10 _.
  eapply yields_bind; [by eapply yields_expect|]. intros _ p11 _ Hs11 _.
  eapply yields_bind; [by apply yields_span_from|]. intros sp' p12 _ Hs12 _. apply yields_ret; [done|].
  unfold reads_list in Hl. simpl in *. by rewrite Ht1', Hl.
Qed.

Lemma parses_unit m sp : parses_member m (TeUnit sp).
Proof.
  intros p ks Hks Hs. cbn [type_kinds app] in Hs.
  eapply yields_bind; [by apply yields_peek|]. intros k p1 Hk Hs1 _. simpl in Hk. subst k.
  eapply yields_bind; [by apply yields_span|]. intros start p2 _ Hs2 _.
  eapply yields_bind; [by eapply yields_advance|]. intros _ p3 _ Hs3 _.
  eapply yields_bind; [apply yields_skip; [exact Hs3|head_differs]|]. intros _ p4 _ Hs4 _.
  eapply yields_bind; [by eapply yields_eat_here|]. intros c p5 [x ->] Hs5 _.
  eapply yields_bind; [by apply yields_span_from|]. intros sp' p6 _ Hs6 _. by apply yields_ret.
Qed.

Lemma parses_self m sp : parses_member m (TeSelf sp).
Proof.
  intros p ks Hks Hs. cbn [type_kinds app] in Hs.
  eapply yields_bind; [by apply yields_peek|]. intros k p1 Hk Hs1 _. simpl in Hk. subst k. rewrite bool_decide_eq_true_2 by done.
  eapply yields_bind; [by apply yields_span|]. intros start p2 _ Hs2 _.
  eapply yields_bind; [by eapply yields_advance|]. intros _ p3 _ Hs3 _.
  eapply yields_bind; [by apply yields_span_from|]. intros sp' p4 _ Hs4 _. by apply yields_ret.
Qed.

Lemma member_follow t ts ks : members_ok (t :: ts) = true -> stops ks = true ->
  (if is_function t then stops (tail_kinds TkPipe ts ++ ks) else stops_member (tail_kinds TkPipe ts ++ ks)) = true.
Proof.
  intros Hm Hks. destruct ts as [|t' ts]; cbn [tail_kinds map concat app].
  - destruct (is_function t); [done|]. by destruct ks as [|[] ks].
  - simpl in Hm. apply andb_true_iff in Hm as [[_ Hf]%andb_true_iff _]. apply negb_true_iff in Hf. by rewrite Hf.
Qed.

Lemma members_tail t ts : members_ok (t :: ts) = true -> members_ok ts = true /\ is_union t = false.
Proof.
  destruct ts as [|t' ts]; simpl; [by intros ?%negb_true_iff|].
  intros [[Hu%negb_true_iff _]%andb_true_iff Hm]%andb_true_iff. done.
Qed.

Lemma yields_union_loop m ts ks : stops ks = true -> Forall (parses_member m) ts -> members_ok ts = true ->
  forall fuel p items, (length ts < fuel)%nat -> at_stream p (tail_kinds TkPipe ts ++ ks) ->
  yields (union_loop m fuel items) p (fun r => exists ts', r = items ++ ts' /\ reads_list ts ts') ks.
Proof.
  intros Hks H. induction H as [|t ts Hp _ IH]; intros Hm [|fuel] p items Hf Hs; simpl in Hf; try lia.
  - cbn [tail_kinds map concat app] in Hs.
    eapply yields_bind; [apply yields_eat_not; [exact Hs|head_differs]|]. intros c p1 -> Hs1 _.
    apply yields_ret; [done|]. exists []. by rewrite app_nil_r.
  - rewrite tail_cons in Hs. eapply yields_bind; [by eapply yields_eat_here|]. intros c p1 [x ->] Hs1 _.
    eapply yields_bind; [eapply Hp; [|exact Hs1]; by apply member_follow|]. intros t' p2 Ht' Hs2 _.
    eapply yields_imp; [apply (IH (proj1 (members_tail _ _ Hm)) fuel p2 (items ++ [t'])); [lia|done]|].
    intros r. by apply reads_snoc.
Qed.

Lemma parses_single m t : parses_member m t -> parses (parse_union_type m) t.
Proof.
  intros Hp p ks Hks Hs. eapply yields_bind; [eapply Hp; [|exact Hs]|].
  { destruct (is_function t); [done|]. by destruct ks as [|[] ks]. }
  intros t' p1 Ht' Hs1 _. eapply yields_bind; [apply yields_at_not; [exact Hs1|head_differs]|].
  intros b p2 -> Hs2 _. by apply yields_ret.
Qed.

Lemma parses_union m types sp : (2 <= length types)%nat -> members_ok types = true -> Forall (parses_member m) types ->
  parses (parse_union_type m) (TeUnion types sp).
Proof.
  intros Hlen Hm Hp p ks Hks Hs. destruct Hp as [|t1 l Hp1 Hp]; [simpl in Hlen; lia|].
  destruct l as [|t2 ts]; [simpl in Hlen; lia|]. cbn [type_kinds] in Hs. rewrite join_tail, <- app_assoc in Hs.
  eapply yields_bind; [eapply Hp1; [|exact Hs]; by apply member_follow|]. intros t' p1 Ht' Hs1 _.
  rewrite tail_cons in Hs1. eapply yields_bind; [by eapply yields_at_here|]. intros b p2 -> Hs2 _.
  rewrite <- tail_cons in Hs2.
  eapply yields_bind; [apply (yields_union_loop m (t2 :: ts) ks Hks Hp); [by apply members_tail in Hm as [Hm _]| |exact Hs2]|].
  { apply stream_fuel in Hs2. rewrite length_app in Hs2. pose proof (tail_length TkPipe (t2 :: ts)). simpl in *. lia. }
  intros r p3 (ts' & -> & Hr) Hs3 _. eapply yields_bind; [by apply yields_span_from|]. intros sp' p4 _ Hs4 _.
  apply yields_ret; [done|]. unfold reads_list in Hr. simpl in *. by rewrite Ht', Hr.
Qed.

Lemma depths_le (ts : list TypeExpr) k n : (foldr (fun t n => Nat.max (depth t) n) k ts <= n)%nat <->
  (k <= n)%nat /\ Forall (fun t => depth t <= n)%nat ts.
Proof.
  induction ts as [|t ts IH]; simpl; [rewrite Forall_nil; naive_solver|]. rewrite Forall_cons, Nat.max_lub_iff, IH. tauto.
Qed.

Lemma depth_pos t : (1 <= depth t)%nat.
Proof. destruct t; simpl; try lia. induction types; simpl; lia. Qed.

(** The parser of types reads a printable type back, as a member of a union and alone. *)
Definition reads_back (t : TypeExpr) : Prop := printable t = true ->
  (forall fuel, (depth t <= S fuel)%nat -> is_union t = false -> parses_member (parse_type_depth fuel) t)
  /\ (forall fuel, (depth t <= fuel)%nat -> parses (parse_type_depth fuel) t).

Lemma all_printable ts : forallb printable ts = true -> Forall (fun t => printable t = true) ts.
Proof. induction ts as [|t ts IH]; simpl; [constructor|]. intros [Ht Hts]%andb_true_iff. constructor; auto. Qed.

Lemma elements_of ts fuel : Forall reads_back ts -> forallb printable ts = true ->
  (foldr (fun t n => Nat.max (depth t) n) 0 ts <= fuel)%nat -> Forall (element (parse_type_depth fuel)) ts.
Proof.
  intros H Hp%all_printable [_ Hd]%depths_le. rewrite Forall_forall in *. intros t Ht.
  split; [by apply Hp|]. by apply (H t Ht (Hp t Ht)), Hd.
Qed.

(** A type that is no union is read alone as it is read as a member. *)
Lemma reads_member t : is_union t = false ->
  (printable t = true -> forall fuel, (depth t <= S fuel)%nat -> parses_member (parse_type_depth fuel) t) -> reads_back t.
Proof.
  intros Hu H Hp. split; [intros fuel Hf _; by apply H|]. intros [|fuel] Hf; [pose proof (depth_pos t); lia|].
  cbn [parse_type_depth]. by apply parses_single, H.
Qed.

Lemma type_reads_back t : reads_back t.
Proof.
  induction t as [path r sp|path args r sp IH|sp|params ret sp IH IHr|sp|els sp IH|types sp IH] using type_expr_ind'.
  - apply reads_member; [done|]. intros Hp fuel _. by apply parses_named.
  - apply reads_member; [done|]. intros [[Hp Hl]%andb_true_iff Ha]%andb_true_iff fuel Hf. simpl in Hf.
    apply parses_generic; [done|by destruct args|]. apply elements_of; [done|done|lia].
  - apply reads_member; [done|]. intros _ fuel _. apply parses_unit.
  - apply reads_member; [done|]. intros [Hp Hr]%andb_true_iff fuel Hf. simpl in Hf.
    apply parses_function; [apply elements_of; [done|done|lia]|]. apply (IHr Hr). lia.
  - apply reads_member; [done|]. intros _ fuel _. apply parses_self.
  - apply reads_member; [done|]. intros [Hl%Nat.leb_le He]%andb_true_iff fuel Hf. simpl in Hf.
    apply parses_tuple; [done|]. apply elements_of; [done|done|lia].
  - intros [[Hl%Nat.leb_le Hp]%andb_true_iff Hm]%andb_true_iff. split; [done|].
    intros fuel [Hk Hd]%depths_le. destruct fuel as [|fuel]; [lia|]. cbn [parse_type_depth].
    apply parses_union; [done|done|]. apply all_printable in Hp. clear Hl Hk.
    induction IH as [|t ts Ht _ IHts]; [constructor|]. apply Forall_cons in Hp as [Hpt Hp].
    apply Forall_cons in Hd as [Hd Hds]. destruct (members_tail t ts Hm) as [Hms Hu].
    constructor; [by apply (Ht Hpt)|by apply IHts].
Qed.

Lemma depth_kinds : forall t, printable t = true -> (depth t <= length (type_kinds t))%nat.
Proof.
  assert (forall sep ts n, Forall (fun t => printable t = true -> (depth t <= length (type_kinds t))%nat) ts ->
    forallb printable ts = true -> (foldr (fun t m => Nat.max (depth t) m) n ts
      <= Nat.max n (length (join_kinds sep (map type_kinds ts))))%nat) as Hj.
  { intros sep ts n H Hp. destruct H as [|t ts Ht H]; [simpl; lia|]. rewrite join_tail, length_app.
    simpl in Hp. apply andb_true_iff in Hp as [Hpt Hp]. apply depths_le. split; [lia|].
    constructor; [specialize (Ht Hpt); lia|]. clear Ht Hpt.
    induction H as [|t' ts Ht' H IH]; [constructor|]. simpl in Hp. apply andb_true_iff in Hp as [Hpt Hp].
    specialize (IH Hp). unfold tail_kinds in *. simpl. rewrite length_app. constructor; [specialize (Ht' Hpt); lia|].
    eapply Forall_impl; [exact IH|]. simpl. intros. lia. }
  induction t as [path r sp|path args r sp IH|sp|params ret sp IH IHr|sp|els sp IH|types sp IH] using type_expr_ind'; simpl; try lia.
  - intros Hp%path_starts. destruct (path_kinds path); [done|]. simpl. lia.
  - intros [[Hp Hl]%andb_true_iff Ha]%andb_true_iff. specialize (Hj TkComma args 0%nat IH Ha).
    rewrite length_app. simpl. rewrite length_app. simpl. lia.
  - intros [Hp Hr]%andb_true_iff. specialize (Hj TkComma params 0%nat IH Hp). specialize (IHr Hr).
    rewrite length_app. simpl. lia.
  - intros [Hl He]%andb_true_iff. specialize (Hj TkComma els 0%nat IH He). rewrite length_app. simpl. lia.
  - intros [[Hl Hp]%andb_true_iff Hm]%andb_true_iff. specialize (Hj TkPipe types 1%nat IH Hp).
    pose proof (type_starts (TeUnion types sp)) as Hst. simpl in Hst. rewrite Hl, Hp, Hm in Hst. specialize (Hst eq_refl).
    destruct (join_kinds TkPipe (map type_kinds types)); [done|]. simpl in *. lia.
Qed.

(** Parsing the tokens of a type. *)
Lemma parse_type_kinds t p ks : printable t = true -> stops ks = true -> at_stream p (type_kinds t ++ ks) ->
  yields parse_type_expr p (fun t' => strip t' = strip t) ks.
Proof.
  intros Ht Hks Hs. unfold yields, parse_type_expr, with_fuel. apply (type_reads_back t Ht); [|done|done].
  apply stream_fuel in Hs. rewrite length_app in Hs. pose proof (depth_kinds t Ht). lia.
Qed.
