(* ===== verification/TypeRoundtrip.v ===== *)
(** * Printed types are read back

    What the formatter prints for a type expression, at any width, is lexed and parsed
    back to the same type without errors: [type_roundtrip], through the renderer, the lexer
    and the parser. [inked] relates a text to the tokens it spells.
    [union_of_function_changes] shows the types [printable] leaves out: a union with a
    function type before its last member is printed without parentheses and read back as
    another type. *)

From Stdlib Require Import Ascii String.
From S2P Require Import Prelude Types Chars Doc Lexer LexerSound Literals LiteralsSound TypeParser TypeKinds.
Local Open Scope Z_scope.

(** ** The lexer on printed types *)

Definition word_start (c : Z) : bool := is_ascii_lowercase c || (c =? chr "_") || is_ascii_uppercase c.

Definition head_fails (f : Z -> bool) (s : list Z) : Prop := match s with c :: _ => f c = false | [] => True end.

(** [s] spells the tokens [ks], one [TkGt] per bracket: blanks are not before one, a
    line break only follows a pipe. *)
Inductive inked : list Z -> list TokenKind -> Prop :=
  | ink_nil : inked [] []
  | ink_blank s ks : head ks <> Some TkGt -> inked s ks -> inked (blank :: s) ks
  | ink_word c w s ks : word_start c = true -> forallb is_ident_char w = true -> head_fails is_ident_char s ->
      inked s ks -> inked (c :: w ++ s) (keyword_or_ident (c :: w) :: ks)
  | ink_single c k s ks : (c, k) ∈ single_kinds -> inked s ks -> inked (c :: s) (k :: ks)
  | ink_break s ks : inked s ks -> inked (chr "|" :: NEWLINE :: s) (TkPipe :: ks)
  | ink_lt s ks : head_fails (fun c => bool_decide (c ∈ str "<>=")) s -> inked s ks -> inked (chr "<" :: s) (TkLt :: ks)
  | ink_gt s ks : head_fails (fun c => c =? chr "=") s -> inked s ks -> inked (chr ">" :: s) (TkGt :: ks)
  | ink_arrow s ks : inked s ks -> inked (chr "-" :: chr ">" :: s) (TkArrow :: ks).

Lemma run_loop_blank fuel l pre rest :
  cursor l = cursor_at pre (blank :: rest) ->
  run_loop (S fuel) l = run_loop (S fuel) (consumed pre [blank] rest [] l).
Proof.
  intros H.
  assert (forall c, set_cursor c (consumed pre [blank] rest [] l) = set_cursor c l) as Hset
    by (intros c; unfold consumed, set_errors, set_cursor; simpl; by rewrite app_nil_r).
  cbn [run_loop]. rewrite H. cbn [cursor consumed set_errors set_cursor]. rewrite !at_end_cursor, !skip_while_cursor.
  rewrite bool_decide_eq_false_2 by done. cbn [take_while drop_while]. change (is_blank blank) with true. cbn iota.
  rewrite (cons_middle blank pre), (app_assoc pre [blank]). cbn [mbind option_bind]. rewrite Hset, !at_end_cursor.
  destruct rest as [|x rest]; [|by rewrite (bool_decide_eq_false_2 (x :: rest = []))].
  simpl. rewrite !app_nil_r. f_equal. rewrite <- (Hset (cursor_at (pre ++ [blank]) [])). done.
Qed.

Lemma run_step_single l pre c k rest : cursor l = cursor_at pre (c :: rest) -> (c, k) ∈ single_kinds ->
  run_step l = Some (place_token k pre [c] rest l).
Proof.
  intros H Hin. unfold run_step. rewrite H, peek_cursor. cbn [mbind option_bind head].
  assert (List.find (fun p => fst p =? c) single_kinds = Some (c, k)) as ->.
  { apply list_elem_of_In in Hin. unfold single_kinds in Hin.
    repeat (destruct Hin as [[= <- <-]|Hin]; [reflexivity|]). destruct Hin. }
  by apply single_at.
Qed.

Lemma run_step_word l pre c w rest : cursor l = cursor_at pre (c :: w ++ rest) -> word_start c = true ->
  forallb is_ident_char w = true -> head_fails is_ident_char rest ->
  run_step l = Some (place_token (keyword_or_ident (c :: w)) pre (c :: w) rest l).
Proof.
  intros H Hc Hw Hr. assert (take_while is_ident_char (w ++ rest) = w /\ drop_while is_ident_char (w ++ rest) = rest) as [Et Ed].
  { clear H. induction w as [|x w IH]; simpl in *.
    - destruct rest as [|y rest]; [done|]. simpl in Hr |- *. by rewrite Hr.
    - apply andb_true_iff in Hw as [-> Hw]. destruct (IH Hw) as [-> ->]. done. }
  assert (is_ident_char c = true) as Hi.
  { unfold word_start in Hc. unfold is_ident_char. destruct (is_ascii_lowercase c), (is_ascii_uppercase c), (c =? chr "_"); try done;
      by rewrite ?orb_true_r. }
  assert (run_step l = lex_ident l) as ->.
  { unfold run_step. rewrite H, peek_cursor. cbn [mbind option_bind head].
    destruct (List.find _ single_kinds) as [q|] eqn:E1.
    { apply find_table in E1 as [Hin <-]. exfalso. apply list_elem_of_In in Hin. unfold single_kinds in Hin.
      repeat (destruct Hin as [<-|Hin]; [discriminate|]). destruct Hin. }
    destruct (List.find _ operator_kinds) as [q|] eqn:E2.
    { apply find_table in E2 as [Hin <-]. exfalso. apply list_elem_of_In in Hin. unfold operator_kinds in Hin.
      repeat (destruct Hin as [<-|Hin]; [discriminate|]). destruct Hin. }
    destruct (Z.eqb_spec c (chr "{")) as [->|]; [done|]. destruct (Z.eqb_spec c (chr "}")) as [->|]; [done|].
    unfold word_start in Hc. by rewrite Hc. }
  unfold lex_ident. rewrite H, skip_while_cons by done. rewrite Et, Ed. cbn [mbind option_bind].
  cbn [cursor set_cursor byte_offset cursor_at]. fold (cursor_at pre (c :: w ++ rest)).
  by rewrite text_from_cursor.
Qed.

Lemma run_step_operator l pre c longer one rest : cursor l = cursor_at pre (c :: rest) ->
  List.find (fun p => fst p =? c) single_kinds = None ->
  List.find (fun p => fst p =? c) operator_kinds = Some (c, (longer, one)) ->
  run_step l = match rest with
               | y :: rest' => match List.find (fun p => fst p =? y) longer with
                               | Some q => Some (place_token (snd q) pre [c; y] rest' l)
                               | None => Some (place_token one pre [c] rest l)
                               end
               | [] => Some (place_token one pre [c] rest l)
               end.
Proof.
  intros H H1 H2. unfold run_step. rewrite H, peek_cursor. cbn [mbind option_bind head]. rewrite H1, H2. cbn [fst snd].
  unfold operator. rewrite H, peek_at_cursor. destruct rest as [|y rest]; [by apply single_at|].
  change ((c :: y :: rest) !! 1%nat) with (Some y). cbn iota.
  destruct (List.find _ longer) as [q|]; [by apply double_at|by apply single_at].
Qed.

Lemma run_step_pipe_break l pre rest : cursor l = cursor_at pre (NEWLINE :: rest) -> last_token_kind l = Some TkPipe ->
  run_step l = Some (consumed pre [NEWLINE] rest [] l).
Proof.
  intros H Hl. unfold run_step. rewrite H, peek_cursor. cbn [mbind option_bind head]. simpl.
  unfold lex_newline. rewrite (step_cursor_at _ _ _ _ H). cbn [mbind option_bind].
  unfold continues_line. change (last_token_kind (set_cursor _ l)) with (last_token_kind l). rewrite Hl.
  unfold consumed, set_errors, set_cursor. destruct l. simpl. by rewrite app_nil_r.
Qed.

Lemma word_not_gt w : keyword_or_ident w <> TkGt.
Proof. intros E. destruct (keyword_or_ident_cases w) as [E'|[E'|E']]; rewrite E in E'; discriminate. Qed.

(** How a text that spells [TkGt] starts. *)
Lemma inked_gt s ks : inked s (TkGt :: ks) -> exists s', s = chr ">" :: s' /\ inked s' ks /\ head_fails (fun c => c =? chr "=") s'.
Proof.
  intros H. remember (TkGt :: ks) as l eqn:E.
  destruct H as [|s l Hh Hi|c w s l _ _ _ _|c k s l Hin _| | |s l Hf Hi|]; try discriminate E.
  - by rewrite E in Hh.
  - injection E as E _. by apply word_not_gt in E.
  - injection E as -> _. exfalso. apply list_elem_of_In in Hin. unfold single_kinds in Hin.
    repeat (destruct Hin as [[= ]|Hin]). destruct Hin.
  - injection E as ->. by exists s.
Qed.

Lemma inked_not_gt s ks : inked s ks -> head ks <> Some TkGt -> head_fails (fun c => bool_decide (c ∈ str ">=")) s.
Proof.
  intros H Hk. destruct H as [|s ks _ _|c w s ks Hc _ _ _|c k s ks Hin _| | | |]; try done; simpl.
  - apply bool_decide_eq_false. intros Hin. unfold word_start in Hc.
    repeat (apply elem_of_cons in Hin as [->|Hin]; [done|]). by apply not_elem_of_nil in Hin.
  - apply bool_decide_eq_false. intros Hx. apply list_elem_of_In in Hin. unfold single_kinds in Hin.
    repeat (destruct Hin as [[= <- <-]|Hin]; [by vm_compute in Hx; repeat (apply elem_of_cons in Hx as [?|Hx]; [done|]);
      apply not_elem_of_nil in Hx|]). destruct Hin.
Qed.

(** Lexing a spelled text gives its tokens. *)
Lemma run_loop_inked s : forall ks fuel l pre, inked s ks -> (length s < fuel)%nat -> cursor l = cursor_at pre s ->
  exists l', run_loop fuel l = Some l' /\ reaches l l' (pre ++ s) [] (merge ks).
Proof.
  induction s as [s IH] using (induction_ltof1 _ length). unfold ltof in IH. intros ks [|fuel] l pre Hi Hf H; [lia|].
  (* One token [k] spelled [t], then the rest. *)
  assert (forall k t rest ks', s = t ++ rest -> t <> [] -> inked rest ks' ->
    run_loop (S fuel) l = (l ← run_step l; run_loop fuel l) -> run_step l = Some (place_token k pre t rest l) ->
    exists l', run_loop (S fuel) l = Some l' /\ reaches l l' (pre ++ s) [] (k :: merge ks')) as Htok.
  { intros k t rest ks' -> Hne Hr -> ->. cbn [mbind option_bind].
    assert (0 < length t)%nat by (destruct t; [done|simpl; lia]). rewrite length_app in *.
    destruct (IH rest ltac:(lia) ks' fuel (place_token k pre t rest l) (pre ++ t) Hr ltac:(lia) eq_refl) as (l' & -> & Hl').
    exists l'. split; [done|]. rewrite app_assoc. exact (reaches_trans _ _ _ _ _ _ _ _ _ (reaches_token l k pre t rest) Hl'). }
  destruct Hi as [|s ks Hh Hi|c w s ks Hc Hw Hs Hi|c k s ks Hin Hi|s ks Hi|s ks Hs Hi|s ks Hs Hi|s ks Hi].
  - exists l. split; [by apply run_loop_done with pre|]. by constructor; rewrite ?app_nil_r.
  - rewrite (run_loop_blank _ _ _ _ H). simpl in Hf.
    destruct (IH s ltac:(simpl; lia) ks (S fuel) (consumed pre [blank] s [] l) (pre ++ [blank]) Hi ltac:(lia) eq_refl) as (l' & -> & Hl').
    exists l'. split; [done|]. rewrite cons_middle, app_assoc.
    exact (reaches_trans _ _ _ _ _ _ _ _ _ (reaches_consumed l pre [blank] s) Hl').
  - rewrite merge_cons by apply word_not_gt.
    apply (Htok _ (c :: w) s); [done|done|done| |by apply run_step_word].
    apply (run_loop_next _ _ _ _ _ H). unfold word_start in Hc. unfold is_blank.
    destruct (Z.eqb_spec c (chr " ")) as [->|]; [done|]. destruct (Z.eqb_spec c TAB) as [->|]; [done|].
    by destruct (Z.eqb_spec c CR) as [->|].
  - assert (k <> TkGt /\ is_blank c = false) as [Hk Hb].
    { apply list_elem_of_In in Hin. unfold single_kinds in Hin.
      repeat (destruct Hin as [[= <- <-]|Hin]; [done|]). destruct Hin. }
    rewrite merge_cons by done. apply (Htok _ [c] s); [done|done|done|by apply (run_loop_next _ _ _ _ _ H)|by apply run_step_single].
  - rewrite merge_cons by done. rewrite (run_loop_next _ _ _ _ _ H) by done.
    rewrite (run_step_single l pre (chr "|") TkPipe (NEWLINE :: s) H) by (apply list_elem_of_In; simpl; tauto).
    cbn [mbind option_bind]. simpl in Hf. destruct fuel as [|fuel]; [lia|].
    set (l1 := place_token _ _ _ _ _). pose proof (reaches_token l TkPipe pre [chr "|"] (NEWLINE :: s)) as H1. fold l1 in H1.
    rewrite (run_loop_next _ l1 _ _ _ (re_cursor _ _ _ _ _ H1)) by done.
    rewrite (run_step_pipe_break l1 (pre ++ [chr "|"]) s) by (done || unfold last_token_kind, l1; simpl; by rewrite last_snoc).
    cbn [mbind option_bind]. pose proof (reaches_consumed l1 (pre ++ [chr "|"]) [NEWLINE] s) as H2.
    destruct (IH s ltac:(simpl; lia) ks fuel _ _ Hi ltac:(lia) (re_cursor _ _ _ _ _ H2)) as (l' & -> & Hl').
    exists l'. split; [done|]. pose proof (reaches_trans _ _ _ _ _ _ _ _ _ H1 (reaches_trans _ _ _ _ _ _ _ _ _ H2 Hl')) as H3.
    simpl in H3. by rewrite <- !app_assoc in H3.
  - rewrite merge_cons by done. apply (Htok _ [chr "<"] s); [done|done|done|by apply (run_loop_next _ _ _ _ _ H)|].
    erewrite run_step_operator by (done || exact H). destruct s as [|y s]; [done|]. simpl in Hs.
    apply bool_decide_eq_false in Hs. cbn [List.find fst]. char_cases; [| | |done]; exfalso; apply Hs; set_solver.
  - assert (run_loop (S fuel) l = (l ← run_step l; run_loop fuel l)) as Hnext by (by apply (run_loop_next _ _ _ _ _ H)).
    assert (run_step l = match s with
      | y :: s' => if y =? chr ">" then Some (place_token TkGtGt pre [chr ">"; y] s' l)
                   else Some (place_token TkGt pre [chr ">"] s l)
      | [] => Some (place_token TkGt pre [chr ">"] s l) end) as Hstep.
    { erewrite run_step_operator by (done || exact H). destruct s as [|y s]; [done|]. simpl in Hs.
      apply Z.eqb_neq in Hs. cbn [List.find fst].
      rewrite (Z.eqb_sym y), (proj2 (Z.eqb_neq (chr "=") y)) by congruence. by destruct (chr ">" =? y). }
    destruct ks as [|k ks].
    { apply (Htok TkGt [chr ">"] s []); [done|done|done|done|]. rewrite Hstep. destruct s as [|y s]; [done|].
      pose proof (inked_not_gt _ _ Hi ltac:(done)) as Hn. simpl in Hn. apply bool_decide_eq_false in Hn.
      rewrite (proj2 (Z.eqb_neq y (chr ">"))); [done|]. intros ->. apply Hn. by left. }
    destruct (decide (k = TkGt)) as [->|Hk].
    + destruct (inked_gt _ _ Hi) as (s' & -> & Hi' & _). apply (Htok TkGtGt [chr ">"; chr ">"] s'); [done|done|done|done|by rewrite Hstep].
    + replace (merge (TkGt :: k :: ks)) with (TkGt :: merge (k :: ks)) by (by destruct k).
      apply (Htok TkGt [chr ">"] s); [done|done|done|done|]. rewrite Hstep. destruct s as [|y s]; [done|].
      pose proof (inked_not_gt _ _ Hi ltac:(simpl; congruence)) as Hn. simpl in Hn. apply bool_decide_eq_false in Hn.
      rewrite (proj2 (Z.eqb_neq y (chr ">"))); [done|]. intros ->. apply Hn. by left.
  - rewrite merge_cons by done. apply (Htok _ [chr "-"; chr ">"] s); [done|done|done|by apply (run_loop_next _ _ _ _ _ H)|].
    by erewrite run_step_operator by (done || exact H).
Qed.

Lemma lex_inked s ks file : inked s ks -> exists r, lex s file = Some r /\ result_errors r = []
  /\ kind <$> result_tokens r = merge ks ++ [TkEndOfFile].
Proof.
  intros Hi. destruct (run_loop_inked s ks (S (length s)) (lexer_new s file) [] Hi ltac:(lia) (cursor_new_at s)) as (l & Hl & Hr).
  destruct (lex_reaches _ _ _ _ _ Hl Hr) as (r & ? & ? & ? & _). by exists r.
Qed.

(** ** The text of a printed type *)

(** What may follow a type: no character of a word, no [=]. *)
Definition soft (s : list Z) (ks : list TokenKind) : Prop :=
  head_fails (fun c => is_ident_char c || (c =? chr "=")) s.

(** A type is about to start. *)
Definition opens (s : list Z) (ks : list TokenKind) : Prop :=
  starts ks = true /\ match s with c :: _ => word_start c || (c =? chr "(") = true | [] => False end.

Definition anything (s : list Z) (ks : list TokenKind) : Prop := True.

(** In front of a text that satisfies [Pre] the document writes the tokens [ks], and
    the whole satisfies [Post]. *)
Definition text_writes (Pre : list Z -> list TokenKind -> Prop) (text : list Z) (ks : list TokenKind)
    (Post : list Z -> list TokenKind -> Prop) : Prop :=
  forall s ks', Pre s ks' -> inked s ks' -> inked (text ++ s) (ks ++ ks') /\ Post (text ++ s) (ks ++ ks').

Definition lays (width ind : nat) (mode : Mode) (d : Doc) (Pre : list Z -> list TokenKind -> Prop)
    (ks : list TokenKind) (Post : list Z -> list TokenKind -> Prop) : Prop :=
  forall st, exists text col, layout width ind mode d st = (fst st ++ text, col) /\ text_writes Pre text ks Post.

Definition writes (d : Doc) (Pre : list Z -> list TokenKind -> Prop) (ks : list TokenKind)
    (Post : list Z -> list TokenKind -> Prop) : Prop := forall width ind mode, lays width ind mode d Pre ks Post.

Lemma text_writes_trans Pre Mid Post t1 t2 k1 k2 :
  text_writes Mid t1 k1 Post -> text_writes Pre t2 k2 Mid -> text_writes Pre (t1 ++ t2) (k1 ++ k2) Post.
Proof. intros H1 H2 s ks Hs Hi. destruct (H2 s ks Hs Hi) as [Hi2 Hm]. rewrite <- !app_assoc. by apply H1. Qed.

Lemma writes_text Pre t ks Post : text_writes Pre t ks Post -> writes (DText t) Pre ks Post.
Proof. intros H width ind mode st. exists t. eexists. split; [reflexivity|done]. Qed.

Lemma writes_nil Pre : writes (DConcat []) Pre [] Pre.
Proof. intros width ind mode st. exists [], (snd st). split; [|done]. destruct st. simpl. by rewrite app_nil_r. Qed.

Lemma writes_cons d ds Pre Mid Post k1 k2 :
  writes d Mid k1 Post -> writes (DConcat ds) Pre k2 Mid -> writes (DConcat (d :: ds)) Pre (k1 ++ k2) Post.
Proof.
  intros H1 H2 width ind mode st. destruct (H1 width ind mode st) as (t1 & c1 & E1 & W1).
  destruct (H2 width ind mode (fst st ++ t1, c1)) as (t2 & c2 & E2 & W2).
  exists (t1 ++ t2), c2. split; [|by eapply text_writes_trans]. simpl in *. by rewrite E1, E2, <- app_assoc.
Qed.

(** *** The pieces of text *)

Lemma word_fails c : word_start c || (c =? chr "(") = true -> bool_decide (c ∈ str "<>=") = false /\ c <> NEWLINE /\ c <> blank.
Proof.
  intros H. split; [apply bool_decide_eq_false; intros Hin|split; intros ->; discriminate].
  repeat (apply elem_of_cons in Hin as [->|Hin]; [discriminate|]). by apply not_elem_of_nil in Hin.
Qed.

Lemma opens_not_gt s ks : opens s ks -> head ks <> Some TkGt.
Proof. intros [H _]. by destruct ks as [|[] ks]. Qed.

Lemma writes_lt : writes (DText (str "<")) opens [TkLt] soft.
Proof.
  apply writes_text. intros s ks [_ Ho] Hi. split; [|done]. apply ink_lt; [|done]. destruct s as [|c s]; [done|].
  by apply word_fails.
Qed.

Lemma writes_gt : writes (DText (str ">")) soft [TkGt] soft.
Proof.
  apply writes_text. intros s ks Hs Hi. split; [|done]. apply ink_gt; [|done]. destruct s as [|c s]; [done|].
  by apply orb_false_iff in Hs as [_ ?].
Qed.

Ltac ink_symbol := apply ink_single; [apply list_elem_of_In; simpl; tauto|].

Lemma writes_comma : writes (DText (str ", ")) opens [TkComma] soft.
Proof.
  apply writes_text. intros s ks Ho Hi. split; [|done]. ink_symbol. apply ink_blank; [by eapply opens_not_gt|done].
Qed.

Lemma writes_lparen : writes (DText (str "(")) anything [TkLParen] opens.
Proof. apply writes_text. intros s ks _ Hi. split; [by ink_symbol|done]. Qed.

Lemma writes_rparen : writes (DText (str ")")) anything [TkRParen] soft.
Proof. apply writes_text. intros s ks _ Hi. split; [by ink_symbol|done]. Qed.

Lemma writes_unit : writes (DText (str "()")) anything [TkLParen; TkRParen] opens.
Proof. apply writes_text. intros s ks _ Hi. split; [by ink_symbol; ink_symbol|done]. Qed.

Lemma writes_arrow : writes (DText (str ") -> ")) opens [TkRParen; TkArrow] soft.
Proof.
  apply writes_text. intros s ks Ho Hi. split; [|done]. ink_symbol. apply ink_blank; [done|]. apply ink_arrow.
  apply ink_blank; [by eapply opens_not_gt|done].
Qed.

Lemma soft_word s ks : soft s ks -> head_fails is_ident_char s.
Proof. destruct s as [|c s]; [done|]. by intros [? _]%orb_false_iff. Qed.

Lemma word_writes w : type_word w = true -> text_writes (fun s _ => head_fails is_ident_char s) w [TkTypeIdent w] opens.
Proof.
  intros Hw s ks Hs Hi. destruct w as [|c w]; [done|]. unfold type_word in Hw. apply andb_true_iff in Hw as [Hc Hw].
  assert (keyword_or_ident (c :: w) = TkTypeIdent (c :: w)) as <- by (unfold keyword_or_ident; by rewrite Hc).
  assert (word_start c = true) as Hst by (unfold word_start; by rewrite Hc, orb_true_r).
  simpl in Hw. apply andb_true_iff in Hw as [_ Hw]. split; [by apply (ink_word c w)|].
  split; [|simpl; by rewrite Hst]. unfold keyword_or_ident. by rewrite Hc.
Qed.

Lemma writes_self : writes (DText (str "Self")) soft [TkTypeIdent (str "Self")] opens.
Proof. apply writes_text. intros s ks Hs. apply word_writes; [reflexivity|]. by eapply soft_word. Qed.

Lemma writes_fn : writes (DText (str "fn (")) anything [TkFn; TkLParen] opens.
Proof.
  apply writes_text. intros s ks _ Hi. split; [|done]. apply (ink_word (chr "f") (str "n") (str " (" ++ s)); [done|done|done|].
  apply ink_blank; [done|]. by ink_symbol.
Qed.

Lemma path_writes path : path_ok path = true ->
  text_writes (fun s _ => head_fails is_ident_char s) (path_text path) (path_kinds path) opens.
Proof.
  intros Hp. apply andb_true_iff in Hp as [Hne Hw]. destruct path as [|n path]; [done|]. clear Hne. revert n Hw.
  induction path as [|n' path IH]; intros n Hw; cbn [forallb] in Hw; apply andb_true_iff in Hw as [Hn Hw]; [by apply word_writes|].
  intros s ks Hs Hi. destruct (IH n' Hw s ks Hs Hi) as [Hi' _].
  change (path_text (n :: n' :: path)) with (name_text n ++ chr "." :: path_text (n' :: path)).
  change (path_kinds (n :: n' :: path)) with ([TkTypeIdent (name_text n)] ++ TkDot :: path_kinds (n' :: path)).
  rewrite <- !app_assoc. apply word_writes; [done|done|]. simpl. by ink_symbol.
Qed.

Lemma writes_path path Pre : path_ok path = true -> (forall s ks, Pre s ks -> head_fails is_ident_char s) ->
  writes (DText (path_text path)) Pre (path_kinds path) opens.
Proof. intros Hp HPre. apply writes_text. intros s ks Hs Hi. apply path_writes; [done|by eapply HPre|done]. Qed.

(** *** Lists of types *)

Definition prints (t : TypeExpr) : Prop := writes (type_expr_to_doc t) soft (type_kinds t) opens.

Lemma writes_rest ts : Forall prints ts ->
  writes (DConcat (concat (map (fun d => [DText (str ", "); d]) (map type_expr_to_doc ts)))) soft (tail_kinds TkComma ts) soft.
Proof.
  induction 1 as [|t ts Ht _ IH]; [apply writes_nil|].
  change (tail_kinds TkComma (t :: ts)) with ([TkComma] ++ (type_kinds t ++ tail_kinds TkComma ts)).
  apply (writes_cons _ _ _ opens); [apply writes_comma|]. by apply (writes_cons _ _ _ soft).
Qed.

Lemma writes_items t ts : Forall prints (t :: ts) ->
  writes (intersperse (map type_expr_to_doc (t :: ts)) (DText (str ", "))) soft (join_kinds TkComma (map type_kinds (t :: ts))) opens.
Proof.
  intros [Ht Hts]%Forall_cons. rewrite join_tail. unfold intersperse. cbn [map].
  apply (writes_cons _ _ _ soft); [done|]. by apply writes_rest.
Qed.

Lemma writes_imp d Pre Pre' ks Post Post' : (forall s ks, Pre' s ks -> Pre s ks) -> (forall s ks, Post s ks -> Post' s ks) ->
  writes d Pre ks Post -> writes d Pre' ks Post'.
Proof.
  intros Hp Hq H width ind mode st. destruct (H width ind mode st) as (t & c & E & W). exists t, c. split; [done|].
  intros s ks' Hs Hi. destruct (W s ks' (Hp _ _ Hs) Hi). auto.
Qed.

Lemma writes_params ts : Forall prints ts ->
  writes (intersperse (map type_expr_to_doc ts) (DText (str ", "))) soft (join_kinds TkComma (map type_kinds ts)) anything.
Proof.
  destruct ts as [|t ts]; intros H; [by eapply writes_imp, writes_nil|]. eapply writes_imp; [..|by apply writes_items]; done.
Qed.

(** *** Unions *)

Definition separators (ind : nat) (sep : list Z) : Prop := sep = [blank] \/ sep = NEWLINE :: replicate ind blank.

Lemma blanks_ink n s ks : head ks <> Some TkGt -> inked s ks -> inked (replicate n blank ++ s) ks.
Proof. intros Hk Hi. induction n as [|n IH]; [done|]. simpl. by apply ink_blank. Qed.

(** A pipe, what separates it from the next member, and that member. *)
Lemma pipe_writes ind sep text ks : separators ind sep -> text_writes soft text ks opens ->
  text_writes soft (str " |" ++ sep ++ text) (TkPipe :: ks) soft.
Proof.
  intros Hsep H s ks' Hs Hi. destruct (H s ks' Hs Hi) as [Hi' Ho]. split; [|done].
  cbn [str app]. apply ink_blank; [done|].
  pose proof (opens_not_gt _ _ Ho) as Hk. destruct Hsep as [->| ->].
  - ink_symbol. by apply ink_blank.
  - apply ink_break. change (inked ((replicate ind blank ++ text) ++ s) (ks ++ ks')). rewrite <- app_assoc. by apply blanks_ink.
Qed.

Lemma fill_writes width ind t ts : Forall prints (t :: ts) -> forall (first : bool) st, exists sep text col,
  (if first then sep = [] else separators ind sep)
  /\ fill_with width ind (fun item => layout width ind Flat item) first (pipe_members (map type_expr_to_doc (t :: ts))) st
     = (fst st ++ sep ++ text, col)
  /\ text_writes soft text (join_kinds TkPipe (map type_kinds (t :: ts))) opens.
Proof.
  revert t. induction ts as [|t' ts IH]; intros t [Ht Hts]%Forall_cons first st.
  - cbn [map pipe_members fill_with join_kinds].
    set (st1 := if first then st else _).
    assert (exists sep, (if first then sep = [] else separators ind sep) /\ fst st1 = fst st ++ sep) as (sep & Hsep & E1).
    { unfold st1. destruct first; [exists []; by rewrite app_nil_r|].
      destruct (fits_flat _ _); eexists; (split; [|reflexivity]); [by left|by right]. }
    destruct (Ht width ind Flat st1) as (text & col & E & W). exists sep, text, col. split; [done|]. split; [|done].
    by rewrite E, E1, <- app_assoc.
  - change (pipe_members (map type_expr_to_doc (t :: t' :: ts)))
      with (DConcat [type_expr_to_doc t; DText (str " |")] :: pipe_members (map type_expr_to_doc (t' :: ts))).
    change (join_kinds TkPipe (map type_kinds (t :: t' :: ts)))
      with (type_kinds t ++ TkPipe :: join_kinds TkPipe (map type_kinds (t' :: ts))).
    cbn [fill_with]. set (st1 := if first then st else _).
    assert (exists sep, (if first then sep = [] else separators ind sep) /\ fst st1 = fst st ++ sep) as (sep & Hsep & E1).
    { unfold st1. destruct first; [exists []; by rewrite app_nil_r|].
      destruct (fits_flat _ _); eexists; (split; [|reflexivity]); [by left|by right]. }
    destruct (Ht width ind Flat st1) as (text & col & E & W).
    assert (exists col', layout width ind Flat (DConcat [type_expr_to_doc t; DText (str " |")]) st1
      = (fst st1 ++ text ++ str " |", col')) as [col' E2].
    { eexists. cbn [layout fold_left]. rewrite E. unfold push_text. cbn [fst snd]. by rewrite <- app_assoc. }
    rewrite E2. destruct (IH t' Hts false (fst st1 ++ text ++ str " |", col')) as (sep' & text' & col2 & Hsep' & E3 & W').
    exists sep, (text ++ str " |" ++ sep' ++ text'), col2. split; [done|]. split.
    + rewrite E3. cbn [fst]. rewrite E1. by rewrite <- !app_assoc.
    + eapply text_writes_trans; [exact W|]. by eapply pipe_writes.
Qed.

Lemma writes_union t ts : Forall prints (t :: ts) ->
  writes (DIndent 2 (DFill (pipe_members (map type_expr_to_doc (t :: ts))))) soft
    (join_kinds TkPipe (map type_kinds (t :: ts))) opens.
Proof.
  intros H width ind mode st. destruct (fill_writes width (ind + 2) t ts H true st) as (sep & text & col & -> & E & W).
  exists text, col. split; [exact E|done].
Qed.

Lemma printed t : printable t = true -> prints t.
Proof.
  assert (forall ts, Forall (fun t => printable t = true -> prints t) ts -> forallb printable ts = true -> Forall prints ts) as Hall.
  { intros ts H Hp%all_printable. rewrite Forall_forall in *. auto. }
  induction t as [path r sp|path args r sp IH|sp|params ret sp IH IHr|sp|els sp IH|types sp IH] using type_expr_ind';
    unfold prints; cbn [printable type_expr_to_doc type_kinds].
  - intros Hp. apply writes_path; [done|apply soft_word].
  - intros [[Hp Hl]%andb_true_iff Ha]%andb_true_iff. specialize (Hall args IH Ha). destruct args as [|t ts]; [done|].
    apply (writes_cons _ _ _ soft); [apply writes_path; [done|apply soft_word]|].
    change (TkLt :: ?x ++ ?y) with ([TkLt] ++ (x ++ y)).
    apply (writes_cons _ _ _ opens); [apply writes_lt|]. apply (writes_cons _ _ _ soft); [by apply writes_items|].
    rewrite <- (app_nil_r [TkGt]). apply (writes_cons _ _ _ soft); [apply writes_gt|apply writes_nil].
  - intros _. eapply writes_imp; [..|apply writes_unit]; done.
  - intros [Hp Hr]%andb_true_iff. change (TkFn :: TkLParen :: ?x) with ([TkFn; TkLParen] ++ x).
    apply (writes_cons _ _ _ anything); [apply writes_fn|].
    apply (writes_cons _ _ _ soft); [by apply writes_params, Hall|].
    change (TkRParen :: TkArrow :: ?x) with ([TkRParen; TkArrow] ++ x).
    apply (writes_cons _ _ _ opens); [apply writes_arrow|]. rewrite <- (app_nil_r (type_kinds ret)).
    apply (writes_cons _ _ _ soft); [by apply IHr|apply writes_nil].
  - intros _. apply writes_self.
  - intros [Hl He]%andb_true_iff. specialize (Hall els IH He). change (TkLParen :: ?x ++ ?y) with ([TkLParen] ++ (x ++ y)).
    apply (writes_cons _ _ _ anything); [apply writes_lparen|].
    apply (writes_cons _ _ _ soft); [by apply writes_params|].
    rewrite <- (app_nil_r [TkRParen]). apply (writes_cons _ _ _ soft); [|apply writes_nil].
    eapply writes_imp; [..|apply writes_rparen]; done.
  - intros [[Hl Hp]%andb_true_iff Hm]%andb_true_iff. specialize (Hall types IH Hp). destruct types as [|t ts]; [done|].
    by apply writes_union.
Qed.


(** Deep generics over a function and a union, on a page so narrow that the union breaks. *)
Definition sample_type : TypeExpr :=
  TeUnion [generic [mkName (str "Map") span_default]
             [simple (str "String"); generic [mkName (str "List") span_default]
                [generic [mkName (str "Set") span_default] [TeTuple [TeSelf span_default; TeUnit span_default] span_default]
                   span_default] span_default] span_default;
           TeFunction [simple (str "Int")] (TeUnion [simple (str "A"); simple (str "B")] span_default) span_default]
    span_default.

Example sample_text : render (type_expr_to_doc sample_type) 18
  = Some (str "Map<String, List<Set<(Self, ())>>> |" ++ NEWLINE :: str "  fn (Int) -> A |" ++ NEWLINE :: str "    B").
Proof. vm_compute. reflexivity. Qed.


(** A function type in front of a union loses its parentheses: the type of the source
    and the type of the formatted source differ, and neither is an error. *)
Definition union_of_function : TypeExpr :=
  TeUnion [TeFunction [] (simple (str "A")) span_default; simple (str "B")] span_default.

Definition function_of_union : TypeExpr :=
  TeFunction [] (TeUnion [simple (str "A"); simple (str "B")] span_default) span_default.

Example union_of_function_changes :
  read_type (str "(fn () -> A) | B") = Some (union_of_function, [], [TkEndOfFile])
  /\ render (type_expr_to_doc union_of_function) DEFAULT_WIDTH = Some (str "fn () -> A | B")
  /\ read_type (str "fn () -> A | B") = Some (function_of_union, [], [TkEndOfFile])
  /\ union_of_function <> function_of_union.
Proof. vm_compute. repeat split; discriminate. Qed.
