(* ===== verification/Mangling.v ===== *)
(** * Symbols of instantiated declarations

    Models [koja-ir/src/mangling.rs]: how the name of a type, function or method is
    extended with its type arguments, the symbols of synthesised glue and the identity of
    closures. An [IRSymbol] is the string it wraps.

    [named] describes the types lowering builds, over names the scheme keeps apart;
    MangleSound.v shows that these never share a symbol. The last examples show names
    outside of it that do. *)

From Stdlib Require Import Ascii.
From stdpp Require Import strings gmap pretty.
From S2P Require Import Prelude Types Chars IRValue IRFunction.
Local Open Scope Z_scope.

Fixpoint mangle_type (ty : IRType) : string :=
  match ty with
  | TBinary => "Binary"
  | TBits => "Bits"
  | TBool => "Bool"
  | TCPtr inner => "CPtr_$" +:+ mangle_type inner +:+ "$"
  | TEnum symbol => symbol
  | TFloat32 => "Float32"
  | TFloat64 => "Float64"
  | TFunction params ret => "Fn_$" +:+ join_strings "," (map mangle_type params) +:+ ";" +:+ mangle_type ret +:+ "$"
  | TIndirect inner => "Indirect_$" +:+ mangle_type inner +:+ "$"
  | TInt8 => "Int8"
  | TInt16 => "Int16"
  | TInt32 => "Int32"
  | TInt64 => "Int64"
  | TList inner => "List_$" +:+ mangle_type inner +:+ "$"
  | TMap key value => "Map_$" +:+ mangle_type key +:+ "." +:+ mangle_type value +:+ "$"
  | TSet inner => "Set_$" +:+ mangle_type inner +:+ "$"
  | TString => "String"
  | TStruct symbol => symbol
  | TTuple elements => "Tuple_$" +:+ join_strings "," (map mangle_type elements) +:+ "$"
  | TUInt8 => "UInt8"
  | TUInt16 => "UInt16"
  | TUInt32 => "UInt32"
  | TUInt64 => "UInt64"
  | TUnion mangled _ => mangled
  | TUnit => "Unit"
  end.

Definition render_type_args (args : list IRType) : string := "_$" +:+ join_strings "." (map mangle_type args) +:+ "$".

(** [IRSymbol::derived]. *)
Definition derived (symbol : IRSymbol) (suffix : string) : IRSymbol := symbol +:+ suffix.

Definition symbol_from_identifier (i : Identifier) : IRSymbol := qualified_name i.

Definition source_function_symbol (i : Identifier) (arity : nat) : IRSymbol :=
  derived (symbol_from_identifier i) ("/" +:+ pretty arity).

Definition mangled_type_name (symbol : IRSymbol) (args : list IRType) : IRSymbol :=
  match args with [] => symbol | _ => derived symbol (render_type_args args) end.

Definition mangled_function_name (symbol : IRSymbol) (args : list IRType) : IRSymbol := mangled_type_name symbol args.

Definition mangled_method_name (struct_template : IRSymbol) (receiver_args : list IRType) (method_name : string)
    (arity : nat) (method_args : list IRType) : IRSymbol :=
  let receiver := mangled_type_name struct_template receiver_args in
  let method := "." +:+ method_name +:+ "/" +:+ pretty arity in
  derived receiver (match method_args with [] => method | _ => method +:+ render_type_args method_args end).

Definition global_primitive_symbol (path : list string) : IRSymbol := symbol_from_identifier (mkIdentifier "Global" path).

Definition union_mangle (members : list IRType) : IRSymbol := "Union_" +:+ join_strings "_or_" (map mangle_type members).

(** ** Glue *)

Definition glue_base (ty : IRType) : IRSymbol :=
  match ty with TEnum symbol | TStruct symbol => symbol | TUnion mangled _ => mangled | other => mangle_type other end.

Definition clone_glue_symbol (ty : IRType) : IRSymbol := derived (glue_base ty) ".$clone$".
Definition deep_copy_glue_symbol (ty : IRType) : IRSymbol := derived (glue_base ty) ".$deep_copy$".
Definition drop_glue_symbol (ty : IRType) : IRSymbol := derived (glue_base ty) ".$drop$".
Definition envelope_drop_glue_symbol (ty : IRType) : IRSymbol := derived (glue_base ty) ".$envdrop$".
Definition envelope_copy_glue_symbol (ty : IRType) : IRSymbol := derived (glue_base ty) ".$envcopy$".
Definition closure_drop_env_symbol (body : IRSymbol) : IRSymbol := derived body ".$drop_env$".
Definition closure_copy_env_symbol (body : IRSymbol) : IRSymbol := derived body ".$copy_env$".
Definition closure_eq_env_symbol (body : IRSymbol) : IRSymbol := derived body ".$eq_env$".

(** The 64-bit FNV-1a hash of the bytes of a symbol. *)
Definition closure_site_id (body : IRSymbol) : Z :=
  fold_left (fun hash byte => wrap 64 (Z.lxor hash byte * 1099511628211)) (str body) 14695981039346656037%Z.

(** ** Well-named types *)

(** The words that open a structural or builtin type. *)
Definition builtins : list string :=
  ["Binary"; "Bits"; "Bool"; "CPtr"; "Float32"; "Float64"; "Fn"; "Indirect"; "Int8"; "Int16"; "Int32"; "Int64";
   "List"; "Map"; "Set"; "String"; "Tuple"; "UInt8"; "UInt16"; "UInt32"; "UInt64"; "Union"; "Unit"].

(** Identifier characters; a word is a name without underscores. *)
Definition word_char (c : Z) : bool :=
  is_ascii_lowercase c || is_ascii_uppercase c || is_ascii_digit c || (c =? chr "?").
Definition ident_char (c : Z) : bool := word_char c || (c =? chr "_").
Definition is_word (s : string) : bool := negb (String.eqb s "") && forallb word_char (str s).
Definition is_ident (s : string) : bool := forallb ident_char (str s).

Definition scalar (ty : IRType) : bool :=
  match ty with
  | TBinary | TBits | TBool | TFloat32 | TFloat64 | TInt8 | TInt16 | TInt32 | TInt64 | TString
  | TUInt8 | TUInt16 | TUInt32 | TUInt64 | TUnit => true
  | _ => false
  end.

Definition is_union (ty : IRType) : bool := match ty with TUnion _ _ => true | _ => false end.

Section Named.
(** The packages of a program, and which declarations are enums. *)
Context (packages : list string) (enum_of : Identifier -> bool).

(** A declaration of a package: its name is made of words, and the name of a type nested
    in another is neither a package nor a builtin. *)
Definition declared (i : Identifier) : bool :=
  bool_decide (Types.package i ∈ packages) && is_word (Types.package i) && negb (bool_decide (path i = []))
  && forallb is_word (path i) && forallb (fun s => bool_decide (s ∉ packages ++ builtins)) (tail (path i)).

(** The types lowering builds: nominal types are instantiations of declarations, unions
    carry the name of their members and have been flattened. *)
Inductive named : IRType -> Prop :=
| named_scalar t : scalar t = true -> named t
| named_cptr t : named t -> named (TCPtr t)
| named_indirect t : named t -> named (TIndirect t)
| named_list t : named t -> named (TList t)
| named_set t : named t -> named (TSet t)
| named_map k v : named k -> named v -> named (TMap k v)
| named_function ps r : Forall named ps -> named r -> named (TFunction ps r)
| named_tuple ts : Forall named ts -> named (TTuple ts)
| named_struct i args : declared i = true -> enum_of i = false -> Forall named args ->
    named (TStruct (mangled_type_name (symbol_from_identifier i) args))
| named_enum i args : declared i = true -> enum_of i = true -> Forall named args ->
    named (TEnum (mangled_type_name (symbol_from_identifier i) args))
| named_union ms : ms <> [] -> Forall named ms -> Forall (fun m => is_union m = false) ms ->
    named (TUnion (union_mangle ms) ms).
End Named.

(** ** The code's own tests *)

Example glue_is_no_method :
  clone_glue_symbol (TStruct "Test.Thing") = "Test.Thing.$clone$"
  /\ clone_glue_symbol (TStruct "Test.Thing") <> mangled_method_name "Test.Thing" [] "clone" 1 [].
Proof. by vm_compute. Qed.

Example method_arguments :
  mangled_method_name "Test.Box" [TString] "map" 2 [TList TInt64] = "Test.Box_$String$.map/2_$List_$Int64$$".
Proof. reflexivity. Qed.

Example nested_arguments :
  mangled_type_name "Test.Pair" [TList (TStruct "Test.Item"); TMap TString TInt64]
  = "Test.Pair_$List_$Test.Item$.Map_$String.Int64$$".
Proof. reflexivity. Qed.

(** ** Names that collide *)

(** The unions [A | B | C] and [A_or_Test.B | C] of one package have the same name: an
    underscore in a type name can be taken for the separator. *)
Example union_name_collides :
  union_mangle [TStruct "Test.A"; TStruct "Test.B"; TStruct "Test.C"]
  = union_mangle [TStruct "Test.A_or_Test.B"; TStruct "Test.C"].
Proof. reflexivity. Qed.

(** The dot joins both the segments of a name and the type arguments, so that
    [Pair<Test.A, Test.B.C>] and [Pair<Test.A.Test, B.C>] have the same name. *)
Example nested_name_collides :
  mangled_type_name "Test.Pair" [TStruct "Test.A"; TStruct "Test.B.C"]
  = mangled_type_name "Test.Pair" [TStruct "Test.A.Test"; TStruct "B.C"].
Proof. reflexivity. Qed.
