(* ===== verification/MangleSound.v ===== *)
(** * Mangled names are unique

    Theorems on Mangling.v. Reading a mangled name from the left determines the type it
    was built from ([decode_named]), so two instantiations of declarations, two methods
    or two pieces of glue share a symbol only when they are the same. *)

From Stdlib Require Import Ascii.
From stdpp Require Import strings gmap pretty.
From S2P Require Import Prelude Types Chars IRValue IRFunction Mangling.
Local Open Scope Z_scope.

(** ** Text *)

Definition enc (t : IRType) : list Z := str (mangle_type t).

Lemma str_app a b : str (a +:+ b) = str a ++ str b.
Proof. induction a as [|c a IH]; [done|]. simpl. by rewrite <- IH. Qed.

Lemma chr_inj a b : chr a = chr b -> a = b.
Proof. unfold chr. intros H%N2Z.inj. rewrite <- (ascii_N_embedding a), <- (ascii_N_embedding b). by f_equal. Qed.

Lemma str_inj a b : str a = str b -> a = b.
Proof.
  revert b. induction a as [|c a IH]; intros [|d b] H; try done.
  simpl in H. injection H as H1%chr_inj H2%IH. by subst.
Qed.

(** No character of a class can be read past this point. *)
Definition boundary (p : Z -> bool) (k : list Z) : Prop := match k with [] => True | c :: _ => p c = false end.

Lemma split_run (p : Z -> bool) a b k1 k2 :
  forallb p a = true -> forallb p b = true -> boundary p k1 -> boundary p k2 ->
  a ++ k1 = b ++ k2 -> a = b /\ k1 = k2.
Proof.
  revert b. induction a as [|c a IH]; intros [|d b] Ha Hb H1 H2 E; simpl in *.
  - done.
  - subst k1. simpl in H1. by rewrite H1 in Hb.
  - subst k2. simpl in H2. by rewrite H2 in Ha.
  - injection E as -> E. apply andb_prop in Ha as [_ Ha], Hb as [_ Hb].
    destruct (IH _ Ha Hb H1 H2 E) as [-> ->]. done.
Qed.

Lemma split_word w v k1 k2 :
  is_word w = true -> is_word v = true -> boundary word_char k1 -> boundary word_char k2 ->
  str w ++ k1 = str v ++ k2 -> w = v /\ k1 = k2.
Proof.
  intros [_ Hw]%andb_prop [_ Hv]%andb_prop H1 H2 E.
  destruct (split_run _ _ _ _ _ Hw Hv H1 H2 E) as [?%str_inj ->]. done.
Qed.

Lemma word_head w : is_word w = true -> exists c s, str w = c :: s /\ word_char c = true.
Proof. destruct w as [|a w]; [done|]. intros [_ [Ha _]%andb_prop]%andb_prop. by exists (chr a), (str w). Qed.

Lemma word_not_boundary w k k' : is_word w = true -> boundary word_char k -> k <> str w ++ k'.
Proof. intros (c & s & -> & Hc)%word_head Hk ->. simpl in Hk. by rewrite Hk in Hc. Qed.

(** A separated list after its first element. *)
Definition more (sep : string) (l : list IRType) : list Z := concat (map (fun t => str sep ++ enc t) l).

Lemma join_more sep t l : str (join_strings sep (map mangle_type (t :: l))) = enc t ++ more sep l.
Proof.
  revert t. induction l as [|u l IH]; intros t; [by rewrite app_nil_r|].
  change (str (mangle_type t +:+ sep +:+ join_strings sep (map mangle_type (u :: l))) = enc t ++ more sep (u :: l)).
  rewrite !str_app, IH. unfold more. simpl. by rewrite <- app_assoc.
Qed.

Definition dotted (l : list string) : list Z := concat (map (fun s => str "." ++ str s) l).

Lemma join_dotted s l : str (join_strings "." (s :: l)) = str s ++ dotted l.
Proof.
  revert s. induction l as [|u l IH]; intros s; [by rewrite app_nil_r|].
  change (str (s +:+ "." +:+ join_strings "." (u :: l)) = str s ++ dotted (u :: l)).
  rewrite !str_app, IH. unfold dotted. simpl. done.
Qed.

(** ** Where a name ends *)

Section Decode.
Context (packages : list string) (enum_of : Identifier -> bool).
Hypothesis Hpackages : Forall (fun p => p ∉ builtins) packages.

Notation roots := (packages ++ builtins).
Notation named := (named packages enum_of).
Notation declared := (declared packages).

(** What may follow a type inside a symbol: a closing or separating character, a dot and
    the first word of another type, a dot and the [$] of a piece of glue, or, unless the
    type is a union itself, the next member of a union. *)
Inductive stop (u : bool) : list Z -> Prop :=
| stop_end : stop u []
| stop_close k : stop u (str "$" ++ k)
| stop_comma k : stop u (str "," ++ k)
| stop_semi k : stop u (str ";" ++ k)
| stop_fence k : stop u (str ".$" ++ k)
| stop_root w k : w ∈ roots -> is_word w = true -> boundary word_char k -> stop u (str "." ++ str w ++ k)
| stop_or k : u = false -> stop u (str "_or_" ++ k).

Lemma stop_boundary u k : stop u k -> boundary word_char k.
Proof. by destruct 1. Qed.

Lemma stop_weaken u k : stop u k -> stop false k.
Proof. destruct 1; by constructor. Qed.

(** What may follow the path of a declaration. *)
Definition path_stop (k : list Z) : Prop := stop false k \/ exists k', k = str "_$" ++ k'.

Lemma path_stop_boundary k : path_stop k -> boundary word_char k.
Proof. intros [H | [k' ->]]; [by eapply stop_boundary | done]. Qed.

Lemma dotted_boundary l k : boundary word_char k -> boundary word_char (dotted l ++ k).
Proof. by destruct l. Qed.

Definition segment (s : string) : bool := is_word s && bool_decide (s ∉ roots).

Lemma path_stop_segment s k k' :
  segment s = true -> boundary word_char k' -> path_stop k -> k <> str "." ++ str s ++ k'.
Proof.
  intros [Hs Hr%bool_decide_eq_true]%andb_prop Hb Hk ->. pose proof (word_head _ Hs) as (c & w & Ec & Hc).
  rewrite Ec in Hk. destruct Hk as [Hk | [k2 Hk]]; [|done].
  inversion Hk as [|k2 E|k2 E|k2 E|k2 E|v k2 Hv Hw Hb2 E|k2 _ E]; try done; simpl in E; simplify_eq.
  assert (H : str v ++ k2 = str s ++ k') by (by rewrite Ec).
  apply split_word in H as [-> _]; done.
Qed.

Lemma dotted_cons s l k : dotted (s :: l) ++ k = str "." ++ str s ++ dotted l ++ k.
Proof. unfold dotted. simpl. by rewrite <- app_assoc. Qed.

Lemma dotted_decode l1 l2 k1 k2 :
  forallb segment l1 = true -> forallb segment l2 = true -> path_stop k1 -> path_stop k2 ->
  dotted l1 ++ k1 = dotted l2 ++ k2 -> l1 = l2 /\ k1 = k2.
Proof.
  intros H1 H2 Hk1 Hk2. pose proof (path_stop_boundary _ Hk1). pose proof (path_stop_boundary _ Hk2).
  revert l2 H2. induction l1 as [|s l1 IH]; intros [|v l2] H2 E; [done| | |].
  1: exfalso; rewrite dotted_cons in E. 2: exfalso; rewrite dotted_cons in E; symmetry in E.
  1-2: apply path_stop_segment in E; auto using dotted_boundary; [by apply andb_prop in H2 as [] || by apply andb_prop in H1 as []].
  rewrite !dotted_cons in E. apply andb_prop in H1 as [[Hs _]%andb_prop H1], H2 as [[Hv _]%andb_prop H2].
  injection E as E. apply split_word in E as [-> E]; auto using dotted_boundary.
  destruct (IH H1 l2 H2 E) as [-> ->]. done.
Qed.

(** The part of a symbol that comes after the path. *)
Definition targs (args : list IRType) : list Z :=
  match args with [] => [] | _ => str (render_type_args args) end.

Lemma type_name_text s args : str (mangled_type_name s args) = str s ++ targs args.
Proof. destruct args as [|a args]; simpl; [by rewrite app_nil_r | by apply str_app]. Qed.

Lemma targs_stop args k : stop false k -> path_stop (targs args ++ k).
Proof. destruct args as [|a args]; intros H; [by left|]. right. eexists. unfold targs, render_type_args. by rewrite !str_app, <- !app_assoc. Qed.

Lemma declared_text i k : declared i = true -> exists s l,
  path i = s :: l /\ is_word (Types.package i) = true /\ Types.package i ∈ packages /\ is_word s = true
  /\ forallb segment l = true
  /\ str (symbol_from_identifier i) ++ k = str (Types.package i) ++ str "." ++ str s ++ dotted l ++ k.
Proof.
  unfold declared. destruct (path i) as [|s l] eqn:Ep; [by rewrite andb_false_r|].
  rewrite !andb_true_iff. intros ((((Hp%bool_decide_eq_true & Hw) & _) & (Hs & Hl)%andb_prop) & Hr).
  exists s, l. repeat split; [done..| |].
  - simpl in Hr. clear -Hl Hr. induction l as [|v l IH]; [done|]. simpl in *. unfold segment.
    apply andb_prop in Hl as [-> Hl], Hr as [-> Hr]. by apply IH.
  - unfold symbol_from_identifier, qualified_name. rewrite Ep, !str_app, join_dotted. by rewrite <- !app_assoc.
Qed.

Definition headed (x : list Z) : Prop := exists w r,
  w ∈ roots /\ is_word w = true /\ x = str w ++ r /\ forall k, boundary word_char k -> boundary word_char (r ++ k).

Lemma builtin_head w r x :
  x = str w ++ r -> bool_decide (w ∈ builtins) = true -> is_word w = true ->
  (forall k, boundary word_char k -> boundary word_char (r ++ k)) -> headed x.
Proof. intros -> Hw%bool_decide_eq_true ? ?. exists w, r. split; [|done]. apply elem_of_app. by right. Qed.

Lemma nominal_head i args : declared i = true -> headed (str (mangled_type_name (symbol_from_identifier i) args)).
Proof.
  intros (s & l & _ & Hw & Hp & _ & _ & E)%(declared_text i (targs args)).
  rewrite type_name_text, E. eexists _, _. split; [apply elem_of_app; by left|]. done.
Qed.

Ltac builtin w := eapply (builtin_head w); [reflexivity | reflexivity | reflexivity | done].

(** Every type starts with a package or a builtin. *)
Lemma type_head t : named t -> headed (enc t).
Proof.
  destruct 1 as [t Ht| | | | | | | |i args Hi _ _|i args Hi _ _|];
    [|builtin "CPtr"|builtin "Indirect"|builtin "List"|builtin "Set"|builtin "Map"|builtin "Fn"|builtin "Tuple"
     |by apply nominal_head|by apply nominal_head|builtin "Union"].
  apply (builtin_head (mangle_type t) []); [by rewrite app_nil_r|by destruct t..|done].
Qed.

(** ** Separated lists *)

(** What ends a list with the given separator. *)
Inductive closes : string -> list Z -> Prop :=
| closes_dot k : closes "." (str "$" ++ k)
| closes_comma k : closes "," (str "$" ++ k)
| closes_semi k : closes "," (str ";" ++ k)
| closes_or k : stop true k -> closes "_or_" k.

Definition flat (sep : string) (l : list IRType) : Prop := sep = "_or_" -> Forall (fun t => is_union t = false) l.

Lemma closes_boundary sep k : closes sep k -> boundary word_char k.
Proof. destruct 1; [done..|by eapply stop_boundary]. Qed.

Lemma closes_not_sep sep k k' : closes sep k -> k <> str sep ++ k'.
Proof. destruct 1 as [| | |k H]; [done..|]. by destruct H. Qed.

Lemma more_cons sep t l k : more sep (t :: l) ++ k = str sep ++ enc t ++ more sep l ++ k.
Proof. unfold more. simpl. by rewrite <- !app_assoc. Qed.

Lemma more_boundary sep l k : closes sep k -> boundary word_char (more sep l ++ k).
Proof. intros H. destruct l; [by eapply closes_boundary|]. rewrite more_cons. by destruct H. Qed.

Lemma type_stop t u k : named t -> boundary word_char k -> stop u (str "." ++ enc t ++ k).
Proof. intros (w & r & Hw & Hr & -> & Hk)%type_head H. rewrite <- app_assoc. constructor; auto. Qed.

Lemma more_stop sep u l k : closes sep k -> Forall named l -> (sep = "_or_" -> u = false) -> stop u (more sep l ++ k).
Proof.
  intros H Hl Hu. destruct l as [|t l]; [|rewrite more_cons; inversion_clear Hl; pose proof (more_boundary _ l _ H)].
  - destruct H as [| | |k H]; [constructor..|]. rewrite Hu by done. by eapply stop_weaken.
  - destruct H; [by apply type_stop|apply stop_comma|apply stop_comma|]. apply stop_or. by apply Hu.
Qed.

Definition decodes (t : IRType) : Prop := forall t' k k',
  named t' -> stop (is_union t) k -> stop (is_union t') k' -> enc t ++ k = enc t' ++ k' -> t = t' /\ k = k'.

(** An element and what follows it. *)
Lemma item_decode sep t l t' l' k k' :
  decodes t -> Forall named (t :: l) -> Forall named (t' :: l') -> flat sep (t :: l) -> flat sep (t' :: l') ->
  closes sep k -> closes sep k' ->
  enc t ++ more sep l ++ k = enc t' ++ more sep l' ++ k' -> t = t' /\ more sep l ++ k = more sep l' ++ k'.
Proof.
  intros D [? ?]%Forall_cons [? ?]%Forall_cons F F' ? ?. apply D; [done|apply more_stop|apply more_stop]; try done.
  - by intros [? _]%F%Forall_cons.
  - by intros [? _]%F'%Forall_cons.
Qed.

Lemma flat_tail sep t l : flat sep (t :: l) -> flat sep l.
Proof. by intros H [_ ?]%H%Forall_cons. Qed.

Lemma more_decode sep l l' k k' :
  Forall decodes l -> Forall named l -> Forall named l' -> flat sep l -> flat sep l' -> closes sep k -> closes sep k' ->
  more sep l ++ k = more sep l' ++ k' -> l = l' /\ k = k'.
Proof.
  intros D. revert l'. induction D as [|t l Dt D IH]; intros [|t' l'] N N' F F' C C' E; [done| | |].
  - rewrite more_cons in E. by apply closes_not_sep in E.
  - rewrite more_cons in E. symmetry in E. by apply closes_not_sep in E.
  - rewrite !more_cons in E. apply app_inv_head in E.
    apply item_decode in E as [-> E]; try done. apply Forall_cons in N as [_ N], N' as [_ N'].
    apply IH in E as [-> ->]; eauto using flat_tail.
Qed.

Definition items (sep : string) (l : list IRType) : list Z := str (join_strings sep (map mangle_type l)).

Lemma items_decode sep l l' k k' :
  Forall decodes l -> Forall named l -> Forall named l' -> flat sep l -> flat sep l' -> closes sep k -> closes sep k' ->
  items sep l ++ k = items sep l' ++ k' -> l = l' /\ k = k'.
Proof.
  intros D N N' F F' C C' E. unfold items in E. destruct l as [|t l], l' as [|t' l']; rewrite ?join_more, <- ?app_assoc in E.
  - done.
  - apply Forall_cons in N' as [(w & r & _ & Hw & Et & _)%type_head _]. rewrite Et, <- app_assoc in E.
    apply word_not_boundary in E; eauto using closes_boundary. done.
  - apply Forall_cons in N as [(w & r & _ & Hw & Et & _)%type_head _]. rewrite Et, <- app_assoc in E. symmetry in E.
    apply word_not_boundary in E; eauto using closes_boundary. done.
  - apply Forall_cons in D as [Dt D]. apply item_decode in E as [-> E]; try done.
    apply Forall_cons in N as [_ N], N' as [_ N'].
    apply more_decode in E as [-> ->]; eauto using flat_tail.
Qed.

(** ** Types *)

Lemma targs_cons a args k : targs (a :: args) ++ k = str "_$" ++ items "." (a :: args) ++ str "$" ++ k.
Proof. unfold targs, render_type_args. by rewrite !str_app, <- !app_assoc. Qed.

(** Type arguments, when what follows cannot be taken for their opening. *)
Lemma targs_decode args args' k k' :
  Forall decodes args -> Forall named args -> Forall named args' ->
  (forall x, k <> str "_$" ++ x) -> (forall x, k' <> str "_$" ++ x) ->
  targs args ++ k = targs args' ++ k' -> args = args' /\ k = k'.
Proof.
  intros D N N' K K' E. destruct args as [|a args], args' as [|a' args']; rewrite ?targs_cons in E.
  - done.
  - by apply K in E.
  - symmetry in E. by apply K' in E.
  - apply app_inv_head in E. apply items_decode in E as [-> E]; [by apply app_inv_head in E|..]; try done; constructor.
Qed.

(** A nominal type is read back to its declaration and its arguments. *)
Lemma nominal_decode i args i' args' k k' :
  declared i = true -> declared i' = true -> Forall decodes args -> Forall named args -> Forall named args' ->
  stop false k -> stop false k' ->
  str (mangled_type_name (symbol_from_identifier i) args) ++ k
    = str (mangled_type_name (symbol_from_identifier i') args') ++ k' -> i = i' /\ args = args' /\ k = k'.
Proof.
  intros Hi Hi' D N N' K K' E. rewrite !type_name_text, <- !app_assoc in E.
  pose proof (targs_stop args _ K) as Kt. pose proof (targs_stop args' _ K') as Kt'.
  destruct (declared_text i (targs args ++ k) Hi) as (s & l & Ep & Hw & _ & Hs & Hl & Et).
  destruct (declared_text i' (targs args' ++ k') Hi') as (s' & l' & Ep' & Hw' & _ & Hs' & Hl' & Et').
  rewrite Et, Et' in E. apply split_word in E as [Epk E]; [|done..]. injection E as E.
  apply split_word in E as [-> E]; auto using dotted_boundary, path_stop_boundary.
  apply dotted_decode in E as [-> E]; [|done..].
  split; [destruct i, i'; simpl in *; congruence|].
  apply targs_decode in E; [done..|intros x ->; inversion K|intros x ->; inversion K'].
Qed.

(** The builtin a type starts with, none for a nominal type. *)
Definition form (t : IRType) : option string :=
  match t with
  | TCPtr _ => Some "CPtr" | TFunction _ _ => Some "Fn" | TIndirect _ => Some "Indirect" | TList _ => Some "List"
  | TMap _ _ => Some "Map" | TSet _ => Some "Set" | TTuple _ => Some "Tuple" | TUnion _ _ => Some "Union"
  | TEnum _ | TStruct _ => None
  | _ => Some (mangle_type t)
  end.

(** The text of a type that starts with a builtin. *)
Lemma form_text t w : named t -> form t = Some w ->
  bool_decide (w ∈ builtins) = true /\ is_word w = true
  /\ exists r, enc t = str w ++ r /\ forall k, boundary word_char k -> boundary word_char (r ++ k).
Proof.
  intros N [= E]; destruct N as [t Ht| | | | | | | | | |]; try discriminate E;
    [destruct t; try discriminate Ht|..]; injection E as <-; (split; [done|split; [done|]]);
    first [by exists [] | eexists; split; [reflexivity|done]].
Qed.

Lemma nominal_not_builtin t t' k k' w : named t -> named t' -> form t = None -> form t' = Some w ->
  stop (is_union t') k' -> enc t ++ k <> enc t' ++ k'.
Proof.
  intros N N' F F' K' E. destruct (form_text _ _ N' F') as (Hb%bool_decide_eq_true & Hw & r & Er & Hr).
  assert (exists i args, declared i = true /\ enc t = str (mangled_type_name (symbol_from_identifier i) args))
    as (i & args & Hi & Et) by (destruct N as [t Ht| | | | | | | | | |]; [by destruct t|done..|eauto|eauto|done]).
  rewrite Et, Er, type_name_text, <- !app_assoc in E.
  destruct (declared_text i (targs args ++ k) Hi) as (s & l & _ & Hp & Hm & _ & _ & Ei). rewrite Ei in E.
  apply split_word in E as [<- _]; eauto using stop_boundary; [|done].
  by apply (proj1 (Forall_forall _ _) Hpackages _ Hm).
Qed.

Lemma same_form t t' k k' : named t -> named t' -> stop (is_union t) k -> stop (is_union t') k' ->
  enc t ++ k = enc t' ++ k' -> form t = form t'.
Proof.
  intros N N' K K' E. destruct (form t) as [w|] eqn:F, (form t') as [w'|] eqn:F'; [| | |done].
  - destruct (form_text _ _ N F) as (_ & Hw & r & Er & Hr), (form_text _ _ N' F') as (_ & Hw' & r' & Er' & Hr').
    rewrite Er, Er', <- !app_assoc in E. apply split_word in E as [-> _]; eauto using stop_boundary.
  - symmetry in E. by apply (nominal_not_builtin t' t _ _ w) in E.
  - by apply (nominal_not_builtin t t' _ _ w') in E.
Qed.

Definition Forall_step {A} {P Q : A -> Prop} (f : forall x, P x -> Q x) : forall l, Forall P l -> Forall Q l :=
  fix go l (H : Forall P l) : Forall Q l :=
    match H with
    | List.Forall_nil _ => List.Forall_nil _
    | List.Forall_cons _ x _ h t => List.Forall_cons _ x _ (f x h) (go _ t)
    end.

Lemma closed_decode t t' k k' : decodes t -> named t' ->
  enc t ++ str "$" ++ k = enc t' ++ str "$" ++ k' -> t = t' /\ k = k'.
Proof. intros D N E. apply D in E as [-> E]; [|done|constructor..]. by apply app_inv_head in E. Qed.

Lemma pair_decode a b a' b' k k' : decodes a -> decodes b -> named b -> named a' -> named b' ->
  enc a ++ str "." ++ enc b ++ str "$" ++ k = enc a' ++ str "." ++ enc b' ++ str "$" ++ k' ->
  a = a' /\ b = b' /\ k = k'.
Proof.
  intros Da Db N Na Nb E. apply Da in E as [-> E]; [|done|by apply type_stop..].
  apply app_inv_head in E. by apply closed_decode in E as [-> ->].
Qed.

Lemma function_decode ps r ps' r' k k' : Forall decodes ps -> decodes r -> Forall named ps -> Forall named ps' -> named r' ->
  items "," ps ++ str ";" ++ enc r ++ str "$" ++ k = items "," ps' ++ str ";" ++ enc r' ++ str "$" ++ k' ->
  ps = ps' /\ r = r' /\ k = k'.
Proof.
  intros Dp Dr N Np Nr E. apply items_decode in E as [-> E]; [|done..|constructor|constructor].
  apply app_inv_head in E. by apply closed_decode in E as [-> ->].
Qed.

Lemma tuple_decode ts ts' k k' : Forall decodes ts -> Forall named ts -> Forall named ts' ->
  items "," ts ++ str "$" ++ k = items "," ts' ++ str "$" ++ k' -> ts = ts' /\ k = k'.
Proof.
  intros D N N' E. apply items_decode in E as [-> E]; [|done..|constructor|constructor].
  by apply app_inv_head in E.
Qed.

(** The other type has the same constructor: strips the opening both texts share. *)
Ltac same_opening :=
  match goal with
  | F : form _ = form ?t', N' : Mangling.named _ _ ?t', E : _ ++ _ = _ ++ _ |- _ =>
      destruct t'; try discriminate F; inversion N'; [done|]; subst;
      unfold enc, union_mangle in E; cbn [mangle_type] in E; rewrite !str_app, <- !app_assoc in E; apply app_inv_head in E
  end.

(** Reading a type from the left determines it. *)
Lemma decode_named : forall t, named t -> decodes t.
Proof.
  fix IH 2. intros t N t' k k' N' K K' E. pose proof (same_form _ _ _ _ N N' K K' E) as F.
  destruct N as [t Ht|t N|t N|t N|t N|a b Na Nb|ps r Np Nr|ts Nt|i args Hi He Ha|i args Hi He Ha|ms Hm Nm Fm].
  - destruct t; try discriminate Ht; destruct t'; try discriminate F; by apply app_inv_head in E.
  - same_opening. by apply closed_decode in E as [-> ->]; [|apply IH|].
  - same_opening. by apply closed_decode in E as [-> ->]; [|apply IH|].
  - same_opening. by apply closed_decode in E as [-> ->]; [|apply IH|].
  - same_opening. by apply closed_decode in E as [-> ->]; [|apply IH|].
  - same_opening.
    by apply pair_decode in E as (-> & -> & ->); [|apply IH; done..| | |].
  - same_opening.
    by apply function_decode in E as (-> & -> & ->); [|by apply (Forall_step IH)|by apply IH|..].
  - same_opening.
    by apply tuple_decode in E as (-> & ->); [|by apply (Forall_step IH)|..].
  - pose proof (Forall_step IH _ Ha) as D. inversion N' as [? H| | | | | | | |i' args' Hi' He' Ha'|i' args' Hi' He' Ha'|]; subst;
      try discriminate F; [by destruct t'| |]; apply nominal_decode in E as (-> & -> & ->); try done; congruence.
  - pose proof (Forall_step IH _ Ha) as D. inversion N' as [? H| | | | | | | |i' args' Hi' He' Ha'|i' args' Hi' He' Ha'|]; subst;
      try discriminate F; [by destruct t'| |]; apply nominal_decode in E as (-> & -> & ->); try done; congruence.
  - same_opening.
    by apply (items_decode "_or_") in E as (-> & ->); [|by apply (Forall_step IH)|done|done|intros _..|constructor|constructor].
Qed.

(** Types with the same mangled name are the same type. *)
Lemma mangle_type_injective t t' : named t -> named t' -> mangle_type t = mangle_type t' -> t = t'.
Proof.
  intros N N' E. apply (decode_named t N t' [] []); [done|constructor..|]. by rewrite !app_nil_r; apply (f_equal str).
Qed.

(** ** Methods and glue *)

Lemma pretty_digits n : forallb is_ascii_digit (str (pretty (n : nat))) = true.
Proof.
  assert (Hc : forall x, is_ascii_digit (chr (pretty_N_char x)) = true)
    by (intros x; unfold pretty_N_char; by repeat case_match).
  assert (Hgo : forall x s, forallb is_ascii_digit (str s) = true -> forallb is_ascii_digit (str (pretty_N_go x s)) = true).
  { intros x. induction (N.lt_wf_0 x) as [x _ IH]; intros s Hs. destruct (decide (0 < x)%N) as [Hx|Hx].
    - rewrite pretty_N_go_step by done. apply IH; [by apply N.div_lt|]. simpl. by rewrite Hc.
    - assert (x = 0%N) as -> by lia. by rewrite pretty_N_go_0. }
  unfold pretty, pretty_nat, pretty, pretty_N. case_decide; [done|]. by apply Hgo.
Qed.

Lemma method_text i args m n margs :
  str (mangled_method_name (symbol_from_identifier i) args m n margs)
  = str (symbol_from_identifier i) ++ targs args ++ str "." ++ str m ++ str "/" ++ str (pretty n) ++ targs margs.
Proof.
  unfold mangled_method_name, derived. rewrite str_app, type_name_text, <- app_assoc.
  destruct margs; by rewrite !str_app, <- ?app_assoc, ?app_nil_r.
Qed.

(** A name that a slash follows is no segment of the receiver's path. *)
Lemma segment_not_method m v R X :
  is_ident m = true -> is_word v = true -> (exists k, X = str "." ++ k \/ X = str "_$" ++ k) ->
  str m ++ str "/" ++ R <> str v ++ X.
Proof.
  intros Hm [_ Hv]%andb_prop (k & HX) E.
  assert (Hv' : forallb ident_char (str v) = true).
  { rewrite forallb_forall in Hv |- *. intros c Hc. unfold ident_char. by rewrite Hv. }
  destruct HX as [-> | ->].
  - by apply (split_run ident_char) in E as [_ E].
  - change (str "_$" ++ k) with (str "_" ++ str "$" ++ k) in E. rewrite (app_assoc (str v)) in E.
    apply (split_run ident_char) in E as [_ E]; try done. by rewrite forallb_app, Hv'.
Qed.

Lemma path_next l args k : exists k', dotted l ++ targs args ++ str "." ++ k = str "." ++ k'
  \/ dotted l ++ targs args ++ str "." ++ k = str "_$" ++ k'.
Proof.
  destruct l as [|s l]; [|rewrite dotted_cons; eauto]. destruct args as [|a args]; [eexists; by left|].
  rewrite targs_cons. eexists. by right.
Qed.

Lemma receiver_boundary l args k : boundary word_char (dotted l ++ targs args ++ str "." ++ k).
Proof. apply dotted_boundary. by destruct args. Qed.

(** The receiver of a method. *)
Lemma receiver_decode l l' args args' m m' R R' :
  forallb segment l = true -> forallb segment l' = true -> is_ident m = true -> is_ident m' = true ->
  dotted l ++ targs args ++ str "." ++ str m ++ str "/" ++ R
    = dotted l' ++ targs args' ++ str "." ++ str m' ++ str "/" ++ R' ->
  l = l' /\ targs args ++ str "." ++ str m ++ str "/" ++ R = targs args' ++ str "." ++ str m' ++ str "/" ++ R'.
Proof.
  intros H H' Hm Hm'. revert l' H'. induction l as [|s l IH]; intros [|s' l'] H' E; [done| | |].
  - exfalso. rewrite dotted_cons in E. destruct args; [|by rewrite targs_cons in E].
    injection E as E. apply andb_prop in H' as [[Hs _]%andb_prop _].
    by apply segment_not_method in E; [| | |apply path_next].
  - exfalso. rewrite dotted_cons in E. destruct args'; [|by rewrite targs_cons in E].
    injection E as E. apply andb_prop in H as [[Hs _]%andb_prop _]. symmetry in E.
    by apply segment_not_method in E; [| | |apply path_next].
  - rewrite !dotted_cons in E. apply andb_prop in H as [[Hs _]%andb_prop H], H' as [[Hs' _]%andb_prop H'].
    injection E as E. apply split_word in E as [-> E]; [|done|done|apply receiver_boundary..].
    destruct (IH H l' H' E) as [-> ?]. done.
Qed.

Lemma method_decode m m' (n n' : nat) margs margs' :
  is_ident m = true -> is_ident m' = true -> Forall named margs -> Forall named margs' ->
  str m ++ str "/" ++ str (pretty n) ++ targs margs = str m' ++ str "/" ++ str (pretty n') ++ targs margs' ->
  m = m' /\ n = n' /\ margs = margs'.
Proof.
  intros Hm Hm' N N' E. apply (split_run ident_char) in E as [->%str_inj E]; [|done..]. injection E as E.
  apply (split_run is_ascii_digit) in E as [->%str_inj%(inj pretty) E]; auto using pretty_digits; [|by destruct margs|by destruct margs'].
  rewrite <- (app_nil_r (targs margs)), <- (app_nil_r (targs margs')) in E.
  by apply targs_decode in E as [-> _]; [|apply (Forall_step decode_named)|..].
Qed.

Lemma method_injective i args m n margs i' args' m' n' margs' :
  declared i = true -> declared i' = true -> is_ident m = true -> is_ident m' = true ->
  Forall named args -> Forall named args' -> Forall named margs -> Forall named margs' ->
  mangled_method_name (symbol_from_identifier i) args m n margs
    = mangled_method_name (symbol_from_identifier i') args' m' n' margs' ->
  i = i' /\ args = args' /\ m = m' /\ n = n' /\ margs = margs'.
Proof.
  intros Hi Hi' Hm Hm' N N' M M' E%(f_equal str). rewrite !method_text in E.
  destruct (declared_text i [] Hi) as (s & l & Ep & Hw & _ & Hs & Hl & _).
  destruct (declared_text i' [] Hi') as (s' & l' & Ep' & Hw' & _ & Hs' & Hl' & _).
  unfold symbol_from_identifier, qualified_name in E. rewrite Ep, Ep', !str_app, !join_dotted, <- !app_assoc in E.
  apply split_word in E as [Epk E]; [|done..]. injection E as E.
  apply split_word in E as [-> E]; [|done|done|apply receiver_boundary..].
  apply receiver_decode in E as [-> E]; [|done..].
  apply targs_decode in E as [-> E]; [|by apply (Forall_step decode_named)|done..].
  injection E as E. apply method_decode in E as (-> & -> & ->); [|done..].
  split; [destruct i, i'; simpl in *; congruence | done].
Qed.

(** The text of a package's function. *)
Lemma function_text p f n args :
  str (mangled_function_name (source_function_symbol (mkIdentifier p [f]) n) args)
  = str p ++ str "." ++ str f ++ str "/" ++ str (pretty n) ++ targs args.
Proof.
  unfold mangled_function_name. rewrite type_name_text. unfold source_function_symbol, derived, symbol_from_identifier.
  unfold qualified_name. simpl path. simpl join_strings. by rewrite !str_app, <- !app_assoc.
Qed.

Lemma function_injective p f n args p' f' n' args' :
  is_word p = true -> is_word p' = true -> is_ident f = true -> is_ident f' = true ->
  Forall named args -> Forall named args' ->
  mangled_function_name (source_function_symbol (mkIdentifier p [f]) n) args
    = mangled_function_name (source_function_symbol (mkIdentifier p' [f']) n') args' ->
  p = p' /\ f = f' /\ n = n' /\ args = args'.
Proof.
  intros Hp Hp' Hf Hf' N N' E%(f_equal str). rewrite !function_text in E.
  apply split_word in E as [-> E]; [|done..]. apply app_inv_head in E.
  by apply method_decode in E as (-> & -> & ->).
Qed.

Lemma function_not_method p f n args i rargs m k margs :
  is_word p = true -> is_ident f = true -> declared i = true ->
  mangled_function_name (source_function_symbol (mkIdentifier p [f]) n) args
    <> mangled_method_name (symbol_from_identifier i) rargs m k margs.
Proof.
  intros Hp Hf Hi E%(f_equal str). rewrite function_text, method_text in E.
  destruct (declared_text i [] Hi) as (s & l & Ep & Hw & _ & Hs & Hl & _).
  unfold symbol_from_identifier, qualified_name in E. rewrite Ep, !str_app, !join_dotted, <- !app_assoc in E.
  apply split_word in E as [_ E]; [|done..]. apply app_inv_head in E.
  apply segment_not_method in E; [done..|]. apply path_next.
Qed.

Definition no_slash (x : list Z) : bool := forallb (fun c => negb (c =? chr "/")) x.

Lemma no_slash_app x y : no_slash (x ++ y) = no_slash x && no_slash y.
Proof. apply forallb_app. Qed.

Lemma no_slash_word w : is_word w = true -> no_slash (str w) = true.
Proof.
  intros [_ H]%andb_prop. unfold no_slash. rewrite forallb_forall in H |- *. intros c Hc%H.
  destruct (c =? chr "/") eqn:E; [|done]. apply Z.eqb_eq in E. by subst c.
Qed.

Lemma no_slash_items sep l : no_slash (str sep) = true -> Forall (fun t => no_slash (enc t) = true) l -> no_slash (items sep l) = true.
Proof.
  intros Hs H. unfold items. destruct H as [|t l Ht H]; [done|]. rewrite join_more, no_slash_app, Ht. simpl.
  induction H as [|u l Hu H IH]; [done|]. unfold more in *. simpl. by rewrite !no_slash_app, Hs, Hu, IH.
Qed.

Lemma no_slash_nominal i args : declared i = true -> Forall (fun t => no_slash (enc t) = true) args ->
  no_slash (str (mangled_type_name (symbol_from_identifier i) args)) = true.
Proof.
  intros (s & l & _ & Hw & _ & Hs & Hl & E)%(declared_text i (targs args)) Ha. rewrite type_name_text, E, !no_slash_app.
  rewrite (no_slash_word _ Hw), (no_slash_word _ Hs). change (no_slash (dotted l) && no_slash (targs args) = true). apply andb_true_intro. split.
  - clear -Hl. induction l as [|v l IH]; [done|]. apply andb_prop in Hl as [[Hv _]%andb_prop Hl].
    rewrite <- (app_nil_r (dotted _)), dotted_cons, app_nil_r, !no_slash_app, (no_slash_word _ Hv). by apply IH.
  - destruct args as [|a args]; [done|]. rewrite <- (app_nil_r (targs _)), targs_cons, !no_slash_app.
    by rewrite no_slash_items.
Qed.

Lemma no_slash_type : forall t, named t -> no_slash (enc t) = true.
Proof.
  fix IH 2. intros t N.
  destruct N as [t Ht|t N|t N|t N|t N|a b Na Nb|ps r Np Nr|ts Nt|i args Hi He Ha|i args Hi He Ha|ms Hm Nm Fm];
    [by destruct t|..]; try (apply no_slash_nominal; [done|by apply (Forall_step IH)]);
    unfold enc, union_mangle; cbn [mangle_type]; rewrite !str_app, !no_slash_app;
    repeat match goal with
    | N : Mangling.named _ _ ?x |- _ => apply IH in N; unfold enc in N; rewrite N
    | N : Forall (Mangling.named _ _) ?l |- context [join_strings ?sep (map mangle_type ?l)] =>
        pose proof (no_slash_items sep l eq_refl (Forall_step IH _ N)) as H; unfold items in H; rewrite H
    end; done.
Qed.

Lemma method_slash s args m n margs : no_slash (str (mangled_method_name s args m n margs)) = false.
Proof.
  unfold mangled_method_name, derived. rewrite str_app, no_slash_app. apply andb_false_intro2.
  destruct margs; rewrite !str_app, !no_slash_app; by rewrite !andb_false_r.
Qed.

Lemma function_slash p f n args :
  no_slash (str (mangled_function_name (source_function_symbol (mkIdentifier p [f]) n) args)) = false.
Proof. rewrite function_text, !no_slash_app. by rewrite !andb_false_r. Qed.

(** Types and their glue: what follows the type tells the kind. *)
Lemma fenced_decode t t' (k k' : string) :
  named t -> named t' -> stop (is_union t) (str k) -> stop (is_union t') (str k') ->
  derived (mangle_type t) k = derived (mangle_type t') k' -> t = t' /\ k = k'.
Proof.
  intros N N' K K' E%(f_equal str). unfold derived in E. rewrite !str_app in E.
  by apply (decode_named t N t') in E as [-> ->%str_inj].
Qed.

(** ** All the symbols *)

Inductive Glue := CloneGlue | DeepCopyGlue | DropGlue | EnvelopeDropGlue | EnvelopeCopyGlue.

Definition glue_symbol (g : Glue) : IRType -> IRSymbol :=
  match g with
  | CloneGlue => clone_glue_symbol
  | DeepCopyGlue => deep_copy_glue_symbol
  | DropGlue => drop_glue_symbol
  | EnvelopeDropGlue => envelope_drop_glue_symbol
  | EnvelopeCopyGlue => envelope_copy_glue_symbol
  end.

(** What the compiler gives a symbol: an instantiated type, a method of a declared type
    with the arguments of the receiver and its own, an instantiated function of a package,
    and the glue of a type. *)
Inductive Item :=
| ItemType (ty : IRType)
| ItemMethod (receiver : Identifier) (args : list IRType) (name : string) (arity : nat) (margs : list IRType)
| ItemFunction (pkg name : string) (arity : nat) (args : list IRType)
| ItemGlue (g : Glue) (ty : IRType).

Definition item_symbol (x : Item) : IRSymbol :=
  match x with
  | ItemType ty => mangle_type ty
  | ItemMethod i args m n margs => mangled_method_name (symbol_from_identifier i) args m n margs
  | ItemFunction p f n args => mangled_function_name (source_function_symbol (mkIdentifier p [f]) n) args
  | ItemGlue g ty => glue_symbol g ty
  end.

Definition well_named (x : Item) : Prop :=
  match x with
  | ItemType ty | ItemGlue _ ty => named ty
  | ItemMethod i args m _ margs => declared i = true /\ is_ident m = true /\ Forall named args /\ Forall named margs
  | ItemFunction p f _ args => is_word p = true /\ is_ident f = true /\ Forall named args
  end.

Definition glue_suffix (g : Glue) : string :=
  match g with
  | CloneGlue => ".$clone$" | DeepCopyGlue => ".$deep_copy$" | DropGlue => ".$drop$"
  | EnvelopeDropGlue => ".$envdrop$" | EnvelopeCopyGlue => ".$envcopy$"
  end.

Lemma glue_text g t : glue_symbol g t = derived (mangle_type t) (glue_suffix g).
Proof. by destruct g, t. Qed.

Lemma derived_nil s : derived s "" = s.
Proof. apply str_inj. unfold derived. by rewrite str_app, app_nil_r. Qed.

Lemma suffix_stop u g : stop u (str (glue_suffix g)).
Proof. destruct g; apply stop_fence. Qed.

Lemma suffix_inj g g' : glue_suffix g = glue_suffix g' -> g = g'.
Proof. by destruct g, g'. Qed.

(** Methods and functions have a slash, types and glue have none. *)
Definition slashed (x : Item) : bool := match x with ItemMethod _ _ _ _ _ | ItemFunction _ _ _ _ => true | _ => false end.

Lemma item_slash x : well_named x -> no_slash (str (item_symbol x)) = negb (slashed x).
Proof.
  destruct x as [t|i args m n margs|p f n args|g t]; intros N; simpl.
  - by apply no_slash_type.
  - apply method_slash.
  - apply function_slash.
  - rewrite glue_text. unfold derived. rewrite str_app, no_slash_app.
    rewrite (no_slash_type t N : no_slash (str (mangle_type t)) = true). by destruct g.
Qed.

(** C8: no two things the compiler instantiates share a symbol. For the types lowering
    builds from the declarations of a program whose names are words, whose packages are
    not called like a builtin, and whose nested types are called neither like a package
    nor like a builtin: instantiated types, methods of declared types, functions of
    packages and pieces of type glue of every kind have the same symbol only if they are
    the same, down to the arguments of the receiver, the name, the arity and their own
    arguments. *)
Theorem symbols_unique (x y : Item) :
  well_named x -> well_named y -> item_symbol x = item_symbol y -> x = y.
Proof.
  intros Nx Ny E. pose proof (item_slash x Nx) as Sx. rewrite E, (item_slash y Ny) in Sx.
  destruct x as [t|i args m n margs|p f n args|g t], y as [t'|i' args' m' n' margs'|p' f' n' args'|g' t'];
    try discriminate Sx; simpl in *; destruct_and?.
  - f_equal. by apply mangle_type_injective.
  - exfalso. rewrite glue_text in E. rewrite <- (derived_nil (mangle_type t)) in E.
    by apply (fenced_decode t t' "") in E as [_ E]; [destruct g'|..|constructor|apply suffix_stop].
  - apply method_injective in E as (-> & -> & -> & -> & ->); done.
  - by apply eq_sym, function_not_method in E.
  - by apply function_not_method in E.
  - by apply function_injective in E as (-> & -> & -> & ->).
  - exfalso. rewrite glue_text in E. rewrite <- (derived_nil (mangle_type t')) in E.
    by apply (fenced_decode t t' _ "") in E as [_ E]; [destruct g|..|apply suffix_stop|constructor].
  - rewrite !glue_text in E. by apply fenced_decode in E as [-> ->%suffix_inj]; [..|apply suffix_stop|apply suffix_stop].
Qed.
End Decode.

(** [Map<String, Option<Test.Item>>] is the only type of its name. *)
Lemma symbols_unique_witness :
  let enum_of i := bool_decide (i = mkIdentifier "Global" ["Option"]) in
  let ty := TMap TString (TEnum "Global.Option_$Test.Item$") in
  Forall (fun p => p ∉ builtins) ["Global"; "Test"] /\ named ["Global"; "Test"] enum_of ty
  /\ forall x, well_named ["Global"; "Test"] enum_of x -> item_symbol x = "Map_$String.Global.Option_$Test.Item$$.$drop$" ->
       x = ItemGlue DropGlue ty.
Proof.
  intros enum_of ty.
  assert (Hp : Forall (fun p => p ∉ builtins) ["Global"; "Test"]) by (by apply (bool_decide_unpack _)).
  assert (Hn : named ["Global"; "Test"] enum_of ty).
  { apply named_map; [by apply named_scalar|].
    apply (named_enum _ _ (mkIdentifier "Global" ["Option"]) [TStruct "Test.Item"]); [done|done|].
    constructor; [|done]. by apply (named_struct _ _ (mkIdentifier "Test" ["Item"]) []). }
  split; [done|]. split; [done|]. intros x Hx E.
  by apply (symbols_unique ["Global"; "Test"] enum_of Hp).
Defined.
